(* ===== verification/_CoqProject ===== *)
-Q . S2P
Prelude.v
KvCells.v
Batch.v
KvCache.v
KvSlot.v
KvMask.v
KvState.v
Utf8.v
Grammar.v
GrammarInit.v
GrammarSample.v
GrammarParser.v
Recurrent.v
RecState.v
Hybrid.v
Alloc.v
HashSet.v
Galloc.v
GallocRun.v
Peg.v
PegTotal.v
