(* ===== verification/Prelude.v ===== *)
(** * Verification of the core logic of llama.cpp

    The repository is llama.cpp with its command line tools and its server.  This
    library models the parts of src/src (libllama) that decide which token sees
    which and which token may come next, and the part of src/ggml that plans the
    memory of a computation graph: plain data structures and algorithms, no
    arithmetic on tensors.  Numerical kernels, device back ends, model files and the
    HTTP and terminal programs are outside of it; see "Not modelled".

    ** How the parts interact

    A user batch is validated, completed and split into micro-batches (Batch).
    The KV cache finds cells for each micro-batch (KvSlot) and records in its
    metadata (KvCells, KvCache) which sequence and position every cell holds.
    From that metadata come the rows to write to and the attention mask (KvMask).
    The cache can be saved and restored (KvState).  A recurrent model has one cell
    for each sequence instead, which is moved to the front before each micro-batch
    (Recurrent), and which can be saved and restored as well (RecState).  A model with
    sliding windows keeps two caches, one with layers of both kinds a cache and a
    recurrent memory side by side (Hybrid).  The graph of a micro-batch gets its memory from the graph
    allocator (Galloc, GallocRun), which keeps its tensors in a hash set (HashSet)
    and cuts their places out of chunks (Alloc).  After the logits of a token are known, the
    grammar of the request removes the candidates that do not fit it, and takes in
    the token that was sampled (Grammar, GrammarSample); the grammar is made from a
    text (GrammarParser), checked for left recursion and expanded to its first
    stacks (GrammarInit); texts are UTF-8 (Utf8).  The reply of the model is taken
    apart by PEG parsers (Peg, PegTotal).

    ** Files

    - Prelude: results and errors, vectors with range checks, machine integers,
      loops, fuel, and the lemmas and tactics that the other files share.
    - KvCells: llama_kv_cells (src/src/llama-kv-cells.h), one definition per method.
    - Batch: llama_batch, llama_ubatch, llama_batch_allocr (src/src/llama-batch.h, .cpp).
    - KvCache: the state of llama_kv_cache and the sequence operations seq_rm,
      seq_cp, seq_keep, seq_add, seq_div, seq_pos_min/max (src/src/llama-kv-cache.cpp).
    - KvSlot: find_slot, apply_ubatch, prepare, init_batch, init_full, init_update,
      update, get_n_kv and llama_kv_cache_context; is_masked_swa
      (src/src/llama-hparams.h), the status codes (src/src/llama-memory.cpp).
    - KvMask: set_input_k_idxs, set_input_v_idxs, set_input_k_shift and
      set_input_kq_mask of src/src/llama-kv-cache.cpp.
    - KvState: state_write and state_read of src/src/llama-kv-cache.cpp.
    - Utf8, Grammar, GrammarInit, GrammarSample, GrammarParser:
      src/src/llama-grammar.h and .cpp, from the decoders to the lazy triggers.
    - Recurrent: llama_memory_recurrent and its context
      (src/src/llama-memory-recurrent.h, .cpp), and the copying of the states in
      llm_graph_context::build_rs (src/src/llama-graph.cpp).
    - RecState: state_write and state_read of src/src/llama-memory-recurrent.cpp, on
      the format and the tensor lemmas of KvState.
    - Hybrid: the interface of memories (src/src/llama-memory.h) as classes,
      llama_kv_cache_iswa (src/src/llama-kv-cache-iswa.h, .cpp) and, over that
      interface, llama_memory_hybrid and llama_memory_hybrid_iswa
      (src/src/llama-memory-hybrid.h, .cpp, src/src/llama-memory-hybrid-iswa.h, .cpp).
    - Alloc: ggml_tallocr and ggml_dyn_tallocr of src/ggml/src/ggml-alloc.c.
    - HashSet: ggml_bitset and ggml_hash_set of src/ggml/src/ggml-impl.h and ggml.c,
      and [TensorTable], the class of what the graph allocator needs of them.
    - Galloc: the planner ggml_gallocr_alloc_graph_impl of src/ggml/src/ggml-alloc.c,
      for any instance of [TensorTable].
    - GallocRun: the graph allocator around it: making it, reserving its buffers,
      giving the tensors their addresses, freeing it; ggml_backend_view_init and
      ggml_backend_tensor_alloc of src/ggml/src/ggml-backend.cpp.

    - Peg, PegTotal: the executor of the PEG parsers (src/common/peg-parser.h, .cpp) with
      its syntax tree, and the UTF-8 reader of src/common/unicode.cpp; PegTotal holds
      what is known about the trie of the delimiters and the check for left recursion.

    ** Conventions

    A method that changes its object is a function from the old state to [res] of
    the new one.  [Err] says how the code fails: [AssertFail] for assert (modelled
    as enabled, so a theorem that excludes it holds for release builds as well),
    [Abort] for GGML_ASSERT and GGML_ABORT, [OutOfRange] for a subscript outside of
    a container (undefined behaviour in C++), [Overflow] for signed overflow,
    [Throw] for a C++ exception, [Dangling] for the use of memory that was freed.  [okP m P] says that none of them happens and that
    the result satisfies [P]; [throwsP m P] allows an exception, [resP E m P] the
    errors of [E].  Positions are 32-bit integers with explicit overflow; uint32_t
    values wrap with [u32] and size_t values with [u64] where the code can make
    them wrap; counters of cells, tokens and children are unbounded (they count
    objects in memory).  So are the ids of grammar rules, which the code casts to
    uint32_t: each stands for a rule in memory, and only a repetition {m,n} with
    n < m could ask for 2^32 of them (GrammarParser, [bounds_reversed]); the theorem
    about repetitions is restricted to m <= n.

    Loops are recursive functions on the list or the counter they run over.  Where
    the code has no bound the function takes fuel, and [OutOfFuel] stands for a
    loop that goes on.  The search of find_slot gets 2 * size + 2 steps, the parser
    2 * length + 3 and the probing of the hash set as many as it has slots, which
    the theorems show to be enough.  The expansion of grammar stacks has no bound
    in the code; [ends m P] says that some amount of fuel suffices, that every
    larger amount gives the same result and that it satisfies [P], so it is total
    correctness of the recursion.

    ** Theorems

    - Cells: the derived indices used and seq_pos agree with the cells after any
      run of operations, and every operation acts on the cells as specified.
    - Batches: what init accepts and generates, and that each way of splitting
      hands out every token exactly once.
    - Cache: the effect of each sequence operation on the set of (sequence,
      position) pairs, the slots that find_slot returns, that apply_ubatch writes
      the tokens and nothing else, and that a batch that was prepared runs to its
      end.
    - Mask: the optimised computation equals the definition of the mask.
    - State: what was saved is restored, for the cache and for the recurrent memory,
      as a whole and for a single sequence.
    - Recurrent memory: it is a map from sequences to positions and states; each
      operation changes the map as its name says, and decoding a batch refines the
      step-by-step change of the map, for any computed states.
    - Memories of two parts: the cache of the whole context holds every position that
      the one of the window holds, after every operation; removing from a hybrid
      memory changes both parts or none; a batch prepared for it runs to its end in
      both parts in step.
    - Memory of a graph: the regions that the dynamic allocator handed out and its
      free blocks tile the chunks after any run of requests and releases; the hash
      set is a map from tensors to slots; in the planned memory every node finds
      its sources as they were computed although places are shared, outputs are
      intact at the end, and with enough room the planner does not fail.  The same
      holds at the real addresses once buffers were reserved and the tensors placed
      in them, also for a graph of the same shape with smaller tensors, and freeing
      the allocator leaves no buffer; only a refusal of the back end prevents it.
    - Grammar: the stacks of a grammar generate its language.  [gen] is the
      language of a grammar given as abstract syntax, [encodes] relates it to the
      rules of the code.  The initial stacks generate the language of the start
      rule; apply_impl keeps the tokens after which the text still begins, as UTF-8, a
      text of the language, up to the corner cases that the theorem names (characters
      that are incomplete at the end of a token, negated classes); tokens that are let
      through are accepted, and along a run the end is allowed exactly if the text is
      in the language.  Parsing a printed grammar preserves its language.
    - PEG parsers: the executor computes a relation between parsers, positions and
      outcomes with trees; its syntax trees are nested in the text; an arena that
      passes the check ends on every text; an until parser stops where it should.
    - Defects: some theorems show what the code does where it does something else
      than intended (left recursion behind indirectly empty rules, restoring
      several streams, prepare with several streams, a reallocation of shared buffers
      that is refused, and others).

    ** Assumptions

    The vocabulary, its tokenizer and std::regex are parameters: functions that
    the code calls, without assumptions on them beyond those that a theorem
    states.  Type and row sizes of tensors come from ggml and are fields of the
    layers; a tensor is its bytes.  The size that a back end needs for a tensor is
    a function of the buffer type and the tensor.  A back end returns a buffer of at
    least the size that it was asked for, or nothing.

    ** Not modelled

    - Tensors as numbers, the back ends, model loading and quantisation: numeric
      code, file I/O.
    - Graph construction of the cache and llama_context: builds tensors only.
    - Samplers: floating-point probabilities and random numbers.
    - set_input_pos_bucket: needs a floating-point logarithm.
    - llama_grammar_clone_impl: relocates pointers, which are positions here.
    - Printing, logging and debug dumps.
    - The builder of PEG parsers and their conversion to a grammar.
    - Tokenizers, the n-gram caches, chat templates: planned. *)
From stdpp Require Export base tactics list gmap sets.
From Stdlib Require Export ZArith Lia.
From Stdlib Require Import Sorting.Sorted.

(** ** Errors and results.
    C++ code fails in several ways; each is a constructor so that a theorem can
    say which one happens (or that none does). *)
Inductive err :=
  | AssertFail   (* assert(...) of a debug build *)
  | Abort        (* GGML_ASSERT / GGML_ABORT *)
  | OutOfRange   (* index outside a vector, array or bitset *)
  | Overflow     (* signed 32-bit overflow *)
  | DivByZero
  | Throw        (* throw std::runtime_error(...) *)
  | Dangling     (* use of memory that was freed *)
  | OutOfFuel.   (* the loop did not end within the fuel given *)

#[export] Instance err_eq_dec : EqDecision err.
Proof. solve_decision. Defined.

Inductive res (A : Type) : Type :=
  | Ok (a : A)
  | Err (e : err).
Arguments Ok {A} a.
Arguments Err {A} e.

#[export] Instance res_ret : MRet res := λ A a, Ok a.
#[export] Instance res_bind : MBind res :=
  λ A B f m, match m with Ok a => f a | Err e => Err e end.
#[export] Instance res_fmap : FMap res :=
  λ A B f m, match m with Ok a => Ok (f a) | Err e => Err e end.

#[export] Instance res_eq_dec {A} `{EqDecision A} : EqDecision (res A).
Proof. solve_decision. Defined.

(** [okP m P]: the computation returns normally and its result satisfies [P]
    (total correctness: no assertion fails, nothing is thrown, no index is out
    of range and the fuel is enough). *)
Definition okP {A} (m : res A) (P : A → Prop) : Prop :=
  match m with Ok a => P a | Err _ => False end.

Definition check (e : err) (b : bool) : res unit := if b then Ok tt else Err e.
Definition assert_ : bool → res unit := check AssertFail.
Definition ggml_assert : bool → res unit := check Abort.

Definition of_option {A} (e : err) (o : option A) : res A :=
  match o with Some a => Ok a | None => Err e end.

(** ** Vectors: [v[i]] and [v[i] = x], with the range made explicit. *)
Definition vget {A} (l : list A) (i : nat) : res A := of_option OutOfRange (l !! i).
Definition vset {A} (l : list A) (i : nat) (x : A) : res (list A) :=
  if decide (i < length l) then Ok (<[i:=x]> l) else Err OutOfRange.

(** A signed index used as a subscript. *)
Definition idx (z : Z) : res nat :=
  if decide (0 ≤ z)%Z then Ok (Z.to_nat z) else Err OutOfRange.

(** ** Machine integers. *)
Definition INT32_MAX : Z := 2147483647.
Definition INT32_MIN : Z := -2147483648.
Definition in_i32 (z : Z) : bool := bool_decide (INT32_MIN ≤ z ≤ INT32_MAX)%Z.
Definition i32_add (a b : Z) : res Z := if in_i32 (a + b)%Z then Ok (a + b)%Z else Err Overflow.
Definition i32_sub (a b : Z) : res Z := if in_i32 (a - b)%Z then Ok (a - b)%Z else Err Overflow.

(** [uint32_t] arithmetic, and the conversion of a [uint32_t] to [int32_t]. *)
Definition u32 (z : Z) : Z := (z mod 4294967296)%Z.
Definition i32_of_u32 (z : Z) : Z := if decide (z ≤ INT32_MAX)%Z then z else (z - 4294967296)%Z.

(** ** Loops. *)
Fixpoint foldM {S A} (f : S → A → res S) (s : S) (l : list A) : res S :=
  match l with
  | [] => Ok s
  | x :: l => s ← f s x; foldM f s l
  end.

Fixpoint mapM_res {A B} (f : A → res B) (l : list A) : res (list B) :=
  match l with [] => Ok [] | x :: l => y ← f x; ys ← mapM_res f l; Ok (y :: ys) end.

(** Smallest and largest element of a non-empty list of keys (what
    [*begin()] and [*rbegin()] of an ordered container return). *)
Definition list_min (l : list Z) : option Z :=
  match l with [] => None | x :: l => Some (foldr Z.min x l) end.
Definition list_max (l : list Z) : option Z :=
  match l with [] => None | x :: l => Some (foldr Z.max x l) end.

(** * Lemmas *)

Lemma okP_ok {A} (m : res A) P : okP m P ↔ ∃ a, m = Ok a ∧ P a.
Proof. destruct m; simpl; naive_solver. Qed.

Lemma okP_mono {A} (m : res A) (P Q : A → Prop) : okP m P → (∀ a, P a → Q a) → okP m Q.
Proof. destruct m; simpl; naive_solver. Qed.

Lemma okP_bind {A B} (m : res A) (f : A → res B) (Q : A → Prop) P :
  okP m Q → (∀ a, Q a → okP (f a) P) → okP (m ≫= f) P.
Proof. destruct m; simpl; naive_solver. Qed.

Lemma bind_Ok {A B} (a : A) (f : A → res B) : Ok a ≫= f = f a.
Proof. done. Qed.

Lemma bind_Ok_inv {A B} (m : res A) (f : A → res B) b :
  m ≫= f = Ok b → ∃ a, m = Ok a ∧ f a = Ok b.
Proof. destruct m; simpl; naive_solver. Qed.

Lemma okP_and {A} (m : res A) P Q : okP m P → okP m Q → okP m (λ a, P a ∧ Q a).
Proof. destruct m; simpl; naive_solver. Qed.

Lemma check_ok e b : b = true → check e b = Ok tt.
Proof. by intros ->. Qed.
Lemma assert_ok b : b = true → assert_ b = Ok tt.
Proof. apply check_ok. Qed.
Lemma ggml_assert_ok b : b = true → ggml_assert b = Ok tt.
Proof. apply check_ok. Qed.

Lemma vget_ok {A} (l : list A) i x : l !! i = Some x → vget l i = Ok x.
Proof. unfold vget. by intros ->. Qed.
Lemma vget_inv {A} (l : list A) i x : vget l i = Ok x → l !! i = Some x.
Proof. unfold vget. destruct (l !! i); naive_solver. Qed.
Lemma vset_ok {A} (l : list A) i x : i < length l → vset l i x = Ok (<[i:=x]> l).
Proof. intros. unfold vset. by rewrite decide_True. Qed.
Lemma idx_ok z : (0 ≤ z)%Z → idx z = Ok (Z.to_nat z).
Proof. intros. unfold idx. by rewrite decide_True. Qed.
Lemma i32_add_ok a b : (INT32_MIN ≤ a + b ≤ INT32_MAX)%Z → i32_add a b = Ok (a + b)%Z.
Proof. intros. unfold i32_add, in_i32. by rewrite bool_decide_true. Qed.
Lemma i32_sub_ok a b : (INT32_MIN ≤ a - b ≤ INT32_MAX)%Z → i32_sub a b = Ok (a - b)%Z.
Proof. intros. unfold i32_sub, in_i32. by rewrite bool_decide_true. Qed.

Lemma check_inv e b u : check e b = Ok u → b = true.
Proof. by destruct b. Qed.
Lemma assert_inv b u : assert_ b = Ok u → b = true.
Proof. apply check_inv. Qed.
Lemma ggml_assert_inv b u : ggml_assert b = Ok u → b = true.
Proof. apply check_inv. Qed.

(** A computation that returned, specified by [okP], satisfies its postcondition. *)
Lemma okP_Ok {A} (m : res A) P a : okP m P → m = Ok a → P a.
Proof. by intros H ->. Qed.

Lemma i32_add_inv a b c : i32_add a b = Ok c → (INT32_MIN ≤ a + b ≤ INT32_MAX)%Z ∧ c = (a + b)%Z.
Proof. unfold i32_add, in_i32. case_bool_decide; naive_solver. Qed.

Section fold.
  Context {S A : Type}.
  Implicit Types (f : S → A → res S) (s : S) (l : list A).

Lemma foldM_app f s l1 l2 : foldM f s (l1 ++ l2) = s' ← foldM f s l1; foldM f s' l2.
  Proof.
    revert s; induction l1 as [|x l1 IH]; intros s; simpl; [done|].
    destruct (f s x); simpl; auto.
  Qed.

  (** Partial correctness: an invariant of the iterations that return. *)
Lemma foldM_inv f (I : S → Prop) s l s' :
    I s → (∀ s x s', x ∈ l → I s → f s x = Ok s' → I s') → foldM f s l = Ok s' → I s'.
  Proof.
    revert s. induction l as [|x l IH]; intros s H0 Hstep H; simpl in *; [by simplify_eq|].
    apply bind_Ok_inv in H as (s1 & H1 & H). eapply IH; [|set_solver|done].
    eapply Hstep; [left|done..].
  Qed.

  (** Loop rule: the invariant speaks about the elements already processed. *)
Lemma okP_foldM f (I : list A → S → Prop) s l :
    I [] s →
    (∀ pre x post s, l = pre ++ x :: post → I pre s → okP (f s x) (I (pre ++ [x]))) →
    okP (foldM f s l) (I l).
  Proof.
    intros H0 Hstep.
    enough (∀ post pre s, l = pre ++ post → I pre s → okP (foldM f s post) (I l)) as H
      by (by apply (H l [])).
    clear s H0. induction post as [|x post IH]; intros pre s Hl HI; simpl.
    - by rewrite Hl, app_nil_r.
    - eapply okP_bind; [by eapply Hstep|]. intros s' HI'.
      apply (IH (pre ++ [x])); [|done]. by rewrite <- app_assoc.
  Qed.
End fold.

Lemma seq_split_at pre x post n :
  seq 0 n = pre ++ x :: post → pre = seq 0 x ∧ x < n.
Proof.
  intros H.
  assert (Hx : seq 0 n !! length pre = Some x).
  { rewrite H, lookup_app_r, Nat.sub_diag by lia. done. }
  apply lookup_seq in Hx as [-> Hlt]. split; [|lia].
  assert (Hp : take (length pre) (seq 0 n) = pre) by (rewrite H; apply take_app_length).
  rewrite <- Hp at 1. rewrite take_seq. f_equal; lia.
Qed.

(** Loop rule for [for (i = 0; i < n; ++i)]. *)
Lemma okP_for {S} (f : S → nat → res S) (I : nat → S → Prop) s n :
  I 0 s →
  (∀ i s, i < n → I i s → okP (f s i) (I (Datatypes.S i))) →
  okP (foldM f s (seq 0 n)) (I n).
Proof.
  intros H0 Hstep.
  eapply okP_mono.
  - apply (okP_foldM f (λ pre, I (length pre))); [done|].
    intros pre x post s' Hl HI. apply seq_split_at in Hl as [-> Hlt].
    rewrite length_seq in HI. rewrite length_app, length_seq; simpl.
    rewrite Nat.add_1_r. by apply Hstep.
  - intros a. by rewrite length_seq.
Qed.

(** ** Fuel.
    [ends m P]: the fuelled computation [m] terminates with a result that
    satisfies [P]; the result is the same for every amount of fuel that is large
    enough, so it is the result of the recursion itself. *)
Definition ends {A} (m : nat → res A) (P : A → Prop) : Prop :=
  ∃ a N, P a ∧ ∀ n, N ≤ n → m n = Ok a.

Lemma ends_okP {A} (m : res A) (P : A → Prop) : okP m P → ends (λ _, m) P.
Proof. intros (a & -> & Ha)%okP_ok. by exists a, 0. Qed.

Lemma ends_mono {A} (m : nat → res A) (P Q : A → Prop) : ends m P → (∀ a, P a → Q a) → ends m Q.
Proof. intros (a & N & Ha & Hm) H. exists a, N. auto. Qed.

Lemma ends_bind {A B} (m : nat → res A) (f : nat → A → res B) (Q : A → Prop) P :
  ends m Q → (∀ a, Q a → ends (λ n, f n a) P) → ends (λ n, m n ≫= f n) P.
Proof.
  intros (a & N & Ha & Hm) Hf. destruct (Hf a Ha) as (b & M & Hb & Hb'). exists b, (N `max` M). split; [done|].
  intros n Hn. rewrite (Hm n) by lia. simpl. apply Hb'. lia.
Qed.

(** One unit of fuel for the call itself. *)
Lemma ends_step {A} (m F : nat → res A) (P : A → Prop) : (∀ n, F (S n) = m n) → ends m P → ends F P.
Proof.
  intros HF (a & N & Ha & Hm). exists a, (S N). split; [done|]. intros [|n] Hn; [lia|]. rewrite HF. apply Hm. lia.
Qed.

Lemma ends_ext {A} (m m' : nat → res A) (P : A → Prop) : (∀ n, m n = m' n) → ends m P → ends m' P.
Proof. intros H (a & N & Ha & Hm). exists a, N. split; [done|]. intros n Hn. rewrite <- H. auto. Qed.

Lemma ends_foldM {S A} (f : nat → S → A → res S) (I : list A → S → Prop) s l :
  I [] s →
  (∀ pre x post s, l = pre ++ x :: post → I pre s → ends (λ n, f n s x) (I (pre ++ [x]))) →
  ends (λ n, foldM (f n) s l) (I l).
Proof.
  intros H0 Hstep.
  enough (∀ post pre s, l = pre ++ post → I pre s → ends (λ n, foldM (f n) s post) (I l)) as H by (by apply (H l [])).
  clear s H0. induction post as [|x post IH]; intros pre s Hl HI; simpl.
  - apply ends_okP. by rewrite Hl, app_nil_r.
  - eapply ends_bind; [by eapply Hstep|]. intros s' HI'. apply (IH (pre ++ [x])); [|done]. by rewrite <- app_assoc.
Qed.

Lemma foldM_ext {S A} (f g : S → A → res S) s l : (∀ s x, x ∈ l → f s x = g s x) → foldM f s l = foldM g s l.
Proof.
  revert s. induction l as [|x l IH]; intros s H; [done|]. simpl. rewrite H by left.
  destruct (g s x); [|done]. apply IH. intros. apply H. by right.
Qed.

Lemma mapM_res_ok {A B} (f : A → res B) (g : A → B) l :
  (∀ x, x ∈ l → f x = Ok (g x)) → mapM_res f l = Ok (g <$> l).
Proof.
  induction l as [|x l IH]; intros H; simpl; [done|].
  rewrite H by set_solver. simpl. rewrite IH by set_solver. done.
Qed.

Lemma mapM_res_length {A B} (f : A → res B) l l' : mapM_res f l = Ok l' → length l' = length l.
Proof.
  revert l'; induction l as [|x l IH]; intros l' H; simpl in *; [by simplify_eq|].
  apply bind_Ok_inv in H as (y & _ & H). apply bind_Ok_inv in H as (ys & Hys & H). simplify_eq. simpl. f_equal. eauto.
Qed.

Lemma mapM_res_lookup {A B} (f : A → res B) l ys : mapM_res f l = Ok ys →
  length ys = length l ∧ ∀ i x, l !! i = Some x → ∃ y, ys !! i = Some y ∧ f x = Ok y.
Proof.
  revert ys. induction l as [|x l IH]; intros ys H; cbn [mapM_res] in H; [by injection H as <-|].
  apply bind_Ok_inv in H as (y & Hy & H). apply bind_Ok_inv in H as (ys' & Hys & [= <-]).
  destruct (IH _ Hys) as [Hl H']. split; [cbn; lia|]. intros [|i] x' Hx; cbn in *; [|by apply H'].
  injection Hx as <-. eauto.
Qed.

Lemma mapM_res_total {A B} (f : A → res B) l : (∀ x, x ∈ l → ∃ y, f x = Ok y) → ∃ ys, mapM_res f l = Ok ys.
Proof.
  induction l as [|x l IH]; intros H; [by exists []|]. cbn [mapM_res].
  destruct (H x ltac:(set_solver)) as [y ->]. destruct IH as [ys ->]; [set_solver|]. by exists (y :: ys).
Qed.

(** ** Computations that return or throw.
    [throwsP m P]: the result satisfies [P], and the only error is an exception. *)
Definition throwsP {A} (m : res A) (P : A → Prop) : Prop :=
  match m with Ok a => P a | Err e => e = Throw end.

Lemma throwsP_bind {A B} (m : res A) (f : A → res B) (Q : A → Prop) P :
  throwsP m Q → (∀ a, Q a → throwsP (f a) P) → throwsP (m ≫= f) P.
Proof. destruct m; simpl; naive_solver. Qed.

Lemma throwsP_mono {A} (m : res A) (P Q : A → Prop) : throwsP m P → (∀ a, P a → Q a) → throwsP m Q.
Proof. destruct m; simpl; naive_solver. Qed.

Lemma throwsP_Ok {A} (m : res A) (P : A → Prop) a : throwsP m P → m = Ok a → P a.
Proof. by intros H ->. Qed.

(** ** Computations whose errors are known.
    [resP E m P]: the result satisfies [P], or [m] fails with an error that satisfies [E]. *)
Definition resP {A} (E : err → Prop) (m : res A) (P : A → Prop) : Prop :=
  match m with Ok a => P a | Err e => E e end.

Lemma resP_bind {A B} E (m : res A) (f : A → res B) (Q : A → Prop) P :
  resP E m Q → (∀ a, Q a → resP E (f a) P) → resP E (m ≫= f) P.
Proof. destruct m; simpl; naive_solver. Qed.

Lemma resP_mono {A} (E E' : err → Prop) (m : res A) (P Q : A → Prop) :
  resP E m P → (∀ e, E e → E' e) → (∀ a, P a → Q a) → resP E' m Q.
Proof. destruct m; simpl; naive_solver. Qed.

Lemma resP_okP {A} E (m : res A) (P : A → Prop) : okP m P → resP E m P.
Proof. by destruct m. Qed.

Lemma okP_resP {A} (E : err → Prop) (m : res A) (P : A → Prop) : resP E m P → (∀ e, E e → False) → okP m P.
Proof. destruct m; simpl; naive_solver. Qed.

Lemma resP_foldM {S A} E (f : S → A → res S) (I : list A → S → Prop) s l :
  I [] s →
  (∀ pre x post s, l = pre ++ x :: post → I pre s → resP E (f s x) (I (pre ++ [x]))) →
  resP E (foldM f s l) (I l).
Proof.
  intros H0 Hstep.
  enough (∀ post pre s, l = pre ++ post → I pre s → resP E (foldM f s post) (I l)) as H by (by apply (H l [])).
  clear s H0. induction post as [|x post IH]; intros pre s Hl HI; simpl; [by rewrite Hl, app_nil_r|].
  eapply resP_bind; [by eapply Hstep|]. intros s' HI'. apply (IH (pre ++ [x])); [|done]. by rewrite <- app_assoc.
Qed.

(** ** Suffixes: what is left of a text. *)
Lemma suffix_tail {A} (l : list A) : tail l `suffix_of` l.
Proof. destruct l as [|x l]; [done|]. apply suffix_cons_r. done. Qed.

Lemma suffix_drop' {A} n (l : list A) : drop n l `suffix_of` l.
Proof. exists (take n l). by rewrite take_drop. Qed.

Lemma Forall_suffix' {A} (P : A → Prop) l k : k `suffix_of` l → Forall P l → Forall P k.
Proof. intros [x ->]. by intros [_ ?]%Forall_app. Qed.

(** ** Minimum and maximum of a list of keys. *)
Lemma list_min_spec l m :
  list_min l = Some m ↔ m ∈ l ∧ ∀ x, x ∈ l → (m ≤ x)%Z.
Proof.
  assert (Hgo : ∀ x l, foldr Z.min x l ∈ x :: l ∧ ∀ y, y ∈ x :: l → (foldr Z.min x l ≤ y)%Z).
  { intros x l'. induction l' as [|y l' [IH1 IH2]]; simpl.
    - split; [set_solver|]. intros y. rewrite list_elem_of_singleton. lia.
    - split.
      + destruct (Z.min_spec y (foldr Z.min x l')) as [[_ ->]|[_ ->]]; set_solver.
      + intros z Hz. assert (z = y ∨ z ∈ x :: l') as [->|Hz'] by set_solver; [lia|].
        specialize (IH2 _ Hz'). lia. }
  destruct l as [|x l]; simpl; split.
  - done.
  - set_solver.
  - intros [= <-]. apply Hgo.
  - intros [H1 H2]. destruct (Hgo x l) as [H3 H4].
    f_equal. specialize (H2 _ H3). specialize (H4 _ H1). lia.
Qed.

Lemma list_max_spec l m :
  list_max l = Some m ↔ m ∈ l ∧ ∀ x, x ∈ l → (x ≤ m)%Z.
Proof.
  assert (Hgo : ∀ x l, foldr Z.max x l ∈ x :: l ∧ ∀ y, y ∈ x :: l → (y ≤ foldr Z.max x l)%Z).
  { intros x l'. induction l' as [|y l' [IH1 IH2]]; simpl.
    - split; [set_solver|]. intros y. rewrite list_elem_of_singleton. lia.
    - split.
      + destruct (Z.max_spec y (foldr Z.max x l')) as [[_ ->]|[_ ->]]; set_solver.
      + intros z Hz. assert (z = y ∨ z ∈ x :: l') as [->|Hz'] by set_solver; [lia|].
        specialize (IH2 _ Hz'). lia. }
  destruct l as [|x l]; simpl; split.
  - done.
  - set_solver.
  - intros [= <-]. apply Hgo.
  - intros [H1 H2]. destruct (Hgo x l) as [H3 H4].
    f_equal. specialize (H2 _ H3). specialize (H4 _ H1). lia.
Qed.

Lemma list_min_None l : list_min l = None ↔ l = [].
Proof. destruct l; naive_solver. Qed.
Lemma list_max_None l : list_max l = None ↔ l = [].
Proof. destruct l; naive_solver. Qed.

(** ** Sums over a list, with one element replaced. *)
Lemma sum_list_insert {A} (f : A → nat) (l : list A) i x y :
  l !! i = Some x →
  sum_list (f <$> <[i:=y]> l) + f x = sum_list (f <$> l) + f y.
Proof.
  revert i; induction l as [|z l IH]; intros [|i] H; simplify_eq/=; [lia|].
  specialize (IH _ H). csimpl in *. lia.
Qed.

Lemma sum_list_elem {A} (f : A → nat) (l : list A) i x :
  l !! i = Some x → f x ≤ sum_list (f <$> l).
Proof.
  revert i; induction l as [|z l IH]; intros [|i] H; simplify_eq/=; [lia|].
  specialize (IH _ H). csimpl in *. lia.
Qed.

Lemma sum_list_zero {A} (f : A → nat) (l : list A) :
  sum_list (f <$> l) = 0 ↔ ∀ x, x ∈ l → f x = 0.
Proof.
  induction l as [|z l IH]; csimpl; [set_solver|]. split.
  - intros H x Hx. apply elem_of_cons in Hx as [->|Hx]; [lia|].
    apply IH; [csimpl in *; lia|done].
  - intros H. rewrite (H z) by set_solver. apply IH. set_solver.
Qed.

(** ** Filters *)
Lemma filter_all {A} (P : A → Prop) `{∀ x, Decision (P x)} (l : list A) : (∀ x, x ∈ l → P x) → filter P l = l.
Proof.
  induction l as [|x l IH]; intros Hl; [done|].
  rewrite filter_cons_True by set_solver. f_equal. set_solver.
Qed.

Lemma filter_none {A} (P : A → Prop) `{∀ x, Decision (P x)} (l : list A) : (∀ x, x ∈ l → ¬ P x) → filter P l = [].
Proof.
  induction l as [|x l IH]; intros Hl; [done|].
  rewrite filter_cons_False by set_solver. set_solver.
Qed.

Lemma filter_ext_in {A} (P Q : A → Prop) `{∀ x, Decision (P x), ∀ x, Decision (Q x)} (l : list A) :
  (∀ x, x ∈ l → P x ↔ Q x) → filter P l = filter Q l.
Proof.
  induction l as [|x l IH]; intros H'; [done|].
  rewrite !filter_cons, IH by set_solver. pose proof (H' x ltac:(left)).
  repeat case_decide; naive_solver.
Qed.

(** A property closed under predecessors holds of a prefix. *)
Lemma filter_prefix {A} (P Q : A → Prop) `{∀ x, Decision (P x), ∀ x, Decision (Q x)} (R : A → A → Prop) (l : list A) :
  StronglySorted R l → (∀ x, x ∈ l → Q x ↔ ¬ P x) →
  (∀ x y, x ∈ l → y ∈ l → R x y → P y → P x) →
  l = filter P l ++ filter Q l.
Proof.
  intros Hs HQ. induction Hs as [|x l Hs IH Hx]; intros Hp; [done|].
  rewrite !filter_cons. destruct (decide (P x)) as [Px|Px].
  - rewrite decide_False by (rewrite HQ by left; naive_solver). simpl. f_equal.
    apply IH; [set_solver|]. intros y z Hy Hz. apply Hp; set_solver.
  - rewrite decide_True by (rewrite HQ by left; done).
    rewrite Forall_forall in Hx. assert (Hn : ∀ y, y ∈ l → ¬ P y).
    { intros y Hy Py. apply Px, (Hp x y); auto; set_solver. }
    rewrite (filter_none P) by done. simpl. f_equal. symmetry. apply filter_all.
    intros y Hy. apply HQ; [set_solver|auto].
Qed.

(** ** Automation. *)

(** Close the side conditions that arise when running a model function. *)
Ltac ok_side :=
  first [ eassumption
        | done
        | lia
        | by apply bool_decide_eq_true_2
        | by (apply bool_decide_eq_true_2; lia) ].

(** Run the next primitive step of a monadic computation in the goal. *)
Ltac ok_step :=
  first [ rewrite bind_Ok
        | erewrite vget_ok by ok_side
        | rewrite vset_ok by (rewrite ?length_insert; ok_side)
        | rewrite assert_ok by ok_side
        | rewrite ggml_assert_ok by ok_side
        | rewrite idx_ok by ok_side ].
Ltac ok_run := repeat ok_step.

(** Split a hypothesis [m = Ok a] into one hypothesis for each step of [m]. *)
Ltac inv_ok H :=
  lazymatch type of H with
  | (_ ≫= _) = Ok _ =>
      let x := fresh "x" in let Hx := fresh "Hx" in
      apply bind_Ok_inv in H as (x & Hx & H); simpl in H;
      first [ apply assert_inv in Hx | apply ggml_assert_inv in Hx
            | apply check_inv in Hx | apply vget_inv in Hx | idtac ];
      try (apply bool_decide_eq_true_1 in Hx);
      inv_ok H
  | _ => idtac
  end.

Create HintDb kv.
#[export] Hint Resolve okP_mono : kv.
