(* ===== verification/KvCells.v ===== *)
(** The metadata of the KV cells: [llama_kv_cells] of src/llama-kv-cells.h.

    A cell has a position, an extra 2D position, an accumulated shift and a
    bitset of the sequences that occupy it.  Besides these four vectors the
    class keeps two derived indices: [used], the set of non-empty cells, and
    [seq_pos], which counts for every sequence how often each position occurs.
    [view] forgets the derived indices; [wf] says that they agree with it. *)
From S2P Require Import Prelude.

Definition LLAMA_MAX_SEQ : Z := 256.
(** the loop range [for (s = 0; s < LLAMA_MAX_SEQ; ++s)] *)
Definition all_seqs : list Z := seqZ 0 LLAMA_MAX_SEQ.

(** ** Data *)
Record llama_kv_cell_ext := Ext { ext_x : Z; ext_y : Z }.

#[export] Instance ext_eq_dec : EqDecision llama_kv_cell_ext.
Proof. solve_decision. Defined.

Definition is_2d_gt (e : llama_kv_cell_ext) (ox oy : Z) : bool :=
  bool_decide (ext_y e > oy)%Z || (bool_decide (ext_y e = oy) && bool_decide (ext_x e > ox)%Z).

Definition ext_reset : llama_kv_cell_ext := Ext 0 0.

(** std::bitset<LLAMA_MAX_SEQ>: [test], [set] and [reset] throw out of range. *)
Definition bit_check (s : Z) : res unit :=
  check OutOfRange (bool_decide (0 ≤ s < LLAMA_MAX_SEQ)%Z).
Definition bit_test (b : gset Z) (s : Z) : res bool := bit_check s;; Ok (bool_decide (s ∈ b)).
Definition bit_set (b : gset Z) (s : Z) : res (gset Z) := bit_check s;; Ok ({[s]} ∪ b).
Definition bit_reset (b : gset Z) (s : Z) : res (gset Z) := bit_check s;; Ok (b ∖ {[s]}).

Record llama_kv_cells := Cells {
  has_shift : bool;
  used      : gset nat;
  pos       : list Z;
  ext       : list llama_kv_cell_ext;
  shift     : list Z;
  seqs      : list (gset Z);       (* seq[i] *)
  seq_pos   : list (gmap Z Z)      (* seq_pos[s][p] *)
}.

Definition with_used (c : llama_kv_cells) u :=
  Cells (has_shift c) u (pos c) (ext c) (shift c) (seqs c) (seq_pos c).
Definition with_pos (c : llama_kv_cells) p :=
  Cells (has_shift c) (used c) p (ext c) (shift c) (seqs c) (seq_pos c).
Definition with_ext (c : llama_kv_cells) e :=
  Cells (has_shift c) (used c) (pos c) e (shift c) (seqs c) (seq_pos c).
Definition with_shift (c : llama_kv_cells) s :=
  Cells (has_shift c) (used c) (pos c) (ext c) s (seqs c) (seq_pos c).
Definition with_seqs (c : llama_kv_cells) s :=
  Cells (has_shift c) (used c) (pos c) (ext c) (shift c) s (seq_pos c).
Definition with_seq_pos (c : llama_kv_cells) m :=
  Cells (has_shift c) (used c) (pos c) (ext c) (shift c) (seqs c) m.
Definition with_has_shift (c : llama_kv_cells) b :=
  Cells b (used c) (pos c) (ext c) (shift c) (seqs c) (seq_pos c).

(** ** Operations *)
Definition size (c : llama_kv_cells) : nat := length (pos c).

(** [resize(n)] ends with [reset()], which writes every element of every vector. *)
Definition cleared (n : nat) : llama_kv_cells :=
  Cells false ∅ (replicate n (-1)%Z) (replicate n ext_reset) (replicate n 0%Z)
        (replicate n ∅) (replicate (Z.to_nat LLAMA_MAX_SEQ) ∅).
Definition reset (c : llama_kv_cells) : llama_kv_cells := cleared (size c).
Definition resize (n : nat) : llama_kv_cells := cleared n.

Definition reset_shift (c : llama_kv_cells) : llama_kv_cells :=
  with_shift (with_has_shift c false) (replicate (length (shift c)) 0%Z).

Definition is_empty (c : llama_kv_cells) (i : nat) : res bool :=
  assert_ (bool_decide (i < size c));;
  p ← vget (pos c) i;
  assert_ ((bool_decide (p < 0)%Z && bool_decide (p = -1)%Z) || bool_decide (0 ≤ p)%Z);;
  Ok (bool_decide (p = -1)%Z).

Definition get_used (c : llama_kv_cells) : nat := base.size (used c).
Definition used_min (c : llama_kv_cells) : Z :=
  default 0%Z (list_min (Z.of_nat <$> elements (used c))).
Definition used_max_p1 (c : llama_kv_cells) : Z :=
  from_option (λ m, m + 1)%Z 0%Z (list_max (Z.of_nat <$> elements (used c))).

(** helper functions for updating seq_pos, one cell at a time *)
Definition seq_pos_dec (c : llama_kv_cells) (s p : Z) : res llama_kv_cells :=
  j ← idx s;
  m ← vget (seq_pos c) j;
  k ← of_option AssertFail (m !! p);
  let m' := if decide (k - 1 = 0)%Z then delete p m else <[p := (k - 1)%Z]> m in
  sp ← vset (seq_pos c) j m';
  Ok (with_seq_pos c sp).

Definition seq_pos_inc (c : llama_kv_cells) (s p : Z) : res llama_kv_cells :=
  j ← idx s;
  m ← vget (seq_pos c) j;
  sp ← vset (seq_pos c) j (<[p := (default 0 (m !! p) + 1)%Z]> m);
  Ok (with_seq_pos c sp).

Definition for_seqs (f : llama_kv_cells → Z → Z → res llama_kv_cells)
    (c : llama_kv_cells) (i : nat) : res llama_kv_cells :=
  foldM (λ c s,
    sq ← vget (seqs c) i;
    t ← bit_test sq s;
    if t : bool then p ← vget (pos c) i; f c s p else Ok c)
  c all_seqs.
Definition seq_pos_rm  : llama_kv_cells → nat → res llama_kv_cells := for_seqs seq_pos_dec.
Definition seq_pos_add : llama_kv_cells → nat → res llama_kv_cells := for_seqs seq_pos_inc.

Definition set_pos_at c i p := v ← vset (pos c) i p; Ok (with_pos c v).
Definition set_ext_at c i e := v ← vset (ext c) i e; Ok (with_ext c v).
Definition set_shift_at c i d := v ← vset (shift c) i d; Ok (with_shift c v).
Definition set_seqs_at c i b := v ← vset (seqs c) i b; Ok (with_seqs c v).
Definition used_erase (c : llama_kv_cells) (i : nat) := with_used c (used c ∖ {[i]}).
Definition used_insert (c : llama_kv_cells) (i : nat) := with_used c ({[i]} ∪ used c).

(** clear a non-empty cell *)
Definition rm (c : llama_kv_cells) (i : nat) : res llama_kv_cells :=
  assert_ (bool_decide (i < size c));;
  p ← vget (pos c) i;
  assert_ (bool_decide (p ≠ -1)%Z);;
  c ← seq_pos_rm c i;
  c ← set_seqs_at c i ∅;
  c ← set_pos_at c i (-1)%Z;
  c ← set_ext_at c i ext_reset;
  c ← set_shift_at c i 0%Z;
  Ok (used_erase c i).

(** remove one sequence from a cell; returns whether the cell became empty *)
Definition seq_rm (c : llama_kv_cells) (i : nat) (seq_id : Z) : res (llama_kv_cells * bool) :=
  assert_ (bool_decide (i < size c));;
  b ← vget (seqs c) i;
  t ← bit_test b seq_id;
  assert_ t;;
  p ← vget (pos c) i;
  assert_ (bool_decide (p ≠ -1)%Z);;
  assert_ (bool_decide (0 ≤ seq_id)%Z);;
  b ← bit_reset b seq_id;
  c ← set_seqs_at c i b;
  c ← seq_pos_dec c seq_id p;
  if decide (b = ∅) then
    c ← set_pos_at c i (-1)%Z;
    c ← set_ext_at c i ext_reset;
    c ← set_shift_at c i 0%Z;
    Ok (used_erase c i, true)
  else Ok (c, false).

(** keep only one sequence; returns whether the cell became empty *)
Definition seq_keep (c : llama_kv_cells) (i : nat) (seq_id : Z) : res (llama_kv_cells * bool) :=
  assert_ (bool_decide (i < size c));;
  b ← vget (seqs c) i;
  t ← bit_test b seq_id;
  if t : bool then
    c ← seq_pos_rm c i;
    b ← bit_set ∅ seq_id;
    c ← set_seqs_at c i b;
    p ← vget (pos c) i;
    c ← seq_pos_inc c seq_id p;
    Ok (c, false)
  else if decide (b ≠ ∅) then
    c ← seq_pos_rm c i;
    c ← set_seqs_at c i ∅;
    c ← set_pos_at c i (-1)%Z;
    c ← set_ext_at c i ext_reset;
    c ← set_shift_at c i 0%Z;
    Ok (used_erase c i, true)
  else
    p ← vget (pos c) i;
    assert_ (bool_decide (p = -1)%Z);;
    Ok (c, false).

Definition seq_count (c : llama_kv_cells) (i : nat) : res nat :=
  assert_ (bool_decide (i < size c));;
  p ← vget (pos c) i;
  assert_ (bool_decide (p ≠ -1)%Z);;
  b ← vget (seqs c) i;
  Ok (base.size b).

Definition seq_has (c : llama_kv_cells) (i : nat) (seq_id : Z) : res bool :=
  assert_ (bool_decide (i < size c));;
  assert_ (bool_decide (0 ≤ seq_id)%Z);;
  b ← vget (seqs c) i;
  bit_test b seq_id.

Definition seq_add (c : llama_kv_cells) (i : nat) (seq_id : Z) : res llama_kv_cells :=
  assert_ (bool_decide (i < size c));;
  p ← vget (pos c) i;
  assert_ (bool_decide (p ≠ -1)%Z);;
  b ← vget (seqs c) i;
  t ← bit_test b seq_id;
  assert_ (negb t);;
  b ← bit_set b seq_id;
  c ← set_seqs_at c i b;
  seq_pos_inc c seq_id p.

(** the sequence of a cell that has exactly one: the first set bit *)
Definition seq_get (c : llama_kv_cells) (i : nat) : res Z :=
  b ← vget (seqs c) i;
  assert_ (bool_decide (base.size b = 1));;
  Ok (default (-1)%Z (list_find (λ s, s ∈ b) all_seqs ≫= λ '(_, s), Some s)).

(** smallest / largest position of a sequence, -1 when it is absent *)
Definition seq_pos_edge (ends : list Z → option Z) (c : llama_kv_cells) (seq_id : Z) : res Z :=
  assert_ (bool_decide (0 ≤ seq_id)%Z);;
  assert_ (bool_decide (seq_id < LLAMA_MAX_SEQ)%Z);;
  j ← idx seq_id;
  m ← vget (seq_pos c) j;
  match ends (map_to_list m).*1 with
  | None => Ok (-1)%Z
  | Some p =>
      k ← of_option AssertFail (m !! p);
      assert_ (bool_decide (0 < k)%Z);;
      Ok p
  end.
Definition seq_pos_min : llama_kv_cells → Z → res Z := seq_pos_edge list_min.
Definition seq_pos_max : llama_kv_cells → Z → res Z := seq_pos_edge list_max.

Definition cell_get {A} (sel : llama_kv_cells → list A) (c : llama_kv_cells) (i : nat) : res A :=
  assert_ (bool_decide (i < size c));;
  p ← vget (pos c) i;
  assert_ (bool_decide (p ≠ -1)%Z);;
  vget (sel c) i.
Definition pos_get : llama_kv_cells → nat → res Z := cell_get pos.
Definition ext_get : llama_kv_cells → nat → res llama_kv_cell_ext := cell_get ext.
Definition get_shift : llama_kv_cells → nat → res Z := cell_get shift.

Definition pos_in (c : llama_kv_cells) (i : nat) (p0 p1 : Z) : res bool :=
  assert_ (bool_decide (i < size c));;
  p ← vget (pos c) i;
  Ok (bool_decide (p0 ≤ p)%Z && bool_decide (p < p1)%Z).

Definition pos_set (c : llama_kv_cells) (i : nat) (p : Z) : res llama_kv_cells :=
  assert_ (bool_decide (i < size c));;
  q ← vget (pos c) i;
  assert_ (bool_decide (q = -1)%Z);;
  b ← vget (seqs c) i;
  assert_ (bool_decide (b = ∅));;
  c ← set_pos_at c i p;
  Ok (used_insert c i).

Definition ext_set (c : llama_kv_cells) (i : nat) (e : llama_kv_cell_ext) : res llama_kv_cells :=
  assert_ (bool_decide (i < length (ext c)));;
  set_ext_at c i e.

(** pos[i] += d; returns whether the cell became empty.
    Note that [ext] is not reset on that path. *)
Definition pos_add (c : llama_kv_cells) (i : nat) (d : Z) : res (llama_kv_cells * bool) :=
  assert_ (bool_decide (i < size c));;
  p ← vget (pos c) i;
  assert_ (bool_decide (p ≠ -1)%Z);;
  c ← seq_pos_rm c i;
  p' ← i32_add p d;
  c ← set_pos_at c i p';
  sh ← vget (shift c) i;
  sh' ← i32_add sh d;
  c ← set_shift_at c i sh';
  let c := with_has_shift c true in
  if decide (p' < 0)%Z then
    c ← set_seqs_at c i ∅;
    c ← set_pos_at c i (-1)%Z;
    c ← set_shift_at c i 0%Z;
    Ok (used_erase c i, true)
  else
    c ← seq_pos_add c i;
    Ok (c, false).

(** pos[i] /= d, C++ division truncates towards zero *)
Definition pos_div (c : llama_kv_cells) (i : nat) (d : Z) : res llama_kv_cells :=
  assert_ (bool_decide (i < size c));;
  p_old ← vget (pos c) i;
  assert_ (bool_decide (p_old ≠ -1)%Z);;
  c ← seq_pos_rm c i;
  check DivByZero (bool_decide (d ≠ 0)%Z);;
  let p := Z.quot p_old d in
  c ← set_pos_at c i p;
  sh ← vget (shift c) i;
  sh' ← i32_add sh (p_old - p)%Z;
  c ← set_shift_at c i sh';
  c ← seq_pos_add c i;
  Ok (with_has_shift c true).

(** copy the state of the cells idxs[0], idxs[1], ... *)
Definition cp_idxs (c : llama_kv_cells) (idxs : list nat) : res llama_kv_cells :=
  foldM (λ r j,
    i ← vget idxs j;
    p ← vget (pos c) i;   r ← set_pos_at r j p;
    e ← vget (ext c) i;   r ← set_ext_at r j e;
    b ← vget (seqs c) i;  r ← set_seqs_at r j b;
    sh ← vget (shift c) i;
    assert_ (bool_decide (sh = 0)%Z);;
    Ok r)
  (resize (length idxs)) (seq 0 (length idxs)).
Definition cp_range (c : llama_kv_cells) (i n : nat) : res llama_kv_cells :=
  assert_ (bool_decide (i + n ≤ size c));;
  cp_idxs c (seq i n).

(** set the state of the cells idxs[0], idxs[1], ... *)
Definition set_one (c : llama_kv_cells) (i : nat) (p' : Z) (e' : llama_kv_cell_ext)
    (b' : gset Z) : res llama_kv_cells :=
  p ← vget (pos c) i;
  let c := if decide (p = -1 ∧ p' ≠ -1)%Z then used_insert c i else c in
  let c := if decide (p ≠ -1 ∧ p' = -1)%Z then used_erase c i else c in
  c ← (if decide (p ≠ -1)%Z then seq_pos_rm c i else Ok c);
  c ← set_pos_at c i p';
  c ← set_ext_at c i e';
  c ← set_seqs_at c i b';
  c ← (if decide (p' ≠ -1)%Z then seq_pos_add c i else Ok c);
  sh ← vget (shift c) i;
  assert_ (bool_decide (sh = 0)%Z);;
  Ok c.
Definition set_idxs (c : llama_kv_cells) (idxs : list nat) (o : llama_kv_cells) : res llama_kv_cells :=
  assert_ (bool_decide (length idxs = size o));;
  foldM (λ c j,
    i ← vget idxs j;
    p ← vget (pos o) j; e ← vget (ext o) j; b ← vget (seqs o) j;
    set_one c i p e b)
  c (seq 0 (size o)).
Definition set_range (c : llama_kv_cells) (i : nat) (o : llama_kv_cells) : res llama_kv_cells :=
  assert_ (bool_decide (i + size o ≤ size c));;
  set_idxs c (seq i (size o)) o.

(** ** Specification: the cells without the derived indices *)
Record cell := Cell { c_pos : Z; c_ext : llama_kv_cell_ext; c_shift : Z; c_seq : gset Z }.

#[export] Instance cell_eq_dec : EqDecision cell.
Proof. solve_decision. Defined.

Definition cell_none : cell := Cell (-1) ext_reset 0 ∅.

Definition view (c : llama_kv_cells) : list cell :=
  zip_with (λ pe ss, Cell pe.1 pe.2 ss.1 ss.2) (zip (pos c) (ext c)) (zip (shift c) (seqs c)).

Definition cell_ok (k : cell) : Prop :=
  (c_pos k = -1 ∧ c_shift k = 0 ∧ c_seq k = ∅)%Z ∨
  (0 ≤ c_pos k ∧ ∀ s, s ∈ c_seq k → 0 ≤ s < LLAMA_MAX_SEQ)%Z.

(** 1 when the cell holds position [p] of sequence [s] *)
Definition holds (s p : Z) (k : cell) : nat :=
  if decide (c_pos k = p ∧ s ∈ c_seq k) then 1 else 0.
Definition count_sp (v : list cell) (s p : Z) : nat := sum_list (holds s p <$> v).

(** the counters [sp] represent the function [f] *)
Definition cnt_opt (n : nat) : option Z := if decide (n = 0) then None else Some (Z.of_nat n).
Definition represents (sp : list (gmap Z Z)) (f : Z → Z → nat) : Prop :=
  length sp = Z.to_nat LLAMA_MAX_SEQ ∧
  ∀ s m, sp !! s = Some m → ∀ p, m !! p = cnt_opt (f (Z.of_nat s) p).

Record wf (c : llama_kv_cells) : Prop := {
  wf_ext   : length (ext c) = length (pos c);
  wf_shift : length (shift c) = length (pos c);
  wf_seqs  : length (seqs c) = length (pos c);
  wf_cell  : ∀ i k, view c !! i = Some k → cell_ok k;
  wf_used  : ∀ i, i ∈ used c ↔ ∃ k, view c !! i = Some k ∧ c_pos k ≠ (-1)%Z;
  wf_sp    : represents (seq_pos c) (count_sp (view c))
}.

(** What [cp] returns: a state whose vectors are coherent and whose derived
    indices are never looked at. *)
Record snapshot (o : llama_kv_cells) : Prop := {
  sn_ext   : length (ext o) = length (pos o);
  sn_shift : length (shift o) = length (pos o);
  sn_seqs  : length (seqs o) = length (pos o);
  sn_cell  : ∀ i k, view o !! i = Some k → cell_ok k ∧ c_shift k = 0%Z
}.

(** the abstract counterpart of each operation on one cell *)
Definition cell_seq_rm (s : Z) (k : cell) : cell :=
  if decide (c_seq k ∖ {[s]} = ∅) then cell_none
  else Cell (c_pos k) (c_ext k) (c_shift k) (c_seq k ∖ {[s]}).
Definition cell_seq_keep (s : Z) (k : cell) : cell :=
  if decide (s ∈ c_seq k) then Cell (c_pos k) (c_ext k) (c_shift k) {[s]}
  else if decide (c_seq k ≠ ∅) then cell_none else k.
Definition cell_seq_add (s : Z) (k : cell) : cell :=
  Cell (c_pos k) (c_ext k) (c_shift k) ({[s]} ∪ c_seq k).
Definition cell_pos_add (d : Z) (k : cell) : cell :=
  if decide (c_pos k + d < 0)%Z then Cell (-1) (c_ext k) 0 ∅
  else Cell (c_pos k + d) (c_ext k) (c_shift k + d) (c_seq k).
Definition cell_pos_div (d : Z) (k : cell) : cell :=
  Cell (Z.quot (c_pos k) d) (c_ext k) (c_shift k + (c_pos k - Z.quot (c_pos k) d)) (c_seq k).

(** Operations as a step relation, each under the precondition its comments
    ask of the caller ("call only if the cell is not empty", ...). *)
Inductive step : llama_kv_cells → llama_kv_cells → Prop :=
  | step_reset c : step c (reset c)
  | step_reset_shift c : step c (reset_shift c)
  | step_rm c i c' : rm c i = Ok c' → step c c'
  | step_seq_rm c i s c' b : seq_rm c i s = Ok (c', b) → step c c'
  | step_seq_keep c i s c' b : seq_keep c i s = Ok (c', b) → step c c'
  | step_seq_add c i s c' : seq_add c i s = Ok c' → step c c'
  | step_pos_set c i p c' : (0 ≤ p)%Z → pos_set c i p = Ok c' → step c c'
  | step_ext_set c i e c' : ext_set c i e = Ok c' → step c c'
  | step_pos_add c i d c' b : pos_add c i d = Ok (c', b) → step c c'
  | step_pos_div c i d c' : (0 < d)%Z → pos_div c i d = Ok c' → step c c'
  | step_set c idxs o c' : snapshot o → set_idxs c idxs o = Ok c' → step c c'.

(** The cells that [cp] wrote, as a list. *)
Definition write_cells (v : list cell) (ps : list (nat * cell)) : list cell :=
  foldl (λ v p, <[p.1:=p.2]> v) v ps.

(** [p] is the smallest ([le] = [≤]) or largest ([≥]) position of sequence [s],
    or -1 when no cell holds the sequence. *)
Definition is_edge (le : Z → Z → Prop) (v : list cell) (s p : Z) : Prop :=
  (p = (-1)%Z ∧ ∀ k, k ∈ v → s ∉ c_seq k) ∨
  ((∃ k, k ∈ v ∧ s ∈ c_seq k ∧ c_pos k = p) ∧ ∀ k, k ∈ v → s ∈ c_seq k → le p (c_pos k)).

(** * Lemmas *)

Lemma elem_of_all_seqs s : s ∈ all_seqs ↔ (0 ≤ s < LLAMA_MAX_SEQ)%Z.
Proof. unfold all_seqs. rewrite elem_of_seqZ. lia. Qed.
Lemma NoDup_all_seqs : NoDup all_seqs.
Proof. apply NoDup_seqZ. Qed.
#[global] Opaque all_seqs.

(** ** The view *)
Lemma view_lookup c i k :
  view c !! i = Some k ↔
  pos c !! i = Some (c_pos k) ∧ ext c !! i = Some (c_ext k) ∧
  shift c !! i = Some (c_shift k) ∧ seqs c !! i = Some (c_seq k).
Proof.
  unfold view. rewrite lookup_zip_with_Some. split.
  - intros ([p e] & [sh b] & -> & H1 & H2).
    rewrite lookup_zip_with_Some in H1. rewrite lookup_zip_with_Some in H2. naive_solver.
  - intros (H1 & H2 & H3 & H4). exists (c_pos k, c_ext k), (c_shift k, c_seq k).
    rewrite !lookup_zip_with_Some. destruct k; naive_solver.
Qed.

Lemma length_view c : wf c → length (view c) = size c.
Proof.
  intros []. unfold view, size. rewrite !length_zip_with. lia.
Qed.

Lemma view_Some c i : wf c → i < size c → ∃ k, view c !! i = Some k.
Proof. intros Hw Hi. apply lookup_lt_is_Some. by rewrite length_view. Qed.

Lemma view_lt c i k : wf c → view c !! i = Some k → i < size c.
Proof. intros Hw H%lookup_lt_Some. by rewrite length_view in H. Qed.

Lemma view_insert c c' i k' :
  i < length (pos c) → length (ext c) = length (pos c) →
  length (shift c) = length (pos c) → length (seqs c) = length (pos c) →
  pos c' = <[i:=c_pos k']> (pos c) → ext c' = <[i:=c_ext k']> (ext c) →
  shift c' = <[i:=c_shift k']> (shift c) → seqs c' = <[i:=c_seq k']> (seqs c) →
  view c' = <[i:=k']> (view c).
Proof.
  intros ???? H1 H2 H3 H4. unfold view. rewrite H1, H2, H3, H4.
  rewrite <- !insert_zip_with. by destruct k'.
Qed.

Lemma cell_ok_none : cell_ok cell_none.
Proof. by left. Qed.

Lemma cell_ok_pos k s : cell_ok k → s ∈ c_seq k → (0 ≤ s < LLAMA_MAX_SEQ)%Z ∧ (0 ≤ c_pos k)%Z.
Proof. intros [(_ & _ & ->)|[? H]] Hs; [set_solver|]. split; [by apply H|done]. Qed.

(** ** The counters *)
Lemma holds_count v i k s p : v !! i = Some k → holds s p k ≤ count_sp v s p.
Proof. apply sum_list_elem. Qed.

Lemma count_insert v i k k' s p :
  v !! i = Some k →
  count_sp (<[i:=k']> v) s p = count_sp v s p - holds s p k + holds s p k'.
Proof.
  intros H. unfold count_sp.
  pose proof (sum_list_insert (holds s p) v i k k' H).
  pose proof (sum_list_elem (holds s p) v i k H). lia.
Qed.

Lemma cnt_opt_Some n : 0 < n → cnt_opt n = Some (Z.of_nat n).
Proof. intros. unfold cnt_opt. by rewrite decide_False by lia. Qed.

Lemma represents_ext sp f g :
  (∀ s p, (0 ≤ s < LLAMA_MAX_SEQ)%Z → f s p = g s p) → represents sp f → represents sp g.
Proof.
  intros Hfg [Hl H]. split; [done|]. intros s m Hs p. rewrite (H _ _ Hs).
  f_equal. apply Hfg. apply lookup_lt_Some in Hs. rewrite Hl in Hs.
  unfold LLAMA_MAX_SEQ in *. lia.
Qed.

Lemma represents_lookup sp f s :
  represents sp f → (0 ≤ s < LLAMA_MAX_SEQ)%Z →
  ∃ m, sp !! Z.to_nat s = Some m ∧ ∀ p, m !! p = cnt_opt (f s p).
Proof.
  intros [Hl H] Hs.
  destruct (lookup_lt_is_Some_2 sp (Z.to_nat s)) as [m Hm];
    [rewrite Hl; unfold LLAMA_MAX_SEQ in *; lia|].
  exists m. split; [done|]. intros p. rewrite (H _ _ Hm). by rewrite Z2Nat.id by lia.
Qed.

Lemma represents_insert sp f g s m :
  represents sp f → (0 ≤ s < LLAMA_MAX_SEQ)%Z →
  (∀ p, m !! p = cnt_opt (g s p)) → (∀ t p, t ≠ s → g t p = f t p) →
  represents (<[Z.to_nat s := m]> sp) g.
Proof.
  intros [Hl H] Hs Hm Hg. split; [by rewrite length_insert|].
  intros t m' Ht p. destruct (decide (t = Z.to_nat s)) as [->|Hne].
  - rewrite list_lookup_insert_eq in Ht by (rewrite Hl; unfold LLAMA_MAX_SEQ in *; lia).
    simplify_eq. rewrite Z2Nat.id by lia. apply Hm.
  - rewrite list_lookup_insert_ne in Ht by done.
    rewrite (H _ _ Ht). by rewrite Hg by lia.
Qed.

(** Change of one counter *)
Definition bump (f : Z → Z → nat) (g : nat → nat) (s p : Z) : Z → Z → nat :=
  λ t q, if decide (t = s ∧ q = p) then g (f t q) else f t q.

Lemma seq_pos_dec_ok c f s p :
  represents (seq_pos c) f → (0 ≤ s < LLAMA_MAX_SEQ)%Z → 0 < f s p →
  ∃ sp', seq_pos_dec c s p = Ok (with_seq_pos c sp') ∧ represents sp' (bump f pred s p).
Proof.
  intros Hf Hs Hp. destruct (represents_lookup _ _ _ Hf Hs) as (m & Hm & Hc).
  unfold seq_pos_dec. rewrite idx_ok, bind_Ok by lia. rewrite (vget_ok _ _ _ Hm), bind_Ok.
  rewrite Hc, cnt_opt_Some by done. simpl.
  rewrite vset_ok by (by eapply lookup_lt_Some). simpl. eexists; split; [done|].
  apply (represents_insert _ f); [done..| |].
  - intros q. unfold bump. destruct (decide (q = p)) as [->|Hq].
    + rewrite (decide_True (P := s = s ∧ p = p)) by done.
      unfold cnt_opt. repeat case_decide; simplify_map_eq; try lia; [done|]. f_equal. lia.
    + rewrite (decide_False (P := s = s ∧ q = p)) by naive_solver.
      rewrite <- Hc. case_decide; by simplify_map_eq.
  - intros t q Ht. unfold bump. by rewrite decide_False by naive_solver.
Qed.

Lemma seq_pos_inc_ok c f s p :
  represents (seq_pos c) f → (0 ≤ s < LLAMA_MAX_SEQ)%Z →
  ∃ sp', seq_pos_inc c s p = Ok (with_seq_pos c sp') ∧ represents sp' (bump f Datatypes.S s p).
Proof.
  intros Hf Hs. destruct (represents_lookup _ _ _ Hf Hs) as (m & Hm & Hc).
  unfold seq_pos_inc. rewrite idx_ok, bind_Ok by lia. rewrite (vget_ok _ _ _ Hm), bind_Ok.
  rewrite vset_ok by (by eapply lookup_lt_Some). simpl. eexists; split; [done|].
  apply (represents_insert _ f); [done..| |].
  - intros q. unfold bump. destruct (decide (q = p)) as [->|Hq].
    + rewrite (decide_True (P := s = s ∧ p = p)) by done. rewrite lookup_insert_eq, Hc.
      unfold cnt_opt. repeat case_decide; simpl; try lia; f_equal; lia.
    + rewrite (decide_False (P := s = s ∧ q = p)) by naive_solver. by simplify_map_eq.
  - intros t q Ht. unfold bump. by rewrite decide_False by naive_solver.
Qed.

Lemma bit_test_ok b s : (0 ≤ s < LLAMA_MAX_SEQ)%Z → bit_test b s = Ok (bool_decide (s ∈ b)).
Proof. intros. unfold bit_test, bit_check. by rewrite check_ok by ok_side. Qed.
Lemma bit_set_ok b s : (0 ≤ s < LLAMA_MAX_SEQ)%Z → bit_set b s = Ok ({[s]} ∪ b).
Proof. intros. unfold bit_set, bit_check. by rewrite check_ok by ok_side. Qed.
Lemma bit_reset_ok b s : (0 ≤ s < LLAMA_MAX_SEQ)%Z → bit_reset b s = Ok (b ∖ {[s]}).
Proof. intros. unfold bit_reset, bit_check. by rewrite check_ok by ok_side. Qed.

(** The loops over all sequences of a cell.  [g] is the effect on one counter. *)
Lemma for_seqs_ok (op : llama_kv_cells → Z → Z → res llama_kv_cells) (g : nat → nat)
    (need : nat → Prop) c i f k :
  (∀ c f s p, represents (seq_pos c) f → (0 ≤ s < LLAMA_MAX_SEQ)%Z → need (f s p) →
     ∃ sp', op c s p = Ok (with_seq_pos c sp') ∧ represents sp' (bump f g s p)) →
  pos c !! i = Some (c_pos k) → seqs c !! i = Some (c_seq k) →
  represents (seq_pos c) f →
  (∀ s, s ∈ c_seq k → need (f s (c_pos k))) →
  ∃ sp', for_seqs op c i = Ok (with_seq_pos c sp') ∧
    represents sp' (λ s p, if decide (holds s p k = 1) then g (f s p) else f s p).
Proof.
  intros Hop Hp Hb Hf Hneed.
  enough (okP (for_seqs op c i) (λ c', ∃ sp', c' = with_seq_pos c sp' ∧
      represents sp' (λ s p, if decide (holds s p k = 1) then g (f s p) else f s p))) as H
    by (apply okP_ok in H; naive_solver).
  unfold for_seqs. eapply okP_mono.
  - apply (okP_foldM _ (λ pre c', ∃ sp', c' = with_seq_pos c sp' ∧
      represents sp' (λ s p, if decide (s ∈ pre ∧ holds s p k = 1) then g (f s p) else f s p))).
    + exists (seq_pos c). split; [by destruct c|]. eapply represents_ext; [|done].
      intros. rewrite decide_False; [done|set_solver].
    + intros pre s post ? Hsplit (sp' & -> & Hsp).
      assert (Hs : (0 ≤ s < LLAMA_MAX_SEQ)%Z).
      { apply elem_of_all_seqs. rewrite Hsplit. set_solver. }
      assert (Hnin : s ∉ pre).
      { pose proof NoDup_all_seqs as Hnd. rewrite Hsplit in Hnd.
        apply NoDup_app in Hnd as (_ & Hd & _). intros Hin. apply (Hd s Hin). set_solver. }
      simpl. rewrite (vget_ok _ _ _ Hb), bind_Ok, bit_test_ok, bind_Ok by done.
      case_bool_decide as Hin.
      * rewrite (vget_ok _ _ _ Hp), bind_Ok.
        destruct (Hop (with_seq_pos c sp') _ s (c_pos k) Hsp Hs) as (sp2 & -> & Hsp2).
        { rewrite decide_False by naive_solver. by apply Hneed. }
        simpl. exists sp2. split; [done|]. eapply represents_ext; [|done].
        intros t p Ht. unfold bump, holds.
        repeat case_decide; repeat case_decide; try set_solver.
      * simpl. exists sp'. split; [done|]. eapply represents_ext; [|done].
        intros t p Ht. unfold holds. repeat case_decide; repeat case_decide; set_solver.
  - intros ? (sp' & -> & Hsp). exists sp'. split; [done|]. eapply represents_ext; [|done].
    intros t p Ht. simpl. repeat case_decide; try done; exfalso; naive_solver (by apply elem_of_all_seqs).
Qed.

Lemma holds_01 s p k : holds s p k = 0 ∨ holds s p k = 1.
Proof. unfold holds. case_decide; auto. Qed.

Lemma seq_pos_rm_ok c i f k :
  pos c !! i = Some (c_pos k) → seqs c !! i = Some (c_seq k) →
  represents (seq_pos c) f → (∀ s, s ∈ c_seq k → 0 < f s (c_pos k)) →
  ∃ sp', seq_pos_rm c i = Ok (with_seq_pos c sp') ∧ represents sp' (λ s p, f s p - holds s p k).
Proof.
  intros Hp Hb Hf Hn.
  destruct (for_seqs_ok seq_pos_dec pred (λ n, 0 < n) c i f k) as (sp' & H & Hsp); auto.
  { intros; by apply seq_pos_dec_ok. }
  exists sp'. split; [done|]. eapply represents_ext; [|done]. intros s p _. simpl.
  destruct (holds_01 s p k) as [->| ->]; simpl; lia.
Qed.

Lemma seq_pos_add_ok c i f k :
  pos c !! i = Some (c_pos k) → seqs c !! i = Some (c_seq k) →
  represents (seq_pos c) f →
  ∃ sp', seq_pos_add c i = Ok (with_seq_pos c sp') ∧ represents sp' (λ s p, f s p + holds s p k).
Proof.
  intros Hp Hb Hf.
  destruct (for_seqs_ok seq_pos_inc Datatypes.S (λ _, True) c i f k) as (sp' & H & Hsp); auto.
  { intros; by apply seq_pos_inc_ok. }
  exists sp'. split; [done|]. eapply represents_ext; [|done]. intros s p _. simpl.
  destruct (holds_01 s p k) as [->| ->]; simpl; lia.
Qed.

(** ** One-cell updates *)

(** [c'] is [c] with cell [i] replaced by [k'], and is well formed. *)
Definition updates (hs : bool) (c : llama_kv_cells) (i : nat) (k' : cell) (c' : llama_kv_cells) : Prop :=
  wf c' ∧ view c' = <[i:=k']> (view c) ∧ has_shift c' = hs.

Lemma wf_update hs c c' i k k' :
  has_shift c' = hs →
  wf c → view c !! i = Some k → cell_ok k' →
  pos c' = <[i:=c_pos k']> (pos c) → ext c' = <[i:=c_ext k']> (ext c) →
  shift c' = <[i:=c_shift k']> (shift c) → seqs c' = <[i:=c_seq k']> (seqs c) →
  (∀ j, j ∈ used c' ↔ if decide (j = i) then c_pos k' ≠ (-1)%Z else j ∈ used c) →
  represents (seq_pos c') (λ s p, count_sp (view c) s p - holds s p k + holds s p k') →
  updates hs c i k' c'.
Proof.
  intros Hhs Hw Hk Hok H1 H2 H3 H4 Hu Hsp.
  assert (Hi : i < length (pos c)) by (by eapply view_lt).
  assert (Hv : view c' = <[i:=k']> (view c)) by (destruct Hw; by apply view_insert).
  split; [|done]. destruct Hw as [L1 L2 L3 Hc Hus _].
  split; rewrite ?H1, ?H2, ?H3, ?H4, ?length_insert; try done.
  - intros j kj. rewrite Hv. intros [(-> & -> & _)|[? Hj]]%list_lookup_insert_Some; [done|].
    by eapply Hc.
  - intros j. rewrite Hu, Hv. case_decide as Hj.
    + subst j. rewrite list_lookup_insert_eq by (by eapply lookup_lt_Some). naive_solver.
    + rewrite list_lookup_insert_ne by done. apply Hus.
  - rewrite Hv. eapply represents_ext; [|done]. intros s p _. simpl.
    symmetry. by apply count_insert.
Qed.

Lemma wf_need c i k s : wf c → view c !! i = Some k → s ∈ c_seq k → 0 < count_sp (view c) s (c_pos k).
Proof.
  intros Hw Hk Hs. pose proof (holds_count (view c) i k s (c_pos k) Hk) as H.
  unfold holds in H. rewrite decide_True in H by done. lia.
Qed.

Lemma cell_seq_pos c i k : wf c → view c !! i = Some k →
  c_pos k ≠ (-1)%Z → (0 ≤ c_pos k)%Z ∧ ∀ s, s ∈ c_seq k → (0 ≤ s < LLAMA_MAX_SEQ)%Z.
Proof. intros Hw Hk Hp. destruct (wf_cell _ Hw _ _ Hk) as [(? & _)|?]; [lia|done]. Qed.

(** look up the four columns of a cell and the length facts *)
Ltac cols Hw Hk :=
  let H := fresh "Hcols" in
  pose proof (proj1 (view_lookup _ _ _) Hk) as H;
  destruct H as (?Hp & ?He & ?Hsh & ?Hb);
  pose proof (view_lt _ _ _ Hw Hk) as Hi; unfold size in Hi;
  pose proof (wf_ext _ Hw); pose proof (wf_shift _ Hw); pose proof (wf_seqs _ Hw).

(** a column equation of [wf_update] *)
Ltac col := simpl; rewrite ?list_insert_insert_eq;
  first [ done | by rewrite list_insert_id | idtac ].

Ltac prim := unfold set_pos_at, set_ext_at, set_shift_at, set_seqs_at, used_erase, used_insert;
  simpl; repeat first
    [ rewrite bind_Ok
    | rewrite assert_ok by ok_side
    | erewrite vget_ok by (first [eassumption | rewrite list_lookup_insert_eq; [done|lia]])
    | rewrite vset_ok by (rewrite ?length_insert; lia)
    | rewrite bit_test_ok by ok_side
    | rewrite bit_set_ok by ok_side
    | rewrite bit_reset_ok by ok_side
    | progress simpl ].

Ltac used_tac c Hw :=
  let j := fresh "j" in intros j; simpl; case_decide; [subst; set_solver|set_solver].

Lemma holds_none s p e : holds s p (Cell (-1) e 0 ∅) = 0.
Proof. unfold holds. rewrite decide_False; [done|set_solver]. Qed.

Lemma rm_ok c i k : wf c → view c !! i = Some k → c_pos k ≠ (-1)%Z →
  okP (rm c i) (updates (has_shift c) c i cell_none).
Proof.
  intros Hw Hk Hne. cols Hw Hk. unfold rm, size. prim.
  destruct (seq_pos_rm_ok c i _ k Hp Hb (wf_sp _ Hw)) as (sp & -> & Hsp).
  { intros s Hs. by eapply wf_need. }
  prim. eapply (wf_update _ c _ i k); [done|done|done|apply cell_ok_none|col..| |]; simpl.
  - intros j. case_decide; set_solver.
  - eapply represents_ext; [|done]. intros. unfold cell_none. rewrite holds_none. lia.
Qed.

Lemma seq_rm_ok c i s k : wf c → view c !! i = Some k → s ∈ c_seq k →
  okP (seq_rm c i s) (λ '(c', b), updates (has_shift c) c i (cell_seq_rm s k) c' ∧
                                  b = bool_decide (c_seq k ∖ {[s]} = ∅)).
Proof.
  intros Hw Hk Hs. cols Hw Hk.
  destruct (cell_ok_pos k s) as [Hr Hpos]; [by eapply wf_cell|done|].
  unfold seq_rm, size. prim.
  pose proof (wf_need _ _ _ _ Hw Hk Hs) as Hneed.
  destruct (seq_pos_dec_ok (with_seqs c (<[i:=c_seq k ∖ {[s]}]> (seqs c))) _ s (c_pos k)
              (wf_sp _ Hw) Hr Hneed) as (sp & -> & Hsp).
  assert (Hcnt : ∀ k', holds s (c_pos k) k' = 0 →
      (∀ t p, (t, p) ≠ (s, c_pos k) → holds t p k' = holds t p k) →
      represents sp (λ t p, count_sp (view c) t p - holds t p k + holds t p k')).
  { intros k' Hz Hoth. eapply represents_ext; [|done]. intros t p _. unfold bump.
    assert (holds t p k ≤ count_sp (view c) t p) by (by eapply holds_count).
    case_decide as Htp.
    - destruct Htp as [-> ->]. rewrite Hz. unfold holds. rewrite decide_True by done. lia.
    - rewrite Hoth by naive_solver. lia. }
  unfold cell_seq_rm. case_decide as Hemp; prim.
  - rewrite bool_decide_true by done. split; [|done].
    eapply (wf_update _ c _ i k); [done|done|done|apply cell_ok_none|col..| |]; simpl.
    + by rewrite Hemp.
    + intros j. case_decide; set_solver.
    + apply Hcnt; [apply holds_none|]. intros t p Hne. unfold cell_none. rewrite holds_none.
      unfold holds. rewrite decide_False; [done|].
      intros [<- Ht]. destruct (decide (t = s)); [naive_solver|set_solver].
  - rewrite bool_decide_false by done. split; [|done].
    eapply (wf_update _ c _ i k); [done|done|done| |col..| |]; simpl.
    + right. simpl. split; [done|]. intros t Ht. eapply cell_ok_pos; [by eapply wf_cell|].
      set_solver.
    + intros j. case_decide; [|done]. subst. split; [simpl; lia|]. intros _.
      apply (wf_used _ Hw). exists k. split; [done|lia].
    + apply Hcnt; unfold holds; simpl.
      * rewrite decide_False; [done|set_solver].
      * intros t p Hne. repeat case_decide; set_solver.
Qed.

Lemma seq_keep_ok c i s k : wf c → view c !! i = Some k → (0 ≤ s < LLAMA_MAX_SEQ)%Z →
  (c_seq k = ∅ → c_pos k = (-1)%Z) →
  okP (seq_keep c i s) (λ '(c', b), updates (has_shift c) c i (cell_seq_keep s k) c' ∧
                                    b = bool_decide ((s ∉ c_seq k) ∧ (c_seq k ≠ ∅))).
Proof.
  intros Hw Hk Hs Hemp. cols Hw Hk. unfold seq_keep, size. prim.
  assert (Hneed : ∀ s, s ∈ c_seq k → 0 < count_sp (view c) s (c_pos k))
    by (intros; by eapply wf_need).
  destruct (seq_pos_rm_ok c i _ k Hp Hb (wf_sp _ Hw) Hneed) as (sp & Hrm & Hsp).
  unfold cell_seq_keep. case_bool_decide as Hin.
  - rewrite Hrm. prim. rewrite decide_True by done.
    destruct (seq_pos_inc_ok (with_seqs (with_seq_pos c sp) (<[i:={[s]} ∪ ∅]> (seqs c)))
      _ s (c_pos k) Hsp Hs) as (sp2 & -> & Hsp2).
    simpl. rewrite bool_decide_false by naive_solver. split; [|done].
    pose proof (cell_ok_pos k s (wf_cell _ Hw _ _ Hk) Hin) as [_ Hpos].
    eapply (wf_update _ c _ i k); [done|done|done| |col..| |]; simpl.
    + right. simpl. split; [done|set_solver].
    + f_equal. set_solver.
    + intros j. case_decide; [|done]. subst. split; [simpl; lia|]. intros _.
      apply (wf_used _ Hw). exists k. split; [done|lia].
    + eapply represents_ext; [|done]. intros t p _. unfold bump, holds; simpl.
      repeat case_decide; set_solver by lia.
  - rewrite (decide_False (P := s ∈ c_seq k)) by done.
    destruct (decide (c_seq k ≠ ∅)) as [Hne|He0].
    + rewrite Hrm. prim. rewrite bool_decide_true by done. split; [|done].
      eapply (wf_update _ c _ i k); [done|done|done|apply cell_ok_none|col..| |]; simpl.
      * intros j. case_decide; set_solver.
      * eapply represents_ext; [|done]. intros. unfold cell_none. rewrite holds_none. lia.
    + assert (c_seq k = ∅) as Heq by (by apply dec_stable).
      prim. rewrite (Hemp Heq). prim. rewrite bool_decide_false by naive_solver. split; [|done].
      split; [done|]. by rewrite list_insert_id.
Qed.

Lemma seq_add_ok c i s k : wf c → view c !! i = Some k → (0 ≤ s < LLAMA_MAX_SEQ)%Z →
  c_pos k ≠ (-1)%Z → s ∉ c_seq k →
  okP (seq_add c i s) (updates (has_shift c) c i (cell_seq_add s k)).
Proof.
  intros Hw Hk Hs Hne Hnin. cols Hw Hk. unfold seq_add, size. prim.
  rewrite bool_decide_false by done. prim.
  destruct (seq_pos_inc_ok (with_seqs c (<[i:={[s]} ∪ c_seq k]> (seqs c)))
      _ s (c_pos k) (wf_sp _ Hw) Hs) as (sp2 & -> & Hsp2).
  destruct (cell_seq_pos _ _ _ Hw Hk Hne) as [Hpos Hr].
  eapply (wf_update _ c _ i k); [done|done|done| |col..| |]; simpl.
  - right. simpl. split; [done|]. set_solver.
  - intros j. case_decide; [|done]. subst. split; [done|]. intros _.
    apply (wf_used _ Hw). by exists k.
  - eapply represents_ext; [|done]. intros t p _. unfold bump.
    pose proof (holds_count (view c) i k t p Hk). unfold holds in *; simpl.
    repeat case_decide; set_solver by lia.
Qed.

Lemma pos_set_ok c i p k : wf c → view c !! i = Some k → c_pos k = (-1)%Z → (0 ≤ p)%Z →
  okP (pos_set c i p) (updates (has_shift c) c i (Cell p (c_ext k) 0 ∅)).
Proof.
  intros Hw Hk Hne Hp0. cols Hw Hk.
  destruct (wf_cell _ Hw _ _ Hk) as [(_ & Hs0 & Hq0)|[? _]]; [|lia].
  unfold pos_set, size. rewrite Hne in Hp. rewrite Hq0 in Hb. rewrite Hs0 in Hsh. prim.
  eapply (wf_update _ c _ i k); [done|done|done| |col..| |]; simpl.
  - right. simpl. split; [done|]. set_solver.
  - intros j. case_decide; [|set_solver]. subst. split; [lia|]. set_solver.
  - eapply represents_ext; [|apply (wf_sp _ Hw)]. intros t q _.
    assert (holds t q k = 0) as ->. { unfold holds. rewrite decide_False; [done|set_solver]. }
    unfold holds; simpl. rewrite decide_False; [lia|set_solver].
Qed.

Lemma ext_set_ok c i e k : wf c → view c !! i = Some k →
  okP (ext_set c i e) (updates (has_shift c) c i (Cell (c_pos k) e (c_shift k) (c_seq k))).
Proof.
  intros Hw Hk. cols Hw Hk. unfold ext_set. prim.
  eapply (wf_update _ c _ i k); [done|done|done| |col..| |]; simpl.
  - destruct (wf_cell _ Hw _ _ Hk); [by left|by right].
  - intros j. case_decide; [|done]. subst. rewrite (wf_used _ Hw). naive_solver.
  - eapply represents_ext; [|apply (wf_sp _ Hw)]. intros t q _.
    pose proof (holds_count (view c) i k t q Hk). unfold holds in *; simpl. lia.
Qed.

Definition i32 (z : Z) : Prop := (INT32_MIN ≤ z ≤ INT32_MAX)%Z.

Lemma pos_add_ok c i d k : wf c → view c !! i = Some k → c_pos k ≠ (-1)%Z →
  i32 (c_pos k + d) → i32 (c_shift k + d) →
  okP (pos_add c i d) (λ '(c', b), updates true c i (cell_pos_add d k) c' ∧
                                   b = bool_decide (c_pos k + d < 0)%Z).
Proof.
  intros Hw Hk Hne H1 H2. cols Hw Hk. unfold pos_add, size. prim.
  destruct (seq_pos_rm_ok c i _ k Hp Hb (wf_sp _ Hw)) as (sp & -> & Hsp).
  { intros s Hs. by eapply wf_need. }
  destruct (cell_seq_pos _ _ _ Hw Hk Hne) as [Hpos Hr].
  prim. rewrite (i32_add_ok _ _ H1). prim. rewrite (i32_add_ok _ _ H2). prim.
  unfold cell_pos_add. case_decide as Hneg; prim.
  - rewrite bool_decide_true by done. split; [|done].
    eapply (wf_update _ c _ i k); [done|done|done|by left|col..| |]; simpl.
    + intros j. case_decide; set_solver.
    + eapply represents_ext; [|done]. intros. rewrite holds_none. lia.
  - set (k' := Cell (c_pos k + d) (c_ext k) (c_shift k + d) (c_seq k)).
    edestruct (seq_pos_add_ok (with_has_shift (with_shift (with_pos (with_seq_pos c sp)
      (<[i:=(c_pos k + d)%Z]> (pos c))) (<[i:=(c_shift k + d)%Z]> (shift c))) true) i (λ s p, count_sp (view c) s p - holds s p k) k')
      as (sp2 & -> & Hsp2); simpl.
    { rewrite list_lookup_insert_eq; [done|lia]. }
    { done. }
    { done. }
    rewrite bool_decide_false by done. split; [|done].
    eapply (wf_update _ c _ i k); [done|done|done| |col..| |]; simpl.
    + right. simpl. split; [lia|done].
    + intros j. case_decide; [|done]. subst. split; [intros _; lia|]. intros _.
      apply (wf_used _ Hw). by exists k.
    + done.
Qed.

Lemma pos_div_ok c i d k : wf c → view c !! i = Some k → c_pos k ≠ (-1)%Z → (0 < d)%Z →
  i32 (c_shift k + (c_pos k - Z.quot (c_pos k) d)) →
  okP (pos_div c i d) (updates true c i (cell_pos_div d k)).
Proof.
  intros Hw Hk Hne Hd H2. cols Hw Hk. unfold pos_div, size. prim.
  destruct (seq_pos_rm_ok c i _ k Hp Hb (wf_sp _ Hw)) as (sp & -> & Hsp).
  { intros s Hs. by eapply wf_need. }
  destruct (cell_seq_pos _ _ _ Hw Hk Hne) as [Hpos Hr].
  rewrite bind_Ok, check_ok by (apply bool_decide_eq_true_2; lia).
  prim. rewrite (i32_add_ok _ _ H2). prim. unfold cell_pos_div.
  set (k' := Cell (c_pos k ÷ d) (c_ext k) (c_shift k + (c_pos k - c_pos k ÷ d)) (c_seq k)).
  edestruct (seq_pos_add_ok (with_shift (with_pos (with_seq_pos c sp)
      (<[i:=(c_pos k ÷ d)%Z]> (pos c)))
      (<[i:=(c_shift k + (c_pos k - c_pos k ÷ d))%Z]> (shift c))) i (λ s p, count_sp (view c) s p - holds s p k) k')
      as (sp2 & -> & Hsp2); simpl.
  { rewrite list_lookup_insert_eq; [done|lia]. }
  { done. }
  { done. }
  assert (0 ≤ c_pos k ÷ d)%Z by (apply Z.quot_pos; lia).
  eapply (wf_update _ c _ i k); [done|done|done| |col..| |]; simpl.
  - right. simpl. split; [lia|done].
  - intros j. case_decide; [|done]. subst. split; [lia|]. intros _.
    apply (wf_used _ Hw). by exists k.
  - done.
Qed.

(** The two conditional loops of [set] behave as if unconditional: an empty
    cell holds nothing. *)
Lemma seq_pos_rm_opt_ok c i f k :
  pos c !! i = Some (c_pos k) → seqs c !! i = Some (c_seq k) → cell_ok k →
  represents (seq_pos c) f → (∀ s, s ∈ c_seq k → 0 < f s (c_pos k)) →
  ∃ sp', (if decide (c_pos k ≠ -1)%Z then seq_pos_rm c i else Ok c) = Ok (with_seq_pos c sp') ∧
    represents sp' (λ s p, f s p - holds s p k).
Proof.
  intros Hp Hb Hok Hf Hn. case_decide; [by apply seq_pos_rm_ok|].
  exists (seq_pos c). split; [by destruct c|]. eapply represents_ext; [|done]. intros s p _.
  destruct Hok as [(?&?&E)|[??]]; [|lia]. unfold holds. rewrite decide_False by set_solver. lia.
Qed.

Lemma seq_pos_add_opt_ok c i f k :
  pos c !! i = Some (c_pos k) → seqs c !! i = Some (c_seq k) → cell_ok k →
  represents (seq_pos c) f →
  ∃ sp', (if decide (c_pos k ≠ -1)%Z then seq_pos_add c i else Ok c) = Ok (with_seq_pos c sp') ∧
    represents sp' (λ s p, f s p + holds s p k).
Proof.
  intros Hp Hb Hok Hf. case_decide; [by apply seq_pos_add_ok|].
  exists (seq_pos c). split; [by destruct c|]. eapply represents_ext; [|done]. intros s p _.
  destruct Hok as [(?&?&E)|[??]]; [|lia]. unfold holds. rewrite decide_False by set_solver. lia.
Qed.

Lemma set_one_run c i k p' e' b' : wf c → view c !! i = Some k →
  cell_ok (Cell p' e' 0 b') →
  ∃ c', set_one c i p' e' b' = (assert_ (bool_decide (c_shift k = 0)%Z);; Ok c') ∧
        (c_shift k = 0%Z → updates (has_shift c) c i (Cell p' e' 0 b') c').
Proof.
  intros Hw Hk Hok. cols Hw Hk. unfold set_one.
  erewrite vget_ok by eassumption. rewrite bind_Ok.
  set (u := if decide (p' = -1)%Z then used c ∖ {[i]} else {[i]} ∪ used c).
  set (k' := Cell p' e' 0 b').
  assert (Hu : (if decide (c_pos k ≠ -1 ∧ p' = -1)%Z
       then used_erase (if decide (c_pos k = -1 ∧ p' ≠ -1)%Z then used_insert c i else c) i
       else if decide (c_pos k = -1 ∧ p' ≠ -1)%Z then used_insert c i else c) = with_used c u).
  { pose proof (wf_used _ Hw i) as Hui. rewrite Hk in Hui. unfold u, used_erase, used_insert.
    destruct c; unfold with_used; simpl in *.
    repeat case_decide; try lia; simpl; f_equal; set_solver. }
  cbv zeta. rewrite Hu.
  destruct (seq_pos_rm_opt_ok (with_used c u) i _ k Hp Hb (wf_cell _ Hw _ _ Hk) (wf_sp _ Hw))
    as (sp & -> & Hsp). { intros s Hs. by eapply wf_need. }
  prim.
  edestruct (seq_pos_add_opt_ok (with_seqs (with_ext (with_pos (with_seq_pos (with_used c u) sp)
     (<[i:=p']> (pos c))) (<[i:=e']> (ext c))) (<[i:=b']> (seqs c))) i (λ s p, count_sp (view c) s p - holds s p k) k') as (sp2 & E & Hsp2).
  { simpl. rewrite list_lookup_insert_eq; [done|lia]. }
  { simpl. rewrite list_lookup_insert_eq; [done|lia]. }
  { done. }
  { exact Hsp. }
  simpl in E. rewrite E. prim. eexists. split; [done|]. intros Hs0. rewrite Hs0 in Hsh.
  eapply (wf_update _ c _ i k); [done|done|done|done|col..| |]; simpl.
  - intros j. unfold u. repeat case_decide; subst; set_solver.
  - done.
Qed.

Lemma set_one_ok c i k p' e' b' : wf c → view c !! i = Some k → c_shift k = 0%Z →
  cell_ok (Cell p' e' 0 b') →
  okP (set_one c i p' e' b') (updates (has_shift c) c i (Cell p' e' 0 b')).
Proof.
  intros Hw Hk Hs Hok. destruct (set_one_run c i k p' e' b' Hw Hk Hok) as (c' & -> & H).
  rewrite assert_ok by ok_side. by apply H.
Qed.

(** Operations that touch every cell *)
Lemma lookup_cleared n i k : view (cleared n) !! i = Some k ↔ i < n ∧ k = cell_none.
Proof.
  rewrite view_lookup. unfold cleared; simpl. rewrite !lookup_replicate.
  split; [intros (?&?&?&?); destruct k; naive_solver|]. intros [? ->]. naive_solver.
Qed.

Lemma cleared_ok n : wf (cleared n) ∧ view (cleared n) = replicate n cell_none.
Proof.
  split.
  - split; try (simpl; by rewrite !length_replicate).
    + intros i k [_ ->]%lookup_cleared. apply cell_ok_none.
    + intros i. simpl. split; [set_solver|]. intros (k & [_ ->]%lookup_cleared & Hne). done.
    + split; [done|]. intros s m [-> _]%lookup_replicate p. rewrite lookup_empty.
      unfold cnt_opt. rewrite decide_True; [done|]. apply sum_list_zero.
      intros k [i [_ ->]%lookup_cleared]%list_elem_of_lookup. apply holds_none.
  - apply list_eq. intros i. apply option_eq. intros k.
    rewrite lookup_cleared, lookup_replicate. naive_solver.
Qed.

Lemma reset_shift_ok c : wf c →
  wf (reset_shift c) ∧ has_shift (reset_shift c) = false ∧
  view (reset_shift c) = (λ k, Cell (c_pos k) (c_ext k) 0 (c_seq k)) <$> view c.
Proof.
  intros Hw. pose proof (wf_shift _ Hw) as Hl.
  assert (Hv : view (reset_shift c) = (λ k, Cell (c_pos k) (c_ext k) 0 (c_seq k)) <$> view c).
  { apply list_eq. intros i. apply option_eq. intros k. rewrite list_lookup_fmap, fmap_Some.
    rewrite view_lookup. unfold reset_shift; simpl. rewrite lookup_replicate. split.
    - intros (H1 & H2 & [H3 Hi] & H4).
      destruct (lookup_lt_is_Some_2 (shift c) i Hi) as [sh Hsh].
      exists (Cell (c_pos k) (c_ext k) sh (c_seq k)). rewrite view_lookup; simpl.
      destruct k; naive_solver.
    - intros (k0 & Hk0 & ->). pose proof (view_lt _ _ _ Hw Hk0) as Hi. unfold size in Hi.
      apply view_lookup in Hk0 as (?&?&?&?); simpl. repeat split; [done..|lia|done]. }
  split; [|done]. destruct Hw as [L1 L2 L3 Hc Hu Hs].
  split; try done; simpl.
  - rewrite length_replicate. congruence.
  - intros i k. rewrite Hv, list_lookup_fmap, fmap_Some. intros (k0 & Hk0 & ->).
    destruct (Hc _ _ Hk0) as [(?&?&?)|[??]]; [by left|by right].
  - intros i. rewrite Hu, Hv. setoid_rewrite list_lookup_fmap. split.
    + intros (k & -> & ?). by eexists.
    + intros (k & (k0 & Hk0 & ->)%fmap_Some & ?). eauto.
  - rewrite Hv. eapply represents_ext; [|done]. intros s p _. unfold count_sp.
    f_equal. rewrite <- list_fmap_compose. by apply list_fmap_ext.
Qed.

(** ** Queries *)
Section queries.
  Context (c : llama_kv_cells) (i : nat) (k : cell).
  Hypothesis (Hw : wf c) (Hk : view c !! i = Some k).

Lemma is_empty_ok : is_empty c i = Ok (bool_decide (c_pos k = -1)%Z).
  Proof.
    cols Hw Hk. unfold is_empty, size. prim. rewrite assert_ok; [done|].
    destruct (wf_cell _ Hw _ _ Hk) as [(-> & _)|[? _]]; [done|].
    by rewrite (bool_decide_true (0 ≤ _)%Z), orb_true_r.
  Qed.

Lemma seq_has_ok s : (0 ≤ s < LLAMA_MAX_SEQ)%Z → seq_has c i s = Ok (bool_decide (s ∈ c_seq k)).
  Proof. intros. cols Hw Hk. unfold seq_has, size. by prim. Qed.

Lemma pos_in_ok p0 p1 :
    pos_in c i p0 p1 = Ok (bool_decide (p0 ≤ c_pos k)%Z && bool_decide (c_pos k < p1)%Z).
  Proof. cols Hw Hk. unfold pos_in, size. by prim. Qed.

Lemma seq_get_ok : base.size (c_seq k) = 1 → ∃ s, seq_get c i = Ok s ∧ c_seq k = {[s]}.
  Proof.
    intros Hs. cols Hw Hk. unfold seq_get. prim.
    apply size_1_elem_of in Hs as [s Hs]. apply leibniz_equiv in Hs.
    exists s. split; [|done]. f_equal.
    assert (Hr : (0 ≤ s < LLAMA_MAX_SEQ)%Z).
    { destruct (wf_cell _ Hw _ _ Hk) as [(_&_&E)|[_ H2]]; [set_solver|]. apply H2. set_solver. }
    destruct (list_find (λ s, s ∈ c_seq k) all_seqs) as [[j t]|] eqn:E; simpl.
    - apply list_find_Some in E as (_ & Ht & _). simpl in Ht. rewrite Hs in Ht.
      by apply elem_of_singleton in Ht.
    - apply list_find_None in E. rewrite Forall_forall in E.
      exfalso. apply (E s); [by apply elem_of_all_seqs|rewrite Hs; by apply elem_of_singleton].
  Qed.

  Hypothesis (Hne : c_pos k ≠ (-1)%Z).

Lemma seq_count_ok : seq_count c i = Ok (base.size (c_seq k)).
  Proof. cols Hw Hk. unfold seq_count, size. by prim. Qed.
Lemma pos_get_ok : pos_get c i = Ok (c_pos k).
  Proof. cols Hw Hk. unfold pos_get, cell_get, size. by prim. Qed.
Lemma ext_get_ok : ext_get c i = Ok (c_ext k).
  Proof. cols Hw Hk. unfold ext_get, cell_get, size. by prim. Qed.
Lemma get_shift_ok : get_shift c i = Ok (c_shift k).
  Proof. cols Hw Hk. unfold get_shift, cell_get, size. by prim. Qed.
End queries.

Lemma count_pos v s p : count_sp v s p ≠ 0 ↔ ∃ k, k ∈ v ∧ s ∈ c_seq k ∧ c_pos k = p.
Proof.
  unfold count_sp. split.
  - intros H. destruct (decide (Exists (λ k, s ∈ c_seq k ∧ c_pos k = p) v)) as [He|Hn].
    + apply Exists_exists in He. naive_solver.
    + exfalso. apply H, sum_list_zero. intros k Hk. unfold holds. rewrite decide_False; [done|].
      intros [??]. apply Hn, Exists_exists. naive_solver.
  - intros (k & Hk & Hs & Hp) H. rewrite sum_list_zero in H. specialize (H k Hk).
    unfold holds in H. by rewrite decide_True in H.
Qed.

Lemma seq_pos_edge_ok ends le c s :
  (∀ l m, ends l = Some m ↔ m ∈ l ∧ ∀ x, x ∈ l → le m x) → (∀ l, ends l = None ↔ l = []) →
  wf c → (0 ≤ s < LLAMA_MAX_SEQ)%Z →
  okP (seq_pos_edge ends c s) (is_edge le (view c) s).
Proof.
  intros Hends Hnil Hw Hs.
  destruct (represents_lookup _ _ _ (wf_sp _ Hw) Hs) as (m & Hm & Hc).
  assert (Hkey : ∀ p, p ∈ (map_to_list m).*1 ↔ ∃ k, k ∈ view c ∧ s ∈ c_seq k ∧ c_pos k = p).
  { intros p. rewrite <- count_pos, list_elem_of_fmap. split.
    - intros ([p' n] & -> & Hin). apply elem_of_map_to_list in Hin. rewrite Hc in Hin.
      unfold cnt_opt in Hin. simpl. by case_decide.
    - intros Hpos. exists (p, Z.of_nat (count_sp (view c) s p)). split; [done|].
      apply elem_of_map_to_list. by rewrite Hc, cnt_opt_Some by lia. }
  unfold seq_pos_edge. rewrite assert_ok by ok_side. rewrite bind_Ok, assert_ok by ok_side.
  rewrite bind_Ok, idx_ok, bind_Ok, (vget_ok _ _ _ Hm), bind_Ok by lia.
  destruct (ends _) as [p|] eqn:E.
  - apply Hends in E as [Hin Hle]. pose proof (proj1 (Hkey p) Hin) as Hex.
    apply count_pos in Hex. rewrite Hc, cnt_opt_Some by lia. simpl.
    rewrite assert_ok by ok_side. simpl. right. split; [by apply Hkey|].
    intros k Hk Hks. apply Hle, Hkey. eauto.
  - apply Hnil in E. simpl. left. split; [done|]. intros k Hk Hks.
    assert (c_pos k ∈ (map_to_list m).*1) as Hx by (apply Hkey; eauto).
    rewrite E in Hx. by apply elem_of_nil in Hx.
Qed.

Lemma seq_pos_min_ok c s : wf c → (0 ≤ s < LLAMA_MAX_SEQ)%Z →
  okP (seq_pos_min c s) (is_edge Z.le (view c) s).
Proof. apply seq_pos_edge_ok; [apply list_min_spec|apply list_min_None]. Qed.
Lemma seq_pos_max_ok c s : wf c → (0 ≤ s < LLAMA_MAX_SEQ)%Z →
  okP (seq_pos_max c s) (is_edge Z.ge (view c) s).
Proof.
  apply seq_pos_edge_ok; [|apply list_max_None]. intros l m. rewrite list_max_spec.
  split; intros [? H]; (split; [done|]); intros x Hx; specialize (H x Hx); lia.
Qed.

Lemma used_max_p1_bound c i k : wf c → view c !! i = Some k → c_pos k ≠ (-1)%Z →
  (Z.of_nat i < used_max_p1 c)%Z.
Proof.
  intros Hw Hk Hne. unfold used_max_p1.
  assert (Hin : Z.of_nat i ∈ Z.of_nat <$> elements (used c)).
  { apply list_elem_of_fmap. exists i. split; [done|]. apply elem_of_elements, (wf_used _ Hw). eauto. }
  destruct (list_max _) as [m|] eqn:E; simpl.
  - apply list_max_spec in E as [_ E]. specialize (E _ Hin). lia.
  - apply list_max_None in E. rewrite E in Hin. by apply elem_of_nil in Hin.
Qed.

Lemma used_max_p1_le c : wf c → (used_max_p1 c ≤ Z.of_nat (size c))%Z.
Proof.
  intros Hw. unfold used_max_p1. destruct (list_max _) as [m|] eqn:E; simpl; [|lia].
  apply list_max_spec in E as [(i & -> & Hi)%list_elem_of_fmap _].
  apply elem_of_elements, (wf_used _ Hw) in Hi as (k & Hk & _).
  apply view_lt in Hk; [lia|done].
Qed.

(** ** A well formed state is determined by its cells *)
Lemma view_col {A} (sel : cell → A) (col : list A) (v : list cell) :
  length col = length v → (∀ i k, v !! i = Some k → col !! i = Some (sel k)) → col = sel <$> v.
Proof.
  intros Hl H. apply list_eq_same_length with (length v); [by rewrite length_fmap|done|].
  intros i x y Hi Hx. rewrite list_lookup_fmap. intros (k & Hk & ->)%fmap_Some.
  specialize (H _ _ Hk). congruence.
Qed.

Lemma view_cols c : wf c →
  pos c = c_pos <$> view c ∧ ext c = c_ext <$> view c ∧
  shift c = c_shift <$> view c ∧ seqs c = c_seq <$> view c.
Proof.
  intros Hw. pose proof (length_view _ Hw) as Hl. unfold size in Hl.
  pose proof (wf_ext _ Hw). pose proof (wf_shift _ Hw). pose proof (wf_seqs _ Hw).
  split_and!; apply view_col; try congruence; intros i k Hk; by apply view_lookup in Hk as (?&?&?&?).
Qed.

Lemma wf_determined c1 c2 : wf c1 → wf c2 →
  view c1 = view c2 → has_shift c1 = has_shift c2 → c1 = c2.
Proof.
  intros H1 H2 Hv Hh.
  destruct (view_cols c1) as (A1 & A2 & A3 & A4); [done|].
  destruct (view_cols c2) as (B1 & B2 & B3 & B4); [done|].
  assert (Hu : used c1 = used c2).
  { apply set_eq. intros i. by rewrite (wf_used _ H1), (wf_used _ H2), Hv. }
  assert (Hs : seq_pos c1 = seq_pos c2).
  { destruct (wf_sp _ H1) as [L1 R1], (wf_sp _ H2) as [L2 R2].
    apply list_eq_same_length with (length (seq_pos c1)); [congruence|done|].
    intros s m1 m2 Hlt E1 E2. apply map_eq. intros p. by rewrite (R1 _ _ E1), (R2 _ _ E2), Hv. }
  destruct c1, c2; simpl in *. congruence.
Qed.

(** ** Saving and restoring cells *)
Lemma foldl_write_length v ps : length (write_cells v ps) = length v.
Proof. revert v; induction ps as [|p ps IH]; intros v; simpl; [done|]. unfold write_cells in *.
  simpl. by rewrite IH, length_insert. Qed.

Lemma write_cells_other v ps i : i ∉ ps.*1 → write_cells v ps !! i = v !! i.
Proof.
  unfold write_cells. revert v; induction ps as [|[j k] ps IH]; intros v Hi; csimpl in *; [done|].
  rewrite IH by set_solver. apply list_lookup_insert_ne. set_solver.
Qed.

Lemma write_cells_consistent v ps (g : nat → option cell) i :
  (∀ j k, (j, k) ∈ ps → g j = Some k ∧ j < length v) → i ∈ ps.*1 → write_cells v ps !! i = g i.
Proof.
  unfold write_cells. revert v; induction ps as [|[j k] ps IH]; intros v Hg Hi; csimpl in *; [set_solver|].
  destruct (decide (i ∈ ps.*1)) as [Hin|Hnin].
  - apply IH; [|done]. intros j' k' Hj. rewrite length_insert. apply Hg. set_solver.
  - assert (i = j) as -> by set_solver.
    destruct (Hg j k) as [-> Hlt]; [set_solver|].
    pose proof (write_cells_other (<[j:=k]> v) ps j Hnin) as Ho. unfold write_cells in Ho.
    rewrite Ho. by apply list_lookup_insert_eq.
Qed.

(** the cells of [cp] *)
Lemma cp_idxs_ok c idxs ks : wf c → Forall2 (λ i k, view c !! i = Some k) idxs ks →
  Forall (λ k, c_shift k = 0%Z) ks →
  okP (cp_idxs c idxs) (λ r, snapshot r ∧ view r = ks).
Proof.
  intros Hw Hks Hsh. unfold cp_idxs. set (n := length idxs).
  assert (Hn : length ks = n) by (symmetry; by eapply Forall2_length).
  eapply okP_mono.
  - apply (okP_for _ (λ j r, length (pos r) = n ∧ length (ext r) = n ∧ length (shift r) = n ∧
        length (seqs r) = n ∧ shift r = replicate n 0%Z ∧
        ∀ m, m < j → view r !! m = ks !! m)).
    + unfold resize, cleared; simpl. rewrite !length_replicate. split_and!; try done. lia.
    + intros j r Hj (L1 & L2 & L3 & L4 & Es & Hpre).
      destruct (lookup_lt_is_Some_2 idxs j Hj) as [i Hidx].
      destruct (Forall2_lookup_l _ _ _ _ _ Hks Hidx) as (k & Hkj & Hk). simpl in Hk.
      pose proof (proj1 (Forall_lookup _ _) Hsh _ _ Hkj) as Hk0. simpl in Hk0.
      cols Hw Hk. rewrite Hk0 in Hsh0. prim.
      rewrite !length_insert. split_and!; try done.
      set (r' := with_seqs _ _).
      assert (Hv : view r' = <[j:=k]> (view r)).
      { apply view_insert; rewrite ?L1, ?L2, ?L3, ?L4; try done; col.
        symmetry. apply list_insert_id. rewrite Hk0. simpl.
        rewrite Es. by apply lookup_replicate_2. }
      intros m Hm. rewrite Hv. destruct (decide (m = j)) as [->|].
      * rewrite list_lookup_insert_eq; [done|]. unfold view. rewrite !length_zip_with. lia.
      * rewrite list_lookup_insert_ne by done. apply Hpre. lia.
  - intros r (L1 & L2 & L3 & L4 & Es & Hall).
    assert (Hv : view r = ks).
    { apply list_eq. intros m. destruct (decide (m < n)) as [Hm|Hm]; [by apply Hall|].
      rewrite !lookup_ge_None_2; [done|lia|]. unfold view. rewrite !length_zip_with. lia. }
    split; [|done]. split; try congruence.
    intros m k Hm. rewrite Hv in Hm.
    destruct (Forall2_lookup_r _ _ _ _ _ Hks Hm) as (i & _ & Hi).
    split; [by eapply wf_cell|]. by eapply (proj1 (Forall_lookup _ _) Hsh).
Qed.

Lemma set_idxs_ok c idxs o : wf c → snapshot o → length idxs = size o →
  Forall (λ i, ∃ k, view c !! i = Some k ∧ c_shift k = 0%Z) idxs →
  okP (set_idxs c idxs o) (λ c', wf c' ∧ view c' = write_cells (view c) (zip idxs (view o)) ∧
                                 has_shift c' = has_shift c).
Proof.
  intros Hw Ho Hlen Hidx. unfold set_idxs. rewrite assert_ok by ok_side. rewrite bind_Ok.
  assert (Hlo : length (view o) = size o).
  { destruct Ho. unfold view, size. rewrite !length_zip_with. lia. }
  eapply okP_mono.
  - apply (okP_for _ (λ j c', wf c' ∧ view c' = write_cells (view c) (take j (zip idxs (view o))) ∧
       has_shift c' = has_shift c ∧ length (view c') = length (view c) ∧
       Forall (λ i, ∃ k, view c' !! i = Some k ∧ c_shift k = 0%Z) idxs)).
    + done.
    + intros j c' Hj (Hw' & Hv & Hh & Hl & Hidx').
      destruct (lookup_lt_is_Some_2 idxs j) as [i Hi]; [lia|].
      destruct (lookup_lt_is_Some_2 (view o) j) as [ko Hko]; [lia|].
      destruct (proj1 (Forall_lookup _ _) Hidx' _ _ Hi) as (k & Hk & Hk0).
      destruct (sn_cell _ Ho _ _ Hko) as [Hok Hs0].
      pose proof (proj1 (view_lookup _ _ _) Hko) as (O1 & O2 & O3 & O4).
      prim.
      assert (Eko : Cell (c_pos ko) (c_ext ko) 0 (c_seq ko) = ko)
        by (destruct ko; simpl in *; by subst).
      eapply okP_mono; [apply (set_one_ok c' i k); [done..|by rewrite Eko]|].
      intros c2 (Hw2 & Hv2 & Hh2). rewrite Eko in Hv2. split_and!; [done| |congruence| |].
      * rewrite Hv2, Hv. erewrite take_S_r by (by apply lookup_zip_with_Some; eauto).
        unfold write_cells. by rewrite foldl_app.
      * by rewrite Hv2, length_insert.
      * apply Forall_lookup. intros m i' Hm. rewrite Hv2.
        destruct (proj1 (Forall_lookup _ _) Hidx' _ _ Hm) as (k2 & Hk2 & ?).
        destruct (decide (i' = i)) as [->|].
        -- exists ko. split; [|done]. apply list_lookup_insert_eq. by eapply lookup_lt_Some.
        -- exists k2. by rewrite list_lookup_insert_ne.
  - intros c' (? & Hv & ? & _). split_and!; [done| |done].
    rewrite Hv. f_equal. apply take_ge. rewrite length_zip_with. lia.
Qed.

Lemma Forall2_view c idxs : Forall (λ i, is_Some (view c !! i)) idxs →
  ∃ ks, Forall2 (λ i k, view c !! i = Some k) idxs ks.
Proof.
  induction 1 as [|i idxs [k Hk] _ [ks IH]]; [by exists []|]. by exists (k :: ks); constructor.
Qed.

(** Writing back what [cp] saved undoes any change confined to those cells. *)
Lemma cp_set_restores c0 c1 idxs : wf c0 → wf c1 → size c1 = size c0 →
  has_shift c1 = has_shift c0 →
  (∀ i, i ∉ idxs → view c1 !! i = view c0 !! i) →
  Forall (λ i, ∃ k0 k1, view c0 !! i = Some k0 ∧ view c1 !! i = Some k1 ∧
                        c_shift k0 = 0%Z ∧ c_shift k1 = 0%Z) idxs →
  okP (cp_idxs c0 idxs) (λ saved, set_idxs c1 idxs saved = Ok c0).
Proof.
  intros H0 H1 Hsz Hhs Hsame Hidx.
  destruct (Forall2_view c0 idxs) as [ks Hks].
  { eapply Forall_impl; [done|]. intros i (k0 & _ & Hk & _). by exists k0. }
  assert (Hsh : Forall (λ k, c_shift k = 0%Z) ks).
  { apply Forall_lookup. intros j k Hj.
    destruct (Forall2_lookup_r _ _ _ _ _ Hks Hj) as (i & Hi & Hk).
    destruct (proj1 (Forall_lookup _ _) Hidx _ _ Hi) as (k0 & ? & Hk0 & _ & ? & _). naive_solver. }
  eapply okP_mono; [by eapply cp_idxs_ok|]. intros o [Ho Hv].
  assert (Hl : length idxs = size o).
  { destruct Ho. rewrite (Forall2_length _ _ _ Hks), <- Hv. unfold view, size.
    rewrite !length_zip_with. lia. }
  assert (Hidx1 : Forall (λ i, ∃ k, view c1 !! i = Some k ∧ c_shift k = 0%Z) idxs).
  { eapply Forall_impl; [done|]. naive_solver. }
  pose proof (set_idxs_ok c1 idxs o H1 Ho Hl Hidx1) as Hset.
  apply okP_ok in Hset as (c' & E & Hw' & Hv' & Hh'). rewrite E. f_equal.
  apply wf_determined; [done|done| |congruence].
  rewrite Hv', Hv. apply list_eq. intros i.
  assert (Hfst : (zip idxs ks).*1 = idxs) by (apply fst_zip; rewrite (Forall2_length _ _ _ Hks); lia).
  destruct (decide (i ∈ idxs)) as [Hi|Hi].
  - apply (write_cells_consistent _ _ (λ i, view c0 !! i)); [|by rewrite Hfst].
    intros j k (m & Hm)%list_elem_of_lookup.
    apply lookup_zip_with_Some in Hm as (j' & k' & [= -> ->] & Hj & Hk).
    pose proof (Forall2_lookup_lr _ _ _ _ _ _ Hks Hj Hk) as Hjk. split; [done|].
    rewrite length_view by done. rewrite Hsz. exact (view_lt _ _ _ H0 Hjk).
  - rewrite write_cells_other by (by rewrite Hfst). by apply Hsame.
Qed.

(** ** Every operation keeps the derived indices in step with the cells *)

Lemma bit_test_inv b s t : bit_test b s = Ok t →
  (0 ≤ s < LLAMA_MAX_SEQ)%Z ∧ t = bool_decide (s ∈ b).
Proof.
  unfold bit_test, bit_check, check.
  destruct (bool_decide (0 ≤ s < LLAMA_MAX_SEQ)%Z) eqn:E; simpl; intros H; simplify_eq.
  split; [by apply bool_decide_eq_true_1 in E|done].
Qed.

(** find the cell at an index known to be in range *)
Ltac the_cell Hw i :=
  let k := fresh "k" in let Hk := fresh "Hk" in
  destruct (view_Some _ i Hw) as [k Hk]; [unfold size; eauto using lookup_lt_Some|];
  let H := fresh in pose proof (proj1 (view_lookup _ _ _) Hk) as H;
  destruct H as (? & ? & ? & ?).

(** a run that returned has met the overflow checks *)
Lemma pos_add_inv c i d k r : wf c → view c !! i = Some k → pos_add c i d = Ok r →
  c_pos k ≠ (-1)%Z ∧ i32 (c_pos k + d) ∧ i32 (c_shift k + d).
Proof.
  intros Hw Hk H. cols Hw Hk. unfold pos_add in H.
  apply bind_Ok_inv in H as (_ & _ & H). erewrite vget_ok in H by eassumption. simpl in H.
  apply bind_Ok_inv in H as (? & Hne & H). apply assert_inv, bool_decide_eq_true_1 in Hne.
  destruct (seq_pos_rm_ok c i _ k Hp Hb (wf_sp _ Hw)) as (sp & E & _).
  { intros s Hs. by eapply wf_need. }
  rewrite E in H. simpl in H.
  apply bind_Ok_inv in H as (p' & [Hp' ->]%i32_add_inv & H). revert H. prim. intros H.
  apply bind_Ok_inv in H as (s' & [Hs' ->]%i32_add_inv & H). done.
Qed.

Lemma pos_div_inv c i d k r : wf c → view c !! i = Some k → pos_div c i d = Ok r →
  c_pos k ≠ (-1)%Z ∧ i32 (c_shift k + (c_pos k - Z.quot (c_pos k) d)).
Proof.
  intros Hw Hk H. cols Hw Hk. unfold pos_div in H.
  apply bind_Ok_inv in H as (_ & _ & H). erewrite vget_ok in H by eassumption. simpl in H.
  apply bind_Ok_inv in H as (? & Hne & H). apply assert_inv, bool_decide_eq_true_1 in Hne.
  destruct (seq_pos_rm_ok c i _ k Hp Hb (wf_sp _ Hw)) as (sp & E & _).
  { intros s Hs. by eapply wf_need. }
  rewrite E in H. simpl in H.
  apply bind_Ok_inv in H as (_ & _ & H). revert H. prim. intros H.
  apply bind_Ok_inv in H as (s' & [Hs' ->]%i32_add_inv & H). done.
Qed.

Lemma step_wf c c' : wf c → step c c' → wf c'.
Proof.
  intros Hw Hst. destruct Hst as
    [c|c|c i c' H|c i s c' b H|c i s c' b H|c i s c' H|c i p c' Hp H|c i e c' H|c i d c' b H
    |c i d c' Hd H|c idxs o c' Ho H].
  - apply cleared_ok.
  - by apply reset_shift_ok.
  - pose proof H as H0. unfold rm in H0. inv_ok H0. the_cell Hw i. simplify_eq.
    by apply (okP_Ok _ _ _ (rm_ok c i k Hw Hk Hx1)).
  - pose proof H as H0. unfold seq_rm in H0. inv_ok H0. the_cell Hw i. simplify_eq.
    apply bit_test_inv in Hx1 as [_ Hin].
    symmetry in Hin. apply bool_decide_eq_true_1 in Hin.
    by destruct (okP_Ok _ _ _ (seq_rm_ok c i s k Hw Hk Hin) H) as [[? _] _].
  - pose proof H as H0. unfold seq_keep in H0. inv_ok H0. the_cell Hw i. simplify_eq.
    apply bit_test_inv in Hx1 as [Hs ->].
    assert (He : c_seq k = ∅ → c_pos k = (-1)%Z).
    { intros E. rewrite E in H0. rewrite bool_decide_false in H0 by set_solver.
      rewrite decide_False in H0 by naive_solver. inv_ok H0. by simplify_eq. }
    by destruct (okP_Ok _ _ _ (seq_keep_ok c i s k Hw Hk Hs He) H) as [[? _] _].
  - pose proof H as H0. unfold seq_add in H0. inv_ok H0. the_cell Hw i. simplify_eq.
    match goal with Ht : bit_test _ _ = Ok _ |- _ => apply bit_test_inv in Ht as [Hs ->] end.
    match goal with Hn : negb _ = true |- _ =>
      apply negb_true_iff, bool_decide_eq_false_1 in Hn;
      by apply (okP_Ok _ _ _ (seq_add_ok c i s k Hw Hk Hs ltac:(done) Hn)) end.
  - pose proof H as H0. unfold pos_set in H0. inv_ok H0. the_cell Hw i. simplify_eq.
    by apply (okP_Ok _ _ _ (pos_set_ok c i p k Hw Hk ltac:(done) Hp)).
  - pose proof H as H0. unfold ext_set in H0. inv_ok H0. rewrite (wf_ext _ Hw) in Hx.
    destruct (view_Some c i Hw Hx) as [k Hk].
    by apply (okP_Ok _ _ _ (ext_set_ok c i e k Hw Hk)).
  - pose proof H as H0. unfold pos_add in H0. inv_ok H0. the_cell Hw i. simplify_eq.
    destruct (pos_add_inv c i d k _ Hw Hk H) as (? & ? & ?).
    by destruct (okP_Ok _ _ _ (pos_add_ok c i d k Hw Hk ltac:(done) ltac:(done) ltac:(done)) H) as [[? _] _].
  - pose proof H as H0. unfold pos_div in H0. inv_ok H0. the_cell Hw i. simplify_eq.
    destruct (pos_div_inv c i d k _ Hw Hk H) as (? & ?).
    by apply (okP_Ok _ _ _ (pos_div_ok c i d k Hw Hk ltac:(done) Hd ltac:(done))).
  - pose proof H as H0. unfold set_idxs in H0. inv_ok H0.
    refine (foldM_inv _ wf _ _ _ Hw _ H0). clear - Ho.
    intros c j c' Hj Hw H. inv_ok H.
    destruct (view_Some c x Hw) as [k Hk].
    { unfold set_one in H. apply bind_Ok_inv in H as (? & H%vget_inv & _).
      by apply lookup_lt_Some in H. }
    assert (Hv : view o !! j = Some (Cell x0 x1 0 x2)).
    { apply elem_of_seq in Hj. destruct (lookup_lt_is_Some_2 (view o) j) as [ko Hko].
      { destruct Ho. unfold view, size in *. rewrite !length_zip_with. lia. }
      pose proof (proj2 (sn_cell _ Ho _ _ Hko)). apply view_lookup in Hko as Hc.
      destruct ko; simpl in *. naive_solver. }
    destruct (sn_cell _ Ho _ _ Hv) as [Hok _].
    destruct (set_one_run c x k x0 x1 x2 Hw Hk Hok) as (c2 & E & Hu).
    rewrite E in H. inv_ok H. simplify_eq. by apply Hu.
Qed.

(** * Properties *)

(** C1. The derived indices never go stale: from a freshly resized state, after
    any sequence of operations that return (each operation checks its own
    precondition), [used] is exactly the set of non-empty cells, [seq_pos[s][p]]
    is exactly the number of cells that hold position [p] of sequence [s], an
    empty cell has no sequence and no pending shift, and all vectors have the
    same length. *)
Theorem kv_cells_invariant n c : rtc step (resize n) c → wf c.
Proof.
  intros H. assert (Hw : wf (resize n)) by apply cleared_ok.
  induction H as [c|c1 c2 c3 H12 _ IH]; [done|]. by apply IH, (step_wf c1).
Qed.

Definition witness_cells : res llama_kv_cells :=
  c ← pos_set (resize 3) 1 7; c ← seq_add c 1 0; seq_add c 1 2.

Lemma kv_cells_invariant_witness :
  okP witness_cells (λ c, wf c ∧ get_used c = 1).
Proof.
  destruct witness_cells as [c|] eqn:E; [|by vm_compute in E].
  split; [|by vm_compute in E; simplify_eq].
  apply (kv_cells_invariant 3). unfold witness_cells in E.
  apply bind_Ok_inv in E as (c1 & E1 & E). apply bind_Ok_inv in E as (c2 & E2 & E3).
  eapply rtc_l; [by eapply (step_pos_set _ 1 7)|].
  eapply rtc_l; [by eapply step_seq_add|].
  eapply rtc_l; [by eapply step_seq_add|]. apply rtc_refl.
Defined.

(** [seq_pos_min] and [seq_pos_max] never hit an assertion on a well formed
    state, and return the smallest and the largest position that any cell holds
    for the sequence, or -1 exactly when no cell holds it. *)
Theorem seq_pos_min_max_correct c s : wf c → (0 ≤ s < LLAMA_MAX_SEQ)%Z →
  okP (seq_pos_min c s) (is_edge Z.le (view c) s) ∧
  okP (seq_pos_max c s) (is_edge Z.ge (view c) s).
Proof. auto using seq_pos_min_ok, seq_pos_max_ok. Qed.

Lemma seq_pos_min_max_correct_witness :
  okP (seq_pos_min (resize 2) 5) (is_edge Z.le (view (resize 2)) 5) ∧
  okP (seq_pos_max (resize 2) 5) (is_edge Z.ge (view (resize 2)) 5).
Proof. apply seq_pos_min_max_correct; [apply cleared_ok|by vm_compute]. Defined.

(** Save and restore: whatever happened to a set of cells between [cp] and
    [set] (as long as no shift is pending on them and nothing else changed),
    writing the saved cells back yields exactly the original state, derived
    indices included. *)
Theorem cp_set_roundtrip c0 c1 idxs : wf c0 → wf c1 → size c1 = size c0 →
  has_shift c1 = has_shift c0 →
  (∀ i, i ∉ idxs → view c1 !! i = view c0 !! i) →
  Forall (λ i, ∃ k0 k1, view c0 !! i = Some k0 ∧ view c1 !! i = Some k1 ∧
                        c_shift k0 = 0%Z ∧ c_shift k1 = 0%Z) idxs →
  okP (cp_idxs c0 idxs) (λ saved, set_idxs c1 idxs saved = Ok c0).
Proof. apply cp_set_restores. Qed.

Lemma cp_set_roundtrip_witness :
  okP witness_cells (λ c0,
    okP (rm c0 1) (λ c1, okP (cp_idxs c0 [1; 2]) (λ saved, set_idxs c1 [1; 2] saved = Ok c0))).
Proof.
  destruct witness_cells as [c0|] eqn:E0; [|by vm_compute in E0].
  assert (H0 : wf c0).
  { unfold witness_cells in E0. apply bind_Ok_inv in E0 as (c1 & E1 & E).
    apply bind_Ok_inv in E as (c2 & E2 & E3).
    apply (step_wf c2); [|by eapply step_seq_add]. apply (step_wf c1); [|by eapply step_seq_add].
    eapply step_wf; [|by eapply (step_pos_set _ 1 7)]. apply cleared_ok. }
  cbn [okP]. destruct (rm c0 1) as [c1|] eqn:E1;
    [|by vm_compute in E0; injection E0 as <-; vm_compute in E1].
  cbn [okP].
  assert (H1 : wf c1) by (eapply step_wf; [exact H0|by eapply step_rm]).
  apply cp_set_roundtrip; [done|done|..];
    vm_compute in E0; injection E0 as <-; vm_compute in E1; injection E1 as <-; [done|done|..].
  - intros i Hi. do 3 (destruct i as [|i]; [try done; set_solver|]). done.
  - apply Forall_cons_2; [do 2 eexists; split_and!; reflexivity|].
    apply Forall_cons_2; [do 2 eexists; split_and!; reflexivity|]. constructor.
Defined.

(** C29. Refinement of the one-cell operations: on a well formed state each of
    them returns without hitting an assertion, replaces exactly the cell [i] by
    its abstract counterpart, keeps the state well formed, and reports whether
    the cell became empty. *)
Theorem cell_operations_refine c i k : wf c → view c !! i = Some k →
  (c_pos k ≠ (-1)%Z → okP (rm c i) (updates (has_shift c) c i cell_none)) ∧
  (∀ s, s ∈ c_seq k → okP (seq_rm c i s) (λ '(c', b),
     updates (has_shift c) c i (cell_seq_rm s k) c' ∧ b = bool_decide (c_seq k ∖ {[s]} = ∅))) ∧
  (∀ s, (0 ≤ s < LLAMA_MAX_SEQ)%Z → (c_seq k = ∅ → c_pos k = (-1)%Z) →
     okP (seq_keep c i s) (λ '(c', b), updates (has_shift c) c i (cell_seq_keep s k) c' ∧
                                       b = bool_decide ((s ∉ c_seq k) ∧ (c_seq k ≠ ∅)))) ∧
  (∀ s, (0 ≤ s < LLAMA_MAX_SEQ)%Z → c_pos k ≠ (-1)%Z → s ∉ c_seq k →
     okP (seq_add c i s) (updates (has_shift c) c i (cell_seq_add s k))) ∧
  (∀ d, c_pos k ≠ (-1)%Z → i32 (c_pos k + d) → i32 (c_shift k + d) →
     okP (pos_add c i d) (λ '(c', b), updates true c i (cell_pos_add d k) c' ∧
                                      b = bool_decide (c_pos k + d < 0)%Z)) ∧
  (∀ d, c_pos k ≠ (-1)%Z → (0 < d)%Z → i32 (c_shift k + (c_pos k - Z.quot (c_pos k) d)) →
     okP (pos_div c i d) (updates true c i (cell_pos_div d k))).
Proof.
  intros Hw Hk. split_and!; intros.
  - by apply (rm_ok c i k).
  - by apply (seq_rm_ok c i s k).
  - by apply (seq_keep_ok c i s k).
  - by apply (seq_add_ok c i s k).
  - by apply (pos_add_ok c i d k).
  - by apply (pos_div_ok c i d k).
Qed.

Lemma cell_operations_refine_witness :
  okP (seq_keep (resize 2) 1 0) (λ '(c', b),
    updates false (resize 2) 1 (cell_seq_keep 0 cell_none) c' ∧ b = false).
Proof.
  destruct (cell_operations_refine (resize 2) 1 cell_none) as (_ & _ & H & _);
    [apply cleared_ok|done|].
  apply (H 0%Z); done.
Defined.

(** Bookkeeping of the pending shift: [pos_add] keeps the difference between
    the position and the shift (the position before the pending shifts), but
    [pos_div] keeps their sum: it records the opposite of the change it makes. *)
Theorem shift_bookkeeping c i k d : wf c → view c !! i = Some k → c_pos k ≠ (-1)%Z →
  (i32 (c_pos k + d) → i32 (c_shift k + d) →
   okP (pos_add c i d) (λ r, ∀ k', view r.1 !! i = Some k' → c_pos k' ≠ (-1)%Z →
     c_pos k' - c_shift k' = c_pos k - c_shift k)%Z) ∧
  ((0 < d)%Z → i32 (c_shift k + (c_pos k - Z.quot (c_pos k) d)) →
   okP (pos_div c i d) (λ c', ∀ k', view c' !! i = Some k' →
     c_pos k' + c_shift k' = c_pos k + c_shift k)%Z).
Proof.
  intros Hw Hk Hp. pose proof (lookup_lt_Some _ _ _ Hk) as Hlt. split.
  - intros. eapply okP_mono; [by apply (pos_add_ok c i d k)|]. intros [c' b] [(_ & Hv & _) _] k' Hk' Hp'.
    simpl in Hk'. rewrite Hv, list_lookup_insert_eq in Hk' by done. simplify_eq.
    unfold cell_pos_add in *. case_decide; simpl in *; [done|lia].
  - intros. eapply okP_mono; [by apply (pos_div_ok c i d k)|]. intros c' (_ & Hv & _) k' Hk'.
    rewrite Hv, list_lookup_insert_eq in Hk' by done. simplify_eq. simpl. lia.
Qed.

(** position 9 divided by 3: the shift is recorded as +6 *)
Lemma shift_bookkeeping_witness :
  okP (pos_set (resize 2) 0 9) (λ c,
    okP (pos_add c 0 4) (λ r, ∀ k', view r.1 !! 0%nat = Some k' → c_pos k' ≠ (-1)%Z →
      c_pos k' - c_shift k' = 9 - 0)%Z ∧
    okP (pos_div c 0 3) (λ c', ∀ k', view c' !! 0%nat = Some k' → c_pos k' + c_shift k' = 9 + 0)%Z).
Proof.
  destruct (cleared_ok 2) as [Hw Hv].
  assert (Hk : view (resize 2) !! 0 = Some cell_none) by (unfold resize; by rewrite Hv).
  pose proof (pos_set_ok (resize 2) 0 9 cell_none Hw Hk eq_refl ltac:(lia)) as H.
  destruct (pos_set (resize 2) 0 9) as [c|]; [|done]. destruct H as (Hw' & Hv' & _).
  assert (Hk' : view c !! 0 = Some (Cell 9 ext_reset 0 ∅)) by (rewrite Hv'; unfold resize; by rewrite Hv).
  destruct (shift_bookkeeping c 0 _ 4 Hw' Hk' ltac:(done)) as [H4 _].
  destruct (shift_bookkeeping c 0 _ 3 Hw' Hk' ltac:(done)) as [_ H3].
  split; [apply H4; by unfold i32, INT32_MIN, INT32_MAX; simpl; lia|apply H3; [lia|]].
  vm_compute. split; intros E; discriminate E.
Defined.
