(* ===== verification/Batch.v ===== *)
(** Batches and their splitting into micro-batches: [llama_batch] and
    [llama_ubatch] of src/llama-batch.h and the class [llama_batch_allocr] of
    src/llama-batch.cpp.

    Pointers of the C structures are options (null or an array); the backing
    vectors [pos], [n_seq_id], [seq_id] and [output] of the class only exist so
    that the pointers of [batch] have something to point to, so the generated
    arrays are stored in [batch] itself.  Floats are their 32-bit patterns. *)
From Stdlib Require Import Sorting.Sorted.
From S2P Require Import Prelude KvCells.

(** ** Data *)
Record llama_batch := Batch {
  b_n_tokens : Z;
  b_token    : option (list Z);
  b_embd     : option (list Z);
  b_pos      : option (list Z);
  b_n_seq_id : option (list Z);
  b_seq_id   : option (list (list Z));
  b_logits   : option (list Z)
}.

Record llama_ubatch := UBatch {
  equal_seqs   : bool;
  n_tokens     : nat;
  n_seq_tokens : nat;
  n_seqs       : nat;
  n_seqs_unq   : nat;
  n_pos        : nat;
  u_token      : option (list Z);
  u_embd       : option (list Z);
  u_pos        : list Z;
  u_n_seq_id   : list Z;
  u_seq_id     : list (list Z);
  u_seq_id_unq : list Z;
  u_seq_idx    : list Z;
  u_output     : list Z
}.

Definition is_pos_2d (u : llama_ubatch) : bool := bool_decide (3 ≤ n_pos u).

(** [llama_ubatch {}] *)
Definition ubatch_empty : llama_ubatch :=
  UBatch false 0 0 0 0 0 None None [] [] [] [] [] [].

(** What the allocator asks of the memory module ([llama_memory_i]). *)
Record memory_i := Memory { mem_pos_min : Z → Z; mem_pos_max : Z → Z }.

Record llama_batch_allocr := Allocr {
  batch          : llama_batch;
  n_pos_per_embd : nat;
  n_embd         : nat;
  n_seq_max      : nat;
  n_outputs      : nat;
  seq_id_unq     : list Z;
  seq_idx        : list Z;
  has_cpl        : bool;
  bseq_pos       : list (gset Z);              (* seq_pos[s] *)
  seq_cpl        : list (list bool);           (* seq_cpl[s0][s1] *)
  seq_set        : list (gset Z);              (* seq_set[i] *)
  seq_set_map    : gmap (gset Z) (list nat);   (* indices of each sequence set *)
  out_ids        : list nat;
  n_used         : nat;
  bused          : list bool                   (* used[i] *)
}.

Definition batch_none : llama_batch := Batch 0 None None None None None None.
Definition MAX_SEQ : nat := Z.to_nat LLAMA_MAX_SEQ.

(** constructor *)
Definition allocr_new (npos : nat) : llama_batch_allocr :=
  Allocr batch_none npos 0 0 0 [] (replicate MAX_SEQ (-1)%Z) false (replicate MAX_SEQ ∅)
    (replicate MAX_SEQ (replicate MAX_SEQ false)) [] ∅ [] 0 [].

(** [clear()] leaves has_cpl, out_ids, n_used and used alone *)
Definition clear (a : llama_batch_allocr) : llama_batch_allocr :=
  Allocr batch_none (n_pos_per_embd a) (n_embd a) (n_seq_max a) 0 []
    (replicate (length (seq_idx a)) (-1)%Z) (has_cpl a)
    (replicate (length (bseq_pos a)) ∅)
    ((λ r, replicate (length r) false) <$> seq_cpl a) [] ∅
    (out_ids a) (n_used a) (bused a).

Definition with_batch (a : llama_batch_allocr) (b : llama_batch) : llama_batch_allocr :=
  Allocr b (n_pos_per_embd a) (n_embd a) (n_seq_max a) (n_outputs a) (seq_id_unq a) (seq_idx a)
    (has_cpl a) (bseq_pos a) (seq_cpl a) (seq_set a) (seq_set_map a) (out_ids a) (n_used a) (bused a).
Definition with_used_ids (a : llama_batch_allocr) (o : list nat) (n : nat) (u : list bool) :=
  Allocr (batch a) (n_pos_per_embd a) (n_embd a) (n_seq_max a) (n_outputs a) (seq_id_unq a)
    (seq_idx a) (has_cpl a) (bseq_pos a) (seq_cpl a) (seq_set a) (seq_set_map a) o n u.

Definition get_n_tokens (a : llama_batch_allocr) : nat := Z.to_nat (b_n_tokens (batch a)).

Definition split_reset (a : llama_batch_allocr) : llama_batch_allocr :=
  with_used_ids a [] 0 (replicate (get_n_tokens a) false).

(** positions of a sequence in the batch *)
Definition bseq_edge (ends : list Z → option Z) (a : llama_batch_allocr) (s : nat) : res Z :=
  p ← vget (bseq_pos a) s; Ok (default (-1)%Z (ends (elements p))).
Definition bseq_pos_min := bseq_edge list_min.
Definition bseq_pos_max := bseq_edge list_max.

(** ** [init]: validation *)
Definition forM_bool {A} (f : A → res bool) (l : list A) : res bool :=
  foldM (λ (acc : bool) x, if acc then f x else Ok false) true l.

Definition tokens (b : llama_batch) : list nat := seq 0 (Z.to_nat (b_n_tokens b)).

(** batch.seq_id[i][s] and batch.n_seq_id[i] *)
Definition get_n_seq_id (b : llama_batch) (i : nat) : res Z :=
  v ← of_option OutOfRange (b_n_seq_id b); vget v i.
Definition get_seq_id (b : llama_batch) (i s : nat) : res Z :=
  v ← of_option OutOfRange (b_seq_id b); r ← vget v i; vget r s.
Definition get_pos (b : llama_batch) (i : nat) : res Z :=
  v ← of_option OutOfRange (b_pos b); vget v i.
Definition get_logit (b : llama_batch) (i : nat) : res Z :=
  v ← of_option OutOfRange (b_logits b); vget v i.

Definition valid_tokens (b : llama_batch) (n_vocab : Z) : res bool :=
  match b_token b with
  | None => Ok true
  | Some tok => forM_bool (λ i, t ← vget tok i;
      Ok (negb (bool_decide (t < 0)%Z || bool_decide (n_vocab ≤ t)%Z))) (tokens b)
  end.

Definition valid_seq_ids (b : llama_batch) (nsm : nat) : res bool :=
  match b_seq_id b with
  | None => Ok true
  | Some _ => forM_bool (λ i, k ← get_n_seq_id b i;
      forM_bool (λ s, t ← get_seq_id b i s;
        Ok (negb (bool_decide (t < 0)%Z || bool_decide (Z.of_nat nsm ≤ t)%Z)))
        (seq 0 (Z.to_nat k))) (tokens b)
  end.

(** ** [init]: auto-generation of missing fields *)
Definition gen_n_seq_id (b : llama_batch) : llama_batch :=
  match b_n_seq_id b with
  | Some _ => b
  | None => Batch (b_n_tokens b) (b_token b) (b_embd b) (b_pos b)
              (Some (replicate (Z.to_nat (b_n_tokens b)) 1%Z)) (b_seq_id b) (b_logits b)
  end.

Definition gen_seq_id (b : llama_batch) : llama_batch :=
  match b_seq_id b with
  | Some _ => b
  | None => Batch (b_n_tokens b) (b_token b) (b_embd b) (b_pos b) (b_n_seq_id b)
              (Some (replicate (Z.to_nat (b_n_tokens b)) [0%Z])) (b_logits b)
  end.

(** the starting position of each sequence, from the memory *)
Definition start_pos (mem : option memory_i) (nsm : nat) : res (list Z) :=
  match mem with
  | None => Ok (replicate nsm 0%Z)
  | Some m => mapM_res (λ s, i32_add (mem_pos_max m (Z.of_nat s)) 1) (seq 0 nsm)
  end.

Definition gen_pos_step (b : llama_batch) (st : list Z * list Z) (i : nat) : res (list Z * list Z) :=
  let '(p0, pos) := st in
  s ← get_seq_id b i 0;
  j ← idx s;
  p ← vget p0 j;
  k ← get_n_seq_id b i;
  p0 ← foldM (λ p0 s, t ← get_seq_id b i s; j ← idx t; q ← i32_add p 1; vset p0 j q) p0 (seq 0 (Z.to_nat k));
  Ok (p0, pos ++ [p]).

Definition gen_pos (b : llama_batch) (mem : option memory_i) (nsm : nat) : res llama_batch :=
  match b_pos b with
  | Some _ => Ok b
  | None =>
      p0 ← start_pos mem nsm;
      st ← foldM (gen_pos_step b) (p0, []) (tokens b);
      Ok (Batch (b_n_tokens b) (b_token b) (b_embd b) (Some st.2) (b_n_seq_id b) (b_seq_id b)
            (b_logits b))
  end.

Definition with_logits (b : llama_batch) (l : list Z) : llama_batch :=
  Batch (b_n_tokens b) (b_token b) (b_embd b) (b_pos b) (b_n_seq_id b) (b_seq_id b) (Some l).

Definition gen_logits (b : llama_batch) (output_all : bool) : llama_batch :=
  let n := Z.to_nat (b_n_tokens b) in
  match b_logits b with
  | None => with_logits b (if output_all then replicate n 1%Z
                           else <[n - 1 := 1%Z]> (replicate n 0%Z))
  | Some l =>
      if output_all && existsb (λ x, bool_decide (x = 0)%Z) (take n l)
      then with_logits b (replicate n 1%Z) else b
  end.

(** ** [init]: statistics *)
Definition count_outputs (b : llama_batch) : res nat :=
  foldM (λ n i, l ← get_logit b i; Ok (if decide (l = 0)%Z then n else S n)) 0 (tokens b).

Definition stat_seqs_step (b : llama_batch) (i : nat) (s0 : Z)
    (st : list (gset Z) * list (list bool) * bool) (s : nat) :
    res (list (gset Z) * list (list bool) * bool) :=
  let '(sp, cpl, has) := st in
  s1 ← get_seq_id b i s;
  j1 ← idx s1;
  set ← vget sp j1;
  p ← get_pos b i;
  sp ← vset sp j1 ({[p]} ∪ set);
  if decide (0 < s) then
    j0 ← idx s0;
    row ← vget cpl j1;
    row ← vset row j0 true;
    cpl ← vset cpl j1 row;
    Ok (sp, cpl, true)
  else Ok (sp, cpl, has).

Definition stat_seqs (b : llama_batch) (sp : list (gset Z)) (cpl : list (list bool)) :
    res (list (gset Z) * list (list bool) * bool) :=
  foldM (λ st i, s0 ← get_seq_id b i 0;
                 k ← get_n_seq_id b i;
                 foldM (stat_seqs_step b i s0) st (seq 0 (Z.to_nat k)))
    (sp, cpl, false) (tokens b).

(** the sequence set of one token *)
Definition token_seq_set (b : llama_batch) (i : nat) : res (gset Z) :=
  k ← get_n_seq_id b i;
  foldM (λ cur s, t ← get_seq_id b i s; bit_set cur t) ∅ (seq 0 (Z.to_nat k)).

Definition stat_sets (b : llama_batch) :
    res (list (gset Z) * gmap (gset Z) (list nat) * gset Z) :=
  foldM (λ '(sets, m, unq) i, cur ← token_seq_set b i;
           Ok (sets ++ [cur], <[cur := default [] (m !! cur) ++ [i]]> m, unq ∪ cur))
    ([], ∅, ∅) (tokens b).

(** the unique sequence ids in increasing order and the index of each in that list *)
Definition index_unq (unq : gset Z) (nsm : nat) (seq_idx : list Z) : res (list Z * list Z) :=
  foldM (λ '(ids, ix) s, t ← bit_test unq (Z.of_nat s);
           if t : bool then ix ← vset ix s (Z.of_nat (length ids)); Ok (ids ++ [Z.of_nat s], ix)
           else Ok (ids, ix))
    ([], seq_idx) (seq 0 nsm).

Definition compute_stats (a : llama_batch_allocr) (nemb nsm : nat) : res llama_batch_allocr :=
  let b := batch a in
  no ← count_outputs b;
  st ← stat_seqs b (bseq_pos a) (seq_cpl a);
  let '(sp, cpl, has) := st in
  ss ← stat_sets b;
  let '(sets, m, unq) := ss in
  ui ← index_unq unq nsm (seq_idx a);
  Ok (Allocr b (n_pos_per_embd a) nemb nsm (n_outputs a + no) ui.1 ui.2 has sp cpl sets m
        (out_ids a) (n_used a) (bused a)).

(** ** [init]: consistency checks *)
Definition mem_max (mem : option memory_i) (s : nat) : Z :=
  match mem with None => (-1)%Z | Some m => mem_pos_max m (Z.of_nat s) end.

Definition check_seq_positions (a : llama_batch_allocr) (mem : option memory_i) (s : nat) : res bool :=
  p ← vget (bseq_pos a) s;
  if decide (p = ∅) then Ok true else
  let p0 := mem_max mem s in
  mn ← bseq_pos_min a s;
  mx ← bseq_pos_max a s;
  if decide (1 < n_pos_per_embd a) then
    match b_token (batch a) with
    | Some _ => Ok (negb (bool_decide (0 ≤ p0)%Z && bool_decide (mn ≤ p0)%Z))
    | None => Ok (negb (bool_decide (0 ≤ p0)%Z && bool_decide (mn < p0)%Z))
    end
  else
    follows ← (if decide (0 ≤ p0)%Z then q ← i32_add p0 1; Ok (bool_decide (mn = q)) else Ok true);
    if negb follows then Ok false else
    d ← i32_sub mx mn; d ← i32_add d 1;
    Ok (negb (bool_decide (Z.of_nat (base.size p) < d)%Z)).

Definition check_coupled (a : llama_batch_allocr) (mem : option memory_i) : res bool :=
  match mem with
  | None => Ok true
  | Some m =>
      forM_bool (λ s0, forM_bool (λ s1,
        row ← vget (seq_cpl a) s0; c ← vget row s1;
        let z0 := Z.of_nat s0 in let z1 := Z.of_nat s1 in
        Ok (negb (c && (bool_decide (mem_pos_min m z0 ≠ mem_pos_min m z1) ||
                        bool_decide (mem_pos_max m z0 ≠ mem_pos_max m z1)))))
        (seq 0 (n_seq_max a))) (seq 0 (n_seq_max a))
  end.

(** [cur_seq_pos] is initialised to -1 and never updated by the code *)
Definition check_subsets_step (a : llama_batch_allocr) (i : nat)
    (st : bool * list (gset Z) * list Z) (s : nat) : res (bool * list (gset Z) * list Z) :=
  let '(ok, cur_set, cur_pos) := st in
  if ok : bool then
    t ← get_seq_id (batch a) i s;
    j ← idx t;
    p ← get_pos (batch a) i;
    mine ← vget (seq_set a) i;
    c ← vget cur_set j;
    cur_set ← vset cur_set j (c ∩ mine);
    q ← vget cur_pos j;
    if decide (c ∩ mine = ∅) then Ok (false, cur_set, cur_pos)
    else if decide (p < q)%Z then Ok (false, cur_set, cur_pos)
    else Ok (true, cur_set, cur_pos)
  else Ok st.

Definition check_subsets (a : llama_batch_allocr) : res bool :=
  st ← foldM (λ st i, k ← get_n_seq_id (batch a) i;
                      foldM (check_subsets_step a i) st (seq 0 (Z.to_nat k)))
    (true, replicate (n_seq_max a) (list_to_set all_seqs), replicate (n_seq_max a) (-1)%Z)
    (tokens (batch a));
  Ok st.1.1.

(** The second component is the value the C++ function returns. *)
Definition init (a : llama_batch_allocr) (inp : llama_batch) (n_vocab : Z)
    (mem : option memory_i) (nemb nsm : nat) (output_all : bool) : res (llama_batch_allocr * bool) :=
  let a := with_batch (clear a) inp in
  ggml_assert (bool_decide (0 < b_n_tokens inp)%Z);;
  if decide (MAX_SEQ < nsm) then Ok (a, false) else
  vt ← valid_tokens inp n_vocab;
  if negb vt then Ok (a, false) else
  vs ← valid_seq_ids inp nsm;
  if negb vs then Ok (a, false) else
  b ← gen_pos (gen_seq_id (gen_n_seq_id inp)) mem nsm;
  a ← compute_stats (with_batch a (gen_logits b output_all)) nemb nsm;
  c1 ← forM_bool (check_seq_positions a mem) (seq 0 nsm);
  if negb c1 then Ok (a, false) else
  c2 ← check_coupled a mem;
  if negb c2 then Ok (a, false) else
  c3 ← check_subsets a;
  if negb c3 then Ok (a, false) else
  Ok (split_reset a, true).

(** ** Micro-batches *)

(** [seq_id_data] cut into consecutive pieces: udata->seq_id[i] *)
Fixpoint slices {A} (ns : list Z) (data : list A) : list (list A) :=
  match ns with
  | [] => []
  | n :: ns => take (Z.to_nat n) data :: slices ns (drop (Z.to_nat n) data)
  end.

(** the sequence ids of one token, appended to seq_id_data *)
Definition token_seq_ids (b : llama_batch) (i : nat) : res (list Z) :=
  k ← get_n_seq_id b i; mapM_res (get_seq_id b i) (seq 0 (Z.to_nat k)).

(** text tokens share one position for all RoPE sections *)
Definition src_off (b : llama_batch) (j : nat) : nat :=
  match b_token b with Some _ => 0 | None => j * Z.to_nat (b_n_tokens b) end.

Definition ubatch_add (a : llama_batch_allocr) (idxs : list nat) (ns : nat) (eq : bool) :
    res (llama_batch_allocr * llama_ubatch) :=
  let b := batch a in
  let nt := length idxs in
  check DivByZero (bool_decide (ns ≠ 0));;
  assert_ (bool_decide (nt mod ns = 0));;
  tok ← match b_token b with
        | Some t => v ← mapM_res (vget t) idxs; Ok (Some v) | None => Ok None end;
  emb ← match b_embd b with
        | Some e => v ← mapM_res (λ i, mapM_res (λ j, vget e (i * n_embd a + j)) (seq 0 (n_embd a))) idxs;
                    Ok (Some (concat v))
        | None => Ok None end;
  pos ← mapM_res (λ j, mapM_res (λ i,
          get_pos b (src_off b j + i)) idxs)
        (seq 0 (n_pos_per_embd a));
  nsq ← mapM_res (get_n_seq_id b) idxs;
  out ← mapM_res (get_logit b) idxs;
  ids ← mapM_res (token_seq_ids b) idxs;
  unq ← foldM (λ u l, foldM (λ u s, bit_set u s) u l) ∅ ids;
  ui ← index_unq unq (n_seq_max a) (replicate MAX_SEQ (-1)%Z);
  let outs := (zip idxs out) ≫= λ '(i, o), if decide (o = 0)%Z then [] else [i] in
  Ok (with_used_ids a (out_ids a ++ outs) (n_used a) (bused a),
      UBatch eq nt (nt `div` ns) ns (length ui.1) (n_pos_per_embd a) tok emb (concat pos) nsq
        (slices nsq (concat ids)) ui.1 ui.2 out).

Definition ubatch_reserve (a : llama_batch_allocr) (nst ns : nat) :
    res (llama_batch_allocr * llama_ubatch) :=
  let nt := nst * ns in
  let a := split_reset (clear a) in
  six ← foldM (λ v s, vset v s (Z.of_nat s)) (replicate MAX_SEQ (-1)%Z) (seq 0 ns);
  Ok (a, UBatch true nt nst ns ns (n_pos_per_embd a) (Some (replicate nt 0%Z)) None
           (replicate (nt * n_pos_per_embd a) 0%Z) (replicate nt 0%Z) (replicate nt [])
           (Z.of_nat <$> seq 0 ns) six (replicate nt 0%Z)).

(** the first index whose flag is unset, or the length *)
Fixpoint first_unused (u : list bool) : nat :=
  match u with true :: u => S (first_unused u) | _ => 0 end.

Definition mark (a : llama_batch_allocr) (i : nat) : res llama_batch_allocr :=
  u ← vset (bused a) i true; Ok (with_used_ids a (out_ids a) (S (n_used a)) u).

Fixpoint split_simple_loop (fuel : nat) (n_ubatch : nat) (a : llama_batch_allocr)
    (idxs : list nat) (cur : nat) : res (llama_batch_allocr * list nat) :=
  match fuel with
  | 0 => Err OutOfFuel
  | S fuel =>
      let idxs := idxs ++ [cur] in
      a ← mark a cur;
      let cur := S cur in
      if decide (length (bused a) ≤ cur) then Ok (a, idxs)
      else if decide (n_ubatch ≤ length idxs) then Ok (a, idxs)
      else split_simple_loop fuel n_ubatch a idxs cur
  end.

Definition split_simple (a : llama_batch_allocr) (n_ubatch : nat) :
    res (llama_batch_allocr * llama_ubatch) :=
  let cur := first_unused (bused a) in
  if decide (length (bused a) ≤ cur) then Ok (a, ubatch_empty) else
  r ← split_simple_loop (length (bused a)) n_ubatch a [] cur;
  ubatch_add r.1 r.2 (length r.2) false.

(** [split_seq]: skip to the next unused token whose set is a subset of the current one *)
Fixpoint seq_next (fuel : nat) (a : llama_batch_allocr) (cs : gset Z) (cur : nat) : res nat :=
  match fuel with
  | 0 => Err OutOfFuel
  | S fuel =>
      let cur := S cur in
      if decide (cur < get_n_tokens a) then
        u ← vget (bused a) cur;
        s ← vget (seq_set a) cur;
        if u || bool_decide (cs ∩ s ≠ s) then seq_next fuel a cs cur else Ok cur
      else Ok cur
  end.

Fixpoint split_seq_loop (fuel : nat) (n_ubatch : nat) (a : llama_batch_allocr)
    (cs : gset Z) (idxs : list nat) (cur : nat) : res (llama_batch_allocr * list nat) :=
  match fuel with
  | 0 => Err OutOfFuel
  | S fuel =>
      let idxs := idxs ++ [cur] in
      a ← mark a cur;
      if decide (n_ubatch ≤ length idxs) then Ok (a, idxs) else
      cur ← seq_next (S (get_n_tokens a)) a cs cur;
      if decide (cur = get_n_tokens a) then Ok (a, idxs) else
      cs ← vget (seq_set a) cur;
      split_seq_loop fuel n_ubatch a cs idxs cur
  end.

Definition split_seq (a : llama_batch_allocr) (n_ubatch : nat) :
    res (llama_batch_allocr * llama_ubatch) :=
  let cur := first_unused (bused a) in
  if decide (length (bused a) ≤ cur) then Ok (a, ubatch_empty) else
  cs ← vget (seq_set a) cur;
  r ← split_seq_loop (S (get_n_tokens a)) n_ubatch a cs [] cur;
  ubatch_add r.1 r.2 1 true.

(** [split_equal]: the sequence sets that take part.  The flag of the state is
    the [break] of the loop. *)
Definition pick_sets_step (a : llama_batch_allocr) (n_ubatch : nat) (sequential : bool)
    (st : bool * list (gset Z) * Z) (i : nat) : res (bool * list (gset Z) * Z) :=
  let '(stop, cur, last) := st in
  if stop : bool then Ok st else
  u ← vget (bused a) i;
  if u : bool then Ok st else
  s ← vget (seq_set a) i;
  let add := forallb (λ c, bool_decide (c ∩ s = ∅)) cur in
  add ← (if sequential && add then
           if decide (cur = []) then Ok true
           else t ← get_seq_id (batch a) i 0; Ok (bool_decide (t = last + 1)%Z)
         else Ok add);
  if add : bool then
    t ← get_seq_id (batch a) i 0;
    let cur := cur ++ [s] in
    Ok (bool_decide (n_ubatch < length cur), cur, t)
  else Ok st.

Definition pick_sets (a : llama_batch_allocr) (n_ubatch : nat) (sequential : bool) :
    res (list (gset Z)) :=
  st ← foldM (pick_sets_step a n_ubatch sequential) (false, [], (-1)%Z) (tokens (batch a));
  Ok st.1.2.

(** while (used[seq_set_map[set][cur_idx]]) ++cur_idx *)
Fixpoint skip_used (a : llama_batch_allocr) (l : list nat) : res nat :=
  match l with
  | [] => Err OutOfRange
  | i :: l => u ← vget (bused a) i; if u : bool then n ← skip_used a l; Ok (S n) else Ok 0
  end.

(** one round of the expansion loop: one token of every sequence set *)
Definition expand_one (a : llama_batch_allocr) (lists : list (list nat)) (cur : list nat) :
    res (llama_batch_allocr * list nat) :=
  foldM (λ '(a, row) s,
    l ← vget lists s; c ← vget cur s; i ← vget l c;
    a ← mark a i; Ok (a, row ++ [i])) (a, []) (seq 0 (length lists)).

Fixpoint expand (fuel : nat) (n_ubatch : nat) (a : llama_batch_allocr) (lists : list (list nat))
    (cur : list nat) (per_seq : list (list nat)) : res (llama_batch_allocr * list (list nat)) :=
  match fuel with
  | 0 => Err OutOfFuel
  | S fuel =>
      if forallb (λ lc, bool_decide (lc.2 < length lc.1)) (zip lists cur) then
        r ← expand_one a lists cur;
        let per_seq := zip_with (λ l i, l ++ [i]) per_seq r.2 in
        let cur := S <$> cur in
        first ← vget per_seq 0;
        if decide (n_ubatch < (length first + 1) * length lists) then Ok (r.1, per_seq)
        else expand fuel n_ubatch r.1 lists cur per_seq
      else Ok (a, per_seq)
  end.

Definition split_equal (a : llama_batch_allocr) (n_ubatch : nat) (sequential : bool) :
    res (llama_batch_allocr * llama_ubatch) :=
  if sequential && has_cpl a then Ok (a, ubatch_empty) else
  sets ← pick_sets a n_ubatch sequential;
  if decide (sets = []) then Ok (a, ubatch_empty) else
  let lists := (λ s, default [] (seq_set_map a !! s)) <$> sets in
  cur ← mapM_res (skip_used a) lists;
  r ← expand (S (get_n_tokens a)) n_ubatch a lists cur (replicate (length sets) []);
  ubatch_add r.1 (concat r.2) (length sets) true.

(** The loop of the memory modules' [init_batch]: split until nothing is left. *)
Fixpoint split_all (fuel : nat) (split : llama_batch_allocr → res (llama_batch_allocr * llama_ubatch))
    (a : llama_batch_allocr) (acc : list llama_ubatch) : res (llama_batch_allocr * list llama_ubatch) :=
  match fuel with
  | 0 => Err OutOfFuel
  | S fuel =>
      r ← split a;
      if decide (n_tokens r.2 = 0) then Ok (r.1, acc)
      else split_all fuel split r.1 (acc ++ [r.2])
  end.

(** ** Specification *)
Definition tok_at (b : llama_batch) (i : nat) : Z := default 0%Z (default [] (b_token b) !! i).
Definition pos_at (b : llama_batch) (i : nat) : Z := default 0%Z (default [] (b_pos b) !! i).
Definition nseq_at (b : llama_batch) (i : nat) : Z := default 0%Z (default [] (b_n_seq_id b) !! i).
Definition logit_at (b : llama_batch) (i : nat) : Z := default 0%Z (default [] (b_logits b) !! i).
Definition ids_at (b : llama_batch) (i : nat) : list Z :=
  take (Z.to_nat (nseq_at b i)) (default [] (default [] (b_seq_id b) !! i)).

(** A complete batch: every array is present and long enough, every token has
    a sequence, and sequence ids are in range. *)
Record batch_ok (b : llama_batch) (nemb npos nsm : nat) : Prop := {
  bo_n     : (0 < b_n_tokens b)%Z;
  bo_token : ∀ t, b_token b = Some t → Z.to_nat (b_n_tokens b) ≤ length t;
  bo_embd  : ∀ e, b_embd b = Some e → Z.to_nat (b_n_tokens b) * nemb ≤ length e;
  bo_pos   : ∃ p, b_pos b = Some p ∧
             ∀ i j, i < Z.to_nat (b_n_tokens b) → j < npos → src_off b j + i < length p;
  bo_nseq  : ∃ ks, b_n_seq_id b = Some ks ∧ Z.to_nat (b_n_tokens b) ≤ length ks;
  bo_seq   : ∃ rows, b_seq_id b = Some rows ∧ ∀ i, i < Z.to_nat (b_n_tokens b) →
             ∃ row, rows !! i = Some row ∧ (1 ≤ nseq_at b i ≤ Z.of_nat (length row))%Z;
  bo_ids   : ∀ i s, i < Z.to_nat (b_n_tokens b) → s ∈ ids_at b i → (0 ≤ s < Z.of_nat nsm)%Z;
  bo_log   : ∃ l, b_logits b = Some l ∧ Z.to_nat (b_n_tokens b) ≤ length l;
  bo_nsm   : nsm ≤ MAX_SEQ
}.

(** [u] is the micro-batch of the tokens [idxs] of the batch. *)
Record ubatch_of (b : llama_batch) (nemb npos nsm : nat) (idxs : list nat) (ns : nat) (eq : bool)
    (u : llama_ubatch) : Prop := {
  uo_eq    : equal_seqs u = eq;
  uo_n     : n_tokens u = length idxs;
  uo_ns    : n_seqs u = ns;
  uo_nst   : n_seq_tokens u * ns = length idxs;
  uo_npos  : n_pos u = npos;
  uo_tok   : u_token u = (λ _, tok_at b <$> idxs) <$> b_token b;
  uo_embd  : u_embd u = (λ e, concat ((λ i, (λ j, default 0%Z (e !! (i * nemb + j))) <$> seq 0 nemb)
                                      <$> idxs)) <$> b_embd b;
  uo_pos   : u_pos u = concat ((λ j, (λ i, pos_at b (src_off b j + i)) <$> idxs) <$> seq 0 npos);
  uo_nseq  : u_n_seq_id u = nseq_at b <$> idxs;
  uo_ids   : u_seq_id u = ids_at b <$> idxs;
  uo_out   : u_output u = logit_at b <$> idxs;
  uo_unq   : u_seq_id_unq u =
             filter (λ s, Exists (λ i, s ∈ ids_at b i) idxs) (Z.of_nat <$> seq 0 nsm);
  uo_nunq  : n_seqs_unq u = length (u_seq_id_unq u);
  uo_idx   : ∀ j s, u_seq_id_unq u !! j = Some s → u_seq_idx u !! Z.to_nat s = Some (Z.of_nat j);
  uo_idx'  : ∀ s, s < MAX_SEQ → Z.of_nat s ∉ u_seq_id_unq u → u_seq_idx u !! s = Some (-1)%Z
}.

(** The allocator after a successful [init]. *)
Record allocr_ok (a : llama_batch_allocr) : Prop := {
  ao_batch : batch_ok (batch a) (n_embd a) (n_pos_per_embd a) (n_seq_max a);
  ao_used  : length (bused a) = get_n_tokens a;
  ao_nused : n_used a = length (filter (λ u, u = true) (bused a));
  ao_set   : seq_set a = (λ i, list_to_set (ids_at (batch a) i)) <$> seq 0 (get_n_tokens a);
  ao_map   : ∀ S, default [] (seq_set_map a !! S) =
             filter (λ i, seq_set a !! i = Some S) (seq 0 (get_n_tokens a))
}.

(** [a'] is [a] with the tokens [idxs] marked as used and their outputs recorded. *)
Definition marks (a : llama_batch_allocr) (idxs : list nat) (a' : llama_batch_allocr) : Prop :=
  ∃ u, a' = with_used_ids a (out_ids a ++ filter (λ i, logit_at (batch a) i ≠ 0%Z) idxs)
              (n_used a + length idxs) u ∧
       length u = length (bused a) ∧
       ∀ i, u !! i = if decide (i ∈ idxs) then Some true else bused a !! i.

(** * Lemmas *)

Lemma MAX_SEQ_eq : Z.of_nat MAX_SEQ = LLAMA_MAX_SEQ.
Proof. reflexivity. Qed.
#[global] Opaque MAX_SEQ.

Lemma forM_bool_true {A} (f : A → res bool) l :
  forM_bool f l = Ok true → ∀ x, x ∈ l → f x = Ok true.
Proof.
  unfold forM_bool. assert (Hf : ∀ l, foldM (λ (acc : bool) x, if acc then f x else Ok false) false l = Ok false)
    by (intros l'; induction l' as [|x l' IH]; [done|exact IH]).
  induction l as [|x l IH]; intros H y Hy; simpl in H; [set_solver|].
  inv_ok H. destruct x0; [|by rewrite Hf in H]. apply elem_of_cons in Hy as [->|Hy]; auto.
Qed.

Lemma slices_concat {A} (ns : list Z) (ls : list (list A)) :
  Forall2 (λ n l, Z.to_nat n = length l) ns ls → slices ns (concat ls) = ls.
Proof.
  induction 1 as [|n l ns ls Hn _ IH]; simpl; [done|].
  by rewrite Hn, take_app_length, drop_app_length, IH.
Qed.

(** ** Reading a complete batch *)
Section reads.
Context (b : llama_batch) (nemb npos nsm : nat) (Hb : batch_ok b nemb npos nsm).
Context (i : nat) (Hi : i < Z.to_nat (b_n_tokens b)).

Lemma get_n_seq_id_ok : get_n_seq_id b i = Ok (nseq_at b i).
Proof.
  destruct (bo_nseq _ _ _ _ Hb) as (ks & E & Hl). unfold get_n_seq_id, nseq_at. rewrite E. simpl.
  destruct (lookup_lt_is_Some_2 ks i) as [k Hk]; [lia|]. by rewrite (vget_ok _ _ _ Hk), Hk.
Qed.

Lemma get_logit_ok : get_logit b i = Ok (logit_at b i).
Proof.
  destruct (bo_log _ _ _ _ Hb) as (ks & E & Hl). unfold get_logit, logit_at. rewrite E. simpl.
  destruct (lookup_lt_is_Some_2 ks i) as [k Hk]; [lia|]. by rewrite (vget_ok _ _ _ Hk), Hk.
Qed.

Lemma get_pos_ok j : j < npos → get_pos b (src_off b j + i) = Ok (pos_at b (src_off b j + i)).
Proof.
  intros Hj. destruct (bo_pos _ _ _ _ Hb) as (p & E & Hl). specialize (Hl _ _ Hi Hj).
  unfold get_pos, pos_at. rewrite E. simpl.
  destruct (lookup_lt_is_Some_2 p _ Hl) as [k Hk]. by rewrite (vget_ok _ _ _ Hk), Hk.
Qed.

Lemma get_tok_ok t : b_token b = Some t → vget t i = Ok (tok_at b i).
Proof.
  intros E. pose proof (bo_token _ _ _ _ Hb _ E). unfold tok_at. rewrite E. simpl.
  destruct (lookup_lt_is_Some_2 t i) as [k Hk]; [lia|]. by rewrite (vget_ok _ _ _ Hk), Hk.
Qed.

Lemma ids_row : ∃ rows row, b_seq_id b = Some rows ∧ rows !! i = Some row ∧
  (1 ≤ nseq_at b i ≤ Z.of_nat (length row))%Z ∧ ids_at b i = take (Z.to_nat (nseq_at b i)) row.
Proof.
  destruct (bo_seq _ _ _ _ Hb) as (rows & E & Hl). destruct (Hl _ Hi) as (row & Hr & Hk).
  exists rows, row. split_and!; try done; try lia. unfold ids_at. by rewrite E; simpl; rewrite Hr.
Qed.

Lemma length_ids : length (ids_at b i) = Z.to_nat (nseq_at b i) ∧ 1 ≤ Z.to_nat (nseq_at b i).
Proof. destruct ids_row as (rows & row & _ & _ & ? & ->). rewrite length_take. lia. Qed.

Lemma get_seq_id_ok s : s < Z.to_nat (nseq_at b i) →
  ∃ t, get_seq_id b i s = Ok t ∧ ids_at b i !! s = Some t ∧ (0 ≤ t < Z.of_nat nsm)%Z.
Proof.
  intros Hs. destruct ids_row as (rows & row & E & Hr & Hk & Hids).
  destruct (lookup_lt_is_Some_2 row s) as [t Ht]; [lia|]. exists t.
  unfold get_seq_id. rewrite E. simpl. rewrite (vget_ok _ _ _ Hr). simpl.
  assert (Hin : ids_at b i !! s = Some t) by (rewrite Hids, lookup_take_lt by lia; done).
  split_and!; [by apply vget_ok|done|..]; apply (bo_ids _ _ _ _ Hb i); eauto using list_elem_of_lookup_2.
Qed.

Lemma token_seq_ids_ok : token_seq_ids b i = Ok (ids_at b i).
Proof.
  unfold token_seq_ids. rewrite get_n_seq_id_ok. simpl.
  destruct length_ids as [Hl _]. set (n := Z.to_nat (nseq_at b i)) in *.
  rewrite (mapM_res_ok _ (λ s, default 0%Z (ids_at b i !! s))).
  - f_equal. apply list_eq_same_length with n; [done|by rewrite length_fmap, length_seq|].
    intros s x y Hs. rewrite list_lookup_fmap, lookup_seq_lt by done. simpl. intros [= <-] Hy.
    by rewrite Hy.
  - intros s [_ Hs]%elem_of_seq. destruct (get_seq_id_ok s) as (t & E & H & _); [lia|].
    by rewrite E, H.
Qed.
End reads.

Lemma elem_of_concat {A} (x : A) ls : x ∈ concat ls ↔ ∃ l, l ∈ ls ∧ x ∈ l.
Proof.
  rewrite list_elem_of_In, in_concat. by setoid_rewrite <- list_elem_of_In.
Qed.

(** ** Unique sequence ids *)
Lemma filter_snoc {T} (keep : T → Prop) `{!∀ y : T, Decision (keep y)} (prev : list T) last :
  filter keep (prev ++ [last]) = filter keep prev ++ (if decide (keep last) then [last] else []).
Proof. rewrite filter_app. done. Qed.

Lemma fmap_seq_S {A} (f : nat → A) k : f <$> seq 0 (S k) = (f <$> seq 0 k) ++ [f k].
Proof. by rewrite seq_S, fmap_app. Qed.

Lemma index_unq_ok unq nsm ix : nsm ≤ MAX_SEQ → length ix = MAX_SEQ →
  okP (index_unq unq nsm ix) (λ r,
    r.1 = filter (λ s, s ∈ unq) (Z.of_nat <$> seq 0 nsm) ∧ length r.2 = MAX_SEQ ∧
    (∀ j s, r.1 !! j = Some s → r.2 !! Z.to_nat s = Some (Z.of_nat j)) ∧
    (∀ s, s < MAX_SEQ → Z.of_nat s ∉ r.1 → r.2 !! s = ix !! s)).
Proof.
  intros Hn Hix. unfold index_unq.
  eapply okP_mono; [apply (okP_for _ (λ k r,
    r.1 = filter (λ s, s ∈ unq) (Z.of_nat <$> seq 0 k) ∧ length r.2 = MAX_SEQ ∧
    (∀ j s, r.1 !! j = Some s → (0 ≤ s < Z.of_nat k)%Z ∧ r.2 !! Z.to_nat s = Some (Z.of_nat j)) ∧
    (∀ s, s < MAX_SEQ → Z.of_nat s ∉ r.1 → r.2 !! s = ix !! s)))| ].
  - simpl. split_and!; try done.
  - intros k [ids v] Hk (E & L & H1 & H2). cbn [fst snd] in *.
    assert (Hr : (0 ≤ Z.of_nat k < LLAMA_MAX_SEQ)%Z) by (pose proof MAX_SEQ_eq; lia).
    rewrite bit_test_ok by done. rewrite fmap_seq_S, filter_snoc, <- E, bind_Ok.
    case_bool_decide as Hin.
    + rewrite vset_ok by lia. simpl. rewrite decide_True by done.
      split_and!; [done|by rewrite length_insert| |].
      * intros j s Hj. apply lookup_snoc_Some in Hj as [[? Hj]|[-> <-]].
        -- destruct (H1 _ _ Hj) as [? Hv]. split; [lia|]. rewrite list_lookup_insert_ne by lia. done.
        -- split; [lia|]. rewrite Nat2Z.id. apply list_lookup_insert_eq. lia.
      * intros s Hs Hnin. rewrite list_lookup_insert_ne; [apply H2; set_solver|].
        intros ->. apply Hnin. set_solver.
    + rewrite decide_False by done. rewrite app_nil_r. simpl. split_and!; try done.
      intros j s Hj. destruct (H1 _ _ Hj). split; [lia|done].
  - intros [ids v] (E & L & H1 & H2). simpl in *. split_and!; try done.
    intros j s Hj. by apply H1.
Qed.

Lemma bit_set_fold u l : (∀ s, s ∈ l → (0 ≤ s < LLAMA_MAX_SEQ)%Z) →
  foldM (λ u s, bit_set u s) u l = Ok (u ∪ list_to_set l).
Proof.
  revert u; induction l as [|s l IH]; intros u Hl; simpl; [f_equal; set_solver|].
  rewrite bit_set_ok by (apply Hl; set_solver). simpl. rewrite IH by set_solver. f_equal. set_solver.
Qed.

Lemma bit_set_fold2 u ls : (∀ l s, l ∈ ls → s ∈ l → (0 ≤ s < LLAMA_MAX_SEQ)%Z) →
  foldM (λ u l, foldM (λ u s, bit_set u s) u l) u ls = Ok (u ∪ list_to_set (concat ls)).
Proof.
  revert u; induction ls as [|l ls IH]; intros u Hl; simpl; [f_equal; set_solver|].
  rewrite bit_set_fold by (intros; eapply Hl; [left|done]). simpl.
  rewrite IH by (intros; eapply Hl; [by right|done]).
  f_equal. rewrite list_to_set_app_L. set_solver.
Qed.

(** ** [ubatch_add] *)
Lemma outs_filter b idxs :
  (zip idxs (logit_at b <$> idxs) ≫= λ '(i, o), if decide (o = 0)%Z then [] else [i]) =
  filter (λ i, logit_at b i ≠ 0%Z) idxs.
Proof.
  induction idxs as [|i idxs IH]; [done|]. csimpl. rewrite filter_cons.
  repeat case_decide; try done; simpl; by f_equal.
Qed.

Lemma ubatch_add_ok a idxs ns eq :
  batch_ok (batch a) (n_embd a) (n_pos_per_embd a) (n_seq_max a) →
  (∀ i, i ∈ idxs → i < get_n_tokens a) → ns ≠ 0 → length idxs `mod` ns = 0 →
  okP (ubatch_add a idxs ns eq) (λ r,
    r.1 = with_used_ids a (out_ids a ++ filter (λ i, logit_at (batch a) i ≠ 0%Z) idxs)
            (n_used a) (bused a) ∧
    ubatch_of (batch a) (n_embd a) (n_pos_per_embd a) (n_seq_max a) idxs ns eq r.2).
Proof.
  intros Hb Hi Hns Hmod. unfold get_n_tokens in Hi. set (b := batch a) in *.
  unfold ubatch_add. fold b. rewrite check_ok by ok_side. rewrite bind_Ok, assert_ok by ok_side. rewrite bind_Ok.
  assert (Etok : match b_token b with
        | Some t => v ← mapM_res (vget t) idxs; Ok (Some v) | None => Ok None end
        = Ok ((λ _, tok_at b <$> idxs) <$> b_token b)).
  { destruct (b_token b) as [t|] eqn:E; [|done].
    rewrite (mapM_res_ok _ (tok_at b)); [done|]. intros i Hin. eapply get_tok_ok; eauto. }
  rewrite Etok, bind_Ok.
  assert (Eemb : match b_embd b with
        | Some e => v ← mapM_res (λ i, mapM_res (λ j, vget e (i * n_embd a + j)) (seq 0 (n_embd a))) idxs;
                    Ok (Some (concat v))
        | None => Ok None end = Ok ((λ e, concat ((λ i, (λ j, default 0%Z (e !! (i * n_embd a + j)))
                                       <$> seq 0 (n_embd a)) <$> idxs)) <$> b_embd b)).
  { destruct (b_embd b) as [e|] eqn:E; [|done]. pose proof (bo_embd _ _ _ _ Hb _ E) as Hl.
    rewrite (mapM_res_ok _ (λ i, (λ j, default 0%Z (e !! (i * n_embd a + j))) <$> seq 0 (n_embd a)));
      [done|].
    intros i Hin. apply mapM_res_ok. intros j [_ Hj]%elem_of_seq. specialize (Hi _ Hin).
    destruct (lookup_lt_is_Some_2 e (i * n_embd a + j)) as [x Hx]; [nia|].
    by rewrite (vget_ok _ _ _ Hx), Hx. }
  rewrite Eemb, bind_Ok.
  rewrite (mapM_res_ok _ (λ j, (λ i, pos_at b (src_off b j + i)) <$> idxs) (seq 0 _)). 1: rewrite bind_Ok.
  2:{ intros j [_ Hj]%elem_of_seq. apply mapM_res_ok. intros i Hin. eapply get_pos_ok; eauto. }
  rewrite (mapM_res_ok (get_n_seq_id b) (nseq_at b)), bind_Ok by (intros; eapply get_n_seq_id_ok; eauto).
  rewrite (mapM_res_ok (get_logit b) (logit_at b)), bind_Ok by (intros; eapply get_logit_ok; eauto).
  rewrite (mapM_res_ok (token_seq_ids b) (ids_at b)), bind_Ok by (intros; eapply token_seq_ids_ok; eauto).
  pose proof (bo_nsm _ _ _ _ Hb) as Hnsm.
  assert (Hrange : ∀ l s, l ∈ ids_at b <$> idxs → s ∈ l → (0 ≤ s < LLAMA_MAX_SEQ)%Z).
  { intros l s (i & -> & Hin)%list_elem_of_fmap Hs. specialize (Hi _ Hin).
    pose proof (bo_ids _ _ _ _ Hb _ _ Hi Hs). pose proof MAX_SEQ_eq. lia. }
  rewrite bit_set_fold2, bind_Ok by done.
  eapply okP_bind; [apply index_unq_ok; [done|by rewrite length_replicate]|].
  intros [ids ix] (E & L & H1 & H2). simpl in *. rewrite outs_filter. split; [done|].
  assert (Hids : ids = filter (λ s, Exists (λ i, s ∈ ids_at b i) idxs) (Z.of_nat <$> seq 0 (n_seq_max a))).
  { rewrite E. apply list_filter_iff. intros s. rewrite elem_of_union, elem_of_list_to_set, Exists_exists.
    rewrite elem_of_concat.
    setoid_rewrite list_elem_of_fmap. set_solver. }
  split; simpl; try done.
  - rewrite Nat.mul_comm. symmetry. by apply Nat.Div0.div_exact.
  - apply slices_concat. apply Forall2_fmap, Forall_Forall2_diag, Forall_forall. intros i Hin.
    by destruct (length_ids b _ _ _ Hb i (Hi _ Hin)) as [-> _].
  - intros s Hs Hnin. rewrite (H2 s Hs Hnin). by apply lookup_replicate_2.
Qed.

(** ** Marking tokens as used *)

(** [a'] is [a] with the tokens [idxs] marked as used, before their
    micro-batch is built. *)
Definition pre_marks (a : llama_batch_allocr) (idxs : list nat) (a' : llama_batch_allocr) : Prop :=
  a' = with_used_ids a (out_ids a) (n_used a + length idxs) (bused a') ∧
  length (bused a') = length (bused a) ∧
  ∀ i, bused a' !! i = if decide (i ∈ idxs) then Some true else bused a !! i.

Lemma pre_marks_nil a : pre_marks a [] a.
Proof.
  split_and!; [|done|intros i; by rewrite decide_False by set_solver].
  destruct a; unfold with_used_ids; simpl. by rewrite Nat.add_0_r.
Qed.

Lemma pre_marks_trans a l a1 l' a2 : pre_marks a l a1 → pre_marks a1 l' a2 → pre_marks a (l ++ l') a2.
Proof.
  intros (E1 & L1 & H1) (E2 & L2 & H2). split_and!; [|congruence|].
  - rewrite E2, E1. unfold with_used_ids; simpl. by rewrite length_app, Nat.add_assoc.
  - intros i. rewrite H2, H1. repeat case_decide; set_solver.
Qed.

Lemma pre_marks_perm a l l' a' : l ≡ₚ l' → pre_marks a l a' → pre_marks a l' a'.
Proof.
  intros E (E1 & L1 & H1). split_and!; [by rewrite <- E|done|].
  intros i. rewrite H1. by rewrite (decide_ext _ _ _ _ (elem_of_Permutation_proper i l l' E)).
Qed.

Lemma mark_ok a i : i < length (bused a) → okP (mark a i) (pre_marks a [i]).
Proof.
  intros Hi. unfold mark. rewrite vset_ok by done. simpl. split_and!; simpl.
  - by rewrite Nat.add_1_r.
  - by rewrite length_insert.
  - intros j. case_decide as Hj.
    + apply list_elem_of_singleton in Hj as ->. by apply list_lookup_insert_eq.
    + apply list_lookup_insert_ne. set_solver.
Qed.

(** The number of used tokens after marking tokens that were not used. *)
Lemma count_marked (u u' : list bool) idxs :
  length u' = length u → NoDup idxs → (∀ i, i ∈ idxs → u !! i = Some false) →
  (∀ i, u' !! i = if decide (i ∈ idxs) then Some true else u !! i) →
  length (filter (λ b, b = true) u') = length (filter (λ b, b = true) u) + length idxs.
Proof.
  revert u u'. induction idxs as [|i idxs IH]; intros u u' Hl Hnd Hf Hu'; simpl.
  - rewrite Nat.add_0_r. f_equal. f_equal. apply list_eq. intros j. rewrite Hu'.
    by rewrite decide_False by set_solver.
  - apply NoDup_cons in Hnd as [Hni Hnd]. pose proof (Hf i ltac:(left)) as Hi.
    rewrite (IH (<[i:=true]> u) u').
    + pose proof (lookup_lt_Some _ _ _ Hi). rewrite (insert_take_drop u i true) by done.
      rewrite <- (take_drop_middle u i false Hi) at 3. rewrite !filter_app, !length_app.
      rewrite !filter_cons. simpl. lia.
    + by rewrite length_insert.
    + done.
    + intros j Hj. rewrite list_lookup_insert_ne by set_solver. apply Hf. set_solver.
    + intros j. rewrite Hu'. pose proof (lookup_lt_Some _ _ _ Hi). destruct (decide (j = i)) as [->|].
      * rewrite decide_True by set_solver. case_decide; [done|]. by rewrite list_lookup_insert_eq.
      * rewrite list_lookup_insert_ne by done.
        by rewrite (decide_ext _ (j ∈ idxs)) by set_solver.
Qed.

(** The tokens not handed out yet. *)
Definition unused (a : llama_batch_allocr) : list nat :=
  filter (λ i, bused a !! i = Some false) (seq 0 (get_n_tokens a)).

Lemma elem_of_unused a i : allocr_ok a → i ∈ unused a ↔ bused a !! i = Some false.
Proof.
  intros Ha. unfold unused. rewrite list_elem_of_filter, elem_of_seq. split; [naive_solver|].
  intros H. pose proof (lookup_lt_Some _ _ _ H). rewrite (ao_used _ Ha) in *. naive_solver lia.
Qed.

Lemma unused_lt a i : allocr_ok a → bused a !! i = Some false → i < get_n_tokens a.
Proof. intros Ha H%lookup_lt_Some. by rewrite (ao_used _ Ha) in H. Qed.

(** The data of [init] is not changed by splitting. *)
Lemma marks_data a idxs a' : marks a idxs a' →
  batch a' = batch a ∧ n_embd a' = n_embd a ∧ n_pos_per_embd a' = n_pos_per_embd a ∧
  n_seq_max a' = n_seq_max a ∧ seq_set a' = seq_set a ∧ seq_set_map a' = seq_set_map a ∧
  get_n_tokens a' = get_n_tokens a ∧ has_cpl a' = has_cpl a.
Proof. by intros (u & -> & _). Qed.

Lemma pre_marks_data a idxs a' : pre_marks a idxs a' →
  batch a' = batch a ∧ n_embd a' = n_embd a ∧ n_pos_per_embd a' = n_pos_per_embd a ∧
  n_seq_max a' = n_seq_max a ∧ seq_set a' = seq_set a ∧ seq_set_map a' = seq_set_map a ∧
  get_n_tokens a' = get_n_tokens a ∧ has_cpl a' = has_cpl a.
Proof. by intros (-> & _). Qed.

Lemma marks_ok a idxs a' : allocr_ok a → NoDup idxs → (∀ i, i ∈ idxs → bused a !! i = Some false) →
  marks a idxs a' → allocr_ok a'.
Proof.
  intros [H1 H2 H3 H4 H5] Hnd Hf (u & -> & Hl & Hu).
  split; simpl; try done.
  - by rewrite Hl.
  - rewrite H3. symmetry. by apply count_marked.
Qed.

Lemma unused_marks a idxs a' : allocr_ok a → NoDup idxs →
  (∀ i, i ∈ idxs → bused a !! i = Some false) → marks a idxs a' →
  unused a ≡ₚ idxs ++ unused a'.
Proof.
  intros Ha Hnd Hf Hm. pose proof (marks_ok _ _ _ Ha Hnd Hf Hm) as Ha'.
  destruct Hm as (u & E & Hl & Hu). assert (bused a' = u) as Eu by (by rewrite E).
  apply NoDup_Permutation.
  - apply NoDup_filter, NoDup_seq.
  - apply NoDup_app. split_and!; [done| |apply NoDup_filter, NoDup_seq].
    intros i Hi. rewrite elem_of_unused, Eu, Hu by done. by rewrite decide_True.
  - intros i. rewrite elem_of_app, !elem_of_unused, Eu, Hu by done. case_decide; naive_solver.
Qed.

(** Building the micro-batch of the tokens that were just marked. *)
Lemma add_marked a idxs a' ns eq :
  allocr_ok a → pre_marks a idxs a' → (∀ i, i ∈ idxs → bused a !! i = Some false) →
  ns ≠ 0 → length idxs `mod` ns = 0 →
  okP (ubatch_add a' idxs ns eq) (λ r, marks a idxs r.1 ∧
    ubatch_of (batch a) (n_embd a) (n_pos_per_embd a) (n_seq_max a) idxs ns eq r.2).
Proof.
  intros Ha Hm Hf Hns Hmod. destruct (pre_marks_data _ _ _ Hm) as (E1 & E2 & E3 & E4 & _ & _ & E5 & _).
  eapply okP_mono.
  - apply ubatch_add_ok; try done.
    + rewrite E1, E2, E3, E4. apply Ha.
    + intros i Hi. rewrite E5. by apply unused_lt; auto.
  - intros [a2 u]; simpl. rewrite E1, E2, E3, E4. intros [E Hu]. split; [|done].
    destruct Hm as (Em & Hl & H). exists (bused a'). split_and!; [|done..].
    by rewrite E, Em.
Qed.

(** ** What the memory modules rely on: the contract of a splitter.
    [Inv] is what the splitter keeps true between two calls. *)
Record split_post (Inv : llama_batch_allocr → Prop) (a : llama_batch_allocr) (idxs : list nat)
    (ns : nat) (eq : bool) (r : llama_batch_allocr * llama_ubatch) : Prop := {
  sp_ne    : idxs ≠ [];
  sp_nodup : NoDup idxs;
  sp_free  : ∀ i, i ∈ idxs → bused a !! i = Some false;
  sp_marks : marks a idxs r.1;
  sp_ub    : ubatch_of (batch a) (n_embd a) (n_pos_per_embd a) (n_seq_max a) idxs ns eq r.2;
  sp_inv   : Inv r.1
}.

Class Splitter (Inv : llama_batch_allocr → Prop)
    (split : llama_batch_allocr → res (llama_batch_allocr * llama_ubatch)) : Prop := {
  split_done : ∀ a, allocr_ok a → Inv a → unused a = [] → split a = Ok (a, ubatch_empty);
  split_some : ∀ a, allocr_ok a → Inv a → unused a ≠ [] →
    okP (split a) (λ r, ∃ idxs ns eq, split_post Inv a idxs ns eq r)
}.

(** Every splitter hands out every token exactly once, then stops. *)
Lemma split_all_ok Inv split `{Splitter Inv split} fuel a acc :
  allocr_ok a → Inv a → length (unused a) < fuel →
  okP (split_all fuel split a acc) (λ r,
    ∃ idss us, r.2 = acc ++ us ∧ concat idss ≡ₚ unused a ∧
      Forall2 (λ idxs u, idxs ≠ [] ∧ ∃ ns eq, ubatch_of (batch a) (n_embd a) (n_pos_per_embd a)
                                      (n_seq_max a) idxs ns eq u) idss us ∧
      allocr_ok r.1 ∧ unused r.1 = [] ∧ batch r.1 = batch a ∧ n_used r.1 = get_n_tokens a ∧
      out_ids r.1 = out_ids a ++ filter (λ i, logit_at (batch a) i ≠ 0%Z) (concat idss)).
Proof.
  revert a acc; induction fuel as [|fuel IH]; intros a acc Ha HI Hf; [lia|].
  simpl. destruct (decide (unused a = [])) as [E|Hne].
  - rewrite (split_done a Ha HI E). simpl. exists [], []. rewrite !app_nil_r.
    split_and!; try done; [by rewrite E|].
    rewrite (ao_nused _ Ha), <- (ao_used _ Ha). f_equal.
    apply filter_all. intros b Hb. apply list_elem_of_lookup in Hb as [i Hi].
    destruct b; [done|]. apply (elem_of_unused a i Ha) in Hi. rewrite E in Hi. set_solver.
  - eapply okP_bind; [by apply split_some|]. intros [a' u] (idxs & ns & eq & [H1 H2 H3 H4 H5 H6]).
    simpl in *. rewrite decide_False by (rewrite (uo_n _ _ _ _ _ _ _ _ H5); by destruct idxs).
    pose proof (marks_ok _ _ _ Ha H2 H3 H4) as Ha'.
    pose proof (unused_marks _ _ _ Ha H2 H3 H4) as Hp.
    destruct (marks_data _ _ _ H4) as (E1 & E2 & E3 & E4 & _ & _ & E5 & _).
    eapply okP_mono; [apply IH; try done|].
    + rewrite Hp, length_app in Hf. destruct idxs; [done|]. simpl in Hf. lia.
    + intros [a2 us]; simpl. rewrite E1, E2, E3, E4, E5.
      intros (idss & us' & -> & Hc & Hf2 & G1 & G2 & G3 & G4 & G5).
      exists (idxs :: idss), (u :: us'). simpl. rewrite <- app_assoc; simpl.
      split_and!; try done.
      * by rewrite Hp, Hc.
      * constructor; [split; eauto|done].
      * destruct H4 as (v & -> & _). simpl in G5. by rewrite G5, filter_app, app_assoc.
Qed.

(** ** [split_simple] *)
Lemma first_unused_spec u :
  first_unused u ≤ length u ∧ (∀ i, i < first_unused u → u !! i = Some true) ∧
  (first_unused u < length u → u !! first_unused u = Some false).
Proof.
  induction u as [|[] u (H1 & H2 & H3)]; simpl.
  - split_and!; [lia|intros; lia|lia].
  - split_and!; [lia| |intros; apply H3; lia]. intros [|i] ?; simpl; [done|apply H2; lia].
  - split_and!; [lia|intros; lia|done].
Qed.

(** Nothing left to split: the first unused index is past the end. *)
Lemma first_unused_done a : allocr_ok a →
  length (bused a) ≤ first_unused (bused a) ↔ unused a = [].
Proof.
  intros Ha. destruct (first_unused_spec (bused a)) as (H1 & H2 & H3). split.
  - intros Hle. apply filter_none. intros i Hi Hf. rewrite H2 in Hf; [done|].
    apply lookup_lt_Some in Hf. lia.
  - intros E. destruct (decide (first_unused (bused a) < length (bused a))) as [Hlt|]; [|lia].
    specialize (H3 Hlt). apply (elem_of_unused _ _ Ha) in H3. rewrite E in H3. set_solver.
Qed.

(** [split_simple] keeps the used tokens a prefix of the batch. *)
Definition used_prefix (a : llama_batch_allocr) : Prop :=
  ∀ i j, i < j → bused a !! j = Some true → bused a !! i = Some true.

(** The size of the next micro-batch of [split_simple]. *)
Definition simple_size (n_ubatch : nat) (a : llama_batch_allocr) : nat :=
  1 `max` (n_ubatch `min` (length (bused a) - first_unused (bused a))).

Lemma split_simple_loop_ok a0 n_ubatch c0 fuel a k :
  let n := length (bused a0) in
  pre_marks a0 (seq c0 k) a → c0 + k < n → n - (c0 + k) ≤ fuel → k < 1 `max` n_ubatch →
  okP (split_simple_loop fuel n_ubatch a (seq c0 k) (c0 + k)) (λ r,
    r.2 = seq c0 (1 `max` (n_ubatch `min` (n - c0))) ∧ pre_marks a0 r.2 r.1).
Proof.
  intros n. revert a k; induction fuel as [|fuel IH]; intros a k Hm Hk Hf Hlt; [lia|].
  pose proof (proj1 (proj2 Hm)) as Hlen. simpl. rewrite <- seq_S.
  eapply okP_bind; [apply mark_ok; lia|]. intros a1 H1. rewrite length_seq.
  pose proof (pre_marks_trans _ _ _ _ _ Hm H1) as Hm1. rewrite <- seq_S in Hm1.
  pose proof (proj1 (proj2 Hm1)) as Hl1. subst n.
  case_decide; [cbn [okP fst snd]; split; [f_equal; lia|done]|].
  case_decide; [cbn [okP fst snd]; split; [f_equal; lia|done]|].
  replace (S (c0 + k)) with (c0 + S k) by lia. apply IH; try done; lia.
Qed.

Lemma split_simple_ok n_ubatch a : allocr_ok a → used_prefix a → unused a ≠ [] →
  let idxs := seq (first_unused (bused a)) (simple_size n_ubatch a) in
  okP (split_simple a n_ubatch) (split_post used_prefix a idxs (length idxs) false).
Proof.
  intros Ha Hp Hne idxs. destruct (first_unused_spec (bused a)) as (H1 & H2 & H3).
  rewrite <- first_unused_done in Hne by done.
  unfold split_simple. rewrite decide_False by done.
  pose proof (split_simple_loop_ok a n_ubatch (first_unused (bused a)) (length (bused a)) a 0) as HL.
  cbn zeta in HL. rewrite Nat.add_0_r in HL.
  eapply okP_bind; [apply HL; [apply pre_marks_nil|lia..]|].
  - intros [a1 l]; cbn [fst snd]. fold (simple_size n_ubatch a). fold idxs.
    intros [-> Hm].
    assert (Hfree : ∀ i, i ∈ idxs → bused a !! i = Some false).
    { intros i Hi. apply elem_of_seq in Hi. unfold simple_size in Hi.
      destruct (lookup_lt_is_Some_2 (bused a) i) as [[] E]; [lia| |done].
      destruct (decide (i = first_unused (bused a))) as [->|]; [apply H3; lia|].
      rewrite (Hp (first_unused (bused a)) i) in H3; [|lia|done]. specialize (H3 ltac:(lia)). done. }
    assert (length idxs ≠ 0) by (unfold idxs, simple_size; rewrite length_seq; lia).
    eapply okP_mono; [apply (add_marked a idxs a1); try done|].
    + by rewrite Nat.Div0.mod_same.
    + intros [a2 u]; simpl. intros [Hm2 Hu]. split; simpl; try done.
      * intros E. by rewrite E in *.
      * apply NoDup_seq.
      * destruct Hm2 as (v & -> & _ & Hv). intros i j Hij; simpl. rewrite !Hv.
        intros Hj. destruct (decide (i ∈ idxs)) as [|Hi]; [done|].
        destruct (decide (i < first_unused (bused a))); [by apply H2|].
        destruct (decide (j ∈ idxs)) as [Hdj|]; [|by eapply Hp].
        exfalso. apply Hi. apply elem_of_seq in Hdj. apply elem_of_seq. lia.
Qed.

#[export] Instance split_simple_splitter n_ubatch :
  Splitter used_prefix (λ a, split_simple a n_ubatch).
Proof.
  split; intros a Ha Hp Hu.
  - unfold split_simple. by rewrite decide_True by (apply first_unused_done; done).
  - eapply okP_mono; [by apply split_simple_ok|]. eauto.
Qed.

(** ** [split_seq] *)

(** Consecutive tokens of one micro-batch: increasing, with shrinking sequence sets. *)
Definition seq_chain (a : llama_batch_allocr) (i j : nat) : Prop :=
  i < j ∧ ∃ s t, seq_set a !! i = Some s ∧ seq_set a !! j = Some t ∧ t ⊆ s.

Lemma seq_chain_trans a i j k : seq_chain a i j → seq_chain a j k → seq_chain a i k.
Proof.
  intros (H1 & s & t & E1 & E2 & S1) (H2 & t' & v & E3 & E4 & S2). simplify_eq.
  split; [lia|]. exists s, v. split_and!; [done..|set_solver].
Qed.

Lemma StronglySorted_snoc {A} (R : A → A → Prop) l x :
  StronglySorted R (l ++ [x]) ↔ StronglySorted R l ∧ ∀ y, y ∈ l → R y x.
Proof.
  induction l as [|z l IH]; simpl.
  - split; [intros; split; [constructor|set_solver]|intros; repeat constructor].
  - split.
    + intros [H1 H2]%StronglySorted_inv. apply IH in H1 as [H1 H3].
      rewrite Forall_forall in H2. split.
      * constructor; [done|]. apply Forall_forall. intros y Hy. apply H2. set_solver.
      * intros y [->|Hy]%elem_of_cons; [apply H2; set_solver|auto].
    + intros [[H1 H2]%StronglySorted_inv H3]. rewrite Forall_forall in H2. constructor.
      * apply IH. split; [done|set_solver].
      * apply Forall_forall. intros y Hy. assert (y ∈ l ∨ y = x) as [?| ->] by set_solver; [auto|].
        apply H3. left.
Qed.

Lemma StronglySorted_lt_NoDup (R : nat → nat → Prop) l :
  (∀ i j, R i j → i < j) → StronglySorted R l → NoDup l.
Proof.
  intros HR. induction 1 as [|x l _ IH Hx]; constructor; [|done].
  rewrite Forall_forall in Hx. intros Hin. specialize (HR _ _ (Hx _ Hin)). lia.
Qed.

Lemma seq_set_lookup a i : allocr_ok a → i < get_n_tokens a →
  seq_set a !! i = Some (list_to_set (ids_at (batch a) i)).
Proof. intros Ha Hi. rewrite (ao_set _ Ha), list_lookup_fmap, lookup_seq_lt by done. done. Qed.

Lemma seq_next_ok a cs fuel cur :
  length (bused a) = get_n_tokens a → length (seq_set a) = get_n_tokens a →
  cur < get_n_tokens a → get_n_tokens a - cur < fuel + 1 →
  okP (seq_next fuel a cs cur) (λ c, cur < c ≤ get_n_tokens a ∧
    (c < get_n_tokens a → bused a !! c = Some false ∧ ∃ s, seq_set a !! c = Some s ∧ s ⊆ cs)).
Proof.
  intros Hl1 Hl2. revert cur. induction fuel as [|fuel IH]; intros cur Hc Hf; [lia|].
  simpl. case_decide as Hlt; [|simpl; split; [lia|intros; lia]].
  destruct (lookup_lt_is_Some_2 (bused a) (S cur)) as [u Eu]; [lia|].
  destruct (lookup_lt_is_Some_2 (seq_set a) (S cur)) as [s Es]; [lia|].
  rewrite (vget_ok _ _ _ Eu), bind_Ok, (vget_ok _ _ _ Es), bind_Ok.
  destruct (u || bool_decide (cs ∩ s ≠ s)) eqn:E.
  - eapply okP_mono; [apply IH; lia|]. simpl. intros c [? ?]. split; [lia|done].
  - apply orb_false_iff in E as [-> E%bool_decide_eq_false_1]. simpl. split; [lia|].
    intros _. split; [done|]. exists s. split; [done|]. apply dec_stable in E. set_solver.
Qed.

Lemma split_seq_loop_ok a0 n_ubatch fuel a cs idxs cur :
  allocr_ok a0 → pre_marks a0 idxs a → StronglySorted (seq_chain a0) (idxs ++ [cur]) →
  (∀ i, i ∈ idxs ++ [cur] → bused a0 !! i = Some false) → seq_set a0 !! cur = Some cs →
  get_n_tokens a0 - cur < fuel → length idxs < 1 `max` n_ubatch →
  okP (split_seq_loop fuel n_ubatch a cs idxs cur) (λ r,
    pre_marks a0 r.2 r.1 ∧ StronglySorted (seq_chain a0) r.2 ∧ length r.2 ≤ 1 `max` n_ubatch ∧
    (∀ i, i ∈ r.2 → bused a0 !! i = Some false) ∧ idxs ++ [cur] `prefix_of` r.2).
Proof.
  intros Ha. revert a cs idxs cur; induction fuel as [|fuel IH];
    intros a cs idxs cur Hm Hs Hfree Hcs Hf Hlen; [lia|].
  pose proof (unused_lt _ _ Ha (Hfree cur ltac:(set_solver))) as Hcur.
  pose proof (proj1 (proj2 Hm)) as Hbl. pose proof (ao_used _ Ha) as Hul.
  cbn [split_seq_loop]. eapply okP_bind; [apply mark_ok; lia|]. intros a1 H1.
  pose proof (pre_marks_trans _ _ _ _ _ Hm H1) as Hm1. rewrite length_app; cbn [length].
  assert (Hdone : pre_marks a0 (idxs ++ [cur]) a1 ∧ StronglySorted (seq_chain a0) (idxs ++ [cur]) ∧
    length (idxs ++ [cur]) ≤ 1 `max` n_ubatch ∧
    (∀ i, i ∈ idxs ++ [cur] → bused a0 !! i = Some false) ∧ idxs ++ [cur] `prefix_of` idxs ++ [cur])
    by (rewrite length_app; simpl; split_and!; try done; lia).
  case_decide as Hsz; [done|].
  destruct (pre_marks_data _ _ _ Hm1) as (_ & _ & _ & _ & E1 & _ & E2 & _).
  pose proof (proj1 (proj2 Hm1)) as Hbl1.
  assert (Hsl : length (seq_set a1) = get_n_tokens a1)
    by (rewrite E1, E2, (ao_set _ Ha); by rewrite length_fmap, length_seq).
  eapply okP_bind; [apply seq_next_ok; rewrite ?E2; try done; lia|].
  intros c [Hc1 Hc2]. rewrite E2 in *. case_decide as Hce; [done|].
  destruct Hc2 as (Hcu & s & Es & Hsub); [lia|]. rewrite (vget_ok _ _ _ Es), bind_Ok. rewrite E1 in Es.
  assert (Hcf : bused a0 !! c = Some false).
  { rewrite (proj2 (proj2 Hm1)) in Hcu. by case_decide. }
  assert (Hch : seq_chain a0 cur c) by (split; [lia|eauto 10]).
  eapply okP_mono; [apply (IH a1 s (idxs ++ [cur]) c); try done|].
  - apply StronglySorted_snoc. split; [done|]. apply StronglySorted_snoc in Hs as [_ Hs].
    intros y [Hy| ->%list_elem_of_singleton]%elem_of_app; [|done].
    eapply seq_chain_trans; eauto.
  - intros i [?| ->%list_elem_of_singleton]%elem_of_app; auto.
  - lia.
  - rewrite length_app; simpl; lia.
  - intros r (? & ? & ? & ? & ?). split_and!; try done. by eapply prefix_app_l.
Qed.

Lemma split_seq_ok n_ubatch a : allocr_ok a → unused a ≠ [] →
  okP (split_seq a n_ubatch) (λ r, ∃ idxs, split_post (λ _, True) a idxs 1 true r ∧
    StronglySorted (seq_chain a) idxs ∧ length idxs ≤ 1 `max` n_ubatch ∧
    head idxs = Some (first_unused (bused a))).
Proof.
  intros Ha Hne. destruct (first_unused_spec (bused a)) as (H1 & H2 & H3).
  rewrite <- first_unused_done in Hne by done. specialize (H3 ltac:(lia)).
  pose proof (unused_lt _ _ Ha H3) as Hlt.
  unfold split_seq. rewrite decide_False by done.
  pose proof (seq_set_lookup _ _ Ha Hlt) as Es. rewrite (vget_ok _ _ _ Es), bind_Ok.
  eapply okP_bind; [apply (split_seq_loop_ok a n_ubatch _ a _ [])|]; try done.
  - apply pre_marks_nil.
  - repeat constructor.
  - intros i ->%list_elem_of_singleton. done.
  - lia.
  - simpl. lia.
  - intros [a1 l]; simpl. intros (Hm & Hs & Hl & Hf & Hpre).
    eapply okP_mono; [apply (add_marked a l a1); try done|].
    intros r [Hm2 Hu]. exists l. destruct Hpre as [l' ->]. split_and!; try done.
    split; try done. by eapply StronglySorted_lt_NoDup; [|exact Hs]; intros ? ? [? _].
Qed.

#[export] Instance split_seq_splitter n_ubatch : Splitter (λ _, True) (λ a, split_seq a n_ubatch).
Proof.
  split; intros a Ha _ Hu.
  - unfold split_seq. by rewrite decide_True by (apply first_unused_done; done).
  - eapply okP_mono; [by apply split_seq_ok|]. naive_solver.
Qed.

(** ** [split_equal] *)

(** The tokens of a sequence set, and those not handed out yet, in batch order. *)
Definition set_tokens (a : llama_batch_allocr) (S : gset Z) : list nat :=
  filter (λ i, seq_set a !! i = Some S) (seq 0 (get_n_tokens a)).
Definition set_unused (a : llama_batch_allocr) (S : gset Z) : list nat :=
  filter (λ i, bused a !! i = Some false) (set_tokens a S).
Definition set_used (a : llama_batch_allocr) (S : gset Z) : list nat :=
  filter (λ i, bused a !! i = Some true) (set_tokens a S).

(** In every sequence set the used tokens come first. *)
Definition used_in_order (a : llama_batch_allocr) : Prop :=
  ∀ i j s, i < j → seq_set a !! i = Some s → seq_set a !! j = Some s →
    bused a !! j = Some true → bused a !! i = Some true.

Lemma seq_lt_sorted n m : StronglySorted lt (seq n m).
Proof.
  revert n; induction m as [|m IH]; intros n; simpl; constructor; [apply IH|].
  apply Forall_forall. intros i Hi%elem_of_seq. lia.
Qed.

Lemma StronglySorted_filter {A} (R : A → A → Prop) (P : A → Prop) `{∀ x, Decision (P x)} l :
  StronglySorted R l → StronglySorted R (filter P l).
Proof.
  induction 1 as [|x l _ IH Hx]; [constructor|]. rewrite filter_cons. case_decide; [|done].
  constructor; [done|]. apply Forall_forall. intros y [_ Hy]%list_elem_of_filter.
  by eapply Forall_forall.
Qed.

Lemma elem_of_set_tokens a S i : i ∈ set_tokens a S ↔ seq_set a !! i = Some S ∧ i < get_n_tokens a.
Proof. unfold set_tokens. rewrite list_elem_of_filter, elem_of_seq. naive_solver lia. Qed.

Lemma set_tokens_split a S : allocr_ok a → used_in_order a →
  set_tokens a S = set_used a S ++ set_unused a S.
Proof.
  intros Ha Hu. apply (filter_prefix (λ i, bused a !! i = Some true) (λ i, bused a !! i = Some false) lt).
  - apply (StronglySorted_filter lt), seq_lt_sorted.
  - intros i [_ Hi]%elem_of_set_tokens. rewrite <- (ao_used _ Ha) in Hi.
    destruct (lookup_lt_is_Some_2 _ _ Hi) as [[] E]; rewrite E; naive_solver.
  - intros i j [Hi _]%elem_of_set_tokens [Hj _]%elem_of_set_tokens Hij. by apply (Hu i j S).
Qed.

Lemma skip_used_app a l1 l2 : (∀ i, i ∈ l1 → bused a !! i = Some true) →
  (∃ i, head l2 = Some i ∧ bused a !! i = Some false) →
  skip_used a (l1 ++ l2) = Ok (length l1).
Proof.
  intros H1 (i & Hi & Hf). induction l1 as [|j l1 IH]; simpl.
  - destruct l2; simplify_eq/=. by rewrite (vget_ok _ _ _ Hf).
  - rewrite (vget_ok _ _ _ (H1 j ltac:(left))), bind_Ok. rewrite IH by set_solver. done.
Qed.

Lemma NoDup_set_unused a S : NoDup (set_unused a S).
Proof. apply NoDup_filter, NoDup_filter, NoDup_seq. Qed.

(** *** The choice of the sequence sets *)
Record picked (a : llama_batch_allocr) (n_ubatch : nat) (sets : list (gset Z)) : Prop := {
  pk_disj : StronglySorted (λ s t, s ∩ t = ∅) sets;
  pk_have : ∀ s, s ∈ sets → s ≠ ∅ ∧ set_unused a s ≠ [];
  pk_len  : length sets ≤ n_ubatch + 1
}.

Lemma set_ids_ne a i s : allocr_ok a → seq_set a !! i = Some s → s ≠ ∅.
Proof.
  intros Ha Hs. assert (Hi : i < get_n_tokens a).
  { apply lookup_lt_Some in Hs. by rewrite (ao_set _ Ha), length_fmap, length_seq in Hs. }
  rewrite (seq_set_lookup _ _ Ha Hi) in Hs. simplify_eq.
  destruct (length_ids _ _ _ _ (ao_batch _ Ha) i Hi) as [H1 H2].
  destruct (ids_at (batch a) i); simpl in *; [lia|set_solver].
Qed.

Definition pick_inv (a : llama_batch_allocr) (n_ubatch i : nat) (st : bool * list (gset Z) * Z) : Prop :=
  let '(stop, cur, _) := st in
  picked a n_ubatch cur ∧ (stop = false → length cur ≤ n_ubatch) ∧ (stop = true → cur ≠ []) ∧
  (cur = [] → ∀ j, j < i → bused a !! j ≠ Some false).

Lemma picked_snoc a n_ubatch cur i s : allocr_ok a → picked a n_ubatch cur →
  length cur ≤ n_ubatch → bused a !! i = Some false → seq_set a !! i = Some s →
  forallb (λ c, bool_decide (c ∩ s = ∅)) cur = true → picked a n_ubatch (cur ++ [s]).
Proof.
  intros Ha [H1 H2 H3] Hl Hi Hs Hd. rewrite forallb_forall in Hd. split.
  - apply StronglySorted_snoc. split; [done|]. intros c Hc%list_elem_of_In.
    specialize (Hd _ Hc). by apply bool_decide_eq_true_1 in Hd.
  - intros t [?| ->%list_elem_of_singleton]%elem_of_app; [auto|]. split; [by eapply set_ids_ne|].
    intros E. assert (Hin : i ∈ set_unused a s); [|rewrite E in Hin; set_solver].
    apply list_elem_of_filter. split; [done|]. apply elem_of_set_tokens. eauto using unused_lt.
  - rewrite length_app; simpl; lia.
Qed.

Lemma first_id_ok a i : allocr_ok a → i < get_n_tokens a → ∃ t, get_seq_id (batch a) i 0 = Ok t.
Proof.
  intros Ha Hi. destruct (length_ids _ _ _ _ (ao_batch _ Ha) i Hi) as [_ Hl].
  destruct (get_seq_id_ok _ _ _ _ (ao_batch _ Ha) i Hi 0) as (t & E & _); [lia|]. eauto.
Qed.

Lemma pick_sets_step_ok a n_ubatch sequential i st :
  allocr_ok a → i < get_n_tokens a → pick_inv a n_ubatch i st →
  okP (pick_sets_step a n_ubatch sequential st i) (pick_inv a n_ubatch (S i)).
Proof.
  destruct st as [[stop cur] last]. intros Ha Hi (Hpk & Hlen & Hst & Hne). unfold pick_sets_step.
  destruct stop; [simpl; split_and!; try done; intros E; by destruct Hst|].
  destruct (lookup_lt_is_Some_2 (bused a) i) as [u Eu]; [by rewrite (ao_used _ Ha)|].
  rewrite (vget_ok _ _ _ Eu), bind_Ok. destruct u.
  { cbn [okP pick_inv]. split_and!; try done. intros E j Hj. destruct (decide (j = i)) as [->|].
    - by rewrite Eu.
    - apply Hne; [done|lia]. }
  pose proof (seq_set_lookup _ _ Ha Hi) as Es. set (s := list_to_set (ids_at (batch a) i)) in Es.
  rewrite (vget_ok _ _ _ Es), bind_Ok. destruct (first_id_ok a i Ha Hi) as [t Et].
  eapply (okP_bind _ _ (λ ad, (ad = true → forallb (λ c, bool_decide (c ∩ s = ∅)) cur = true) ∧
                              (cur = [] → ad = true))).
  { destruct sequential; simpl; [|split; [done|by intros ->]].
    destruct (forallb _ cur) eqn:Ef; simpl; [|split; [done|intros ->; done]].
    case_decide; simpl; [done|]. by rewrite Et. }
  intros [] [Had1 Had2].
  - rewrite Et, bind_Ok. cbn [okP pick_inv]. split_and!.
    + apply (picked_snoc _ _ _ i); auto.
    + intros E%bool_decide_eq_false_1. lia.
    + by destruct cur.
    + by destruct cur.
  - cbn [okP pick_inv]. split_and!; try done. intros E. by specialize (Had2 E).
Qed.

Lemma pick_sets_ok a n_ubatch sequential : allocr_ok a → unused a ≠ [] →
  okP (pick_sets a n_ubatch sequential) (λ sets, sets ≠ [] ∧ picked a n_ubatch sets).
Proof.
  intros Ha Hu. unfold pick_sets. eapply okP_bind.
  - apply (okP_for _ (pick_inv a n_ubatch)).
    + simpl. split_and!; try done; [|lia|intros; lia]. split; [constructor|set_solver|simpl; lia].
    + intros i st Hi HI. by apply pick_sets_step_ok.
  - intros [[stop cur] last] (H1 & _ & _ & H2). simpl. split; [|done]. intros ->.
    apply Hu. apply filter_none. intros i [_ Hi]%elem_of_seq. by apply H2.
Qed.

(** No token left: no set is chosen. *)
Lemma pick_sets_none a n_ubatch sequential : allocr_ok a → unused a = [] →
  pick_sets a n_ubatch sequential = Ok [].
Proof.
  intros Ha Hu. unfold pick_sets.
  assert (E : foldM (pick_sets_step a n_ubatch sequential) (false, [], (-1)%Z) (tokens (batch a))
              = Ok (false, [], (-1)%Z)); [|by rewrite E].
  assert (Hall : ∀ i, i ∈ tokens (batch a) → bused a !! i = Some true).
  { intros i Hi%elem_of_seq. destruct (lookup_lt_is_Some_2 (bused a) i) as [[] Eu]; [|done|].
    - rewrite (ao_used _ Ha). unfold get_n_tokens. lia.
    - apply (elem_of_unused _ _ Ha) in Eu. rewrite Hu in Eu. set_solver. }
  induction (tokens (batch a)) as [|i l IH]; [done|]. simpl.
  rewrite (vget_ok _ _ _ (Hall i ltac:(left))). simpl. apply IH. set_solver.
Qed.

(** *** The expansion *)
Section expand.
Context (sets : list (gset Z)) (G U : gset Z → list nat).

(** The tokens taken after [k] rounds. *)
Definition rows (k : nat) : list (list nat) := (λ s, take k (U s)) <$> sets.

Lemma zip_with_snoc_rows (l : list (list nat)) (r : list nat) :
  length r = length l → concat (zip_with (λ l i, l ++ [i]) l r) ≡ₚ concat l ++ r.
Proof.
  revert r; induction l as [|x l IH]; intros [|i r] H; simplify_eq/=; [done|].
  rewrite IH by done. solve_Permutation.
Qed.

Lemma rows_S k : (∀ s, s ∈ sets → k < length (U s)) →
  rows (S k) = zip_with (λ l i, l ++ [i]) (rows k) ((λ s, default 0 (U s !! k)) <$> sets).
Proof.
  intros H. unfold rows. induction sets as [|s l IH]; csimpl; [done|]. f_equal.
  - destruct (lookup_lt_is_Some_2 (U s) k) as [i E]; [apply H; left|]. rewrite E. simpl.
    by apply take_S_r.
  - apply IH. set_solver.
Qed.

Lemma expand_one_ok a k : (∀ s, s ∈ sets → k < length (U s)) →
  (∀ s i, s ∈ sets → i ∈ U s → i < length (bused a)) →
  okP (expand_one a ((λ s, G s ++ U s) <$> sets) ((λ s, length (G s) + k) <$> sets))
    (λ r, r.2 = (λ s, default 0 (U s !! k)) <$> sets ∧ pre_marks a r.2 r.1).
Proof.
  intros Hk Hlt. unfold expand_one. rewrite length_fmap.
  eapply okP_mono; [apply (okP_for _ (λ j r,
    r.2 = take j ((λ s, default 0 (U s !! k)) <$> sets) ∧ pre_marks a r.2 r.1))|].
  - split; [done|]. apply pre_marks_nil.
  - intros j [a1 row] Hj [E Hm]. simpl in E, Hm.
    destruct (lookup_lt_is_Some_2 sets j Hj) as [s Es].
    assert (Hs : s ∈ sets) by eauto using list_elem_of_lookup_2.
    destruct (lookup_lt_is_Some_2 (U s) k) as [i Ei]; [auto|].
    rewrite (vget_ok _ j (G s ++ U s)), bind_Ok by (by rewrite list_lookup_fmap, Es).
    rewrite (vget_ok _ j (length (G s) + k)), bind_Ok by (by rewrite list_lookup_fmap, Es).
    rewrite (vget_ok (G s ++ U s) _ i), bind_Ok.
    2:{ rewrite lookup_app_r by lia. by replace (length (G s) + k - length (G s)) with k by lia. }
    eapply okP_bind; [apply mark_ok|].
    { rewrite (proj1 (proj2 Hm)). eauto using list_elem_of_lookup_2. }
    intros a2 Hm2. simpl. split; [|by eapply pre_marks_trans].
    rewrite E. symmetry. apply take_S_r. by rewrite list_lookup_fmap, Es; simpl; rewrite Ei.
  - intros [a' r]; simpl. intros [-> Hm]. rewrite firstn_all2 in * by (by rewrite length_fmap). done.
Qed.

Lemma expand_ok n_ubatch a0 a k fuel :
  sets ≠ [] → (∀ s i, s ∈ sets → i ∈ U s → i < length (bused a0)) →
  (∀ s, s ∈ sets → k ≤ length (U s)) → (∃ s, s ∈ sets ∧ length (U s) + 1 ≤ fuel + k) →
  (0 < k → (k + 1) * length sets ≤ n_ubatch) →
  pre_marks a0 (concat (rows k)) a →
  okP (expand fuel n_ubatch a ((λ s, G s ++ U s) <$> sets) ((λ s, length (G s) + k) <$> sets) (rows k))
    (λ r, ∃ m, r.2 = rows m ∧ pre_marks a0 (concat (rows m)) r.1 ∧ k ≤ m ∧
       (∀ s, s ∈ sets → m ≤ length (U s)) ∧ (1 < m → m * length sets ≤ n_ubatch) ∧
       ((∃ s, s ∈ sets ∧ length (U s) = m) ∨ (k < m ∧ n_ubatch < (m + 1) * length sets))).
Proof.
  intros Hne Hlt. revert a k; induction fuel as [|fuel IH]; intros a k Hk (s0 & Hs0 & Hf) Hsz Hm.
  { specialize (Hk _ Hs0). lia. }
  cbn [expand].
  assert (Hfa : forallb (λ lc, bool_decide (lc.2 < length lc.1))
      (zip ((λ s, G s ++ U s) <$> sets) ((λ s, length (G s) + k) <$> sets)) = true ↔
      ∀ s, s ∈ sets → k < length (U s)).
  { clear. induction sets as [|s l IH]; csimpl; [set_solver|].
    rewrite andb_true_iff, IH, bool_decide_eq_true, length_app. split.
    - intros [? ?] t [->|?]%elem_of_cons; [lia|auto].
    - intros H. split; [specialize (H s ltac:(left)); lia|]. intros t Ht. apply H. by right. }
  destruct (forallb _ _) eqn:Ef.
  - apply proj1 in Hfa. specialize (Hfa eq_refl).
    eapply okP_bind; [apply expand_one_ok; [done|]|].
    { intros s i ? ?. rewrite (proj1 (proj2 Hm)). eauto. }
    intros [a1 row]; cbn [fst snd]. intros [-> Hm1]. rewrite <- rows_S by done.
    assert (Hm2 : pre_marks a0 (concat (rows (S k))) a1).
    { eapply pre_marks_perm; [|by eapply pre_marks_trans]. rewrite rows_S by done.
      symmetry. apply zip_with_snoc_rows. unfold rows. by rewrite !length_fmap. }
    assert (Hr0 : ∃ s, s ∈ sets ∧ rows (S k) !! 0 = Some (take (S k) (U s))).
    { clear -Hne. unfold rows. destruct sets as [|s l]; [done|]. exists s. split; [left|done]. }
    destruct Hr0 as (s & Hs & Hr0). rewrite (vget_ok _ _ _ Hr0), bind_Ok.
    specialize (Hfa s Hs) as Hks. rewrite length_take_le, length_fmap by lia.
    assert (Hcur : S <$> ((λ s, length (G s) + k) <$> sets) = (λ s, length (G s) + S k) <$> sets).
    { rewrite <- list_fmap_compose. apply list_fmap_ext. intros; simpl; lia. }
    case_decide as Hbr.
    + cbn [okP]. exists (S k). cbn [fst snd]. split_and!; try done; try lia.
    + rewrite Hcur. eapply okP_mono; [apply IH; try done|].
      * exists s0. split; [done|lia].
      * lia.
      * intros r (m & ? & ? & ? & ? & ? & ?). exists m. split_and!; try done; [lia|].
        naive_solver lia.
  - cbn [okP]. exists k. cbn [fst snd]. split_and!; [done..| |].
    { intros. specialize (Hsz ltac:(lia)). nia. }
    left. destruct (decide (Exists (λ s, length (U s) = k) sets)) as [He|Hne'].
    { apply Exists_exists in He. naive_solver. }
    exfalso. assert (false = true) as [=]. apply Hfa. intros s Hs. specialize (Hk s Hs).
    destruct (decide (length (U s) = k)); [|lia]. destruct Hne'. apply Exists_exists. eauto.
Qed.
End expand.

(** The rows of different sequence sets do not overlap. *)
Lemma NoDup_rows a sets k : StronglySorted (λ s t, s ∩ t = ∅) sets → (∀ s, s ∈ sets → s ≠ ∅) →
  NoDup (concat (rows sets (set_unused a) k)).
Proof.
  induction 1 as [|s l _ IH Hx]; intros Hne; [constructor|]. unfold rows in *. csimpl.
  apply NoDup_app. split_and!.
  - eapply sublist_NoDup; [apply (NoDup_set_unused a s)|apply sublist_take].
  - intros i Hi Hin. apply elem_of_concat in Hin as (r & (t & -> & Ht)%list_elem_of_fmap & Hit).
    apply elem_of_take in Hi as (? & Hi & _). apply elem_of_take in Hit as (? & Hit & _).
    apply list_elem_of_lookup_2, list_elem_of_filter in Hi as [_ [Hi _]%elem_of_set_tokens].
    apply list_elem_of_lookup_2, list_elem_of_filter in Hit as [_ [Hit _]%elem_of_set_tokens].
    rewrite Forall_forall in Hx. specialize (Hx t Ht). specialize (Hne s ltac:(left)).
    simplify_eq. set_solver.
  - apply IH. set_solver.
Qed.

Lemma length_rows sets U k : (∀ s, s ∈ sets → k ≤ length (U s)) →
  length (concat (rows sets U k)) = k * length sets.
Proof.
  intros H. unfold rows. induction sets as [|s l IH]; csimpl; [lia|].
  rewrite length_app, IH by set_solver. rewrite length_take_le by (apply H; left). lia.
Qed.

Lemma elem_of_rows a sets k i : i ∈ concat (rows sets (set_unused a) k) →
  ∃ s, s ∈ sets ∧ i ∈ set_unused a s.
Proof.
  intros (r & (t & -> & Ht)%list_elem_of_fmap & Hit)%elem_of_concat. exists t. split; [done|].
  apply elem_of_take in Hit as (? & Hit & _). eauto using list_elem_of_lookup_2.
Qed.

Lemma take_closed l k i j : StronglySorted lt l → j ∈ take k l → i ∈ l → i < j → i ∈ take k l.
Proof.
  intros Hs. revert k. induction Hs as [|x l _ IH Hx]; intros [|k] Hj Hi Hij; simpl in *; try set_solver.
  rewrite Forall_forall in Hx. apply elem_of_cons in Hi as [->|Hi]; [left|].
  apply elem_of_cons in Hj as [->|Hj]; [specialize (Hx _ Hi); lia|]. right. by apply IH.
Qed.

Lemma used_in_order_rows a sets k a' : allocr_ok a → used_in_order a →
  marks a (concat (rows sets (set_unused a) k)) a' → used_in_order a'.
Proof.
  intros Ha Hu (u & -> & _ & Hv) i j s Hij Hi Hj; simpl in *. rewrite !Hv. intros Hju.
  destruct (decide (i ∈ _)) as [|Hni]; [done|]. destruct (decide (j ∈ _)) as [Hjr|]; [|by eapply Hu].
  assert (Hlt : i < get_n_tokens a).
  { apply lookup_lt_Some in Hi. by rewrite (ao_set _ Ha), length_fmap, length_seq in Hi. }
  rewrite <- (ao_used _ Ha) in Hlt. destruct (lookup_lt_is_Some_2 _ _ Hlt) as [[] E]; [done|].
  exfalso. apply Hni. apply elem_of_concat in Hjr as (r & (t & -> & Ht)%list_elem_of_fmap & Hjt).
  assert (Hjs : seq_set a !! j = Some t).
  { apply elem_of_take in Hjt as (? & Hjt & _).
    by apply list_elem_of_lookup_2, list_elem_of_filter in Hjt as [_ [? _]%elem_of_set_tokens]. }
  assert (t = s) as -> by congruence. apply elem_of_concat. exists (take k (set_unused a s)). split.
  { apply list_elem_of_fmap. eauto. }
  apply (take_closed _ _ _ j); [|done| |done].
  - apply (StronglySorted_filter lt), (StronglySorted_filter lt), seq_lt_sorted.
  - apply list_elem_of_filter. split; [done|]. apply elem_of_set_tokens. split; [done|].
    by rewrite <- (ao_used _ Ha).
Qed.

(** What [split_equal] hands out: from each of the chosen pairwise disjoint
    sequence sets its next [k] tokens, [k] as large as the sets and [n_ubatch] allow. *)
Record equal_choice (a : llama_batch_allocr) (n_ubatch : nat) (sets : list (gset Z)) (k : nat) : Prop := {
  ec_picked : picked a n_ubatch sets;
  ec_ne     : sets ≠ [];
  ec_pos    : 1 ≤ k;
  ec_have   : ∀ s, s ∈ sets → k ≤ length (set_unused a s);
  ec_size   : 1 < k → k * length sets ≤ n_ubatch;
  ec_max    : (∃ s, s ∈ sets ∧ length (set_unused a s) = k) ∨ n_ubatch < (k + 1) * length sets
}.

Lemma split_equal_ok n_ubatch sequential a :
  allocr_ok a → used_in_order a → unused a ≠ [] → (sequential && has_cpl a) = false →
  okP (split_equal a n_ubatch sequential) (λ r, ∃ sets k, equal_choice a n_ubatch sets k ∧
    split_post used_in_order a (concat (rows sets (set_unused a) k)) (length sets) true r).
Proof.
  intros Ha Hu Hne Hsq. unfold split_equal. rewrite Hsq.
  eapply okP_bind; [by apply pick_sets_ok|]. intros sets [Hs Hpk]. rewrite decide_False by done.
  assert (HL : (λ s, default [] (seq_set_map a !! s)) <$> sets =
               (λ s, set_used a s ++ set_unused a s) <$> sets).
  { apply list_fmap_ext. intros _ s _. rewrite <- set_tokens_split by done. apply (ao_map _ Ha). }
  rewrite HL.
  assert (HC : mapM_res (skip_used a) ((λ s, set_used a s ++ set_unused a s) <$> sets) =
               Ok ((λ s, length (set_used a s) + 0) <$> sets)).
  { assert (Hh : ∀ s, s ∈ sets → set_unused a s ≠ []) by (intros s Hin; by apply (pk_have _ _ _ Hpk)).
    clear -Hh Ha. induction sets as [|s l IH]; csimpl; [done|]. rewrite skip_used_app.
    - rewrite bind_Ok, IH by set_solver. simpl. do 2 f_equal. lia.
    - by intros i [? _]%list_elem_of_filter.
    - specialize (Hh s ltac:(left)). destruct (set_unused a s) as [|i l'] eqn:E; [done|].
      exists i. split; [done|]. assert (Hi : i ∈ set_unused a s) by (rewrite E; left).
      by apply list_elem_of_filter in Hi as [? _]. }
  rewrite HC, bind_Ok.
  assert (Hlt : ∀ s i, s ∈ sets → i ∈ set_unused a s → bused a !! i = Some false)
    by (by intros s i _ [? _]%list_elem_of_filter).
  assert (Hr0 : replicate (length sets) [] = rows sets (set_unused a) 0).
  { unfold rows. clear. induction sets; csimpl; [done|]. by f_equal. }
  rewrite Hr0. eapply okP_bind; [apply (expand_ok sets (set_used a) (set_unused a) n_ubatch a a 0)|].
  - done.
  - intros s i ? ?. apply lookup_lt_Some with false. eauto.
  - intros; lia.
  - destruct sets as [|s l]; [done|]. exists s. split; [left|].
    assert (length (set_unused a s) ≤ get_n_tokens a); [|lia].
    unfold set_unused, set_tokens. rewrite 2!length_filter, length_seq. done.
  - lia.
  - rewrite <- Hr0. clear. replace (concat (replicate (length sets) [])) with (@nil nat); [apply pre_marks_nil|].
    induction sets; simpl; congruence.
  - intros [a1 l]; cbn [fst snd]. intros (k & -> & Hm & _ & Hk & Hsz & Hmax).
    assert (Hk1 : 1 ≤ k).
    { destruct Hmax as [(s & Hin & <-)|?]; [|lia]. destruct (pk_have _ _ _ Hpk s Hin) as [_ H].
      destruct (set_unused a s); [done|simpl; lia]. }
    assert (Hlen := length_rows sets (set_unused a) k Hk).
    assert (0 < length sets) by (destruct sets; [done|simpl; lia]).
    assert (Hfree : ∀ i, i ∈ concat (rows sets (set_unused a) k) → bused a !! i = Some false)
      by (intros i (s & ? & ?)%elem_of_rows; eauto).
    eapply okP_mono; [apply (add_marked a _ a1); try done; [lia|]|].
    { rewrite Hlen. apply Nat.Div0.mod_mul. }
    intros r [Hm2 Hub]. exists sets, k. split; [split; naive_solver|]. split; try done.
    + intros E. rewrite E in Hlen. simpl in Hlen. nia.
    + apply NoDup_rows; [apply (pk_disj _ _ _ Hpk)|]. intros s Hin. by apply (pk_have _ _ _ Hpk).
    + by apply (used_in_order_rows a sets k).
Qed.

(** with [sequential], batches with coupled sequences are not split *)
Definition splittable (sequential : bool) (a : llama_batch_allocr) : Prop :=
  used_in_order a ∧ (sequential && has_cpl a) = false.

#[export] Instance split_equal_splitter n_ubatch sequential :
  Splitter (splittable sequential) (λ a, split_equal a n_ubatch sequential).
Proof.
  split; intros a Ha [Hp Hc] Hu.
  - unfold split_equal. rewrite Hc. by rewrite pick_sets_none.
  - eapply okP_mono; [by apply split_equal_ok|]. intros r (sets & k & _ & [H1 H2 H3 H4 H5 H6]).
    eexists _, _, _. split; try done. split; [done|]. by rewrite (proj2 (proj2 (proj2 (proj2 (proj2 (proj2 (proj2 (marks_data _ _ _ H4)))))))).
Qed.

(** ** [init] *)
Lemma okP_forM_bool {A} (f : A → res bool) (P : A → Prop) l :
  (∀ x, x ∈ l → okP (f x) (λ r, r = true → P x)) →
  okP (forM_bool f l) (λ r, r = true → ∀ x, x ∈ l → P x).
Proof.
  intros H. unfold forM_bool.
  eapply okP_mono; [apply (okP_foldM _ (λ pre r, r = true → ∀ x, x ∈ pre → P x))|done].
  - set_solver.
  - intros pre x post s Hl HI. destruct s; [|done].
    eapply okP_mono; [apply H; rewrite Hl; set_solver|]. intros r Hr Hr' y Hy. set_solver.
Qed.

(** Positions stay far away from the limits of llama_pos (int32). *)
Definition POS_BOUND : Z := 536870912.
Definition mem_bounded (mem : option memory_i) : Prop :=
  ∀ m s, mem = Some m → (-1 ≤ mem_pos_max m s < POS_BOUND)%Z.
Definition first_pos (mem : option memory_i) (s : Z) : Z :=
  match mem with None => 0 | Some m => mem_pos_max m s + 1 end%Z.

(** What the caller of [init] must provide (the arrays of a C API). *)
Record input_ok (b : llama_batch) (nemb npos : nat) : Prop := {
  io_npos  : 1 ≤ npos;
  io_n     : (0 < b_n_tokens b)%Z;
  io_small : (b_n_tokens b ≤ POS_BOUND)%Z;
  io_range : ∀ p x, b_pos b = Some p → x ∈ p → (- POS_BOUND ≤ x ≤ 2 * POS_BOUND)%Z;
  io_token : ∀ t, b_token b = Some t → Z.to_nat (b_n_tokens b) ≤ length t;
  io_embd  : ∀ e, b_embd b = Some e → Z.to_nat (b_n_tokens b) * nemb ≤ length e;
  io_pos   : match b_pos b with
             | Some p => ∀ i j, i < Z.to_nat (b_n_tokens b) → j < npos → src_off b j + i < length p
             | None => b_token b = None → npos = 1
             end;
  io_nseq  : ∀ ks, b_n_seq_id b = Some ks → Z.to_nat (b_n_tokens b) ≤ length ks;
  io_seq   : ∀ i, i < Z.to_nat (b_n_tokens b) →
             ∃ row, default [] (b_seq_id (gen_seq_id b)) !! i = Some row ∧
                    (1 ≤ nseq_at (gen_n_seq_id b) i ≤ Z.of_nat (length row))%Z;
  io_both  : b_seq_id b ≠ None → b_n_seq_id b ≠ None;
  io_log   : ∀ l, b_logits b = Some l → Z.to_nat (b_n_tokens b) ≤ length l
}.

Lemma valid_tokens_ok b n_vocab nemb npos : input_ok b nemb npos →
  okP (valid_tokens b n_vocab) (λ r, r = true → ∀ t, b_token b = Some t → ∀ i,
    i < Z.to_nat (b_n_tokens b) → ∃ x, t !! i = Some x ∧ (0 ≤ x < n_vocab)%Z).
Proof.
  intros Hb. unfold valid_tokens. destruct (b_token b) as [t|] eqn:E; [|done].
  eapply okP_mono; [apply (okP_forM_bool _ (λ i, ∃ x, t !! i = Some x ∧ (0 ≤ x < n_vocab)%Z))|].
  - intros i Hi%elem_of_seq. pose proof (io_token _ _ _ Hb _ E).
    destruct (lookup_lt_is_Some_2 t i) as [x Hx]; [lia|]. rewrite (vget_ok _ _ _ Hx). cbn.
    intros Hr. exists x. split; [done|].
    apply negb_true_iff, orb_false_iff in Hr as [H1%bool_decide_eq_false_1 H2%bool_decide_eq_false_1]. lia.
  - cbn. intros r Hr Hr' t' [= <-] i Hi. apply Hr; [done|]. apply elem_of_seq. lia.
Qed.

(** ids of the input: those of the batch after the missing arrays are made up *)
Definition in_ids (b : llama_batch) (i : nat) : list Z := ids_at (gen_seq_id (gen_n_seq_id b)) i.

Lemma gen_ids_fields b : let b' := gen_seq_id (gen_n_seq_id b) in
  b_n_tokens b' = b_n_tokens b ∧ b_token b' = b_token b ∧ b_embd b' = b_embd b ∧
  b_pos b' = b_pos b ∧ b_logits b' = b_logits b ∧ b_n_seq_id b' = b_n_seq_id (gen_n_seq_id b) ∧
  b_seq_id b' = b_seq_id (gen_seq_id b).
Proof. unfold gen_seq_id, gen_n_seq_id. destruct (b_n_seq_id b), (b_seq_id b) eqn:E; simpl; rewrite ?E; done. Qed.

(** the batch as [batch_ok] without positions and logits *)
Lemma gen_ids_row b nemb npos i : input_ok b nemb npos → i < Z.to_nat (b_n_tokens b) →
  let b' := gen_seq_id (gen_n_seq_id b) in
  get_n_seq_id b' i = Ok (nseq_at b' i) ∧
  ∃ rows row, b_seq_id b' = Some rows ∧ rows !! i = Some row ∧
    (1 ≤ nseq_at b' i ≤ Z.of_nat (length row))%Z ∧ in_ids b i = take (Z.to_nat (nseq_at b' i)) row.
Proof.
  intros Hb Hi b'. destruct (gen_ids_fields b) as (_ & _ & _ & _ & _ & E1 & E2). fold b' in E1, E2.
  destruct (io_seq _ _ _ Hb i Hi) as (row & Hrow & Hk).
  assert (En : nseq_at b' i = nseq_at (gen_n_seq_id b) i) by (unfold nseq_at; by rewrite E1).
  assert (Hs : ∃ rows, b_seq_id b' = Some rows).
  { rewrite E2. unfold gen_seq_id. destruct (b_seq_id b) eqn:E; simpl; eauto. }
  destruct Hs as [rows Hs]. rewrite <- E2, Hs in Hrow. simpl in Hrow. split.
  - unfold get_n_seq_id, nseq_at. rewrite E1. unfold gen_n_seq_id.
    destruct (b_n_seq_id b) as [ks|] eqn:E; simpl.
    + rewrite E. simpl. pose proof (io_nseq _ _ _ Hb _ E).
      destruct (lookup_lt_is_Some_2 ks i) as [k Hk']; [lia|]. by rewrite (vget_ok _ _ _ Hk'), Hk'.
    + assert (Hr : replicate (Z.to_nat (b_n_tokens b)) 1%Z !! i = Some 1%Z) by by apply lookup_replicate_2.
      by rewrite (vget_ok _ _ _ Hr), Hr.
  - exists rows, row. rewrite En. split_and!; try done; [lia..|].
    unfold in_ids, ids_at. fold b'. rewrite En, Hs. simpl. by rewrite Hrow.
Qed.

Lemma in_ids_get b nemb npos i s : input_ok b nemb npos → i < Z.to_nat (b_n_tokens b) →
  s < Z.to_nat (nseq_at (gen_seq_id (gen_n_seq_id b)) i) →
  ∃ t, get_seq_id (gen_seq_id (gen_n_seq_id b)) i s = Ok t ∧ in_ids b i !! s = Some t.
Proof.
  intros Hb Hi Hs. destruct (gen_ids_row _ _ _ i Hb Hi) as (_ & rows & row & E1 & E2 & E3 & E4).
  destruct (lookup_lt_is_Some_2 row s) as [t Ht]; [lia|]. exists t. unfold get_seq_id. rewrite E1. simpl.
  rewrite (vget_ok _ _ _ E2), bind_Ok, (vget_ok _ _ _ Ht). split; [done|].
  by rewrite E4, lookup_take_lt by lia.
Qed.

Lemma in_ids_inv b nemb npos i t : input_ok b nemb npos → i < Z.to_nat (b_n_tokens b) →
  t ∈ in_ids b i → ∃ s, s < Z.to_nat (nseq_at (gen_seq_id (gen_n_seq_id b)) i) ∧
    get_seq_id (gen_seq_id (gen_n_seq_id b)) i s = Ok t.
Proof.
  intros Hb Hi [s Hs]%list_elem_of_lookup.
  assert (Hlt : s < Z.to_nat (nseq_at (gen_seq_id (gen_n_seq_id b)) i)).
  { destruct (gen_ids_row _ _ _ i Hb Hi) as (_ & rows & row & _ & _ & E3 & E4).
    apply lookup_lt_Some in Hs. rewrite E4, length_take in Hs. lia. }
  destruct (in_ids_get _ _ _ i s Hb Hi Hlt) as (t' & E & Ht). exists s. simplify_eq. done.
Qed.

Lemma valid_seq_ids_ok b nsm nemb npos : input_ok b nemb npos → 1 ≤ nsm →
  okP (valid_seq_ids b nsm) (λ r, r = true → ∀ i s, i < Z.to_nat (b_n_tokens b) →
    s ∈ in_ids b i → (0 ≤ s < Z.of_nat nsm)%Z).
Proof.
  intros Hb Hn. unfold valid_seq_ids. destruct (b_seq_id b) as [rows0|] eqn:E.
  - assert (Eb : gen_seq_id (gen_n_seq_id b) = b).
    { unfold gen_seq_id, gen_n_seq_id. pose proof (io_both _ _ _ Hb) as Hbo. rewrite E in Hbo.
      destruct (b_n_seq_id b) eqn:E2; [by rewrite E|]. by destruct Hbo. }
    eapply okP_mono; [apply (okP_forM_bool _ (λ i, ∀ s, s ∈ in_ids b i → (0 ≤ s < Z.of_nat nsm)%Z))|].
    + intros i Hi%elem_of_seq. assert (Hi' : i < Z.to_nat (b_n_tokens b)) by lia.
      destruct (gen_ids_row _ _ _ i Hb Hi') as [En _]. rewrite Eb in En. rewrite En, bind_Ok.
      eapply okP_mono; [apply (okP_forM_bool _ (λ s, ∀ t, get_seq_id b i s = Ok t → (0 ≤ t < Z.of_nat nsm)%Z))|].
      * intros s Hs%elem_of_seq. destruct (in_ids_get _ _ _ i s Hb Hi') as (t & Et & _); [by rewrite Eb; lia|].
        rewrite Eb in Et. rewrite Et. cbn. intros Hr t' [= <-].
        apply negb_true_iff, orb_false_iff in Hr as [H1%bool_decide_eq_false_1 H2%bool_decide_eq_false_1]. lia.
      * cbn. intros r Hr Hr' t Ht. destruct (in_ids_inv _ _ _ i t Hb Hi' Ht) as (s & Hs & Es).
        rewrite Eb in Hs, Es. apply (Hr Hr' s); [|done]. apply elem_of_seq. lia.
    + cbn. intros r Hr Hr' i s Hi. apply Hr; [done|]. apply elem_of_seq. lia.
  - cbn. intros _ i s Hi Hs. destruct (gen_ids_row _ _ _ i Hb Hi) as (_ & rows & row & E1 & E2 & _ & E4).
    destruct (gen_ids_fields b) as (_ & _ & _ & _ & _ & _ & F). rewrite F in E1.
    unfold gen_seq_id in E1. rewrite E in E1. simpl in E1. simplify_eq.
    apply lookup_replicate in E2 as [-> _]. rewrite E4 in Hs.
    apply elem_of_take in Hs as (j & Hj & _). destruct j; simplify_eq/=. lia.
Qed.

(** *** Positions *)

Lemma start_pos_ok mem nsm : mem_bounded mem →
  start_pos mem nsm = Ok ((λ s, first_pos mem (Z.of_nat s)) <$> seq 0 nsm).
Proof.
  intros Hm. unfold start_pos. destruct mem as [m|].
  - apply mapM_res_ok. intros s _. pose proof (Hm m (Z.of_nat s) eq_refl). unfold POS_BOUND in *.
    apply i32_add_ok. unfold INT32_MIN, INT32_MAX. lia.
  - f_equal. unfold first_pos. generalize 0. induction nsm as [|n IH]; intros k; [done|].
    csimpl. by rewrite <- (IH (S k)).
Qed.

(** One step of the position generator: [n] tokens done, [first] the first position. *)
Definition gen_inv (b : llama_batch) (nsm : nat) (first : Z) (i : nat) (st : list Z * list Z) : Prop :=
  length st.1 = nsm ∧ length st.2 = i ∧
  (∀ x, x ∈ st.1 ∨ x ∈ st.2 → 0 ≤ x ≤ POS_BOUND + Z.of_nat i)%Z ∧
  (∀ m, m ≤ i → (∀ j, j < m → in_ids b j = [0%Z]) →
    (∀ j, j < m → st.2 !! j = Some (first + Z.of_nat j)%Z) ∧
    (m = i → 0 < nsm → st.1 !! 0%nat = Some (first + Z.of_nat i)%Z)).

Lemma gen_pos_step_ok b nsm nemb npos first i st : input_ok b nemb npos →
  (∀ i s, i < Z.to_nat (b_n_tokens b) → s ∈ in_ids b i → (0 ≤ s < Z.of_nat nsm)%Z) →
  i < Z.to_nat (b_n_tokens b) → gen_inv b nsm first i st →
  okP (gen_pos_step (gen_seq_id (gen_n_seq_id b)) st i) (gen_inv b nsm first (S i)).
Proof.
  intros Hb Hids Hi. destruct st as [p0 pos]. intros (L1 & L2 & HB & HI). cbn [fst snd] in *.
  unfold gen_pos_step. pose proof (io_small _ _ _ Hb) as Hsm. set (b' := gen_seq_id (gen_n_seq_id b)) in *.
  destruct (gen_ids_row _ _ _ i Hb Hi) as (En & rows & row & F1 & F2 & F3 & F4).
  fold b' in En, F1, F2, F3, F4. 
  destruct (in_ids_get _ _ _ i 0 Hb Hi) as (s0 & Es & Hs0); [fold b'; lia|]. fold b' in Es.
  pose proof (Hids i s0 Hi (list_elem_of_lookup_2 _ _ _ Hs0)) as Hr0.
  rewrite Es, bind_Ok, idx_ok, bind_Ok by lia.
  destruct (lookup_lt_is_Some_2 p0 (Z.to_nat s0)) as [p Hp]; [lia|].
  rewrite (vget_ok _ _ _ Hp), bind_Ok, En, bind_Ok.
  pose proof (HB p (or_introl (list_elem_of_lookup_2 _ _ _ Hp))) as Hpb.
  eapply okP_bind; [apply (okP_for _ (λ k (q : list Z), length q = nsm ∧
    (∀ x, x ∈ q → 0 ≤ x ≤ POS_BOUND + Z.of_nat (S i))%Z ∧
    (in_ids b i = [0%Z] → q !! 0%nat = Some (if decide (k = 0%nat) then p else p + 1)%Z)))|].
  - split_and!; [done| |].
    + intros x Hx. specialize (HB x (or_introl Hx)). lia.
    + intros E. rewrite E in Hs0. simplify_eq/=. done.
  - intros k q Hk (Hq & Hqb & HQ).
    destruct (in_ids_get _ _ _ i k Hb Hi Hk) as (t & Et & Ht). fold b' in Et.
    pose proof (Hids i t Hi (list_elem_of_lookup_2 _ _ _ Ht)) as Hrt.
    rewrite Et, bind_Ok, idx_ok, bind_Ok by lia. rewrite i32_add_ok, bind_Ok, vset_ok.
    2:{ lia. } 2:{ unfold INT32_MIN, INT32_MAX, POS_BOUND in *. lia. }
    cbn [okP]. split_and!; [by rewrite length_insert| |].
    + intros x [j Hj]%list_elem_of_lookup. apply list_lookup_insert_Some in Hj as [(_ & <- & _)|[_ Hj]]; [lia|].
      eauto using list_elem_of_lookup_2.
    + intros E. rewrite E in Ht. destruct k; simplify_eq/=. apply list_lookup_insert_eq. lia.
  - intros q (Hq & Hqb & HQ). split_and!; cbn [fst snd]; [done|rewrite length_app; simpl; lia| |].
    { intros x [Hx|[Hx| ->%list_elem_of_singleton]%elem_of_app]; [auto| |lia].
      specialize (HB x (or_intror Hx)). lia. }
    intros m Hm Hz. destruct (HI (m `min` i) ltac:(lia)) as [H1 H2]; [intros; apply Hz; lia|]. split.
    + intros j Hj. destruct (decide (j = i)) as [->|]; [|rewrite lookup_app_l by lia; apply H1; lia].
      rewrite lookup_app_r, L2, Nat.sub_diag by lia. cbn.
      rewrite Hz in Hs0 by lia. simplify_eq/=. rewrite <- Hp. apply H2; lia.
    + intros -> Hn. rewrite HQ by (apply Hz; lia). rewrite decide_False by lia.
      specialize (H2 ltac:(lia) Hn). rewrite Hz in Hs0 by lia. simplify_eq/=.
      change (Z.to_nat 0) with 0 in Hp. rewrite Hp in H2. simplify_eq. f_equal. lia.
Qed.

(** The batch after the positions are made up. *)
Lemma gen_pos_ok b mem nsm nemb npos : input_ok b nemb npos → mem_bounded mem →
  (∀ i s, i < Z.to_nat (b_n_tokens b) → s ∈ in_ids b i → (0 ≤ s < Z.of_nat nsm)%Z) →
  okP (gen_pos (gen_seq_id (gen_n_seq_id b)) mem nsm) (λ b', ∃ p,
    b' = Batch (b_n_tokens b) (b_token b) (b_embd b) (Some p)
           (b_n_seq_id (gen_n_seq_id b)) (b_seq_id (gen_seq_id b)) (b_logits b) ∧
    (∀ x, x ∈ p → - POS_BOUND ≤ x ≤ 2 * POS_BOUND)%Z ∧
    match b_pos b with
    | Some p' => p = p'
    | None => length p = Z.to_nat (b_n_tokens b) ∧
        ∀ i, i < Z.to_nat (b_n_tokens b) → (∀ j, j ≤ i → in_ids b j = [0%Z]) →
          p !! i = Some (first_pos mem 0 + Z.of_nat i)%Z
    end).
Proof.
  intros Hb Hm Hids. unfold gen_pos. destruct (gen_ids_fields b) as (E1 & E2 & E3 & E4 & E5 & E6 & E7).
  pose proof (io_small _ _ _ Hb) as Hsm.
  rewrite E4. destruct (b_pos b) as [p|] eqn:Ep.
  { cbn. exists p. split; [|split; [intros x; by apply (io_range _ _ _ Hb)|done]].
    destruct (gen_seq_id (gen_n_seq_id b)) as [x1 x2 x3 x4 x5 x6 x7]; cbn in *. by subst. }
  rewrite start_pos_ok, bind_Ok by done. eapply okP_bind.
  - apply (okP_for _ (gen_inv b nsm (first_pos mem 0))).
    + split_and!; cbn; [by rewrite length_fmap, length_seq|done| |].
      * intros x [(s & -> & _)%list_elem_of_fmap|Hx]; [|set_solver]. unfold first_pos.
        destruct mem as [m|]; [|unfold POS_BOUND; lia]. specialize (Hm m (Z.of_nat s) eq_refl). lia.
      * intros m ? _. split; [intros; lia|]. intros -> Hn.
        rewrite list_lookup_fmap, lookup_seq_lt by done. simpl. by rewrite Z.add_0_r.
    + intros i st Hi HI. rewrite E1 in Hi. by eapply gen_pos_step_ok.
  - intros [p0 pos] (L1 & L2 & HB & HI). cbn. rewrite E1, E2, E3, E5, E6, E7 in *. exists pos.
    split; [done|]. split; [|split; [done|]].
    + intros x Hx. specialize (HB x (or_intror Hx)). unfold POS_BOUND in *. cbn in HB. lia.
    + intros i Hi Hz. destruct (HI (S i) ltac:(lia)) as [H _]; [intros; apply Hz; lia|]. apply H. lia.
Qed.

(** *** The completed batch *)
Lemma gen_logits_fields b all : let b' := gen_logits b all in
  b_n_tokens b' = b_n_tokens b ∧ b_token b' = b_token b ∧ b_embd b' = b_embd b ∧
  b_pos b' = b_pos b ∧ b_n_seq_id b' = b_n_seq_id b ∧ b_seq_id b' = b_seq_id b ∧
  ∃ l, b_logits b' = Some l ∧
    ((∀ l0, b_logits b = Some l0 → Z.to_nat (b_n_tokens b) ≤ length l0) → Z.to_nat (b_n_tokens b) ≤ length l).
Proof.
  unfold gen_logits. destruct (b_logits b) as [l|] eqn:E.
  - destruct (_ && _); cbn; rewrite ?E; split_and!; try done; eexists; (split; [done|]).
    + intros _. by rewrite length_replicate.
    + auto.
  - cbn. split_and!; try done. eexists. split; [done|]. intros _.
    destruct all; rewrite ?length_insert, ?length_replicate; lia.
Qed.

Lemma completed_batch_ok b mem nsm nemb npos all b1 : input_ok b nemb npos → mem_bounded mem →
  (∀ i s, i < Z.to_nat (b_n_tokens b) → s ∈ in_ids b i → (0 ≤ s < Z.of_nat nsm)%Z) →
  nsm ≤ MAX_SEQ → 
  gen_pos (gen_seq_id (gen_n_seq_id b)) mem nsm = Ok b1 →
  batch_ok (gen_logits b1 all) nemb npos nsm ∧
  (∀ i, ids_at (gen_logits b1 all) i = in_ids b i) ∧
  b_n_tokens (gen_logits b1 all) = b_n_tokens b ∧ b_token (gen_logits b1 all) = b_token b ∧
  b_embd (gen_logits b1 all) = b_embd b ∧ b_pos (gen_logits b1 all) = b_pos b1.
Proof.
  intros Hb Hm Hids Hnsm E.
  pose proof (okP_Ok _ _ _ (gen_pos_ok b mem nsm nemb npos Hb Hm Hids) E) as (p & -> & _ & Hp).
  match goal with |- context [gen_logits ?x all] => set (b1 := x) end.
  destruct (gen_logits_fields b1 all) as (F1 & F2 & F3 & F4 & F5 & F6 & l & F7 & F8).
  set (b2 := gen_logits b1 all) in *. cbn in F1, F2, F3, F4, F5, F6, F8.
  destruct (gen_ids_fields b) as (_ & _ & _ & _ & _ & G1 & G2).
  assert (Ek : ∀ i, nseq_at b2 i = nseq_at (gen_seq_id (gen_n_seq_id b)) i)
    by (intros i; unfold nseq_at; by rewrite F5, G1).
  assert (Ei : ∀ i, ids_at b2 i = in_ids b i)
    by (intros i; unfold in_ids, ids_at; by rewrite Ek, F6, G2).
  split_and!; try done. split; rewrite ?F1, ?F2, ?F3, ?F4, ?F5, ?F6, ?F7; try apply Hb.
  - exists p. split; [done|]. intros i j Hi Hj. pose proof (io_pos _ _ _ Hb) as Hio.
    unfold src_off. rewrite F2, F1. unfold src_off in Hio. destruct (b_pos b) as [p'|].
    + subst p'. by apply Hio.
    + destruct Hp as [Hl _]. destruct (b_token b); [lia|]. rewrite (Hio eq_refl) in Hj.
      replace j with 0 by lia. lia.
  - destruct (b_n_seq_id (gen_n_seq_id b)) as [ks|] eqn:E1.
    + exists ks. split; [done|]. unfold gen_n_seq_id in E1. destruct (b_n_seq_id b) as [ks'|] eqn:E2.
      * apply (io_nseq _ _ _ Hb). congruence.
      * cbn in E1. simplify_eq. by rewrite length_replicate.
    + unfold gen_n_seq_id in E1. destruct (b_n_seq_id b) eqn:E2; cbn in E1; congruence.
  - destruct (b_seq_id (gen_seq_id b)) as [rows|] eqn:E1.
    + exists rows. split; [done|]. intros i Hi. rewrite Ek.
      destruct (gen_ids_row _ _ _ i Hb Hi) as (_ & rows' & row & H1 & H2 & H3 & _).
      rewrite G2 in H1. simplify_eq. eauto.
    + unfold gen_seq_id in E1. destruct (b_seq_id b) eqn:E2; cbn in E1; congruence.
  - intros i s Hi. rewrite Ei. by apply Hids.
  - exists l. split; [done|]. apply F8. apply Hb.
  - done.
Qed.

(** *** Statistics *)
Section stats.
Context (b : llama_batch) (nemb npos nsm : nat) (Hb : batch_ok b nemb npos nsm) (Hnpos : 1 ≤ npos).

(** The positions of the sequence [s] among the first [k] tokens. *)
Definition seq_positions (b : llama_batch) (s k : nat) : gset Z :=
  list_to_set (pos_at b <$> filter (λ i, Z.of_nat s ∈ ids_at b i) (seq 0 k)).

Lemma seq_positions_S s i :
  seq_positions b s (S i) = seq_positions b s i ∪
    (if decide (Z.of_nat s ∈ ids_at b i) then {[pos_at b i]} else ∅).
Proof.
  unfold seq_positions. rewrite seq_S, filter_snoc, fmap_app, list_to_set_app_L. simpl.
  case_decide; simpl; set_solver.
Qed.

Lemma count_outputs_ok :
  count_outputs b = Ok (length (filter (λ i, logit_at b i ≠ 0%Z) (tokens b))).
Proof.
  unfold count_outputs.
  assert (Hin : ∀ i, i ∈ tokens b → get_logit b i = Ok (logit_at b i)).
  { intros i [_ Hi]%elem_of_seq. by apply (get_logit_ok _ _ _ _ Hb). }
  enough (H : ∀ l n, (∀ i, i ∈ l → get_logit b i = Ok (logit_at b i)) →
    foldM (λ n i, l ← get_logit b i; Ok (if decide (l = 0)%Z then n else S n)) n l =
    Ok (n + length (filter (λ i, logit_at b i ≠ 0%Z) l))) by by apply (H _ 0).
  intros l. induction l as [|i l IH]; intros n Hl; [simpl; f_equal; lia|].
  cbn [foldM]. rewrite Hl by left. rewrite bind_Ok, bind_Ok, IH by (intros; apply Hl; by right).
  f_equal. rewrite filter_cons. destruct (decide (logit_at b i = 0%Z)) as [E|E].
  - rewrite decide_False by (by intros []). done.
  - rewrite decide_True by done. simpl. lia.
Qed.

(** the statistics vectors have their full size *)
Definition cpl_size (c : list (list bool)) : Prop :=
  length c = MAX_SEQ ∧ Forall (λ r, length r = MAX_SEQ) c.

Lemma stat_seqs_step_ok i s0 sp cpl has k : i < Z.to_nat (b_n_tokens b) →
  (0 ≤ s0 < Z.of_nat nsm)%Z → k < Z.to_nat (nseq_at b i) → length sp = MAX_SEQ → cpl_size cpl →
  okP (stat_seqs_step b i s0 (sp, cpl, has) k) (λ r, cpl_size r.1.2 ∧ ∃ t old,
    ids_at b i !! k = Some t ∧ (0 ≤ t)%Z ∧ sp !! Z.to_nat t = Some old ∧
    r.1.1 = <[Z.to_nat t := {[pos_at b i]} ∪ old]> sp).
Proof.
  intros Hi Hs0 Hk Hsp [Hc1 Hc2]. pose proof (bo_nsm _ _ _ _ Hb). cbv beta iota delta [stat_seqs_step].
  destruct (get_seq_id_ok _ _ _ _ Hb i Hi k Hk) as (t & Et & Ht & Hr).
  rewrite Et, bind_Ok, (idx_ok t), bind_Ok by lia.
  destruct (lookup_lt_is_Some_2 sp (Z.to_nat t)) as [old Hold]; [lia|].
  rewrite (vget_ok _ _ _ Hold), bind_Ok.
  pose proof (get_pos_ok _ _ _ _ Hb i Hi 0 Hnpos) as Ep.
  replace (src_off b 0) with 0 in Ep by (unfold src_off; by destruct (b_token b)).
  rewrite Nat.add_0_l in Ep. rewrite Ep, bind_Ok, (vset_ok sp), bind_Ok by lia. case_decide.
  - rewrite (idx_ok s0), bind_Ok by lia.
    destruct (lookup_lt_is_Some_2 cpl (Z.to_nat t)) as [row Hrow]; [lia|].
    pose proof (Forall_lookup_1 _ _ _ _ Hc2 Hrow) as Hl. simpl in Hl.
    rewrite (vget_ok _ _ _ Hrow), bind_Ok, (vset_ok row), bind_Ok, vset_ok, bind_Ok by lia. cbn.
    split; [|eauto 10 with lia]. split; [by rewrite length_insert|].
    apply Forall_insert; [done|]. by rewrite length_insert.
  - cbn. split; [done|]. exists t, old. split_and!; try done. lia.
Qed.

Lemma stat_seqs_ok : 
  okP (stat_seqs b (replicate MAX_SEQ ∅) (replicate MAX_SEQ (replicate MAX_SEQ false))) (λ r,
    cpl_size r.1.2 ∧ length r.1.1 = MAX_SEQ ∧
    ∀ s, s < MAX_SEQ → r.1.1 !! s = Some (seq_positions b s (Z.to_nat (b_n_tokens b)))).
Proof.
  unfold stat_seqs. apply (okP_for _ (λ i r, cpl_size r.1.2 ∧ length r.1.1 = MAX_SEQ ∧
    ∀ s, s < MAX_SEQ → r.1.1 !! s = Some (seq_positions b s i))).
  - cbn [fst snd]. unfold cpl_size. rewrite !length_replicate. split_and!; try done.
    + apply Forall_replicate. by rewrite length_replicate.
    + intros s Hs. by apply lookup_replicate_2.
  - intros i [[sp cpl] has] Hi (H1 & H2 & H3). cbn [fst snd] in *.
    destruct (length_ids _ _ _ _ Hb i Hi) as [Hl Hl1].
    destruct (get_seq_id_ok _ _ _ _ Hb i Hi 0) as (s0 & Es & _ & Hs0); [lia|].
    rewrite Es, bind_Ok, (get_n_seq_id_ok _ _ _ _ Hb i Hi), bind_Ok.
    eapply okP_mono; [apply (okP_for _ (λ k r, cpl_size r.1.2 ∧ length r.1.1 = MAX_SEQ ∧
      ∀ s, s < MAX_SEQ → r.1.1 !! s = Some (seq_positions b s i ∪
        (if decide (Z.of_nat s ∈ take k (ids_at b i)) then {[pos_at b i]} else ∅))))|].
    + cbn [fst snd]. split_and!; try done. intros s Hs. rewrite H3 by done. f_equal. set_solver.
    + intros k [[sp' cpl'] has'] Hk (G1 & G2 & G3). cbn [fst snd] in *.
      eapply okP_mono; [by apply stat_seqs_step_ok|].
      intros [[sp2 cpl2] has2]. cbn [fst snd]. intros (F1 & t & old & Ht & Ht0 & Hold & ->).
      split_and!; [done|by rewrite length_insert|]. intros s Hs.
      rewrite (take_S_r _ _ _ Ht).
      destruct (decide (s = Z.to_nat t)) as [->|Hne].
      * rewrite list_lookup_insert_eq by lia. f_equal. rewrite Z2Nat.id by done.
        rewrite (decide_True (P := t ∈ take k _ ++ [t])) by set_solver.
        rewrite G3 in Hold by done. simplify_eq. case_decide; set_solver.
      * rewrite list_lookup_insert_ne by done. rewrite G3 by done. do 2 f_equal.
        apply decide_ext. rewrite elem_of_app, list_elem_of_singleton. naive_solver lia.
    + intros [[sp' cpl'] has']. cbn [fst snd]. intros (G1 & G2 & G3). split_and!; try done.
      intros s Hs. rewrite G3, seq_positions_S by done. by rewrite firstn_all2 by lia.
Qed.

Lemma token_seq_set_ok i : i < Z.to_nat (b_n_tokens b) →
  token_seq_set b i = Ok (list_to_set (ids_at b i)).
Proof.
  intros Hi. unfold token_seq_set. rewrite (get_n_seq_id_ok _ _ _ _ Hb i Hi), bind_Ok.
  pose proof (bo_nsm _ _ _ _ Hb). pose proof MAX_SEQ_eq.
  destruct (length_ids _ _ _ _ Hb i Hi) as [Hl _].
  destruct (proj1 (okP_ok _ _) (okP_for (λ (cur : gset Z) s, t ← get_seq_id b i s; bit_set cur t)
    (λ k cur, cur = list_to_set (take k (ids_at b i))) ∅ (Z.to_nat (nseq_at b i)) ltac:(done)
    ltac:(intros k cur Hk ->; destruct (get_seq_id_ok _ _ _ _ Hb i Hi k Hk) as (t & Et & Ht & Hr);
          rewrite Et, bind_Ok, bit_set_ok by lia; cbn; rewrite (take_S_r _ _ _ Ht), list_to_set_app_L; set_solver)))
    as (cur & -> & ->).
  by rewrite firstn_all2 by lia.
Qed.

Lemma stat_sets_ok :
  okP (stat_sets b) (λ r, let '(sets, m, unq) := r in
    let n := Z.to_nat (b_n_tokens b) in
    sets = (λ i, list_to_set (ids_at b i)) <$> seq 0 n ∧
    (∀ S, default [] (m !! S) = filter (λ i, sets !! i = Some S) (seq 0 n)) ∧
    ∀ s, s ∈ unq ↔ ∃ i, i < n ∧ s ∈ ids_at b i).
Proof.
  unfold stat_sets.
  eapply okP_mono; [apply (okP_for _ (λ n r, let '(sets, m, unq) := r in
    sets = (λ i, list_to_set (ids_at b i)) <$> seq 0 n ∧
    (∀ S, default [] (m !! S) = filter (λ i, (list_to_set (ids_at b i) : gset Z) = S) (seq 0 n)) ∧
    ∀ s, s ∈ unq ↔ ∃ i, i < n ∧ s ∈ ids_at b i))|].
  - split_and!; [done|done|]. intros s. split; [set_solver|]. intros (i & ? & _). lia.
  - intros i [[sets m] unq] Hi (E & Hm & Hu). rewrite token_seq_set_ok, bind_Ok by done. cbn [okP].
    set (cur := list_to_set (ids_at b i)). rewrite fmap_seq_S, <- E. split_and!; [done| |].
    + intros T. rewrite seq_S, filter_snoc; simpl. fold cur. destruct (decide (cur = T)) as [<-|Hne].
      * by rewrite lookup_insert_eq, Hm.
      * by rewrite lookup_insert_ne, Hm, app_nil_r by done.
    + intros s. rewrite elem_of_union, Hu. unfold cur. rewrite elem_of_list_to_set. split.
      * intros [(j & ? & ?)|?]; eauto with lia.
      * intros (j & Hj & ?). destruct (decide (j = i)) as [->|]; [by right|]. left. exists j. split; [lia|done].
  - intros [[sets m] unq] (E & Hm & Hu). split_and!; [done| |done]. intros T. rewrite Hm.
    apply filter_ext_in. intros i [_ Hi]%elem_of_seq.
    rewrite E, list_lookup_fmap, lookup_seq_lt by done. simpl. naive_solver.
Qed.
End stats.

(** *** Consistency checks *)
Lemma interval_of_size (P : gset Z) (mn mx : Z) :
  mn ∈ P → (∀ p, p ∈ P → mn ≤ p ≤ mx)%Z → (mx - mn + 1 ≤ Z.of_nat (base.size P))%Z →
  ∀ q, (mn ≤ q ≤ mx)%Z → q ∈ P.
Proof.
  intros Hmn Hr Hs q Hq. pose proof (Hr _ Hmn).
  set (I := list_to_set (seqZ mn (mx - mn + 1)) : gset Z).
  assert (HI : base.size I = Z.to_nat (mx - mn + 1)).
  { unfold I. rewrite size_list_to_set by apply NoDup_seqZ. apply length_seqZ. }
  assert (Hsub : P ⊆ I).
  { intros p Hp. apply elem_of_list_to_set, elem_of_seqZ. specialize (Hr _ Hp). lia. }
  assert (P ≡ I) as ->; [|apply elem_of_list_to_set, elem_of_seqZ; lia].
  apply set_subseteq_size_equiv; [done|]. lia.
Qed.

(** What a successful [init] promises about the positions [P] of a sequence
    whose last position in the memory is [p0]. *)
Definition positions_follow (npos : nat) (text : bool) (p0 : Z) (P : gset Z) : Prop :=
  P ≠ ∅ →
  if decide (1 < npos) then
    (0 ≤ p0)%Z → ∀ p, p ∈ P → if text then (p0 < p)%Z else (p0 ≤ p)%Z
  else
    ∃ mn mx, (0 ≤ p0 → mn = p0 + 1)%Z ∧ ∀ p, p ∈ P ↔ (mn ≤ p ≤ mx)%Z.

Lemma check_seq_positions_ok a mem s P :
  bseq_pos a !! s = Some P → mem_bounded mem →
  (∀ x, x ∈ P → - POS_BOUND ≤ x ≤ 2 * POS_BOUND)%Z →
  okP (check_seq_positions a mem s) (λ r, r = true →
    positions_follow (n_pos_per_embd a) (bool_decide (is_Some (b_token (batch a)))) (mem_max mem s) P).
Proof.
  intros HP Hm HB. unfold check_seq_positions. rewrite (vget_ok _ _ _ HP), bind_Ok.
  unfold positions_follow. case_decide as He; [by intros _ Hne|].
  unfold bseq_pos_min, bseq_pos_max, bseq_edge. rewrite (vget_ok _ _ _ HP), !bind_Ok.
  assert (Hel : elements P ≠ []) 
    by (intros E%elements_empty_iff%leibniz_equiv; done).
  destruct (list_min (elements P)) as [mn|] eqn:Emn; [|by apply list_min_None in Emn].
  destruct (list_max (elements P)) as [mx|] eqn:Emx; [|by apply list_max_None in Emx].
  apply list_min_spec in Emn as [Hmn1 Hmn2]. apply list_max_spec in Emx as [Hmx1 Hmx2].
  setoid_rewrite elem_of_elements in Hmn2. setoid_rewrite elem_of_elements in Hmx2.
  rewrite elem_of_elements in Hmn1, Hmx1. cbn [default from_option id].
  case_decide as Hn.
  - destruct (b_token (batch a)) as [t|]; cbn [okP]; intros Hr _ H0 p Hp;
      specialize (Hmn2 _ Hp); rewrite negb_true_iff, andb_false_iff, !bool_decide_eq_false in Hr;
      rewrite ?bool_decide_true, ?bool_decide_false by (by eexists) || (by intros []); lia.
  - pose proof (HB _ Hmn1) as Bmn. pose proof (HB _ Hmx1) as Bmx. unfold POS_BOUND in Bmn, Bmx.
    assert (Bp0 : (mem_max mem s < POS_BOUND)%Z).
    { unfold mem_max. destruct mem as [m|]; [by apply Hm|done]. }
    unfold POS_BOUND in Bp0.
    eapply (okP_bind _ _ (λ f, f = true → 0 ≤ mem_max mem s → mn = mem_max mem s + 1)%Z).
    { case_decide; [|by intros _]. rewrite i32_add_ok, bind_Ok by (unfold INT32_MIN, INT32_MAX; lia).
      cbn. by intros ?%bool_decide_eq_true_1. }
    intros f Hf. destruct f; [|done]. cbn [negb].
    rewrite i32_sub_ok, bind_Ok by (unfold INT32_MIN, INT32_MAX; lia).
    rewrite i32_add_ok, bind_Ok by (unfold INT32_MIN, INT32_MAX; lia).
    cbn [okP]. rewrite negb_true_iff, bool_decide_eq_false. intros Hr _.
    exists mn, mx. split; [auto|]. intros p. split; [intros Hp; split; [by apply Hmn2|by apply Hmx2]|].
    apply interval_of_size; [done|naive_solver|lia].
Qed.

Lemma check_coupled_ok a mem : cpl_size (seq_cpl a) → n_seq_max a ≤ MAX_SEQ →
  okP (check_coupled a mem) (λ _, True).
Proof.
  intros [Hc1 Hc2] Hn. unfold check_coupled. destruct mem as [m|]; [|done].
  eapply okP_mono; [apply (okP_forM_bool _ (λ _, True))|done].
  intros s0 Hs0%elem_of_seq. eapply okP_mono; [apply (okP_forM_bool _ (λ _, True))|done].
  intros s1 Hs1%elem_of_seq. destruct (lookup_lt_is_Some_2 (seq_cpl a) s0) as [row Hrow]; [lia|].
  pose proof (Forall_lookup_1 _ _ _ _ Hc2 Hrow) as Hl. simpl in Hl.
  rewrite (vget_ok _ _ _ Hrow), bind_Ok.
  destruct (lookup_lt_is_Some_2 row s1) as [c Hc]; [lia|]. by rewrite (vget_ok _ _ _ Hc).
Qed.

(** The two conditions of the last check: the set of a sequence always contains
    the sequence itself, and the position is compared with -1 only. *)
Lemma check_subsets_eq a : batch_ok (batch a) (n_embd a) (n_pos_per_embd a) (n_seq_max a) →
  1 ≤ n_pos_per_embd a →
  seq_set a = (λ i, list_to_set (ids_at (batch a) i)) <$> seq 0 (get_n_tokens a) →
  check_subsets a = Ok (forallb (λ i, bool_decide (-1 ≤ pos_at (batch a) i)%Z) (tokens (batch a))).
Proof.
  intros Hb Hnp Hset. unfold check_subsets.
  set (ok := λ i, bool_decide (-1 ≤ pos_at (batch a) i)%Z).
  set (I := λ n (st : bool * list (gset Z) * list Z),
    st.1.1 = forallb ok (seq 0 n) ∧ length st.1.2 = n_seq_max a ∧ st.2 = replicate (n_seq_max a) (-1)%Z ∧
    (st.1.1 = true → ∀ s c, st.1.2 !! s = Some c → Z.of_nat s ∈ c)).
  assert (HI : okP (foldM (λ st i, k ← get_n_seq_id (batch a) i;
       foldM (check_subsets_step a i) st (seq 0 (Z.to_nat k)))
     (true, replicate (n_seq_max a) (list_to_set all_seqs), replicate (n_seq_max a) (-1)%Z)
     (tokens (batch a))) (I (Z.to_nat (b_n_tokens (batch a))))).
  2:{ destruct (foldM _ _ _) as [st|]; [|done]. destruct HI as [HI _]. cbn. by rewrite HI. }
  apply okP_for.
  - unfold I. cbn. split_and!; [done|by rewrite length_replicate|done|].
    intros _ s c [-> Hs]%lookup_replicate. apply elem_of_list_to_set, elem_of_all_seqs.
    pose proof (bo_nsm _ _ _ _ Hb). pose proof MAX_SEQ_eq. lia.
  - intros i [[b0 cs] cp] Hi (E & Hl & Ecp & Hin). cbn [fst snd] in *. subst cp.
    rewrite (get_n_seq_id_ok _ _ _ _ Hb i Hi), bind_Ok. destruct (length_ids _ _ _ _ Hb i Hi) as [Hli Hl1].
    eapply okP_mono; [apply (okP_for _ (λ k st,
      st.1.1 = (b0 && if decide (k = 0) then true else ok i) ∧ length st.1.2 = n_seq_max a ∧
      st.2 = replicate (n_seq_max a) (-1)%Z ∧
      (st.1.1 = true → ∀ s c, st.1.2 !! s = Some c → Z.of_nat s ∈ c)))|].
    + cbn. rewrite andb_true_r. done.
    + intros k [[b1 cs1] cp1] Hk (E1 & Hl' & Ecp & Hin'). cbn [fst snd] in *. subst cp1. unfold check_subsets_step.
      rewrite (decide_False (P := S k = 0)) by done. destruct b1.
      * symmetry in E1. apply andb_true_iff in E1 as [-> E1].
        destruct (get_seq_id_ok _ _ _ _ Hb i Hi k Hk) as (t & Et & Ht & Hr).
        pose proof (get_pos_ok _ _ _ _ Hb i Hi 0 ltac:(lia)) as Ep.
        replace (src_off (batch a) 0) with 0 in Ep by (unfold src_off; by destruct (b_token _)).
        rewrite Nat.add_0_l in Ep.
        rewrite Et, bind_Ok, idx_ok, bind_Ok, Ep, bind_Ok by lia.
        assert (Es : seq_set a !! i = Some (list_to_set (ids_at (batch a) i)))
          by (by rewrite Hset, list_lookup_fmap, lookup_seq_lt).
        rewrite (vget_ok _ _ _ Es), bind_Ok.
        destruct (lookup_lt_is_Some_2 cs1 (Z.to_nat t)) as [c Hc]; [lia|].
        rewrite (vget_ok _ _ _ Hc), bind_Ok, vset_ok, bind_Ok by lia.
        rewrite (vget_ok _ _ (-1)%Z), bind_Ok by (apply lookup_replicate_2; lia).
        assert (Htc : t ∈ c ∩ list_to_set (ids_at (batch a) i)).
        { apply elem_of_intersection. split.
          - rewrite <- (Z2Nat.id t) by lia. by apply (Hin' eq_refl _ _ Hc).
          - apply elem_of_list_to_set. eauto using list_elem_of_lookup_2. }
        rewrite decide_False by set_solver.
        assert (Hc2 : ∀ s d, <[Z.to_nat t:=c ∩ list_to_set (ids_at (batch a) i)]> cs1 !! s = Some d →
          Z.of_nat s ∈ d).
        { intros s d Hd. destruct (decide (s = Z.to_nat t)) as [->|].
          - rewrite list_lookup_insert_eq in Hd by lia. simplify_eq. by rewrite Z2Nat.id by lia.
          - rewrite list_lookup_insert_ne in Hd by done. by apply (Hin' eq_refl). }
        unfold ok. clear E1. destruct (decide (pos_at (batch a) i < -1)%Z); cbn [okP fst snd]; rewrite ?length_insert.
        -- rewrite bool_decide_false by (intros ?; lia). done.
        -- rewrite bool_decide_true by lia. done.
      * cbn. split_and!; try done. destruct b0; [|done]. simpl in *.
        case_decide; [done|]. by destruct (ok i).
    + intros [[b1 cs1] cp1] (E1 & H2 & H3 & H4). cbn [fst snd] in *. rewrite decide_False in E1 by lia.
      unfold I. cbn [fst snd]. split_and!; try done.
      rewrite seq_S, forallb_app, <- E. cbn. by rewrite andb_true_r.
Qed.

(** The vectors of the class have the sizes that the constructor gives them. *)
Definition allocr_sized (a : llama_batch_allocr) : Prop :=
  length (seq_idx a) = MAX_SEQ ∧ length (bseq_pos a) = MAX_SEQ ∧ cpl_size (seq_cpl a) ∧
  1 ≤ n_pos_per_embd a.

(** What a successful [init] of the batch [inp] establishes. *)
Record init_post (inp : llama_batch) (n_vocab : Z) (mem : option memory_i) (nemb npos nsm : nat)
    (a : llama_batch_allocr) : Prop := {
  ip_ok    : allocr_ok a;
  ip_par   : n_embd a = nemb ∧ n_pos_per_embd a = npos ∧ n_seq_max a = nsm;
  ip_used  : bused a = replicate (get_n_tokens a) false;
  ip_out   : out_ids a = [];
  ip_nout  : n_outputs a = length (filter (λ i, logit_at (batch a) i ≠ 0%Z) (tokens (batch a)));
  ip_n     : b_n_tokens (batch a) = b_n_tokens inp;
  ip_tok   : b_token (batch a) = b_token inp;
  ip_vocab : ∀ t, b_token inp = Some t → ∀ i, i < get_n_tokens a →
               ∃ x, t !! i = Some x ∧ (0 ≤ x < n_vocab)%Z;
  ip_ids   : ∀ i, ids_at (batch a) i = in_ids inp i;
  ip_pos   : ∀ s, s < nsm →
               positions_follow npos (bool_decide (is_Some (b_token inp))) (mem_max mem s)
                 (seq_positions (batch a) s (get_n_tokens a));
  ip_given : ∀ p, b_pos inp = Some p → b_pos (batch a) = Some p;
  ip_gen   : b_pos inp = None → ∀ i, i < get_n_tokens a → (∀ j, j ≤ i → in_ids inp j = [0%Z]) →
               pos_at (batch a) i = (first_pos mem 0 + Z.of_nat i)%Z
}.

Lemma fmap_replicate_lengths (c : list (list bool)) m : Forall (λ r, length r = m) c →
  (λ r, replicate (length r) false) <$> c = replicate (length c) (replicate m false).
Proof. induction 1 as [|r c Hr _ IH]; csimpl; [done|]. by rewrite Hr, IH. Qed.

Lemma compute_stats_ok a nemb nsm :
  batch_ok (batch a) nemb (n_pos_per_embd a) nsm → 1 ≤ n_pos_per_embd a → n_outputs a = 0 →
  length (seq_idx a) = MAX_SEQ →
  bseq_pos a = replicate MAX_SEQ ∅ → seq_cpl a = replicate MAX_SEQ (replicate MAX_SEQ false) →
  okP (compute_stats a nemb nsm) (λ a', let n := get_n_tokens a in
    batch a' = batch a ∧ n_embd a' = nemb ∧ n_pos_per_embd a' = n_pos_per_embd a ∧
    n_seq_max a' = nsm ∧
    n_outputs a' = length (filter (λ i, logit_at (batch a) i ≠ 0%Z) (tokens (batch a))) ∧
    cpl_size (seq_cpl a') ∧
    (∀ s, s < MAX_SEQ → bseq_pos a' !! s = Some (seq_positions (batch a) s n)) ∧
    seq_set a' = (λ i, list_to_set (ids_at (batch a) i)) <$> seq 0 n ∧
    (∀ S, default [] (seq_set_map a' !! S) = filter (λ i, seq_set a' !! i = Some S) (seq 0 n))).
Proof.
  intros Hb Hnp Hno Hsi Hsp Hcpl. unfold compute_stats.
  rewrite (count_outputs_ok _ _ _ _ Hb Hnp), bind_Ok, Hsp, Hcpl.
  eapply okP_bind; [apply (stat_seqs_ok _ _ _ _ Hb Hnp)|]. intros [[sp cpl] has] (H1 & _ & H2).
  eapply okP_bind; [apply (stat_sets_ok _ _ _ _ Hb Hnp)|]. intros [[sets m] unq] (H3 & H4 & _).
  eapply okP_bind; [apply index_unq_ok; [apply Hb|done]|]. intros ui _.
  cbn. rewrite Hno. split_and!; try done.
Qed.

Lemma init_ok a inp n_vocab mem nemb npos nsm all :
  allocr_sized a → n_pos_per_embd a = npos → input_ok inp nemb npos → mem_bounded mem → 1 ≤ nsm →
  okP (init a inp n_vocab mem nemb nsm all) (λ r,
    r.2 = true → init_post inp n_vocab mem nemb npos nsm r.1).
Proof.
  intros (Hs1 & Hs2 & Hs3 & Hs4) Hnp Hin Hm Hn1. unfold init.
  rewrite ggml_assert_ok, bind_Ok by (apply bool_decide_eq_true_2, (io_n _ _ _ Hin)).
  case_decide as Hmax; [done|]. assert (Hnsm : nsm ≤ MAX_SEQ) by lia.
  eapply okP_bind; [by eapply valid_tokens_ok|]. intros vt Hvt. destruct vt; [specialize (Hvt eq_refl)|done].
  eapply okP_bind; [by eapply valid_seq_ids_ok|]. intros vs Hvs. destruct vs; [specialize (Hvs eq_refl)|done].
  cbn [negb].
  destruct (gen_pos _ mem nsm) as [b1|] eqn:Eg.
  2:{ pose proof (gen_pos_ok inp mem nsm nemb npos Hin Hm Hvs) as Hg. by rewrite Eg in Hg. }
  rewrite bind_Ok. pose proof (okP_Ok _ _ _ (gen_pos_ok inp mem nsm nemb npos Hin Hm Hvs) Eg) as (p & Hb1 & HB & Hp).
  destruct (completed_batch_ok inp mem nsm nemb npos all b1 Hin Hm Hvs Hnsm Eg) as (Hb & Hids & F1 & F2 & F3 & F4).
  set (b2 := gen_logits b1 all) in *.
  eapply okP_bind; [apply compute_stats_ok; cbn; try done; try lia|].
  { by rewrite Hnp. }
  { by rewrite length_replicate. }
  { by rewrite Hs2. }
  { destruct Hs3 as [<- Hs3]. by apply fmap_replicate_lengths. }
  intros a2 (G1 & G2 & G3 & G4 & G5 & G6 & G7 & G8 & G9). cbn in G1, G2, G3, G4, G5, G7, G8, G9.
  assert (En : get_n_tokens a2 = Z.to_nat (b_n_tokens b2)) by (unfold get_n_tokens; by rewrite G1).
  eapply okP_bind; [apply (okP_forM_bool _ (λ s, positions_follow npos
     (bool_decide (is_Some (b_token inp))) (mem_max mem s) (seq_positions b2 s (get_n_tokens a2))))|].
  { intros s Hs%elem_of_seq. eapply okP_mono; [eapply check_seq_positions_ok; [apply G7; lia|done|]|].
    { intros x (i & -> & Hi)%elem_of_list_to_set%list_elem_of_fmap.
      apply list_elem_of_filter in Hi as [_ Hi%elem_of_seq]. apply HB.
      destruct (bo_pos _ _ _ _ Hb) as (p' & Ep & Hl). rewrite F4, Hb1 in Ep. injection Ep as <-.
      unfold pos_at. rewrite F4, Hb1. cbn [b_pos default]. specialize (Hl i 0 (proj2 Hi) ltac:(lia)).
      unfold src_off in Hl. replace (match b_token b2 with Some _ => 0 | None => 0 * _ end) with 0 in Hl by (by destruct (b_token b2)).
      destruct (lookup_lt_is_Some_2 _ _ Hl) as [x Hx]. rewrite Nat.add_0_l in Hx. unfold id. rewrite Hx. by eapply list_elem_of_lookup_2. }
    intros r Hr. rewrite En. by rewrite G3, G1, F2, Hnp in Hr. }
  intros c1 Hc1. destruct c1; [specialize (Hc1 eq_refl)|done].
  eapply okP_bind; [apply check_coupled_ok; [done|by rewrite G4]|]. intros c2 _. destruct c2; [|done].
  cbn [negb]. rewrite check_subsets_eq, bind_Ok.
  2:{ by rewrite G1, G2, G3, G4, Hnp. }
  2:{ by rewrite G3. }
  2:{ by rewrite G8, G1, En. }
  destruct (forallb _ _); [|done]. cbn. intros _.
  assert (Hok : allocr_ok (split_reset a2)).
  { split; cbn.
    - by rewrite G1, G2, G3, G4, Hnp.
    - by rewrite length_replicate.
    - symmetry. rewrite filter_none; [done|]. by intros x [-> _]%elem_of_replicate.
    - rewrite G8. unfold get_n_tokens. cbn. by rewrite G1.
    - intros T. rewrite G9. unfold get_n_tokens. cbn. by rewrite G1. }
  split; cbn; rewrite ?G1; try done.
  - by rewrite G2, G3, G4, Hnp.
  - change (get_n_tokens (split_reset a2)) with (get_n_tokens a2). by rewrite En, F1.
  - change (get_n_tokens (split_reset a2)) with (get_n_tokens a2).
    intros s Hs. apply Hc1, elem_of_seq. lia.
  - intros p' Hp'. rewrite F4, Hb1. cbn. by rewrite Hp' in Hp; subst.
  - intros Hnone i Hi Hz. rewrite Hnone in Hp. destruct Hp as [_ Hp]. unfold pos_at. rewrite F4, Hb1. cbn.
    rewrite Hp; [done| |done]. rewrite <- F1, <- En. exact Hi.
Qed.

(** * A concrete batch for the examples: four tokens of two sequences, positions
    and outputs generated. *)
Definition ex_inp : llama_batch :=
  Batch 4 (Some [5; 6; 7; 8]%Z) None None (Some [1; 1; 1; 1]%Z) (Some [[0]; [1]; [0]; [1]]%Z) None.

Lemma ex_input_ok : input_ok ex_inp 0 1.
Proof.
  split; cbn; try lia; try done.
  - intros t [= <-]. done.
  - intros t [= <-]. done.
  - intros i Hi. assert (i = 0 ∨ i = 1 ∨ i = 2 ∨ i = 3) as Hc by lia.
    destruct Hc as [->|[->|[->| ->]]]; cbn; eexists; (split; [done|]); cbn; lia.
Qed.

Lemma allocr_new_sized npos : 1 ≤ npos → allocr_sized (allocr_new npos).
Proof.
  intros Hn. unfold allocr_sized, cpl_size. cbn. rewrite !length_replicate. split_and!; try done.
  apply Forall_replicate. by rewrite length_replicate.
Qed.

Definition ex_run : res (llama_batch_allocr * bool) := init (allocr_new 1) ex_inp 100 None 0 2 false.
Definition ex_alloc : llama_batch_allocr := match ex_run with Ok (a, _) => a | _ => allocr_new 1 end.

Lemma ex_accepts : match ex_run with Ok (_, ok) => ok | Err _ => false end = true.
Proof. vm_compute. reflexivity. Qed.

Lemma ex_init_post : init_post ex_inp 100 None 0 1 2 ex_alloc.
Proof.
  pose proof (init_ok (allocr_new 1) ex_inp 100 None 0 1 2 false (allocr_new_sized 1 ltac:(lia)) eq_refl
    ex_input_ok ltac:(done) ltac:(lia)) as H.
  pose proof ex_accepts as Ha. unfold ex_alloc. change (init _ _ _ _ _ _ _) with ex_run in H.
  destruct ex_run as [[a ok]|]; [|done]. by apply H.
Qed.

Lemma ex_all_unused : bused ex_alloc = [false; false; false; false].
Proof. rewrite (ip_used _ _ _ _ _ _ _ ex_init_post). vm_compute. reflexivity. Qed.

Lemma unused_ne a i : allocr_ok a → bused a !! i = Some false → unused a ≠ [].
Proof. intros Ha Hi%(elem_of_unused _ _ Ha) E. rewrite E in Hi. set_solver. Qed.

Lemma ex_unused : unused ex_alloc ≠ [].
Proof. apply (unused_ne _ 0); [apply ex_init_post|]. by rewrite ex_all_unused. Qed.

Lemma fresh_orders a : bused a = replicate (length (bused a)) false → used_prefix a ∧ used_in_order a.
Proof.
  intros E. split.
  - intros i j _ Hj. rewrite E in Hj. by apply lookup_replicate in Hj as [? _].
  - intros i j s _ _ _ Hj. rewrite E in Hj. by apply lookup_replicate in Hj as [? _].
Qed.

(** The batch [idss] splits into: every token exactly once, every micro-batch the
    tokens of its list, outputs in processing order. *)
Definition partitions (a : llama_batch_allocr) (r : llama_batch_allocr * list llama_ubatch) : Prop :=
  ∃ idss, concat idss ≡ₚ seq 0 (get_n_tokens a) ∧
    Forall2 (λ idxs u, idxs ≠ [] ∧ ∃ ns eq, ubatch_of (batch a) (n_embd a) (n_pos_per_embd a)
                                    (n_seq_max a) idxs ns eq u) idss r.2 ∧
    n_used r.1 = get_n_tokens a ∧
    out_ids r.1 = out_ids a ++ filter (λ i, logit_at (batch a) i ≠ 0%Z) (concat idss).

Lemma fresh_unused a : allocr_ok a → bused a = replicate (length (bused a)) false →
  unused a = seq 0 (get_n_tokens a).
Proof.
  intros Ha E. apply filter_all. intros i Hi%elem_of_seq. rewrite E. apply lookup_replicate_2.
  rewrite (ao_used _ Ha). lia.
Qed.

Lemma split_all_partitions Inv split `{Splitter Inv split} a :
  allocr_ok a → Inv a → bused a = replicate (length (bused a)) false →
  okP (split_all (S (get_n_tokens a)) split a []) (partitions a).
Proof.
  intros Ha HI E. pose proof (fresh_unused a Ha E) as Hu.
  eapply okP_mono; [apply (split_all_ok Inv split); try done|].
  - rewrite Hu, length_seq. lia.
  - intros r (idss & us & E1 & E2 & E3 & _ & _ & _ & E4 & E5). exists idss. rewrite <- Hu.
    cbn in E1. by rewrite E1.
Qed.

(** * Properties *)



(** [ubatch_add] builds exactly the micro-batch of the given tokens (token
    ids, all position sections, sequence ids, outputs, unique sequence ids with
    their inverse index) and records their outputs. *)
Theorem ubatch_add_correct a idxs ns eq :
  batch_ok (batch a) (n_embd a) (n_pos_per_embd a) (n_seq_max a) →
  (∀ i, i ∈ idxs → i < get_n_tokens a) → ns ≠ 0 → length idxs `mod` ns = 0 →
  okP (ubatch_add a idxs ns eq) (λ r,
    r.1 = with_used_ids a (out_ids a ++ filter (λ i, logit_at (batch a) i ≠ 0%Z) idxs)
            (n_used a) (bused a) ∧
    ubatch_of (batch a) (n_embd a) (n_pos_per_embd a) (n_seq_max a) idxs ns eq r.2).
Proof. apply ubatch_add_ok. Qed.

Lemma ubatch_add_correct_witness :
  okP (ubatch_add ex_alloc [0; 2; 1; 3] 2 true) (λ r,
    r.1 = with_used_ids ex_alloc (out_ids ex_alloc ++ filter (λ i, logit_at (batch ex_alloc) i ≠ 0%Z) [0; 2; 1; 3])
            (n_used ex_alloc) (bused ex_alloc) ∧
    ubatch_of (batch ex_alloc) (n_embd ex_alloc) (n_pos_per_embd ex_alloc) (n_seq_max ex_alloc) [0; 2; 1; 3] 2 true r.2).
Proof.
  apply ubatch_add_correct; [apply ex_init_post| |done|done].
  intros i Hi. unfold get_n_tokens. rewrite (ip_n _ _ _ _ _ _ _ ex_init_post).
  change (Z.to_nat (b_n_tokens ex_inp)) with 4. set_solver by lia.
Defined.

(** C13. splitting a fresh batch with any of the three splitters until nothing is
    left terminates and hands out every token of the batch exactly once.  For
    [split_equal] this holds in both modes, but with [sequential] only if no
    sequences of the batch are coupled: such a batch it does not split at all. *)
Theorem splitters_partition a n_ubatch :
  allocr_ok a → bused a = replicate (length (bused a)) false →
  okP (split_all (S (get_n_tokens a)) (λ a, split_simple a n_ubatch) a []) (partitions a) ∧
  okP (split_all (S (get_n_tokens a)) (λ a, split_seq a n_ubatch) a []) (partitions a) ∧
  (∀ sequential, if sequential && has_cpl a then split_equal a n_ubatch sequential = Ok (a, ubatch_empty)
    else okP (split_all (S (get_n_tokens a)) (λ a, split_equal a n_ubatch sequential) a []) (partitions a)).
Proof.
  intros Ha E. destruct (fresh_orders a E). split_and!.
  - by apply (split_all_partitions used_prefix (λ a, split_simple a n_ubatch)).
  - by apply (split_all_partitions (λ _, True) (λ a, split_seq a n_ubatch)).
  - intros sequential. destruct (sequential && has_cpl a) eqn:Hc; [unfold split_equal; by rewrite Hc|].
    by apply (split_all_partitions (splittable sequential) (λ a, split_equal a n_ubatch sequential)).
Qed.

Lemma splitters_partition_witness :
  okP (split_all (S (get_n_tokens ex_alloc)) (λ a, split_simple a 3) ex_alloc []) (partitions ex_alloc) ∧
  okP (split_all (S (get_n_tokens ex_alloc)) (λ a, split_seq a 3) ex_alloc []) (partitions ex_alloc) ∧
  (∀ sequential, if sequential && has_cpl ex_alloc then split_equal ex_alloc 3 sequential = Ok (ex_alloc, ubatch_empty)
    else okP (split_all (S (get_n_tokens ex_alloc)) (λ a, split_equal a 3 sequential) ex_alloc []) (partitions ex_alloc)).
Proof. apply (splitters_partition ex_alloc 3); [apply ex_init_post|by rewrite ex_all_unused]. Defined.

(** [split_simple] hands out the next [n_ubatch] tokens of the batch in
    order (fewer only at the end of the batch). *)
Theorem split_simple_correct a n_ubatch :
  allocr_ok a → used_prefix a → unused a ≠ [] →
  let idxs := seq (first_unused (bused a)) (simple_size n_ubatch a) in
  okP (split_simple a n_ubatch) (split_post used_prefix a idxs (length idxs) false).
Proof. apply split_simple_ok. Qed.

Lemma split_simple_correct_witness :
  okP (split_simple ex_alloc 3) (split_post used_prefix ex_alloc
    (seq (first_unused (bused ex_alloc)) (simple_size 3 ex_alloc))
    (length (seq (first_unused (bused ex_alloc)) (simple_size 3 ex_alloc))) false) ∧
  simple_size 3 ex_alloc = 3.
Proof.
  split; [|unfold simple_size; by rewrite ex_all_unused].
  apply (split_simple_correct ex_alloc 3); [apply ex_init_post| |apply ex_unused].
  apply fresh_orders. by rewrite ex_all_unused.
Defined.

(** [split_seq] starts at the first token left and hands out at most
    [n_ubatch] tokens whose sequence sets form a shrinking chain. *)
Theorem split_seq_correct a n_ubatch : allocr_ok a → unused a ≠ [] →
  okP (split_seq a n_ubatch) (λ r, ∃ idxs, split_post (λ _, True) a idxs 1 true r ∧
    StronglySorted (seq_chain a) idxs ∧ length idxs ≤ 1 `max` n_ubatch ∧
    head idxs = Some (first_unused (bused a))).
Proof. apply split_seq_ok. Qed.

Lemma split_seq_correct_witness :
  okP (split_seq ex_alloc 3) (λ r, ∃ idxs, split_post (λ _, True) ex_alloc idxs 1 true r ∧
    StronglySorted (seq_chain ex_alloc) idxs ∧ length idxs ≤ 3 ∧
    head idxs = Some (first_unused (bused ex_alloc))).
Proof. apply (split_seq_correct ex_alloc 3); [apply ex_init_post|apply ex_unused]. Defined.

(** [split_equal] picks pairwise disjoint sequence sets and hands out the
    same number of next tokens of each, as many as [n_ubatch] and the shortest
    set allow. *)
Theorem split_equal_correct a n_ubatch sequential :
  allocr_ok a → used_in_order a → unused a ≠ [] → (sequential && has_cpl a) = false →
  okP (split_equal a n_ubatch sequential) (λ r, ∃ sets k, equal_choice a n_ubatch sets k ∧
    split_post used_in_order a (concat (rows sets (set_unused a) k)) (length sets) true r).
Proof. apply split_equal_ok. Qed.

Lemma split_equal_correct_witness :
  okP (split_equal ex_alloc 4 false) (λ r, ∃ sets k, equal_choice ex_alloc 4 sets k ∧
    split_post used_in_order ex_alloc (concat (rows sets (set_unused ex_alloc) k)) (length sets) true r).
Proof.
  apply (split_equal_correct ex_alloc 4 false); [apply ex_init_post| |apply ex_unused|done].
  apply fresh_orders. by rewrite ex_all_unused.
Defined.

(** The last check of [init] accepts every batch whose positions are at
    least -1: neither incompatible sequence sets nor decreasing positions are
    ever rejected by it. *)
Theorem subset_check_vacuous a :
  batch_ok (batch a) (n_embd a) (n_pos_per_embd a) (n_seq_max a) → 1 ≤ n_pos_per_embd a →
  seq_set a = (λ i, list_to_set (ids_at (batch a) i)) <$> seq 0 (get_n_tokens a) →
  check_subsets a = Ok (forallb (λ i, bool_decide (-1 ≤ pos_at (batch a) i)%Z) (tokens (batch a))).
Proof. apply check_subsets_eq. Qed.

Lemma subset_check_vacuous_witness :
  check_subsets ex_alloc =
    Ok (forallb (λ i, bool_decide (-1 ≤ pos_at (batch ex_alloc) i)%Z) (tokens (batch ex_alloc))).
Proof.
  apply (subset_check_vacuous ex_alloc); [apply ex_init_post| |apply ex_init_post].
  destruct (ip_par _ _ _ _ _ _ _ ex_init_post) as (_ & -> & _). lia.
Defined.

(** A micro-batch of [split_equal] can be larger than [n_ubatch]: one token
    of each of the two sequences with [n_ubatch = 1]. *)
Theorem split_equal_oversized :
  match split_equal ex_alloc 1 false with
  | Ok (_, u) => n_tokens u = 2
  | Err _ => False
  end.
Proof. vm_compute. reflexivity. Qed.
