(* ===== verification/KvCache.v ===== *)
(** The unified KV cache: [llama_kv_cache] of src/llama-kv-cache.h and
    src/llama-kv-cache.cpp, its state and the sequence operations of the memory
    interface.

    The cache consists of [n_stream] streams, each a vector of cells (see
    KvCells) with a search head; [seq_to_stream] maps a sequence to its stream.
    The K and V tensors, the ggml graphs and the logging are not part of the
    model.  Slot search is in KvSlot, the attention mask in KvMask, saving and
    restoring in KvState. *)
From S2P Require Import Prelude KvCells Batch.

(** ** Data *)
Inductive llama_swa_type := SWA_NONE | SWA_STANDARD | SWA_CHUNKED | SWA_SYMMETRIC.

#[export] Instance swa_type_eq_dec : EqDecision llama_swa_type.
Proof. solve_decision. Defined.

(** The constant members of the class and of the hyper-parameters that its
    methods read. *)
Record kv_params := Params {
  n_stream      : nat;
  kv_n_seq_max  : nat;
  n_pad         : nat;
  n_swa         : Z;
  swa_type      : llama_swa_type;
  v_trans       : bool;
  kv_n_pos      : nat;      (* hparams.n_pos_per_embd() *)
  n_embd_v_gqa  : nat;      (* hparams.n_embd_v_gqa_max() *)
  arch_step35   : bool      (* model.arch == LLM_ARCH_STEP35 *)
}.

Record kv_cache := KvCache {
  par           : kv_params;
  v_heads       : list nat;
  v_cells       : list llama_kv_cells;
  seq_to_stream : list nat;
  sc_info       : list (nat * nat)     (* pending stream copies: (ssrc, sdst) *)
}.

Definition with_stream (kv : kv_cache) (h : list nat) (c : list llama_kv_cells) : kv_cache :=
  KvCache (par kv) h c (seq_to_stream kv) (sc_info kv).

(** constructor *)
Definition kv_new (p : kv_params) (kv_size : nat) : res kv_cache :=
  ggml_assert (bool_decide (kv_size mod n_pad p = 0));;
  ggml_assert (bool_decide (n_stream p = 1 ∨ n_stream p = kv_n_seq_max p));;
  Ok (KvCache p (replicate (n_stream p) 0) (replicate (n_stream p) (resize kv_size))
        (if decide (1 < n_stream p) then seq 0 (n_stream p) else replicate MAX_SEQ 0) []).

(** ** Streams *)

(** GGML_ASSERT(seq_id >= 0 && (size_t) seq_id < seq_to_stream.size()), then
    the stream of the sequence *)
Definition stream_of (kv : kv_cache) (seq_id : Z) : res nat :=
  ggml_assert (bool_decide (0 ≤ seq_id < Z.of_nat (length (seq_to_stream kv)))%Z);;
  j ← idx seq_id;
  vget (seq_to_stream kv) j.

(** auto & cells = v_cells[s]; auto & head = v_heads[s]; *)
Definition on_stream (kv : kv_cache) (s : nat)
    (f : llama_kv_cells → nat → res (llama_kv_cells * nat)) : res kv_cache :=
  c ← vget (v_cells kv) s;
  h ← vget (v_heads kv) s;
  r ← f c h;
  cs ← vset (v_cells kv) s r.1;
  hs ← vset (v_heads kv) s r.2;
  Ok (with_stream kv hs cs).

(** for (i = 0; i < cells.size(); ++i) body(i) *)
Definition cells_loop (body : llama_kv_cells → nat → res llama_kv_cells) (c : llama_kv_cells) :
    res llama_kv_cells :=
  foldM body c (seq 0 (size c)).

(** the same loop, remembering in [new_head] the first cell that became empty *)
Definition free_loop (body : llama_kv_cells → nat → res (llama_kv_cells * bool)) (c : llama_kv_cells) :
    res (llama_kv_cells * nat) :=
  foldM (λ '(c, new_head) i,
    r ← body c i;
    Ok (r.1, if r.2 && bool_decide (new_head = size r.1) then i else new_head))
  (c, size c) (seq 0 (size c)).

(** If we freed up a slot, set head to it so searching can start there. *)
Definition lower_head (n head new_head : nat) : nat :=
  if bool_decide (new_head ≠ n) && bool_decide (new_head < head) then new_head else head.

(** head = new_head != cells.size() ? new_head : 0 *)
Definition head_found (n _head new_head : nat) : nat := if decide (new_head ≠ n) then new_head else 0.

Definition clip_p0 (p0 : Z) : Z := if decide (p0 < 0)%Z then 0%Z else p0.
Definition clip_p1 (p1 : Z) : Z := if decide (p1 < 0)%Z then INT32_MAX else p1.

(** ** Operations *)
Definition clear (kv : kv_cache) : res kv_cache :=
  foldM (λ kv s, on_stream kv s (λ c _, Ok (reset c, 0))) kv (seq 0 (n_stream (par kv))).

Definition rm_in_range (p0 p1 : Z) (f : llama_kv_cells → nat → res (llama_kv_cells * bool))
    (c : llama_kv_cells) (i : nat) : res (llama_kv_cells * bool) :=
  t ← pos_in c i p0 p1;
  if t : bool then f c i else Ok (c, false).

Definition rm_seq_cell (seq_id : Z) (c : llama_kv_cells) (i : nat) : res (llama_kv_cells * bool) :=
  t ← seq_has c i seq_id;
  if t : bool then KvCells.seq_rm c i seq_id else Ok (c, false).

Definition rm_any_cell (c : llama_kv_cells) (i : nat) : res (llama_kv_cells * bool) :=
  c ← rm c i; Ok (c, true).

Definition seq_rm (kv : kv_cache) (seq_id p0 p1 : Z) : res (kv_cache * bool) :=
  ggml_assert (bool_decide (seq_id = -1 ∨ 0 ≤ seq_id < Z.of_nat (length (seq_to_stream kv)))%Z);;
  let p0 := clip_p0 p0 in
  let p1 := clip_p1 p1 in
  if decide (0 ≤ seq_id)%Z then
    s ← stream_of kv seq_id;
    kv ← on_stream kv s (λ c h,
      r ← free_loop (rm_in_range p0 p1 (rm_seq_cell seq_id)) c;
      Ok (r.1, lower_head (size c) h r.2));
    Ok (kv, true)
  else
    kv ← foldM (λ kv s, on_stream kv s (λ c h,
      r ← free_loop (rm_in_range p0 p1 rm_any_cell) c;
      Ok (r.1, lower_head (size c) h r.2))) kv (seq 0 (n_stream (par kv)));
    Ok (kv, true).

Definition get_size (kv : kv_cache) : res nat :=
  s ← vget (seq_to_stream kv) 0;
  c ← vget (v_cells kv) s;
  Ok (size c).

(** cells of the same stream: add the sequence to the cells *)
Definition cp_cell (src dst p0 p1 : Z) (c : llama_kv_cells) (i : nat) : res llama_kv_cells :=
  t ← pos_in c i p0 p1;
  if t : bool then
    h ← seq_has c i src;
    if h : bool then KvCells.seq_add c i dst else Ok c
  else Ok c.

(** p > 0 && p + 1 < (int) get_size() *)
Definition partial_bound (kv : kv_cache) (p : Z) : res bool :=
  if decide (0 < p)%Z then
    q ← i32_add p 1; n ← get_size kv; Ok (bool_decide (q < Z.of_nat n)%Z)
  else Ok false.

(** cells of another stream: copy the cell *)
Definition cp_cross_cell (src dst : Z) (c0 : llama_kv_cells) (c1 : llama_kv_cells) (i : nat) :
    res llama_kv_cells :=
  t ← seq_has c0 i src;
  if t : bool then
    p ← pos_get c0 i;
    sh ← get_shift c0 i;
    e ← ext_get c0 i;
    p ← (if decide (sh ≠ 0)%Z then q ← i32_sub p sh; assert_ (bool_decide (0 ≤ q)%Z);; Ok q else Ok p);
    c1 ← pos_set c1 i p;
    c1 ← KvCells.seq_add c1 i dst;
    c1 ← (if decide (sh ≠ 0)%Z then r ← pos_add c1 i sh; Ok r.1 else Ok c1);
    ext_set c1 i e
  else Ok c1.

Definition seq_cp (kv : kv_cache) (src dst p0 p1 : Z) : res kv_cache :=
  s0 ← stream_of kv src;
  s1 ← stream_of kv dst;
  if decide (s0 = s1) then
    if decide (src = dst) then Ok kv else
    let p0 := clip_p0 p0 in
    let p1 := clip_p1 p1 in
    on_stream kv s0 (λ c h, c ← cells_loop (cp_cell src dst p0 p1) c; Ok (c, h))
  else
    b0 ← partial_bound kv p0;
    b1 ← partial_bound kv p1;
    ggml_assert (negb b0 && negb b1);;
    c0 ← vget (v_cells kv) s0;
    h0 ← vget (v_heads kv) s0;
    kv ← on_stream kv s1 (λ c _,
      c ← foldM (cp_cross_cell src dst c0) (reset c) (seq 0 (size c0));
      Ok (c, h0));
    Ok (KvCache (par kv) (v_heads kv) (v_cells kv) (seq_to_stream kv) (sc_info kv ++ [(s0, s1)])).

Definition seq_keep (kv : kv_cache) (seq_id : Z) : res kv_cache :=
  s ← stream_of kv seq_id;
  on_stream kv s (λ c h,
    r ← free_loop (λ c i, KvCells.seq_keep c i seq_id) c;
    Ok (r.1, lower_head (size c) h r.2)).

Definition in_seq_range (seq_id p0 p1 : Z) (c : llama_kv_cells) (i : nat) : res bool :=
  t ← pos_in c i p0 p1;
  if t : bool then seq_has c i seq_id else Ok false.

Definition seq_add (kv : kv_cache) (seq_id p0 p1 shift : Z) : res kv_cache :=
  s ← stream_of kv seq_id;
  ggml_assert (bool_decide (kv_n_pos (par kv) = 1));;
  if decide (shift = 0)%Z then Ok kv else
  let p0 := clip_p0 p0 in
  let p1 := clip_p1 p1 in
  if decide (p0 = p1) then Ok kv else
  on_stream kv s (λ c h,
    r ← free_loop (λ c i, t ← in_seq_range seq_id p0 p1 c i;
                          if t : bool then pos_add c i shift else Ok (c, false)) c;
    Ok (r.1, head_found (size c) h r.2)).

Definition seq_div (kv : kv_cache) (seq_id p0 p1 d : Z) : res kv_cache :=
  s ← stream_of kv seq_id;
  ggml_assert (bool_decide (kv_n_pos (par kv) = 1));;
  if decide (d = 1)%Z then Ok kv else
  let p0 := clip_p0 p0 in
  let p1 := clip_p1 p1 in
  if decide (p0 = p1) then Ok kv else
  on_stream kv s (λ c h,
    c ← cells_loop (λ c i, t ← in_seq_range seq_id p0 p1 c i;
                           if t : bool then pos_div c i d else Ok c) c;
    Ok (c, h)).

Definition seq_pos_min (kv : kv_cache) (seq_id : Z) : res Z :=
  s ← stream_of kv seq_id; c ← vget (v_cells kv) s; KvCells.seq_pos_min c seq_id.
Definition seq_pos_max (kv : kv_cache) (seq_id : Z) : res Z :=
  s ← stream_of kv seq_id; c ← vget (v_cells kv) s; KvCells.seq_pos_max c seq_id.

Definition get_can_shift (kv : kv_cache) : bool :=
  if arch_step35 (par kv) then false
  else if decide (1 < kv_n_pos (par kv)) then false else true.

Definition get_has_shift (kv : kv_cache) : res bool :=
  foldM (λ b s, c ← vget (v_cells kv) s; Ok (b || has_shift c)) false (seq 0 (n_stream (par kv))).

(** What [update] does to the cells once the K-shift graph has run. *)
Definition shift_applied (kv : kv_cache) : res kv_cache :=
  foldM (λ kv s, on_stream kv s (λ c h, Ok (reset_shift c, h))) kv (seq 0 (n_stream (par kv))).

(** ** Specification *)

(** The cells of each stream, without the derived indices. *)
Definition views (kv : kv_cache) : list (list cell) := view <$> v_cells kv.

(** A cell of a cache always belongs to a sequence unless it is empty. *)
Definition cell_owned (k : cell) : Prop := c_seq k = ∅ → c_pos k = (-1)%Z.

Record stream_ok (n : nat) (c : llama_kv_cells) (h : nat) : Prop := {
  so_wf    : wf c;
  so_size  : size c = n;
  so_owned : ∀ k, k ∈ view c → cell_owned k;
  so_head  : h ≤ n
}.

(** The invariant of the cache: [n] cells per stream. *)
Record kv_ok (n : nat) (kv : kv_cache) : Prop := {
  ko_streams : 1 ≤ n_stream (par kv);
  ko_heads   : length (v_heads kv) = n_stream (par kv);
  ko_cells   : length (v_cells kv) = n_stream (par kv);
  ko_map     : ∀ s t, seq_to_stream kv !! s = Some t → t < n_stream (par kv);
  ko_map_len : 1 ≤ length (seq_to_stream kv) ≤ MAX_SEQ;
  ko_stream  : ∀ s c h, v_cells kv !! s = Some c → v_heads kv !! s = Some h → stream_ok n c h
}.

(** The operations on one cell. *)
Definition in_range (p0 p1 : Z) (k : cell) : bool :=
  bool_decide (clip_p0 p0 ≤ c_pos k)%Z && bool_decide (c_pos k < clip_p1 p1)%Z.
Definition sel (s p0 p1 : Z) (k : cell) : bool := in_range p0 p1 k && bool_decide (s ∈ c_seq k).

Definition rm_cell (s p0 p1 : Z) (k : cell) : cell := if sel s p0 p1 k then cell_seq_rm s k else k.
Definition rm_all_cell (p0 p1 : Z) (k : cell) : cell := if in_range p0 p1 k then cell_none else k.
Definition copy_cell (src dst p0 p1 : Z) (k : cell) : cell :=
  if sel src p0 p1 k then cell_seq_add dst k else k.
Definition cross_cell (src dst : Z) (k : cell) : cell :=
  if decide (src ∈ c_seq k) then Cell (c_pos k) (c_ext k) (c_shift k) {[dst]} else cell_none.
Definition add_cell (s p0 p1 d : Z) (k : cell) : cell := if sel s p0 p1 k then cell_pos_add d k else k.
Definition div_cell (s p0 p1 d : Z) (k : cell) : cell := if sel s p0 p1 k then cell_pos_div d k else k.

(** The cells that an operation empties: the first of them is the new head. *)
Definition first_freed (f : cell → cell) (v : list cell) : nat :=
  default (length v) (fst <$> list_find (λ k, c_pos k ≠ (-1)%Z ∧ c_pos (f k) = (-1)%Z) v).

Definition valid_seq (kv : kv_cache) (s : Z) : Prop := (0 ≤ s < Z.of_nat (length (seq_to_stream kv)))%Z.
Definition stream_idx (kv : kv_cache) (s : Z) : nat := default 0 (seq_to_stream kv !! Z.to_nat s).

Definition same_rest (kv kv' : kv_cache) : Prop :=
  par kv' = par kv ∧ seq_to_stream kv' = seq_to_stream kv ∧ sc_info kv' = sc_info kv.

(** [kv'] is [kv] with the cells of stream [s] mapped by [f] and its head by [g]. *)
Definition stream_upd (kv : kv_cache) (s : nat) (f : list cell → list cell)
    (g : list cell → nat → nat) (kv' : kv_cache) : Prop :=
  same_rest kv kv' ∧ views kv' = alter f s (views kv) ∧
  v_heads kv' = alter (g (default [] (views kv !! s))) s (v_heads kv).

(** ... the same for every stream. *)
Definition streams_upd (kv : kv_cache) (f : list cell → list cell) (g : list cell → nat → nat)
    (kv' : kv_cache) : Prop :=
  same_rest kv kv' ∧ views kv' = f <$> views kv ∧ v_heads kv' = zip_with g (views kv) (v_heads kv).

(** The new head after some cells became empty. *)
Definition head_freed (f : cell → cell) (v : list cell) (h : nat) : nat :=
  lower_head (length v) h (first_freed f v).
Definition head_add (f : cell → cell) (v : list cell) (h : nat) : nat :=
  head_found (length v) h (first_freed f v).

(** * Lemmas *)

(** ** Loops over the cells of a stream *)
Lemma list_find_snoc {A} (P : A → Prop) `{!∀ x, Decision (P x)} (l : list A) x :
  fst <$> list_find P (l ++ [x]) =
  match fst <$> list_find P l with
  | Some i => Some i
  | None => if decide (P x) then Some (length l) else None
  end.
Proof.
  induction l as [|y l IH]; simpl; [by repeat case_decide|].
  destruct (decide (P y)); [done|].
  destruct (list_find P l) as [[i z]|], (list_find P (l ++ [x])) as [[j z']|]; simpl in *;
    try case_decide; naive_solver.
Qed.

Lemma first_freed_snoc f v k n :
  default n (fst <$> list_find (λ k, c_pos k ≠ (-1)%Z ∧ c_pos (f k) = (-1)%Z) (v ++ [k])) =
  let h := default n (fst <$> list_find (λ k, c_pos k ≠ (-1)%Z ∧ c_pos (f k) = (-1)%Z) v) in
  if decide (fst <$> list_find (λ k, c_pos k ≠ (-1)%Z ∧ c_pos (f k) = (-1)%Z) v = None) then
    if decide (c_pos k ≠ (-1)%Z ∧ c_pos (f k) = (-1)%Z) then length v else n
  else h.
Proof.
  rewrite list_find_snoc. destruct (fst <$> list_find _ v) eqn:E; simpl; [done|].
  by case_decide.
Qed.

Lemma find_lt (P : cell → Prop) `{!∀ x, Decision (P x)} v i :
  fst <$> list_find P v = Some i → i < length v.
Proof.
  intros E. apply fmap_Some in E as ([j k] & Hf & ->). apply list_find_Some in Hf as (Hf & _).
  by apply lookup_lt_Some in Hf.
Qed.

(** The cells after the first [i] iterations. *)
Lemma take_drop_insert {A} (f : A → A) (v : list A) i k : v !! i = Some k →
  <[i:=f k]> ((f <$> take i v) ++ drop i v) = (f <$> take (S i) v) ++ drop (S i) v.
Proof.
  intros Hk. pose proof (lookup_lt_Some _ _ _ Hk) as Hi. apply list_eq. intros j.
  destruct (decide (j = i)) as [->|Hne].
  - rewrite list_lookup_insert_eq by (rewrite length_app, length_fmap, length_take, length_drop; lia).
    rewrite lookup_app_l by (rewrite length_fmap, length_take; lia).
    rewrite list_lookup_fmap, lookup_take_lt, Hk by lia. done.
  - rewrite list_lookup_insert_ne by done. destruct (decide (j < i)).
    + rewrite !lookup_app_l by (rewrite length_fmap, length_take; lia).
      by rewrite !list_lookup_fmap, !lookup_take_lt by lia.
    + rewrite !lookup_app_r by (rewrite length_fmap, length_take; lia).
      rewrite !length_fmap, !length_take, !lookup_drop. f_equal. lia.
Qed.

Definition freed (f : cell → cell) (k : cell) : bool :=
  bool_decide (c_pos k ≠ (-1)%Z ∧ c_pos (f k) = (-1)%Z).

(** One iteration applies [f] to cell [i] and reports whether it became empty. *)
Definition cell_body (f : cell → cell) (P : cell → Prop)
    (body : llama_kv_cells → nat → res (llama_kv_cells * bool)) : Prop :=
  ∀ c i k, wf c → view c !! i = Some k → P k →
    okP (body c i) (λ r, wf r.1 ∧ view r.1 = <[i:=f k]> (view c) ∧ r.2 = freed f k).

Lemma free_loop_ok f P body c : cell_body f P body → wf c → (∀ k, k ∈ view c → P k) →
  okP (free_loop body c) (λ r, wf r.1 ∧ view r.1 = f <$> view c ∧ r.2 = first_freed f (view c)).
Proof.
  intros Hb Hw HP. unfold free_loop. set (v := view c) in *.
  assert (Hl : size c = length v) by (by rewrite <- length_view).
  eapply okP_mono; [apply (okP_for _ (λ i r, wf r.1 ∧ view r.1 = (f <$> take i v) ++ drop i v ∧
    r.2 = default (length v) (fst <$> list_find (λ k, c_pos k ≠ (-1)%Z ∧ c_pos (f k) = (-1)%Z) (take i v))))|].
  - cbn. split_and!; [done|done|]. by rewrite Hl.
  - intros i [c' nh] Hi (Hw' & Hv & Hn). cbn [fst snd] in *.
    destruct (lookup_lt_is_Some_2 v i) as [k Hk]; [lia|].
    assert (Hk' : view c' !! i = Some k).
    { rewrite Hv, lookup_app_r by (rewrite length_fmap, length_take; lia).
      rewrite length_fmap, length_take, lookup_drop. rewrite <- Hk. f_equal. lia. }
    eapply okP_bind; [apply (Hb c' i k); eauto using list_elem_of_lookup_2|].
    intros [c2 b] (Hw2 & Hv2 & ->). cbn [okP fst snd] in *.
    assert (Hs2 : size c2 = length v).
    { rewrite <- length_view, Hv2, length_insert, Hv by done.
      rewrite length_app, length_fmap, length_take, length_drop. lia. }
    split_and!; [done| |].
    + rewrite Hv2, Hv. by apply take_drop_insert.
    + rewrite (take_S_r _ _ _ Hk), first_freed_snoc, Hn, Hs2. cbn zeta.
      rewrite length_take, Nat.min_l by lia. unfold freed.
      destruct (fst <$> list_find _ (take i v)) as [m|] eqn:E; cbn [default from_option].
      * apply find_lt in E. rewrite length_take in E.
        rewrite (bool_decide_false (id m = length v)) by (unfold id; lia).
        by rewrite andb_false_r, decide_False by done.
      * rewrite (bool_decide_true (length v = length v)), andb_true_r by done. clear E.
        destruct (decide (None = None)); [|done]. case_bool_decide; case_decide; try done.
  - intros [c' nh]. cbn [fst snd]. rewrite Hl, firstn_all, drop_all, app_nil_r.
    intros (? & ? & ->). by split_and!.
Qed.

Lemma cells_loop_ok f P body c :
  (∀ c i k, wf c → view c !! i = Some k → P k →
     okP (body c i) (λ c', wf c' ∧ view c' = <[i:=f k]> (view c))) →
  wf c → (∀ k, k ∈ view c → P k) →
  okP (cells_loop body c) (λ c', wf c' ∧ view c' = f <$> view c).
Proof.
  intros Hb Hw HP. unfold cells_loop. set (v := view c) in *.
  assert (Hl : size c = length v) by (by rewrite <- length_view).
  eapply okP_mono; [apply (okP_for _ (λ i c', wf c' ∧ view c' = (f <$> take i v) ++ drop i v))|].
  - done.
  - intros i c' Hi (Hw' & Hv). destruct (lookup_lt_is_Some_2 v i) as [k Hk]; [lia|].
    assert (Hk' : view c' !! i = Some k).
    { rewrite Hv, lookup_app_r by (rewrite length_fmap, length_take; lia).
      rewrite length_fmap, length_take, lookup_drop. rewrite <- Hk. f_equal. lia. }
    eapply okP_mono; [apply (Hb c' i k); eauto using list_elem_of_lookup_2|].
    intros c2 (Hw2 & Hv2). split; [done|]. rewrite Hv2, Hv. by apply take_drop_insert.
  - intros c' [? Hv]. by rewrite Hl, firstn_all, drop_all, app_nil_r in Hv.
Qed.

(** ** One stream of the cache *)
Lemma views_lookup kv s : views kv !! s = view <$> v_cells kv !! s.
Proof. apply list_lookup_fmap. Qed.

Lemma stream_lookup n kv s : kv_ok n kv → s < n_stream (par kv) →
  ∃ c h, v_cells kv !! s = Some c ∧ v_heads kv !! s = Some h ∧ stream_ok n c h ∧
         views kv !! s = Some (view c) ∧ length (view c) = n.
Proof.
  intros Hk Hs. destruct (lookup_lt_is_Some_2 (v_cells kv) s) as [c Hc]; [by rewrite (ko_cells _ _ Hk)|].
  destruct (lookup_lt_is_Some_2 (v_heads kv) s) as [h Hh]; [by rewrite (ko_heads _ _ Hk)|].
  pose proof (ko_stream _ _ Hk _ _ _ Hc Hh) as Hso. exists c, h. split_and!; try done.
  - by rewrite views_lookup, Hc.
  - rewrite length_view by apply Hso. apply Hso.
Qed.

Lemma alter_insert_Some {A} (f : A → A) (l : list A) i x y :
  l !! i = Some x → y = f x → <[i:=y]> l = alter f i l.
Proof.
  revert i; induction l as [|z l IH]; intros [|i] H ->; simplify_eq/=; [done|]. f_equal. by apply IH.
Qed.

Lemma kv_ok_with_stream n kv s c h : kv_ok n kv → s < n_stream (par kv) → stream_ok n c h →
  kv_ok n (with_stream kv (<[s:=h]> (v_heads kv)) (<[s:=c]> (v_cells kv))).
Proof.
  intros [H1 H2 H3 H4 H5 H6] Hs Hso. split; cbn; rewrite ?length_insert; try done.
  intros t c' h' Hc Hh. destruct (decide (t = s)) as [->|Hne].
  - rewrite list_lookup_insert_eq in Hc by lia. rewrite list_lookup_insert_eq in Hh by lia. by simplify_eq.
  - rewrite list_lookup_insert_ne in Hc by done. rewrite list_lookup_insert_ne in Hh by done. eauto.
Qed.

Lemma on_stream_ok n kv s f (F : list cell → list cell) (G : list cell → nat → nat) :
  kv_ok n kv → s < n_stream (par kv) →
  (∀ c h, v_cells kv !! s = Some c → stream_ok n c h →
     okP (f c h) (λ r, stream_ok n r.1 r.2 ∧ view r.1 = F (view c) ∧ r.2 = G (view c) h)) →
  okP (on_stream kv s f) (λ kv', kv_ok n kv' ∧ stream_upd kv s F G kv').
Proof.
  intros Hk Hs Hf. destruct (stream_lookup _ _ _ Hk Hs) as (c & h & Hc & Hh & Hso & Hv & _).
  unfold on_stream. rewrite (vget_ok _ _ _ Hc), bind_Ok, (vget_ok _ _ _ Hh), bind_Ok.
  eapply okP_bind; [by apply Hf|]. intros [c' h']. cbn [fst snd]. intros (Hso' & Hvw & Hhd).
  rewrite (vset_ok (v_cells kv)), bind_Ok by (by rewrite (ko_cells _ _ Hk)).
  rewrite (vset_ok (v_heads kv)), bind_Ok by (by rewrite (ko_heads _ _ Hk)). cbn [okP].
  split; [by apply kv_ok_with_stream|]. split; [done|]. split.
  - unfold views, with_stream. cbn [v_cells]. rewrite list_fmap_insert.
    apply alter_insert_Some with (view c); [|done]. by rewrite list_lookup_fmap, Hc.
  - cbn [v_heads with_stream]. apply alter_insert_Some with h; [done|]. rewrite Hv. by rewrite Hhd.
Qed.

(** ... and every stream in turn. *)
Lemma on_streams_ok n kv f (F : list cell → list cell) (G : list cell → nat → nat) :
  kv_ok n kv →
  (∀ c h, stream_ok n c h →
     okP (f c h) (λ r, stream_ok n r.1 r.2 ∧ view r.1 = F (view c) ∧ r.2 = G (view c) h)) →
  okP (foldM (λ kv s, on_stream kv s f) kv (seq 0 (n_stream (par kv))))
    (λ kv', kv_ok n kv' ∧ streams_upd kv F G kv').
Proof.
  intros Hk Hf. set (vs := views kv). set (hs := v_heads kv).
  assert (Hlv : length vs = n_stream (par kv)) by (unfold vs, views; rewrite length_fmap; apply Hk).
  assert (Hlh : length hs = n_stream (par kv)) by apply Hk.
  eapply okP_mono; [apply (okP_for _ (λ i kv', kv_ok n kv' ∧ same_rest kv kv' ∧
    views kv' = (F <$> take i vs) ++ drop i vs ∧
    v_heads kv' = zip_with G (take i vs) (take i hs) ++ drop i hs))|].
  - split; [done|]. done.
  - intros i kv' Hi (Hk' & (E1 & E2 & E3) & Hv & Hh).
    destruct (lookup_lt_is_Some_2 vs i) as [v Ev]; [lia|].
    destruct (lookup_lt_is_Some_2 hs i) as [h Eh]; [lia|].
    eapply okP_mono; [apply (on_stream_ok n kv' i f F G); [done|by rewrite E1|intros; by apply Hf]|].
    intros kv2 (Hk2 & (F1 & F2 & F3) & Hv2 & Hh2). split; [done|]. split; [repeat split; congruence|].
    assert (Hvi : views kv' !! i = Some v).
    { rewrite Hv, lookup_app_r by (rewrite length_fmap, length_take; lia).
      rewrite length_fmap, length_take, lookup_drop, <- Ev. f_equal. lia. }
    assert (Hhi : v_heads kv' !! i = Some h).
    { rewrite Hh, lookup_app_r by (rewrite length_zip_with, !length_take; lia).
      rewrite length_zip_with, !length_take, lookup_drop, <- Eh. f_equal. lia. }
    split.
    + rewrite Hv2, <- (alter_insert_Some F _ _ v (F v)), Hv by done. by apply take_drop_insert.
    + rewrite Hh2, <- (alter_insert_Some _ _ _ h (G v h)), Hh by (rewrite ?Hvi; done).
      rewrite (take_S_r vs i v), (take_S_r hs i h) by done.
      rewrite zip_with_app by (rewrite !length_take; lia). rewrite (drop_S hs h i) by done. simpl.
      rewrite insert_app_r_alt by (rewrite length_zip_with, !length_take; lia).
      rewrite length_zip_with, !length_take. replace (i - _) with 0 by lia. simpl.
      by rewrite <- app_assoc.
  - intros kv' (Hk' & Hr & Hv & Hh). split; [done|]. split; [done|]. split.
    + by rewrite Hv, firstn_all2, drop_ge, app_nil_r by lia.
    + by rewrite Hh, !firstn_all2, drop_ge, app_nil_r by lia.
Qed.

(** ** The loops of the operations *)

(** A loop that frees cells, as the body of [on_stream]. *)
Lemma freeing_ok n f P body head G c h :
  cell_body f P body → (∀ k, cell_ok k → cell_owned k → P k → cell_owned (f k)) →
  stream_ok n c h → (∀ k, k ∈ view c → P k) →
  (∀ v m, length v = n → m ≤ n → first_freed f v ≤ n → head n m (first_freed f v) = G v m ∧ G v m ≤ n) →
  okP (r ← free_loop body c; Ok (r.1, head (size c) h r.2))
    (λ r, stream_ok n r.1 r.2 ∧ view r.1 = f <$> view c ∧ r.2 = G (view c) h).
Proof.
  intros Hb Ho [H1 H2 H3 H4] HP HG. eapply okP_bind; [by eapply free_loop_ok|].
  intros [c' nh] (Hw & Hv & ->). cbn [okP fst snd] in *.
  assert (Hl : length (view c) = n) by (rewrite length_view; done).
  assert (Hff : first_freed f (view c) ≤ n).
  { unfold first_freed. destruct (fst <$> list_find _ (view c)) as [m|] eqn:E; simpl; [|lia].
    apply find_lt in E. unfold id. lia. }
  rewrite H2. destruct (HG (view c) h Hl H4 Hff) as [-> Hle]. split_and!; try done. split; try done.
  - rewrite <- length_view, Hv, length_fmap by done. done.
  - intros k. rewrite Hv. intros (k0 & -> & Hk0)%list_elem_of_fmap.
    apply list_elem_of_lookup in Hk0 as [i Hi]. pose proof (list_elem_of_lookup_2 _ _ _ Hi).
    apply Ho; auto. apply (wf_cell c H1 i k0 Hi).
Qed.

Lemma mapping_ok n f P body c h :
  (∀ c i k, wf c → view c !! i = Some k → P k →
     okP (body c i) (λ c', wf c' ∧ view c' = <[i:=f k]> (view c))) →
  (∀ k, cell_ok k → cell_owned k → P k → cell_owned (f k)) →
  stream_ok n c h → (∀ k, k ∈ view c → P k) →
  okP (c ← cells_loop body c; Ok (c, h))
    (λ r, stream_ok n r.1 r.2 ∧ view r.1 = f <$> view c ∧ r.2 = h).
Proof.
  intros Hb Ho [H1 H2 H3 H4] HP. eapply okP_bind; [by eapply cells_loop_ok|].
  intros c' (Hw & Hv). cbn [okP fst snd]. split_and!; try done. split; try done.
  - rewrite <- length_view, Hv, length_fmap by done. by rewrite length_view.
  - intros k. rewrite Hv. intros (k0 & -> & Hk0)%list_elem_of_fmap.
    apply list_elem_of_lookup in Hk0 as [i Hi]. pose proof (list_elem_of_lookup_2 _ _ _ Hi).
    apply Ho; auto. apply (wf_cell c H1 i k0 Hi).
Qed.

Lemma insert_same_view c i k : view c !! i = Some k → view c = <[i:=k]> (view c).
Proof. intros. by rewrite list_insert_id. Qed.

Lemma clip_p0_nonneg p : (0 ≤ clip_p0 p)%Z.
Proof. unfold clip_p0. case_decide; lia. Qed.

Lemma in_range_pos p0 p1 k : in_range p0 p1 k = true → c_pos k ≠ (-1)%Z.
Proof.
  unfold in_range. intros [H%bool_decide_eq_true_1 _]%andb_true_iff.
  pose proof (clip_p0_nonneg p0). lia.
Qed.

Lemma sel_spec s p0 p1 k : sel s p0 p1 k = true ↔ in_range p0 p1 k = true ∧ s ∈ c_seq k.
Proof. unfold sel. by rewrite andb_true_iff, bool_decide_eq_true. Qed.

Lemma freed_same f k : f k = k → freed f k = false.
Proof. intros E. unfold freed. rewrite E. apply bool_decide_eq_false_2. naive_solver. Qed.

Lemma rm_cell_body s p0 p1 : (0 ≤ s < LLAMA_MAX_SEQ)%Z →
  cell_body (rm_cell s p0 p1) (λ _, True) (rm_in_range (clip_p0 p0) (clip_p1 p1) (rm_seq_cell s)).
Proof.
  intros Hs c i k Hw Hk _. unfold rm_in_range. rewrite (pos_in_ok c i k Hw Hk), bind_Ok.
  fold (in_range p0 p1 k). unfold rm_cell, freed.
  destruct (in_range p0 p1 k) eqn:Er.
  - unfold rm_seq_cell. rewrite (seq_has_ok c i k Hw Hk s Hs), bind_Ok. case_bool_decide as Hin.
    + assert (sel s p0 p1 k = true) as -> by by apply sel_spec.
      eapply okP_mono; [by apply seq_rm_ok|]. intros [c' b] [(Hw' & Hv & _) ->]. cbn.
      split_and!; [done|done|]. apply bool_decide_ext. pose proof (in_range_pos _ _ _ Er).
      unfold cell_seq_rm. case_decide; simpl; naive_solver.
    + assert (sel s p0 p1 k = false) as -> by (apply not_true_iff_false; rewrite sel_spec; naive_solver).
      cbn. split_and!; [done|by apply insert_same_view|]. symmetry. apply bool_decide_eq_false_2. naive_solver.
  - assert (sel s p0 p1 k = false) as -> by (unfold sel; by rewrite Er).
    cbn. split_and!; [done|by apply insert_same_view|]. symmetry. apply bool_decide_eq_false_2. naive_solver.
Qed.

Lemma rm_all_body p0 p1 :
  cell_body (rm_all_cell p0 p1) (λ _, True) (rm_in_range (clip_p0 p0) (clip_p1 p1) rm_any_cell).
Proof.
  intros c i k Hw Hk _. unfold rm_in_range. rewrite (pos_in_ok c i k Hw Hk), bind_Ok.
  fold (in_range p0 p1 k). unfold rm_all_cell, freed. destruct (in_range p0 p1 k) eqn:Er.
  - pose proof (in_range_pos _ _ _ Er) as Hp. unfold rm_any_cell.
    eapply okP_bind; [by apply (rm_ok c i k)|]. intros c' (Hw' & Hv & _). cbn.
    split_and!; [done|done|]. by rewrite bool_decide_true.
  - cbn. split_and!; [done|by apply insert_same_view|]. symmetry. apply bool_decide_eq_false_2. naive_solver.
Qed.

Lemma keep_body s : (0 ≤ s < LLAMA_MAX_SEQ)%Z →
  cell_body (cell_seq_keep s) cell_owned (λ c i, KvCells.seq_keep c i s).
Proof.
  intros Hs c i k Hw Hk Ho. eapply okP_mono; [by apply (seq_keep_ok c i s k)|].
  intros [c' b] [(Hw' & Hv & _) ->]. cbn. split_and!; [done|done|]. unfold freed. apply bool_decide_ext.
  pose proof (wf_cell _ Hw _ _ Hk) as Hok. unfold cell_seq_keep. repeat case_decide; simpl; try naive_solver.
  split; [|naive_solver]. intros _. split; [|done]. intros E.
  assert (∃ q, q ∈ c_seq k) as [q Hq] by (by apply set_choose_L).
  destruct (cell_ok_pos _ _ Hok Hq). lia.
Qed.

(** A shift that stays within the machine integers. *)
Definition shift_fits (s p0 p1 d : Z) (k : cell) : Prop :=
  sel s p0 p1 k = true → i32 (c_pos k + d) ∧ i32 (c_shift k + d).
Definition div_fits (s p0 p1 d : Z) (k : cell) : Prop :=
  sel s p0 p1 k = true → i32 (c_shift k + (c_pos k - Z.quot (c_pos k) d)).

Lemma in_seq_range_ok s p0 p1 c i k : (0 ≤ s < LLAMA_MAX_SEQ)%Z → wf c → view c !! i = Some k →
  in_seq_range s (clip_p0 p0) (clip_p1 p1) c i = Ok (sel s p0 p1 k).
Proof.
  intros Hs Hw Hk. unfold in_seq_range, sel. rewrite (pos_in_ok c i k Hw Hk), bind_Ok.
  fold (in_range p0 p1 k). destruct (in_range p0 p1 k); [|done]. by rewrite (seq_has_ok c i k Hw Hk s Hs).
Qed.

Lemma add_body s p0 p1 d : (0 ≤ s < LLAMA_MAX_SEQ)%Z →
  cell_body (add_cell s p0 p1 d) (shift_fits s p0 p1 d)
    (λ c i, t ← in_seq_range s (clip_p0 p0) (clip_p1 p1) c i;
            if t : bool then pos_add c i d else Ok (c, false)).
Proof.
  intros Hs c i k Hw Hk Hf. rewrite (in_seq_range_ok s p0 p1 c i k Hs Hw Hk), bind_Ok.
  unfold add_cell, freed. destruct (sel s p0 p1 k) eqn:Er.
  - destruct (Hf Er) as [H1 H2]. apply sel_spec in Er as [Er _]. pose proof (in_range_pos _ _ _ Er) as Hp.
    eapply okP_mono; [by apply (pos_add_ok c i d k)|].
    intros [c' b] [(Hw' & Hv & _) ->]. cbn. split_and!; [done|done|]. apply bool_decide_ext.
    unfold cell_pos_add. case_decide; simpl; [naive_solver|]. split; [lia|]. intros [_ ?]. lia.
  - cbn. split_and!; [done|by apply insert_same_view|]. symmetry. apply bool_decide_eq_false_2. naive_solver.
Qed.

(** ** The operations *)
Lemma stream_of_ok n kv s : kv_ok n kv → valid_seq kv s →
  stream_of kv s = Ok (stream_idx kv s) ∧ stream_idx kv s < n_stream (par kv) ∧ (0 ≤ s < LLAMA_MAX_SEQ)%Z.
Proof.
  intros Hk Hs. unfold valid_seq in Hs. unfold stream_of, stream_idx.
  rewrite ggml_assert_ok, bind_Ok, idx_ok, bind_Ok by (ok_side || lia).
  destruct (lookup_lt_is_Some_2 (seq_to_stream kv) (Z.to_nat s)) as [t Ht]; [lia|].
  rewrite (vget_ok _ _ _ Ht), Ht. split; [done|]. split; [by eapply ko_map|].
  pose proof (ko_map_len _ _ Hk). pose proof MAX_SEQ_eq. lia.
Qed.

Lemma lower_head_le n h m : h ≤ n → lower_head n h m ≤ n.
Proof. unfold lower_head. intros. destruct (bool_decide (m ≠ n)), (bool_decide_reflect (m < h)); simpl; lia. Qed.

Lemma rm_cell_owned s p0 p1 k : cell_owned k → cell_owned (rm_cell s p0 p1 k).
Proof.
  unfold cell_owned, rm_cell, cell_seq_rm. destruct (sel s p0 p1 k); [|done].
  case_decide; simpl; done.
Qed.

Lemma seq_rm_kv_ok n kv s p0 p1 : kv_ok n kv → s = (-1)%Z ∨ valid_seq kv s →
  okP (seq_rm kv s p0 p1) (λ r, r.2 = true ∧ kv_ok n r.1 ∧
    if decide (0 ≤ s)%Z
    then stream_upd kv (stream_idx kv s) (fmap (rm_cell s p0 p1)) (head_freed (rm_cell s p0 p1)) r.1
    else streams_upd kv (fmap (rm_all_cell p0 p1)) (head_freed (rm_all_cell p0 p1)) r.1).
Proof.
  intros Hk Hs. unfold seq_rm. rewrite ggml_assert_ok, bind_Ok.
  2:{ apply bool_decide_eq_true_2. unfold valid_seq in Hs. lia. }
  cbn zeta. case_decide as H0.
  - destruct Hs as [->|Hs]; [lia|]. destruct (stream_of_ok _ _ _ Hk Hs) as (E & Hlt & Hr).
    rewrite E, bind_Ok. eapply okP_bind; [apply (on_stream_ok n kv _ _ (fmap (rm_cell s p0 p1)) (head_freed (rm_cell s p0 p1))); try done|].
    + intros c h _ Hso. apply (freeing_ok n (rm_cell s p0 p1) (λ _, True) _ lower_head); try done.
      * by apply rm_cell_body.
      * intros k _ Ho _. by apply rm_cell_owned.
      * intros v m Hv Hm _. unfold head_freed. rewrite Hv. split; [done|]. by apply lower_head_le.
    + intros kv' [? ?]. cbn. done.
  - eapply okP_bind; [apply (on_streams_ok n kv _ (fmap (rm_all_cell p0 p1)) (head_freed (rm_all_cell p0 p1))); try done|].
    + intros c h Hso. apply (freeing_ok n (rm_all_cell p0 p1) (λ _, True) _ lower_head); try done.
      * by apply rm_all_body.
      * intros k _ Ho _. unfold rm_all_cell. by case_match.
      * intros v m Hv Hm _. unfold head_freed. rewrite Hv. split; [done|]. by apply lower_head_le.
    + intros kv' [? ?]. cbn. done.
Qed.

Lemma seq_keep_kv_ok n kv s : kv_ok n kv → valid_seq kv s →
  okP (seq_keep kv s) (λ kv', kv_ok n kv' ∧
    stream_upd kv (stream_idx kv s) (fmap (cell_seq_keep s)) (head_freed (cell_seq_keep s)) kv').
Proof.
  intros Hk Hs. unfold seq_keep. destruct (stream_of_ok _ _ _ Hk Hs) as (E & Hlt & Hr).
  rewrite E, bind_Ok. eapply on_stream_ok; try done. intros c h _ Hso.
  apply (freeing_ok n (cell_seq_keep s) cell_owned _ lower_head (head_freed (cell_seq_keep s))).
  - by apply keep_body.
  - intros k _ Ho _. unfold cell_seq_keep, cell_owned. repeat case_decide; simpl; try done; set_solver.
  - done.
  - apply Hso.
  - intros v m Hv Hm _. unfold head_freed. rewrite Hv. split; [done|]. by apply lower_head_le.
Qed.

Lemma add_cell_owned s p0 p1 d k : cell_owned k → cell_owned (add_cell s p0 p1 d k).
Proof.
  unfold cell_owned, add_cell, cell_pos_add. destruct (sel s p0 p1 k) eqn:E; [|done].
  apply sel_spec in E as [_ E]. case_decide; simpl; [done|]. set_solver.
Qed.

Lemma seq_add_kv_ok n kv s p0 p1 d : kv_ok n kv → valid_seq kv s → kv_n_pos (par kv) = 1 →
  (∀ k, k ∈ default [] (views kv !! stream_idx kv s) → shift_fits s p0 p1 d k) →
  okP (seq_add kv s p0 p1 d) (λ kv', kv_ok n kv' ∧
    if decide (d = 0 ∨ clip_p0 p0 = clip_p1 p1)%Z then kv' = kv else
    stream_upd kv (stream_idx kv s) (fmap (add_cell s p0 p1 d)) (head_add (add_cell s p0 p1 d)) kv').
Proof.
  intros Hk Hs Hnp Hfit. unfold seq_add. destruct (stream_of_ok _ _ _ Hk Hs) as (E & Hlt & Hr).
  rewrite E, bind_Ok, ggml_assert_ok, bind_Ok by ok_side. cbn zeta.
  destruct (decide (d = 0)%Z); [cbn [okP]; by rewrite decide_True by naive_solver|].
  destruct (decide (clip_p0 p0 = clip_p1 p1)); [cbn [okP]; by rewrite decide_True by naive_solver|].
  apply (okP_mono _ (λ kv', kv_ok n kv' ∧ stream_upd kv (stream_idx kv s) (fmap (add_cell s p0 p1 d)) (head_add (add_cell s p0 p1 d)) kv'));
    [|intros kv'; rewrite decide_False by naive_solver; done].
  eapply on_stream_ok; try done. intros c h Hc Hso.
  apply (freeing_ok n (add_cell s p0 p1 d) (shift_fits s p0 p1 d) _
           head_found (head_add (add_cell s p0 p1 d))).
  - by apply add_body.
  - intros k _ Ho _. by apply add_cell_owned.
  - done.
  - intros k Hin. apply Hfit. by rewrite views_lookup, Hc.
  - intros v m Hv Hm Hf. unfold head_add, head_found. rewrite Hv. split; [done|]. case_match; lia.
Qed.

Lemma seq_div_kv_ok n kv s p0 p1 d : kv_ok n kv → valid_seq kv s → kv_n_pos (par kv) = 1 → (0 < d)%Z →
  (∀ k, k ∈ default [] (views kv !! stream_idx kv s) → div_fits s p0 p1 d k) →
  okP (seq_div kv s p0 p1 d) (λ kv', kv_ok n kv' ∧
    if decide (d = 1 ∨ clip_p0 p0 = clip_p1 p1)%Z then kv' = kv else
    stream_upd kv (stream_idx kv s) (fmap (div_cell s p0 p1 d)) (λ _ h, h) kv').
Proof.
  intros Hk Hs Hnp Hd Hfit. unfold seq_div. destruct (stream_of_ok _ _ _ Hk Hs) as (E & Hlt & Hr).
  rewrite E, bind_Ok, ggml_assert_ok, bind_Ok by ok_side. cbn zeta.
  destruct (decide (d = 1)%Z); [cbn [okP]; by rewrite decide_True by naive_solver|].
  destruct (decide (clip_p0 p0 = clip_p1 p1)); [cbn [okP]; by rewrite decide_True by naive_solver|].
  apply (okP_mono _ (λ kv', kv_ok n kv' ∧ stream_upd kv (stream_idx kv s) (fmap (div_cell s p0 p1 d)) (λ _ h, h) kv'));
    [|intros kv'; rewrite decide_False by naive_solver; done].
  eapply on_stream_ok; try done. intros c h Hc Hso.
  apply (mapping_ok n (div_cell s p0 p1 d) (div_fits s p0 p1 d)).
  - intros c' i k Hw Hki Hf. rewrite (in_seq_range_ok s p0 p1 c' i k Hr Hw Hki), bind_Ok.
    unfold div_cell. destruct (sel s p0 p1 k) eqn:Er; [|split; [done|by apply insert_same_view]].
    specialize (Hf Er). apply sel_spec in Er as [Er _].
    eapply okP_mono; [apply (pos_div_ok c' i d k); try done; by eapply in_range_pos|]. by intros c2 (? & ? & _).
  - intros k _ Ho _. unfold div_cell, cell_owned in *. destruct (sel s p0 p1 k) eqn:Er; [|done].
    apply sel_spec in Er as [_ Er]. simpl. set_solver.
  - done.
  - intros k Hin. apply Hfit. by rewrite views_lookup, Hc.
Qed.

Lemma clear_kv_ok n kv : kv_ok n kv →
  okP (clear kv) (λ kv', kv_ok n kv' ∧
    streams_upd kv (λ v, replicate (length v) cell_none) (λ _ _, 0) kv').
Proof.
  intros Hk. unfold clear. apply on_streams_ok; [done|]. intros c h [H1 H2 H3 H4].
  cbn [okP fst snd]. destruct (cleared_ok (size c)) as [Hw Hv]. unfold reset. split_and!; try done.
  - split; try done; [| |lia].
    + unfold size, cleared; simpl. by rewrite length_replicate.
    + rewrite Hv. intros k [-> _]%elem_of_replicate. done.
  - by rewrite Hv, length_view.
Qed.

Lemma shift_applied_ok n kv : kv_ok n kv →
  okP (shift_applied kv) (λ kv', kv_ok n kv' ∧
    streams_upd kv (fmap (λ k, Cell (c_pos k) (c_ext k) 0 (c_seq k))) (λ _ h, h) kv').
Proof.
  intros Hk. unfold shift_applied. apply on_streams_ok; [done|]. intros c h [H1 H2 H3 H4].
  cbn [okP fst snd]. destruct (reset_shift_ok c H1) as (Hw & _ & Hv). split_and!; try done.
  split; try done. rewrite Hv. intros k (k0 & -> & Hk0)%list_elem_of_fmap. by apply (H3 _ Hk0).
Qed.

(** *** Copying a sequence *)
Definition no_dst (src dst p0 p1 : Z) (k : cell) : Prop := sel src p0 p1 k = true → dst ∉ c_seq k.

Lemma seq_cp_same_ok n kv src dst p0 p1 : kv_ok n kv → valid_seq kv src → valid_seq kv dst →
  stream_idx kv src = stream_idx kv dst →
  (∀ k, k ∈ default [] (views kv !! stream_idx kv src) → src ≠ dst → no_dst src dst p0 p1 k) →
  okP (seq_cp kv src dst p0 p1) (λ kv', kv_ok n kv' ∧
    if decide (src = dst) then kv' = kv else
    stream_upd kv (stream_idx kv src) (fmap (copy_cell src dst p0 p1)) (λ _ h, h) kv').
Proof.
  intros Hk Hs Hd Heq Hno. unfold seq_cp.
  destruct (stream_of_ok _ _ _ Hk Hs) as (E & Hlt & Hr). destruct (stream_of_ok _ _ _ Hk Hd) as (E' & _ & Hr').
  rewrite E, bind_Ok, E', bind_Ok, decide_True by done. cbn zeta.
  destruct (decide (src = dst)); [done|]. eapply on_stream_ok; try done. intros c h Hc Hso.
  apply (mapping_ok n (copy_cell src dst p0 p1) (no_dst src dst p0 p1)).
  - intros c' i k Hw Hki Hf. unfold cp_cell. rewrite (pos_in_ok c' i k Hw Hki), bind_Ok.
    fold (in_range p0 p1 k). unfold copy_cell, sel, no_dst, sel in *. destruct (in_range p0 p1 k) eqn:Er.
    + rewrite (seq_has_ok c' i k Hw Hki src Hr), bind_Ok. case_bool_decide.
      * simpl in *. specialize (Hf eq_refl). eapply okP_mono; [apply (seq_add_ok c' i dst k); try done; by eapply in_range_pos|].
        by intros c2 (? & ? & _).
      * split; [done|by apply insert_same_view].
    + split; [done|by apply insert_same_view].
  - intros k _ Ho _. unfold copy_cell, cell_owned in *. destruct (sel src p0 p1 k) eqn:Er; [|done].
    simpl. set_solver.
  - done.
  - intros k Hin. apply Hno; [|done]. by rewrite views_lookup, Hc.
Qed.

(** A cell can be copied to another stream: the position it had before the
    pending shifts is not negative, and nothing overflows. *)
Definition crossable (src : Z) (k : cell) : Prop :=
  src ∈ c_seq k → (0 ≤ c_pos k - c_shift k)%Z ∧ i32 (c_pos k - c_shift k) ∧ i32 (c_pos k) ∧ i32 (c_shift k).

Lemma cp_cross_cell_ok src dst c0 c i k :
  (0 ≤ src < LLAMA_MAX_SEQ)%Z → (0 ≤ dst < LLAMA_MAX_SEQ)%Z → wf c0 → wf c →
  view c0 !! i = Some k → view c !! i = Some cell_none → crossable src k →
  okP (cp_cross_cell src dst c0 c i) (λ c', wf c' ∧ view c' = <[i:=cross_cell src dst k]> (view c)).
Proof.
  intros Hs Hd Hw0 Hw Hk0 Hk Hcr. unfold cp_cross_cell.
  rewrite (seq_has_ok c0 i k Hw0 Hk0 src Hs), bind_Ok. unfold cross_cell. case_bool_decide as Hin.
  2:{ rewrite decide_False by done. split; [done|by apply insert_same_view]. }
  rewrite decide_True by done. destruct (Hcr Hin) as (Hp0 & Hi1 & Hi2 & Hi3). clear Hcr.
  assert (Hpos : (0 ≤ c_pos k)%Z) by (destruct (cell_ok_pos _ _ (wf_cell _ Hw0 _ _ Hk0) Hin); lia).
  rewrite (pos_get_ok c0 i k Hw0 Hk0), bind_Ok by lia. rewrite (get_shift_ok c0 i k Hw0 Hk0), bind_Ok by lia.
  rewrite (ext_get_ok c0 i k Hw0 Hk0), bind_Ok by lia.
  assert (Ep : (if decide (c_shift k ≠ 0)%Z
     then q ← i32_sub (c_pos k) (c_shift k); assert_ (bool_decide (0 ≤ q)%Z);; Ok q
     else Ok (c_pos k)) = Ok (c_pos k - c_shift k)%Z).
  { case_decide as Hz; [|f_equal; lia]. rewrite i32_sub_ok, bind_Ok by done. rewrite assert_ok by ok_side. done. }
  rewrite Ep, bind_Ok. pose proof (lookup_lt_Some _ _ _ Hk) as Hlt.
  eapply okP_bind; [by apply (pos_set_ok c i _ cell_none)|]. intros c1 (Hw1 & Hv1 & _).
  assert (Hk1 : view c1 !! i = Some (Cell (c_pos k - c_shift k) ext_reset 0 ∅)) by (by rewrite Hv1, list_lookup_insert_eq).
  eapply okP_bind; [apply (seq_add_ok c1 i dst _ Hw1 Hk1 Hd); simpl; [lia|set_solver]|].
  intros c2 (Hw2 & Hv2 & _). rewrite Hv1, list_insert_insert_eq in Hv2. unfold cell_seq_add in Hv2. simpl in Hv2.
  eapply (okP_bind _ _ (λ c3, wf c3 ∧ view c3 = <[i:=Cell (c_pos k) ext_reset (c_shift k) {[dst]}]> (view c))).
  - assert (Hk2 : view c2 !! i = Some (Cell (c_pos k - c_shift k) ext_reset 0 ({[dst]} ∪ ∅))) by (by rewrite Hv2, list_lookup_insert_eq).
    case_decide as Hz.
    + eapply okP_bind; [apply (pos_add_ok c2 i (c_shift k) _ Hw2 Hk2); simpl; [lia|unfold i32 in *; lia|unfold i32 in *; lia]|].
      intros [c3 b] [(Hw3 & Hv3 & _) _]. cbn. split; [done|]. rewrite Hv3, Hv2, list_insert_insert_eq. f_equal.
      unfold cell_pos_add; simpl. rewrite decide_False by lia. f_equal; [lia|set_solver].
    + cbn. split; [done|]. rewrite Hv2. f_equal. f_equal; [lia|lia|set_solver].
  - intros c3 [Hw3 Hv3]. assert (Hk3 : view c3 !! i = Some (Cell (c_pos k) ext_reset (c_shift k) {[dst]})) by (by rewrite Hv3, list_lookup_insert_eq).
    eapply okP_mono; [apply (ext_set_ok c3 i (c_ext k) _ Hw3 Hk3)|]. intros c4 (Hw4 & Hv4 & _). split; [done|].
    by rewrite Hv4, Hv3, list_insert_insert_eq.
Qed.

(** GGML_ASSERT(is_full): the range covers the whole buffer. *)
Definition full_bound (n : nat) (p : Z) : Prop := (p < INT32_MAX ∧ (p ≤ 0 ∨ Z.of_nat n ≤ p + 1))%Z.

Lemma get_size_ok n kv : kv_ok n kv → get_size kv = Ok n.
Proof.
  intros Hk. unfold get_size. pose proof (ko_map_len _ _ Hk).
  destruct (lookup_lt_is_Some_2 (seq_to_stream kv) 0) as [t Ht]; [lia|].
  rewrite (vget_ok _ _ _ Ht), bind_Ok.
  destruct (stream_lookup _ _ t Hk (ko_map _ _ Hk _ _ Ht)) as (c & h & Hc & _ & Hso & _).
  rewrite (vget_ok _ _ _ Hc), bind_Ok. by rewrite (so_size _ _ _ Hso).
Qed.

Lemma partial_bound_full n kv p : kv_ok n kv → full_bound n p → partial_bound kv p = Ok false.
Proof.
  intros Hk [Hp1 Hp2]. unfold partial_bound. case_decide; [|done].
  rewrite i32_add_ok, bind_Ok, (get_size_ok n), bind_Ok by (done || unfold INT32_MIN, INT32_MAX in *; lia).
  f_equal. apply bool_decide_eq_false_2. lia.
Qed.

Lemma cross_loop_ok n src dst c0 c : (0 ≤ src < LLAMA_MAX_SEQ)%Z → (0 ≤ dst < LLAMA_MAX_SEQ)%Z →
  wf c0 → wf c → length (view c0) = n → view c = replicate n cell_none →
  (∀ k, k ∈ view c0 → crossable src k) →
  okP (foldM (cp_cross_cell src dst c0) c (seq 0 (size c0)))
    (λ c', wf c' ∧ view c' = cross_cell src dst <$> view c0).
Proof.
  intros Hs Hd Hw0 Hw Hl Hv Hcr. rewrite <- (length_view c0), Hl by done.
  eapply okP_mono; [apply (okP_for _ (λ i c', wf c' ∧
    view c' = (cross_cell src dst <$> take i (view c0)) ++ replicate (n - i) cell_none))|].
  - by rewrite Nat.sub_0_r.
  - intros i c' Hi (Hw' & Hv'). destruct (lookup_lt_is_Some_2 (view c0) i) as [k Hk]; [lia|].
    assert (Hk' : view c' !! i = Some cell_none).
    { rewrite Hv', lookup_app_r by (rewrite length_fmap, length_take; lia).
      rewrite length_fmap, length_take. apply lookup_replicate_2. lia. }
    eapply okP_mono; [apply (cp_cross_cell_ok src dst c0 c' i k); eauto using list_elem_of_lookup_2|].
    intros c2 (Hw2 & Hv2). split; [done|]. rewrite Hv2, Hv'.
    rewrite insert_app_r_alt by (rewrite length_fmap, length_take; lia).
    rewrite length_fmap, length_take. replace (i - _) with 0 by lia.
    replace (n - i) with (S (n - S i)) by lia. cbn.
    by rewrite (take_S_r _ _ _ Hk), fmap_app, <- app_assoc.
  - intros c' [? Hv']. split; [done|]. rewrite Hv', firstn_all2, Nat.sub_diag by lia. by rewrite app_nil_r.
Qed.

Lemma seq_cp_cross_ok n kv src dst p0 p1 v0 h0 : kv_ok n kv → valid_seq kv src → valid_seq kv dst →
  stream_idx kv src ≠ stream_idx kv dst → full_bound n p0 → full_bound n p1 →
  views kv !! stream_idx kv src = Some v0 → v_heads kv !! stream_idx kv src = Some h0 →
  (∀ k, k ∈ v0 → crossable src k) →
  okP (seq_cp kv src dst p0 p1) (λ kv', kv_ok n kv' ∧
    par kv' = par kv ∧ seq_to_stream kv' = seq_to_stream kv ∧
    views kv' = <[stream_idx kv dst := cross_cell src dst <$> v0]> (views kv) ∧
    v_heads kv' = <[stream_idx kv dst := h0]> (v_heads kv) ∧
    sc_info kv' = sc_info kv ++ [(stream_idx kv src, stream_idx kv dst)]).
Proof.
  intros Hk Hs Hd Hne Hp0 Hp1 Hv0 Hh0 Hcr. unfold seq_cp.
  destruct (stream_of_ok _ _ _ Hk Hs) as (E & Hlt & Hr). destruct (stream_of_ok _ _ _ Hk Hd) as (E' & Hlt' & Hr').
  rewrite E, bind_Ok, E', bind_Ok, decide_False by done.
  rewrite !(partial_bound_full n), !bind_Ok by done. rewrite ggml_assert_ok, bind_Ok by done.
  destruct (stream_lookup _ _ _ Hk Hlt) as (c0 & h & Hc0 & Hh & Hso & Hv & Hl0).
  rewrite Hv in Hv0. rewrite Hh in Hh0. injection Hv0 as <-. injection Hh0 as ->.
  rewrite (vget_ok _ _ _ Hc0), bind_Ok, (vget_ok _ _ _ Hh), bind_Ok.
  eapply okP_bind; [apply (on_stream_ok n kv (stream_idx kv dst) _
    (λ _, cross_cell src dst <$> view c0) (λ _ _, h0)); [done..|]|].
  - intros c hd Hc Hsd. destruct (cleared_ok (size c)) as [Hwc Hvc].
    eapply okP_bind; [apply (cross_loop_ok n src dst c0 (reset c)); try done; [apply Hso|]|].
    { unfold reset. by rewrite Hvc, (so_size _ _ _ Hsd). }
    intros c' (Hw' & Hv'). cbn. split_and!; [|done..]. split; [done| | |apply Hso].
    + rewrite <- length_view, Hv', length_fmap; done.
    + rewrite Hv'. intros k (k0 & -> & _)%list_elem_of_fmap. unfold cross_cell, cell_owned.
      case_decide; simpl; [set_solver|done].
  - intros kv' (Hk' & (E1 & E2 & E3) & Ev & Eh). cbn. split_and!; try done.
    + destruct Hk' as [K1 K2 K3 K4 K5 K6]. by split.
    + change (views kv' = <[stream_idx kv dst := cross_cell src dst <$> view c0]> (views kv)). rewrite Ev.
      destruct (stream_lookup _ _ _ Hk Hlt') as (cd & hd & _ & _ & _ & Hvd & _).
      symmetry. by eapply alter_insert_Some.
    + rewrite Eh. destruct (stream_lookup _ _ _ Hk Hlt') as (cd & hd & _ & Hhd & _).
      symmetry. by eapply alter_insert_Some.
    + by rewrite E3.
Qed.

Lemma seq_pos_kv_ok n kv s v : kv_ok n kv → valid_seq kv s → views kv !! stream_idx kv s = Some v →
  okP (seq_pos_min kv s) (is_edge Z.le v s) ∧ okP (seq_pos_max kv s) (is_edge Z.ge v s).
Proof.
  intros Hk Hs Hv. destruct (stream_of_ok _ _ _ Hk Hs) as (E & Hlt & Hr).
  destruct (stream_lookup _ _ _ Hk Hlt) as (c & h & Hc & _ & Hso & Hv' & _). rewrite Hv in Hv'. simplify_eq.
  unfold seq_pos_min, seq_pos_max. rewrite E, !bind_Ok, (vget_ok _ _ _ Hc), !bind_Ok.
  split; [apply seq_pos_min_ok|apply seq_pos_max_ok]; try done; apply Hso.
Qed.

Lemma kv_new_ok p n : 1 ≤ n_stream p → n_stream p = 1 ∨ n_stream p = kv_n_seq_max p → n_stream p ≤ MAX_SEQ → n mod n_pad p = 0 →
  okP (kv_new p n) (λ kv, kv_ok n kv ∧ views kv = replicate (n_stream p) (replicate n cell_none)).
Proof.
  intros H1 H2 H3 H4. unfold kv_new. rewrite ggml_assert_ok, bind_Ok by ok_side. rewrite ggml_assert_ok, bind_Ok by ok_side. cbn [okP].
  destruct (cleared_ok n) as [Hw Hv]. split.
  - split; cbn; rewrite ?length_replicate; try done.
    + intros s t. case_decide; [intros [-> ?]%lookup_seq; lia|intros [-> ?]%lookup_replicate; lia].
    + case_decide; rewrite ?length_seq, ?length_replicate; [lia|]. pose proof MAX_SEQ_eq. unfold LLAMA_MAX_SEQ in *. lia.
    + intros s c h [-> _]%lookup_replicate [-> _]%lookup_replicate. split; [done| | |lia].
      * unfold size, resize, cleared; simpl. apply length_replicate.
      * unfold resize. rewrite Hv. intros k [-> _]%elem_of_replicate. done.
  - unfold views, resize. cbn. rewrite fmap_replicate. by rewrite Hv.
Qed.

Lemma get_has_shift_ok n kv : kv_ok n kv →
  get_has_shift kv = Ok (existsb has_shift (v_cells kv)).
Proof.
  intros Hk. unfold get_has_shift. pose proof (ko_cells _ _ Hk) as Hl.
  destruct (proj1 (okP_ok _ _) (okP_for (λ b s, c ← vget (v_cells kv) s; Ok (b || has_shift c))
    (λ i b, b = existsb has_shift (take i (v_cells kv))) false (n_stream (par kv)) eq_refl
    ltac:(intros i b Hi ->; destruct (lookup_lt_is_Some_2 (v_cells kv) i) as [c Hc]; [lia|];
          rewrite (vget_ok _ _ _ Hc); cbn; rewrite (take_S_r _ _ _ Hc), existsb_app; cbn;
          by rewrite orb_false_r))) as (b & -> & ->).
  by rewrite firstn_all2 by lia.
Qed.

(** ** The operations on the set of (sequence, position) pairs *)
Lemma count_map (f : cell → cell) (g : nat → nat) v s p s' p' :
  (∀ k, k ∈ v → holds s p (f k) = g (holds s' p' k)) → (∀ a b, g (a + b) = g a + g b) → g 0 = 0 →
  count_sp (f <$> v) s p = g (count_sp v s' p').
Proof.
  unfold count_sp. intros H Hg H0. induction v as [|k v IH]; [done|]. csimpl.
  rewrite (H k) by left. rewrite IH by set_solver. by rewrite Hg.
Qed.

(** [seq_rm]: the pairs of the sequence inside the range are gone, all others stay. *)
Lemma count_rm s p0 p1 v q p :
  count_sp (rm_cell s p0 p1 <$> v) q p =
  if decide (q = s ∧ clip_p0 p0 ≤ p < clip_p1 p1)%Z then 0 else count_sp v q p.
Proof.
  assert (Hc : ∀ k, holds q p (rm_cell s p0 p1 k) =
    if decide (q = s ∧ clip_p0 p0 ≤ p < clip_p1 p1)%Z then 0 else holds q p k).
  { intros k. unfold rm_cell. destruct (sel s p0 p1 k) eqn:E.
    - apply sel_spec in E as [E Hs]. unfold in_range in E.
      apply andb_true_iff in E as [E1%bool_decide_eq_true_1 E2%bool_decide_eq_true_1].
      unfold cell_seq_rm, holds. destruct (decide (c_seq k ∖ {[s]} = ∅)) as [E|E]; simpl;
        repeat case_decide; try done; exfalso; set_solver by lia.
    - assert (¬ (clip_p0 p0 ≤ c_pos k < clip_p1 p1 ∧ s ∈ c_seq k)%Z).
      { intros [? ?]. apply not_true_iff_false in E. apply E, sel_spec. split; [|done].
        unfold in_range. rewrite !bool_decide_true by lia. done. }
      unfold holds. repeat case_decide; naive_solver. }
  case_decide.
  - apply (count_map _ (λ _, 0)); try done. 
  - apply (count_map _ id); try done. 
Qed.

Lemma count_keep s v q p : 
  count_sp (cell_seq_keep s <$> v) q p = if decide (q = s) then count_sp v q p else 0.
Proof.
  assert (Hc : ∀ k, holds q p (cell_seq_keep s k) = if decide (q = s) then holds q p k else 0).
  { intros k. unfold cell_seq_keep, holds. repeat case_decide; simpl in *; set_solver. }
  case_decide.
  - apply (count_map _ id); try done.
  - apply (count_map _ (λ _, 0)); try done.
Qed.

(** * Concrete caches for the examples *)
Definition ex_put (c : llama_kv_cells) (i : nat) (p : Z) (ss : list Z) : res llama_kv_cells :=
  c ← pos_set c i p; foldM (λ c s, KvCells.seq_add c i s) c ss.

Lemma ex_put_wf c i p ss c' : wf c → (0 ≤ p)%Z → ex_put c i p ss = Ok c' → wf c'.
Proof.
  intros Hw Hp H. apply bind_Ok_inv in H as (c1 & H1 & H).
  eapply (foldM_inv (λ c s, KvCells.seq_add c i s) wf c1 ss); [|intros d s d' _ Hd E|exact H].
  - by eapply step_wf; [|by eapply step_pos_set].
  - eapply step_wf; [exact Hd|]. by eapply step_seq_add.
Qed.

(** four cells: positions 5, 6, 7 of the sequences {0}, {0, 1}, {1}, and an empty one *)
Definition ex_run : res llama_kv_cells :=
  c ← ex_put (resize 4) 0 5 [0%Z]; c ← ex_put c 1 6 [0%Z; 1%Z]; ex_put c 2 7 [1%Z].
Definition ex_cells : llama_kv_cells := match ex_run with Ok c => c | Err _ => resize 4 end.

Lemma ex_cells_wf : wf ex_cells.
Proof.
  unfold ex_cells. destruct ex_run as [c|] eqn:E; [|apply cleared_ok]. unfold ex_run in E.
  apply bind_Ok_inv in E as (c1 & E1 & E). apply bind_Ok_inv in E as (c2 & E2 & E3).
  apply (ex_put_wf c2 2 7 [1%Z] c); [|lia|exact E3]. apply (ex_put_wf c1 1 6 [0%Z; 1%Z] c2); [|lia|exact E2].
  apply (ex_put_wf (resize 4) 0 5 [0%Z] c1); [apply cleared_ok|lia|exact E1].
Qed.

Definition ex_view : list cell :=
  [Cell 5 ext_reset 0 {[0%Z]}; Cell 6 ext_reset 0 ({[1%Z]} ∪ {[0%Z]}); Cell 7 ext_reset 0 {[1%Z]}; cell_none].

Lemma ex_cells_view : view ex_cells = ex_view.
Proof. vm_compute. reflexivity. Qed.

Lemma ex_stream_ok : stream_ok 4 ex_cells 3.
Proof.
  split; [apply ex_cells_wf|by vm_compute| |lia]. rewrite ex_cells_view.
  intros k Hk. unfold cell_owned. repeat (apply elem_of_cons in Hk as [->|Hk]); simpl; try done; set_solver.
Qed.

Definition ex_params : kv_params := Params 1 2 1 0 SWA_NONE false 1 0 false.
Definition ex_kv : kv_cache := KvCache ex_params [3] [ex_cells] (replicate MAX_SEQ 0) [].

Definition ex_params2 : kv_params := Params 2 2 1 0 SWA_NONE false 1 0 false.
Definition ex_kv2 : kv_cache := KvCache ex_params2 [3; 0] [ex_cells; resize 4] [0; 1] [].

Lemma ex_kv_ok : kv_ok 4 ex_kv.
Proof.
  pose proof MAX_SEQ_eq as HM. unfold LLAMA_MAX_SEQ in HM.
  split; cbn; rewrite ?length_replicate; try lia.
  - intros s t [-> _]%lookup_replicate. lia.
  - intros [|s] c h Hc Hh; simplify_eq/=. apply ex_stream_ok.
Qed.

Lemma ex_kv2_ok : kv_ok 4 ex_kv2.
Proof.
  pose proof MAX_SEQ_eq as HM. unfold LLAMA_MAX_SEQ in HM.
  split; cbn; try lia.
  - intros [|[|s]] t Ht; simplify_eq/=; lia.
  - intros [|[|s]] c h Hc Hh; simplify_eq/=; [apply ex_stream_ok|].
    destruct (cleared_ok 4) as [Hw Hv]. split; [done|done| |lia].
    unfold resize. rewrite Hv. intros k [-> _]%elem_of_replicate. done.
Qed.

Lemma ex_valid s : (0 ≤ s < 256)%Z → valid_seq ex_kv s ∧ stream_idx ex_kv s = 0.
Proof.
  intros Hs. pose proof MAX_SEQ_eq as HM. unfold LLAMA_MAX_SEQ in HM. split.
  - unfold valid_seq. cbn. rewrite length_replicate. lia.
  - unfold stream_idx. cbn. by rewrite lookup_replicate_2 by lia.
Qed.

Lemma ex_all_cells (P : cell → Prop) : (∀ k, k ∈ ex_view → P k) →
  ∀ k, k ∈ default [] (views ex_kv !! stream_idx ex_kv 0) → P k.
Proof.
  intros H k Hk. rewrite (proj2 (ex_valid 0 ltac:(lia))) in Hk. apply H. rewrite <- ex_cells_view. exact Hk.
Qed.

(** The cells of the example, one by one. *)
Ltac each_cell Hk :=
  repeat (apply elem_of_cons in Hk as [->|Hk]); [..|by apply elem_of_nil in Hk].

(** * Properties *)

(** C32. [seq_rm] never fails on a valid sequence id; it removes the sequence (or,
    for -1, everything) from exactly the cells of its stream whose position is in
    the range, so that exactly those (sequence, position) pairs disappear, and the
    head moves to the first freed cell when that is below it. *)
Theorem kv_seq_rm_correct n kv s p0 p1 : kv_ok n kv → s = (-1)%Z ∨ valid_seq kv s →
  okP (seq_rm kv s p0 p1) (λ r, r.2 = true ∧ kv_ok n r.1 ∧
    if decide (0 ≤ s)%Z
    then stream_upd kv (stream_idx kv s) (fmap (rm_cell s p0 p1)) (head_freed (rm_cell s p0 p1)) r.1
    else streams_upd kv (fmap (rm_all_cell p0 p1)) (head_freed (rm_all_cell p0 p1)) r.1) ∧
  ∀ v q p, count_sp (rm_cell s p0 p1 <$> v) q p =
    if decide (q = s ∧ clip_p0 p0 ≤ p < clip_p1 p1)%Z then 0 else count_sp v q p.
Proof. intros. split; [by apply seq_rm_kv_ok|]. intros. apply count_rm. Qed.

Lemma kv_seq_rm_correct_witness :
  okP (seq_rm ex_kv 0 6 (-1)) (λ r, r.2 = true ∧ kv_ok 4 r.1 ∧
    stream_upd ex_kv (stream_idx ex_kv 0) (fmap (rm_cell 0 6 (-1))) (head_freed (rm_cell 0 6 (-1))) r.1) ∧
  ∀ v q p, count_sp (rm_cell 0 6 (-1) <$> v) q p =
    if decide (q = 0 ∧ clip_p0 6 ≤ p < clip_p1 (-1))%Z then 0 else count_sp v q p.
Proof.
  apply (kv_seq_rm_correct 4 ex_kv 0 6 (-1)); [apply ex_kv_ok|right; by apply ex_valid].
Defined.

(** [seq_cp] inside a stream adds the destination to exactly the cells of the
    source in the range (the destination must not be there already); between
    streams it replaces the destination stream by the cells of the source, with
    position, shift and extra position kept, and queues the buffer copy. *)
Theorem kv_seq_cp_correct n kv src dst p0 p1 : kv_ok n kv → valid_seq kv src → valid_seq kv dst →
  (stream_idx kv src = stream_idx kv dst →
   (∀ k, k ∈ default [] (views kv !! stream_idx kv src) → src ≠ dst → no_dst src dst p0 p1 k) →
   okP (seq_cp kv src dst p0 p1) (λ kv', kv_ok n kv' ∧
     if decide (src = dst) then kv' = kv else
     stream_upd kv (stream_idx kv src) (fmap (copy_cell src dst p0 p1)) (λ _ h, h) kv')) ∧
  (∀ v0 h0, stream_idx kv src ≠ stream_idx kv dst → full_bound n p0 → full_bound n p1 →
   views kv !! stream_idx kv src = Some v0 → v_heads kv !! stream_idx kv src = Some h0 →
   (∀ k, k ∈ v0 → crossable src k) →
   okP (seq_cp kv src dst p0 p1) (λ kv', kv_ok n kv' ∧
     par kv' = par kv ∧ seq_to_stream kv' = seq_to_stream kv ∧
     views kv' = <[stream_idx kv dst := cross_cell src dst <$> v0]> (views kv) ∧
     v_heads kv' = <[stream_idx kv dst := h0]> (v_heads kv) ∧
     sc_info kv' = sc_info kv ++ [(stream_idx kv src, stream_idx kv dst)])).
Proof. intros. split; intros; [by apply seq_cp_same_ok|by apply seq_cp_cross_ok]. Qed.

Lemma kv_seq_cp_correct_witness :
  okP (seq_cp ex_kv 0 2 (-1) (-1)) (λ kv', kv_ok 4 kv' ∧
    stream_upd ex_kv (stream_idx ex_kv 0) (fmap (copy_cell 0 2 (-1) (-1))) (λ _ h, h) kv') ∧
  okP (seq_cp ex_kv2 0 1 (-1) (-1)) (λ kv', kv_ok 4 kv' ∧
     par kv' = par ex_kv2 ∧ seq_to_stream kv' = seq_to_stream ex_kv2 ∧
     views kv' = <[stream_idx ex_kv2 1 := cross_cell 0 1 <$> view ex_cells]> (views ex_kv2) ∧
     v_heads kv' = <[stream_idx ex_kv2 1 := 3]> (v_heads ex_kv2) ∧
     sc_info kv' = sc_info ex_kv2 ++ [(stream_idx ex_kv2 0, stream_idx ex_kv2 1)]).
Proof.
  split.
  - apply (proj1 (kv_seq_cp_correct 4 ex_kv 0 2 (-1) (-1) ex_kv_ok
      (proj1 (ex_valid 0 ltac:(lia))) (proj1 (ex_valid 2 ltac:(lia))))).
    + by rewrite (proj2 (ex_valid 0 ltac:(lia))), (proj2 (ex_valid 2 ltac:(lia))).
    + apply (ex_all_cells (λ k, 0%Z ≠ 2%Z → no_dst 0 2 (-1) (-1) k)). intros k Hk _ _. each_cell Hk; simpl; set_solver.
  - apply (proj2 (kv_seq_cp_correct 4 ex_kv2 0 1 (-1) (-1) ex_kv2_ok ltac:(done) ltac:(done)) (view ex_cells) 3);
      [done|unfold full_bound, INT32_MAX; lia|unfold full_bound, INT32_MAX; lia|done|done|].
    rewrite ex_cells_view. intros k Hk. each_cell Hk; intros Hin; cbn; unfold i32, INT32_MIN, INT32_MAX; first [lia|simpl in Hin; set_solver].
Defined.

(** [seq_keep] leaves in the stream exactly the pairs of the sequence. *)
Theorem kv_seq_keep_correct n kv s : kv_ok n kv → valid_seq kv s →
  okP (seq_keep kv s) (λ kv', kv_ok n kv' ∧
    stream_upd kv (stream_idx kv s) (fmap (cell_seq_keep s)) (head_freed (cell_seq_keep s)) kv') ∧
  ∀ v q p, count_sp (cell_seq_keep s <$> v) q p = if decide (q = s) then count_sp v q p else 0.
Proof. intros. split; [by apply seq_keep_kv_ok|]. intros. apply count_keep. Qed.

Lemma kv_seq_keep_correct_witness :
  okP (seq_keep ex_kv 1) (λ kv', kv_ok 4 kv' ∧
    stream_upd ex_kv (stream_idx ex_kv 1) (fmap (cell_seq_keep 1)) (head_freed (cell_seq_keep 1)) kv') ∧
  ∀ v q p, count_sp (cell_seq_keep 1 <$> v) q p = if decide (q = 1%Z) then count_sp v q p else 0.
Proof. apply (kv_seq_keep_correct 4 ex_kv 1); [apply ex_kv_ok|by apply ex_valid]. Defined.

(** [seq_add] and [seq_div] change exactly the positions of the sequence's
    cells in the range (a position that becomes negative empties its cell) when
    nothing overflows; [seq_add] sets the head to the first freed cell or to 0. *)
Theorem kv_seq_shift_correct n kv s p0 p1 d : kv_ok n kv → valid_seq kv s → kv_n_pos (par kv) = 1 →
  ((∀ k, k ∈ default [] (views kv !! stream_idx kv s) → shift_fits s p0 p1 d k) →
   okP (seq_add kv s p0 p1 d) (λ kv', kv_ok n kv' ∧
     if decide (d = 0 ∨ clip_p0 p0 = clip_p1 p1)%Z then kv' = kv else
     stream_upd kv (stream_idx kv s) (fmap (add_cell s p0 p1 d)) (head_add (add_cell s p0 p1 d)) kv')) ∧
  ((0 < d)%Z → (∀ k, k ∈ default [] (views kv !! stream_idx kv s) → div_fits s p0 p1 d k) →
   okP (seq_div kv s p0 p1 d) (λ kv', kv_ok n kv' ∧
     if decide (d = 1 ∨ clip_p0 p0 = clip_p1 p1)%Z then kv' = kv else
     stream_upd kv (stream_idx kv s) (fmap (div_cell s p0 p1 d)) (λ _ h, h) kv')).
Proof. intros. split; intros; [by apply seq_add_kv_ok|by apply seq_div_kv_ok]. Qed.

Lemma ex_fits k : k ∈ ex_view → shift_fits 0 0 6 2 k ∧ div_fits 0 0 6 2 k.
Proof.
  intros Hk. each_cell Hk; unfold shift_fits, div_fits, i32, INT32_MIN, INT32_MAX; simpl c_pos; simpl c_shift;
    (split; intros _; [lia|]); change (Z.quot 5 2) with 2%Z; change (Z.quot 6 2) with 3%Z;
    change (Z.quot 7 2) with 3%Z; change (Z.quot (-1) 2) with 0%Z; lia.
Qed.

Lemma kv_seq_shift_correct_witness :
  okP (seq_add ex_kv 0 0 6 2) (λ kv', kv_ok 4 kv' ∧
     stream_upd ex_kv (stream_idx ex_kv 0) (fmap (add_cell 0 0 6 2)) (head_add (add_cell 0 0 6 2)) kv') ∧
  okP (seq_div ex_kv 0 0 6 2) (λ kv', kv_ok 4 kv' ∧
     stream_upd ex_kv (stream_idx ex_kv 0) (fmap (div_cell 0 0 6 2)) (λ _ h, h) kv').
Proof.
  destruct (kv_seq_shift_correct 4 ex_kv 0 0 6 2 ex_kv_ok (proj1 (ex_valid 0 ltac:(lia))) eq_refl) as [H1 H2].
  split.
  - eapply okP_mono; [apply H1|intros kv' [Hk Hx]; split; [exact Hk|exact Hx]].
    apply ex_all_cells. intros k Hk. by apply ex_fits.
  - eapply okP_mono; [apply H2; [lia|]|intros kv' [Hk Hx]; split; [exact Hk|exact Hx]].
    apply ex_all_cells. intros k Hk. by apply ex_fits.
Defined.
