(* ===== verification/KvSlot.v ===== *)
(** Placing micro-batches into the KV cache: slots, [find_slot], [apply_ubatch],
    [prepare], [init_batch] of src/llama-kv-cache.cpp, the batch context
    [llama_kv_cache_context], the SWA mask predicate of src/llama-hparams.h and
    the status codes of src/llama-memory.cpp.

    Counters of cells and tokens are naturals; positions are 32-bit integers. *)
From S2P Require Import Prelude KvCells Batch KvCache.

(** ** The sliding window *)


Definition is_masked_swa (n_swa : Z) (ty : llama_swa_type) (p0 p1 : Z) : res bool :=
  assert_ (bool_decide (0 ≤ p0)%Z && bool_decide (0 ≤ p1)%Z);;
  match ty with
  | SWA_NONE => Ok false
  | SWA_STANDARD => Ok (bool_decide (i32_of_u32 n_swa ≤ p1 - p0)%Z)
  | SWA_CHUNKED =>
      check DivByZero (bool_decide (n_swa ≠ 0)%Z);;
      Ok (bool_decide (p0 < Z.div p1 n_swa * n_swa)%Z)
  | SWA_SYMMETRIC =>
      let half := Z.quot (i32_of_u32 n_swa) 2 in
      let diff := (p1 - p0)%Z in
      Ok (bool_decide (diff < - half)%Z || bool_decide (half < diff)%Z)
  end.

(** ** Slots *)
Record slot_info := SlotInfo { si_s0 : nat; si_s1 : nat; strm : list nat; idxs : list (list nat) }.

#[export] Instance slot_info_eq_dec : EqDecision slot_info.
Proof. solve_decision. Defined.

(** return { }; *)
Definition slot_none : slot_info := SlotInfo 0 0 [] [].
Definition si_empty (si : slot_info) : bool := bool_decide (idxs si = []).
Definition si_n_stream (si : slot_info) : nat := length (strm si).
Definition si_size (si : slot_info) : res nat :=
  ggml_assert (bool_decide (length (idxs si) = length (strm si)));;
  ggml_assert (negb (si_empty si));;
  l ← vget (idxs si) 0; Ok (length l).
Definition si_head (si : slot_info) : res nat :=
  ggml_assert (bool_decide (length (idxs si) = 1));;
  l ← vget (idxs si) 0;
  ggml_assert (bool_decide (l ≠ []));;
  vget l 0.
Definition si_is_contiguous (si : slot_info) : bool :=
  match idxs si with
  | [] | [] :: _ => true
  | [h :: l] => bool_decide (h :: l = seq h (S (length l)))
  | _ => false
  end.

(** can we use this cell? either it is empty, or it is occupied by exactly one
    sequence whose window has moved past it *)
Definition can_use (kv : kv_cache) (c : llama_kv_cells) (i : nat) : res bool :=
  e ← is_empty c i;
  if e : bool then Ok true else
  k ← seq_count c i;
  if decide (k = 1) then
    p ← pos_get c i;
    q ← seq_get c i;
    mx ← KvCells.seq_pos_max c q;
    mx1 ← i32_add mx 1;
    is_masked_swa (n_swa (par kv)) (swa_type (par kv)) p mx1
  else Ok false.

(** the [for] loop over [n_test] cells; with [cont] it breaks at the first unusable cell *)
Fixpoint test_cells (kv : kv_cache) (c : llama_kv_cells) (cont : bool) (n_test head n_tested : nat)
    (found : list nat) : res (nat * nat * list nat) :=
  match n_test with
  | 0 => Ok (head, n_tested, found)
  | S m =>
      u ← can_use kv c head;
      if u : bool then test_cells kv c cont m (S head) (S n_tested) (found ++ [head])
      else if cont then Ok (S head, S n_tested, found)
      else test_cells kv c cont m (S head) (S n_tested) found
  end.

(** while (true): None when no slot is found *)
Fixpoint search (fuel : nat) (kv : kv_cache) (c : llama_kv_cells) (cont : bool)
    (n_tokens head n_tested : nat) (found : list nat) : res (option (list nat)) :=
  match fuel with
  | 0 => Err OutOfFuel
  | S fuel =>
      let n_test := if cont then n_tokens else 1 in
      if decide (size c < head + n_test) then
        search fuel kv c cont n_tokens 0 (n_tested + (size c - head)) found
      else
        r ← test_cells kv c cont n_test head n_tested found;
        let '(head, n_tested, found) := r in
        if decide (length found = n_tokens) then Ok (Some found)
        else
          let found := if cont then [] else found in
          if decide (size c ≤ n_tested) then Ok None
          else search fuel kv c cont n_tokens head n_tested found
  end.

(** the search in one stream *)
Definition find_in_stream (kv : kv_cache) (cont : bool) (n_tokens st : nat) : res (option (list nat)) :=
  c ← vget (v_cells kv) st;
  head ← vget (v_heads kv) st;
  let head := if decide (get_used c + 2 * n_tokens < head) then 0 else head in
  if decide (size c < n_tokens) then Ok None else
  search (2 * size c + 2) kv c cont n_tokens head 0 [].

Definition find_slot_step (kv : kv_cache) (u : llama_ubatch) (cont : bool) (n_tokens : nat)
    (acc : option slot_info) (s : nat) : res (option slot_info) :=
  match acc with
  | None => Ok None
  | Some r =>
      seq_id ← vget (u_seq_id_unq u) s;
      (if decide (1 < n_stream (par kv)) then
         k ← vget (u_n_seq_id u) (s * n_tokens);
         ggml_assert (bool_decide (k = 1)%Z);;
         ids ← vget (u_seq_id u) (s * n_tokens);
         q ← vget ids 0;
         ggml_assert (bool_decide (q = seq_id))
       else Ok tt);;
      j ← idx seq_id;
      st ← vget (seq_to_stream kv) j;
      f ← find_in_stream kv cont n_tokens st;
      match f with
      | None => Ok None
      | Some l => Ok (Some (SlotInfo (si_s0 r `min` st) (si_s1 r `max` st) (strm r ++ [st]) (idxs r ++ [l])))
      end
  end.

Definition find_slot (kv : kv_cache) (u : llama_ubatch) (cont : bool) : res slot_info :=
  nn ← (if decide (1 < n_stream (par kv)) then
          check DivByZero (bool_decide (n_seqs_unq u ≠ 0));;
          ggml_assert (bool_decide (n_tokens u `mod` n_seqs_unq u = 0));;
          Ok (n_seqs_unq u, n_tokens u `div` n_seqs_unq u)
        else Ok (1, n_tokens u));
  r ← foldM (find_slot_step kv u cont nn.2) (Some (SlotInfo MAX_SEQ 0 [] [])) (seq 0 nn.1);
  match r with
  | None => Ok slot_none
  | Some r => assert_ (bool_decide (si_s0 r ≤ si_s1 r));; Ok r
  end.

(** ** [apply_ubatch] *)

(** the cell that token [i] goes to is freed; remember what was overwritten *)
Definition evict (c : llama_kv_cells) (rmx : list Z) (i : nat) : res (llama_kv_cells * list Z) :=
  e ← is_empty c i;
  if negb e then
    k ← seq_count c i;
    assert_ (bool_decide (k = 1));;
    q ← seq_get c i;
    p ← pos_get c i;
    j ← idx q;
    old ← vget rmx j;
    rmx ← vset rmx j (Z.max old p);
    c ← rm c i;
    Ok (c, rmx)
  else Ok (c, rmx).

(** position, 2D position and sequences of token [i] *)
Definition put_token (u : llama_ubatch) (c : llama_kv_cells) (cell_i i : nat) : res llama_kv_cells :=
  p ← vget (u_pos u) i;
  c ← pos_set c cell_i p;
  c ← (if is_pos_2d u then
         x ← vget (u_pos u) (i + n_tokens u * 2);
         y ← vget (u_pos u) (i + n_tokens u);
         ext_set c cell_i (Ext x y)
       else Ok c);
  k ← vget (u_n_seq_id u) i;
  ids ← vget (u_seq_id u) i;
  foldM (λ c s, q ← vget ids s; KvCells.seq_add c cell_i q) c (seq 0 (Z.to_nat k)).

Definition apply_cell (si : slot_info) (sz : nat) (u : llama_ubatch) (s : nat)
    (st : kv_cache * list Z) (ii : nat) : res (kv_cache * list Z) :=
  let '(kv, rmx) := st in
  t ← vget (strm si) s;
  c ← vget (v_cells kv) t;
  row ← vget (idxs si) s;
  j ← vget row ii;
  r ← evict c rmx j;
  c ← put_token u r.1 j (s * sz + ii);
  cs ← vset (v_cells kv) t c;
  Ok (with_stream kv (v_heads kv) cs, r.2).

(** keep the invariant that a sequence occupies an interval of positions: purge
    what is below the positions that were overwritten *)
Definition purge (rmx : list Z) (kv : kv_cache) (s : nat) : res kv_cache :=
  r ← vget rmx s;
  if decide (r = -1)%Z then Ok kv else
  ggml_assert (bool_decide (s < length (seq_to_stream kv)));;
  t ← vget (seq_to_stream kv) s;
  c ← vget (v_cells kv) t;
  mn ← KvCells.seq_pos_min c (Z.of_nat s);
  if decide (mn ≤ r)%Z then
    r1 ← i32_add r 1;
    x ← seq_rm kv (Z.of_nat s) mn r1; Ok x.1
  else Ok kv.

Definition move_head (si : slot_info) (kv : kv_cache) (s : nat) : res kv_cache :=
  t ← vget (strm si) s;
  row ← vget (idxs si) s;
  l ← of_option OutOfRange (last row);
  hs ← vset (v_heads kv) t (S l);
  Ok (with_stream kv hs (v_cells kv)).

Definition apply_ubatch (kv : kv_cache) (si : slot_info) (u : llama_ubatch) : res kv_cache :=
  sz ← si_size si;
  assert_ (bool_decide (n_tokens u = si_n_stream si * sz));;
  st ← foldM (λ st s, foldM (apply_cell si sz u s) st (seq 0 sz))
         (kv, replicate MAX_SEQ (-1)%Z) (seq 0 (si_n_stream si));
  kv ← foldM (purge st.2) st.1 (seq 0 MAX_SEQ);
  foldM (move_head si) kv (seq 0 (si_n_stream si)).

(** ** [prepare] *)
Record saved_state := Saved { sv_sinfo : slot_info; sv_heads : list nat; sv_cells : list llama_kv_cells }.

(** the copies of the cells that the slot covers *)
Definition save_cells (kv : kv_cache) (si : slot_info) : res (list llama_kv_cells) :=
  mapM_res (λ s, t ← vget (strm si) s; c ← vget (v_cells kv) t; l ← vget (idxs si) s; cp_idxs c l)
    (seq 0 (si_n_stream si)).

(** one ubatch; the flag is [success] *)
Definition prepare_step (st : kv_cache * list slot_info * list saved_state * bool) (u : llama_ubatch) :
    res (kv_cache * list slot_info * list saved_state * bool) :=
  let '(kv, found, states, success) := st in
  if success : bool then
    si ← find_slot kv u false;
    if si_empty si then Ok (kv, found, states, false)
    else
      cs ← save_cells kv si;
      kv' ← apply_ubatch kv si u;
      Ok (kv', found ++ [si], states ++ [Saved si (v_heads kv) cs], true)
  else Ok st.

Definition restore_stream (sv : saved_state) (kv : kv_cache) (s : nat) : res kv_cache :=
  t ← vget (strm (sv_sinfo sv)) s;
  c ← vget (v_cells kv) t;
  l ← vget (idxs (sv_sinfo sv)) s;
  o ← vget (sv_cells sv) s;
  c ← set_idxs c l o;
  h ← vget (sv_heads sv) s;
  cs ← vset (v_cells kv) t c;
  hs ← vset (v_heads kv) t h;
  Ok (with_stream kv hs cs).

Definition restore (kv : kv_cache) (sv : saved_state) : res kv_cache :=
  foldM (restore_stream sv) kv (seq 0 (si_n_stream (sv_sinfo sv))).

Definition prepare (kv : kv_cache) (us : list llama_ubatch) : res (kv_cache * list slot_info) :=
  st ← foldM prepare_step (kv, [], [], true) us;
  let '(kv, found, states, success) := (st : kv_cache * list slot_info * list saved_state * bool) in
  ggml_assert (bool_decide (states ≠ []) || negb success);;
  kv ← foldM restore kv (rev states);
  Ok (kv, if success then found else []).

(** ** [llama_memory_status] *)
Inductive llama_memory_status := STATUS_SUCCESS | STATUS_NO_UPDATE | STATUS_FAILED_PREPARE | STATUS_FAILED_COMPUTE.

#[export] Instance status_eq_dec : EqDecision llama_memory_status.
Proof. solve_decision. Defined.

Definition status_is_fail (s : llama_memory_status) : bool :=
  match s with STATUS_SUCCESS | STATUS_NO_UPDATE => false | _ => true end.

Definition status_combine (s0 s1 : llama_memory_status) : llama_memory_status :=
  match s0 with
  | STATUS_FAILED_PREPARE | STATUS_FAILED_COMPUTE => s0
  | _ =>
      match s1 with
      | STATUS_FAILED_PREPARE | STATUS_FAILED_COMPUTE => s1
      | _ => if decide (s0 = STATUS_SUCCESS ∨ s1 = STATUS_SUCCESS) then STATUS_SUCCESS else STATUS_NO_UPDATE
      end
  end.

(** ** [llama_kv_cache_context]: the micro-batches with their slots *)
Record kv_context := KvContext {
  cx_status   : llama_memory_status;
  cx_sinfos   : list slot_info;
  cx_ubatches : list llama_ubatch;
  cx_i_cur    : nat;
  cx_n_kv     : nat;            (* 0 where the constructor leaves it unset *)
  cx_do_shift : bool;
  cx_sc_info  : list (nat * nat)
}.

Definition context_failed : kv_context := KvContext STATUS_FAILED_PREPARE [] [] 0 0 false [].

(** [init_full]: a dummy slot over all streams *)
Definition init_full (kv : kv_cache) : res kv_context :=
  n ← get_size kv;
  let ns := n_stream (par kv) in
  Ok (KvContext STATUS_SUCCESS [SlotInfo 0 (ns - 1) (seq 0 ns) (replicate ns [0])] [] 0 n false []).

(** [init_update]: the pending copies move into the context *)
Definition init_update (kv : kv_cache) : res (kv_cache * kv_context) :=
  do_shift ← get_has_shift kv;
  let st := if negb do_shift && bool_decide (sc_info kv = []) then STATUS_NO_UPDATE else STATUS_SUCCESS in
  Ok (KvCache (par kv) (v_heads kv) (v_cells kv) (seq_to_stream kv) [],
      KvContext st [] [] 0 0 do_shift (sc_info kv)).

(** What [update] meets outside the cache: the rope type of the model, and
    whether the graph of the K-shift could be allocated and computed. *)
Record update_env := UpdateEnv { rope_none : bool; shift_graph_ok : bool }.

(** [update]: the buffer copies that were performed, and [updated] *)
Definition update (env : update_env) (kv : kv_cache) (do_shift : bool) (sc : list (nat * nat)) :
    res (kv_cache * list (nat * nat) * bool) :=
  (if decide (sc = []) then Ok tt else assert_ (bool_decide (1 < n_stream (par kv))));;
  foldM (λ (_ : unit) p,
    assert_ (bool_decide (p.1 < n_stream (par kv)));;
    assert_ (bool_decide (p.2 < n_stream (par kv)));;
    assert_ (bool_decide (p.1 ≠ p.2))) tt sc;;
  if do_shift then
    ggml_assert (get_can_shift kv);;
    if negb (rope_none env) && negb (shift_graph_ok env) then Ok (kv, sc, false) else
    kv ← shift_applied kv;
    Ok (kv, sc, negb (rope_none env))
  else Ok (kv, sc, false).

(** while (true) { split; ... }, then [prepare]; what does not fit is reported by the status *)
Definition init_batch (kv : kv_cache) (balloc : llama_batch_allocr) (n_ubatch : nat) :
    res (kv_cache * llama_batch_allocr * kv_context) :=
  let balloc := split_reset balloc in
  r ← split_all (S (get_n_tokens balloc))
        (λ a, if decide (n_stream (par kv) = 1) then split_simple a n_ubatch else split_equal a n_ubatch true)
        balloc [];
  let '(balloc, us) := r in
  if decide (n_used balloc < get_n_tokens balloc) then Ok (kv, balloc, context_failed) else
  p ← prepare kv us;
  if decide (p.2 = []) then Ok (p.1, balloc, context_failed) else
  Ok (p.1, balloc, KvContext STATUS_SUCCESS p.2 us 0 0 false []).

(** n_kv: the cells that the attention has to look at, padded *)
Definition GGML_PAD (x n : Z) : Z := Z.land (u32 (x + n - 1)) (Z.lnot (n - 1)).

Definition get_n_kv (kv : kv_cache) (si : slot_info) : res nat :=
  let pad := Z.of_nat (n_pad (par kv) `max` 256) in
  foldM (λ r s, t ← vget (strm si) s; c ← vget (v_cells kv) t;
    Ok ((size c `min` Z.to_nat (pad `max` GGML_PAD (used_max_p1 c) pad)) `max` r)) 0 (seq 0 (si_n_stream si)).

Definition context_next (cx : kv_context) : res (kv_context * bool) :=
  assert_ (bool_decide (cx_status cx = STATUS_SUCCESS));;
  let i := S (cx_i_cur cx) in
  Ok (KvContext (cx_status cx) (cx_sinfos cx) (cx_ubatches cx) i (cx_n_kv cx) (cx_do_shift cx) (cx_sc_info cx),
      bool_decide (i < length (cx_ubatches cx))).

Definition context_apply (env : update_env) (kv : kv_cache) (cx : kv_context) : res (kv_cache * kv_context) :=
  assert_ (negb (status_is_fail (cx_status cx)));;
  if decide (cx_ubatches cx = []) then
    r ← update env kv (cx_do_shift cx) (cx_sc_info cx); Ok (r.1.1, cx)
  else
  si ← vget (cx_sinfos cx) (cx_i_cur cx);
  u ← vget (cx_ubatches cx) (cx_i_cur cx);
  kv ← apply_ubatch kv si u;
  n ← get_n_kv kv si;
  Ok (kv, KvContext (cx_status cx) (cx_sinfos cx) (cx_ubatches cx) (cx_i_cur cx) n (cx_do_shift cx) (cx_sc_info cx)).

(** The loop of the client ([llama_context::decode]): apply the current
    micro-batch, compute, move on to the next one. *)
Fixpoint run_context (fuel : nat) (env : update_env) (kv : kv_cache) (cx : kv_context) : res (kv_cache * kv_context) :=
  match fuel with
  | 0 => Err OutOfFuel
  | S fuel =>
      '(r : kv_cache * kv_context) ← context_apply env kv cx;
      n ← context_next r.2;
      if (n : kv_context * bool).2 then run_context fuel env r.1 n.1 else Ok (r.1, n.1)
  end.

(** * Lemmas *)

(** ** The search in one stream *)
Section search.
Context (kv : kv_cache) (c : llama_kv_cells) (ub : nat → bool).
Context (Hub : ∀ i, i < size c → can_use kv c i = Ok (ub i)).

(** The order in which the cells are tested: from the head to the end, then
    from the beginning to the head. *)
Definition visit (h : nat) : list nat := seq h (size c - h) ++ seq 0 h.

Lemma visit_length h : h ≤ size c → length (visit h) = size c.
Proof. intros. unfold visit. rewrite length_app, !length_seq. lia. Qed.

(** the head after [t] tests *)
Definition at_head (h t head : nat) : Prop :=
  (head = h + t ∧ h + t ≤ size c) ∨ (head + size c = h + t ∧ size c ≤ h + t).

Lemma visit_lookup h t head : h ≤ size c → t < size c → at_head h t head → head < size c →
  visit h !! t = Some head.
Proof.
  intros Hh Ht [[-> ?]|[E ?]] Hlt; unfold visit.
  - rewrite lookup_app_l by (rewrite length_seq; lia). by rewrite lookup_seq_lt by lia.
  - rewrite lookup_app_r by (rewrite length_seq; lia). rewrite length_seq, lookup_seq_lt by lia. f_equal. lia.
Qed.

Lemma filter_bool_snoc t x l : l !! t = Some x →
  filter (λ i, ub i = true) (take (S t) l) =
  filter (λ i, ub i = true) (take t l) ++ (if ub x then [x] else []).
Proof.
  intros Hx. rewrite (take_S_r _ _ _ Hx), filter_app, filter_cons, filter_nil.
  by destruct (ub x).
Qed.

(** Non-contiguous search: the first [n] usable cells in visiting order. *)
Lemma search_scattered n h fuel head t found :
  h ≤ size c → at_head h t head → head ≤ size c → t < size c →
  found = filter (λ i, ub i = true) (take t (visit h)) → length found < n →
  2 * (size c - t) + (if decide (size c < head + 1) then 2 else 1) ≤ fuel →
  okP (search fuel kv c false n head t found) (λ r,
    r = let f := filter (λ i, ub i = true) (visit h) in
        if decide (n ≤ length f) then Some (take n f) else None).
Proof.
  intros Hh. revert head t found; induction fuel as [|fuel IH]; intros head t found Hat Hle Ht -> Hn Hf;
    [case_decide; lia|].
  cbn [search]. destruct (decide (size c < head + 1)) as [Hw|Hw].
  - assert (head = size c) as -> by lia. rewrite Nat.sub_diag, Nat.add_0_r. apply IH; try done; [|lia|].
    + destruct Hat as [[? ?]|[? ?]]; [right; lia|right; lia].
    + destruct (decide (size c < 0 + 1)); lia.
  - assert (Hlt : head < size c) by lia.
    assert (Hv : visit h !! t = Some head) by by apply visit_lookup.
    cbn [test_cells]. rewrite (Hub head Hlt), bind_Ok.
    set (f := filter (λ i, ub i = true) (visit h)).
    assert (Hpre : filter (λ i, ub i = true) (take (S t) (visit h)) `prefix_of` f).
    { exists (filter (λ i, ub i = true) (drop (S t) (visit h))). rewrite <- filter_app. by rewrite take_drop. }
    pose proof (filter_bool_snoc t head _ Hv) as Hs. unfold f in *. clear f.
    destruct (ub head) eqn:Eu.
    + rewrite bind_Ok. cbn iota beta. rewrite <- Hs.
      assert (Hlen := f_equal length Hs). rewrite length_app in Hlen. cbn [length] in Hlen.
      destruct (decide (length (filter (λ i, ub i = true) (take (S t) (visit h))) = n)) as [Hfull|Hfull].
      * cbn [okP]. cbn zeta. destruct Hpre as [l' ->]. rewrite length_app. rewrite decide_True by lia.
        by rewrite <- Hfull, take_app_length.
      * destruct (decide (size c ≤ S t)) as [Hend|Hend].
        -- cbn [okP]. assert (Et : take (S t) (visit h) = visit h) by (apply firstn_all2; rewrite visit_length; lia).
           rewrite Et in Hlen, Hfull. rewrite decide_False by lia. done.
        -- apply IH; [destruct Hat as [[? ?]|[? ?]]; [left; lia|right; lia]|lia|lia|done| |].
           ++ lia.
           ++ destruct (decide (size c < S head + 1)); lia.
    + rewrite bind_Ok. cbn iota beta. rewrite app_nil_r in Hs. rewrite <- Hs.
      destruct (decide (length (filter (λ i, ub i = true) (take (S t) (visit h))) = n)) as [Hx|_]; [rewrite Hs in Hx; lia|].
      destruct (decide (size c ≤ S t)) as [Hend|Hend].
      * cbn [okP]. rewrite firstn_all2 in Hs by (rewrite visit_length; lia).
        rewrite decide_False; [done|]. rewrite Hs. lia.
      * apply IH; [destruct Hat as [[? ?]|[? ?]]; [left; lia|right; lia]|lia|lia|done| |].
        -- rewrite Hs. lia.
        -- destruct (decide (size c < S head + 1)); lia.
Qed.

(** Contiguous search. *)
Lemma test_cells_cont m head t :
  head + m ≤ size c → ∀ pre,
  okP (test_cells kv c true m head t pre) (λ r, ∃ k, r.2 = pre ++ seq head k ∧
    (∀ i, head ≤ i < head + k → ub i = true) ∧ r.1.1 ≤ size c ∧ r.1.2 + head = t + r.1.1 ∧
    ((k = m ∧ r.1.1 = head + m) ∨ (k < m ∧ r.1.1 = head + S k ∧ ub (head + k) = false))).
Proof.
  revert head t; induction m as [|m IH]; intros head t Hm pre; cbn [test_cells].
  - exists 0. rewrite app_nil_r. cbn. split_and!; try done; intros; lia.
  - rewrite (Hub head), bind_Ok by lia. destruct (ub head) eqn:Eu.
    + eapply okP_mono; [apply IH; lia|]. intros [[h' t'] l]. cbn [fst snd].
      intros (k & -> & Hu & Hh & Ht & Hk). exists (S k). rewrite <- app_assoc. simpl.
      split_and!; try done; try lia.
      * intros i Hi. destruct (decide (i = head)) as [->|]; [done|apply Hu; lia].
      * destruct Hk as [[-> ->]|(Hk & -> & Hb)]; [left; lia|right]. rewrite Nat.add_succ_comm in Hb. split_and!; [lia|lia|done].
    + exists 0. cbn. rewrite app_nil_r. split_and!; try done; try (intros; lia). right. rewrite Nat.add_0_r. split_and!; [lia|lia|done].
Qed.

(** [n] consecutive usable cells from [i] on *)
Definition window (n i : nat) : Prop := i + n ≤ size c ∧ ∀ j, i ≤ j < i + n → ub j = true.

(** Where no window starts after [t] tests from the head [h] on: on the cells that were passed. *)
Definition passed (n h t head i : nat) : Prop :=
  (head = h + t ∧ h ≤ i < head) ∨ (head + size c = h + t ∧ (h ≤ i ∨ i < head)) ∨ size c + size c ≤ h + t.

Lemma search_contiguous n h fuel head t :
  1 ≤ n ≤ size c → h ≤ size c → head ≤ size c → (head = h + t ∨ head + size c = h + t ∨ size c + size c ≤ h + t) →
  (∀ i, passed n h t head i → ¬ window n i) →
  2 * (size c - t) + (if decide (size c < head + n) then 2 else 1) ≤ fuel →
  okP (search fuel kv c true n head t []) (λ r, match r with
    | Some l => ∃ i, l = seq i n ∧ window n i
    | None => ∀ i, ¬ window n i
    end).
Proof.
  intros Hn Hh. revert head t; induction fuel as [|fuel IH]; intros head t Hle Hat Hno Hf; [case_decide; lia|].
  cbn [search]. destruct (decide (size c < head + n)) as [Hw|Hw].
  - apply IH; [lia|lia| |destruct (decide (size c < 0 + n)); lia].
    intros i Hi Hwin. destruct (decide (i < head)) as [Hlt|]; [|destruct Hwin; lia].
    apply (Hno i); [unfold passed in *; lia|done].
  - eapply okP_bind; [apply test_cells_cont; lia|]. intros [[h' t'] l]. cbn [fst snd].
    intros (k & -> & Hu & Hsz & Ht & Hk). simpl. rewrite length_seq. case_decide as Hkn.
    + subst k. exists head. split; [done|]. split; [lia|done].
    + destruct Hk as [[? _]|(Hk & -> & Hb)]; [done|].
      assert (Hno' : ∀ i, passed n h t' (head + S k) i → ¬ window n i).
      { intros i Hi Hwin. destruct (decide (head ≤ i ≤ head + k)) as [Hin|Hout].
        - rewrite (proj2 Hwin (head + k)) in Hb by lia. done.
        - apply (Hno i); [unfold passed in *; lia|done]. }
      case_decide as Hend.
      * intros i Hwin. apply (Hno' i); [|done]. destruct Hwin. unfold passed in *. lia.
      * apply IH; [lia|lia|done|]. destruct (decide (size c < head + S k + n)); lia.
Qed.
End search.

(** ** Which cells can be used *)

(** An empty cell, or a cell of a single sequence whose last position in the
    stream is so far ahead that the cell is outside the window. *)
Definition usable (kv : kv_cache) (v : list cell) (k : cell) : Prop :=
  c_pos k = (-1)%Z ∨
  c_pos k ≠ (-1)%Z ∧ ∃ q mx, c_seq k = {[q]} ∧ is_edge Z.ge v q mx ∧
    is_masked_swa (n_swa (par kv)) (swa_type (par kv)) (c_pos k) (mx + 1) = Ok true.

Definition swa_ok (kv : kv_cache) : Prop := swa_type (par kv) = SWA_CHUNKED → n_swa (par kv) ≠ 0%Z.
Definition small_pos (v : list cell) : Prop := ∀ k, k ∈ v → (c_pos k < INT32_MAX)%Z.

Lemma is_masked_swa_total kv p0 p1 : swa_ok kv → (0 ≤ p0)%Z → (0 ≤ p1)%Z →
  ∃ b, is_masked_swa (n_swa (par kv)) (swa_type (par kv)) p0 p1 = Ok b.
Proof.
  intros Hs H0 H1. unfold is_masked_swa. rewrite assert_ok, bind_Ok by (by rewrite !bool_decide_true).
  destruct (swa_type (par kv)) eqn:E; eauto.
  rewrite check_ok, bind_Ok by (apply bool_decide_eq_true_2, Hs, E). eauto.
Qed.

Lemma is_edge_unique v q m1 m2 : is_edge Z.ge v q m1 → is_edge Z.ge v q m2 → m1 = m2.
Proof.
  intros [[-> H1]|[(k1 & K1 & S1 & E1) L1]] [[-> H2]|[(k2 & K2 & S2 & E2) L2]]; try done.
  - by destruct (H1 _ K2 S2).
  - by destruct (H2 _ K1 S1).
  - pose proof (L1 _ K2 S2). pose proof (L2 _ K1 S1). lia.
Qed.

Lemma can_use_ok kv n c h i k : swa_ok kv → stream_ok n c h → small_pos (view c) →
  view c !! i = Some k → okP (can_use kv c i) (λ b, b = true ↔ usable kv (view c) k).
Proof.
  intros Hswa Hso Hsm Hk. pose proof (so_wf _ _ _ Hso) as Hw. unfold can_use.
  rewrite (is_empty_ok c i k Hw Hk), bind_Ok. unfold usable.
  case_bool_decide as He; [cbn; split; [by left|done]|].
  rewrite (seq_count_ok c i k Hw Hk), bind_Ok by done. case_decide as H1.
  - rewrite (pos_get_ok c i k Hw Hk), bind_Ok by done.
    destruct (seq_get_ok c i k Hw Hk H1) as (q & Eq & Hq). rewrite Eq, bind_Ok.
    pose proof (list_elem_of_lookup_2 _ _ _ Hk) as Hin.
    destruct (cell_ok_pos k q (wf_cell _ Hw _ _ Hk)) as [Hqr Hp]; [rewrite Hq; set_solver|].
    eapply okP_bind; [by apply seq_pos_max_ok|]. intros mx Hmx.
    assert (Hmr : (0 ≤ mx < INT32_MAX)%Z).
    { destruct Hmx as [[_ Hno]|[(k' & K1 & K2 & <-) _]].
      - destruct (Hno k Hin). rewrite Hq. set_solver.
      - split; [|by apply Hsm]. apply list_elem_of_lookup in K1 as [j Hj].
        destruct (cell_ok_pos k' q (wf_cell _ Hw _ _ Hj) K2). lia. }
    rewrite i32_add_ok, bind_Ok by (unfold INT32_MIN in *; lia).
    destruct (is_masked_swa_total kv (c_pos k) (mx + 1)) as [b Hb]; [done|lia|lia|]. rewrite Hb. cbn.
    split.
    + intros ->. right. split; [done|]. eauto 10.
    + intros [?|(_ & q' & mx' & Hq' & Hmx' & Hm)]; [done|].
      assert (q' = q) as -> by set_solver. rewrite (is_edge_unique _ _ _ _ Hmx' Hmx) in Hm. congruence.
  - cbn. split; [done|]. intros [?|(_ & q & mx & Hq & _)]; [done|]. rewrite Hq, size_singleton in H1. done.
Qed.

(** ** [find_slot] *)

(** [l] is a list of [m] different usable cells of the stream. *)
Definition good_slot (kv : kv_cache) (v : list cell) (m : nat) (l : list nat) : Prop :=
  length l = m ∧ NoDup l ∧ ∀ i, i ∈ l → ∃ k, v !! i = Some k ∧ usable kv v k.
(** The stream does not have [m] usable cells, with [cont] not [m] consecutive ones. *)
Definition no_slot (kv : kv_cache) (v : list cell) (cont : bool) (m : nat) : Prop :=
  ∀ l, good_slot kv v m l → ¬ (cont = true → ∃ i, l = seq i m).

Lemma visit_perm c h : h ≤ size c → visit c h ≡ₚ seq 0 (size c).
Proof.
  intros Hh. unfold visit. rewrite Permutation_app_comm.
  replace (size c) with (h + (size c - h)) at 2 by lia. by rewrite seq_app.
Qed.

Lemma find_in_stream_ok kv n cont m st c h : kv_ok n kv → swa_ok kv → 1 ≤ m →
  v_cells kv !! st = Some c → v_heads kv !! st = Some h → small_pos (view c) →
  okP (find_in_stream kv cont m st) (λ r, match r with
    | Some l => good_slot kv (view c) m l ∧ (cont = true → ∃ i, l = seq i m)
    | None => no_slot kv (view c) cont m
    end).
Proof.
  intros Hk Hswa Hm Hc Hh Hsm. pose proof (ko_stream _ _ Hk _ _ _ Hc Hh) as Hso.
  pose proof (so_wf _ _ _ Hso) as Hw. pose proof (so_size _ _ _ Hso) as Hsz.
  unfold find_in_stream. rewrite (vget_ok _ _ _ Hc), bind_Ok, (vget_ok _ _ _ Hh), bind_Ok. cbn zeta.
  set (h' := if decide (get_used c + 2 * m < h) then 0 else h).
  assert (Hh' : h' ≤ size c) by (unfold h'; pose proof (so_head _ _ _ Hso); case_decide; lia).
  set (ub := λ i, match can_use kv c i with Ok b => b | Err _ => false end).
  assert (Hub : ∀ i, i < size c → can_use kv c i = Ok (ub i)).
  { intros i Hi. destruct (view_Some c i Hw Hi) as [k Hk']. unfold ub.
    pose proof (can_use_ok kv n c h i k Hswa Hso Hsm Hk') as H. by destruct (can_use kv c i). }
  assert (Hus : ∀ i, (i < size c ∧ ub i = true) ↔ ∃ k, view c !! i = Some k ∧ usable kv (view c) k).
  { intros i. split.
    - intros [Hi Hu]. destruct (view_Some c i Hw Hi) as [k Hk']. exists k. split; [done|].
      pose proof (can_use_ok kv n c h i k Hswa Hso Hsm Hk') as H. rewrite (Hub i Hi) in H. by apply H.
    - intros (k & Hk' & Hu). pose proof (view_lt _ _ _ Hw Hk') as Hi. split; [done|].
      pose proof (can_use_ok kv n c h i k Hswa Hso Hsm Hk') as H. rewrite (Hub i Hi) in H. by apply H. }
  assert (Hcount : ∀ l, NoDup l → (∀ i, i ∈ l → ∃ k, view c !! i = Some k ∧ usable kv (view c) k) →
    length l ≤ length (filter (λ i, ub i = true) (visit c h'))).
  { intros l Hnd Hl. apply NoDup_incl_length; [by apply NoDup_ListNoDup|].
    intros i Hi%list_elem_of_In. apply list_elem_of_In, list_elem_of_filter. destruct (proj2 (Hus i) (Hl i Hi)) as [Hi' Hu].
    split; [done|]. rewrite visit_perm by done. apply elem_of_seq. lia. }
  case_decide as Hbig.
  { cbn [okP]. intros l (Hlen & Hnd & Hl) _. specialize (Hcount l Hnd Hl).
    rewrite length_filter, visit_length in Hcount by done. lia. }
  destruct cont.
  - eapply okP_mono; [apply (search_contiguous kv c ub Hub m h' (2 * size c + 2) h' 0); [lia|done|done|lia| |case_decide; lia]|].
    { unfold passed. intros i [[_ ?]|[[? ?]|?]]; lia. }
    intros [l|] Hr.
    + destruct Hr as (i & -> & Hi & Hu). split; [|eauto].
      split_and!; [by rewrite length_seq|apply NoDup_seq|]. intros j Hj. apply Hus. apply elem_of_seq in Hj. split; [lia|apply Hu; lia].
    + intros l (_ & _ & Hl) Hc'. destruct (Hc' eq_refl) as [i ->]. apply (Hr i). split.
      * assert (Hlast : i + (m - 1) ∈ seq i m) by (apply elem_of_seq; lia). destruct (proj2 (Hus _) (Hl _ Hlast)). lia.
      * intros j Hj. apply (proj2 (Hus j)), Hl, elem_of_seq. lia.
  - eapply okP_mono; [apply (search_scattered kv c ub Hub m h' (2 * size c + 2) h' 0 []);
      [done|left; lia|done|lia|done|simpl; lia|case_decide; lia]|].
    intros r ->. cbn zeta. case_decide as Hen.
    + split; [|done]. split_and!; [by rewrite length_take_le| |].
      * eapply sublist_NoDup; [|apply sublist_take]. apply NoDup_filter. rewrite visit_perm by done. apply NoDup_seq.
      * intros i Hi. apply Hus. apply elem_of_take in Hi as (j & Hj & _).
        apply list_elem_of_lookup_2, list_elem_of_filter in Hj as [Hu Hj].
        split; [|done]. rewrite visit_perm in Hj by done. apply elem_of_seq in Hj. lia.
    + intros l (Hlen & Hnd & Hl) _. specialize (Hcount l Hnd Hl). lia.
Qed.

(** What [ubatch_add] and the two splitters give to the cache. *)
Definition slots (kv : kv_cache) (u : llama_ubatch) : nat :=
  if decide (1 < n_stream (par kv)) then n_seqs_unq u else 1.
Definition per_slot (kv : kv_cache) (u : llama_ubatch) : nat := n_tokens u `div` slots kv u.

Record ubatch_fits (kv : kv_cache) (u : llama_ubatch) : Prop := {
  uf_n     : 1 ≤ per_slot kv u;
  uf_slots : 1 ≤ slots kv u;
  uf_split : n_tokens u = slots kv u * per_slot kv u;
  uf_pos   : ∀ i, i < n_tokens u → ∃ p, u_pos u !! i = Some p ∧ (0 ≤ p < INT32_MAX)%Z;
  uf_2d    : is_pos_2d u = true → n_tokens u * 3 ≤ length (u_pos u);
  uf_ids   : ∀ i, i < n_tokens u → ∃ k ids, u_n_seq_id u !! i = Some k ∧ u_seq_id u !! i = Some ids ∧
               Z.to_nat k = length ids ∧ ids ≠ [] ∧ NoDup ids ∧ ∀ q, q ∈ ids → valid_seq kv q;
  uf_unq   : ∀ s, s < slots kv u → ∃ q, u_seq_id_unq u !! s = Some q ∧ valid_seq kv q;
  uf_multi : 1 < n_stream (par kv) → ∀ s i q, s < slots kv u → i < per_slot kv u →
               u_seq_id_unq u !! s = Some q →
               u_seq_id u !! (s * per_slot kv u + i) = Some [q] ∧
               u_n_seq_id u !! (s * per_slot kv u + i) = Some 1%Z;
  uf_diff  : ∀ s t q r, s < slots kv u → t < slots kv u → s ≠ t →
               u_seq_id_unq u !! s = Some q → u_seq_id_unq u !! t = Some r →
               stream_idx kv q ≠ stream_idx kv r
}.

(** The slot holds, for every sequence of the micro-batch, its stream and
    enough different usable cells. *)
Record slot_ok (kv : kv_cache) (u : llama_ubatch) (cont : bool) (si : slot_info) (m : nat) : Prop := {
  sl_strm : length (strm si) = m;
  sl_idxs : length (idxs si) = m;
  sl_rows : ∀ s, s < m → ∃ q l v, u_seq_id_unq u !! s = Some q ∧ strm si !! s = Some (stream_idx kv q) ∧
              idxs si !! s = Some l ∧ views kv !! stream_idx kv q = Some v ∧
              good_slot kv v (per_slot kv u) l ∧ (cont = true → ∃ i, l = seq i (per_slot kv u))
}.

Definition kv_small (kv : kv_cache) : Prop := ∀ s v, views kv !! s = Some v → small_pos v.

Lemma seq_stream n kv q : kv_ok n kv → valid_seq kv q →
  (0 ≤ q)%Z ∧ seq_to_stream kv !! Z.to_nat q = Some (stream_idx kv q) ∧ stream_idx kv q < n_stream (par kv) ∧
  Z.to_nat q < MAX_SEQ.
Proof.
  intros Hk Hq. unfold valid_seq in Hq. unfold stream_idx. pose proof (ko_map_len _ _ Hk).
  destruct (lookup_lt_is_Some_2 (seq_to_stream kv) (Z.to_nat q)) as [t Ht]; [lia|].
  rewrite Ht. split_and!; [lia|done|by eapply ko_map|lia].
Qed.

Definition find_inv (kv : kv_cache) (u : llama_ubatch) (cont : bool) (j : nat) (acc : option slot_info) : Prop :=
  match acc with
  | Some r => slot_ok kv u cont r j ∧ (j = 0 ∨ si_s0 r ≤ si_s1 r)
  | None => ∃ s q v, s < slots kv u ∧ u_seq_id_unq u !! s = Some q ∧
              views kv !! stream_idx kv q = Some v ∧ no_slot kv v cont (per_slot kv u)
  end.

Lemma find_slot_step_ok kv n u cont j acc : kv_ok n kv → swa_ok kv → kv_small kv → ubatch_fits kv u →
  n_stream (par kv) ≤ MAX_SEQ → j < slots kv u → find_inv kv u cont j acc →
  okP (find_slot_step kv u cont (per_slot kv u) acc j) (find_inv kv u cont (S j)).
Proof.
  intros Hk Hswa Hsm Hu HM Hj HI. destruct acc as [r|]; [|done]. destruct HI as [[H1 H2 H3] H4].
  cbn [find_slot_step]. destruct (uf_unq _ _ Hu j Hj) as (q & Hq & Hqv).
  destruct (seq_stream _ _ _ Hk Hqv) as (Hq0 & Hst & Hlt & _).
  rewrite (vget_ok _ _ _ Hq), bind_Ok.
  eapply (okP_bind _ _ (λ _, True)).
  { destruct (decide (1 < n_stream (par kv))) as [Hmul|]; [|done].
    destruct (uf_multi _ _ Hu Hmul j 0 q Hj (uf_n _ _ Hu) Hq) as [E1 E2]. rewrite Nat.add_0_r in E1, E2.
    rewrite (vget_ok _ _ _ E2), bind_Ok, ggml_assert_ok, bind_Ok, (vget_ok _ _ _ E1), bind_Ok by done.
    rewrite (vget_ok [q] 0 q), bind_Ok by done. by rewrite ggml_assert_ok by ok_side. }
  intros _ _. rewrite idx_ok, bind_Ok, (vget_ok _ _ _ Hst), bind_Ok by done.
  destruct (stream_lookup _ _ _ Hk Hlt) as (c & h & Hc & Hh & Hso & Hv & _).
  eapply okP_bind; [apply (find_in_stream_ok kv n cont (per_slot kv u) _ c h); try done|].
  { apply Hu. } { by apply (Hsm _ _ Hv). }
  intros [l|] Hl; cbn [okP find_inv].
  - destruct Hl as [Hg Hcont]. split; [|right; simpl; lia].
    split; cbn; rewrite ?length_app; cbn; [lia|lia|].
    intros s Hs. destruct (decide (s = j)) as [->|Hne].
    + exists q, l, (view c). rewrite !lookup_app_r by lia. rewrite H1, H2, Nat.sub_diag. cbn. split_and!; try done; apply Hg.
    + destruct (H3 s) as (q' & l' & v' & F1 & F2 & F3 & F4 & F5 & F6); [lia|].
      exists q', l', v'. rewrite !lookup_app_l by lia. split_and!; try done; apply F5.
  - exists j, q, (view c). done.
Qed.

Lemma find_slot_ok kv n u cont : kv_ok n kv → swa_ok kv → kv_small kv → ubatch_fits kv u →
  n_stream (par kv) ≤ MAX_SEQ →
  okP (find_slot kv u cont) (λ si,
    if si_empty si then find_inv kv u cont (slots kv u) None else slot_ok kv u cont si (slots kv u)).
Proof.
  intros Hk Hswa Hsm Hu HM. unfold find_slot.
  assert (E : (if decide (1 < n_stream (par kv)) then
          check DivByZero (bool_decide (n_seqs_unq u ≠ 0));;
          ggml_assert (bool_decide (n_tokens u `mod` n_seqs_unq u = 0));;
          Ok (n_seqs_unq u, n_tokens u `div` n_seqs_unq u)
        else Ok (1, n_tokens u)) = Ok (slots kv u, per_slot kv u)).
  { pose proof (uf_slots _ _ Hu) as Hs. pose proof (uf_split _ _ Hu) as Hsp. unfold per_slot, slots in *.
    case_decide.
    - rewrite check_ok, bind_Ok by (apply bool_decide_eq_true_2; lia).
      rewrite ggml_assert_ok, bind_Ok; [done|]. apply bool_decide_eq_true_2.
      rewrite Hsp, Nat.mul_comm. apply Nat.Div0.mod_mul.
    - by rewrite Nat.div_1_r. }
  rewrite E, bind_Ok. cbn [fst snd].
  eapply okP_bind; [apply (okP_for _ (find_inv kv u cont))|].
  - split; [|by left]. split; [done|done|intros; lia].
  - intros j acc Hj HI. by eapply find_slot_step_ok.
  - intros [r|] HI; cbn [find_inv] in HI.
    + destruct HI as [Hso Hs]. pose proof (uf_slots _ _ Hu). rewrite assert_ok, bind_Ok by (apply bool_decide_eq_true_2; lia).
      cbn [okP]. unfold si_empty. rewrite bool_decide_false; [done|]. intros E0.
      pose proof (sl_idxs _ _ _ _ _ Hso) as Hl. rewrite E0 in Hl. simpl in Hl. lia.
    + done.
Qed.

(** ** [apply_ubatch] *)

Definition evictable (k : cell) : Prop := c_pos k = (-1)%Z ∨ base.size (c_seq k) = 1.

Lemma usable_evictable kv v k : usable kv v k → evictable k.
Proof. intros [?|(_ & q & mx & E & _)]; [by left|right]. by rewrite E, size_singleton. Qed.

(** the cell after [evict], and the cell of token [i] *)
Definition emptied (k : cell) : cell := if decide (c_pos k = -1)%Z then k else cell_none.
Definition token_cell (u : llama_ubatch) (i : nat) (k : cell) : cell :=
  Cell (default 0%Z (u_pos u !! i))
    (if is_pos_2d u then Ext (default 0%Z (u_pos u !! (i + n_tokens u * 2)))
                             (default 0%Z (u_pos u !! (i + n_tokens u))) else c_ext k)
    0 (list_to_set (default [] (u_seq_id u !! i))).

(** the largest position of sequence [q] among the overwritten cells, or -1 *)
Definition overwritten (ks : list cell) (q : nat) : Z :=
  foldl (λ m k, if decide (c_pos k ≠ (-1)%Z ∧ Z.of_nat q ∈ c_seq k) then Z.max m (c_pos k) else m) (-1)%Z ks.
Definition rm_tracks (ks : list cell) (rmx : list Z) : Prop :=
  length rmx = MAX_SEQ ∧ ∀ q m, rmx !! q = Some m → m = overwritten ks q.

Lemma overwritten_snoc ks k q : overwritten (ks ++ [k]) q =
  if decide (c_pos k ≠ (-1)%Z ∧ Z.of_nat q ∈ c_seq k) then Z.max (overwritten ks q) (c_pos k)
  else overwritten ks q.
Proof. unfold overwritten. by rewrite foldl_snoc. Qed.

Lemma evict_ok c j k ks rmx : wf c → view c !! j = Some k → evictable k → rm_tracks ks rmx →
  okP (evict c rmx j) (λ r, wf r.1 ∧ view r.1 = <[j:=emptied k]> (view c) ∧ has_shift r.1 = has_shift c ∧
    rm_tracks (ks ++ [k]) r.2).
Proof.
  intros Hw Hk He [Hl Hr]. unfold evict, emptied. rewrite (is_empty_ok c j k Hw Hk), bind_Ok.
  case_bool_decide as Hp; cbn [negb].
  - rewrite decide_True by done. cbn. split_and!; [done|by apply insert_same_view|done|]. split; [done|].
    intros q m Hq. rewrite overwritten_snoc, decide_False by naive_solver. by apply Hr.
  - destruct He as [?|H1]; [done|]. rewrite decide_False by done.
    rewrite (seq_count_ok c j k Hw Hk), bind_Ok, assert_ok, bind_Ok by (done || ok_side).
    destruct (seq_get_ok c j k Hw Hk H1) as (q & Eq & Hq). rewrite Eq, bind_Ok.
    rewrite (pos_get_ok c j k Hw Hk), bind_Ok by done.
    destruct (cell_ok_pos k q (wf_cell _ Hw _ _ Hk)) as [Hqr Hpos]; [rewrite Hq; set_solver|].
    pose proof MAX_SEQ_eq as HM. rewrite idx_ok, bind_Ok by lia.
    destruct (lookup_lt_is_Some_2 rmx (Z.to_nat q)) as [old Ho]; [lia|].
    rewrite (vget_ok _ _ _ Ho), bind_Ok, vset_ok, bind_Ok by lia.
    eapply okP_bind; [by apply (rm_ok c j k)|]. intros c' (Hw' & Hv & Hsh'). cbn. split_and!; [done|done|done|].
    split; [by rewrite length_insert|]. intros q' m Hm. rewrite overwritten_snoc.
    destruct (decide (q' = Z.to_nat q)) as [->|Hne].
    + rewrite list_lookup_insert_eq in Hm by lia. injection Hm as <-.
      rewrite decide_True by (rewrite Z2Nat.id by lia; set_solver). by rewrite (Hr _ _ Ho).
    + rewrite list_lookup_insert_ne in Hm by done. rewrite decide_False; [by apply Hr|].
      intros [_ Hin]. rewrite Hq in Hin. apply elem_of_singleton in Hin. lia.
Qed.

Lemma add_seqs_ok c j ids k : wf c → view c !! j = Some k → c_pos k ≠ (-1)%Z → c_seq k = ∅ → NoDup ids →
  (∀ q, q ∈ ids → (0 ≤ q < LLAMA_MAX_SEQ)%Z) →
  okP (foldM (λ c s, q ← vget ids s; KvCells.seq_add c j q) c (seq 0 (length ids)))
    (λ c', wf c' ∧ view c' = <[j:=Cell (c_pos k) (c_ext k) (c_shift k) (list_to_set ids)]> (view c) ∧
      has_shift c' = has_shift c).
Proof.
  intros Hw Hk Hp Hs Hnd Hr. pose proof (lookup_lt_Some _ _ _ Hk) as Hj.
  eapply okP_mono; [apply (okP_for _ (λ i c', wf c' ∧
    view c' = <[j:=Cell (c_pos k) (c_ext k) (c_shift k) (list_to_set (take i ids))]> (view c) ∧
    has_shift c' = has_shift c))|].
  - split_and!; [done| |done]. rewrite list_insert_id; [done|]. rewrite Hk. destruct k; simpl in *. by subst.
  - intros i c' Hi (Hw' & Hv & Hsh'). destruct (lookup_lt_is_Some_2 ids i Hi) as [q Hq].
    rewrite (vget_ok _ _ _ Hq), bind_Ok.
    assert (Hk' : view c' !! j = Some (Cell (c_pos k) (c_ext k) (c_shift k) (list_to_set (take i ids))))
      by (by rewrite Hv, list_lookup_insert_eq).
    eapply okP_mono; [apply (seq_add_ok c' j q _ Hw' Hk'); cbn|].
    + apply Hr. eauto using list_elem_of_lookup_2.
    + done.
    + rewrite elem_of_list_to_set. intros (i' & Hi' & Hlt)%elem_of_take.
      rewrite (NoDup_lookup ids i' i q) in Hlt by done. lia.
    + intros c2 (Hw2 & Hv2 & Hsh2). split_and!; [done| |congruence]. rewrite Hv2, Hv, list_insert_insert_eq. f_equal.
      unfold cell_seq_add. cbn. f_equal. rewrite (take_S_r _ _ _ Hq), list_to_set_app_L. set_solver.
  - intros c' (Hw' & Hv & Hsh'). split_and!; [done| |done]. by rewrite Hv, firstn_all.
Qed.

Lemma put_token_ok kv u c j i k : ubatch_fits kv u → (∀ q, valid_seq kv q → (0 ≤ q < LLAMA_MAX_SEQ)%Z) →
  i < n_tokens u → wf c → view c !! j = Some k → c_pos k = (-1)%Z →
  okP (put_token u c j i) (λ c', wf c' ∧ view c' = <[j:=token_cell u i k]> (view c) ∧ has_shift c' = has_shift c).
Proof.
  intros Hu Hval Hi Hw Hk Hp. pose proof (lookup_lt_Some _ _ _ Hk) as Hj.
  destruct (uf_pos _ _ Hu i Hi) as (p & Hpi & Hpr). destruct (uf_ids _ _ Hu i Hi) as (m & ids & E1 & E2 & E3 & E4 & E5 & E6).
  unfold put_token. rewrite (vget_ok _ _ _ Hpi), bind_Ok.
  eapply okP_bind; [apply (pos_set_ok c j p k); try done; lia|]. intros c1 (Hw1 & Hv1 & Hsh1).
  assert (Hk1 : view c1 !! j = Some (Cell p (c_ext k) 0 ∅)) by (by rewrite Hv1, list_lookup_insert_eq).
  eapply (okP_bind _ _ (λ c2, wf c2 ∧ view c2 = <[j:=Cell p (c_ext (token_cell u i k)) 0 ∅]> (view c) ∧ has_shift c2 = has_shift c)).
  { unfold token_cell. cbn. destruct (is_pos_2d u) eqn:E2d; [|by cbn].
    pose proof (uf_2d _ _ Hu E2d) as Hlen.
    destruct (lookup_lt_is_Some_2 (u_pos u) (i + n_tokens u * 2)) as [x Hx]; [lia|].
    destruct (lookup_lt_is_Some_2 (u_pos u) (i + n_tokens u)) as [y Hy]; [lia|].
    rewrite (vget_ok _ _ _ Hx), bind_Ok, (vget_ok _ _ _ Hy), bind_Ok, Hx, Hy. cbn.
    eapply okP_mono; [apply (ext_set_ok c1 j (Ext x y) _ Hw1 Hk1)|]. intros c2 (Hw2 & Hv2 & Hsh2).
    split_and!; [done| |congruence]. by rewrite Hv2, Hv1, list_insert_insert_eq. }
  intros c2 (Hw2 & Hv2 & Hsh2). rewrite (vget_ok _ _ _ E1), bind_Ok, (vget_ok _ _ _ E2), bind_Ok, E3.
  assert (Hk2 : view c2 !! j = Some (Cell p (c_ext (token_cell u i k)) 0 ∅)) by (by rewrite Hv2, list_lookup_insert_eq).
  eapply okP_mono; [apply (add_seqs_ok c2 j ids _ Hw2 Hk2); cbn; try done; [lia|auto]|].
  intros c3 (Hw3 & Hv3 & Hsh3). split_and!; [done| |congruence]. rewrite Hv3, Hv2, list_insert_insert_eq. cbn.
  unfold token_cell. by rewrite Hpi, E2.
Qed.

(** One row of the slot: the cells [row] of a stream receive the tokens from [off] on. *)
Definition writes (u : llama_ubatch) (off : nat) (v : list cell) (row : list nat) : list (nat * cell) :=
  imap (λ ii j, (j, token_cell u (off + ii) (emptied (default cell_none (v !! j))))) row.

Lemma writes_snoc u off v row j :
  writes u off v (row ++ [j]) =
  writes u off v row ++ [(j, token_cell u (off + length row) (emptied (default cell_none (v !! j))))].
Proof. unfold writes. rewrite imap_app. cbn. by rewrite Nat.add_0_r. Qed.

Lemma writes_fst u off v row : (writes u off v row).*1 = row.
Proof.
  unfold writes. rewrite fmap_imap. revert off. induction row as [|j row IH]; intros off; [done|].
  cbn. f_equal. rewrite <- (IH (S off)) at 2. apply imap_ext. intros; done.
Qed.

Lemma write_cells_snoc v ps p : write_cells v (ps ++ [p]) = <[p.1:=p.2]> (write_cells v ps).
Proof. unfold write_cells. by rewrite foldl_snoc. Qed.

(** the cells that the row overwrites *)
Definition row_cells (v : list cell) (row : list nat) : list cell := (λ j, default cell_none (v !! j)) <$> row.

Lemma emptied_pos k : c_pos (emptied k) = (-1)%Z.
Proof. unfold emptied. by case_decide. Qed.

Lemma token_cell_owned kv u i k : ubatch_fits kv u → i < n_tokens u → cell_owned (token_cell u i k).
Proof.
  intros Hu Hi. destruct (uf_ids _ _ Hu i Hi) as (m & ids & _ & E & _ & Hne & _).
  unfold cell_owned, token_cell. cbn. rewrite E. cbn. destruct ids; [done|]. set_solver.
Qed.

Lemma writes_owned kv u off v row : ubatch_fits kv u → off + length row ≤ n_tokens u →
  (∀ k, k ∈ v → cell_owned k) → ∀ k, k ∈ write_cells v (writes u off v row) → cell_owned k.
Proof.
  intros Hu. induction row as [|j row IH] using rev_ind; intros Hlen Hv k; [cbn; auto|].
  rewrite length_app in Hlen. cbn in Hlen. rewrite writes_snoc, write_cells_snoc. cbn.
  intros [i Hi]%list_elem_of_lookup. apply list_lookup_insert_Some in Hi as [(_ & <- & _)|[_ Hi]].
  - eapply token_cell_owned; [done|lia].
  - apply IH; [lia|done|]. eauto using list_elem_of_lookup_2.
Qed.

Lemma row_ok kv n u si s t row c h kv0 rmx ks : 
  (∀ q, valid_seq kv0 q → (0 ≤ q < LLAMA_MAX_SEQ)%Z) →
  ubatch_fits kv0 u → strm si !! s = Some t → idxs si !! s = Some row → NoDup row →
  v_cells kv !! t = Some c → stream_ok n c h →
  (∀ j, j ∈ row → ∃ k, view c !! j = Some k ∧ evictable k) →
  s * length row + length row ≤ n_tokens u → rm_tracks ks rmx →
  okP (foldM (apply_cell si (length row) u s) (kv, rmx) (seq 0 (length row))) (λ r,
    ∃ c', r.1 = with_stream kv (v_heads kv) (<[t:=c']> (v_cells kv)) ∧ stream_ok n c' h ∧
      view c' = write_cells (view c) (writes u (s * length row) (view c) row) ∧ has_shift c' = has_shift c ∧
      rm_tracks (ks ++ row_cells (view c) row) r.2).
Proof.
  intros Hval Hu Ht Hrow Hnd Hc Hso Hev Hlen Hrm. pose proof (so_wf _ _ _ Hso) as Hw.
  pose proof (lookup_lt_Some _ _ _ Hc) as Htl. set (off := s * length row) in *.
  eapply okP_mono; [apply (okP_for _ (λ i r, ∃ c', r.1 = with_stream kv (v_heads kv) (<[t:=c']> (v_cells kv)) ∧
    wf c' ∧ view c' = write_cells (view c) (writes u off (view c) (take i row)) ∧ has_shift c' = has_shift c ∧
    rm_tracks (ks ++ row_cells (view c) (take i row)) r.2))|].
  - exists c. cbn. split_and!; [|done|done|done|by rewrite app_nil_r].
    rewrite list_insert_id by done. by destruct kv.
  - intros i [kv' rmx'] Hi (c' & E & Hw' & Hv & Hsh' & Hr). cbn [fst snd] in *. subst kv'.
    unfold apply_cell. rewrite (vget_ok _ _ _ Ht), bind_Ok. cbn [v_cells v_heads with_stream].
    rewrite (vget_ok _ t c'), bind_Ok by (by rewrite list_lookup_insert_eq).
    destruct (lookup_lt_is_Some_2 row i Hi) as [j Hj].
    rewrite (vget_ok _ _ _ Hrow), bind_Ok, (vget_ok _ _ _ Hj), bind_Ok.
    destruct (Hev j) as (k & Hk & Hke); [eauto using list_elem_of_lookup_2|].
    assert (Hk' : view c' !! j = Some k).
    { rewrite Hv, write_cells_other; [done|]. rewrite writes_fst. intros (i' & Hi' & Hlt)%elem_of_take.
      rewrite (NoDup_lookup row i' i j) in Hlt by done. lia. }
    eapply okP_bind; [by apply (evict_ok c' j k)|]. intros [c2 rmx2] (Hw2 & Hv2 & Hsh2 & Hr2). cbn [fst snd] in *.
    pose proof (lookup_lt_Some _ _ _ Hk') as Hjl.
    eapply okP_bind; [apply (put_token_ok kv0 u c2 j (off + i) (emptied k)); try done; [lia| |apply emptied_pos]|].
    { by rewrite Hv2, list_lookup_insert_eq. }
    intros c3 (Hw3 & Hv3 & Hsh3). rewrite vset_ok, bind_Ok by (by rewrite length_insert). cbn [okP fst snd].
    exists c3. rewrite list_insert_insert_eq. split_and!; [done|done| |congruence|].
    + rewrite Hv3, Hv2, list_insert_insert_eq, Hv, (take_S_r _ _ _ Hj), writes_snoc, write_cells_snoc. cbn.
      rewrite Hk. cbn. by rewrite length_take_le by lia.
    + rewrite (take_S_r _ _ _ Hj). unfold row_cells in *. rewrite fmap_app, app_assoc. cbn. by rewrite Hk.
  - intros [kv' rmx'] (c' & E & Hw' & Hv & Hsh' & Hr). rewrite firstn_all in Hv, Hr. exists c'.
    split_and!; try done. split; [done| | |apply Hso].
    + rewrite <- length_view, Hv by done. rewrite foldl_write_length, length_view by done. apply Hso.
    + rewrite Hv. apply (writes_owned kv0); [done|lia|apply Hso].
Qed.

(** What [apply_ubatch] needs of a slot. *)
Record slot_fits (kv : kv_cache) (u : llama_ubatch) (si : slot_info) : Prop := {
  sf_strm : length (strm si) = slots kv u;
  sf_idxs : length (idxs si) = slots kv u;
  sf_diff : NoDup (strm si);
  sf_row  : ∀ s, s < slots kv u → ∃ t row v, strm si !! s = Some t ∧ idxs si !! s = Some row ∧
              views kv !! t = Some v ∧ length row = per_slot kv u ∧ NoDup row ∧
              ∀ j, j ∈ row → ∃ k, v !! j = Some k ∧ evictable k
}.

Lemma slot_ok_fits kv u cont si : ubatch_fits kv u → slot_ok kv u cont si (slots kv u) → slot_fits kv u si.
Proof.
  intros Hu [H1 H2 H3]. split; [done|done| |].
  - apply NoDup_alt. intros s1 s2 t E1 E2. destruct (decide (s1 = s2)) as [|Hne]; [done|]. exfalso.
    pose proof (lookup_lt_Some _ _ _ E1) as L1. pose proof (lookup_lt_Some _ _ _ E2) as L2. rewrite H1 in L1, L2.
    destruct (H3 s1 L1) as (q1 & l1 & v1 & A1 & A2 & _). destruct (H3 s2 L2) as (q2 & l2 & v2 & B1 & B2 & _).
    apply (uf_diff _ _ Hu s1 s2 q1 q2 L1 L2 Hne A1 B1). congruence.
  - intros s Hs. destruct (H3 s Hs) as (q & l & v & A1 & A2 & A3 & A4 & (A5 & A6 & A7) & _).
    exists (stream_idx kv q), l, v. split_and!; try done. intros j Hj. destruct (A7 j Hj) as (k & Hk & Hus).
    exists k. split; [done|]. by eapply usable_evictable.
Qed.

Definition slot_stream (si : slot_info) (s : nat) : nat := default 0 (strm si !! s).
Definition slot_row (si : slot_info) (s : nat) : list nat := default [] (idxs si !! s).
Definition slot_view (kv : kv_cache) (si : slot_info) (s : nat) : list cell :=
  default [] (views kv !! slot_stream si s).

(** the cells that the first [m] rows overwrite *)
Definition targets (kv : kv_cache) (si : slot_info) (m : nat) : list cell :=
  concat ((λ s, row_cells (slot_view kv si s) (slot_row si s)) <$> seq 0 m).

Lemma targets_S kv si m : targets kv si (S m) = targets kv si m ++ row_cells (slot_view kv si m) (slot_row si m).
Proof. unfold targets. by rewrite fmap_seq_S, concat_app, concat_cons, app_nil_r. Qed.

(** the stream of row [s] after the tokens are written *)
Definition written (kv : kv_cache) (u : llama_ubatch) (si : slot_info) (s : nat) : list cell :=
  write_cells (slot_view kv si s) (writes u (s * per_slot kv u) (slot_view kv si s) (slot_row si s)).

Definition rows_inv (kv : kv_cache) (n : nat) (u : llama_ubatch) (si : slot_info) (m : nat)
    (st : kv_cache * list Z) : Prop :=
  kv_ok n st.1 ∧ same_rest kv st.1 ∧ v_heads st.1 = v_heads kv ∧
  has_shift <$> v_cells st.1 = has_shift <$> v_cells kv ∧ rm_tracks (targets kv si m) st.2 ∧
  (∀ s, s < m → views st.1 !! slot_stream si s = Some (written kv u si s)) ∧
  (∀ t, (∀ s, s < m → t ≠ slot_stream si s) → views st.1 !! t = views kv !! t).

Lemma valid_range n kv q : kv_ok n kv → valid_seq kv q → (0 ≤ q < LLAMA_MAX_SEQ)%Z.
Proof. intros Hk Hq. destruct (seq_stream _ _ _ Hk Hq) as (? & _ & _ & ?). pose proof MAX_SEQ_eq. lia. Qed.

Lemma rows_step kv n u si m st : kv_ok n kv → ubatch_fits kv u → slot_fits kv u si → m < slots kv u →
  rows_inv kv n u si m st →
  okP (foldM (apply_cell si (per_slot kv u) u m) st (seq 0 (per_slot kv u))) (rows_inv kv n u si (S m)).
Proof.
  intros Hk Hu Hsf Hm. destruct st as [kv1 rmx]. intros (Hk1 & Hr1 & Hh1 & Hf1 & Hrm & Hd1 & Ho1). cbn [fst snd] in *.
  destruct (sf_row _ _ _ Hsf m Hm) as (t & row & v & Ht & Hrow & Hv & Hlen & Hnd & Hev).
  assert (Et : slot_stream si m = t) by (unfold slot_stream; by rewrite Ht).
  assert (Er : slot_row si m = row) by (unfold slot_row; by rewrite Hrow).
  assert (Ev : slot_view kv si m = v) by (unfold slot_view; by rewrite Et, Hv).
  assert (Hother : ∀ s, s < m → t ≠ slot_stream si s).
  { intros s Hs E. destruct (sf_row _ _ _ Hsf s) as (t' & _ & _ & Ht' & _); [lia|].
    unfold slot_stream in E. rewrite Ht' in E. cbn in E. subst t'.
    rewrite (NoDup_lookup _ s m t (sf_diff _ _ _ Hsf)) in Hs by done. lia. }
  assert (Hv1 : views kv1 !! t = Some v) by (by rewrite Ho1).
  rewrite views_lookup in Hv1. apply fmap_Some in Hv1 as (c & Hc & Evc).
  destruct (lookup_lt_is_Some_2 (v_heads kv1) t) as [h Hh].
  { rewrite (ko_heads _ _ Hk1), <- (ko_cells _ _ Hk1). by eapply lookup_lt_Some. }
  pose proof (ko_stream _ _ Hk1 _ _ _ Hc Hh) as Hso. rewrite <- Hlen.
  eapply okP_mono; [apply (row_ok kv1 n u si m t row c h kv rmx (targets kv si m)); try done|].
  - intros q Hq. by apply (valid_range n kv).
  - by rewrite <- Evc.
  - rewrite Hlen, (uf_split _ _ Hu). nia.
  - intros [kv2 rmx2] (c' & E & Hso' & Hvw & Hsh' & Hrm'). cbn [fst snd] in *. subst kv2. unfold rows_inv. cbn [fst snd].
    pose proof (lookup_lt_Some _ _ _ Hc) as Htl.
    assert (Eviews : views (with_stream kv1 (v_heads kv1) (<[t:=c']> (v_cells kv1))) = <[t:=view c']> (views kv1))
      by (unfold views; cbn; by rewrite list_fmap_insert).
    assert (Hvl : t < length (views kv1)) by (unfold views; by rewrite length_fmap).
    split_and!; [| |done| | | |].
    + rewrite <- (list_insert_id (v_heads kv1) t h) at 1 by done. apply kv_ok_with_stream; try done.
      rewrite (ko_cells _ _ Hk1) in Htl. done.
    + done.
    + cbn. rewrite list_fmap_insert, Hsh', <- Hf1. apply list_insert_id. by rewrite list_lookup_fmap, Hc.
    + rewrite targets_S, Ev, Er. by rewrite Evc.
    + intros s Hs. rewrite Eviews. destruct (decide (s = m)) as [->|Hne].
      * rewrite Et, list_lookup_insert_eq by done. f_equal. unfold written. rewrite Ev, Er, Hvw, Hlen, Evc. done.
      * rewrite list_lookup_insert_ne by (apply not_eq_sym; intros E; apply (Hother s); [lia|done]). apply Hd1. lia.
    + intros t' Ht'. rewrite Eviews, list_lookup_insert_ne; [apply Ho1; intros; apply Ht'; lia|].
      rewrite <- Et. apply not_eq_sym, Ht'. lia.
Qed.

(** *** Purging *)
Definition purge_on (kv : kv_cache) (ks : list cell) (t s : nat) (k : cell) : cell :=
  if decide (overwritten ks s ≠ (-1)%Z ∧ stream_idx kv (Z.of_nat s) = t)
  then rm_cell (Z.of_nat s) 0 (overwritten ks s + 1) k else k.
Definition purged (kv : kv_cache) (ks : list cell) (t : nat) (m : nat) (k : cell) : cell :=
  foldl (λ k s, purge_on kv ks t s k) k (seq 0 m).

Lemma overwritten_range ks s : (∀ k, k ∈ ks → c_pos k ≠ (-1)%Z → 0 ≤ c_pos k < INT32_MAX)%Z →
  (overwritten ks s = -1 ∨ 0 ≤ overwritten ks s < INT32_MAX)%Z.
Proof.
  induction ks as [|k ks IH] using rev_ind; intros H; [by left|]. rewrite overwritten_snoc.
  specialize (IH ltac:(intros; apply H; set_solver)). case_decide as Hc; [|done].
  pose proof (H k ltac:(set_solver) (proj1 Hc)). right. lia.
Qed.

Lemma purge_ok n kv ks rmx s : kv_ok n kv → rm_tracks ks rmx → s < MAX_SEQ →
  (∀ k, k ∈ ks → c_pos k ≠ (-1)%Z → 0 ≤ c_pos k < INT32_MAX)%Z →
  (overwritten ks s ≠ (-1)%Z → valid_seq kv (Z.of_nat s)) →
  okP (purge rmx kv s) (λ kv', kv_ok n kv' ∧ same_rest kv kv' ∧
    (∀ t, views kv' !! t = fmap (purge_on kv ks t s) <$> views kv !! t) ∧
    (overwritten ks s = (-1)%Z → kv' = kv)).
Proof.
  intros Hk [Hl Hr] Hs Hrange Hval. unfold purge.
  destruct (lookup_lt_is_Some_2 rmx s) as [r Er]; [lia|]. rewrite (vget_ok _ _ _ Er), bind_Ok.
  pose proof (Hr _ _ Er) as Eo. unfold purge_on. rewrite <- Eo in *.
  destruct (decide (r = -1)%Z) as [->|Hne].
  { cbn. split_and!; try done. intros t. destruct (views kv !! t) as [v|]; [|done]. cbn. f_equal.
    symmetry. rewrite <- (list_fmap_id v) at 2. apply list_fmap_ext. intros _ k _. by rewrite decide_False by naive_solver. }
  specialize (Hval Hne). destruct (overwritten_range ks s Hrange) as [?|Hrr]; [congruence|]. rewrite <- Eo in Hrr.
  destruct (seq_stream _ _ _ Hk Hval) as (_ & Hst & Hlt & _). rewrite Nat2Z.id in Hst.
  rewrite ggml_assert_ok, bind_Ok, (vget_ok _ _ _ Hst), bind_Ok by (apply bool_decide_eq_true_2; by eapply lookup_lt_Some).
  set (t0 := stream_idx kv (Z.of_nat s)) in *.
  destruct (stream_lookup _ _ _ Hk Hlt) as (c & h & Hc & Hh & Hso & Hv & _). rewrite (vget_ok _ _ _ Hc), bind_Ok.
  eapply okP_bind; [apply seq_pos_min_ok; [apply Hso|by apply (valid_range n kv)]|]. intros mn Hmn. cbn beta in Hmn.
  assert (Hclip : clip_p1 (r + 1) = (r + 1)%Z) by (unfold clip_p1; case_decide; lia).
  assert (Hedge : ∀ k, k ∈ view c → Z.of_nat s ∈ c_seq k → (mn ≤ c_pos k)%Z).
  { intros k Hk1 Hk2. destruct Hmn as [[_ Hno]|[_ H]]; [by destruct (Hno k Hk1)|auto]. }
  case_decide as Hle.
  - rewrite i32_add_ok, bind_Ok by (unfold INT32_MIN in *; lia).
    eapply okP_bind; [by apply (seq_rm_kv_ok n kv (Z.of_nat s) mn (r + 1)); [|right]|].
    intros [kv' b] (_ & Hk' & Hupd). cbn [fst] in *. rewrite decide_True in Hupd by lia.
    destruct Hupd as (Hsr & Hvw & _). cbn. split_and!; [done|done| |done].
    intros t. rewrite Hvw. fold t0. destruct (decide (t = t0)) as [->|Hnt].
    + rewrite list_lookup_alter_eq, Hv. cbn. f_equal. apply list_fmap_ext. intros i k Hi.
      rewrite decide_True by done. pose proof (list_elem_of_lookup_2 _ _ _ Hi) as Hin.
      unfold rm_cell. assert (sel (Z.of_nat s) mn (r + 1) k = sel (Z.of_nat s) 0 (r + 1) k) as ->; [|done].
      apply eq_bool_prop_intro. rewrite !Is_true_true, !sel_spec. unfold in_range.
      rewrite !andb_true_iff, !bool_decide_eq_true. split; intros [[H1 H2] H3]; split_and!; try done.
      * pose proof (clip_p0_nonneg mn). unfold clip_p0 at 1. rewrite decide_False by lia. lia.
      * pose proof (Hedge k Hin H3). unfold clip_p0 in *. repeat case_decide; lia.
    + rewrite list_lookup_alter_ne by done. destruct (views kv !! t) as [v|]; [|done]. cbn. f_equal.
      rewrite <- (list_fmap_id v) at 1. apply list_fmap_ext. intros _ k _. by rewrite decide_False by naive_solver.
  - cbn. split_and!; try done. intros t. destruct (views kv !! t) as [v|] eqn:Evt; [|done]. cbn. f_equal.
    rewrite <- (list_fmap_id v) at 1. apply list_fmap_ext. intros i k Hi. cbn. case_decide as Hd; [|done].
    destruct Hd as [_ <-]. fold t0 in Evt. rewrite Hv in Evt. injection Evt as <-.
    unfold rm_cell. assert (sel (Z.of_nat s) 0 (r + 1) k = false) as ->; [|done].
    apply not_true_iff_false. rewrite sel_spec. unfold in_range.
    rewrite andb_true_iff, !bool_decide_eq_true, Hclip. intros [[_ H1] H2].
    pose proof (Hedge k (list_elem_of_lookup_2 _ _ _ Hi) H2). lia.
Qed.

Lemma same_rest_trans a b c : same_rest a b → same_rest b c → same_rest a c.
Proof. intros (?&?&?) (?&?&?). repeat split; congruence. Qed.

Lemma same_rest_valid a b q : same_rest a b → valid_seq b q ↔ valid_seq a q.
Proof. intros (_ & E & _). unfold valid_seq. by rewrite E. Qed.

Lemma same_rest_idx a b q : same_rest a b → stream_idx b q = stream_idx a q.
Proof. intros (_ & E & _). unfold stream_idx. by rewrite E. Qed.

Lemma purge_all_ok n kv ks rmx : kv_ok n kv → rm_tracks ks rmx →
  (∀ k, k ∈ ks → c_pos k ≠ (-1)%Z → 0 ≤ c_pos k < INT32_MAX)%Z →
  (∀ s, s < MAX_SEQ → overwritten ks s ≠ (-1)%Z → valid_seq kv (Z.of_nat s)) →
  okP (foldM (purge rmx) kv (seq 0 MAX_SEQ)) (λ kv', kv_ok n kv' ∧ same_rest kv kv' ∧
    (∀ t, views kv' !! t = fmap (purged kv ks t MAX_SEQ) <$> views kv !! t) ∧
    ((∀ s, overwritten ks s = (-1)%Z) → kv' = kv)).
Proof.
  intros Hk Hrm Hrange Hval.
  apply (okP_for _ (λ m kv', kv_ok n kv' ∧ same_rest kv kv' ∧
    (∀ t, views kv' !! t = fmap (purged kv ks t m) <$> views kv !! t) ∧
    ((∀ s, overwritten ks s = (-1)%Z) → kv' = kv))).
  - split_and!; try done. intros t. destruct (views kv !! t) as [v|]; [|done]. cbn. by rewrite list_fmap_id.
  - intros s kv1 Hs (Hk1 & Hsr & Hv1 & Hh1).
    eapply okP_mono; [apply (purge_ok n kv1 ks rmx s); try done|].
    { intros Hne. rewrite (same_rest_valid kv kv1) by done. by apply Hval. }
    intros kv2 (Hk2 & Hsr2 & Hv2 & Hh2). split_and!; [done|by eapply same_rest_trans| |].
    + intros t. rewrite Hv2, Hv1. destruct (views kv !! t) as [v|]; [|done]. cbn. f_equal.
      rewrite <- list_fmap_compose. apply list_fmap_ext. intros _ k _. unfold compose.
      unfold purged at 2. rewrite seq_S, foldl_snoc. fold (purged kv ks t s k). rewrite Nat.add_0_l.
      unfold purge_on. by rewrite (same_rest_idx kv kv1).
    + intros H. rewrite Hh2 by done. by apply Hh1.
Qed.

Lemma overwritten_none ks : (∀ k, k ∈ ks → c_pos k = (-1)%Z) → ∀ s, overwritten ks s = (-1)%Z.
Proof.
  intros H s. induction ks as [|k ks IH] using rev_ind; [done|].
  rewrite overwritten_snoc, decide_False; [apply IH; set_solver|]. intros [Hp _]. apply Hp, H. set_solver.
Qed.

Lemma purged_none kv ks t m k : (∀ s, overwritten ks s = (-1)%Z) → purged kv ks t m k = k.
Proof.
  intros H. unfold purged. induction m as [|m IH]; [done|]. rewrite seq_S, foldl_snoc, IH, Nat.add_0_l.
  unfold purge_on. rewrite decide_False; [done|]. intros [Hne _]. by apply Hne.
Qed.

(** *** The heads *)
Lemma view_stream n kv t v : kv_ok n kv → views kv !! t = Some v → t < n_stream (par kv) ∧ length v = n.
Proof.
  intros Hk Hv. assert (Ht : t < n_stream (par kv)).
  { apply lookup_lt_Some in Hv. unfold views in Hv. by rewrite length_fmap, (ko_cells _ _ Hk) in Hv. }
  split; [done|]. destruct (stream_lookup _ _ _ Hk Ht) as (c & h & _ & _ & _ & Hv' & Hl). congruence.
Qed.

Lemma move_heads_ok n kv kv0 u si : kv_ok n kv → kv_ok n kv0 → slot_fits kv0 u si → 1 ≤ per_slot kv0 u →
  same_rest kv0 kv →
  okP (foldM (move_head si) kv (seq 0 (si_n_stream si))) (λ kv', kv_ok n kv' ∧ same_rest kv kv' ∧
    v_cells kv' = v_cells kv ∧
    (∀ s, s < slots kv0 u → v_heads kv' !! slot_stream si s = S <$> last (slot_row si s)) ∧
    (∀ t, (∀ s, s < slots kv0 u → t ≠ slot_stream si s) → v_heads kv' !! t = v_heads kv !! t)).
Proof.
  intros Hk Hk0 Hsf Hper Hsr. unfold si_n_stream. rewrite (sf_strm _ _ _ Hsf).
  apply (okP_for _ (λ m kv', kv_ok n kv' ∧ same_rest kv kv' ∧ v_cells kv' = v_cells kv ∧
    (∀ s, s < m → v_heads kv' !! slot_stream si s = S <$> last (slot_row si s)) ∧
    (∀ t, (∀ s, s < m → t ≠ slot_stream si s) → v_heads kv' !! t = v_heads kv !! t))).
  - split_and!; try done. intros; lia.
  - intros m kv1 Hm (Hk1 & Hsr1 & Hv1 & Hd & Ho).
    destruct (sf_row _ _ _ Hsf m Hm) as (t & row & v & Ht & Hrow & Hv & Hlen & Hnd & Hev).
    assert (Et : slot_stream si m = t) by (unfold slot_stream; by rewrite Ht).
    assert (Er : slot_row si m = row) by (unfold slot_row; by rewrite Hrow).
    unfold move_head. rewrite (vget_ok _ _ _ Ht), bind_Ok, (vget_ok _ _ _ Hrow), bind_Ok.
    destruct (last row) as [l|] eqn:El; [|apply last_None in El; rewrite El in Hlen; cbn [length] in Hlen; lia].
    cbn [of_option]. rewrite bind_Ok.
    destruct (view_stream _ _ _ _ Hk0 Hv) as [Htl Hvl].
    assert (Htl1 : t < n_stream (par kv1)) by (by rewrite (proj1 Hsr1), (proj1 Hsr)).
    destruct (stream_lookup _ _ _ Hk1 Htl1) as (c & h & Hc & Hh & Hso & _ & _).
    rewrite vset_ok, bind_Ok by (by rewrite (ko_heads _ _ Hk1)). cbn [okP].
    assert (Hln : S l ≤ n).
    { apply last_Some_elem_of in El. destruct (Hev l El) as (k & Hkl & _). apply lookup_lt_Some in Hkl. lia. }
    split_and!; cbn; [|done|done| |].
    + rewrite <- (list_insert_id (v_cells kv1) t c) by done. apply kv_ok_with_stream; try done. split; try apply Hso. done.
    + intros s Hs. destruct (decide (s = m)) as [->|Hne].
      * rewrite Et, Er, list_lookup_insert_eq by (by rewrite (ko_heads _ _ Hk1)). by rewrite El.
      * rewrite list_lookup_insert_ne; [apply Hd; lia|]. rewrite <- Et. intros E.
        destruct (sf_row _ _ _ Hsf s) as (t' & _ & _ & Ht' & _); [lia|].
        unfold slot_stream in E. rewrite Ht, Ht' in E. cbn in E. subst t'.
        apply Hne, (NoDup_lookup _ _ _ t (sf_diff _ _ _ Hsf)); done.
    + intros t' Ht'. rewrite list_lookup_insert_ne; [apply Ho; intros; apply Ht'; lia|].
      rewrite <- Et. apply not_eq_sym, Ht'. lia.
Qed.

(** *** The whole operation *)

(** Cells of a stream only hold sequences of the cache. *)
Definition seqs_valid (kv : kv_cache) : Prop :=
  ∀ t v k q, views kv !! t = Some v → k ∈ v → q ∈ c_seq k → valid_seq kv q.

(** [kv'] is [kv] after [apply_ubatch]: the tokens written, then the positions
    purged; the heads behind the slots. *)
Record applied (kv : kv_cache) (u : llama_ubatch) (si : slot_info) (kv' : kv_cache) : Prop := {
  ap_rest  : same_rest kv kv';
  ap_rows  : ∀ s, s < slots kv u → views kv' !! slot_stream si s =
               Some (purged kv (targets kv si (slots kv u)) (slot_stream si s) MAX_SEQ <$> written kv u si s);
  ap_other : ∀ t, (∀ s, s < slots kv u → t ≠ slot_stream si s) → views kv' !! t =
               fmap (purged kv (targets kv si (slots kv u)) t MAX_SEQ) <$> views kv !! t;
  ap_heads : ∀ s, s < slots kv u → v_heads kv' !! slot_stream si s = S <$> last (slot_row si s);
  ap_heads_other : (∀ s, overwritten (targets kv si (slots kv u)) s = (-1)%Z) →
               ∀ t, (∀ s, s < slots kv u → t ≠ slot_stream si s) → v_heads kv' !! t = v_heads kv !! t;
  ap_shift : (∀ s, overwritten (targets kv si (slots kv u)) s = (-1)%Z) →
               has_shift <$> v_cells kv' = has_shift <$> v_cells kv
}.

Lemma targets_in kv u si m k : slot_fits kv u si → m ≤ slots kv u → k ∈ targets kv si m →
  ∃ t v, views kv !! t = Some v ∧ k ∈ v.
Proof.
  intros Hsf Hm Hin. unfold targets in Hin. apply elem_of_concat in Hin as (l & (s & -> & Hs)%list_elem_of_fmap & Hk).
  apply elem_of_seq in Hs. destruct (sf_row _ _ _ Hsf s) as (t & row & v & Ht & Hrow & Hv & Hlen & Hnd & Hev); [lia|].
  apply list_elem_of_fmap in Hk as (j & -> & Hj). unfold slot_row in Hj. rewrite Hrow in Hj.
  destruct (Hev j Hj) as (k & Hk & _). exists t, v. split; [done|].
  assert (Ev : slot_view kv si s = v) by (unfold slot_view, slot_stream; by rewrite Ht; cbn; rewrite Hv).
  rewrite Ev, Hk. cbn. eauto using list_elem_of_lookup_2.
Qed.

Lemma overwritten_seq ks s : overwritten ks s ≠ (-1)%Z → ∃ k, k ∈ ks ∧ Z.of_nat s ∈ c_seq k.
Proof.
  induction ks as [|k ks IH] using rev_ind; [done|]. rewrite overwritten_snoc. case_decide as Hc.
  - intros _. exists k. split; [set_solver|apply Hc].
  - intros (k' & ? & ?)%IH. exists k'. split; [set_solver|done].
Qed.

Lemma apply_ubatch_ok n kv u si : kv_ok n kv → kv_small kv → seqs_valid kv → ubatch_fits kv u →
  slot_fits kv u si →
  okP (apply_ubatch kv si u) (λ kv', kv_ok n kv' ∧ applied kv u si kv').
Proof.
  intros Hk Hsm Hsv Hu Hsf. unfold apply_ubatch.
  pose proof (uf_n _ _ Hu) as Hper. pose proof (uf_slots _ _ Hu) as Hsl.
  assert (Hsz : si_size si = Ok (per_slot kv u)).
  { destruct (sf_row _ _ _ Hsf 0) as (t & row & v & _ & Hrow & _ & Hlen & _); [lia|].
    unfold si_size. rewrite (ggml_assert_ok (bool_decide (length (idxs si) = _))), bind_Ok.
    2:{ apply bool_decide_eq_true_2. by rewrite (sf_idxs _ _ _ Hsf), (sf_strm _ _ _ Hsf). }
    rewrite ggml_assert_ok, bind_Ok.
    2:{ unfold si_empty. rewrite bool_decide_false; [done|]. intros E. by rewrite E in Hrow. }
    rewrite (vget_ok _ _ _ Hrow), bind_Ok. by rewrite Hlen. }
  rewrite Hsz, bind_Ok, assert_ok, bind_Ok.
  2:{ apply bool_decide_eq_true_2. unfold si_n_stream. rewrite (sf_strm _ _ _ Hsf). apply Hu. }
  assert (Hns : si_n_stream si = slots kv u) by exact (sf_strm _ _ _ Hsf). rewrite Hns.
  eapply okP_bind; [apply (okP_for _ (rows_inv kv n u si))|].
  { unfold rows_inv. cbn [fst snd]. split_and!; try done; [split; [by rewrite length_replicate|]; intros q m [-> _]%lookup_replicate; done|intros; lia]. }
  { intros m st Hm HI. apply rows_step; done. }
  intros [kv1 rmx] (Hk1 & Hr1 & Hh1 & Hf1 & Hrm & Hd1 & Ho1). cbn [fst snd] in *.
  set (ks := targets kv si (slots kv u)) in *.
  eapply okP_bind; [apply (purge_all_ok n kv1 ks rmx); try done|].
  { intros k Hin Hp. destruct (targets_in kv u si _ k Hsf (le_n _) Hin) as (t & v & Hv & Hkv).
    split; [|by apply (Hsm t v)]. apply list_elem_of_lookup in Hkv as [j Hj].
    rewrite views_lookup in Hv. apply fmap_Some in Hv as (c & Hc & ->).
    destruct (lookup_lt_is_Some_2 (v_heads kv) t) as [h Hh].
    { rewrite (ko_heads _ _ Hk), <- (ko_cells _ _ Hk). by eapply lookup_lt_Some. }
    pose proof (wf_cell _ (so_wf _ _ _ (ko_stream _ _ Hk _ _ _ Hc Hh)) _ _ Hj) as [(? & _)|[? _]]; [done|lia]. }
  { intros s Hs Hne. rewrite (same_rest_valid kv kv1) by done. destruct (overwritten_seq _ _ Hne) as (k & Hin & Hq).
    destruct (targets_in kv u si _ k Hsf (le_n _) Hin) as (t & v & Hv & Hkv). by apply (Hsv t v k). }
  intros kv2 (Hk2 & Hr2 & Hv2 & Hh2).
  rewrite <- Hns. eapply okP_mono; [apply (move_heads_ok n kv2 kv u si Hk2 Hk Hsf Hper)|].
  { by eapply same_rest_trans. }
  intros kv3 (Hk3 & Hr3 & Hc3 & Hh3 & Hh3'). split; [done|].
  assert (Hv3 : views kv3 = views kv2) by (unfold views; by rewrite Hc3).
  assert (Epur : ∀ t k, purged kv1 ks t MAX_SEQ k = purged kv ks t MAX_SEQ k).
  { intros t k. unfold purged. generalize (seq 0 MAX_SEQ). intros l. revert k. induction l as [|s l IH]; intros k; [done|].
    cbn [foldl]. rewrite IH. f_equal. unfold purge_on. by rewrite (same_rest_idx kv kv1). }
  split.
  - eapply same_rest_trans; [|exact Hr3]. by eapply same_rest_trans.
  - intros s Hs. rewrite Hv3, Hv2, Hd1 by done. cbn. f_equal. apply list_fmap_ext. intros; apply Epur.
  - intros t Ht. rewrite Hv3, Hv2, Ho1 by done. destruct (views kv !! t); [|done]. cbn. f_equal.
    apply list_fmap_ext. intros; apply Epur.
  - done.
  - intros Hno t Ht. by rewrite Hh3', Hh2, Hh1 by done.
  - intros Hno. by rewrite Hc3, Hh2, Hf1 by done.
Qed.

(** *** [prepare]: what is placed and how it is taken back *)

(** no cell of the cache has a pending shift *)
Definition no_shift (kv : kv_cache) : Prop := ∀ t v k, views kv !! t = Some v → k ∈ v → c_shift k = 0%Z.

(** the state that [prepare] starts from and keeps *)
Record ready (n : nat) (kv : kv_cache) : Prop := {
  rd_ok    : kv_ok n kv;
  rd_small : kv_small kv;
  rd_seqs  : seqs_valid kv;
  rd_shift : no_shift kv;
  rd_swa   : swa_type (par kv) = SWA_NONE;
  rd_max   : n_stream (par kv) ≤ MAX_SEQ
}.

Lemma ready_swa n kv : ready n kv → swa_ok kv.
Proof. intros H E. by rewrite (rd_swa _ _ H) in E. Qed.

Lemma same_rest_sym a b : same_rest a b → same_rest b a.
Proof. unfold same_rest. naive_solver. Qed.

Lemma ubatch_fits_rest a b u : same_rest a b → ubatch_fits a u → ubatch_fits b u.
Proof.
  intros Hs Hu. pose proof Hs as (Ep & _).
  assert (Es : slots b u = slots a u) by (unfold slots; by rewrite Ep).
  assert (Epp : per_slot b u = per_slot a u) by (unfold per_slot; by rewrite Es).
  assert (Ev : ∀ q, valid_seq a q → valid_seq b q) by (intros q; by rewrite (same_rest_valid a b)).
  assert (Ei : ∀ q, stream_idx b q = stream_idx a q) by (intros q; by rewrite (same_rest_idx a b)).
  destruct Hu as [H1 H2 H3 H4 H5 H6 H7 H8 H9]. split; rewrite ?Es, ?Epp, ?Ep; try done.
  - intros i Hi. destruct (H6 i Hi) as (k & ids & A1 & A2 & A3 & A4 & A5 & A6). exists k, ids. split_and!; auto.
  - intros s Hs'. destruct (H7 s Hs') as (q & A1 & A2). eauto.
  - intros s t q r. rewrite !Ei. apply H9.
Qed.

Lemma masked_none n p q : is_masked_swa n SWA_NONE p q ≠ Ok true.
Proof. unfold is_masked_swa. by destruct (_ && _). Qed.

(** a slot of empty cells *)
Definition slot_empty (kv : kv_cache) (u : llama_ubatch) (si : slot_info) : Prop :=
  ∀ s j k, s < slots kv u → j ∈ slot_row si s → slot_view kv si s !! j = Some k → c_pos k = (-1)%Z.

Lemma slot_ok_empty kv u cont si : swa_type (par kv) = SWA_NONE →
  slot_ok kv u cont si (slots kv u) → slot_empty kv u si.
Proof.
  intros Hswa [_ _ H] s j k Hs Hj Hk. destruct (H s Hs) as (q & l & v & _ & E1 & E2 & E3 & (_ & _ & Hu) & _).
  unfold slot_view, slot_stream in Hk. rewrite E1 in Hk. cbn in Hk. rewrite E3 in Hk.
  unfold slot_row in Hj. rewrite E2 in Hj. destruct (Hu j Hj) as (k' & Hk' & Huse). cbn in Hk.
  rewrite Hk' in Hk. injection Hk as ->. destruct Huse as [?|(_ & q' & mx & _ & _ & Hm)]; [done|].
  rewrite Hswa in Hm. by apply masked_none in Hm.
Qed.

Lemma targets_empty kv u si : slot_fits kv u si → slot_empty kv u si →
  ∀ s, overwritten (targets kv si (slots kv u)) s = (-1)%Z.
Proof.
  intros Hsf He. apply overwritten_none. intros k Hin. unfold targets in Hin.
  apply elem_of_concat in Hin as (l & (s & -> & Hs)%list_elem_of_fmap & Hk). apply elem_of_seq in Hs.
  destruct (sf_row _ _ _ Hsf s) as (t & row & v & Ht & Hrow & Hv & _ & _ & Hev); [lia|].
  apply list_elem_of_fmap in Hk as (j & -> & Hj). pose proof Hj as Hj'. unfold slot_row in Hj. rewrite Hrow in Hj.
  destruct (Hev j Hj) as (k & Hk & _).
  assert (Hk' : slot_view kv si s !! j = Some k).
  { unfold slot_view, slot_stream. rewrite Ht. cbn. by rewrite Hv. }
  rewrite Hk'. cbn. by apply (He s j k); [lia| |].
Qed.

Lemma write_cells_in v ps j : j ∈ ps.*1 → j < length v →
  ∃ k, (j, k) ∈ ps ∧ write_cells v ps !! j = Some k.
Proof.
  induction ps as [|p ps IH] using rev_ind; [by intros ?%not_elem_of_nil|].
  rewrite fmap_app, elem_of_app, write_cells_snoc. cbn. intros Hj Hl.
  destruct (decide (j = p.1)) as [->|Hne].
  - exists p.2. split; [|by rewrite list_lookup_insert_eq by (by rewrite foldl_write_length)].
    apply elem_of_app. right. apply list_elem_of_singleton. by destruct p.
  - destruct IH as (k & Hin & Hk); [|done|].
    { destruct Hj as [?|Hj]; [done|]. by apply list_elem_of_singleton in Hj. }
    exists k. split; [apply elem_of_app; by left|]. by rewrite list_lookup_insert_ne by done.
Qed.

Lemma writes_in u off v row j k : (j, k) ∈ writes u off v row →
  ∃ ii, row !! ii = Some j ∧ k = token_cell u (off + ii) (emptied (default cell_none (v !! j))).
Proof.
  unfold writes. intros [ii Hii]%list_elem_of_lookup. rewrite list_lookup_imap in Hii.
  apply fmap_Some in Hii as (j' & Hj & E). exists ii. by injection E as -> ->.
Qed.

(** After an [apply_ubatch] into empty cells: the rows of the slot are written
    and nothing is purged. *)
Record written_to (kv : kv_cache) (u : llama_ubatch) (si : slot_info) (kv' : kv_cache) : Prop := {
  wt_rest  : same_rest kv kv';
  wt_rows  : ∀ s, s < slots kv u → views kv' !! slot_stream si s = Some (written kv u si s);
  wt_other : ∀ t, (∀ s, s < slots kv u → t ≠ slot_stream si s) → views kv' !! t = views kv !! t;
  wt_heads : ∀ t, (∀ s, s < slots kv u → t ≠ slot_stream si s) → v_heads kv' !! t = v_heads kv !! t;
  wt_shift : has_shift <$> v_cells kv' = has_shift <$> v_cells kv
}.

Lemma applied_empty kv u si kv' : slot_fits kv u si → slot_empty kv u si →
  applied kv u si kv' → written_to kv u si kv'.
Proof.
  intros Hsf He [H1 H2 H3 H4 H5 H6]. pose proof (targets_empty _ _ _ Hsf He) as Hno.
  assert (Hid : ∀ t (v : list cell), purged kv (targets kv si (slots kv u)) t MAX_SEQ <$> v = v).
  { intros t v. rewrite <- (list_fmap_id v) at 2. apply list_fmap_ext. intros _ k _. by apply purged_none. }
  split; try done; [|..|by apply H5|by apply H6].
  - intros s Hs. rewrite H2 by done. by rewrite Hid.
  - intros t Ht. rewrite H3 by done. destruct (views kv !! t); [|done]. cbn. by rewrite Hid.
Qed.

Lemma slot_rows kv u si s : slot_fits kv u si → s < slots kv u → 
  strm si !! s = Some (slot_stream si s) ∧ idxs si !! s = Some (slot_row si s) ∧
  views kv !! slot_stream si s = Some (slot_view kv si s) ∧ length (slot_row si s) = per_slot kv u ∧
  NoDup (slot_row si s) ∧ (∀ j, j ∈ slot_row si s → ∃ k, slot_view kv si s !! j = Some k).
Proof.
  intros Hsf Hs. destruct (sf_row _ _ _ Hsf s Hs) as (t & row & v & Ht & Hrow & Hv & Hl & Hnd & Hev).
  unfold slot_view, slot_stream, slot_row. rewrite Ht, Hrow. cbn. rewrite Hv. cbn. split_and!; try done.
  intros j Hj. destruct (Hev j Hj) as (k & Hk & _). eauto.
Qed.

(** a cell of a written row is an old cell or the cell of a token *)
Lemma written_cell kv u si s j k : ubatch_fits kv u → slot_fits kv u si → s < slots kv u →
  written kv u si s !! j = Some k →
  ((j ∉ slot_row si s) ∧ slot_view kv si s !! j = Some k) ∨
  (j ∈ slot_row si s ∧ (∃ i k0, i < n_tokens u ∧ k = token_cell u i k0)).
Proof.
  intros Hu Hsf Hs Hk. destruct (slot_rows _ _ _ _ Hsf Hs) as (_ & _ & _ & Hl & Hnd & Hin).
  unfold written in Hk. destruct (decide (j ∈ slot_row si s)) as [Hj|Hj].
  - right. split; [done|]. destruct (write_cells_in (slot_view kv si s)
      (writes u (s * per_slot kv u) (slot_view kv si s) (slot_row si s)) j) as (k' & Hw & E).
    + by rewrite writes_fst.
    + destruct (Hin j Hj) as [k0 Hk0]. by eapply lookup_lt_Some.
    + rewrite E in Hk. injection Hk as ->. apply writes_in in Hw as (ii & Hii & ->).
      exists (s * per_slot kv u + ii). eexists. split; [|done]. apply lookup_lt_Some in Hii.
      rewrite (uf_split _ _ Hu). nia.
  - left. split; [done|]. by rewrite write_cells_other in Hk by (by rewrite writes_fst).
Qed.

Lemma ready_written n kv u si kv' : ready n kv → kv_ok n kv' → ubatch_fits kv u → slot_fits kv u si →
  written_to kv u si kv' → ready n kv'.
Proof.
  intros [H1 H2 H3 H4 H5 H6] Hk' Hu Hsf [W1 W2 W3 W4 W5].
  assert (Hcase : ∀ t v k, views kv' !! t = Some v → k ∈ v →
    (∃ v0, views kv !! t = Some v0 ∧ k ∈ v0) ∨ ∃ i k0, i < n_tokens u ∧ k = token_cell u i k0).
  { intros t v k Hv [j Hj]%list_elem_of_lookup.
    destruct (decide (t ∈ slot_stream si <$> seq 0 (slots kv u))) as [Hin|Hno].
    - apply list_elem_of_fmap in Hin as (s & -> & Hs%elem_of_seq). rewrite W2 in Hv by lia.
      injection Hv as <-. destruct (written_cell kv u si s j k) as [[_ Hk]|[_ Hk]]; try done; [lia|left|by right].
      destruct (slot_rows _ _ _ s Hsf) as (_ & _ & Hvw & _); [lia|].
      exists (slot_view kv si s). split; [done|]. by eapply list_elem_of_lookup_2.
    - left. rewrite W3 in Hv; [exists v; eauto using list_elem_of_lookup_2|].
      intros s Hs E. apply Hno, list_elem_of_fmap. exists s. split; [done|]. apply elem_of_seq. lia. }
  pose proof W1 as (Ep & _). split; rewrite ?Ep; try done.
  - intros t v Hv k Hk. destruct (Hcase t v k Hv Hk) as [(v0 & Hv0 & Hk0)|(i & k0 & Hi & ->)]; [by apply (H2 t v0)|].
    destruct (uf_pos _ _ Hu i Hi) as (p & E & Hp). cbn. rewrite E. cbn. lia.
  - intros t v k q Hv Hk Hq. rewrite (same_rest_valid kv kv') by done.
    destruct (Hcase t v k Hv Hk) as [(v0 & Hv0 & Hk0)|(i & k0 & Hi & ->)]; [by apply (H3 t v0 k)|].
    destruct (uf_ids _ _ Hu i Hi) as (m & ids & _ & E & _ & _ & _ & Hq'). cbn in Hq. rewrite E in Hq. cbn in Hq.
    apply Hq'. by apply elem_of_list_to_set in Hq.
  - intros t v k Hv Hk. destruct (Hcase t v k Hv Hk) as [(v0 & Hv0 & Hk0)|(i & k0 & Hi & ->)]; [by apply (H4 t v0)|done].
Qed.

Lemma stream_flag kv kv' (t : nat) c c' : has_shift <$> v_cells kv' = has_shift <$> v_cells kv →
  v_cells kv !! t = Some c → v_cells kv' !! t = Some c' → has_shift c' = has_shift c.
Proof.
  intros E Hc Hc'. assert (H : (has_shift <$> v_cells kv') !! t = (has_shift <$> v_cells kv) !! t) by congruence.
  rewrite !list_lookup_fmap, Hc, Hc' in H. by injection H.
Qed.

(** One stream of the slot: the saved cells give the stream back. *)
Lemma restore_cells n kv u si kv' s c0 c1 : ready n kv → ready n kv' → ubatch_fits kv u → slot_fits kv u si →
  written_to kv u si kv' → s < slots kv u →
  v_cells kv !! slot_stream si s = Some c0 → v_cells kv' !! slot_stream si s = Some c1 →
  okP (cp_idxs c0 (slot_row si s)) (λ saved, set_idxs c1 (slot_row si s) saved = Ok c0).
Proof.
  intros Hr Hr' Hu Hsf Hw Hs Hc0 Hc1. pose proof (rd_ok _ _ Hr) as Hk. pose proof (rd_ok _ _ Hr') as Hk'.
  destruct (slot_rows _ _ _ _ Hsf Hs) as (_ & _ & Hv0 & Hl & Hnd & Hin).
  pose proof (wt_rows _ _ _ _ Hw s Hs) as Hv1.
  destruct (view_stream _ _ _ _ Hk Hv0) as [Ht _]. destruct (view_stream _ _ _ _ Hk' Hv1) as [Ht' _].
  destruct (stream_lookup _ _ _ Hk Ht) as (c & h & Hc & _ & Hso & Hv & _).
  destruct (stream_lookup _ _ _ Hk' Ht') as (c' & h' & Hc' & _ & Hso' & Hv' & _).
  rewrite Hc0 in Hc. rewrite Hc1 in Hc'. injection Hc as <-. injection Hc' as <-.
  assert (E0 : view c0 = slot_view kv si s) by congruence. assert (E1 : view c1 = written kv u si s) by congruence.
  apply cp_set_restores; [apply Hso|apply Hso'| | | |].
  - by rewrite (so_size _ _ _ Hso), (so_size _ _ _ Hso').
  - by apply (stream_flag _ _ _ _ _ (wt_shift _ _ _ _ Hw) Hc0 Hc1).
  - intros j Hj. rewrite E0, E1. unfold written. apply write_cells_other. by rewrite writes_fst.
  - apply Forall_forall. intros j Hj. destruct (Hin j Hj) as [k0 Hk0].
    destruct (lookup_lt_is_Some_2 (view c1) j) as [k1 Hk1].
    { rewrite E1. unfold written. rewrite foldl_write_length. by eapply lookup_lt_Some. }
    exists k0, k1. split_and!; [by rewrite E0|done| |].
    + apply (rd_shift _ _ Hr _ _ _ Hv0). by eapply list_elem_of_lookup_2.
    + apply (rd_shift _ _ Hr' _ _ _ Hv1). rewrite <- E1. by eapply list_elem_of_lookup_2.
Qed.

(** what [save_cells] returned before the slot was written *)
Definition saved_ok (kv : kv_cache) (u : llama_ubatch) (si : slot_info) (sv : saved_state) : Prop :=
  sv_sinfo sv = si ∧ sv_heads sv = v_heads kv ∧
  ∀ s, s < slots kv u → ∃ c o, v_cells kv !! slot_stream si s = Some c ∧ sv_cells sv !! s = Some o ∧
    cp_idxs c (slot_row si s) = Ok o.

Lemma save_cells_ok n kv u si kv' : ready n kv → ready n kv' → ubatch_fits kv u → slot_fits kv u si →
  written_to kv u si kv' →
  okP (save_cells kv si) (λ cs, saved_ok kv u si (Saved si (v_heads kv) cs)).
Proof.
  intros Hr Hr' Hu Hsf Hw. unfold save_cells. assert (Hns : si_n_stream si = slots kv u) by exact (sf_strm _ _ _ Hsf).
  rewrite Hns.
  assert (Hone : ∀ s, s < slots kv u → ∃ c o, v_cells kv !! slot_stream si s = Some c ∧
    (t ← vget (strm si) s; c ← vget (v_cells kv) t; l ← vget (idxs si) s; cp_idxs c l) = Ok o ∧
    cp_idxs c (slot_row si s) = Ok o).
  { intros s Hs. destruct (slot_rows _ _ _ _ Hsf Hs) as (Ht & Hrow & Hv0 & _).
    destruct (view_stream _ _ _ _ (rd_ok _ _ Hr) Hv0) as [Htl _].
    destruct (view_stream _ _ _ _ (rd_ok _ _ Hr') (wt_rows _ _ _ _ Hw s Hs)) as [Htl' _].
    destruct (stream_lookup _ _ _ (rd_ok _ _ Hr) Htl) as (c & _ & Hc & _).
    destruct (stream_lookup _ _ _ (rd_ok _ _ Hr') Htl') as (c' & _ & Hc' & _).
    destruct (proj1 (okP_ok _ _) (restore_cells n kv u si kv' s c c' Hr Hr' Hu Hsf Hw Hs Hc Hc')) as (o & Ho & _).
    exists c, o. rewrite (vget_ok _ _ _ Ht), bind_Ok, (vget_ok _ _ _ Hc), bind_Ok, (vget_ok _ _ _ Hrow), bind_Ok. done. }
  destruct (mapM_res_total (λ s, t ← vget (strm si) s; c ← vget (v_cells kv) t; l ← vget (idxs si) s; cp_idxs c l)
    (seq 0 (slots kv u))) as [cs Hcs].
  { intros s Hs%elem_of_seq. destruct (Hone s) as (_ & o & _ & Ho & _); [lia|eauto]. }
  rewrite Hcs. cbn [okP]. split_and!; [done|done|]. intros s Hs. cbn.
  destruct (Hone s Hs) as (c & o & Hc & Ho & Hcp). destruct (mapM_res_lookup _ _ _ Hcs) as [_ H].
  destruct (H s s) as (o' & Ho' & E); [by apply lookup_seq_lt|]. exists c, o'. split_and!; [done|done|congruence].
Qed.

Lemma strm_bound n kv u si : kv_ok n kv → slot_fits kv u si → slots kv u ≤ n_stream (par kv).
Proof.
  intros Hk Hsf. rewrite <- (sf_strm _ _ _ Hsf), <- (length_seq (n_stream (par kv)) 0).
  apply NoDup_incl_length; [apply NoDup_ListNoDup, Hsf|].
  intros t Ht%list_elem_of_In. apply list_elem_of_In, elem_of_seq. apply list_elem_of_lookup in Ht as [s Hs].
  pose proof (lookup_lt_Some _ _ _ Hs) as Hl. rewrite (sf_strm _ _ _ Hsf) in Hl.
  destruct (slot_rows _ _ _ _ Hsf Hl) as (E & _ & Hv & _). rewrite Hs in E. injection E as ->.
  destruct (view_stream _ _ _ _ Hk Hv). lia.
Qed.

Lemma same_cells n kv kv' (t : nat) : kv_ok n kv → kv_ok n kv' → same_rest kv kv' →
  views kv' !! t = views kv !! t → has_shift <$> v_cells kv' = has_shift <$> v_cells kv →
  v_cells kv' !! t = v_cells kv !! t.
Proof.
  intros Hk Hk' Hs Hv Hf. rewrite !views_lookup in Hv.
  destruct (v_cells kv' !! t) as [c'|] eqn:Hc', (v_cells kv !! t) as [c|] eqn:Hc; try done.
  pose proof (lookup_lt_Some _ _ _ Hc) as Hl. rewrite (ko_cells _ _ Hk) in Hl.
  destruct (stream_lookup _ _ _ Hk Hl) as (a & h & Ha & _ & Hso & _).
  rewrite <- (proj1 Hs) in Hl. destruct (stream_lookup _ _ _ Hk' Hl) as (a' & h' & Ha' & _ & Hso' & _).
  rewrite Hc in Ha. rewrite Hc' in Ha'. injection Ha as <-. injection Ha' as <-. f_equal.
  apply wf_determined; [apply Hso'|apply Hso|by injection Hv|]. by apply (stream_flag _ _ _ _ _ Hf Hc Hc').
Qed.

(** Writing the saved cells back: the cells are those from before, and with one
    stream the head too. *)
Definition undone (n : nat) (kv r : kv_cache) : Prop :=
  kv_ok n r ∧ same_rest kv r ∧ v_cells r = v_cells kv ∧ (n_stream (par kv) = 1 → v_heads r = v_heads kv).

Lemma restore_ok n kv u si kv' sv w : ready n kv → ready n kv' → ubatch_fits kv u → slot_fits kv u si →
  written_to kv u si kv' → saved_ok kv u si sv →
  kv_ok n w → same_rest kv w → v_cells w = v_cells kv' →
  okP (restore w sv) (undone n kv).
Proof.
  intros Hr Hr' Hu Hsf Hw (Esi & Ehd & Hsv) Hkw Hsw Ecw. unfold restore. rewrite Esi.
  assert (Hns : si_n_stream si = slots kv u) by exact (sf_strm _ _ _ Hsf). rewrite Hns.
  pose proof (rd_ok _ _ Hr) as Hk. pose proof (rd_ok _ _ Hr') as Hk'.
  pose proof (strm_bound _ _ _ _ Hk Hsf) as Hb.
  eapply okP_mono; [apply (okP_for _ (λ m r, kv_ok n r ∧ same_rest kv r ∧
    (∀ s, s < m → v_cells r !! slot_stream si s = v_cells kv !! slot_stream si s) ∧
    (∀ t, (∀ s, s < m → t ≠ slot_stream si s) → v_cells r !! t = v_cells kv' !! t) ∧
    (n_stream (par kv) = 1 → 1 ≤ m → v_heads r = v_heads kv)))|].
  - split_and!; try done; [intros; lia|intros; by rewrite Ecw|intros; lia].
  - intros m r Hm (Hkr & Hsr & Hd & Ho & Hh).
    destruct (slot_rows _ _ _ _ Hsf Hm) as (Et & Erow & Hv & _).
    destruct (view_stream _ _ _ _ Hk Hv) as [Htl _].
    destruct (Hsv m Hm) as (c0 & o & Hc0 & Ho' & Hcp).
    assert (Hother : ∀ s, s < slots kv u → s ≠ m → slot_stream si m ≠ slot_stream si s).
    { intros s Hs Hne E. destruct (slot_rows _ _ _ _ Hsf Hs) as (Es & _).
      apply Hne. rewrite <- E in Es. by apply (NoDup_lookup _ _ _ _ (sf_diff _ _ _ Hsf) Es Et). }
    destruct (stream_lookup _ _ _ Hk' (proj1 (view_stream _ _ _ _ Hk' (wt_rows _ _ _ _ Hw m Hm))))
      as (c1 & _ & Hc1 & _).
    pose proof (restore_cells n kv u si kv' m c0 c1 Hr Hr' Hu Hsf Hw Hm Hc0 Hc1) as Hrc.
    rewrite Hcp in Hrc. cbn [okP] in Hrc.
    assert (Hcr : v_cells r !! slot_stream si m = Some c1).
    { rewrite Ho; [done|]. intros s Hs. apply Hother; lia. }
    destruct (lookup_lt_is_Some_2 (v_heads kv) m) as [h Hhm]; [rewrite (ko_heads _ _ Hk); lia|].
    assert (Htr : slot_stream si m < n_stream (par r)) by (by rewrite (proj1 Hsr)).
    unfold restore_stream. rewrite Esi, (vget_ok _ _ _ Et), bind_Ok, (vget_ok _ _ _ Hcr), bind_Ok,
      (vget_ok _ _ _ Erow), bind_Ok, (vget_ok _ _ _ Ho'), bind_Ok, Hrc, bind_Ok, Ehd, (vget_ok _ _ _ Hhm), bind_Ok.
    rewrite (vset_ok (v_cells r)), bind_Ok by (by rewrite (ko_cells _ _ Hkr)).
    rewrite (vset_ok (v_heads r)), bind_Ok by (by rewrite (ko_heads _ _ Hkr)). cbn [okP].
    destruct (stream_lookup _ _ _ Hk Htl) as (c0' & h0 & Hc0' & Hh0 & Hso & _).
    rewrite Hc0 in Hc0'. injection Hc0' as <-.
    assert (Hhn : h ≤ n).
    { destruct (stream_lookup n kv m Hk) as (cm & hm & _ & Hhm' & Hsom & _); [lia|].
      rewrite Hhm in Hhm'. injection Hhm' as <-. apply Hsom. }
    split_and!; cbn.
    + apply kv_ok_with_stream; [done|done|]. split; try apply Hso. done.
    + done.
    + intros s Hs. destruct (decide (s = m)) as [->|Hne].
      * by rewrite list_lookup_insert_eq by (by rewrite (ko_cells _ _ Hkr)).
      * rewrite list_lookup_insert_ne by (apply Hother; lia). apply Hd. lia.
    + intros t Ht. rewrite list_lookup_insert_ne by (apply not_eq_sym, Ht; lia). apply Ho. intros; apply Ht; lia.
    + intros H1 _. assert (m = 0) as -> by lia. assert (E0 : slot_stream si 0 = 0) by lia. rewrite E0.
      pose proof (ko_heads _ _ Hkr) as Hl1. rewrite (proj1 Hsr), H1 in Hl1.
      pose proof (ko_heads _ _ Hk) as Hl2. rewrite H1 in Hl2.
      destruct (v_heads r) as [|x [|]]; try done. destruct (v_heads kv) as [|y [|]]; try done.
      cbn in *. by injection Hhm as ->.
  - intros r (Hkr & Hsr & Hd & Ho & Hh). split_and!; [done|done| |].
    + apply list_eq. intros t.
      destruct (decide (t ∈ slot_stream si <$> seq 0 (slots kv u))) as [Hin|Hno].
      * apply list_elem_of_fmap in Hin as (s & -> & Hs%elem_of_seq). apply Hd. lia.
      * assert (Hnot : ∀ s, s < slots kv u → t ≠ slot_stream si s).
        { intros s Hs E. apply Hno, list_elem_of_fmap. exists s. split; [done|]. apply elem_of_seq. lia. }
        rewrite Ho by done. apply (same_cells n kv kv' t); try done.
        -- apply (wt_rest _ _ _ _ Hw).
        -- by apply (wt_other _ _ _ _ Hw).
        -- apply (wt_shift _ _ _ _ Hw).
    + intros H1. apply Hh; [done|]. apply Hu.
Qed.

(** The micro-batches [us], each in the slot found for it, one after the other. *)
Inductive placed : kv_cache → list llama_ubatch → list slot_info → kv_cache → Prop :=
  | placed_nil kv : placed kv [] [] kv
  | placed_snoc kv us sis kv1 u si kv2 :
      placed kv us sis kv1 → find_slot kv1 u false = Ok si → si_empty si = false →
      apply_ubatch kv1 si u = Ok kv2 → placed kv (us ++ [u]) (sis ++ [si]) kv2.

(** the recovery stack leads back from [kv'] to [kv] *)
Inductive recovers (n : nat) (kv : kv_cache) : list saved_state → kv_cache → Prop :=
  | recovers_nil : recovers n kv [] kv
  | recovers_snoc svs sv kv1 kv2 : recovers n kv svs kv1 →
      (∀ w, kv_ok n w → same_rest kv1 w → v_cells w = v_cells kv2 → okP (restore w sv) (undone n kv1)) →
      same_rest kv1 kv2 → (n_stream (par kv) = 1 → n_stream (par kv1) = 1) →
      recovers n kv (svs ++ [sv]) kv2.

Lemma recovers_ok n kv svs kv' w : recovers n kv svs kv' → kv_ok n w → same_rest kv' w →
  v_cells w = v_cells kv' → (n_stream (par kv) = 1 → svs = [] → v_heads w = v_heads kv) →
  okP (foldM restore w (rev svs)) (undone n kv).
Proof.
  intros Hr. revert w. induction Hr as [|svs sv kv1 kv2 Hr IH Hsv Hs12 Hn]; intros w Hk Hs Hc Hh.
  - cbn. split_and!; try done. intros H1. by apply Hh.
  - rewrite rev_app_distr. cbn [rev app foldM].
    eapply okP_bind; [apply (Hsv w Hk); [by eapply same_rest_trans|done]|].
    intros w1 (Hk1 & Hs1 & Hc1 & Hh1). apply IH; try done. intros H1 ->. inversion Hr; subst; [by apply Hh1|].
    by destruct svs.
Qed.

(** no slot for [u] after the micro-batches before it *)
Definition unplaceable (kv : kv_cache) (us : list llama_ubatch) : Prop :=
  ∃ us1 u us2 sis kv1 si, us = us1 ++ u :: us2 ∧ placed kv us1 sis kv1 ∧
    find_slot kv1 u false = Ok si ∧ si_empty si = true.

Definition prepare_inv (n : nat) (kv0 : kv_cache) (done_ : list llama_ubatch)
    (st : kv_cache * list slot_info * list saved_state * bool) : Prop :=
  let '(kv, found, states, success) := st in
  ready n kv ∧ same_rest kv0 kv ∧ recovers n kv0 states kv ∧ (states = [] → kv = kv0) ∧
  if success : bool then placed kv0 done_ found kv ∧ length states = length done_ else unplaceable kv0 done_.

Lemma unplaceable_app kv us us' : unplaceable kv us → unplaceable kv (us ++ us').
Proof.
  intros (us1 & u & us2 & sis & kv1 & si & -> & H). exists us1, u, (us2 ++ us'), sis, kv1, si.
  by rewrite <- app_assoc.
Qed.

Lemma prepare_step_ok n kv0 us st u : prepare_inv n kv0 us st → ubatch_fits kv0 u →
  okP (prepare_step st u) (prepare_inv n kv0 (us ++ [u])).
Proof.
  destruct st as [[[kv found] states] success]. intros (Hr & Hs & Hrec & Hnil & Hsu) Hu0. cbn [prepare_step].
  destruct success; [|cbn; split_and!; try done; by apply unplaceable_app].
  destruct Hsu as [Hpl Hlen]. pose proof (ubatch_fits_rest _ _ _ Hs Hu0) as Hu.
  destruct (proj1 (okP_ok _ _) (find_slot_ok kv n u false (rd_ok _ _ Hr) (ready_swa _ _ Hr) (rd_small _ _ Hr) Hu
    (rd_max _ _ Hr))) as (si & Efs & Hsi). rewrite Efs, bind_Ok.
  destruct (si_empty si) eqn:Ee.
  { cbn. split_and!; try done. exists us, u, [], found, kv, si. done. }
  pose proof (slot_ok_fits _ _ _ _ Hu Hsi) as Hsf. pose proof (slot_ok_empty _ _ _ _ (rd_swa _ _ Hr) Hsi) as Hse.
  destruct (proj1 (okP_ok _ _) (apply_ubatch_ok n kv u si (rd_ok _ _ Hr) (rd_small _ _ Hr) (rd_seqs _ _ Hr) Hu Hsf))
    as (kv' & Eap & Hk' & Hap).
  pose proof (applied_empty _ _ _ _ Hsf Hse Hap) as Hwt.
  pose proof (ready_written _ _ _ _ _ Hr Hk' Hu Hsf Hwt) as Hr'.
  eapply okP_bind; [by apply (save_cells_ok n kv u si kv')|]. intros cs Hsv. rewrite Eap, bind_Ok. cbn [okP].
  pose proof (wt_rest _ _ _ _ Hwt) as Hs'.
  split_and!; [done|by eapply same_rest_trans| |by destruct states| |by rewrite !length_app, Hlen].
  - econstructor; [exact Hrec| |done|by rewrite (proj1 Hs)].
    intros w Hw1 Hw2 Hw3. by apply (restore_ok n kv u si kv').
  - by econstructor.
Qed.

Lemma prepare_ok n kv us : ready n kv → us ≠ [] → Forall (ubatch_fits kv) us →
  okP (prepare kv us) (λ r, undone n kv r.1 ∧
    ((r.2 = [] ∧ unplaceable kv us) ∨ (length r.2 = length us ∧ ∃ kv', placed kv us r.2 kv' ∧ ready n kv'))).
Proof.
  intros Hr Hne Hus. unfold prepare.
  assert (Hfold : ∀ l done_ st, prepare_inv n kv done_ st → Forall (ubatch_fits kv) l →
    okP (foldM prepare_step st l) (prepare_inv n kv (done_ ++ l))).
  { induction l as [|u l IH]; intros dn st Hst Hl; cbn [foldM]; [by rewrite app_nil_r|].
    apply Forall_cons in Hl as [Hu Hl]. eapply okP_bind; [by apply prepare_step_ok|]. intros st' Hst'.
    specialize (IH _ _ Hst' Hl). by rewrite <- app_assoc in IH. }
  eapply okP_bind; [apply (Hfold us [] (kv, [], [], true)); [|done]|].
  { cbn. split_and!; try done; constructor. }
  intros [[[kv1 found] states] success] (Hr1 & Hs1 & Hrec & Hnil & Hsu). cbn [app] in Hsu.
  rewrite ggml_assert_ok, bind_Ok.
  2:{ destruct success; [|by rewrite orb_true_r]. destruct Hsu as [_ Hl]. apply orb_true_intro. left.
      apply bool_decide_eq_true_2. intros ->. by destruct us. }
  eapply okP_bind; [apply (recovers_ok n kv states kv1 kv1 Hrec); try done; [apply Hr1|]|].
  { intros _ E. by rewrite Hnil. }
  intros r Hund. cbn. split; [done|]. destruct success; [right|by left].
  destruct Hsu as [Hpl Hlen]. split; [|by eauto].
  clear -Hpl. induction Hpl; [done|]. rewrite !length_app. cbn. lia.
Qed.

(** *** [get_n_kv] *)
Lemma land_ldiff_sum a b : (Z.ldiff a b + Z.land a b = a)%Z.
Proof.
  assert (H : Z.land (Z.ldiff a b) (Z.land a b) = 0%Z).
  { rewrite Z.land_comm, <- Z.land_assoc, (Z.land_comm b), Z.land_ldiff. by rewrite Z.land_0_r. }
  by rewrite Z.add_nocarry_lxor, Z.lxor_lor, Z.lor_ldiff_and by done.
Qed.

Lemma land_le a b : (0 ≤ b)%Z → (Z.land a b ≤ b)%Z.
Proof.
  intros Hb. pose proof (land_ldiff_sum b a) as H. rewrite Z.land_comm.
  assert (0 ≤ Z.ldiff b a)%Z by (apply Z.ldiff_nonneg; by left). lia.
Qed.

Lemma pad_le x n : (0 ≤ x)%Z → (1 ≤ n)%Z → (x + n ≤ 4294967296)%Z → (x ≤ GGML_PAD x n)%Z.
Proof.
  intros Hx Hn Hb. unfold GGML_PAD, u32. rewrite Z.mod_small by lia. rewrite <- Z.ldiff_land.
  pose proof (land_ldiff_sum (x + n - 1) (n - 1)). pose proof (land_le (x + n - 1) (n - 1) ltac:(lia)). lia.
Qed.

Definition strm_ok (kv : kv_cache) (si : slot_info) : Prop := ∀ s t, strm si !! s = Some t → t < n_stream (par kv).

Lemma get_n_kv_ok n kv si : kv_ok n kv → strm_ok kv si →
  (Z.of_nat n + Z.of_nat (n_pad (par kv) `max` 256) ≤ 4294967296)%Z →
  okP (get_n_kv kv si) (λ r, r ≤ n ∧ ∀ s t v j k, strm si !! s = Some t → views kv !! t = Some v →
    v !! j = Some k → c_pos k ≠ (-1)%Z → j < r).
Proof.
  intros Hk Hst Hpad. unfold get_n_kv.
  eapply okP_mono; [apply (okP_for _ (λ m r, r ≤ n ∧ ∀ s t v j k, s < m → strm si !! s = Some t →
    views kv !! t = Some v → v !! j = Some k → c_pos k ≠ (-1)%Z → j < r))|].
  - split; [lia|intros; lia].
  - intros m r Hm [Hr Hd]. destruct (lookup_lt_is_Some_2 (strm si) m Hm) as [t Et].
    destruct (stream_lookup _ _ _ Hk (Hst _ _ Et)) as (c & h & Hc & _ & Hso & Hv & _).
    rewrite (vget_ok _ _ _ Et), bind_Ok, (vget_ok _ _ _ Hc), bind_Ok. cbn [okP].
    rewrite (so_size _ _ _ Hso). split; [lia|]. intros s t' v j k Hs Et' Hv' Hj Hp.
    destruct (decide (s = m)) as [->|Hne]; [|specialize (Hd s t' v j k ltac:(lia) Et' Hv' Hj Hp); lia].
    assert (v = view c) as -> by congruence.
    pose proof (used_max_p1_bound c j k (so_wf _ _ _ Hso) Hj Hp) as H1.
    pose proof (used_max_p1_le c (so_wf _ _ _ Hso)) as H2. rewrite (so_size _ _ _ Hso) in H2.
    pose proof (pad_le (used_max_p1 c) (Z.of_nat (n_pad (par kv) `max` 256)) ltac:(lia) ltac:(lia) ltac:(lia)) as H3.
    assert (H4 : j < n) by (rewrite <- (so_size _ _ _ Hso); by eapply view_lt; [apply Hso|]). lia.
  - intros r [Hr Hd]. split; [done|]. intros s t v j k Es. by apply (Hd s t v j k (lookup_lt_Some _ _ _ Es)).
Qed.

(** ** An example: one token of sequence 0 at position 8 *)
Definition ex_ubatch (q p : Z) : llama_ubatch :=
  UBatch true 1 1 1 1 1 (Some [1%Z]) None [p] [1%Z] [[q]] [q] [] [1%Z].

Lemma ex_ready : ready 4 ex_kv.
Proof.
  assert (Hv : ∀ t v, views ex_kv !! t = Some v → v = ex_view).
  { intros t v. rewrite views_lookup. intros (c & Hc & ->)%fmap_Some. change (v_cells ex_kv) with [ex_cells] in Hc.
    apply list_lookup_singleton_Some in Hc as [_ <-]. apply ex_cells_view. }
  split; [apply ex_kv_ok|..].
  - intros t v E. rewrite (Hv _ _ E). unfold small_pos, ex_view, INT32_MAX. intros k.
    rewrite !elem_of_cons, elem_of_nil. intros H. naive_solver lia.
  - intros t v k q E. rewrite (Hv _ _ E). unfold ex_view. rewrite !elem_of_cons, elem_of_nil. intros Hk Hq.
    apply (proj1 (ex_valid q ltac:(destruct Hk as [->|[->|[->|[->|[]]]]]; cbn in Hq; set_solver by lia))).
  - intros t v k E. rewrite (Hv _ _ E). unfold ex_view. rewrite !elem_of_cons, elem_of_nil. naive_solver.
  - done.
  - pose proof MAX_SEQ_eq. unfold LLAMA_MAX_SEQ in *. cbn. lia.
Qed.

Lemma ex_fits_ubatch p : (0 ≤ p < INT32_MAX)%Z → ubatch_fits ex_kv (ex_ubatch 0 p).
Proof.
  intros Hp. assert (Es : slots ex_kv (ex_ubatch 0 p) = 1) by done.
  assert (Ep : per_slot ex_kv (ex_ubatch 0 p) = 1) by done.
  split; rewrite ?Es, ?Ep; try done; cbn [n_tokens ex_ubatch].
  - intros [|i] Hi; [|lia]. by exists p.
  - intros [|i] Hi; [|lia]. exists 1%Z, [0%Z]. split_and!; try done; [apply NoDup_singleton|].
    intros q ->%list_elem_of_singleton. by apply ex_valid.
  - intros [|s] Hs; [|lia]. exists 0%Z. split; [done|by apply ex_valid].
  - cbn. lia.
  - intros [|s] [|t] q r Hs Ht Hne; done || lia.
Qed.

(** C3. The slot search is sound, complete and terminates: for a micro-batch that
    fits the cache, [find_slot] returns (it never runs into an assertion, an
    index out of range or an endless loop). What it returns holds, for each
    sequence of the micro-batch, the sequence's stream and as many different
    usable cells as there are tokens (consecutive ones when asked to); it returns
    no slot only when the stream of some sequence really has none: too few usable
    cells or, when asked for consecutive ones, no window of that many usable cells
    anywhere in the stream, also none across the head where the search began. *)
Theorem find_slot_correct n kv u cont : kv_ok n kv → swa_ok kv → kv_small kv → ubatch_fits kv u →
  n_stream (par kv) ≤ MAX_SEQ →
  okP (find_slot kv u cont) (λ si,
    (si_empty si = false ∧ slot_ok kv u cont si (slots kv u)) ∨
    (si_empty si = true ∧ (∃ s q v, s < slots kv u ∧ u_seq_id_unq u !! s = Some q ∧
       views kv !! stream_idx kv q = Some v ∧ no_slot kv v cont (per_slot kv u)))).
Proof.
  intros Hk Hswa Hsm Hu HM. eapply okP_mono; [by apply (find_slot_ok kv n)|]. intros si H. cbn beta in H. destruct (si_empty si); [right|left]; (split; [done|exact H]).
Qed.

Lemma find_slot_correct_witness :
  okP (find_slot ex_kv (ex_ubatch 0 8) false) (λ si,
    (si_empty si = false ∧ slot_ok ex_kv (ex_ubatch 0 8) false si 1) ∨
    (si_empty si = true ∧ (∃ s q v, s < 1 ∧ u_seq_id_unq (ex_ubatch 0 8) !! s = Some q ∧
       views ex_kv !! stream_idx ex_kv q = Some v ∧ no_slot ex_kv v false 1))).
Proof.
  apply (find_slot_correct 4 ex_kv (ex_ubatch 0 8) false); [apply ex_kv_ok|exact (ready_swa 4 _ ex_ready)|exact (rd_small 4 _ ex_ready)|by apply ex_fits_ubatch|exact (rd_max 4 _ ex_ready)].
Defined.

(** C28. Placing a micro-batch into the slot found for it: [apply_ubatch] succeeds,
    the cache stays well formed, the cells of the slot hold exactly the tokens'
    positions and sequences, every sequence whose cells were overwritten loses
    the positions up to the largest overwritten one, everything else keeps its
    contents, and the heads point behind the slot. *)
Theorem apply_ubatch_correct n kv u cont si : kv_ok n kv → kv_small kv → seqs_valid kv → ubatch_fits kv u →
  slot_ok kv u cont si (slots kv u) →
  okP (apply_ubatch kv si u) (λ kv', kv_ok n kv' ∧ applied kv u si kv').
Proof. intros Hk Hsm Hsv Hu Hsl. apply apply_ubatch_ok; try done. by eapply slot_ok_fits. Qed.

Definition ex_slot : slot_info := SlotInfo 0 0 [0] [[3]].
Lemma ex_slot_ok : slot_ok ex_kv (ex_ubatch 0 8) false ex_slot 1.
Proof.
  split; [done|done|]. intros [|s] Hs; [|lia]. exists 0%Z, [3], ex_view.
  rewrite (proj2 (ex_valid 0 ltac:(lia))).
  assert (Hv : views ex_kv !! 0 = Some ex_view) by (by rewrite <- ex_cells_view).
  split_and!; try done. split_and!; [done|apply NoDup_singleton|].
  - intros i ->%list_elem_of_singleton. exists cell_none. split; [done|by left].
Qed.

Lemma apply_ubatch_correct_witness :
  okP (apply_ubatch ex_kv ex_slot (ex_ubatch 0 8)) (λ kv', kv_ok 4 kv' ∧ applied ex_kv (ex_ubatch 0 8) ex_slot kv').
Proof.
  apply (apply_ubatch_correct 4 ex_kv (ex_ubatch 0 8) false ex_slot);
    [apply ex_kv_ok|exact (rd_small 4 _ ex_ready)|exact (rd_seqs 4 _ ex_ready)|by apply ex_fits_ubatch|apply ex_slot_ok].
Defined.

(** C26. [prepare] plans without a trace: without a sliding window and pending
    shifts, it returns the slots in which the micro-batches can be placed one
    after the other (or none, and then some micro-batch really finds no slot),
    and the cells are exactly those from before; with a single stream so is the
    head, that is, the whole cache. *)
Theorem prepare_correct n kv us : ready n kv → us ≠ [] → Forall (ubatch_fits kv) us →
  okP (prepare kv us) (λ r,
    kv_ok n r.1 ∧ same_rest kv r.1 ∧ v_cells r.1 = v_cells kv ∧
    (n_stream (par kv) = 1 → v_heads r.1 = v_heads kv) ∧
    ((r.2 = [] ∧ unplaceable kv us) ∨ (length r.2 = length us ∧ ∃ kv', placed kv us r.2 kv' ∧ ready n kv'))).
Proof.
  intros Hr Hne Hus. eapply okP_mono; [by apply prepare_ok|]. intros r [(H1 & H2 & H3 & H4) H5]. done.
Qed.

Lemma prepare_correct_witness :
  okP (prepare ex_kv [ex_ubatch 0 8]) (λ r,
    kv_ok 4 r.1 ∧ same_rest ex_kv r.1 ∧ v_cells r.1 = v_cells ex_kv ∧
    (n_stream (par ex_kv) = 1 → v_heads r.1 = v_heads ex_kv) ∧
    ((r.2 = [] ∧ unplaceable ex_kv [ex_ubatch 0 8]) ∨
     (length r.2 = 1 ∧ ∃ kv', placed ex_kv [ex_ubatch 0 8] r.2 kv' ∧ ready 4 kv'))).
Proof.
  apply (prepare_correct 4 ex_kv [ex_ubatch 0 8]); [apply ex_ready|done|].
  apply Forall_singleton. by apply ex_fits_ubatch.
Defined.

(** C39. The window the attention looks at: [get_n_kv] returns a number of cells,
    at most the size of a stream, such that every used cell of the streams of
    the slot lies below it. *)
Theorem n_kv_covers n kv si : kv_ok n kv → strm_ok kv si →
  (Z.of_nat n + Z.of_nat (n_pad (par kv) `max` 256) ≤ 4294967296)%Z →
  okP (get_n_kv kv si) (λ r, r ≤ n ∧ ∀ s t v j k, strm si !! s = Some t → views kv !! t = Some v →
    v !! j = Some k → c_pos k ≠ (-1)%Z → j < r).
Proof. apply get_n_kv_ok. Qed.

Lemma n_kv_covers_witness :
  okP (get_n_kv ex_kv ex_slot) (λ r, r ≤ 4 ∧ ∀ s t v j k, strm ex_slot !! s = Some t → views ex_kv !! t = Some v →
    v !! j = Some k → c_pos k ≠ (-1)%Z → j < r).
Proof.
  apply (n_kv_covers 4 ex_kv ex_slot); [apply ex_kv_ok| |by vm_compute].
  intros [|s] t; [intros [= <-]; cbn; lia|done].
Defined.

(** A sliding window of two positions; the cells hold positions 0 to 3 of sequence 0. *)
Definition ex_swa_run : res llama_kv_cells :=
  foldM (λ c i, ex_put c i (Z.of_nat i) [0%Z]) (resize 4) (seq 0 4).
Definition ex_swa_cells : llama_kv_cells := match ex_swa_run with Ok c => c | Err _ => resize 4 end.
Definition ex_swa_kv : kv_cache :=
  KvCache (Params 1 2 1 2 SWA_STANDARD false 1 0 false) [1] [ex_swa_cells] (replicate MAX_SEQ 0) [].

Definition prepared_heads (kv : kv_cache) (us : list llama_ubatch) : option (list nat) :=
  match prepare kv us with Ok (kv', _) => Some (v_heads kv') | Err _ => None end.
Definition positions (kv : kv_cache) : list (list Z) := pos <$> v_cells kv.
Definition prepared_positions (kv : kv_cache) (us : list llama_ubatch) : option (list (list Z)) :=
  match prepare kv us with Ok (kv', _) => Some (positions kv') | Err _ => None end.

(** [prepare] does leave traces where its comment says it restores: with two
    streams, the head of stream 1 becomes the old head of stream 0 (the saved
    heads are indexed by the row of the slot, not by the stream); and with a
    sliding window, the cell of position 0, which [apply_ubatch] purged because
    position 1 was overwritten, stays purged. *)
Theorem prepare_leaves_traces :
  v_heads ex_kv2 = [3; 0] ∧ prepared_heads ex_kv2 [ex_ubatch 1 0] = Some [3; 3] ∧
  positions ex_swa_kv = [[0; 1; 2; 3]]%Z ∧
  prepared_positions ex_swa_kv [ex_ubatch 0 4] = Some [[-1; 1; 2; 3]]%Z.
Proof. split_and!; vm_compute; reflexivity. Qed.

(** *** Running a prepared batch *)
Lemma slot_fits_views a b u si : same_rest a b → views b = views a → slot_fits a u si → slot_fits b u si.
Proof.
  intros (Ep & _) Hv [H1 H2 H3 H4].
  assert (Es : slots b u = slots a u) by (unfold slots; by rewrite Ep).
  assert (Epp : per_slot b u = per_slot a u) by (unfold per_slot; by rewrite Es).
  split; rewrite ?Es, ?Epp, ?Hv; done.
Qed.

Lemma ready_cells n a b : kv_ok n b → same_rest a b → v_cells b = v_cells a → ready n a → ready n b.
Proof.
  intros Hk Hs Hc [H1 H2 H3 H4 H5 H6]. assert (Hv : views b = views a) by (unfold views; by rewrite Hc).
  pose proof Hs as (Ep & _).
  split; unfold kv_small, seqs_valid, no_shift; rewrite ?Hv, ?Ep; try done.
  intros t v k q Ht Hin Hq. rewrite (same_rest_valid a b) by done. by apply (H3 t v k).
Qed.

(** [apply_ubatch] into empty cells does not look at the heads. *)
Lemma apply_same_cells n a b u si a' : ready n a → kv_ok n b → same_rest a b → v_cells b = v_cells a →
  ubatch_fits a u → slot_fits a u si → slot_empty a u si → apply_ubatch a si u = Ok a' →
  okP (apply_ubatch b si u) (λ b', kv_ok n b' ∧ same_rest a' b' ∧ v_cells b' = v_cells a').
Proof.
  intros Ha Hkb Hs Hc Hu Hsf Hse Eap.
  pose proof (ready_cells n a b Hkb Hs Hc Ha) as Hb.
  assert (Hv : views b = views a) by (unfold views; by rewrite Hc).
  assert (Es : slots b u = slots a u) by (unfold slots; by rewrite (proj1 Hs)).
  assert (Epp : per_slot b u = per_slot a u) by (unfold per_slot; by rewrite Es).
  pose proof (slot_fits_views a b u si Hs Hv Hsf) as Hsfb.
  pose proof (ubatch_fits_rest a b u Hs Hu) as Hub.
  assert (Hseb : slot_empty b u si) by (unfold slot_empty, slot_view; rewrite Es, Hv; exact Hse).
  pose proof (apply_ubatch_ok n a u si (rd_ok _ _ Ha) (rd_small _ _ Ha) (rd_seqs _ _ Ha) Hu Hsf) as Hoka.
  rewrite Eap in Hoka. destruct Hoka as [Hka' Hapa]. pose proof (applied_empty _ _ _ _ Hsf Hse Hapa) as Wa.
  eapply okP_mono; [by apply (apply_ubatch_ok n b u si Hkb (rd_small _ _ Hb) (rd_seqs _ _ Hb) Hub)|].
  intros b' [Hkb' Hapb]. pose proof (applied_empty _ _ _ _ Hsfb Hseb Hapb) as Wb.
  assert (Hs' : same_rest a' b').
  { eapply same_rest_trans; [apply same_rest_sym, Wa|]. eapply same_rest_trans; [exact Hs|apply Wb]. }
  split_and!; [done|done|]. apply list_eq. intros t. apply (same_cells n a' b' t); try done.
  - destruct (decide (t ∈ slot_stream si <$> seq 0 (slots a u))) as [Hin|Hno].
    + apply list_elem_of_fmap in Hin as (s & -> & Hin%elem_of_seq).
      rewrite (wt_rows _ _ _ _ Wa), (wt_rows _ _ _ _ Wb) by lia. unfold written, slot_view. by rewrite Hv, Epp.
    + assert (Hnot : ∀ s, s < slots a u → t ≠ slot_stream si s).
      { intros s Hlt E. apply Hno, list_elem_of_fmap. exists s. split; [done|]. apply elem_of_seq. lia. }
      rewrite (wt_other _ _ _ _ Wa), (wt_other _ _ _ _ Wb) by (done || by rewrite Es). by rewrite Hv.
  - rewrite (wt_shift _ _ _ _ Wa), (wt_shift _ _ _ _ Wb). by rewrite Hc.
Qed.

(** the same from the front: every step applies the next micro-batch *)
Inductive runs (n : nat) : kv_cache → list llama_ubatch → list slot_info → kv_cache → Prop :=
  | runs_nil kv : runs n kv [] [] kv
  | runs_cons kv u us si sis kv1 kv2 : ready n kv → ubatch_fits kv u → slot_fits kv u si → slot_empty kv u si →
      apply_ubatch kv si u = Ok kv1 → ready n kv1 → same_rest kv kv1 → runs n kv1 us sis kv2 →
      runs n kv (u :: us) (si :: sis) kv2.

Lemma runs_snoc n kv us sis kv1 u si kv2 : runs n kv us sis kv1 → ready n kv1 → ubatch_fits kv1 u →
  slot_fits kv1 u si → slot_empty kv1 u si → apply_ubatch kv1 si u = Ok kv2 → ready n kv2 → same_rest kv1 kv2 →
  runs n kv (us ++ [u]) (sis ++ [si]) kv2.
Proof. induction 1; intros; cbn; (econstructor; [done..|]); [constructor|auto]. Qed.

Lemma placed_runs n kv us sis kv' : ready n kv → Forall (ubatch_fits kv) us → placed kv us sis kv' →
  runs n kv us sis kv' ∧ ready n kv' ∧ same_rest kv kv'.
Proof.
  intros Hr Hus Hp. induction Hp as [kv|kv us sis kv1 u si kv2 Hp IH Efs Ee Eap]; [split_and!; [constructor|done|done]|].
  apply Forall_app in Hus as [Hus Hu]. apply Forall_cons in Hu as [Hu _]. destruct (IH Hr Hus) as (H1 & Hr1 & Hs1).
  pose proof (ubatch_fits_rest _ _ _ Hs1 Hu) as Hu1.
  pose proof (find_slot_ok kv1 n u false (rd_ok _ _ Hr1) (ready_swa _ _ Hr1) (rd_small _ _ Hr1) Hu1 (rd_max _ _ Hr1)) as Hfs.
  rewrite Efs in Hfs. cbn [okP] in Hfs. rewrite Ee in Hfs.
  pose proof (slot_ok_fits _ _ _ _ Hu1 Hfs) as Hsf. pose proof (slot_ok_empty _ _ _ _ (rd_swa _ _ Hr1) Hfs) as Hse.
  pose proof (apply_ubatch_ok n kv1 u si (rd_ok _ _ Hr1) (rd_small _ _ Hr1) (rd_seqs _ _ Hr1) Hu1 Hsf) as Hap.
  rewrite Eap in Hap. destruct Hap as [Hk2 Hap]. pose proof (applied_empty _ _ _ _ Hsf Hse Hap) as Hwt.
  pose proof (ready_written _ _ _ _ _ Hr1 Hk2 Hu1 Hsf Hwt) as Hr2. pose proof (wt_rest _ _ _ _ Hwt) as Hs2.
  split_and!; [by eapply runs_snoc|done|by eapply same_rest_trans].
Qed.

Lemma slot_fits_strm n kv u si w : kv_ok n kv → slot_fits kv u si → same_rest kv w → strm_ok w si.
Proof.
  intros Hk Hsf Hs s t E. rewrite (proj1 Hs). pose proof (lookup_lt_Some _ _ _ E) as Hl.
  rewrite (sf_strm _ _ _ Hsf) in Hl. destruct (slot_rows _ _ _ _ Hsf Hl) as (E' & _ & Hv & _).
  rewrite E in E'. injection E' as ->. by destruct (view_stream _ _ _ _ Hk Hv).
Qed.

Lemma run_context_ok n env kv us sis kv' : runs n kv us sis kv' → us ≠ [] →
  (Z.of_nat n + Z.of_nat (n_pad (par kv) `max` 256) ≤ 4294967296)%Z →
  ∀ pre pre' w m ds sc, length pre = length pre' → kv_ok n w → same_rest kv w → v_cells w = v_cells kv →
  okP (run_context (length us) env w (KvContext STATUS_SUCCESS (pre' ++ sis) (pre ++ us) (length pre) m ds sc))
    (λ r, kv_ok n r.1 ∧ same_rest kv' r.1 ∧ v_cells r.1 = v_cells kv').
Proof.
  induction 1 as [|kv u us si sis kv1 kv2 Hr Hu Hsf Hse Eap Hr1 Hs1 Hrun IH]; [done|].
  intros _ Hpad pre pre' w m ds sc Hpre Hkw Hsw Hcw. cbn [length run_context].
  unfold context_apply. cbn [cx_status cx_ubatches cx_sinfos cx_i_cur cx_do_shift cx_sc_info status_is_fail negb].
  rewrite assert_ok, bind_Ok by done. rewrite decide_False by (by destruct pre).
  rewrite Hpre, (vget_ok _ _ si), bind_Ok by (by apply list_lookup_middle).
  rewrite <- Hpre, (vget_ok _ _ u), bind_Ok by (by apply list_lookup_middle).
  destruct (proj1 (okP_ok _ _) (apply_same_cells n kv w u si kv1 Hr Hkw Hsw Hcw Hu Hsf Hse Eap))
    as (w1 & Ew & Hkw1 & Hsw1 & Hcw1). rewrite Ew, bind_Ok.
  assert (Ep : par w1 = par kv) by (by rewrite (proj1 Hsw1), (proj1 Hs1)).
  destruct (proj1 (okP_ok _ _) (get_n_kv_ok n w1 si Hkw1 (slot_fits_strm n kv u si w1 (rd_ok _ _ Hr) Hsf
    (same_rest_trans _ _ _ Hs1 Hsw1)) ltac:(by rewrite Ep))) as (nk & Enk & _). rewrite Enk, bind_Ok, bind_Ok.
  unfold context_next. cbn [fst snd cx_status cx_ubatches cx_sinfos cx_i_cur cx_do_shift cx_sc_info cx_n_kv].
  rewrite assert_ok, bind_Ok by done. rewrite bind_Ok. cbn [fst snd]. rewrite length_app. cbn [length].
  case_bool_decide as Hmore.
  - assert (Hus : us ≠ []) by (intros ->; cbn in Hmore; lia).
    replace (pre ++ u :: us) with ((pre ++ [u]) ++ us) by (by rewrite <- app_assoc).
    replace (pre' ++ si :: sis) with ((pre' ++ [si]) ++ sis) by (by rewrite <- app_assoc).
    replace (S (length pre)) with (length (pre ++ [u])) by (rewrite length_app; cbn; lia).
    apply IH; [done|by rewrite (proj1 Hs1)|by rewrite !length_app, Hpre|done|done|done].
  - cbn [okP fst]. assert (us = []) as -> by (destruct us; [done|cbn in Hmore; lia]). inversion Hrun; subst. done.
Qed.

(** C4. What [prepare] promises is kept, for a cache without a sliding window and
    without pending shifts ([ready]): with the slots of a successful [prepare],
    the client's loop (apply the current micro-batch, advance) over the batch
    context succeeds, and the cells end up as if each micro-batch had been placed
    in a slot found for it at its turn. *)
Theorem prepared_batch_runs n env kv us : ready n kv → us ≠ [] → Forall (ubatch_fits kv) us →
  (Z.of_nat n + Z.of_nat (n_pad (par kv) `max` 256) ≤ 4294967296)%Z →
  okP (prepare kv us) (λ p, p.2 ≠ [] →
    okP (run_context (length us) env p.1 (KvContext STATUS_SUCCESS p.2 us 0 0 false []))
      (λ r, kv_ok n r.1 ∧ ∃ kv', placed kv us p.2 kv' ∧ same_rest kv' r.1 ∧ v_cells r.1 = v_cells kv')).
Proof.
  intros Hr Hne Hus Hpad. eapply okP_mono; [by apply prepare_ok|].
  intros [w sis] [(Hkw & Hsw & Hcw & _) [[Hnil _]|[_ (kv' & Hpl & _)]]]; cbn [fst snd] in *; [done|].
  intros _. destruct (placed_runs n kv us sis kv' Hr Hus Hpl) as (Hrun & _ & _).
  eapply okP_mono; [by apply (run_context_ok n env kv us sis kv' Hrun Hne Hpad [] [])|].
  intros r (H1 & H2 & H3). split; [done|]. by exists kv'.
Qed.

Lemma prepared_batch_runs_witness :
  okP (prepare ex_kv [ex_ubatch 0 8]) (λ p, p.2 ≠ [] →
    okP (run_context 1 (UpdateEnv true true) p.1 (KvContext STATUS_SUCCESS p.2 [ex_ubatch 0 8] 0 0 false []))
      (λ r, kv_ok 4 r.1 ∧ ∃ kv', placed ex_kv [ex_ubatch 0 8] p.2 kv' ∧ same_rest kv' r.1 ∧
                                  v_cells r.1 = v_cells kv')).
Proof.
  apply (prepared_batch_runs 4 (UpdateEnv true true) ex_kv [ex_ubatch 0 8]); [exact ex_ready|done| |by vm_compute].
  apply Forall_singleton. by apply ex_fits_ubatch.
Defined.

(** *** Updating the cache *)
Definition copies_ok (kv : kv_cache) (sc : list (nat * nat)) : Prop :=
  ∀ p, p ∈ sc → p.1 < n_stream (par kv) ∧ p.2 < n_stream (par kv) ∧ p.1 ≠ p.2.

Lemma check_copies kv sc : copies_ok kv sc →
  foldM (λ (_ : unit) p,
    assert_ (bool_decide (p.1 < n_stream (par kv)));;
    assert_ (bool_decide (p.2 < n_stream (par kv)));;
    assert_ (bool_decide (p.1 ≠ p.2))) tt sc = Ok tt.
Proof.
  induction sc as [|p sc IH]; intros H; [done|]. cbn [foldM]. destruct (H p) as (H1 & H2 & H3); [set_solver|].
  rewrite !assert_ok, !bind_Ok by (by apply bool_decide_eq_true_2). apply IH. intros q Hq. apply H. set_solver.
Qed.

(** the pending shift of every cell of a stream cleared *)
Definition unshifted (v : list cell) : list cell := (λ k, Cell (c_pos k) (c_ext k) 0 (c_seq k)) <$> v.

Lemma update_ok n env kv do_shift sc : kv_ok n kv → copies_ok kv sc →
  (do_shift = true → get_can_shift kv = true ∧ (rope_none env = true ∨ shift_graph_ok env = true)) →
  okP (update env kv do_shift sc) (λ r, kv_ok n r.1.1 ∧ r.1.2 = sc ∧
    if do_shift then streams_upd kv unshifted (λ _ h, h) r.1.1
    else r.1.1 = kv).
Proof.
  intros Hk Hsc Hsh. unfold update.
  assert (Hc : (if decide (sc = []) then Ok tt else assert_ (bool_decide (1 < n_stream (par kv)))) = Ok tt).
  { destruct (decide (sc = [])) as [|Hne]; [done|]. destruct sc as [|p sc]; [done|].
    destruct (Hsc p) as (H1 & H2 & H3); [set_solver|]. apply assert_ok, bool_decide_eq_true_2. lia. }
  rewrite Hc, bind_Ok, check_copies, bind_Ok by done.
  destruct do_shift; [|done]. destruct (Hsh eq_refl) as [Hcan Hg]. rewrite ggml_assert_ok, bind_Ok by done.
  assert (negb (rope_none env) && negb (shift_graph_ok env) = false) as -> by (destruct Hg as [-> | ->]; by destruct (rope_none env)).
  eapply okP_bind; [by apply shift_applied_ok|]. intros kv' [Hk' Hu]. by cbn.
Qed.

(** Updating: [init_update] takes the pending stream copies out of the cache
    and asks for a shift exactly when some stream has one; applying its context
    then performs these copies and clears every pending shift, positions and
    sequences unchanged; and when there was nothing to do the status says so. *)
Theorem update_correct n env kv : kv_ok n kv → copies_ok kv (sc_info kv) → get_can_shift kv = true →
  rope_none env = true ∨ shift_graph_ok env = true →
  okP (init_update kv) (λ i,
    sc_info i.1 = [] ∧ v_cells i.1 = v_cells kv ∧ v_heads i.1 = v_heads kv ∧
    (cx_status i.2 = STATUS_NO_UPDATE ↔ existsb has_shift (v_cells kv) = false ∧ sc_info kv = []) ∧
    okP (context_apply env i.1 i.2) (λ r, kv_ok n r.1 ∧
      (existsb has_shift (v_cells kv) = true →
         views r.1 = unshifted <$> views kv) ∧
      (existsb has_shift (v_cells kv) = false → r.1 = i.1)) ∧
    okP (update env i.1 (cx_do_shift i.2) (cx_sc_info i.2)) (λ r, r.1.2 = sc_info kv)).
Proof.
  intros Hk Hsc Hcan Henv. unfold init_update. rewrite (get_has_shift_ok n) by done. rewrite bind_Ok.
  set (b := existsb has_shift (v_cells kv)). set (kv0 := KvCache _ _ _ _ []).
  assert (Hk0 : kv_ok n kv0) by (destruct Hk; by split).
  pose proof (update_ok n env kv0 b (sc_info kv) Hk0 Hsc (λ _, conj Hcan Henv)) as Hup.
  cbn [okP fst snd cx_status cx_do_shift cx_sc_info]. split_and!; try done.
  - destruct b; cbn; [by split; [|intros [? _]]|]. case_bool_decide; naive_solver.
  - unfold context_apply. cbn [cx_status cx_ubatches cx_do_shift cx_sc_info].
    rewrite assert_ok, bind_Ok by (by destruct (_ && _)). rewrite decide_True by done.
    eapply okP_bind; [exact Hup|]. intros [[kv' sc] up] (Hk' & _ & Hu). cbn [okP fst snd] in *.
    split_and!; [done| |]; intros Hb; rewrite Hb in Hu; [by destruct Hu as (_ & Hv & _)|done].
  - eapply okP_mono; [exact Hup|]. by intros r (_ & ? & _).
Qed.

Lemma update_correct_witness :
  okP (init_update ex_kv) (λ i,
    sc_info i.1 = [] ∧ v_cells i.1 = v_cells ex_kv ∧ v_heads i.1 = v_heads ex_kv ∧
    (cx_status i.2 = STATUS_NO_UPDATE ↔ existsb has_shift (v_cells ex_kv) = false ∧ sc_info ex_kv = []) ∧
    okP (context_apply (UpdateEnv true true) i.1 i.2) (λ r, kv_ok 4 r.1 ∧
      (existsb has_shift (v_cells ex_kv) = true →
         views r.1 = unshifted <$> views ex_kv) ∧
      (existsb has_shift (v_cells ex_kv) = false → r.1 = i.1)) ∧
    okP (update (UpdateEnv true true) i.1 (cx_do_shift i.2) (cx_sc_info i.2)) (λ r, r.1.2 = sc_info ex_kv)).
Proof.
  apply (update_correct 4 (UpdateEnv true true) ex_kv); [exact ex_kv_ok| |done|by left].
  intros p Hp. by apply not_elem_of_nil in Hp.
Defined.
