(* ===== verification/KvMask.v ===== *)
(** What the cache tells the attention: the rows that new keys and values go to,
    the shifts of the cells and the mask of the attention weights
    ([set_input_k_idxs], [set_input_v_idxs], [set_input_k_shift] and
    [set_input_kq_mask] of src/llama-kv-cache.cpp).

    A host tensor is the list of its entries; the entries of the mask are
    -INFINITY or a finite number (0, or minus a distance under ALiBi). *)
From S2P Require Import Prelude KvCells Batch KvCache KvSlot.

(** ** Destinations of the keys and values *)

(** for s, for i: data[s*size + i] = strm[s]*get_size() + idxs[s][i] *)
Definition k_idx (kv : kv_cache) (si : slot_info) (sz s : nat) (data : list Z) (i : nat) : res (list Z) :=
  t ← vget (strm si) s;
  n ← get_size kv;
  row ← vget (idxs si) s;
  x ← vget row i;
  vset data (s * sz + i) (u32 (Z.of_nat t * Z.of_nat n) + Z.of_nat x)%Z.

Definition set_input_k_idxs (kv : kv_cache) (u : llama_ubatch) (si : slot_info) (data : list Z) : res (list Z) :=
  sz ← si_size si;
  ggml_assert (bool_decide (n_tokens u = sz * si_n_stream si));;
  foldM (λ data s, foldM (k_idx kv si sz s) data (seq 0 sz)) data (seq 0 (si_n_stream si)).

(** the transposed V cache: one entry for each element of the row *)
Definition v_idx (kv : kv_cache) (si : slot_info) (sz s i : nat) (data : list Z) (j : nat) : res (list Z) :=
  let ne := n_embd_v_gqa (par kv) in
  t ← vget (strm si) s;
  n ← get_size kv;
  row ← vget (idxs si) s;
  x ← vget row i;
  vset data (s * sz * ne + i * ne + j)
    (Z.of_nat t * Z.of_nat n * Z.of_nat ne + Z.of_nat j * Z.of_nat n + Z.of_nat x)%Z.

Definition set_input_v_idxs (kv : kv_cache) (u : llama_ubatch) (si : slot_info) (data : list Z) : res (list Z) :=
  sz ← si_size si;
  ggml_assert (bool_decide (n_tokens u = sz * si_n_stream si));;
  if negb (v_trans (par kv)) then
    foldM (λ data s, foldM (k_idx kv si sz s) data (seq 0 sz)) data (seq 0 (si_n_stream si))
  else
    foldM (λ data s, foldM (λ data i, foldM (v_idx kv si sz s i) data (seq 0 (n_embd_v_gqa (par kv))))
      data (seq 0 sz)) data (seq 0 (si_n_stream si)).

(** data[s*cells.size() + i] = cells.is_empty(i) ? 0 : cells.get_shift(i) *)
Definition k_shift_cell (c : llama_kv_cells) (s : nat) (data : list Z) (i : nat) : res (list Z) :=
  e ← is_empty c i;
  d ← (if e : bool then Ok 0%Z else get_shift c i);
  vset data (s * size c + i) d.

Definition set_input_k_shift (kv : kv_cache) (data : list Z) : res (list Z) :=
  foldM (λ data s, c ← vget (v_cells kv) s; foldM (k_shift_cell c s) data (seq 0 (size c)))
    data (seq 0 (n_stream (par kv))).

(** ** The attention mask *)
Inductive mask_val := NegInf | Fin (d : Z).

#[export] Instance mask_val_eq_dec : EqDecision mask_val.
Proof. solve_decision. Defined.

(** the template parameters *)
Record mask_mode := MaskMode { causal : bool; swa : bool; is_2d : bool; alibi : bool }.

(** the token that a row belongs to *)
Record mask_tok := MaskTok { mt_seq : Z; mt_p1 : Z; mt_x : Z; mt_y : Z }.

Definition first_seq (u : llama_ubatch) (i : nat) : res Z := ids ← vget (u_seq_id u) i; vget ids 0.

(** the min position in the batch for each sequence *)
Definition batch_pos_min (u : llama_ubatch) : res (list Z) :=
  foldM (λ l i,
    q ← first_seq u i;
    j ← idx q;
    old ← vget l j;
    p ← vget (u_pos u) i;
    vset l j (Z.min old p)) (replicate MAX_SEQ INT32_MAX) (seq 0 (n_tokens u)).

(** one cell: its mask value, and its position when the cell belongs to the sequence *)
Definition mask_one (kv : kv_cache) (m : mask_mode) (c : llama_kv_cells) (t : mask_tok) (j : nat) :
    res (mask_val * option Z) :=
  e ← is_empty c j;
  if e : bool then Ok (NegInf, None) else
  h ← seq_has c j (mt_seq t);
  if negb h then Ok (NegInf, None) else
  p0 ← pos_get c j;
  g ← (if causal m && is_2d m && bool_decide (p0 = mt_p1 t) then
         e ← ext_get c j; Ok (is_2d_gt e (mt_x t) (mt_y t))
       else Ok false);
  w ← (if causal m && bool_decide (mt_p1 t < p0)%Z then Ok true
       else if g : bool then Ok true
       else if swa m then is_masked_swa (n_swa (par kv)) (swa_type (par kv)) p0 (mt_p1 t)
       else Ok false);
  if w : bool then Ok (NegInf, Some p0)
  else if alibi m then d ← i32_sub p0 (mt_p1 t); Ok (Fin (- Z.abs d)%Z, Some p0)
  else Ok (Fin 0, Some p0).

(** p0 + (int32_t) (n_swa + 32) >= seq_pos_min[seq_id] *)
Definition recorded (kv : kv_cache) (mn : Z) (p0 : option Z) : res bool :=
  match p0 with
  | None => Ok false
  | Some p => b ← i32_add p (i32_of_u32 (u32 (n_swa (par kv) + 32))); Ok (bool_decide (mn ≤ b)%Z)
  end.

(** the loop over all cells, recording those that other tokens may see differently *)
Definition full_row (kv : kv_cache) (m : mask_mode) (c : llama_kv_cells) (t : mask_tok) (mn : Z) (dst n_kv : nat)
    (data : list mask_val) (rec : list nat) : res (list mask_val * list nat) :=
  foldM (λ st j,
    r ← mask_one kv m c t j;
    b ← (if alibi m then Ok false else recorded kv mn r.2);
    data ← vset st.1 (dst + j) r.1;
    Ok (data, if b : bool then st.2 ++ [j] else st.2)) (data, rec) (seq 0 n_kv).

(** the loop over the recorded cells of the row copied from [src] *)
Definition copied_row (kv : kv_cache) (m : mask_mode) (c : llama_kv_cells) (t : mask_tok) (src dst n_kv : nat)
    (data : list mask_val) (rec : list nat) : res (list mask_val) :=
  data ← foldM (λ data j, x ← vget data (src + j); vset data (dst + j) x) data (seq 0 n_kv);
  foldM (λ data j, r ← mask_one kv m c t j; vset data (dst + j) r.1) data (take n_kv rec).

(** one token; [seq_srct] and [seq_idxs] of the stream *)
Definition mask_state : Type := list mask_val * gmap Z nat * gmap Z (list nat).

Definition mask_token (kv : kv_cache) (u : llama_ubatch) (m : mask_mode) (mins : list Z) (n_kv i : nat)
    (st : mask_state) : res mask_state :=
  let '(data, srct, rec) := st in
  q ← first_seq u i;
  k ← idx q;
  sid ← vget (seq_to_stream kv) k;
  c ← vget (v_cells kv) sid;
  p1 ← vget (u_pos u) i;
  x ← (if is_2d m then vget (u_pos u) (i + n_tokens u * 2) else Ok 0%Z);
  y ← (if is_2d m then vget (u_pos u) (i + n_tokens u) else Ok 0%Z);
  mn ← vget mins k;
  let t := MaskTok q p1 x y in
  if alibi m then
    r ← full_row kv m c t mn (n_kv * i) n_kv data (default [] (rec !! q));
    Ok (r.1, srct, <[q := r.2]> rec)
  else
    match srct !! q with
    | Some src =>
        data ← copied_row kv m c t (n_kv * src) (n_kv * i) n_kv data (default [] (rec !! q));
        Ok (data, srct, rec)
    | None =>
        r ← full_row kv m c t mn (n_kv * i) n_kv data [];
        Ok (r.1, <[q := i]> srct, <[q := r.2]> rec)
    end.

Definition kq_mask_impl (kv : kv_cache) (u : llama_ubatch) (m : mask_mode) (n_kv ns n_tps : nat)
    (data : list mask_val) : res (list mask_val) :=
  mins ← batch_pos_min u;
  foldM (λ data s,
    r ← foldM (λ st ii, mask_token kv u m mins n_kv (s * n_tps + ii) st) ((data, ∅, ∅) : mask_state) (seq 0 n_tps);
    Ok r.1.1) data (seq 0 ns).

(** [ns] is dst->ne[3]; [use_alibi] is the hyper-parameter *)
Definition set_input_kq_mask (kv : kv_cache) (u : llama_ubatch) (causal_attn use_alibi : bool)
    (n_kv ns : nat) (data : list mask_val) : res (list mask_val) :=
  check DivByZero (bool_decide (ns ≠ 0));;
  ggml_assert (bool_decide (n_tokens u `mod` ns = 0));;
  kq_mask_impl kv u (MaskMode causal_attn (bool_decide (swa_type (par kv) ≠ SWA_NONE)) (is_pos_2d u) use_alibi)
    n_kv ns (n_tokens u `div` ns) data.

(** ** Specification *)

Definition swa_hides (kv : kv_cache) (p0 p1 : Z) : bool :=
  match is_masked_swa (n_swa (par kv)) (swa_type (par kv)) p0 p1 with Ok b => b | Err _ => false end.

(** the cell [k] is hidden from the token [t] *)
Definition masked (kv : kv_cache) (m : mask_mode) (t : mask_tok) (k : cell) : bool :=
  bool_decide (c_pos k = (-1)%Z) || negb (bool_decide (mt_seq t ∈ c_seq k)) ||
  (causal m && bool_decide (mt_p1 t < c_pos k)%Z) ||
  (causal m && is_2d m && bool_decide (c_pos k = mt_p1 t) && is_2d_gt (c_ext k) (mt_x t) (mt_y t)) ||
  (swa m && swa_hides kv (c_pos k) (mt_p1 t)).

Definition mask_value (kv : kv_cache) (m : mask_mode) (t : mask_tok) (k : cell) : mask_val :=
  if masked kv m t k then NegInf
  else if alibi m then Fin (- Z.abs (c_pos k - mt_p1 t))%Z else Fin 0.

Definition tok_of (kv : kv_cache) (u : llama_ubatch) (m : mask_mode) (i : nat) : mask_tok :=
  MaskTok (default 0%Z (default [] (u_seq_id u !! i) !! 0)) (default 0%Z (u_pos u !! i))
    (if is_2d m then default 0%Z (u_pos u !! (i + n_tokens u * 2)) else 0%Z)
    (if is_2d m then default 0%Z (u_pos u !! (i + n_tokens u)) else 0%Z).

(** * Lemmas *)

(** ** One cell *)
Definition tok_ok (t : mask_tok) : Prop := (0 ≤ mt_seq t < LLAMA_MAX_SEQ)%Z ∧ (0 ≤ mt_p1 t < INT32_MAX)%Z.

Lemma swa_hides_ok kv p0 p1 : swa_ok kv → (0 ≤ p0)%Z → (0 ≤ p1)%Z →
  is_masked_swa (n_swa (par kv)) (swa_type (par kv)) p0 p1 = Ok (swa_hides kv p0 p1).
Proof.
  intros Hs H0 H1. unfold swa_hides. by destruct (is_masked_swa_total kv p0 p1 Hs H0 H1) as [b ->].
Qed.

Definition owned_pos (t : mask_tok) (k : cell) : option Z :=
  if bool_decide (c_pos k = (-1)%Z) || negb (bool_decide (mt_seq t ∈ c_seq k)) then None else Some (c_pos k).

Lemma mask_one_ok kv m c t j k : wf c → view c !! j = Some k → swa_ok kv → tok_ok t → (c_pos k < INT32_MAX)%Z →
  mask_one kv m c t j = Ok (mask_value kv m t k, owned_pos t k).
Proof.
  intros Hw Hk Hswa [Hq Hp] Hlt. unfold mask_one, mask_value, masked, owned_pos.
  rewrite (is_empty_ok c j k Hw Hk), bind_Ok.
  destruct (bool_decide (c_pos k = (-1)%Z)) eqn:Ee; [done|]. apply bool_decide_eq_false in Ee.
  rewrite (seq_has_ok c j k) by done. rewrite bind_Ok.
  destruct (bool_decide (mt_seq t ∈ c_seq k)) eqn:Es; cbn [negb orb]; [|done]. apply bool_decide_eq_true in Es.
  destruct (cell_ok_pos k _ (wf_cell _ Hw _ _ Hk) Es) as [_ Hpos].
  rewrite (pos_get_ok c j k Hw Hk), bind_Ok by done.
  assert (Hg : (if causal m && is_2d m && bool_decide (c_pos k = mt_p1 t) then
      e ← ext_get c j; Ok (is_2d_gt e (mt_x t) (mt_y t)) else Ok false) =
    Ok (causal m && is_2d m && bool_decide (c_pos k = mt_p1 t) && is_2d_gt (c_ext k) (mt_x t) (mt_y t))).
  { destruct (causal m && is_2d m && _); [|done]. by rewrite (ext_get_ok c j k), bind_Ok by done. }
  rewrite Hg, bind_Ok. clear Hg. set (g := _ && is_2d_gt _ _ _).
  destruct (causal m && bool_decide (mt_p1 t < c_pos k)%Z); cbn [orb]; rewrite ?bind_Ok; [done|].
  destruct g; cbn [orb]; rewrite ?bind_Ok; [done|].
  rewrite i32_sub_ok by (unfold INT32_MIN, INT32_MAX in *; lia). rewrite bind_Ok.
  destruct (swa m); cbn [andb]; rewrite ?swa_hides_ok, ?bind_Ok by (done || lia); [|by destruct (alibi m)].
  destruct (swa_hides _ _ _); by destruct (alibi m).
Qed.

(** Cells that are not recorded look the same to all tokens of the sequence. *)
Lemma unrecorded_same kv m t1 t2 k mn : alibi m = false → mt_seq t1 = mt_seq t2 →
  (0 ≤ mn)%Z → (mn ≤ mt_p1 t1)%Z → (mn ≤ mt_p1 t2)%Z → (0 ≤ n_swa (par kv) ≤ INT32_MAX)%Z → swa_ok kv →
  (owned_pos t1 k = None ∨ (0 ≤ c_pos k ∧ c_pos k + n_swa (par kv) + 32 < mn)%Z) →
  mask_value kv m t1 k = mask_value kv m t2 k.
Proof.
  intros Ha Hq Hmn H1 H2 Hn Hswa Hr. unfold mask_value, masked, owned_pos in *. rewrite Ha, Hq in *.
  destruct (bool_decide (c_pos k = (-1)%Z)) eqn:Ee; [done|]. cbn [orb] in *. apply bool_decide_eq_false in Ee.
  destruct (bool_decide (mt_seq t2 ∈ c_seq k)) eqn:Es; cbn [negb orb] in *; [|done].
  destruct Hr as [?|Hr]; [done|].
  assert (Hsame : swa_hides kv (c_pos k) (mt_p1 t1) = swa_hides kv (c_pos k) (mt_p1 t2)).
  { assert (Hout : ∀ p, (mn ≤ p)%Z → is_masked_swa (n_swa (par kv)) (swa_type (par kv)) (c_pos k) p =
      Ok (bool_decide (swa_type (par kv) ≠ SWA_NONE))).
    { intros p Hp. unfold is_masked_swa. rewrite assert_ok, bind_Ok.
      2:{ rewrite !bool_decide_eq_true_2 by lia. done. }
      assert (Ei : i32_of_u32 (n_swa (par kv)) = n_swa (par kv)) by (unfold i32_of_u32; by rewrite decide_True by lia).
      destruct (swa_type (par kv)) eqn:Et.
      - done.
      - rewrite Ei, !bool_decide_eq_true_2 by (done || lia). done.
      - specialize (Hswa Et). rewrite check_ok, bind_Ok by (by apply bool_decide_eq_true_2).
        rewrite !bool_decide_eq_true_2; try done.
        pose proof (Z.mod_pos_bound p (n_swa (par kv)) ltac:(lia)). pose proof (Z.div_mod p (n_swa (par kv)) Hswa). lia.
      - rewrite Ei. rewrite (bool_decide_eq_true_2 (SWA_SYMMETRIC ≠ SWA_NONE)) by done. f_equal. apply orb_true_intro. right.
        apply bool_decide_eq_true_2. pose proof (Z.quot_pos (n_swa (par kv)) 2 ltac:(lia) ltac:(lia)).
        rewrite Z.quot_div_nonneg by lia. pose proof (Z.div_le_upper_bound (n_swa (par kv)) 2 (n_swa (par kv)) ltac:(lia) ltac:(lia)). lia. }
    unfold swa_hides. by rewrite !Hout by done. }
  rewrite Hsame. rewrite !(bool_decide_eq_false_2 (_ < c_pos k)%Z) by lia.
  rewrite !(bool_decide_eq_false_2 (c_pos k = _)) by lia. by rewrite !andb_false_r.
Qed.

(** ** Rows *)
Lemma row_index_ne n i j r l : j < n → l < n → i ≠ r → n * i + j ≠ n * r + l.
Proof. intros Hj Hl Hne E. destruct (decide (i < r)); nia. Qed.

(** [data'] is [data] except for the row at [dst], whose entry [j] is [f j]. *)
Definition row_written {A} (data data' : list A) (dst n : nat) (f : nat → A) : Prop :=
  length data' = length data ∧ (∀ j, j < n → data' !! (dst + j) = Some (f j)) ∧
  (∀ x, (∀ j, j < n → x ≠ dst + j) → data' !! x = data !! x).

Lemma row_written_snoc {A} (data data' : list A) dst n f : row_written data data' dst n f → dst + n < length data →
  row_written data (<[dst + n := f n]> data') dst (S n) f.
Proof.
  intros (Hl & Hd & Ho) Hlt. split_and!.
  - by rewrite length_insert.
  - intros j Hj. destruct (decide (j = n)) as [->|]; [apply list_lookup_insert_eq; lia|].
    rewrite list_lookup_insert_ne by lia. apply Hd. lia.
  - intros x Hx. rewrite list_lookup_insert_ne by (apply not_eq_sym, Hx; lia). apply Ho. intros; apply Hx; lia.
Qed.

Section rows.
Context (kv : kv_cache) (m : mask_mode) (c : llama_kv_cells) (t : mask_tok) (mn : Z) (n_kv : nat).
Hypothesis Hw : wf c.
Hypothesis Hswa : swa_ok kv.
Hypothesis Ht : tok_ok t.
Hypothesis Hsize : n_kv ≤ size c.
Hypothesis Hwin : (0 ≤ n_swa (par kv) ∧ n_swa (par kv) + 32 ≤ INT32_MAX)%Z.
Hypothesis Hpos : ∀ k, k ∈ view c → (c_pos k + (n_swa (par kv) + 32) ≤ INT32_MAX)%Z.

Definition row_value (j : nat) : mask_val := mask_value kv m t (default cell_none (view c !! j)).

(** the cells that [full_row] records *)
Definition to_record (j : nat) : Prop :=
  ∃ k, view c !! j = Some k ∧ owned_pos t k ≠ None ∧ (mn ≤ c_pos k + (n_swa (par kv) + 32))%Z.

#[local] Instance to_record_dec j : Decision (to_record j).
Proof.
  unfold to_record. destruct (view c !! j) as [k|] eqn:E; [|right; by intros (k & ? & _)].
  destruct (decide (owned_pos t k ≠ None ∧ (mn ≤ c_pos k + (n_swa (par kv) + 32))%Z)) as [H|H].
  - left. exists k. naive_solver.
  - right. intros (k' & [= <-] & H'). by apply H.
Defined.

Lemma cell_at j : j < n_kv → ∃ k, view c !! j = Some k ∧ mask_one kv m c t j = Ok (row_value j, owned_pos t k).
Proof.
  intros Hj. destruct (view_Some c j Hw ltac:(lia)) as [k Hk]. exists k. split; [done|].
  rewrite (mask_one_ok kv m c t j k) by (done || (pose proof (Hpos k ltac:(by eapply list_elem_of_lookup_2)); lia)).
  unfold row_value. by rewrite Hk.
Qed.

Lemma recorded_ok j k : view c !! j = Some k → recorded kv mn (owned_pos t k) = Ok (bool_decide (to_record j)).
Proof.
  intros Hk. unfold recorded. pose proof (Hpos k ltac:(by eapply list_elem_of_lookup_2)) as Hb.
  destruct (owned_pos t k) as [p|] eqn:Eo.
  - assert (p = c_pos k ∧ (0 ≤ c_pos k)%Z) as [-> Hp0].
    { unfold owned_pos in Eo. destruct (bool_decide (c_pos k = (-1)%Z)); [done|]. cbn [orb] in Eo.
      destruct (bool_decide (mt_seq t ∈ c_seq k)) eqn:Es; [|done]. apply bool_decide_eq_true in Es.
      injection Eo as <-. split; [done|]. by apply (cell_ok_pos k _ (wf_cell _ Hw _ _ Hk) Es). }
    assert (Eu : i32_of_u32 (u32 (n_swa (par kv) + 32)) = (n_swa (par kv) + 32)%Z).
    { unfold i32_of_u32, u32, INT32_MAX in *. rewrite Z.mod_small by lia. by rewrite decide_True by lia. }
    rewrite Eu, i32_add_ok, bind_Ok by (unfold INT32_MIN, INT32_MAX in *; lia). f_equal.
    apply bool_decide_ext. unfold to_record. rewrite Hk. split; [intros H; exists k; by rewrite Eo|].
    by intros (k' & [= <-] & _ & H).
  - symmetry. f_equal. apply bool_decide_eq_false_2. intros (k' & Hk' & Hne & _). congruence.
Qed.

Lemma full_row_ok dst data rec : dst + n_kv ≤ length data →
  okP (full_row kv m c t mn dst n_kv data rec) (λ r, row_written data r.1 dst n_kv row_value ∧
    r.2 = rec ++ if alibi m then [] else filter to_record (seq 0 n_kv)).
Proof.
  intros Hlen. unfold full_row.
  apply (okP_for _ (λ i r, row_written data r.1 dst i row_value ∧
    r.2 = rec ++ if alibi m then [] else filter to_record (seq 0 i))).
  - split; [split_and!; [done|intros; lia|done]|]. destruct (alibi m); by rewrite app_nil_r.
  - intros j [d l] Hj [Hrow Hl]. cbn [fst snd] in *.
    destruct (cell_at j Hj) as (k & Hk & Hone). rewrite Hone, bind_Ok. cbn [fst snd].
    assert (Hb : (if alibi m then Ok false else recorded kv mn (owned_pos t k)) =
                 Ok (negb (alibi m) && bool_decide (to_record j))).
    { destruct (alibi m); [done|]. by apply recorded_ok. }
    rewrite Hb, bind_Ok. pose proof Hrow as (Hld & _ & _).
    rewrite vset_ok, bind_Ok by lia. cbn [okP fst snd]. split.
    + apply row_written_snoc; [done|lia].
    + destruct (alibi m); cbn [negb andb]; [done|]. rewrite seq_S, filter_app, Nat.add_0_l.
      case_bool_decide as Hr.
      * rewrite filter_cons_True, filter_nil by done. by rewrite Hl, app_assoc.
      * rewrite filter_cons_False, filter_nil by done. by rewrite Hl, app_nil_r.
Qed.

Lemma copied_row_ok src dst data g l : dst + n_kv ≤ length data →
  (∀ j, j < n_kv → data !! (src + j) = Some (g j)) →
  (∀ i j, i < n_kv → j < n_kv → src + i ≠ dst + j) →
  (∀ j, j ∈ l → j < n_kv) → length l ≤ n_kv →
  (∀ j, j < n_kv → j ∉ l → g j = row_value j) →
  okP (copied_row kv m c t src dst n_kv data l) (λ d, row_written data d dst n_kv row_value).
Proof.
  intros Hlen Hsrc Hdis Hl Hll Hsame. unfold copied_row.
  eapply okP_bind; [apply (okP_for _ (λ i d, row_written data d dst i g))|].
  { split_and!; [done|intros; lia|done]. }
  { intros j d Hj Hrow. pose proof Hrow as (Hld & _ & Ho).
    assert (Hx : d !! (src + j) = Some (g j)) by (rewrite Ho; [by apply Hsrc|intros i Hi; apply Hdis; lia]).
    rewrite (vget_ok _ _ _ Hx), bind_Ok, vset_ok by lia. apply row_written_snoc; [done|lia]. }
  intros d1 H1. rewrite take_ge by done.
  eapply okP_mono; [apply (okP_foldM _ (λ pre d, row_written data d dst n_kv
    (λ j, if decide (j ∈ pre) then row_value j else g j)))|].
  - destruct H1 as (Hld & Hd & Ho). split_and!; [done| |done]. intros j Hj. rewrite Hd by done.
    by rewrite decide_False by apply not_elem_of_nil.
  - intros pre j post d E (Hld & Hd & Ho).
    assert (Hj : j < n_kv) by (apply Hl; rewrite E; set_solver).
    destruct (cell_at j Hj) as (k & Hk & Hone). rewrite Hone, bind_Ok. cbn [fst].
    rewrite vset_ok by lia. cbn [okP]. split_and!; [by rewrite length_insert| |].
    + intros i Hi. destruct (decide (i = j)) as [->|Hne].
      * rewrite list_lookup_insert_eq by lia. rewrite decide_True by set_solver. done.
      * rewrite list_lookup_insert_ne by lia. rewrite Hd by done. f_equal.
        destruct (decide (i ∈ pre)) as [Hin|Hin].
        -- by rewrite decide_True by set_solver.
        -- by rewrite decide_False by set_solver.
    + intros x Hx. rewrite list_lookup_insert_ne by (apply not_eq_sym; by apply Hx). by apply Ho.
  - intros d (Hld & Hd & Ho). split_and!; [done| |done]. intros j Hj. rewrite Hd by done. f_equal.
    destruct (decide (j ∈ l)); [done|]. by apply Hsame.
Qed.
End rows.

Section mask.
Context (kv : kv_cache) (n : nat) (u : llama_ubatch) (m : mask_mode) (n_kv : nat).
Hypothesis Hk : kv_ok n kv.
Hypothesis Hu : ubatch_fits kv u.
Hypothesis Hswa : swa_ok kv.
Hypothesis Hnkv : n_kv ≤ n.
Hypothesis Hwin : (0 ≤ n_swa (par kv) ∧ n_swa (par kv) + 32 ≤ INT32_MAX)%Z.
Hypothesis Hpos : ∀ t v k, views kv !! t = Some v → k ∈ v → (c_pos k + (n_swa (par kv) + 32) ≤ INT32_MAX)%Z.
Hypothesis H2d : is_2d m = is_pos_2d u.

Definition tok (i : nat) : mask_tok := tok_of kv u m i.
Definition seq_view (q : Z) : list cell := default [] (views kv !! stream_idx kv q).

(** what row [i] of the mask should say about cell [j] *)
Definition spec_value (i j : nat) : mask_val :=
  mask_value kv m (tok i) (default cell_none (seq_view (mt_seq (tok i)) !! j)).

Lemma tok_facts i : i < n_tokens u →
  first_seq u i = Ok (mt_seq (tok i)) ∧ valid_seq kv (mt_seq (tok i)) ∧ tok_ok (tok i) ∧
  u_pos u !! i = Some (mt_p1 (tok i)) ∧
  (if is_2d m then vget (u_pos u) (i + n_tokens u * 2) else Ok 0%Z) = Ok (mt_x (tok i)) ∧
  (if is_2d m then vget (u_pos u) (i + n_tokens u) else Ok 0%Z) = Ok (mt_y (tok i)).
Proof.
  intros Hi. destruct (uf_pos _ _ Hu i Hi) as (p & Ep & Hp).
  destruct (uf_ids _ _ Hu i Hi) as (k & ids & _ & Eids & _ & Hne & _ & Hval).
  destruct ids as [|q ids]; [done|]. assert (Hq : valid_seq kv q) by (apply Hval; set_solver).
  unfold tok, tok_of, tok_ok, first_seq. rewrite (vget_ok _ _ _ Eids), bind_Ok, Eids, Ep. cbn.
  split_and!; try done; try lia; [by apply (valid_range n kv)..| |].
  all: destruct (is_2d m); [|done]; pose proof (uf_2d _ _ Hu (eq_sym H2d)) as Hl.
  - destruct (lookup_lt_is_Some_2 (u_pos u) (i + n_tokens u * 2)) as [x Hx]; [lia|]. by rewrite (vget_ok _ _ _ Hx), Hx.
  - destruct (lookup_lt_is_Some_2 (u_pos u) (i + n_tokens u)) as [x Hx]; [lia|]. by rewrite (vget_ok _ _ _ Hx), Hx.
Qed.

Definition mins_ok (done_ : nat) (l : list Z) : Prop :=
  length l = MAX_SEQ ∧ ∀ q mn, l !! Z.to_nat q = Some mn → (0 ≤ mn)%Z ∧
    ∀ i, i < done_ → i < n_tokens u → mt_seq (tok i) = q → (mn ≤ mt_p1 (tok i))%Z.

Lemma batch_pos_min_ok : okP (batch_pos_min u) (mins_ok (n_tokens u)).
Proof.
  unfold batch_pos_min. apply (okP_for _ mins_ok).
  - split; [by rewrite length_replicate|]. intros q mn [-> _]%lookup_replicate. by split; [|intros; lia].
  - intros i l Hi [Hl Hm]. destruct (tok_facts i Hi) as (Eq & Hval & [Hq Hp] & Ep & _).
    rewrite Eq, bind_Ok, idx_ok, bind_Ok by lia. pose proof MAX_SEQ_eq as HM.
    destruct (lookup_lt_is_Some_2 l (Z.to_nat (mt_seq (tok i)))) as [old Ho]; [lia|].
    rewrite (vget_ok _ _ _ Ho), bind_Ok, (vget_ok _ _ _ Ep), bind_Ok, vset_ok by lia. cbn [okP].
    destruct (Hm _ _ Ho) as [Ho0 Ho1].
    split; [by rewrite length_insert|]. intros q mn Hmn.
    destruct (decide (Z.to_nat q = Z.to_nat (mt_seq (tok i)))) as [E|Hne].
    + rewrite E, list_lookup_insert_eq in Hmn by lia. injection Hmn as <-. split; [change (0 ≤ old `min` mt_p1 (tok i))%Z; lia|].
      intros r Hr Hrn Hrq. destruct (decide (r = i)) as [->|]; [change (old `min` mt_p1 (tok i) ≤ mt_p1 (tok i))%Z; lia|].
      destruct (tok_facts r Hrn) as (_ & _ & [Hrq0 _] & _). assert (q = mt_seq (tok i)) as -> by lia.
      pose proof (Ho1 r ltac:(lia) Hrn Hrq). change (old `min` mt_p1 (tok i) ≤ mt_p1 (tok r))%Z. lia.
    + rewrite list_lookup_insert_ne in Hmn by done. destruct (Hm q mn Hmn) as [H0 H1]. split; [done|].
      intros r Hr Hrn Hrq. apply H1; [|done|done]. destruct (decide (r = i)) as [->|]; [by subst q|lia].
Qed.

(** the rows of the first [i] tokens are right; the bookkeeping of the stream
    whose first token is [i0] *)
Definition rows_done (L i : nat) (data : list mask_val) : Prop :=
  length data = L ∧ ∀ r j, r < i → j < n_kv → data !! (n_kv * r + j) = Some (spec_value r j).
Definition books (mins : list Z) (i0 i : nat) (srct : gmap Z nat) (rec : gmap Z (list nat)) : Prop :=
  alibi m = false → ∀ q src, srct !! q = Some src → i0 ≤ src < i ∧ mt_seq (tok src) = q ∧
    ∃ l c mn, rec !! q = Some l ∧ v_cells kv !! stream_idx kv q = Some c ∧ mins !! Z.to_nat q = Some mn ∧
      length l ≤ n_kv ∧ (∀ j, j ∈ l → j < n_kv) ∧
      ∀ j, j < n_kv → j ∉ l → ¬ to_record kv c (tok src) mn j.

Lemma mask_token_ok L mins i0 i data srct rec : n_kv * n_tokens u ≤ L → i < n_tokens u → i0 ≤ i →
  mins_ok (n_tokens u) mins → rows_done L i data → books mins i0 i srct rec →
  okP (mask_token kv u m mins n_kv i (data, srct, rec))
    (λ st, rows_done L (S i) st.1.1 ∧ books mins i0 (S i) st.1.2 st.2).
Proof.
  intros HL Hi Hi0 [Hml Hmins] [Hdl Hdone] Hbooks. unfold mask_token.
  destruct (tok_facts i Hi) as (Eq & Hval & Htok & Ep & Ex & Ey).
  set (q := mt_seq (tok i)) in *. destruct (seq_stream _ _ _ Hk Hval) as (Hq0 & Est & Hlt & HqM).
  destruct (stream_lookup _ _ _ Hk Hlt) as (c & h & Hc & _ & Hso & Hv & _).
  destruct (lookup_lt_is_Some_2 mins (Z.to_nat q)) as [mn Hmn]; [lia|].
  destruct (Hmins q mn Hmn) as [Hmn0 Hmn1].
  rewrite Eq, bind_Ok, idx_ok, bind_Ok by done. rewrite (vget_ok _ _ _ Est), bind_Ok, (vget_ok _ _ _ Hc), bind_Ok,
    (vget_ok _ _ _ Ep), bind_Ok, Ex, bind_Ok, Ey, bind_Ok, (vget_ok _ _ _ Hmn), bind_Ok. cbn zeta.
  replace (MaskTok q (mt_p1 (tok i)) (mt_x (tok i)) (mt_y (tok i))) with (tok i) by (by destruct (tok i)).
  pose proof (so_wf _ _ _ Hso) as Hw. assert (Hsz : n_kv ≤ size c) by (rewrite (so_size _ _ _ Hso); lia).
  assert (Hpc : ∀ k, k ∈ view c → (c_pos k + (n_swa (par kv) + 32) ≤ INT32_MAX)%Z) by (intros k; by apply (Hpos _ _ _ Hv)).
  assert (Hdst : n_kv * i + n_kv ≤ length data) by nia.
  assert (Hspec : ∀ j, spec_value i j = row_value kv m c (tok i) j).
  { intros j. unfold spec_value, row_value, seq_view. fold q. by rewrite Hv. }
  assert (Hrows : ∀ d, row_written data d (n_kv * i) n_kv (row_value kv m c (tok i)) → rows_done L (S i) d).
  { intros d (Hl & Hd & Ho). split; [lia|]. intros r j Hr Hj. destruct (decide (r = i)) as [->|Hne].
    - rewrite Hd by done. by rewrite Hspec.
    - rewrite Ho by (intros j' Hj'; by apply row_index_ne). apply Hdone; lia. }
  destruct (alibi m) eqn:Ea.
  - eapply okP_bind; [by apply (full_row_ok kv m c (tok i) mn n_kv Hw Hswa Htok Hsz Hwin Hpc)|].
    intros [d l] [Hrow _]. cbn [okP fst snd]. split; [by apply Hrows|]. by intros ?; rewrite Ea in *.
  - destruct (srct !! q) as [src|] eqn:Es.
    + destruct (Hbooks Ea q src Es) as (Hsrc & Hsq & l & c' & mn' & Hl & Hc' & Hmn' & Hll & Hlin & Hlout).
      rewrite Hc in Hc'. rewrite Hmn in Hmn'. injection Hc' as <-. injection Hmn' as <-. rewrite Hl. cbn [from_option id].
      eapply okP_bind; [apply (copied_row_ok kv m c (tok i) n_kv Hw Hswa Htok Hsz Hwin Hpc
        (n_kv * src) (n_kv * i) data (spec_value src) l); try done|].
      * intros j Hj. apply Hdone; lia.
      * intros j j' Hj Hj'. apply row_index_ne; [done|done|lia].
      * intros j Hj Hnin. specialize (Hlout j Hj Hnin). rewrite <- Hspec. unfold spec_value. rewrite Hsq. fold q.
        unfold seq_view. rewrite Hv. cbn [from_option id].
        destruct (tok_facts src ltac:(lia)) as (_ & _ & Htok' & _).
        destruct (view_Some c j Hw ltac:(lia)) as [k Hkj]. rewrite Hkj. cbn [from_option id].
        apply (unrecorded_same kv m (tok src) (tok i) k mn); try done; [| |lia|].
        -- apply Hmn1; [lia|lia|done].
        -- by apply Hmn1.
        -- destruct (owned_pos (tok src) k) as [p|] eqn:Eo; [right|by left].
           assert (Hp0 : (0 ≤ c_pos k)%Z).
           { unfold owned_pos in Eo. destruct (bool_decide (c_pos k = (-1)%Z)); [done|]. cbn [orb] in Eo.
             destruct (bool_decide (mt_seq (tok src) ∈ c_seq k)) eqn:Esq; [|done]. apply bool_decide_eq_true in Esq.
             by apply (cell_ok_pos k _ (wf_cell _ Hw _ _ Hkj) Esq). }
           split; [done|]. apply Z.nle_gt. intros Hle. apply Hlout. exists k. split_and!; [done|by rewrite Eo|lia].
      * intros d Hrow. cbn [okP fst snd]. split; [by apply Hrows|]. intros _ q' src' Hs'.
        destruct (Hbooks Ea q' src' Hs') as ([A1 A2] & A3). split; [lia|done].
    + eapply okP_bind; [by apply (full_row_ok kv m c (tok i) mn n_kv Hw Hswa Htok Hsz Hwin Hpc)|].
      intros [d l] [Hrow Hl]. cbn [fst snd] in *. rewrite Ea in Hl. cbn [okP fst snd]. split; [by apply Hrows|].
      intros _ q' src Hs'. destruct (decide (q' = q)) as [->|Hne].
      * rewrite lookup_insert_eq in Hs'. injection Hs' as <-. split_and!; [lia|lia|done|].
        exists l, c, mn. rewrite lookup_insert_eq. rewrite Hl, app_nil_l. split_and!; try done.
        -- rewrite length_filter. by rewrite length_seq.
        -- intros j [_ Hj]%list_elem_of_filter. apply elem_of_seq in Hj. lia.
        -- intros j Hj Hnin Hr. apply Hnin, list_elem_of_filter. split; [done|]. apply elem_of_seq. lia.
      * rewrite lookup_insert_ne in Hs' by done.
        destruct (Hbooks Ea q' src Hs') as (A1 & A2 & l' & c' & mn' & A3 & A4).
        split_and!; [lia|lia|done|]. exists l', c', mn'. by rewrite lookup_insert_ne by done.
Qed.
End mask.

(** ** The whole mask *)
Lemma set_input_kq_mask_ok kv n u ca al n_kv ns data : kv_ok n kv → ubatch_fits kv u → swa_ok kv → n_kv ≤ n →
  (0 ≤ n_swa (par kv) ∧ n_swa (par kv) + 32 ≤ INT32_MAX)%Z →
  (∀ t v k, views kv !! t = Some v → k ∈ v → (c_pos k + (n_swa (par kv) + 32) ≤ INT32_MAX)%Z) →
  ns ≠ 0 → n_tokens u `mod` ns = 0 → n_kv * n_tokens u ≤ length data →
  let m := MaskMode ca (bool_decide (swa_type (par kv) ≠ SWA_NONE)) (is_pos_2d u) al in
  okP (set_input_kq_mask kv u ca al n_kv ns data)
    (λ d, length d = length data ∧
      ∀ i j, i < n_tokens u → j < n_kv → d !! (n_kv * i + j) = Some (spec_value kv u m i j)).
Proof.
  intros Hk Hu Hswa Hnkv Hwin Hpos Hns Hmod Hlen m. unfold set_input_kq_mask.
  rewrite check_ok, bind_Ok, ggml_assert_ok, bind_Ok by (by apply bool_decide_eq_true_2).
  assert (Hn : n_tokens u = ns * (n_tokens u `div` ns)).
  { pose proof (Nat.div_mod (n_tokens u) ns Hns). lia. }
  set (tps := n_tokens u `div` ns) in *. fold m. unfold kq_mask_impl.
  eapply okP_bind; [by apply (batch_pos_min_ok kv n u m n_kv Hk Hu Hswa Hnkv Hwin Hpos)|]. intros mins Hmins.
  eapply okP_mono; [apply (okP_for _ (λ s d, rows_done kv u m n_kv (length data) (s * tps) d))|].
  - split; [done|intros; lia].
  - intros s d Hs Hd.
    eapply okP_bind; [apply (okP_for _ (λ ii (st : mask_state), rows_done kv u m n_kv (length data) (s * tps + ii) st.1.1 ∧
      books kv u m n_kv mins (s * tps) (s * tps + ii) st.1.2 st.2))|].
    + split; [by rewrite Nat.add_0_r|]. intros _ q src Hq. cbn [fst snd] in Hq. by rewrite lookup_empty in Hq.
    + intros ii [[d' srct] rec] Hii [H1 H2]. rewrite Nat.add_succ_r.
      apply (mask_token_ok kv n u m n_kv Hk Hu Hswa Hnkv Hwin Hpos eq_refl); try done; [nia|lia].
    + intros [[d' srct] rec] [H1 _]. cbn [okP fst snd] in *. by replace (S s * tps) with (s * tps + tps) by lia.
  - intros d [Hl Hd]. split; [done|]. intros i j Hi. apply Hd. lia.
Qed.

(** ** Blocks of entries *)
Lemma row_written_app {A} (data d d' : list A) b k l f g h : row_written data d b k f →
  row_written d d' (b + k) l g → (∀ x, x < k → h x = f x) → (∀ x, x < l → h (k + x) = g x) →
  row_written data d' b (k + l) h.
Proof.
  intros (H1 & H2 & H3) (G1 & G2 & G3) Hf Hg. split_and!; [congruence| |].
  - intros j Hj. destruct (decide (j < k)) as [Hlt|Hge].
    + rewrite G3 by (intros; lia). by rewrite H2, Hf by done.
    + replace j with (k + (j - k)) by lia. rewrite Nat.add_assoc, G2, Hg by lia. done.
  - intros x Hx. rewrite G3 by (intros j Hj; rewrite <- Nat.add_assoc; apply Hx; lia). apply H3. intros; apply Hx; lia.
Qed.

Lemma blocks_ok {A} (body : list A → nat → res (list A)) b m sz (f : nat → nat → A) data :
  (∀ s d, s < m → length d = length data → okP (body d s) (λ d', row_written d d' (b + s * sz) sz (f s))) →
  okP (foldM body data (seq 0 m)) (λ d, row_written data d b (m * sz) (λ x, f (x `div` sz) (x `mod` sz))).
Proof.
  intros Hbody. apply (okP_for _ (λ s d, row_written data d b (s * sz) (λ x, f (x `div` sz) (x `mod` sz)))).
  - split_and!; [done|intros; lia|done].
  - intros s d Hs Hd. eapply okP_mono; [apply Hbody; [done|apply Hd]|]. intros d' Hd'.
    replace (S s * sz) with (s * sz + sz) by lia. eapply row_written_app; [exact Hd|exact Hd'|done|]. intros x Hx. cbn.
    rewrite Nat.div_add_l, Nat.div_small, Nat.add_0_r by lia.
    rewrite Nat.add_comm, Nat.Div0.mod_add, Nat.mod_small by lia. done.
Qed.

Lemma entries_ok {A} (body : list A → nat → res (list A)) b n (f : nat → A) data : b + n ≤ length data →
  (∀ i d, i < n → length d = length data → body d i = vset d (b + i) (f i)) →
  okP (foldM body data (seq 0 n)) (λ d, row_written data d b n f).
Proof.
  intros Hlen Hbody. apply (okP_for _ (λ i d, row_written data d b i f)).
  - split_and!; [done|intros; lia|done].
  - intros i d Hi Hd. pose proof Hd as (Hl & _ & _). rewrite Hbody, vset_ok by lia. apply row_written_snoc; [done|lia].
Qed.

(** ** Indices of the K and V rows *)

(** the [x]-th token of the slot: its stream and its cell *)
Definition tok_dest (kv : kv_cache) (u : llama_ubatch) (si : slot_info) (x : nat) : nat * nat :=
  (slot_stream si (x `div` per_slot kv u), default 0 (slot_row si (x `div` per_slot kv u) !! (x `mod` per_slot kv u))).

Section dests.
Context (kv : kv_cache) (n : nat) (u : llama_ubatch) (si : slot_info).
Hypothesis Hk : kv_ok n kv.
Hypothesis Hu : ubatch_fits kv u.
Hypothesis Hsf : slot_fits kv u si.

Lemma size_facts : si_size si = Ok (per_slot kv u) ∧ si_n_stream si = slots kv u ∧ get_size kv = Ok n.
Proof.
  split_and!; [|exact (sf_strm _ _ _ Hsf)|by apply get_size_ok].
  pose proof (uf_slots _ _ Hu) as Hsl. destruct (slot_rows _ _ _ 0 Hsf ltac:(lia)) as (_ & Hrow & _ & Hlen & _).
  unfold si_size. rewrite (ggml_assert_ok (bool_decide (length (idxs si) = _))), bind_Ok.
  2:{ apply bool_decide_eq_true_2. by rewrite (sf_idxs _ _ _ Hsf), (sf_strm _ _ _ Hsf). }
  rewrite ggml_assert_ok, bind_Ok.
  2:{ unfold si_empty. rewrite bool_decide_false; [done|]. intros E. by rewrite E in Hrow. }
  rewrite (vget_ok _ _ _ Hrow), bind_Ok. by rewrite Hlen.
Qed.

Lemma tok_assert : ggml_assert (bool_decide (n_tokens u = per_slot kv u * slots kv u)) = Ok tt.
Proof. apply ggml_assert_ok, bool_decide_eq_true_2. rewrite (uf_split _ _ Hu). lia. Qed.

Lemma dest_range s i : s < slots kv u → i < per_slot kv u →
  strm si !! s = Some (slot_stream si s) ∧ idxs si !! s = Some (slot_row si s) ∧
  slot_row si s !! i = Some (default 0 (slot_row si s !! i)) ∧
  slot_stream si s < n_stream (par kv) ∧ default 0 (slot_row si s !! i) < n.
Proof.
  intros Hs Hi. destruct (slot_rows _ _ _ s Hsf Hs) as (E1 & E2 & Hv & Hl & _ & Hin).
  destruct (lookup_lt_is_Some_2 (slot_row si s) i) as [x Hx]; [lia|].
  destruct (view_stream _ _ _ _ Hk Hv) as [Ht Hvl]. rewrite Hx. cbn. split_and!; try done.
  destruct (Hin x) as [k Hkx]; [by eapply list_elem_of_lookup_2|]. rewrite <- Hvl. by eapply lookup_lt_Some.
Qed.

Lemma tok_dest_inj a b : a < n_tokens u → b < n_tokens u → tok_dest kv u si a = tok_dest kv u si b → a = b.
Proof.
  intros Ha Hb. unfold tok_dest. pose proof (uf_n _ _ Hu) as Hper. rewrite (uf_split _ _ Hu) in Ha, Hb.
  set (p := per_slot kv u) in *. intros [= E1 E2].
  assert (Hda : a `div` p < slots kv u) by (apply Nat.Div0.div_lt_upper_bound; lia).
  assert (Hdb : b `div` p < slots kv u) by (apply Nat.Div0.div_lt_upper_bound; lia).
  pose proof (Nat.mod_upper_bound a p ltac:(lia)) as Hma. pose proof (Nat.mod_upper_bound b p ltac:(lia)) as Hmb.
  destruct (dest_range _ _ Hda Hma) as (A1 & A2 & A3 & _). destruct (dest_range _ _ Hdb Hmb) as (B1 & B2 & B3 & _).
  rewrite E1 in A1. pose proof (NoDup_lookup _ _ _ _ (sf_diff _ _ _ Hsf) A1 B1) as Ed.
  rewrite Ed in *. rewrite E2 in A3.
  destruct (slot_rows _ _ _ _ Hsf Hdb) as (_ & _ & _ & _ & Hnd & _).
  pose proof (NoDup_lookup _ _ _ _ Hnd A3 B3) as Em.
  rewrite (Nat.div_mod_eq a p), (Nat.div_mod_eq b p). congruence.
Qed.

Lemma tok_dest_range x : x < n_tokens u → (tok_dest kv u si x).1 < n_stream (par kv) ∧ (tok_dest kv u si x).2 < n.
Proof.
  intros Hx. pose proof (uf_n _ _ Hu) as Hper. rewrite (uf_split _ _ Hu) in Hx.
  apply (dest_range (x `div` per_slot kv u)); [apply Nat.Div0.div_lt_upper_bound; lia|apply Nat.mod_upper_bound; lia].
Qed.
End dests.

(** the row of token [x] in the K tensor, the entry [y] of the V tensor *)
Definition k_dest (n : nat) (kv : kv_cache) (u : llama_ubatch) (si : slot_info) (x : nat) : Z :=
  let d := tok_dest kv u si x in Z.of_nat (d.1 * n + d.2).
Definition v_dest (n ne : nat) (kv : kv_cache) (u : llama_ubatch) (si : slot_info) (y : nat) : Z :=
  let d := tok_dest kv u si (y `div` ne) in Z.of_nat (d.1 * n * ne + (y `mod` ne) * n + d.2).

Lemma row_written_ext {A} (data d : list A) b k f g : row_written data d b k f → (∀ x, x < k → f x = g x) →
  row_written data d b k g.
Proof. intros (H1 & H2 & H3) E. split_and!; [done| |done]. intros j Hj. rewrite <- E by done. by apply H2. Qed.

Section indices.
Context (kv : kv_cache) (n : nat) (u : llama_ubatch) (si : slot_info) (data : list Z).
Hypothesis Hk : kv_ok n kv.
Hypothesis Hu : ubatch_fits kv u.
Hypothesis Hsf : slot_fits kv u si.
Hypothesis Hwrap : (Z.of_nat n * Z.of_nat (n_stream (par kv)) ≤ 4294967296)%Z.

Lemma k_loops_ok : n_tokens u ≤ length data →
  okP (foldM (λ data s, foldM (k_idx kv si (per_slot kv u) s) data (seq 0 (per_slot kv u))) data (seq 0 (slots kv u)))
    (λ d, row_written data d 0 (n_tokens u) (k_dest n kv u si)).
Proof.
  intros Hlen. destruct (size_facts kv n u si Hk Hu Hsf) as (_ & _ & Hsz). rewrite (uf_split _ _ Hu) in *.
  apply (blocks_ok _ 0 (slots kv u) (per_slot kv u)
    (λ s i, Z.of_nat (slot_stream si s * n + default 0 (slot_row si s !! i)))).
  intros s d Hs Hd. apply entries_ok; [nia|]. intros i d' Hi _.
  destruct (dest_range kv n u si Hk Hsf s i Hs Hi) as (E1 & E2 & E3 & Ht & Hx). unfold k_idx.
  rewrite (vget_ok _ _ _ E1), bind_Ok, Hsz, bind_Ok, (vget_ok _ _ _ E2), bind_Ok, (vget_ok _ _ _ E3), bind_Ok.
  rewrite Nat.add_0_l. f_equal. unfold u32. rewrite Z.mod_small by nia. lia.
Qed.

Lemma set_input_k_idxs_ok : n_tokens u ≤ length data →
  okP (set_input_k_idxs kv u si data) (λ d, row_written data d 0 (n_tokens u) (k_dest n kv u si)).
Proof.
  intros Hlen. destruct (size_facts kv n u si Hk Hu Hsf) as (Hsz & Hns & _). unfold set_input_k_idxs.
  rewrite Hsz, bind_Ok, Hns, (tok_assert kv u) by done. rewrite bind_Ok. by apply k_loops_ok.
Qed.

Lemma set_input_v_idxs_ok : n_tokens u * n_embd_v_gqa (par kv) ≤ length data → v_trans (par kv) = true →
  okP (set_input_v_idxs kv u si data)
    (λ d, row_written data d 0 (n_tokens u * n_embd_v_gqa (par kv)) (v_dest n (n_embd_v_gqa (par kv)) kv u si)).
Proof.
  intros Hlen Htr. destruct (size_facts kv n u si Hk Hu Hsf) as (Hsz & Hns & Hgs). unfold set_input_v_idxs.
  rewrite Hsz, bind_Ok, Hns, (tok_assert kv u) by done. rewrite bind_Ok, Htr. cbn [negb].
  rewrite (uf_split _ _ Hu) in *. set (ne := n_embd_v_gqa (par kv)) in *. set (sz := per_slot kv u) in *.
  eapply okP_mono; [apply (blocks_ok _ 0 (slots kv u) (sz * ne) (λ s z, Z.of_nat (slot_stream si s * n * ne +
    (z `mod` ne) * n + default 0 (slot_row si s !! (z `div` ne)))))|].
  - intros s d Hs Hd. apply (blocks_ok _ (0 + s * (sz * ne)) sz ne (λ i j, Z.of_nat (slot_stream si s * n * ne +
      j * n + default 0 (slot_row si s !! i)))).
    intros i d' Hi Hd'. assert (Hblk : (s * sz + i + 1) * ne ≤ slots kv u * sz * ne) by (apply Nat.mul_le_mono_r; nia).
    apply entries_ok; [rewrite Hd', Hd; lia|]. intros j d'' Hj _.
    destruct (dest_range kv n u si Hk Hsf s i Hs Hi) as (E1 & E2 & E3 & Ht & Hx). unfold v_idx. fold ne.
    rewrite (vget_ok _ _ _ E1), bind_Ok, Hgs, bind_Ok, (vget_ok _ _ _ E2), bind_Ok, (vget_ok _ _ _ E3), bind_Ok.
    f_equal; lia.
  - intros d Hd. rewrite Nat.mul_assoc in Hd. eapply row_written_ext; [exact Hd|]. intros y Hy. cbn beta.
    unfold v_dest, tok_dest. fold sz. cbn [fst snd].
    rewrite Nat.Div0.div_div, (Nat.mul_comm ne sz).
    assert (Em : y `mod` (sz * ne) = y `mod` ne + ne * ((y `div` ne) `mod` sz))
      by (rewrite Nat.mul_comm; apply Nat.Div0.mod_mul_r).
    destruct (decide (ne = 0)) as [E0|Hne]; [rewrite E0 in Hy; lia|].
    pose proof (Nat.mod_upper_bound y ne Hne) as Hmy.
    assert (E1 : (y `mod` (sz * ne)) `div` ne = (y `div` ne) `mod` sz).
    { rewrite Em, Nat.add_comm, Nat.mul_comm, Nat.div_add_l by done. rewrite (Nat.div_small (y `mod` ne)) by done. lia. }
    assert (E2 : (y `mod` (sz * ne)) `mod` ne = y `mod` ne).
    { rewrite Em, Nat.add_comm, Nat.mul_comm, Nat.add_comm, Nat.Div0.mod_add. by apply Nat.mod_small. }
    by rewrite E1, E2.
Qed.

Lemma k_dest_inj a b : a < n_tokens u → b < n_tokens u → k_dest n kv u si a = k_dest n kv u si b → a = b.
Proof.
  intros Ha Hb E. apply (tok_dest_inj kv n u si Hk Hu Hsf); try done.
  destruct (tok_dest_range kv n u si Hk Hu Hsf a Ha) as [A1 A2]. destruct (tok_dest_range kv n u si Hk Hu Hsf b Hb) as [B1 B2].
  unfold k_dest in E. apply Nat2Z.inj in E. destruct (tok_dest kv u si a), (tok_dest kv u si b). cbn in *.
  destruct (decide (n0 = n2)) as [->|Hne]; [f_equal; lia|]. exfalso.
  apply (row_index_ne n n0 n1 n2 n3); [done|done|done|lia].
Qed.

Lemma v_dest_inj ne a b : a < n_tokens u * ne → b < n_tokens u * ne →
  v_dest n ne kv u si a = v_dest n ne kv u si b → a = b.
Proof.
  intros Ha Hb E. destruct (decide (ne = 0)) as [->|Hne]; [lia|].
  pose proof (Nat.mod_upper_bound a ne Hne) as Hma. pose proof (Nat.mod_upper_bound b ne Hne) as Hmb.
  assert (Hda : a `div` ne < n_tokens u) by (apply Nat.Div0.div_lt_upper_bound; lia).
  assert (Hdb : b `div` ne < n_tokens u) by (apply Nat.Div0.div_lt_upper_bound; lia).
  destruct (tok_dest_range kv n u si Hk Hu Hsf _ Hda) as [A1 A2]. destruct (tok_dest_range kv n u si Hk Hu Hsf _ Hdb) as [B1 B2].
  unfold v_dest in E. apply Nat2Z.inj in E.
  pose proof (tok_dest_inj kv n u si Hk Hu Hsf _ _ Hda Hdb) as Hinj.
  destruct (tok_dest kv u si (a `div` ne)) as [t c] eqn:Ea, (tok_dest kv u si (b `div` ne)) as [t' c'] eqn:Eb. cbn [fst snd] in *.
  assert (Ecol : c = c' ∧ t * ne + a `mod` ne = t' * ne + b `mod` ne).
  { destruct (decide (t * ne + a `mod` ne = t' * ne + b `mod` ne)) as [E1|N1]; [split; [nia|done]|]. exfalso.
    apply (row_index_ne n _ c _ c' A2 B2 N1). nia. }
  destruct Ecol as [-> E1].
  assert (t = t') as ->.
  { destruct (decide (t = t')) as [|N]; [done|]. exfalso. apply (row_index_ne ne t (a `mod` ne) t' (b `mod` ne)); [done|done|done|lia]. }
  rewrite (Nat.div_mod_eq a ne), (Nat.div_mod_eq b ne). rewrite Hinj by done. f_equal. lia.
Qed.
End indices.

(** the shift that cell [i] of stream [s] still has to undergo *)
Definition pending_shift (kv : kv_cache) (s i : nat) : Z :=
  let k := default cell_none (default [] (views kv !! s) !! i) in
  if bool_decide (c_pos k = (-1)%Z) then 0%Z else c_shift k.

Lemma set_input_k_shift_ok n kv data : kv_ok n kv → n_stream (par kv) * n ≤ length data →
  okP (set_input_k_shift kv data) (λ d, row_written data d 0 (n_stream (par kv) * n)
    (λ x, pending_shift kv (x `div` n) (x `mod` n))).
Proof.
  intros Hk Hlen. unfold set_input_k_shift.
  apply (blocks_ok _ 0 (n_stream (par kv)) n (pending_shift kv)).
  intros s d Hs Hd. destruct (stream_lookup n kv s Hk Hs) as (c & h & Hc & _ & Hso & Hv & _).
  rewrite (vget_ok _ _ _ Hc), bind_Ok, (so_size _ _ _ Hso). apply entries_ok; [nia|]. intros i d' Hi _.
  destruct (view_Some c i (so_wf _ _ _ Hso) ltac:(rewrite (so_size _ _ _ Hso); lia)) as [k Hki].
  unfold pending_shift. rewrite Hv. cbn [from_option id]. rewrite Hki. cbn [from_option id]. unfold k_shift_cell.
  rewrite (is_empty_ok c i k) by (done || apply Hso). rewrite bind_Ok, (so_size _ _ _ Hso).
  case_bool_decide as He; [done|]. by rewrite (get_shift_ok c i k) by (done || apply Hso).
Qed.

(** * Properties *)

(** C6. The attention mask equals its definition: although the rows of further
    tokens of a sequence are copied from its first token and only the recorded
    cells are recomputed, entry (i, j) is hidden exactly when cell j is empty,
    belongs to another sequence, lies in the future (causal attention, with the
    2D order for equal positions) or outside of the sliding window of token i,
    and otherwise holds 0, or minus the distance under ALiBi. *)
Theorem kq_mask_correct kv n u ca al n_kv ns data : kv_ok n kv → ubatch_fits kv u → swa_ok kv → n_kv ≤ n →
  (0 ≤ n_swa (par kv) ∧ n_swa (par kv) + 32 ≤ INT32_MAX)%Z →
  (∀ t v k, views kv !! t = Some v → k ∈ v → (c_pos k + (n_swa (par kv) + 32) ≤ INT32_MAX)%Z) →
  ns ≠ 0 → n_tokens u `mod` ns = 0 → n_kv * n_tokens u ≤ length data →
  let m := MaskMode ca (bool_decide (swa_type (par kv) ≠ SWA_NONE)) (is_pos_2d u) al in
  okP (set_input_kq_mask kv u ca al n_kv ns data)
    (λ d, length d = length data ∧
      ∀ i j, i < n_tokens u → j < n_kv → d !! (n_kv * i + j) = Some (spec_value kv u m i j)).
Proof. apply set_input_kq_mask_ok. Qed.

Lemma ex_views t v : views ex_kv !! t = Some v → v = ex_view.
Proof.
  rewrite views_lookup. intros (c & Hc & ->)%fmap_Some. change (v_cells ex_kv) with [ex_cells] in Hc.
  apply list_lookup_singleton_Some in Hc as [_ <-]. apply ex_cells_view.
Qed.

Lemma kq_mask_correct_witness :
  okP (set_input_kq_mask ex_kv (ex_ubatch 0 8) true false 4 1 (replicate 4 NegInf))
    (λ d, length d = 4 ∧ ∀ i j, i < 1 → j < 4 → d !! (4 * i + j) =
      Some (spec_value ex_kv (ex_ubatch 0 8) (MaskMode true false false false) i j)).
Proof.
  apply (kq_mask_correct ex_kv 4 (ex_ubatch 0 8) true false 4 1 (replicate 4 NegInf));
    [exact ex_kv_ok|by apply ex_fits_ubatch|exact (ready_swa 4 _ ex_ready)|lia|by vm_compute| |lia|done|done].
  intros t v k E. rewrite (ex_views _ _ E). unfold ex_view, INT32_MAX. rewrite !elem_of_cons, elem_of_nil.
  change (n_swa (par ex_kv)) with 0%Z. naive_solver lia.
Defined.

(** Every token goes to its own place: [set_input_k_idxs] gives token x the
    row stream * size + cell of its slot, [set_input_v_idxs] (transposed V cache)
    gives element j of token x the entry of row j of the stream at the same cell;
    no two of these destinations coincide and the other entries of the tensors
    are not touched. *)
Theorem kv_idxs_correct n kv u si dk dv : kv_ok n kv → ubatch_fits kv u → slot_fits kv u si →
  (Z.of_nat n * Z.of_nat (n_stream (par kv)) ≤ 4294967296)%Z → v_trans (par kv) = true →
  let ne := n_embd_v_gqa (par kv) in
  n_tokens u ≤ length dk → n_tokens u * ne ≤ length dv →
  okP (set_input_k_idxs kv u si dk) (λ d, row_written dk d 0 (n_tokens u) (k_dest n kv u si)) ∧
  okP (set_input_v_idxs kv u si dv) (λ d, row_written dv d 0 (n_tokens u * ne) (v_dest n ne kv u si)) ∧
  (∀ a b, a < n_tokens u → b < n_tokens u → k_dest n kv u si a = k_dest n kv u si b → a = b) ∧
  (∀ a b, a < n_tokens u * ne → b < n_tokens u * ne → v_dest n ne kv u si a = v_dest n ne kv u si b → a = b).
Proof.
  intros Hk Hu Hsf Hw Ht ne Hlk Hlv. split_and!.
  - by apply set_input_k_idxs_ok.
  - by apply set_input_v_idxs_ok.
  - by apply k_dest_inj.
  - by apply v_dest_inj.
Qed.

Definition ex_kv_trans : kv_cache :=
  KvCache (Params 1 2 1 0 SWA_NONE true 1 2 false) [3] [ex_cells] (replicate MAX_SEQ 0) [].

Lemma kv_idxs_correct_witness :
  okP (set_input_k_idxs ex_kv_trans (ex_ubatch 0 8) ex_slot [0%Z])
    (λ d, row_written [0%Z] d 0 1 (k_dest 4 ex_kv_trans (ex_ubatch 0 8) ex_slot)) ∧
  okP (set_input_v_idxs ex_kv_trans (ex_ubatch 0 8) ex_slot [0; 0]%Z)
    (λ d, row_written [0; 0]%Z d 0 2 (v_dest 4 2 ex_kv_trans (ex_ubatch 0 8) ex_slot)).
Proof.
  assert (Hk : kv_ok 4 ex_kv_trans) by (destruct ex_kv_ok; by split).
  assert (Hu : ubatch_fits ex_kv_trans (ex_ubatch 0 8)) by (destruct (ex_fits_ubatch 8 ltac:(done)); by split).
  assert (Hs : slot_fits ex_kv_trans (ex_ubatch 0 8) ex_slot).
  { destruct (slot_ok_fits _ _ _ _ (ex_fits_ubatch 8 ltac:(done)) ex_slot_ok) as [H1 H2 H3 H4]. by split. }
  destruct (kv_idxs_correct 4 ex_kv_trans (ex_ubatch 0 8) ex_slot [0%Z] [0; 0]%Z Hk Hu Hs ltac:(by vm_compute) eq_refl
    ltac:(cbn; lia) ltac:(cbn; lia)) as (H1 & H2 & _). split; [exact H1|exact H2].
Defined.
