(* ===== verification/KvState.v ===== *)
(** Saving and restoring the KV cache ([state_write], [state_read] and their
    parts in src/llama-kv-cache.cpp, the buffer reader of src/llama-context.cpp).

    The saved state is a list of bytes. A layer keeps its keys and values as
    bytes per stream; row and element sizes and type codes come from ggml and are
    fields of the layer. *)
From S2P Require Import Prelude KvCells Batch KvCache KvSlot.

(** ** Bytes *)
Fixpoint le (n : nat) (x : Z) : list Z :=
  match n with 0 => [] | S n => (x mod 256)%Z :: le n (x / 256)%Z end.
Fixpoint unle (l : list Z) : Z := match l with [] => 0%Z | b :: l => (b + 256 * unle l)%Z end.

Definition put_u32 (x : Z) : list Z := le 4 x.
Definition put_i32 (x : Z) : list Z := le 4 (u32 x).
Definition put_u64 (x : Z) : list Z := le 8 x.

(** a reader takes its bytes from the front of the buffer *)
Definition io_read (n : nat) (io : list Z) : res (list Z * list Z) :=
  if decide (n ≤ length io) then Ok (take n io, drop n io) else Err Throw.
Definition get_u32 (io : list Z) : res (Z * list Z) := r ← io_read 4 io; Ok (unle r.1, r.2).
Definition get_i32 (io : list Z) : res (Z * list Z) := r ← io_read 4 io; Ok (i32_of_u32 (unle r.1), r.2).
Definition get_u64 (io : list Z) : res (Z * list Z) := r ← io_read 8 io; Ok (unle r.1, r.2).

(** ** Tensors *)
Record kv_layer := KvLayer {
  k_type     : Z;
  k_size_row : nat;
  k_stream   : list (list Z);
  v_type     : Z;
  v_size_row : nat;
  v_size_el  : nat;
  v_gqa      : nat;
  v_stream   : option (list (list Z))
}.

Record kv_state := KvState { st_kv : kv_cache; st_layers : list kv_layer }.

(** ggml_backend_tensor_get / ggml_backend_tensor_set on the bytes of a tensor *)
Definition tensor_get (t : list Z) (offs n : nat) : res (list Z) :=
  ggml_assert (bool_decide (offs + n ≤ length t));; Ok (take n (drop offs t)).
Definition tensor_set (t : list Z) (b : list Z) (offs : nat) : res (list Z) :=
  ggml_assert (bool_decide (offs + length b ≤ length t));;
  Ok (take offs t ++ b ++ drop (offs + length b) t).

(** ** Writing *)

(** the cells to save *)
Definition wanted (c : llama_kv_cells) (seq_id : Z) (i : nat) : res bool :=
  e ← is_empty c i;
  if e : bool then Ok false
  else if decide (seq_id = -1)%Z then Ok true else seq_has c i seq_id.

(** the ranges of consecutive cells; [begin] is the open range, or the size *)
Record range_state := RangeState { rs_ranges : list (nat * nat); rs_begin : nat; rs_count : nat }.

(** one cell of [n], which is to be saved or not *)
Definition range_push (n : nat) (w : bool) (st : range_state) (i : nat) : range_state :=
  if w then RangeState (rs_ranges st) (if decide (rs_begin st = n) then i else rs_begin st) (S (rs_count st))
  else if decide (rs_begin st = n) then st
  else RangeState (rs_ranges st ++ [(rs_begin st, i)]) n (rs_count st).

(** the last range, and the debug check of the number of cells *)
Definition range_close (n : nat) (st : range_state) : res (list (nat * nat) * nat) :=
  let cr := if decide (rs_begin st = n) then rs_ranges st else rs_ranges st ++ [(rs_begin st, n)] in
  ggml_assert (bool_decide (rs_count st = sum_list_with (λ r, r.2 - r.1) cr));;
  Ok (cr, rs_count st).

Definition range_step (c : llama_kv_cells) (seq_id : Z) (st : range_state) (i : nat) : res range_state :=
  w ← wanted c seq_id i; Ok (range_push (size c) w st i).

Definition cell_ranges (c : llama_kv_cells) (seq_id : Z) : res (list (nat * nat) * nat) :=
  st ← foldM (range_step c seq_id) (RangeState [] (size c) 0) (seq 0 (size c));
  range_close (size c) st.

(** for (i = range.first; i < range.second; ++i) *)
Definition range_cells (r : nat * nat) : list nat := seq r.1 (r.2 - r.1).

Definition write_cell_meta (kv : kv_cache) (c : llama_kv_cells) (seq_id : Z) (i : nat) : res (list Z) :=
  ids ← foldM (λ l cur,
    if decide (Z.of_nat cur = seq_id ∨ seq_id = -1)%Z then
      h ← seq_has c i (Z.of_nat cur); Ok (if h : bool then l ++ [Z.of_nat cur] else l)
    else Ok l) [] (seq 0 (kv_n_seq_max (par kv)));
  p ← pos_get c i;
  e ← (if decide (1 < kv_n_pos (par kv)) then e ← ext_get c i; Ok (put_i32 (ext_x e) ++ put_i32 (ext_y e)) else Ok []);
  Ok (put_i32 p ++ put_u32 (Z.of_nat (length ids)) ++ e ++ concat (put_i32 <$> ids)).

Definition state_write_meta (kv : kv_cache) (c : llama_kv_cells) (cr : list (nat * nat)) (seq_id : Z) : res (list Z) :=
  foldM (λ io r, foldM (λ io i, b ← write_cell_meta kv c seq_id i; Ok (io ++ b)) io (range_cells r)) [] cr.

(** the rows of [sz] bytes of all ranges; [off] is the byte offset of a cell *)
Definition write_rows (t : list Z) (off : nat → nat) (sz : nat) (cr : list (nat * nat)) (io : list Z) : res (list Z) :=
  foldM (λ io r, b ← tensor_get t (off r.1) ((r.2 - r.1) * sz); Ok (io ++ b)) io cr.

Definition write_k (s : nat) (cr : list (nat * nat)) (io : list Z) (l : kv_layer) : res (list Z) :=
  k ← vget (k_stream l) s;
  write_rows k (λ i, i * k_size_row l) (k_size_row l) cr
    (io ++ put_i32 (k_type l) ++ put_u64 (Z.of_nat (k_size_row l))).

Definition write_v (s : nat) (cr : list (nat * nat)) (io : list Z) (l : kv_layer) : res (list Z) :=
  match v_stream l with
  | None => Ok io
  | Some vs =>
      v ← vget vs s;
      write_rows v (λ i, i * v_size_row l) (v_size_row l) cr
        (io ++ put_i32 (v_type l) ++ put_u64 (Z.of_nat (v_size_row l)))
  end.

(** (range.first + j * kv_size) * v_size_el, all of it in uint32_t *)
Definition v_src_offset (kv_size el j i : nat) : nat :=
  Z.to_nat (u32 (u32 (Z.of_nat i + u32 (Z.of_nat j * Z.of_nat kv_size)) * Z.of_nat el)).

Definition write_v_trans (s kv_size : nat) (cr : list (nat * nat)) (io : list Z) (l : kv_layer) : res (list Z) :=
  match v_stream l with
  | None => Ok io
  | Some vs =>
      v ← vget vs s;
      foldM (λ io j, write_rows v (v_src_offset kv_size (v_size_el l) j) (v_size_el l) cr io)
        (io ++ put_i32 (v_type l) ++ put_u32 (Z.of_nat (v_size_el l)) ++ put_u32 (Z.of_nat (v_gqa l)))
        (seq 0 (v_gqa l))
  end.

Definition state_write_data (st : kv_state) (c : llama_kv_cells) (s : nat) (cr : list (nat * nat)) : res (list Z) :=
  let tr := v_trans (par (st_kv st)) in
  let io := put_u32 (if tr then 1 else 0) ++ put_u32 (Z.of_nat (length (st_layers st))) in
  io ← foldM (write_k s cr) io (st_layers st);
  foldM (if tr then write_v_trans s (size c) cr else write_v s cr) io (st_layers st).

Definition state_write (st : kv_state) (seq_id : Z) : res (list Z) :=
  let kv := st_kv st in
  foldM (λ io s,
    c ← vget (v_cells kv) s;
    r ← cell_ranges c seq_id;
    let io := io ++ put_u32 (Z.of_nat r.2) in
    if decide (r.2 = 0) then Ok io else
    m ← state_write_meta kv c r.1 seq_id;
    d ← state_write_data st c s r.1;
    Ok (io ++ m ++ d)) (put_u32 (Z.of_nat (n_stream (par kv)))) (seq 0 (n_stream (par kv))).

(** ** Reading *)

(** Reading continues, or stops because [state_read_meta] or [state_read_data]
    returned false (with the state at that point). *)
Inductive outcome (A : Type) := Going (a : A) | Failed.
Arguments Going {A} a.
Arguments Failed {A}.

(** one token of a saved sequence *)
Definition read_seq_cell (npos : nat) (dest : Z) (st : outcome (llama_ubatch * list Z)) (i : nat) :
    res (outcome (llama_ubatch * list Z)) :=
  match st with
  | Failed => Ok Failed
  | Going (u, io) =>
      p ← get_i32 io;
      m ← get_u32 p.2;
      if decide (m.1 ≠ 1)%Z then Ok Failed else
      e ← (if decide (1 < npos) then
             x ← get_i32 m.2; y ← get_i32 x.2;
             ps ← vset (u_pos u) (i + n_tokens u) y.1;
             ps ← vset ps (i + n_tokens u * 2) x.1;
             Ok (ps, y.2)
           else Ok (u_pos u, m.2));
      q ← get_i32 e.2;
      ps ← vset e.1 i p.1;
      ns ← vset (u_n_seq_id u) i m.1;
      ids ← vset (u_seq_id u) i [dest];
      Ok (Going (UBatch (equal_seqs u) (n_tokens u) (n_seq_tokens u) (n_seqs u) (n_seqs_unq u) (n_pos u) (u_token u)
                  (u_embd u) ps ns ids (u_seq_id_unq u) (u_seq_idx u) (u_output u), q.2))
  end.

(** the tokens of a saved sequence, as a micro-batch *)
Definition read_seq_ubatch (npos n : nat) (dest : Z) (io : list Z) : res (outcome (llama_ubatch * list Z)) :=
  r ← ubatch_reserve (allocr_new npos) n 1;
  unq ← vset (u_seq_id_unq r.2) 0 dest;
  let u := r.2 in
  foldM (read_seq_cell npos dest)
    (Going (UBatch (equal_seqs u) (n_tokens u) (n_seq_tokens u) (n_seqs u) (n_seqs_unq u) (n_pos u) (u_token u)
       (u_embd u) (u_pos u) (u_n_seq_id u) (u_seq_id u) unq (u_seq_idx u) (u_output u), io)) (seq 0 n).

(** the checks after [apply_ubatch] *)
Definition check_restored (kv : kv_cache) (strm0 : nat) (si : slot_info) (u : llama_ubatch) (n : nat) (dest : Z) : res unit :=
  ggml_assert (bool_decide (si_n_stream si = 1));;
  row ← vget (idxs si) 0;
  ggml_assert (bool_decide (length row = n));;
  c ← vget (v_cells kv) strm0;
  foldM (λ (_ : unit) i,
    j ← vget row i;
    p ← pos_get c j;
    p' ← vget (u_pos u) i;
    ggml_assert (bool_decide (p = p'));;
    h ← seq_has c j dest;
    ggml_assert h) tt (seq 0 n).

Definition read_meta_seq (kv : kv_cache) (strm0 n : nat) (dest : Z) (io : list Z) :
    res (kv_cache * outcome (slot_info * list Z)) :=
  r ← KvCache.seq_rm kv dest (-1) (-1);
  let kv := r.1 in
  o ← read_seq_ubatch (kv_n_pos (par kv)) n dest io;
  match o with
  | Failed => Ok (kv, Failed)
  | Going (u, io) =>
      si ← find_slot kv u false;
      if si_empty si then Ok (kv, Failed) else
      kv ← apply_ubatch kv si u;
      check_restored kv strm0 si u n dest;;
      Ok (kv, Going (si, io))
  end.

(** cells.seq_add(i, seq_id) for the saved sequences *)
Definition read_cell_seq (n_max : nat) (i : nat) (st : llama_kv_cells * outcome (list Z)) (_j : nat) :
    res (llama_kv_cells * outcome (list Z)) :=
  match st with
  | (c, Failed) => Ok (c, Failed)
  | (c, Going io) =>
      q ← get_i32 io;
      if decide (q.1 < 0 ∨ Z.of_nat n_max ≤ q.1)%Z then Ok (c, Failed) else
      c ← KvCells.seq_add c i q.1;
      Ok (c, Going q.2)
  end.

Definition read_cell (n_max : nat) (st : llama_kv_cells * outcome (list Z)) (i : nat) :
    res (llama_kv_cells * outcome (list Z)) :=
  match st with
  | (c, Failed) => Ok (c, Failed)
  | (c, Going io) =>
      p ← get_i32 io;
      m ← get_u32 p.2;
      c ← pos_set c i p.1;
      foldM (read_cell_seq n_max i) (c, Going m.2) (seq 0 (Z.to_nat m.1))
  end.

(** whole cache: the cells go to the front of the stream *)
Definition read_meta_all (kv : kv_cache) (strm0 n : nat) (io : list Z) :
    res (kv_cache * outcome (slot_info * list Z)) :=
  c ← vget (v_cells kv) strm0;
  if decide (size c < n) then Ok (kv, Failed) else
  kv ← KvCache.clear kv;
  c ← vget (v_cells kv) strm0;
  r ← foldM (read_cell (kv_n_seq_max (par kv))) (c, Going io) (seq 0 n);
  cs ← vset (v_cells kv) strm0 r.1;
  match r.2 with
  | Failed => Ok (with_stream kv (v_heads kv) cs, Failed)
  | Going io =>
      hs ← vset (v_heads kv) strm0 0;
      Ok (with_stream kv hs cs, Going (SlotInfo strm0 strm0 [strm0] [seq 0 n], io))
  end.

(** the buffers of [clear(true)] *)
Definition zeroed (ts : list (list Z)) : list (list Z) := (λ t : list Z, replicate (length t) 0%Z) <$> ts.
Definition clear_layer (l : kv_layer) : kv_layer :=
  KvLayer (k_type l) (k_size_row l) (zeroed (k_stream l)) (v_type l) (v_size_row l)
    (v_size_el l) (v_gqa l) (zeroed <$> v_stream l).

Definition state_read_meta (st : kv_state) (strm0 n : nat) (dest : Z) (io : list Z) :
    res (kv_state * outcome (slot_info * list Z)) :=
  if decide (dest ≠ -1)%Z then
    r ← read_meta_seq (st_kv st) strm0 n dest io; Ok (KvState r.1 (st_layers st), r.2)
  else
    c ← vget (v_cells (st_kv st)) strm0;
    r ← read_meta_all (st_kv st) strm0 n io;
    Ok (KvState r.1 (if decide (size c < n) then st_layers st else clear_layer <$> st_layers st), r.2).

(** cell_count rows of [sz] bytes from the buffer into the cells of the slot:
    one copy when the slot is contiguous, row by row otherwise; [off] is the byte
    offset of a cell *)
Definition read_rows (si : slot_info) (n sz : nat) (off : nat → nat) (t : list Z) (io : list Z) :
    res (list Z * list Z) :=
  if decide (n = 0) then Ok (t, io) else
  if si_is_contiguous si then
    b ← io_read (n * sz) io;
    h ← si_head si;
    t ← tensor_set t b.1 (off h);
    Ok (t, b.2)
  else
    b ← io_read (n * sz) io;
    row ← vget (idxs si) 0;
    t ← foldM (λ t i, x ← vget row i; tensor_set t (take sz (drop (i * sz) b.1)) (off x)) t (seq 0 n);
    Ok (t, b.2).

Definition with_k (l : kv_layer) (ks : list (list Z)) : kv_layer :=
  KvLayer (k_type l) (k_size_row l) ks (v_type l) (v_size_row l) (v_size_el l) (v_gqa l) (v_stream l).
Definition with_v (l : kv_layer) (vs : list (list Z)) : kv_layer :=
  KvLayer (k_type l) (k_size_row l) (k_stream l) (v_type l) (v_size_row l) (v_size_el l) (v_gqa l) (Some vs).

(** the keys of one layer *)
Definition read_k (s n : nat) (si : slot_info) (l : kv_layer) (io : list Z) : res (kv_layer * outcome (list Z)) :=
  k ← vget (k_stream l) s;
  t ← get_i32 io;
  if decide (k_type l ≠ t.1) then Ok (l, Failed) else
  z ← get_u64 t.2;
  if decide (Z.of_nat (k_size_row l) ≠ z.1) then Ok (l, Failed) else
  r ← read_rows si n (k_size_row l) (λ x, x * k_size_row l) k z.2;
  ks ← vset (k_stream l) s r.1;
  Ok (with_k l ks, Going r.2).

(** the values of one layer *)
Definition read_v (s n : nat) (si : slot_info) (l : kv_layer) (io : list Z) : res (kv_layer * outcome (list Z)) :=
  match v_stream l with
  | None => Ok (l, Going io)
  | Some vs =>
      v ← vget vs s;
      t ← get_i32 io;
      if decide (v_type l ≠ t.1) then Ok (l, Failed) else
      z ← get_u64 t.2;
      if decide (Z.of_nat (v_size_row l) ≠ z.1) then Ok (l, Failed) else
      r ← read_rows si n (v_size_row l) (λ x, x * v_size_row l) v z.2;
      vs ← vset vs s r.1;
      Ok (with_v l vs, Going r.2)
  end.

(** (idx + j * cells.size()) * v_size_el: the sum in uint32_t, the product in size_t *)
Definition v_dst_offset (kv_size el j i : nat) : nat :=
  Z.to_nat (u32 (Z.of_nat i + u32 (Z.of_nat j * Z.of_nat kv_size)) * Z.of_nat el).

Definition read_v_trans (s n kv_size : nat) (si : slot_info) (l : kv_layer) (io : list Z) :
    res (kv_layer * outcome (list Z)) :=
  match v_stream l with
  | None => Ok (l, Going io)
  | Some vs =>
      v ← vget vs s;
      t ← get_i32 io;
      if decide (v_type l ≠ t.1) then Ok (l, Failed) else
      z ← get_u32 t.2;
      if decide (Z.of_nat (v_size_el l) ≠ z.1) then Ok (l, Failed) else
      g ← get_u32 z.2;
      if decide (Z.of_nat (v_gqa l) ≠ g.1) then Ok (l, Failed) else
      r ← foldM (λ st j, read_rows si n (v_size_el l) (v_dst_offset kv_size (v_size_el l) j) st.1 st.2)
            (v, g.2) (seq 0 (v_gqa l));
      vs ← vset vs s r.1;
      Ok (with_v l vs, Going r.2)
  end.

(** for (const auto & layer : layers) ... return false *)
Definition layer_step (rd : kv_layer → list Z → res (kv_layer * outcome (list Z)))
    (st : list kv_layer * outcome (list Z)) (i : nat) : res (list kv_layer * outcome (list Z)) :=
  match st with
  | (ls, Failed) => Ok (ls, Failed)
  | (ls, Going io) =>
      l ← vget ls i;
      r ← rd l io;
      ls ← vset ls i r.1;
      Ok (ls, r.2)
  end.

Definition state_read_data (st : kv_state) (s n : nat) (si : slot_info) (io : list Z) :
    res (kv_state * outcome (list Z)) :=
  c ← vget (v_cells (st_kv st)) s;
  tr ← get_u32 io;
  nl ← get_u32 tr.2;
  let tr' := v_trans (par (st_kv st)) in
  let ls := st_layers st in
  if decide (nl.1 ≠ Z.of_nat (length ls)) then Ok (st, Failed) else
  if decide (size c < n) then Ok (st, Failed) else
  if decide (tr' ≠ bool_decide (tr.1 ≠ 0)%Z) then Ok (st, Failed) else
  r ← foldM (layer_step (read_k s n si)) (ls, Going nl.2) (seq 0 (length ls));
  r ← foldM (layer_step (if tr' : bool then read_v_trans s n (size c) si else read_v s n si)) r (seq 0 (length ls));
  Ok (KvState (st_kv st) r.1, r.2).

(** ** [state_read] *)

(** how it ends: normally, or with an exception thrown for the given reason *)
Inductive read_end := ReadDone (io : list Z) | StreamMismatch | RestoreFailed.

Definition forget (st : kv_state) (seq_id : Z) : res kv_state :=
  if decide (seq_id = -1)%Z then
    kv ← KvCache.clear (st_kv st); Ok (KvState kv (clear_layer <$> st_layers st))
  else r ← KvCache.seq_rm (st_kv st) seq_id (-1) (-1); Ok (KvState r.1 (st_layers st)).

Definition read_stream (seq_id : Z) (acc : kv_state * read_end) (s : nat) : res (kv_state * read_end) :=
  match acc with
  | (st, ReadDone io) =>
      n ← get_u32 io;
      if decide (n.1 = 0)%Z then Ok (st, ReadDone n.2) else
      let cnt := Z.to_nat n.1 in
      strm0 ← (if decide (seq_id = -1)%Z then Ok s else j ← idx seq_id; vget (seq_to_stream (st_kv st)) j);
      m ← state_read_meta st strm0 cnt seq_id n.2;
      match m.2 with
      | Failed => st ← forget m.1 seq_id; Ok (st, RestoreFailed)
      | Going (si, io) =>
          d ← state_read_data m.1 strm0 cnt si io;
          match d.2 with
          | Failed => st ← forget d.1 seq_id; Ok (st, RestoreFailed)
          | Going io => Ok (d.1, ReadDone io)
          end
      end
  | _ => Ok acc
  end.

Definition state_read (st : kv_state) (seq_id : Z) (io : list Z) : res (kv_state * read_end) :=
  let kv := st_kv st in
  ggml_assert (bool_decide (seq_id = -1 ∨ 0 ≤ seq_id < Z.of_nat (length (seq_to_stream kv)))%Z);;
  ns ← get_u32 io;
  if decide (ns.1 ≠ Z.of_nat (n_stream (par kv))) then Ok (st, StreamMismatch) else
  foldM (read_stream seq_id) (st, ReadDone ns.2) (seq 0 (n_stream (par kv))).

(** * Lemmas *)

(** ** Bytes *)
Lemma le_length n x : length (le n x) = n.
Proof. revert x; induction n as [|n IH]; intros x; cbn; [done|by rewrite IH]. Qed.

Lemma unle_le n x : unle (le n x) = (x mod 256 ^ Z.of_nat n)%Z.
Proof.
  revert x; induction n as [|n IH]; intros x; [cbn; by rewrite Z.mod_1_r|].
  cbn [le unle]. rewrite IH, Nat2Z.inj_succ, Z.pow_succ_r, Z.rem_mul_r by lia. done.
Qed.

Lemma io_read_app a n io : length a = n → io_read n (a ++ io) = Ok (a, io).
Proof.
  intros <-. unfold io_read. rewrite decide_True by (rewrite length_app; lia).
  by rewrite take_app_length, drop_app_length.
Qed.

Lemma get_u32_put x io : (0 ≤ x < 4294967296)%Z → get_u32 (put_u32 x ++ io) = Ok (x, io).
Proof.
  intros Hx. unfold get_u32, put_u32. rewrite io_read_app, bind_Ok by apply le_length. cbn [fst snd].
  rewrite unle_le. change (256 ^ Z.of_nat 4)%Z with 4294967296%Z. by rewrite Z.mod_small.
Qed.

Lemma get_u64_put x io : (0 ≤ x < 18446744073709551616)%Z → get_u64 (put_u64 x ++ io) = Ok (x, io).
Proof.
  intros Hx. unfold get_u64, put_u64. rewrite io_read_app, bind_Ok by apply le_length. cbn [fst snd].
  rewrite unle_le. change (256 ^ Z.of_nat 8)%Z with 18446744073709551616%Z. by rewrite Z.mod_small.
Qed.

Lemma get_i32_put x io : (INT32_MIN ≤ x ≤ INT32_MAX)%Z → get_i32 (put_i32 x ++ io) = Ok (x, io).
Proof.
  intros Hx. unfold get_i32, put_i32. rewrite io_read_app, bind_Ok by apply le_length. cbn [fst snd].
  rewrite unle_le. change (256 ^ Z.of_nat 4)%Z with 4294967296%Z. unfold u32, i32_of_u32, INT32_MIN, INT32_MAX in *.
  rewrite Z.mod_mod by lia. repeat f_equal.
  destruct (decide (x < 0)%Z) as [Hn|Hn].
  - assert (E : (x mod 4294967296 = x + 4294967296)%Z) by (rewrite <- (Z.mod_add x 1) by lia; rewrite Z.mod_small; lia).
    rewrite E, decide_False by lia. lia.
  - rewrite Z.mod_small by lia. by rewrite decide_True by lia.
Qed.

(** ** Ranges *)
Definition wantedb (seq_id : Z) (k : cell) : bool :=
  negb (bool_decide (c_pos k = (-1)%Z)) && (bool_decide (seq_id = (-1)%Z) || bool_decide (seq_id ∈ c_seq k)).

(** the cells to save, in order *)
Definition chosen (f : nat → bool) (n : nat) : list nat := filter (λ i, f i = true) (seq 0 n).
Definition wanted_at (c : llama_kv_cells) (seq_id : Z) (i : nat) : bool := wantedb seq_id (default cell_none (view c !! i)).
Definition saved_cells (c : llama_kv_cells) (seq_id : Z) (n : nat) : list nat := chosen (wanted_at c seq_id) n.

Lemma wanted_ok c seq_id i k : wf c → view c !! i = Some k → (seq_id = -1 ∨ 0 ≤ seq_id < LLAMA_MAX_SEQ)%Z →
  wanted c seq_id i = Ok (wantedb seq_id k).
Proof.
  intros Hw Hk Hs. unfold wanted, wantedb. rewrite (is_empty_ok c i k Hw Hk), bind_Ok.
  destruct (bool_decide (c_pos k = (-1)%Z)); [done|]. cbn [negb andb].
  destruct (decide (seq_id = -1)%Z) as [->|Hne]; [done|]. rewrite (bool_decide_eq_false_2 (seq_id = -1)%Z) by done.
  cbn [orb]. apply (seq_has_ok c i k); [done|done|lia].
Qed.

Lemma chosen_S f n : chosen f (S n) = chosen f n ++ (if f n then [n] else []).
Proof.
  unfold chosen. rewrite seq_S, filter_app, Nat.add_0_l. f_equal.
  destruct (f n) eqn:E; [by rewrite filter_cons_True|by rewrite filter_cons_False by (by rewrite E)].
Qed.

Definition ranges_cells (cr : list (nat * nat)) : list nat := concat (range_cells <$> cr).

Lemma ranges_cells_snoc cr r : ranges_cells (cr ++ [r]) = ranges_cells cr ++ range_cells r.
Proof. unfold ranges_cells. rewrite fmap_app, concat_app. cbn. by rewrite app_nil_r. Qed.

Lemma ranges_count cr : sum_list_with (λ r, r.2 - r.1) cr = length (ranges_cells cr).
Proof.
  induction cr as [|r cr IH]; [done|]. unfold ranges_cells in *. cbn. rewrite length_app, IH.
  unfold range_cells. by rewrite length_seq.
Qed.

Definition range_inv (f : nat → bool) (n i : nat) (st : range_state) : Prop :=
  ranges_cells (rs_ranges st) ++ (if decide (rs_begin st = n) then [] else seq (rs_begin st) (i - rs_begin st)) = chosen f i ∧
  (rs_begin st = n ∨ rs_begin st < i) ∧ rs_count st = length (chosen f i) ∧ Forall (λ r, r.1 < r.2 ∧ r.2 ≤ i) (rs_ranges st).

Lemma range_start f n : range_inv f n 0 (RangeState [] n 0).
Proof. split_and!; cbn; [by rewrite decide_True|by left|done|done]. Qed.

Lemma range_push_ok f n st i : i < n → range_inv f n i st → range_inv f n (S i) (range_push n (f i) st i).
Proof.
  intros Hi (Hc & Hb & Hn & Hf). unfold range_push. pose proof (chosen_S f i) as HS.
  assert (Hf' : Forall (λ r, r.1 < r.2 ∧ r.2 ≤ S i) (rs_ranges st)) by (eapply Forall_impl; [exact Hf|cbn; lia]).
  destruct (f i) eqn:Ew.
  - unfold range_inv. cbn [rs_ranges rs_begin rs_count]. rewrite HS, length_app, Hn, <- Hc.
    destruct (decide (rs_begin st = n)) as [E|E].
    + rewrite decide_False by lia. rewrite app_nil_r. split_and!; [|lia|cbn; lia|done].
      replace (S i - i) with 1 by lia. done.
    + rewrite decide_False by done. destruct Hb as [?|Hb]; [done|]. split_and!; [|lia|cbn; lia|done].
      rewrite <- app_assoc. f_equal. replace (S i - rs_begin st) with (S (i - rs_begin st)) by lia.
      rewrite seq_S. do 2 f_equal. lia.
  - rewrite app_nil_r in HS. destruct (decide (rs_begin st = n)) as [E|E].
    + unfold range_inv. rewrite HS, <- Hc, Hn. rewrite decide_True by done. rewrite <- Hc. split_and!; try done. by left.
    + destruct Hb as [?|Hb]; [done|]. unfold range_inv. cbn [rs_ranges rs_begin rs_count].
      rewrite decide_True by done. rewrite HS, <- Hc, app_nil_r, ranges_cells_snoc, Hn, <- Hc.
      split_and!; [done|by left|done|]. apply Forall_app. split; [done|]. apply Forall_singleton. cbn. lia.
Qed.

Lemma range_close_ok f n st : range_inv f n n st → okP (range_close n st) (λ r, ranges_cells r.1 = chosen f n ∧
  r.2 = length (chosen f n) ∧ Forall (λ r, r.1 < r.2 ∧ r.2 ≤ n) r.1).
Proof.
  intros (Hc & Hb & Hn & Hf). unfold range_close. cbn zeta. set (cr := if decide (rs_begin st = n) then rs_ranges st else _).
  assert (Ecr : ranges_cells cr = chosen f n ∧ Forall (λ r, r.1 < r.2 ∧ r.2 ≤ n) cr).
  { unfold cr. destruct (decide (rs_begin st = n)) as [E|E]; [by rewrite app_nil_r in Hc|].
    destruct Hb as [?|Hb]; [done|]. rewrite ranges_cells_snoc. split; [exact Hc|].
    apply Forall_app. split; [done|]. apply Forall_singleton. cbn. lia. }
  destruct Ecr as [Ec Ef]. rewrite ggml_assert_ok, bind_Ok; [by cbn; split_and!|].
  apply bool_decide_eq_true_2. by rewrite ranges_count, Ec.
Qed.

Lemma cell_ranges_ok c seq_id : wf c → (seq_id = -1 ∨ 0 ≤ seq_id < LLAMA_MAX_SEQ)%Z →
  okP (cell_ranges c seq_id) (λ r, ranges_cells r.1 = saved_cells c seq_id (size c) ∧
    r.2 = length (saved_cells c seq_id (size c)) ∧ Forall (λ r, r.1 < r.2 ∧ r.2 ≤ size c) r.1).
Proof.
  intros Hw Hs. unfold cell_ranges. eapply okP_bind; [apply (okP_for _ (range_inv (wanted_at c seq_id) (size c)))|].
  - apply range_start.
  - intros i st Hi Hst. destruct (view_Some c i Hw Hi) as [k Hk]. unfold range_step.
    rewrite (wanted_ok c seq_id i k), bind_Ok by done. cbn [okP].
    replace (wantedb seq_id k) with (wanted_at c seq_id i) by (unfold wanted_at; by rewrite Hk). by apply range_push_ok.
  - intros st. apply range_close_ok.
Qed.

(** ** Rows of a tensor *)
Lemma take_plus {A} (l : list A) n m : take (n + m) l = take n l ++ take m (drop n l).
Proof. revert l; induction n as [|n IH]; intros [|x l]; cbn; [done|done|by rewrite take_nil|by rewrite IH]. Qed.

(** byte offsets of cells that lie [sz] bytes apart *)
Definition affine (off : nat → nat) (sz : nat) : Prop := ∀ i, off (S i) = off i + sz.

Lemma affine_add off sz i j : affine off sz → off (i + j) = off i + j * sz.
Proof. intros H. induction j as [|j IH]; [by rewrite !Nat.add_0_r|]. rewrite Nat.add_succ_r, H, IH. lia. Qed.

Lemma affine_disjoint off sz i j d e : affine off sz → d < sz → e < sz → i ≠ j → off i + d ≠ off j + e.
Proof.
  intros H Hd He Hne E. destruct (decide (i < j)) as [Hlt|Hge].
  - replace j with (i + S (j - i - 1)) in E by lia. rewrite (affine_add off sz i) in E by done. nia.
  - replace i with (j + S (i - j - 1)) in E by lia. rewrite (affine_add off sz j) in E by done. nia.
Qed.

Definition row_bytes (t : list Z) (off : nat → nat) (sz i : nat) : list Z := take sz (drop (off i) t).
Definition rows_bytes (t : list Z) (off : nat → nat) (sz : nat) (l : list nat) : list Z :=
  concat (row_bytes t off sz <$> l).

Lemma rows_bytes_app t off sz l l' : rows_bytes t off sz (l ++ l') = rows_bytes t off sz l ++ rows_bytes t off sz l'.
Proof. unfold rows_bytes. by rewrite fmap_app, concat_app. Qed.

Lemma range_bytes t off sz a m : affine off sz → take (m * sz) (drop (off a) t) = rows_bytes t off sz (seq a m).
Proof.
  intros Haff. revert a. induction m as [|m IH]; intros a; [done|]. unfold rows_bytes in *. cbn [seq fmap list_fmap concat Nat.mul].
  rewrite take_plus, drop_drop. f_equal. rewrite <- IH. by rewrite Haff.
Qed.

Lemma rows_bytes_length t off sz l : (∀ i, i ∈ l → off i + sz ≤ length t) → length (rows_bytes t off sz l) = length l * sz.
Proof.
  induction l as [|i l IH]; intros H; [done|]. unfold rows_bytes in *. cbn. rewrite length_app, IH by (intros; apply H; set_solver).
  unfold row_bytes. rewrite length_take, length_drop. pose proof (H i ltac:(set_solver)). lia.
Qed.

Lemma write_rows_ok t off sz cr io : affine off sz → Forall (λ r, r.1 < r.2 ∧ off r.2 ≤ length t) cr →
  write_rows t off sz cr io = Ok (io ++ rows_bytes t off sz (ranges_cells cr)).
Proof.
  intros Haff. revert io. induction cr as [|[a b] cr IH]; intros io Hcr; [cbn; by rewrite app_nil_r|].
  apply Forall_cons in Hcr as [[Hab Hb] Hcr]. unfold write_rows in *. cbn [foldM fst snd] in *.
  assert (Eb : off b = off a + (b - a) * sz) by (rewrite <- (affine_add off sz a) by done; f_equal; lia).
  unfold tensor_get. rewrite ggml_assert_ok, !bind_Ok by (apply bool_decide_eq_true_2; lia).
  rewrite IH by done. unfold ranges_cells. cbn [fmap list_fmap concat].
  rewrite rows_bytes_app, <- app_assoc. do 3 f_equal. by apply range_bytes.
Qed.

Lemma tensor_set_ok t b o : o + length b ≤ length t → okP (tensor_set t b o) (λ t', length t' = length t ∧
  (∀ d, d < length b → t' !! (o + d) = b !! d) ∧ (∀ p, (∀ d, d < length b → p ≠ o + d) → t' !! p = t !! p)).
Proof.
  intros Hl. unfold tensor_set. rewrite ggml_assert_ok, bind_Ok by (apply bool_decide_eq_true_2; lia). cbn [okP].
  split_and!.
  - rewrite !length_app, length_take, length_drop. lia.
  - intros d Hd. rewrite lookup_app_r by (rewrite length_take; lia). rewrite length_take.
    rewrite lookup_app_l by lia. f_equal. lia.
  - intros p Hp. destruct (decide (p < o)) as [Hlt|Hge].
    + rewrite lookup_app_l by (rewrite length_take; lia). by apply lookup_take_lt.
    + assert (o + length b ≤ p).
      { destruct (decide (p < o + length b)); [|lia]. exfalso. apply (Hp (p - o)); lia. }
      rewrite lookup_app_r by (rewrite length_take; lia). rewrite length_take, lookup_app_r by lia.
      rewrite lookup_drop. f_equal. lia.
Qed.

(** the rows of [b] are at the cells [row] of [t'], the rest is as in [t] *)
Definition rows_placed (t t' : list Z) (off : nat → nat) (sz : nat) (row : list nat) (b : list Z) : Prop :=
  length t' = length t ∧
  (∀ i x d, row !! i = Some x → d < sz → t' !! (off x + d) = b !! (i * sz + d)) ∧
  (∀ p, (∀ x d, x ∈ row → d < sz → p ≠ off x + d) → t' !! p = t !! p).

Lemma scatter_ok t b off sz row : affine off sz → NoDup row → length b = length row * sz →
  (∀ x, x ∈ row → off x + sz ≤ length t) →
  okP (foldM (λ t i, x ← vget row i; tensor_set t (take sz (drop (i * sz) b)) (off x)) t (seq 0 (length row)))
    (λ t', rows_placed t t' off sz row b).
Proof.
  intros Haff Hnd Hb Hin. eapply okP_mono; [apply (okP_for _ (λ n t', rows_placed t t' off sz (take n row) b))|].
  - split_and!; [done|intros i x d Hi; discriminate Hi|done].
  - intros i t1 Hi (Hl & Hd & Ho). destruct (lookup_lt_is_Some_2 row i Hi) as [x Hx].
    rewrite (vget_ok _ _ _ Hx), bind_Ok. assert (Hxin : x ∈ row) by (by eapply list_elem_of_lookup_2).
    assert (Hlen : length (take sz (drop (i * sz) b)) = sz) by (rewrite length_take, length_drop; nia).
    eapply okP_mono; [apply tensor_set_ok; rewrite Hlen, Hl; by apply Hin|]. rewrite Hlen.
    intros t2 (Hl2 & Hd2 & Ho2). rewrite (take_S_r _ _ _ Hx). split_and!; [congruence| |].
    + intros j y d Hj Hdz. apply lookup_app_Some in Hj as [Hj|[Hge Hj]].
      * rewrite Ho2; [by apply Hd|]. intros e He. apply affine_disjoint with sz; [done|done|done|]. intros ->.
        apply lookup_take_Some in Hj as [Hj Hlt]. rewrite (NoDup_lookup _ _ _ _ Hnd Hj Hx) in Hlt. lia.
      * apply list_lookup_singleton_Some in Hj as [E <-]. rewrite length_take in E, Hge.
        assert (j = i) as -> by lia. rewrite Hd2 by done. rewrite lookup_take_lt by done. by rewrite lookup_drop.
    + intros p Hp. rewrite Ho2 by (intros e He; apply Hp; [set_solver|done]). apply Ho. intros y d Hy. apply Hp. set_solver.
  - intros t'. by rewrite firstn_all.
Qed.

(** neighbouring rows are written at once *)
Lemma block_placed t b off sz h n : affine off sz → 0 < n → length b = n * sz → off (h + (n - 1)) + sz ≤ length t →
  okP (tensor_set t b (off h)) (λ t', rows_placed t t' off sz (seq h n) b).
Proof.
  intros Haff Hn Hb Hlast. rewrite (affine_add off sz) in Hlast by done.
  eapply okP_mono; [apply tensor_set_ok; nia|]. intros t' (Hl & Hd & Ho). split_and!; [done| |].
  - intros i x d [-> Hlt]%lookup_seq Hdz. rewrite (affine_add off sz), <- Nat.add_assoc by done. apply Hd. nia.
  - intros p Hp. apply Ho. intros d Hdz E. rewrite Hb in Hdz. destruct (decide (sz = 0)); [nia|].
    apply (Hp (h + d `div` sz) (d `mod` sz)).
    + apply elem_of_seq. split; [lia|]. apply Nat.add_lt_mono_l, Nat.Div0.div_lt_upper_bound. lia.
    + by apply Nat.mod_upper_bound.
    + rewrite (affine_add off sz) by done. rewrite E. pose proof (Nat.div_mod_eq d sz). lia.
Qed.

Lemma read_rows_ok si row n sz off t b io : affine off sz → idxs si = [row] → NoDup row → length row = n →
  length b = n * sz → (∀ x, x ∈ row → off x + sz ≤ length t) →
  okP (read_rows si n sz off t (b ++ io)) (λ r, r.2 = io ∧ rows_placed t r.1 off sz row b).
Proof.
  intros Haff Hsi Hnd Hn Hb Hin. unfold read_rows. destruct (decide (n = 0)) as [E0|Hn0].
  { rewrite E0 in *. assert (b = []) as -> by (apply nil_length_inv; lia). assert (row = []) as -> by (by apply nil_length_inv).
    cbn. split; [done|]. by split_and!. }
  destruct (si_is_contiguous si) eqn:Ec.
  - rewrite io_read_app, bind_Ok by done. cbn [fst snd]. unfold si_is_contiguous in Ec. rewrite Hsi in Ec.
    destruct row as [|h row']; [by cbn in Hn|]. apply bool_decide_eq_true in Ec.
    assert (Erow : h :: row' = seq h n) by (by rewrite <- Hn). 
    assert (Eh : si_head si = Ok h) by (unfold si_head; by rewrite Hsi). rewrite Eh, bind_Ok.
    eapply okP_bind; [apply (block_placed t b off sz h n Haff ltac:(lia) Hb)|].
    { apply Hin. rewrite Erow. apply elem_of_seq. lia. }
    intros t' Ht. cbn [okP fst snd]. by rewrite Erow.
  - rewrite io_read_app, bind_Ok by done. cbn [fst snd]. rewrite Hsi, (vget_ok _ 0 row), bind_Ok by done.
    subst n. eapply okP_bind; [by apply (scatter_ok t b off sz row)|]. intros t' Ht. by cbn.
Qed.

(** ** Meta data *)

(** the sequences of a cell that are saved, and the bytes of the cell *)
Definition saved_ids (n_max : nat) (seq_id : Z) (k : cell) : list Z :=
  filter (λ q, (q = seq_id ∨ seq_id = -1)%Z ∧ q ∈ c_seq k) (Z.of_nat <$> seq 0 n_max).

Definition cell_bytes (kv : kv_cache) (seq_id : Z) (k : cell) : list Z :=
  let ids := saved_ids (kv_n_seq_max (par kv)) seq_id k in
  put_i32 (c_pos k) ++ put_u32 (Z.of_nat (length ids)) ++
  (if decide (1 < kv_n_pos (par kv)) then put_i32 (ext_x (c_ext k)) ++ put_i32 (ext_y (c_ext k)) else []) ++
  concat (put_i32 <$> ids).

Lemma write_cell_meta_ok kv c seq_id i k : wf c → view c !! i = Some k → c_pos k ≠ (-1)%Z →
  kv_n_seq_max (par kv) ≤ MAX_SEQ → write_cell_meta kv c seq_id i = Ok (cell_bytes kv seq_id k).
Proof.
  intros Hw Hk Hp Hmax. unfold write_cell_meta.
  assert (Hids : foldM (λ l cur, if decide (Z.of_nat cur = seq_id ∨ seq_id = -1)%Z then
      h ← seq_has c i (Z.of_nat cur); Ok (if h : bool then l ++ [Z.of_nat cur] else l) else Ok l) []
      (seq 0 (kv_n_seq_max (par kv))) = Ok (saved_ids (kv_n_seq_max (par kv)) seq_id k)).
  { destruct (proj1 (okP_ok _ _) (okP_for (λ l cur, if decide (Z.of_nat cur = seq_id ∨ seq_id = -1)%Z then
      h ← seq_has c i (Z.of_nat cur); Ok (if h : bool then l ++ [Z.of_nat cur] else l) else Ok l)
      (λ m l, l = saved_ids m seq_id k) [] (kv_n_seq_max (par kv)) eq_refl ltac:(
        intros m l Hm ->; unfold saved_ids; rewrite seq_S, fmap_app, filter_app, Nat.add_0_l; cbn [fmap list_fmap];
        destruct (decide (Z.of_nat m = seq_id ∨ seq_id = -1)%Z) as [Hd|Hd];
        [pose proof MAX_SEQ_eq; rewrite (seq_has_ok c i k) by (done || lia); rewrite bind_Ok; cbn [okP];
         case_bool_decide as Hin; [by rewrite filter_cons_True|by rewrite filter_cons_False, filter_nil, app_nil_r by naive_solver]
        |cbn [okP]; by rewrite filter_cons_False, filter_nil, app_nil_r by naive_solver]))) as (l & E & ->). exact E. }
  rewrite Hids, bind_Ok, (pos_get_ok c i k), bind_Ok by done. unfold cell_bytes.
  destruct (decide (1 < kv_n_pos (par kv))); [rewrite (ext_get_ok c i k), bind_Ok by done|]; by rewrite bind_Ok.
Qed.

Definition cells_bytes (kv : kv_cache) (seq_id : Z) (c : llama_kv_cells) (l : list nat) : list Z :=
  concat ((λ i, cell_bytes kv seq_id (default cell_none (view c !! i))) <$> l).

Lemma cells_bytes_app kv q c l l' : cells_bytes kv q c (l ++ l') = cells_bytes kv q c l ++ cells_bytes kv q c l'.
Proof. unfold cells_bytes. by rewrite fmap_app, concat_app. Qed.

Lemma write_meta_cells_ok kv c seq_id l io : wf c → kv_n_seq_max (par kv) ≤ MAX_SEQ →
  (∀ i, i ∈ l → ∃ k, view c !! i = Some k ∧ c_pos k ≠ (-1)%Z) →
  foldM (λ io i, b ← write_cell_meta kv c seq_id i; Ok (io ++ b)) io l = Ok (io ++ cells_bytes kv seq_id c l).
Proof.
  intros Hw Hmax. revert io. induction l as [|i l IH]; intros io Hl; [cbn; by rewrite app_nil_r|]. cbn [foldM].
  destruct (Hl i ltac:(set_solver)) as (k & Hk & Hp).
  rewrite (write_cell_meta_ok kv c seq_id i k), !bind_Ok by done. rewrite IH by (intros; apply Hl; set_solver).
  unfold cells_bytes. cbn. by rewrite Hk, <- app_assoc.
Qed.

Lemma state_write_meta_ok kv c seq_id cr : wf c → kv_n_seq_max (par kv) ≤ MAX_SEQ →
  (∀ i, i ∈ ranges_cells cr → ∃ k, view c !! i = Some k ∧ c_pos k ≠ (-1)%Z) →
  state_write_meta kv c cr seq_id = Ok (cells_bytes kv seq_id c (ranges_cells cr)).
Proof.
  intros Hw Hmax H. unfold state_write_meta.
  assert (E : ∀ io, foldM (λ io r, foldM (λ io i, b ← write_cell_meta kv c seq_id i; Ok (io ++ b)) io (range_cells r)) io cr
    = Ok (io ++ cells_bytes kv seq_id c (ranges_cells cr))); [|apply E].
  induction cr as [|r cr IH]; intros io; [cbn; by rewrite app_nil_r|]. cbn [foldM].
  rewrite write_meta_cells_ok, bind_Ok by (done || (intros i Hi; apply H; unfold ranges_cells; cbn; set_solver)).
  rewrite IH by (intros i Hi; apply H; unfold ranges_cells in *; cbn; set_solver).
  unfold ranges_cells. cbn [fmap list_fmap concat]. by rewrite cells_bytes_app, app_assoc.
Qed.

(** ** Reading the cells of a whole cache *)
Definition restored (k : cell) : cell := Cell (c_pos k) ext_reset 0 (c_seq k).

(** a cell that fits the number of sequences *)
Definition cell_fits (n_max : nat) (k : cell) : Prop :=
  (0 ≤ c_pos k ≤ INT32_MAX)%Z ∧ ∀ q, q ∈ c_seq k → (0 ≤ q < Z.of_nat n_max)%Z.

Lemma saved_ids_all n_max k : (∀ q, q ∈ c_seq k → (0 ≤ q < Z.of_nat n_max)%Z) →
  list_to_set (saved_ids n_max (-1) k) = c_seq k ∧ NoDup (saved_ids n_max (-1) k) ∧
  (∀ q, q ∈ saved_ids n_max (-1) k → (0 ≤ q < Z.of_nat n_max)%Z) ∧ length (saved_ids n_max (-1) k) ≤ n_max.
Proof.
  intros H. assert (Hin : ∀ q, q ∈ saved_ids n_max (-1) k ↔ q ∈ c_seq k).
  { intros q. unfold saved_ids. rewrite list_elem_of_filter. split; [naive_solver|]. intros Hq. split; [naive_solver|].
    apply list_elem_of_fmap. exists (Z.to_nat q). pose proof (H q Hq). split; [lia|]. apply elem_of_seq. lia. }
  split_and!.
  - apply set_eq. intros q. rewrite elem_of_list_to_set. apply Hin.
  - apply NoDup_filter, NoDup_fmap_2; [intros ??; lia|apply NoDup_seq].
  - intros q Hq. by apply H, Hin.
  - unfold saved_ids. rewrite length_filter. by rewrite length_fmap, length_seq.
Qed.

Lemma read_cell_seq_put n_max i c q io s : n_max ≤ MAX_SEQ → (0 ≤ q < Z.of_nat n_max)%Z →
  read_cell_seq n_max i (c, Going (put_i32 q ++ io)) s = (c ← KvCells.seq_add c i q; Ok (c, Going io)).
Proof.
  intros Hmax Hq. pose proof MAX_SEQ_eq as HM. unfold read_cell_seq.
  rewrite get_i32_put, bind_Ok by (unfold INT32_MIN, INT32_MAX, LLAMA_MAX_SEQ in *; lia).
  cbn [fst snd]. by rewrite decide_False by lia.
Qed.

Lemma read_seqs_ok n_max i ids c k io : wf c → view c !! i = Some k → c_pos k ≠ (-1)%Z → n_max ≤ MAX_SEQ →
  NoDup ids → (∀ q, q ∈ ids → (0 ≤ q < Z.of_nat n_max)%Z ∧ q ∉ c_seq k) →
  okP (foldM (read_cell_seq n_max i) (c, Going (concat (put_i32 <$> ids) ++ io)) (seq 0 (length ids)))
    (λ r, r.2 = Going io ∧ wf r.1 ∧
      view r.1 = <[i := Cell (c_pos k) (c_ext k) (c_shift k) (c_seq k ∪ list_to_set ids)]> (view c)).
Proof.
  intros Hw Hk Hp Hmax. pose proof MAX_SEQ_eq as HM. generalize 0%nat as s. revert c k Hw Hk Hp.
  induction ids as [|q ids IH]; intros c k Hw Hk Hp s Hnd Hids.
  - cbn. split_and!; [done|done|]. rewrite union_empty_r_L. symmetry. apply list_insert_id. by destruct k.
  - apply NoDup_cons in Hnd as [Hnin Hnd]. cbn [length seq foldM fmap list_fmap concat].
    destruct (Hids q ltac:(set_solver)) as [Hq Hqk]. rewrite <- app_assoc.
    rewrite read_cell_seq_put by (done || lia).
    destruct (proj1 (okP_ok _ _) (seq_add_ok c i q k Hw Hk ltac:(lia) Hp Hqk)) as (c1 & E1 & Hw1 & Hv1 & _).
    rewrite E1, !bind_Ok. pose proof (lookup_lt_Some _ _ _ Hk) as Hi.
    assert (Hk1 : view c1 !! i = Some (cell_seq_add q k)) by (by rewrite Hv1, list_lookup_insert_eq).
    eapply okP_mono; [apply (IH c1 (cell_seq_add q k) Hw1 Hk1 Hp (S s) Hnd)|].
    + intros q' Hq'. destruct (Hids q' ltac:(set_solver)) as [? Hq'k]. split; [done|]. unfold cell_seq_add. cbn.
      intros [->%elem_of_singleton|?]%elem_of_union; done.
    + intros r (H1 & H2 & H3). split_and!; [done|done|]. rewrite H3, Hv1, list_insert_insert_eq. f_equal.
      unfold cell_seq_add. cbn. f_equal. set_solver.
Qed.

Lemma read_cell_ok kv k i c k0 io : wf c → view c !! i = Some k0 → c_pos k0 = (-1)%Z → c_ext k0 = ext_reset →
  kv_n_pos (par kv) = 1 → kv_n_seq_max (par kv) ≤ MAX_SEQ → cell_fits (kv_n_seq_max (par kv)) k →
  okP (read_cell (kv_n_seq_max (par kv)) (c, Going (cell_bytes kv (-1) k ++ io)) i)
    (λ r, r.2 = Going io ∧ wf r.1 ∧ view r.1 = <[i := restored k]> (view c)).
Proof.
  intros Hw Hk Hp He Hn Hmax [Hpos Hseq]. destruct (saved_ids_all _ _ Hseq) as (Hset & Hnd & Hin & Hlen).
  pose proof MAX_SEQ_eq as HM. unfold read_cell, cell_bytes. rewrite Hn, decide_False by lia. cbn [app].
  set (ids := saved_ids _ _ _) in *. rewrite <- !app_assoc.
  rewrite get_i32_put, bind_Ok by (unfold INT32_MIN in *; lia). cbn [fst snd].
  rewrite get_u32_put, bind_Ok by (unfold LLAMA_MAX_SEQ in *; lia). cbn [fst snd].
  eapply okP_bind; [apply (pos_set_ok c i (c_pos k) k0 Hw Hk Hp); lia|]. intros c1 (Hw1 & Hv1 & _).
  pose proof (lookup_lt_Some _ _ _ Hk) as Hi. rewrite Nat2Z.id.
  assert (Hk1 : view c1 !! i = Some (Cell (c_pos k) (c_ext k0) 0 ∅)) by (by rewrite Hv1, list_lookup_insert_eq).
  eapply okP_mono; [apply (read_seqs_ok _ i ids c1 _ io Hw1 Hk1); cbn [c_pos c_seq]; try done; [lia|]|].
  - intros q Hq. split; [by apply Hin|set_solver].
  - intros r (H1 & H2 & H3). split_and!; [done|done|]. rewrite H3, Hv1, list_insert_insert_eq. f_equal.
    unfold restored. cbn. rewrite He. f_equal. rewrite Hset. set_solver.
Qed.

Lemma read_cells_ok kv ks c io : wf c → length ks ≤ length (view c) →
  (∀ k, k ∈ view c → c_pos k = (-1)%Z ∧ c_ext k = ext_reset) →
  kv_n_pos (par kv) = 1 → kv_n_seq_max (par kv) ≤ MAX_SEQ → (∀ k, k ∈ ks → cell_fits (kv_n_seq_max (par kv)) k) →
  okP (foldM (read_cell (kv_n_seq_max (par kv))) (c, Going (concat (cell_bytes kv (-1) <$> ks) ++ io)) (seq 0 (length ks)))
    (λ r, r.2 = Going io ∧ wf r.1 ∧ view r.1 = (restored <$> ks) ++ drop (length ks) (view c)).
Proof.
  intros Hw Hlen Hempty Hn Hmax Hks.
  eapply okP_mono; [apply (okP_for _ (λ i r, r.2 = Going (concat (cell_bytes kv (-1) <$> drop i ks) ++ io) ∧ wf r.1 ∧
    view r.1 = (restored <$> take i ks) ++ drop i (view c)))|].
  - done.
  - intros i [c1 o] Hi (Eo & Hw1 & Hv1). cbn [fst snd] in *. subst o.
    destruct (lookup_lt_is_Some_2 ks i Hi) as [k Hk].
    destruct (lookup_lt_is_Some_2 (view c) i) as [k0 Hk0]; [lia|].
    destruct (Hempty k0) as [Hp0 He0]; [by eapply list_elem_of_lookup_2|].
    rewrite (drop_S _ _ _ Hk). cbn [fmap list_fmap concat]. rewrite <- app_assoc.
    assert (Ht : length (restored <$> take i ks) = i) by (rewrite length_fmap, length_take; lia).
    assert (Hk1 : view c1 !! i = Some k0).
    { rewrite Hv1, lookup_app_r, Ht, Nat.sub_diag by lia. rewrite lookup_drop. by rewrite Nat.add_0_r. }
    eapply okP_mono; [apply (read_cell_ok kv k i c1 k0); try done; apply Hks; by eapply list_elem_of_lookup_2|].
    intros r (H1 & H2 & H3). split_and!; [done|done|]. rewrite H3, Hv1, (take_S_r _ _ _ Hk), fmap_app, <- app_assoc.
    rewrite (drop_S _ _ _ Hk0). rewrite <- Ht at 1. rewrite insert_app_r_alt, Nat.sub_diag by lia. done.
  - intros r (H1 & H2 & H3). rewrite drop_ge in H1 by done. by rewrite firstn_all in H3.
Qed.

Lemma read_meta_all_ok n kv ks io : kv_ok n kv → n_stream (par kv) = 1 → length ks ≤ n →
  kv_n_pos (par kv) = 1 → kv_n_seq_max (par kv) ≤ MAX_SEQ →
  (∀ k, k ∈ ks → cell_fits (kv_n_seq_max (par kv)) k ∧ cell_owned k) →
  okP (read_meta_all kv 0 (length ks) (concat (cell_bytes kv (-1) <$> ks) ++ io)) (λ r,
    r.2 = Going (SlotInfo 0 0 [0] [seq 0 (length ks)], io) ∧ kv_ok n r.1 ∧ same_rest kv r.1 ∧
    views r.1 = [(restored <$> ks) ++ replicate (n - length ks) cell_none] ∧ v_heads r.1 = [0]).
Proof.
  intros Hk Hns Hlen Hn Hmax Hks. unfold read_meta_all.
  destruct (stream_lookup n kv 0 Hk ltac:(lia)) as (c0 & h0 & Hc0 & _ & Hso0 & _).
  rewrite (vget_ok _ _ _ Hc0), bind_Ok, (so_size _ _ _ Hso0), decide_False by lia.
  eapply okP_bind; [by apply (clear_kv_ok n)|]. intros kv1 (Hk1 & Hs1 & Hv1 & Hh1).
  assert (Hns1 : n_stream (par kv1) = 1) by (by rewrite (proj1 Hs1)).
  destruct (stream_lookup n kv1 0 Hk1 ltac:(lia)) as (c & h & Hc & Hh & Hso & Hv & Hvl).
  rewrite (vget_ok _ _ _ Hc), bind_Ok, (proj1 Hs1).
  assert (Hvc : view c = replicate n cell_none).
  { rewrite Hv1, list_lookup_fmap in Hv. destruct (views kv !! 0) as [v0|] eqn:Ev0; [|done]. cbn in Hv. injection Hv as <-.
    destruct (view_stream _ _ _ _ Hk Ev0) as [_ ->]. done. }
  eapply okP_bind; [apply (read_cells_ok kv ks c io); try done; [apply Hso|by rewrite Hvc, length_replicate| |by intros; apply Hks]|].
  { rewrite Hvc. intros k [-> _]%elem_of_replicate. done. }
  intros [c2 o] (Eo & Hw2 & Hv2). cbn [fst snd] in *. subst o.
  rewrite (vset_ok (v_cells kv1)), bind_Ok by (rewrite (ko_cells _ _ Hk1); lia).
  rewrite (vset_ok (v_heads kv1)), bind_Ok by (rewrite (ko_heads _ _ Hk1); lia). cbn [okP fst snd].
  rewrite Hvc, drop_replicate in Hv2.
  split_and!; [done| |exact Hs1| |].
  - apply kv_ok_with_stream; [done|lia|]. split; [done| | |lia].
    + rewrite <- length_view, Hv2 by done. rewrite length_app, length_fmap, length_replicate. lia.
    + rewrite Hv2. intros k [(k' & -> & Hk')%list_elem_of_fmap|[-> _]%elem_of_replicate]%elem_of_app; [|done].
      unfold restored, cell_owned. cbn. by apply Hks.
  - unfold views. cbn. pose proof (ko_cells _ _ Hk1) as Hl. rewrite Hns1 in Hl.
    destruct (v_cells kv1) as [|x [|]]; try done. cbn. by rewrite Hv2.
  - cbn. pose proof (ko_heads _ _ Hk1) as Hl. rewrite Hns1 in Hl. by destruct (v_heads kv1) as [|x [|]].
Qed.

(** ** Layers of a cache with one stream *)
Definition U64 : Z := 18446744073709551616.

(** a tensor of [n] rows of [sz] bytes with a type code *)
Definition rows_ok (n sz : nat) (ty : Z) (t : list Z) : Prop :=
  length t = n * sz ∧ (INT32_MIN ≤ ty ≤ INT32_MAX)%Z ∧ (Z.of_nat sz < U64)%Z.

Definition layer_ok (n : nat) (l : kv_layer) : Prop :=
  (∃ k, k_stream l = [k] ∧ rows_ok n (k_size_row l) (k_type l) k) ∧
  match v_stream l with
  | None => True
  | Some vs => ∃ v, vs = [v] ∧ rows_ok n (v_size_row l) (v_type l) v
  end.

Definition layer_same (l l' : kv_layer) : Prop :=
  k_type l' = k_type l ∧ k_size_row l' = k_size_row l ∧ v_type l' = v_type l ∧ v_size_row l' = v_size_row l ∧
  (v_stream l' = None ↔ v_stream l = None).

(** row [j] of the tensors of [l'] is the row of the [j]-th cell in those of [l] *)
Definition rows_moved (cells : list nat) (sz : nat) (t t' : list Z) : Prop :=
  ∀ j x d, cells !! j = Some x → d < sz → t' !! (j * sz + d) = t !! (x * sz + d).
Definition k_moved (cells : list nat) (l l' : kv_layer) : Prop :=
  ∃ k k', k_stream l = [k] ∧ k_stream l' = [k'] ∧ rows_moved cells (k_size_row l) k k'.
Definition v_moved (cells : list nat) (l l' : kv_layer) : Prop :=
  match v_stream l with
  | None => v_stream l' = None
  | Some vs => ∃ v v', vs = [v] ∧ v_stream l' = Some [v'] ∧ rows_moved cells (v_size_row l) v v'
  end.

Lemma mul_affine sz : affine (λ i, i * sz) sz.
Proof. intros i. lia. Qed.

Lemma rows_bytes_lookup t off sz l j x d : (∀ i, i ∈ l → off i + sz ≤ length t) → l !! j = Some x → d < sz →
  rows_bytes t off sz l !! (j * sz + d) = t !! (off x + d).
Proof.
  revert j. induction l as [|i l IH]; intros j Hin Hj Hd; [done|].
  assert (Hlen : length (row_bytes t off sz i) = sz).
  { unfold row_bytes. rewrite length_take, length_drop. pose proof (Hin i ltac:(set_solver)). lia. }
  unfold rows_bytes in *. cbn [fmap list_fmap concat]. destruct j as [|j].
  - injection Hj as ->. rewrite lookup_app_l by lia. unfold row_bytes. cbn. rewrite lookup_take_lt by done. apply lookup_drop.
  - cbn [Nat.mul]. rewrite lookup_app_r, Hlen by lia. replace (sz + j * sz + d - sz) with (j * sz + d) by lia.
    apply IH; [intros; apply Hin; set_solver|done|done].
Qed.

Section layers.
Context (n n' : nat) (cr : list (nat * nat)).
Hypothesis Hcr : Forall (λ r, r.1 < r.2 ∧ r.2 ≤ n) cr.
Abbreviation cells := (ranges_cells cr).
Hypothesis Hfit : length cells ≤ n'.

Lemma cells_lt i : i ∈ cells → i < n.
Proof.
  unfold ranges_cells. intros Hi%elem_of_concat. destruct Hi as (l & (r & -> & Hr)%list_elem_of_fmap & Hi).
  rewrite Forall_forall in Hcr. destruct (Hcr r Hr) as [_ ?]. unfold range_cells in Hi. apply elem_of_seq in Hi. lia.
Qed.

(** what is written for a tensor [t] of rows, and read back into [t0] *)
Definition tensor_bytes (ty : Z) (sz : nat) (t : list Z) : list Z :=
  put_i32 ty ++ put_u64 (Z.of_nat sz) ++ rows_bytes t (λ i, i * sz) sz cells.

Lemma tensor_written ty sz t io : rows_ok n sz ty t →
  write_rows t (λ i, i * sz) sz cr (io ++ put_i32 ty ++ put_u64 (Z.of_nat sz)) = Ok (io ++ tensor_bytes ty sz t).
Proof.
  intros (Hl & _ & _). rewrite write_rows_ok; [by unfold tensor_bytes; rewrite <- !app_assoc|apply mul_affine|].
  eapply Forall_impl; [exact Hcr|]. intros r [H1 H2]. split; [done|]. rewrite Hl. by apply Nat.mul_le_mono_r.
Qed.

Lemma rows_read sz ty ty' t t' io : rows_ok n sz ty t → rows_ok n' sz ty' t' →
  okP (read_rows (SlotInfo 0 0 [0] [seq 0 (length cells)]) (length cells) sz (λ x, x * sz) t'
        (rows_bytes t (λ i, i * sz) sz cells ++ io))
    (λ r, r.2 = io ∧ length r.1 = n' * sz ∧ rows_moved cells sz t r.1).
Proof.
  intros (Hl & _ & _) (Hl' & _ & _).
  assert (Hin : ∀ i, i ∈ cells → i * sz + sz ≤ length t).
  { intros i Hi%cells_lt. rewrite Hl. nia. }
  eapply okP_mono; [apply (read_rows_ok _ (seq 0 (length cells)));
    [apply mul_affine|done|apply NoDup_seq|by rewrite length_seq|by apply rows_bytes_length|]|].
  - intros x Hx%elem_of_seq. rewrite Hl'. nia.
  - intros r (Hio & Hlen & Hd & _). split_and!; [done|lia|]. intros j x d Hj Hdz.
    rewrite (Hd j j d); [by apply (rows_bytes_lookup t (λ i, i * sz))|apply lookup_seq_lt; by eapply lookup_lt_Some|done].
Qed.

Definition k_bytes (l : kv_layer) : list Z := tensor_bytes (k_type l) (k_size_row l) (default [] (k_stream l !! 0)).
Definition v_bytes (l : kv_layer) : list Z :=
  match v_stream l with None => [] | Some vs => tensor_bytes (v_type l) (v_size_row l) (default [] (vs !! 0)) end.

Lemma write_k_ok l io : layer_ok n l → write_k 0 cr io l = Ok (io ++ k_bytes l).
Proof.
  intros [(k & Ek & Hk) _]. unfold write_k, k_bytes. rewrite Ek, (vget_ok [k] 0 k), bind_Ok by done. by apply tensor_written.
Qed.

Lemma write_v_ok l io : layer_ok n l → write_v 0 cr io l = Ok (io ++ v_bytes l).
Proof.
  intros [_ Hv]. unfold write_v, v_bytes. destruct (v_stream l) as [vs|]; [|by rewrite app_nil_r].
  destruct Hv as (v & -> & Hv). rewrite (vget_ok [v] 0 v), bind_Ok by done. by apply tensor_written.
Qed.

Lemma read_k_ok l l' io : layer_ok n l → layer_ok n' l' → layer_same l l' →
  okP (read_k 0 (length cells) (SlotInfo 0 0 [0] [seq 0 (length cells)]) l' (k_bytes l ++ io))
    (λ r, r.2 = Going io ∧ layer_ok n' r.1 ∧ layer_same l r.1 ∧ k_moved cells l r.1 ∧ v_stream r.1 = v_stream l').
Proof.
  intros [(k & Ek & Hk) _] [(k' & Ek' & Hk') Hv'] (E1 & E2 & E3 & E4 & E5). unfold read_k, k_bytes, tensor_bytes.
  rewrite Ek, Ek', (vget_ok [k'] 0 k'), bind_Ok by done. cbn [list_lookup lookup from_option id]. rewrite <- !app_assoc.
  destruct Hk as (A1 & A2 & A3). unfold U64 in *. rewrite E1, E2 in *.
  rewrite get_i32_put, bind_Ok by done. cbn [fst snd]. rewrite decide_False by naive_solver.
  rewrite get_u64_put, bind_Ok by lia. cbn [fst snd]. rewrite decide_False by naive_solver.
  eapply okP_bind; [by eapply (rows_read _ (k_type l) (k_type l) k k')|].
  intros [t io'] (Hio & Hl & Hmv). cbn [fst snd] in *. rewrite (vset_ok [k'] 0 t), bind_Ok by (cbn; lia).
  cbn [okP fst snd list_insert insert]. split_and!; [by subst io'| | | |done].
  - split; [|exact Hv']. exists t. destruct Hk' as (B1 & B2 & B3). by rewrite <- E2, <- E1 in *.
  - by split_and!.
  - by exists k, t.
Qed.

Lemma read_v_ok l l' io : layer_ok n l → layer_ok n' l' → layer_same l l' →
  okP (read_v 0 (length cells) (SlotInfo 0 0 [0] [seq 0 (length cells)]) l' (v_bytes l ++ io))
    (λ r, r.2 = Going io ∧ layer_ok n' r.1 ∧ layer_same l r.1 ∧ v_moved cells l r.1 ∧ k_stream r.1 = k_stream l').
Proof.
  intros [_ Hv] [Hk' Hv'] (E1 & E2 & E3 & E4 & E5). unfold read_v, v_bytes, v_moved in *.
  destruct (v_stream l) as [vs|] eqn:Ev.
  2:{ rewrite (proj2 E5) by done. cbn [app okP fst snd].
      assert (Evn : v_stream l' = None) by (by apply E5). split_and!; try done. }
  destruct (v_stream l') as [vs'|] eqn:Ev'; [|by destruct E5 as [E5 _]; discriminate E5].
  destruct Hv as (v & -> & Hv). destruct Hv' as (v' & -> & Hv'). unfold tensor_bytes.
  rewrite (vget_ok [v'] 0 v'), bind_Ok by done. cbn [list_lookup lookup from_option id]. rewrite <- !app_assoc.
  destruct Hv as (A1 & A2 & A3). unfold U64 in *. rewrite E3, E4 in *.
  rewrite get_i32_put, bind_Ok by done. cbn [fst snd]. rewrite decide_False by naive_solver.
  rewrite get_u64_put, bind_Ok by lia. cbn [fst snd]. rewrite decide_False by naive_solver.
  eapply okP_bind; [by eapply (rows_read _ (v_type l) (v_type l) v v')|].
  intros [t io'] (Hio & Hl & Hmv). cbn [fst snd] in *. rewrite (vset_ok [v'] 0 t), bind_Ok by (cbn; lia).
  cbn [okP fst snd list_insert insert]. split_and!; [by subst io'| | | |done].
  - split; [exact Hk'|]. exists t. split; [done|]. destruct Hv' as (B1 & B2 & B3). cbn. by rewrite E3, E4.
  - split_and!; try done. by rewrite Ev.
  - by exists v, t.
Qed.
End layers.

(** ** The loops over the layers *)
Lemma write_layers_ok (wr : list Z → kv_layer → res (list Z)) (bytes : kv_layer → list Z) ls io :
  (∀ l io, l ∈ ls → wr io l = Ok (io ++ bytes l)) → foldM wr io ls = Ok (io ++ concat (bytes <$> ls)).
Proof.
  revert io. induction ls as [|l ls IH]; intros io H; [cbn; by rewrite app_nil_r|]. cbn [foldM fmap list_fmap concat].
  rewrite H, bind_Ok by set_solver. rewrite IH by (intros; apply H; set_solver). by rewrite app_assoc.
Qed.

Lemma read_layers_ok (rd : kv_layer → list Z → res (kv_layer * outcome (list Z))) (bytes : kv_layer → list Z)
    (Q : kv_layer → kv_layer → kv_layer → Prop) ls ls' io :
  length ls' = length ls →
  (∀ i l l' io, ls !! i = Some l → ls' !! i = Some l' →
    okP (rd l' (bytes l ++ io)) (λ r, r.2 = Going io ∧ Q l l' r.1)) →
  okP (foldM (layer_step rd) (ls', Going (concat (bytes <$> ls) ++ io)) (seq 0 (length ls))) (λ r,
    r.2 = Going io ∧ length r.1 = length ls ∧
    ∀ i l l' l2, ls !! i = Some l → ls' !! i = Some l' → r.1 !! i = Some l2 → Q l l' l2).
Proof.
  intros Hlen Hrd.
  eapply okP_mono; [apply (okP_for _ (λ m r, r.2 = Going (concat (bytes <$> drop m ls) ++ io) ∧ length r.1 = length ls ∧
    (∀ i l l' l2, i < m → ls !! i = Some l → ls' !! i = Some l' → r.1 !! i = Some l2 → Q l l' l2) ∧
    (∀ i, m ≤ i → r.1 !! i = ls' !! i)))|].
  - split_and!; [done|done|intros; lia|done].
  - intros m [ls1 o] Hm (Eo & Hl & Hd & Ho). cbn [fst snd] in *. subst o.
    destruct (lookup_lt_is_Some_2 ls m Hm) as [l El]. destruct (lookup_lt_is_Some_2 ls' m) as [l' El']; [lia|].
    unfold layer_step. rewrite (vget_ok ls1 m l'), bind_Ok by (by rewrite Ho).
    rewrite (drop_S _ _ _ El). cbn [fmap list_fmap concat]. rewrite <- app_assoc.
    eapply okP_bind; [by apply (Hrd m l l')|]. intros [l2 o] (Eo & HQ). cbn [fst snd] in *.
    rewrite vset_ok, bind_Ok by lia. cbn [okP fst snd]. split_and!; [done|by rewrite length_insert| |].
    + intros i a b a2 Hi Ha Hb Ha2. destruct (decide (i = m)) as [->|Hne].
      * rewrite list_lookup_insert_eq in Ha2 by lia. injection Ha2 as <-.
        rewrite El in Ha. rewrite El' in Hb. by injection Ha as <-; injection Hb as <-.
      * rewrite list_lookup_insert_ne in Ha2 by done. apply (Hd i); [lia|done..].
    + intros i Hi. rewrite list_lookup_insert_ne by lia. apply Ho. lia.
  - intros r (H1 & H2 & H3 & _). rewrite drop_ge in H1 by done. split_and!; [done|done|].
    intros i l l' l2 Hl. apply H3; [by eapply lookup_lt_Some|done].
Qed.

(** the layers that were read: the rows of the saved cells moved to the front *)
Definition layers_moved (cells : list nat) (ls ls2 : list kv_layer) : Prop :=
  length ls2 = length ls ∧
  ∀ i l l2, ls !! i = Some l → ls2 !! i = Some l2 → k_moved cells l l2 ∧ v_moved cells l l2.

Definition layers_ok (n : nat) (ls : list kv_layer) : Prop := ∀ l, l ∈ ls → layer_ok n l.
Definition layers_same (ls ls' : list kv_layer) : Prop :=
  length ls' = length ls ∧ ∀ i l l', ls !! i = Some l → ls' !! i = Some l' → layer_same l l'.

Definition data_bytes (cr : list (nat * nat)) (ls : list kv_layer) : list Z :=
  put_u32 0 ++ put_u32 (Z.of_nat (length ls)) ++ concat (k_bytes cr <$> ls) ++ concat (v_bytes cr <$> ls).

Lemma state_write_data_ok n st c cr : v_trans (par (st_kv st)) = false → layers_ok n (st_layers st) →
  Forall (λ r, r.1 < r.2 ∧ r.2 ≤ n) cr →
  state_write_data st c 0 cr = Ok (data_bytes cr (st_layers st)).
Proof.
  intros Ht Hl Hcr. unfold state_write_data, data_bytes. rewrite Ht. cbn zeta.
  rewrite (write_layers_ok _ (k_bytes cr)), bind_Ok.
  2:{ intros l io Hin. apply (write_k_ok n cr); [done|by apply Hl]. }
  rewrite (write_layers_ok _ (v_bytes cr)).
  2:{ intros l io Hin. apply (write_v_ok n cr); [done|by apply Hl]. }
  by rewrite <- !app_assoc.
Qed.

Lemma state_read_data_ok n n' st st' cr io : v_trans (par (st_kv st')) = false →
  layers_ok n (st_layers st) → layers_ok n' (st_layers st') → layers_same (st_layers st) (st_layers st') →
  Forall (λ r, r.1 < r.2 ∧ r.2 ≤ n) cr → length (ranges_cells cr) ≤ n' → kv_ok n' (st_kv st') →
  (Z.of_nat (length (st_layers st)) < 4294967296)%Z →
  okP (state_read_data st' 0 (length (ranges_cells cr)) (SlotInfo 0 0 [0] [seq 0 (length (ranges_cells cr))])
        (data_bytes cr (st_layers st) ++ io))
    (λ r, r.2 = Going io ∧ st_kv r.1 = st_kv st' ∧ layers_moved (ranges_cells cr) (st_layers st) (st_layers r.1)).
Proof.
  intros Ht Hl Hl' [Hsl Hsame] Hcr Hfit Hk Hnl. unfold state_read_data, data_bytes.
  destruct (stream_lookup n' _ 0 Hk ltac:(pose proof (ko_streams _ _ Hk); lia)) as (c & h & Hc & _ & Hso & _).
  rewrite (vget_ok _ _ _ Hc), bind_Ok, <- !app_assoc, get_u32_put, bind_Ok by lia. cbn [fst snd].
  rewrite get_u32_put, bind_Ok by lia. cbn [fst snd]. cbn zeta. rewrite Ht, decide_False by (intros H0; apply H0; by rewrite Hsl).
  rewrite (so_size _ _ _ Hso), decide_False by lia. rewrite (bool_decide_eq_false_2 (0 ≠ 0)%Z), decide_False by (intros H0; by apply H0).
  assert (Hidx : ∀ i (l : kv_layer), st_layers st !! i = Some l → layer_ok n l) by (intros i l H; apply Hl; by eapply list_elem_of_lookup_2).
  rewrite Hsl.
  eapply okP_bind; [apply (read_layers_ok _ (k_bytes cr) (λ l l' l2, layer_ok n' l2 ∧ layer_same l l2 ∧
    k_moved (ranges_cells cr) l l2 ∧ v_stream l2 = v_stream l') (st_layers st) (st_layers st')); [done|]|].
  { intros i l l' io' Hi Hi'. apply (read_k_ok n n' cr Hcr Hfit); [by eapply Hidx|apply Hl'; by eapply list_elem_of_lookup_2|by eapply Hsame]. }
  intros [ls1 o] (Eo & Hl1 & HQ). cbn [fst snd] in *. subst o.
  assert (Hat : ∀ i l l1, st_layers st !! i = Some l → ls1 !! i = Some l1 →
    ∃ l', st_layers st' !! i = Some l' ∧ layer_ok n' l1 ∧ layer_same l l1 ∧ k_moved (ranges_cells cr) l l1).
  { intros i l l1 Hi Hi1. destruct (lookup_lt_is_Some_2 (st_layers st') i) as [l' Hi'].
    { rewrite Hsl. by eapply lookup_lt_Some. } exists l'. destruct (HQ i l l' l1 Hi Hi' Hi1) as (?&?&?&?). done. }
  eapply okP_bind; [apply (read_layers_ok _ (v_bytes cr) (λ l l1 l2, v_moved (ranges_cells cr) l l2 ∧
    k_stream l2 = k_stream l1 ∧ layer_same l l2) (st_layers st) ls1); [done|]|].
  { intros i l l1 io' Hi Hi1. destruct (Hat i l l1 Hi Hi1) as (l' & _ & A1 & A2 & _).
    eapply okP_mono; [by apply (read_v_ok n n' cr Hcr Hfit); [eapply Hidx| |]|]. naive_solver. }
  intros [ls2 o] (Eo & Hl2 & HQ2). cbn [fst snd] in *. subst o. cbn [okP fst snd st_kv st_layers].
  split_and!; [done|done|split; [done|]]. intros i l l2 Hi Hi2.
  destruct (lookup_lt_is_Some_2 ls1 i) as [l1 Hi1]; [rewrite Hl1; by eapply lookup_lt_Some|].
  destruct (HQ2 i l l1 l2 Hi Hi1 Hi2) as (B1 & B2 & B3). split; [|done].
  destruct (Hat i l l1 Hi Hi1) as (l' & _ & _ & (_ & Esz & _) & (k & k1 & C1 & C2 & C3)).
  exists k, k1. by rewrite B2.
Qed.

(** ** The whole state *)
Definition occupied (v : list cell) : list nat :=
  filter (λ i, wantedb (-1) (default cell_none (v !! i)) = true) (seq 0 (length v)).
Definition occupied_cells (v : list cell) : list cell := (λ i, default cell_none (v !! i)) <$> occupied v.

(** the states that can be exchanged: one stream, one position per token, the V
    cache not transposed *)
Record plain_state (n : nat) (st : kv_state) : Prop := {
  ps_ok     : kv_ok n (st_kv st);
  ps_stream : n_stream (par (st_kv st)) = 1;
  ps_pos    : kv_n_pos (par (st_kv st)) = 1;
  ps_trans  : v_trans (par (st_kv st)) = false;
  ps_max    : kv_n_seq_max (par (st_kv st)) ≤ MAX_SEQ;
  ps_layers : layers_ok n (st_layers st);
  ps_count  : (Z.of_nat (length (st_layers st)) < 4294967296)%Z
}.

Lemma clear_layers_ok n' ls ls' : layers_ok n' ls' → layers_same ls ls' →
  layers_ok n' (clear_layer <$> ls') ∧ layers_same ls (clear_layer <$> ls').
Proof.
  intros Hl [Hlen Hs]. split; [|split; [by rewrite length_fmap|]].
  - intros l (l' & -> & Hin)%list_elem_of_fmap. destruct (Hl l' Hin) as [(k & Ek & Hk) Hv]. split.
    + exists (replicate (length k) 0%Z). cbn. rewrite Ek. split; [done|]. destruct Hk as (H1 & H2 & H3).
      split; [by rewrite length_replicate|exact (conj H2 H3)].
    + cbn. destruct (v_stream l') as [vs|]; [|done]. destruct Hv as (v & -> & H1 & H2 & H3).
      exists (replicate (length v) 0%Z). split; [done|]. split; [by rewrite length_replicate|exact (conj H2 H3)].
  - intros i l l2 Hi Hi2. rewrite list_lookup_fmap in Hi2. apply fmap_Some in Hi2 as (l' & Hi' & ->).
    destruct (Hs i l l' Hi Hi') as (E1 & E2 & E3 & E4 & E5). split_and!; try done. cbn. rewrite <- E5.
    by destruct (v_stream l').
Qed.

Lemma state_write_ok n st v : plain_state n st → views (st_kv st) = [v] → (Z.of_nat n < 4294967296)%Z →
  ∃ cr, ranges_cells cr = occupied v ∧ Forall (λ r, r.1 < r.2 ∧ r.2 ≤ n) cr ∧
  state_write st (-1) = Ok (put_u32 1 ++ put_u32 (Z.of_nat (length (occupied v))) ++
    if decide (occupied v = []) then [] else
      concat (cell_bytes (st_kv st) (-1) <$> occupied_cells v) ++ data_bytes cr (st_layers st)).
Proof.
  intros Hp Hv Hn. pose proof (ps_ok _ _ Hp) as Hk. pose proof (ps_stream _ _ Hp) as Hns.
  destruct (stream_lookup n _ 0 Hk ltac:(lia)) as (c & h & Hc & _ & Hso & Hvc & Hvl). rewrite Hv in Hvc. injection Hvc as ->.
  pose proof (so_wf _ _ _ Hso) as Hw.
  destruct (proj1 (okP_ok _ _) (cell_ranges_ok c (-1) Hw ltac:(by left))) as ([cr cnt] & Ecr & E1 & E2 & Hcr).
  cbn [fst snd] in *. rewrite (so_size _ _ _ Hso) in *.
  assert (Eocc : saved_cells c (-1) n = occupied (view c)) by (unfold saved_cells, chosen, wanted_at, occupied; by rewrite Hvl).
  exists cr. split_and!; [by rewrite E1|done|]. unfold state_write. rewrite Hns. cbn [seq foldM].
  rewrite (vget_ok _ _ _ Hc), bind_Ok, Ecr, bind_Ok. cbn [fst snd]. rewrite E2, Eocc.
  destruct (decide (occupied (view c) = [])) as [E0|E0].
  { rewrite decide_True by (by rewrite E0). rewrite bind_Ok. by rewrite app_nil_r. }
  rewrite decide_False by (intros H; by apply E0, nil_length_inv).
  rewrite state_write_meta_ok, bind_Ok; [|done|apply (ps_max _ _ Hp)|].
  2:{ rewrite E1, Eocc. intros i Hi. unfold occupied in Hi. apply list_elem_of_filter in Hi as [Hwb Hi].
      apply elem_of_seq in Hi. destruct (lookup_lt_is_Some_2 (view c) i) as [k Hki]; [lia|].
      exists k. split; [done|]. rewrite Hki in Hwb. unfold wantedb in Hwb. cbn in Hwb.
      destruct (bool_decide (c_pos k = (-1)%Z)) eqn:Eb; [done|]. by apply bool_decide_eq_false in Eb. }
  rewrite (state_write_data_ok n), !bind_Ok by (done || apply Hp).
  rewrite <- !app_assoc. do 3 f_equal. f_equal. unfold cells_bytes, occupied_cells. by rewrite E1, Eocc, <- list_fmap_compose.
Qed.

Lemma state_read_ok n n' st st' v cr io : plain_state n st → plain_state n' st' → views (st_kv st) = [v] →
  par (st_kv st') = par (st_kv st) → layers_same (st_layers st) (st_layers st') →
  ranges_cells cr = occupied v → Forall (λ r, r.1 < r.2 ∧ r.2 ≤ n) cr →
  length (occupied v) ≤ n' → (Z.of_nat n < 4294967296)%Z →
  (∀ k, k ∈ occupied_cells v → cell_fits (kv_n_seq_max (par (st_kv st))) k) →
  okP (state_read st' (-1) ((put_u32 1 ++ put_u32 (Z.of_nat (length (occupied v))) ++
    if decide (occupied v = []) then [] else
      concat (cell_bytes (st_kv st) (-1) <$> occupied_cells v) ++ data_bytes cr (st_layers st)) ++ io))
    (λ r, r.2 = ReadDone io ∧
      if decide (occupied v = []) then r.1 = st' else
      kv_ok n' (st_kv r.1) ∧
      views (st_kv r.1) = [(restored <$> occupied_cells v) ++ replicate (n' - length (occupied v)) cell_none] ∧
      v_heads (st_kv r.1) = [0] ∧ layers_moved (occupied v) (st_layers st) (st_layers r.1)).
Proof.
  intros Hp Hp' Hv Epar Hsame Ecr Hcr Hfit Hn Hcells. pose proof (ps_ok _ _ Hp) as Hk. pose proof (ps_ok _ _ Hp') as Hk'.
  destruct (stream_lookup n _ 0 Hk ltac:(rewrite (ps_stream _ _ Hp); lia)) as (c & h & Hc & _ & Hso & Hvc & Hvl).
  rewrite Hv in Hvc. injection Hvc as ->.
  assert (Hocc : length (occupied (view c)) ≤ n) by (unfold occupied; rewrite length_filter, length_seq; lia).
  unfold state_read. rewrite ggml_assert_ok, bind_Ok by (apply bool_decide_eq_true_2; by left).
  rewrite <- !app_assoc, get_u32_put, bind_Ok by lia. cbn [fst snd]. rewrite (ps_stream _ _ Hp'), decide_False by (intros H; by apply H).
  cbn [seq foldM]. unfold read_stream. rewrite get_u32_put, bind_Ok by lia. cbn [fst snd].
  destruct (decide (occupied (view c) = [])) as [E0|E0].
  { rewrite decide_True by (by rewrite E0). by rewrite bind_Ok. }
  rewrite decide_False by (intros H; apply E0, nil_length_inv; lia). cbn zeta. rewrite Nat2Z.id, decide_True, bind_Ok by done.
  rewrite <- app_assoc.
  assert (Elen : length (occupied (view c)) = length (occupied_cells (view c))) by (unfold occupied_cells; by rewrite length_fmap).
  assert (Emeta : okP (state_read_meta st' 0 (length (occupied (view c))) (-1)
      (concat (cell_bytes (st_kv st) (-1) <$> occupied_cells (view c)) ++ data_bytes cr (st_layers st) ++ io))
    (λ r, r.2 = Going (SlotInfo 0 0 [0] [seq 0 (length (occupied (view c)))], data_bytes cr (st_layers st) ++ io) ∧
      kv_ok n' (st_kv r.1) ∧ same_rest (st_kv st') (st_kv r.1) ∧ v_heads (st_kv r.1) = [0] ∧
      views (st_kv r.1) = [(restored <$> occupied_cells (view c)) ++ replicate (n' - length (occupied (view c))) cell_none] ∧
      st_layers r.1 = clear_layer <$> st_layers st')).
  { unfold state_read_meta. rewrite decide_False by (intros H; by apply H).
    destruct (stream_lookup n' _ 0 Hk' ltac:(rewrite (ps_stream _ _ Hp'); lia)) as (c' & h' & Hc' & _ & Hso' & _).
    rewrite (vget_ok _ _ _ Hc'), bind_Ok, (so_size _ _ _ Hso'), decide_False by lia. rewrite Elen in Hfit |- *.
    assert (Eb : cell_bytes (st_kv st) (-1) <$> occupied_cells (view c) = cell_bytes (st_kv st') (-1) <$> occupied_cells (view c))
      by (apply list_fmap_ext; intros; unfold cell_bytes; by rewrite Epar). rewrite Eb.
    eapply okP_bind; [apply (read_meta_all_ok n' (st_kv st') (occupied_cells (view c))); try done|].
    - apply (ps_stream _ _ Hp'). - apply (ps_pos _ _ Hp'). - apply (ps_max _ _ Hp').
    - intros k Hin. split; [rewrite Epar; by apply Hcells|]. unfold occupied_cells in Hin.
      apply list_elem_of_fmap in Hin as (i & -> & Hi). unfold occupied in Hi. apply list_elem_of_filter in Hi as [_ Hi].
      apply elem_of_seq in Hi. destruct (lookup_lt_is_Some_2 (view c) i) as [k Hki]; [lia|]. rewrite Hki. cbn.
      apply (so_owned _ _ _ Hso). by eapply list_elem_of_lookup_2.
    - intros r (H1 & H2 & H3 & H4 & H5). cbn. by split_and!. }
  eapply okP_bind; [eapply okP_bind; [exact Emeta|]|].
  - intros [st1 o] (Eo & Hk1 & Hs1 & Hh1 & Hv1 & El1). cbn [fst snd] in *. subst o.
    destruct (clear_layers_ok n' (st_layers st) (st_layers st') (ps_layers _ _ Hp') Hsame) as [Hcl Hcs].
    rewrite <- Ecr in *.
    eapply okP_bind; [apply (state_read_data_ok n n' st st1 cr io); try done; rewrite ?El1; try done; try apply Hp|].
    { rewrite (proj1 Hs1). apply (ps_trans _ _ Hp'). }
    intros [st2 o] (Eo & Ekv & Hmv). cbn [fst snd] in *. subst o. cbn [okP].
    instantiate (1 := λ r, r.2 = ReadDone io ∧ kv_ok n' (st_kv r.1) ∧ 
      views (st_kv r.1) = [(restored <$> occupied_cells (view c)) ++ replicate (n' - length (ranges_cells cr)) cell_none] ∧
      v_heads (st_kv r.1) = [0] ∧ layers_moved (ranges_cells cr) (st_layers st) (st_layers r.1)).
    cbn [fst snd]. rewrite Ekv. by split_and!.
  - intros r (H1 & H2 & H3 & H4 & H5). cbn [okP]. rewrite <- Ecr. by split_and!.
Qed.

(** * Properties *)

(** C14. Saving and restoring a whole cache (one stream, one position per token,
    V not transposed): what [state_write] writes, [state_read] reads back
    completely, into a cache of possibly another size; the occupied cells come to
    the front in order, with their positions and sequences, the rest is empty,
    and row j of every K and V tensor is the row of the j-th occupied cell. An
    empty cache writes no cells, and reading it leaves the target as it is. *)
Theorem state_roundtrip n n' st st' v : plain_state n st → plain_state n' st' → views (st_kv st) = [v] →
  par (st_kv st') = par (st_kv st) → layers_same (st_layers st) (st_layers st') →
  length (occupied v) ≤ n' → (Z.of_nat n < 4294967296)%Z →
  (∀ k, k ∈ occupied_cells v → cell_fits (kv_n_seq_max (par (st_kv st))) k) →
  okP (state_write st (-1)) (λ bytes, ∀ io, okP (state_read st' (-1) (bytes ++ io)) (λ r,
    r.2 = ReadDone io ∧
    if decide (occupied v = []) then r.1 = st' else
    kv_ok n' (st_kv r.1) ∧
    views (st_kv r.1) = [(restored <$> occupied_cells v) ++ replicate (n' - length (occupied v)) cell_none] ∧
    v_heads (st_kv r.1) = [0] ∧ layers_moved (occupied v) (st_layers st) (st_layers r.1))).
Proof.
  intros Hp Hp' Hv Epar Hsame Hfit Hn Hcells.
  destruct (state_write_ok n st v Hp Hv Hn) as (cr & Ecr & Hcr & ->). cbn [okP]. intros io.
  by apply (state_read_ok n n' st st' v cr io).
Qed.

Definition ex_layer : kv_layer :=
  KvLayer 0 2 [[1; 2; 3; 4; 5; 6; 7; 8]%Z] 0 1 1 1 (Some [[1; 2; 3; 4]%Z]).
Definition ex_state : kv_state := KvState ex_kv [ex_layer].

Lemma ex_plain : plain_state 4 ex_state.
Proof.
  pose proof MAX_SEQ_eq as HM. unfold LLAMA_MAX_SEQ in HM.
  split; [apply ex_kv_ok|done|done|done|cbn; lia| |done].
  intros l ->%list_elem_of_singleton. split.
  - eexists. split; [done|]. by split_and!.
  - eexists. split; [done|]. by split_and!.
Qed.

Lemma ex_state_views : views (st_kv ex_state) = [ex_view].
Proof. change (views ex_kv = [ex_view]). unfold views. cbn. by rewrite ex_cells_view. Qed.

Lemma state_roundtrip_witness :
  okP (state_write ex_state (-1)) (λ bytes, ∀ io, okP (state_read ex_state (-1) (bytes ++ io)) (λ r,
    r.2 = ReadDone io ∧
    if decide (occupied ex_view = []) then r.1 = ex_state else
    kv_ok 4 (st_kv r.1) ∧
    views (st_kv r.1) = [(restored <$> occupied_cells ex_view) ++ replicate (4 - length (occupied ex_view)) cell_none] ∧
    v_heads (st_kv r.1) = [0] ∧ layers_moved (occupied ex_view) (st_layers ex_state) (st_layers r.1))).
Proof.
  apply (state_roundtrip 4 4 ex_state ex_state ex_view); [exact ex_plain|exact ex_plain|exact ex_state_views|done| | |done|].
  - split; [done|]. intros i l l' Hl Hl'. rewrite Hl in Hl'. injection Hl' as <-. by split_and!.
  - vm_compute. lia.
  - intros k Hk. change (occupied_cells ex_view) with (take 3 ex_view) in Hk. cbn [take firstn ex_view] in Hk.
    rewrite !elem_of_cons, elem_of_nil in Hk. change (kv_n_seq_max (par (st_kv ex_state))) with 2.
    destruct Hk as [->|[->|[->|[]]]]; (split; [cbn; unfold INT32_MAX; lia|]); cbn; intros q Hq; set_solver by lia.
Defined.

(** Restoring rows does not depend on the path: whether the slot is
    contiguous (one copy) or not (row by row), [read_rows] consumes the bytes of
    its rows, puts row i at the i-th cell of the slot and changes nothing else. *)
Theorem read_rows_correct si row n sz off t b io : affine off sz → idxs si = [row] → NoDup row → length row = n →
  length b = n * sz → (∀ x, x ∈ row → off x + sz ≤ length t) →
  okP (read_rows si n sz off t (b ++ io)) (λ r, r.2 = io ∧ rows_placed t r.1 off sz row b).
Proof. apply read_rows_ok. Qed.

Lemma read_rows_correct_witness :
  okP (read_rows (SlotInfo 0 0 [0] [[2; 0]]) 2 2 (λ x, x * 2) (replicate 6 0%Z) ([1; 2; 3; 4]%Z ++ []))
    (λ r, r.2 = [] ∧ rows_placed (replicate 6 0%Z) r.1 (λ x, x * 2) 2 [2; 0] [1; 2; 3; 4]%Z).
Proof.
  apply (read_rows_correct (SlotInfo 0 0 [0] [[2; 0]]) [2; 0] 2 2 (λ x, x * 2) (replicate 6 0%Z) [1; 2; 3; 4]%Z []);
    [apply mul_affine|done| |done|done|].
  - apply NoDup_cons. split; [|apply NoDup_singleton]. intros H%list_elem_of_singleton. done.
  - intros x Hx. rewrite length_replicate. rewrite !elem_of_cons, elem_of_nil in Hx. lia.
Defined.

(** Two streams with one cell each. *)
Definition ex_put1 (p q : Z) : llama_kv_cells := match ex_put (resize 4) 0 p [q] with Ok c => c | Err _ => resize 4 end.
Definition ex_two : kv_state := KvState (KvCache ex_params2 [1; 1] [ex_put1 5 0; ex_put1 9 1] [0; 1] []) [].

(** One cell with a 2D position: four positions per token. *)
Definition ex_2d_cells : llama_kv_cells :=
  match (c ← ex_put (resize 2) 0 5 [0%Z]; ext_set c 0 (Ext 7 3)) with Ok c => c | Err _ => resize 2 end.
Definition ex_2d : kv_state :=
  KvState (KvCache (Params 1 2 1 0 SWA_NONE false 4 0 false) [1] [ex_2d_cells] (replicate MAX_SEQ 0) []) [].

(** the positions after writing a state and reading it back, and how reading ended *)
Definition reread (st : kv_state) : option (list (list Z) * read_end) :=
  match state_write st (-1) with
  | Ok b => match state_read st (-1) b with Ok (st', e) => Some (positions (st_kv st'), e) | Err _ => None end
  | Err _ => None
  end.

(** Restoring a whole cache loses data beyond the plain case: with two
    streams, reading each stream clears all streams, so that only the last one
    survives; and with 2D positions, the reader takes the saved extension for a
    sequence id, so that reading back what was written fails and leaves an empty
    cache. *)
Theorem restore_defects :
  positions (st_kv ex_two) = [[5; -1; -1; -1]; [9; -1; -1; -1]]%Z ∧
  reread ex_two = Some ([[-1; -1; -1; -1]; [9; -1; -1; -1]]%Z, ReadDone []) ∧
  positions (st_kv ex_2d) = [[5; -1]]%Z ∧ reread ex_2d = Some ([[-1; -1]]%Z, RestoreFailed).
Proof. split_and!; vm_compute; reflexivity. Qed.

(** Offsets into a transposed V tensor: below 4 GiB the offset that
    [state_write_data] computes is the one that [state_read_data] uses, and it is
    the byte offset of the element; from there on they differ, since the writer
    multiplies in 32 bits: element 2048 * 2^20 of two bytes is written from
    offset 0. *)
Theorem v_offsets kv_size el j i : (Z.of_nat i + Z.of_nat j * Z.of_nat kv_size < 4294967296)%Z →
  v_dst_offset kv_size el j i = (i + j * kv_size) * el ∧
  ((Z.of_nat i + Z.of_nat j * Z.of_nat kv_size) * Z.of_nat el < 4294967296 →
     v_src_offset kv_size el j i = v_dst_offset kv_size el j i)%Z ∧
  (i = 0 → Z.of_nat j = 2048%Z → Z.of_nat kv_size = 1048576%Z → Z.of_nat el = 2%Z →
     v_src_offset kv_size el j i = 0 ∧ Z.of_nat (v_dst_offset kv_size el j i) = 4294967296%Z).
Proof.
  intros H. unfold v_dst_offset, v_src_offset, u32. rewrite (Z.mod_small (Z.of_nat j * _)) by lia.
  rewrite (Z.mod_small (Z.of_nat i + _)) by lia. split_and!; [lia| |].
  - intros H2. by rewrite (Z.mod_small (_ * Z.of_nat el)) by lia.
  - intros -> -> -> ->. split; [by vm_compute|]. rewrite Z2Nat.id by lia. by vm_compute.
Qed.

Lemma v_offsets_witness :
  v_dst_offset 16 2 3 5 = (5 + 3 * 16) * 2 ∧
  ((Z.of_nat 5 + Z.of_nat 3 * Z.of_nat 16) * Z.of_nat 2 < 4294967296 → v_src_offset 16 2 3 5 = v_dst_offset 16 2 3 5)%Z.
Proof. destruct (v_offsets 16 2 3 5) as (H1 & H2 & _); [lia|]. by split. Defined.
