(* ===== verification/Utf8.v ===== *)
(** UTF-8: the two decoders of src/llama-grammar.cpp.

    A [const char *] into a C string is the list of the bytes (0..255) from the
    pointer on; its end stands for the terminating NUL, and a NUL inside the
    list ends the string as well, as in the code.  [uint32_t] arithmetic wraps. *)
From S2P Require Import Prelude.

(** *pos *)
Definition deref (src : list Z) : Z := default 0%Z (head src).

(** [(value << 6) + (b & 0x3F)] *)
Definition push_bits (value b : Z) : Z := u32 (u32 (Z.shiftl value 6) + Z.land b 63)%Z.

(** ** The decoder of the grammar parser: one code point *)

Definition lookup_start : list nat := [1; 1; 1; 1; 1; 1; 1; 1; 1; 1; 1; 1; 2; 2; 3; 4].

(** for ( ; pos < end && *pos; pos++) *)
Fixpoint read_cont (n : nat) (value : Z) (src : list Z) : Z * list Z :=
  match n, src with
  | S n, b :: src' => if decide (b = 0)%Z then (value, src) else read_cont n (push_bits value b) src'
  | _, _ => (value, src)
  end.

(** decode_utf8(const char * src) *)
Definition decode_one (src : list Z) : res (Z * list Z) :=
  match src with
  | [] => Err OutOfRange
  | first_byte :: pos =>
      len ← vget lookup_start (Z.to_nat (Z.shiftr first_byte 4));
      let mask := Z.land (Z.shiftl 1 (8 - Z.of_nat len) - 1) 255 in
      Ok (read_cont (len - 1) (Z.land first_byte mask) pos)
  end.

(** ** The incremental decoder of the sampler *)

(** bits of the character so far, and the number of bytes that are missing
    (-1: invalid sequence) *)
Record llama_partial_utf8 := PartialUtf8 { pu_value : Z; pu_n_remain : Z }.

#[export] Instance partial_eq_dec : EqDecision llama_partial_utf8.
Proof. solve_decision. Defined.

Definition lookup_next : list Z := [1; 1; 1; 1; 1; 1; 1; 1; 0; 0; 0; 0; 2; 2; 3; 4]%Z.

(** continue previous decode; [None]: invalid sequence, abort *)
Fixpoint continue_decode (value n_remain : Z) (src : list Z) : option (Z * Z * list Z) :=
  match src with
  | b :: src' =>
      if decide (b ≠ 0 ∧ 0 < n_remain)%Z then
        if decide (Z.shiftr b 6 ≠ 2)%Z then None
        else continue_decode (push_bits value b) (n_remain - 1) src'
      else Some (value, n_remain, src)
  | [] => Some (value, n_remain, src)
  end.

(** while ( *pos != 0 && n_remain > 0) *)
Fixpoint take_cont (value n_remain : Z) (src : list Z) : Z * Z * list Z :=
  match src with
  | b :: src' =>
      if decide (b ≠ 0 ∧ 0 < n_remain)%Z then take_cont (push_bits value b) (n_remain - 1) src'
      else (value, n_remain, src)
  | [] => (value, n_remain, src)
  end.

(** while ( *pos != 0): decode any subsequent sequences *)
Fixpoint decode_loop (fuel : nat) (value n_remain : Z) (code_points : list Z) (src : list Z) :
    res (list Z * llama_partial_utf8) :=
  match fuel with
  | 0 => Err OutOfFuel
  | S fuel =>
      if decide (deref src = 0)%Z then Ok (code_points ++ [0%Z], PartialUtf8 value n_remain)
      else
        let first_byte := deref src in
        l ← vget lookup_next (Z.to_nat (Z.shiftr first_byte 4));
        let n_remain := (l - 1)%Z in
        if decide (n_remain < 0)%Z then Ok ([0%Z], PartialUtf8 0 n_remain)
        else
          let mask := Z.land (Z.shiftl 1 (7 - n_remain) - 1) 255 in
          let '(value, n_remain, pos) := take_cont (Z.land first_byte mask) n_remain (tail src) in
          decode_loop fuel value n_remain
            (if decide (n_remain = 0)%Z then code_points ++ [value] else code_points) pos
  end.

(** decode_utf8(const std::string & src, llama_partial_utf8 partial_start) *)
Definition decode_utf8 (src : list Z) (partial_start : llama_partial_utf8) :
    res (list Z * llama_partial_utf8) :=
  match continue_decode (pu_value partial_start) (pu_n_remain partial_start) src with
  | None => Ok ([0%Z], PartialUtf8 0 (-1))
  | Some (value, n_remain, pos) =>
      decode_loop (S (length src)) value n_remain
        (if decide (0 < pu_n_remain partial_start ∧ n_remain = 0)%Z then [value] else []) pos
  end.

(** ** Specification: the encoding *)

Definition is_byte (b : Z) : Prop := (0 ≤ b < 256)%Z.

(** the last [n] bytes of the encoding of [c] *)
Fixpoint conts (c : Z) (n : nat) : list Z :=
  match n with
  | 0 => []
  | S n => (128 + Z.land (Z.shiftr c (6 * Z.of_nat n)) 63)%Z :: conts c n
  end.

(** the number of bytes after the first one *)
Definition n_conts (c : Z) : nat :=
  if decide (c < 128)%Z then 0 else if decide (c < 2048)%Z then 1
  else if decide (c < 65536)%Z then 2 else 3.

Definition lead (n : nat) : Z := nth n [0; 192; 224; 240]%Z 0%Z.

Definition encode (c : Z) : list Z :=
  (lead (n_conts c) + Z.shiftr c (6 * Z.of_nat (n_conts c)))%Z :: conts c (n_conts c).

Definition is_code_point (c : Z) : Prop := (0 < c < 1114112)%Z.

(** What the state of the decoder says of the bytes that are still to come:
    the rest of a character, then whole characters. *)
Inductive awaits : llama_partial_utf8 → list Z → list Z → Prop :=
  | awaits_start v cps :
      Forall is_code_point cps → awaits (PartialUtf8 v 0) (concat (encode <$> cps)) cps
  | awaits_rest c n cps :
      0 < n ≤ n_conts c → Forall is_code_point (c :: cps) →
      awaits (PartialUtf8 (Z.shiftr c (6 * Z.of_nat n)) (Z.of_nat n))
        (conts c n ++ concat (encode <$> cps)) (c :: cps).

(** Feeding the pieces of a text to the decoder one after the other. *)
Fixpoint decode_pieces (ps : list (list Z)) (st : llama_partial_utf8) : res (list Z * llama_partial_utf8) :=
  match ps with
  | [] => Ok ([], st)
  | p :: ps =>
      r ← decode_utf8 p st;
      q ← decode_pieces ps r.2;
      Ok (removelast r.1 ++ q.1, q.2)
  end.

Example decode_split : decode_pieces [[97; 226; 130]; [172; 240]; []; [159; 152; 128; 98]]%Z (PartialUtf8 0 0)
  = Ok ([97; 8364; 128512; 98]%Z, PartialUtf8 98 0).
Proof. reflexivity. Qed.
Example encode_ex : concat (encode <$> [97; 8364; 128512; 98]%Z) = [97; 226; 130; 172; 240; 159; 152; 128; 98]%Z.
Proof. reflexivity. Qed.

(** ** Bytes of an encoded character *)

Lemma land63 x : Z.land x 63 = (x mod 64)%Z.
Proof. exact (Z.land_ones x 6 ltac:(lia)). Qed.

Lemma shiftr_S c n : Z.shiftr c (6 * Z.of_nat (S n)) = (Z.shiftr c (6 * Z.of_nat n) / 64)%Z.
Proof.
  rewrite <- (Z.shiftr_div_pow2 _ 6), Z.shiftr_shiftr by lia. f_equal. lia.
Qed.

Lemma shiftr_bound c n : is_code_point c → (0 ≤ Z.shiftr c n < 1114112)%Z ∨ (n < 0)%Z.
Proof.
  unfold is_code_point. intros Hc. destruct (decide (n < 0)%Z) as [|Hn]; [by right|left].
  rewrite Z.shiftr_div_pow2 by lia. pose proof (Z.pow_pos_nonneg 2 n ltac:(lia) ltac:(lia)). split; [apply Z.div_pos; lia|].
  apply Z.le_lt_trans with c; [apply Z.div_le_upper_bound; nia|lia].
Qed.

Lemma push_cont x : (0 ≤ x < 1114112)%Z → push_bits (x / 64) (128 + Z.land x 63) = x.
Proof.
  intros Hx. unfold push_bits, u32. rewrite !land63, Z.shiftl_mul_pow2 by lia. change (2 ^ 6)%Z with 64%Z.
  pose proof (Z.div_mod x 64 ltac:(lia)). pose proof (Z.mod_pos_bound x 64 ltac:(lia)).
  rewrite (Z.mod_small (x / 64 * 64)) by lia.
  replace ((128 + x mod 64) mod 64)%Z with (x mod 64)%Z by (apply (Z.mod_unique _ _ 2); lia).
  rewrite Z.mod_small; lia.
Qed.

Lemma cont_byte x : let b := (128 + Z.land x 63)%Z in b ≠ 0%Z ∧ Z.shiftr b 6 = 2%Z.
Proof.
  rewrite land63. pose proof (Z.mod_pos_bound x 64 ltac:(lia)). split; [lia|].
  rewrite Z.shiftr_div_pow2 by lia. change (2 ^ 6)%Z with 64%Z. symmetry. apply (Z.div_unique _ _ _ (x mod 64)); lia.
Qed.

Lemma first_byte_ok c : is_code_point c →
  let n := n_conts c in let b := (lead n + Z.shiftr c (6 * Z.of_nat n))%Z in
  b ≠ 0%Z ∧ vget lookup_next (Z.to_nat (Z.shiftr b 4)) = Ok (1 + Z.of_nat n)%Z ∧
  Z.land b (Z.land (Z.shiftl 1 (7 - Z.of_nat n) - 1) 255) = Z.shiftr c (6 * Z.of_nat n).
Proof.
  unfold is_code_point, n_conts. intros Hc.
  assert (Hb : ∀ b k, (16 * Z.of_nat k ≤ b < 16 * Z.of_nat k + 16)%Z → Z.to_nat (Z.shiftr b 4) = k).
  { intros b k Hk. rewrite Z.shiftr_div_pow2 by lia. change (2 ^ 4)%Z with 16%Z.
    rewrite <- (Nat2Z.id k). f_equal. symmetry. apply (Z.div_unique _ _ _ (b - 16 * Z.of_nat k)%Z); lia. }
  assert (Hm : ∀ m a y, (0 ≤ m)%Z → (0 ≤ y < 2 ^ m)%Z → Z.land (a * 2 ^ m + y) (Z.ones m) = y).
  { intros m a y Hm Hy. rewrite Z.land_ones, Z.add_comm, Z.mod_add by lia. by apply Z.mod_small. }
  destruct (decide (c < 128)%Z); [|destruct (decide (c < 2048)%Z); [|destruct (decide (c < 65536)%Z)]];
    cbv zeta; rewrite Z.shiftr_div_pow2 by lia;
    change (6 * Z.of_nat 0)%Z with 0%Z; change (6 * Z.of_nat 1)%Z with 6%Z;
    change (6 * Z.of_nat 2)%Z with 12%Z; change (6 * Z.of_nat 3)%Z with 18%Z;
    change (2 ^ 0)%Z with 1%Z; change (2 ^ 6)%Z with 64%Z; change (2 ^ 12)%Z with 4096%Z; change (2 ^ 18)%Z with 262144%Z;
    cbn [lead nth].
  - rewrite Z.div_1_r. split_and!; [lia| |apply (Hm 7%Z 0%Z); lia].
    assert (∃ k, (16 * Z.of_nat k ≤ c < 16 * Z.of_nat k + 16)%Z ∧ k < 8) as (k & Hk & Hk8).
    { exists (Z.to_nat (c / 16)). pose proof (Z.div_mod c 16 ltac:(lia)). pose proof (Z.mod_pos_bound c 16 ltac:(lia)). lia. }
    rewrite (Hb _ k) by lia. do 8 (destruct k as [|k]; [done|]). lia.
  - assert (2 ≤ c / 64 < 32)%Z by (split; [apply Z.div_le_lower_bound|apply Z.div_lt_upper_bound]; lia).
    split_and!; [lia| |apply (Hm 6%Z 3%Z); lia].
    destruct (decide (c / 64 < 16)%Z); [by rewrite (Hb _ 12) by lia|by rewrite (Hb _ 13) by lia].
  - assert (0 ≤ c / 4096 < 16)%Z by (split; [apply Z.div_le_lower_bound|apply Z.div_lt_upper_bound]; lia).
    split_and!; [lia| |apply (Hm 5%Z 7%Z); lia]. by rewrite (Hb _ 14) by lia.
  - assert (0 ≤ c / 262144 < 5)%Z by (split; [apply Z.div_le_lower_bound|apply Z.div_lt_upper_bound]; lia).
    split_and!; [lia| |apply (Hm 4%Z 15%Z); lia]. by rewrite (Hb _ 15) by lia.
Qed.

Lemma n_conts_le c : n_conts c ≤ 3.
Proof. unfold n_conts. repeat case_decide; lia. Qed.

(** ** The two loops over continuation bytes *)

(** What a loop that reads the bytes [conts c n] leaves: it has read all of them
    or stops at the end of the input. *)
Definition stops (c : Z) (n : nat) (rest l l2 : list Z) (r : Z * Z * list Z) : Prop :=
  (∃ l', l = conts c n ++ l' ∧ rest = l' ++ l2 ∧ r = (c, 0%Z, l')) ∨
  (∃ k, 0 < k ≤ n ∧ l2 = conts c k ++ rest ∧ r = (Z.shiftr c (6 * Z.of_nat k), Z.of_nat k, [])).

Lemma stops_S c n rest b l l2 r : stops c n rest l l2 r → b = (128 + Z.land (Z.shiftr c (6 * Z.of_nat n)) 63)%Z →
  stops c (S n) rest (b :: l) l2 r.
Proof.
  intros [(l' & -> & H2 & H3)|(k & Hk & H)] ->; [left|right].
  - by exists l'.
  - exists k. split; [lia|done].
Qed.

Section cont_loops.
Variables (c : Z) (rest l2 : list Z).
Hypothesis Hc : is_code_point c.

Lemma cont_step n : push_bits (Z.shiftr c (6 * Z.of_nat (S n))) (128 + Z.land (Z.shiftr c (6 * Z.of_nat n)) 63)%Z
  = Z.shiftr c (6 * Z.of_nat n).
Proof. rewrite shiftr_S. apply push_cont. destruct (shiftr_bound c (6 * Z.of_nat n) Hc); lia. Qed.

Lemma take_cont_ok n l : conts c n ++ rest = l ++ l2 →
  stops c n rest l l2 (take_cont (Z.shiftr c (6 * Z.of_nat n)) (Z.of_nat n) l).
Proof.
  revert l. induction n as [|n IH]; intros l H.
  - left. exists l. split; [done|]. split; [done|].
    destruct l; simpl; [|rewrite decide_False by lia]; by rewrite Z.shiftr_0_r.
  - destruct l as [|b l]; [right; exists (S n); split; [lia|done]|].
    injection H as H1 H2. apply stops_S; [|done]. destruct (cont_byte (Z.shiftr c (6 * Z.of_nat n))) as [Hb _].
    cbn [take_cont]. subst b. rewrite decide_True by (split; [done|lia]).
    rewrite cont_step. replace (Z.of_nat (S n) - 1)%Z with (Z.of_nat n) by lia. by apply IH.
Qed.

Lemma continue_decode_ok n l : conts c n ++ rest = l ++ l2 →
  ∃ r, continue_decode (Z.shiftr c (6 * Z.of_nat n)) (Z.of_nat n) l = Some r ∧ stops c n rest l l2 r.
Proof.
  revert l. induction n as [|n IH]; intros l H.
  - exists (c, 0%Z, l). split; [|left; by exists l].
    destruct l; simpl; [|rewrite decide_False by lia]; by rewrite Z.shiftr_0_r.
  - destruct l as [|b l]; [eexists; split; [done|]; right; exists (S n); split; [lia|done]|].
    injection H as H1 H2. destruct (cont_byte (Z.shiftr c (6 * Z.of_nat n))) as [Hb Hb2].
    cbn [continue_decode]. subst b. rewrite decide_True by (split; [done|lia]).
    rewrite decide_False by (intros E; by apply E). rewrite cont_step.
    replace (Z.of_nat (S n) - 1)%Z with (Z.of_nat n) by lia.
    destruct (IH l H2) as (r & -> & Hr). exists r. split; [done|]. by apply stops_S.
Qed.
End cont_loops.

(** ** Decoding a text in pieces *)

Lemma decode_loop_ok fuel v acc l l2 cps :
  length l < fuel → Forall is_code_point cps → l ++ l2 = concat (encode <$> cps) →
  ∃ cs st cps', decode_loop fuel v 0 acc l = Ok (acc ++ cs ++ [0%Z], st) ∧ cps = cs ++ cps' ∧ awaits st l2 cps'.
Proof.
  revert v acc l cps. induction fuel as [|fuel IH]; intros v acc l cps Hf Hcps E; [lia|].
  destruct l as [|b l].
  { exists [], (PartialUtf8 v 0), cps. simpl in E. subst l2. split; [done|]. split; [done|]. by constructor. }
  destruct cps as [|c cps]; [done|]. inversion_clear Hcps as [|? ? Hc Hcps'].
  pose proof (first_byte_ok c Hc) as (Hb & Hl & Hv). pose proof (n_conts_le c).
  rewrite fmap_cons in E. cbn [concat] in E. unfold encode at 1 in E. cbn [app] in E. injection E as -> E.
  cbn [decode_loop deref head from_option id]. rewrite decide_False by done. rewrite Hl, bind_Ok.
  replace (1 + Z.of_nat (n_conts c) - 1)%Z with (Z.of_nat (n_conts c)) by lia. rewrite decide_False by lia.
  rewrite Hv. cbn [tail]. symmetry in E.
  destruct (take_cont_ok c (concat (encode <$> cps)) l2 Hc (n_conts c) l E) as [(l' & -> & H1 & ->)|(k & Hk & H1 & ->)]; cbn beta iota.
  - rewrite decide_True by done. simpl in Hf. rewrite length_app in Hf.
    destruct (IH c (acc ++ [c]) l' cps ltac:(lia) Hcps' (eq_sym H1)) as (cs & st & cps' & -> & -> & Ha).
    exists (c :: cs), st, cps'. by rewrite <- app_assoc.
  - rewrite decide_False by lia. destruct fuel as [|fuel]; [simpl in Hf; lia|]. cbn [decode_loop deref head from_option id].
    rewrite decide_True by done. exists [], (PartialUtf8 (Z.shiftr c (6 * Z.of_nat k)) (Z.of_nat k)), (c :: cps).
    split; [done|]. split; [done|]. rewrite H1. constructor; [lia|by constructor].
Qed.

Lemma decode_utf8_ok st l l2 cps : awaits st (l ++ l2) cps →
  ∃ cs st' cps', decode_utf8 l st = Ok (cs ++ [0%Z], st') ∧ cps = cs ++ cps' ∧ awaits st' l2 cps'.
Proof.
  intros Ha. remember (l ++ l2) as b eqn:Eb. destruct Ha as [v cps Hcps|c n cps Hn Hcps]; unfold decode_utf8; cbn [pu_value pu_n_remain].
  - replace (continue_decode v 0 l) with (Some (v, 0%Z, l)) by (destruct l; simpl; [|rewrite decide_False by lia]; done).
    rewrite decide_False by lia. by apply decode_loop_ok; [lia| |].
  - inversion_clear Hcps as [|? ? Hc Hcps'].
    destruct (continue_decode_ok c (concat (encode <$> cps)) l2 Hc n l Eb) as (r & -> & Hr).
    destruct Hr as [(l' & -> & H1 & ->)|(k & Hk & H1 & ->)].
    + rewrite decide_True by (split; [lia|done]).
      destruct (decode_loop_ok (S (length (conts c n ++ l'))) c [c] l' l2 cps) as (cs & st' & cps' & -> & -> & Ha);
        [rewrite length_app; lia|done|done|]. by exists (c :: cs), st', cps'.
    + rewrite decide_False by lia. exists [], (PartialUtf8 (Z.shiftr c (6 * Z.of_nat k)) (Z.of_nat k)), (c :: cps).
      split; [done|]. split; [done|]. rewrite H1. constructor; [lia|by constructor].
Qed.

Lemma decode_pieces_ok ps st cps l : awaits st (concat ps ++ l) cps →
  okP (decode_pieces ps st) (λ r, ∃ cps', cps = r.1 ++ cps' ∧ awaits r.2 l cps').
Proof.
  revert st cps. induction ps as [|p ps IH]; intros st cps Ha; [by exists cps|]. cbn [decode_pieces].
  cbn [concat] in Ha. rewrite <- app_assoc in Ha.
  destruct (decode_utf8_ok st p (concat ps ++ l) cps Ha) as (cs & st' & cps' & -> & -> & Ha'). rewrite bind_Ok. cbn [fst snd].
  eapply okP_bind; [by apply IH|]. intros r (cps2 & -> & Ha2). exists cps2. cbn [fst snd].
  rewrite removelast_last. split; [by rewrite app_assoc|done].
Qed.

Lemma decode_whole cps ps : Forall is_code_point cps → concat ps = concat (encode <$> cps) →
  okP (decode_pieces ps (PartialUtf8 0 0)) (λ r, r.1 = cps ∧ pu_n_remain r.2 = 0%Z).
Proof.
  intros Hc E. eapply okP_mono; [apply (decode_pieces_ok ps _ cps []); rewrite app_nil_r, E; by constructor|].
  intros r (cps' & E1 & Ha). inversion Ha as [v cps0 Hcps Ev Eb|c n cps0 Hn Hcps Ev Eb]; subst.
  - destruct cps' as [|c cps']; [by rewrite app_nil_r in *|]. by inversion Eb.
  - destruct n; [lia|done].
Qed.

(** ** The decoder is total *)

Lemma take_cont_total v n l : (0 ≤ n ≤ 3)%Z → let r := take_cont v n l in
  (0 ≤ r.1.2 ≤ 3)%Z ∧ length r.2 ≤ length l ∧ (Forall is_byte l → Forall is_byte r.2).
Proof.
  revert v n. induction l as [|b l IH]; intros v n Hn; cbn [take_cont]; [done|].
  destruct (decide (b ≠ 0 ∧ 0 < n)%Z) as [[H1 H2]|]; [|done].
  destruct (IH (push_bits v b) (n - 1)%Z ltac:(lia)) as (H3 & H4 & H5). cbn zeta. split; [done|]. split; [simpl; lia|].
  intros H. inversion_clear H. auto.
Qed.

Lemma decode_loop_total fuel v n acc l : (-1 ≤ n ≤ 3)%Z → length l < fuel → Forall is_byte l →
  okP (decode_loop fuel v n acc l) (λ r, (∃ cs, r.1 = cs ++ [0%Z]) ∧ (-1 ≤ pu_n_remain r.2 ≤ 3)%Z).
Proof.
  revert v n acc l. induction fuel as [|fuel IH]; intros v n acc l Hn Hf Hb; [lia|]. cbn [decode_loop].
  destruct (decide (deref l = 0)%Z) as [|H0]; [split; [by exists acc|done]|].
  destruct l as [|b l]; [done|]. cbn [deref head tail from_option id] in *. inversion_clear Hb as [|? ? H1 H2].
  unfold is_byte in H1.
  assert (∃ x, lookup_next !! Z.to_nat (Z.shiftr b 4) = Some x ∧ (0 ≤ x ≤ 4)%Z) as (x & Hx & Hx4).
  { assert (Z.to_nat (Z.shiftr b 4) < 16) as Hi.
    { rewrite Z.shiftr_div_pow2 by lia. change (2 ^ 4)%Z with 16%Z. pose proof (Z.div_lt_upper_bound b 16 16 ltac:(lia) ltac:(lia)). lia. }
    revert Hi. generalize (Z.to_nat (Z.shiftr b 4)). intros i Hi.
    do 16 (destruct i as [|i]; [eexists; split; [reflexivity|lia]|]). lia. }
  rewrite (vget_ok _ _ x Hx), bind_Ok. destruct (decide (x - 1 < 0)%Z); [by split; [exists []|simpl; lia]|].
  destruct (take_cont_total (Z.land b (Z.land (Z.shiftl 1 (7 - (x - 1)) - 1) 255)) (x - 1) l ltac:(lia)) as (H3 & H4 & H5).
  destruct (take_cont _ _ l) as [[v' n'] l']. simpl in H3, H4, H5, Hf. apply IH; [lia|lia|auto].
Qed.

Lemma continue_total v n l : (n ≤ 3)%Z → match continue_decode v n l with
  | None => True | Some r => (r.1.2 ≤ n ∧ (0 ≤ n → 0 ≤ r.1.2))%Z ∧ length r.2 ≤ length l ∧ (Forall is_byte l → Forall is_byte r.2) end.
Proof.
  revert v n. induction l as [|b l IH]; intros v n Hn; cbn [continue_decode]; [done|].
  destruct (decide (b ≠ 0 ∧ 0 < n)%Z) as [[H1 H2]|]; [|done].
  destruct (decide (Z.shiftr b 6 ≠ 2)%Z); [done|]. specialize (IH (push_bits v b) (n - 1)%Z ltac:(lia)).
  destruct (continue_decode _ _ l) as [r|]; [|done]. destruct IH as (H3 & H4 & H5). split; [lia|]. split; [simpl; lia|].
  intros H. inversion_clear H. auto.
Qed.

Lemma decode_total l st : (-1 ≤ pu_n_remain st ≤ 3)%Z → Forall is_byte l →
  okP (decode_utf8 l st) (λ r, (∃ cs, r.1 = cs ++ [0%Z]) ∧ (-1 ≤ pu_n_remain r.2 ≤ 3)%Z).
Proof.
  intros Hn Hb. unfold decode_utf8. pose proof (continue_total (pu_value st) (pu_n_remain st) l ltac:(lia)) as H.
  destruct (continue_decode _ _ l) as [[[v n] l']|] eqn:E; [|by split; [exists []|simpl; lia]].
  destruct H as (H1 & H2 & H3). cbn [fst snd] in *. apply decode_loop_total; [|lia|auto].
  destruct (decide (0 ≤ pu_n_remain st)%Z); [lia|].
  assert (n = pu_n_remain st) as -> by (destruct l; simpl in E; [|rewrite decide_False in E by lia]; by simplify_eq). lia.
Qed.

(** * Correctness *)

(** C37. A text of code points, encoded in UTF-8 and cut into pieces at arbitrary
    bytes (the tokens of a model may end inside a character), is decoded piece by
    piece to exactly its code points, and nothing is pending at its end. *)
Theorem decode_utf8_pieces cps ps :
  Forall is_code_point cps → concat ps = concat (encode <$> cps) →
  okP (decode_pieces ps (PartialUtf8 0 0)) (λ r, r.1 = cps ∧ pu_n_remain r.2 = 0%Z).
Proof. apply decode_whole. Qed.

Lemma decode_utf8_pieces_witness :
  okP (decode_pieces [[97; 226; 130]; [172; 240]; []; [159; 152; 128; 98]]%Z (PartialUtf8 0 0))
    (λ r, r.1 = [97; 8364; 128512; 98]%Z ∧ pu_n_remain r.2 = 0%Z).
Proof.
  apply decode_utf8_pieces; [|reflexivity]. repeat (apply Forall_cons; split; [unfold is_code_point; lia|]). apply Forall_nil. done.
Defined.

(** ** A piece that is not empty leaves a code point or something pending. *)

Lemma take_cont_stops v n l : (0 ≤ n)%Z → let r := take_cont v n l in r.1.2 = 0%Z ∨ ((0 < r.1.2)%Z ∧ deref r.2 = 0%Z).
Proof.
  revert v n. induction l as [|b l IH]; intros v n Hn; cbn [take_cont].
  - cbn. destruct (decide (n = 0)%Z); [by left|]. right. split; [lia|done].
  - destruct (decide (b ≠ 0 ∧ 0 < n)%Z) as [[H1 H2]|Hno]; [apply IH; lia|]. cbn.
    destruct (decide (n = 0)%Z); [by left|]. right. split; [lia|]. destruct (decide (b = 0)%Z); [done|]. exfalso. apply Hno. lia.
Qed.

(** code points that were found stay, unless the sequence is invalid *)
Lemma decode_loop_nonempty fuel v n acc l r : decode_loop fuel v n acc l = Ok r →
  acc ≠ [] ∨ (n ≠ 0 ∧ deref l = 0)%Z ∨ deref l ≠ 0%Z → r.1 ≠ [0%Z] ∨ pu_n_remain r.2 ≠ 0%Z.
Proof.
  revert v n acc l. induction fuel as [|fuel IH]; intros v n acc l H Hc; [done|]. cbn [decode_loop] in H.
  destruct (decide (deref l = 0)%Z) as [H0|H0].
  - injection H as <-. cbn. destruct Hc as [Hc|[[Hc _]|Hc]]; [|by right|done]. left. destruct acc as [|a [|b acc]]; done.
  - apply bind_Ok_inv in H as (x & Hx & H). destruct (decide (x - 1 < 0)%Z); [injection H as <-; right; cbn; lia|].
    pose proof (take_cont_stops (Z.land (deref l) (Z.land (Z.shiftl 1 (7 - (x - 1)) - 1) 255)) (x - 1) (tail l) ltac:(lia)) as Hs.
    destruct (take_cont _ _ (tail l)) as [[v' n'] l']. cbn [fst snd] in Hs. apply (IH _ _ _ _ H).
    destruct Hs as [->|[Hn Hd]]; [left; rewrite decide_True by done; by destruct acc|].
    rewrite decide_False by lia. right; left. split; [lia|done].
Qed.

Lemma continue_stops v n l r : continue_decode v n l = Some r → (0 < n)%Z → r.1.2 = 0%Z ∨ ((0 < r.1.2)%Z ∧ deref r.2 = 0%Z).
Proof.
  revert v n. induction l as [|b l IH]; intros v n H Hn; cbn [continue_decode] in H; [injection H as <-; by right|].
  destruct (decide (b ≠ 0 ∧ 0 < n)%Z) as [[H1 H2]|Hno].
  - destruct (decide (Z.shiftr b 6 ≠ 2)%Z); [done|]. destruct (decide (n - 1 = 0)%Z) as [E|]; [|apply (IH _ _ H); lia].
    left. rewrite E in H. destruct l; cbn in H; [|rewrite decide_False in H by lia]; by injection H as <-.
  - injection H as <-. right. split; [done|]. cbn. destruct (decide (b = 0)%Z); [done|]. exfalso. apply Hno. lia.
Qed.

Lemma decode_nonempty l st r : deref l ≠ 0%Z → decode_utf8 l st = Ok r → r.1 ≠ [0%Z] ∨ pu_n_remain r.2 ≠ 0%Z.
Proof.
  intros Hl H. unfold decode_utf8 in H. destruct (continue_decode _ _ l) as [[[v n] l']|] eqn:E; [|injection H as <-; by right].
  apply (decode_loop_nonempty _ _ _ _ _ _ H). destruct (decide (0 < pu_n_remain st)%Z) as [Hp|Hp].
  - destruct (continue_stops _ _ _ _ E Hp) as [Hn|[Hn Hd]]; cbn [fst snd] in *; [left; by rewrite decide_True|].
    rewrite decide_False by lia. right; left. split; [lia|done].
  - right; right. destruct l as [|b l]; [done|]. cbn [continue_decode] in E. rewrite decide_False in E by lia. by injection E as _ _ <-.
Qed.
