(* ===== verification/Grammar.v ===== *)
(** Grammars as the sampler uses them (src/llama-grammar.cpp): rules as vectors
    of elements, pushdown stacks of pointers into the rules, the expansion of a
    stack, the acceptance of characters and tokens and the rejection of
    candidates.

    A [const llama_grammar_element *] is the pair of the rule and the index it
    points to ([pos + 1] adds one to the index); reading outside a rule is the
    error [OutOfRange].  A stack is the list of its elements from [back()] down.
    The recursion of [llama_grammar_advance_stack] has no bound in the code, so it
    takes fuel; [OutOfFuel] is what a recursion that does not end gives. *)
From S2P Require Import Prelude Utf8.

(** ** Data *)

Inductive llama_gretype :=
  | GRETYPE_END | GRETYPE_ALT | GRETYPE_RULE_REF | GRETYPE_CHAR | GRETYPE_CHAR_NOT
  | GRETYPE_CHAR_RNG_UPPER | GRETYPE_CHAR_ALT | GRETYPE_CHAR_ANY | GRETYPE_TOKEN | GRETYPE_TOKEN_NOT.

#[export] Instance gretype_eq_dec : EqDecision llama_gretype.
Proof. solve_decision. Defined.

Record llama_grammar_element := Elem { e_type : llama_gretype; e_value : Z }.

#[export] Instance elem_eq_dec : EqDecision llama_grammar_element.
Proof. solve_decision. Defined.

Abbreviation llama_grammar_rule := (list llama_grammar_element).
Abbreviation llama_grammar_rules := (list llama_grammar_rule).

(** const llama_grammar_element * *)
Abbreviation elem_ptr := (nat * nat)%type.
Abbreviation llama_grammar_stack := (list elem_ptr).
Abbreviation llama_grammar_stacks := (list llama_grammar_stack).

Definition elem_at (rules : llama_grammar_rules) (p : elem_ptr) : res llama_grammar_element :=
  r ← vget rules p.1; vget r p.2.

Definition ptr_add (p : elem_ptr) (n : nat) : elem_ptr := (p.1, p.2 + n).

Record llama_grammar_candidate := Candidate {
  c_index : nat;
  c_code_points : list Z;  (* the array that code_points points into *)
  c_offset : nat;          (* where it points *)
  c_partial_utf8 : llama_partial_utf8;
  c_id : Z
}.

(** [const uint32_t *]: *tok.code_points, and the pointer moved *)
Definition code_point (c : llama_grammar_candidate) : res Z := vget (c_code_points c) (c_offset c).
Definition move_to (c : llama_grammar_candidate) (off : nat) : llama_grammar_candidate :=
  Candidate (c_index c) (c_code_points c) off (c_partial_utf8 c) (c_id c).

(** ** Elements *)

(** llama_grammar_is_end_of_sequence *)
Definition is_end_of_sequence (e : llama_grammar_element) : bool :=
  match e_type e with GRETYPE_END => true | GRETYPE_ALT => true | _ => false end.

(** pos, unless it is the end of a sequence, on top of the stack *)
Definition push_elem (rules : llama_grammar_rules) (p : elem_ptr) (st : llama_grammar_stack) : res llama_grammar_stack :=
  e ← elem_at rules p; Ok (if is_end_of_sequence e then st else p :: st).

Definition is_positive_char (e : llama_grammar_element) : bool :=
  bool_decide (e_type e = GRETYPE_CHAR ∨ e_type e = GRETYPE_CHAR_ANY).

(** the do/while loop of llama_grammar_match_char: whether chr was found and the
    number of elements read *)
Fixpoint match_loop (chr : Z) (found : bool) (n : nat) (pos : list llama_grammar_element) : res (bool * nat) :=
  match pos with
  | e :: ((e1 :: pos1) as pos') =>
      if decide (e_type e1 = GRETYPE_CHAR_RNG_UPPER) then
        let found := found || bool_decide (e_value e ≤ chr ≤ e_value e1)%Z in
        match pos1 with
        | e2 :: _ => if decide (e_type e2 = GRETYPE_CHAR_ALT) then match_loop chr found (n + 2) pos1 else Ok (found, n + 2)
        | [] => Err OutOfRange
        end
      else
        let found := if decide (e_type e = GRETYPE_CHAR_ANY) then true else found || bool_decide (e_value e = chr) in
        if decide (e_type e1 = GRETYPE_CHAR_ALT) then match_loop chr found (n + 1) pos' else Ok (found, n + 1)
  | _ => Err OutOfRange
  end.

Definition match_char (rules : llama_grammar_rules) (p : elem_ptr) (chr : Z) : res (bool * elem_ptr) :=
  r ← vget rules p.1;
  e ← vget r p.2;
  ggml_assert (is_positive_char e || bool_decide (e_type e = GRETYPE_CHAR_NOT));;
  m ← match_loop chr false 0 (drop p.2 r);
  Ok (bool_decide (m.1 = is_positive_char e), ptr_add p m.2).

(** the range of the code points that a partial sequence can complete to *)
Definition partial_range (u : llama_partial_utf8) : Z * Z :=
  let low := u32 (Z.shiftl (pu_value u) (pu_n_remain u * 6)) in
  let high := Z.lor low (Z.shiftl 1 (pu_n_remain u * 6) - 1) in
  (if decide (low = 0)%Z then
     if decide (pu_n_remain u = 2)%Z then Z.shiftl 1 11
     else if decide (pu_n_remain u = 3)%Z then Z.shiftl 1 16 else low
   else low, high).

Fixpoint match_partial_loop (positive : bool) (low high : Z) (pos : list llama_grammar_element) : res bool :=
  match pos with
  | e :: ((e1 :: pos1) as pos') =>
      if decide (e_type e1 = GRETYPE_CHAR_RNG_UPPER) then
        if decide (e_value e ≤ high ∧ low ≤ e_value e1)%Z then Ok positive else
        match pos1 with
        | e2 :: _ => if decide (e_type e2 = GRETYPE_CHAR_ALT) then match_partial_loop positive low high pos1 else Ok (negb positive)
        | [] => Err OutOfRange
        end
      else if decide (e_type e = GRETYPE_CHAR_ANY) then Ok true
      else if decide (low ≤ e_value e ≤ high)%Z then Ok positive
      else if decide (e_type e1 = GRETYPE_CHAR_ALT) then match_partial_loop positive low high pos' else Ok (negb positive)
  | _ => Err OutOfRange
  end.

Definition match_partial_char (rules : llama_grammar_rules) (p : elem_ptr) (u : llama_partial_utf8) : res bool :=
  r ← vget rules p.1;
  e ← vget r p.2;
  ggml_assert (is_positive_char e || bool_decide (e_type e = GRETYPE_CHAR_NOT));;
  if decide (pu_n_remain u < 0 ∨ (pu_n_remain u = 1 ∧ pu_value u < 2))%Z then Ok false else
  let '(low, high) := partial_range u in
  match_partial_loop (is_positive_char e) low high (drop p.2 r).

Definition is_token_elem (e : llama_grammar_element) : bool :=
  bool_decide (e_type e = GRETYPE_TOKEN ∨ e_type e = GRETYPE_TOKEN_NOT).

Definition match_token (e : llama_grammar_element) (token : Z) : res bool :=
  ggml_assert (is_token_elem e);;
  if decide (e_type e = GRETYPE_TOKEN) then Ok (bool_decide (e_value e = u32 token))
  else if decide (e_type e = GRETYPE_TOKEN_NOT) then Ok (bool_decide (e_value e ≠ u32 token))
  else Ok false.

(** ** Expansion of a stack *)

(** only add the stack if it's not a duplicate of one we already have *)
Definition add_stack (new_stacks : llama_grammar_stacks) (st : llama_grammar_stack) : llama_grammar_stacks :=
  if decide (st ∈ new_stacks) then new_stacks else new_stacks ++ [st].

(** The loop over the alternates of a rule: [f] is called with the index where
    each alternate begins, and the rest of it is skipped. *)
Fixpoint for_alternates {S} (f : nat → S → res S) (at_start : bool) (i : nat) (l : llama_grammar_rule) (s : S) : res S :=
  match l with
  | [] => Err OutOfRange
  | e :: l =>
      s ← (if at_start then f i s else Ok s);
      if is_end_of_sequence e then
        if decide (e_type e = GRETYPE_ALT) then for_alternates f true (Datatypes.S i) l s else Ok s
      else for_alternates f false (Datatypes.S i) l s
  end.

(** llama_grammar_advance_stack *)
Fixpoint advance_stack (fuel : nat) (rules : llama_grammar_rules) (stack : llama_grammar_stack)
    (new_stacks : llama_grammar_stacks) : res llama_grammar_stacks :=
  match fuel with
  | 0 => Err OutOfFuel
  | S fuel =>
      match stack with
      | [] => Ok (add_stack new_stacks [])
      | pos :: rest =>
          e ← elem_at rules pos;
          match e_type e with
          | GRETYPE_RULE_REF =>
              let rule_id := Z.to_nat (e_value e) in
              rule ← vget rules rule_id;
              for_alternates (λ subpos new_stacks,
                new_stack ← push_elem rules (ptr_add pos 1) rest;
                new_stack ← push_elem rules (rule_id, subpos) new_stack;
                advance_stack fuel rules new_stack new_stacks) true 0 rule new_stacks
          | GRETYPE_CHAR | GRETYPE_CHAR_NOT | GRETYPE_CHAR_ANY | GRETYPE_TOKEN | GRETYPE_TOKEN_NOT =>
              Ok (add_stack new_stacks stack)
          | _ => Err Abort
          end
      end
  end.

(** ** Acceptance of a character *)

(** llama_grammar_accept_chr *)
Definition accept_chr (fuel : nat) (rules : llama_grammar_rules) (chr : Z)
    (new_stacks : llama_grammar_stacks) (stack : llama_grammar_stack) : res llama_grammar_stacks :=
  match stack with
  | [] => Ok new_stacks
  | pos :: rest =>
      e ← elem_at rules pos;
      if is_token_elem e then Ok new_stacks else
      m ← match_char rules pos chr;
      if (m : bool * elem_ptr).1 then
        new_stack ← push_elem rules m.2 rest;
        advance_stack fuel rules new_stack new_stacks
      else Ok new_stacks
  end.

(** llama_grammar_accept, on the stacks *)
Definition accept (fuel : nat) (rules : llama_grammar_rules) (stacks : llama_grammar_stacks) (chr : Z) : res llama_grammar_stacks :=
  foldM (accept_chr fuel rules chr) [] stacks.

(** ** Rejection of candidates *)

(** One candidate against the top of a stack: rejected, passed on with the next
    code point, or neither. *)
Definition reject_at_end (rejects : list llama_grammar_candidate) (tok : llama_grammar_candidate) : res (list llama_grammar_candidate) :=
  c ← code_point tok;
  Ok (if decide (c ≠ 0 ∨ pu_n_remain (c_partial_utf8 tok) ≠ 0)%Z then rejects ++ [tok] else rejects).

Definition reject_at_token (e : llama_grammar_element) (rejects : list llama_grammar_candidate)
    (tok : llama_grammar_candidate) : res (list llama_grammar_candidate) :=
  c ← code_point tok;
  if decide (c = 0)%Z then
    Ok (if decide (pu_n_remain (c_partial_utf8 tok) ≠ 0)%Z then rejects ++ [tok] else rejects)
  else
    m ← match_token e (c_id tok);
    Ok (if m : bool then rejects else rejects ++ [tok]).

Definition reject_at_char (rules : llama_grammar_rules) (pos : elem_ptr)
    (st : list llama_grammar_candidate * list llama_grammar_candidate) (tok : llama_grammar_candidate) :
    res (list llama_grammar_candidate * list llama_grammar_candidate) :=
  let '(rejects, next_candidates) := st in
  c ← code_point tok;
  if decide (c = 0)%Z then
    if decide (pu_n_remain (c_partial_utf8 tok) ≠ 0)%Z then
      m ← match_partial_char rules pos (c_partial_utf8 tok);
      Ok (if m : bool then rejects else rejects ++ [tok], next_candidates)
    else Ok (rejects, next_candidates)
  else
    m ← match_char rules pos c;
    if (m : bool * elem_ptr).1 then Ok (rejects, next_candidates ++ [move_to tok (c_offset tok + 1)])
    else Ok (rejects ++ [tok], next_candidates).

(** llama_grammar_reject_candidates: [for_stack] is the recursive call *)
Definition reject_with (for_stack : llama_grammar_stack → list llama_grammar_candidate → res (list llama_grammar_candidate))
    (stacks : llama_grammar_stacks) (candidates : list llama_grammar_candidate) : res (list llama_grammar_candidate) :=
  ggml_assert (bool_decide (stacks ≠ []));;
  if decide (candidates = []) then Ok [] else
  foldM (λ rejects stack, for_stack stack rejects) candidates stacks.

(** llama_grammar_reject_candidates_for_stack; one unit of [fuel] for each code
    point, [afuel] for each call of llama_grammar_advance_stack *)
Fixpoint reject_candidates_for_stack (fuel afuel : nat) (rules : llama_grammar_rules) (stack : llama_grammar_stack)
    (candidates : list llama_grammar_candidate) : res (list llama_grammar_candidate) :=
  match fuel with
  | 0 => Err OutOfFuel
  | S fuel =>
      match stack with
      | [] => foldM reject_at_end [] candidates
      | pos :: rest =>
          e ← elem_at rules pos;
          if is_token_elem e then foldM (reject_at_token e) [] candidates else
          '(rejects, next_candidates) ← foldM (reject_at_char rules pos) ([], []) candidates;
          m ← match_char rules pos 0;
          stack_after ← push_elem rules (m : bool * elem_ptr).2 rest;
          next_stacks ← advance_stack afuel rules stack_after [];
          next_rejects ← reject_with (reject_candidates_for_stack fuel afuel rules) next_stacks next_candidates;
          Ok (rejects ++ ((λ tok, move_to tok (c_offset tok - 1)) <$> next_rejects))
      end
  end.

Definition reject_candidates (fuel afuel : nat) (rules : llama_grammar_rules) (stacks : llama_grammar_stacks)
    (candidates : list llama_grammar_candidate) : res (list llama_grammar_candidate) :=
  reject_with (reject_candidates_for_stack fuel afuel rules) stacks candidates.

(** ** Acceptance of a token *)

(** the characters of the piece, from one stack on *)
Fixpoint run_chars (fuel : nat) (rules : llama_grammar_rules) (current : llama_grammar_stacks) (chrs : list Z) : res llama_grammar_stacks :=
  match chrs with
  | [] => Ok current
  | c :: chrs =>
      next ← accept fuel rules current c;
      if decide (next = []) then Ok [] else run_chars fuel rules next chrs
  end.

(** one stack of llama_grammar_accept_token *)
Definition accept_token_stack (fuel : nat) (rules : llama_grammar_rules) (token : Z) (chrs : list Z)
    (stacks_new : llama_grammar_stacks) (stack : llama_grammar_stack) : res llama_grammar_stacks :=
  match stack with
  | [] => Ok stacks_new
  | pos :: rest =>
      e ← elem_at rules pos;
      if is_token_elem e then
        m ← match_token e token;
        if m : bool then
          new_stack ← push_elem rules (ptr_add pos 1) rest;
          advance_stack fuel rules new_stack stacks_new
        else Ok stacks_new
      else
        current ← run_chars fuel rules [stack] chrs;
        Ok (foldl add_stack stacks_new current)
  end.

(** the part of a grammar that acceptance changes *)
Record grammar_state := GrammarState { gs_stacks : llama_grammar_stacks; gs_partial : llama_partial_utf8 }.

(** llama_grammar_accept_str *)
Definition accept_str (fuel : nat) (rules : llama_grammar_rules) (g : grammar_state) (piece : list Z) : res grammar_state :=
  decoded ← decode_utf8 piece (gs_partial g);
  stacks ← foldM (accept fuel rules) (gs_stacks g) (removelast decoded.1);
  if decide (stacks = []) then Err Throw else Ok (GrammarState stacks decoded.2).

(** llama_grammar_accept_token *)
Definition accept_token (fuel : nat) (rules : llama_grammar_rules) (g : grammar_state) (token : Z) (piece : list Z) : res grammar_state :=
  decoded ← decode_utf8 piece (gs_partial g);
  stacks ← foldM (accept_token_stack fuel rules token (removelast decoded.1)) [] (gs_stacks g);
  if decide (stacks = []) then Err Throw else Ok (GrammarState stacks decoded.2).

(** ** Specification: grammars as abstract syntax

    A symbol of an alternate, the elements that stand for it, and the texts that
    a sequence of symbols generates.  A text is a sequence of characters and of
    whole tokens (what the terminals <[id]> match). *)
Inductive sym :=
  | SClass (neg : bool) (item : Z * option Z) (items : list (Z * option Z))
  | SAny
  | SRef (r : nat)
  | STok (neg : bool) (id : Z).

#[export] Instance sym_eq_dec : EqDecision sym.
Proof. solve_decision. Defined.

Abbreviation grammar := (list (list (list sym))).

Definition enc_item (t : llama_gretype) (i : Z * option Z) : list llama_grammar_element :=
  Elem t i.1 :: match i.2 with Some hi => [Elem GRETYPE_CHAR_RNG_UPPER hi] | None => [] end.

Definition enc_sym (s : sym) : list llama_grammar_element :=
  match s with
  | SClass neg i l =>
      enc_item (if neg then GRETYPE_CHAR_NOT else GRETYPE_CHAR) i ++ concat (enc_item GRETYPE_CHAR_ALT <$> l)
  | SAny => [Elem GRETYPE_CHAR_ANY 0]
  | SRef r => [Elem GRETYPE_RULE_REF (Z.of_nat r)]
  | STok neg id => [Elem (if neg then GRETYPE_TOKEN_NOT else GRETYPE_TOKEN) id]
  end.

Definition enc_seq (ss : list sym) : list llama_grammar_element := concat (enc_sym <$> ss).

Fixpoint enc_rule (alts : list (list sym)) : llama_grammar_rule :=
  match alts with
  | [] => []
  | [a] => enc_seq a ++ [Elem GRETYPE_END 0]
  | a :: alts => enc_seq a ++ Elem GRETYPE_ALT 0 :: enc_rule alts
  end.

Definition ref_ok (n : nat) (s : sym) : Prop := match s with SRef r => r < n | _ => True end.

(** The rules are the encoding of a grammar whose references are defined. *)
Definition encodes (rules : llama_grammar_rules) (G : grammar) : Prop :=
  rules = enc_rule <$> G ∧ Forall (λ alts, alts ≠ [] ∧ Forall (Forall (ref_ok (length G))) alts) G.

Inductive terminal := Chr (c : Z) | Tok (id : Z).

Definition in_item (c : Z) (i : Z * option Z) : bool :=
  match i.2 with Some hi => bool_decide (i.1 ≤ c ≤ hi)%Z | None => bool_decide (i.1 = c) end.

(** the set of characters, resp. of tokens, of a terminal symbol *)
Definition sym_char (s : sym) (c : Z) : bool :=
  match s with
  | SClass neg i l => xorb neg (existsb (in_item c) (i :: l))
  | SAny => true
  | _ => false
  end.

Definition sym_token (s : sym) (id : Z) : bool :=
  match s with STok neg t => xorb neg (bool_decide (t = u32 id)) | _ => false end.

Inductive gen (G : grammar) : list sym → list terminal → Prop :=
  | gen_nil : gen G [] []
  | gen_char s ss c w : sym_char s c = true → gen G ss w → gen G (s :: ss) (Chr c :: w)
  | gen_token s ss id w : sym_token s id = true → gen G ss w → gen G (s :: ss) (Tok id :: w)
  | gen_ref r alts alt ss u v :
      G !! r = Some alts → alt ∈ alts → gen G alt u → gen G ss v → gen G (SRef r :: ss) (u ++ v).

(** A pointer denotes the symbols from it to the end of its alternate. *)
Definition denotes (rules : llama_grammar_rules) (p : elem_ptr) (ss : list sym) : Prop :=
  ∃ rule e post, rules !! p.1 = Some rule ∧ drop p.2 rule = enc_seq ss ++ e :: post ∧
    is_end_of_sequence e = true ∧ Forall (ref_ok (length rules)) ss.

(** What is on a stack is not at the end of its alternate. *)
Definition stack_denotes (rules : llama_grammar_rules) (st : llama_grammar_stack) (sss : list (list sym)) : Prop :=
  Forall2 (λ p ss, denotes rules p ss ∧ ss ≠ []) st sss.

(** The texts that a stack accepts to its end. *)
Definition stack_lang (rules : llama_grammar_rules) (G : grammar) (st : llama_grammar_stack) (w : list terminal) : Prop :=
  ∃ sss, stack_denotes rules st sss ∧ gen G (concat sss) w.

Definition lang (rules : llama_grammar_rules) (G : grammar) (stacks : llama_grammar_stacks) (w : list terminal) : Prop :=
  ∃ st, st ∈ stacks ∧ stack_lang rules G st w.

(** Stacks between two characters: they are empty or at a terminal. *)
Definition is_terminal (s : sym) : bool := match s with SRef _ => false | _ => true end.
Definition ready_stack (rules : llama_grammar_rules) (st : llama_grammar_stack) : Prop :=
  ∃ sss, stack_denotes rules st sss ∧ match concat sss with [] => True | s :: _ => is_terminal s = true end.

(** ** Encodings *)

Definition starts_item (e : llama_grammar_element) : bool :=
  bool_decide (e_type e = GRETYPE_CHAR_ALT ∨ e_type e = GRETYPE_CHAR_RNG_UPPER).

(** What follows the encoding of a symbol does not continue it. *)
Lemma after_sym ss e post : is_end_of_sequence e = true →
  ∃ e' l', enc_seq ss ++ e :: post = e' :: l' ∧ starts_item e' = false.
Proof.
  intros He. destruct ss as [|s ss].
  - exists e, post. split; [done|]. unfold starts_item, is_end_of_sequence in *. destruct (e_type e); done.
  - destruct s as [[] [lo [hi|]] l| | |[] id]; eexists _, _; split; try reflexivity; done.
Qed.

Lemma enc_items_inj l1 l2 e1 r1 e2 r2 :
  starts_item e1 = false → starts_item e2 = false →
  concat (enc_item GRETYPE_CHAR_ALT <$> l1) ++ e1 :: r1 = concat (enc_item GRETYPE_CHAR_ALT <$> l2) ++ e2 :: r2 →
  l1 = l2 ∧ e1 :: r1 = e2 :: r2.
Proof.
  intros H1 H2. revert l2. induction l1 as [|[a oa] l1 IH]; intros [|[b ob] l2] E.
  - done.
  - cbn in E. by simplify_eq.
  - cbn in E. by simplify_eq.
  - destruct oa as [x|], ob as [y|]; cbn in E.
    + injection E as -> -> E. by destruct (IH l2 E) as [-> ?].
    + destruct l2 as [|[]]; cbn in E; by simplify_eq.
    + destruct l1 as [|[]]; cbn in E; by simplify_eq.
    + injection E as -> E. by destruct (IH l2 E) as [-> ?].
Qed.

Lemma enc_seq_inj ss1 ss2 e1 p1 e2 p2 :
  is_end_of_sequence e1 = true → is_end_of_sequence e2 = true →
  enc_seq ss1 ++ e1 :: p1 = enc_seq ss2 ++ e2 :: p2 → (∀ n, Forall (ref_ok n) ss1 → Forall (ref_ok n) ss2 → ss1 = ss2).
Proof.
  intros He1 He2 E n. revert ss2 E. induction ss1 as [|s1 ss1 IH]; intros ss2 E H1 H2.
  - destruct ss2 as [|s2 ss2]; [done|]. destruct s2 as [[] [lo [hi|]] l| | |[] id]; cbn in E; by simplify_eq.
  - destruct ss2 as [|s2 ss2]; [destruct s1 as [[] [lo [hi|]] l| | |[] id]; cbn in E; by simplify_eq|].
    inversion_clear H1. inversion_clear H2. unfold enc_seq in E. rewrite !fmap_cons in E. cbn [concat] in E.
    rewrite <- !app_assoc in E. fold (enc_seq ss1) in E. fold (enc_seq ss2) in E.
    destruct (after_sym ss1 e1 p1 He1) as (a1 & b1 & Ea1 & Hs1). destruct (after_sym ss2 e2 p2 He2) as (a2 & b2 & Ea2 & Hs2).
    assert (enc_seq ss1 ++ e1 :: p1 = enc_seq ss2 ++ e2 :: p2 → s1 = s2 → s1 :: ss1 = s2 :: ss2) as Hd.
    { intros E' ->. f_equal. by apply IH. }
    rewrite Ea1, Ea2 in *. destruct s1 as [n1 [lo1 o1] l1| |r1|n1 i1], s2 as [n2 [lo2 o2] l2| |r2|n2 i2];
      cbn in E; try (destruct n1); try (destruct n2); try (simplify_eq; fail); try (apply Hd; [congruence|];
        try reflexivity; simplify_eq; f_equal; lia); rewrite <- ?app_assoc in E;
      (destruct o1 as [h1|], o2 as [h2|]; cbn in E;
        [injection E as -> -> E|destruct l2 as [|[]]; cbn in E; simplify_eq; done|destruct l1 as [|[]]; cbn in E; simplify_eq; done|injection E as -> E]);
      (destruct (enc_items_inj l1 l2 a1 b1 a2 b2) as [-> E']; [done|done|done|]; by apply Hd).
Qed.

Lemma denotes_inj rules p ss1 ss2 : denotes rules p ss1 → denotes rules p ss2 → ss1 = ss2.
Proof.
  intros (r1 & e1 & q1 & H1 & D1 & E1 & R1) (r2 & e2 & q2 & H2 & D2 & E2 & R2). simplify_eq.
  rewrite D1 in D2. by apply (enc_seq_inj ss1 ss2 e1 q1 e2 q2 E1 E2 D2 (length rules)).
Qed.

Lemma stack_denotes_inj rules st s1 s2 : stack_denotes rules st s1 → stack_denotes rules st s2 → s1 = s2.
Proof.
  intros H. revert s2. induction H as [|p ss st sss [H1 H2] H IH]; intros s2 Hs; inversion_clear Hs as [|? s' ? ? [H3 ?]]; [done|].
  f_equal; [by eapply denotes_inj|auto].
Qed.

Lemma stack_lang_at rules G st sss w : stack_denotes rules st sss → stack_lang rules G st w ↔ gen G (concat sss) w.
Proof.
  intros H. split; [|by exists sss]. intros (s' & H' & Hg). by rewrite (stack_denotes_inj rules st sss s').
Qed.

(** ** Pointers into encoded rules *)

Lemma denotes_end rules p : denotes rules p [] ↔ ∃ e, elem_at rules p = Ok e ∧ is_end_of_sequence e = true.
Proof.
  unfold elem_at. split.
  - intros (r & e & post & Hr & Hd & He & _). exists e. rewrite (vget_ok _ _ _ Hr), bind_Ok. split; [|done].
    apply vget_ok. rewrite <- (Nat.add_0_r p.2), <- lookup_drop, Hd. done.
  - intros (e & H & He). apply bind_Ok_inv in H as (r & Hr & H). apply vget_inv in Hr, H.
    exists r, e, (drop (S p.2) r). split; [done|]. split; [by apply drop_S|]. split; [done|by constructor].
Qed.

Lemma denotes_elem rules p s ss : denotes rules p (s :: ss) →
  elem_at rules p = Ok (hd (Elem GRETYPE_END 0) (enc_sym s)) ∧ is_end_of_sequence (hd (Elem GRETYPE_END 0) (enc_sym s)) = false.
Proof.
  intros (r & e & post & Hr & Hd & He & _). unfold elem_at. rewrite (vget_ok _ _ _ Hr), bind_Ok. split.
  - apply vget_ok. rewrite <- (Nat.add_0_r p.2), <- lookup_drop, Hd. by destruct s as [[] [lo [hi|]] l| | |[] id].
  - by destruct s as [[] [lo [hi|]] l| | |[] id].
Qed.

Lemma denotes_next rules p s ss : denotes rules p (s :: ss) → denotes rules (ptr_add p (length (enc_sym s))) ss.
Proof.
  intros (r & e & post & Hr & Hd & He & Hf). inversion_clear Hf. exists r, e, post. split; [done|]. split; [|done].
  cbn [ptr_add snd]. rewrite <- drop_drop, Hd. unfold enc_seq. rewrite fmap_cons. cbn [concat].
  by rewrite <- app_assoc, drop_app_length.
Qed.

Lemma push_elem_ok rules p ss st : denotes rules p ss →
  push_elem rules p st = Ok (match ss with [] => st | _ :: _ => p :: st end).
Proof.
  intros Hd. unfold push_elem. destruct ss as [|s ss].
  - apply denotes_end in Hd as (e & -> & He). by rewrite bind_Ok, He.
  - apply denotes_elem in Hd as (-> & He). by rewrite bind_Ok, He.
Qed.

Lemma push_denotes rules p ss st sss : denotes rules p ss → stack_denotes rules st sss →
  ∃ s', stack_denotes rules (match ss with [] => st | _ :: _ => p :: st end) s' ∧ concat s' = ss ++ concat sss.
Proof.
  intros Hd Hs. destruct ss as [|s ss]; [by exists sss|]. exists ((s :: ss) :: sss). split; [|done].
  constructor; [by split|done].
Qed.

(** ** Matching a character *)

Lemma starts_item_false e : starts_item e = false → e_type e ≠ GRETYPE_CHAR_ALT ∧ e_type e ≠ GRETYPE_CHAR_RNG_UPPER.
Proof. unfold starts_item. intros H%bool_decide_eq_false_1. naive_solver. Qed.

Lemma match_loop_range chr found n e e1 e2 q : e_type e1 = GRETYPE_CHAR_RNG_UPPER →
  match_loop chr found n (e :: e1 :: e2 :: q) =
    let found := found || bool_decide (e_value e ≤ chr ≤ e_value e1)%Z in
    if decide (e_type e2 = GRETYPE_CHAR_ALT) then match_loop chr found (n + 2) (e2 :: q) else Ok (found, n + 2).
Proof. intros H. cbn [match_loop]. by rewrite decide_True. Qed.

Lemma match_loop_single chr found n e e1 q : e_type e1 ≠ GRETYPE_CHAR_RNG_UPPER → e_type e ≠ GRETYPE_CHAR_ANY →
  match_loop chr found n (e :: e1 :: q) =
    let found := found || bool_decide (e_value e = chr) in
    if decide (e_type e1 = GRETYPE_CHAR_ALT) then match_loop chr found (n + 1) (e1 :: q) else Ok (found, n + 1).
Proof. intros H H2. cbn [match_loop]. rewrite decide_False by done. by rewrite (decide_False (P := e_type e = _)). Qed.

Lemma match_loop_ok chr t i l e r found n :
  t ≠ GRETYPE_CHAR_ANY → starts_item e = false →
  match_loop chr found n (enc_item t i ++ concat (enc_item GRETYPE_CHAR_ALT <$> l) ++ e :: r)
  = Ok (found || existsb (in_item chr) (i :: l), n + length (enc_item t i ++ concat (enc_item GRETYPE_CHAR_ALT <$> l))).
Proof.
  intros Ht [He1 He2]%starts_item_false. revert t i found n Ht.
  induction l as [|j l IH]; intros t i found n Ht; rewrite fmap_nil || rewrite fmap_cons; cbn [concat app].
  - rewrite app_nil_r. cbn [existsb]. rewrite orb_false_r. unfold in_item. destruct i as [lo [hi|]]; cbn [enc_item fst snd app length].
    + rewrite match_loop_range by done. by rewrite decide_False by done.
    + rewrite match_loop_single by done. by rewrite decide_False by done.
  - rewrite <- (app_assoc (enc_item GRETYPE_CHAR_ALT j)). rewrite !length_app. specialize (IH GRETYPE_CHAR_ALT j).
    destruct (enc_item GRETYPE_CHAR_ALT j ++ concat (enc_item GRETYPE_CHAR_ALT <$> l) ++ e :: r) as [|a q] eqn:Eq; [by destruct j|].
    assert (e_type a = GRETYPE_CHAR_ALT) as Ha by (destruct j; cbn in Eq; by simplify_eq).
    destruct i as [lo [hi|]]; cbn [enc_item fst snd app].
    + rewrite match_loop_range by done. rewrite decide_True by done. cbv zeta. rewrite IH by done. cbn [existsb].
      rewrite !length_app. cbn [length]. f_equal. f_equal; [by rewrite <- orb_assoc|cbn [enc_item fst snd app length concat]; rewrite ?length_app; lia].
    + rewrite match_loop_single by (done || congruence). rewrite decide_True by done. cbv zeta. rewrite IH by done. cbn [existsb].
      rewrite !length_app. cbn [length]. f_equal. f_equal; [by rewrite <- orb_assoc|cbn [enc_item fst snd app length concat]; rewrite ?length_app; lia].
Qed.

(** the elements that match_char expects *)
Definition is_char_sym (s : sym) : bool := match s with SClass _ _ _ => true | SAny => true | _ => false end.

Lemma match_char_ok rules p s ss chr : denotes rules p (s :: ss) → is_char_sym s = true →
  match_char rules p chr = Ok (sym_char s chr, ptr_add p (length (enc_sym s))).
Proof.
  intros Hd Hs. pose proof (denotes_elem _ _ _ _ Hd) as [Hp _]. unfold elem_at in Hp. apply bind_Ok_inv in Hp as (r' & Hr & Hv).
  destruct Hd as (r & e & post & Hr2 & Hd & He & Hf). unfold match_char. rewrite Hr, bind_Ok, Hv, bind_Ok.
  apply vget_inv in Hr. simplify_eq. rewrite Hd. unfold enc_seq. rewrite fmap_cons. cbn [concat]. rewrite <- app_assoc.
  fold (enc_seq ss). destruct (after_sym ss e post He) as (e' & l' & -> & He').
  destruct s as [neg i l| | |]; try done; clear Hs.
  - cbn [enc_sym]. rewrite <- app_assoc, ggml_assert_ok by (by destruct neg). rewrite bind_Ok.
    rewrite match_loop_ok by (destruct neg || idtac; done). rewrite bind_Ok. cbn [fst snd sym_char].
    rewrite orb_false_l. f_equal. f_equal.
    destruct neg; cbn [hd enc_item app is_positive_char e_type]; destruct (existsb _ _); done.
  - destruct (starts_item_false _ He') as [H1 H2]. cbn. rewrite decide_False by done. rewrite decide_False by done. done.
Qed.

Lemma match_token_ok neg t id : match_token (hd (Elem GRETYPE_END 0) (enc_sym (STok neg t))) id = Ok (sym_token (STok neg t) id).
Proof. unfold match_token, sym_token. destruct neg; cbn; f_equal; repeat case_bool_decide; naive_solver. Qed.

Lemma is_token_ok s : is_token_elem (hd (Elem GRETYPE_END 0) (enc_sym s)) = match s with STok _ _ => true | _ => false end.
Proof. by destruct s as [[] [lo [hi|]] l| | |[] id]. Qed.

(** ** Texts of a sequence *)

Lemma gen_app G ss1 ss2 u v : gen G ss1 u → gen G ss2 v → gen G (ss1 ++ ss2) (u ++ v).
Proof. intros H1 H2. induction H1; cbn [app]; [done|by constructor..|]. rewrite <- app_assoc. by eapply gen_ref. Qed.

Lemma gen_app_inv G ss1 ss2 w : gen G (ss1 ++ ss2) w → ∃ u v, w = u ++ v ∧ gen G ss1 u ∧ gen G ss2 v.
Proof.
  revert w. induction ss1 as [|s ss1 IH]; intros w H; [exists [], w; split_and!; [done|constructor|done]|].
  cbn [app] in H. inversion H as [|s' ss c w' Hs Hg|s' ss id w' Hs Hg|r alts alt ss u v Hr Ha Hu Hv]; subst.
  - destruct (IH _ Hg) as (u & v & -> & H1 & H2). exists (Chr c :: u), v. split_and!; [done|by constructor|done].
  - destruct (IH _ Hg) as (u & v & -> & H1 & H2). exists (Tok id :: u), v. split_and!; [done|by constructor|done].
  - destruct (IH _ Hv) as (u1 & v1 & -> & H1 & H2). exists (u ++ u1), v1. split_and!; [by rewrite app_assoc|by eapply gen_ref|done].
Qed.

(** the expansion of a reference *)
Lemma gen_ref_iff G r ss w : gen G (SRef r :: ss) w ↔ ∃ alts alt, G !! r = Some alts ∧ alt ∈ alts ∧ gen G (alt ++ ss) w.
Proof.
  split.
  - intros H. inversion H as [|s' ss' c w' Hs|s' ss' id w' Hs|r' alts alt ss' u v Hr Ha Hu Hv]; subst; [done|done|].
    exists alts, alt. split_and!; [done|done|by apply gen_app].
  - intros (alts & alt & Hr & Ha & Hg). apply gen_app_inv in Hg as (u & v & -> & Hu & Hv). by eapply gen_ref.
Qed.

Lemma gen_chr_iff G s ss c w : is_terminal s = true → gen G (s :: ss) (Chr c :: w) ↔ sym_char s c = true ∧ gen G ss w.
Proof.
  intros Hs. split; [|by intros []; constructor]. intros H. by inversion H; subst.
Qed.

Lemma gen_tok_iff G s ss id w : is_terminal s = true → gen G (s :: ss) (Tok id :: w) ↔ sym_token s id = true ∧ gen G ss w.
Proof.
  intros Hs. split; [|by intros []; constructor]. intros H. by inversion H; subst.
Qed.

Lemma gen_nil_iff G s ss : is_terminal s = true → ¬ gen G (s :: ss) [].
Proof. intros Hs H. by inversion H; subst. Qed.

(** ** The alternates of a rule *)

Lemma for_alternates_skip {S} (f : nat → S → res S) ss e post i s : is_end_of_sequence e = true →
  for_alternates f false i (enc_seq ss ++ e :: post) s = for_alternates f false (i + length (enc_seq ss)) (e :: post) s.
Proof.
  intros He. assert (Forall (λ e, is_end_of_sequence e = false) (enc_seq ss)) as Hf.
  { unfold enc_seq. apply Forall_concat, Forall_fmap, Forall_true. intros s'. cbn. destruct s' as [[] [lo o] l| | |[] id]; try (by repeat constructor);
      (apply Forall_app; split; [destruct o; by repeat constructor|]; apply Forall_concat, Forall_fmap, Forall_true; intros [lo' []]; by repeat constructor). }
  revert i. induction (enc_seq ss) as [|x l IH]; intros i; [by rewrite Nat.add_0_r|].
  inversion_clear Hf as [|? ? Hx Hl]. cbn [app for_alternates]. rewrite bind_Ok, Hx, (IH Hl). by replace (i + length (x :: l)) with (Datatypes.S i + length l) by (simpl; lia).
Qed.

(** The indices where the alternates begin, in order. *)
Fixpoint alt_starts (i : nat) (alts : list (list sym)) : list nat :=
  match alts with [] => [] | a :: alts => i :: alt_starts (S (i + length (enc_seq a))) alts end.

Lemma for_alternates_ok {S} (f : nat → S → res S) i alts s : alts ≠ [] →
  for_alternates f true i (enc_rule alts) s = foldM (λ s i, f i s) s (alt_starts i alts).
Proof.
  revert i s. induction alts as [|a alts IH]; intros i s Hne; [done|]. clear Hne.
  assert (∀ e post, is_end_of_sequence e = true →
    for_alternates f true i (enc_seq a ++ e :: post) s = s ← f i s; for_alternates f false (i + length (enc_seq a)) (e :: post) s) as Hstart.
  { intros e post He. destruct (enc_seq a) as [|x l] eqn:Ea.
    - cbn [app for_alternates length]. destruct (f i s); [|done]. by rewrite !bind_Ok, Nat.add_0_r.
    - pose proof (for_alternates_skip f a e post i) as Hk. rewrite Ea in Hk. cbn [app for_alternates] in *.
      destruct (f i s) as [s'|]; [|done]. rewrite !bind_Ok. specialize (Hk s' He). rewrite bind_Ok in Hk. exact Hk. }
  destruct alts as [|b alts].
  - cbn [enc_rule alt_starts foldM]. rewrite Hstart by done. destruct (f i s); [|done]. reflexivity.
  - change (enc_rule (a :: b :: alts)) with (enc_seq a ++ Elem GRETYPE_ALT 0 :: enc_rule (b :: alts)). rewrite Hstart by done.
    cbn [alt_starts foldM]. destruct (f i s) as [s'|]; [|done]. rewrite !bind_Ok.
    cbn [for_alternates]. rewrite bind_Ok. apply IH. done.
Qed.

Lemma enc_rule_at alts k a i : alts !! k = Some a → alt_starts 0 alts !! k = Some i →
  ∃ e post, drop i (enc_rule alts) = enc_seq a ++ e :: post ∧ is_end_of_sequence e = true.
Proof.
  intros Ha. assert (∀ j, alt_starts j alts !! k = Some i → ∃ e post, j ≤ i ∧ drop (i - j) (enc_rule alts) = enc_seq a ++ e :: post ∧ is_end_of_sequence e = true) as H.
  { revert k Ha. induction alts as [|b alts IH]; intros k Ha j Hi; [done|]. destruct k as [|k]; simplify_eq/=.
    - rewrite Nat.sub_diag, drop_0. destruct alts; eexists _, _; (split; [lia|split; [reflexivity|done]]).
    - destruct alts as [|c alts]; [done|]. destruct (IH k Ha _ Hi) as (e & post & Hle & Hd & He). exists e, post.
      split; [lia|]. split; [|done]. change (enc_rule (b :: c :: alts)) with (enc_seq b ++ Elem GRETYPE_ALT 0 :: enc_rule (c :: alts)).
      replace (i - j) with (length (enc_seq b ++ [Elem GRETYPE_ALT 0]) + (i - S (j + length (enc_seq b)))) by (rewrite (length_app (enc_seq b) [_]); cbn [length]; lia).
      rewrite <- drop_drop.
      rewrite (list.cons_middle _ (enc_seq b) (enc_rule (c :: alts))), app_assoc. by rewrite drop_app_length. }
  intros Hi. destruct (H 0 Hi) as (e & post & _ & Hd & He). rewrite Nat.sub_0_r in Hd. by exists e, post.
Qed.

Lemma length_alt_starts i alts : length (alt_starts i alts) = length alts.
Proof. revert i. induction alts; intros; simpl; auto. Qed.

(** Pointers to the alternates of a rule denote them. *)
Lemma denotes_alternate rules G r alts k a i :
  encodes rules G → G !! r = Some alts → alts !! k = Some a → alt_starts 0 alts !! k = Some i → denotes rules (r, i) a.
Proof.
  intros [-> HG] Hr Ha Hi. destruct (enc_rule_at alts k a i Ha Hi) as (e & post & Hd & He).
  exists (enc_rule alts), e, post. cbn [fst snd]. split; [by rewrite list_lookup_fmap, Hr|]. split; [done|]. split; [done|].
  rewrite length_fmap. pose proof (Forall_lookup_1 _ _ _ _ HG Hr) as [_ H]. by apply (Forall_lookup_1 _ _ _ _ H Ha).
Qed.

(** ** Left recursion *)

Section grammar.
Context (rules : llama_grammar_rules) (G : grammar).

(** [N r]: the rule [r] is taken to generate the empty text. *)
Context (N : nat → Prop).

Definition nullable (s : sym) : Prop := match s with SRef r => N r | _ => False end.

(** [N] holds of every rule with an alternate of rules in [N]. *)
Definition nullable_closed : Prop :=
  ∀ r alts alt, G !! r = Some alts → alt ∈ alts → Forall nullable alt → N r.

(** a reference that can be reached before any terminal *)
Definition left_of (ss : list sym) (r : nat) : Prop :=
  ∃ pre post, ss = pre ++ SRef r :: post ∧ Forall nullable pre.

Definition left_ref (r r' : nat) : Prop := ∃ alts alt, G !! r = Some alts ∧ alt ∈ alts ∧ left_of alt r'.

(** No infinite chain of left references starts from [r]. *)
Definition not_left_recursive (r : nat) : Prop := Acc (λ a b, left_ref b a) r.

Lemma left_of_head r ss : left_of (SRef r :: ss) r.
Proof. exists [], ss. split; [done|by constructor]. Qed.

Lemma left_of_tail r r' ss : N r → left_of ss r' → left_of (SRef r :: ss) r'.
Proof. intros Hr (pre & post & -> & Hp). exists (SRef r :: pre), post. split; [done|by constructor]. Qed.
End grammar.

(** ** The stacks that an expansion adds *)

Definition add_stacks (new add : llama_grammar_stacks) : llama_grammar_stacks := foldl add_stack new add.

Lemma add_stacks_app new l1 l2 : add_stacks new (l1 ++ l2) = add_stacks (add_stacks new l1) l2.
Proof. apply foldl_app. Qed.

Lemma elem_of_add_stacks st new add : st ∈ add_stacks new add ↔ st ∈ new ∨ st ∈ add.
Proof.
  revert new. induction add as [|a add IH]; intros new; [set_solver|]. change (add_stacks new (a :: add)) with (add_stacks (add_stack new a) add).
  rewrite IH. unfold add_stack. case_decide; set_solver.
Qed.

Lemma add_stacks_ne new add : add ≠ [] → add_stacks new add ≠ [].
Proof.
  destruct add as [|a add]; [done|]. intros _ E. assert (a ∈ add_stacks new (a :: add)) as H by (apply elem_of_add_stacks; set_solver).
  rewrite E in H. set_solver.
Qed.

(** The stacks added are at terminals and generate what the given ones do. *)
Definition expands (rules : llama_grammar_rules) (G : grammar) (L : list terminal → Prop) (new out : llama_grammar_stacks) : Prop :=
  ∃ add, out = add_stacks new add ∧ add ≠ [] ∧ Forall (ready_stack rules) add ∧
    ∀ w, L w ↔ lang rules G add w.

Lemma lang_app rules G s1 s2 w : lang rules G (s1 ++ s2) w ↔ lang rules G s1 w ∨ lang rules G s2 w.
Proof. unfold lang. set_solver. Qed.
Lemma lang_nil rules G w : ¬ lang rules G [] w.
Proof. intros (st & H & _). set_solver. Qed.
Lemma lang_single rules G st w : lang rules G [st] w ↔ stack_lang rules G st w.
Proof. unfold lang. set_solver. Qed.
Lemma lang_add_stacks rules G new add w : lang rules G (add_stacks new add) w ↔ lang rules G new w ∨ lang rules G add w.
Proof. unfold lang. setoid_rewrite elem_of_add_stacks. set_solver. Qed.

(** ** The expansion terminates and is complete *)

Definition pushs (ss : list sym) (p : elem_ptr) (st : llama_grammar_stack) : llama_grammar_stack :=
  match ss with [] => st | _ :: _ => p :: st end.

Lemma encodes_lookup rules G r alts : encodes rules G → G !! r = Some alts →
  rules !! r = Some (enc_rule alts) ∧ alts ≠ [].
Proof.
  intros [-> HG] Hr. split; [by rewrite list_lookup_fmap, Hr|]. by pose proof (Forall_lookup_1 _ _ _ _ HG Hr) as [].
Qed.

Lemma denotes_ref_lt rules G p r ss : encodes rules G → denotes rules p (SRef r :: ss) → is_Some (G !! r).
Proof.
  intros [-> _] (? & ? & ? & _ & _ & _ & H). inversion_clear H as [|? ? H1 _]. apply lookup_lt_is_Some.
  cbn in H1. by rewrite length_fmap in H1.
Qed.

Section expansion.
Context (rules : llama_grammar_rules) (G : grammar).
Hypothesis Henc : encodes rules G.

(** The expansion of [st] ends, with stacks for exactly its texts. *)
Definition expandable (st : llama_grammar_stack) : Prop :=
  ∀ new, ends (λ n, advance_stack n rules st new) (expands rules G (stack_lang rules G st) new).

Lemma expands_self st new : ready_stack rules st → expands rules G (stack_lang rules G st) new (add_stack new st).
Proof.
  intros Hr. exists [st]. split; [done|]. split; [done|]. split; [by constructor|]. intros w. by rewrite lang_single.
Qed.

Lemma expandable_terminal st sss : stack_denotes rules st sss →
  match concat sss with [] => True | s :: _ => is_terminal s = true end → expandable st.
Proof.
  intros Hd Ht new. pose proof (expands_self st new) as He.
  assert (ready_stack rules st) as Hr by by exists sss. specialize (He Hr).
  eapply (ends_step (λ _, Ok (add_stack new st))); [|by apply ends_okP]. intros n.
  inversion Hd as [|p ss st' sss' [Hp Hne] Hd']; subst; [done|]. destruct ss as [|s ss]; [done|].
  cbn [advance_stack]. destruct (denotes_elem _ _ _ _ Hp) as [-> _]. rewrite bind_Ok.
  destruct s as [[] [lo o] l| | |[] id]; done.
Qed.

Lemma stack_lang_pushs ss p st sss w : denotes rules p ss → stack_denotes rules st sss →
  stack_lang rules G (pushs ss p st) w ↔ gen G (ss ++ concat sss) w.
Proof.
  intros Hd Hs. destruct (push_denotes rules p ss st sss Hd Hs) as (s' & H1 & <-). by apply stack_lang_at.
Qed.

(** The loop over the alternates of a rule, on top of the stack [rest]. *)
Lemma alternates_ok r alts rest sss new : G !! r = Some alts → stack_denotes rules rest sss →
  (∀ k a i, alts !! k = Some a → alt_starts 0 alts !! k = Some i → expandable (pushs a (r, i) rest)) →
  ends (λ n, foldM (λ s i, push_elem rules (r, i) rest ≫= λ st, advance_stack n rules st s) new (alt_starts 0 alts))
    (expands rules G (λ w, ∃ a, a ∈ alts ∧ gen G (a ++ concat sss) w) new).
Proof.
  intros Hr Hs Hall. destruct (encodes_lookup rules G r alts Henc Hr) as [_ Hne]. set (starts := alt_starts 0 alts) in *.
  eapply ends_mono; [apply (ends_foldM _ (λ pre out, ∃ add, out = add_stacks new add ∧ (pre ≠ [] → add ≠ []) ∧
    Forall (ready_stack rules) add ∧ ∀ w, lang rules G add w ↔ ∃ k a i, k < length pre ∧ alts !! k = Some a ∧ starts !! k = Some i ∧
      gen G (a ++ concat sss) w))|].
  - exists []. split_and!; [done|done|done|]. intros w. split; [by intros ?%lang_nil|]. intros (k & ? & ? & Hk & _). simpl in Hk. lia.
  - intros pre i post out Hl (add & -> & _ & Hready & Hlang).
    assert (starts !! length pre = Some i) as Hi by (rewrite Hl, lookup_app_r, Nat.sub_diag by lia; done).
    destruct (lookup_lt_is_Some_2 alts (length pre)) as [a Ha].
    { rewrite <- (length_alt_starts 0). fold starts. rewrite Hl, length_app. simpl. lia. }
    pose proof (denotes_alternate rules G r alts (length pre) a i Henc Hr Ha Hi) as Hda.
    rewrite (push_elem_ok _ _ _ rest Hda).
    eapply ends_mono; [apply (Hall _ _ _ Ha Hi (add_stacks new add))|]. intros out (add2 & -> & Hne2 & Hready2 & Hlang2).
    exists (add ++ add2). split_and!; [by rewrite add_stacks_app|intros _ [_ ?]%app_eq_nil; done|by apply Forall_app|].
    intros w. rewrite lang_app, Hlang, <- Hlang2, (stack_lang_pushs a (r, i) rest sss w Hda Hs).
    rewrite length_app. cbn [length]. split.
    + intros [(k & a' & i' & Hk & H)|Hg]; [exists k, a', i'; split; [lia|done]|]. exists (length pre), a, i. split_and!; [lia|done..].
    + intros (k & a' & i' & Hk & Ha' & Hi' & Hg). destruct (decide (k = length pre)) as [->|].
      * right. by simplify_eq.
      * left. exists k, a', i'. split_and!; [lia|done..].
  - intros out (add & -> & Hne2 & Hready & Hlang). exists add. split; [done|]. split.
    { apply Hne2. unfold starts. by destruct alts. }
    split; [done|]. intros w. rewrite Hlang. split.
    + intros (a & [k Ha]%list_elem_of_lookup & Hg). destruct (lookup_lt_is_Some_2 starts k) as [i Hi].
      { unfold starts. rewrite length_alt_starts. by apply lookup_lt_Some in Ha. }
      exists k, a, i. split_and!; [by apply lookup_lt_Some in Hi|done..].
    + intros (k & a & i & _ & Ha & _ & Hg). exists a. split; [by apply list_elem_of_lookup; exists k|done].
Qed.

Lemma expandable_ref p rest r ss sss alts :
  denotes rules p (SRef r :: ss) → stack_denotes rules rest sss → G !! r = Some alts →
  (∀ k a i, alts !! k = Some a → alt_starts 0 alts !! k = Some i →
    expandable (pushs a (r, i) (pushs ss (ptr_add p 1) rest))) →
  expandable (p :: rest).
Proof.
  intros Hp Hs Hr Hall new. destruct (encodes_lookup rules G r alts Henc Hr) as [Hrule Hne].
  pose proof (denotes_next _ _ _ _ Hp) as Hnext. cbn [enc_sym length] in Hnext.
  destruct (push_denotes rules _ _ rest sss Hnext Hs) as (s' & Hs' & Es'). fold (pushs ss (ptr_add p 1) rest) in Hs'.
  eapply ends_step; [|eapply ends_mono; [by apply (alternates_ok r alts (pushs ss (ptr_add p 1) rest) s' new)|]].
  - intros n. cbn [advance_stack]. destruct (denotes_elem _ _ _ _ Hp) as [-> _]. rewrite bind_Ok. cbn [enc_sym hd e_type e_value].
    rewrite Nat2Z.id, (vget_ok _ _ _ Hrule), bind_Ok, for_alternates_ok by done.
    apply foldM_ext. intros s i _. by rewrite (push_elem_ok _ _ _ rest Hnext), bind_Ok.
  - intros out (add & -> & Hne2 & Hready & Hlang). exists add. split_and!; [done..|]. intros w.
    rewrite <- Hlang, (stack_lang_at rules G (p :: rest) ((SRef r :: ss) :: sss)) by by constructor.
    cbn [concat]. rewrite <- app_comm_cons, gen_ref_iff, Es'. naive_solver.
Qed.
End expansion.

Section termination.
Context (rules : llama_grammar_rules) (G : grammar) (N : nat → Prop).
Hypothesis Henc : encodes rules G.
Hypothesis Hclosed : nullable_closed G N.

Abbreviation expandable := (expandable rules G).

(** A sequence can be expanded on every stack, given that what is below it can
    be when the sequence generates the empty text. *)
Definition good_seq (ss : list sym) : Prop :=
  ∀ p rest sss, denotes rules p ss → stack_denotes rules rest sss →
    (Forall (nullable N) ss → expandable rest) → expandable (pushs ss p rest).

Definition good_rule (r : nat) : Prop := ∀ alts alt, G !! r = Some alts → alt ∈ alts → good_seq alt.

Lemma good_seq_ok ss : (∀ r, left_of N ss r → good_rule r) → good_seq ss.
Proof.
  induction ss as [|s ss IH]; intros Hleft p rest sss Hp Hs Hrest; [by apply Hrest|]. cbn [pushs].
  assert (stack_denotes rules (p :: rest) ((s :: ss) :: sss)) as Hall by by constructor.
  destruct (is_terminal s) eqn:Et; [by eapply expandable_terminal|].
  destruct s as [| |r|]; try done. destruct (denotes_ref_lt rules G p r ss Henc Hp) as [alts Hr].
  pose proof (denotes_next _ _ _ _ Hp) as Hnext. cbn [enc_sym length] in Hnext.
  eapply (expandable_ref rules G Henc p rest r ss sss alts); [done..|]. intros k a i Ha Hi.
  destruct (push_denotes rules _ _ rest sss Hnext Hs) as (s' & Hs' & _).
  eapply (Hleft r (left_of_head N r ss)); [done|by eapply list_elem_of_lookup_2|by eapply denotes_alternate|done|].
  intros Hnull. assert (N r) as HN by (eapply Hclosed; [done|by eapply list_elem_of_lookup_2|done]).
  eapply IH; [|done|done|].
  - intros r' Hr'. apply Hleft. by apply left_of_tail.
  - intros Hf. apply Hrest. by constructor.
Qed.

Lemma good_rule_ok r : not_left_recursive G N r → good_rule r.
Proof.
  intros H. induction H as [r _ IH]. intros alts alt Hr Ha. apply good_seq_ok. intros r' Hl. apply IH. by exists alts, alt.
Qed.

Hypothesis Hleft : ∀ r, r < length G → not_left_recursive G N r.

Lemma good_seq_all ss : Forall (ref_ok (length G)) ss → good_seq ss.
Proof.
  intros Hf. apply good_seq_ok. intros r (pre & post & -> & _). apply good_rule_ok, Hleft.
  apply Forall_app in Hf as [_ Hf]. by inversion_clear Hf.
Qed.

(** llama_grammar_advance_stack ends on every stack, with exactly the stacks at
    terminals that it can turn into. *)
Lemma expandable_all st sss : stack_denotes rules st sss → expandable st.
Proof.
  intros Hd. induction Hd as [|p ss st sss [Hp Hne] Hd IH]; [by apply (expandable_terminal rules G [] []); [constructor|]|].
  assert (good_seq ss) as Hg.
  { apply good_seq_all. destruct Hp as (? & ? & ? & _ & _ & _ & Hf). destruct Henc as [-> _]. by rewrite length_fmap in Hf. }
  pose proof (Hg p st sss Hp Hd (λ _, IH)) as H. by destruct ss.
Qed.

Lemma advance_ok st sss new : stack_denotes rules st sss →
  ends (λ n, advance_stack n rules st new) (expands rules G (λ w, gen G (concat sss) w) new).
Proof.
  intros Hd. eapply ends_mono; [by eapply expandable_all|]. intros out (add & E1 & E2 & E3 & E4). exists add.
  split_and!; [done..|]. intros w. by rewrite <- E4, stack_lang_at.
Qed.

(** ** Acceptance of a character *)

(** Stacks between two characters. *)
Definition ready (stacks : llama_grammar_stacks) : Prop := Forall (ready_stack rules) stacks.

(** [add] holds the stacks that a step adds to [new] for the texts [L]. *)
Definition steps (L : list terminal → Prop) (new out : llama_grammar_stacks) : Prop :=
  ∃ add, out = add_stacks new add ∧ ready add ∧ ∀ w, L w ↔ lang rules G add w.

Lemma expands_steps L new out : expands rules G L new out → steps L new out.
Proof. intros (add & ? & _ & ? & ?). by exists add. Qed.

Lemma steps_none L new : (∀ w, ¬ L w) → steps L new new.
Proof. intros H. exists []. split_and!; [done|constructor|]. intros w. split; [intros ?; by apply H in H0|by intros ?%lang_nil]. Qed.

Lemma steps_ext L L' new out : (∀ w, L w ↔ L' w) → steps L new out → steps L' new out.
Proof. intros H (add & ? & ? & E). exists add. split_and!; [done..|]. intros w. by rewrite <- H. Qed.

Lemma accept_chr_ok c new st : ready_stack rules st →
  ends (λ n, accept_chr n rules c new st) (steps (λ w, stack_lang rules G st (Chr c :: w)) new).
Proof.
  intros (sss & Hd & Ht). destruct Hd as [|p ss st sss [Hp Hne] Hd].
  { apply (ends_okP (Ok new)), steps_none. intros w. rewrite (stack_lang_at _ _ _ []) by constructor. intros H. inversion H. }
  destruct ss as [|s ss]; [done|]. cbn in Ht. unfold accept_chr.
  destruct (denotes_elem _ _ _ _ Hp) as [-> _]. cbn [mbind res_bind]. rewrite is_token_ok.
  assert (∀ w, stack_lang rules G (p :: st) (Chr c :: w) ↔ sym_char s c = true ∧ gen G (ss ++ concat sss) w) as HL.
  { intros w. rewrite (stack_lang_at _ _ _ ((s :: ss) :: sss)) by by constructor. cbn [concat app]. by apply gen_chr_iff. }
  destruct (is_char_sym s) eqn:Ec.
  - assert ((match s with STok _ _ => true | _ => false end) = false) as -> by by destruct s.
    rewrite (match_char_ok rules p s ss c Hp Ec). cbn [mbind res_bind]. cbn [fst snd].
    destruct (sym_char s c) eqn:Em.
    + pose proof (denotes_next _ _ _ _ Hp) as Hnext. rewrite (push_elem_ok _ _ _ st Hnext). cbn [mbind res_bind].
      destruct (push_denotes rules _ _ st sss Hnext Hd) as (s' & Hs' & Es').
      eapply ends_mono; [by apply (advance_ok _ s' new)|]. intros out Hx. apply expands_steps in Hx.
      eapply steps_ext; [|done]. intros w. cbn beta. rewrite HL, Es'. naive_solver.
    + apply (ends_okP (Ok new)), steps_none. intros w. rewrite HL. naive_solver.
  - destruct s; try done. apply (ends_okP (Ok new)), steps_none. intros w. rewrite HL. naive_solver.
Qed.

Lemma fold_steps (f : nat → llama_grammar_stacks → llama_grammar_stack → res llama_grammar_stacks)
    (L : llama_grammar_stack → list terminal → Prop) new stacks :
  (∀ st new, st ∈ stacks → ends (λ n, f n new st) (steps (L st) new)) →
  ends (λ n, foldM (f n) new stacks) (steps (λ w, ∃ st, st ∈ stacks ∧ L st w) new).
Proof.
  intros Hf. apply (ends_foldM f (λ pre, steps (λ w, ∃ st, st ∈ pre ∧ L st w) new)).
  - apply steps_none. set_solver.
  - intros pre st post s E (add & -> & H1 & H2). eapply ends_mono; [apply Hf; rewrite E; set_solver|].
    intros out (add2 & -> & H3 & H4). exists (add ++ add2). split; [by rewrite add_stacks_app|]. split; [by apply Forall_app|].
    intros w. rewrite lang_app, <- H2, <- H4. set_solver.
Qed.

(** The stacks after a character: exactly the rests of the texts that begin with it. *)
Definition next_stacks (c : Z) (stacks out : llama_grammar_stacks) : Prop :=
  ready out ∧ ∀ w, lang rules G out w ↔ lang rules G stacks (Chr c :: w).

Lemma ready_add_stacks new add : ready new → ready add → ready (add_stacks new add).
Proof. unfold ready. rewrite !Forall_forall. setoid_rewrite elem_of_add_stacks. naive_solver. Qed.

Lemma accept_ok stacks c : ready stacks → ends (λ n, accept n rules stacks c) (next_stacks c stacks).
Proof.
  intros Hr. eapply ends_mono.
  - apply (fold_steps (λ n, accept_chr n rules c) (λ st w, stack_lang rules G st (Chr c :: w)) [] stacks).
    intros st new Hst. apply accept_chr_ok. unfold ready in Hr. rewrite Forall_forall in Hr. auto.
  - intros out (add & -> & H1 & H2). split; [by apply ready_add_stacks; [constructor|]|]. intros w.
    rewrite lang_add_stacks, <- H2. unfold lang. split; [intros [(? & ? & _)|]; [set_solver|done]|auto].
Qed.

(** ** Acceptance of a text *)

Definition chars (cs : list Z) : list terminal := Chr <$> cs.

(** [out]: the rests of the texts of [stacks] that begin with [cs] *)
Definition after_chars (cs : list Z) (stacks out : llama_grammar_stacks) : Prop :=
  ready out ∧ ∀ w, lang rules G out w ↔ lang rules G stacks (chars cs ++ w).

Lemma accept_all_ok stacks cs : ready stacks → ends (λ n, foldM (accept n rules) stacks cs) (after_chars cs stacks).
Proof.
  intros Hr. apply (ends_foldM (λ n, accept n rules) (λ pre, after_chars pre stacks)); [done|].
  intros pre c post s _ [H1 H2]. eapply ends_mono; [by apply accept_ok|]. intros out [H3 H4]. split; [done|].
  intros w. rewrite H4, H2. unfold chars. by rewrite fmap_app, <- app_assoc.
Qed.

Lemma lang_none w : lang rules G [] w ↔ False.
Proof. split; [apply lang_nil|done]. Qed.

Lemma run_chars_ok stacks cs : ready stacks → ends (λ n, run_chars n rules stacks cs) (after_chars cs stacks).
Proof.
  revert stacks. induction cs as [|c cs IH]; intros stacks Hr; cbn [run_chars]; [by apply (ends_okP (Ok stacks))|].
  eapply ends_bind; [by apply accept_ok|]. intros next [H1 H2]. destruct (decide (next = [])) as [->|].
  - apply (ends_okP (Ok [])). split; [constructor|]. intros w. cbn. rewrite <- H2. by rewrite !lang_none.
  - eapply ends_mono; [by apply IH|]. intros out [H3 H4]. split; [done|]. intros w. by rewrite H4, H2.
Qed.

(** The next thing that the stack reads is a character. *)
Definition reads_char (st : llama_grammar_stack) : Prop :=
  ∃ p st', st = p :: st' ∧ ∃ s ss, denotes rules p (s :: ss) ∧ is_char_sym s = true.

(** the texts of [st] once a token has been read, as a whole or by its characters *)
Definition token_rest (id : Z) (cs : list Z) (st : llama_grammar_stack) (w : list terminal) : Prop :=
  stack_lang rules G st (Tok id :: w) ∨ (reads_char st ∧ stack_lang rules G st (chars cs ++ w)).

Lemma accept_token_stack_ok id cs new st : ready_stack rules st → ready new →
  ends (λ n, accept_token_stack n rules id cs new st) (steps (token_rest id cs st) new).
Proof.
  intros Hr Hnew. pose proof Hr as (sss & Hd & Ht). destruct Hd as [|p ss st sss [Hp Hne] Hd].
  { apply (ends_okP (Ok new)), steps_none. intros w [H|[(? & ? & ? & _) _]]; [|done].
    rewrite (stack_lang_at _ _ _ []) in H by constructor. inversion H. }
  destruct ss as [|s ss]; [done|]. cbn in Ht. unfold accept_token_stack.
  assert (∀ w, stack_lang rules G (p :: st) w ↔ gen G (s :: ss ++ concat sss) w) as HL.
  { intros w. by rewrite (stack_lang_at _ _ _ ((s :: ss) :: sss)) by by constructor. }
  assert (reads_char (p :: st) ↔ is_char_sym s = true) as Hrc.
  { split; [|intros; exists p, st; split; [done|]; by exists s, ss].
    intros (p' & st' & E & s' & ss' & Hp' & Hs'). simplify_eq. pose proof (denotes_inj _ _ _ _ Hp Hp'). by simplify_eq. }
  destruct (denotes_elem _ _ _ _ Hp) as [-> _]. cbn [mbind res_bind]. rewrite is_token_ok.
  destruct s as [neg i l| |r|neg t]; [| |done|].
  1,2: eapply ends_bind; [apply run_chars_ok; by constructor|]; intros cur [H1 H2]; apply (ends_okP (Ok _));
    exists cur; split; [done|]; split; [done|]; intros w; rewrite H2, lang_single; unfold token_rest;
    rewrite Hrc, HL, gen_tok_iff by done; naive_solver.
  rewrite match_token_ok. cbn [mbind res_bind]. destruct (sym_token (STok neg t) id) eqn:Em.
  - pose proof (denotes_next _ _ _ _ Hp) as Hnext. cbn [enc_sym length] in Hnext. rewrite (push_elem_ok _ _ _ st Hnext). cbn [mbind res_bind].
    destruct (push_denotes rules _ _ st sss Hnext Hd) as (s' & Hs' & Es').
    eapply ends_mono; [by apply (advance_ok _ s' new)|]. intros out Hx. apply expands_steps in Hx.
    eapply steps_ext; [|done]. intros w. cbn beta. unfold token_rest. rewrite HL, Hrc, gen_tok_iff, Es' by done. naive_solver.
  - apply (ends_okP (Ok new)), steps_none. intros w. unfold token_rest. rewrite Hrc, HL, gen_tok_iff by done. naive_solver.
Qed.

(** The texts left after a token. *)
Definition after_token (id : Z) (cs : list Z) (stacks out : llama_grammar_stacks) : Prop :=
  ready out ∧ ∀ w, lang rules G out w ↔ ∃ st, st ∈ stacks ∧ token_rest id cs st w.

Lemma accept_token_stacks_ok id cs stacks : ready stacks →
  ends (λ n, foldM (accept_token_stack n rules id cs) [] stacks) (after_token id cs stacks).
Proof.
  intros Hr. apply (ends_mono _ (λ out, steps (λ w, ∃ st, st ∈ stacks ∧ token_rest id cs st w) [] out ∧ ready out)).
  - apply (ends_foldM (λ n, accept_token_stack n rules id cs)
      (λ pre out, steps (λ w, ∃ st, st ∈ pre ∧ token_rest id cs st w) [] out ∧ ready out)).
    + split; [apply steps_none; set_solver|constructor].
    + intros pre st post s E [(add & -> & H1 & H2) H0]. unfold ready in Hr. rewrite Forall_forall in Hr.
      eapply ends_mono; [apply accept_token_stack_ok; [apply Hr; rewrite E; set_solver|done]|].
      intros out (add2 & -> & H3 & H4). split; [|by apply ready_add_stacks].
      exists (add ++ add2). split; [by rewrite add_stacks_app|]. split; [by apply Forall_app|].
      intros w. rewrite lang_app, <- H2, <- H4. set_solver.
  - intros out [(add & -> & H1 & H2) H0]. split; [done|]. intros w. rewrite lang_add_stacks, lang_none, H2. naive_solver.
Qed.

(** A ready stack generates the empty text exactly if it is empty. *)
Lemma ready_stack_nil st : ready_stack rules st → stack_lang rules G st [] ↔ st = [].
Proof.
  intros (sss & Hd & Ht). rewrite (stack_lang_at _ _ _ _ _ Hd). destruct Hd as [|p ss st sss [Hp Hne] Hd]; [split; [done|constructor]|].
  destruct ss as [|s ss]; [done|]. cbn in Ht |- *. split; [|done]. intros H. by apply gen_nil_iff in H.
Qed.

Lemma lang_nil_iff stacks : ready stacks → lang rules G stacks [] ↔ [] ∈ stacks.
Proof.
  intros Hr. unfold ready in Hr. rewrite Forall_forall in Hr. split.
  - intros (st & Hst & Hl). apply ready_stack_nil in Hl as ->; auto.
  - intros H. exists []. split; [done|]. by apply ready_stack_nil; [apply Hr|].
Qed.
End termination.

(** ** Left recursion, for the rules that generate the empty text *)

Definition generates_empty (G : grammar) (r : nat) : Prop := gen G [SRef r] [].

(** No rule reaches itself without reading anything. *)
Definition left_recursion_free (G : grammar) : Prop :=
  ∀ r, r < length G → not_left_recursive G (generates_empty G) r.

Lemma generates_empty_closed G : nullable_closed G (generates_empty G).
Proof.
  intros r alts alt Hr Ha Hf. apply gen_ref_iff. exists alts, alt. split_and!; [done|done|]. rewrite app_nil_r. clear Ha.
  induction Hf as [|s alt Hs Hf IH]; [constructor|]. destruct s as [| |r'|]; try done. by apply (gen_app G [SRef r'] alt [] []).
Qed.

Lemma left_of_mono (N N' : nat → Prop) ss r : (∀ r, N r → N' r) → left_of N ss r → left_of N' ss r.
Proof.
  intros H (pre & post & E & Hp). exists pre, post. split; [done|]. eapply Forall_impl; [done|]. intros [| |x|]; cbn; auto.
Qed.

Lemma not_left_recursive_mono G (N N' : nat → Prop) r : (∀ r, N r → N' r) → not_left_recursive G N' r → not_left_recursive G N r.
Proof.
  intros H Hr. induction Hr as [r _ IH]. constructor. intros r' (alts & alt & Ha & Hin & Hl). apply IH.
  exists alts, alt. split_and!; [done|done|by eapply left_of_mono].
Qed.

(** The least set closed under the rules. *)
Lemma generates_empty_least G (N : nat → Prop) r : nullable_closed G N → generates_empty G r → N r.
Proof.
  intros HN. assert (∀ ss w, gen G ss w → w = [] → Forall (nullable N) ss) as H.
  { intros ss w Hg. induction Hg as [| | |r' alts alt ss u v Hr Ha Hu IHu Hv IHv]; intros E; try done.
    apply app_eq_nil in E as [-> ->]. constructor; [|by apply IHv]. eapply HN; [done|done|by apply IHu]. }
  intros Hg. specialize (H _ _ Hg eq_refl). by inversion_clear H.
Qed.

(** ** Matching an incomplete character *)

Definition item_overlaps (low high : Z) (i : Z * option Z) : bool :=
  match i.2 with Some hi => bool_decide (i.1 ≤ high ∧ low ≤ hi)%Z | None => bool_decide (low ≤ i.1 ≤ high)%Z end.

(** what llama_grammar_match_partial_char returns for a symbol *)
Definition sym_partial (s : sym) (u : llama_partial_utf8) : bool :=
  if decide (pu_n_remain u < 0 ∨ (pu_n_remain u = 1 ∧ pu_value u < 2))%Z then false else
  match s with
  | SClass neg i l => xorb neg (existsb (item_overlaps (partial_range u).1 (partial_range u).2) (i :: l))
  | SAny => true
  | _ => false
  end.

Lemma match_partial_range pos low high e e1 e2 q : e_type e1 = GRETYPE_CHAR_RNG_UPPER →
  match_partial_loop pos low high (e :: e1 :: e2 :: q) =
    if decide (e_value e ≤ high ∧ low ≤ e_value e1)%Z then Ok pos
    else if decide (e_type e2 = GRETYPE_CHAR_ALT) then match_partial_loop pos low high (e2 :: q) else Ok (negb pos).
Proof. intros H. cbn [match_partial_loop]. by rewrite decide_True. Qed.

Lemma match_partial_single pos low high e e1 q : e_type e1 ≠ GRETYPE_CHAR_RNG_UPPER → e_type e ≠ GRETYPE_CHAR_ANY →
  match_partial_loop pos low high (e :: e1 :: q) =
    if decide (low ≤ e_value e ≤ high)%Z then Ok pos
    else if decide (e_type e1 = GRETYPE_CHAR_ALT) then match_partial_loop pos low high (e1 :: q) else Ok (negb pos).
Proof. intros H H2. cbn [match_partial_loop]. rewrite decide_False by done. by rewrite (decide_False (P := e_type e = _)). Qed.

Lemma match_partial_loop_ok pos low high t i l e r :
  t ≠ GRETYPE_CHAR_ANY → starts_item e = false →
  match_partial_loop pos low high (enc_item t i ++ concat (enc_item GRETYPE_CHAR_ALT <$> l) ++ e :: r)
  = Ok (if existsb (item_overlaps low high) (i :: l) then pos else negb pos).
Proof.
  intros Ht [He1 He2]%starts_item_false. revert t i Ht.
  induction l as [|j l IH]; intros t i Ht; rewrite fmap_nil || rewrite fmap_cons; cbn [concat app existsb].
  - rewrite orb_false_r. unfold item_overlaps. destruct i as [lo [hi|]]; cbn [enc_item fst snd app].
    + rewrite match_partial_range by done. rewrite (decide_False (P := e_type e = _)) by done. by case_bool_decide; [rewrite decide_True|rewrite decide_False].
    + rewrite match_partial_single by done. rewrite (decide_False (P := e_type e = _)) by done. by case_bool_decide; [rewrite decide_True|rewrite decide_False].
  - rewrite <- (app_assoc (enc_item GRETYPE_CHAR_ALT j)). specialize (IH GRETYPE_CHAR_ALT j).
    destruct (enc_item GRETYPE_CHAR_ALT j ++ concat (enc_item GRETYPE_CHAR_ALT <$> l) ++ e :: r) as [|a q] eqn:Eq; [by destruct j|].
    assert (e_type a = GRETYPE_CHAR_ALT) as Ha by (destruct j; cbn in Eq; by simplify_eq).
    destruct i as [lo [hi|]]; cbn [enc_item fst snd app].
    + rewrite match_partial_range by done. rewrite (decide_True (P := e_type a = _)) by done. rewrite IH by done.
      unfold item_overlaps at 2. cbn [fst snd e_value]. by case_bool_decide; [rewrite decide_True|rewrite decide_False].
    + rewrite match_partial_single by (done || congruence). rewrite (decide_True (P := e_type a = _)) by done. rewrite IH by done.
      unfold item_overlaps at 2. cbn [fst snd e_value]. by case_bool_decide; [rewrite decide_True|rewrite decide_False].
Qed.

Lemma match_partial_char_ok rules p s ss u : denotes rules p (s :: ss) → is_char_sym s = true →
  match_partial_char rules p u = Ok (sym_partial s u).
Proof.
  intros Hd Hs. pose proof (denotes_elem _ _ _ _ Hd) as [Hp _]. unfold elem_at in Hp. apply bind_Ok_inv in Hp as (r' & Hr & Hv).
  destruct Hd as (r & e & post & Hr2 & Hd & He & Hf). unfold match_partial_char. rewrite Hr, bind_Ok, Hv, bind_Ok.
  apply vget_inv in Hr. simplify_eq. rewrite Hd. unfold enc_seq. rewrite fmap_cons. cbn [concat]. rewrite <- app_assoc.
  fold (enc_seq ss). destruct (after_sym ss e post He) as (e' & l' & -> & He'). unfold sym_partial.
  rewrite ggml_assert_ok by (by destruct s as [[] [lo o] l| | |]). rewrite bind_Ok.
  destruct (decide (pu_n_remain u < 0 ∨ _)%Z); [done|]. destruct (partial_range u) as [low high]. cbn [fst snd].
  destruct s as [neg i l| | |]; try done.
  - cbn [enc_sym]. rewrite <- app_assoc, match_partial_loop_ok by (destruct neg || idtac; done). f_equal.
    destruct neg; cbn [hd enc_item app is_positive_char e_type]; by destruct (existsb _ _).
  - destruct (starts_item_false _ He') as [H1 H2]. cbn. by rewrite decide_False.
Qed.

(** ** What a pointer denotes is the rest of an alternate *)

Definition in_grammar (G : grammar) (s : sym) : Prop := ∃ alts alt, alts ∈ G ∧ alt ∈ alts ∧ s ∈ alt.

Lemma enc_sym_tail s : enc_sym s ≠ [] ∧ Forall (λ e, starts_item e = true) (tail (enc_sym s)).
Proof.
  assert (∀ l, Forall (λ e, starts_item e = true) (concat (enc_item GRETYPE_CHAR_ALT <$> l))) as Hl.
  { intros l. apply Forall_concat, Forall_fmap, Forall_true. intros [lo [hi|]]; by repeat constructor. }
  destruct s as [neg [lo [hi|]] l| | |neg id]; cbn; (split; [done|]); try constructor; try done; apply Hl.
Qed.

Lemma drop_enc_seq n alt e1 q1 k ss e post : is_end_of_sequence e1 = true → is_end_of_sequence e = true →
  Forall (ref_ok n) alt → Forall (ref_ok n) ss → drop k (enc_seq alt ++ e1 :: q1) = enc_seq ss ++ e :: post →
  (∃ pre, alt = pre ++ ss) ∨ ∃ k', drop k' q1 = enc_seq ss ++ e :: post.
Proof.
  intros He1 He Halt Hss. destruct (after_sym ss e post He) as (e' & l' & Hse & Hst).
  revert k. induction alt as [|s alt IH]; intros k Hd.
  - destruct k as [|k]; [|right; by exists k]. left. exists []. by eapply (enc_seq_inj [] ss e1 q1 e post He1 He Hd n).
  - inversion_clear Halt as [|? ? Hs Halt']. destruct k as [|k].
    { left. exists []. eapply (enc_seq_inj (s :: alt) ss e1 q1 e post He1 He Hd n); [by constructor|done]. }
    unfold enc_seq in Hd. rewrite fmap_cons in Hd. cbn [concat] in Hd. rewrite <- app_assoc in Hd. fold (enc_seq alt) in Hd. fold (enc_seq ss) in Hd.
    destruct (decide (S k < length (enc_sym s))) as [Hk|Hk].
    + exfalso. rewrite drop_app_le in Hd by lia. destruct (enc_sym_tail s) as [_ Ht].
      destruct (lookup_lt_is_Some_2 _ _ Hk) as [x Hx]. rewrite (drop_S _ _ _ Hx), Hse in Hd. injection Hd as -> _.
      rewrite <- lookup_tail in Hx. pose proof (Forall_lookup_1 _ _ _ _ Ht Hx) as H. cbn in H. congruence.
    + rewrite drop_app_ge in Hd by lia. destruct (IH Halt' _ Hd) as [[pre ->]|H]; [left; by exists (s :: pre)|by right].
Qed.

Lemma drop_enc_rule n alts k ss e post : is_end_of_sequence e = true → Forall (Forall (ref_ok n)) alts → Forall (ref_ok n) ss →
  drop k (enc_rule alts) = enc_seq ss ++ e :: post → ∃ pre alt, alt ∈ alts ∧ alt = pre ++ ss.
Proof.
  intros He Halts Hss. revert k. induction alts as [|a alts IH]; intros k Hd.
  { cbn [enc_rule] in Hd. rewrite drop_nil in Hd. by destruct (enc_seq ss). }
  inversion_clear Halts as [|? ? Ha Halts']. destruct alts as [|b alts].
  - destruct (drop_enc_seq n a (Elem GRETYPE_END 0) [] k ss e post eq_refl He Ha Hss Hd) as [[pre ->]|[k' Hk]]; [exists pre, (pre ++ ss); set_solver|].
    rewrite drop_nil in Hk. by destruct (enc_seq ss).
  - change (enc_rule (a :: b :: alts)) with (enc_seq a ++ Elem GRETYPE_ALT 0 :: enc_rule (b :: alts)) in Hd.
    destruct (drop_enc_seq n a (Elem GRETYPE_ALT 0) _ k ss e post eq_refl He Ha Hss Hd) as [[pre ->]|[k' Hk]]; [exists pre, (pre ++ ss); set_solver|].
    destruct (IH Halts' k' Hk) as (pre & alt & Hin & E). exists pre, alt. split; [by right|done].
Qed.

Lemma denotes_in_grammar rules G p ss : encodes rules G → denotes rules p ss → Forall (in_grammar G) ss.
Proof.
  intros [-> HG] (rule & e & post & Hr & Hd & He & Href). rewrite list_lookup_fmap in Hr.
  destruct (G !! p.1) as [alts|] eqn:Ha; [|done]. injection Hr as <-. rewrite length_fmap in Href.
  destruct (Forall_lookup_1 _ _ _ _ HG Ha) as [_ Halts].
  destruct (drop_enc_rule _ _ _ _ _ _ He Halts Href Hd) as (pre & alt & Hin & ->). apply Forall_forall. intros s Hs.
  exists alts, (pre ++ ss). split; [by eapply list_elem_of_lookup_2|]. split; [done|]. apply elem_of_app. by right.
Qed.

(** The code points that an incomplete sequence can be completed to, overlong
    encodings left out as in the code. *)
Definition completes (u : llama_partial_utf8) (c : Z) : Prop :=
  Z.shiftr c (6 * pu_n_remain u) = pu_value u ∧
  (pu_n_remain u = 2 → 2048 ≤ c)%Z ∧ (pu_n_remain u = 3 → 65536 ≤ c)%Z.

(** a sequence that can be completed within 32 bits *)
Definition partial_ok (u : llama_partial_utf8) : Prop :=
  (1 ≤ pu_n_remain u ≤ 3 ∧ 0 ≤ pu_value u ∧ pu_value u * 2 ^ (6 * pu_n_remain u) < 4294967296 ∧
   (pu_n_remain u = 1 → 2 ≤ pu_value u))%Z.

Lemma partial_range_ok u : partial_ok u →
  ((partial_range u).1 ≤ (partial_range u).2)%Z ∧
  ∀ c, completes u c ↔ ((partial_range u).1 ≤ c ≤ (partial_range u).2)%Z.
Proof.
  intros (Hn & Hv & Hb & H1). destruct u as [v n]. unfold partial_range, completes. cbn [pu_value pu_n_remain fst snd] in *.
  rewrite (Z.mul_comm n 6). set (k := (6 * n)%Z) in *. rewrite !Z.shiftl_mul_pow2 by lia. rewrite !Z.mul_1_l.
  pose proof (Z.pow_pos_nonneg 2 k ltac:(lia) ltac:(lia)) as Hp. unfold u32. rewrite (Z.mod_small (v * 2 ^ k)) by nia.
  assert (Z.lor (v * 2 ^ k) (2 ^ k - 1) = v * 2 ^ k + (2 ^ k - 1))%Z as ->.
  { rewrite <- Z.add_lor_land. replace (2 ^ k - 1)%Z with (Z.ones k) by (rewrite Z.ones_equiv; lia).
    rewrite Z.land_ones by lia. rewrite Z.mod_mul by lia. lia. }
  assert (∀ c, Z.shiftr c k = v ↔ (v * 2 ^ k ≤ c ≤ v * 2 ^ k + (2 ^ k - 1))%Z) as Hs.
  { intros c. rewrite Z.shiftr_div_pow2 by lia. pose proof (Z.div_mod c (2 ^ k) ltac:(lia)). pose proof (Z.mod_pos_bound c (2 ^ k) ltac:(lia)).
    split; [intros <-; lia|]. intros Hc. symmetry. apply (Z.div_unique _ _ _ (c - 2 ^ k * v)); lia. }
  setoid_rewrite Hs. assert (n = 1 ∨ n = 2 ∨ n = 3)%Z as [Hn1|[Hn1|Hn1] ] by lia; subst n;
    [change (2 ^ k)%Z with 64%Z in *|change (2 ^ k)%Z with 4096%Z in *|change (2 ^ k)%Z with 262144%Z in *];
    change (2 ^ 11)%Z with 2048%Z; change (2 ^ 16)%Z with 65536%Z; repeat case_decide; split; intros; lia.
Qed.

Definition item_ok (i : Z * option Z) : Prop := match i.2 with Some hi => (i.1 ≤ hi)%Z | None => True end.

(** no range of a class is reversed *)
Definition class_ok (s : sym) : Prop := match s with SClass _ i l => Forall item_ok (i :: l) | _ => True end.

Lemma item_overlaps_ok low high i : (low ≤ high)%Z → item_ok i →
  item_overlaps low high i = true ↔ ∃ c, (low ≤ c ≤ high)%Z ∧ in_item c i = true.
Proof.
  intros Hl Hi. unfold item_overlaps, in_item, item_ok in *. destruct i as [lo [hi|]]; cbn in *; rewrite bool_decide_eq_true.
  - setoid_rewrite bool_decide_eq_true. split; [|intros (c & ?); lia]. intros. exists (Z.max lo low). lia.
  - setoid_rewrite bool_decide_eq_true. split; [|intros (c & ? & ->); lia]. intros. by exists lo.
Qed.

Lemma existsb_overlaps low high l : (low ≤ high)%Z → Forall item_ok l →
  existsb (item_overlaps low high) l = true ↔ ∃ c, (low ≤ c ≤ high)%Z ∧ existsb (in_item c) l = true.
Proof.
  intros Hl Hf. setoid_rewrite existsb_exists. rewrite Forall_forall in Hf. split.
  - intros (i & Hi & H). apply item_overlaps_ok in H as (c & Hc & H); [by exists c; split; [|exists i]|done|by apply Hf, list_elem_of_In].
  - intros (c & Hc & i & Hi & H). exists i. split; [done|]. apply item_overlaps_ok; [done|by apply Hf, list_elem_of_In|by exists c].
Qed.

Definition negated (s : sym) : bool := match s with SClass neg _ _ => neg | _ => false end.

Lemma sym_partial_ok s u : is_char_sym s = true → class_ok s → partial_ok u →
  sym_partial s u = true ↔ (if negated s then ∀ c, completes u c → sym_char s c = true
                            else ∃ c, completes u c ∧ sym_char s c = true).
Proof.
  intros Hs Hc Hu. destruct (partial_range_ok u Hu) as [Hle Hr]. unfold sym_partial.
  rewrite decide_False by (destruct Hu as (? & ? & ? & ?); lia).
  destruct (partial_range u) as [low high]. cbn [fst snd] in *. destruct s as [neg i l| | |]; try done; cbn [negated]; [destruct neg|]; setoid_rewrite Hr.
  - pose proof (existsb_overlaps low high (i :: l) Hle Hc) as He. cbn [sym_char].
    setoid_rewrite xorb_true_l. setoid_rewrite negb_true_iff. rewrite <- not_true_iff_false, He. split.
    + intros Hn c Hcc. apply not_true_iff_false. intros H. apply Hn. by exists c.
    + intros H (c & Hcc & Hx). specialize (H c Hcc). congruence.
  - cbn [sym_char]. rewrite xorb_false_l, existsb_overlaps by done. by setoid_rewrite xorb_false_l.
  - split; [|done]. intros _. exists low. split; [lia|done].
Qed.

(** * Correctness of the matching *)

(** llama_grammar_match_partial_char on a class or [.] and a character of
    which 1 to 3 bytes are missing: for a class it says whether some completion of
    the character is in the class, for a negated class whether all of them are. *)
Theorem match_partial_char_correct rules p s ss u :
  denotes rules p (s :: ss) → is_char_sym s = true → class_ok s → partial_ok u →
  okP (match_partial_char rules p u) (λ b, b = true ↔
    if negated s then ∀ c, completes u c → sym_char s c = true else ∃ c, completes u c ∧ sym_char s c = true).
Proof. intros Hd Hs Hc Hu. rewrite (match_partial_char_ok _ _ _ _ _ Hd Hs). by apply sym_partial_ok. Qed.

(** [^é] after the first byte of U+00E8 *)
Lemma match_partial_char_correct_witness :
  let s := SClass true (233, None)%Z [] in let u := PartialUtf8 3 1 in
  okP (match_partial_char (enc_rule <$> [[[s]]]) (0, 0) u) (λ b, b = true ↔ ∀ c, completes u c → sym_char s c = true).
Proof.
  apply (match_partial_char_correct (enc_rule <$> [[[SClass true (233, None) []]]])%Z (0, 0) (SClass true (233, None) [])%Z [] (PartialUtf8 3 1)).
  - eexists _, _, _. split; [reflexivity|]. split; [reflexivity|]. split; [done|]. by repeat constructor.
  - done.
  - by repeat constructor.
  - unfold partial_ok. cbn. lia.
Defined.
