(* ===== verification/GrammarInit.v ===== *)
(** The construction of a grammar from its rules: the check for left recursion
    and the initial stacks (llama_grammar_detect_left_recursion and
    llama_grammar_init_impl of src/llama-grammar.cpp). *)
From stdpp Require Import relations.
From S2P Require Import Prelude Utf8 Grammar.

(** rules_visited, rules_in_progress and rules_may_be_empty *)
Record lr_state := LrState { rules_visited : list bool; rules_in_progress : list bool; rules_may_be_empty : list bool }.

(** First step: does the rule have an empty alternate? *)
Fixpoint may_be_empty_loop (at_rule_start : bool) (rule : llama_grammar_rule) : bool :=
  match rule with
  | [] => false
  | e :: rule =>
      if is_end_of_sequence e then if at_rule_start then true else may_be_empty_loop true rule
      else may_be_empty_loop false rule
  end.

(** Second step: recurse into the leftmost nonterminals. *)
Fixpoint lr_loop (detect : nat → lr_state → res (bool * lr_state)) (rule : llama_grammar_rule)
    (recurse_into_nonterminal : bool) (s : lr_state) : res (bool * lr_state) :=
  match rule with
  | [] => Ok (false, s)
  | e :: rule =>
      if bool_decide (e_type e = GRETYPE_RULE_REF) && recurse_into_nonterminal then
        '(found, s) ← detect (Z.to_nat (e_value e)) s;
        if found : bool then Ok (true, s) else
        m ← vget (rules_may_be_empty s) (Z.to_nat (e_value e));
        lr_loop detect rule m s
      else lr_loop detect rule (is_end_of_sequence e) s
  end.

(** llama_grammar_detect_left_recursion; a call is nested at most once for each rule *)
Fixpoint detect_left_recursion (fuel : nat) (rules : llama_grammar_rules) (rule_index : nat) (s : lr_state) : res (bool * lr_state) :=
  match fuel with
  | 0 => Err OutOfFuel
  | S fuel =>
      p ← vget (rules_in_progress s) rule_index;
      if p : bool then Ok (true, s) else
      progress ← vset (rules_in_progress s) rule_index true;
      rule ← vget rules rule_index;
      empty ← (if may_be_empty_loop true rule then vset (rules_may_be_empty s) rule_index true else Ok (rules_may_be_empty s));
      '(found, s) ← lr_loop (detect_left_recursion fuel rules) rule true (LrState (rules_visited s) progress empty);
      if found : bool then Ok (true, s) else
      progress ← vset (rules_in_progress s) rule_index false;
      visited ← vset (rules_visited s) rule_index true;
      Ok (false, LrState visited progress (rules_may_be_empty s))
  end.

(** llama_grammar_init_impl: copy rule definitions into vectors *)
Fixpoint copy_rule (pos : list llama_grammar_element) : res llama_grammar_rule :=
  match pos with
  | [] => Err OutOfRange
  | e :: pos =>
      if decide (e_type e = GRETYPE_END) then Ok [Elem GRETYPE_END 0]
      else r ← copy_rule pos; Ok (e :: r)
  end.

(** Check for left recursion: the loop over the rules *)
Fixpoint check_rules (rules : llama_grammar_rules) (idxs : list nat) (s : lr_state) : res bool :=
  match idxs with
  | [] => Ok false
  | i :: idxs =>
      v ← vget (rules_visited s) i;
      if v : bool then check_rules rules idxs s else
      '(found, s) ← detect_left_recursion (S (length rules)) rules i s;
      if found : bool then Ok true else check_rules rules idxs s
  end.

Definition left_recursive (rules : llama_grammar_rules) : res bool :=
  let n := length rules in
  check_rules rules (seq 0 n) (LrState (replicate n false) (replicate n false) (replicate n false)).

(** loop over alternates of start rule to build initial stacks *)
Definition initial_stacks (fuel : nat) (rules : llama_grammar_rules) (start_rule_index : nat) : res llama_grammar_stacks :=
  rule ← vget rules start_rule_index;
  for_alternates (λ pos stacks,
    stack ← push_elem rules (start_rule_index, pos) [];
    advance_stack fuel rules stack stacks) true 0 rule [].

(** llama_grammar_init_impl(vocab, rules, n_rules, start_rule_index); [None] is nullptr *)
Definition init_impl (fuel : nat) (rules : list (list llama_grammar_element)) (start_rule_index : nat) :
    res (option (llama_grammar_rules * llama_grammar_stacks)) :=
  vec_rules ← mapM_res copy_rule rules;
  b ← left_recursive vec_rules;
  if b : bool then Ok None else
  stacks ← initial_stacks fuel vec_rules start_rule_index;
  Ok (Some (vec_rules, stacks)).

(** ** A grammar that the check misses

    root ::= a root "x" | "y"    a ::= b    b ::= ""   *)
Definition hidden_grammar : grammar :=
  [[[SRef 1; SRef 0; SClass false (120, None) []]; [SClass false (121, None) []]]; [[SRef 2]]; [[]]]%Z.

Example hidden_checked : left_recursive (enc_rule <$> hidden_grammar) = Ok false.
Proof. reflexivity. Qed.

(** root ::= root "x" | "y" is found. *)
Example direct_checked : left_recursive (enc_rule <$> [[[SRef 0; SClass false (120, None) []]; [SClass false (121, None) []]]])%Z = Ok true.
Proof. reflexivity. Qed.

(** ** The search for left recursion *)

Lemma enc_sym_no_end s : Forall (λ e, is_end_of_sequence e = false) (enc_sym s).
Proof.
  destruct s as [[] [lo o] l| | |[] id]; try (by repeat constructor);
    (apply Forall_app; split; [destruct o; by repeat constructor|]; apply Forall_concat, Forall_fmap, Forall_true; intros [lo' []]; by repeat constructor).
Qed.

Lemma may_be_empty_skip l r b : Forall (λ e, is_end_of_sequence e = false) l → l ≠ [] →
  may_be_empty_loop b (l ++ r) = may_be_empty_loop false r.
Proof.
  intros H. revert b. induction H as [|e l He Hl IH]; intros b Hne; [done|]. cbn [app may_be_empty_loop]. rewrite He.
  destruct l as [|e' l]; [done|by apply IH].
Qed.

Lemma enc_seq_no_end ss : Forall (λ e, is_end_of_sequence e = false) (enc_seq ss).
Proof. unfold enc_seq. apply Forall_concat, Forall_fmap, Forall_true. exact enc_sym_no_end. Qed.

Lemma may_be_empty_ok alts : may_be_empty_loop true (enc_rule alts) = bool_decide ([] ∈ alts).
Proof.
  induction alts as [|a alts IH]; [done|].
  assert (∀ e r, is_end_of_sequence e = true → may_be_empty_loop true (enc_seq a ++ e :: r) =
    bool_decide (a = []) || may_be_empty_loop true r) as Ha.
  { intros e r He. destruct a as [|s a]; [cbn; by rewrite He|]. rewrite (bool_decide_false (s :: a = [])) by done.
    rewrite may_be_empty_skip; [cbn; by rewrite He|apply enc_seq_no_end|by destruct s as [[] [lo o] l| | |[] id]]. }
  destruct alts as [|b alts]; [cbn [enc_rule]; rewrite Ha by done|
    change (enc_rule (a :: b :: alts)) with (enc_seq a ++ Elem GRETYPE_ALT 0 :: enc_rule (b :: alts)); rewrite Ha, IH by done];
    destruct (decide (a = [])) as [->|]; cbn.
  - by rewrite bool_decide_true by set_solver.
  - rewrite !bool_decide_false by set_solver. done.
  - rewrite !bool_decide_true by set_solver. done.
  - rewrite (bool_decide_false (a = [])) by done. apply bool_decide_ext. set_solver.
Qed.

Section detection.
Context (rules : llama_grammar_rules) (G : grammar).
Hypothesis Henc : encodes rules G.

(** [r] has an empty alternate: what rules_may_be_empty records *)
Definition directly_empty (r : nat) : Prop := ∃ alts, G !! r = Some alts ∧ [] ∈ alts.

Abbreviation left := (left_ref G directly_empty).
Abbreviation finite := (not_left_recursive G directly_empty).

Definition flag (l : list bool) (r : nat) : Prop := l !! r = Some true.

Record lr_ok (s : lr_state) : Prop := {
  ok_len1 : length (rules_visited s) = length rules;
  ok_len2 : length (rules_in_progress s) = length rules;
  ok_len3 : length (rules_may_be_empty s) = length rules;
  ok_empty : ∀ r, flag (rules_may_be_empty s) r → directly_empty r;
  ok_visited : ∀ r, flag (rules_visited s) r → finite r
}.

(** What a search that found nothing has shown of [r]. *)
Definition cleared (s : lr_state) (r : nat) : Prop :=
  finite r ∧ (directly_empty r → flag (rules_may_be_empty s) r).

(** The search went on: nothing that was known is forgotten. *)
Definition goes_on (s s' : lr_state) : Prop :=
  lr_ok s' ∧ rules_in_progress s' = rules_in_progress s ∧
  ∀ r, flag (rules_may_be_empty s) r → flag (rules_may_be_empty s') r.

(** What it found: a way back to a rule in progress, or a cycle. *)
Definition finds (progress : list bool) (r : nat) : Prop :=
  (∃ x, flag progress x ∧ rtc left r x) ∨ ∃ x, tc left x x.

Definition detect_post (s : lr_state) (r : nat) (o : bool * lr_state) : Prop :=
  if o.1 then finds (rules_in_progress s) r else goes_on s o.2 ∧ cleared o.2 r.

Lemma goes_on_trans s1 s2 s3 : goes_on s1 s2 → goes_on s2 s3 → goes_on s1 s3.
Proof. intros (H1 & H2 & H3) (H4 & H5 & H6). split_and!; [done|by rewrite H5|auto]. Qed.

Lemma flag_or s r : lr_ok s → r < length rules → ∃ b, rules_may_be_empty s !! r = Some b.
Proof. intros Hs Hr. apply lookup_lt_is_Some. by rewrite (ok_len3 _ Hs). Qed.

(** ** The second step of the search *)

Section loop.
Context (detect : nat → lr_state → res (bool * lr_state)) (s0 : lr_state).
Hypothesis Hdetect : ∀ r s, r < length rules → goes_on s0 s → okP (detect r s) (detect_post s r).

(** The end of a sequence reached by the loop, or a left reference that leads to a rule in progress. *)
Definition loop_post (found : Prop) (k : lr_state → Prop) (o : bool * lr_state) : Prop :=
  if o.1 then found else k o.2.

Lemma lr_loop_skip l rest s P : Forall (λ e, is_end_of_sequence e = false) l →
  okP (lr_loop detect rest false s) P → okP (lr_loop detect (l ++ rest) false s) P.
Proof.
  induction 1 as [|e l He Hl IH]; intros H; [done|]. cbn [app lr_loop]. rewrite andb_false_r, He. auto.
Qed.

Lemma lr_loop_seq ss e rest s (P : bool * lr_state → Prop) :
  is_end_of_sequence e = true → Forall (ref_ok (length rules)) ss → goes_on s0 s →
  (∀ s', goes_on s0 s' → (∀ r, left_of directly_empty ss r → finite r) → okP (lr_loop detect rest true s') P) →
  (∀ s' r, left_of directly_empty ss r → finds (rules_in_progress s0) r → P (true, s')) →
  okP (lr_loop detect (enc_seq ss ++ e :: rest) true s) P.
Proof.
  intros He Hf Hs Hgo Hfound.
  assert (∀ s b, goes_on s0 s → (∀ r, left_of directly_empty ss r → finite r) →
    okP (lr_loop detect (e :: rest) b s) P) as Hend.
  { intros s' b Hs' Hleft. cbn [lr_loop]. rewrite bool_decide_false by (unfold is_end_of_sequence in He; intros E; by rewrite E in He).
    cbn [andb]. rewrite He. auto. }
  clear Hgo. revert s Hs Hend Hfound. induction ss as [|x ss IH]; intros s Hs Hend Hfound.
  { cbn [enc_seq app]. apply Hend; [done|]. intros r (pre & post & E & _). by destruct pre. }
  inversion_clear Hf as [|? ? Hx Hf']. unfold enc_seq. rewrite fmap_cons. cbn [concat]. rewrite <- app_assoc. fold (enc_seq ss).
  destruct (is_terminal x) eqn:Et.
  - assert (∀ r, ¬ left_of directly_empty (x :: ss) r) as Hno.
    { intros r ([|y pre] & post & E & Hp); simplify_eq/=. inversion_clear Hp as [|? ? Hn _]. by destruct y. }
    pose proof (enc_sym_no_end x) as Hne. destruct (enc_sym x) as [|y l] eqn:Ex; [by destruct x as [[] [] ?| | |]|].
    inversion_clear Hne as [|? ? Hy Hl]. cbn [app lr_loop].
    rewrite (bool_decide_false (e_type y = _)) by (destruct x as [[] [] ?| | |[] ?]; cbn in Ex; simplify_eq; done).
    cbn [andb]. rewrite Hy. apply lr_loop_skip; [done|]. apply lr_loop_skip; [apply enc_seq_no_end|].
    apply Hend; [done|]. intros r Hr. by destruct (Hno r).
  - destruct x as [| |r|]; try done. cbn [enc_sym app lr_loop e_type e_value]. rewrite bool_decide_true by done. cbn [andb].
    rewrite Nat2Z.id. eapply okP_bind; [by apply Hdetect|]. intros [[] s'] Hpost; cbn [detect_post fst snd] in Hpost; cbn beta iota.
    + cbn [okP]. apply (Hfound s' r); [apply left_of_head|]. unfold detect_post in Hpost. cbn in Hpost. by destruct Hs as (_ & <- & _).
    + destruct Hpost as [Hg [Hfin Hemp]]. cbn [snd] in *. pose proof (goes_on_trans _ _ _ Hs Hg) as Hg0.
      destruct (flag_or s' r) as [m Hm]; [apply Hg|done|]. rewrite (vget_ok _ _ _ Hm), bind_Ok. destruct m.
      * assert (directly_empty r) as Hd by by eapply ok_empty; [apply Hg|].
        apply IH; [done|done| |].
        -- intros s'' b Hs'' Hleft. apply Hend; [done|]. intros r' ([|y pre] & post & E & Hp); simplify_eq/=; [done|].
           inversion_clear Hp. apply Hleft. by exists pre, post.
        -- intros s'' r' Hl. apply Hfound. by apply left_of_tail.
      * apply lr_loop_skip; [apply enc_seq_no_end|]. apply Hend; [done|].
        intros r' ([|y pre] & post & E & Hp); simplify_eq/=; [done|]. inversion_clear Hp as [|? ? Hn _].
        cbn in Hn. apply Hemp in Hn. unfold flag in Hn. congruence.
Qed.

Lemma lr_loop_rule alts s (P : bool * lr_state → Prop) : alts ≠ [] →
  Forall (Forall (ref_ok (length rules))) alts → goes_on s0 s →
  (∀ s', goes_on s0 s' → (∀ alt r, alt ∈ alts → left_of directly_empty alt r → finite r) → P (false, s')) →
  (∀ s' alt r, alt ∈ alts → left_of directly_empty alt r → finds (rules_in_progress s0) r → P (true, s')) →
  okP (lr_loop detect (enc_rule alts) true s) P.
Proof.
  revert s. induction alts as [|a alts IH]; intros s Hne Hf Hs Hgo Hfound; [done|]. inversion_clear Hf as [|? ? Ha Hf'].
  destruct alts as [|b alts].
  - cbn [enc_rule]. apply lr_loop_seq; [done|done|done| |].
    + intros s' Hs' Hl. cbn [lr_loop okP]. apply Hgo; [done|]. intros alt r ->%list_elem_of_singleton. auto.
    + intros s' r Hl. apply (Hfound s' a r); [by left|done].
  - change (enc_rule (a :: b :: alts)) with (enc_seq a ++ Elem GRETYPE_ALT 0 :: enc_rule (b :: alts)).
    apply lr_loop_seq; [done|done|done| |].
    + intros s' Hs' Hl. apply IH; [done|done|done| |].
      * intros s'' Hs'' Hl'. apply Hgo; [done|]. intros alt r [->|Hin]%elem_of_cons; eauto.
      * intros s'' alt r Hin. apply Hfound. by right.
    + intros s' r Hl. apply (Hfound s' a r); [by left|done].
Qed.
End loop.

(** Each nested call has one more rule in progress. *)
Definition not_in_progress (s : lr_state) : nat := length (filter (λ b, b = false) (rules_in_progress s)).

Lemma filter_insert_false (l : list bool) i : l !! i = Some false →
  length (filter (λ b, b = false) l) = S (length (filter (λ b, b = false) (<[i := true]> l))).
Proof.
  revert i. induction l as [|b l IH]; intros [|i] H; [done|done|cbn in H; injection H as ->|cbn in H].
  - change (<[0 := true]> (false :: l)) with (true :: l). rewrite filter_cons_True by done. by rewrite filter_cons_False by done.
  - specialize (IH _ H). change (<[S i := true]> (b :: l)) with (b :: <[i := true]> l). rewrite !filter_cons. destruct (decide (b = false)); cbn [length]; lia.
Qed.

Lemma detect_ok fuel r s : r < length rules → lr_ok s → not_in_progress s < fuel →
  okP (detect_left_recursion fuel rules r s) (detect_post s r).
Proof.
  revert r s. induction fuel as [|fuel IH]; intros r s Hr Hs Hfuel; [lia|]. cbn [detect_left_recursion].
  destruct (lookup_lt_is_Some_2 (rules_in_progress s) r) as [p Hp]; [by rewrite (ok_len2 _ Hs)|].
  rewrite (vget_ok _ _ _ Hp), bind_Ok. destruct p.
  { left. by exists r. }
  rewrite (vset_ok (rules_in_progress s)) by (by rewrite (ok_len2 _ Hs)). rewrite bind_Ok.
  assert (is_Some (G !! r)) as [alts Halts] by (apply lookup_lt_is_Some; destruct Henc as [E _]; by rewrite E, length_fmap in Hr).
  destruct (encodes_lookup rules G r alts Henc Halts) as [Hrule Hne]. rewrite (vget_ok _ _ _ Hrule), bind_Ok, may_be_empty_ok.
  destruct Henc as [E HG]. pose proof (Forall_lookup_1 _ _ _ _ HG Halts) as [_ Hrefs].
  replace (length G) with (length rules) in Hrefs by (by rewrite E, length_fmap). clear E HG.
  assert (directly_empty r ↔ [] ∈ alts) as Hde.
  { unfold directly_empty. split; [intros (? & ? & ?); by simplify_eq|by exists alts]. }
  set (empty := if bool_decide ([] ∈ alts) then <[r := true]> (rules_may_be_empty s) else rules_may_be_empty s).
  assert ((if bool_decide ([] ∈ alts) then vset (rules_may_be_empty s) r true else Ok (rules_may_be_empty s)) = Ok empty) as ->.
  { unfold empty. case_bool_decide; [|done]. apply vset_ok. by rewrite (ok_len3 _ Hs). }
  rewrite bind_Ok. set (s0 := LrState (rules_visited s) (<[r := true]> (rules_in_progress s)) empty).
  assert (∀ x, flag empty x ↔ flag (rules_may_be_empty s) x ∨ (x = r ∧ [] ∈ alts)) as Hempty.
  { intros x. unfold empty, flag. case_bool_decide; [|naive_solver]. destruct (decide (x = r)) as [->|].
    - rewrite list_lookup_insert_eq by (by rewrite (ok_len3 _ Hs)). naive_solver.
    - rewrite list_lookup_insert_ne by done. naive_solver. }
  assert (lr_ok s0) as Hs0.
  { constructor; cbn; rewrite ?length_insert; try apply Hs.
    - unfold empty. case_bool_decide; rewrite ?length_insert; apply Hs.
    - intros x [Hx|[-> Hx]]%Hempty; [by apply (ok_empty _ Hs)|by apply Hde]. }
  eapply okP_bind.
  - apply (lr_loop_rule _ s0 (λ r' s' Hr' Hg, IH r' s' Hr' (proj1 Hg) ltac:(
      unfold not_in_progress in *; destruct Hg as (_ & -> & _); cbn; pose proof (filter_insert_false _ _ Hp); lia)) alts s0
      (λ o, if o.1 then finds (rules_in_progress s) r else goes_on s0 o.2 ∧ finite r)); [done|done|by split_and!|..].
    + intros s' Hg Hl. cbn. split; [done|]. constructor. intros r' (alts' & alt & Ha' & Hin & Hlo). simplify_eq. by eapply Hl.
    + intros s' alt r' Hin Hlo Hf. cbn in Hf |- *. assert (left r r') as Hrr' by by exists alts, alt.
      destruct Hf as [(x & Hx & Hrt)|]; [|by right]. destruct (decide (x = r)) as [->|].
      * right. exists r. eapply tc_rtc_r; [by apply tc_once|done].
      * left. exists x. split; [unfold flag in *; by rewrite list_lookup_insert_ne in Hx|]. by eapply rtc_l.
  - intros [[] s'] Hpost; cbn [fst snd] in Hpost; cbn beta iota; [done|]. destruct Hpost as [(Hs' & Hpr & Hmono) Hfin].
    rewrite (vset_ok (rules_in_progress s')) by (by rewrite (ok_len2 _ Hs')). rewrite bind_Ok.
    rewrite (vset_ok (rules_visited s')) by (by rewrite (ok_len1 _ Hs')). rewrite bind_Ok. unfold detect_post. cbn [okP fst snd].
    split; [split_and!|].
    + constructor; cbn; rewrite ?length_insert; try apply Hs'. intros x Hx. destruct (decide (x = r)) as [->|]; [done|].
      unfold flag in Hx. rewrite list_lookup_insert_ne in Hx by done. by apply (ok_visited _ Hs').
    + cbn. rewrite Hpr. cbn. rewrite list_insert_insert_eq. by apply list_insert_id.
    + cbn. intros x Hx. apply Hmono. cbn. apply Hempty. by left.
    + split; [done|]. intros Hd. cbn. apply Hmono, Hempty. right. split; [done|]. by apply Hde.
Qed.

(** ** The check of all rules *)

Definition acyclic : Prop := ∀ r, r < length G → finite r.

Lemma check_rules_ok idxs s : lr_ok s → (∀ x, ¬ flag (rules_in_progress s) x) → Forall (λ i, i < length rules) idxs →
  okP (check_rules rules idxs s) (λ b, if b then ∃ x, tc left x x else ∀ i, i ∈ idxs → finite i).
Proof.
  revert s. induction idxs as [|i idxs IH]; intros s Hs Hp Hf; [cbn; set_solver|]. inversion_clear Hf as [|? ? Hi Hf'].
  cbn [check_rules]. destruct (lookup_lt_is_Some_2 (rules_visited s) i) as [v Hv]; [by rewrite (ok_len1 _ Hs)|].
  rewrite (vget_ok _ _ _ Hv), bind_Ok. destruct v.
  - eapply okP_mono; [by apply IH|]. intros [] H; [done|]. intros j [->|Hj]%elem_of_cons; [|auto]. by apply (ok_visited _ Hs).
  - eapply okP_bind; [apply detect_ok; [done|done|]|].
    { unfold not_in_progress. pose proof (length_filter (λ b, b = false) (rules_in_progress s)). rewrite (ok_len2 _ Hs) in *. lia. }
    intros [[] s'] Hpost; unfold detect_post in Hpost; cbn [fst snd] in Hpost; cbn beta iota.
    + destruct Hpost as [(x & Hx & _)|H]; [by destruct (Hp x)|done].
    + destruct Hpost as [(Hs' & Hpr & _) [Hfin _]]. eapply okP_mono; [apply IH; [done|by rewrite Hpr|done]|].
      intros [] H; [done|]. intros j [->|Hj]%elem_of_cons; auto.
Qed.

Lemma left_recursive_ok : okP (left_recursive rules) (λ b, if b then ∃ x, tc left x x else acyclic).
Proof.
  unfold left_recursive. eapply okP_mono.
  - apply check_rules_ok.
    + assert (∀ r, ¬ flag (replicate (length rules) false) r) as Hno by (intros r [? _]%lookup_replicate; done).
      constructor; cbn [rules_visited rules_in_progress rules_may_be_empty]; [apply length_replicate..| |];
        intros r Hr; by destruct (Hno r).
    + cbn. intros x [? _]%lookup_replicate. done.
    + apply Forall_seq. lia.
  - intros [] H; [done|]. intros r Hr. apply H, elem_of_seq. destruct Henc as [E _]. rewrite E, length_fmap. lia.
Qed.

(** A cycle and the absence of infinite chains exclude each other. *)
Lemma cyclic_not_acyclic x : tc left x x → ¬ finite x.
Proof.
  intros Hc Hf. induction Hf as [x _ IH]. inversion Hc as [? ? H|? y ? H H']; subst.
  - by apply (IH x).
  - apply (IH y H). by eapply tc_r.
Qed.

(** ** The initial stacks *)

Lemma initial_stacks_ok start : left_recursion_free G → start < length rules →
  ends (λ n, initial_stacks n rules start)
    (λ stacks, stacks ≠ [] ∧ ready rules stacks ∧ ∀ w, lang rules G stacks w ↔ gen G [SRef start] w).
Proof.
  intros Hleft Hstart.
  assert (is_Some (G !! start)) as [alts Halts] by (apply lookup_lt_is_Some; destruct Henc as [E _]; by rewrite E, length_fmap in Hstart).
  destruct (encodes_lookup rules G start alts Henc Halts) as [Hrule Hne]. unfold initial_stacks.
  rewrite (vget_ok _ _ _ Hrule). cbn [mbind res_bind].
  apply (ends_ext (λ n, foldM (λ s i, push_elem rules (start, i) [] ≫= λ st, advance_stack n rules st s) [] (alt_starts 0 alts))).
  { intros n. by rewrite for_alternates_ok. }
  eapply ends_mono; [apply (alternates_ok rules G Henc start alts [] [] []); [done|constructor|]|].
  - intros k a i Ha Hi. pose proof (denotes_alternate rules G start alts k a i Henc Halts Ha Hi) as Hd.
    destruct a as [|s a].
    + apply (expandable_all rules G (generates_empty G) Henc (generates_empty_closed G) Hleft [] []). constructor.
    + apply (expandable_all rules G (generates_empty G) Henc (generates_empty_closed G) Hleft [(start, i)] [s :: a]). by repeat constructor.
  - intros out (add & -> & Hadd & Hready & Hlang). split; [by apply add_stacks_ne|].
    split; [apply ready_add_stacks; [constructor|done]|]. intros w. rewrite lang_add_stacks, lang_none, <- Hlang.
    rewrite gen_ref_iff. cbn [concat]. split; [naive_solver|]. intros (alts' & a & Ha & Hin & Hg). simplify_eq. right. by exists a.
Qed.

Lemma copy_rule_app l rest : Forall (λ e, e_type e ≠ GRETYPE_END) l → copy_rule (l ++ rest) = r ← copy_rule rest; Ok (l ++ r).
Proof.
  induction 1 as [|e l He Hl IH]; [cbn [app]; by destruct (copy_rule rest)|]. cbn [app copy_rule]. rewrite decide_False by done.
  rewrite IH. by destruct (copy_rule rest).
Qed.

Lemma copy_rule_ok alts : alts ≠ [] → copy_rule (enc_rule alts) = Ok (enc_rule alts).
Proof.
  assert (∀ a, Forall (λ e, e_type e ≠ GRETYPE_END) (enc_seq a)) as Ha.
  { intros a. eapply Forall_impl; [apply enc_seq_no_end|]. intros e He E. unfold is_end_of_sequence in He. by rewrite E in He. }
  induction alts as [|a alts IH]; intros Hne; [done|]. destruct alts as [|b alts].
  - cbn [enc_rule]. by rewrite copy_rule_app.
  - change (enc_rule (a :: b :: alts)) with (enc_seq a ++ Elem GRETYPE_ALT 0 :: enc_rule (b :: alts)).
    rewrite copy_rule_app by done. cbn [copy_rule e_type]. rewrite decide_False by done. by rewrite IH.
Qed.

Lemma copy_rules_ok : mapM_res copy_rule rules = Ok rules.
Proof.
  destruct Henc as [E HG]. rewrite (mapM_res_ok _ id); [by rewrite list_fmap_id|]. intros r Hr. rewrite E in Hr.
  apply list_elem_of_fmap in Hr as (alts & -> & Hin). rewrite Forall_forall in HG. apply copy_rule_ok. by apply HG.
Qed.

Lemma directly_empty_generates r : directly_empty r → generates_empty G r.
Proof. intros (alts & Hr & Ha). apply gen_ref_iff. exists alts, []. split_and!; [done|done|constructor]. Qed.

(** Every rule that generates the empty text has an empty alternate. *)
Definition empty_is_direct : Prop := ∀ r, generates_empty G r → directly_empty r.

(** The check accepts every grammar without left recursion, and it finds the
    left recursion of a grammar in which [empty_is_direct] holds. *)
Lemma left_recursive_free : left_recursion_free G → left_recursive rules = Ok false.
Proof.
  intros Hfree. pose proof left_recursive_ok as H. destruct (left_recursive rules) as [[]|]; [|done..]. cbn in H.
  destruct H as [x Hx]. exfalso. apply (cyclic_not_acyclic x Hx).
  apply (not_left_recursive_mono G directly_empty (generates_empty G)); [apply directly_empty_generates|]. apply Hfree.
  inversion Hx as [? ? (alts & alt & Ha & _)|? ? ? (alts & alt & Ha & _)]; subst; by apply lookup_lt_Some in Ha.
Qed.

Lemma left_recursive_direct : empty_is_direct → ¬ left_recursion_free G → left_recursive rules = Ok true.
Proof.
  intros Hd Hnot. pose proof left_recursive_ok as H. destruct (left_recursive rules) as [[]|]; [done|..|done]. cbn in H.
  exfalso. apply Hnot. intros r Hr. apply (not_left_recursive_mono G (generates_empty G) directly_empty); auto.
Qed.

(** A grammar that was built. *)
Definition initial (start : nat) (o : option (llama_grammar_rules * llama_grammar_stacks)) : Prop :=
  ∃ stacks, o = Some (rules, stacks) ∧ stacks ≠ [] ∧ ready rules stacks ∧
    ∀ w, lang rules G stacks w ↔ gen G [SRef start] w.

Lemma init_impl_ok start : left_recursion_free G → start < length rules → ends (λ n, init_impl n rules start) (initial start).
Proof.
  intros Hfree Hstart. unfold init_impl. rewrite copy_rules_ok. cbn [mbind res_bind].
  rewrite left_recursive_free by done. cbn [mbind res_bind].
  eapply ends_bind; [by apply initial_stacks_ok|]. intros stacks (H1 & H2 & H3). apply (ends_okP (Ok _)). by exists stacks.
Qed.

Lemma init_impl_refuses n start : empty_is_direct → ¬ left_recursion_free G → init_impl n rules start = Ok None.
Proof.
  intros. unfold init_impl. rewrite copy_rules_ok. cbn [mbind res_bind]. by rewrite left_recursive_direct.
Qed.
End detection.

(** ** The grammar that the check misses *)

Abbreviation hidden_rules := (enc_rule <$> hidden_grammar).

Lemma hidden_step fuel st new :
  advance_stack (S fuel) hidden_rules ((0, 1) :: st) new =
    (s ← advance_stack fuel hidden_rules ((0, 0) :: (0, 2) :: st) new;
     s ← advance_stack fuel hidden_rules ((0, 4) :: (0, 2) :: st) s; Ok s) ∧
  advance_stack (S fuel) hidden_rules ((0, 0) :: st) new =
    (s ← advance_stack fuel hidden_rules ((1, 0) :: (0, 1) :: st) new; Ok s) ∧
  advance_stack (S fuel) hidden_rules ((1, 0) :: st) new =
    (s ← advance_stack fuel hidden_rules st new; Ok s).
Proof. done. Qed.

Lemma hidden_runs fuel : ∀ st new,
  advance_stack fuel hidden_rules ((0, 1) :: st) new = Err OutOfFuel ∧
  advance_stack fuel hidden_rules ((0, 0) :: st) new = Err OutOfFuel ∧
  advance_stack fuel hidden_rules ((1, 0) :: (0, 1) :: st) new = Err OutOfFuel.
Proof.
  induction fuel as [|fuel IH]; intros st new; [done|].
  destruct (hidden_step fuel st new) as (-> & -> & _). destruct (hidden_step fuel ((0, 1) :: st) new) as (_ & _ & ->).
  destruct (IH ((0, 2) :: st) new) as (_ & -> & _). destruct (IH st new) as (-> & _ & ->). done.
Qed.

(** * Correctness *)

(** C31. llama_grammar_init_impl on the rules of a grammar without left recursion
    builds its initial stacks: the recursion of llama_grammar_advance_stack ends,
    and the stacks (at least one, each at a terminal) generate exactly the texts
    of the start rule.  A grammar with left recursion is refused, if every rule
    that generates the empty text has an empty alternate. *)
Theorem init_impl_correct rules G start :
  encodes rules G → start < length rules →
  (left_recursion_free G → ends (λ n, init_impl n rules start) (initial rules G start)) ∧
  (empty_is_direct G → ¬ left_recursion_free G → ∀ n, init_impl n rules start = Ok None).
Proof. split; intros; [by apply init_impl_ok|by eapply init_impl_refuses]. Qed.

(** The check for left recursion accepts root ::= a root "x" | "y", a ::= b,
    b ::= "", because it only takes a rule with an empty alternate to be empty,
    and llama_grammar_init_impl then recurses without end. *)
Theorem left_recursion_missed :
  left_recursive hidden_rules = Ok false ∧ ∀ n, init_impl n hidden_rules 0 = Err OutOfFuel.
Proof.
  split; [done|]. intros n. change (init_impl n hidden_rules 0) with
    (stacks ← initial_stacks n hidden_rules 0; Ok (Some (hidden_rules, stacks))).
  change (initial_stacks n hidden_rules 0) with
    (s ← advance_stack n hidden_rules [(0, 0)] []; s ← advance_stack n hidden_rules [(0, 4)] s; Ok s).
  by destruct (hidden_runs n [] []) as (_ & -> & _).
Qed.

(** root ::= "a" root "b" | x    x ::= [0-9] x | "" *)
Definition ex_grammar : grammar :=
  [[[SClass false (97, None) []; SRef 0; SClass false (98, None) []]; [SRef 1]]; [[SClass false (48, Some 57) []; SRef 1]; []]]%Z.
Definition ex_rules : llama_grammar_rules := enc_rule <$> ex_grammar.

Lemma ex_encodes : encodes ex_rules ex_grammar.
Proof. split; [done|]. repeat (apply Forall_cons; split; [split; [done|]; repeat (apply Forall_cons; split; [repeat constructor; cbn; lia|]); by apply Forall_nil|]). by apply Forall_nil. Qed.

Lemma ex_left r r' : left_ref ex_grammar (λ _, True) r r' → r = 0 ∧ r' = 1.
Proof.
  intros (alts & alt & Ha & Hin & pre & post & E & Hp).
  assert (∀ s ss, alt = s :: ss → is_terminal s = true → False) as Hterm.
  { intros s ss -> Hs. destruct pre as [|s' pre]; simplify_eq/=. inversion_clear Hp as [|? ? Hn _]. by destruct s'. }
  destruct r as [|[|]]; cbn in Ha; simplify_eq; apply elem_of_cons in Hin as [Ea|Ea%list_elem_of_singleton];
    try (by exfalso; eapply Hterm).
  - destruct pre as [|s pre]; simplify_eq/=; [done|]. by destruct pre.
  - by destruct pre.
Qed.

Lemma ex_free : left_recursion_free ex_grammar.
Proof.
  intros r _. apply (not_left_recursive_mono _ _ (λ _, True)); [done|].
  assert (∀ r, r ≠ 0 → not_left_recursive ex_grammar (λ _, True) r) as H by (intros r' Hr; constructor; by intros ? [-> _]%ex_left).
  destruct (decide (r = 0)) as [->|]; [|by apply H]. constructor. intros r' [_ ->]%ex_left. by apply H.
Qed.

Lemma init_impl_correct_witness :
  encodes ex_rules ex_grammar ∧ 0 < length ex_rules ∧ left_recursion_free ex_grammar ∧
  ends (λ n, init_impl n ex_rules 0) (initial ex_rules ex_grammar 0).
Proof.
  split; [exact ex_encodes|]. split; [cbn; lia|]. split; [exact ex_free|].
  apply (init_impl_correct ex_rules ex_grammar 0 ex_encodes ltac:(cbn; lia)). exact ex_free.
Defined.
