(* ===== verification/GrammarSample.v ===== *)
(** The grammar in the sampler: which candidates it rejects and how it takes in
    the tokens that were sampled, lazy grammars with their triggers included
    (llama_grammar_apply_impl, llama_grammar_accept_impl and
    llama_grammar_trigger_pattern::find of src/llama-grammar.cpp).

    The vocabulary is given by the two functions of it that the code calls, and a
    trigger pattern by what [std::regex_match] and [std::regex_search] return:
    the position and the length of the match and of its groups. *)
From S2P Require Import Prelude Utf8 Grammar GrammarInit.

(** ** Data *)

Record llama_vocab := Vocab { token_to_piece : Z → res (list Z); is_eog : Z → bool }.

Abbreviation smatch := (list (nat * nat)).

Record llama_grammar_trigger_pattern := TriggerPattern {
  tp_pattern : list Z;
  tp_match : list Z → option smatch;   (* std::regex_match(input, match, regex) *)
  tp_search : list Z → option smatch   (* std::regex_search(input, match, regex) *)
}.

Record llama_grammar := Grammar {
  g_vocab : option llama_vocab;
  g_rules : llama_grammar_rules;
  g_state : grammar_state;             (* stacks, partial_utf8 *)
  g_lazy : bool;
  awaiting_trigger : bool;
  trigger_buffer : list Z;
  trigger_buffer_positions : list (Z * (nat * nat));
  trigger_tokens : list Z;
  trigger_patterns : list llama_grammar_trigger_pattern
}.

Definition with_state (g : llama_grammar) (s : grammar_state) : llama_grammar :=
  Grammar (g_vocab g) (g_rules g) s (g_lazy g) (awaiting_trigger g) (trigger_buffer g)
    (trigger_buffer_positions g) (trigger_tokens g) (trigger_patterns g).
Definition with_trigger (g : llama_grammar) (await : bool) (buffer : list Z) (positions : list (Z * (nat * nat))) : llama_grammar :=
  Grammar (g_vocab g) (g_rules g) (g_state g) (g_lazy g) await buffer positions (trigger_tokens g) (trigger_patterns g).

(** A logit: -INFINITY, or the float it was. *)
Inductive logit_val := NegInf | Logit (x : Z).
#[export] Instance logit_eq_dec : EqDecision logit_val.
Proof. solve_decision. Defined.

Record llama_token_data := TokenData { td_id : Z; td_logit : logit_val }.

(** ** llama_grammar_apply_impl *)

Definition mask_logit (data : list llama_token_data) (i : nat) : res (list llama_token_data) :=
  d ← vget data i; vset data i (TokenData (td_id d) NegInf).

(** allow_eog *)
Definition allow_eog (g : llama_grammar) : bool := bool_decide ([] ∈ gs_stacks (g_state g)).

(** One candidate: masked at once, or decoded for the grammar. *)
Definition sort_candidate (g : llama_grammar) (v : llama_vocab)
    (st : list llama_token_data * list llama_grammar_candidate) (i : nat) :
    res (list llama_token_data * list llama_grammar_candidate) :=
  let '(data, candidates) := st in
  d ← vget data i;
  piece ← token_to_piece v (td_id d);
  if is_eog v (td_id d) then
    if allow_eog g then Ok st else data ← mask_logit data i; Ok (data, candidates)
  else if decide (deref piece = 0)%Z then data ← mask_logit data i; Ok (data, candidates)
  else
    decoded ← decode_utf8 piece (gs_partial (g_state g));
    Ok (data, candidates ++ [Candidate i decoded.1 0 decoded.2 (td_id d)]).

Definition apply_impl (fuel afuel : nat) (g : llama_grammar) (data : list llama_token_data) : res (list llama_token_data) :=
  v ← of_option Abort (g_vocab g);
  if awaiting_trigger g then Ok data else
  '(data, candidates) ← foldM (sort_candidate g v) (data, []) (seq 0 (length data));
  rejects ← reject_candidates fuel afuel (g_rules g) (gs_stacks (g_state g)) candidates;
  foldM (λ data reject, mask_logit data (c_index reject)) data rejects.

(** ** llama_grammar_trigger_pattern::find *)

(** the first non-empty group, or the whole match *)
Definition find_start_pos (match_ : smatch) : res nat :=
  match find (λ g, 0 <? g.2) (tail match_) with
  | Some g => Ok g.1
  | None => m ← vget match_ 0; Ok m.1
  end.

Definition find_trigger (t : llama_grammar_trigger_pattern) (input : list Z) : res (option nat) :=
  let search :=
    match tp_search t input with
    | Some m => p ← find_start_pos m; Ok (Some p)
    | None => Ok None
    end in
  if bool_decide (tp_pattern t ≠ []) && bool_decide (head (tp_pattern t) = Some 94%Z)
       && bool_decide (last (tp_pattern t) = Some 36%Z) then
    match tp_match t input with
    | Some m => p ← find_start_pos m; Ok (Some p)
    | None => search
    end
  else search.

(** ** llama_grammar_accept_impl *)

(** replay tokens that overlap with [start, end) *)
Definition replay_token (fuel : nat) (rules : llama_grammar_rules) (buffer : list Z) (start : nat)
    (s : grammar_state) (t : Z * (nat * nat)) : res grammar_state :=
  let '(tok, (tok_start, tok_end)) := t in
  if decide (tok_end ≤ start) then Ok s else
  let piece_start := if decide (tok_start < start) then start else tok_start in
  let piece_len := tok_end - piece_start in
  accept_token fuel rules s tok (take piece_len (drop piece_start buffer)).

(** the loop over the trigger patterns *)
Fixpoint try_patterns (fuel : nat) (g : llama_grammar) (patterns : list llama_grammar_trigger_pattern) : res llama_grammar :=
  match patterns with
  | [] => Ok g
  | t :: patterns =>
      r ← find_trigger t (trigger_buffer g);
      match r : option nat with
      | None => try_patterns fuel g patterns
      | Some start =>
          s ← foldM (replay_token fuel (g_rules g) (trigger_buffer g) start) (g_state g) (trigger_buffer_positions g);
          check Throw (bool_decide (start ≤ length (trigger_buffer g)));;
          Ok (with_trigger (with_state g s) false [] [])
      end
  end.

Definition accept_impl (fuel : nat) (g : llama_grammar) (token : Z) : res llama_grammar :=
  v ← of_option Abort (g_vocab g);
  piece ← token_to_piece v token;
  if awaiting_trigger g then
    if decide (token ∈ trigger_tokens g) then
      let g := with_trigger g false [] (trigger_buffer_positions g) in
      s ← accept_token fuel (g_rules g) (g_state g) token piece;
      Ok (with_state g s)
    else
      let n := length (trigger_buffer g) in
      let g := with_trigger g true (trigger_buffer g ++ piece)
                 (trigger_buffer_positions g ++ [(token, (n, n + length piece))]) in
      try_patterns fuel g (trigger_patterns g)
  else if is_eog v token then
    if allow_eog g then Ok g else Err Abort
  else
    s ← accept_token fuel (g_rules g) (g_state g) token piece;
    Ok (with_state g s).

(** ** Rejection *)

(** The code points of a candidate from where it points to its terminating 0. *)
Definition remaining (c : llama_grammar_candidate) (w : list Z) : Prop :=
  ∃ rest, drop (c_offset c) (c_code_points c) = w ++ 0%Z :: rest ∧ Forall (λ x, x ≠ 0)%Z w.

Lemma remaining_inj c w w' : remaining c w → remaining c w' → w = w'.
Proof.
  intros (r & E & Hw) (r' & E' & Hw'). rewrite E in E'. clear E. revert w' E' Hw'.
  induction Hw as [|x w Hx Hw IH]; intros [|y w'] E' Hw'; simplify_eq/=; [done|by inversion_clear Hw'|].
  inversion_clear Hw'. f_equal. eauto.
Qed.

Lemma remaining_head c w : remaining c w → code_point c = Ok (hd 0%Z w).
Proof.
  intros (r & E & _). apply vget_ok. rewrite <- (Nat.add_0_r (c_offset c)), <- lookup_drop, E. by destruct w.
Qed.

Lemma remaining_next c x w : remaining c (x :: w) → remaining (move_to c (c_offset c + 1)) w.
Proof.
  intros (r & E & Hw). inversion_clear Hw. exists r. split; [|done]. cbn. by rewrite <- drop_drop, E.
Qed.

Lemma move_back c : move_to (move_to c (c_offset c + 1)) (c_offset (move_to c (c_offset c + 1)) - 1) = c.
Proof. destruct c. unfold move_to. cbn. f_equal. lia. Qed.

(** A loop that keeps the candidates it rejects. *)
Lemma fold_reject (f : list llama_grammar_candidate → llama_grammar_candidate → res (list llama_grammar_candidate))
    (R : llama_grammar_candidate → Prop) rej cs :
  (∀ rej c, c ∈ cs → ∃ b : bool, (b = true ↔ R c) ∧ f rej c = Ok (if b then rej ++ [c] else rej)) →
  okP (foldM f rej cs) (λ r, ∀ c, c ∈ r ↔ c ∈ rej ∨ (c ∈ cs ∧ R c)).
Proof.
  intros Hf. apply (okP_foldM f (λ pre r, ∀ c, c ∈ r ↔ c ∈ rej ∨ (c ∈ pre ∧ R c))); [set_solver|].
  intros pre x post r E Hr. destruct (Hf r x) as (b & Hb & ->); [rewrite E; set_solver|]. cbn. intros c.
  destruct b; rewrite ?elem_of_app, Hr, ?list_elem_of_singleton; set_solver.
Qed.

Section rejection.
Context (rules : llama_grammar_rules) (G : grammar).
Hypothesis Henc : encodes rules G.
Hypothesis Hfree : left_recursion_free G.

(** [m] ends with [a]. *)
Definition yields {A} (m : nat → res A) (a : A) : Prop := ends m (λ b, b = a).

Lemma ends_yields {A} (m : nat → res A) P : ends m P → ∃ a, yields m a ∧ P a.
Proof. intros (a & N & Ha & Hm). exists a. split; [by exists a, N|done]. Qed.

Lemma yields_inj {A} (m : nat → res A) a b : yields m a → yields m b → a = b.
Proof.
  intros (a' & N & -> & Ha) (b' & N' & -> & Hb). specialize (Ha (N `max` N') ltac:(lia)). specialize (Hb (N `max` N') ltac:(lia)). congruence.
Qed.

(** Token [id], whose remaining characters are [w] and whose last one may be
    incomplete, fits the stack. *)
Fixpoint admits (w : list Z) (id : Z) (u : llama_partial_utf8) (st : llama_grammar_stack) : Prop :=
  match st with
  | [] => w = [] ∧ pu_n_remain u = 0%Z
  | p :: rest => ∃ s ss, denotes rules p (s :: ss) ∧
      match w with
      | [] => pu_n_remain u = 0%Z ∨ (is_char_sym s = true ∧ sym_partial s u = true)
      | c :: w =>
          (is_char_sym s = false ∧ sym_token s id = true) ∨
          (sym_char s c = true ∧ ∃ out st', yields (λ n, accept_chr n rules c [] st) out ∧ st' ∈ out ∧ admits w id u st')
      end
  end.

Definition rejected (st : llama_grammar_stack) (c : llama_grammar_candidate) : Prop :=
  ∃ w, remaining c w ∧ ¬ admits w (c_id c) (c_partial_utf8 c) st.

Lemma rejected_iff st c w : remaining c w → rejected st c ↔ ¬ admits w (c_id c) (c_partial_utf8 c) st.
Proof.
  intros Hw. split; [|by exists w]. intros (w' & Hw' & H). by rewrite (remaining_inj _ _ _ Hw Hw').
Qed.

Lemma admits_top w id u p rest s ss : denotes rules p (s :: ss) →
  admits w id u (p :: rest) ↔
    match w with
    | [] => pu_n_remain u = 0%Z ∨ (is_char_sym s = true ∧ sym_partial s u = true)
    | c :: w =>
        (is_char_sym s = false ∧ sym_token s id = true) ∨
        (sym_char s c = true ∧ ∃ out st', yields (λ n, accept_chr n rules c [] (p :: rest)) out ∧ st' ∈ out ∧ admits w id u st')
    end.
Proof.
  intros Hd. split; [|intros H; by destruct w; exists s, ss].
  destruct w; intros (s' & ss' & Hd' & H); pose proof (denotes_inj _ _ _ _ Hd Hd'); by simplify_eq.
Qed.

(** The candidates that the loop of llama_grammar_reject_candidates leaves. *)
Lemma reject_with_ok (F : nat → llama_grammar_stack → list llama_grammar_candidate → res (list llama_grammar_candidate))
    (R : llama_grammar_stack → llama_grammar_candidate → Prop) stacks cs :
  stacks ≠ [] →
  (∀ st cs', cs ≠ [] → st ∈ stacks → (∀ c, c ∈ cs' → c ∈ cs) → ends (λ n, F n st cs') (λ rej, ∀ c, c ∈ rej ↔ c ∈ cs' ∧ R st c)) →
  ends (λ n, reject_with (F n) stacks cs) (λ rej, ∀ c, c ∈ rej ↔ c ∈ cs ∧ ∀ st, st ∈ stacks → R st c).
Proof.
  intros Hne HF. unfold reject_with. rewrite ggml_assert_ok by (by apply bool_decide_eq_true). cbn [mbind res_bind].
  destruct (decide (cs = [])) as [->|Hcs]; [apply (ends_okP (Ok [])); cbn; set_solver|].
  apply (ends_foldM (λ n rejects stack, F n stack rejects) (λ pre rej, ∀ c, c ∈ rej ↔ c ∈ cs ∧ ∀ st, st ∈ pre → R st c)); [set_solver|].
  intros pre st post rej E Hrej. eapply ends_mono; [apply HF; [done|rewrite E; set_solver|]|].
  - intros c Hc. by apply Hrej.
  - intros rej' Hr c. cbn beta in Hr. rewrite Hr, Hrej. set_solver.
Qed.

(** What the loop over the candidates does at a character. *)
Lemma reject_at_char_ok p s ss cs : denotes rules p (s :: ss) → is_char_sym s = true →
  (∀ c, c ∈ cs → ∃ w, remaining c w) →
  okP (foldM (reject_at_char rules p) ([], []) cs) (λ r,
    (∀ c, c ∈ r.1 ↔ c ∈ cs ∧ ∃ w, remaining c w ∧
       match w with [] => pu_n_remain (c_partial_utf8 c) ≠ 0%Z ∧ sym_partial s (c_partial_utf8 c) = false | x :: _ => sym_char s x = false end) ∧
    (∀ c, c ∈ r.2 ↔ ∃ c' x w, c' ∈ cs ∧ remaining c' (x :: w) ∧ sym_char s x = true ∧ c = move_to c' (c_offset c' + 1))).
Proof.
  intros Hd Hs Hrem. pose (bad := λ c, ∃ w, remaining c w ∧
    match w with [] => pu_n_remain (c_partial_utf8 c) ≠ 0%Z ∧ sym_partial s (c_partial_utf8 c) = false | x :: _ => sym_char s x = false end).
  pose (moved := λ c c', ∃ x w, remaining c' (x :: w) ∧ sym_char s x = true ∧ c = move_to c' (c_offset c' + 1)).
  eapply okP_mono; [apply (okP_foldM _ (λ pre r, (∀ c, c ∈ r.1 ↔ c ∈ pre ∧ bad c) ∧ (∀ c, c ∈ r.2 ↔ ∃ c', c' ∈ pre ∧ moved c c')))|].
  - set_solver.
  - intros pre c post [rej next] E [H1 H2]. destruct (Hrem c) as [w Hw]; [rewrite E; set_solver|]. cbn [fst snd] in *.
    assert (∀ b, (bad c ↔ b) → b ∨ ¬ b →
      ∀ r, (b → r = rej ++ [c]) → (¬ b → r = rej) → ∀ c', c' ∈ r ↔ c' ∈ pre ++ [c] ∧ bad c') as Hrej.
    { intros b Hb Hdec r Hr1 Hr2 c'. destruct Hdec as [Hb'|Hb']; [pose proof (Hr1 Hb') as ->|pose proof (Hr2 Hb') as ->]; set_solver. }
    assert (∀ c', bad c' → c' = c → match w with [] => pu_n_remain (c_partial_utf8 c) ≠ 0%Z ∧ sym_partial s (c_partial_utf8 c) = false | x :: _ => sym_char s x = false end) as Hbad.
    { intros c' (w' & Hw' & H) ->. by rewrite (remaining_inj _ _ _ Hw Hw'). }
    assert (∀ c' d, moved d c' → c' = c → ∃ x w', w = x :: w' ∧ sym_char s x = true ∧ d = move_to c (c_offset c + 1)) as Hmov.
    { intros c' d (x & w' & Hw' & Hx & ->) ->. exists x, w'. split; [|done]. by rewrite (remaining_inj _ _ _ Hw Hw'). }
    unfold reject_at_char. rewrite (remaining_head _ _ Hw), bind_Ok. destruct w as [|x w]; cbn [hd].
    + rewrite decide_True by done.
      assert (∀ d, d ∈ next ↔ ∃ c', c' ∈ pre ++ [c] ∧ moved d c') as Hnext.
      { intros d. rewrite H2. split; [set_solver|]. intros (c' & [Hc'|Hc'%list_elem_of_singleton]%elem_of_app & Hm); [by exists c'|].
        by destruct (Hmov c' d Hm Hc') as (? & ? & ? & _). }
      destruct (decide (pu_n_remain (c_partial_utf8 c) ≠ 0)%Z) as [Hn|Hn].
      * rewrite (match_partial_char_ok rules p s ss _ Hd Hs), bind_Ok. cbn [okP fst snd]. split; [|done].
        apply (Hrej (sym_partial s (c_partial_utf8 c) = false)).
        -- split; [intros Hb; by destruct (Hbad c Hb eq_refl)|]. intros. by exists [].
        -- destruct (sym_partial s (c_partial_utf8 c)); [by right|by left].
        -- by intros ->.
        -- by destruct (sym_partial s _).
      * cbn [okP fst snd]. split; [|done]. apply (Hrej False); [|right; by intros []|done|done].
        split; [|done]. intros Hb. by destruct (Hbad c Hb eq_refl).
    + assert (x ≠ 0%Z) as Hx by (destruct Hw as (? & _ & Hf); by inversion_clear Hf).
      rewrite decide_False by done. rewrite (match_char_ok rules p s ss x Hd Hs), bind_Ok. cbn [fst].
      destruct (sym_char s x) eqn:Ex; cbn [okP fst snd]; split.
      * apply (Hrej False); [|right; by intros []|done|done]. split; [|done]. intros Hb. specialize (Hbad c Hb eq_refl). cbn in Hbad. congruence.
      * intros d. rewrite elem_of_app, H2, list_elem_of_singleton. split.
        -- intros [(c' & ? & ?)| ->]; [set_solver|]. exists c. split; [set_solver|]. by exists x, w.
        -- intros (c' & [Hc'|Hc'%list_elem_of_singleton]%elem_of_app & Hm); [left; by exists c'|right].
           by destruct (Hmov c' d Hm Hc') as (? & ? & _ & _ & ?).
      * apply (Hrej True); [|by left|done|done]. split; [done|]. intros _. by exists (x :: w).
      * intros d. rewrite H2. split; [set_solver|]. intros (c' & [Hc'|Hc'%list_elem_of_singleton]%elem_of_app & Hm); [by exists c'|].
        destruct (Hmov c' d Hm Hc') as (? & ? & ? & ? & _). simplify_eq. congruence.
  - intros r [H1 H2]. split; [done|]. intros c. rewrite H2. unfold moved. naive_solver.
Qed.

(** What a ready stack with a character on top turns into. *)
Lemma accept_chr_terminal p rest s ss sss : denotes rules p (s :: ss) → stack_denotes rules rest sss → is_char_sym s = true →
  ∃ out after, out ≠ [] ∧ Forall (ready_stack rules) out ∧
    push_elem rules (ptr_add p (length (enc_sym s))) rest = Ok after ∧ yields (λ n, advance_stack n rules after []) out ∧
    ∀ c, sym_char s c = true → yields (λ n, accept_chr n rules c [] (p :: rest)) out.
Proof.
  intros Hd Hr Hs. pose proof (denotes_next _ _ _ _ Hd) as Hnext.
  destruct (push_denotes rules _ _ rest sss Hnext Hr) as (s' & Hs' & _).
  destruct (ends_yields _ _ (advance_ok rules G (generates_empty G) Henc (generates_empty_closed G) Hfree _ s' [] Hs')) as (out & Hy & (add & -> & Hne & Hadd & _)).
  eexists (add_stacks [] add), _. split; [by apply add_stacks_ne|]. split; [by apply ready_add_stacks; [constructor|]|].
  split; [by apply push_elem_ok|]. split; [exact Hy|]. intros c Hc.
  eapply ends_ext; [|exact Hy]. intros n. unfold accept_chr. destruct (denotes_elem _ _ _ _ Hd) as [-> _]. rewrite bind_Ok, is_token_ok.
  rewrite (match_char_ok rules p s ss c Hd Hs), bind_Ok. cbn [fst snd]. rewrite Hc, (push_elem_ok _ _ _ rest Hnext).
  by destruct s.
Qed.

Lemma admits_nil w id u : admits w id u [] ↔ w = [] ∧ pu_n_remain u = 0%Z.
Proof. by destruct w. Qed.

(** llama_grammar_reject_candidates_for_stack returns exactly the candidates
    that do not fit the stack. *)
Lemma reject_for_stack_ok fuel st cs : ready_stack rules st → 0 < fuel →
  (∀ c, c ∈ cs → ∃ w, remaining c w ∧ length w < fuel) →
  ends (λ n, reject_candidates_for_stack fuel n rules st cs) (λ rej, ∀ c, c ∈ rej ↔ c ∈ cs ∧ rejected st c).
Proof.
  revert st cs. induction fuel as [|fuel IH]; intros st cs Hst Hpos Hrem; [lia|].
  destruct Hst as (sss & Hsd & Hterm). destruct Hsd as [|p ss rest sss [Hp Hne] Hrest]; cbn [reject_candidates_for_stack].
  - apply ends_okP. eapply okP_mono; [apply (fold_reject _ (rejected []))|set_solver]. intros rej c Hc.
    destruct (Hrem c Hc) as (w & Hw & _). unfold reject_at_end. rewrite (remaining_head _ _ Hw), bind_Ok.
    exists (bool_decide (hd 0%Z w ≠ 0 ∨ pu_n_remain (c_partial_utf8 c) ≠ 0)%Z). split; [|by case_bool_decide; [rewrite decide_True|rewrite decide_False]].
    rewrite bool_decide_eq_true, (rejected_iff _ _ _ Hw), admits_nil. destruct w as [|x w]; cbn; [naive_solver|].
    destruct Hw as (? & _ & Hf). inversion_clear Hf. naive_solver.
  - destruct ss as [|s ss]; [done|]. cbn in Hterm. destruct (denotes_elem _ _ _ _ Hp) as [-> _]. cbn [mbind res_bind]. rewrite is_token_ok.
    assert (∀ c w, remaining c w → rejected (p :: rest) c ↔ ¬ match w with
      | [] => pu_n_remain (c_partial_utf8 c) = 0%Z ∨ (is_char_sym s = true ∧ sym_partial s (c_partial_utf8 c) = true)
      | x :: w => (is_char_sym s = false ∧ sym_token s (c_id c) = true) ∨
          (sym_char s x = true ∧ ∃ out st', yields (λ n, accept_chr n rules x [] (p :: rest)) out ∧ st' ∈ out ∧ admits w (c_id c) (c_partial_utf8 c) st')
      end) as Hrej by (intros c w Hw; by rewrite (rejected_iff _ _ _ Hw), (admits_top _ _ _ _ _ _ _ Hp)).
    destruct (is_char_sym s) eqn:Ec.
    + assert ((match s with STok _ _ => true | _ => false end) = false) as -> by by destruct s.
      destruct (accept_chr_terminal p rest s ss sss Hp Hrest Ec) as (out & after & Hout & Hready & Hpush & Hadv & Hacc).
      pose proof (reject_at_char_ok p s ss cs Hp Ec) as Hloop.
      destruct (foldM (reject_at_char rules p) ([], []) cs) as [[rej1 next]|] eqn:Ef; [|by destruct Hloop; intros c Hc; destruct (Hrem c Hc) as (w & ? & _); exists w].
      destruct Hloop as [H1 H2]; [intros c Hc; destruct (Hrem c Hc) as (w & ? & _); by exists w|]. cbn [fst snd] in H1, H2. cbn [mbind res_bind].
      rewrite (match_char_ok rules p s ss 0 Hp Ec). cbn [mbind res_bind fst snd]. rewrite Hpush. cbn [mbind res_bind].
      eapply ends_bind; [exact Hadv|]. intros ? ->.
      eapply ends_bind; [apply (reject_with_ok _ rejected out next); [done|]|].
      { intros st' cs' Hnext Hst' Hsub. assert (∀ d, d ∈ next → ∃ w, remaining d w ∧ length w < fuel) as Hlen.
        { intros d (c' & x & w & Hc' & Hw & _ & ->)%H2. exists w. split; [by eapply remaining_next|].
          destruct (Hrem c' Hc') as (w' & Hw' & Hl). rewrite (remaining_inj _ _ _ Hw' Hw) in Hl. simpl in Hl. lia. }
        apply IH; [by rewrite Forall_forall in Hready; apply Hready| |by auto].
        destruct next as [|d next]; [done|]. destruct (Hlen d ltac:(left)) as (? & _ & ?). lia. }
      intros nr Hnr. cbn beta in Hnr. apply ends_okP. cbn [okP]. intros c. rewrite elem_of_app, H1, list_elem_of_fmap. split.
      * intros [[Hc (w & Hw & Hbad)]|(d & -> & Hd)].
        -- split; [done|]. apply (Hrej c w Hw). destruct w as [|x w]; [destruct Hbad as [? ->]; naive_solver|]. rewrite Hbad. naive_solver.
        -- apply Hnr in Hd as [(c' & x & w & Hc' & Hw & Hx & ->)%H2 Hall]. rewrite move_back. split; [done|].
           apply (Hrej c' _ Hw). intros [[? _]|(_ & out' & st' & Hy & Hst' & Ha)]; [done|].
           rewrite (yields_inj _ _ _ Hy (Hacc x Hx)) in Hst'. specialize (Hall st' Hst').
           by apply (rejected_iff st' _ w (remaining_next _ _ _ Hw)) in Hall.
      * intros [Hc Hr]. destruct (Hrem c Hc) as (w & Hw & _). apply (Hrej c w Hw) in Hr. destruct w as [|x w].
        -- left. split; [done|]. exists []. split; [done|]. split; [intros E; apply Hr; by left|].
           destruct (sym_partial s (c_partial_utf8 c)) eqn:E; [|done]. exfalso. apply Hr. by right.
        -- destruct (sym_char s x) eqn:Ex; [|left; split; [done|]; by exists (x :: w)].
           right. exists (move_to c (c_offset c + 1)). rewrite move_back. split; [done|]. apply Hnr. split; [apply H2; by exists c, x, w|].
           intros st' Hst'. apply (rejected_iff st' _ w (remaining_next _ _ _ Hw)). intros Ha. apply Hr. right. split; [done|].
           exists out, st'. by split; [apply Hacc|].
    + destruct s as [| | |neg t]; try done. apply ends_okP.
      eapply okP_mono; [apply (fold_reject _ (rejected (p :: rest)))|set_solver]. intros rej c Hc.
      destruct (Hrem c Hc) as (w & Hw & _). unfold reject_at_token. rewrite (remaining_head _ _ Hw), bind_Ok.
      setoid_rewrite (Hrej c w Hw). destruct w as [|x w]; cbn [hd].
      * rewrite decide_True by done. exists (bool_decide (pu_n_remain (c_partial_utf8 c) ≠ 0)%Z).
        split; [rewrite bool_decide_eq_true; naive_solver|]. rewrite bool_decide_decide. by destruct (decide _).
      * rewrite decide_False by (destruct Hw as (? & _ & Hf); by inversion_clear Hf). rewrite match_token_ok, bind_Ok.
        exists (negb (sym_token (STok neg t) (c_id c))). split; [|by destruct (sym_token _ _)].
        rewrite negb_true_iff. destruct (sym_token _ _) eqn:Et; naive_solver.
Qed.

(** ** What a stack turns into does not depend on the stacks found so far *)

Definition independent (m : llama_grammar_stacks → res llama_grammar_stacks) : Prop :=
  (∃ e, ∀ new, m new = Err e) ∨ ∃ add, ∀ new, m new = Ok (add_stacks new add).

Lemma independent_const {A} (m : res A) (k : A → llama_grammar_stacks → res llama_grammar_stacks) :
  (∀ a, independent (k a)) → independent (λ new, m ≫= λ a, k a new).
Proof. intros Hk. destruct m as [a|e]; [apply Hk|]. left. by exists e. Qed.

Lemma independent_seq m k : independent m → independent k → independent (λ new, m new ≫= k).
Proof.
  intros [[e He]|[add Ha]] Hk; [left; exists e; intros; by rewrite He|].
  destruct Hk as [[e He]|[add' Ha']]; [left; exists e; intros; by rewrite Ha, bind_Ok|].
  right. exists (add ++ add'). intros new. by rewrite Ha, bind_Ok, Ha', add_stacks_app.
Qed.

Lemma independent_ret add : independent (λ new, Ok (add_stacks new add)).
Proof. right. by exists add. Qed.

Lemma independent_ext m m' : (∀ new, m' new = m new) → independent m → independent m'.
Proof. intros H [[e He]|[add Ha]]; [left; exists e|right; exists add]; intros; by rewrite H. Qed.

Lemma for_alternates_independent f b i l : (∀ i, independent (f i)) → independent (for_alternates f b i l).
Proof.
  intros Hf. revert b i. induction l as [|e l IH]; intros b i; [left; by exists OutOfRange|]. cbn [for_alternates].
  apply independent_seq; [destruct b; [apply Hf|apply (independent_ret [])]|].
  destruct (is_end_of_sequence e); [|apply IH]. destruct (decide _); [apply IH|apply (independent_ret [])].
Qed.

Lemma advance_independent n st : independent (advance_stack n rules st).
Proof.
  revert st. induction n as [|n IH]; intros st; [left; by exists OutOfFuel|]. destruct st as [|p st]; [apply (independent_ret [[]])|].
  apply (independent_const (elem_at rules p) (λ e new, match e_type e with
    | GRETYPE_RULE_REF => _ | GRETYPE_CHAR | GRETYPE_CHAR_NOT | GRETYPE_CHAR_ANY | GRETYPE_TOKEN | GRETYPE_TOKEN_NOT => _ | _ => _ end)).
  intros e. destruct (e_type e); try (left; by exists Abort); try apply (independent_ret [p :: st]).
  apply (independent_const (vget rules (Z.to_nat (e_value e))) (λ rule new, for_alternates _ true 0 rule new)). intros rule.
  apply for_alternates_independent. intros i.
  apply (independent_const (push_elem rules (ptr_add p 1) st)
    (λ a s, push_elem rules (Z.to_nat (e_value e), i) a ≫= λ a0, advance_stack n rules a0 s)). intros a.
  apply (independent_const _ (λ a0 s, advance_stack n rules a0 s)). auto.
Qed.

Lemma accept_chr_independent n c st : independent (λ new, accept_chr n rules c new st).
Proof.
  destruct st as [|p st]; [apply (independent_ret [])|]. unfold accept_chr.
  apply (independent_const (elem_at rules p) (λ e new, if is_token_elem e then Ok new else _)). intros e.
  destruct (is_token_elem e); [apply (independent_ret [])|].
  apply (independent_const (match_char rules p c) (λ m new, if (m : bool * elem_ptr).1 then _ else Ok new)). intros m.
  destruct m.1; [|apply (independent_ret [])].
  apply (independent_const _ (λ a new, advance_stack n rules a new)). intros a. apply advance_independent.
Qed.

(** The loop over the stacks finds what it finds for each of them. *)
Lemma fold_independent (f : llama_grammar_stacks → llama_grammar_stack → res llama_grammar_stacks) stacks new out st out1 :
  (∀ st, independent (λ new, f new st)) → foldM f new stacks = Ok out → st ∈ stacks → f [] st = Ok out1 →
  ∀ st', st' ∈ out1 → st' ∈ out.
Proof.
  intros Hf H Hst H1 st' Hst'. apply list_elem_of_split in Hst as (l1 & l2 & ->). revert new H.
  induction l1 as [|s l1 IH]; intros new H; cbn [foldM app] in H.
  - destruct (Hf st) as [[e He]|[add Ha]]; [by rewrite He in H|]. rewrite Ha in H, H1. rewrite bind_Ok in H.
    injection H1 as <-. assert (st' ∈ add_stacks new add) as Hin.
    { apply elem_of_add_stacks in Hst' as [?|?]; [set_solver|]. apply elem_of_add_stacks. by right. }
    revert H Hin. generalize (add_stacks new add). clear -Hf. induction l2 as [|s l2 IH]; intros x H Hin; [by simplify_eq/=|].
    cbn [foldM] in H. destruct (Hf s) as [[e He]|[add Ha]]; [by rewrite He in H|]. rewrite Ha, bind_Ok in H. apply (IH _ H).
    apply elem_of_add_stacks. by left.
  - apply bind_Ok_inv in H as (s' & _ & H). by apply (IH s').
Qed.

Lemma accept_reaches c stacks st out1 st' :
  ready rules stacks → st ∈ stacks → yields (λ n, accept_chr n rules c [] st) out1 → st' ∈ out1 →
  ∃ next, yields (λ n, accept n rules stacks c) next ∧ st' ∈ next ∧ ready rules next.
Proof.
  intros Hr Hst Hy Hst'.
  destruct (ends_yields _ _ (accept_ok rules G _ Henc (generates_empty_closed G) Hfree stacks c Hr)) as (next & Hn & Hready & _).
  exists next. split; [done|]. split; [|done]. destruct Hn as (? & N & -> & Hn), Hy as (? & N' & -> & Hy).
  specialize (Hn (N `max` N') ltac:(lia)). specialize (Hy (N `max` N') ltac:(lia)).
  eapply (fold_independent _ stacks [] next st out1); [|exact Hn|done|exact Hy|done].
  intros s. apply accept_chr_independent.
Qed.

(** ** What is not rejected is accepted *)

(** No rule refers to whole tokens. *)
Definition no_tokens : Prop := Forall (Forall (λ e, is_token_elem e = false)) rules.

Lemma no_token_sym p s ss : no_tokens → denotes rules p (s :: ss) → is_terminal s = true → is_char_sym s = true.
Proof.
  intros Hno Hd Ht. pose proof (denotes_elem _ _ _ _ Hd) as [Hp _]. unfold elem_at in Hp.
  apply bind_Ok_inv in Hp as (r & Hr & Hv). apply vget_inv in Hr, Hv.
  pose proof (Forall_lookup_1 _ _ _ _ (Forall_lookup_1 _ _ _ _ Hno Hr) Hv) as H. cbn in H. rewrite is_token_ok in H. by destruct s.
Qed.

Lemma ready_top p st : ready_stack rules (p :: st) → ∃ s ss, denotes rules p (s :: ss) ∧ is_terminal s = true.
Proof.
  intros (sss & Hd & Ht). inversion Hd as [|? ss ? ? [Hp Hne] _]; subst. destruct ss as [|s ss]; [done|]. by exists s, ss.
Qed.

Lemma admits_run w id u stacks st : no_tokens → ready rules stacks → st ∈ stacks → admits w id u st →
  ∃ out, yields (λ n, run_chars n rules stacks w) out ∧ out ≠ [].
Proof.
  intros Hno. revert stacks st. induction w as [|c w IH]; intros stacks st Hr Hst Ha.
  { exists stacks. split; [by apply (ends_okP (Ok stacks))|]. by intros ->; set_solver. }
  destruct st as [|p st]; [by destruct Ha|].
  destruct (ready_top p st) as (s & ss & Hd & Ht); [unfold ready in Hr; rewrite Forall_forall in Hr; auto|].
  destruct (proj1 (admits_top (c :: w) id u p st s ss Hd) Ha) as [[Hc _]|(Hm & out1 & st' & Hy & Hst' & Ha')]; [by rewrite (no_token_sym p s ss) in Hc|].
  destruct (accept_reaches c stacks _ out1 st' Hr Hst Hy Hst') as (next & Hn & Hin & Hready).
  destruct (IH next st' Hready Hin Ha') as (out & Ho & Hne). exists out. split; [|done]. cbn [run_chars].
  eapply ends_bind; [exact Hn|]. intros ? ->. destruct (decide (next = [])) as [->|_]; [set_solver|]. exact Ho.
Qed.

(** One stack that takes the token in is enough. *)
Lemma accept_token_safe id w u partial piece stacks st :
  no_tokens → ready rules stacks → st ∈ stacks → admits w id u st →
  decode_utf8 piece partial = Ok (w ++ [0%Z], u) → (w ≠ [] ∨ pu_n_remain u ≠ 0%Z) →
  ends (λ n, accept_token n rules (GrammarState stacks partial) id piece)
    (λ g, ready rules (gs_stacks g) ∧ gs_stacks g ≠ [] ∧ gs_partial g = u ∧
       ∀ v, lang rules G (gs_stacks g) v ↔ ∃ st, st ∈ stacks ∧ token_rest rules G id w st v).
Proof.
  intros Hno Hr Hst Ha Hdec Hw. unfold accept_token. cbn [gs_partial gs_stacks]. rewrite Hdec. cbn [mbind res_bind fst snd].
  rewrite removelast_last.
  destruct (ends_yields _ _ (accept_token_stacks_ok rules G _ Henc (generates_empty_closed G) Hfree id w stacks Hr)) as (out & Hy & [Hready Hlang]).
  eapply ends_bind; [exact Hy|]. intros ? ->.
  assert (out ≠ []) as Hne; [|rewrite decide_False by done; by apply (ends_okP (Ok _))].
  assert (ends (λ n, foldM (accept_token_stack n rules id w) [] stacks) (λ out, out ≠ [])) as (? & N & Hne & HN).
  { apply (ends_mono _ (λ out, ready rules out ∧ (st ∈ stacks → out ≠ []))); [|by intros ? [_ H]; apply H].
    apply (ends_foldM (λ n, accept_token_stack n rules id w) (λ pre out, ready rules out ∧ (st ∈ pre → out ≠ []))); [split; [constructor|set_solver]|].
    intros pre s post new E [Hnew Hin]. unfold ready in Hr. rewrite Forall_forall in Hr.
    assert (s ∈ stacks) as Hs by (rewrite E; set_solver).
    destruct (decide (s = st)) as [->|Hns].
    - destruct st as [|p st]; [exfalso; destruct w; cbn in Ha; naive_solver|].
      destruct (ready_top p st (Hr _ Hst)) as (y & ys & Hd & Ht). pose proof (no_token_sym p y ys Hno Hd Ht) as Hc.
      destruct (admits_run w id u [p :: st] (p :: st) Hno) as (cur & Hcur & Hcne); [by constructor; [apply Hr|]|by left|done|].
      destruct (ends_yields _ _ (run_chars_ok rules G _ Henc (generates_empty_closed G) Hfree [p :: st] w ltac:(by constructor; [apply Hr|])))
        as (cur' & Hcur' & [Hcr _]). rewrite (yields_inj _ _ _ Hcur' Hcur) in Hcr. clear Hcur'.
      unfold accept_token_stack. destruct (denotes_elem _ _ _ _ Hd) as [-> _]. cbn [mbind res_bind]. rewrite is_token_ok.
      assert ((match y with STok _ _ => true | _ => false end) = false) as -> by by destruct y.
      eapply ends_bind; [exact Hcur|]. intros ? ->. apply (ends_okP (Ok _)). cbn [okP]. split; [by apply ready_add_stacks|].
      intros _. by apply add_stacks_ne.
    - eapply ends_mono; [apply (accept_token_stack_ok rules G _ Henc (generates_empty_closed G) Hfree id w new s (Hr _ Hs) Hnew)|].
      intros out' (add & -> & Hadd & _). split; [by apply ready_add_stacks|]. intros [Hp|Hp%list_elem_of_singleton]%elem_of_app; [|by destruct Hns].
      intros E'. specialize (Hin Hp). destruct new as [|x new]; [done|]. assert (x ∈ add_stacks (x :: new) add) as Hx by (apply elem_of_add_stacks; set_solver).
      rewrite E' in Hx. set_solver. }
  destruct Hy as (? & M & -> & HM). specialize (HM (N `max` M) ltac:(lia)). specialize (HN (N `max` M) ltac:(lia)). congruence.
Qed.

(** Whether a token fits is decidable: the loops above decide it. *)
Lemma exists_dec {A} (P : A → Prop) (l : list A) : (∀ x, x ∈ l → P x ∨ ¬ P x) → (∃ x, x ∈ l ∧ P x) ∨ ∀ x, x ∈ l → ¬ P x.
Proof.
  induction l as [|x l IH]; intros H; [right; set_solver|]. destruct (H x ltac:(left)); [left; set_solver|].
  destruct IH; [set_solver|left; set_solver|right; set_solver].
Qed.

Lemma admits_dec w id u st : ready_stack rules st → admits w id u st ∨ ¬ admits w id u st.
Proof.
  revert st. induction w as [|c w IH]; intros st Hr; pose proof Hr as (sss & Hsd & Ht);
    destruct Hsd as [|p ss rest sss [Hp Hne] Hrest]; try (destruct ss as [|s ss]; [done|]; cbn in Ht).
  - rewrite admits_nil. destruct (decide (pu_n_remain u = 0)%Z); [by left|right; by intros []].
  - rewrite (admits_top _ _ _ _ _ _ _ Hp). destruct (decide (pu_n_remain u = 0)%Z); [by left; left|]. destruct (is_char_sym s), (sym_partial s u); [by left; right|right; intros [?|[? ?]]; done..].
  - right. by intros [? _].
  - rewrite (admits_top _ _ _ _ _ _ _ Hp). destruct (is_char_sym s) eqn:Ec.
    + destruct (accept_chr_terminal p rest s ss sss Hp Hrest Ec) as (out & _ & _ & Hready & _ & _ & Hacc).
      destruct (sym_char s c) eqn:Em; [|by right; intros [[? _]|[? _]]]. rewrite Forall_forall in Hready.
      destruct (exists_dec (admits w id u) out) as [(st' & Hin & Ha)|Hno]; [auto| |].
      * left. right. split; [done|]. exists out, st'. by split; [apply Hacc|].
      * right. intros [[? _]|(_ & out' & st' & Hy & Hin & Ha)]; [done|].
        rewrite (yields_inj _ _ _ Hy (Hacc c Em)) in Hin. by apply (Hno st').
    + assert (sym_char s c = false) by by destruct s. destruct (sym_token s id); [by left; left|right; intros [[_ ?]|[? _]]; congruence].
Qed.

(** ** llama_grammar_apply_impl *)

(** A decoded piece: its characters up to the first 0. *)
Lemma until_zero (x : list Z) : ∃ w rest, x ++ [0%Z] = w ++ 0%Z :: rest ∧ Forall (λ x, x ≠ 0)%Z w.
Proof.
  induction x as [|a x (w & rest & E & Hw)]; [by exists [], []|]. destruct (decide (a = 0)%Z) as [->|].
  - by exists [], (x ++ [0%Z]).
  - exists (a :: w), rest. cbn. rewrite E. split; [done|by constructor].
Qed.

Lemma candidate_remaining i x u id w rest : x = w ++ 0%Z :: rest → Forall (λ x, x ≠ 0)%Z w → remaining (Candidate i x 0 u id) w.
Proof. intros -> Hw. by exists rest. Qed.

Section apply.
Context (g : llama_grammar) (v : llama_vocab).

(** A grammar between two tokens. *)
Record usable : Prop := {
  us_vocab : g_vocab g = Some v;
  us_rules : g_rules g = rules;
  us_ready : ready rules (gs_stacks (g_state g));
  us_stacks : gs_stacks (g_state g) ≠ [];
  us_partial : (-1 ≤ pu_n_remain (gs_partial (g_state g)) ≤ 3)%Z
}.
Hypothesis Hg : usable.

(** a token of the vocabulary *)
Definition known (id : Z) (piece : list Z) : Prop := token_to_piece v id = Ok piece ∧ Forall is_byte piece.

(** The characters of a piece, read after what is pending, fit one of the stacks. *)
Definition piece_fits (id : Z) (piece : list Z) : Prop :=
  ∃ w rest u, decode_utf8 piece (gs_partial (g_state g)) = Ok (w ++ 0%Z :: rest, u) ∧ Forall (λ x, x ≠ 0)%Z w ∧
    ∃ st, st ∈ gs_stacks (g_state g) ∧ admits w id u st.

(** What apply_impl lets through. *)
Definition allowed (id : Z) (piece : list Z) : Prop :=
  if is_eog v id then [] ∈ gs_stacks (g_state g) else deref piece ≠ 0%Z ∧ piece_fits id piece.

Definition masked (d : llama_token_data) : llama_token_data := TokenData (td_id d) NegInf.

(** Candidate [i] after the first loop. *)
Definition sorted (data : list llama_token_data) (cs : list llama_grammar_candidate) (i : nat) (d : llama_token_data) : Prop :=
  ∃ piece, known (td_id d) piece ∧
    if is_eog v (td_id d) then data !! i = Some (if allow_eog g then d else masked d) ∧ ∀ c, c ∈ cs → c_index c ≠ i
    else if decide (deref piece = 0)%Z then data !! i = Some (masked d) ∧ ∀ c, c ∈ cs → c_index c ≠ i
    else data !! i = Some d ∧ ∃ r, decode_utf8 piece (gs_partial (g_state g)) = Ok r ∧ (∃ x, r.1 = x ++ [0%Z]) ∧
      ∀ c, c ∈ cs ∧ c_index c = i ↔ c = Candidate i r.1 0 r.2 (td_id d).

Lemma mask_logit_ok data i d : data !! i = Some d → mask_logit data i = Ok (<[i := masked d]> data).
Proof.
  intros H. unfold mask_logit. rewrite (vget_ok _ _ _ H), bind_Ok. apply vset_ok. by apply lookup_lt_Some in H.
Qed.

Lemma sort_candidates_ok data :
  (∀ d, d ∈ data → ∃ piece, known (td_id d) piece) →
  okP (foldM (sort_candidate g v) (data, []) (seq 0 (length data))) (λ r,
    length r.1 = length data ∧ (∀ c, c ∈ r.2 → c_index c < length data) ∧ ∀ i d, data !! i = Some d → sorted r.1 r.2 i d).
Proof.
  intros Hknown. eapply okP_mono; [apply (okP_for _ (λ k r, length r.1 = length data ∧ (∀ c, c ∈ r.2 → c_index c < k) ∧
    (∀ i d, i < k → data !! i = Some d → sorted r.1 r.2 i d) ∧ ∀ i, k ≤ i → r.1 !! i = data !! i))|].
  - split_and!; [done|set_solver|lia|done].
  - intros k [da cs] Hk (Hlen & Hidx & Hdone & Hrest). cbn [fst snd] in *.
    destruct (lookup_lt_is_Some_2 data k Hk) as [d Hd]. destruct (Hknown d) as (piece & Hp & Hb); [by eapply list_elem_of_lookup_2|].
    assert (da !! k = Some d) as Hda by (by rewrite Hrest).
    assert (∀ cs' d', (∀ c, c ∈ cs' → c ∈ cs ∨ c_index c = k) → (∀ c, c ∈ cs → c ∈ cs') → sorted (<[k := d']> da) cs' k d →
      length (<[k := d']> da) = length data ∧ (∀ c, c ∈ cs' → c_index c < S k) ∧
      (∀ i d, i < S k → data !! i = Some d → sorted (<[k := d']> da) cs' i d) ∧ ∀ i, S k ≤ i → (<[k := d']> da) !! i = data !! i) as Hstep.
    { intros cs' d' Hcs Hcs' Hs. rewrite length_insert. split_and!; [done|intros c [Hc%Hidx| ->]%Hcs; lia| |].
      - intros i di Hi Hdi. destruct (decide (i = k)) as [->|Hne]; [by simplify_eq|].
        destruct (Hdone i di ltac:(lia) Hdi) as (pi & Hki & H). exists pi. split; [done|]. rewrite list_lookup_insert_ne by done.
        assert (∀ c, c ∈ cs' → c_index c = i → c ∈ cs) as Hback by (intros c [?|?]%Hcs ?; [done|congruence]).
        destruct (is_eog v (td_id di)); [destruct H as [? H]; split; [done|]; intros c Hc E; by apply (H c); [apply Hback|]|].
        destruct (decide (deref pi = 0)%Z); [destruct H as [? H]; split; [done|]; intros c Hc E; by apply (H c); [apply Hback|]|].
        destruct H as (? & r & Hr & Hx & Hc). split; [done|]. exists r. split_and!; [done..|]. intros c. rewrite <- Hc. naive_solver.
      - intros i Hi. rewrite list_lookup_insert_ne by lia. apply Hrest. lia. }
    assert (<[k := d]> da = da) as Hid by by apply list_insert_id.
    assert (∀ c, c ∈ cs → c_index c ≠ k) as Hno by (intros c Hc%Hidx; lia).
    assert (∀ d', (<[k := d']> da) !! k = Some d') as Hlk by (intros; apply list_lookup_insert_eq; lia).
    unfold sort_candidate. rewrite (vget_ok _ _ _ Hda), bind_Ok, Hp, bind_Ok.
    destruct (is_eog v (td_id d)) eqn:Eeog; [destruct (allow_eog g) eqn:Ea|destruct (decide (deref piece = 0)%Z) as [E0|E0]].
    + cbn [okP fst snd]. rewrite <- Hid. apply Hstep; [auto..|]. exists piece. rewrite Eeog, Ea. by rewrite Hlk.
    + rewrite (mask_logit_ok _ _ _ Hda), bind_Ok. cbn [okP fst snd]. apply Hstep; [auto..|]. exists piece. rewrite Eeog, Ea. by rewrite Hlk.
    + rewrite (mask_logit_ok _ _ _ Hda), bind_Ok. cbn [okP fst snd]. apply Hstep; [auto..|]. exists piece. rewrite Eeog, decide_True by done. by rewrite Hlk.
    + eapply okP_bind; [apply okP_ok; pose proof (decode_total piece (gs_partial (g_state g)) (us_partial Hg) Hb) as Ht;
        apply okP_ok in Ht as (r & Hr & Hx & _); exists r; split; [exact Hr|exact (conj Hr Hx)]|].
      intros r [Hr Hx]. cbn [okP fst snd]. rewrite <- Hid. apply Hstep.
      * intros c [?|Hx1%list_elem_of_singleton]%elem_of_app; [by left|right; by rewrite Hx1].
      * set_solver.
      * exists piece. rewrite Eeog, decide_False by done. split; [done|]. rewrite Hlk. split; [done|]. exists r. split_and!; [done..|].
        intros c. rewrite elem_of_app, list_elem_of_singleton. naive_solver.
  - intros r (H1 & H2 & H3 & _). split_and!; [done..|]. intros i d Hd. apply H3; [|done]. by apply lookup_lt_Some in Hd.
Qed.

(** The last loop masks the rejected candidates. *)
Lemma mask_rejects_ok rejects data : (∀ c, c ∈ rejects → c_index c < length data) →
  okP (foldM (λ data reject, mask_logit data (c_index reject)) data rejects) (λ data',
    length data' = length data ∧ ∀ i d, data !! i = Some d →
      data' !! i = Some (if decide (i ∈ c_index <$> rejects) then masked d else d)).
Proof.
  intros Hidx. eapply okP_mono; [apply (okP_foldM _ (λ pre data', length data' = length data ∧ ∀ i d, data !! i = Some d →
      data' !! i = Some (if decide (i ∈ c_index <$> pre) then masked d else d)))|by intros].
  - split; [done|]. intros i d Hd. by rewrite decide_False by set_solver.
  - intros pre c post da E [Hlen Hda]. destruct (lookup_lt_is_Some_2 data (c_index c)) as [d Hd]; [apply Hidx; rewrite E; set_solver|].
    pose proof (Hda _ _ Hd) as Hc. rewrite (mask_logit_ok _ _ _ Hc). cbn [okP]. rewrite length_insert. split; [done|]. intros i di Hdi.
    assert (∀ j, j ∈ c_index <$> pre ++ [c] ↔ j ∈ c_index <$> pre ∨ j = c_index c) as Hin.
    { intros j. rewrite fmap_app, elem_of_app. cbn. by rewrite list_elem_of_singleton. }
    destruct (decide (i = c_index c)) as [->|Hne].
    + simplify_eq. rewrite list_lookup_insert_eq by (apply lookup_lt_Some in Hc; lia).
      rewrite (decide_True (P := c_index c ∈ c_index <$> pre ++ [c])) by (apply Hin; by right). by case_decide.
    + rewrite list_lookup_insert_ne, (Hda _ _ Hdi) by done. f_equal.
      destruct (decide (i ∈ c_index <$> pre)) as [Hi|Hi]; [rewrite decide_True by (apply Hin; by left)|rewrite decide_False by (rewrite Hin; naive_solver)]; done.
Qed.

(** the candidates of the grammar and their lengths *)
Definition fits_fuel (fuel : nat) (data : list llama_token_data) : Prop :=
  0 < fuel ∧ ∀ d piece r, d ∈ data → token_to_piece v (td_id d) = Ok piece →
    decode_utf8 piece (gs_partial (g_state g)) = Ok r → length r.1 ≤ fuel.

(** Each entry is kept if its token is allowed and masked otherwise. *)
Definition filtered (data data' : list llama_token_data) : Prop :=
  length data' = length data ∧ ∀ i d piece, data !! i = Some d → known (td_id d) piece →
    (allowed (td_id d) piece ∧ data' !! i = Some d) ∨ (¬ allowed (td_id d) piece ∧ data' !! i = Some (masked d)).

Lemma apply_impl_ok fuel data :
  awaiting_trigger g = false → (∀ d, d ∈ data → ∃ piece, known (td_id d) piece) → fits_fuel fuel data →
  ends (λ n, apply_impl fuel n g data) (filtered data).
Proof.
  intros Hawait Hknown [Hpos Hfuel]. unfold apply_impl. rewrite (us_vocab Hg). cbn [of_option mbind res_bind]. rewrite Hawait.
  pose proof (sort_candidates_ok data Hknown) as Hs.
  destruct (foldM (sort_candidate g v) (data, []) (seq 0 (length data))) as [[da cs]|]; [|done]. cbn [mbind res_bind].
  destruct Hs as (Hlen & Hidx & Hsorted). cbn [fst snd] in *.
  assert (∀ c, c ∈ cs → ∃ i d piece r x, data !! i = Some d ∧ known (td_id d) piece ∧
      decode_utf8 piece (gs_partial (g_state g)) = Ok r ∧ r.1 = x ++ [0%Z] ∧ c = Candidate i r.1 0 r.2 (td_id d)) as Hcs.
  { intros c Hc. destruct (lookup_lt_is_Some_2 data (c_index c) (Hidx c Hc)) as [d Hd].
    destruct (Hsorted _ _ Hd) as (piece & Hp & H). destruct (is_eog v (td_id d)); [by destruct (proj2 H c Hc)|].
    destruct (decide (deref piece = 0)%Z); [by destruct (proj2 H c Hc)|]. destruct H as (_ & r & Hr & (x & Hx) & Hiff).
    exists (c_index c), d, piece, r, x. split_and!; [done..|]. by apply Hiff. }
  rewrite (us_rules Hg). eapply ends_bind.
  - apply (reject_with_ok (λ n, reject_candidates_for_stack fuel n rules) rejected _ cs (us_stacks Hg)).
    intros st cs' _ Hst Hsub. apply reject_for_stack_ok; [|done|].
    + pose proof (us_ready Hg) as Hr. unfold ready in Hr. rewrite Forall_forall in Hr. auto.
    + intros c Hc. destruct (Hcs c (Hsub c Hc)) as (i & d & piece & r & x & Hd & [Hp _] & Hr & Hx & ->).
      destruct (until_zero x) as (w & rest & E & Hw). exists w. split; [eapply candidate_remaining; [by rewrite Hx|done]|].
      pose proof (Hfuel d piece r (list_elem_of_lookup_2 _ _ _ Hd) Hp Hr) as Hl. rewrite Hx, E, length_app in Hl. simpl in Hl. lia.
  - intros rejects Hrej. cbn beta in Hrej. apply ends_okP. eapply okP_mono; [apply mask_rejects_ok; intros c [Hc _]%Hrej; rewrite Hlen; auto|].
    intros data' [Hlen' Hdata']. split; [congruence|]. intros i d piece Hd Hkn. destruct (Hsorted i d Hd) as (piece' & Hkn' & H).
    assert (piece' = piece) as -> by (destruct Hkn as [E1 _], Hkn' as [E2 _]; congruence).
    assert ((∀ c, c ∈ cs → c_index c ≠ i) → i ∉ c_index <$> rejects) as Hout.
    { intros Hno (c & -> & [Hc _]%Hrej)%list_elem_of_fmap. by apply (Hno c). }
    unfold allowed. destruct (is_eog v (td_id d)).
    + destruct H as [Hda Hno]. rewrite (Hdata' _ _ Hda), decide_False by by apply Hout. unfold allow_eog. case_bool_decide; [by left|by right].
    + destruct (decide (deref piece = 0)%Z) as [E0|E0].
      * destruct H as [Hda Hno]. right. rewrite (Hdata' _ _ Hda), decide_False by by apply Hout. split; [by intros [? _]|done].
      * destruct H as (Hda & r & Hr & (x & Hx) & Hiff). rewrite (Hdata' _ _ Hda). destruct (until_zero x) as (w & rest & E & Hw).
        pose proof (proj2 (Hiff _) eq_refl) as [Hc0 _]. set (c0 := Candidate i r.1 0 r.2 (td_id d)) in *.
        assert (remaining c0 w) as Hrem by (eapply candidate_remaining; [by rewrite Hx|done]).
        assert (piece_fits (td_id d) piece ↔ ∃ st, st ∈ gs_stacks (g_state g) ∧ admits w (td_id d) r.2 st) as Hfits.
        { destruct r as [r1 u]. cbn in Hx, Hr |- *. split.
          - intros (w' & rest' & u' & Hr' & Hw' & Hst). rewrite Hr in Hr'. injection Hr' as E1 <-.
            assert (w' = w) as <-; [|done]. eapply (remaining_inj c0); [by exists rest'|done].
          - intros Hst. exists w, rest, u. by rewrite Hr, Hx, E. }
        assert (i ∈ c_index <$> rejects ↔ ∀ st, st ∈ gs_stacks (g_state g) → ¬ admits w (td_id d) r.2 st) as Hin.
        { rewrite list_elem_of_fmap. split.
          - intros (c & Hi & [Hc Hall]%Hrej) st Hst. assert (c = c0) as -> by (apply Hiff; done).
            by apply (rejected_iff st c0 w Hrem), Hall.
          - intros Hall. exists c0. split; [done|]. apply Hrej. split; [done|]. intros st Hst. apply (rejected_iff st c0 w Hrem). by apply Hall. }
        pose proof (us_ready Hg) as Hready. unfold ready in Hready. rewrite Forall_forall in Hready.
        destruct (exists_dec (admits w (td_id d) r.2) (gs_stacks (g_state g))) as [Hex|Hno]; [intros st Hst; apply admits_dec; auto| |].
        -- left. rewrite decide_False by (rewrite Hin; destruct Hex as (st & ? & ?); intros Hall; by apply (Hall st)). split; [|done]. split; [done|by apply Hfits].
        -- right. rewrite decide_True by by apply Hin. split; [|done]. intros [_ (st & ? & ?)%Hfits]. by apply (Hno st).
Qed.
End apply.

(** ** llama_grammar_accept_impl, once the grammar constrains the text *)

(** The pieces do not decode to the code point 0 (which ends the code points of
    a candidate), as an overlong encoding does. *)
Definition no_nul (g : llama_grammar) (piece : list Z) : Prop :=
  ∀ w rest u, decode_utf8 piece (gs_partial (g_state g)) = Ok (w ++ 0%Z :: rest, u) → Forall (λ x, x ≠ 0)%Z w → rest = [].

Lemma accept_allowed g v id piece :
  usable g v → awaiting_trigger g = false → no_tokens → known v id piece → no_nul g piece → allowed g v id piece →
  ends (λ n, accept_impl n g id) (λ g', usable g' v ∧ awaiting_trigger g' = false ∧
    if is_eog v id then g' = g else ∃ cs, decode_utf8 piece (gs_partial (g_state g)) = Ok (cs ++ [0%Z], gs_partial (g_state g')) ∧
      ∀ w, lang rules G (gs_stacks (g_state g')) w ↔ ∃ st, st ∈ gs_stacks (g_state g) ∧ token_rest rules G id cs st w).
Proof.
  intros Hg Hawait Hno [Hp Hb] Hnul Hall. unfold accept_impl. rewrite (us_vocab _ _ Hg). cbn [of_option mbind res_bind]. rewrite Hp.
  cbn [mbind res_bind]. rewrite Hawait. unfold allowed in Hall. destruct (is_eog v id).
  - unfold allow_eog. rewrite bool_decide_true by done. by apply (ends_okP (Ok g)).
  - destruct Hall as (H0 & w & rest & u & Hdec & Hw & st & Hst & Ha). rewrite (Hnul _ _ _ Hdec Hw) in Hdec.
    rewrite (us_rules _ _ Hg). destruct (g_state g) as [stacks partial] eqn:Eg. cbn [gs_stacks gs_partial] in *.
    pose proof (us_ready _ _ Hg) as Hready. pose proof (us_partial _ _ Hg) as Hpart. rewrite Eg in Hready, Hpart. cbn in Hready, Hpart.
    eapply ends_bind; [apply (accept_token_safe id w u partial piece stacks st Hno Hready Hst Ha Hdec)|].
    + destruct (decode_nonempty _ _ _ H0 Hdec) as [Hx|Hx]; [left; by intros ->|by right].
    + intros s (H1 & H2 & H3 & H4). apply (ends_okP (Ok _)). cbn [okP]. pose proof (decode_total piece partial Hpart Hb) as Ht.
      rewrite Hdec in Ht. destruct Ht as [_ Ht]. split; [split|split]; cbn; try done; try apply Hg; [by rewrite H3|]. exists w. by rewrite H3.
Qed.
End rejection.

(** ** Generation: tokens that were let through and then accepted *)

(** llama_grammar_apply_impl lets the token through. *)
Definition passes (g : llama_grammar) (v : llama_vocab) (id : Z) : Prop :=
  ∃ fuel, fits_fuel g v fuel [TokenData id (Logit 0)] ∧
    yields (λ n, apply_impl fuel n g [TokenData id (Logit 0)]) [TokenData id (Logit 0)].

Lemma passes_allowed rules G g v id piece : encodes rules G → left_recursion_free G → usable rules g v → awaiting_trigger g = false →
  known v id piece → passes g v id ↔ allowed rules g v id piece.
Proof.
  intros Henc Hfree Hu Ha Hkn. set (d := TokenData id (Logit 0)).
  assert (∀ fuel, fits_fuel g v fuel [d] → ∃ data', yields (λ n, apply_impl fuel n g [d]) data' ∧
    ((allowed rules g v id piece ∧ data' = [d]) ∨ (¬ allowed rules g v id piece ∧ data' = [masked d]))) as Hrun.
  { intros fuel Hfit. destruct (ends_yields _ _ (apply_impl_ok rules G Henc Hfree g v Hu fuel [d] Ha ltac:(intros ? ->%list_elem_of_singleton; by exists piece) Hfit))
      as (data' & Hy & Hlen & H). exists data'. split; [done|]. destruct data' as [|x [|]]; [done| |done].
    destruct (H 0 d piece eq_refl Hkn) as [[? Hx]|[? Hx]]; injection Hx as ->; [by left|by right]. }
  split.
  - intros (fuel & Hfit & Hy). destruct (Hrun fuel Hfit) as (data' & Hy' & [[? _]|[_ E]]); [done|].
    rewrite (yields_inj _ _ _ Hy' Hy) in E. done.
  - intros Hal. pose proof (decode_total piece (gs_partial (g_state g)) (us_partial _ _ _ Hu) (proj2 Hkn)) as Ht.
    destruct (decode_utf8 piece (gs_partial (g_state g))) as [r|] eqn:Hr; [|done]. exists (S (length r.1)).
    assert (fits_fuel g v (S (length r.1)) [d]) as Hfit.
    { split; [lia|]. intros d' p' r' ->%list_elem_of_singleton Hp' Hr'. cbn in Hp'. rewrite (proj1 Hkn) in Hp'. injection Hp' as <-. rewrite Hr in Hr'. injection Hr' as <-. lia. }
    split; [done|]. destruct (Hrun _ Hfit) as (data' & Hy' & [[_ ->]|[? _]]); done.
Qed.

Section generation.
Context (rules : llama_grammar_rules) (G : grammar) (v : llama_vocab).
Hypothesis Henc : encodes rules G.
Hypothesis Hfree : left_recursion_free G.
Hypothesis Hno : no_tokens rules.

Definition not_tok (s : sym) : Prop := match s with STok _ _ => False | _ => True end.

Lemma denotes_no_tok p ss : denotes rules p ss → Forall not_tok ss.
Proof.
  intros (r & e & post & Hr & Hd & _ & _). pose proof (Forall_lookup_1 _ _ _ _ Hno Hr) as Hf. cbn in Hf.
  apply (Forall_drop _ p.2) in Hf. rewrite Hd in Hf. apply Forall_app in Hf as [Hf _]. clear Hd.
  induction ss as [|s ss IH]; [constructor|]. unfold enc_seq in Hf. rewrite fmap_cons in Hf. cbn [concat] in Hf.
  apply Forall_app in Hf as [H1 H2]. constructor; [|by apply IH]. destruct s as [| | |[] id]; try done; by inversion_clear H1.
Qed.

Lemma gen_no_tok ss w : gen G ss w → Forall not_tok ss → Forall (λ t, match t with Chr _ => True | Tok _ => False end) w.
Proof.
  intros Hg. induction Hg as [|s ss c w Hs Hg IH|s ss id w Hs Hg IH|r alts alt ss u w Hr Ha Hu IHu Hw IHw]; intros Hf;
    [constructor|inversion_clear Hf; constructor; auto|inversion_clear Hf; by destruct s|]. inversion_clear Hf.
  apply Forall_app. split; [|auto]. apply IHu. apply list_elem_of_lookup in Ha as [k Ha].
  destruct (lookup_lt_is_Some_2 (alt_starts 0 alts) k) as [i Hi]; [rewrite length_alt_starts; by apply lookup_lt_Some in Ha|].
  eapply denotes_no_tok. by eapply denotes_alternate.
Qed.

Lemma stack_no_tok st id w : ¬ stack_lang rules G st (Tok id :: w).
Proof.
  intros (sss & Hd & Hg). apply gen_no_tok in Hg; [by inversion Hg|]. clear Hg. induction Hd as [|p ss st sss [Hp _] _ IH]; [constructor|].
  cbn. apply Forall_app. split; [by eapply denotes_no_tok|done].
Qed.

(** What is left after a token of characters. *)
Lemma token_rest_chars id cs stacks w : ready rules stacks →
  (∃ st, st ∈ stacks ∧ token_rest rules G id cs st w) ↔ lang rules G stacks (chars cs ++ w) ∧ chars cs ++ w ≠ [].
Proof.
  intros Hr. unfold ready in Hr. rewrite Forall_forall in Hr. split.
  - intros (st & Hst & [H|[Hc H]]); [by apply stack_no_tok in H|]. split; [by exists st|]. intros E. rewrite E in H.
    apply (ready_stack_nil rules G st (Hr _ Hst)) in H as ->. by destruct Hc as (? & ? & ? & _).
  - intros [(st & Hst & H) Hne]. exists st. split; [done|]. right. split; [|done].
    destruct st as [|p st].
    + rewrite (stack_lang_at rules G [] []) in H by constructor. inversion H; done.
    + destruct (ready_top rules p st (Hr _ Hst)) as (s & ss & Hd & Ht). exists p, st. split; [done|]. exists s, ss. split; [done|].
      by eapply no_token_sym.
Qed.

(** A run of the sampler: every token was let through by llama_grammar_apply_impl
    and then taken in by llama_grammar_accept_impl. *)
Inductive sampled (g0 : llama_grammar) : list (list Z) → llama_grammar → Prop :=
  | sampled_start : sampled g0 [] g0
  | sampled_token ps g1 id piece g2 :
      sampled g0 ps g1 → is_eog v id = false → known v id piece → no_nul g1 piece → passes g1 v id →
      yields (λ n, accept_impl n g1 id) g2 → sampled g0 (ps ++ [piece]) g2.

(** The stacks after the text [cps]. *)
Definition has_read (g0 : llama_grammar) (cps : list Z) (g : llama_grammar) : Prop :=
  ∀ w, w ≠ [] ∨ pu_n_remain (gs_partial (g_state g)) = 0%Z →
    lang rules G (gs_stacks (g_state g)) w ↔ lang rules G (gs_stacks (g_state g0)) (chars cps ++ w).

Lemma decode_pieces_snoc ps st cs u piece cs' u' :
  decode_pieces ps st = Ok (cs, u) → decode_utf8 piece u = Ok (cs' ++ [0%Z], u') → decode_pieces (ps ++ [piece]) st = Ok (cs ++ cs', u').
Proof.
  revert st cs. induction ps as [|p ps IH]; intros st cs H1 H2; cbn [decode_pieces app] in *.
  - injection H1 as <- <-. rewrite H2. cbn. by rewrite removelast_last, app_nil_r.
  - apply bind_Ok_inv in H1 as (r & Hr & H1). apply bind_Ok_inv in H1 as ([q1 q2] & Hq & H1). injection H1 as <- <-.
    rewrite Hr, bind_Ok, (IH _ _ Hq H2), bind_Ok. cbn. by rewrite app_assoc.
Qed.

Lemma sampled_ok g0 ps g : usable rules g0 v → awaiting_trigger g0 = false → sampled g0 ps g →
  usable rules g v ∧ awaiting_trigger g = false ∧
  ∃ cps, decode_pieces ps (gs_partial (g_state g0)) = Ok (cps, gs_partial (g_state g)) ∧ has_read g0 cps g.
Proof.
  intros Hu Ha H. induction H as [|ps g1 id piece g2 _ (Hu1 & Ha1 & cps & Hdec & Hread) Heog Hkn Hnul Hpass Hy].
  - split; [done|]. split; [done|]. exists []. by split.
  - pose proof (proj1 (passes_allowed rules G g1 v id piece Henc Hfree Hu1 Ha1 Hkn) Hpass) as Hal.
    destruct (ends_yields _ _ (accept_allowed rules G Henc Hfree g1 v id piece Hu1 Ha1 Hno Hkn Hnul Hal)) as (g2' & Hy' & Hu2 & Ha2 & H).
    rewrite (yields_inj _ _ _ Hy' Hy) in *. clear Hpass. rewrite Heog in H. destruct H as (cs & Hdec2 & Hl). split; [done|]. split; [done|].
    exists (cps ++ cs). split; [by eapply decode_pieces_snoc|]. intros w Hw.
    rewrite Hl, token_rest_chars by apply Hu1.
    assert (chars cs ++ w ≠ []) as Hne.
    { destruct Hw as [Hw|Hw]; [by intros [_ ?]%app_eq_nil|]. unfold allowed in Hal. rewrite Heog in Hal. destruct Hal as [H0 _].
      destruct (decode_nonempty _ _ _ H0 Hdec2) as [Hx|Hx]; [|done]. intros [E _]%app_eq_nil. by destruct cs. }
    rewrite (Hread (chars cs ++ w)) by by left. unfold chars. rewrite fmap_app, <- app_assoc. naive_solver.
Qed.
End generation.

(** ** The meaning of what is let through: the texts of the grammar, as UTF-8 *)

(** Every symbol of the grammar generates a text of code points, and no class has
    a reversed range or one that ends beyond the code points. *)
Record sensible (G : grammar) : Prop := {
  se_text : ∀ s, in_grammar G s → ∃ cps, Forall is_code_point cps ∧ gen G [s] (chars cps);
  se_class : ∀ neg i l, in_grammar G (SClass neg i l) → Forall (λ i, item_ok i ∧ (default i.1 i.2 < 1114112)%Z) (i :: l)
}.

(** no class is negated *)
Definition positive (G : grammar) : Prop := ∀ s, in_grammar G s → negated s = false.

(** the texts of a rule *)
Definition language (G : grammar) (start : nat) (cps : list Z) : Prop :=
  Forall is_code_point cps ∧ gen G [SRef start] (chars cps).

Definition utf8 (cps : list Z) : list Z := concat (encode <$> cps).

(** the bytes begin the UTF-8 encoding of one of the texts *)
Definition begins (L : list Z → Prop) (bytes : list Z) : Prop := ∃ cps rest, L cps ∧ bytes ++ rest = utf8 cps.

Lemma utf8_app l1 l2 : utf8 (l1 ++ l2) = utf8 l1 ++ utf8 l2.
Proof. unfold utf8. by rewrite fmap_app, concat_app. Qed.

Lemma conts_swap c c' n m : n ≤ m → Z.shiftr c (6 * Z.of_nat n) = Z.shiftr c' (6 * Z.of_nat n) →
  ∃ top, conts c m = top ++ conts c n ∧ conts c' m = top ++ conts c' n.
Proof.
  intros Hle E. induction m as [|m IH]; [assert (n = 0) as -> by lia; by exists []|].
  destruct (decide (n = S m)) as [->|Hne]; [by exists []|]. destruct IH as (top & E1 & E2); [lia|].
  exists ((128 + Z.land (Z.shiftr c (6 * Z.of_nat m)) 63)%Z :: top). cbn [conts app]. rewrite E1, E2. split; [done|]. do 3 f_equal.
  assert (6 * Z.of_nat m = 6 * Z.of_nat n + 6 * (Z.of_nat m - Z.of_nat n))%Z as -> by lia.
  by rewrite <- !Z.shiftr_shiftr, E by lia.
Qed.

(** A character and another one that its first bytes can be completed to. *)
Lemma encode_swap c c' n : 0 < n ≤ n_conts c → is_code_point c →
  completes (PartialUtf8 (Z.shiftr c (6 * Z.of_nat n)) (Z.of_nat n)) c' →
  ∃ pre, encode c = pre ++ conts c n ∧ encode c' = pre ++ conts c' n.
Proof.
  intros Hn Hc (Hs & H2 & H3). cbn [pu_value pu_n_remain] in *.
  assert (n_conts c' = n_conts c ∧ Z.shiftr c' (6 * Z.of_nat (n_conts c)) = Z.shiftr c (6 * Z.of_nat (n_conts c))) as [Em Es].
  { assert (n_conts c' = n_conts c) as Em.
    { assert (n = 1 ∨ n = 2 ∨ n = 3) as Hn3 by (unfold n_conts in Hn; repeat case_decide; lia).
      unfold is_code_point, n_conts in *. rewrite !Z.shiftr_div_pow2 in Hs by lia.
      destruct Hn3 as [->|[->| ->]]; [change (2 ^ (6 * Z.of_nat 1))%Z with 64%Z in Hs; set (b := 64%Z) in Hs|
        change (2 ^ (6 * Z.of_nat 2))%Z with 4096%Z in Hs; set (b := 4096%Z) in Hs; specialize (H2 eq_refl)|
        change (2 ^ (6 * Z.of_nat 3))%Z with 262144%Z in Hs; set (b := 262144%Z) in Hs; specialize (H3 eq_refl)];
        pose proof (Z.div_mod c b ltac:(lia)); pose proof (Z.mod_pos_bound c b ltac:(lia));
        pose proof (Z.div_mod c' b ltac:(lia)); pose proof (Z.mod_pos_bound c' b ltac:(lia)); subst b; repeat case_decide; lia. }
    split; [done|]. assert (6 * Z.of_nat (n_conts c) = 6 * Z.of_nat n + 6 * (Z.of_nat (n_conts c) - Z.of_nat n))%Z as -> by lia.
    by rewrite <- !Z.shiftr_shiftr, Hs by lia. }
  destruct (conts_swap c c' n (n_conts c) ltac:(lia) (eq_sym Hs)) as (top & E1 & E2).
  exists ((lead (n_conts c) + Z.shiftr c (6 * Z.of_nat (n_conts c)))%Z :: top). unfold encode. by rewrite Em, Es, E1, E2.
Qed.

(** a character of which [n] bytes are missing *)
Lemma awaiting_partial_ok c n : 0 < n ≤ n_conts c → is_code_point c →
  partial_ok (PartialUtf8 (Z.shiftr c (6 * Z.of_nat n)) (Z.of_nat n)) ∧
  completes (PartialUtf8 (Z.shiftr c (6 * Z.of_nat n)) (Z.of_nat n)) c.
Proof.
  intros Hn Hc. unfold partial_ok, completes. cbn [pu_value pu_n_remain]. unfold is_code_point, n_conts in *.
  assert (n = 1 ∨ n = 2 ∨ n = 3) as Hn3 by (repeat case_decide; lia). rewrite !Z.shiftr_div_pow2 by lia.
  destruct Hn3 as [->|[->| ->]]; [change (2 ^ (6 * Z.of_nat 1))%Z with 64%Z; set (b := 64%Z)|
    change (2 ^ (6 * Z.of_nat 2))%Z with 4096%Z; set (b := 4096%Z)|change (2 ^ (6 * Z.of_nat 3))%Z with 262144%Z; set (b := 262144%Z)];
    pose proof (Z.div_mod c b ltac:(lia)); pose proof (Z.mod_pos_bound c b ltac:(lia)); subst b; repeat case_decide; lia.
Qed.

Section meaning.
Context (rules : llama_grammar_rules) (G : grammar).
Hypothesis Henc : encodes rules G.
Hypothesis Hfree : left_recursion_free G.
Hypothesis Hno : no_tokens rules.
Hypothesis Hse : sensible G.

Lemma seq_text ss : Forall (in_grammar G) ss → ∃ cps, Forall is_code_point cps ∧ gen G ss (chars cps).
Proof.
  induction 1 as [|s ss Hs _ (l2 & H2 & G2)]; [exists []; split; [done|constructor]|].
  destruct (se_text _ Hse s Hs) as (l1 & H1 & G1). exists (l1 ++ l2). split; [by apply Forall_app|].
  unfold chars. rewrite fmap_app. by apply (gen_app G [s] ss).
Qed.

Lemma stack_in_grammar st sss : stack_denotes rules st sss → Forall (in_grammar G) (concat sss).
Proof.
  induction 1 as [|p ss st sss [Hp _] _ IH]; [constructor|]. cbn. apply Forall_app. split; [by eapply denotes_in_grammar|done].
Qed.

Lemma class_sensible s : in_grammar G s → is_char_sym s = true → class_ok s ∧
  ∀ c u, partial_ok u → completes u c → negated s = false → sym_char s c = true → s ≠ SAny → is_code_point c.
Proof.
  intros Hin Hc. destruct s as [neg i l| | |]; try done. pose proof (se_class _ Hse _ _ _ Hin) as Hl. split.
  - cbn. eapply Forall_impl; [exact Hl|]. by intros j [? _].
  - intros c u Hu Hcc Hneg Hs _. cbn [negated sym_char] in Hneg, Hs. subst neg. rewrite xorb_false_l in Hs.
    apply existsb_exists in Hs as (j & Hj%list_elem_of_In & Hjc). rewrite Forall_forall in Hl. destruct (Hl j Hj) as [_ Hmax].
    destruct (partial_range_ok u Hu) as [_ Hr]. apply Hr in Hcc as Hlow. destruct Hcc as (Hsh & H2 & H3).
    destruct Hu as (Hn & Hv & _ & H1). unfold in_item in Hjc. unfold is_code_point. split.
    + destruct (decide (0 < c)%Z) as [|Hle]; [done|]. assert (pu_n_remain u = 1 ∨ pu_n_remain u = 2 ∨ pu_n_remain u = 3)%Z as [E|[E|E]] by lia; [|lia..].
      specialize (H1 E). rewrite E, Z.shiftr_div_pow2 in Hsh by lia. change (2 ^ (6 * 1))%Z with 64%Z in Hsh.
      assert (c / 64 ≤ 0 / 64)%Z by (apply Z.div_le_mono; lia). change (0 / 64)%Z with 0%Z in *. lia.
    + destruct j as [lo [hi|]]; cbn in *; apply bool_decide_eq_true in Hjc; lia.
Qed.

(** the incomplete character, if there is one, is the first one of [cps] *)
Definition goes_on (u : llama_partial_utf8) (cps : list Z) : Prop :=
  pu_n_remain u = 0%Z ∨ ∃ c cps', completes u c ∧ cps = c :: cps'.

Lemma gen_head ss c w : is_terminal (hd SAny ss) = true → gen G ss (Chr c :: w) → ∃ s ss', ss = s :: ss' ∧ sym_char s c = true ∧ gen G ss' w.
Proof.
  intros Ht Hg. destruct ss as [|s ss]; [inversion Hg|]. apply gen_chr_iff in Hg as [? ?]; [|done]. by exists s, ss.
Qed.

(** What a stack does with a character. *)
Lemma stack_step p rest c : ready_stack rules (p :: rest) →
  ∃ out, yields (λ n, accept_chr n rules c [] (p :: rest)) out ∧ ready rules out ∧
    ∀ w, stack_lang rules G (p :: rest) (Chr c :: w) ↔ lang rules G out w.
Proof.
  intros Hr. destruct (ends_yields _ _ (accept_chr_ok rules G _ Henc (generates_empty_closed G) Hfree c [] (p :: rest) Hr)) as (out & Hy & (add & -> & Hadd & Hl)).
  exists (add_stacks [] add). split; [done|]. split; [by apply ready_add_stacks; [constructor|]|].
  intros w. rewrite Hl, lang_add_stacks. split; [by right|]. intros [H|H]; [by apply lang_nil in H|done].
Qed.

(** A stack that a token fits has a text that begins with the characters of the token. *)
Lemma admits_sound w id u st : ready_stack rules st → admits rules w id u st →
  pu_n_remain u = 0%Z ∨ (partial_ok u ∧ ∃ c, is_code_point c ∧ completes u c) →
  ∃ cps, Forall is_code_point cps ∧ stack_lang rules G st (chars (w ++ cps)) ∧ goes_on u cps.
Proof.
  intros Hr Ha Hu. revert st Hr Ha. induction w as [|c w IH]; intros st Hr Ha.
  - destruct st as [|p rest].
    { destruct Ha as [_ Ha]. exists []. split; [done|]. split; [|by left]. exists []. split; constructor. }
    pose proof Hr as (sss & Hd & Ht). pose proof (stack_in_grammar _ _ Hd) as Hin. inversion Hd as [|? ss ? sss' [Hp Hne] Hd' E1 E2]; subst.
    destruct ss as [|s ss]; [done|]. cbn in Ht, Hin. apply Forall_cons in Hin as [Hs Hin].
    destruct (proj1 (admits_top _ _ _ _ _ _ _ _ Hp) Ha) as [Hn|[Hc Hpart]].
    + destruct (seq_text (s :: ss ++ concat sss')) as (cps & Hcps & Hg); [by constructor|]. exists cps. split; [done|]. split; [|by left].
      apply (stack_lang_at _ _ _ _ _ Hd). exact Hg.
    + destruct Hu as [Hn|(Hu & c0 & Hc0 & Hcc0)].
      { destruct (seq_text (s :: ss ++ concat sss')) as (cps & Hcps & Hg); [by constructor|]. exists cps. split; [done|]. split; [|by left].
        apply (stack_lang_at _ _ _ _ _ Hd). exact Hg. }
      destruct (class_sensible s Hs Hc) as [Hok Hcp].
      assert (∃ c, is_code_point c ∧ completes u c ∧ sym_char s c = true) as (c & Hcode & Hcc & Hsc).
      { apply (sym_partial_ok s u Hc Hok Hu) in Hpart. destruct (negated s) eqn:En; [exists c0; split; [done|]; split; [done|by apply Hpart]|].
        destruct (decide (s = SAny)) as [->|Hany]; [by exists c0|]. destruct Hpart as (c & Hcc & Hsc). exists c. split; [|done]. by apply (Hcp c u). }
      destruct (seq_text _ Hin) as (cps & Hcps & Hg). exists (c :: cps). split; [by constructor|]. split; [|right; by exists c, cps].
      apply (stack_lang_at _ _ _ _ _ Hd). cbn. by apply gen_chr_iff.
  - destruct st as [|p rest]; [by destruct Ha|]. destruct (ready_top rules p rest Hr) as (s & ss & Hp & Ht).
    destruct (proj1 (admits_top _ _ _ _ _ _ _ _ Hp) Ha) as [[Hc _]|(Hsc & out & st' & Hy & Hst' & Ha')]; [by rewrite (no_token_sym rules p s ss) in Hc|].
    destruct (stack_step p rest c Hr) as (out' & Hy' & Hready & Hl). rewrite (yields_inj _ _ _ Hy' Hy) in *.
    unfold ready in Hready. rewrite Forall_forall in Hready. destruct (IH st' (Hready _ Hst') Ha') as (cps & Hcps & Hs & Hg).
    exists cps. split; [done|]. split; [|done]. apply Hl. by exists st'.
Qed.

(** The other way around, if a negated class does not see an incomplete character. *)
Lemma admits_complete w id u st cps : ready_stack rules st → stack_lang rules G st (chars (w ++ cps)) → goes_on u cps →
  pu_n_remain u = 0%Z ∨ (partial_ok u ∧ positive G) → admits rules w id u st.
Proof.
  intros Hr Hs Hg Hu. revert st Hr Hs. induction w as [|c w IH]; intros st Hr Hs.
  - destruct st as [|p rest].
    { split; [done|]. rewrite (stack_lang_at _ _ _ []) in Hs by constructor. cbn in Hs. destruct Hg as [|(c & cps' & _ & ->)]; [done|inversion Hs]. }
    pose proof Hr as (sss & Hd & Ht). pose proof (stack_in_grammar _ _ Hd) as Hin. rewrite (stack_lang_at _ _ _ _ _ Hd) in Hs.
    inversion Hd as [|? ss ? sss' [Hp Hne] Hd' E1 E2]; subst. destruct ss as [|s ss]; [done|]. cbn in Ht, Hin, Hs. apply Forall_cons in Hin as [Hsi _].
    apply (admits_top _ _ _ _ _ _ _ _ Hp). destruct Hu as [Hn|[Hu Hpos]]; [by left|]. destruct Hg as [Hn|(c & cps' & Hcc & ->)]; [by left|]. right.
    cbn in Hs. apply gen_chr_iff in Hs as [Hsc _]; [|done]. pose proof (no_token_sym rules p s ss Hno Hp Ht) as Hc. split; [done|].
    apply (sym_partial_ok s u Hc (proj1 (class_sensible s Hsi Hc)) Hu). rewrite (Hpos s Hsi). by exists c.
  - destruct st as [|p rest]; [rewrite (stack_lang_at _ _ _ []) in Hs by constructor; inversion Hs|].
    destruct (ready_top rules p rest Hr) as (s & ss & Hp & Ht). destruct (stack_step p rest c Hr) as (out & Hy & Hready & Hl).
    cbn in Hs. apply (admits_top _ _ _ _ _ _ _ _ Hp). right. split.
    + destruct Hr as (sss & Hd & Hterm). rewrite (stack_lang_at _ _ _ _ _ Hd) in Hs. inversion Hd as [|? ss' ? sss' [Hp' _] _]; subst.
      rewrite (denotes_inj _ _ _ _ Hp' Hp) in *. cbn in Hs, Hterm. by apply gen_chr_iff in Hs as [? _].
    + apply Hl in Hs as (st' & Hst' & Hs). exists out, st'. split; [done|]. split; [done|]. apply IH; [|done].
      unfold ready in Hready. rewrite Forall_forall in Hready. auto.
Qed.
End meaning.

Lemma utf8_nonzero cps : Forall is_code_point cps → Forall (λ b, b ≠ 0)%Z (utf8 cps).
Proof.
  intros Hc. unfold utf8. apply Forall_concat, Forall_fmap. eapply Forall_impl; [exact Hc|]. intros c Hcp. cbn.
  assert (∀ n, Forall (λ b, b ≠ 0)%Z (conts c n)) as Hconts.
  { induction n as [|n IH]; constructor; [|done]. pose proof (Z.land_nonneg (Z.shiftr c (6 * Z.of_nat n)) 63). lia. }
  constructor; [|apply Hconts]. unfold is_code_point, n_conts in *. repeat case_decide; cbn [lead nth];
    pose proof (proj2 (Z.shiftr_nonneg c (6 * Z.of_nat 1)) ltac:(lia)); pose proof (proj2 (Z.shiftr_nonneg c (6 * Z.of_nat 2)) ltac:(lia));
    pose proof (proj2 (Z.shiftr_nonneg c (6 * Z.of_nat 3)) ltac:(lia)); rewrite ?Z.shiftr_0_r; lia.
Qed.

Lemma before_zero (cs w : list Z) rest : Forall (λ x, x ≠ 0)%Z cs → Forall (λ x, x ≠ 0)%Z w → cs ++ [0%Z] = w ++ 0%Z :: rest → w = cs.
Proof.
  intros Hcs. revert w. induction Hcs as [|c cs Hc Hcs IH]; intros [|x w] Hw E; simplify_eq/=; [done|inversion_clear Hw; by destruct w|].
  inversion_clear Hw. f_equal. auto.
Qed.

Section runs.
Context (rules : llama_grammar_rules) (G : grammar) (start : nat) (stacks : llama_grammar_stacks) (g0 : llama_grammar) (v : llama_vocab).
Hypothesis Henc : encodes rules G.
Hypothesis Hfree : left_recursion_free G.
Hypothesis Hno : no_tokens rules.
Hypothesis Hinit : initial rules G start (Some (rules, stacks)).
Hypothesis Hu0 : usable rules g0 v.
Hypothesis Ha0 : awaiting_trigger g0 = false.
Hypothesis Hs0 : g_state g0 = GrammarState stacks (PartialUtf8 0 0).

(** The stacks after a run stand for the rests of the texts that begin with what was decoded. *)
Lemma run_ok ps g : sampled v g0 ps g → usable rules g v ∧ awaiting_trigger g = false ∧
  ∃ cps, decode_pieces ps (PartialUtf8 0 0) = Ok (cps, gs_partial (g_state g)) ∧
    ∀ w, w ≠ [] ∨ pu_n_remain (gs_partial (g_state g)) = 0%Z →
      lang rules G (gs_stacks (g_state g)) w ↔ gen G [SRef start] (chars cps ++ w).
Proof.
  intros Hrun. destruct Hinit as (stacks' & [= <-] & _ & Hready & Hlang).
  destruct (sampled_ok rules G v Henc Hfree Hno g0 ps g Hu0 Ha0 Hrun) as (Hu' & Ha' & cps & Hdec & Hread).
  split; [done|]. split; [done|]. rewrite Hs0 in Hdec. exists cps. split; [done|]. intros w Hw. rewrite (Hread w Hw), Hs0. apply Hlang.
Qed.

Context (ps : list (list Z)) (g : llama_grammar) (Hrun : sampled v g0 ps g).

(** the decoder and a text that begins with the bytes of the run and of a piece *)
Lemma decode_begins piece rest cps : Forall is_code_point cps → (concat ps ++ piece) ++ rest = utf8 cps →
  ∃ cps0 cs u cps1, decode_pieces ps (PartialUtf8 0 0) = Ok (cps0, gs_partial (g_state g)) ∧
    decode_utf8 piece (gs_partial (g_state g)) = Ok (cs ++ [0%Z], u) ∧ cps = cps0 ++ cs ++ cps1 ∧ awaits u rest cps1.
Proof.
  intros Hcps E. destruct (run_ok ps g Hrun) as (_ & _ & cps0 & Hdec & _). rewrite <- app_assoc in E.
  pose proof (decode_pieces_ok ps (PartialUtf8 0 0) cps (piece ++ rest)) as Hp. rewrite E, Hdec in Hp.
  destruct Hp as (cpsA & -> & Haw); [by constructor|]. cbn [fst snd] in Haw.
  destruct (decode_utf8_ok _ _ _ _ Haw) as (cs & u & cps1 & Hd & -> & Hu). by exists cps0, cs, u, cps1.
Qed.

(** the bytes that a text is decoded from, up to a point between two characters or inside of one *)
Lemma begins_split bytes cps u rest cps1 : Forall is_code_point cps1 → bytes ++ rest = utf8 (cps ++ cps1) → awaits u rest cps1 →
  (pu_n_remain u = 0%Z ∧ bytes = utf8 cps) ∨
  (pu_n_remain u ≠ 0%Z ∧ partial_ok u ∧ ∃ c cps2, cps1 = c :: cps2 ∧ completes u c ∧ is_code_point c ∧
     ∀ c' cps3, completes u c' → ∃ rest', bytes ++ rest' = utf8 (cps ++ c' :: cps3)).
Proof.
  intros Hc1 E Haw. rewrite utf8_app in E. destruct Haw as [x cps1 Hcps|c n cps2 Hn Hcps].
  - left. split; [done|]. by apply app_inv_tail in E.
  - right. apply Forall_cons in Hcps as [Hc _]. cbn [pu_n_remain]. split; [lia|].
    destruct (awaiting_partial_ok c n Hn Hc) as [Hpo Hcc]. split; [done|]. exists c, cps2. split; [done|]. split; [done|]. split; [done|].
    intros c' cps3 Hc'. destruct (encode_swap c c' n Hn Hc Hc') as (pre & E1 & E2).
    exists (conts c' n ++ utf8 cps3). rewrite utf8_app. unfold utf8 in *. cbn [fmap list_fmap concat] in *. rewrite E1 in E. rewrite E2.
    rewrite <- !app_assoc in *. rewrite !app_assoc in E. apply app_inv_tail, app_inv_tail in E. by rewrite E, <- !app_assoc.
Qed.

Lemma allowed_begins id piece : sensible G → is_eog v id = false → allowed rules g v id piece →
  begins (Forall is_code_point) (concat ps ++ piece) → begins (language G start) (concat ps ++ piece).
Proof.
  intros Hse Heog Hal (cps & rest & Hcps & E). destruct (decode_begins piece rest cps Hcps E) as (cps0 & cs & u & cps1 & Hdec & Hd & -> & Haw).
  destruct (run_ok ps g Hrun) as (Hu & _ & cps0' & Hdec' & Hlang). rewrite Hdec in Hdec'. injection Hdec' as <-.
  apply Forall_app in Hcps as [Hc0 [Hcs Hc1]%Forall_app]. rewrite app_assoc in E.
  unfold allowed in Hal. rewrite Heog in Hal. destruct Hal as (H0 & w & rest' & u' & Hd' & Hw & st & Hst & Ha).
  rewrite Hd in Hd'. injection Hd' as Ew <-. assert (w = cs) as ->.
  { eapply before_zero; [|exact Hw|exact Ew]. eapply Forall_impl; [exact Hcs|]. unfold is_code_point. lia. }
  pose proof (decode_nonempty _ _ _ H0 Hd) as Hne. cbn [fst snd] in Hne.
  assert (ready_stack rules st) as Hready by (pose proof (us_ready _ _ _ Hu) as Hr; unfold ready in Hr; rewrite Forall_forall in Hr; auto).
  pose proof (begins_split _ _ _ _ _ Hc1 E Haw) as Hsplit.
  destruct (admits_sound rules G Henc Hfree Hno Hse cs id u st Hready Ha) as (cpsC & HcC & Hs & Hgo).
  { destruct Hsplit as [[? _]|(_ & Hpo & c & ? & _ & ? & ? & _)]; [by left|right]. split; [done|]. by exists c. }
  assert (gen G [SRef start] (chars cps0 ++ chars (cs ++ cpsC))) as Hgen.
  { apply Hlang; [left|by exists st]. intros En. apply fmap_nil_inv, app_eq_nil in En as [-> ->].
    destruct Hne as [Hne|Hne]; [done|]. destruct Hgo as [?|(? & ? & _ & ?)]; done. }
  unfold chars in Hgen. rewrite <- fmap_app in Hgen. fold (chars (cps0 ++ cs ++ cpsC)) in Hgen.
  assert (language G start (cps0 ++ cs ++ cpsC)) as Hl by (split; [by rewrite !Forall_app|done]).
  destruct Hsplit as [[_ ->]|(Hn & _ & _ & _ & _ & _ & _ & Hext)].
  - exists (cps0 ++ cs ++ cpsC), (utf8 cpsC). split; [done|]. by rewrite <- utf8_app, <- app_assoc.
  - destruct Hgo as [?|(c' & cps3 & Hcc & ->)]; [done|]. destruct (Hext c' cps3 Hcc) as [rest2 E2].
    exists (cps0 ++ cs ++ c' :: cps3), rest2. split; [done|]. by rewrite (app_assoc cps0).
Qed.

Lemma begins_allowed id piece : sensible G → is_eog v id = false → piece ≠ [] →
  begins (language G start) (concat ps ++ piece) →
  positive G ∨ (∃ cps, Forall is_code_point cps ∧ concat ps ++ piece = utf8 cps) → allowed rules g v id piece.
Proof.
  intros Hse Heog Hpne (cps & rest & [Hcps Hgen] & E) Hpos.
  destruct (decode_begins piece rest cps Hcps E) as (cps0 & cs & u & cps1 & Hdec & Hd & -> & Haw).
  destruct (run_ok ps g Hrun) as (Hu & _ & cps0' & Hdec' & Hlang). rewrite Hdec in Hdec'. injection Hdec' as <-.
  assert (deref piece ≠ 0%Z) as H0.
  { pose proof (utf8_nonzero _ Hcps) as Hz. rewrite <- E in Hz. apply Forall_app in Hz as [[_ Hz]%Forall_app _]. destruct piece; [done|]. by inversion_clear Hz. }
  apply Forall_app in Hcps as [Hc0 [Hcs Hc1]%Forall_app]. rewrite app_assoc in E.
  pose proof (decode_nonempty _ _ _ H0 Hd) as Hne. cbn [fst snd] in Hne.
  pose proof (begins_split _ _ _ _ _ Hc1 E Haw) as Hsplit.
  unfold chars in Hgen. rewrite fmap_app in Hgen. fold (chars cps0) (chars (cs ++ cps1)) in Hgen.
  apply Hlang in Hgen as (st & Hst & Hs).
  2: { left. intros En. apply fmap_nil_inv, app_eq_nil in En as [-> ->]. destruct Hne as [?|Hn]; [done|].
       by destruct Hsplit as [[? _]|(_ & _ & ? & ? & ? & _)]. }
  unfold allowed. rewrite Heog. split; [done|]. exists cs, [], u. split; [done|]. split.
  { eapply Forall_impl; [exact Hcs|]. unfold is_code_point. lia. }
  exists st. split; [done|]. apply (admits_complete rules G Henc Hfree Hno Hse cs id u st cps1); [|done| |].
  - pose proof (us_ready _ _ _ Hu) as Hr. unfold ready in Hr. rewrite Forall_forall in Hr. auto.
  - destruct Hsplit as [[? _]|(_ & _ & c & cps2 & -> & ? & _)]; [by left|right; by exists c, cps2].
  - destruct Hsplit as [[? _]|(Hn & Hpo & _)]; [by left|]. destruct Hpos as [?|(cpsX & HcX & EX)]; [by right|]. left.
    destruct (decode_begins piece [] cpsX HcX) as (? & ? & u' & ? & _ & Hd' & _ & Haw'); [by rewrite app_nil_r|].
    rewrite Hd in Hd'. injection Hd' as _ <-. remember [] as l eqn:El. destruct Haw' as [|c n ? [? ?] _]; [done|].
    destruct n; [lia|]. done.
Qed.

Lemma eog_language cps : Forall is_code_point cps → concat ps = utf8 cps → allow_eog g = true ↔ language G start cps.
Proof.
  intros Hcps E. destruct (run_ok ps g Hrun) as (Hu & _ & cps0 & Hdec & Hlang).
  pose proof (decode_whole cps ps Hcps E) as Hp. rewrite Hdec in Hp. cbn [okP fst snd] in Hp. destruct Hp as [-> Hn].
  unfold allow_eog. rewrite bool_decide_eq_true, <- (lang_nil_iff rules G) by apply Hu. rewrite Hlang, app_nil_r by by right. unfold language. naive_solver.
Qed.
End runs.

(** ** Lazy grammars *)

(** The positions of buffered tokens, one after the other. *)
Fixpoint positions (n : nat) (toks : list (Z * list Z)) : list (Z * (nat * nat)) :=
  match toks with [] => [] | (t, p) :: toks => (t, (n, n + length p)) :: positions (n + length p) toks end.

Definition text (toks : list (Z * list Z)) : list Z := concat (snd <$> toks).

Definition buffered (g : llama_grammar) (toks : list (Z * list Z)) : Prop :=
  trigger_buffer g = text toks ∧ trigger_buffer_positions g = positions 0 toks.

(** The tokens from position [k] of their text on, the first of them cut. *)
Fixpoint suffix_tokens (k : nat) (toks : list (Z * list Z)) : list (Z * list Z) :=
  match toks with
  | [] => []
  | (t, p) :: toks => if decide (length p ≤ k) then suffix_tokens (k - length p) toks else (t, drop k p) :: toks
  end.

Lemma text_suffix k toks : text (suffix_tokens k toks) = drop k (text toks).
Proof.
  revert k. induction toks as [|[t p] toks IH]; intros k; cbn [suffix_tokens]; [by destruct k|].
  assert (text ((t, p) :: toks) = p ++ text toks) as -> by done. case_decide as Hk.
  - rewrite IH, drop_app_ge by done. done.
  - rewrite drop_app_le by lia. done.
Qed.

Lemma positions_app n l1 l2 : positions n (l1 ++ l2) = positions n l1 ++ positions (n + length (text l1)) l2.
Proof.
  revert n. induction l1 as [|[t p] l1 IH]; intros n; cbn [positions app]; [by rewrite Nat.add_0_r|].
  rewrite IH. cbn. do 2 f_equal. rewrite length_app. f_equal. unfold text. lia.
Qed.

Lemma text_snoc toks t p : text (toks ++ [(t, p)]) = text toks ++ p.
Proof. unfold text. rewrite fmap_app, concat_app. cbn. by rewrite app_nil_r. Qed.

Section replay.
Context (fuel : nat) (rules : llama_grammar_rules).

Definition feed (s : grammar_state) (tp : Z * list Z) : res grammar_state := accept_token fuel rules s tp.1 tp.2.

Lemma replay_after buffer start pre toks s : buffer = pre ++ text toks → start < length pre →
  foldM (replay_token fuel rules buffer start) s (positions (length pre) toks) = foldM feed s toks.
Proof.
  revert pre s. induction toks as [|[t p] toks IH]; intros pre s E Hs; [done|]. cbn [positions foldM replay_token].
  rewrite decide_False by lia. rewrite decide_False by lia.
  replace (length pre + length p - length pre) with (length p) by lia.
  change (text ((t, p) :: toks)) with (p ++ text toks) in E.
  assert (take (length p) (drop (length pre) buffer) = p) as -> by (by rewrite E, drop_app_length, take_app_length).
  unfold feed at 2. cbn [fst snd]. destruct (accept_token fuel rules s t p) as [s'|]; [|done]. rewrite !bind_Ok.
  rewrite <- length_app. apply IH; [by rewrite E, <- app_assoc|]. rewrite length_app. lia.
Qed.

(** The replay feeds the tokens that overlap with the rest of the buffer. *)
Lemma replay_ok buffer start pre toks s : buffer = pre ++ text toks → length pre ≤ start →
  foldM (replay_token fuel rules buffer start) s (positions (length pre) toks) = foldM feed s (suffix_tokens (start - length pre) toks).
Proof.
  revert pre s. induction toks as [|[t p] toks IH]; intros pre s E Hs; [done|]. cbn [positions foldM suffix_tokens replay_token].
  change (text ((t, p) :: toks)) with (p ++ text toks) in E. rewrite app_assoc in E.
  destruct (decide (length p ≤ start - length pre)) as [Hk|Hk].
  - rewrite decide_True by lia. rewrite bind_Ok, <- length_app, (IH (pre ++ p)); [|done|rewrite length_app; lia].
    f_equal. f_equal. rewrite length_app. lia.
  - rewrite decide_False by lia. cbn [foldM].
    assert (take (length pre + length p - (if decide (length pre < start) then start else length pre))
              (drop (if decide (length pre < start) then start else length pre) buffer) = drop (start - length pre) p) as ->.
    { assert ((if decide (length pre < start) then start else length pre) = start) as -> by (case_decide; lia).
      rewrite E, drop_app_le, drop_app_ge by (rewrite ?length_app; lia). apply take_app_length'. rewrite length_drop. lia. }
    unfold feed at 2. cbn [fst snd]. destruct (accept_token _ _ _ _ _) as [s'|]; [|done]. rewrite !bind_Ok, <- length_app.
    apply replay_after; [done|]. rewrite length_app. lia.
Qed.
End replay.

(** The start that the first matching pattern finds. *)
Fixpoint first_trigger (patterns : list llama_grammar_trigger_pattern) (buffer : list Z) : res (option nat) :=
  match patterns with
  | [] => Ok None
  | t :: patterns => r ← find_trigger t buffer; match r : option nat with None => first_trigger patterns buffer | Some s => Ok (Some s) end
  end.

Lemma try_patterns_ok fuel g patterns toks : buffered g toks →
  try_patterns fuel g patterns =
    r ← first_trigger patterns (text toks);
    match r : option nat with
    | None => Ok g
    | Some start =>
        s ← foldM (feed fuel (g_rules g)) (g_state g) (suffix_tokens start toks);
        check Throw (bool_decide (start ≤ length (text toks)));;
        Ok (with_trigger (with_state g s) false [] [])
    end.
Proof.
  intros [Hb Hp]. induction patterns as [|t patterns IH]; [done|]. cbn [try_patterns first_trigger]. rewrite Hb.
  destruct (find_trigger t (text toks)) as [[start|]|e]; [|exact IH|done]. rewrite !bind_Ok, Hp.
  pose proof (replay_ok fuel (g_rules g) (text toks) start [] toks (g_state g) eq_refl (Nat.le_0_l start)) as H.
  cbn [length] in H. by rewrite H, Nat.sub_0_r.
Qed.

Lemma accept_awaiting fuel g v token piece toks :
  g_vocab g = Some v → token_to_piece v token = Ok piece → awaiting_trigger g = true → buffered g toks →
  token ∉ trigger_tokens g →
  let toks' := toks ++ [(token, piece)] in
  let g' := with_trigger g true (text toks') (positions 0 toks') in
  accept_impl fuel g token =
    r ← first_trigger (trigger_patterns g) (text toks');
    match r : option nat with
    | None => Ok g'
    | Some start =>
        s ← foldM (feed fuel (g_rules g)) (g_state g) (suffix_tokens start toks');
        check Throw (bool_decide (start ≤ length (text toks')));;
        Ok (with_trigger (with_state g' s) false [] [])
    end.
Proof.
  intros Hv Hp Ha [Hb Hpos] Hn toks' g'. unfold accept_impl. rewrite Hv. cbn [of_option]. rewrite bind_Ok, Hp, bind_Ok, Ha.
  rewrite decide_False by done. cbn zeta.
  assert (with_trigger g true (trigger_buffer g ++ piece) (trigger_buffer_positions g ++ [(token, (length (trigger_buffer g), length (trigger_buffer g) + length piece))]) = g') as ->.
  { unfold g', toks'. rewrite text_snoc, positions_app, Hb, Hpos. done. }
  by rewrite (try_patterns_ok fuel g' _ toks').
Qed.

(** * Correctness *)

(** C24. llama_grammar_apply_impl after a run of the sampler, in terms of bytes and
    of the language of the grammar only: it returns, and every candidate is kept as
    it is or masked.  An end of the text is kept exactly if the text so far, which
    consists of whole characters, is in the language of the start rule.  An empty
    piece is masked.  A piece with which the text goes on as UTF-8 is kept only if
    the text with it begins a text of the language; and it is kept if it does,
    unless it ends inside a character and the grammar has negated classes, which
    reject an incomplete character as soon as one of its completions is excluded.
    For grammars without left recursion, token terminals, rules that generate
    nothing and classes with reversed ranges or ranges beyond the code points. *)
Theorem apply_impl_correct rules G start stacks g0 v ps g fuel data :
  encodes rules G → left_recursion_free G → no_tokens rules → sensible G →
  initial rules G start (Some (rules, stacks)) → usable rules g0 v → awaiting_trigger g0 = false →
  g_state g0 = GrammarState stacks (PartialUtf8 0 0) → sampled v g0 ps g →
  (∀ d, d ∈ data → ∃ piece, known v (td_id d) piece) → fits_fuel g v fuel data →
  ends (λ n, apply_impl fuel n g data) (λ data', length data' = length data ∧
    ∀ i d piece, data !! i = Some d → known v (td_id d) piece →
      ∃ kept : bool, data' !! i = Some (if kept then d else masked d) ∧
        if is_eog v (td_id d) then
          ∀ cps, Forall is_code_point cps → concat ps = utf8 cps → kept = true ↔ language G start cps
        else (piece = [] → kept = false) ∧
          (kept = true → begins (Forall is_code_point) (concat ps ++ piece) → begins (language G start) (concat ps ++ piece)) ∧
          (piece ≠ [] → begins (language G start) (concat ps ++ piece) →
             positive G ∨ (∃ cps, Forall is_code_point cps ∧ concat ps ++ piece = utf8 cps) → kept = true)).
Proof.
  intros Henc Hfree Hno Hse Hinit Hu0 Ha0 Hs0 Hrun Hkn Hfit.
  destruct (run_ok rules G start stacks g0 v Henc Hfree Hno Hinit Hu0 Ha0 Hs0 ps g Hrun) as (Hu & Ha & _).
  eapply ends_mono; [by apply (apply_impl_ok rules G Henc Hfree g v Hu fuel data)|]. intros data' [Hlen H]. split; [done|].
  intros i d piece Hd Hp.
  assert (∃ kept : bool, data' !! i = Some (if kept then d else masked d) ∧ (kept = true ↔ allowed rules g v (td_id d) piece)) as (kept & Hk & Hiff).
  { destruct (H i d piece Hd Hp) as [[Hal Hi]|[Hal Hi]]; [by exists true|by exists false]. }
  exists kept. split; [done|]. destruct (is_eog v (td_id d)) eqn:Heog.
  - intros cps Hcps E. rewrite Hiff. unfold allowed. rewrite Heog.
    rewrite <- (eog_language rules G start stacks g0 v Henc Hfree Hno Hinit Hu0 Ha0 Hs0 ps g Hrun cps Hcps E). unfold allow_eog. by rewrite bool_decide_eq_true.
  - split; [|split].
    + intros ->. destruct kept; [|done]. pose proof (proj1 Hiff eq_refl) as Hal. unfold allowed in Hal. rewrite Heog in Hal. by destruct Hal.
    + intros Hk1 Hb. by eapply (allowed_begins rules G start stacks g0 v Henc Hfree Hno Hinit Hu0 Ha0 Hs0 ps g Hrun); [| |apply Hiff|].
    + intros Hne Hb Hpos. apply Hiff. by eapply (begins_allowed rules G start stacks g0 v Henc Hfree Hno Hinit Hu0 Ha0 Hs0 ps g Hrun).
Qed.

(** C30. In a grammar without token terminals whose pieces never decode to the code
    point 0, every token that apply_impl lets through is accepted by accept_impl,
    which keeps the grammar usable: the sampling loop never throws or aborts. *)
Theorem allowed_token_accepted rules G g v id piece :
  encodes rules G → left_recursion_free G → no_tokens rules → usable rules g v → awaiting_trigger g = false →
  known v id piece → no_nul g piece → passes g v id →
  ends (λ n, accept_impl n g id) (λ g', usable rules g' v ∧ awaiting_trigger g' = false).
Proof.
  intros Henc Hfree Hno Hu Ha Hkn Hnul Hpass%(passes_allowed rules G g v id piece Henc Hfree Hu Ha Hkn).
  eapply ends_mono; [by eapply (accept_allowed rules G)|]. intros g' (? & ? & _). done.
Qed.

(** C5. From the grammar that llama_grammar_init_impl builds, without left recursion
    and token terminals, along every run of tokens that apply_impl lets through and
    accept_impl takes in, and that do not decode to the code point 0: whenever no
    character is incomplete, the end of the text is allowed exactly if the text
    decoded so far is in the language of the start rule. *)
Theorem sampled_text_in_language rules G start stacks g0 v ps g :
  encodes rules G → left_recursion_free G → no_tokens rules →
  initial rules G start (Some (rules, stacks)) → usable rules g0 v → awaiting_trigger g0 = false →
  g_state g0 = GrammarState stacks (PartialUtf8 0 0) → sampled v g0 ps g →
  okP (decode_pieces ps (PartialUtf8 0 0)) (λ r, r.2 = gs_partial (g_state g) ∧
    (pu_n_remain r.2 = 0%Z → allow_eog g = true ↔ gen G [SRef start] (chars r.1))).
Proof.
  intros Henc Hfree Hno (stacks' & [= <-] & _ & Hready & Hlang) Hu Ha Hs Hrun.
  destruct (sampled_ok rules G v Henc Hfree Hno g0 ps g Hu Ha Hrun) as (Hu' & _ & cps & Hdec & Hread).
  rewrite Hs in Hdec. cbn [gs_partial] in Hdec. rewrite Hdec. cbn [okP fst snd]. split; [done|]. intros Hn.
  specialize (Hread [] (or_intror Hn)). rewrite Hs, app_nil_r in Hread. cbn [gs_stacks] in Hread.
  unfold allow_eog. rewrite bool_decide_eq_true, <- (lang_nil_iff rules G), Hread by apply Hu'. apply Hlang.
Qed.

(** C36. While a lazy grammar waits, accept_impl only buffers the tokens, as long as
    no trigger pattern is found in the text of the buffer; when one is found at
    [start], it feeds exactly the text of the buffer from [start] on, token by token
    with the first one cut, and empties the buffer.  A trigger token is fed as it
    is, without the text that was buffered before it.  In both cases the grammar
    constrains the text from then on.  (Where a pattern is found, anywhere in the
    buffer unless it is anchored, is said by [find_trigger].) *)
Theorem lazy_grammar_correct fuel g v token piece toks :
  g_vocab g = Some v → token_to_piece v token = Ok piece → awaiting_trigger g = true → buffered g toks →
  let toks' := toks ++ [(token, piece)] in
  (token ∉ trigger_tokens g →
    (first_trigger (trigger_patterns g) (text toks') = Ok None →
       okP (accept_impl fuel g token) (λ g', g_state g' = g_state g ∧ awaiting_trigger g' = true ∧ buffered g' toks')) ∧
    (∀ start s, first_trigger (trigger_patterns g) (text toks') = Ok (Some start) → start ≤ length (text toks') →
       foldM (feed fuel (g_rules g)) (g_state g) (suffix_tokens start toks') = Ok s →
       text (suffix_tokens start toks') = drop start (text toks') ∧
       okP (accept_impl fuel g token) (λ g', g_state g' = s ∧ awaiting_trigger g' = false ∧ buffered g' []))) ∧
  (token ∈ trigger_tokens g → ∀ s, accept_token fuel (g_rules g) (g_state g) token piece = Ok s →
    okP (accept_impl fuel g token) (λ g', g_state g' = s ∧ awaiting_trigger g' = false ∧ trigger_buffer g' = [])).
Proof.
  intros Hv Hp Ha Hb toks'. split.
  - intros Hn. rewrite (accept_awaiting fuel g v token piece toks Hv Hp Ha Hb Hn). fold toks'. split.
    + intros ->. done.
    + intros start s -> Hle Hf. split; [apply text_suffix|]. rewrite bind_Ok, Hf, bind_Ok, check_ok; [done|]. by apply bool_decide_eq_true.
  - intros Hin s Hs. unfold accept_impl. rewrite Hv. cbn [of_option]. rewrite bind_Ok, Hp, bind_Ok, Ha, decide_True by done.
    cbn [g_rules g_state with_trigger]. by rewrite Hs.
Qed.

(** ** Tokens that are let through and then refused *)

Definition odd_vocab : llama_vocab := Vocab
  (λ id, if decide (id = 5)%Z then Ok [97; 98]%Z else if decide (id = 6)%Z then Ok [192; 128]%Z
         else if decide (id = 7)%Z then Ok [97; 195]%Z else Err Throw) (λ _, false).
Definition fresh_grammar (v : llama_vocab) (rules : llama_grammar_rules) (stacks : llama_grammar_stacks) : llama_grammar :=
  Grammar (Some v) rules (GrammarState stacks (PartialUtf8 0 0)) false false [] [] [] [].

(** root ::= "a" <[5]>, root ::= "a" and root ::= "a" | "aé" *)
Definition token_rules : llama_grammar_rules := enc_rule <$> [[[SClass false (97, None) []; STok false 5]]]%Z.
Definition char_rules : llama_grammar_rules := enc_rule <$> [[[SClass false (97, None) []]]]%Z.
Definition accent_rules : llama_grammar_rules :=
  enc_rule <$> [[[SClass false (97, None) []]; [SClass false (97, None) []; SClass false (233, None) []]]]%Z.

(** Three corners in which what apply_impl lets through is not what accept_impl
    takes in: a token whose first characters lead to a token terminal of its own id
    (root ::= "a" <[5]> with token 5 = "ab") and a piece with an overlong encoding
    of 0 (C0 80 for root ::= "a") are let through, but accept_impl throws; and the
    end of the text is allowed after the piece 61 C3 for root ::= "a" | "aé",
    although the second character is incomplete. *)
Theorem sampling_corner_cases :
  let data id := [TokenData id (Logit 1)] in
  init_impl 10 token_rules 0 = Ok (Some (token_rules, [[(0, 0)]])) ∧
  apply_impl 10 10 (fresh_grammar odd_vocab token_rules [[(0, 0)]]) (data 5%Z) = Ok (data 5%Z) ∧
  accept_impl 10 (fresh_grammar odd_vocab token_rules [[(0, 0)]]) 5 = Err Throw ∧
  init_impl 10 char_rules 0 = Ok (Some (char_rules, [[(0, 0)]])) ∧
  apply_impl 10 10 (fresh_grammar odd_vocab char_rules [[(0, 0)]]) (data 6%Z) = Ok (data 6%Z) ∧
  accept_impl 10 (fresh_grammar odd_vocab char_rules [[(0, 0)]]) 6 = Err Throw ∧
  init_impl 10 accent_rules 0 = Ok (Some (accent_rules, [[(0, 0)]; [(0, 2)]])) ∧
  apply_impl 10 10 (fresh_grammar odd_vocab accent_rules [[(0, 0)]; [(0, 2)]]) (data 7%Z) = Ok (data 7%Z) ∧
  ∃ g, accept_impl 10 (fresh_grammar odd_vocab accent_rules [[(0, 0)]; [(0, 2)]]) 7 = Ok g ∧
    allow_eog g = true ∧ pu_n_remain (gs_partial (g_state g)) = 1%Z.
Proof. do 8 (split; [reflexivity|]). eexists. split; [reflexivity|]. done. Qed.

(** ** A run of the grammar root ::= "a" root "b" | x, x ::= [0-9] x | "" *)

Definition ex_vocab : llama_vocab := Vocab
  (λ id, if decide (id = 0)%Z then Ok [97]%Z else if decide (id = 1)%Z then Ok [55]%Z else Ok [98]%Z)
  (λ id, bool_decide (id = 3)%Z).
Definition ex_start : llama_grammar_stacks := [[(0, 0)]; [(1, 0)]; []].
Definition ex_sampler : llama_grammar := fresh_grammar ex_vocab ex_rules ex_start.
Definition ex_data : list llama_token_data := [TokenData 0 (Logit 3); TokenData 1 (Logit 1); TokenData 2 (Logit 2); TokenData 3 (Logit 0)].

Example ex_filtered : apply_impl 10 10 ex_sampler ex_data =
  Ok [TokenData 0 (Logit 3); TokenData 1 (Logit 1); TokenData 2 NegInf; TokenData 3 (Logit 0)].
Proof. reflexivity. Qed.

Lemma ex_no_tokens : no_tokens ex_rules.
Proof. repeat constructor. Qed.

Ltac denote := eexists _, _, _; split; [reflexivity|]; split; [reflexivity|]; split; [reflexivity|]; repeat constructor; cbn; lia.

Lemma ex_denotes_a : denotes ex_rules (0, 0) [SClass false (97, None) []; SRef 0; SClass false (98, None) []]%Z.
Proof. denote. Qed.
Lemma ex_denotes_x : denotes ex_rules (1, 0) [SClass false (48, Some 57) []; SRef 1]%Z.
Proof. denote. Qed.

Lemma ex_ready_start : ready ex_rules ex_start.
Proof.
  constructor; [|constructor; [|constructor; [|constructor]]].
  - eexists [_]. split; [constructor; [split; [exact ex_denotes_a|done]|constructor]|done].
  - eexists [_]. split; [constructor; [split; [exact ex_denotes_x|done]|constructor]|done].
  - exists []. split; [constructor|done].
Qed.

Lemma ex_usable : usable ex_rules ex_sampler ex_vocab.
Proof. constructor; [done|done|exact ex_ready_start|done|cbn; lia]. Qed.

Lemma ex_known id : ∃ piece, known ex_vocab id piece.
Proof.
  unfold known. cbn. destruct (decide (id = 0)%Z); [|destruct (decide (id = 1)%Z)]; eexists; (split; [reflexivity|]);
    (constructor; [unfold is_byte; lia|constructor]).
Qed.

Lemma ex_initial_stacks : initial ex_rules ex_grammar 0 (Some (ex_rules, ex_start)).
Proof.
  destruct (init_impl_ok ex_rules ex_grammar ex_encodes 0 ex_free ltac:(cbn; lia)) as (o & N & Ho & HN).
  specialize (HN (10 + N) ltac:(lia)). change (init_impl (10 + N) ex_rules 0) with (Ok (Some (ex_rules, ex_start))) in HN.
  by injection HN as <-.
Qed.

Lemma ex_allowed : allowed ex_rules ex_sampler ex_vocab 1 [55]%Z.
Proof.
  split; [done|]. exists [55]%Z, [], (PartialUtf8 55 0). split; [reflexivity|]. split; [by repeat constructor|].
  exists [(1, 0)]. split; [right; left|]. apply (admits_top ex_rules [55]%Z 1 _ (1, 0) [] _ _ ex_denotes_x).
  right. split; [done|]. exists [[(1, 0)]; []], []. split; [|split; [right; left|done]].
  exists [[(1, 0)]; []], 5. split; [done|]. intros n Hn. do 5 (destruct n as [|n]; [lia|]). reflexivity.
Qed.

Lemma ex_no_nul : no_nul ex_sampler [55]%Z.
Proof.
  intros w rest u Hd Hw. injection Hd as E _. destruct w as [|a [|b w]]; simplify_eq/=; [done|]. by destruct w.
Qed.

(** the grammar after the token "7" *)
Definition ex_next : llama_grammar := with_state ex_sampler (GrammarState [[(1, 0)]; []] (PartialUtf8 55 0)).

Lemma ex_known_7 : known ex_vocab 1 [55]%Z.
Proof. split; [reflexivity|]. by repeat constructor. Qed.

Lemma ex_passes : passes ex_sampler ex_vocab 1.
Proof.
  apply (passes_allowed ex_rules ex_grammar ex_sampler ex_vocab 1 [55]%Z);
    [exact ex_encodes|exact ex_free|exact ex_usable|done|exact ex_known_7|exact ex_allowed].
Qed.

Lemma ex_sampled : sampled ex_vocab ex_sampler [[55]]%Z ex_next.
Proof.
  apply (sampled_token _ _ [] ex_sampler 1 [55]%Z); [constructor|done|exact ex_known_7|exact ex_no_nul|exact ex_passes|].
  - exists ex_next, 6. split; [done|]. intros n Hn. do 6 (destruct n as [|n]; [lia|]). reflexivity.
Qed.

Lemma ex_sensible : sensible ex_grammar.
Proof.
  assert (gen ex_grammar [SRef 1] []) as H1.
  { apply gen_ref_iff. eexists _, []. split; [reflexivity|]. split; [right; left|constructor]. }
  assert (gen ex_grammar [SRef 0] []) as H0.
  { apply gen_ref_iff. eexists _, [SRef 1]. split; [reflexivity|]. split; [right; left|exact H1]. }
  assert (∀ s, in_grammar ex_grammar s → s = SRef 0 ∨ s = SRef 1 ∨
    ∃ i, s = SClass false i [] ∧ sym_char s i.1 = true ∧ is_code_point i.1 ∧ item_ok i ∧ (default i.1 i.2 < 1114112)%Z) as Hin.
  { unfold ex_grammar, in_grammar. intros s (alts & alt & Ha & Hb & Hs).
    repeat (apply elem_of_cons in Ha as [->|Ha]); [..|by apply not_elem_of_nil in Ha];
      repeat (apply elem_of_cons in Hb as [->|Hb]); try (by apply not_elem_of_nil in Hb);
      repeat (apply elem_of_cons in Hs as [->|Hs]); try (by apply not_elem_of_nil in Hs); auto;
      right; right; (eexists; split; [reflexivity|]; split; [reflexivity|]; unfold is_code_point, item_ok; cbn; lia). }
  split.
  - intros s [->|[->|(i & -> & Hs & Hc & _)]]%Hin; [by exists []|by exists []|]. exists [i.1]. split; [by constructor|].
    by apply gen_chr_iff; [|split; [|constructor]].
  - intros neg i l [?|[?|(j & [= -> -> ->] & _ & _ & Hj)]]%Hin; [done|done|]. by constructor.
Qed.

Lemma apply_impl_correct_witness :
  ends (λ n, apply_impl 10 n ex_next ex_data) (λ data', length data' = 4 ∧
    ∀ i d piece, ex_data !! i = Some d → known ex_vocab (td_id d) piece →
      ∃ kept : bool, data' !! i = Some (if kept then d else masked d) ∧
        if is_eog ex_vocab (td_id d) then
          ∀ cps, Forall is_code_point cps → concat [[55]]%Z = utf8 cps → kept = true ↔ language ex_grammar 0 cps
        else (piece = [] → kept = false) ∧
          (kept = true → begins (Forall is_code_point) (concat [[55]]%Z ++ piece) → begins (language ex_grammar 0) (concat [[55]]%Z ++ piece)) ∧
          (piece ≠ [] → begins (language ex_grammar 0) (concat [[55]]%Z ++ piece) →
             positive ex_grammar ∨ (∃ cps, Forall is_code_point cps ∧ concat [[55]]%Z ++ piece = utf8 cps) → kept = true)).
Proof.
  apply (apply_impl_correct ex_rules ex_grammar 0 ex_start ex_sampler ex_vocab [[55]]%Z ex_next 10 ex_data);
    [exact ex_encodes|exact ex_free|exact ex_no_tokens|exact ex_sensible|exact ex_initial_stacks|exact ex_usable|done|done|exact ex_sampled|intros; apply ex_known|].
  split; [lia|]. intros d piece r _ Hp Hd. cbn in Hp. unfold ex_vocab in Hp. cbn in Hp.
  destruct (decide (td_id d = 0)%Z); [|destruct (decide (td_id d = 1)%Z)]; injection Hp as <-; injection Hd as <-; cbn; lia.
Defined.

Lemma allowed_token_accepted_witness :
  ends (λ n, accept_impl n ex_sampler 1) (λ g', usable ex_rules g' ex_vocab ∧ awaiting_trigger g' = false).
Proof.
  apply (allowed_token_accepted ex_rules ex_grammar ex_sampler ex_vocab 1 [55]%Z);
    [exact ex_encodes|exact ex_free|exact ex_no_tokens|exact ex_usable|done|exact ex_known_7|exact ex_no_nul|exact ex_passes].
Defined.

Lemma sampled_text_in_language_witness :
  okP (decode_pieces [[55]]%Z (PartialUtf8 0 0)) (λ r, r.2 = gs_partial (g_state ex_next) ∧
    (pu_n_remain r.2 = 0%Z → allow_eog ex_next = true ↔ gen ex_grammar [SRef 0] (chars r.1))).
Proof.
  apply (sampled_text_in_language ex_rules ex_grammar 0 ex_start ex_sampler ex_vocab [[55]]%Z ex_next);
    [exact ex_encodes|exact ex_free|exact ex_no_tokens|exact ex_initial_stacks|exact ex_usable|done|done|exact ex_sampled].
Defined.

(** a lazy grammar that waits for "7", which is found at its second character *)
Definition ex_trigger : llama_grammar_trigger_pattern :=
  TriggerPattern [55]%Z (λ _, None) (λ s, if decide (s = [97; 55])%Z then Some [(1, 1)] else None).
Definition ex_lazy : llama_grammar :=
  Grammar (Some ex_vocab) ex_rules (GrammarState ex_start (PartialUtf8 0 0)) true true [97]%Z [(0%Z, (0, 1))] [] [ex_trigger].

Lemma lazy_grammar_correct_witness :
  okP (accept_impl 10 ex_lazy 1) (λ g', g_state g' = GrammarState [[(1, 0)]; []] (PartialUtf8 55 0) ∧ awaiting_trigger g' = false ∧ buffered g' []).
Proof.
  refine (proj2 (proj2 (proj1 (lazy_grammar_correct 10 ex_lazy ex_vocab 1 [55]%Z [(0%Z, [97]%Z)] eq_refl eq_refl eq_refl _) _) 1 _ _ _ _)).
  - done.
  - cbn. set_solver.
  - reflexivity.
  - cbn. lia.
  - reflexivity.
Defined.
