(* ===== verification/GrammarParser.v ===== *)
(** The parser of grammars (llama_grammar_parser of src/llama-grammar.cpp) and
    llama_grammar_init_impl on the text of a grammar.

    A [const char *] is the list of the bytes from the pointer on, as in Utf8.v;
    [std::runtime_error] and the exceptions of [std::stoul] are [Err Throw].  The
    tokenizer of the vocabulary is a parameter: the ids it gives for a text. *)
From stdpp Require Import gmap.
From Stdlib Require String.
From Stdlib Require Import DecimalNat.
From Stdlib Require Ascii.
From S2P Require Import Prelude Utf8 Grammar GrammarInit GrammarSample.

(** ** Characters *)

Definition is_digit_char (c : Z) : bool := bool_decide (48 ≤ c ≤ 57)%Z.

Definition is_word_char (c : Z) : bool :=
  bool_decide (97 ≤ c ≤ 122)%Z || bool_decide (65 ≤ c ≤ 90)%Z || bool_decide (c = 45)%Z || is_digit_char c.

(** the value of a hexadecimal digit *)
Definition hex_value (c : Z) : option Z :=
  if decide (97 ≤ c ≤ 102)%Z then Some (c - 97 + 10)%Z
  else if decide (65 ≤ c ≤ 70)%Z then Some (c - 65 + 10)%Z
  else if decide (48 ≤ c ≤ 57)%Z then Some (c - 48)%Z
  else None.

(** parse_hex(src, size) *)
Fixpoint parse_hex (size : nat) (value : Z) (src : list Z) : res (Z * list Z) :=
  match size with
  | 0 => Ok (value, src)
  | S size =>
      match hex_value (deref src) with
      | Some x => parse_hex size (u32 (u32 (Z.shiftl value 4) + x)) (tail src)
      | None => Err Throw
      end
  end.

(** parse_space(src, newline_ok); [in_comment] is the loop from a '#' on *)
Fixpoint parse_space (newline_ok in_comment : bool) (src : list Z) : list Z :=
  match src with
  | [] => []
  | c :: pos =>
      let newline := bool_decide (c = 13 ∨ c = 10)%Z in
      if decide (c = 0)%Z then src
      else if in_comment && negb newline then parse_space newline_ok true pos
      else if decide (c = 32 ∨ c = 9)%Z then parse_space newline_ok false pos
      else if decide (c = 35)%Z then parse_space newline_ok true pos
      else if newline_ok && newline then parse_space newline_ok false pos
      else src
  end.

Definition skip_space (newline_ok : bool) (src : list Z) : list Z := parse_space newline_ok false src.

Fixpoint span (f : Z → bool) (src : list Z) : list Z * list Z :=
  match src with
  | [] => ([], [])
  | c :: pos => if f c then let '(a, b) := span f pos in (c :: a, b) else ([], src)
  end.

(** parse_name and parse_int: what was read, and where it ends *)
Definition parse_span (f : Z → bool) (src : list Z) : res (list Z * list Z) :=
  let r := span f src in if decide (r.1 = []) then Err Throw else Ok r.
Definition parse_name : list Z → res (list Z * list Z) := parse_span is_word_char.
Definition parse_int : list Z → res (list Z * list Z) := parse_span is_digit_char.

Definition UINT64_MAX : Z := 18446744073709551615.

(** std::stoul, std::stoull on a string of digits: out_of_range beyond 64 bits *)
Definition stoull (s : list Z) : res Z :=
  let v := fold_left (λ v c, v * 10 + (c - 48))%Z s 0%Z in
  if decide (v ≤ UINT64_MAX)%Z then Ok v else Err Throw.

(** parse_char *)
Definition parse_char (src : list Z) : res (Z * list Z) :=
  if decide (deref src = 92)%Z then
    let c := deref (tail src) in
    let pos := drop 2 src in
    if decide (c = 120)%Z then parse_hex 2 0 pos
    else if decide (c = 117)%Z then parse_hex 4 0 pos
    else if decide (c = 85)%Z then parse_hex 8 0 pos
    else if decide (c = 116)%Z then Ok (9%Z, pos)
    else if decide (c = 114)%Z then Ok (13%Z, pos)
    else if decide (c = 110)%Z then Ok (10%Z, pos)
    else if decide (c = 92 ∨ c = 34 ∨ c = 91 ∨ c = 93)%Z then Ok (c, pos)
    else Err Throw
  else if decide (deref src ≠ 0)%Z then decode_one src
  else Err Throw.

(** if ( *pos != c) throw; pos++ *)
Definition expect (c : Z) (src : list Z) : res (list Z) :=
  if decide (deref src = c)%Z then Ok (tail src) else Err Throw.

(** parse_token *)
Definition parse_token (tokenize : option (list Z → list Z)) (src : list Z) : res (Z * list Z) :=
  pos ← expect 60 src;
  if decide (deref pos = 91)%Z then
    i ← parse_int (tail pos);
    token_id ← stoull i.1;
    pos ← expect 93 i.2;
    pos ← expect 62 pos;
    Ok (u32 token_id, pos)
  else
    t ← of_option Throw tokenize;
    let s := span (λ c, bool_decide (c ≠ 0 ∧ c ≠ 62)%Z) pos in
    pos ← expect 62 s.2;
    match t (60%Z :: s.1 ++ [62%Z]) with
    | [token] => Ok (u32 token, pos)
    | _ => Err Throw
    end.

(** ** The state of the parser *)

Record llama_grammar_parser := Parser { symbol_ids : gmap (list Z) nat; p_rules : llama_grammar_rules }.

Definition get_symbol_id (p : llama_grammar_parser) (name : list Z) : llama_grammar_parser * nat :=
  match symbol_ids p !! name with
  | Some id => (p, id)
  | None => let next_id := size (symbol_ids p) in (Parser (<[name := next_id]> (symbol_ids p)) (p_rules p), next_id)
  end.

(** std::to_string *)
Fixpoint uint_bytes (d : Decimal.uint) : list Z :=
  match d with
  | Decimal.Nil => []
  | Decimal.D0 d => 48%Z :: uint_bytes d | Decimal.D1 d => 49%Z :: uint_bytes d | Decimal.D2 d => 50%Z :: uint_bytes d
  | Decimal.D3 d => 51%Z :: uint_bytes d | Decimal.D4 d => 52%Z :: uint_bytes d | Decimal.D5 d => 53%Z :: uint_bytes d
  | Decimal.D6 d => 54%Z :: uint_bytes d | Decimal.D7 d => 55%Z :: uint_bytes d | Decimal.D8 d => 56%Z :: uint_bytes d
  | Decimal.D9 d => 57%Z :: uint_bytes d
  end.
Definition to_string (n : nat) : list Z := uint_bytes (Nat.to_uint n).

(** the code casts the size of the table to uint32_t; below 2^32 symbols, where every
    symbol is an entry in memory, that is the size itself *)
Definition generate_symbol_id (p : llama_grammar_parser) (base_name : list Z) : llama_grammar_parser * nat :=
  let next_id := size (symbol_ids p) in
  (Parser (<[base_name ++ 95%Z :: to_string next_id := next_id]> (symbol_ids p)) (p_rules p), next_id).

Definition add_rule (p : llama_grammar_parser) (rule_id : nat) (rule : llama_grammar_rule) : llama_grammar_parser :=
  let rules := if decide (length (p_rules p) ≤ rule_id) then p_rules p ++ replicate (S rule_id - length (p_rules p)) [] else p_rules p in
  Parser (symbol_ids p) (<[rule_id := rule]> rules).

(** ** Repetitions *)

Definition n_optional (min_times max_times : Z) : Z :=
  if decide (max_times = UINT64_MAX) then 1%Z else ((max_times - min_times) mod (UINT64_MAX + 1))%Z.

(** one of the rules S'(i) ::= S S'(i-1) |, resp. S' ::= S S' | *)
Definition rec_step (rule_name : list Z) (prev_rule : llama_grammar_rule) (no_max : bool)
    (st : llama_grammar_parser * nat) (i : nat) : llama_grammar_parser * nat :=
  let '(p, last_rec_rule_id) := st in
  let '(p, rec_rule_id) := generate_symbol_id p rule_name in
  let rec_rule := prev_rule ++
    (if bool_decide (0 < i) || no_max then [Elem GRETYPE_RULE_REF (Z.of_nat (if no_max then rec_rule_id else last_rec_rule_id))] else [])
    ++ [Elem GRETYPE_ALT 0; Elem GRETYPE_END 0] in
  (add_rule p rec_rule_id rec_rule, rec_rule_id).

(** handle_repetitions(min_times, max_times) *)
Definition handle_repetitions (rule_name : list Z) (min_times max_times : Z) (last_sym_start : nat)
    (p : llama_grammar_parser) (rule : llama_grammar_rule) : res (llama_grammar_parser * llama_grammar_rule) :=
  let no_max := bool_decide (max_times = UINT64_MAX) in
  if decide (last_sym_start = length rule) then Err Throw else
  let prev_rule := drop last_sym_start rule in
  let rule := if decide (min_times = 0)%Z then take last_sym_start rule
              else rule ++ concat (replicate (Z.to_nat min_times - 1) prev_rule) in
  let n_opt := n_optional min_times max_times in
  let '(p, last_rec_rule_id) := fold_left (rec_step rule_name prev_rule no_max) (seq 0 (Z.to_nat n_opt)) (p, 0) in
  Ok (p, if decide (0 < n_opt)%Z then rule ++ [Elem GRETYPE_RULE_REF (Z.of_nat last_rec_rule_id)] else rule).

Definition MAX_REPETITION_THRESHOLD : Z := 2000.

(** the bounds of {m}, {m,} and {m,n}, from after the brace on *)
Definition parse_bounds (is_nested : bool) (src : list Z) : res (Z * Z * list Z) :=
  let pos := skip_space is_nested src in
  if negb (is_digit_char (deref pos)) then Err Throw else
  i ← parse_int pos;
  min_times ← stoull i.1;
  let pos := skip_space is_nested i.2 in
  r ← (if decide (deref pos = 125)%Z then Ok (min_times, skip_space is_nested (tail pos))
       else if decide (deref pos = 44)%Z then
         let pos := skip_space is_nested (tail pos) in
         m ← (if is_digit_char (deref pos) then
                i ← parse_int pos; max_times ← stoull i.1; Ok (max_times, skip_space is_nested i.2)
              else Ok (UINT64_MAX, pos));
         pos ← expect 125 (m : Z * list Z).2;
         Ok (m.1, skip_space is_nested pos)
       else Err Throw);
  let max_times := (r : Z * list Z).1 in
  if decide (MAX_REPETITION_THRESHOLD < min_times ∨ (max_times ≠ UINT64_MAX ∧ MAX_REPETITION_THRESHOLD < max_times))%Z then Err Throw
  else Ok (min_times, max_times, r.2).

(** ** parse_sequence *)

(** the variables of the loop: the parser, rule, last_sym_start and pos *)
Record seq_state := SeqState { sq_parser : llama_grammar_parser; sq_rule : llama_grammar_rule; last_sym_start : nat; sq_pos : list Z }.

(** the characters of a literal; [fuel] bounds the number of them *)
Fixpoint parse_literal (fuel : nat) (rule : llama_grammar_rule) (pos : list Z) : res (llama_grammar_rule * list Z) :=
  match fuel with
  | 0 => Err OutOfFuel
  | S fuel =>
      if decide (deref pos = 34)%Z then Ok (rule, tail pos)
      else if decide (deref pos = 0)%Z then Err Throw
      else c ← parse_char pos; parse_literal fuel (rule ++ [Elem GRETYPE_CHAR (c : Z * list Z).1]) c.2
  end.

(** the ranges of a class *)
Fixpoint parse_class (fuel : nat) (start_type : llama_gretype) (last_sym_start : nat) (rule : llama_grammar_rule) (pos : list Z) :
    res (llama_grammar_rule * list Z) :=
  match fuel with
  | 0 => Err OutOfFuel
  | S fuel =>
      if decide (deref pos = 93)%Z then Ok (rule, tail pos)
      else if decide (deref pos = 0)%Z then Err Throw
      else
        c ← parse_char pos;
        let pos := (c : Z * list Z).2 in
        let type := if decide (last_sym_start < length rule) then GRETYPE_CHAR_ALT else start_type in
        let rule := rule ++ [Elem type c.1] in
        if decide (deref pos = 45 ∧ deref (tail pos) ≠ 93)%Z then
          if decide (deref (tail pos) = 0)%Z then Err Throw else
          e ← parse_char (tail pos);
          parse_class fuel start_type last_sym_start (rule ++ [Elem GRETYPE_CHAR_RNG_UPPER (e : Z * list Z).1]) e.2
        else parse_class fuel start_type last_sym_start rule pos
  end.

(** the repetitions after an item: what is left of the text, and the bounds *)
Definition parse_repetition (is_nested : bool) (pos : list Z) : res (Z * Z * list Z) :=
  let c := deref pos in
  let pos := tail pos in
  if decide (c = 42)%Z then Ok (0%Z, UINT64_MAX, skip_space is_nested pos)
  else if decide (c = 43)%Z then Ok (1%Z, UINT64_MAX, skip_space is_nested pos)
  else if decide (c = 63)%Z then Ok (0%Z, 1%Z, skip_space is_nested pos)
  else parse_bounds is_nested pos.

Definition is_repetition (c : Z) : bool := bool_decide (c = 42 ∨ c = 43 ∨ c = 63 ∨ c = 123)%Z.

(** One turn of the loop, on anything but a group; [None]: break. *)
Definition parse_item (tokenize : option (list Z → list Z)) (rule_name : list Z) (is_nested : bool) (s : seq_state) : res (option seq_state) :=
  let '(SeqState p rule last pos) := s in
  let c := deref pos in
  if decide (c = 34)%Z then
    r ← parse_literal (length pos) rule (tail pos);
    Ok (Some (SeqState p (r : llama_grammar_rule * list Z).1 (length rule) (skip_space is_nested r.2)))
  else if decide (c = 91)%Z then
    let pos := tail pos in
    let neg := bool_decide (deref pos = 94)%Z in
    let pos := if neg then tail pos else pos in
    r ← parse_class (S (length pos)) (if neg then GRETYPE_CHAR_NOT else GRETYPE_CHAR) (length rule) rule pos;
    Ok (Some (SeqState p (r : llama_grammar_rule * list Z).1 (length rule) (skip_space is_nested r.2)))
  else if decide (c = 60 ∨ c = 33)%Z then
    let neg := bool_decide (c = 33)%Z in
    t ← parse_token tokenize (if neg then tail pos else pos);
    Ok (Some (SeqState p (rule ++ [Elem (if neg then GRETYPE_TOKEN_NOT else GRETYPE_TOKEN) (t : Z * list Z).1]) (length rule)
                (skip_space is_nested t.2)))
  else if is_word_char c then
    n ← parse_name pos;
    let '(p, ref_rule_id) := get_symbol_id p (n : list Z * list Z).1 in
    Ok (Some (SeqState p (rule ++ [Elem GRETYPE_RULE_REF (Z.of_nat ref_rule_id)]) (length rule) (skip_space is_nested n.2)))
  else if decide (c = 46)%Z then
    Ok (Some (SeqState p (rule ++ [Elem GRETYPE_CHAR_ANY 0]) (length rule) (skip_space is_nested (tail pos))))
  else if is_repetition c then
    b ← parse_repetition is_nested pos;
    h ← handle_repetitions rule_name (b : Z * Z * list Z).1.1 b.1.2 last p rule;
    Ok (Some (SeqState (h : llama_grammar_parser * llama_grammar_rule).1 h.2 last b.2))
  else Ok None.

(** parse_sequence (from a turn of its loop on), parse_alternates and its loop;
    [fuel] bounds the nesting and the length of the loops *)
Fixpoint parse_sequence (fuel : nat) (tokenize : option (list Z → list Z)) (rule_name : list Z) (is_nested : bool)
    (s : seq_state) : res seq_state :=
  match fuel with
  | 0 => Err OutOfFuel
  | S fuel =>
      let c := deref (sq_pos s) in
      if decide (c = 0)%Z then Ok s
      else if decide (c = 40)%Z then
        let pos := skip_space true (tail (sq_pos s)) in
        let '(p, sub_rule_id) := generate_symbol_id (sq_parser s) rule_name in
        '(p, pos) ← parse_alternates fuel tokenize rule_name sub_rule_id true p pos;
        pos ← expect 41 pos;
        parse_sequence fuel tokenize rule_name is_nested
          (SeqState p (sq_rule s ++ [Elem GRETYPE_RULE_REF (Z.of_nat sub_rule_id)]) (length (sq_rule s)) (skip_space is_nested pos))
      else
        o ← parse_item tokenize rule_name is_nested s;
        match o : option seq_state with
        | Some s' => parse_sequence fuel tokenize rule_name is_nested s'
        | None => Ok s
        end
  end
with parse_alternates (fuel : nat) (tokenize : option (list Z → list Z)) (rule_name : list Z) (rule_id : nat) (is_nested : bool)
    (p : llama_grammar_parser) (src : list Z) : res (llama_grammar_parser * list Z) :=
  match fuel with
  | 0 => Err OutOfFuel
  | S fuel =>
      s ← parse_sequence fuel tokenize rule_name is_nested (SeqState p [] 0 src);
      s ← parse_more fuel tokenize rule_name is_nested s;
      Ok (add_rule (sq_parser s) rule_id (sq_rule s ++ [Elem GRETYPE_END 0]), sq_pos s)
  end
with parse_more (fuel : nat) (tokenize : option (list Z → list Z)) (rule_name : list Z) (is_nested : bool) (s : seq_state) : res seq_state :=
  match fuel with
  | 0 => Err OutOfFuel
  | S fuel =>
      if decide (deref (sq_pos s) = 124)%Z then
        let rule := sq_rule s ++ [Elem GRETYPE_ALT 0] in
        s ← parse_sequence fuel tokenize rule_name is_nested
              (SeqState (sq_parser s) rule (length rule) (skip_space true (tail (sq_pos s))));
        parse_more fuel tokenize rule_name is_nested s
      else Ok s
  end.

(** ** parse_rule, parse *)

(** enough for the nesting and the loops of a text *)
Definition parse_fuel (src : list Z) : nat := 2 * length src + 3.

Definition parse_rule (tokenize : option (list Z → list Z)) (p : llama_grammar_parser) (src : list Z) : res (llama_grammar_parser * list Z) :=
  n ← parse_name src;
  let name := (n : list Z * list Z).1 in
  let pos := skip_space false n.2 in
  let '(p, rule_id) := get_symbol_id p name in
  pos ← expect 58 pos;
  pos ← expect 58 pos;
  pos ← expect 61 pos;
  '(p, pos) ← parse_alternates (parse_fuel src) tokenize name rule_id false p (skip_space true pos);
  pos ← (if decide (deref pos = 13)%Z then Ok (if decide (deref (tail pos) = 10)%Z then drop 2 pos else tail pos)
         else if decide (deref pos = 10)%Z then Ok (tail pos)
         else if decide (deref pos ≠ 0)%Z then Err Throw else Ok pos);
  Ok (p, skip_space true pos).

(** while ( *pos) *)
Fixpoint parse_rules (fuel : nat) (tokenize : option (list Z → list Z)) (p : llama_grammar_parser) (pos : list Z) : res llama_grammar_parser :=
  match fuel with
  | 0 => Err OutOfFuel
  | S fuel =>
      if decide (deref pos = 0)%Z then Ok p
      else r ← parse_rule tokenize p pos; parse_rules fuel tokenize (r : llama_grammar_parser * list Z).1 r.2
  end.

(** Ensure that the rule at that location exists; a rule without a name passes. *)
Definition ref_defined (p : llama_grammar_parser) (e : llama_grammar_element) : bool :=
  if decide (e_type e = GRETYPE_RULE_REF) then
    bool_decide (default [] (p_rules p !! Z.to_nat (e_value e)) ≠ []) ||
    negb (existsb (λ kv, bool_decide (Z.of_nat kv.2 = e_value e)) (map_to_list (symbol_ids p)))
  else true.

Definition all_defined (p : llama_grammar_parser) : bool :=
  forallb (λ rule, bool_decide (rule ≠ []) && forallb (ref_defined p) rule) (p_rules p).

(** llama_grammar_parser::parse; an exception clears the rules and returns false: [None] *)
Definition parse_or_throw (tokenize : option (list Z → list Z)) (src : list Z) : res llama_grammar_parser :=
  p ← parse_rules (S (length src)) tokenize (Parser ∅ []) (skip_space true src);
  check Throw (all_defined p);;
  Ok p.

Definition parse (tokenize : option (list Z → list Z)) (src : list Z) : res (option llama_grammar_parser) :=
  match parse_or_throw tokenize src with
  | Ok p => Ok (Some p)
  | Err Throw => Ok None
  | Err e => Err e
  end.

(** "root" *)
Definition root_name : list Z := [114; 111; 111; 116]%Z.

(** llama_grammar_init_impl(vocab, grammar_str, grammar_root, lazy, ...); a
    vocabulary comes with its tokenizer, and [compile] is std::regex(pattern).
    [None] is nullptr. *)
Definition init_impl_str (fuel : nat) (vocab : option (llama_vocab * (list Z → list Z))) (compile : list Z → res llama_grammar_trigger_pattern)
    (grammar_str grammar_root : list Z) (lazy : bool) (patterns : list (list Z)) (tokens : list Z) : res (option llama_grammar) :=
  parsed ← parse (snd <$> vocab) grammar_str;
  match parsed : option llama_grammar_parser with
  | None => Ok None
  | Some parser =>
      if decide (p_rules parser = []) then Ok None
      else if decide (symbol_ids parser !! root_name = None) then Ok None
      else
        start_rule_index ← of_option Throw (symbol_ids parser !! grammar_root);
        built ← init_impl fuel (p_rules parser) start_rule_index;
        match built : option (llama_grammar_rules * llama_grammar_stacks) with
        | None => Ok None
        | Some (vec_rules, stacks) =>
            vec_trigger_patterns ← mapM_res compile patterns;
            Ok (Some (Grammar (fst <$> vocab) vec_rules (GrammarState stacks (PartialUtf8 0 0)) lazy lazy [] [] tokens vec_trigger_patterns))
        end
  end.

(** ** Examples *)

(** the bytes of a text in which a backquote is written for the double quote *)
Definition bytes (s : String.string) : list Z :=
  (λ a, if decide (Ascii.nat_of_ascii a = 96) then 34%Z else Z.of_nat (Ascii.nat_of_ascii a)) <$> String.list_ascii_of_string s.
Import String.StringSyntax.
Arguments bytes s%_string_scope.

Definition rules_of (r : res (option llama_grammar_parser)) : option llama_grammar_rules :=
  match r with Ok (Some p) => Some (p_rules p) | _ => None end.

Example parse_ex : rules_of (parse None (bytes "# example
root ::= `a` root `b` | x
x ::= [0-9] x |")) = Some ex_rules.
Proof. vm_compute. reflexivity. Qed.

(** ** What the readers leave of the text *)

Lemma deref_cons (src : list Z) : deref src ≠ 0%Z → src = deref src :: tail src.
Proof. by destruct src. Qed.

(** Something was read. *)
Definition shorter (src pos : list Z) : Prop := pos `suffix_of` src ∧ length pos < length src.

Lemma shorter_tail src : deref src ≠ 0%Z → shorter src (tail src).
Proof. destruct src; [done|]. intros _. split; [apply suffix_tail|]. cbn; lia. Qed.

Lemma shorter_suffix a b c : shorter a b → c `suffix_of` b → shorter a c.
Proof. intros [H1 H2] H3. split; [by etrans|]. apply suffix_length in H3. lia. Qed.

Lemma suffix_shorter a b c : b `suffix_of` a → shorter b c → shorter a c.
Proof. intros H1 [H2 H3]. split; [by etrans|]. apply suffix_length in H1. lia. Qed.

Lemma shorter_trans a b c : shorter a b → shorter b c → shorter a c.
Proof. intros H1 [H2 _]. by eapply shorter_suffix. Qed.

Lemma skip_space_suffix b src : skip_space b src `suffix_of` src.
Proof.
  unfold skip_space. generalize false. induction src as [|c src IH]; intros com; [done|]. cbn [parse_space].
  destruct (decide (c = 0)%Z); [done|]. destruct (com && _); [apply suffix_cons_r, IH|].
  destruct (decide _); [apply suffix_cons_r, IH|]. destruct (decide _); [apply suffix_cons_r, IH|].
  destruct (b && _); [apply suffix_cons_r, IH|done].
Qed.

Lemma span_app f src : (span f src).1 ++ (span f src).2 = src.
Proof. induction src as [|c src IH]; [done|]. cbn [span]. destruct (f c); [|done]. destruct (span f src). cbn in *. by rewrite IH. Qed.

Lemma span_all f src : Forall (λ c, f c = true) (span f src).1.
Proof. induction src as [|c src IH]; [by constructor|]. cbn [span]. destruct (f c) eqn:E; [|by constructor]. destruct (span f src). by constructor. Qed.

Lemma span_suffix f src : (span f src).2 `suffix_of` src.
Proof. exists (span f src).1. symmetry. apply span_app. Qed.

Lemma parse_span_ok f src : throwsP (parse_span f src) (λ r, shorter src r.2 ∧ Forall (λ c, f c = true) r.1).
Proof.
  unfold parse_span. cbv zeta. destruct (decide (_ = [])) as [|Hne]; [done|]. cbn. split; [|apply span_all]. split; [apply span_suffix|].
  rewrite <- (span_app f src) at 2. rewrite length_app. destruct (span f src) as [[|x l] r]; [done|cbn; lia].
Qed.

Lemma stoull_ok s : throwsP (stoull s) (λ v, v ≤ UINT64_MAX)%Z.
Proof. unfold stoull. by destruct (decide _). Qed.

Lemma expect_ok c src : c ≠ 0%Z → throwsP (expect c src) (shorter src).
Proof. unfold expect. destruct (decide _) as [E|]; [|done]. cbn. intros. apply shorter_tail. by rewrite E. Qed.

Lemma parse_hex_ok size value src : throwsP (parse_hex size value src) (λ r, r.2 `suffix_of` src).
Proof.
  revert value src. induction size as [|size IH]; intros value src; [by cbn|]. cbn [parse_hex].
  destruct (hex_value _); [|done]. eapply throwsP_mono; [apply IH|]. intros r H. etrans; [apply H|apply suffix_tail].
Qed.

Lemma read_cont_suffix n value src : (read_cont n value src).2 `suffix_of` src.
Proof.
  revert value src. induction n as [|n IH]; intros value src; [done|]. destruct src as [|b src]; [done|]. cbn [read_cont].
  destruct (decide _); [done|]. apply suffix_cons_r, IH.
Qed.

Lemma decode_one_ok src : Forall is_byte src → deref src ≠ 0%Z → okP (decode_one src) (λ r, shorter src r.2).
Proof.
  destruct src as [|b src]; [done|]. intros [[Hb1 Hb2] Hs]%Forall_cons _. unfold decode_one.
  destruct (lookup_lt_is_Some_2 lookup_start (Z.to_nat (Z.shiftr b 4))) as [len Hlen].
  { rewrite Z.shiftr_div_pow2 by lia. change (2 ^ 4)%Z with 16%Z. change (length lookup_start) with 16.
    assert (b / 16 < 16)%Z by (apply Z.div_lt_upper_bound; lia). lia. }
  rewrite (vget_ok _ _ _ Hlen), bind_Ok. cbn [okP]. split.
  - etrans; [apply read_cont_suffix|apply suffix_tail].
  - pose proof (suffix_length _ _ (read_cont_suffix (len - 1) (Z.land b (Z.land (Z.shiftl 1 (8 - Z.of_nat len) - 1) 255)) src)). cbn [length]. lia.
Qed.

Lemma throwsP_okP {A} (m : res A) P : okP m P → throwsP m P.
Proof. by destruct m. Qed.

Lemma parse_char_ok src : Forall is_byte src → throwsP (parse_char src) (λ r, shorter src r.2).
Proof.
  intros Hb. unfold parse_char. destruct (decide (deref src = 92)%Z) as [E|].
  - assert (∀ pos, pos `suffix_of` drop 2 src → shorter src pos) as H.
    { intros pos H. eapply shorter_suffix; [apply shorter_tail; by rewrite E|]. etrans; [exact H|].
      destruct src as [|? src]; [done|]. cbn. apply suffix_drop'. }
    repeat (destruct (decide _); [first [eapply throwsP_mono; [apply parse_hex_ok|intros r; apply H] | cbn; by apply H]|]). done.
  - destruct (decide _); [|done]. by apply throwsP_okP, decode_one_ok.
Qed.

Lemma parse_token_ok tokenize src : throwsP (parse_token tokenize src) (λ r, shorter src r.2).
Proof.
  unfold parse_token. eapply throwsP_bind; [by apply expect_ok|]. intros pos Hpos. destruct (decide _) as [E|].
  - eapply throwsP_bind; [apply parse_span_ok|]. intros i [Hi _].
    eapply throwsP_bind; [apply stoull_ok|]. intros id _.
    eapply throwsP_bind; [by apply expect_ok|]. intros pos1 H1. eapply throwsP_bind; [by apply expect_ok|]. intros pos2 H2. cbn.
    eapply shorter_trans; [exact Hpos|]. eapply suffix_shorter; [apply suffix_tail|]. by eauto using shorter_trans.
  - destruct tokenize as [t|]; [|done]. cbn [of_option mbind res_bind].
    eapply throwsP_bind; [by apply expect_ok|]. intros pos1 H1. destruct (t _) as [|x [|]]; [done| |done]. cbn.
    eapply shorter_trans; [exact Hpos|]. eapply suffix_shorter; [apply span_suffix|done].
Qed.

(** ** The bounds of a repetition *)

Definition bounds_ok (m n : Z) : Prop := (0 ≤ m ≤ MAX_REPETITION_THRESHOLD ∧ (n = UINT64_MAX ∨ 0 ≤ n ≤ MAX_REPETITION_THRESHOLD))%Z.

Lemma stoull_digits s : Forall (λ c, is_digit_char c = true) s → throwsP (stoull s) (λ v, 0 ≤ v ≤ UINT64_MAX)%Z.
Proof.
  intros H. unfold stoull. destruct (decide _) as [Hle|]; [|done]. cbn. split; [|done]. clear Hle.
  assert (∀ v, 0 ≤ v → 0 ≤ fold_left (λ v c, v * 10 + (c - 48)) s v)%Z as Hv; [|by apply Hv].
  induction H as [|c s Hc H IH]; intros v Hv; [done|]. cbn. apply IH. apply bool_decide_eq_true_1 in Hc. lia.
Qed.

Lemma parse_max_ok is_nested pos :
  throwsP (if is_digit_char (deref pos) then
             i ← parse_int pos; max_times ← stoull i.1; Ok (max_times, skip_space is_nested i.2)
           else Ok (UINT64_MAX, pos)) (λ m, m.2 `suffix_of` pos ∧ (0 ≤ m.1 ≤ UINT64_MAX)%Z).
Proof.
  destruct (is_digit_char _); [|by cbn].
  eapply throwsP_bind; [apply parse_span_ok|]. intros i [[Hi _] Hd].
  eapply throwsP_bind; [by apply stoull_digits|]. intros v Hv. cbn. split; [|done].
  etrans; [apply skip_space_suffix|exact Hi].
Qed.

Lemma parse_bounds_ok is_nested src :
  throwsP (parse_bounds is_nested src) (λ r, r.2 `suffix_of` src ∧ bounds_ok r.1.1 r.1.2).
Proof.
  unfold parse_bounds. pose proof (skip_space_suffix is_nested src) as H0. destruct (negb _); [done|].
  eapply throwsP_bind; [apply parse_span_ok|]. intros i [[Hi _] Hd].
  eapply throwsP_bind; [by apply stoull_digits|]. intros m Hm. cbn beta in Hm.
  pose proof (skip_space_suffix is_nested i.2) as H1. set (pos := skip_space is_nested i.2) in *.
  eapply (throwsP_bind _ _ (λ r : Z * list Z, r.2 `suffix_of` src ∧ (0 ≤ r.1)%Z)).
  - assert (pos `suffix_of` src) as Hpos by (etrans; [exact H1|by etrans]).
    destruct (decide _); [|destruct (decide _); [|done]].
    + cbn [throwsP fst snd]. split; [|apply Hm]. etrans; [apply skip_space_suffix|]. etrans; [apply suffix_tail|done].
    + eapply throwsP_bind; [apply parse_max_ok|]. intros [mx pos1] [Hs Hn]. cbn [fst snd] in *.
      eapply throwsP_bind; [by apply expect_ok|]. intros pos2 [H2 _]. cbn [throwsP fst snd]. split; [|apply Hn].
      etrans; [apply skip_space_suffix|]. etrans; [exact H2|]. etrans; [exact Hs|]. etrans; [apply skip_space_suffix|].
      etrans; [apply suffix_tail|done].
  - intros [mx pos1] [Hs Hn]. cbn [fst snd] in *. destruct (decide _); [done|]. cbn. split; [done|]. unfold bounds_ok.
    destruct (decide (mx = UINT64_MAX)); lia.
Qed.

Lemma parse_repetition_ok is_nested pos : is_repetition (deref pos) = true →
  throwsP (parse_repetition is_nested pos) (λ r, shorter pos r.2 ∧ bounds_ok r.1.1 r.1.2).
Proof.
  intros H%bool_decide_eq_true_1. unfold parse_repetition.
  assert (∀ q, q `suffix_of` tail pos → shorter pos q) as Hs.
  { intros q. apply shorter_suffix, shorter_tail. lia. }
  unfold bounds_ok.
  repeat (destruct (decide _); [cbn; split; [apply Hs, skip_space_suffix|unfold MAX_REPETITION_THRESHOLD; lia]|]).
  eapply throwsP_mono; [apply parse_bounds_ok|]. intros r []. auto.
Qed.

(** ** Names *)

Abbreviation word := (Forall (λ c, is_word_char c = true)).

Lemma uint_bytes_inj d1 d2 : uint_bytes d1 = uint_bytes d2 → d1 = d2.
Proof.
  revert d2. induction d1; intros []; cbn [uint_bytes]; intros H; try discriminate; try reflexivity; injection H as H; f_equal; auto.
Qed.

Lemma to_string_inj m n : to_string m = to_string n → m = n.
Proof. intros H%uint_bytes_inj. by apply DecimalNat.Unsigned.to_uint_inj. Qed.

(** the names that are generated, which no text can mention *)
Definition gen_name (base : list Z) (id : nat) : list Z := base ++ 95%Z :: to_string id.

Lemma word_no_underscore w x : word w → w ≠ x ++ 95%Z :: drop (S (length x)) w.
Proof. intros H E. rewrite E in H. apply Forall_app in H as [_ H]. by inversion_clear H. Qed.

Lemma gen_name_not_word base id : ¬ word (gen_name base id).
Proof. intros [_ H]%Forall_app. by inversion_clear H. Qed.

Lemma gen_name_inj b1 b2 m n : word b1 → word b2 → gen_name b1 m = gen_name b2 n → m = n.
Proof.
  unfold gen_name. intros H1. revert b2. induction H1 as [|c b1 Hc H1 IH]; intros [|c2 b2] H2 E; cbn in E.
  - injection E as E. by apply to_string_inj.
  - injection E as <- E. by inversion_clear H2.
  - injection E as -> E. done.
  - injection E as <- E. inversion_clear H2. eauto.
Qed.

(** ** Symbol tables *)

(** The ids are 0, 1, ..., each with one name. *)
Record names_ok (ids : gmap (list Z) nat) : Prop := {
  names_lt : ∀ name id, ids !! name = Some id → id < size ids;
  names_form : ∀ name id, ids !! name = Some id → word name ∨ ∃ base, word base ∧ name = gen_name base id;
  names_dense : ∀ id, id < size ids → ∃ name, ids !! name = Some id;
  names_inj : ∀ n1 n2 id, ids !! n1 = Some id → ids !! n2 = Some id → n1 = n2
}.

Lemma names_empty : names_ok ∅.
Proof. split; [intros n i H; by rewrite lookup_empty in H..| |intros n1 n2 i H; by rewrite lookup_empty in H]. intros id. rewrite map_size_empty. lia. Qed.

Lemma names_insert ids name : names_ok ids → ids !! name = None →
  (word name ∨ ∃ base, word base ∧ name = gen_name base (size ids)) → names_ok (<[name := size ids]> ids).
Proof.
  intros Hn Hf Hname. assert (size (<[name := size ids]> ids) = S (size ids)) as Hs by by apply map_size_insert_None.
  split; rewrite ?Hs.
  - intros n id [[<- <-]|[_ H]]%lookup_insert_Some; [lia|]. apply (names_lt _ Hn) in H. lia.
  - intros n id [[<- <-]|[_ H]]%lookup_insert_Some; [done|]. by apply (names_form _ Hn).
  - intros id Hid. destruct (decide (id = size ids)) as [->|]; [exists name; apply lookup_insert_eq|].
    destruct (names_dense _ Hn id) as [nm H]; [lia|]. exists nm. rewrite lookup_insert_ne; [done|]. intros <-. congruence.
  - intros n1 n2 id [[<- <-]|[_ H1]]%lookup_insert_Some [[<- E]|[_ H2]]%lookup_insert_Some; [done|..].
    + apply (names_lt _ Hn) in H2. lia.
    + subst. apply (names_lt _ Hn) in H1. lia.
    + by eapply names_inj.
Qed.

Lemma gen_name_fresh ids base : names_ok ids → word base → ids !! gen_name base (size ids) = None.
Proof.
  intros Hn Hb. destruct (ids !! gen_name base (size ids)) as [id|] eqn:E; [|done]. exfalso.
  pose proof (names_lt _ Hn _ _ E). destruct (names_form _ Hn _ _ E) as [Hw|(b & Hb' & E')]; [by apply gen_name_not_word in Hw|].
  apply gen_name_inj in E'; [lia|done..].
Qed.

(** ** The rules of a parser *)

(** An encoded rule with references below [n]. *)
Definition rule_ok (n : nat) (rule : llama_grammar_rule) : Prop :=
  ∃ alts, alts ≠ [] ∧ Forall (Forall (ref_ok n)) alts ∧ rule = enc_rule alts.

Record parser_ok (p : llama_grammar_parser) : Prop := {
  p_names : names_ok (symbol_ids p);
  p_length : length (p_rules p) ≤ size (symbol_ids p);
  p_enc : Forall (λ rule, rule = [] ∨ rule_ok (size (symbol_ids p)) rule) (p_rules p)
}.

(** The rule with an id; the empty one if it is not defined (yet). *)
Definition rule_at (p : llama_grammar_parser) (id : nat) : llama_grammar_rule := default [] (p_rules p !! id).

(** The names of [p] keep their ids in [p'], and the rules with the ids in [P] are the same. *)
Record grows (P : nat → Prop) (p p' : llama_grammar_parser) : Prop := {
  g_ids : symbol_ids p ⊆ symbol_ids p';
  g_same : ∀ id, P id → rule_at p' id = rule_at p id
}.

Abbreviation ids_below p := (λ id, id < size (symbol_ids p)).

Lemma grows_size P p p' : grows P p p' → size (symbol_ids p) ≤ size (symbol_ids p').
Proof. intros [H _]. by apply map_subseteq_size. Qed.

Lemma grows_refl P p : grows P p p.
Proof. done. Qed.

Lemma grows_trans (P Q R : nat → Prop) p1 p2 p3 : grows P p1 p2 → grows Q p2 p3 → (∀ id, R id → P id ∧ Q id) → grows R p1 p3.
Proof. intros [H1 H2] [H3 H4] H. split; [by etrans|]. intros id [HP HQ]%H. rewrite H4, H2; done. Qed.

Lemma ref_ok_mono m n s : m ≤ n → ref_ok m s → ref_ok n s.
Proof. destruct s; cbn; lia. Qed.

Lemma refs_ok_mono m n ss : m ≤ n → Forall (ref_ok m) ss → Forall (ref_ok n) ss.
Proof. intros H Hf. eapply Forall_impl; [exact Hf|]. intros s. by apply ref_ok_mono. Qed.

Lemma alts_ok_mono m n alts : m ≤ n → Forall (Forall (ref_ok m)) alts → Forall (Forall (ref_ok n)) alts.
Proof. intros H Hf. eapply Forall_impl; [exact Hf|]. intros ss. by apply refs_ok_mono. Qed.

Lemma rule_ok_mono m n rule : m ≤ n → rule_ok m rule → rule_ok n rule.
Proof. intros H (alts & H1 & H2 & ->). exists alts. eauto using alts_ok_mono. Qed.

Lemma with_ids_ok p ids : parser_ok p → names_ok ids → symbol_ids p ⊆ ids → parser_ok (Parser ids (p_rules p)).
Proof.
  intros [H1 H2 H3] Hn Hs%map_subseteq_size. split; cbn; [done|lia|]. eapply Forall_impl; [exact H3|].
  intros r [->|Hr]; [by left|right; by eapply rule_ok_mono].
Qed.

Lemma get_symbol_id_ok p name : parser_ok p → word name →
  let r := get_symbol_id p name in
  parser_ok r.1 ∧ grows (λ _, True) p r.1 ∧ symbol_ids r.1 !! name = Some r.2 ∧ r.2 < size (symbol_ids r.1).
Proof.
  intros Hp Hw. unfold get_symbol_id. destruct (symbol_ids p !! name) as [id|] eqn:E; cbn.
  - split; [done|]. split; [done|]. split; [done|]. by eapply names_lt; [apply p_names|].
  - assert (symbol_ids p ⊆ <[name := size (symbol_ids p)]> (symbol_ids p)) by by apply insert_subseteq.
    split; [|split; [done|split; [apply lookup_insert_eq|rewrite map_size_insert_None by done; lia]]].
    apply with_ids_ok; [done| |done]. apply names_insert; [apply Hp|done|by left].
Qed.

Lemma generate_symbol_id_ok p base : parser_ok p → word base →
  let r := generate_symbol_id p base in
  parser_ok r.1 ∧ grows (λ _, True) p r.1 ∧ r.2 = size (symbol_ids p) ∧ size (symbol_ids r.1) = S r.2 ∧ p_rules r.1 = p_rules p.
Proof.
  intros Hp Hw. pose proof (gen_name_fresh _ base (p_names _ Hp) Hw) as Hf. unfold generate_symbol_id. cbn.
  fold (gen_name base (size (symbol_ids p))).
  assert (symbol_ids p ⊆ <[gen_name base (size (symbol_ids p)) := size (symbol_ids p)]> (symbol_ids p)) by by apply insert_subseteq.
  split; [|split; [done|split; [done|split; [by apply map_size_insert_None|done]]]].
  apply with_ids_ok; [done| |done]. apply names_insert; [apply Hp|done|right; by exists base].
Qed.

Lemma add_rule_at p id rule id' : rule_at (add_rule p id rule) id' = if decide (id' = id) then rule else rule_at p id'.
Proof.
  unfold rule_at, add_rule. cbn [p_rules]. destruct (decide (id' = id)) as [->|].
  - rewrite list_lookup_insert_eq; [done|]. case_decide; [rewrite length_app, length_replicate|]; lia.
  - rewrite list_lookup_insert_ne by done. case_decide as Hl; [|done]. destruct (decide (id' < length (p_rules p))).
    + by rewrite lookup_app_l.
    + rewrite lookup_app_r, (lookup_ge_None_2 (p_rules p)) by lia. cbn [default].
      destruct (replicate _ [] !! _) as [r|] eqn:E'; [|done]. by apply lookup_replicate in E' as [-> _].
Qed.

Lemma add_rule_grows p id rule : grows (λ id', id' ≠ id) p (add_rule p id rule).
Proof. split; [done|]. intros id' H. rewrite add_rule_at. by case_decide. Qed.

Lemma add_rule_ok p id rule : parser_ok p → id < size (symbol_ids p) → rule_ok (size (symbol_ids p)) rule →
  parser_ok (add_rule p id rule).
Proof.
  intros [H1 H2 H3] Hid Hr. unfold add_rule. split; cbn; [done| |].
  - rewrite length_insert. destruct (decide _); [rewrite length_app, length_replicate|]; lia.
  - apply Forall_insert; [|by right]. destruct (decide _); [|done]. apply Forall_app. split; [done|].
    apply Forall_replicate. by left.
Qed.

(** ** Repetitions: the rules that are made *)

Lemma enc_seq_app a b : enc_seq (a ++ b) = enc_seq a ++ enc_seq b.
Proof. unfold enc_seq. by rewrite fmap_app, concat_app. Qed.

Lemma enc_seq_nil ss : enc_seq ss = [] ↔ ss = [].
Proof. split; [|by intros ->]. destruct ss as [|s ss]; [done|]. by destruct s as [[] [lo o] l| | |[] id]. Qed.

(** [k] copies of a sequence *)
Definition copies (k : nat) (ss : list sym) : list sym := concat (replicate k ss).

Lemma enc_seq_copies k ss : enc_seq (copies k ss) = concat (replicate k (enc_seq ss)).
Proof. unfold copies. induction k as [|k IH]; [done|]. cbn [replicate concat]. by rewrite enc_seq_app, IH. Qed.

Lemma copies_add a b ss : copies (a + b) ss = copies a ss ++ copies b ss.
Proof. unfold copies. by rewrite replicate_add, concat_app. Qed.

Lemma copies_refs n k ss : Forall (ref_ok n) ss → Forall (ref_ok n) (copies k ss).
Proof. intros H. apply Forall_concat, Forall_replicate, H. Qed.

(** The alternates of the [i]-th rule for the repetitions of [ss]; the first of them has the id [base]. *)
Definition rec_alts (no_max : bool) (ss : list sym) (base i : nat) : list (list sym) :=
  [ss ++ (if no_max then [SRef (base + i)] else match i with 0 => [] | S j => [SRef (base + j)] end); []].

(** The rules [base], ..., [base + k - 1] were added. *)
Definition rec_rules (no_max : bool) (ss : list sym) (base k : nat) (p : llama_grammar_parser) : Prop :=
  ∀ i, i < k → rule_at p (base + i) = enc_rule (rec_alts no_max ss base i).

Lemma rec_alts_ok no_max ss base i : Forall (ref_ok base) ss →
  rule_ok (S (base + i)) (enc_rule (rec_alts no_max ss base i)).
Proof.
  intros H. eexists; split; [|split; [|reflexivity]]; [done|]. apply Forall_cons. split; [|by repeat constructor].
  apply Forall_app. split; [eapply refs_ok_mono; [|exact H]; lia|]. destruct no_max, i; repeat constructor; cbn; lia.
Qed.

Lemma rec_steps_ok name no_max ss p k : parser_ok p → word name → Forall (ref_ok (size (symbol_ids p))) ss →
  (no_max = true → k ≤ 1) →
  let r := fold_left (rec_step name (enc_seq ss) no_max) (seq 0 k) (p, 0) in
  let base := size (symbol_ids p) in
  parser_ok r.1 ∧ grows (λ id, id < base) p r.1 ∧ size (symbol_ids r.1) = base + k ∧ rec_rules no_max ss base k r.1 ∧
  (0 < k → r.2 = base + (k - 1)).
Proof.
  intros Hp Hw Hss. cbv zeta. set (base := size (symbol_ids p)) in *. induction k as [|k IH]; intros Hmax.
  { cbn. split; [done|]. split; [done|]. split; [unfold base; lia|]. split; [intros i; lia|lia]. }
  rewrite seq_S, fold_left_app, Nat.add_0_l. destruct IH as (H1 & H2 & H3 & H4 & H5); [intros E; specialize (Hmax E); lia|].
  destruct (fold_left _ (seq 0 k) (p, 0)) as [q last]. cbn [fst snd] in *. cbn [fold_left rec_step].
  pose proof (generate_symbol_id_ok q name H1 Hw) as Hg. destruct (generate_symbol_id q name) as [q' id].
  cbn [fst snd] in *. destruct Hg as (G1 & G2 & G3 & G4 & G5).
  assert (enc_seq ss ++ (if bool_decide (0 < k) || no_max then [Elem GRETYPE_RULE_REF (Z.of_nat (if no_max then id else last))] else [])
      ++ [Elem GRETYPE_ALT 0; Elem GRETYPE_END 0] = enc_rule (rec_alts no_max ss base k)) as ->.
  { cbn [rec_alts enc_rule]. rewrite enc_seq_app, <- app_assoc. f_equal. unfold rec_alts. destruct no_max.
    - rewrite orb_true_r. replace id with (base + k) by lia. done.
    - destruct k as [|k]; [done|]. rewrite bool_decide_true by lia. rewrite H5 by lia. cbn [orb]. by replace (base + (S k - 1)) with (base + k) by lia. }
  assert (id = base + k) as -> by lia. pose proof (rec_alts_ok no_max ss base k Hss) as Hr.
  assert (size (symbol_ids (add_rule q' (base + k) (enc_rule (rec_alts no_max ss base k)))) = base + S k) as Hsz by (cbn; lia).
  split; [|split; [|split; [done|split; [|lia]]]].
  - apply add_rule_ok; [done|lia|]. by rewrite G4.
  - eapply (grows_trans (λ id, id < base) (λ id, id ≠ base + k)); [|apply add_rule_grows|intros; lia].
    eapply (grows_trans _ (λ _, True)); [exact H2|exact G2|done].
  - intros i Hi. rewrite add_rule_at. case_decide as E; [by replace i with k by lia|].
    rewrite (g_same _ _ _ G2) by done. apply H4. lia.
Qed.

(** ** Repetitions: the texts *)

Section repetition.
Context (G : grammar) (ss : list sym).

(** the texts of [k] copies *)
Lemma gen_copies_S k w : gen G (copies (S k) ss) w ↔ ∃ u v, w = u ++ v ∧ gen G ss u ∧ gen G (copies k ss) v.
Proof.
  change (copies (S k) ss) with (ss ++ copies k ss). split; [apply gen_app_inv|]. intros (u & v & -> & H1 & H2). by apply gen_app.
Qed.

Lemma gen_empty w : gen G [] w ↔ w = [].
Proof. split; [by inversion 1|intros ->; constructor]. Qed.

(** S' ::= S S' | *)
Lemma gen_star_inv r sss w : G !! r = Some [ss ++ [SRef r]; []] → gen G sss w → ∀ pre, sss = pre ++ [SRef r] →
  ∃ u v k, w = u ++ v ∧ gen G pre u ∧ gen G (copies k ss) v.
Proof.
  intros Hr. induction 1 as [|s sss c w Hs Hg IH|s sss id w Hs Hg IH|r' alts alt sss u v Hr' Ha Hu IHu Hv IHv];
    intros [|s' pre] E; cbn in E; simplify_eq; try done.
  - destruct (IH pre eq_refl) as (u & v & k & -> & H1 & H2). exists (Chr c :: u), v, k. split_and!; [done|by constructor|done].
  - destruct (IH pre eq_refl) as (u & v & k & -> & H1 & H2). exists (Tok id :: u), v, k. split_and!; [done|by constructor|done].
  - apply gen_empty in Hv as ->. rewrite app_nil_r. exists [], u. apply elem_of_cons in Ha as [->| ->%list_elem_of_singleton].
    + destruct (IHu ss eq_refl) as (u1 & v1 & k & -> & H1 & H2). exists (S k). split_and!; [done|constructor|].
      apply gen_copies_S. by exists u1, v1.
    + apply gen_empty in Hu as ->. exists 0. split_and!; [done|constructor|constructor].
  - destruct (IHv pre eq_refl) as (u1 & v1 & k & -> & H1 & H2). exists (u ++ u1), v1, k.
    split_and!; [by rewrite app_assoc|by eapply gen_ref|done].
Qed.

Lemma gen_star r w : G !! r = Some [ss ++ [SRef r]; []] → gen G [SRef r] w ↔ ∃ k, gen G (copies k ss) w.
Proof.
  intros Hr. split.
  - intros H. destruct (gen_star_inv r _ w Hr H []) as (u & v & k & -> & ->%gen_empty & H2); [done|]. by exists k.
  - intros [k H]. apply gen_ref_iff. revert w H. induction k as [|k IH]; intros w H; eexists _, _; (split; [exact Hr|]).
    + split; [by right; left|]. by rewrite app_nil_r.
    + apply gen_copies_S in H as (u & v & -> & H1 & H2). split; [by left|]. rewrite app_nil_r. apply gen_app; [done|].
      apply gen_ref_iff. by apply IH.
Qed.

(** S'(i) ::= S S'(i-1) | *)
Lemma gen_upto base i w : (∀ j, j ≤ i → G !! (base + j) = Some (rec_alts false ss base j)) →
  gen G [SRef (base + i)] w ↔ ∃ k, k ≤ S i ∧ gen G (copies k ss) w.
Proof.
  revert w. induction i as [|i IH]; intros w HG; rewrite gen_ref_iff.
  - split.
    + intros (alts & alt & Hr & Ha & Hg). rewrite HG in Hr by done. injection Hr as <-. rewrite app_nil_r in Hg.
      apply elem_of_cons in Ha as [->| ->%list_elem_of_singleton]; [exists 1|exists 0]; (split; [lia|]); [|done].
      unfold copies. cbn. rewrite app_nil_r. by rewrite ?app_nil_r in Hg.
    + intros (k & Hk & H). exists (rec_alts false ss base 0). destruct k as [|[|]]; [exists []|exists (ss ++ [])|lia];
        (split; [by apply HG|]); (split; [unfold rec_alts; first [by left|by right; left]|]); [exact H|].
      unfold copies in H. cbn in H. rewrite !app_nil_r. by rewrite app_nil_r in H.
  - assert (∀ j, j ≤ i → G !! (base + j) = Some (rec_alts false ss base j)) as HG' by (intros; apply HG; lia). split.
    + intros (alts & alt & Hr & Ha & Hg). rewrite HG in Hr by done. injection Hr as <-. rewrite app_nil_r in Hg.
      apply elem_of_cons in Ha as [->| ->%list_elem_of_singleton]; [|exists 0; split; [lia|done]].
      apply gen_app_inv in Hg as (u & v & -> & H1 & (k & Hk & H2)%(IH v HG')). exists (S k). split; [lia|].
      apply gen_copies_S. by exists u, v.
    + intros (k & Hk & H). exists (rec_alts false ss base (S i)). destruct k as [|k]; [exists []|exists (ss ++ [SRef (base + i)])];
        (split; [by apply HG|]); (split; [unfold rec_alts; first [by left|by right; left]|]); rewrite app_nil_r; [exact H|].
      apply gen_copies_S in H as (u & v & -> & H1 & H2). apply gen_app; [done|]. apply (IH v HG'). exists k. split; [lia|done].
Qed.
End repetition.

(** ** handle_repetitions *)

(** how often the repeated item can occur after the first [m] copies: the extra rules, or no bound *)
Definition repeats (m n : Z) (k : nat) : Prop := (n ≠ UINT64_MAX → Z.of_nat k ≤ n_optional m n)%Z.

(** What replaces the item [ss]. *)
Definition repeated (m n : Z) (ss : list sym) (base : nat) : list sym :=
  copies (Z.to_nat m) ss ++
    (if decide (0 < n_optional m n)%Z then [SRef (base + (Z.to_nat (n_optional m n) - 1))] else []).

Lemma n_optional_pos m n : (0 ≤ n_optional m n)%Z.
Proof. unfold n_optional, UINT64_MAX. case_decide; [lia|]. apply Z.mod_pos_bound. lia. Qed.

Lemma n_optional_le m n : (0 ≤ m ≤ n)%Z → n ≠ UINT64_MAX → (n < UINT64_MAX)%Z → n_optional m n = (n - m)%Z.
Proof. intros Hm Hn Hlt. unfold n_optional. rewrite decide_False by done. apply Z.mod_small. lia. Qed.

(** The texts of what replaces it, in a grammar with the extra rules. *)
Lemma gen_repeated G ss base m n w : (0 ≤ m)%Z →
  (∀ i, i < Z.to_nat (n_optional m n) → G !! (base + i) = Some (rec_alts (bool_decide (n = UINT64_MAX)) ss base i)) →
  gen G (repeated m n ss base) w ↔ ∃ k, repeats m n k ∧ gen G (copies (Z.to_nat m + k) ss) w.
Proof.
  intros Hm HG. unfold repeated, repeats. pose proof (n_optional_pos m n) as Hpos.
  assert (∀ v, gen G (if decide (0 < n_optional m n)%Z then [SRef (base + (Z.to_nat (n_optional m n) - 1))] else []) v ↔
    ∃ k, (n ≠ UINT64_MAX → Z.of_nat k ≤ n_optional m n)%Z ∧ gen G (copies k ss) v) as Htail.
  { intros v. destruct (decide (n = UINT64_MAX)) as [->|Hn].
    - assert (n_optional m UINT64_MAX = 1%Z) as E by (unfold n_optional; by rewrite decide_True). rewrite E, decide_True by lia.
      rewrite E in HG. specialize (HG 0 ltac:(lia)). rewrite bool_decide_true in HG by done. cbn [Z.to_nat] in *.
      change (Pos.to_nat 1 - 1) with 0 in *. unfold rec_alts in HG. rewrite (gen_star G ss) by done. naive_solver.
    - rewrite bool_decide_false in HG by done. case_decide as Hk.
      + rewrite (gen_upto G ss) by (intros; apply HG; lia). split; intros (k & Hk' & H); exists k; (split; [|done]).
        * intros _. lia.
        * specialize (Hk' Hn). lia.
      + rewrite gen_empty. split; [intros ->; exists 0; split; [lia|constructor]|]. intros (k & Hk' & H). specialize (Hk' Hn).
        assert (k = 0) as -> by lia. by apply gen_empty in H. }
  split.
  - intros (u & v & -> & Hu & (k & Hk & Hv)%Htail)%gen_app_inv. exists k. split; [done|]. rewrite copies_add. by apply gen_app.
  - intros (k & Hk & H). rewrite copies_add in H. apply gen_app_inv in H as (u & v & -> & Hu & Hv). apply gen_app; [done|].
    apply Htail. by exists k.
Qed.

(** [p'] is [p] with the extra rules. *)
Definition adds_rules (m n : Z) (ss : list sym) (p p' : llama_grammar_parser) : Prop :=
  let base := size (symbol_ids p) in
  parser_ok p' ∧ grows (ids_below p) p p' ∧ size (symbol_ids p') = base + Z.to_nat (n_optional m n) ∧
  rec_rules (bool_decide (n = UINT64_MAX)) ss base (Z.to_nat (n_optional m n)) p'.

Lemma repeated_refs m n ss base : (0 ≤ m)%Z → Forall (ref_ok base) ss →
  Forall (ref_ok (base + Z.to_nat (n_optional m n))) (repeated m n ss base).
Proof.
  intros Hm H. apply Forall_app. split.
  - apply copies_refs. eapply refs_ok_mono; [|exact H]. lia.
  - case_decide; repeat constructor; cbn; lia.
Qed.

Lemma handle_repetitions_ok name m n p front ss : (0 ≤ m)%Z → parser_ok p → word name →
  Forall (ref_ok (size (symbol_ids p))) ss →
  if decide (ss = []) then handle_repetitions name m n (length front) p (front ++ enc_seq ss) = Err Throw
  else okP (handle_repetitions name m n (length front) p (front ++ enc_seq ss)) (λ r,
    r.2 = front ++ enc_seq (repeated m n ss (size (symbol_ids p))) ∧ adds_rules m n ss p r.1).
Proof.
  intros Hm Hp Hw Hss. unfold handle_repetitions. cbv zeta. case_decide as Hne.
  { subst. cbn [enc_seq]. rewrite app_nil_r. by rewrite decide_True. }
  rewrite decide_False by (rewrite length_app; intros E; apply Hne, enc_seq_nil, nil_length_inv; lia).
  rewrite drop_app_length, take_app_length.
  pose proof (rec_steps_ok name (bool_decide (n = UINT64_MAX)) ss p (Z.to_nat (n_optional m n)) Hp Hw Hss) as Hr.
  destruct (fold_left _ _ _) as [p' last]. cbn [fst snd] in Hr. destruct Hr as (H1 & H2 & H3 & H4 & H5).
  { intros ->%bool_decide_eq_true_1. unfold n_optional. by rewrite decide_True. }
  cbn [okP fst snd]. split; [|done]. unfold repeated. rewrite enc_seq_app, enc_seq_copies.
  assert ((if decide (m = 0)%Z then front else (front ++ enc_seq ss) ++ concat (replicate (Z.to_nat m - 1) (enc_seq ss)))
    = front ++ concat (replicate (Z.to_nat m) (enc_seq ss))) as ->.
  { destruct (decide (m = 0%Z)) as [->|E]; [cbn; by rewrite app_nil_r|]. replace (Z.to_nat m) with (S (Z.to_nat m - 1)) at 2 by lia.
    cbn [replicate concat]. by rewrite <- app_assoc. }
  destruct (decide (0 < n_optional m n)%Z); [rewrite <- app_assoc|by rewrite app_nil_r]. f_equal. f_equal. cbn. by rewrite H5 by lia.
Qed.

(** ** The rule under construction *)

(** the alternates before the current one *)
Definition done_alts (alts : list (list sym)) : list llama_grammar_element :=
  concat ((λ a, enc_seq a ++ [Elem GRETYPE_ALT 0]) <$> alts).

Lemma done_alts_snoc alts a : done_alts (alts ++ [a]) = done_alts alts ++ enc_seq a ++ [Elem GRETYPE_ALT 0].
Proof. unfold done_alts. rewrite fmap_app, concat_app. cbn. by rewrite app_nil_r. Qed.

Lemma enc_rule_done alts a : enc_rule (alts ++ [a]) = done_alts alts ++ enc_seq a ++ [Elem GRETYPE_END 0].
Proof.
  induction alts as [|b alts IH]; [done|]. change (done_alts (b :: alts)) with ((enc_seq b ++ [Elem GRETYPE_ALT 0]) ++ done_alts alts).
  rewrite <- !app_assoc, <- IH. cbn [app enc_rule]. by destruct alts.
Qed.

(** Complete alternates, the current one before [last_sym_start], and its last item. *)
Definition open_rule (n : nat) (rule : llama_grammar_rule) (last : nat) : Prop :=
  ∃ alts pre cur, rule = (done_alts alts ++ enc_seq pre) ++ enc_seq cur ∧ last = length (done_alts alts ++ enc_seq pre) ∧
    Forall (Forall (ref_ok n)) alts ∧ Forall (ref_ok n) pre ∧ Forall (ref_ok n) cur.

Lemma open_rule_nil n : open_rule n [] 0.
Proof. exists [], [], []. split_and!; repeat constructor. Qed.

Lemma open_rule_add n n' rule last cur : n ≤ n' → open_rule n rule last → Forall (ref_ok n') cur →
  open_rule n' (rule ++ enc_seq cur) (length rule).
Proof.
  intros Hn (alts & pre & old & -> & -> & H1 & H2 & H3) H. exists alts, (pre ++ old), cur.
  rewrite enc_seq_app, !app_assoc. split_and!; [done|done|by eapply alts_ok_mono| |done].
  apply Forall_app. split; by eapply refs_ok_mono.
Qed.

Lemma open_rule_alt n rule last : open_rule n rule last →
  open_rule n (rule ++ [Elem GRETYPE_ALT 0]) (length (rule ++ [Elem GRETYPE_ALT 0])).
Proof.
  intros (alts & pre & old & -> & _ & H1 & H2 & H3). exists (alts ++ [pre ++ old]), [], [].
  rewrite done_alts_snoc, enc_seq_app. cbn [enc_seq]. rewrite !app_nil_r, <- !app_assoc. split_and!; [done|done| |done|done].
  apply Forall_app. split; [done|]. repeat constructor. by apply Forall_app.
Qed.

Lemma open_rule_end n rule last : open_rule n rule last → rule_ok n (rule ++ [Elem GRETYPE_END 0]).
Proof.
  intros (alts & pre & old & -> & _ & H1 & H2 & H3). exists (alts ++ [pre ++ old]). split; [by destruct alts|].
  split; [apply Forall_app; split; [done|]; repeat constructor; by apply Forall_app|].
  by rewrite enc_rule_done, enc_seq_app, <- !app_assoc.
Qed.

(** ** Literals and classes *)

Definition char_sym (c : Z) : sym := SClass false (c, None) [].

Lemma parse_literal_ok fuel rule pos : Forall is_byte pos → length pos < fuel →
  throwsP (parse_literal fuel rule pos) (λ r : llama_grammar_rule * list Z, (∃ cs, r.1 = rule ++ enc_seq (char_sym <$> cs)) ∧ r.2 `suffix_of` pos).
Proof.
  revert rule pos. induction fuel as [|fuel IH]; intros rule pos Hb Hf; [lia|]. cbn [parse_literal].
  destruct (decide _); [cbn; split; [exists []; by rewrite app_nil_r|apply suffix_tail]|]. destruct (decide _); [done|].
  eapply throwsP_bind; [by apply parse_char_ok|]. intros [c pos'] [Hs Hl]. cbn [fst snd] in *.
  eapply throwsP_mono; [apply IH; [by eapply Forall_suffix'|lia]|]. intros r [[cs ->] Hr]. split; [|by etrans].
  exists (c :: cs). by rewrite <- app_assoc.
Qed.

(** What a class has so far. *)
Definition class_so_far (neg : bool) (items : list (Z * option Z)) : list sym :=
  match items with [] => [] | i :: l => [SClass neg i l] end.

Lemma class_snoc neg items j : enc_seq (class_so_far neg (items ++ [j])) = enc_seq (class_so_far neg items) ++
  enc_item (if decide (items = []) then if neg then GRETYPE_CHAR_NOT else GRETYPE_CHAR else GRETYPE_CHAR_ALT) j.
Proof.
  destruct items as [|i l]; cbn [class_so_far app enc_seq fmap list_fmap concat enc_sym]; rewrite !app_nil_r; [done|].
  rewrite fmap_app, concat_app. cbn [fmap list_fmap concat]. by rewrite app_nil_r, app_assoc.
Qed.

Lemma class_length neg items front : length front < length (front ++ enc_seq (class_so_far neg items)) ↔ items ≠ [].
Proof.
  rewrite length_app. destruct items as [|[lo []] l]; cbn; split; intros; first [done|lia].
Qed.

Lemma parse_class_ok (neg : bool) fuel front items pos : Forall is_byte pos → length pos < fuel →
  throwsP (parse_class fuel (if neg then GRETYPE_CHAR_NOT else GRETYPE_CHAR) (length front)
             (front ++ enc_seq (class_so_far neg items)) pos)
    (λ r : llama_grammar_rule * list Z, (∃ items', r.1 = front ++ enc_seq (class_so_far neg items')) ∧ r.2 `suffix_of` pos).
Proof.
  revert items pos. induction fuel as [|fuel IH]; intros items pos Hb Hf; [lia|]. cbn [parse_class].
  destruct (decide _); [cbn; split; [by exists items|apply suffix_tail]|]. destruct (decide _); [done|].
  eapply throwsP_bind; [by apply parse_char_ok|]. intros [c pos'] [Hs Hl]. cbn [fst snd] in *. cbv zeta.
  replace (if decide (length front < length (front ++ enc_seq (class_so_far neg items))) then GRETYPE_CHAR_ALT
           else if neg then GRETYPE_CHAR_NOT else GRETYPE_CHAR)
    with (if decide (items = []) then if neg then GRETYPE_CHAR_NOT else GRETYPE_CHAR else GRETYPE_CHAR_ALT).
  2: { pose proof (class_length neg items front). destruct (decide (items = [])), (decide (_ < _)); tauto. }
  assert (Forall is_byte pos') as Hb' by by eapply Forall_suffix'.
  destruct (decide (deref pos' = 45 ∧ _)%Z) as [[E1 E2]|].
  - destruct (decide _); [done|]. eapply throwsP_bind; [apply parse_char_ok; eapply Forall_suffix'; [apply suffix_tail|done]|].
    intros [d pos2] [Hs2 Hl2]. cbn [fst snd] in *. assert (pos2 `suffix_of` pos') as Hs3 by (etrans; [exact Hs2|apply suffix_tail]).
    pose proof (class_snoc neg items (c, Some d)) as Hc. unfold enc_item in Hc; cbn [fst snd] in Hc.
    rewrite <- !app_assoc. cbn [app]. rewrite <- Hc.
    eapply throwsP_mono; [apply IH; [by eapply Forall_suffix'|apply suffix_length in Hs3; lia]|]. intros r [H1 H2]. split; [done|].
    etrans; [exact H2|]. by etrans.
  - pose proof (class_snoc neg items (c, None)) as Hc. unfold enc_item in Hc; cbn [fst snd] in Hc.
    rewrite <- !app_assoc, <- Hc. eapply throwsP_mono; [apply IH; [done|lia]|]. intros r [H1 H2]. split; [done|]. by etrans.
Qed.

Lemma class_refs n neg items : Forall (ref_ok n) (class_so_far neg items).
Proof. destruct items; by repeat constructor. Qed.

Lemma literal_refs n cs : Forall (ref_ok n) (char_sym <$> cs).
Proof. apply Forall_fmap, Forall_true. done. Qed.

(** ** The parser: what holds at each step *)

Definition seq_ok (s : seq_state) : Prop :=
  parser_ok (sq_parser s) ∧ open_rule (size (symbol_ids (sq_parser s))) (sq_rule s) (last_sym_start s) ∧ Forall is_byte (sq_pos s).

(** Only rules with new ids were added. *)
Abbreviation grows_new p p' := (grows (ids_below p) p p').

Lemma grows_new_trans p1 p2 p3 : grows_new p1 p2 → grows_new p2 p3 → grows_new p1 p3.
Proof. intros H1 H2. eapply grows_trans; [exact H1|exact H2|]. cbn beta. intros id. pose proof (grows_size _ _ _ H1). lia. Qed.

Lemma grows_all_new p p' : grows (λ _, True) p p' → grows_new p p'.
Proof. intros [H1 H2]. split; [done|]. auto. Qed.

Definition seq_step (s s' : seq_state) : Prop :=
  seq_ok s' ∧ grows_new (sq_parser s) (sq_parser s') ∧ sq_pos s' `suffix_of` sq_pos s.

Lemma seq_step_trans s1 s2 s3 : seq_step s1 s2 → seq_step s2 s3 → seq_step s1 s3.
Proof. intros (_ & G1 & S1) (H2 & G2 & S2). split; [done|]. split; [by eapply grows_new_trans|by etrans]. Qed.

Lemma seq_step_refl s : seq_ok s → seq_step s s.
Proof. done. Qed.

(** An item was read. *)
Definition item_step (s s' : seq_state) : Prop := seq_step s s' ∧ length (sq_pos s') < length (sq_pos s).

Lemma item_step_intro s p' cur pos :
  seq_ok s → parser_ok p' → grows_new (sq_parser s) p' → Forall (ref_ok (size (symbol_ids p'))) cur → shorter (sq_pos s) pos →
  item_step s (SeqState p' (sq_rule s ++ enc_seq cur) (length (sq_rule s)) pos).
Proof.
  intros (H1 & H2 & H3) Hp Hg Hc [Hs Hl]. split; [|done]. split; [|done]. split; [done|]. split; [|by eapply Forall_suffix'].
  cbn. eapply open_rule_add; [|done|done]. by eapply grows_size.
Qed.

Section parser.
Context (tokenize : option (list Z → list Z)) (rule_name : list Z).
Hypothesis Hname : word rule_name.

Lemma parse_item_class nested s : seq_ok s → deref (sq_pos s) = 91%Z →
  throwsP (parse_item tokenize rule_name nested s) (λ o, match o with Some s' => item_step s s' | None => True end).
Proof.
  intros Hs E. destruct s as [p rule last pos]. unfold parse_item. cbn [sq_pos] in E. rewrite E. cbn -[parse_class]. cbv zeta.
  destruct Hs as (Hp & Hr & Hb). cbn [sq_parser sq_rule last_sym_start sq_pos] in *.
  set (neg := bool_decide (deref (tail pos) = 94%Z)).
  assert ((if neg then tail (tail pos) else tail pos) `suffix_of` tail pos) as Hn by (destruct neg; [apply suffix_tail|done]).
  assert (shorter pos (tail pos)) as Hsh by (apply shorter_tail; by rewrite E).
  eapply throwsP_bind.
  - pose proof (parse_class_ok neg (S (length (if neg then tail (tail pos) else tail pos))) rule [] (if neg then tail (tail pos) else tail pos)) as H.
    cbn [class_so_far enc_seq] in H. rewrite app_nil_r in H. apply H; [|lia].
    eapply Forall_suffix'; [exact Hn|]. eapply Forall_suffix'; [apply Hsh|done].
  - intros [rule' pos'] [[items ->] Hs]. cbn [throwsP fst snd] in *. apply (item_step_intro (SeqState p rule last pos)); [done|done|done|apply class_refs|].
    cbn [sq_pos]. eapply shorter_suffix; [exact Hsh|]. etrans; [apply skip_space_suffix|]. by etrans.
Qed.

Lemma parse_item_repetition nested s : seq_ok s → is_repetition (deref (sq_pos s)) = true →
  throwsP (parse_item tokenize rule_name nested s) (λ o, match o with Some s' => item_step s s' | None => True end).
Proof.
  intros Hs E. destruct s as [p rule last pos]. unfold parse_item. cbn [sq_pos] in E. cbv zeta.
  pose proof (proj1 (bool_decide_eq_true _) E) as E'.
  rewrite decide_False by lia. rewrite decide_False by lia. rewrite decide_False by lia.
  assert (is_word_char (deref pos) = false) as -> by (destruct E' as [->|[->|[-> | ->]]]; done).
  rewrite decide_False by lia. rewrite E.
  destruct Hs as (Hp & Hr & Hb). cbn [sq_parser sq_rule last_sym_start sq_pos] in *.
  eapply throwsP_bind; [by apply parse_repetition_ok|]. intros [[m n] pos'] [Hs [Hm _]]. cbn [fst snd] in *.
  destruct Hr as (alts & pre & cur & -> & -> & H1 & H2 & H3).
  pose proof (handle_repetitions_ok rule_name m n p (done_alts alts ++ enc_seq pre) cur ltac:(lia) Hp Hname H3) as H.
  case_decide as Hc; [by rewrite H|]. eapply throwsP_bind; [by apply throwsP_okP|].
  intros [p' rule'] (E2 & Hp' & Hg & Hsz & _). cbn [fst snd throwsP] in *. subst rule'. destruct Hs as [Hs Hl].
  split; [|done]. split; [|done]. split; [done|]. split; [|by eapply Forall_suffix']. cbn.
  exists alts, pre, (repeated m n cur (size (symbol_ids p))). rewrite Hsz. split_and!; [done|done|..].
  - eapply alts_ok_mono; [|done]. lia.
  - eapply refs_ok_mono; [|done]. lia.
  - apply repeated_refs; [lia|done].
Qed.

Lemma parse_item_ok nested s : seq_ok s → deref (sq_pos s) ≠ 0%Z →
  throwsP (parse_item tokenize rule_name nested s) (λ o, match o with Some s' => item_step s s' | None => True end).
Proof.
  intros Hs H0. destruct (decide (deref (sq_pos s) = 91)%Z) as [|Hc]; [by apply parse_item_class|].
  destruct (is_repetition (deref (sq_pos s))) eqn:Er; [by apply parse_item_repetition|].
  destruct s as [p rule last pos]. unfold parse_item. cbn [sq_pos] in *. cbv zeta. rewrite (decide_False (P := (deref pos = 91)%Z)) by done. rewrite Er.
  pose proof Hs as (Hp & Hr & Hb). cbn [sq_parser sq_rule last_sym_start sq_pos] in *.
  pose proof (shorter_tail _ H0) as Hsh.
  destruct (decide (deref pos = 34)%Z) as [E|_].
  { eapply throwsP_bind; [apply parse_literal_ok; [by eapply Forall_suffix'; [apply Hsh|]|apply Hsh]|].
    intros [rule' pos'] [[cs ->] Hs']. cbn [fst snd throwsP]. apply (item_step_intro (SeqState p rule last pos)); [done|done|done|apply literal_refs|].
    cbn [sq_pos]. eapply shorter_suffix; [exact Hsh|]. etrans; [apply skip_space_suffix|done]. }
  destruct (decide _) as [E|_].
  { eapply throwsP_bind; [apply parse_token_ok|]. intros [t pos'] Hs'. cbn [fst snd throwsP] in *.
    set (neg := bool_decide (deref pos = 33%Z)) in *.
    apply (item_step_intro (SeqState p rule last pos) p [STok neg t]); [done|done|done|by repeat constructor|].
    cbn [sq_pos]. eapply shorter_suffix; [|apply skip_space_suffix]. eapply suffix_shorter; [|exact Hs'].
    destruct neg; [apply suffix_tail|done]. }
  destruct (is_word_char _) eqn:Ew.
  { eapply throwsP_bind; [apply parse_span_ok|]. intros [name pos'] [Hs' Hw]. cbn [fst snd] in *.
    pose proof (get_symbol_id_ok p name Hp Hw) as Hg. destruct (get_symbol_id p name) as [p' id]. cbn [fst snd] in Hg.
    destruct Hg as (Hp' & Hg & _ & Hid). cbn [throwsP].
    apply (item_step_intro (SeqState p rule last pos) p' [SRef id]); [done|done|by apply grows_all_new|by repeat constructor|].
    cbn [sq_pos]. eapply shorter_suffix; [exact Hs'|apply skip_space_suffix]. }
  destruct (decide _) as [E|_]; [|done].
  apply (item_step_intro (SeqState p rule last pos) p [SAny]); [done|done|done|by repeat constructor|].
  cbn [sq_pos]. eapply shorter_suffix; [exact Hsh|apply skip_space_suffix].
Qed.

(** What parse_alternates leaves. *)
Definition alternates_step (p : llama_grammar_parser) (rule_id : nat) (src : list Z) (r : llama_grammar_parser * list Z) : Prop :=
  parser_ok r.1 ∧ grows (λ id, id < size (symbol_ids p) ∧ id ≠ rule_id) p r.1 ∧ r.2 `suffix_of` src ∧
  rule_ok (size (symbol_ids r.1)) (rule_at r.1 rule_id).

Lemma parse_step_ok fuel :
  (∀ nested s, 2 * length (sq_pos s) + 1 ≤ fuel → seq_ok s →
    throwsP (parse_sequence fuel tokenize rule_name nested s) (seq_step s)) ∧
  (∀ nested p rule_id src, 2 * length src + 2 ≤ fuel → parser_ok p → rule_id < size (symbol_ids p) → Forall is_byte src →
    throwsP (parse_alternates fuel tokenize rule_name rule_id nested p src) (alternates_step p rule_id src)) ∧
  (∀ nested s, 2 * length (sq_pos s) + 1 ≤ fuel → seq_ok s →
    throwsP (parse_more fuel tokenize rule_name nested s) (seq_step s)).
Proof.
  induction fuel as [|fuel (IHs & IHa & IHm)]; [split_and!; intros; lia|]. split_and!.
  - intros nested s Hf Hs. cbn [parse_sequence]. cbv zeta. destruct (decide (deref (sq_pos s) = 0)%Z) as [|H0]; [by apply seq_step_refl|].
    pose proof (shorter_tail _ H0) as [Hsh Hlt]. destruct (decide _) as [E|].
    + destruct Hs as (Hp & Hr & Hb). pose proof (generate_symbol_id_ok _ _ Hp Hname) as Hg.
      destruct (generate_symbol_id (sq_parser s) rule_name) as [p1 id]. cbn [fst snd] in Hg. destruct Hg as (Hp1 & Hg1 & -> & Hsz & _).
      assert (skip_space true (tail (sq_pos s)) `suffix_of` tail (sq_pos s)) as Hsk by apply skip_space_suffix.
      pose proof (suffix_length _ _ Hsk) as Hskl.
      eapply throwsP_bind; [apply IHa; [lia|done|lia|]|].
      { eapply Forall_suffix'; [exact Hsk|]. by eapply Forall_suffix'. }
      intros [p2 pos2] (Hp2 & Hg2 & Hs2 & _). cbn [fst snd] in *.
      eapply throwsP_bind; [by apply expect_ok|]. intros pos3 [Hs3 Hl3].
      pose proof (grows_size _ _ _ Hg2) as Hsz2. apply suffix_length in Hs2 as Hs2l.
      pose proof (skip_space_suffix nested pos3) as Hs4. apply suffix_length in Hs4 as Hs4l.
      assert (skip_space nested pos3 `suffix_of` sq_pos s) as Hall by (repeat (etrans; [eassumption|]); done).
      assert (grows_new (sq_parser s) p2) as Hg.
      { eapply grows_trans; [exact Hg1|exact Hg2|]. cbn. lia. }
      destruct (item_step_intro s p2 [SRef (size (symbol_ids (sq_parser s)))] (skip_space nested pos3)) as [Hstep Hl];
        [done|done|done|repeat constructor; cbn; lia|split; [done|lia]|].
      eapply throwsP_mono; [apply IHs; [cbn [sq_pos] in *; lia|apply Hstep]|]. intros s'. by apply seq_step_trans.
    + eapply throwsP_bind; [by apply parse_item_ok|]. intros [s'|] Ho; [|by apply seq_step_refl].
      destruct Ho as [Hstep Hl]. eapply throwsP_mono; [apply IHs; [lia|apply Hstep]|]. intros s''. by apply seq_step_trans.
  - intros nested p rule_id src Hf Hp Hid Hb. cbn [parse_alternates].
    eapply throwsP_bind; [apply IHs; [cbn; lia|split; [done|split; [apply open_rule_nil|done]]]|].
    intros s1 Hs1. pose proof Hs1 as (Hok1 & _ & Hsuf1). apply suffix_length in Hsuf1. cbn [sq_pos] in Hsuf1.
    eapply throwsP_bind; [apply IHm; [lia|done]|]. intros s2 Hs2.
    pose proof (seq_step_trans _ _ _ Hs1 Hs2) as ((Hp2 & Hr2 & _) & Hg & Hsuf). cbn [throwsP sq_parser sq_pos] in *.
    pose proof (grows_size _ _ _ Hg) as Hsz. pose proof (open_rule_end _ _ _ Hr2) as Hrule. split; [apply add_rule_ok; [done|lia|done]|].
    split; [eapply grows_trans; [exact Hg|apply add_rule_grows|tauto]|]. split; [done|]. cbn [fst]. rewrite add_rule_at, decide_True by done. done.
  - intros nested s Hf Hs. cbn [parse_more]. cbv zeta. destruct (decide _) as [E|]; [|by apply seq_step_refl].
    assert (shorter (sq_pos s) (tail (sq_pos s))) as [Hsh Hlt] by (apply shorter_tail; by rewrite E).
    pose proof (skip_space_suffix true (tail (sq_pos s))) as Hsk. apply suffix_length in Hsk as Hskl.
    set (s1 := SeqState (sq_parser s) (sq_rule s ++ [Elem GRETYPE_ALT 0]) (length (sq_rule s ++ [Elem GRETYPE_ALT 0])) (skip_space true (tail (sq_pos s)))).
    assert (seq_step s s1) as Hs1.
    { split; [|split; [done|by etrans]]. destruct Hs as (H1 & H2 & H3). split; [done|]. split; [by eapply open_rule_alt|].
      eapply Forall_suffix'; [exact Hsk|]. by eapply Forall_suffix'. }
    eapply throwsP_bind; [apply IHs; [cbn; lia|apply Hs1]|]. intros s2 Hs2. pose proof Hs2 as (_ & _ & Hsuf2%suffix_length). cbn [sq_pos s1] in Hsuf2.
    eapply throwsP_mono; [apply IHm; [lia|apply Hs2]|]. intros s3 Hs3. eapply seq_step_trans; [exact Hs1|by eapply seq_step_trans].
Qed.
End parser.

(** ** Whole texts *)

Lemma parse_rule_ok tokenize p src : parser_ok p → Forall is_byte src →
  throwsP (parse_rule tokenize p src) (λ r, parser_ok r.1 ∧ symbol_ids p ⊆ symbol_ids r.1 ∧ shorter src r.2).
Proof.
  intros Hp Hb. unfold parse_rule. eapply throwsP_bind; [apply parse_span_ok|]. intros [name pos0] [Hs0 Hw]. cbn [fst snd] in *. cbv zeta.
  pose proof (get_symbol_id_ok p name Hp Hw) as Hg. destruct (get_symbol_id p name) as [p1 id]. cbn [fst snd] in Hg.
  destruct Hg as (Hp1 & Hg1 & _ & Hid).
  eapply throwsP_bind; [by apply expect_ok|]. intros pos1 Hs1. eapply throwsP_bind; [by apply expect_ok|]. intros pos2 Hs2.
  eapply throwsP_bind; [by apply expect_ok|]. intros pos3 Hs3.
  assert (skip_space true pos3 `suffix_of` pos0) as Hsuf.
  { etrans; [apply skip_space_suffix|]. etrans; [apply Hs3|]. etrans; [apply Hs2|]. etrans; [apply Hs1|]. apply skip_space_suffix. }
  eapply throwsP_bind.
  - apply (proj1 (proj2 (parse_step_ok tokenize name Hw (parse_fuel src)))); [|done|done|eapply Forall_suffix'; [exact Hsuf|]; by eapply Forall_suffix'; [apply Hs0|]].
    destruct Hs0. apply suffix_length in Hsuf. unfold parse_fuel. lia.
  - intros [p2 pos4] (Hp2 & Hg2 & Hs4 & _). cbn [fst snd] in *.
    eapply (throwsP_bind _ _ (λ q, q `suffix_of` pos4)).
    + destruct (decide _); [|destruct (decide _); [|destruct (decide _); [done|by cbn]]]; cbn [throwsP].
      * destruct (decide _); [apply suffix_drop'|apply suffix_tail].
      * apply suffix_tail.
    + intros pos5 Hs5. cbn. split; [done|]. split; [etrans; [apply Hg1|apply Hg2]|].
      eapply shorter_suffix; [exact Hs0|]. etrans; [apply skip_space_suffix|]. etrans; [exact Hs5|]. by etrans.
Qed.

Lemma parse_rules_ok fuel tokenize p pos : parser_ok p → Forall is_byte pos → length pos < fuel →
  throwsP (parse_rules fuel tokenize p pos) parser_ok.
Proof.
  revert p pos. induction fuel as [|fuel IH]; intros p pos Hp Hb Hf; [lia|]. cbn [parse_rules].
  destruct (decide _); [done|]. eapply throwsP_bind; [by apply parse_rule_ok|]. intros r (H1 & _ & H2 & H3).
  apply IH; [done|by eapply Forall_suffix'|lia].
Qed.

(** ** The check that all rules are defined *)

Lemma enc_seq_ref r ss : SRef r ∈ ss → Elem GRETYPE_RULE_REF (Z.of_nat r) ∈ enc_seq ss.
Proof.
  intros H. apply list_elem_of_In, in_concat. exists [Elem GRETYPE_RULE_REF (Z.of_nat r)]. split; [|by left].
  apply list_elem_of_In. change [Elem GRETYPE_RULE_REF (Z.of_nat r)] with (enc_sym (SRef r)). by apply list_elem_of_fmap_2.
Qed.

Lemma enc_rule_ref r alts ss : ss ∈ alts → SRef r ∈ ss → Elem GRETYPE_RULE_REF (Z.of_nat r) ∈ enc_rule alts.
Proof.
  intros Hs Hr. induction alts as [|a alts IH]; [set_solver|].
  assert (Elem GRETYPE_RULE_REF (Z.of_nat r) ∈ enc_seq a ∨ ss ∈ alts) as [H|H].
  { apply elem_of_cons in Hs as [->|]; [left; by apply enc_seq_ref|by right]. }
  - destruct alts; cbn [enc_rule]; apply elem_of_app; by left.
  - destruct alts as [|b alts]; [set_solver|]. cbn [enc_rule]. apply elem_of_app. right. right. by apply IH.
Qed.

Lemma enc_item_no_ref t i e : t ≠ GRETYPE_RULE_REF → e ∈ enc_item t i → e_type e ≠ GRETYPE_RULE_REF.
Proof. intros Ht. destruct i as [lo [hi|]]; cbn; intros H; repeat (apply elem_of_cons in H as [->|H]; [done|]); by apply elem_of_nil in H. Qed.

Lemma enc_sym_ref_inv n s e : ref_ok n s → e ∈ enc_sym s → e_type e = GRETYPE_RULE_REF → Z.to_nat (e_value e) < n.
Proof.
  intros Hs He Ht. destruct s as [neg i l| |r|neg id]; cbn [enc_sym] in He.
  - exfalso. apply elem_of_app in He as [He|He].
    + revert Ht. eapply enc_item_no_ref; [|exact He]. by destruct neg.
    + apply list_elem_of_In, in_concat in He as (x & Hx & He). apply list_elem_of_In, list_elem_of_fmap in Hx as (j & -> & _).
      revert Ht. eapply enc_item_no_ref; [|by apply list_elem_of_In]. done.
  - by apply list_elem_of_singleton in He as ->.
  - apply list_elem_of_singleton in He as ->. cbn in *. lia.
  - apply list_elem_of_singleton in He as ->. by destruct neg.
Qed.

Lemma enc_rule_ref_inv n alts e : Forall (Forall (ref_ok n)) alts → e ∈ enc_rule alts → e_type e = GRETYPE_RULE_REF → Z.to_nat (e_value e) < n.
Proof.
  intros H He Ht. assert (∀ ss, Forall (ref_ok n) ss → e ∈ enc_seq ss → Z.to_nat (e_value e) < n) as Hseq.
  { intros ss Hss Hin. apply list_elem_of_In, in_concat in Hin as (x & Hx & Hin). apply list_elem_of_In, list_elem_of_fmap in Hx as (s & -> & Hs).
    rewrite Forall_forall in Hss. apply (enc_sym_ref_inv n s e); [by apply Hss|by apply list_elem_of_In|done]. }
  induction H as [|a alts Ha H IH]; [by apply elem_of_nil in He|]. destruct alts as [|b alts]; cbn [enc_rule] in He;
    apply elem_of_app in He as [He|He]; [by eapply Hseq| |by eapply Hseq|].
  - apply list_elem_of_singleton in He as ->. done.
  - apply elem_of_cons in He as [->|He]; [done|]. by apply IH.
Qed.

Lemma rules_decode n rules : Forall (λ rule, rule = [] ∨ rule_ok n rule) rules → Forall (λ rule, rule ≠ []) rules →
  ∃ G, rules = enc_rule <$> G ∧ Forall (λ alts, alts ≠ [] ∧ Forall (Forall (ref_ok n)) alts) G.
Proof.
  induction rules as [|rule rules IH]; intros H Hn; [by exists []|]. inversion_clear H as [|? ? Hr H']. inversion_clear Hn as [|? ? Hne Hn'].
  destruct Hr as [->|(alts & H1 & H2 & ->)]; [done|]. destruct (IH H' Hn') as (G & -> & HG). exists (alts :: G).
  split; [done|]. by constructor.
Qed.

Lemma all_defined_ok p : parser_ok p → all_defined p = true → ∃ G, encodes (p_rules p) G.
Proof.
  intros [Hn Hl He] Hd. unfold all_defined in Hd. rewrite forallb_forall in Hd.
  assert (∀ rule, rule ∈ p_rules p → rule ≠ [] ∧ ∀ e, e ∈ rule → ref_defined p e = true) as Hdef.
  { intros rule Hin. apply list_elem_of_In, Hd, andb_true_iff in Hin as [H1%bool_decide_eq_true_1 H2]. split; [done|].
    intros e Hin. rewrite forallb_forall in H2. by apply H2, list_elem_of_In. }
  destruct (rules_decode _ _ He) as (G & HG & Hrefs); [apply Forall_forall; intros r Hr; by apply Hdef|].
  exists G. split; [done|]. rewrite Forall_forall in Hrefs |- *. intros alts Ha. destruct (Hrefs alts Ha) as [Hne Hr]. split; [done|].
  rewrite Forall_forall in Hr |- *. intros ss Hs. specialize (Hr ss Hs). rewrite Forall_forall in Hr |- *. intros s Hin.
  specialize (Hr s Hin). destruct s as [| |r|]; try done. cbn in *.
  destruct (Hdef (enc_rule alts)) as [_ H]; [rewrite HG; by apply list_elem_of_fmap_2|].
  specialize (H _ (enc_rule_ref r alts ss Hs Hin)). unfold ref_defined in H. cbn in H. rewrite Nat2Z.id in H.
  assert (length (p_rules p) = length G) as Hlen by (by rewrite HG, length_fmap). rewrite <- Hlen.
  apply orb_true_iff in H as [H%bool_decide_eq_true_1|H].
  - destruct (p_rules p !! r) eqn:E; [by apply lookup_lt_Some in E|done].
  - apply negb_true_iff in H. destruct (names_dense _ Hn r Hr) as [nm Hnm]. exfalso.
    assert (existsb (λ kv, bool_decide (Z.of_nat kv.2 = Z.of_nat r)) (map_to_list (symbol_ids p)) = true) as E; [|congruence].
    apply existsb_exists. exists (nm, r). split; [by apply list_elem_of_In, elem_of_map_to_list|by apply bool_decide_eq_true_2].
Qed.

(** A parsed text: the rules of a grammar, with the ids that the names have. *)
Definition parsed (p : llama_grammar_parser) : Prop :=
  names_ok (symbol_ids p) ∧ length (p_rules p) ≤ size (symbol_ids p) ∧ ∃ G, encodes (p_rules p) G.

Lemma parse_ok tokenize src : Forall is_byte src →
  okP (parse tokenize src) (λ o, match o with Some p => parsed p | None => True end).
Proof.
  intros Hb. unfold parse. assert (throwsP (parse_or_throw tokenize src) parsed) as H.
  - unfold parse_or_throw. pose proof (skip_space_suffix true src) as Hs. apply suffix_length in Hs as Hl.
    eapply throwsP_bind; [apply parse_rules_ok; [|by eapply Forall_suffix'|lia]|].
    { split; cbn; [apply names_empty|lia|constructor]. }
    intros p Hp. cbn beta in *. destruct (all_defined p) eqn:E; [|done]. cbn.
    split; [apply Hp|]. split; [apply Hp|]. by apply all_defined_ok.
  - destruct (parse_or_throw tokenize src) as [p|[]]; done.
Qed.

(** ** Construction from a text *)

(** A grammar as llama_grammar_init_impl leaves it: its rules, the stacks of its
    start rule, nothing decoded yet and no token withheld. *)
Record fresh (G : grammar) (start : nat) (lazy : bool) (tokens : list Z) (g : llama_grammar) : Prop := {
  fr_encodes : encodes (g_rules g) G;
  fr_initial : initial (g_rules g) G start (Some (g_rules g, gs_stacks (g_state g)));
  fr_partial : gs_partial (g_state g) = PartialUtf8 0 0;
  fr_lazy : g_lazy g = lazy ∧ awaiting_trigger g = lazy ∧ trigger_tokens g = tokens;
  fr_buffered : buffered g []
}.

Section from_text.
Context (vocab : option (llama_vocab * (list Z → list Z))) (compile : list Z → res llama_grammar_trigger_pattern).
Context (src root : list Z) (lazy : bool) (patterns : list (list Z)) (tokens : list Z).
Abbreviation init n := (init_impl_str n vocab compile src root lazy patterns tokens).

Lemma init_str_none n : parse (snd <$> vocab) src = Ok None → init n = Ok None.
Proof. unfold init_impl_str. by intros ->. Qed.

Context (p : llama_grammar_parser) (Hparse : parse (snd <$> vocab) src = Ok (Some p)).

Lemma init_str_no_root n : p_rules p = [] ∨ symbol_ids p !! root_name = None → init n = Ok None.
Proof.
  intros H. unfold init_impl_str. rewrite Hparse, bind_Ok. case_decide as E1; [done|]. case_decide as E2; [done|]. by destruct H.
Qed.

Hypothesis Hrules : p_rules p ≠ [].
Hypothesis Hroot : symbol_ids p !! root_name ≠ None.

Lemma init_str_unfold n : init n =
  (start_rule_index ← of_option Throw (symbol_ids p !! root);
   built ← init_impl n (p_rules p) start_rule_index;
   match built : option (llama_grammar_rules * llama_grammar_stacks) with
   | None => Ok None
   | Some (vec_rules, stacks) =>
       vec_trigger_patterns ← mapM_res compile patterns;
       Ok (Some (Grammar (fst <$> vocab) vec_rules (GrammarState stacks (PartialUtf8 0 0)) lazy lazy [] [] tokens vec_trigger_patterns))
   end).
Proof. unfold init_impl_str. rewrite Hparse, bind_Ok. rewrite decide_False by done. by rewrite decide_False by done. Qed.

Lemma init_str_throws n : symbol_ids p !! root = None → init n = Err Throw.
Proof. intros H. by rewrite init_str_unfold, H. Qed.

Context (G : grammar) (Henc : encodes (p_rules p) G) (start : nat) (Hstart : symbol_ids p !! root = Some start).

Lemma init_str_outside n : left_recursion_free G → length (p_rules p) ≤ start → init n = Err OutOfRange.
Proof.
  intros Hf Hlen. rewrite init_str_unfold, Hstart. cbn [of_option]. rewrite bind_Ok. unfold init_impl.
  rewrite (copy_rules_ok _ _ Henc), bind_Ok, (left_recursive_free _ _ Henc Hf), bind_Ok.
  unfold initial_stacks, vget. by rewrite lookup_ge_None_2.
Qed.

Lemma init_str_ok : left_recursion_free G → start < length (p_rules p) → (∀ pat, pat ∈ patterns → ∃ t, compile pat = Ok t) →
  ends (λ n, init n) (λ o, ∃ g, o = Some g ∧ g_rules g = p_rules p ∧ g_vocab g = fst <$> vocab ∧ fresh G start lazy tokens g).
Proof.
  intros Hf Hlen Hc. destruct (mapM_res_total compile patterns Hc) as [ts Hts].
  eapply ends_ext; [intros n; symmetry; apply init_str_unfold|]. rewrite Hstart. cbn [of_option mbind res_bind].
  eapply ends_bind; [by apply init_impl_ok|]. intros o (stacks & -> & H1 & H2 & H3). rewrite Hts. cbn [mbind res_bind].
  apply (ends_okP (Ok _)). eexists. split; [done|]. split; [done|]. split; [done|]. split; [done| |done|done|done].
  by exists stacks.
Qed.

Lemma init_str_refuses n : empty_is_direct G → ¬ left_recursion_free G → init n = Ok None.
Proof.
  intros He Hf. rewrite init_str_unfold, Hstart. cbn [of_option]. by rewrite bind_Ok, (init_impl_refuses _ _ Henc n start He Hf).
Qed.

(** a pattern that does not compile: the exception of std::regex *)
Lemma init_str_bad_pattern e : left_recursion_free G → start < length (p_rules p) → mapM_res compile patterns = Err e →
  ∃ N, ∀ n, N ≤ n → init n = Err e.
Proof.
  intros Hf Hlen He. destruct (init_impl_ok _ _ Henc start Hf Hlen) as (o & N & (stacks & -> & _) & HN). exists N. intros n Hle.
  rewrite init_str_unfold, Hstart. cbn [of_option]. by rewrite bind_Ok, (HN n Hle), bind_Ok, He.
Qed.
End from_text.

(** ** A printer of grammars

    Characters are written as \U escapes, the rule [r] has the name r<r>, and an
    empty alternate is the empty literal. *)

Fixpoint hexs (c : Z) (k : nat) : list Z :=
  match k with
  | 0 => []
  | S k => let d := ((c / 16 ^ Z.of_nat k) mod 16)%Z in (if decide (d < 10)%Z then 48 + d else 87 + d)%Z :: hexs c k
  end.

Definition print_char (c : Z) : list Z := 92%Z :: 85%Z :: hexs c 8.
Definition print_item (i : Z * option Z) : list Z :=
  print_char i.1 ++ match i.2 with Some hi => 45%Z :: print_char hi | None => [] end.
Definition rule_name (r : nat) : list Z := 114%Z :: to_string r.

Definition print_sym (s : sym) : list Z :=
  match s with
  | SClass neg i l => 91%Z :: (if neg then [94%Z] else []) ++ concat (print_item <$> i :: l) ++ [93; 32]%Z
  | SAny => [46; 32]%Z
  | SRef r => rule_name r ++ [32%Z]
  | STok neg id => (if neg then [33%Z] else []) ++ [60; 91]%Z ++ to_string (Z.to_nat id) ++ [93; 62; 32]%Z
  end.

Definition print_syms (ss : list sym) : list Z := concat (print_sym <$> ss).
Definition print_seq (ss : list sym) : list Z := match ss with [] => [34; 34; 32]%Z | _ => print_syms ss end.

(** the alternates after the first one, and the end of the line *)
Definition print_more (alts : list (list sym)) : list Z := concat ((λ ss, [124; 32]%Z ++ print_seq ss) <$> alts) ++ [10%Z].
Definition print_rule (r : nat) (alts : list (list sym)) : list Z :=
  rule_name r ++ [32; 58; 58; 61; 32]%Z ++ match alts with [] => [10%Z] | ss :: alts => print_seq ss ++ print_more alts end.

Fixpoint print_from (r : nat) (G : grammar) : list Z :=
  match G with [] => [] | alts :: G => print_rule r alts ++ print_from (S r) G end.
Definition print (G : grammar) : list Z := print_from 0 G.

Definition is_u32 (c : Z) : Prop := (0 ≤ c < 4294967296)%Z.
Definition item_u32 (i : Z * option Z) : Prop := is_u32 i.1 ∧ match i.2 with Some hi => is_u32 hi | None => True end.
Definition printable (s : sym) : Prop :=
  match s with SClass _ i l => Forall item_u32 (i :: l) | STok _ id => is_u32 id | _ => True end.

(** root ::= "a" root "b" | x    x ::= [0-9] x |   *)
Example print_ex : print ex_grammar = bytes "r0 ::= [\U00000061] r0 [\U00000062] | r1 
r1 ::= [\U00000030-\U00000039] r1 | `` 
".
Proof. vm_compute. reflexivity. Qed.

Example parse_print_ex : rules_of (parse None (print ex_grammar)) = Some ex_rules.
Proof. vm_compute. reflexivity. Qed.

(** ** Reading what was printed *)

Lemma hex_value_digit d : (0 ≤ d < 16)%Z → hex_value (if decide (d < 10)%Z then 48 + d else 87 + d)%Z = Some d.
Proof. intros H. unfold hex_value. repeat (case_decide; try lia); f_equal; lia. Qed.

Lemma deref_hd c src : deref (c :: src) = c.
Proof. done. Qed.

Lemma parse_hexs k c rest : (0 ≤ c < 4294967296)%Z → parse_hex k (c / 16 ^ Z.of_nat k) (hexs c k ++ rest) = Ok (c, rest).
Proof.
  intros Hc. induction k as [|k IH]; [by rewrite Z.div_1_r|]. cbn [hexs app parse_hex tail]. cbv zeta.
  rewrite deref_hd,  hex_value_digit by (apply Z.mod_pos_bound; lia).
  assert (c / 16 ^ Z.of_nat k = 16 * (c / 16 ^ Z.of_nat (S k)) + (c / 16 ^ Z.of_nat k) mod 16)%Z as E.
  { replace (16 ^ Z.of_nat (S k))%Z with (16 ^ Z.of_nat k * 16)%Z by (rewrite Nat2Z.inj_succ, Z.pow_succ_r; lia).
    rewrite <- Z.div_div by lia. apply Z.div_mod. lia. }
  assert (0 ≤ c / 16 ^ Z.of_nat k ≤ c)%Z as Hb.
  { split; [apply Z.div_pos; lia|]. apply Z.div_le_upper_bound; [lia|]. assert (1 ≤ 16 ^ Z.of_nat k)%Z by lia. nia. }
  pose proof (Z.mod_pos_bound (c / 16 ^ Z.of_nat k) 16 ltac:(lia)).
  unfold u32. rewrite Z.shiftl_mul_pow2 by lia. change (2 ^ 4)%Z with 16%Z.
  rewrite (Z.mod_small (_ * 16)) by lia. rewrite Z.mod_small by lia.
  replace (c / 16 ^ Z.of_nat (S k) * 16 + (c / 16 ^ Z.of_nat k) mod 16)%Z with (c / 16 ^ Z.of_nat k)%Z by lia. exact IH.
Qed.

Lemma parse_print_char c rest : is_u32 c → parse_char (print_char c ++ rest) = Ok (c, rest).
Proof.
  intros Hc. pose proof (parse_hexs 8 c rest Hc) as H. rewrite Z.div_small in H by (unfold is_u32 in Hc; lia). exact H.
Qed.

Lemma span_stop f a b : Forall (λ c, f c = true) a → f (deref b) = false → span f (a ++ b) = (a, b).
Proof.
  intros Ha Hb. induction Ha as [|c a Hc Ha IH]; cbn [app span].
  - destruct b as [|c b]; [done|]. cbn [span]. change (f c = false) in Hb. by rewrite Hb.
  - by rewrite Hc, IH.
Qed.

Lemma uint_digits d : Forall (λ c, is_digit_char c = true) (uint_bytes d).
Proof. induction d; constructor; done. Qed.

Lemma uint_value d acc : fold_left (λ v c, v * 10 + (c - 48))%Z (uint_bytes d) (Z.of_nat acc) = Z.of_nat (Nat.of_uint_acc d acc).
Proof.
  revert acc. induction d; intros acc; [done|..]; cbn [uint_bytes fold_left Nat.of_uint_acc]; rewrite <- IHd; f_equal;
    rewrite ?Nat.tail_mul_spec; lia.
Qed.

Lemma to_string_value n : fold_left (λ v c, v * 10 + (c - 48))%Z (to_string n) 0%Z = Z.of_nat n.
Proof.
  unfold to_string. rewrite (uint_value _ 0). f_equal. apply DecimalNat.Unsigned.of_to.
Qed.

Lemma to_string_ne n : to_string n ≠ [].
Proof.
  intros E. assert (Nat.to_uint n = Decimal.Nil) as H by (unfold to_string in E; by destruct (Nat.to_uint n)).
  pose proof (DecimalNat.Unsigned.to_of (Nat.to_uint n)) as H'. rewrite DecimalNat.Unsigned.of_to, H in H'. done.
Qed.

Lemma skip_stop (b : bool) src : (deref src ≠ 32 ∧ deref src ≠ 9 ∧ deref src ≠ 35)%Z → (b = true → deref src ≠ 13 ∧ deref src ≠ 10)%Z →
  skip_space b src = src.
Proof.
  unfold skip_space. destruct src as [|c src]; [done|]. rewrite !deref_hd. intros (H1 & H2 & H3) H4. cbn [parse_space andb].
  case_decide; [done|]. rewrite decide_False by lia. rewrite decide_False by lia.
  destruct b; [|done]. destruct (H4 eq_refl). cbn [andb]. by rewrite bool_decide_false by lia.
Qed.

Lemma skip_blank b src : skip_space b (32%Z :: src) = skip_space b src.
Proof. done. Qed.

(** What follows an alternate: the bar or the end of the line. *)
Definition ends_alternate (rest : list Z) : Prop := deref rest = 124%Z ∨ deref rest = 10%Z.

Lemma print_sym_first s : ∃ c l, print_sym s = c :: l ∧ (c ∈ [91; 46; 114; 33; 60]%Z).
Proof. destruct s as [neg i l| |r|[] id]; eexists _, _; (split; [reflexivity|]); set_solver. Qed.

Lemma deref_app_cons x (c : Z) l rest : x = c :: l → deref (x ++ rest) = c.
Proof. by intros ->. Qed.

Lemma print_syms_first ss rest : ss ≠ [] → deref (print_syms ss ++ rest) ∈ [91; 46; 114; 33; 60]%Z.
Proof.
  destruct ss as [|s ss]; [done|]. intros _. destruct (print_sym_first s) as (c & l & E & H).
  unfold print_syms. cbn [fmap list_fmap concat]. by rewrite E.
Qed.

Lemma skip_syms b ss rest : ss ≠ [] → skip_space b (print_syms ss ++ rest) = print_syms ss ++ rest.
Proof.
  intros Hs. pose proof (print_syms_first ss rest Hs) as H. apply skip_stop; rewrite !elem_of_cons, elem_of_nil in H; lia.
Qed.

Lemma skip_tail ss rest : ends_alternate rest → skip_space false (print_syms ss ++ rest) = print_syms ss ++ rest.
Proof.
  intros Hr. destruct ss as [|s ss]; [|by apply skip_syms]. apply skip_stop; [|done]. cbn. unfold ends_alternate in Hr. lia.
Qed.

Lemma skip_seq b ss rest : skip_space b (print_seq ss ++ rest) = print_seq ss ++ rest.
Proof. destruct ss as [|s ss]; [by apply skip_stop|]. by apply skip_syms. Qed.

(** ** Classes and tokens *)

Lemma parse_class_print (neg : bool) l items fuel front rest : Forall item_u32 l → length l < fuel →
  parse_class fuel (if neg then GRETYPE_CHAR_NOT else GRETYPE_CHAR) (length front) (front ++ enc_seq (class_so_far neg items))
    (concat (print_item <$> l) ++ 93%Z :: rest) = Ok (front ++ enc_seq (class_so_far neg (items ++ l)), rest).
Proof.
  revert items fuel. induction l as [|[lo hi] l IH]; intros items [|fuel] Hl Hf; try (cbn in Hf; lia).
  { rewrite app_nil_r. done. }
  inversion_clear Hl as [|? ? [Hlo Hhi] Hl']. cbn [fst snd] in *. 
  set (more := match hi with Some hi => 45%Z :: print_char hi | None => [] end ++ concat (print_item <$> l) ++ 93%Z :: rest).
  assert (concat (print_item <$> (lo, hi) :: l) ++ 93%Z :: rest = print_char lo ++ more) as ->.
  { unfold more. rewrite fmap_cons. cbn [concat]. unfold print_item at 1. cbn [fst snd]. by rewrite <- !app_assoc. }
  cbn [parse_class].
  change (deref (print_char lo ++ ?x)) with 92%Z. rewrite decide_False by done. rewrite decide_False by done.
  rewrite parse_print_char by done. rewrite bind_Ok. cbv zeta. cbn [fst snd]. unfold more.
  replace (if decide (length front < length (front ++ enc_seq (class_so_far neg items))) then GRETYPE_CHAR_ALT
           else if neg then GRETYPE_CHAR_NOT else GRETYPE_CHAR)
    with (if decide (items = []) then if neg then GRETYPE_CHAR_NOT else GRETYPE_CHAR else GRETYPE_CHAR_ALT).
  2: { pose proof (class_length neg items front). destruct (decide (items = [])), (decide (_ < _)); tauto. }
  pose proof (class_snoc neg items (lo, hi)) as Hc. unfold enc_item in Hc; cbn [fst snd] in Hc.
  assert (deref (concat (print_item <$> l) ++ 93%Z :: rest) ≠ 45%Z) as H45 by (destruct l as [|[] ?]; done).
  destruct hi as [hi|].
  - cbn [app]. rewrite deref_hd. cbn [tail]. change (deref (print_char hi ++ ?x)) with 92%Z. rewrite decide_True by done.
    rewrite decide_False by done. rewrite parse_print_char by done. rewrite bind_Ok. cbn [fst snd].
    rewrite <- !app_assoc. cbn [app]. rewrite <- Hc, (list.cons_middle _ items l), (app_assoc items _ l). apply IH; [done|cbn in Hf; lia].
  - rewrite app_nil_l, decide_False by tauto. rewrite <- app_assoc, <- Hc, (list.cons_middle _ items l), (app_assoc items _ l). apply IH; [done|cbn in Hf; lia].
Qed.

Lemma parse_token_print tokenize id rest : is_u32 id →
  parse_token tokenize ([60; 91]%Z ++ to_string (Z.to_nat id) ++ [93; 62]%Z ++ rest) = Ok (id, rest).
Proof.
  intros Hid. unfold parse_token, expect. cbn [app]. rewrite !deref_hd. rewrite decide_True by done. cbn [tail]. rewrite bind_Ok, deref_hd.
  rewrite decide_True by done. cbn [tail]. unfold parse_int, parse_span. cbv zeta.
  rewrite span_stop by (apply uint_digits || done). cbn [fst snd]. rewrite decide_False by apply to_string_ne. rewrite bind_Ok. cbn [fst snd].
  unfold stoull. cbv zeta. rewrite to_string_value, Z2Nat.id by (unfold is_u32 in Hid; lia).
  rewrite (decide_True (P := (id ≤ UINT64_MAX)%Z)) by (unfold is_u32, UINT64_MAX in *; lia). rewrite bind_Ok, deref_hd, decide_True by done.
  rewrite bind_Ok. cbn [tail]. rewrite deref_hd, decide_True by done. rewrite bind_Ok. cbn [tail].
  unfold u32. by rewrite Z.mod_small.
Qed.

Lemma digits_word s : Forall (λ c, is_digit_char c = true) s → word s.
Proof. intros H. eapply Forall_impl; [exact H|]. intros c Hc. unfold is_word_char. rewrite Hc. by rewrite !orb_true_r. Qed.

Lemma rule_name_word r : word (rule_name r).
Proof. constructor; [done|]. apply digits_word, uint_digits. Qed.

Lemma rule_name_inj r r' : rule_name r = rule_name r' → r = r'.
Proof. intros [= E]. by apply to_string_inj. Qed.

Lemma parse_name_print r rest : parse_name (rule_name r ++ 32%Z :: rest) = Ok (rule_name r, 32%Z :: rest).
Proof. unfold parse_name, parse_span. cbv zeta. rewrite span_stop by (apply rule_name_word || done). done. Qed.

(** ** Reading back a printed grammar

    The parser numbers the rules in the order in which the text mentions them. *)

Lemma print_syms_cons s ss : print_syms (s :: ss) = print_sym s ++ print_syms ss.
Proof. done. Qed.

(** the symbol with the id of the rule in place of its number *)
Definition names_sym (p : llama_grammar_parser) (s s' : sym) : Prop :=
  match s with SRef r => ∃ id, s' = SRef id ∧ symbol_ids p !! rule_name r = Some id | _ => s' = s end.

(** Only rules of the grammar are mentioned. *)
Definition named (n : nat) (p : llama_grammar_parser) : Prop :=
  ∀ nm id, symbol_ids p !! nm = Some id → ∃ r, r < n ∧ nm = rule_name r.

Lemma names_sym_mono p p' s s' : symbol_ids p ⊆ symbol_ids p' → names_sym p s s' → names_sym p' s s'.
Proof. destruct s; try done. intros H (id & -> & Hid). exists id. split; [done|]. by eapply lookup_weaken. Qed.

Lemma names_seq_mono p p' ss ss' : symbol_ids p ⊆ symbol_ids p' → Forall2 (names_sym p) ss ss' → Forall2 (names_sym p') ss ss'.
Proof. intros H Hf. eapply Forall2_impl; [exact Hf|]. intros s s'. by apply names_sym_mono. Qed.

Lemma names_alts_mono p p' alts alts' : symbol_ids p ⊆ symbol_ids p' →
  Forall2 (Forall2 (names_sym p)) alts alts' → Forall2 (Forall2 (names_sym p')) alts alts'.
Proof. intros H Hf. eapply Forall2_impl; [exact Hf|]. intros ss ss'. by apply names_seq_mono. Qed.

(** The parser read symbols: it only added names. *)
Record reads (n : nat) (p p' : llama_grammar_parser) : Prop := {
  rd_ids : symbol_ids p ⊆ symbol_ids p';
  rd_rules : p_rules p' = p_rules p;
  rd_named : named n p → named n p';
  rd_ok : parser_ok p → parser_ok p'
}.

Lemma reads_refl n p : reads n p p.
Proof. done. Qed.

Lemma reads_trans n p1 p2 p3 : reads n p1 p2 → reads n p2 p3 → reads n p1 p3.
Proof. intros [] []. split; [by etrans|congruence|auto|auto]. Qed.

Lemma get_symbol_id_reads n p r : r < n → let o := get_symbol_id p (rule_name r) in
  reads n p o.1 ∧ symbol_ids o.1 !! rule_name r = Some o.2.
Proof.
  intros Hr. unfold get_symbol_id. destruct (symbol_ids p !! rule_name r) as [id|] eqn:E; [done|]. cbn.
  split; [|apply lookup_insert_eq]. split; cbn; [by apply insert_subseteq|done| |].
  - intros Hn nm id H. cbn in H. apply lookup_insert_Some in H as [[<- _]|[_ H]]; [by exists r|by eapply Hn].
  - intros Hp. destruct (get_symbol_id_ok p (rule_name r) Hp (rule_name_word r)) as [H _].
    unfold get_symbol_id in H. by rewrite E in H.
Qed.

Section print.
Context (tokenize : option (list Z → list Z)) (n : nat).

Lemma print_items_length l : length l ≤ length (concat (print_item <$> l)).
Proof. induction l as [|j l IH]; [done|]. rewrite fmap_cons. cbn [concat]. rewrite length_app. cbn. lia. Qed.

Lemma parse_class_sym (neg : bool) i l fuel front rest : Forall item_u32 (i :: l) → length (concat (print_item <$> i :: l)) < fuel →
  parse_class fuel (if neg then GRETYPE_CHAR_NOT else GRETYPE_CHAR) (length front) front
    (concat (print_item <$> i :: l) ++ 93%Z :: rest) = Ok (front ++ enc_sym (SClass neg i l), rest).
Proof.
  intros Hl Hf. pose proof (print_items_length (i :: l)).
  pose proof (parse_class_print neg (i :: l) [] fuel front rest Hl ltac:(lia)) as E.
  cbn [class_so_far enc_seq] in E. rewrite app_nil_r in E. rewrite E. unfold enc_seq. cbn [fmap list_fmap app concat class_so_far].
  by rewrite app_nil_r.
Qed.

Lemma parse_item_print name s p rule last rest : printable s → ref_ok n s →
  ∃ p' s', parse_item tokenize name false (SeqState p rule last (print_sym s ++ rest)) =
      Ok (Some (SeqState p' (rule ++ enc_sym s') (length rule) (skip_space false rest))) ∧ reads n p p' ∧ names_sym p' s s'.
Proof.
  intros Hs Hr. destruct s as [neg i l| |r|neg id]; unfold parse_item; cbv zeta.
  - exists p, (SClass neg i l). split; [|done]. cbn [print_sym app]. rewrite !deref_hd. cbn [tail].
    rewrite decide_False by done. rewrite decide_True by done. rewrite <- !app_assoc. cbn [app].
    set (body := concat (print_item <$> i :: l) ++ 93%Z :: 32%Z :: rest).
    assert (deref body = 92%Z) as Hd by done.
    assert (bool_decide (deref ((if neg then [94%Z] else []) ++ body) = 94%Z) = neg) as ->.
    { destruct neg; [done|]. rewrite app_nil_l, Hd. done. }
    assert ((if neg then tail ((if neg then [94%Z] else []) ++ body) else (if neg then [94%Z] else []) ++ body) = body) as -> by by destruct neg.
    rewrite (parse_class_sym neg i l _ rule (32%Z :: rest) Hs); [done|].
    unfold body. rewrite length_app. lia.
  - exists p, SAny. done.
  - pose proof (get_symbol_id_reads n p r Hr) as Hg. cbn [print_sym]. rewrite <- app_assoc. cbn [app].
    change (deref (rule_name r ++ ?x)) with 114%Z. rewrite decide_False by done. rewrite decide_False by done. rewrite decide_False by lia.
    change (is_word_char 114) with true. rewrite parse_name_print, bind_Ok. cbn [fst snd].
    destruct (get_symbol_id p (rule_name r)) as [p' id]. cbn [fst snd] in Hg. destruct Hg as [H1 H2].
    exists p', (SRef id). split; [done|]. split; [done|]. by exists id.
  - exists p, (STok neg id). split; [|done]. cbn [print_sym]. rewrite <- !app_assoc.
    assert (parse_token tokenize ([60; 91]%Z ++ to_string (Z.to_nat id) ++ [93; 62; 32]%Z ++ rest) = Ok (id, 32%Z :: rest)) as H
      by by apply (parse_token_print tokenize id (32%Z :: rest)).
    transitivity (t ← parse_token tokenize ([60; 91]%Z ++ to_string (Z.to_nat id) ++ [93; 62; 32]%Z ++ rest);
      Ok (Some (SeqState p (rule ++ [Elem (if neg then GRETYPE_TOKEN_NOT else GRETYPE_TOKEN) (t : Z * list Z).1]) (length rule) (skip_space false t.2))));
      [by destruct neg|by rewrite H, bind_Ok].
Qed.

Lemma parse_sequence_end name fuel p rule last rest : ends_alternate rest → 0 < fuel →
  parse_sequence fuel tokenize name false (SeqState p rule last rest) = Ok (SeqState p rule last rest).
Proof.
  intros Hr Hf. destruct fuel as [|fuel]; [lia|]. cbn [parse_sequence sq_pos]. cbv zeta. unfold ends_alternate in Hr.
  rewrite decide_False by lia. rewrite decide_False by lia. unfold parse_item. cbv zeta. by destruct Hr as [-> | ->].
Qed.

Lemma parse_syms_print name ss fuel p rule last rest : Forall printable ss → Forall (ref_ok n) ss → ends_alternate rest → length ss < fuel →
  ∃ p' ss' last', parse_sequence fuel tokenize name false (SeqState p rule last (print_syms ss ++ rest)) =
      Ok (SeqState p' (rule ++ enc_seq ss') last' rest) ∧ reads n p p' ∧ Forall2 (names_sym p') ss ss'.
Proof.
  intros Hs. revert fuel p rule last. induction Hs as [|s ss Hs Hss IH]; intros fuel p rule last Hr Hrest Hf.
  { exists p, [], last. rewrite app_nil_r. split; [|done]. apply parse_sequence_end; [done|lia]. }
  destruct fuel as [|fuel]; [cbn in Hf; lia|]. inversion_clear Hr as [|? ? Hr1 Hr2].
  rewrite print_syms_cons, <- app_assoc.
  destruct (parse_item_print name s p rule last (print_syms ss ++ rest) Hs Hr1) as (p1 & s' & E & Hp1 & Hn1).
  rewrite skip_tail in E by done. destruct (IH fuel p1 (rule ++ enc_sym s') (length rule) Hr2 Hrest) as (p2 & ss' & last' & E2 & Hp2 & Hn2); [cbn in Hf; lia|].
  exists p2, (s' :: ss'), last'. split; [|split; [by eapply reads_trans|]].
  - cbn [parse_sequence sq_pos]. cbv zeta. destruct (print_sym_first s) as (c & l & Ec & Hc).
    rewrite (deref_app_cons _ _ _ _ Ec). rewrite !elem_of_cons, elem_of_nil in Hc. rewrite decide_False by lia. rewrite decide_False by lia.
    rewrite E, bind_Ok, E2. unfold enc_seq. cbn [fmap list_fmap concat]. by rewrite <- app_assoc.
  - constructor; [|done]. eapply names_sym_mono; [apply Hp2|done].
Qed.

Lemma parse_seq_print name ss fuel p rule last rest : Forall printable ss → Forall (ref_ok n) ss → ends_alternate rest → length (print_seq ss) ≤ fuel →
  ∃ p' ss' last', parse_sequence fuel tokenize name false (SeqState p rule last (print_seq ss ++ rest)) =
      Ok (SeqState p' (rule ++ enc_seq ss') last' rest) ∧ reads n p p' ∧ Forall2 (names_sym p') ss ss'.
Proof.
  intros Hs Hr Hrest Hf. destruct ss as [|s ss].
  - exists p, [], (length rule). rewrite app_nil_r. split; [|done]. destruct fuel as [|[|fuel]]; [cbn in Hf; lia|cbn in Hf; lia|].
    transitivity (parse_sequence (S fuel) tokenize name false (SeqState p rule (length rule) (skip_space false (32%Z :: rest)))); [done|].
    rewrite skip_blank, skip_stop by (unfold ends_alternate in Hrest; lia || done). apply parse_sequence_end; [done|lia].
  - apply parse_syms_print; [done|done|done|]. eapply Nat.lt_le_trans; [|exact Hf]. cbn [print_seq].
    assert (∀ l, length l ≤ length (print_syms l)) as Hl.
    { intros l. induction l as [|x l IH]; [done|]. rewrite print_syms_cons, length_app.
      destruct (print_sym_first x) as (c & k & -> & _). cbn. lia. }
    specialize (Hl ss). rewrite print_syms_cons, length_app. cbn [length].
    assert (2 ≤ length (print_sym s)); [|lia]. destruct s as [[] ? ?| | |[] ?]; cbn [print_sym rule_name app length]; rewrite ?length_app; cbn [length]; rewrite ?length_app; cbn [length]; lia.
Qed.

(** A list of alternates that can be printed, with references below [n]. *)
Definition alts_ok (alts : list (list sym)) : Prop := Forall (λ ss, Forall printable ss ∧ Forall (ref_ok n) ss) alts.

Lemma print_more_cons ss alts : print_more (ss :: alts) = [124; 32]%Z ++ print_seq ss ++ print_more alts.
Proof. unfold print_more. cbn [fmap list_fmap concat]. by rewrite <- !app_assoc. Qed.

Lemma print_more_ends alts rest : ends_alternate (print_more alts ++ rest).
Proof. destruct alts as [|ss alts]; [by right|by left]. Qed.

Lemma parse_more_print name alts : ∀ fuel p done_ cur last rest, alts_ok alts → length (print_more alts) ≤ fuel →
  ∃ p' alts' rule last', parse_more fuel tokenize name false (SeqState p (done_alts done_ ++ enc_seq cur) last (print_more alts ++ rest)) =
      Ok (SeqState p' rule last' (10%Z :: rest)) ∧ rule ++ [Elem GRETYPE_END 0] = enc_rule (done_ ++ cur :: alts') ∧
    reads n p p' ∧ Forall2 (Forall2 (names_sym p')) alts alts'.
Proof.
  induction alts as [|ss alts IH]; intros fuel p done_ cur last rest Ha Hf.
  - destruct fuel as [|fuel]; [cbn in Hf; lia|]. exists p, [], (done_alts done_ ++ enc_seq cur), last.
    split; [done|]. split; [by rewrite enc_rule_done, <- app_assoc|done].
  - inversion_clear Ha as [|? ? [Hs Hr] Ha']. rewrite print_more_cons in *. destruct fuel as [|fuel]; [cbn in Hf; lia|].
    rewrite !length_app in Hf. cbn [length] in Hf. rewrite <- !app_assoc.
    set (rule1 := (done_alts done_ ++ enc_seq cur) ++ [Elem GRETYPE_ALT 0]).
    destruct (parse_seq_print name ss fuel p rule1 (length rule1) (print_more alts ++ rest) Hs Hr (print_more_ends alts rest)) as (p1 & ss' & last1 & E1 & Hp1 & Hn1); [lia|].
    assert (rule1 = done_alts (done_ ++ [cur])) as Hrule by (unfold rule1; by rewrite done_alts_snoc, <- app_assoc).
    destruct (IH fuel p1 (done_ ++ [cur]) ss' last1 rest Ha') as (p2 & alts' & rule & last2 & E2 & Hend & Hp2 & Hn2); [lia|].
    exists p2, (ss' :: alts'), rule, last2. split; [|split; [by rewrite Hend, <- app_assoc|split; [by eapply reads_trans|]]].
    + cbn [parse_more sq_pos app]. cbv zeta. rewrite deref_hd, decide_True by done. cbn [tail sq_rule sq_parser].
      rewrite skip_blank, skip_seq. fold rule1. rewrite E1, bind_Ok, Hrule. exact E2.
    + constructor; [|done]. eapply names_seq_mono; [apply Hp2|done].
Qed.

Lemma parse_alternates_print name rule_id ss alts fuel p rest : alts_ok (ss :: alts) → length (print_seq ss ++ print_more alts) < fuel →
  ∃ p1 alts', parse_alternates fuel tokenize name rule_id false p (print_seq ss ++ print_more alts ++ rest) =
      Ok (add_rule p1 rule_id (enc_rule alts'), 10%Z :: rest) ∧ reads n p p1 ∧ Forall2 (Forall2 (names_sym p1)) (ss :: alts) alts'.
Proof.
  intros Ha Hf. inversion_clear Ha as [|? ? [Hs Hr] Ha']. destruct fuel as [|fuel]; [lia|]. rewrite length_app in Hf.
  destruct (parse_seq_print name ss fuel p [] 0 (print_more alts ++ rest) Hs Hr (print_more_ends alts rest)) as (p1 & ss' & last1 & E1 & Hp1 & Hn1); [lia|].
  destruct (parse_more_print name alts fuel p1 [] ss' last1 rest Ha') as (p2 & alts' & rule & last2 & E2 & Hend & Hp2 & Hn2); [lia|].
  exists p2, (ss' :: alts'). split; [|split; [by eapply reads_trans|]].
  - cbn [parse_alternates]. rewrite E1, bind_Ok. change ([] ++ enc_seq ss') with (done_alts [] ++ enc_seq ss'). rewrite E2, bind_Ok.
    cbn [sq_parser sq_rule sq_pos]. by rewrite Hend.
  - constructor; [|done]. eapply names_seq_mono; [apply Hp2|done].
Qed.

(** The rule [r] of the grammar was read. *)
Definition has_rule (p : llama_grammar_parser) (r : nat) (alts : list (list sym)) : Prop :=
  ∃ id alts', symbol_ids p !! rule_name r = Some id ∧ rule_at p id = enc_rule alts' ∧ Forall2 (Forall2 (names_sym p)) alts alts'.

Lemma parse_rule_print r alts p rest : r < n → alts ≠ [] → alts_ok alts → parser_ok p → named n p → skip_space true rest = rest →
  Forall is_byte (print_rule r alts ++ rest) →
  ∃ p', parse_rule tokenize p (print_rule r alts ++ rest) = Ok (p', rest) ∧ parser_ok p' ∧ named n p' ∧ has_rule p' r alts ∧
    ∀ r' alts', r' ≠ r → has_rule p r' alts' → has_rule p' r' alts'.
Proof.
  intros Hr Hne Ha Hp Hn Hrest Hb. destruct alts as [|ss alts]; [done|].
  pose proof (parse_rule_ok tokenize p _ Hp Hb) as Hok.
  pose proof (get_symbol_id_reads n p r Hr) as Hg. destruct (get_symbol_id p (rule_name r)) as [p1 id] eqn:Eg. cbn [fst snd] in Hg.
  destruct Hg as [Hg1 Hid].
  assert (print_rule r (ss :: alts) ++ rest = rule_name r ++ 32%Z :: [58; 58; 61; 32]%Z ++ print_seq ss ++ print_more alts ++ rest) as Etext.
  { unfold print_rule. by rewrite <- !app_assoc. }
  destruct (parse_alternates_print (rule_name r) id ss alts (parse_fuel (print_rule r (ss :: alts) ++ rest)) p1 rest Ha) as (p2 & alts' & E & Hp2 & Hn2).
  { rewrite Etext. unfold parse_fuel. rewrite !length_app. cbn [length]. rewrite !length_app. lia. }
  exists (add_rule p2 id (enc_rule alts')).
  assert (parse_rule tokenize p (print_rule r (ss :: alts) ++ rest) = Ok (add_rule p2 id (enc_rule alts'), rest)) as Eall.
  { unfold parse_rule. rewrite Etext at 1. rewrite parse_name_print, bind_Ok. cbn [fst snd]. cbv zeta. rewrite Eg.
    change (skip_space false (32%Z :: ?x)) with x. unfold expect at 1 2 3. cbn [app]. rewrite !deref_hd, decide_True, bind_Ok by done.
    cbn [tail]. rewrite deref_hd, decide_True, bind_Ok by done. cbn [tail]. rewrite deref_hd, decide_True, bind_Ok by done. cbn [tail].
    rewrite skip_blank, skip_seq, E, bind_Ok, deref_hd. rewrite decide_False by done. rewrite decide_True by done.
    rewrite bind_Ok. cbn [tail]. by rewrite Hrest. }
  rewrite Eall in Hok. cbn [throwsP fst] in Hok. destruct Hok as (Hok & Hsub & _). split; [done|]. split; [done|].
  assert (named n (add_rule p2 id (enc_rule alts'))) as Hnamed by (exact (rd_named _ _ _ Hp2 (rd_named _ _ _ Hg1 Hn))).
  split; [done|]. pose proof (rd_ids _ _ _ Hg1) as S1. pose proof (rd_ids _ _ _ Hp2) as S2.
  assert (symbol_ids p2 !! rule_name r = Some id) as Hid2 by by eapply lookup_weaken.
  split.
  - exists id, alts'. split; [done|]. split; [by rewrite add_rule_at, decide_True|done].
  - intros r' ralts Hne' (id' & ralts' & H1 & H2 & H3).
    assert (symbol_ids p2 !! rule_name r' = Some id') as Hid' by (eapply lookup_weaken; [exact H1|by etrans]).
    exists id', ralts'. split; [done|]. split.
    + rewrite add_rule_at. rewrite decide_False.
      * unfold rule_at. rewrite (rd_rules _ _ _ Hp2), (rd_rules _ _ _ Hg1). exact H2.
      * intros ->. apply Hne', rule_name_inj. eapply (names_inj _ (p_names _ Hok)); [exact Hid'|exact Hid2].
    + eapply names_alts_mono; [|exact H3]. by etrans.
Qed.
End print.

(** ** Whole grammars *)

Definition bytes_ok (src : list Z) : Prop := Forall is_byte src.

Lemma hexs_bytes c k : bytes_ok (hexs c k).
Proof.
  induction k as [|k IH]; constructor; [|exact IH]. pose proof (Z.mod_pos_bound (c / 16 ^ Z.of_nat k) 16 ltac:(lia)).
  unfold is_byte. case_decide; lia.
Qed.

Lemma word_bytes w : word w → bytes_ok w.
Proof.
  intros H. eapply Forall_impl; [exact H|]. intros c Hc. unfold is_word_char, is_digit_char in Hc. unfold is_byte.
  repeat (apply orb_true_iff in Hc as [Hc|Hc]); apply bool_decide_eq_true_1 in Hc; lia.
Qed.

Lemma to_string_bytes k : bytes_ok (to_string k).
Proof. apply word_bytes, digits_word, uint_digits. Qed.

Ltac bytes_tac := repeat first
  [ assumption | apply hexs_bytes | apply to_string_bytes | apply word_bytes, rule_name_word
  | apply Forall_app; split | apply Forall_cons; split; [unfold is_byte; lia|] | apply Forall_nil_2 ].

Lemma print_sym_bytes s : bytes_ok (print_sym s).
Proof.
  assert (∀ c, bytes_ok (print_char c)) as Hc by (intros c; unfold print_char, bytes_ok; bytes_tac).
  assert (∀ l, bytes_ok (concat (print_item <$> l))) as Hl.
  { intros l. apply Forall_concat, Forall_fmap, Forall_true. intros [lo hi]. apply Forall_app. split; [apply Hc|].
    destruct hi; [|by constructor]. constructor; [unfold is_byte; lia|apply Hc]. }
  destruct s as [neg i l| |r|neg id]; [pose proof (Hl (i :: l))|..]; try destruct neg; unfold bytes_ok, print_sym in *; bytes_tac.
Qed.

Lemma print_seq_bytes ss : bytes_ok (print_seq ss).
Proof. destruct ss as [|s ss]; unfold bytes_ok, print_seq; [bytes_tac|]. apply Forall_concat, Forall_fmap, Forall_true. apply print_sym_bytes. Qed.

Lemma print_rule_bytes r alts : bytes_ok (print_rule r alts).
Proof.
  unfold print_rule, bytes_ok. destruct alts as [|ss alts]; bytes_tac; [apply print_seq_bytes|].
  unfold print_more. bytes_tac. apply Forall_concat, Forall_fmap, Forall_true. intros a. cbn -[print_seq]. bytes_tac. apply print_seq_bytes.
Qed.

Lemma print_bytes r G : bytes_ok (print_from r G).
Proof. revert r. induction G as [|alts G IH]; intros r; [constructor|]. apply Forall_app. split; [apply print_rule_bytes|apply IH]. Qed.

Lemma skip_print r G : skip_space true (print_from r G) = print_from r G.
Proof. destruct G; [done|]. by apply skip_stop. Qed.

Lemma enc_rule_ne alts : alts ≠ [] → enc_rule alts ≠ [].
Proof. destruct alts as [|a [|b alts]]; [done|..]; intros _ E; cbn in E; by apply app_eq_nil in E as [_ ?]. Qed.

Lemma enc_rule_inj n a b : Forall (Forall (ref_ok n)) a → Forall (Forall (ref_ok n)) b → a ≠ [] → b ≠ [] → enc_rule a = enc_rule b → a = b.
Proof.
  intros Ha. revert b. induction Ha as [|x a Hx Ha IH]; intros b Hb Hna Hnb E; [done|]. destruct b as [|y b]; [done|]. inversion_clear Hb as [|? ? Hy Hb'].
  assert (∀ x l, ∃ e p, enc_rule (x :: l) = enc_seq x ++ e :: p ∧ is_end_of_sequence e = true) as Hshape.
  { intros z [|z' l]; eexists _, _; (split; [reflexivity|done]). }
  assert (x = y) as <-.
  { destruct (Hshape x a) as (e1 & p1 & E1 & He1), (Hshape y b) as (e2 & p2 & E2 & He2). rewrite E1, E2 in E.
    by apply (enc_seq_inj x y e1 p1 e2 p2 He1 He2 E n). }
  f_equal. destruct a as [|x' a], b as [|y' b]; [done|..].
  - cbn [enc_rule] in E. by apply app_inv_head in E.
  - cbn [enc_rule] in E. by apply app_inv_head in E.
  - change (enc_seq x ++ Elem GRETYPE_ALT 0 :: enc_rule (x' :: a) = enc_seq x ++ Elem GRETYPE_ALT 0 :: enc_rule (y' :: b)) in E.
    apply app_inv_head in E. injection E as E. by apply IH.
Qed.

Section roundtrip.
Context (tokenize : option (list Z → list Z)) (G : grammar).
Abbreviation n := (length G).
Hypothesis HG : Forall (λ alts, alts ≠ [] ∧ alts_ok n alts) G.

Lemma parse_rules_print post : ∀ pre fuel p, G = pre ++ post → parser_ok p → named n p →
  (∀ r alts, pre !! r = Some alts → has_rule p r alts) → length post < fuel →
  ∃ p', parse_rules fuel tokenize p (print_from (length pre) post) = Ok p' ∧ parser_ok p' ∧ named n p' ∧
    ∀ r alts, G !! r = Some alts → has_rule p' r alts.
Proof.
  induction post as [|alts post IH]; intros pre fuel p Hsplit Hp Hn Hpre Hf; (destruct fuel as [|fuel]; [cbn in Hf; lia|]).
  - exists p. rewrite app_nil_r in Hsplit. subst. done.
  - cbn [print_from parse_rules]. rewrite decide_False by done.
    assert (G !! length pre = Some alts) as Halts by (rewrite Hsplit; by apply list_lookup_middle).
    destruct (Forall_lookup_1 _ _ _ _ HG Halts) as [Hne Ha].
    destruct (parse_rule_print tokenize n (length pre) alts p (print_from (S (length pre)) post)) as (p1 & E & Hp1 & Hn1 & Hr & Hold);
      [by apply lookup_lt_Some in Halts|done|done|done|done|apply skip_print|apply (print_bytes (length pre) (alts :: post))|].
    rewrite E, bind_Ok. cbn [fst snd].
    replace (S (length pre)) with (length (pre ++ [alts])) by (rewrite length_app; cbn; lia).
    apply IH; [by rewrite <- app_assoc|done|done| |cbn in Hf; lia].
    intros r ralts Hrl. destruct (decide (r = length pre)) as [->|Hner].
    + rewrite list_lookup_middle in Hrl by done. by injection Hrl as <-.
    + apply Hold; [done|]. apply Hpre. apply lookup_app_Some in Hrl as [H|[H1 H2]]; [done|].
      exfalso. apply lookup_lt_Some in H2. cbn in H2. lia.
Qed.

Context (p : llama_grammar_parser) (Hp : parser_ok p) (Hn : named n p).
Hypothesis Hrules : ∀ r alts, G !! r = Some alts → has_rule p r alts.

Lemma has_rule_refs r alts id alts' : Forall2 (Forall2 (names_sym p)) alts alts' → G !! r = Some alts →
  symbol_ids p !! rule_name r = Some id → Forall (Forall (ref_ok (size (symbol_ids p)))) alts' ∧ alts' ≠ [].
Proof.
  intros H Hr _. pose proof (Forall_lookup_1 _ _ _ _ HG Hr) as [Hne _]. split; [|intros ->; by apply Forall2_nil_inv_r in H].
  clear Hr Hne. induction H as [|ss ss' alts alts' Hs H IH]; constructor; [|done].
  induction Hs as [|s s' ss ss' Hs Hss IHs]; constructor; [|done].
  destruct s; cbn in Hs; [by subst..| |by subst]. destruct Hs as (i & -> & Hi). cbn. by eapply names_lt; [apply p_names|].
Qed.

Lemma named_ref nm id : symbol_ids p !! nm = Some id → ∃ r alts alts', G !! r = Some alts ∧ nm = rule_name r ∧
  rule_at p id = enc_rule alts' ∧ alts' ≠ [] ∧ Forall (Forall (ref_ok (size (symbol_ids p)))) alts' ∧ Forall2 (Forall2 (names_sym p)) alts alts'.
Proof.
  intros Hid. destruct (Hn _ _ Hid) as (r & Hr & ->). destruct (lookup_lt_is_Some_2 _ _ Hr) as [alts Halts].
  destruct (Hrules r alts Halts) as (id' & alts' & H1 & H2 & H3). simplify_eq. exists r, alts, alts'.
  destruct (has_rule_refs r alts id alts' H3 Halts Hid). done.
Qed.

Lemma printed_defined : all_defined p = true.
Proof.
  assert (∀ id, id < size (symbol_ids p) → rule_at p id ≠ []) as Hdef.
  { intros id Hid. destruct (names_dense _ (p_names _ Hp) id Hid) as [nm Hnm].
    destruct (named_ref nm id Hnm) as (r & alts & alts' & _ & _ & -> & H & _). by apply enc_rule_ne. }
  unfold all_defined. apply forallb_forall. intros rule Hin%list_elem_of_In. apply list_elem_of_lookup in Hin as [i Hi].
  pose proof (lookup_lt_Some _ _ _ Hi) as Hlt. pose proof (p_length _ Hp).
  assert (rule_at p i = rule) as Hrule by (unfold rule_at; by rewrite Hi).
  apply andb_true_iff. split.
  - apply bool_decide_eq_true_2. rewrite <- Hrule. apply Hdef. lia.
  - apply forallb_forall. intros e He%list_elem_of_In. unfold ref_defined. case_decide as Et; [|done].
    assert (∃ k, Z.to_nat (e_value e) = k ∧ k < size (symbol_ids p)) as (k & Hk & Hks).
    { destruct (names_dense _ (p_names _ Hp) i) as [nm Hnm]; [lia|].
      destruct (named_ref nm i Hnm) as (r & alts & alts' & _ & _ & E & _ & Href & _). subst rule. rewrite E in He.
      exists (Z.to_nat (e_value e)). split; [done|]. by eapply (enc_rule_ref_inv _ alts'). }
    rewrite Hk. change (default [] (p_rules p !! k)) with (rule_at p k). rewrite bool_decide_true by by apply Hdef. done.
Qed.

(** The rules mean the same. *)
Context (G' : grammar) (HG' : encodes (p_rules p) G').

Lemma same_rule r alts id : G !! r = Some alts → symbol_ids p !! rule_name r = Some id →
  ∃ alts', G' !! id = Some alts' ∧ Forall2 (Forall2 (names_sym p)) alts alts'.
Proof.
  intros Hr Hid. destruct (named_ref _ _ Hid) as (r' & alts1 & alts' & Hr' & E%rule_name_inj & Hat & Hne & Href & Hf). subst r'. simplify_eq.
  exists alts'. split; [|done]. unfold rule_at in Hat. destruct (p_rules p !! id) as [rule|] eqn:El; cbn in Hat; [|by destruct (enc_rule_ne _ Hne)].
  subst rule. destruct HG' as [E HF]. rewrite E, list_lookup_fmap in El. destruct (G' !! id) as [alts''|] eqn:El'; [|done].
  cbn in El. injection El as El. f_equal. destruct (Forall_lookup_1 _ _ _ _ HF El') as [Hne' Href'].
  apply (enc_rule_inj (size (symbol_ids p))); [|done|done|done|done]. eapply alts_ok_mono; [|exact Href'].
  pose proof (p_length _ Hp) as Hl. by rewrite E, length_fmap in Hl.
Qed.

Lemma gen_renamed ss w : gen G ss w → ∀ ss', Forall2 (names_sym p) ss ss' → gen G' ss' w.
Proof.
  induction 1 as [|s ss c w Hs Hg IH|s ss id w Hs Hg IH|r alts alt ss u v Hr Ha Hu IHu Hv IHv]; intros ss' Hf;
    inversion Hf as [|? s' ? ss1 Hs' Hss]; subst; [constructor|..].
  - assert (s' = s) as -> by by destruct s. constructor; auto.
  - assert (s' = s) as -> by by destruct s. constructor; auto.
  - destruct Hs' as (id & -> & Hid). destruct (same_rule r alts id Hr Hid) as (alts' & Hr' & Hf').
    apply list_elem_of_lookup in Ha as [k Hk]. destruct (Forall2_lookup_l _ _ _ _ _ Hf' Hk) as (alt' & Hk' & Halt).
    eapply gen_ref; [exact Hr'|by eapply list_elem_of_lookup_2|auto|auto].
Qed.

Lemma gen_original ss' w : gen G' ss' w → ∀ ss, Forall2 (names_sym p) ss ss' → gen G ss w.
Proof.
  induction 1 as [|s ss c w Hs Hg IH|s ss id w Hs Hg IH|r alts alt ss u v Hr Ha Hu IHu Hv IHv]; intros ss0 Hf;
    inversion Hf as [|s0 ? ss1 ? Hs' Hss]; subst; [constructor|..].
  - assert (s0 = s) as -> by (destruct s0; cbn in Hs'; [done..|by destruct Hs' as (? & -> & _)|done]). constructor; auto.
  - assert (s0 = s) as -> by (destruct s0; cbn in Hs'; [done..|by destruct Hs' as (? & -> & _)|done]). constructor; auto.
  - destruct s0 as [| |r0|]; cbn in Hs'; try done. destruct Hs' as (id & [= <-] & Hid).
    destruct (Hn _ _ Hid) as (r0' & Hr0 & E%rule_name_inj). subst r0'. destruct (lookup_lt_is_Some_2 _ _ Hr0) as [alts0 Halts0].
    destruct (same_rule r0 alts0 r Halts0 Hid) as (alts' & Hr' & Hf'). simplify_eq.
    apply list_elem_of_lookup in Ha as [k Hk]. destruct (Forall2_lookup_r _ _ _ _ _ Hf' Hk) as (alt0 & Hk' & Halt).
    eapply gen_ref; [exact Halts0|by eapply list_elem_of_lookup_2|auto|auto].
Qed.
End roundtrip.

(** The grammar with an equivalent rule for every rule of [G]. *)
Definition same_texts (G : grammar) (p : llama_grammar_parser) (G' : grammar) : Prop :=
  ∀ r, r < length G → ∃ id, symbol_ids p !! rule_name r = Some id ∧ id < length G' ∧
    ∀ w, gen G' [SRef id] w ↔ gen G [SRef r] w.

Definition printable_grammar (G : grammar) : Prop := Forall (λ alts, alts ≠ [] ∧ alts_ok (length G) alts) G.

Lemma parse_print_ok tokenize G : printable_grammar G →
  okP (parse tokenize (print G)) (λ o, ∃ p G', o = Some p ∧ encodes (p_rules p) G' ∧ same_texts G p G').
Proof.
  intros HG. destruct (parse_rules_print tokenize G HG G [] (S (length (print G))) (Parser ∅ [])) as (p & E & Hp & Hn & Hr);
    [done|split; cbn; [apply names_empty|lia|apply Forall_nil_2]|intros nm id H; cbn in H; by rewrite lookup_empty in H|done|..].
  { assert (∀ r H, length H ≤ length (print_from r H)) as Hl; [|specialize (Hl 0 G); unfold print; lia].
    intros r H. revert r. induction H as [|alts H IH]; intros r; [done|]. cbn [print_from]. rewrite length_app. specialize (IH (S r)). cbn [print_rule rule_name app length]. lia. }
  assert (parse tokenize (print G) = Ok (Some p)) as ->.
  { unfold parse, parse_or_throw. unfold print at 2. rewrite skip_print. cbn [length] in E. rewrite E, bind_Ok.
    by rewrite (printed_defined G HG p Hp Hn Hr). }
  destruct (all_defined_ok p Hp (printed_defined G HG p Hp Hn Hr)) as [G' HG']. cbn. exists p, G'. split; [done|]. split; [done|].
  intros r Hlt. destruct (lookup_lt_is_Some_2 _ _ Hlt) as [alts Halts]. destruct (Hr r alts Halts) as (id & alts' & Hid & _).
  exists id. split; [done|]. destruct (same_rule G HG p Hp Hn Hr G' HG' r alts id Halts Hid) as (? & H%lookup_lt_Some & _). split; [done|].
  assert (Forall2 (names_sym p) [SRef r] [SRef id]) as Hf by (constructor; [by exists id|constructor]).
  intros w. split; intros Hg.
  - by eapply gen_original; [exact HG|exact Hp|exact Hn|exact Hr|exact HG'|exact Hg|].
  - by eapply gen_renamed; [exact HG|exact Hp|exact Hn|exact Hr|exact HG'|exact Hg|].
Qed.

(** ** The bounds as they were written *)

(** The grammar has the rules that were added to [p]. *)
Definition has_new_rules (p p' : llama_grammar_parser) (G : grammar) : Prop :=
  ∀ id alts, size (symbol_ids p) ≤ id → alts ≠ [] → rule_at p' id = enc_rule alts → G !! id = Some alts.

(** From [m] to [n] copies; without an upper bound for UINT64_MAX. *)
Definition times (m n : Z) (k : nat) : Prop := (m ≤ Z.of_nat k ∧ (n ≠ UINT64_MAX → Z.of_nat k ≤ n))%Z.

Lemma repetition_ok name m n p front ss : bounds_ok m n → n = UINT64_MAX ∨ (m ≤ n)%Z → parser_ok p → word name →
  Forall (ref_ok (size (symbol_ids p))) ss → ss ≠ [] →
  okP (handle_repetitions name m n (length front) p (front ++ enc_seq ss)) (λ r, ∃ ss', r.2 = front ++ enc_seq ss' ∧
    parser_ok r.1 ∧ grows_new p r.1 ∧ size (symbol_ids r.1) ≤ size (symbol_ids p) + 2000 ∧ Forall (ref_ok (size (symbol_ids r.1))) ss' ∧
    ∀ G w, has_new_rules p r.1 G → gen G ss' w ↔ ∃ k, times m n k ∧ gen G (copies k ss) w).
Proof.
  intros [Hm Hn] Hmn Hp Hw Hss Hne. pose proof (handle_repetitions_ok name m n p front ss ltac:(lia) Hp Hw Hss) as H.
  assert (MAX_REPETITION_THRESHOLD = 2000)%Z as HM by done. assert (2000 < UINT64_MAX)%Z as HU by done.
  rewrite decide_False in H by done. eapply okP_mono; [exact H|]. intros [p' rule'] (E & Hp' & Hg & Hsz & Hrec). cbn [fst snd] in *.
  assert (n_optional m n = if decide (n = UINT64_MAX) then 1 else n - m)%Z as Hopt.
  { case_decide as Hu; [unfold n_optional; by rewrite decide_True|]. apply n_optional_le; [lia|done|lia]. }
  exists (repeated m n ss (size (symbol_ids p))). split; [done|]. split; [done|]. split; [done|].
  split; [rewrite Hsz, Hopt; case_decide; lia|].
  split; [rewrite Hsz; apply repeated_refs; [lia|done]|]. intros G w HG. rewrite gen_repeated; [|lia|].
  2: { intros i Hi. apply HG; [lia|done|by apply Hrec]. }
  unfold repeats, times. rewrite Hopt. destruct (decide (n = UINT64_MAX)) as [->|Hnm]; split.
  - intros (k & _ & Hk). exists (Z.to_nat m + k). split; [lia|done].
  - intros (k & [Hk _] & Hgen). exists (k - Z.to_nat m). split; [done|]. by replace (Z.to_nat m + (k - Z.to_nat m)) with k by lia.
  - intros (k & Hk & Hgen). specialize (Hk Hnm). exists (Z.to_nat m + k). split; [lia|done].
  - intros (k & [Hk1 Hk2] & Hgen). exists (k - Z.to_nat m). split; [lia|]. by replace (Z.to_nat m + (k - Z.to_nat m)) with k by lia.
Qed.

(** * Correctness *)

(** C34. Parsing ends on every text.  If it succeeds, the rules are those of a
    grammar (complete alternates, every reference to a rule that is defined), the
    ids 0, 1, ... have one name each, and no rule has an id without a name. *)
Theorem parse_correct tokenize src : Forall is_byte src →
  okP (parse tokenize src) (λ o, match o with Some p => parsed p | None => True end).
Proof. apply parse_ok. Qed.

(** C25. Printing a grammar and parsing the text gives its rules back, numbered in
    the order in which they are mentioned: under the id of its name, every rule
    generates the same texts as before. *)
Theorem parse_print tokenize G : printable_grammar G →
  okP (parse tokenize (print G)) (λ o, ∃ p G', o = Some p ∧ encodes (p_rules p) G' ∧ same_texts G p G').
Proof. apply parse_print_ok. Qed.

(** C35. handle_repetitions with bounds that are in order replaces the last item S
    by a sequence that generates exactly the texts of m to n copies of S (m or more
    for {m,}, *, +), with the help of at most 2000 new rules (so their ids fit
    32 bits as long as the others leave room for them); older rules stay as they
    are, and a repetition of nothing is refused.  (Bounds in the wrong order are
    not refused by the parser, see [bounds_reversed].) *)
Theorem repetition_correct name m n p front ss : bounds_ok m n → n = UINT64_MAX ∨ (m ≤ n)%Z → parser_ok p → word name →
  Forall (ref_ok (size (symbol_ids p))) ss →
  if decide (ss = []) then handle_repetitions name m n (length front) p (front ++ enc_seq ss) = Err Throw
  else okP (handle_repetitions name m n (length front) p (front ++ enc_seq ss)) (λ r, ∃ ss', r.2 = front ++ enc_seq ss' ∧
    parser_ok r.1 ∧ grows_new p r.1 ∧ size (symbol_ids r.1) ≤ size (symbol_ids p) + 2000 ∧ Forall (ref_ok (size (symbol_ids r.1))) ss' ∧
    ∀ G w, has_new_rules p r.1 G → gen G ss' w ↔ ∃ k, times m n k ∧ gen G (copies k ss) w).
Proof.
  intros Hb Hmn Hp Hw Hss. destruct (decide (ss = [])) as [E|].
  - pose proof (handle_repetitions_ok name m n p front ss ltac:(destruct Hb; lia) Hp Hw Hss) as H'. by rewrite decide_True in H'.
  - by apply repetition_ok.
Qed.

(** What llama_grammar_init_impl makes of a text. *)
Definition built_from (vocab : option (llama_vocab * (list Z → list Z))) (compile : list Z → res llama_grammar_trigger_pattern)
    (src root : list Z) (lazy : bool) (patterns : list (list Z)) (tokens : list Z) : Prop :=
  let init n := init_impl_str n vocab compile src root lazy patterns tokens in
  ∃ o, parse (snd <$> vocab) src = Ok o ∧
  match o with
  | None => ∀ n, init n = Ok None
  | Some p =>
      (p_rules p = [] ∨ symbol_ids p !! root_name = None → ∀ n, init n = Ok None) ∧
      (p_rules p ≠ [] → symbol_ids p !! root_name ≠ None →
        (symbol_ids p !! root = None → ∀ n, init n = Err Throw) ∧
        ∃ G, encodes (p_rules p) G ∧ ∀ start, symbol_ids p !! root = Some start →
          (left_recursion_free G → start < length (p_rules p) → (∀ pat, pat ∈ patterns → ∃ t, compile pat = Ok t) →
            ends init (λ o, ∃ g, o = Some g ∧ g_rules g = p_rules p ∧ g_vocab g = fst <$> vocab ∧ fresh G start lazy tokens g)) ∧
          (left_recursion_free G → start < length (p_rules p) → ∀ e, mapM_res compile patterns = Err e → ∃ N, ∀ n, N ≤ n → init n = Err e) ∧
          (left_recursion_free G → length (p_rules p) ≤ start → ∀ n, init n = Err OutOfRange) ∧
          (¬ left_recursion_free G → empty_is_direct G → ∀ n, init n = Ok None))
  end.

(** C38. llama_grammar_init_impl on a text: nullptr if it does not parse, has no
    rules or no symbol root; an exception if grammar_root is not a symbol of the
    text.  Otherwise, in a grammar without left recursion, it builds the rules that
    were parsed with the stacks of the start rule, ready for sampling, or throws
    what the first pattern that does not compile throws; and it reads outside the
    rules if that symbol was only mentioned in a rule that was then defined again.
    A grammar with left recursion gives nullptr if every rule of it that generates
    the empty text has an empty alternate (for the others see
    [left_recursion_missed]). *)
Theorem init_impl_str_correct vocab compile src root lazy patterns tokens : Forall is_byte src →
  built_from vocab compile src root lazy patterns tokens.
Proof.
  intros Hb. pose proof (parse_ok (snd <$> vocab) src Hb) as H. unfold built_from.
  destruct (parse (snd <$> vocab) src) as [[p|]|] eqn:E; [|exists None; split; [done|]; intros; by apply init_str_none|done].
  destruct H as (Hn & Hl & G & HG). exists (Some p). split; [done|]. split; [intros; by eapply init_str_no_root|].
  intros Hr Hroot. split; [intros; by eapply init_str_throws|]. exists G. split; [done|].
  intros start Hstart. split; [intros; by eapply init_str_ok|]. split; [intros; by eapply init_str_bad_pattern|].
  split; [intros; by eapply init_str_outside|]. intros; by eapply init_str_refuses.
Qed.

(** ** Examples *)

Definition ex_text : list Z := bytes "root ::= `a` root `b` | x
x ::= [0-9] x | ``".

Lemma ex_text_bytes : Forall is_byte ex_text.
Proof. unfold ex_text. vm_compute. repeat constructor; done. Qed.

Lemma parse_correct_witness :
  Forall is_byte ex_text ∧ okP (parse None ex_text) (λ o, match o with Some p => parsed p | None => True end).
Proof. split; [exact ex_text_bytes|]. apply (parse_correct None ex_text). exact ex_text_bytes. Defined.

Lemma ex_printable : printable_grammar ex_grammar.
Proof.
  assert (∀ s, s ∈ [SClass false (97, None) []; SRef 0; SClass false (98, None) []; SRef 1; SClass false (48, Some 57) []]%Z → printable s ∧ ref_ok 2 s) as H.
  { intros s. rewrite !elem_of_cons, elem_of_nil. intros [->|[->|[->|[->|[->|[]]]]]]; (split; cbn; [|done || lia]); try done;
      (constructor; [split; unfold is_u32; cbn; lia|constructor]). }
  assert (∀ ss, (∀ s, s ∈ ss → printable s ∧ ref_ok 2 s) → Forall printable ss ∧ Forall (ref_ok 2) ss) as Hs.
  { intros ss Hss. split; apply Forall_forall; intros s Hin; by apply Hss. }
  unfold printable_grammar, ex_grammar, alts_ok. cbn [length].
  repeat (apply Forall_cons; split; [split; [done|]|]); try apply Forall_nil_2;
    repeat (apply Forall_cons; split; [apply Hs; intros s Hin; apply H; set_solver|]); apply Forall_nil_2.
Qed.

Lemma parse_print_witness :
  printable_grammar ex_grammar ∧
  okP (parse None (print ex_grammar)) (λ o, ∃ p G', o = Some p ∧ encodes (p_rules p) G' ∧ same_texts ex_grammar p G').
Proof. split; [exact ex_printable|]. apply (parse_print None ex_grammar). exact ex_printable. Defined.

(** "a"{2,4} in a rule named r *)
Definition ex_parser : llama_grammar_parser := (get_symbol_id (Parser ∅ []) [114%Z]).1.

Lemma ex_parser_ok : parser_ok ex_parser.
Proof.
  apply get_symbol_id_ok; [|by repeat constructor]. split; [apply names_empty|cbn; lia|apply Forall_nil_2].
Qed.

Lemma repetition_correct_witness :
  okP (handle_repetitions [114%Z] 2 4 0 ex_parser ([] ++ enc_seq [char_sym 97])) (λ r, ∃ ss', r.2 = [] ++ enc_seq ss' ∧
    parser_ok r.1 ∧ grows_new ex_parser r.1 ∧ size (symbol_ids r.1) ≤ size (symbol_ids ex_parser) + 2000 ∧ Forall (ref_ok (size (symbol_ids r.1))) ss' ∧
    ∀ G w, has_new_rules ex_parser r.1 G → gen G ss' w ↔ ∃ k, times 2 4 k ∧ gen G (copies k [char_sym 97]) w).
Proof.
  apply (repetition_correct [114%Z] 2 4 ex_parser [] [char_sym 97]); [unfold bounds_ok, MAX_REPETITION_THRESHOLD; lia|by right|exact ex_parser_ok|by repeat constructor|by repeat constructor].
Defined.

Example repetition_ex : snd <$> handle_repetitions [114%Z] 2 4 0 ex_parser (enc_seq [char_sym 97]) =
  Ok (enc_seq [char_sym 97; char_sym 97; SRef 2]).
Proof. vm_compute. reflexivity. Qed.

Lemma init_impl_str_correct_witness : built_from None (λ _, Err Throw) ex_text root_name false [] [].
Proof. apply (init_impl_str_correct None (λ _, Err Throw) ex_text root_name false [] []). exact ex_text_bytes. Defined.

(** the grammar of GrammarSample.v from its text *)
Example init_str_ex : init_impl_str 10 None (λ _, Err Throw) ex_text root_name false [] [] =
  Ok (Some (Grammar None ex_rules (GrammarState ex_start (PartialUtf8 0 0)) false false [] [] [] [])).
Proof. vm_compute. reflexivity. Qed.

(** root is mentioned, but the rule that mentions it is defined again *)
Example root_outside : init_impl_str 10 None (λ _, Err Throw) (bytes "a ::= root
a ::= `a`") root_name false [] [] = Err OutOfRange.
Proof. vm_compute. reflexivity. Qed.

(** {2,1} is not refused: 2^64 - 1 extra rules are asked for. *)
Example bounds_reversed : snd <$> parse_bounds false (bytes "2,1}") = Ok [] ∧ n_optional 2 1 = UINT64_MAX.
Proof. by vm_compute. Qed.
