(* ===== verification/Recurrent.v ===== *)
(** The memory of recurrent models: [llama_memory_recurrent] of
    src/llama-memory-recurrent.h and .cpp, and what the graph of
    [llm_graph_context::build_rs] does with its states.

    A cell holds the state of a whole sequence (or of several that share it);
    [tail] of the cell with the index of a sequence id is the cell of that
    sequence.  The index [-1] is kept as in the code.  Sequence ids, [pos], [src]
    and [tail] are 32-bit integers, counters of cells are naturals. *)
From S2P Require Import Prelude Batch KvSlot.

(** ** Data *)

Record mem_cell := MemCell { m_pos : Z; m_src : Z; m_src0 : Z; m_tail : Z; m_seqs : gset Z }.

Definition m_empty (c : mem_cell) : bool := bool_decide (m_seqs c = ∅).
Definition m_has (c : mem_cell) (q : Z) : bool := bool_decide (q ∈ m_seqs c).

(** assignments to the fields *)
Definition set_content (p s : Z) (qs : gset Z) (c : mem_cell) : mem_cell := MemCell p s (m_src0 c) (m_tail c) qs.
Definition set_tail (t : Z) (c : mem_cell) : mem_cell := MemCell (m_pos c) (m_src c) (m_src0 c) t (m_seqs c).
Definition set_src (s s0 : Z) (c : mem_cell) : mem_cell := MemCell (m_pos c) s s0 (m_tail c) (m_seqs c).
Definition set_mpos (p : Z) : mem_cell → mem_cell := λ c, set_content p (m_src c) (m_seqs c) c.
Definition set_mseqs (qs : gset Z) : mem_cell → mem_cell := λ c, set_content (m_pos c) (m_src c) qs c.

Abbreviation mem_cells := (list mem_cell).

Definition upd (cells : mem_cells) (i : nat) (f : mem_cell → mem_cell) : res mem_cells :=
  c ← vget cells i; vset cells i (f c).

Record rec_mem := RecMem {
  r_head : nat;
  r_used : Z;        (* uint32_t *)
  r_n    : Z;        (* uint32_t *)
  rs_z   : Z;
  r_cells : mem_cells
}.

Definition r_size (m : rec_mem) : nat := length (r_cells m).

(** a new memory *)
Definition rec_fresh (size : nat) : rec_mem := RecMem 0 0 0 (-1) (replicate size (MemCell (-1) (-1) (-1) (-1) ∅)).

(** ** Sequence operations *)

Definition rec_clear (m : rec_mem) : rec_mem :=
  RecMem 0 0 (r_n m) (rs_z m) ((λ c, set_tail (-1) (set_content (-1) (-1) ∅ c)) <$> r_cells m).

Definition norm_p0 (p0 : Z) : Z := if decide (p0 < 0)%Z then 0%Z else p0.
Definition norm_p1 (p1 : Z) : Z := if decide (p1 < 0)%Z then INT32_MAX else p1.

(** if (new_head != size && new_head < head) head = new_head *)
Definition rec_lower_head (head size new_head : nat) : nat :=
  if decide (new_head ≠ size ∧ new_head < head) then new_head else head.

(** the loop of seq_rm: cells, used and new_head *)
Definition rec_rm_cell (q p0 p1 : Z) (st : mem_cells * Z * nat) (i : nat) : res (mem_cells * Z * nat) :=
  let '(cells, used, new_head) := st in
  c ← vget cells i;
  if decide (p0 ≤ m_pos c < p1)%Z then
    if decide ((q < 0)%Z ∨ m_has c q = true) then
      let qs := if decide (q < 0)%Z then ∅ else m_seqs c ∖ {[q]} in
      if decide (qs = ∅) then
        cells ← vset cells i (set_content (-1) (-1) ∅ c);
        Ok (cells, if decide (0 ≤ m_pos c)%Z then u32 (used - 1) else used,
            if decide (new_head = length cells) then i else new_head)
      else cells ← vset cells i (set_mseqs qs c); Ok (cells, used, new_head)
    else Ok st
  else Ok st.

Definition rec_rm_loop (m : rec_mem) (cells : mem_cells) (q p0 p1 : Z) : res (rec_mem * bool) :=
  let size := length cells in
  '(cells, used, new_head) ← foldM (rec_rm_cell q p0 p1) (cells, r_used m, size) (seq 0 size);
  Ok (RecMem (rec_lower_head (r_head m) size new_head) used (r_n m) (rs_z m) cells, true).

Definition rec_seq_rm (m : rec_mem) (q p0 p1 : Z) : res (rec_mem * bool) :=
  let size := r_size m in
  let p0 := norm_p0 p0 in
  let p1 := norm_p1 p1 in
  if decide (Z.of_nat size ≤ q)%Z then Ok (m, false) else
  if decide (0 ≤ q)%Z then
    c ← vget (r_cells m) (Z.to_nat q);
    if decide (0 ≤ m_tail c)%Z then
      cell ← vget (r_cells m) (Z.to_nat (m_tail c));
      if decide (0 < p0 ∧ p0 ≤ m_pos cell ∧ m_pos cell < p1)%Z then Ok (m, false) else
      cells ← (if decide (p0 ≤ m_pos cell < p1)%Z then vset (r_cells m) (Z.to_nat q) (set_tail (-1) c) else Ok (r_cells m));
      rec_rm_loop m cells q p0 p1
    else rec_rm_loop m (r_cells m) q p0 p1
  else
    if decide (p0 ≠ p1 ∧ (p0 ≠ 0 ∨ p1 ≠ INT32_MAX))%Z then Ok (m, false)
    else rec_rm_loop m (r_cells m) q p0 p1.

(** erase a sequence from its cell and free the cell when it was the last one *)
Definition release (cells : mem_cells) (used : Z) (q : Z) (i : nat) : res (mem_cells * Z) :=
  c ← vget cells i;
  let qs := m_seqs c ∖ {[q]} in
  cells ← vset cells i (if decide (qs = ∅) then set_content (-1) (-1) ∅ c else set_mseqs qs c);
  cells ← upd cells (Z.to_nat q) (set_tail (-1));
  Ok (cells, if decide (qs = ∅) then u32 (used - 1) else used).

Definition rec_seq_cp (m : rec_mem) (src dst p0 p1 : Z) : res rec_mem :=
  if decide (src = dst) then Ok m else
  let size := Z.of_nat (r_size m) in
  if decide (u32 dst < size ∧ u32 src < size)%Z then
    d ← vget (r_cells m) (Z.to_nat (u32 dst));
    '(cells, used) ← (if decide (0 ≤ m_tail d)%Z then release (r_cells m) (r_used m) dst (Z.to_nat (m_tail d)) else Ok (r_cells m, r_used m));
    s ← vget cells (Z.to_nat (u32 src));
    cells ← (if decide (0 ≤ m_tail s)%Z then
               cells ← upd cells (Z.to_nat (m_tail s)) (λ c, set_mseqs (m_seqs c ∪ {[dst]}) c);
               upd cells (Z.to_nat (u32 dst)) (set_tail (m_tail s))
             else Ok cells);
    Ok (RecMem (r_head m) used (r_n m) (rs_z m) cells)
  else Ok m.

Definition rec_keep_cell (q : Z) (st : mem_cells * Z * nat) (i : nat) : res (mem_cells * Z * nat) :=
  let '(cells, used, new_head) := st in
  c ← vget cells i;
  let c := if decide (Z.of_nat i ≠ q) then set_tail (-1) c else c in
  if m_has c q then cells ← vset cells i (set_mseqs {[q]} c); Ok (cells, used, new_head)
  else
    cells ← vset cells i (set_content (-1) (-1) ∅ c);
    Ok (cells, if decide (0 ≤ m_pos c)%Z then u32 (used - 1) else used,
        if decide (new_head = length cells) then i else new_head).

Definition rec_seq_keep (m : rec_mem) (q : Z) : res rec_mem :=
  let size := r_size m in
  '(cells, used, new_head) ← foldM (rec_keep_cell q) (r_cells m, r_used m, size) (seq 0 size);
  Ok (RecMem (rec_lower_head (r_head m) size new_head) used (r_n m) (rs_z m) cells).

(** seq_add and seq_div: only the position of the tail changes *)
Definition rec_move (m : rec_mem) (q p0 p1 : Z) (f : Z → res Z) : res rec_mem :=
  let p0 := norm_p0 p0 in
  let p1 := norm_p1 p1 in
  if decide (p0 = p1) then Ok m else
  if decide (0 ≤ q < Z.of_nat (r_size m))%Z then
    c ← vget (r_cells m) (Z.to_nat q);
    if decide (0 ≤ m_tail c)%Z then
      cell ← vget (r_cells m) (Z.to_nat (m_tail c));
      if decide (m_has cell q = true ∧ (p0 ≤ m_pos cell < p1)%Z) then
        p ← f (m_pos cell);
        cells ← vset (r_cells m) (Z.to_nat (m_tail c)) (set_mpos p cell);
        Ok (RecMem (r_head m) (r_used m) (r_n m) (rs_z m) cells)
      else Ok m
    else Ok m
  else Ok m.

Definition rec_seq_add (m : rec_mem) (q p0 p1 shift : Z) : res rec_mem :=
  if decide (shift = 0)%Z then Ok m else rec_move m q p0 p1 (λ p, i32_add p shift).

Definition rec_seq_div (m : rec_mem) (q p0 p1 d : Z) : res rec_mem :=
  if decide (d = 1)%Z then Ok m else
  rec_move m q p0 p1 (λ p, if decide (d = 0)%Z then Err DivByZero else
                           if in_i32 (p ÷ d) then Ok (p ÷ d)%Z else Err Overflow).

Definition rec_pos_min (m : rec_mem) (q : Z) : Z :=
  let r := foldl (λ r c, if m_has c q then Z.min r (m_pos c) else r) INT32_MAX (r_cells m) in
  if decide (r = INT32_MAX) then (-1)%Z else r.

Definition rec_pos_max (m : rec_mem) (q : Z) : Z :=
  foldl (λ r c, if m_has c q then Z.max r (m_pos c) else r) (-1)%Z (r_cells m).

(** ** find_slot *)

(** the first token of the sequence set s, and its sequence ids *)
Definition first_token (u : llama_ubatch) (s : nat) : nat := s * n_seq_tokens u.
Definition set_ids (u : llama_ubatch) (s : nat) : res (list Z) :=
  k ← vget (u_n_seq_id u) (first_token u s);
  ids ← vget (u_seq_id u) (first_token u s);
  mapM_res (λ j, vget ids j) (seq 0 (Z.to_nat k)).
Definition primary (u : llama_ubatch) (s : nat) : res Z :=
  ids ← vget (u_seq_id u) (first_token u s); vget ids 0.

(** everything should fit if all seq_ids are smaller than the max; after a
    return false the flag is false *)
Definition check_id (st : mem_cells * Z * bool) (jq : nat * Z) : res (mem_cells * Z * bool) :=
  let '(cells, used, ok) := st in
  let '(j, q) := jq in
  if negb ok then Ok st else
  if decide (q < 0 ∨ Z.of_nat (length cells) ≤ q)%Z then Ok (cells, used, false) else
  if decide (0 < j) then
    c ← vget cells (Z.to_nat q);
    if decide (0 ≤ m_tail c)%Z then r ← release cells used q (Z.to_nat (m_tail c)); Ok (r, true) else Ok st
  else Ok st.

Definition check_set (u : llama_ubatch) (st : mem_cells * Z * bool) (s : nat) : res (mem_cells * Z * bool) :=
  if negb st.2 then Ok st else
  ids ← set_ids u s;
  foldM check_id st (zip (seq 0 (length ids)) ids).

(** find next empty cell, in at most [k] steps *)
Fixpoint next_empty (k : nat) (cells : mem_cells) (next : nat) : res nat :=
  match k with
  | 0 => Ok next
  | S k =>
      let next := if decide (length cells ≤ next) then next - length cells else next in
      c ← vget cells next;
      if m_empty c then Ok next else next_empty k cells (next + 1)
  end.

(** the same search after a cell was taken *)
Fixpoint following_empty (k : nat) (cells : mem_cells) (next : nat) : res nat :=
  match k with
  | 0 => Ok next
  | S k =>
      let next := if decide (length cells ≤ next + 1) then next + 1 - length cells else next + 1 in
      c ← vget cells next;
      if m_empty c then Ok next else following_empty k cells next
  end.

(** the variables of the loop over the sequence sets *)
Record slot_state := SlotState { ss_cells : mem_cells; ss_next : nat; ss_min : Z; ss_max : Z }.

(** does this seq_id "own" the cell? *)
Definition owns_cell (cells : mem_cells) (q : Z) (t : Z) : res bool :=
  if decide (0 ≤ t)%Z then
    cell ← vget cells (Z.to_nat t);
    ggml_assert (m_has cell q);;
    Ok (bool_decide (base.size (m_seqs cell) = 1))
  else Ok false.

(** copy old tail into the empty cell *)
Definition copy_tail (cells : mem_cells) (q t : Z) (next : nat) : res mem_cells :=
  if decide (0 ≤ t)%Z then
    orig ← vget cells (Z.to_nat t);
    e ← vget cells next;
    cells ← vset cells next (set_content (m_pos orig) (m_src orig) (m_seqs e) e);
    cells ← upd cells (Z.to_nat t) (λ c, set_mseqs (m_seqs c ∖ {[q]}) c);
    cells ← upd cells next (λ c, set_mseqs (m_seqs c ∪ {[q]}) c);
    orig ← vget cells (Z.to_nat t);
    ggml_assert (negb (m_empty orig));;
    Ok cells
  else Ok cells.

Definition assign_set (u : llama_ubatch) (st : slot_state) (s : nat) : res slot_state :=
  let cells := ss_cells st in
  let next := ss_next st in
  q ← primary u s;
  qi ← idx q;
  meta ← vget cells qi;
  own ← owns_cell cells q (m_tail meta);
  r ← (if own : bool then Ok (cells, next) else
         e ← vget cells next;
         ggml_assert (m_empty e);;
         cells ← copy_tail cells q (m_tail meta) next;
         cells ← upd cells qi (set_tail (Z.of_nat next));
         next ← (if decide (s + 1 < n_seqs u) then following_empty (length cells) cells next else Ok next);
         Ok (cells, next));
  meta ← vget (r : mem_cells * nat).1 qi;
  Ok (SlotState r.1 r.2 (Z.min (ss_min st) (m_tail meta)) (Z.max (ss_max st) (m_tail meta))).

(** gather and re-order *)
Definition swap_tail (a b : Z) (c : mem_cell) : mem_cell :=
  if decide (m_tail c = a) then set_tail b c else if decide (m_tail c = b) then set_tail a c else c.

Definition gather_set (u : llama_ubatch) (min : Z) (cells : mem_cells) (s : nat) : res mem_cells :=
  q ← primary u s;
  qi ← idx q;
  meta ← vget cells qi;
  let dst_id := (Z.of_nat s + min)%Z in
  let src_id := m_tail meta in
  if decide (dst_id = src_id) then Ok cells else
  d ← idx dst_id;
  t ← idx src_id;
  dst ← vget cells d;
  src ← vget cells t;
  cells ← vset cells d (set_content (m_pos src) (m_src src) (m_seqs src) dst);
  cells ← upd cells t (set_content (m_pos dst) (m_src dst) (m_seqs dst));
  Ok (swap_tail src_id dst_id <$> (cells : list mem_cell)).

(** update the pos of the used seqs *)
Definition place_set (u : llama_ubatch) (min : Z) (cells : mem_cells) (s : nat) : res mem_cells :=
  last_pos ← vget (u_pos u) (first_token u s + n_seq_tokens u - 1);
  i ← idx (Z.of_nat s + min);
  ids ← set_ids u s;
  cells ← upd cells i (λ c, set_content last_pos (m_src c) ∅ c);
  foldM (λ cells q,
    cells ← upd cells i (λ c, set_mseqs (m_seqs c ∪ {[q]}) c);
    qi ← idx q;
    upd cells qi (set_tail (Z.of_nat s + min))) cells ids.

(** the number of cells whose src is i *)
Definition refcounts (cells : mem_cells) : res (list nat) :=
  foldM (λ rc c, if decide (0 ≤ m_src c)%Z then n ← vget rc (Z.to_nat (m_src c)); vset rc (Z.to_nat (m_src c)) (S n) else Ok rc)
    (replicate (length cells) 0) cells.

(** for (int i = min; i <= max; ++i) *)
Definition min_to_max (min max : Z) : list nat := seq (Z.to_nat min) (Z.to_nat (max - min + 1)).

(** Find first cell without src refs, to use as the zero-ed state *)
Definition zeroed_cell (rc : list nat) (range : list nat) : Z :=
  match find (λ i, bool_decide (rc !! i = Some 0)) range with Some i => Z.of_nat i | None => (-1)%Z end.

Definition stage_src (z : Z) (cells : mem_cells) (i : nat) : res mem_cells :=
  c ← vget cells i;
  (if decide (m_src c < 0)%Z then ggml_assert (bool_decide (0 ≤ z)%Z) else Ok tt);;
  vset cells i (set_src (Z.of_nat i) (if decide (m_src c < 0)%Z then z else m_src c) c).

Definition count_used (cells : mem_cells) : nat := length (filter (λ c, m_empty c = false) cells).

Definition rec_find_slot (m : rec_mem) (u : llama_ubatch) : res (rec_mem * bool) :=
  let size := r_size m in
  let head := if decide (u32 (r_used m + 2 * Z.of_nat (n_seqs u)) < Z.of_nat (r_head m))%Z then 0 else r_head m in
  ggml_assert (equal_seqs u);;
  '(cells, used, ok) ← foldM (check_set u) (r_cells m, r_used m, true) (seq 0 (n_seqs u));
  if negb ok then Ok (RecMem head used (r_n m) (rs_z m) cells, false) else
  next ← next_empty size cells head;
  st ← foldM (assign_set u) (SlotState cells next (Z.of_nat size - 1) 0) (seq 0 (n_seqs u));
  let min := ss_min st in
  let max := ss_max st in
  cells ← foldM (gather_set u min) (ss_cells st) (seq 0 (n_seqs u));
  cells ← foldM (place_set u min) cells (seq 0 (n_seqs u));
  rc ← refcounts cells;
  let z := zeroed_cell rc (min_to_max min max) in
  cells ← foldM (stage_src z) cells (min_to_max min max);
  head ← idx min;
  let n := u32 (max - min + 1) in
  Ok (RecMem head (Z.of_nat (count_used cells)) n z cells, bool_decide (Z.of_nat (n_seqs u) ≤ n)%Z).

(** ** prepare, init_batch and the batch context *)

(** simply remember the full state: cells, used and head are restored *)
Definition rec_prepare (m : rec_mem) (us : list llama_ubatch) : res (rec_mem * bool) :=
  r ← foldM (λ st u, if st.2 : bool then rec_find_slot st.1 u else Ok st) (m, true) us;
  Ok (RecMem (r_head m) (r_used m) (r_n r.1) (rs_z r.1) (r_cells m), r.2).

Record rec_context := RecContext {
  rx_status   : llama_memory_status;
  rx_i_next   : nat;
  rx_ubatches : list llama_ubatch;
  rx_is_full  : bool
}.

Definition rec_context_failed : rec_context := RecContext STATUS_FAILED_PREPARE 0 [] false.
Definition rec_init_full : rec_context := RecContext STATUS_SUCCESS 0 [] true.
Definition rec_init_update : rec_context := RecContext STATUS_NO_UPDATE 0 [] false.

Definition rec_init_batch (m : rec_mem) (balloc : llama_batch_allocr) (n_ubatch : nat) (embd_all : bool) :
    res (rec_mem * llama_batch_allocr * rec_context) :=
  let balloc := split_reset balloc in
  r ← split_all (S (get_n_tokens balloc))
        (λ a, if embd_all then split_seq a n_ubatch else split_equal a n_ubatch true) balloc [];
  let '(balloc, us) := r in
  if decide (n_used balloc < get_n_tokens balloc) then Ok (m, balloc, rec_context_failed) else
  p ← rec_prepare m us;
  if negb (p : rec_mem * bool).2 then Ok (p.1, balloc, rec_context_failed) else
  Ok (p.1, balloc, RecContext STATUS_SUCCESS 0 us false).

Definition rec_next (cx : rec_context) : res (rec_context * bool) :=
  assert_ (bool_decide (rx_status cx = STATUS_SUCCESS));;
  let i := S (rx_i_next cx) in
  Ok (RecContext (rx_status cx) i (rx_ubatches cx) (rx_is_full cx), bool_decide (i < length (rx_ubatches cx))).

(** the result of find_slot is ignored *)
Definition rec_apply (m : rec_mem) (cx : rec_context) : res (rec_mem * bool) :=
  assert_ (negb (status_is_fail (rx_status cx)));;
  if decide (rx_ubatches cx = []) then assert_ (bool_decide (rx_status cx = STATUS_NO_UPDATE));; Ok (m, true)
  else u ← vget (rx_ubatches cx) (rx_i_next cx); r ← rec_find_slot m u; Ok (r.1, true).

Definition get_n_rs (m : rec_mem) (cx : rec_context) : Z := if rx_is_full cx then Z.of_nat (r_size m) else r_n m.
Definition rx_head (m : rec_mem) (cx : rec_context) : nat := if rx_is_full cx then 0 else r_head m.
Definition rx_rs_z (m : rec_mem) (cx : rec_context) : Z := if rx_is_full cx then 0%Z else rs_z m.

Definition s_copy (m : rec_mem) (i : nat) : res Z := c ← vget (r_cells m) (i + r_head m); Ok (m_src0 c).

(** ** The states of the cells

    [data] gives the state stored in each cell, [zero] is the state of an empty
    sequence.  The graph clears the row rs_z, then gathers the rows s_copy(i): the
    first n_seqs of them are the states that the tokens of the micro-batch start
    from, the others are copied to the cells behind. *)
Section states.
Context {A : Type} (zero : A).

Definition clear_row (z : Z) (data : nat → A) (i : nat) : A := if decide (Z.of_nat i = z) then zero else data i.

Definition build_rs (m : rec_mem) (data : nat → A) (i : nat) : A :=
  if decide (r_head m ≤ i ∧ (Z.of_nat i < Z.of_nat (r_head m) + r_n m)%Z) then
    match s_copy m (i - r_head m) with Ok s => clear_row (rs_z m) data (Z.to_nat s) | Err _ => data i end
  else data i.
End states.

(** ** Examples: four cells; sequences 0 and 1, then a copy of 0, then all three *)


(** [n_seq_tokens] tokens for each of the given sequence sets, up to position [p] *)
Definition rec_ubatch (k : nat) (p : Z) (sets : list (list Z)) : llama_ubatch :=
  let n := length sets * k in
  UBatch true n k (length sets) (length sets) 1 (Some (replicate n 0%Z)) None
    (concat (replicate (length sets) ((λ j, p - Z.of_nat k + 1 + Z.of_nat j)%Z <$> seq 0 k)))
    (concat ((λ ids, replicate k (Z.of_nat (length ids))) <$> sets)) (concat ((λ ids, replicate k ids) <$> sets)) [] [] [].

Definition summary (m : rec_mem) : Z * Z * Z * Z * list (Z * Z * Z * Z * list Z) :=
  (Z.of_nat (r_head m), r_used m, r_n m, rs_z m, (λ c, (m_pos c, m_src c, m_src0 c, m_tail c, elements (m_seqs c))) <$> r_cells m).

Definition ex_run : res rec_mem :=
  r ← rec_find_slot (rec_fresh 4) (rec_ubatch 2 1 [[0]; [1]]%Z);
  m ← rec_seq_cp r.1 0 2 (-1) (-1);
  r ← rec_find_slot m (rec_ubatch 1 2 [[2]; [1]]%Z);
  Ok r.1.

(** the copy gets a cell of its own (0, moved to the front of sequence 1), which
    starts from the state of the cell it was copied from *)
Example ex_run_ok : match ex_run with Ok m => Some (summary m) | Err _ => None end =
  Some (1, 3, 2, 2, [(1, 0, 0, 0, [0]); (2, 1, 0, 2, [2]); (2, 2, 1, 1, [1]); (-1, -1, -1, -1, [])])%Z.
Proof. vm_compute. reflexivity. Qed.

(** * Lemmas *)

(** ** The three parts of the cells: tails, contents without the sequences, sequences *)

Definition tails (cells : mem_cells) : list Z := m_tail <$> cells.
Definition seqs (cells : mem_cells) : list (gset Z) := m_seqs <$> cells.
Definition marks (cells : mem_cells) : list (Z * Z) := (λ c, (m_pos c, m_src c)) <$> cells.

(** [tail] of a sequence is the only cell that contains it. *)
Record tails_ok (n : nat) (T : list Z) (Q : list (gset Z)) : Prop := {
  to_T : length T = n;
  to_Q : length Q = n;
  to_iff : ∀ q i t s, T !! q = Some t → Q !! i = Some s → Z.of_nat q ∈ s ↔ t = Z.of_nat i;
  to_dom : ∀ i s q, Q !! i = Some s → q ∈ s → (0 ≤ q < Z.of_nat n)%Z;
  to_range : ∀ q t, T !! q = Some t → (t = -1 ∨ 0 ≤ t < Z.of_nat n)%Z
}.

Lemma tails_ok_tail n T Q q t : tails_ok n T Q → T !! q = Some t → (0 ≤ t)%Z →
  ∃ s, Q !! Z.to_nat t = Some s ∧ Z.of_nat q ∈ s ∧ (t < Z.of_nat n)%Z.
Proof.
  intros H Ht Hpos. destruct (to_range _ _ _ H _ _ Ht) as [->|Hr]; [lia|].
  destruct (lookup_lt_is_Some_2 Q (Z.to_nat t)) as [s Hs]; [rewrite (to_Q _ _ _ H); lia|].
  exists s. split; [done|]. split; [|lia]. apply (to_iff _ _ _ H _ _ _ _ Ht Hs). lia.
Qed.

Lemma tails_ok_in n T Q i s q : tails_ok n T Q → Q !! i = Some s → q ∈ s → T !! Z.to_nat q = Some (Z.of_nat i) ∧ (0 ≤ q < Z.of_nat n)%Z.
Proof.
  intros H Hs Hq. pose proof (to_dom _ _ _ H _ _ _ Hs Hq) as Hr.
  destruct (lookup_lt_is_Some_2 T (Z.to_nat q)) as [t Ht]; [rewrite (to_T _ _ _ H); lia|].
  split; [|done]. rewrite Ht. f_equal. apply (to_iff _ _ _ H _ _ _ _ Ht Hs). by rewrite Z2Nat.id by lia.
Qed.

(** A sequence leaves its cell. *)
Lemma tails_ok_leave n T Q q i s : tails_ok n T Q → Q !! i = Some s → T !! q = Some (Z.of_nat i) →
  tails_ok n (<[q := (-1)%Z]> T) (<[i := s ∖ {[Z.of_nat q]}]> Q).
Proof.
  intros H Hs Hq. destruct H as [H1 H2 H3 H4 H5]. split; rewrite ?length_insert; try done.
  - intros q' i' t' s' [[<- [<- _]]|[Hne Ht]]%list_lookup_insert_Some [[<- [<- _]]|[Hne' Hs']]%list_lookup_insert_Some.
    + split; [set_solver|lia].
    + split; [|lia]. intros Hin. apply (H3 _ _ _ _ Hq Hs') in Hin. lia.
    + rewrite elem_of_difference, elem_of_singleton, (H3 _ _ _ _ Ht Hs). split; [tauto|]. intros ->. split; [done|]. intros E. lia.
    + by apply H3.
  - intros i' s' q' [[<- [<- _]]|[_ Hs']]%list_lookup_insert_Some Hin; [|by eapply H4]. eapply H4; [exact Hs|]. set_solver.
  - intros q' t' [[<- [<- _]]|[_ Ht]]%list_lookup_insert_Some; [by left|by eapply H5].
Qed.

(** A sequence without a cell joins one. *)
Lemma tails_ok_join n T Q q i s : tails_ok n T Q → Q !! i = Some s → T !! q = Some (-1)%Z →
  tails_ok n (<[q := Z.of_nat i]> T) (<[i := s ∪ {[Z.of_nat q]}]> Q).
Proof.
  intros H Hs Hq. destruct H as [H1 H2 H3 H4 H5]. pose proof (lookup_lt_Some _ _ _ Hs). pose proof (lookup_lt_Some _ _ _ Hq).
  split; rewrite ?length_insert; try done.
  - intros q' i' t' s' [[<- [<- _]]|[Hne Ht]]%list_lookup_insert_Some [[<- [<- _]]|[Hne' Hs']]%list_lookup_insert_Some.
    + split; [done|set_solver].
    + split; [|lia]. intros Hin. apply (H3 _ _ _ _ Hq Hs') in Hin. lia.
    + rewrite elem_of_union, elem_of_singleton, (H3 _ _ _ _ Ht Hs). split; [intros [?|?]; lia|tauto].
    + by apply H3.
  - intros i' s' q' [[<- [<- _]]|[_ Hs']]%list_lookup_insert_Some Hin; [|by eapply H4].
    apply elem_of_union in Hin as [Hin| ->%elem_of_singleton]; [by eapply H4|lia].
  - intros q' t' [[<- [<- _]]|[_ Ht]]%list_lookup_insert_Some; [right; lia|by eapply H5].
Qed.

(** Position and source of the cell of a sequence. *)
Definition seq_mark (T : list Z) (K : list (Z * Z)) (q : nat) : option (Z * Z) :=
  t ← T !! q; if decide (0 ≤ t)%Z then K !! Z.to_nat t else None.

(** ** The invariant of the memory *)

(** Between two batches the state of a cell is its own or the empty one; an empty
    cell has no position. *)
Definition mark_ok (i : nat) (k : Z * Z) (s : gset Z) : Prop :=
  (k.2 = -1 ∨ k.2 = Z.of_nat i)%Z ∧ (s = ∅ → k.1 = -1)%Z ∧ (s ≠ ∅ → 0 ≤ k.1 ≤ INT32_MAX)%Z.
Definition marks_ok (K : list (Z * Z)) (Q : list (gset Z)) : Prop :=
  ∀ i k s, K !! i = Some k → Q !! i = Some s → mark_ok i k s.

(** the number of cells that are not empty *)
Definition n_nonempty (Q : list (gset Z)) : nat := length (filter (λ s, s ≠ ∅) Q).

Record rec_wf (m : rec_mem) : Prop := {
  rw_size : 0 < r_size m ∧ (Z.of_nat (r_size m) ≤ INT32_MAX)%Z;
  rw_head : r_head m < r_size m;
  rw_tails : tails_ok (r_size m) (tails (r_cells m)) (seqs (r_cells m));
  rw_marks : marks_ok (marks (r_cells m)) (seqs (r_cells m));
  rw_used : r_used m = Z.of_nat (n_nonempty (seqs (r_cells m)))
}.

(** The memory as a map from sequences to the position and the state they have. *)
Definition seq_cell (m : rec_mem) (q : nat) : option (Z * Z) := seq_mark (tails (r_cells m)) (marks (r_cells m)) q.

Lemma seq_mark_None T K q : T !! q = Some (-1)%Z → seq_mark T K q = None.
Proof. unfold seq_mark. by intros ->. Qed.

Lemma seq_mark_Some T K q i : T !! q = Some (Z.of_nat i) → seq_mark T K q = K !! i.
Proof. unfold seq_mark. intros ->. cbn. by rewrite decide_True, Nat2Z.id by lia. Qed.

Lemma lookup_tails cells i c : cells !! i = Some c → tails cells !! i = Some (m_tail c).
Proof. unfold tails. by rewrite list_lookup_fmap; intros ->. Qed.
Lemma lookup_seqs cells i c : cells !! i = Some c → seqs cells !! i = Some (m_seqs c).
Proof. unfold seqs. by rewrite list_lookup_fmap; intros ->. Qed.
Lemma lookup_marks cells i c : cells !! i = Some c → marks cells !! i = Some (m_pos c, m_src c).
Proof. unfold marks. by rewrite list_lookup_fmap; intros ->. Qed.

Lemma lookup_seqs_inv cells i s : seqs cells !! i = Some s → ∃ c, cells !! i = Some c ∧ m_seqs c = s.
Proof. unfold seqs. rewrite list_lookup_fmap. destruct (cells !! i) as [c|]; [|done]. intros [= <-]. by exists c. Qed.
Lemma lookup_tails_inv cells i t : tails cells !! i = Some t → ∃ c, cells !! i = Some c ∧ m_tail c = t.
Proof. unfold tails. rewrite list_lookup_fmap. destruct (cells !! i) as [c|]; [|done]. intros [= <-]. by exists c. Qed.

Lemma upd_ok cells i c f : cells !! i = Some c → upd cells i f = Ok (<[i := f c]> cells).
Proof. intros H. unfold upd. rewrite (vget_ok _ _ _ H), bind_Ok. apply vset_ok. by apply lookup_lt_Some in H. Qed.

Lemma tails_insert cells i c : tails (<[i := c]> cells) = <[i := m_tail c]> (tails cells).
Proof. apply list_fmap_insert. Qed.
Lemma seqs_insert cells i c : seqs (<[i := c]> cells) = <[i := m_seqs c]> (seqs cells).
Proof. apply list_fmap_insert. Qed.
Lemma marks_insert cells i c : marks (<[i := c]> cells) = <[i := (m_pos c, m_src c)]> (marks cells).
Proof. exact (list_fmap_insert _ cells i c). Qed.

(** ** Counting *)

Definition one_if (b : bool) : nat := if b then 1 else 0.

Lemma n_nonempty_insert Q i s s' : Q !! i = Some s →
  n_nonempty (<[i := s']> Q) + one_if (bool_decide (s ≠ ∅)) = n_nonempty Q + one_if (bool_decide (s' ≠ ∅)).
Proof.
  unfold n_nonempty, one_if. revert i. induction Q as [|d Q IH]; intros [|i] H; [done|done|cbn in H; injection H as ->|cbn in H].
  - change (<[0 := s']> (s :: Q)) with (s' :: Q). rewrite !filter_cons, !bool_decide_decide.
    destruct (decide (s ≠ ∅)), (decide (s' ≠ ∅)); cbn [length]; lia.
  - specialize (IH _ H). change (<[S i := s']> (d :: Q)) with (d :: <[i := s']> Q). rewrite !filter_cons.
    destruct (decide (d ≠ ∅)); cbn [length]; lia.
Qed.

Lemma n_nonempty_le Q : n_nonempty Q ≤ length Q.
Proof. apply length_filter. Qed.

Lemma count_used_ok cells : count_used cells = n_nonempty (seqs cells).
Proof.
  unfold count_used, n_nonempty, seqs, m_empty. induction cells as [|c cells IH]; [done|]. rewrite fmap_cons, !filter_cons.
  destruct (decide (m_seqs c ≠ ∅)) as [H|H].
  - rewrite decide_True by by apply bool_decide_false. cbn [length]. by rewrite IH.
  - rewrite decide_False; [done|]. rewrite bool_decide_eq_false. tauto.
Qed.

Lemma length_tails cells : length (tails cells) = length cells.
Proof. apply length_fmap. Qed.
Lemma length_seqs cells : length (seqs cells) = length cells.
Proof. apply length_fmap. Qed.
Lemma length_marks cells : length (marks cells) = length cells.
Proof. apply length_fmap. Qed.

(** ** A sequence leaves its cell *)

(** the marks after the cell [i] has only the sequences [s'] *)
Definition freed (K : list (Z * Z)) (i : nat) (s' : gset Z) : list (Z * Z) :=
  if decide (s' = ∅) then <[i := (-1, -1)%Z]> K else K.
Definition one_less (s' : gset Z) (used : Z) : Z := if decide (s' = ∅) then u32 (used - 1) else used.

Lemma freed_ok K Q i s s' : marks_ok K Q → Q !! i = Some s → s ≠ ∅ → marks_ok (freed K i s') (<[i := s']> Q).
Proof.
  intros H Hs Hne j k s2 Hk Hs2. unfold freed in Hk. apply list_lookup_insert_Some in Hs2 as [[<- [<- Hlt]]|[Hj Hs2]].
  - case_decide as E.
    + apply list_lookup_insert_Some in Hk as [[_ [<- _]]|[? _]]; [|done]. split; [by left|done].
    + destruct (H _ _ _ Hk Hs) as (H1 & H2 & H3). split; [done|]. split; [done|]. intros _. by apply H3.
  - eapply H; [|exact Hs2]. case_decide; [|done]. by rewrite list_lookup_insert_ne in Hk.
Qed.

Lemma length_freed K i s' : length (freed K i s') = length K.
Proof. unfold freed. case_decide; [apply length_insert|done]. Qed.

Lemma seq_mark_leave n T Q K q i s q' : tails_ok n T Q → Q !! i = Some s → T !! q = Some (Z.of_nat i) → q' ≠ q →
  seq_mark (<[q := (-1)%Z]> T) (freed K i (s ∖ {[Z.of_nat q]})) q' = seq_mark T K q'.
Proof.
  intros H Hs Hq Hne. unfold seq_mark. rewrite list_lookup_insert_ne by done. destruct (T !! q') as [t|] eqn:Et; [|done]. cbn.
  case_decide; [|done]. unfold freed. case_decide as E; [|done]. apply list_lookup_insert_ne. intros ->.
  destruct (tails_ok_tail _ _ _ _ _ H Et) as (s' & Hs' & Hin & _); [done|]. simplify_eq.
  assert (Z.of_nat q' ∈ s ∖ {[Z.of_nat q]}) as Hin'; [|rewrite E in Hin'; set_solver].
  apply elem_of_difference. split; [done|]. rewrite elem_of_singleton. lia.
Qed.

Lemma one_less_ok Q i s s' used : Q !! i = Some s → s ≠ ∅ → (Z.of_nat (length Q) ≤ INT32_MAX)%Z →
  used = Z.of_nat (n_nonempty Q) → one_less s' used = Z.of_nat (n_nonempty (<[i := s']> Q)).
Proof.
  intros Hs Hne Hl ->. pose proof (n_nonempty_insert Q i s s' Hs) as H. pose proof (n_nonempty_le Q).
  unfold one_if in H. rewrite (bool_decide_true (s ≠ ∅)) in H by done. unfold one_less. destruct (decide (s' = ∅)) as [E|E].
  - rewrite bool_decide_false in H by tauto. unfold u32, INT32_MAX in *. rewrite Z.mod_small; lia.
  - rewrite bool_decide_true in H by done. lia.
Qed.

(** What [release] does. *)
Lemma release_ok n cells used q i s : tails_ok n (tails cells) (seqs cells) → tails cells !! q = Some (Z.of_nat i) →
  seqs cells !! i = Some s →
  okP (release cells used (Z.of_nat q) i) (λ r,
    tails r.1 = <[q := (-1)%Z]> (tails cells) ∧ seqs r.1 = <[i := s ∖ {[Z.of_nat q]}]> (seqs cells) ∧
    marks r.1 = freed (marks cells) i (s ∖ {[Z.of_nat q]}) ∧ r.2 = one_less (s ∖ {[Z.of_nat q]}) used).
Proof.
  intros H Hq Hs. destruct (lookup_seqs_inv _ _ _ Hs) as (c & Hc & <-). destruct (lookup_tails_inv _ _ _ Hq) as (d & Hd & Hdt).
  unfold release. rewrite (vget_ok _ _ _ Hc), bind_Ok. set (s' := m_seqs c ∖ {[Z.of_nat q]}).
  rewrite vset_ok by (by apply lookup_lt_Some in Hc). rewrite bind_Ok, Nat2Z.id.
  set (c' := if decide (s' = ∅) then set_content (-1) (-1) ∅ c else set_mseqs s' c).
  assert (m_seqs c' = s') as Hc's by (unfold c'; case_decide; [by rewrite <- H0|done]).
  assert (m_tail c' = m_tail c) as Hc't by (unfold c'; by case_decide).
  assert (∃ d', (<[i := c']> cells) !! q = Some d') as [d' Hd'].
  { apply lookup_lt_is_Some_2. rewrite length_insert. by apply lookup_lt_Some in Hd. }
  rewrite (upd_ok _ _ _ _ Hd'), bind_Ok. cbn [okP fst snd].
  rewrite tails_insert, seqs_insert, marks_insert. cbn [m_tail m_seqs m_pos m_src set_tail].
  rewrite (list_insert_id (seqs _)) by by apply lookup_seqs. rewrite (list_insert_id (marks _)) by by apply lookup_marks.
  rewrite tails_insert, seqs_insert, marks_insert, Hc's, Hc't. rewrite (list_insert_id (tails _)) by by apply lookup_tails.
  split; [done|]. split; [done|]. split; [|done]. unfold freed, c'. case_decide; [done|].
  cbn. apply list_insert_id. by apply lookup_marks.
Qed.

(** ** Sequence operations *)

(** A loop that acts at one index only. *)
Lemma foldM_one {S A} `{EqDecision A} (f : S → A → res S) s s' l i : NoDup l →
  (∀ x, x ∈ l → x ≠ i → f s x = Ok s ∧ f s' x = Ok s') → (i ∈ l → f s i = Ok s') →
  foldM f s l = Ok (if decide (i ∈ l) then s' else s).
Proof.
  intros Hnd Hstep Hi. assert (∀ k, k ⊆ l → i ∉ k → foldM f s' k = Ok s') as Hs'.
  { induction k as [|x k IH]; intros Hk Hn; [done|]. cbn [foldM]. destruct (Hstep x) as [_ ->]; [set_solver..|]. apply IH; set_solver. }
  enough (∀ k, k ⊆ l → NoDup k → foldM f s k = Ok (if decide (i ∈ k) then s' else s)) as H by by apply H.
  induction k as [|x k IH]; intros Hk Hd; [by rewrite decide_False by set_solver|]. inversion_clear Hd as [|? ? Hx Hd']. cbn [foldM].
  destruct (decide (x = i)) as [->|Hne].
  - rewrite Hi by set_solver. rewrite bind_Ok, decide_True by set_solver. apply Hs'; set_solver.
  - destruct (Hstep x) as [-> _]; [set_solver|done|]. rewrite bind_Ok, IH by (set_solver || done). f_equal.
    destruct (decide (i ∈ k)); [by rewrite decide_True by set_solver|by rewrite decide_False by set_solver].
Qed.

(** The effect of an operation on the parts of the cells. *)
Definition has_parts (cells : mem_cells) (T : list Z) (Q : list (gset Z)) (K : list (Z * Z)) : Prop :=
  tails cells = T ∧ seqs cells = Q ∧ marks cells = K.

Lemma okP_eq {A} (P : A → Prop) (r : res A) a : okP r P → (∀ x, P x → x = a) → r = Ok a.
Proof. destruct r; cbn; [|done]. intros H E. f_equal. by apply E. Qed.

Lemma rec_wf_intro m h used n z cells : rec_wf m → length cells = r_size m → h < r_size m →
  tails_ok (r_size m) (tails cells) (seqs cells) → marks_ok (marks cells) (seqs cells) →
  used = Z.of_nat (n_nonempty (seqs cells)) → rec_wf (RecMem h used n z cells).
Proof. intros Hm Hl Hh Ht Hk Hu. unfold r_size in *. split; cbn; unfold r_size; cbn; rewrite ?Hl; try done. apply Hm. Qed.

Lemma rec_lower_head_lt head size nh : head < size → rec_lower_head head size nh < size.
Proof. unfold rec_lower_head. case_decide; lia. Qed.

Section operations.
Context (m : rec_mem) (Hm : rec_wf m).
Abbreviation cells := (r_cells m).
Abbreviation n := (r_size m).

Lemma tail_lookup q : q < n → ∃ c, cells !! q = Some c ∧ tails cells !! q = Some (m_tail c) ∧ (m_tail c = -1 ∨ 0 ≤ m_tail c < Z.of_nat n)%Z.
Proof.
  intros Hq. destruct (lookup_lt_is_Some_2 _ _ Hq) as [c Hc]. exists c. split; [done|].
  pose proof (lookup_tails _ _ _ Hc) as Ht. split; [done|]. by eapply to_range; [apply (rw_tails _ Hm)|].
Qed.

(** The cell of a sequence. *)
Lemma tail_cell q c : cells !! q = Some c → (0 ≤ m_tail c)%Z →
  ∃ i d, m_tail c = Z.of_nat i ∧ cells !! i = Some d ∧ Z.of_nat q ∈ m_seqs d ∧ seq_cell m q = Some (m_pos d, m_src d).
Proof.
  intros Hc Ht. destruct (tails_ok_tail _ _ _ _ _ (rw_tails _ Hm) (lookup_tails _ _ _ Hc) Ht) as (s & Hs & Hin & _).
  destruct (lookup_seqs_inv _ _ _ Hs) as (d & Hd & <-). exists (Z.to_nat (m_tail c)), d.
  split; [by rewrite Z2Nat.id|]. split; [done|]. split; [done|]. unfold seq_cell.
  rewrite (seq_mark_Some _ _ _ (Z.to_nat (m_tail c))); [by apply lookup_marks|]. rewrite Z2Nat.id by done. by apply lookup_tails.
Qed.

Lemma no_tail_cell q c : cells !! q = Some c → ¬ (0 ≤ m_tail c)%Z → seq_cell m q = None.
Proof.
  intros Hc Ht. apply seq_mark_None. rewrite (lookup_tails _ _ _ Hc). f_equal.
  destruct (to_range _ _ _ (rw_tails _ Hm) _ _ (lookup_tails _ _ _ Hc)); lia.
Qed.

(** Only the cell of a sequence has it. *)
Lemma has_only q c i d : cells !! q = Some c → cells !! i = Some d → m_has d (Z.of_nat q) = true → m_tail c = Z.of_nat i.
Proof.
  intros Hc Hd H%bool_decide_eq_true_1. apply (to_iff _ _ _ (rw_tails _ Hm) _ _ _ _ (lookup_tails _ _ _ Hc) (lookup_seqs _ _ _ Hd)). done.
Qed.

(** *** seq_rm *)

(** the sequence has a cell, and its position is in the range *)
Definition hit (p0 p1 : Z) (k : option (Z * Z)) : bool :=
  match k with Some k => bool_decide (norm_p0 p0 ≤ k.1 < norm_p1 p1)%Z | None => false end.

Lemma rm_loop_skip q c p0 p1 : cells !! q = Some c →
  (∀ i d, m_tail c = Z.of_nat i → cells !! i = Some d → ¬ (p0 ≤ m_pos d < p1)%Z) →
  rec_rm_loop m cells (Z.of_nat q) p0 p1 = Ok (m, true).
Proof.
  intros Hc Hout. unfold rec_rm_loop.
  assert (foldM (rec_rm_cell (Z.of_nat q) p0 p1) (cells, r_used m, length cells) (seq 0 (length cells)) = Ok (cells, r_used m, length cells)) as ->.
  { apply (okP_eq (λ st, st = (cells, r_used m, length cells))); [|by intros ? ->]. apply (okP_for _ (λ _ st, st = (cells, r_used m, length cells))); [done|].
    intros i st Hi ->. destruct (lookup_lt_is_Some_2 _ _ Hi) as [d Hd]. cbn [rec_rm_cell]. rewrite (vget_ok _ _ _ Hd), bind_Ok.
    destruct (decide (p0 ≤ m_pos d < p1)%Z) as [Hr|]; [|done]. rewrite decide_False; [done|]. intros [?|Hh]; [lia|].
    by apply (Hout i d (has_only q c i d Hc Hd Hh) Hd). }
  rewrite bind_Ok. unfold rec_lower_head. rewrite decide_False by tauto. by destruct m.
Qed.

Lemma rm_loop_remove q c i d p0 p1 : cells !! q = Some c → m_tail c = Z.of_nat i → cells !! i = Some d → (0 ≤ p0 ≤ m_pos d)%Z → (m_pos d < p1)%Z →
  okP (rec_rm_loop m (<[q := set_tail (-1) c]> cells) (Z.of_nat q) p0 p1) (λ r, r.2 = true ∧ rec_wf r.1 ∧ r_size r.1 = n ∧
    seq_cell r.1 q = None ∧ ∀ q', q' ≠ q → seq_cell r.1 q' = seq_cell m q').
Proof.
  intros Hc Ht Hd Hp0 Hp1. pose proof (lookup_lt_Some _ _ _ Hc : q < n) as Hql. pose proof (lookup_lt_Some _ _ _ Hd : i < n) as Hil.
  pose proof (lookup_tails _ _ _ Hc) as HT. rewrite Ht in HT. pose proof (lookup_seqs _ _ _ Hd) as HQ.
  set (cells1 := <[q := set_tail (-1) c]> cells). set (s' := m_seqs d ∖ {[Z.of_nat q]}).
  assert (Z.of_nat q ∈ m_seqs d) as Hin by (apply (to_iff _ _ _ (rw_tails _ Hm) _ _ _ _ HT HQ); done).
  assert (∃ e, cells1 !! i = Some e ∧ m_pos e = m_pos d ∧ m_src e = m_src d ∧ m_seqs e = m_seqs d) as (e & He & He1 & He2 & He3).
  { unfold cells1. destruct (decide (i = q)) as [->|]; [|rewrite list_lookup_insert_ne by done; by exists d].
    rewrite list_lookup_insert_eq by done. simplify_eq. by eexists. }
  set (e' := if decide (s' = ∅) then set_content (-1) (-1) ∅ e else set_mseqs s' e).
  set (st' := (<[i := e']> cells1, one_less s' (r_used m), if decide (s' = ∅) then i else length cells1)).
  assert (length cells1 = n) as Hl1 by apply length_insert.
  unfold rec_rm_loop. rewrite (foldM_one _ _ st' _ i); [|apply NoDup_seq|..].
  - rewrite decide_True by (apply elem_of_seq; lia). unfold st' at 1. rewrite bind_Ok. cbn [okP fst snd]. split; [done|].
    assert (has_parts (<[i := e']> cells1) (<[q := (-1)%Z]> (tails cells)) (<[i := s']> (seqs cells)) (freed (marks cells) i s')) as (P1 & P2 & P3).
    { unfold has_parts, cells1. rewrite !tails_insert, !seqs_insert, !marks_insert. fold cells1.
      assert (tails cells1 !! i = Some (m_tail e)) as Hte by by apply lookup_tails. unfold cells1 in Hte. rewrite tails_insert in Hte. cbn in Hte.
      assert (m_tail e' = m_tail e) as -> by (unfold e'; by destruct (decide _)). rewrite (list_insert_id (<[q := _]> (tails cells)) i) by done.
      assert (m_seqs e' = s') as -> by (unfold e'; by destruct (decide _)). cbn.
      rewrite (list_insert_id (seqs cells)) by by apply lookup_seqs. rewrite (list_insert_id (marks cells)) by by apply lookup_marks.
      split; [done|]. split; [done|]. unfold freed, e'. destruct (decide _); [done|]. cbn. rewrite He1, He2.
      apply list_insert_id. by apply lookup_marks. }
    split; [|split; [unfold r_size; cbn; by rewrite length_insert|split]].
    + apply (rec_wf_intro m); [done|by rewrite length_insert|rewrite Hl1; apply rec_lower_head_lt, (rw_head _ Hm)| | |]; rewrite ?P1, ?P2, ?P3.
      * by apply tails_ok_leave; [apply (rw_tails _ Hm)| |].
      * eapply freed_ok; [apply (rw_marks _ Hm)|exact HQ|set_solver].
      * eapply one_less_ok; [exact HQ|set_solver|rewrite length_seqs; apply (rw_size _ Hm)|apply (rw_used _ Hm)].
    + unfold seq_cell. cbn [r_cells]. rewrite P1. apply seq_mark_None. apply list_lookup_insert_eq. by rewrite length_tails.
    + intros q' Hne. unfold seq_cell. cbn [r_cells]. rewrite P1, P3. by eapply seq_mark_leave; [apply (rw_tails _ Hm)|..].
  - intros x Hx Hne. apply elem_of_seq in Hx. assert (∀ L u h y, L !! x = Some y → m_seqs y = m_seqs (default y (cells !! x)) →
      rec_rm_cell (Z.of_nat q) p0 p1 (L, u, h) x = Ok (L, u, h)) as Hskip.
    { intros L u h y Hy Hys. cbn [rec_rm_cell]. rewrite (vget_ok _ _ _ Hy), bind_Ok. destruct (decide (p0 ≤ m_pos y < p1)%Z); [|done].
      rewrite decide_False; [done|]. intros [?|Hh]; [lia|]. destruct (lookup_lt_is_Some_2 cells x) as [y' Hy']; [unfold r_size in *; lia|].
      rewrite Hy' in Hys. cbn in Hys. unfold m_has in Hh. rewrite Hys in Hh.
      pose proof (has_only q c x y' Hc Hy' Hh). lia. }
    assert (∃ y, cells1 !! x = Some y ∧ m_seqs y = m_seqs (default y (cells !! x))) as (y & Hy & Hys).
    { unfold cells1. destruct (decide (x = q)) as [->|].
      - rewrite list_lookup_insert_eq by done. eexists. split; [done|]. by rewrite Hc.
      - rewrite list_lookup_insert_ne by done. destruct (lookup_lt_is_Some_2 cells x) as [y Hy]; [unfold r_size in *; lia|]. exists y. by rewrite Hy. }
    split; [by eapply Hskip|]. unfold st'. eapply Hskip; [|exact Hys]. by rewrite list_lookup_insert_ne.
  - intros _. cbn [rec_rm_cell]. rewrite (vget_ok _ _ _ He), bind_Ok, He1. rewrite decide_True by lia.
    rewrite decide_True by (right; unfold m_has; apply bool_decide_eq_true_2; by rewrite He3).
    rewrite (decide_False (P := (Z.of_nat q < 0)%Z)) by lia. rewrite He3. fold s'. unfold st', e', one_less.
    destruct (decide (s' = ∅)) as [E|E]; rewrite vset_ok by lia; rewrite bind_Ok; [|done].
    rewrite (decide_True (P := (0 ≤ m_pos d)%Z)) by lia. rewrite (decide_True (P := length cells1 = _)) by (by rewrite length_insert). done.
Qed.

Lemma rec_seq_rm_ok q p0 p1 :
  okP (rec_seq_rm m (Z.of_nat q) p0 p1) (λ r, rec_wf r.1 ∧ r_size r.1 = n ∧
    r.2 = negb (bool_decide (n ≤ q ∨ hit p0 p1 (seq_cell m q) = true ∧ (0 < norm_p0 p0)%Z)) ∧
    ∀ q', seq_cell r.1 q' = if decide (r.2 = true ∧ q' = q ∧ hit p0 p1 (seq_cell m q) = true) then None else seq_cell m q').
Proof.
  unfold rec_seq_rm. cbv zeta. set (a := norm_p0 p0). set (b := norm_p1 p1).
  assert (0 ≤ a)%Z as Ha by (unfold a, norm_p0; case_decide; lia).
  destruct (decide (Z.of_nat n ≤ Z.of_nat q)%Z) as [Hn|Hn].
  { cbn. split; [done|]. split; [done|]. rewrite bool_decide_true by lia. split; [done|]. intros q'. by rewrite decide_False by naive_solver. }
  rewrite decide_True by lia. rewrite Nat2Z.id. destruct (tail_lookup q) as (c & Hc & _ & Htr); [lia|]. rewrite (vget_ok _ _ _ Hc), bind_Ok.
  destruct (decide (0 ≤ m_tail c)%Z) as [Ht|Ht].
  - destruct (tail_cell q c Hc Ht) as (i & d & Hti & Hd & Hin & Hsc). rewrite Hsc, Hti, Nat2Z.id. rewrite (vget_ok _ _ _ Hd), bind_Ok.
    cbn [hit fst]. fold a b. destruct (decide (0 < a ∧ a ≤ m_pos d ∧ m_pos d < b)%Z) as [Hpart|Hpart].
    { cbn. split; [done|]. split; [done|]. rewrite (bool_decide_true (_ ∨ _)) by (right; rewrite bool_decide_true by lia; lia).
      split; [done|]. intros q'. by rewrite decide_False by naive_solver. }
    rewrite (bool_decide_false (_ ∨ _)) by (intros [?|[?%bool_decide_eq_true_1 ?]]; lia). cbn [negb].
    destruct (decide (a ≤ m_pos d < b)%Z) as [Hr|Hr].
    + rewrite bool_decide_true by done. rewrite vset_ok by (by apply lookup_lt_Some in Hc). rewrite bind_Ok.
      eapply okP_mono; [apply (rm_loop_remove q c i d); done || lia|]. intros [m' b'] (-> & Hw & Hs & Hq & Hoth). cbn [fst snd] in *.
      split; [done|]. split; [done|]. split; [done|]. intros q'.
      destruct (decide (q' = q)) as [->|Hne]; [by rewrite decide_True|]. rewrite decide_False by tauto. auto.
    + rewrite bool_decide_false by done. rewrite bind_Ok.
      rewrite (rm_loop_skip q c) by (done || (intros i' d' E Hd'; assert (i' = i) as -> by lia; by simplify_eq)).
      cbn. split; [done|]. split; [done|]. split; [done|]. intros q'. by rewrite decide_False by naive_solver.
  - rewrite (rm_loop_skip q c) by (done || (intros i' d' E; lia)). rewrite (no_tail_cell q c Hc Ht).
    cbn. rewrite (bool_decide_false (_ ∨ _)) by naive_solver lia. split; [done|]. split; [done|]. split; [done|].
    intros q'. by rewrite decide_False by naive_solver.
Qed.
End operations.

(** *** seq_cp *)

(** The invariant of the cells and [used] alone. *)
Record cells_wf (n : nat) (cells : mem_cells) (used : Z) : Prop := {
  cw_length : length cells = n;
  cw_max : (Z.of_nat n ≤ INT32_MAX)%Z;
  cw_tails : tails_ok n (tails cells) (seqs cells);
  cw_marks : marks_ok (marks cells) (seqs cells);
  cw_used : used = Z.of_nat (n_nonempty (seqs cells))
}.

Definition cell_of (cells : mem_cells) (q : nat) : option (Z * Z) := seq_mark (tails cells) (marks cells) q.

Lemma rec_cells_wf m : rec_wf m → cells_wf (r_size m) (r_cells m) (r_used m).
Proof. intros [[??] ? ? ? ?]. by split. Qed.

Lemma cells_rec_wf m h used n z cells : rec_wf m → h < r_size m → cells_wf (r_size m) cells used → rec_wf (RecMem h used n z cells).
Proof. intros Hm Hh []. by apply (rec_wf_intro m). Qed.

Lemma cells_tail n cells used q : cells_wf n cells used → q < n →
  ∃ c, cells !! q = Some c ∧ (m_tail c = (-1)%Z ∧ cell_of cells q = None ∨
    ∃ i d, i < n ∧ m_tail c = Z.of_nat i ∧ cells !! i = Some d ∧ Z.of_nat q ∈ m_seqs d ∧ cell_of cells q = Some (m_pos d, m_src d)).
Proof.
  intros [Hl _ Ht _ _] Hq. destruct (lookup_lt_is_Some_2 cells q) as [c Hc]; [lia|]. exists c. split; [done|].
  pose proof (lookup_tails _ _ _ Hc) as HT. destruct (to_range _ _ _ Ht _ _ HT) as [E|Hr].
  - left. split; [done|]. apply seq_mark_None. by rewrite HT, E.
  - right. destruct (tails_ok_tail _ _ _ _ _ Ht HT) as (s & Hs & Hin & _); [lia|]. destruct (lookup_seqs_inv _ _ _ Hs) as (d & Hd & <-).
    exists (Z.to_nat (m_tail c)), d. split; [lia|]. split; [lia|]. split; [done|]. split; [done|]. unfold cell_of.
    rewrite (seq_mark_Some _ _ _ (Z.to_nat (m_tail c))); [by apply lookup_marks|]. by rewrite Z2Nat.id by lia.
Qed.

Lemma release_wf n cells used q i c d : cells_wf n cells used → cells !! q = Some c → m_tail c = Z.of_nat i → cells !! i = Some d →
  okP (release cells used (Z.of_nat q) i) (λ r, cells_wf n r.1 r.2 ∧ cell_of r.1 q = None ∧
    (∀ q', q' ≠ q → cell_of r.1 q' = cell_of cells q' ∧ tails r.1 !! q' = tails cells !! q') ∧
    tails r.1 !! q = Some (-1)%Z ∧ ∀ j, seqs cells !! j = Some ∅ → seqs r.1 !! j = Some ∅).
Proof.
  intros [Hl Hmax Ht Hk Hu] Hc Hct Hd. pose proof (lookup_tails _ _ _ Hc) as HT. rewrite Hct in HT. pose proof (lookup_seqs _ _ _ Hd) as HQ.
  assert (Z.of_nat q ∈ m_seqs d) as Hin by (apply (to_iff _ _ _ Ht _ _ _ _ HT HQ); done).
  eapply okP_mono; [by apply (release_ok n _ _ q i (m_seqs d))|]. intros [cells' used'] (P1 & P2 & P3 & ->). cbn [fst snd] in *.
  split; [split|split; [|split; [|split]]].
  - by rewrite <- length_tails, P1, length_insert, length_tails.
  - done.
  - rewrite P1, P2. by apply tails_ok_leave.
  - rewrite P2, P3. eapply freed_ok; [done..|set_solver].
  - rewrite P2. eapply one_less_ok; [done|set_solver|by rewrite length_seqs, Hl|done].
  - unfold cell_of. rewrite P1. apply seq_mark_None, list_lookup_insert_eq. rewrite length_tails. by apply lookup_lt_Some in Hc.
  - intros q' Hne. unfold cell_of. rewrite P1, P3. split; [by eapply seq_mark_leave|by apply list_lookup_insert_ne].
  - rewrite P1. apply list_lookup_insert_eq. rewrite length_tails. by apply lookup_lt_Some in Hc.
  - intros j Hj. rewrite P2. destruct (decide (j = i)) as [->|]; [|by rewrite list_lookup_insert_ne].
    rewrite HQ in Hj. injection Hj as E. rewrite list_lookup_insert_eq by (rewrite length_seqs; by apply lookup_lt_Some in Hd). f_equal. set_solver.
Qed.

(** a sequence without a cell joins the cell [i] *)
Lemma join_wf n cells used q i d : cells_wf n cells used → q < n → tails cells !! q = Some (-1)%Z → cells !! i = Some d → m_seqs d ≠ ∅ →
  okP (cells ← upd cells i (λ c, set_mseqs (m_seqs c ∪ {[Z.of_nat q]}) c); upd cells q (set_tail (Z.of_nat i))) (λ cells',
    cells_wf n cells' used ∧ cell_of cells' q = Some (m_pos d, m_src d) ∧ ∀ q', q' ≠ q → cell_of cells' q' = cell_of cells q').
Proof.
  intros [Hl Hmax Ht Hk Hu] Hq HT Hd Hne. pose proof (lookup_seqs _ _ _ Hd) as HQ. pose proof (lookup_lt_Some _ _ _ Hd) as Hi.
  rewrite (upd_ok _ _ _ _ Hd), bind_Ok. set (cells1 := <[i := _]> cells).
  destruct (lookup_lt_is_Some_2 cells1 q) as [c Hc]; [unfold cells1; rewrite length_insert; lia|]. rewrite (upd_ok _ _ _ _ Hc). cbn [okP].
  set (cells' := <[q := _]> cells1).
  assert (has_parts cells' (<[q := Z.of_nat i]> (tails cells)) (<[i := m_seqs d ∪ {[Z.of_nat q]}]> (seqs cells)) (marks cells)) as (P1 & P2 & P3).
  { unfold has_parts, cells'. rewrite tails_insert, seqs_insert, marks_insert. cbn [set_tail m_tail m_seqs m_pos m_src].
    rewrite (list_insert_id (seqs cells1)) by by apply lookup_seqs. rewrite (list_insert_id (marks cells1)) by by apply lookup_marks.
    unfold cells1. rewrite tails_insert, seqs_insert, marks_insert. cbn.
    rewrite (list_insert_id (tails cells)) by by apply lookup_tails. by rewrite (list_insert_id (marks cells)) by by apply lookup_marks. }
  split; [split|split].
  - unfold cells', cells1. by rewrite !length_insert.
  - done.
  - rewrite P1, P2. by apply tails_ok_join.
  - rewrite P2, P3. intros j k s Hj [[<- [<- _]]|[? Hs]]%list_lookup_insert_Some; [|by eapply Hk].
    destruct (Hk _ _ _ Hj HQ) as (H1 & H2 & H3). split; [done|]. split; [set_solver|]. intros _. by apply H3.
  - rewrite P2. pose proof (n_nonempty_insert _ _ _ (m_seqs d ∪ {[Z.of_nat q]}) HQ) as H. rewrite !bool_decide_true in H by set_solver. lia.
  - unfold cell_of. rewrite P1, P3, (seq_mark_Some _ _ _ i); [by apply lookup_marks|]. apply list_lookup_insert_eq. by rewrite length_tails, Hl.
  - intros q' Hne'. unfold cell_of, seq_mark. by rewrite P1, P3, list_lookup_insert_ne.
Qed.

Lemma rec_seq_cp_ok m src dst p0 p1 : rec_wf m → src < r_size m → dst < r_size m →
  okP (rec_seq_cp m (Z.of_nat src) (Z.of_nat dst) p0 p1) (λ m', rec_wf m' ∧ r_size m' = r_size m ∧ r_head m' = r_head m ∧
    ∀ q, seq_cell m' q = if decide (q = dst) then seq_cell m src else seq_cell m q).
Proof.
  intros Hm Hsrc Hdst. pose proof (rec_cells_wf _ Hm) as Hw. pose proof (cw_max _ _ _ Hw) as Hmax. unfold rec_seq_cp.
  destruct (decide (Z.of_nat src = Z.of_nat dst)) as [E|Hne].
  { assert (src = dst) as -> by lia. cbn. split; [done|]. split; [done|]. split; [done|]. intros q. by case_decide; subst. }
  assert (∀ x, x < r_size m → u32 (Z.of_nat x) = Z.of_nat x) as Hu32.
  { intros x Hx. unfold u32, INT32_MAX in *. apply Z.mod_small. lia. }
  cbv zeta. rewrite !Hu32 by done. rewrite decide_True by lia. rewrite !Nat2Z.id.
  destruct (cells_tail _ _ _ dst Hw Hdst) as (c & Hc & Hct). rewrite (vget_ok _ _ _ Hc), bind_Ok.
  (* the destination leaves its cell *)
  assert (okP (if decide (0 ≤ m_tail c)%Z then release (r_cells m) (r_used m) (Z.of_nat dst) (Z.to_nat (m_tail c)) else Ok (r_cells m, r_used m))
    (λ r, cells_wf (r_size m) r.1 r.2 ∧ tails r.1 !! dst = Some (-1)%Z ∧ cell_of r.1 dst = None ∧ ∀ q', q' ≠ dst → cell_of r.1 q' = seq_cell m q')) as Hrel.
  { destruct Hct as [[E Hnone]|(i & d & Hi & Hti & Hd & Hin & Hcell)].
    - rewrite decide_False by lia. cbn [okP fst snd]. split; [done|]. split; [|done]. by rewrite (lookup_tails _ _ _ Hc), E.
    - rewrite decide_True by lia. rewrite Hti, Nat2Z.id. eapply okP_mono; [by apply (release_wf (r_size m) _ _ dst i c d)|].
      intros [cells' used'] (H1 & H2 & H3 & H4 & _). split; [done|]. split; [done|]. split; [done|]. intros q' Hq'. by apply H3. }
  eapply okP_bind; [exact Hrel|]. intros [cells' used'] (Hw' & Hd' & Hnone & Hoth). cbn [fst snd] in *.
  destruct (cells_tail _ _ _ src Hw' Hsrc) as (s & Hs & Hst). rewrite (vget_ok _ _ _ Hs), bind_Ok.
  assert (cell_of cells' src = seq_cell m src) as Hsm by (apply Hoth; lia).
  destruct Hst as [[E HsNone]|(i & d & Hi & Hti & Hd & Hin & Hcell)].
  - rewrite decide_False by lia. rewrite bind_Ok. cbn [okP]. split; [by apply (cells_rec_wf m); [|apply (rw_head _ Hm)|]|].
    split; [by apply (cw_length _ _ _ Hw')|]. split; [done|]. intros q.
    change (cell_of cells' q = if decide (q = dst) then seq_cell m src else seq_cell m q).
    destruct (decide (q = dst)) as [->|]; [congruence|by apply Hoth].
  - rewrite decide_True by lia. rewrite Hti, Nat2Z.id. eapply okP_bind.
    + apply (join_wf (r_size m) cells' used' dst i d); [done..|set_solver].
    + intros cells2 (Hw2 & Hq2 & Hoth2). cbn [okP]. split; [by apply (cells_rec_wf m); [|apply (rw_head _ Hm)|]|].
      split; [by apply (cw_length _ _ _ Hw2)|]. split; [done|]. intros q. change (cell_of cells2 q = if decide (q = dst) then seq_cell m src else seq_cell m q).
      destruct (decide (q = dst)) as [->|]; [congruence|]. rewrite Hoth2, Hoth by done. done.
Qed.

(** *** seq_keep *)

(** what seq_keep makes of a cell *)
Definition kept (q : nat) (i : nat) (c : mem_cell) : mem_cell :=
  let t := if decide (i ≠ q) then (-1)%Z else m_tail c in
  if m_has c (Z.of_nat q) then MemCell (m_pos c) (m_src c) (m_src0 c) t {[Z.of_nat q]} else MemCell (-1) (-1) (m_src0 c) t ∅.


Lemma keep_loop_ok m q : rec_wf m →
  okP (foldM (rec_keep_cell (Z.of_nat q)) (r_cells m, r_used m, r_size m) (seq 0 (r_size m))) (λ st, ∃ cells used nh, st = (cells, used, nh) ∧
    length cells = r_size m ∧ used = Z.of_nat (n_nonempty (seqs cells)) ∧
    ∀ j c, r_cells m !! j = Some c → cells !! j = Some (kept q j c)).
Proof.
  intros Hm. pose proof (rec_cells_wf _ Hm) as [_ Hmax Ht Hk Hu]. eapply okP_mono.
  - apply (okP_for _ (λ i st, ∃ cells used nh, st = (cells, used, nh) ∧ length cells = r_size m ∧ used = Z.of_nat (n_nonempty (seqs cells)) ∧
      ∀ j c, r_cells m !! j = Some c → cells !! j = Some (if decide (j < i) then kept q j c else c))).
    { exists (r_cells m), (r_used m), (r_size m). split; [done|]. split; [done|]. split; [done|]. intros j c Hj. by rewrite decide_False by lia. }
    intros i st Hi (cells & used & nh & -> & Hl & Hus & Hcells). destruct (lookup_lt_is_Some_2 (r_cells m) i Hi) as [c Hc].
    pose proof (Hcells _ _ Hc) as Hc'. rewrite decide_False in Hc' by lia. cbn [rec_keep_cell]. rewrite (vget_ok _ _ _ Hc'), bind_Ok.
    pose proof (Hk _ _ _ (lookup_marks _ _ _ Hc) (lookup_seqs _ _ _ Hc)) as (_ & HM1 & HM2). cbn in HM1, HM2.
    set (c1 := if decide (Z.of_nat i ≠ Z.of_nat q) then set_tail (-1) c else c). assert (m_has c1 (Z.of_nat q) = m_has c (Z.of_nat q)) as -> by (unfold c1; by case_decide).
    assert (m_pos c1 = m_pos c) as -> by (unfold c1; by case_decide).
    assert (∀ d, d = kept q i c → ∀ j c0, r_cells m !! j = Some c0 → <[i := d]> cells !! j = Some (if decide (j < S i) then kept q j c0 else c0)) as Hlook.
    { intros d -> j c0 Hj. destruct (decide (j = i)) as [->|Hne].
      - rewrite list_lookup_insert_eq by lia. rewrite decide_True by lia. by simplify_eq.
      - rewrite list_lookup_insert_ne, (Hcells _ _ Hj) by done. f_equal.
        destruct (decide (j < i)); [by rewrite decide_True by lia|by rewrite decide_False by lia]. }
    pose proof (n_nonempty_insert (seqs cells) i (m_seqs c) (m_seqs (kept q i c)) (lookup_seqs _ _ _ Hc')) as Hn.
    pose proof (n_nonempty_le (seqs cells)) as Hle. rewrite length_seqs in Hle. unfold kept in Hn.
    destruct (m_has c (Z.of_nat q)) eqn:Eh; rewrite vset_ok by lia; rewrite bind_Ok; cbn [okP].
    + assert (Z.of_nat q ∈ m_seqs c) by by apply bool_decide_eq_true_1 in Eh. cbn in Hn. rewrite !bool_decide_true in Hn by set_solver.
      do 3 eexists. split; [done|]. split; [by rewrite length_insert|]. split; [rewrite seqs_insert; cbn; lia|].
      apply Hlook. unfold kept, c1. rewrite Eh. destruct (decide (i ≠ q)); [by rewrite decide_True by lia|by rewrite decide_False by lia].
    + do 3 eexists. split; [done|]. split; [by rewrite length_insert|]. split.
      * rewrite seqs_insert. cbn in Hn |- *. rewrite (bool_decide_false (∅ ≠ ∅)) in Hn by tauto. destruct (decide (m_seqs c = ∅)) as [E|E].
        -- rewrite bool_decide_false in Hn by tauto. rewrite decide_False by (rewrite HM1; lia || done). cbn in Hn. lia.
        -- rewrite bool_decide_true in Hn by done. rewrite decide_True by (by apply HM2). cbn in Hn. unfold u32, INT32_MAX in *. rewrite Z.mod_small; lia.
      * apply Hlook. unfold kept, c1. rewrite Eh. destruct (decide (i ≠ q)); [by rewrite decide_True by lia|by rewrite decide_False by lia].
  - intros st (cells & used & nh & -> & Hl & Hus & Hcells). exists cells, used, nh. split; [done|]. split; [done|]. split; [done|].
    intros j c Hj. rewrite (Hcells _ _ Hj), decide_True; [done|]. by apply lookup_lt_Some in Hj.
Qed.

Lemma kept_tails_ok n T Q T' Q' q : tails_ok n T Q → length T' = n → length Q' = n →
  (∀ j t, T !! j = Some t → T' !! j = Some (if decide (j ≠ q) then (-1)%Z else t)) →
  (∀ j s, Q !! j = Some s → Q' !! j = Some (if decide (Z.of_nat q ∈ s) then {[Z.of_nat q]} else ∅)) →
  tails_ok n T' Q'.
Proof.
  intros [H1 H2 H3 H4 H5] Hl1 Hl2 HT HQ.
  assert (∀ j t', T' !! j = Some t' → ∃ t, T !! j = Some t ∧ t' = if decide (j ≠ q) then (-1)%Z else t) as HT'.
  { intros j t' Hj. destruct (lookup_lt_is_Some_2 T j) as [t Ht]; [apply lookup_lt_Some in Hj; lia|]. exists t. split; [done|].
    rewrite (HT _ _ Ht) in Hj. by injection Hj. }
  assert (∀ j s', Q' !! j = Some s' → ∃ s, Q !! j = Some s ∧ s' = if decide (Z.of_nat q ∈ s) then {[Z.of_nat q]} else ∅) as HQ'.
  { intros j t' Hj. destruct (lookup_lt_is_Some_2 Q j) as [t Ht]; [apply lookup_lt_Some in Hj; lia|]. exists t. split; [done|].
    rewrite (HQ _ _ Ht) in Hj. by injection Hj. }
  split; [done|done|..].
  - intros q' i t' s' (t & Ht & ->)%HT' (s & Hs & ->)%HQ'. pose proof (H3 _ _ _ _ Ht Hs) as H.
    destruct (decide (q' ≠ q)) as [Hne|Heq].
    + destruct (decide (Z.of_nat q ∈ s)); [|split; [set_solver|lia]]. rewrite elem_of_singleton. lia.
    + assert (q' = q) as -> by lia. rewrite <- H. destruct (decide (Z.of_nat q ∈ s)); set_solver.
  - intros i s' q' (s & Hs & ->)%HQ' Hin. destruct (decide (Z.of_nat q ∈ s)) as [Hq|]; [|set_solver].
    apply elem_of_singleton in Hin as ->. by eapply H4.
  - intros q' t' (t & Ht & ->)%HT'. destruct (decide _); [by left|by eapply H5].
Qed.

Lemma rec_seq_keep_ok m q : rec_wf m →
  okP (rec_seq_keep m (Z.of_nat q)) (λ m', rec_wf m' ∧ r_size m' = r_size m ∧
    ∀ q', seq_cell m' q' = if decide (q' = q) then seq_cell m q else None).
Proof.
  intros Hm. pose proof (rec_cells_wf _ Hm) as [_ Hmax Ht Hk Hu]. unfold rec_seq_keep.
  eapply okP_bind; [by apply keep_loop_ok|]. intros st (cells & used & nh & -> & Hl & Hus & Hcells). cbn [okP].
  assert (∀ j c', cells !! j = Some c' → ∃ c, r_cells m !! j = Some c ∧ c' = kept q j c) as Hinv.
  { intros j c' Hj. destruct (lookup_lt_is_Some_2 (r_cells m) j) as [c Hc]; [apply lookup_lt_Some in Hj; unfold r_size in Hl; lia|].
    exists c. split; [done|]. rewrite (Hcells _ _ Hc) in Hj. by injection Hj. }
  split; [|split; [done|]].
  - apply (rec_wf_intro m); [done|done|apply rec_lower_head_lt, (rw_head _ Hm)|..|done].
    + eapply (kept_tails_ok _ _ _ _ _ q Ht); [by rewrite length_tails|by rewrite length_seqs|..].
      * intros j t (c & Hc & <-)%lookup_tails_inv. rewrite (lookup_tails _ _ _ (Hcells _ _ Hc)). f_equal. unfold kept. by destruct (m_has c _).
      * intros j s (c & Hc & <-)%lookup_seqs_inv. rewrite (lookup_seqs _ _ _ (Hcells _ _ Hc)). f_equal. unfold kept, m_has.
        case_bool_decide; cbn [m_seqs]; [by rewrite decide_True|by rewrite decide_False].
    + intros j k s Hj Hs. destruct (lookup_seqs_inv _ _ _ Hs) as (c' & Hc' & <-). rewrite (lookup_marks _ _ _ Hc') in Hj. injection Hj as <-.
      destruct (Hinv _ _ Hc') as (c & Hc & ->). pose proof (Hk _ _ _ (lookup_marks _ _ _ Hc) (lookup_seqs _ _ _ Hc)) as (K1 & K2 & K3).
      unfold kept. destruct (m_has c (Z.of_nat q)) eqn:Eh; [|split; [by left|done]]. apply bool_decide_eq_true_1 in Eh.
      split; [done|]. split; [cbn; set_solver|]. intros _. apply K3. set_solver.
  - intros q'. destruct (decide (q' < r_size m)) as [Hq|Hq].
    + destruct (lookup_lt_is_Some_2 (r_cells m) q' Hq) as [c Hc]. unfold seq_cell, seq_mark. cbn [r_cells].
      rewrite (lookup_tails _ _ _ (Hcells _ _ Hc)). cbn [mbind option_bind].
      assert (m_tail (kept q q' c) = if decide (q' ≠ q) then (-1)%Z else m_tail c) as -> by (unfold kept; by destruct (m_has c _)).
      destruct (decide (q' = q)) as [->|Hne]; [|by rewrite (decide_True (P := q' ≠ q)) by done].
      rewrite (decide_False (P := q ≠ q)) by tauto. rewrite (lookup_tails _ _ _ Hc). cbn [mbind option_bind].
      destruct (decide (0 ≤ m_tail c)%Z) as [Hpos|]; [|done].
      destruct (tails_ok_tail _ _ _ _ _ Ht (lookup_tails _ _ _ Hc) Hpos) as (s & (d & Hd & <-)%lookup_seqs_inv & Hin & _).
      rewrite (lookup_marks _ _ _ Hd), (lookup_marks _ _ _ (Hcells _ _ Hd)). unfold kept, m_has. by rewrite bool_decide_true.
    + assert (∀ cells', length cells' = r_size m → seq_mark (tails cells') (marks cells') q' = None) as Hnone.
      { intros cells' Hl'. unfold seq_mark. rewrite (lookup_ge_None_2 (tails cells')); [done|]. rewrite length_tails. lia. }
      unfold seq_cell. rewrite Hnone by done. destruct (decide (q' = q)) as [<-|]; [|done]. by rewrite Hnone.
Qed.

(** *** seq_add, seq_div *)

(** the sequences have the same cell *)
Definition same_cell (m : rec_mem) (q q' : nat) : Prop := tails (r_cells m) !! q = tails (r_cells m) !! q'.
#[export] Instance same_cell_dec m q q' : Decision (same_cell m q q').
Proof. unfold same_cell. apply _. Defined.

Definition moved (f : Z → res Z) (k : Z * Z) : option (Z * Z) := match f k.1 with Ok p => Some (p, k.2) | Err _ => None end.

Lemma rec_move_ok m q p0 p1 f : rec_wf m → q < r_size m →
  (∀ k, seq_cell m q = Some k → hit p0 p1 (Some k) = true → okP (f k.1) (λ p, 0 ≤ p ≤ INT32_MAX)%Z) →
  okP (rec_move m (Z.of_nat q) p0 p1 f) (λ m', rec_wf m' ∧ r_size m' = r_size m ∧ r_head m' = r_head m ∧
    ∀ q', seq_cell m' q' = if decide (hit p0 p1 (seq_cell m q) = true ∧ same_cell m q q') then seq_cell m q ≫= moved f else seq_cell m q').
Proof.
  intros Hm Hq Hf. pose proof (rec_cells_wf _ Hm) as Hw. unfold rec_move. cbv zeta.
  assert (hit p0 p1 (seq_cell m q) = false → okP (Ok m) (λ m', rec_wf m' ∧ r_size m' = r_size m ∧ r_head m' = r_head m ∧
    ∀ q', seq_cell m' q' = if decide (hit p0 p1 (seq_cell m q) = true ∧ same_cell m q q') then seq_cell m q ≫= moved f else seq_cell m q')) as Hsame.
  { intros Hh. cbn [okP]. split; [done|]. split; [done|]. split; [done|]. intros q'. rewrite decide_False; [done|]. rewrite Hh. by intros [? _]. }
  destruct (decide (norm_p0 p0 = norm_p1 p1)) as [E|E].
  { apply Hsame. destruct (seq_cell m q) as [k|]; [|done]. cbn. apply bool_decide_false. lia. }
  rewrite decide_True by lia. rewrite Nat2Z.id. destruct (cells_tail _ _ _ q Hw Hq) as (c & Hc & Hct). rewrite (vget_ok _ _ _ Hc), bind_Ok.
  change (cell_of (r_cells m) q) with (seq_cell m q) in Hct.
  destruct Hct as [[Et Hnone]|(i & d & Hi & Hti & Hd & Hin & Hcell)].
  { rewrite decide_False by lia. apply Hsame. by rewrite Hnone. }
  rewrite decide_True by lia. rewrite Hti, Nat2Z.id. rewrite (vget_ok _ _ _ Hd), bind_Ok.
  assert (m_has d (Z.of_nat q) = true) as Hhas by by apply bool_decide_eq_true_2.
  destruct (decide (m_has d (Z.of_nat q) = true ∧ (norm_p0 p0 ≤ m_pos d < norm_p1 p1)%Z)) as [[_ Hr]|Hr].
  2: { apply Hsame. rewrite Hcell. apply bool_decide_false. cbn. tauto. }
  rewrite Hcell in Hf |- *. specialize (Hf _ eq_refl). cbn [hit fst] in Hf. specialize (Hf (bool_decide_eq_true_2 _ Hr)).
  unfold moved. cbn [fst snd mbind option_bind] in *. destruct (f (m_pos d)) as [p|] eqn:Ef; [|done]. cbn [okP] in Hf. rewrite bind_Ok.
  rewrite vset_ok by (by apply lookup_lt_Some in Hd). rewrite bind_Ok. cbn [okP].
  set (cells' := <[i := set_mpos p d]> (r_cells m)).
  assert (has_parts cells' (tails (r_cells m)) (seqs (r_cells m)) (<[i := (p, m_src d)]> (marks (r_cells m)))) as (P1 & P2 & P3).
  { unfold has_parts, cells'. rewrite tails_insert, seqs_insert, marks_insert. cbn.
    by rewrite !list_insert_id by (by apply lookup_tails || by apply lookup_seqs). }
  split; [|split; [unfold r_size; cbn; apply length_insert|split; [done|]]].
  - apply (cells_rec_wf m); [done|apply (rw_head _ Hm)|]. destruct Hw as [Hl Hmax Ht Hk Hu]. split.
    + unfold cells'. by rewrite length_insert.
    + done.
    + by rewrite P1, P2.
    + rewrite P2, P3. intros j k s [[<- [<- _]]|[? Hj]]%list_lookup_insert_Some Hs; [|by eapply Hk].
      rewrite (lookup_seqs _ _ _ Hd) in Hs. injection Hs as <-. destruct (Hk _ _ _ (lookup_marks _ _ _ Hd) (lookup_seqs _ _ _ Hd)) as (K1 & K2 & K3).
      split; [done|]. split; [set_solver|done].
    + by rewrite P2.
  - intros q'. unfold hit. rewrite (bool_decide_true (_ ≤ _ < _)%Z) by done. pose proof (lookup_tails _ _ _ Hc) as HT. rewrite Hti in HT.
    unfold seq_cell, seq_mark. cbn [r_cells]. rewrite P1, P3.
    destruct (decide (true = true ∧ same_cell m q q')) as [[_ Hs]|Hne]; unfold same_cell in *; rewrite HT in *.
    + rewrite <- Hs. cbn [mbind option_bind]. rewrite decide_True by lia. rewrite Nat2Z.id, list_lookup_insert_eq; [done|].
      rewrite length_marks. by apply lookup_lt_Some in Hd.
    + destruct (tails (r_cells m) !! q') as [t|] eqn:Et; [|done]. cbn [mbind option_bind]. destruct (decide (0 ≤ t)%Z); [|done].
      apply list_lookup_insert_ne. intros ->. apply Hne. split; [done|]. f_equal. by rewrite Z2Nat.id.
Qed.

(** *** seq_pos_min, seq_pos_max *)

(** A fold in which one element only matters. *)
Lemma foldl_one {A B} (f : B → A → B) (l : list A) i r : (∀ j c r, l !! j = Some c → j ≠ i → f r c = r) →
  foldl f r l = match l !! i with Some c => f r c | None => r end.
Proof.
  revert i r. induction l as [|x l IH]; intros i r H; [done|]. cbn [foldl]. destruct i as [|i].
  - cbn. rewrite (IH (length l)).
    + by rewrite lookup_ge_None_2.
    + intros j c r' Hj _. by apply (H (S j) c r').
  - rewrite (H 0 x r) by done. cbn. apply IH. intros j c r' Hj Hne. apply (H (S j)); [done|lia].
Qed.

Lemma pos_fold_ok m q (g : Z → Z → Z) r : rec_wf m →
  foldl (λ r c, if m_has c (Z.of_nat q) then g r (m_pos c) else r) r (r_cells m) =
    match seq_cell m q with Some k => g r k.1 | None => r end.
Proof.
  intros Hm. pose proof (rec_cells_wf _ Hm) as Hw. destruct (decide (q < r_size m)) as [Hq|Hq].
  - destruct (cells_tail _ _ _ q Hw Hq) as (c & Hc & Hct). change (cell_of (r_cells m) q) with (seq_cell m q) in Hct.
    destruct Hct as [[Et ->]|(i & d & Hi & Hti & Hd & Hin & ->)].
    + rewrite (foldl_one _ _ (r_size m)); [by rewrite lookup_ge_None_2|]. intros j d r' Hj _. destruct (m_has d _) eqn:Eh; [|done].
      pose proof (has_only m Hm q c j d Hc Hj Eh). lia.
    + rewrite (foldl_one _ _ i).
      * rewrite Hd. unfold m_has. by rewrite bool_decide_true.
      * intros j d' r' Hj Hne. destruct (m_has d' _) eqn:Eh; [|done]. pose proof (has_only m Hm q c j d' Hc Hj Eh). lia.
  - assert (seq_cell m q = None) as ->. { unfold seq_cell, seq_mark. rewrite (lookup_ge_None_2 (tails _)); [done|]. rewrite length_tails. unfold r_size in Hq. lia. }
    rewrite (foldl_one _ _ (r_size m)); [by rewrite lookup_ge_None_2|]. intros j d r' Hj _. destruct (m_has d _) eqn:Eh; [|done].
    apply bool_decide_eq_true_1 in Eh. pose proof (to_dom _ _ _ (rw_tails _ Hm) _ _ _ (lookup_seqs _ _ _ Hj) Eh). lia.
Qed.

Lemma seq_cell_range m q k : rec_wf m → seq_cell m q = Some k → (0 ≤ k.1 ≤ INT32_MAX)%Z.
Proof.
  intros Hm Hk. pose proof (rec_cells_wf _ Hm) as Hw. assert (q < r_size m) as Hq.
  { unfold seq_cell, seq_mark in Hk. destruct (tails (r_cells m) !! q) eqn:E; [|done]. apply lookup_lt_Some in E. by rewrite length_tails in E. }
  destruct (cells_tail _ _ _ q Hw Hq) as (c & Hc & [[_ E]|(i & d & Hi & Hti & Hd & Hin & E)]); unfold cell_of in E; fold (seq_cell m q) in E; rewrite E in Hk; [done|].
  injection Hk as <-. destruct (rw_marks _ Hm _ _ _ (lookup_marks _ _ _ Hd) (lookup_seqs _ _ _ Hd)) as (_ & _ & H). apply H. set_solver.
Qed.

Lemma rec_pos_ok m q : rec_wf m →
  rec_pos_max m (Z.of_nat q) = match seq_cell m q with Some k => k.1 | None => (-1)%Z end ∧
  rec_pos_min m (Z.of_nat q) = match seq_cell m q with Some k => if decide (k.1 = INT32_MAX) then (-1)%Z else k.1 | None => (-1)%Z end.
Proof.
  intros Hm. unfold rec_pos_max, rec_pos_min. rewrite (pos_fold_ok m q Z.max) by done. cbv zeta. rewrite (pos_fold_ok m q Z.min) by done.
  destruct (seq_cell m q) as [k|] eqn:E; [|by rewrite decide_True]. pose proof (seq_cell_range _ _ _ Hm E). split; [lia|].
  rewrite Z.min_r by lia. done.
Qed.

(** *** clear *)
Lemma tails_empty_ok n : tails_ok n (replicate n (-1)%Z) (replicate n ∅).
Proof.
  split; [apply length_replicate..| | |].
  - intros q i t s [-> _]%lookup_replicate [-> _]%lookup_replicate. split; [set_solver|lia].
  - intros i s q [-> _]%lookup_replicate. set_solver.
  - intros q t [-> _]%lookup_replicate. by left.
Qed.

Lemma fmap_const {A B} (b : B) (l : list A) : (λ _, b) <$> l = replicate (length l) b.
Proof. induction l as [|x l IH]; [done|]. rewrite fmap_cons, IH. done. Qed.

Lemma rec_clear_ok m : 0 < r_size m → (Z.of_nat (r_size m) ≤ INT32_MAX)%Z →
  rec_wf (rec_clear m) ∧ r_size (rec_clear m) = r_size m ∧ ∀ q, seq_cell (rec_clear m) q = None.
Proof.
  intros Hs Hmax. assert (r_size (rec_clear m) = r_size m) as Hsz by (unfold r_size; cbn; apply length_fmap).
  assert (tails (r_cells (rec_clear m)) = replicate (r_size m) (-1)%Z) as HT.
  { unfold tails. cbn. rewrite <- list_fmap_compose. apply (fmap_const (-1)%Z). }
  assert (seqs (r_cells (rec_clear m)) = replicate (r_size m) ∅) as HQ.
  { unfold seqs. cbn. rewrite <- list_fmap_compose. apply (fmap_const (∅ : gset Z)). }
  assert (marks (r_cells (rec_clear m)) = replicate (r_size m) (-1, -1)%Z) as HK.
  { unfold marks. cbn. rewrite <- list_fmap_compose. apply (fmap_const (-1, -1)%Z). }
  split; [split|split; [done|]]; rewrite ?Hsz; try done.
  - rewrite HT, HQ. apply tails_empty_ok.
  - rewrite HQ, HK. intros i k s [-> _]%lookup_replicate [-> _]%lookup_replicate. split; [by left|done].
  - rewrite HQ. unfold n_nonempty. rewrite filter_none; [done|]. intros s [-> _]%elem_of_replicate. tauto.
  - intros q. unfold seq_cell, seq_mark. rewrite HT. destruct (replicate (r_size m) (-1)%Z !! q) as [t|] eqn:E; [|done].
    by apply lookup_replicate in E as [-> _].
Qed.

(** ** The sequence operations *)

Lemma div_ok k d : (0 ≤ k ≤ INT32_MAX)%Z → (0 < d)%Z →
  okP (if decide (d = 0)%Z then Err DivByZero else if in_i32 (k ÷ d) then Ok (k ÷ d)%Z else Err Overflow) (λ p, 0 ≤ p ≤ INT32_MAX)%Z.
Proof.
  intros Hk Hd. rewrite decide_False by lia. rewrite Z.quot_div_nonneg by lia.
  assert (0 ≤ k / d ≤ INT32_MAX)%Z. { split; [apply Z.div_pos; lia|]. apply (Z.le_trans _ k); [apply Z.div_le_upper_bound; nia|lia]. }
  unfold in_i32, INT32_MIN. rewrite bool_decide_true by (unfold INT32_MAX in *; lia). done.
Qed.

Lemma rec_seq_add_ok m q p0 p1 shift : rec_wf m → q < r_size m →
  (∀ k, seq_cell m q = Some k → hit p0 p1 (Some k) = true → (0 ≤ k.1 + shift ≤ INT32_MAX)%Z) →
  okP (rec_seq_add m (Z.of_nat q) p0 p1 shift) (λ m', rec_wf m' ∧ r_size m' = r_size m ∧
    ∀ q', seq_cell m' q' = if decide (hit p0 p1 (seq_cell m q) = true ∧ same_cell m q q') then (λ k, (k.1 + shift, k.2)%Z) <$> seq_cell m q else seq_cell m q').
Proof.
  intros Hm Hq Hs. unfold rec_seq_add. destruct (decide (shift = 0)%Z) as [->|Hne].
  - cbn [okP]. split; [done|]. split; [done|]. intros q'. destruct (decide (hit p0 p1 (seq_cell m q) = true ∧ same_cell m q q')) as [[_ E]|]; [|done]. unfold same_cell in E. unfold seq_cell at 1, seq_mark. rewrite <- E.
    change (seq_cell m q = (λ k : Z * Z, ((k.1 + 0)%Z, k.2)) <$> seq_cell m q). destruct (seq_cell m q) as [[k s]|]; [|done]. cbn. by rewrite Z.add_0_r.
  - assert (∀ k, seq_cell m q = Some k → hit p0 p1 (Some k) = true → i32_add k.1 shift = Ok (k.1 + shift)%Z) as Hadd.
    { intros k Hk Hh. apply i32_add_ok. unfold INT32_MIN. specialize (Hs k Hk Hh). lia. }
    eapply okP_mono; [apply rec_move_ok; [done|done|]|].
    + intros k Hk Hh. rewrite (Hadd k Hk Hh). by apply (Hs k).
    + intros m' (H1 & H2 & _ & H3). split; [done|]. split; [done|]. intros q'. rewrite H3. destruct (decide (hit p0 p1 (seq_cell m q) = true ∧ same_cell m q q')) as [[Hh _]|]; [|done].
      destruct (seq_cell m q) as [k|] eqn:E; [|done]. cbn [mbind option_bind]. unfold moved. by rewrite (Hadd k).
Qed.

Lemma rec_seq_div_ok m q p0 p1 d : rec_wf m → q < r_size m → (0 < d)%Z →
  okP (rec_seq_div m (Z.of_nat q) p0 p1 d) (λ m', rec_wf m' ∧ r_size m' = r_size m ∧
    ∀ q', seq_cell m' q' = if decide (hit p0 p1 (seq_cell m q) = true ∧ same_cell m q q') then (λ k, (k.1 / d, k.2)%Z) <$> seq_cell m q else seq_cell m q').
Proof.
  intros Hm Hq Hd. unfold rec_seq_div. destruct (decide (d = 1)%Z) as [->|Hne].
  - cbn [okP]. split; [done|]. split; [done|]. intros q'. destruct (decide (hit p0 p1 (seq_cell m q) = true ∧ same_cell m q q')) as [[_ E]|]; [|done]. unfold same_cell in E. unfold seq_cell at 1, seq_mark. rewrite <- E.
    change (seq_cell m q = (λ k : Z * Z, ((k.1 / 1)%Z, k.2)) <$> seq_cell m q). destruct (seq_cell m q) as [[k s]|]; [|done]. cbn. by rewrite Z.div_1_r.
  - eapply okP_mono; [apply rec_move_ok; [done|done|]|].
    + intros k Hk Hh. apply div_ok; [by eapply seq_cell_range|done].
    + intros m' (H1 & H2 & _ & H3). split; [done|]. split; [done|]. intros q'. rewrite H3. destruct (decide (hit p0 p1 (seq_cell m q) = true ∧ same_cell m q q')) as [[Hh _]|]; [|done].
      destruct (seq_cell m q) as [k|] eqn:E; [|done]. cbn [mbind option_bind]. unfold moved.
      pose proof (seq_cell_range _ _ _ Hm E) as Hk. pose proof (div_ok k.1 d Hk Hd) as Hok.
      rewrite decide_False in Hok |- * by lia. destruct (in_i32 (k.1 ÷ d)); [|done]. cbn. by rewrite Z.quot_div_nonneg by lia.
Qed.

(** C20. The memory is a map from sequences to the position and the source of the state they have, some of
    them in a common cell: every operation on a sequence (not on all of them at once, with the id -1) keeps the
    invariant and changes that map as follows.
    [seq_rm] drops the state of the sequence if its position is in the range.  It refuses a range that starts behind
    the beginning and contains the position, and an id that is too large; any other range that does not contain the
    position, also one that is a beginning of the sequence, it accepts and removes nothing.  [seq_cp] gives the destination the
    state of the source, none if it has none; [seq_keep] drops all other sequences; [seq_add] and [seq_div]
    move the position of the common cell, for all of its sequences, if it stays in range; the position of a sequence
    is both its smallest and its largest one. *)
Theorem rec_seq_ops_correct m : rec_wf m →
  (∀ q p0 p1, okP (rec_seq_rm m (Z.of_nat q) p0 p1) (λ r, rec_wf r.1 ∧
    r.2 = negb (bool_decide (r_size m ≤ q ∨ hit p0 p1 (seq_cell m q) = true ∧ (0 < norm_p0 p0)%Z)) ∧
    ∀ q', seq_cell r.1 q' = if decide (r.2 = true ∧ q' = q ∧ hit p0 p1 (seq_cell m q) = true) then None else seq_cell m q')) ∧
  (∀ src dst p0 p1, src < r_size m → dst < r_size m → okP (rec_seq_cp m (Z.of_nat src) (Z.of_nat dst) p0 p1) (λ m', rec_wf m' ∧
    ∀ q, seq_cell m' q = if decide (q = dst) then seq_cell m src else seq_cell m q)) ∧
  (∀ q, okP (rec_seq_keep m (Z.of_nat q)) (λ m', rec_wf m' ∧ ∀ q', seq_cell m' q' = if decide (q' = q) then seq_cell m q else None)) ∧
  (∀ q p0 p1 shift, q < r_size m → (∀ k, seq_cell m q = Some k → hit p0 p1 (Some k) = true → (0 ≤ k.1 + shift ≤ INT32_MAX)%Z) →
    okP (rec_seq_add m (Z.of_nat q) p0 p1 shift) (λ m', rec_wf m' ∧ ∀ q', seq_cell m' q' =
      if decide (hit p0 p1 (seq_cell m q) = true ∧ same_cell m q q') then (λ k, (k.1 + shift, k.2)%Z) <$> seq_cell m q else seq_cell m q')) ∧
  (∀ q p0 p1 d, q < r_size m → (0 < d)%Z → okP (rec_seq_div m (Z.of_nat q) p0 p1 d) (λ m', rec_wf m' ∧ ∀ q', seq_cell m' q' =
    if decide (hit p0 p1 (seq_cell m q) = true ∧ same_cell m q q') then (λ k, (k.1 / d, k.2)%Z) <$> seq_cell m q else seq_cell m q')) ∧
  (∀ q, rec_pos_max m (Z.of_nat q) = match seq_cell m q with Some k => k.1 | None => (-1)%Z end) ∧
  (∀ q, match seq_cell m q with Some k => k.1 ≠ INT32_MAX | None => True end → rec_pos_min m (Z.of_nat q) = rec_pos_max m (Z.of_nat q)) ∧
  (rec_wf (rec_clear m) ∧ ∀ q, seq_cell (rec_clear m) q = None).
Proof.
  intros Hm. split; [|split; [|split; [|split; [|split; [|split; [|split]]]]]].
  - intros q p0 p1. eapply okP_mono; [by apply rec_seq_rm_ok|]. by intros r (H1 & _ & H2 & H3).
  - intros src dst p0 p1 Hs Hd. eapply okP_mono; [by apply rec_seq_cp_ok|]. by intros r (H1 & _ & _ & H3).
  - intros q. eapply okP_mono; [by apply rec_seq_keep_ok|]. by intros r (H1 & _ & H3).
  - intros q p0 p1 shift Hq Hs. eapply okP_mono; [by apply rec_seq_add_ok|]. by intros r (H1 & _ & H3).
  - intros q p0 p1 d Hq Hd. eapply okP_mono; [by apply rec_seq_div_ok|]. by intros r (H1 & _ & H3).
  - intros q. by apply rec_pos_ok.
  - intros q Hk. destruct (rec_pos_ok m q Hm) as [-> ->]. destruct (seq_cell m q); [|done]. by rewrite decide_False.
  - destruct (rec_clear_ok m) as (H1 & _ & H2); [apply (rw_size _ Hm)..|]. done.
Qed.

(** cells 0 and 1 in use, the first one by the sequences 0 and 2 *)
Definition ex_shared : rec_mem := RecMem 0 2 2 (-1) [MemCell 5 0 0 0 {[0; 2]}; MemCell 3 1 1 1 {[1]}; MemCell (-1) (-1) (-1) 0 ∅]%Z.

Lemma ex_shared_wf : rec_wf ex_shared.
Proof.
  split.
  - unfold r_size, INT32_MAX. cbn. lia.
  - unfold r_size. cbn. lia.
  - split; [done|done|..].
    + intros [|[|[|q]]] [|[|[|i]]] t s; cbn; intros [= <-] [= <-]; set_solver by lia.
    + intros [|[|[|i]]] s q; cbn; intros [= <-]; unfold r_size; cbn; set_solver by lia.
    + intros [|[|[|q]]] t; cbn; intros [= <-]; unfold r_size; cbn; lia.
  - intros [|[|[|i]]] k s; cbn; intros [= <-] [= <-]; unfold mark_ok, INT32_MAX; cbn; (split; [lia|]); split; intros H; try lia; set_solver.
  - vm_compute. reflexivity.
Qed.

(** the first three positions of a sequence are said to be removed, but nothing changes *)
Example rec_rm_prefix_ignored : rec_seq_rm ex_shared 0 0 3 = Ok (ex_shared, true).
Proof. reflexivity. Qed.

Lemma rec_seq_ops_correct_witness : rec_wf ex_shared ∧
  okP (rec_seq_cp ex_shared 1 2 (-1) (-1)) (λ m', rec_wf m' ∧ seq_cell m' 2 = Some (3, 1)%Z) ∧ rec_pos_max ex_shared 2 = 5%Z.
Proof.
  split; [exact ex_shared_wf|]. pose proof (rec_seq_ops_correct ex_shared ex_shared_wf) as (_ & Hcp & _ & _ & _ & Hmax & _). split.
  - eapply okP_mono; [apply (Hcp 1 2 (-1)%Z (-1)%Z); unfold r_size; cbn; lia|]. intros m' [Hw Hq]. split; [done|]. by rewrite Hq.
  - exact (Hmax 2).
Defined.

(** ** find_slot: what is proved of it *)

Section find_slot.
Context {A : Type} (zero : A).
Implicit Types data : nat → A.

(** the state that a cell with this source has *)
Definition src_val data (s : Z) : A := if decide (s < 0)%Z then zero else data (Z.to_nat s).
Definition mark_val data (k : Z * Z) : Z * A := (k.1, src_val data k.2).

(** The memory as a map from sequences to positions and states. *)
Definition rec_view (m : rec_mem) data (q : nat) : option (Z * A) := mark_val data <$> seq_cell m q.

(** An empty cell has the empty state. *)
Definition rec_clean (m : rec_mem) data : Prop :=
  ∀ i c, r_cells m !! i = Some c → m_seqs c = ∅ → src_val data (m_src c) = zero.

(** The micro-batch has the sequence sets [L], which end at the positions [ps]. *)
Record rec_fits (u : llama_ubatch) (L : list (list nat)) (ps : list Z) : Prop := {
  rf_equal : equal_seqs u = true;
  rf_n : n_seqs u = length L;
  rf_some : L ≠ [];
  rf_len : length ps = length L;
  rf_ids : ∀ s ids, L !! s = Some ids → set_ids u s = Ok (Z.of_nat <$> ids);
  rf_primary : ∀ s ids, L !! s = Some ids → ∃ q ids', ids = q :: ids' ∧ primary u s = Ok (Z.of_nat q);
  rf_last : ∀ s p, ps !! s = Some p → u_pos u !! (first_token u s + n_seq_tokens u - 1) = Some p;
  rf_pos : ∀ p, p ∈ ps → (0 ≤ p ≤ INT32_MAX)%Z;
  rf_nodup : NoDup (concat L)
}.

(** *** The ids of the sets *)

(** A property of the sources of the empty cells. *)
Definition empties (R : Z → Prop) (cells : mem_cells) : Prop :=
  ∀ i k, marks cells !! i = Some k → seqs cells !! i = Some ∅ → R k.2.

Lemma release_empties (R : Z → Prop) n cells used q i c d : R (-1)%Z → empties R cells → cells_wf n cells used → cells !! q = Some c →
  m_tail c = Z.of_nat i → cells !! i = Some d → okP (release cells used (Z.of_nat q) i) (λ r, empties R r.1).
Proof.
  intros HR He [_ _ Ht _ _] Hc Hct Hd. pose proof (lookup_tails _ _ _ Hc) as HT. rewrite Hct in HT. pose proof (lookup_seqs _ _ _ Hd) as HQ.
  eapply okP_mono; [by apply (release_ok n _ _ q i (m_seqs d))|]. intros [cells' used'] (P1 & P2 & P3 & _). cbn [fst snd] in *.
  intros j k. rewrite P2, P3. intros Hk [[<- [E _]]|[Hne Hs]]%list_lookup_insert_Some.
  - unfold freed in Hk. rewrite decide_True in Hk by done. by apply list_lookup_insert_Some in Hk as [[_ [<- _]]|[? _]].
  - apply (He j); [|done]. unfold freed in Hk. case_decide; [|done]. by rewrite list_lookup_insert_ne in Hk.
Qed.

(** [D] are the sequences that were taken out of their cells so far *)
Record dropped (n : nat) (R : Z → Prop) (cells0 : mem_cells) (D : list nat) (cells : mem_cells) (used : Z) : Prop := {
  dr_wf : cells_wf n cells used;
  dr_empties : empties R cells;
  dr_gone : ∀ q, q ∈ D → tails cells !! q = Some (-1)%Z;
  dr_same : ∀ q, q ∉ D → cell_of cells q = cell_of cells0 q
}.

Lemma check_id_ok n R cells0 D cells used j q : R (-1)%Z → q < n → dropped n R cells0 D cells used →
  okP (check_id (cells, used, true) (j, Z.of_nat q)) (λ st, st.2 = true ∧ dropped n R cells0 (if decide (0 < j) then D ++ [q] else D) st.1.1 st.1.2).
Proof.
  intros HR Hq [Hw He Hg Hs]. unfold check_id. cbn [negb]. pose proof (cw_length _ _ _ Hw) as Hl.
  rewrite decide_False by lia. destruct (decide (0 < j)) as [Hj|]; [|done]. rewrite Nat2Z.id.
  destruct (cells_tail _ _ _ q Hw Hq) as (c & Hc & Hct). rewrite (vget_ok _ _ _ Hc), bind_Ok.
  destruct Hct as [[E Hnone]|(i & d & Hi & Hti & Hd & Hin & Hcell)].
  - rewrite decide_False by lia. cbn [okP fst snd]. split; [done|]. split; [done|done| |].
    + intros q' [Hq'|Hq']%elem_of_app; [by apply Hg|]. apply list_elem_of_singleton in Hq' as ->. by rewrite (lookup_tails _ _ _ Hc), E.
    + intros q' Hq'. apply Hs. set_solver.
  - rewrite decide_True by lia. rewrite Hti, Nat2Z.id. eapply okP_bind; [apply okP_and; [by apply (release_wf n _ _ q i c d)|by apply (release_empties R n _ _ q i c d)]|].
    intros [cells' used'] [(H1 & H2 & H3 & H4 & _) H5]. cbn [okP fst snd] in *. split; [done|]. split; [done|done| |].
    + intros q' [Hq'|Hq']%elem_of_app; [|by apply list_elem_of_singleton in Hq' as ->].
      destruct (decide (q' = q)) as [->|]; [done|]. destruct (H3 q') as [_ ->]; [done|]. by apply Hg.
    + intros q' Hq'. destruct (H3 q') as [-> _]; [set_solver|]. apply Hs. set_solver.
Qed.

Lemma check_set_ok n R cells0 D cells used u s ids : R (-1)%Z → set_ids u s = Ok (Z.of_nat <$> ids) → (∀ q, q ∈ ids → q < n) →
  dropped n R cells0 D cells used →
  okP (check_set u (cells, used, true) s) (λ st, st.2 = true ∧ dropped n R cells0 (D ++ tail ids) st.1.1 st.1.2).
Proof.
  intros HR Hids Hlt Hd. unfold check_set. cbn [negb snd]. rewrite Hids, bind_Ok.
  eapply okP_mono; [apply (okP_foldM _ (λ pre st, st.2 = true ∧ dropped n R cells0 (D ++ tail (take (length pre) ids)) st.1.1 st.1.2))|].
  - split; [done|]. cbn [length take tail]. by rewrite app_nil_r.
  - intros pre [j z] post st Hl [Hst Hdr]. destruct st as [[cells1 used1] ok]. cbn [fst snd] in *. subst ok.
    assert (zip (seq 0 (length (Z.of_nat <$> ids))) (Z.of_nat <$> ids) !! length pre = Some (j, z)) as Hlk.
    { rewrite Hl. by apply list_lookup_middle. }
    apply lookup_zip_Some in Hlk as [Hj Hz]. apply lookup_seq in Hj as [Hj _]. cbn in Hj. subst j. rewrite list_lookup_fmap in Hz.
    destruct (ids !! length pre) as [q|] eqn:Eq; [|done]. injection Hz as <-. rewrite length_app, Nat.add_1_r.
    eapply okP_mono; [apply check_id_ok; [done|apply Hlt; by eapply list_elem_of_lookup_2|exact Hdr]|]. intros st' [H1 H2]. split; [done|].
    rewrite (take_S_r _ _ _ Eq). destruct (decide (0 < length pre)) as [Hp|Hp].
    + destruct ids as [|q0 ids]; [done|]. destruct pre as [|x pre]; [cbn in Hp; lia|]. cbn [length take tail app] in *. by rewrite <- app_assoc in H2.
    + destruct pre as [|x pre]; [|cbn in Hp; lia]. exact H2.
  - intros st. rewrite length_zip_with, length_seq, length_fmap, Nat.min_id, take_ge by done. done.
Qed.

Lemma check_sets_ok m R u L ps : R (-1)%Z → rec_wf m → empties R (r_cells m) → rec_fits u L ps → (∀ q, q ∈ concat L → q < r_size m) →
  okP (foldM (check_set u) (r_cells m, r_used m, true) (seq 0 (n_seqs u))) (λ st, st.2 = true ∧
    dropped (r_size m) R (r_cells m) (concat (tail <$> L)) st.1.1 st.1.2).
Proof.
  intros HR Hm He Hu Hlt. rewrite (rf_n _ _ _ Hu).
  eapply okP_mono; [apply (okP_for _ (λ s st, st.2 = true ∧ dropped (r_size m) R (r_cells m) (concat (tail <$> take s L)) st.1.1 st.1.2))|].
  - split; [done|]. split; [by apply rec_cells_wf|done|cbn; set_solver|done].
  - intros s [[cells used] ok] Hs [Hok Hd]. cbn [fst snd] in *. subst ok. destruct (lookup_lt_is_Some_2 _ _ Hs) as [ids Hids].
    rewrite (take_S_r _ _ _ Hids), fmap_app, concat_app. cbn [fmap list_fmap concat]. rewrite app_nil_r.
    apply check_set_ok; [done|by apply (rf_ids _ _ _ Hu)| |done]. intros q Hq. apply Hlt, elem_of_concat. exists ids. split; [|done]. by eapply list_elem_of_lookup_2.
  - intros st. by rewrite take_ge.
Qed.
End find_slot.

(** *** Searching around the ring of cells *)

Definition wrap (n x : nat) : nat := if decide (n ≤ x) then x - n else x.

Lemma wrap_lt n b o : b < n → o < n → wrap n (b + o) < n.
Proof. unfold wrap. case_decide; lia. Qed.

Lemma wrap_succ n b o : b < n → S o < n → wrap n (wrap n (b + o) + 1) = wrap n (b + S o).
Proof. unfold wrap. repeat case_decide; lia. Qed.

Lemma wrap_inj n b o o' : b < n → o < n → o' < n → wrap n (b + o) = wrap n (b + o') → o = o'.
Proof. unfold wrap. repeat case_decide; lia. Qed.

Lemma wrap_surj n b i : b < n → i < n → ∃ o, o < n ∧ i = wrap n (b + o).
Proof.
  intros Hb Hi. destruct (decide (b ≤ i)).
  - exists (i - b). unfold wrap. split; [lia|]. case_decide; lia.
  - exists (n + i - b). unfold wrap. split; [lia|]. case_decide; lia.
Qed.

Lemma vget_empty cells i s : seqs cells !! i = Some s → ∃ c, vget cells i = Ok c ∧ m_empty c = bool_decide (s = ∅).
Proof. intros (c & Hc & <-)%lookup_seqs_inv. exists c. by rewrite (vget_ok _ _ _ Hc). Qed.

(** The search finds the first empty cell at or after the offset [o], if there is one. *)
Lemma next_empty_first cells b o o' k x : b < length cells → wrap (length cells) x = wrap (length cells) (b + o) →
  o ≤ o' < length cells → seqs cells !! wrap (length cells) (b + o') = Some ∅ →
  (∀ j s, o ≤ j < o' → seqs cells !! wrap (length cells) (b + j) = Some s → s ≠ ∅) → o' < o + k →
  next_empty k cells x = Ok (wrap (length cells) (b + o')).
Proof.
  intros Hb Hx Ho He Hne Hk. revert o x Hx Ho Hne Hk. induction k as [|k IH]; intros o x Hx Ho Hne Hk; [lia|].
  cbn [next_empty]. change (if decide (length cells ≤ x) then x - length cells else x) with (wrap (length cells) x). rewrite Hx.
  destruct (lookup_lt_is_Some_2 (seqs cells) (wrap (length cells) (b + o))) as [s Hs]; [rewrite length_seqs; apply wrap_lt; lia|].
  destruct (vget_empty _ _ _ Hs) as (c & -> & Hc). rewrite bind_Ok, Hc. destruct (decide (o = o')) as [->|Hno].
  - rewrite He in Hs. injection Hs as <-. by rewrite bool_decide_true.
  - rewrite bool_decide_false by (apply (Hne o); [lia|done]). apply (IH (S o)); [apply wrap_succ; lia|lia| |lia].
    intros j s' Hj. apply Hne. lia.
Qed.

Lemma next_empty_total cells k x : 0 < length cells → x ≤ length cells → okP (next_empty k cells x) (λ _, True).
Proof.
  intros Hl. revert x. induction k as [|k IH]; intros x Hx; [done|]. cbn [next_empty].
  set (y := if decide (length cells ≤ x) then _ else _). assert (y < length cells) as Hy by (unfold y; case_decide; lia).
  destruct (lookup_lt_is_Some_2 cells y Hy) as [c Hc]. rewrite (vget_ok _ _ _ Hc), bind_Ok. destruct (m_empty c); [done|]. apply IH. lia.
Qed.

Lemma following_empty_first cells b o o' k : b < length cells → o < o' < length cells → seqs cells !! wrap (length cells) (b + o') = Some ∅ →
  (∀ j s, o < j < o' → seqs cells !! wrap (length cells) (b + j) = Some s → s ≠ ∅) → o' ≤ o + k →
  following_empty k cells (wrap (length cells) (b + o)) = Ok (wrap (length cells) (b + o')).
Proof.
  intros Hb Ho He Hne Hk. revert o Ho Hne Hk. induction k as [|k IH]; intros o Ho Hne Hk; [lia|]. cbn [following_empty].
  set (y := if decide _ then _ else _). assert (y = wrap (length cells) (b + S o)) as -> by (unfold y; rewrite <- wrap_succ by lia; done).
  destruct (lookup_lt_is_Some_2 (seqs cells) (wrap (length cells) (b + S o))) as [s Hs]; [rewrite length_seqs; apply wrap_lt; lia|].
  destruct (vget_empty _ _ _ Hs) as (c & -> & Hc). rewrite bind_Ok, Hc. destruct (decide (S o = o')) as [<-|Hno].
  - rewrite He in Hs. injection Hs as <-. by rewrite bool_decide_true.
  - rewrite bool_decide_false by (apply (Hne (S o)); [lia|done]). apply IH; [lia| |lia]. intros j s' Hj. apply Hne. lia.
Qed.

Lemma following_empty_total cells k x : x < length cells → okP (following_empty k cells x) (λ _, True).
Proof.
  revert x. induction k as [|k IH]; intros x Hx; [done|]. cbn [following_empty].
  set (y := if decide _ then _ else _). assert (y < length cells) as Hy by (unfold y; case_decide; lia).
  destruct (lookup_lt_is_Some_2 cells y Hy) as [c Hc]. rewrite (vget_ok _ _ _ Hc), bind_Ok. destruct (m_empty c); [done|]. by apply IH.
Qed.

(** *** There are enough cells *)

(** If no cell is empty, every sequence has a cell of its own. *)
Lemma all_taken n T Q q : tails_ok n T Q → (∀ i s, Q !! i = Some s → s ≠ ∅) → q < n →
  ∃ i, T !! q = Some (Z.of_nat i) ∧ Q !! i = Some {[Z.of_nat q]}.
Proof.
  intros H Hne Hq. set (pick (s : gset Z) := Z.to_nat (hd 0%Z (elements s))).
  assert (∀ i s, Q !! i = Some s → Z.of_nat (pick s) ∈ s ∧ T !! pick s = Some (Z.of_nat i) ∧ pick s < n) as Hpick.
  { intros i s Hs. assert (hd 0%Z (elements s) ∈ s) as Hin.
    { apply elem_of_elements. destruct (elements s) as [|x l] eqn:E; [|by left]. apply elements_empty_inv in E. unfold_leibniz. by destruct (Hne i s). }
    destruct (tails_ok_in _ _ _ _ _ _ H Hs Hin) as [Ht Hr]. unfold pick. rewrite Z2Nat.id by lia. split; [done|]. split; [done|lia]. }
  set (l := pick <$> Q). assert (length l = n) as Hl by (unfold l; rewrite length_fmap; apply (to_Q _ _ _ H)).
  assert (∀ i x, l !! i = Some x → ∃ s, Q !! i = Some s ∧ x = pick s) as Hlk.
  { intros i x. unfold l. rewrite list_lookup_fmap. destruct (Q !! i) as [s|]; [|done]. intros [= <-]. by exists s. }
  assert (NoDup l) as Hnd.
  { apply NoDup_alt. intros i j x (s & Hs & ->)%Hlk (s' & Hs' & E)%Hlk. destruct (Hpick _ _ Hs) as (_ & T1 & _), (Hpick _ _ Hs') as (_ & T2 & _).
    rewrite <- E, T1 in T2. injection T2. lia. }
  assert (l ≡ₚ seq 0 n) as Hperm.
  { apply submseteq_length_Permutation; [|by rewrite length_seq, Hl]. apply NoDup_submseteq; [done|].
    intros x (i & (s & Hs & ->)%Hlk)%list_elem_of_lookup. apply elem_of_seq. destruct (Hpick _ _ Hs) as (_ & _ & ?). lia. }
  assert (∀ q', q' < n → ∃ i s, Q !! i = Some s ∧ q' = pick s) as Hall.
  { intros q' Hq'. assert (q' ∈ l) as (i & (s & Hs & E)%Hlk)%list_elem_of_lookup by (rewrite Hperm; apply elem_of_seq; lia). by exists i, s. }
  destruct (Hall q Hq) as (i & s & Hs & E). destruct (Hpick _ _ Hs) as (Hin & Ht & _). rewrite <- E in Hin, Ht.
  exists i. split; [done|]. rewrite Hs. f_equal. apply set_eq. intros z. rewrite elem_of_singleton. split; [|by intros ->].
  intros Hz. destruct (tails_ok_in _ _ _ _ _ _ H Hs Hz) as [Htz Hrz]. destruct (Hall (Z.to_nat z)) as (j & s' & Hs' & E'); [lia|].
  destruct (Hpick _ _ Hs') as (_ & Ht' & _). rewrite <- E', Htz in Ht'. injection Ht' as Ht'. assert (j = i) as -> by lia. simplify_eq. lia.
Qed.

(** *** Giving every set a cell of its own *)

Section assign.
Context {A : Type} (zero : A) (data : nat → A) (n : nat) (W : nat → option (Z * A)).

Definition start_val (o : option (Z * A)) : A := from_option snd zero o.

(** The state of the loops: [Q] are the sequences of the cells, [Qv] those they will have; a cell that was
    empty when it was given to a sequence does not show it yet.  [P] are the first sequences of the sets
    that have a cell of their own so far, all of them in [lo .. hi], and [W] are the positions and states before. *)
Record virt (lo hi : Z) (P : list nat) (T : list Z) (Q Qv : list (gset Z)) (K : list (Z * Z)) : Prop := {
  vi_tails : tails_ok n T Qv;
  vi_Q : length Q = n;
  vi_K : length K = n;
  vi_looks : ∀ i s sv, Q !! i = Some s → Qv !! i = Some sv → s = sv ∨ s = ∅ ∧ ∃ p, p ∈ P ∧ sv = {[Z.of_nat p]};
  vi_own : ∀ p, p ∈ P → ∃ i, T !! p = Some (Z.of_nat i) ∧ Qv !! i = Some {[Z.of_nat p]} ∧ (lo ≤ Z.of_nat i ≤ hi)%Z;
  vi_src : ∀ i k, K !! i = Some k → (k.2 = -1 ∨ 0 ≤ k.2 < Z.of_nat n)%Z ∧ (lo ≤ Z.of_nat i ≤ hi ∨ k.2 = -1 ∨ k.2 = Z.of_nat i)%Z;
  vi_zero : ∀ i k, K !! i = Some k → Qv !! i = Some ∅ → src_val zero data k.2 = zero ∧ k.1 = (-1)%Z;
  vi_other : ∀ q, q ∉ P → mark_val zero data <$> seq_mark T K q = W q;
  vi_start : ∀ q, q ∈ P → src_val zero data <$> (snd <$> seq_mark T K q) = Some (start_val (W q));
  vi_pos : ∀ q k, q ∉ P → seq_mark T K q = Some k → (0 ≤ k.1 ≤ INT32_MAX)%Z
}.

Lemma virt_weaken lo hi lo' hi' P T Q Qv K : virt lo hi P T Q Qv K → (lo' ≤ lo)%Z → (hi ≤ hi')%Z → virt lo' hi' P T Q Qv K.
Proof.
  intros [] Hlo Hhi. split; try done.
  - intros p Hp. destruct (vi_own0 p Hp) as (i & H1 & H2 & H3). exists i. split; [done|]. split; [done|lia].
  - intros i k Hk. destruct (vi_src0 i k Hk) as [H1 H2]. split; [done|]. lia.
Qed.

(** A sequence that has a cell alone keeps it. *)
Lemma virt_owned lo hi P T Q Qv K p i : virt lo hi P T Q Qv K → T !! p = Some (Z.of_nat i) → Qv !! i = Some {[Z.of_nat p]} →
  virt (Z.min lo (Z.of_nat i)) (Z.max hi (Z.of_nat i)) (P ++ [p]) T Q Qv K.
Proof.
  intros Hv Ht Hs. apply (virt_weaken _ _ (Z.min lo (Z.of_nat i)) (Z.max hi (Z.of_nat i))) in Hv; [|lia..]. destruct Hv. split; try done.
  - intros j s sv Hj Hsv. destruct (vi_looks0 j s sv Hj Hsv) as [->|(-> & p' & Hp' & ->)]; [by left|]. right. split; [done|]. exists p'. set_solver.
  - intros p' [Hp'|Hp']%elem_of_app; [by apply vi_own0|]. apply list_elem_of_singleton in Hp' as ->. exists i. split; [done|]. split; [done|lia].
  - intros q Hq. apply vi_other0. set_solver.
  - intros q Hq. destruct (decide (q ∈ P)) as [HqP|HqP]; [by apply vi_start0|]. assert (q = p) as -> by set_solver.
    rewrite <- vi_other0 by done. rewrite (seq_mark_Some _ _ _ _ Ht). destruct (lookup_lt_is_Some_2 K i) as [k Hk]; [|by rewrite Hk].
    apply lookup_lt_Some in Hs. rewrite (to_Q _ _ _ vi_tails0) in Hs. lia.
  - intros q k Hq. apply vi_pos0. set_solver.
Qed.

(** A sequence leaves the cell [t] for the empty cell [i]. *)
Lemma tails_ok_move T Q q t i s : tails_ok n T Q → T !! q = Some (Z.of_nat t) → Q !! t = Some s → Q !! i = Some ∅ →
  t ≠ i ∧ tails_ok n (<[q := Z.of_nat i]> T) (<[i := {[Z.of_nat q]}]> (<[t := s ∖ {[Z.of_nat q]}]> Q)).
Proof.
  intros H Ht Hs Hi. assert (Z.of_nat q ∈ s) as Hin by by apply (to_iff _ _ _ H _ _ _ _ Ht Hs).
  assert (t ≠ i) as Hne by (intros ->; simplify_eq; set_solver). split; [done|].
  pose proof (tails_ok_leave _ _ _ _ _ _ H Hs Ht) as H1.
  rewrite <- (list_insert_insert_eq T q (Z.of_nat i) (-1)%Z). replace {[Z.of_nat q]} with (∅ ∪ {[Z.of_nat q]} : gset Z) at 1 by set_solver.
  apply tails_ok_join; [done|by rewrite list_lookup_insert_ne|]. apply list_lookup_insert_eq. by apply lookup_lt_Some in Ht.
Qed.

Lemma tails_ok_take T Q q i : tails_ok n T Q → T !! q = Some (-1)%Z → Q !! i = Some ∅ →
  tails_ok n (<[q := Z.of_nat i]> T) (<[i := {[Z.of_nat q]}]> Q).
Proof.
  intros H Ht Hi. replace {[Z.of_nat q]} with (∅ ∪ {[Z.of_nat q]} : gset Z) by set_solver. by apply tails_ok_join.
Qed.

(** The other sequences do not see what is written to an empty cell. *)
Lemma seq_mark_other T Q K p q i t k : tails_ok n T Q → Q !! i = Some ∅ → q ≠ p →
  seq_mark (<[p := t]> T) (<[i := k]> K) q = seq_mark T K q.
Proof.
  intros H Hi Hne. unfold seq_mark. rewrite list_lookup_insert_ne by done. destruct (T !! q) as [x|] eqn:Ex; [|done]. cbn [mbind option_bind].
  destruct (decide (0 ≤ x)%Z) as [Hx|]; [|done]. apply list_lookup_insert_ne. intros ->.
  destruct (tails_ok_tail _ _ _ _ _ H Ex Hx) as (s & Hs & Hin & _). by simplify_eq.
Qed.

Lemma virt_unseen lo hi P T Q Qv K i : virt lo hi P T Q Qv K → Qv !! i = Some ∅ → Q !! i = Some ∅.
Proof.
  intros H Hi. destruct (lookup_lt_is_Some_2 Q i) as [s Hs].
  { rewrite (vi_Q _ _ _ _ _ _ _ H), <- (to_Q _ _ _ (vi_tails _ _ _ _ _ _ _ H)). by apply lookup_lt_Some in Hi. }
  destruct (vi_looks _ _ _ _ _ _ _ H i s ∅ Hs Hi) as [->|(-> & _)]; done.
Qed.

(** A cell with a sequence that has not got a cell of its own yet is shown as it is. *)
Lemma virt_seen lo hi P T Q Qv K i s p : virt lo hi P T Q Qv K → Qv !! i = Some s → Z.of_nat p ∈ s → p ∉ P → Q !! i = Some s.
Proof.
  intros H Hi Hp HP. destruct (lookup_lt_is_Some_2 Q i) as [s' Hs].
  { rewrite (vi_Q _ _ _ _ _ _ _ H), <- (to_Q _ _ _ (vi_tails _ _ _ _ _ _ _ H)). by apply lookup_lt_Some in Hi. }
  destruct (vi_looks _ _ _ _ _ _ _ H i s' s Hs Hi) as [->|(-> & p' & Hp' & ->)]; [done|].
  apply elem_of_singleton in Hp. assert (p = p') as -> by lia. done.
Qed.

Lemma virt_move lo hi P T Q Qv K p t s i k : virt lo hi P T Q Qv K → p ∉ P → T !! p = Some (Z.of_nat t) → Qv !! t = Some s → s ≠ {[Z.of_nat p]} →
  K !! t = Some k → Qv !! i = Some ∅ →
  virt (Z.min lo (Z.of_nat i)) (Z.max hi (Z.of_nat i)) (P ++ [p]) (<[p := Z.of_nat i]> T)
    (<[i := {[Z.of_nat p]}]> (<[t := s ∖ {[Z.of_nat p]}]> Q)) (<[i := {[Z.of_nat p]}]> (<[t := s ∖ {[Z.of_nat p]}]> Qv)) (<[i := k]> K).
Proof.
  intros Hv Hp Ht Hs Hns Hk Hi. apply (virt_weaken _ _ (Z.min lo (Z.of_nat i)) (Z.max hi (Z.of_nat i))) in Hv; [|lia..].
  destruct (tails_ok_move T Qv p t i s (vi_tails _ _ _ _ _ _ _ Hv) Ht Hs Hi) as [Hne Htails]. pose proof (virt_seen _ _ _ _ _ _ _ _ _ p Hv Hs) as Hseen.
  destruct Hv. assert (Z.of_nat p ∈ s) as Hin by by apply (to_iff _ _ _ vi_tails0 _ _ _ _ Ht Hs). specialize (Hseen Hin Hp).
  assert (i < n) as Hin' by (apply lookup_lt_Some in Hi; rewrite (to_Q _ _ _ vi_tails0) in Hi; done).
  assert (∀ q, q ≠ p → seq_mark (<[p := Z.of_nat i]> T) (<[i := k]> K) q = seq_mark T K q) as Hmark by (intros; by eapply seq_mark_other).
  split; rewrite ?length_insert; try done.
  - intros j sq sv Hj Hsv. apply list_lookup_insert_Some in Hj as [(<- & <- & _)|[Hji Hj]].
    { left. rewrite list_lookup_insert_eq in Hsv by (rewrite length_insert; by apply lookup_lt_Some in Hi). by injection Hsv. }
    rewrite list_lookup_insert_ne in Hsv by done. apply list_lookup_insert_Some in Hj as [(<- & <- & _)|[Hjt Hj]].
    { left. rewrite list_lookup_insert_eq in Hsv by (by apply lookup_lt_Some in Hs). by injection Hsv. }
    rewrite list_lookup_insert_ne in Hsv by done. destruct (vi_looks0 _ _ _ Hj Hsv) as [->|(-> & p' & Hp' & ->)]; [by left|].
    right. split; [done|]. exists p'. set_solver.
  - intros p' [Hp'|Hp']%elem_of_app.
    + destruct (vi_own0 _ Hp') as (j & Hj1 & Hj2 & Hj3). exists j. rewrite list_lookup_insert_ne by (intros ->; done). split; [done|]. split; [|done].
      assert (i ≠ j) by (intros ->; simplify_eq; set_solver). assert (t ≠ j); [|by rewrite !list_lookup_insert_ne].
      intros ->. simplify_eq. apply elem_of_singleton in Hin. assert (p = p') by lia. by subst.
    + apply list_elem_of_singleton in Hp' as ->. exists i. split; [apply list_lookup_insert_eq; by apply lookup_lt_Some in Ht|]. split; [|lia].
      apply list_lookup_insert_eq. rewrite length_insert. by apply lookup_lt_Some in Hi.
  - intros j kj [(<- & <- & _)|[Hji Hj]]%list_lookup_insert_Some; [|by apply vi_src0]. destruct (vi_src0 _ _ Hk) as [Hr _]. split; [done|left; lia].
  - intros j kj [(<- & <- & _)|[Hji Hj]]%list_lookup_insert_Some Hz.
    { rewrite list_lookup_insert_eq in Hz by (rewrite length_insert; by apply lookup_lt_Some in Hi). injection Hz as Hz. set_solver. }
    rewrite list_lookup_insert_ne in Hz by done. apply list_lookup_insert_Some in Hz as [(<- & Hz & _)|[Hjt Hz]]; [|by eapply vi_zero0].
    destruct Hns. apply set_eq. intros z. rewrite elem_of_singleton. split; [|by intros ->]. intros Hzs. apply dec_stable. intros Hzp. set_solver.
  - intros q Hq. rewrite Hmark by set_solver. apply vi_other0. set_solver.
  - intros q [Hq|Hq]%elem_of_app; [rewrite Hmark by (intros ->; done); by apply vi_start0|]. apply list_elem_of_singleton in Hq as ->.
    rewrite (seq_mark_Some _ _ _ i) by (apply list_lookup_insert_eq; by apply lookup_lt_Some in Ht). rewrite list_lookup_insert_eq by lia.
    rewrite <- vi_other0 by done. by rewrite (seq_mark_Some _ _ _ _ Ht), Hk.
  - intros q kq Hq. rewrite Hmark by set_solver. apply vi_pos0. set_solver.
Qed.

Lemma virt_take lo hi P T Q Qv K p i : virt lo hi P T Q Qv K → p ∉ P → T !! p = Some (-1)%Z → Qv !! i = Some ∅ →
  virt (Z.min lo (Z.of_nat i)) (Z.max hi (Z.of_nat i)) (P ++ [p]) (<[p := Z.of_nat i]> T) Q (<[i := {[Z.of_nat p]}]> Qv) K.
Proof.
  intros Hv Hp Ht Hi. apply (virt_weaken _ _ (Z.min lo (Z.of_nat i)) (Z.max hi (Z.of_nat i))) in Hv; [|lia..].
  pose proof (virt_unseen _ _ _ _ _ _ _ _ Hv Hi) as HQi. pose proof (tails_ok_take T Qv p i (vi_tails _ _ _ _ _ _ _ Hv) Ht Hi) as Htails. destruct Hv.
  assert (i < n) as Hin' by (apply lookup_lt_Some in Hi; rewrite (to_Q _ _ _ vi_tails0) in Hi; done).
  destruct (lookup_lt_is_Some_2 K i) as [k Hk]; [lia|].
  assert (∀ q, q ≠ p → seq_mark (<[p := Z.of_nat i]> T) K q = seq_mark T K q) as Hmark.
  { intros q Hq. rewrite <- (list_insert_id K i k Hk) at 1. by eapply seq_mark_other. }
  split; rewrite ?length_insert; try done.
  - intros j sq sv Hj [(<- & <- & _)|[Hji Hsv]]%list_lookup_insert_Some.
    + simplify_eq. right. split; [done|]. exists p. set_solver.
    + destruct (vi_looks0 _ _ _ Hj Hsv) as [->|(-> & p' & Hp' & ->)]; [by left|]. right. split; [done|]. exists p'. set_solver.
  - intros p' [Hp'|Hp']%elem_of_app.
    + destruct (vi_own0 _ Hp') as (j & Hj1 & Hj2 & Hj3). exists j. rewrite list_lookup_insert_ne by (intros ->; done). split; [done|]. split; [|done].
      rewrite list_lookup_insert_ne; [done|]. intros ->. simplify_eq; set_solver.
    + apply list_elem_of_singleton in Hp' as ->. exists i. split; [apply list_lookup_insert_eq; by apply lookup_lt_Some in Ht|]. split; [|lia].
      apply list_lookup_insert_eq. by apply lookup_lt_Some in Hi.
  - intros j kj Hj [(<- & Hz & _)|[Hji Hz]]%list_lookup_insert_Some; [set_solver|by eapply vi_zero0].
  - intros q Hq. rewrite Hmark by set_solver. apply vi_other0. set_solver.
  - intros q [Hq|Hq]%elem_of_app; [rewrite Hmark by (intros ->; done); by apply vi_start0|]. apply list_elem_of_singleton in Hq as ->.
    rewrite (seq_mark_Some _ _ _ i) by (apply list_lookup_insert_eq; by apply lookup_lt_Some in Ht). rewrite Hk. cbn [fmap option_fmap option_map].
    destruct (vi_zero0 _ _ Hk Hi) as [-> _]. rewrite <- vi_other0 by done. by rewrite (seq_mark_None _ _ _ Ht).
  - intros q kq Hq. rewrite Hmark by set_solver. apply vi_pos0. set_solver.
Qed.
End assign.

(** *** The next empty cell *)

Lemma least_between (P : nat → Prop) `{∀ k, Decision (P k)} a c : (∃ k, a ≤ k < c ∧ P k) →
  ∃ k, a ≤ k < c ∧ P k ∧ ∀ j, a ≤ j < k → ¬ P j.
Proof.
  intros (k & Hk & HP). revert Hk HP. induction (lt_wf k) as [k _ IH]. intros Hk HP.
  destruct (decide (Exists P (seq a (k - a)))) as [(j & Hj & HPj)%Exists_exists|Hno].
  - apply elem_of_seq in Hj. apply (IH j); [lia|lia|done].
  - exists k. split; [done|]. split; [done|]. intros j Hj HPj. apply Hno, Exists_exists. exists j. split; [apply elem_of_seq; lia|done].
Qed.

Section ring.
Context (n b : nat) (Hb : b < n).

(** Unless all cells are taken, the search stands at an empty cell, the offset [o]: those before are taken,
    those behind show what they have. *)
Definition ring (Q Qv : list (gset Z)) (next : nat) : Prop :=
  (∃ i, Qv !! i = Some ∅) → ∃ o, o < n ∧ next = wrap n (b + o) ∧ Q !! next = Some ∅ ∧ Qv !! next = Some ∅ ∧
    (∀ k s, k < o → Qv !! wrap n (b + k) = Some s → s ≠ ∅) ∧ (∀ k, o ≤ k < n → Q !! wrap n (b + k) = Qv !! wrap n (b + k)).

Lemma ring_first cells : length cells = n → okP (next_empty n cells b) (ring (seqs cells) (seqs cells)).
Proof.
  intros Hl. set (Q := seqs cells). assert (length Q = n) as HlQ by by unfold Q; rewrite length_seqs.
  destruct (decide (Exists (λ s, s = ∅) Q)) as [(s & (i & Hi)%list_elem_of_lookup & ->)%Exists_exists|Hno].
  - destruct (wrap_surj n b i) as (o & Ho & ->); [done|apply lookup_lt_Some in Hi; lia|].
    destruct (least_between (λ o, Q !! wrap n (b + o) = Some ∅) 0 n) as (o' & Ho' & He & Hmin); [exists o; split; [lia|done]|].
    rewrite <- Hl at 1. rewrite (next_empty_first cells b 0 o'); [|lia|by rewrite Nat.add_0_r|lia|by rewrite Hl| |lia].
    + cbn [okP]. intros _. exists o'. rewrite Hl. split; [lia|]. split; [done|]. split; [done|]. split; [done|]. split; [|done].
      intros k s Hk Hs ->. by apply (Hmin k); [lia|].
    + rewrite Hl. intros j s Hj Hs ->. by apply (Hmin j); [lia|].
  - eapply okP_mono; [apply next_empty_total; lia|]. intros x _ (i & Hi). destruct Hno. apply Exists_exists. exists ∅. split; [|done].
    by eapply list_elem_of_lookup_2.
Qed.

Lemma ring_next cells Q Qv Qv' next : length cells = n → ring Q Qv next → length Qv' = n →
  (∃ i, Qv !! i = Some ∅) →
  (∀ s, Qv' !! next = Some s → s ≠ ∅) →
  (∀ j, j ≠ next → Qv' !! j = Some ∅ → Qv !! j = Some ∅) →
  (∀ j, j ≠ next → Q !! j = Qv !! j → seqs cells !! j = Qv' !! j) →
  okP (following_empty n cells next) (ring (seqs cells) Qv').
Proof.
  intros Hl Hring HlQv Hex Hnext Hstay Hshow. destruct (Hring Hex) as (o & Ho & -> & HQ & HQv & Hbefore & Hagree).
  destruct (decide (Exists (λ s, s = ∅) Qv')) as [(s & (i & Hi)%list_elem_of_lookup & ->)%Exists_exists|Hno].
  - destruct (wrap_surj n b i) as (oi & Hoi & ->); [done|apply lookup_lt_Some in Hi; lia|].
    assert (o < oi) as Hlt.
    { destruct (decide (o = oi)) as [->|Hne]; [by destruct (Hnext _ Hi)|]. destruct (decide (oi < o)); [|lia].
      exfalso. apply (Hbefore oi ∅); [done| |done]. apply Hstay; [|done]. intros E. apply Hne. symmetry. eapply wrap_inj; [exact Hb| | |exact E]; lia. }
    assert (∀ k, o < k < n → seqs cells !! wrap n (b + k) = Qv' !! wrap n (b + k)) as Hshow'.
    { intros k Hk. apply Hshow; [|apply Hagree; lia]. intros E. assert (k = o); [|lia]. eapply wrap_inj; [exact Hb| | |exact E]; lia. }
    destruct (least_between (λ o, seqs cells !! wrap n (b + o) = Some ∅) (S o) n) as (o' & Ho' & He & Hmin).
    { exists oi. split; [lia|]. by rewrite Hshow' by lia. }
    rewrite <- Hl at 1 2. rewrite (following_empty_first cells b o o'); [|lia|lia|by rewrite Hl| |lia].
    + cbn [okP]. intros _. exists o'. rewrite Hl. split; [lia|]. split; [done|]. split; [done|]. split; [by rewrite <- Hshow' by lia|]. split.
      * intros k s Hk Hs ->. destruct (decide (k = o)) as [->|Hko]; [by apply Hnext in Hs|]. destruct (decide (k < o)).
        -- apply (Hbefore k ∅); [done| |done]. apply Hstay; [|done]. intros E. apply Hko. eapply wrap_inj; [exact Hb| | |exact E]; lia.
        -- apply (Hmin k); [lia|]. by rewrite Hshow' by lia.
      * intros k Hk. apply Hshow'. lia.
    + rewrite Hl. intros j s Hj Hs ->. by apply (Hmin j); [lia|].
  - eapply okP_mono; [apply following_empty_total; rewrite Hl; by apply wrap_lt|]. intros x _ (i & Hi). destruct Hno. apply Exists_exists.
    exists ∅. split; [|done]. by eapply list_elem_of_lookup_2.
Qed.
End ring.

(** *** One set *)

Lemma copy_tail_ok cells q t next d e : cells !! t = Some d → cells !! next = Some e → t ≠ next → m_seqs e = ∅ → m_seqs d ∖ {[q]} ≠ ∅ →
  ∃ cells', copy_tail cells q (Z.of_nat t) next = Ok cells' ∧
    has_parts cells' (tails cells) (<[next := {[q]}]> (<[t := m_seqs d ∖ {[q]}]> (seqs cells))) (<[next := (m_pos d, m_src d)]> (marks cells)).
Proof.
  intros Ht Hn Hne He Hd. unfold copy_tail. rewrite decide_True by lia. rewrite Nat2Z.id, (vget_ok _ _ _ Ht), bind_Ok, (vget_ok _ _ _ Hn), bind_Ok.
  pose proof (lookup_lt_Some _ _ _ Ht). pose proof (lookup_lt_Some _ _ _ Hn). rewrite vset_ok by done. rewrite bind_Ok.
  erewrite upd_ok by (by rewrite list_lookup_insert_ne). rewrite bind_Ok.
  erewrite upd_ok by (rewrite list_lookup_insert_ne by done; by apply list_lookup_insert_eq). rewrite bind_Ok.
  erewrite vget_ok by (rewrite list_lookup_insert_ne by done; apply list_lookup_insert_eq; by rewrite length_insert). rewrite bind_Ok.
  unfold m_empty. rewrite ggml_assert_ok by (by rewrite bool_decide_false). rewrite bind_Ok. eexists. split; [done|].
  unfold has_parts. rewrite !tails_insert, !seqs_insert, !marks_insert. cbn [m_tail m_seqs m_pos m_src set_content set_mseqs]. rewrite He.
  pose proof (lookup_tails _ _ _ Ht) as T1. pose proof (lookup_tails _ _ _ Hn) as T2. pose proof (lookup_seqs _ _ _ Hn) as Q2. rewrite He in Q2.
  pose proof (lookup_marks _ _ _ Ht) as K1. split; [|split].
  - rewrite (list_insert_id (tails cells) next) by done. rewrite (list_insert_id (tails cells) t) by done. by rewrite list_insert_id.
  - rewrite (list_insert_id (seqs cells) next) by done. f_equal. set_solver.
  - rewrite (list_insert_id (<[next := _]> (marks cells)) t) by (by rewrite list_lookup_insert_ne). by rewrite list_insert_insert_eq.
Qed.

Lemma upd_tail_parts cells q t T Q K : has_parts cells T Q K → q < length cells →
  ∃ cells', upd cells q (set_tail t) = Ok cells' ∧ has_parts cells' (<[q := t]> T) Q K.
Proof.
  intros (<- & <- & <-) Hq. destruct (lookup_lt_is_Some_2 _ _ Hq) as [c Hc]. rewrite (upd_ok _ _ _ _ Hc). eexists. split; [done|].
  unfold has_parts. rewrite tails_insert, seqs_insert, marks_insert. cbn. split; [done|].
  by rewrite !list_insert_id by (by apply lookup_seqs || by apply lookup_marks).
Qed.

Lemma concat_nodup_index {B} (L : list (list B)) i j li lj x : NoDup (concat L) → L !! i = Some li → L !! j = Some lj → x ∈ li → x ∈ lj → i = j.
Proof.
  revert i j. induction L as [|l L IH]; intros i j Hnd Hi Hj Hx Hy; [done|]. cbn [concat] in Hnd. apply NoDup_app in Hnd as (_ & Hdis & Hnd).
  destruct i as [|i], j as [|j]; cbn in Hi, Hj; simplify_eq; [done|..].
  - destruct (Hdis x Hx). apply elem_of_concat. exists lj. split; [by eapply list_elem_of_lookup_2|done].
  - destruct (Hdis x Hy). apply elem_of_concat. exists li. split; [by eapply list_elem_of_lookup_2|done].
  - f_equal. by eapply IH.
Qed.

Section assign_sets.
Context {A : Type} (zero : A) (data : nat → A) (n : nat) (W : nat → option (Z * A)) (b : nat) (Hb : b < n).
Abbreviation virt := (virt zero data n W).

Lemma virt_length lo hi P cells Qv : virt lo hi P (tails cells) (seqs cells) Qv (marks cells) → length cells = n.
Proof. intros H. rewrite <- length_seqs. apply (vi_Q _ _ _ _ _ _ _ _ _ _ _ H). Qed.

(** the next cell given to a set is free *)
Lemma free_cell lo hi P T Q Qv K p : virt lo hi P T Q Qv K → p < n → (∀ i, T !! p = Some (Z.of_nat i) → Qv !! i ≠ Some {[Z.of_nat p]}) →
  ∃ i, Qv !! i = Some ∅.
Proof.
  intros Hv Hp Hno. destruct (decide (Exists (λ s, s = ∅) Qv)) as [(s & (i & Hi)%list_elem_of_lookup & ->)%Exists_exists|Hne]; [by exists i|].
  destruct (all_taken n T Qv p (vi_tails _ _ _ _ _ _ _ _ _ _ _ Hv)) as (i & Hi1 & Hi2); [|done|by destruct (Hno i)].
  intros i s Hi ->. apply Hne, Exists_exists. exists ∅. split; [|done]. by eapply list_elem_of_lookup_2.
Qed.

Definition assigned (more : Prop) (P : list nat) (st : slot_state) : Prop :=
  ∃ Qv, virt (ss_min st) (ss_max st) P (tails (ss_cells st)) (seqs (ss_cells st)) Qv (marks (ss_cells st)) ∧
    (more → ring n b (seqs (ss_cells st)) Qv (ss_next st)) ∧ (0 ≤ ss_min st ∧ ss_max st < Z.of_nat n)%Z.

(** the end of the iteration: the cell of the set is taken *)
Lemma assign_finish u s p cells0 Q0 Qv0 Qv lo hi P T Q K next : has_parts cells0 T Q K →
  virt (Z.min lo (Z.of_nat next)) (Z.max hi (Z.of_nat next)) (P ++ [p]) (<[p := Z.of_nat next]> T) Q Qv K → p < n → (0 ≤ lo ∧ hi < Z.of_nat n)%Z → next < n →
  ring n b Q0 Qv0 next → (∃ i, Qv0 !! i = Some ∅) → (∀ s, Qv !! next = Some s → s ≠ ∅) → (∀ j, j ≠ next → Qv !! j = Some ∅ → Qv0 !! j = Some ∅) →
  (∀ j, j ≠ next → Q0 !! j = Qv0 !! j → Q !! j = Qv !! j) →
  okP (cells ← upd cells0 p (set_tail (Z.of_nat next));
       next' ← (if decide (s + 1 < n_seqs u) then following_empty (length cells) cells next else Ok next);
       Ok (cells, next'))
    (λ r, ∃ c, r.1 !! p = Some c ∧ assigned (s + 1 < n_seqs u) (P ++ [p]) (SlotState r.1 r.2 (Z.min lo (m_tail c)) (Z.max hi (m_tail c)))).
Proof.
  intros Hparts Hv Hp Hr Hnl Hring Hex Hn1 Hn2 Hn3. assert (length cells0 = n) as Hl.
  { destruct Hparts as (_ & <- & _). rewrite <- length_seqs. apply (vi_Q _ _ _ _ _ _ _ _ _ _ _ Hv). }
  destruct (upd_tail_parts cells0 p (Z.of_nat next) T Q K Hparts) as (cells & -> & P1 & P2 & P3); [lia|]. rewrite bind_Ok.
  assert (length cells = n) as Hl'. { rewrite <- length_seqs, P2. apply (vi_Q _ _ _ _ _ _ _ _ _ _ _ Hv). }
  eapply (okP_bind _ _ (λ next', s + 1 < n_seqs u → ring n b Q Qv next')).
  { case_decide; [|by intros ?]. rewrite Hl'. eapply okP_mono; [apply (ring_next n b Hb cells Q0 Qv0 Qv)|]; rewrite ?P2; try done.
    by rewrite (to_Q _ _ _ (vi_tails _ _ _ _ _ _ _ _ _ _ _ Hv)). }
  intros next' Hnext'. cbn [okP fst snd]. destruct (lookup_lt_is_Some_2 cells p) as [c Hc]; [lia|]. exists c. split; [done|].
  assert (m_tail c = Z.of_nat next) as ->.
  { pose proof (lookup_tails _ _ _ Hc) as E. rewrite P1, list_lookup_insert_eq in E; [by injection E|].
    destruct Hparts as (<- & _ & _). rewrite length_tails. lia. }
  exists Qv. cbn [ss_min ss_max ss_cells ss_next]. rewrite P1, P2, P3. split; [done|]. split; [done|lia].
Qed.

Lemma assign_set_ok u s p P st : primary u s = Ok (Z.of_nat p) → p < n → p ∉ P → s < n_seqs u → assigned True P st →
  okP (assign_set u st s) (assigned (s + 1 < n_seqs u) (P ++ [p])).
Proof.
  intros Hprim Hp HP Hs (Qv & Hv & Hring & Hr). destruct st as [cells next lo hi]. cbn [ss_min ss_max ss_cells ss_next] in *. specialize (Hring I).
  pose proof (virt_length _ _ _ _ _ Hv) as Hl. pose proof (vi_tails _ _ _ _ _ _ _ _ _ _ _ Hv) as Htails.
  unfold assign_set. cbn [ss_cells ss_next ss_min ss_max]. rewrite Hprim, bind_Ok, idx_ok by lia. rewrite bind_Ok, Nat2Z.id.
  destruct (lookup_lt_is_Some_2 cells p) as [c Hc]; [lia|]. rewrite (vget_ok _ _ _ Hc), bind_Ok. pose proof (lookup_tails _ _ _ Hc) as HT.
  unfold owns_cell. destruct (decide (0 ≤ m_tail c)%Z) as [Hpos|Hneg].
  - destruct (tails_ok_tail _ _ _ _ _ Htails HT Hpos) as (sv & Hsv & Hin & Hlt). set (t := Z.to_nat (m_tail c)).
    assert (m_tail c = Z.of_nat t) as Et by (unfold t; lia). rewrite Et in HT. fold t in Hsv.
    pose proof (virt_seen _ _ _ _ _ _ _ _ _ _ _ _ _ p Hv Hsv Hin HP) as Hseen. destruct (lookup_seqs_inv _ _ _ Hseen) as (d & Hd & Hds).
    rewrite (vget_ok _ _ _ Hd), bind_Ok. unfold m_has. rewrite ggml_assert_ok by (apply bool_decide_eq_true_2; by rewrite Hds). rewrite bind_Ok, Hds.
    destruct (bool_decide (base.size sv = 1)) eqn:Esz; rewrite bind_Ok.
    + (* it owns its cell *)
      apply bool_decide_eq_true_1 in Esz. assert (sv = {[Z.of_nat p]}) as ->.
      { destruct (size_1_elem_of sv Esz) as [x Hx]. apply leibniz_equiv in Hx. rewrite Hx in Hin |- *. apply elem_of_singleton in Hin. by subst x. }
      rewrite bind_Ok. cbn [fst]. rewrite (vget_ok _ _ _ Hc), bind_Ok, Et. cbn [okP]. exists Qv. cbn [ss_min ss_max ss_cells ss_next snd fst].
      split; [by apply virt_owned|]. split; [done|lia].
    + (* it shares its cell *)
      apply bool_decide_eq_false_1 in Esz. assert (sv ≠ {[Z.of_nat p]}) as Hns by (intros ->; apply Esz; apply size_singleton).
      assert (∃ i, Qv !! i = Some ∅) as Hex. { apply (free_cell _ _ _ _ _ _ _ p Hv Hp). intros i Hi. rewrite HT in Hi. injection Hi as E. assert (i = t) as -> by lia. congruence. }
      destruct (Hring Hex) as (o & Ho & En & HQn & HQvn & Hbefore & Hagree). destruct (lookup_seqs_inv _ _ _ HQn) as (e & He & Hes).
      rewrite (vget_ok _ _ _ He), bind_Ok. unfold m_empty. rewrite ggml_assert_ok by (by apply bool_decide_eq_true_2). rewrite bind_Ok.
      assert (t ≠ next) as Htn by (intros ->; simplify_eq; set_solver).
      destruct (copy_tail_ok cells (Z.of_nat p) t next d e) as (cells' & Hcopy & Hparts); [done..| |].
      { rewrite Hds. intros E. apply Hns, set_eq. intros z. rewrite elem_of_singleton. split; [|by intros ->]. intros Hz. apply dec_stable. set_solver. }
      rewrite Et, Hcopy, bind_Ok. rewrite Hds in Hparts.
      pose proof (virt_move _ _ _ _ _ _ _ _ _ _ _ p t sv next _ Hv HP HT Hsv Hns (lookup_marks _ _ _ Hd) HQvn) as Hv'.
      eapply okP_bind; [eapply (assign_finish u s p _ (seqs cells) Qv); [exact Hparts|exact Hv'|done|done|by rewrite En; apply wrap_lt|exact Hring|done|..]|].
      * intros s'. rewrite list_lookup_insert_eq by (rewrite length_insert; by apply lookup_lt_Some in HQvn). intros [= <-]. set_solver.
      * intros j Hj. rewrite list_lookup_insert_ne by done. intros [(<- & E & _)|[_ ?]]%list_lookup_insert_Some; [|done].
        destruct Hns. apply set_eq. intros z. rewrite elem_of_singleton. split; [|by intros ->]. intros Hz. apply dec_stable. set_solver.
      * intros j Hj E. rewrite !(list_lookup_insert_ne _ next) by done. destruct (decide (t = j)) as [<-|]; [|by rewrite !list_lookup_insert_ne].
        rewrite !list_lookup_insert_eq; [done|by apply lookup_lt_Some in Hsv|by apply lookup_lt_Some in Hseen].
      * intros r (c' & Hc' & Ha). by rewrite (vget_ok _ _ _ Hc').
  - (* it has no cell *)
    assert (m_tail c = (-1)%Z) as Et by (destruct (to_range _ _ _ Htails _ _ HT); lia). rewrite Et in HT. rewrite !bind_Ok.
    assert (∃ i, Qv !! i = Some ∅) as Hex. { apply (free_cell _ _ _ _ _ _ _ p Hv Hp). intros i Hi. rewrite HT in Hi. injection Hi. lia. }
    destruct (Hring Hex) as (o & Ho & En & HQn & HQvn & Hbefore & Hagree). destruct (lookup_seqs_inv _ _ _ HQn) as (e & He & Hes).
    rewrite (vget_ok _ _ _ He), bind_Ok. unfold m_empty. rewrite ggml_assert_ok by (by apply bool_decide_eq_true_2). rewrite bind_Ok.
    unfold copy_tail. rewrite decide_False by lia. rewrite bind_Ok.
    pose proof (virt_take _ _ _ _ _ _ _ _ _ _ _ p next Hv HP HT HQvn) as Hv'.
    eapply okP_bind; [eapply (assign_finish u s p _ (seqs cells) Qv); [by repeat split|exact Hv'|done|done|by rewrite En; apply wrap_lt|exact Hring|done|..]|].
    + intros s'. rewrite list_lookup_insert_eq by (by apply lookup_lt_Some in HQvn). intros [= <-]. set_solver.
    + intros j Hj. by rewrite list_lookup_insert_ne.
    + intros j Hj E. by rewrite list_lookup_insert_ne.
    + intros r (c' & Hc' & Ha). by rewrite (vget_ok _ _ _ Hc').
Qed.

Lemma assign_sets_ok u (L : list (list nat)) st : n_seqs u = length L →
  (∀ s ids, L !! s = Some ids → ∃ q ids', ids = q :: ids' ∧ primary u s = Ok (Z.of_nat q)) →
  (∀ q, q ∈ concat L → q < n) → NoDup (concat L) → assigned (0 < n_seqs u) [] st →
  okP (foldM (assign_set u) st (seq 0 (n_seqs u))) (assigned False ((λ ids, hd 0 ids) <$> L)).
Proof.
  intros Hn Hprim Hlt Hnd Hst. set (P := (λ ids, hd 0 ids) <$> L).
  eapply okP_mono; [apply (okP_for _ (λ s, assigned (s < n_seqs u) (take s P)))|].
  - done.
  - intros s st' Hs (Qv & Hv & Hring & Hr). destruct (lookup_lt_is_Some_2 L s) as [ids Hids]; [lia|].
    destruct (Hprim _ _ Hids) as (q & ids' & -> & Hq). assert (P !! s = Some q) as HP by (unfold P; by rewrite list_lookup_fmap, Hids).
    rewrite (take_S_r _ _ _ HP). rewrite <- Nat.add_1_r. apply assign_set_ok; [done| | |done|by exists Qv; auto].
    + apply Hlt, elem_of_concat. exists (q :: ids'). split; [by eapply list_elem_of_lookup_2|by left].
    + intros (j & Hj)%list_elem_of_lookup. apply lookup_take_Some in Hj as [Hj Hjs]. unfold P in Hj. rewrite list_lookup_fmap in Hj.
      destruct (L !! j) as [ids2|] eqn:Ej; [|done]. destruct (Hprim _ _ Ej) as (q2 & ids2' & -> & _). injection Hj as ->.
      assert (j = s); [|lia]. eapply concat_nodup_index; [exact Hnd|exact Ej|exact Hids|by left|by left].
  - intros st' (Qv & Hv & _ & Hr). exists Qv. rewrite take_ge in Hv by (unfold P; rewrite length_fmap; lia). done.
Qed.
End assign_sets.

(** *** Gathering the sets *)

Definition swap_idx (d t i : nat) : nat := if decide (i = t) then d else if decide (i = d) then t else i.
Definition swap_z (d t : nat) (z : Z) : Z := if decide (z = Z.of_nat t) then Z.of_nat d else if decide (z = Z.of_nat d) then Z.of_nat t else z.
Definition swap_list {B} (d t : nat) (l : list B) : list B :=
  match l !! d, l !! t with Some x, Some y => <[t := x]> (<[d := y]> l) | _, _ => l end.

Lemma swap_idx_invol d t i : swap_idx d t (swap_idx d t i) = i.
Proof. unfold swap_idx. repeat case_decide; congruence. Qed.

Lemma swap_z_idx d t i : swap_z d t (Z.of_nat i) = Z.of_nat (swap_idx d t i).
Proof. unfold swap_z, swap_idx. repeat case_decide; lia. Qed.

Lemma swap_z_neg d t z : (z < 0)%Z → swap_z d t z = z.
Proof. intros H. unfold swap_z. repeat case_decide; lia. Qed.

Lemma length_swap_list {B} d t (l : list B) : length (swap_list d t l) = length l.
Proof. unfold swap_list. destruct (l !! d); [|done]. destruct (l !! t); [|done]. by rewrite !length_insert. Qed.

Lemma lookup_swap_list {B} d t (l : list B) i : d < length l → t < length l → swap_list d t l !! i = l !! swap_idx d t i.
Proof.
  intros Hd Ht. unfold swap_list. destruct (lookup_lt_is_Some_2 _ _ Hd) as [x Hx], (lookup_lt_is_Some_2 _ _ Ht) as [y Hy]. rewrite Hx, Hy. unfold swap_idx.
  destruct (decide (i = t)) as [->|Hit]; [by rewrite list_lookup_insert_eq by (by rewrite length_insert)|]. rewrite list_lookup_insert_ne by done.
  destruct (decide (i = d)) as [->|]; [by rewrite list_lookup_insert_eq|by rewrite list_lookup_insert_ne].
Qed.

Lemma swap_tails_ok n T Q d t : tails_ok n T Q → d < n → t < n → tails_ok n (swap_z d t <$> T) (swap_list d t Q).
Proof.
  intros [H1 H2 H3 H4 H5] Hd Ht. split.
  - by rewrite length_fmap.
  - by rewrite length_swap_list.
  - intros q i x s Hx Hs. rewrite lookup_swap_list in Hs by lia. rewrite list_lookup_fmap in Hx. destruct (T !! q) as [z|] eqn:Ez; [|done]. injection Hx as <-.
    rewrite (H3 _ _ _ _ Ez Hs). split; [intros ->; by rewrite swap_z_idx, swap_idx_invol|]. intros E. unfold swap_z, swap_idx in *. repeat case_decide; lia.
  - intros i s q Hs. rewrite lookup_swap_list in Hs by lia. by eapply H4.
  - intros q x Hx. rewrite list_lookup_fmap in Hx. destruct (T !! q) as [z|] eqn:Ez; [|done]. injection Hx as <-.
    destruct (H5 _ _ Ez) as [->|Hr]; [left; apply swap_z_neg; lia|]. right. unfold swap_z. repeat case_decide; lia.
Qed.

Lemma swap_seq_mark n T Q K d t q : tails_ok n T Q → length K = n → d < n → t < n →
  seq_mark (swap_z d t <$> T) (swap_list d t K) q = seq_mark T K q.
Proof.
  intros H HK Hd Ht. unfold seq_mark. rewrite list_lookup_fmap. destruct (T !! q) as [x|] eqn:Ex; [|done]. cbn [fmap option_fmap option_map mbind option_bind].
  destruct (decide (0 ≤ x)%Z) as [Hx|Hx].
  - clear Ex. assert (x = Z.of_nat (Z.to_nat x)) as E by lia. revert E. generalize (Z.to_nat x). intros y ->.
    rewrite swap_z_idx, decide_True, Nat2Z.id by lia. by rewrite lookup_swap_list, swap_idx_invol by lia.
  - rewrite swap_z_neg by lia. by rewrite decide_False.
Qed.

Section gather.
Context {A : Type} (zero : A) (data : nat → A) (n : nat) (W : nat → option (Z * A)).
Abbreviation virt := (virt zero data n W).

Lemma virt_swap lo hi P T Q Qv K d t : virt lo hi P T Q Qv K → d < n → t < n → (lo ≤ Z.of_nat d ≤ hi)%Z → (lo ≤ Z.of_nat t ≤ hi)%Z →
  virt lo hi P (swap_z d t <$> T) (swap_list d t Q) (swap_list d t Qv) (swap_list d t K).
Proof.
  intros Hv Hd Ht Hdr Htr. destruct Hv. pose proof (to_Q _ _ _ vi_tails0) as HlQv.
  assert (∀ i, (lo ≤ Z.of_nat i ≤ hi)%Z ↔ (lo ≤ Z.of_nat (swap_idx d t i) ≤ hi)%Z) as Hrange.
  { intros i. unfold swap_idx. repeat case_decide; subst; lia. }
  assert (∀ i, ¬ (lo ≤ Z.of_nat i ≤ hi)%Z → swap_idx d t i = i) as Hout.
  { intros i Hi. unfold swap_idx. repeat case_decide; subst; tauto. }
  split; rewrite ?length_swap_list; try done.
  - by apply swap_tails_ok.
  - intros i s sv. rewrite !lookup_swap_list by lia. apply vi_looks0.
  - intros p Hp. destruct (vi_own0 p Hp) as (i & H1 & H2 & H3). exists (swap_idx d t i). rewrite list_lookup_fmap, H1, lookup_swap_list, swap_idx_invol by lia.
    cbn [fmap option_fmap option_map]. rewrite swap_z_idx. split; [done|]. split; [done|]. by apply Hrange in H3.
  - intros i k. rewrite lookup_swap_list by lia. intros Hk. destruct (vi_src0 _ _ Hk) as [H1 H2]. split; [done|].
    destruct (decide (lo ≤ Z.of_nat i ≤ hi)%Z) as [|Hi]; [by left|]. rewrite Hout in H2 by done. done.
  - intros i k. rewrite !lookup_swap_list by lia. apply vi_zero0.
  - intros q Hq. rewrite (swap_seq_mark n T Qv) by done. by apply vi_other0.
  - intros q Hq. rewrite (swap_seq_mark n T Qv) by done. by apply vi_start0.
  - intros q k Hq. rewrite (swap_seq_mark n T Qv) by done. by apply vi_pos0.
Qed.

Lemma swap_cells_ok cells d t : d < length cells → t < length cells →
  okP (dst ← vget cells d; src ← vget cells t;
       cells ← vset cells d (set_content (m_pos src) (m_src src) (m_seqs src) dst);
       cells ← upd cells t (set_content (m_pos dst) (m_src dst) (m_seqs dst));
       Ok (swap_tail (Z.of_nat t) (Z.of_nat d) <$> (cells : list mem_cell)))
    (λ cells', has_parts cells' (swap_z d t <$> tails cells) (swap_list d t (seqs cells)) (swap_list d t (marks cells))).
Proof.
  intros Hd Ht. destruct (lookup_lt_is_Some_2 _ _ Hd) as [x Hx], (lookup_lt_is_Some_2 _ _ Ht) as [y Hy].
  rewrite (vget_ok _ _ _ Hx), bind_Ok, (vget_ok _ _ _ Hy), bind_Ok, vset_ok by done. rewrite bind_Ok.
  set (cells1 := <[d := _]> cells). destruct (lookup_lt_is_Some_2 cells1 t) as [y' Hy']; [unfold cells1; by rewrite length_insert|].
  rewrite (upd_ok _ _ _ _ Hy'), bind_Ok. cbn [okP]. set (cells2 := <[t := _]> cells1).
  assert (tails cells2 = tails cells) as HT.
  { unfold cells2. rewrite tails_insert. cbn [m_tail set_content]. rewrite list_insert_id by by apply lookup_tails. unfold cells1. rewrite tails_insert.
    cbn [m_tail set_content]. by rewrite list_insert_id by by apply lookup_tails. }
  assert (seqs cells2 = swap_list d t (seqs cells)) as HQ.
  { unfold cells2, cells1, swap_list. rewrite !seqs_insert, (lookup_seqs _ _ _ Hx), (lookup_seqs _ _ _ Hy). done. }
  assert (marks cells2 = swap_list d t (marks cells)) as HK.
  { unfold cells2, cells1, swap_list. rewrite !marks_insert, (lookup_marks _ _ _ Hx), (lookup_marks _ _ _ Hy). done. }
  assert (∀ c, m_seqs (swap_tail (Z.of_nat t) (Z.of_nat d) c) = m_seqs c ∧ m_pos (swap_tail (Z.of_nat t) (Z.of_nat d) c) = m_pos c ∧
    m_src (swap_tail (Z.of_nat t) (Z.of_nat d) c) = m_src c ∧ m_tail (swap_tail (Z.of_nat t) (Z.of_nat d) c) = swap_z d t (m_tail c)) as Hsw.
  { intros c. unfold swap_tail, swap_z. repeat case_decide; subst; by repeat split. }
  split; [|split].
  - rewrite <- HT. unfold tails. rewrite <- !list_fmap_compose. apply list_fmap_ext. intros i c _. apply Hsw.
  - rewrite <- HQ. unfold seqs. rewrite <- list_fmap_compose. apply list_fmap_ext. intros i c _. apply Hsw.
  - rewrite <- HK. unfold marks. rewrite <- list_fmap_compose. apply list_fmap_ext. intros i c _. cbn. by destruct (Hsw c) as (_ & -> & -> & _).
Qed.

Definition gathered (lo : nat) (hi : Z) (P : list nat) (s : nat) (cells : mem_cells) : Prop :=
  (∃ Qv, virt (Z.of_nat lo) hi P (tails cells) (seqs cells) Qv (marks cells)) ∧
  (∀ j p, j < s → P !! j = Some p → tails cells !! p = Some (Z.of_nat (lo + j))).

Lemma gather_set_ok lo hi P u s p cells : primary u s = Ok (Z.of_nat p) → p < n → P !! s = Some p → NoDup P → gathered lo hi P s cells →
  okP (gather_set u (Z.of_nat lo) cells s) (gathered lo hi P (S s)).
Proof.
  intros Hprim Hp HPs Hnd ((Qv & Hv) & Hg). pose proof (virt_length _ _ _ _ _ _ _ _ _ Hv) as Hl.
  assert (p ∈ P) as HpP by by eapply list_elem_of_lookup_2.
  destruct (vi_own _ _ _ _ _ _ _ _ _ _ _ Hv p HpP) as (t & HT & HQ & Hr). pose proof (lookup_lt_Some _ _ _ HQ) as Ht. rewrite (to_Q _ _ _ (vi_tails _ _ _ _ _ _ _ _ _ _ _ Hv)) in Ht.
  assert (∀ j p', j < s → P !! j = Some p' → lo + j ≠ t) as Hne.
  { intros j p' Hj Hp' E. pose proof (Hg j p' Hj Hp') as HT'. rewrite E in HT'. assert (p' ∈ P) as Hin by by eapply list_elem_of_lookup_2.
    destruct (vi_own _ _ _ _ _ _ _ _ _ _ _ Hv p' Hin) as (t' & HT2 & HQ2 & _). rewrite HT' in HT2. injection HT2 as HT2. assert (t' = t) as -> by lia. rewrite HQ in HQ2. apply (inj Some) in HQ2.
    assert (p' = p) as ->; [assert (Z.of_nat p ∈ ({[Z.of_nat p']} : gset Z)) as Hz by (rewrite <- HQ2; set_solver); apply elem_of_singleton in Hz; lia|].
    assert (j = s) by (by eapply NoDup_lookup). lia. }
  assert (lo + s ≤ t) as Hge.
  { destruct (decide (lo + s ≤ t)) as [|Hlt]; [done|]. assert (t - lo < s) as Hj by lia. destruct (lookup_lt_is_Some_2 P (t - lo)) as [p' Hp'].
    { apply lookup_lt_Some in HPs. lia. }
    destruct (Hne _ _ Hj Hp'). lia. }
  unfold gather_set. rewrite Hprim, bind_Ok, (idx_ok (Z.of_nat p)) by lia. rewrite bind_Ok, Nat2Z.id.
  destruct (lookup_tails_inv _ _ _ HT) as (c & Hc & Hct). rewrite (vget_ok _ _ _ Hc), bind_Ok, Hct. cbv zeta.
  destruct (decide (Z.of_nat s + Z.of_nat lo = Z.of_nat t)%Z) as [E|Hdt].
  - cbn [okP]. split; [by exists Qv|]. intros j p' Hj Hp'. destruct (decide (j = s)) as [->|]; [|apply Hg; [lia|done]]. simplify_eq. rewrite HT. f_equal. lia.
  - rewrite (idx_ok (Z.of_nat s + Z.of_nat lo)) by lia. rewrite bind_Ok, (idx_ok (Z.of_nat t)) by lia. rewrite bind_Ok, Nat2Z.id. replace (Z.to_nat (Z.of_nat s + Z.of_nat lo)) with (lo + s) by lia.
    replace (Z.of_nat s + Z.of_nat lo)%Z with (Z.of_nat (lo + s)) by lia.
    eapply okP_mono; [apply (swap_cells_ok cells (lo + s) t); lia|]. intros cells' (P1 & P2 & P3). split.
    + exists (swap_list (lo + s) t Qv). rewrite P1, P2, P3. apply virt_swap; [done|lia..].
    + intros j p' Hj Hp'. rewrite P1, list_lookup_fmap. destruct (decide (j = s)) as [->|Hjs].
      * simplify_eq. rewrite HT. cbn. rewrite swap_z_idx. unfold swap_idx. by rewrite decide_True.
      * assert (j < s) as Hjs' by lia. rewrite (Hg _ _ Hjs' Hp'). cbn. rewrite swap_z_idx. unfold swap_idx. rewrite decide_False by (by eapply Hne).
        by rewrite decide_False by lia.
Qed.
End gather.

(** *** Writing the sets to their cells *)

Lemma upd_content_parts cells i p : i < length cells → ∃ cells', upd cells i (λ c, set_content p (m_src c) ∅ c) = Ok cells' ∧
  tails cells' = tails cells ∧ seqs cells' = <[i := ∅]> (seqs cells) ∧ ∀ k, marks cells !! i = Some k → marks cells' = <[i := (p, k.2)]> (marks cells).
Proof.
  intros Hi. destruct (lookup_lt_is_Some_2 _ _ Hi) as [c Hc]. rewrite (upd_ok _ _ _ _ Hc). eexists. split; [done|].
  rewrite tails_insert, seqs_insert, marks_insert. cbn [m_tail m_seqs m_pos m_src set_content]. split; [by rewrite list_insert_id by by apply lookup_tails|].
  split; [done|]. intros k. rewrite (lookup_marks _ _ _ Hc). by intros [= <-].
Qed.

Lemma place_ids_ok i ids cells s0 : seqs cells !! i = Some s0 → (∀ q, q ∈ ids → q < length cells) →
  okP (foldM (λ cells q, cells ← upd cells i (λ c, set_mseqs (m_seqs c ∪ {[q]}) c); qi ← idx q; upd cells qi (set_tail (Z.of_nat i)))
    cells (Z.of_nat <$> ids)) (λ cells',
      seqs cells' = <[i := s0 ∪ list_to_set (Z.of_nat <$> ids)]> (seqs cells) ∧ marks cells' = marks cells ∧ length cells' = length cells ∧
      ∀ q, tails cells' !! q = if decide (q ∈ ids) then Some (Z.of_nat i) else tails cells !! q).
Proof.
  revert cells s0. induction ids as [|q ids IH]; intros cells s0 Hs Hlt; cbn [fmap list_fmap foldM].
  - cbn [okP]. split; [|split; [done|split; [done|by intros q; rewrite decide_False by set_solver]]]. cbn. rewrite union_empty_r_L. by rewrite list_insert_id.
  - destruct (lookup_seqs_inv _ _ _ Hs) as (c & Hc & <-). rewrite (upd_ok _ _ _ _ Hc), bind_Ok, idx_ok by lia. rewrite bind_Ok, Nat2Z.id.
    set (cells1 := <[i := _]> cells). assert (has_parts cells1 (tails cells) (<[i := m_seqs c ∪ {[Z.of_nat q]}]> (seqs cells)) (marks cells)) as Hparts.
    { unfold has_parts, cells1. rewrite tails_insert, seqs_insert, marks_insert. cbn.
      rewrite (list_insert_id (tails cells)) by by apply lookup_tails. by rewrite (list_insert_id (marks cells)) by by apply lookup_marks. }
    destruct (upd_tail_parts cells1 q (Z.of_nat i) _ _ _ Hparts) as (cells2 & -> & P1 & P2 & P3); [unfold cells1; rewrite length_insert; apply Hlt; by left|].
    rewrite bind_Ok. assert (length cells2 = length cells) as Hl by (rewrite <- length_marks, P3; apply length_marks).
    pose proof (lookup_lt_Some _ _ _ Hc) as Hi.
    eapply okP_mono; [apply (IH cells2 (m_seqs c ∪ {[Z.of_nat q]}))|].
    + rewrite P2. apply list_lookup_insert_eq. by rewrite length_seqs.
    + intros q' Hq'. rewrite Hl. apply Hlt. by right.
    + intros cells' (H1 & H2 & H3 & H4). split; [|split; [by rewrite H2|split; [by rewrite H3|]]].
      * rewrite H1, P2, list_insert_insert_eq. cbn. f_equal. set_solver.
      * intros q'. rewrite H4, P1. destruct (decide (q' ∈ ids)); [by rewrite decide_True by set_solver|].
        destruct (decide (q' = q)) as [->|]; [|by rewrite decide_False, list_lookup_insert_ne by set_solver].
        rewrite decide_True by left. apply list_lookup_insert_eq. rewrite length_tails. apply Hlt. by left.
Qed.

Section place.
Context (lo : nat) (u : llama_ubatch) (L : list (list nat)) (ps : list Z) (Hu : rec_fits u L ps).

(** the cells after the sets before [s] were written, from those before *)
Record placed (cells : mem_cells) (s : nat) (cells' : mem_cells) : Prop := {
  pl_length : length cells' = length cells;
  pl_tail_in : ∀ j ids q, j < s → L !! j = Some ids → q ∈ ids → tails cells' !! q = Some (Z.of_nat (lo + j));
  pl_tail_out : ∀ q, q ∉ concat (take s L) → tails cells' !! q = tails cells !! q;
  pl_seqs_in : ∀ j ids, j < s → L !! j = Some ids → seqs cells' !! (lo + j) = Some (list_to_set (Z.of_nat <$> ids));
  pl_seqs_out : ∀ i, (∀ j, j < s → i ≠ lo + j) → seqs cells' !! i = seqs cells !! i;
  pl_marks_in : ∀ j p k, j < s → ps !! j = Some p → marks cells !! (lo + j) = Some k → marks cells' !! (lo + j) = Some (p, k.2);
  pl_marks_out : ∀ i, (∀ j, j < s → i ≠ lo + j) → marks cells' !! i = marks cells !! i
}.

Lemma place_set_ok cells s cells' : s < length L → (∀ q, q ∈ concat L → q < length cells) → lo + s < length cells → placed cells s cells' →
  okP (place_set u (Z.of_nat lo) cells' s) (placed cells (S s)).
Proof.
  intros Hs Hlt Hlo []. destruct (lookup_lt_is_Some_2 _ _ Hs) as [ids Hids]. destruct (lookup_lt_is_Some_2 ps s) as [p Hp]; [by rewrite (rf_len _ _ _ Hu)|].
  unfold place_set. rewrite (vget_ok _ _ _ (rf_last _ _ _ Hu _ _ Hp)), bind_Ok, idx_ok by lia. rewrite bind_Ok, (rf_ids _ _ _ Hu _ _ Hids), bind_Ok.
  replace (Z.to_nat (Z.of_nat s + Z.of_nat lo)) with (lo + s) by lia. replace (Z.of_nat s + Z.of_nat lo)%Z with (Z.of_nat (lo + s)) by lia.
  destruct (upd_content_parts cells' (lo + s) p) as (cells1 & -> & P1 & P2 & P3); [lia|]. rewrite bind_Ok.
  destruct (lookup_lt_is_Some_2 (marks cells') (lo + s)) as [k Hk]; [rewrite length_marks; lia|]. specialize (P3 k Hk).
  assert (length cells1 = length cells) as Hl1 by (rewrite <- length_tails, P1, length_tails; done).
  assert (∀ q, q ∈ ids → q ∈ concat L) as Hin by (intros q Hq; apply elem_of_concat; exists ids; split; [by eapply list_elem_of_lookup_2|done]).
  assert (seqs cells1 !! (lo + s) = Some ∅) as Hempty by (rewrite P2; apply list_lookup_insert_eq; rewrite length_seqs; lia).
  eapply okP_mono; [apply (place_ids_ok (lo + s) ids cells1 ∅ Hempty)|]; [intros q Hq; rewrite Hl1; apply Hlt, Hin, Hq|].
  intros cells2 (H1 & H2 & H3 & H4). rewrite P2, list_insert_insert_eq, union_empty_l_L in H1. rewrite P3 in H2. rewrite P1 in H4.
  split.
  - by rewrite H3.
  - intros j ids' q Hj Hj' Hq. rewrite H4. destruct (decide (q ∈ ids)) as [Hqi|Hqi].
    + assert (j = s) as ->; [|done]. eapply concat_nodup_index; [apply (rf_nodup _ _ _ Hu)|exact Hj'|exact Hids|done..].
    + eapply pl_tail_in0; [|done..]. assert (j ≠ s) by congruence. lia.
  - intros q. rewrite (take_S_r _ _ _ Hids), concat_app. cbn [concat]. rewrite app_nil_r. intros Hq. rewrite H4, decide_False by set_solver.
    apply pl_tail_out0. set_solver.
  - intros j ids' Hj Hj'. rewrite H1. destruct (decide (j = s)) as [->|].
    + simplify_eq. apply list_lookup_insert_eq. rewrite length_seqs. lia.
    + rewrite list_lookup_insert_ne by lia. apply pl_seqs_in0; [lia|done].
  - intros i Hi. rewrite H1, list_lookup_insert_ne by (intros <-; apply (Hi s); lia). apply pl_seqs_out0. intros j Hj. apply Hi. lia.
  - intros j p' k' Hj Hj' Hk'. rewrite H2. destruct (decide (j = s)) as [->|].
    + rewrite pl_marks_out0 in Hk by (intros j' Hj1; lia). simplify_eq. apply list_lookup_insert_eq. rewrite length_marks. lia.
    + rewrite list_lookup_insert_ne by lia. by apply pl_marks_in0; [lia|..].
  - intros i Hi. rewrite H2, list_lookup_insert_ne by (intros <-; apply (Hi s); lia). apply pl_marks_out0. intros j Hj. apply Hi. lia.
Qed.

Lemma place_sets_ok cells : (∀ q, q ∈ concat L → q < length cells) → lo + length L ≤ length cells →
  okP (foldM (place_set u (Z.of_nat lo)) cells (seq 0 (n_seqs u))) (placed cells (length L)).
Proof.
  intros Hlt Hlo. rewrite (rf_n _ _ _ Hu). apply (okP_for _ (placed cells)).
  - split; try done; intros; lia.
  - intros s cells' Hs Hp. apply place_set_ok; [done|done|lia|done].
Qed.
End place.

(** *** Staging the sources *)

Lemma refcounts_ok cells : (∀ c, c ∈ cells → (m_src c = -1 ∨ 0 ≤ m_src c < Z.of_nat (length cells))%Z) →
  okP (refcounts cells) (λ rc, length rc = length cells ∧ ∀ i, rc !! i = Some 0 ↔ i < length cells ∧ ∀ c, c ∈ cells → m_src c ≠ Z.of_nat i).
Proof.
  intros H. unfold refcounts. set (n := length cells) in *.
  eapply okP_mono; [apply (okP_foldM _ (λ pre rc, length rc = n ∧ ∀ i, rc !! i = Some 0 ↔ i < n ∧ ∀ c, c ∈ pre → m_src c ≠ Z.of_nat i))|done].
  - split; [apply length_replicate|]. intros i. rewrite lookup_replicate. split; [intros [_ ?]; split; [done|set_solver]|tauto].
  - intros pre c post rc Hl [Hlen Hrc]. assert (c ∈ cells) as Hc by (rewrite Hl; set_solver). destruct (H c Hc) as [E|Hr].
    + rewrite decide_False by lia. cbn [okP]. split; [done|]. intros i. rewrite Hrc. split.
      * intros [Hi Hpre]. split; [done|]. intros d [Hd|Hd]%elem_of_app; [by apply Hpre|]. apply list_elem_of_singleton in Hd as ->. lia.
      * intros [Hi Hpre]. split; [done|]. intros d Hd. apply Hpre. set_solver.
    + rewrite decide_True by lia. destruct (lookup_lt_is_Some_2 rc (Z.to_nat (m_src c))) as [x Hx]; [lia|]. rewrite (vget_ok _ _ _ Hx), bind_Ok, vset_ok by lia.
      cbn [okP]. split; [by rewrite length_insert|]. intros i. destruct (decide (i = Z.to_nat (m_src c))) as [->|Hne].
      * rewrite list_lookup_insert_eq by lia. split; [done|]. intros [_ Hd]. destruct (Hd c); [set_solver|lia].
      * rewrite list_lookup_insert_ne, Hrc by done. split; (intros [Hi Hpre]; split; [done|]).
        -- intros d [Hd|Hd]%elem_of_app; [by apply Hpre|]. apply list_elem_of_singleton in Hd as ->. lia.
        -- intros d Hd. apply Hpre. set_solver.
Qed.

(** One of the cells of a range has no references if another one has no source: cells outside refer to themselves only. *)
Lemma unreferenced cells lo k i c : lo + k ≤ length cells →
  (∀ j d, cells !! j = Some d → lo ≤ j < lo + k ∨ (m_src d = -1)%Z ∨ m_src d = Z.of_nat j) →
  lo ≤ i < lo + k → cells !! i = Some c → (m_src c < 0)%Z → ∃ z, lo ≤ z < lo + k ∧ ∀ d, d ∈ cells → m_src d ≠ Z.of_nat z.
Proof.
  intros Hk Hsrc Hi Hc Hneg. destruct (decide (Exists (λ z, Forall (λ d, m_src d ≠ Z.of_nat z) cells) (seq lo k))) as [(z & Hz & HF)%Exists_exists|Hno].
  { apply elem_of_seq in Hz. exists z. split; [done|]. by apply Forall_forall. }
  exfalso. set (range := seq lo k). set (f := λ j, from_option (λ d, Z.to_nat (m_src d)) 0 (cells !! j)).
  assert (∀ z, lo ≤ z < lo + k → ∃ j, lo ≤ j < lo + k ∧ j ≠ i ∧ f j = z) as Href.
  { intros z Hz. assert (¬ Forall (λ d, m_src d ≠ Z.of_nat z) cells) as HF.
    { intros HF. apply Hno, Exists_exists. exists z. split; [apply elem_of_seq; lia|done]. }
    apply not_Forall_Exists in HF; [|apply _]. apply Exists_exists in HF as (d & (j & Hj)%list_elem_of_lookup & Hd). apply dec_stable in Hd.
    exists j. unfold f. rewrite Hj. cbn [from_option]. split; [destruct (Hsrc j d Hj) as [?|[?|?]]; lia|]. split; [|lia]. intros ->. simplify_eq. lia. }
  assert (NoDup range) as Hnd by apply NoDup_seq.
  assert (range ⊆ f <$> filter (λ j, j ≠ i) range) as Hsub.
  { intros z Hz. apply elem_of_seq in Hz. destruct (Href z Hz) as (j & Hj & Hji & <-). apply list_elem_of_fmap_2. apply list_elem_of_filter. split; [done|].
    apply elem_of_seq. lia. }
  pose proof (submseteq_length _ _ (NoDup_submseteq _ _ Hnd Hsub)) as Hlen. rewrite length_fmap in Hlen.
  assert (length (filter (λ j, j ≠ i) range) < length range); [|lia].
  apply length_filter_lt with (x := i); [apply elem_of_seq; lia|tauto].
Qed.

Lemma stage_src_ok z cells i c : cells !! i = Some c → (m_src c < 0 → 0 ≤ z)%Z →
  stage_src z cells i = Ok (<[i := set_src (Z.of_nat i) (if decide (m_src c < 0)%Z then z else m_src c) c]> cells).
Proof.
  intros Hc Hz. unfold stage_src. rewrite (vget_ok _ _ _ Hc), bind_Ok. pose proof (lookup_lt_Some _ _ _ Hc).
  destruct (decide (m_src c < 0)%Z); [rewrite ggml_assert_ok by (apply bool_decide_eq_true_2; auto)|]; rewrite bind_Ok; by apply vset_ok.
Qed.

Definition staged (z : Z) (i : nat) (c : mem_cell) : mem_cell := set_src (Z.of_nat i) (if decide (m_src c < 0)%Z then z else m_src c) c.

Lemma stage_range_ok z cells lo k : lo + k ≤ length cells → (∀ i c, lo ≤ i < lo + k → cells !! i = Some c → (m_src c < 0)%Z → (0 ≤ z)%Z) →
  okP (foldM (stage_src z) cells (seq lo k)) (λ cells', length cells' = length cells ∧
    ∀ i c, cells !! i = Some c → cells' !! i = Some (if decide (lo ≤ i < lo + k) then staged z i c else c)).
Proof.
  intros Hk Hz. eapply okP_mono; [apply (okP_foldM _ (λ pre cells', length cells' = length cells ∧
    ∀ i c, cells !! i = Some c → cells' !! i = Some (if decide (i ∈ pre) then staged z i c else c)))|].
  - split; [done|]. intros i c Hc. by rewrite decide_False by set_solver.
  - intros pre j post cells' Hl [Hlen Hlk]. assert (j ∈ seq lo k) as Hj by (rewrite Hl; set_solver). apply elem_of_seq in Hj.
    assert (j ∉ pre) as Hnp. { pose proof (NoDup_seq lo k) as Hnd. rewrite Hl in Hnd. apply NoDup_app in Hnd as (_ & Hd & _). intros Hp. apply (Hd j Hp). by left. }
    destruct (lookup_lt_is_Some_2 cells j) as [c Hc]; [lia|]. pose proof (Hlk _ _ Hc) as Hc'. rewrite decide_False in Hc' by done.
    rewrite (stage_src_ok _ _ _ c Hc') by (intros ?; by apply (Hz j c)). cbn [okP]. split; [by rewrite length_insert|]. intros i d Hd.
    destruct (decide (i = j)) as [->|Hne].
    + rewrite list_lookup_insert_eq by lia. rewrite (decide_True (P := j ∈ pre ++ [j])) by set_solver. by assert (d = c) as -> by congruence.
    + rewrite list_lookup_insert_ne, (Hlk _ _ Hd) by done. destruct (decide (i ∈ pre)); [by rewrite decide_True by set_solver|by rewrite decide_False by set_solver].
  - intros cells' [Hlen Hlk]. split; [done|]. intros i c Hc. rewrite (Hlk _ _ Hc). destruct (decide (lo ≤ i < lo + k)) as [Hi|Hi].
    + by rewrite decide_True by (apply elem_of_seq; lia).
    + by rewrite decide_False by (rewrite elem_of_seq; lia).
Qed.

Lemma zeroed_cell_ok rc l z : zeroed_cell rc l = z → (z = (-1)%Z ∧ ∀ i, i ∈ l → rc !! i ≠ Some 0) ∨ ∃ i, i ∈ l ∧ z = Z.of_nat i ∧ rc !! i = Some 0.
Proof.
  unfold zeroed_cell. destruct (find _ l) as [i|] eqn:E; intros <-.
  - right. apply find_some in E as [Hin Hb]. apply bool_decide_eq_true_1 in Hb. exists i. split; [by apply list_elem_of_In|done].
  - left. split; [done|]. intros i Hi Hrc. apply list_elem_of_In in Hi. pose proof (find_none _ _ E i Hi) as Hf. cbn in Hf.
    by rewrite bool_decide_true in Hf.
Qed.

(** *** The cells when the micro-batch is in place *)

Section finish.
Context {A : Type} (zero : A) (data : nat → A) (n : nat) (W : nat → option (Z * A)).
Context (lo : nat) (hi : Z) (u : llama_ubatch) (L : list (list nat)) (ps : list Z) (Hu : rec_fits u L ps).
Context (Hlt : ∀ q, q ∈ concat L → q < n).
Abbreviation P := ((λ ids, hd 0 ids) <$> L).
Context (Hsec : ∀ q, q ∈ concat L → q ∉ P → W q = None).

Lemma P_lookup s ids : L !! s = Some ids → ∃ p ids', ids = p :: ids' ∧ P !! s = Some p ∧ p ∈ concat L.
Proof.
  intros Hs. destruct (rf_primary _ _ _ Hu _ _ Hs) as (p & ids' & -> & _). exists p, ids'. split; [done|].
  split; [by rewrite list_lookup_fmap, Hs|]. apply elem_of_concat. exists (p :: ids'). split; [by eapply list_elem_of_lookup_2|by left].
Qed.

Lemma P_lookup_inv s p : P !! s = Some p → ∃ ids', L !! s = Some (p :: ids').
Proof.
  rewrite list_lookup_fmap. destruct (L !! s) as [ids|] eqn:E; [|done]. destruct (rf_primary _ _ _ Hu _ _ E) as (q & ids' & -> & _).
  intros [= <-]. by exists ids'.
Qed.

Lemma P_concat p : p ∈ P → p ∈ concat L.
Proof.
  intros (s & Hs)%list_elem_of_lookup. destruct (P_lookup_inv _ _ Hs) as (ids' & Hl). apply elem_of_concat.
  exists (p :: ids'). split; [by eapply list_elem_of_lookup_2|by left].
Qed.

Lemma P_NoDup : NoDup P.
Proof.
  apply NoDup_alt. intros i j p (ids1 & Hi)%P_lookup_inv (ids2 & Hj)%P_lookup_inv.
  eapply concat_nodup_index; [apply (rf_nodup _ _ _ Hu)|exact Hi|exact Hj|by left..].
Qed.

Context (cells cells' : mem_cells).
Context (Hg : gathered zero data n W lo hi P (length L) cells) (Hp : placed lo L ps cells (length L) cells').

(** the cells of the sets before they were written *)
Lemma own_cell s p : P !! s = Some p → tails cells !! p = Some (Z.of_nat (lo + s)) ∧ lo + s < n ∧ (Z.of_nat (lo + s) ≤ hi)%Z ∧
  (∀ Qv, virt zero data n W (Z.of_nat lo) hi P (tails cells) (seqs cells) Qv (marks cells) → Qv !! (lo + s) = Some {[Z.of_nat p]}).
Proof.
  intros Hs. destruct Hg as [[Qv Hv] Ht]. assert (s < length L) as Hs'. { apply lookup_lt_Some in Hs. by rewrite length_fmap in Hs. }
  pose proof (Ht s p Hs' Hs) as HT. split; [done|].
  assert (p ∈ P) as Hin by by eapply list_elem_of_lookup_2.
  assert (∀ Qv, virt zero data n W (Z.of_nat lo) hi P (tails cells) (seqs cells) Qv (marks cells) → Qv !! (lo + s) = Some {[Z.of_nat p]} ∧ (Z.of_nat (lo + s) ≤ hi)%Z) as H.
  { intros Qv' Hv'. destruct (vi_own _ _ _ _ _ _ _ _ _ _ _ Hv' p Hin) as (i & H1 & H2 & H3). rewrite HT in H1. injection H1 as H1. assert (i = lo + s) as -> by lia. split; [done|lia]. }
  destruct (H _ Hv) as [H1 H2]. split; [|split; [done|intros Qv' Hv'; by apply H]].
  apply lookup_lt_Some in H1. by rewrite (to_Q _ _ _ (vi_tails _ _ _ _ _ _ _ _ _ _ _ Hv)) in H1.
Qed.

Lemma target_dec i : (∃ s ids, s < length L ∧ L !! s = Some ids ∧ i = lo + s) ∨ ∀ j, j < length L → i ≠ lo + j.
Proof.
  destruct (decide (lo ≤ i < lo + length L)) as [Hi|Hi]; [left|right; intros; lia].
  destruct (lookup_lt_is_Some_2 L (i - lo)) as [ids Hids]; [lia|]. exists (i - lo), ids. split; [lia|]. split; [done|lia].
Qed.

(** a sequence that is not in the micro-batch keeps its cell, which is none of those of the sets *)
Lemma other_cell q i : q ∉ concat L → tails cells !! q = Some (Z.of_nat i) → tails cells' !! q = Some (Z.of_nat i) ∧ ∀ j, j < length L → i ≠ lo + j.
Proof.
  intros Hq Ht. rewrite (pl_tail_out _ _ _ _ _ _ Hp) by by rewrite take_ge. split; [done|]. intros j Hj ->.
  destruct (lookup_lt_is_Some_2 _ _ Hj) as [ids Hids]. destruct (P_lookup _ _ Hids) as (p & ids' & -> & HP & Hin).
  destruct Hg as [[Qv Hv] _]. destruct (own_cell _ _ HP) as (_ & _ & _ & HQ). specialize (HQ _ Hv).
  assert (Z.of_nat q ∈ ({[Z.of_nat p]} : gset Z)) as Hz%elem_of_singleton.
  { by apply (to_iff _ _ _ (vi_tails _ _ _ _ _ _ _ _ _ _ _ Hv) _ _ _ _ Ht HQ). }
  assert (q = p) by lia. by subst.
Qed.

Lemma fin_seqs i s Qv : virt zero data n W (Z.of_nat lo) hi P (tails cells) (seqs cells) Qv (marks cells) → seqs cells' !! i = Some s →
  (∃ j ids, L !! j = Some ids ∧ i = lo + j ∧ s = list_to_set (Z.of_nat <$> ids)) ∨ (∀ j, j < length L → i ≠ lo + j) ∧ Qv !! i = Some s ∧ seqs cells !! i = Some s.
Proof.
  intros Hv Hs. destruct (target_dec i) as [(j & ids & Hj & Hids & ->)|Hno].
  - left. exists j, ids. rewrite (pl_seqs_in _ _ _ _ _ _ Hp _ _ Hj Hids) in Hs. apply (inj Some) in Hs. done.
  - right. split; [done|]. rewrite (pl_seqs_out _ _ _ _ _ _ Hp _ Hno) in Hs. split; [|done].
    destruct (lookup_lt_is_Some_2 Qv i) as [sv Hsv].
    { rewrite (to_Q _ _ _ (vi_tails _ _ _ _ _ _ _ _ _ _ _ Hv)), <- (vi_Q _ _ _ _ _ _ _ _ _ _ _ Hv). by apply lookup_lt_Some in Hs. }
    destruct (vi_looks _ _ _ _ _ _ _ _ _ _ _ Hv _ _ _ Hs Hsv) as [->|(-> & p & (j & Hj)%list_elem_of_lookup & ->)]; [done|].
    destruct (own_cell _ _ Hj) as (Ht & _). apply lookup_lt_Some in Hj as Hjl. rewrite length_fmap in Hjl. destruct (Hno j); [done|].
    assert (Z.of_nat p ∈ ({[Z.of_nat p]} : gset Z)) as Hin by set_solver.
    apply (to_iff _ _ _ (vi_tails _ _ _ _ _ _ _ _ _ _ _ Hv) _ _ _ _ Ht Hsv) in Hin. lia.
Qed.

Lemma fin_tails : tails_ok n (tails cells') (seqs cells').
Proof.
  destruct Hg as [[Qv Hv] Hgt]. pose proof (vi_tails _ _ _ _ _ _ _ _ _ _ _ Hv) as Ht. pose proof (virt_length _ _ _ _ _ _ _ _ _ Hv) as Hl.
  assert (length cells' = n) as Hl' by (rewrite (pl_length _ _ _ _ _ _ Hp); done).
  assert (∀ q, (∃ j ids, L !! j = Some ids ∧ q ∈ ids ∧ tails cells' !! q = Some (Z.of_nat (lo + j))) ∨
    ((q ∉ concat L) ∧ tails cells' !! q = tails cells !! q)) as Hcase.
  { intros q. destruct (decide (q ∈ concat L)) as [Hq|Hq].
    - left. apply elem_of_concat in Hq as (ids & (j & Hj)%list_elem_of_lookup & Hq). exists j, ids. split; [done|]. split; [done|].
      eapply (pl_tail_in _ _ _ _ _ _ Hp); [by apply lookup_lt_Some in Hj|done..].
    - right. split; [done|]. apply (pl_tail_out _ _ _ _ _ _ Hp). by rewrite take_ge. }
  split; [by rewrite length_tails|by rewrite length_seqs|..].
  - intros q i t s Hq Hs. destruct (Hcase q) as [(j & ids & Hids & Hqi & E)|[Hqn E]]; rewrite E in Hq.
    + injection Hq as <-. destruct (fin_seqs _ _ _ Hv Hs) as [(j' & ids' & Hids' & -> & ->)|(Hno & HQ & _)].
      * rewrite elem_of_list_to_set, list_elem_of_fmap. split.
        -- intros (q' & Eq & Hq'). assert (q' = q) as -> by lia. assert (j = j') as ->; [|done].
           eapply concat_nodup_index; [apply (rf_nodup _ _ _ Hu)|exact Hids|exact Hids'|done..].
        -- intros E'. assert (j' = j) as -> by lia. simplify_eq. by exists q.
      * assert (j < length L) as Hjl by by apply lookup_lt_Some in Hids. split; [|intros E'; destruct (Hno j); lia].
        intros Hin. exfalso. destruct (tails_ok_in _ _ _ _ _ _ Ht HQ Hin) as [HT _]. rewrite Nat2Z.id in HT.
        destruct (decide (q ∈ P)) as [HqP|HqP].
        -- apply list_elem_of_lookup in HqP as (s' & Hs'). destruct (own_cell _ _ Hs') as (HT' & _). rewrite HT in HT'. injection HT' as HT'.
           apply lookup_lt_Some in Hs'. rewrite length_fmap in Hs'. destruct (Hno s'); [done|lia].
        -- assert (q ∈ concat L) as Hqc by (apply elem_of_concat; exists ids; split; [by eapply list_elem_of_lookup_2|done]).
           pose proof (vi_other _ _ _ _ _ _ _ _ _ _ _ Hv q HqP) as Hw. rewrite (Hsec _ Hqc HqP), (seq_mark_Some _ _ _ _ HT) in Hw.
           destruct (lookup_lt_is_Some_2 (marks cells) i) as [k Hk]; [|by rewrite Hk in Hw]. apply lookup_lt_Some in HQ. rewrite length_marks. rewrite (to_Q _ _ _ Ht) in HQ. lia.
    + destruct (fin_seqs _ _ _ Hv Hs) as [(j' & ids' & Hids' & -> & ->)|(Hno & HQ & _)]; [|by apply (to_iff _ _ _ Ht _ _ _ _ Hq HQ)].
      rewrite elem_of_list_to_set, list_elem_of_fmap. split.
      * intros (q' & Eq & Hq'). assert (q' = q) as -> by lia. destruct Hqn. apply elem_of_concat. exists ids'. split; [by eapply list_elem_of_lookup_2|done].
      * intros ->. destruct (other_cell _ _ Hqn Hq) as [_ Hno]. destruct (Hno j'); [by apply lookup_lt_Some in Hids'|done].
  - intros i s q Hs Hin. destruct (fin_seqs _ _ _ Hv Hs) as [(j' & ids' & Hids' & -> & ->)|(Hno & HQ & _)]; [|by eapply to_dom].
    apply elem_of_list_to_set, list_elem_of_fmap in Hin as (q' & -> & Hq'). assert (q' < n); [|lia]. apply Hlt, elem_of_concat.
    exists ids'. split; [by eapply list_elem_of_lookup_2|done].
  - intros q t Hq. destruct (Hcase q) as [(j & ids & Hids & Hqi & E)|[Hqn E]]; rewrite E in Hq; [|by eapply to_range].
    injection Hq as <-. destruct (P_lookup _ _ Hids) as (p & ids' & -> & HP & _). destruct (own_cell _ _ HP) as (_ & ? & _). lia.
Qed.

Lemma fin_marks i k' : marks cells' !! i = Some k' → ∃ k, marks cells !! i = Some k ∧ k'.2 = k.2 ∧
  ((∀ j, j < length L → i ≠ lo + j) ∧ k' = k ∨ ∃ j p, j < length L ∧ i = lo + j ∧ ps !! j = Some p ∧ k'.1 = p).
Proof.
  intros Hk. destruct (target_dec i) as [(j & ids & Hj & Hids & ->)|Hno].
  - destruct (lookup_lt_is_Some_2 ps j) as [p Hpj]; [by rewrite (rf_len _ _ _ Hu)|].
    destruct (lookup_lt_is_Some_2 (marks cells) (lo + j)) as [k Hk0].
    { rewrite length_marks, <- (pl_length _ _ _ _ _ _ Hp). rewrite <- length_marks. by apply lookup_lt_Some in Hk. }
    rewrite (pl_marks_in _ _ _ _ _ _ Hp _ _ _ Hj Hpj Hk0) in Hk. injection Hk as <-. exists k. split; [done|]. split; [done|].
    right. by exists j, p.
  - rewrite (pl_marks_out _ _ _ _ _ _ Hp _ Hno) in Hk. exists k'. split; [done|]. split; [done|]. by left.
Qed.

Lemma fin_src i k : marks cells' !! i = Some k →
  (k.2 = -1 ∨ 0 ≤ k.2 < Z.of_nat n)%Z ∧ (Z.of_nat lo ≤ Z.of_nat i ≤ hi ∨ k.2 = -1 ∨ k.2 = Z.of_nat i)%Z.
Proof.
  intros (k0 & Hk0 & -> & _)%fin_marks. destruct Hg as [[Qv Hv] _]. by apply (vi_src _ _ _ _ _ _ _ _ _ _ _ Hv).
Qed.

Lemma fin_empty i k : marks cells' !! i = Some k → seqs cells' !! i = Some ∅ → src_val zero data k.2 = zero ∧ k.1 = (-1)%Z.
Proof.
  intros Hk Hs. destruct Hg as [[Qv Hv] _]. destruct (fin_seqs _ _ _ Hv Hs) as [(j & ids & Hids & -> & E)|(Hno & HQ & _)].
  - destruct (P_lookup _ _ Hids) as (p & ids' & -> & _). cbn in E. set_solver.
  - destruct (fin_marks _ _ Hk) as (k0 & Hk0 & _ & [[_ ->]|(j & p & Hj & -> & _)]); [|by destruct (Hno j)].
    by eapply (vi_zero _ _ _ _ _ _ _ _ _ _ _ Hv).
Qed.

Lemma fin_pos i k s : marks cells' !! i = Some k → seqs cells' !! i = Some s → s ≠ ∅ → (0 ≤ k.1 ≤ INT32_MAX)%Z.
Proof.
  intros Hk Hs Hne. destruct (fin_marks _ _ Hk) as (k0 & Hk0 & _ & [[Hno ->]|(j & p & Hj & -> & Hpj & ->)]).
  2: { apply (rf_pos _ _ _ Hu). by eapply list_elem_of_lookup_2. }
  destruct Hg as [[Qv Hv] _]. destruct (fin_seqs _ _ _ Hv Hs) as [(j & ids & Hids & -> & E)|(_ & HQ & _)].
  { destruct (Hno j); [by apply lookup_lt_Some in Hids|done]. }
  destruct (set_choose_L s Hne) as [z Hz]. destruct (tails_ok_in _ _ _ _ _ _ (vi_tails _ _ _ _ _ _ _ _ _ _ _ Hv) HQ Hz) as [HT Hr].
  apply (vi_pos _ _ _ _ _ _ _ _ _ _ _ Hv (Z.to_nat z)).
  - intros (j & Hj)%list_elem_of_lookup. destruct (own_cell _ _ Hj) as (HT' & _). rewrite HT in HT'. injection HT' as HT'.
    apply lookup_lt_Some in Hj. rewrite length_fmap in Hj. destruct (Hno j); [done|lia].
  - by rewrite (seq_mark_Some _ _ _ _ HT).
Qed.

(** the sequences of a set start from the state of the first one *)
Lemma fin_set s ids p last : L !! s = Some ids → P !! s = Some p → ps !! s = Some last →
  ∃ k, marks cells' !! (lo + s) = Some k ∧ k.1 = last ∧ src_val zero data k.2 = start_val zero (W p).
Proof.
  intros Hs HP Hl. destruct (own_cell _ _ HP) as (HT & _). destruct Hg as [[Qv Hv] _].
  assert (p ∈ P) as Hin by by eapply list_elem_of_lookup_2.
  pose proof (vi_start _ _ _ _ _ _ _ _ _ _ _ Hv p Hin) as Hst. rewrite (seq_mark_Some _ _ _ _ HT) in Hst.
  destruct (marks cells !! (lo + s)) as [k|] eqn:Ek; [|done]. injection Hst as Hst.
  exists (last, k.2). split; [|done]. eapply (pl_marks_in _ _ _ _ _ _ Hp); [by apply lookup_lt_Some in Hs|done..].
Qed.

(** the other sequences have what they had *)
Lemma fin_other q : q ∉ concat L → mark_val zero data <$> seq_mark (tails cells') (marks cells') q = W q ∧
  ∀ i, tails cells' !! q = Some (Z.of_nat i) → ∀ j, j < length L → i ≠ lo + j.
Proof.
  intros Hq. destruct Hg as [[Qv Hv] _]. assert (q ∉ P) as HqP by (intros H; apply Hq; by apply P_concat).
  pose proof (vi_other _ _ _ _ _ _ _ _ _ _ _ Hv q HqP) as Hw.
  assert (tails cells' !! q = tails cells !! q) as Et by (apply (pl_tail_out _ _ _ _ _ _ Hp); by rewrite take_ge).
  split; [|intros i; rewrite Et; intros Hi; by apply (other_cell q i)].
  rewrite <- Hw. f_equal. unfold seq_mark. rewrite Et. destruct (tails cells !! q) as [t|] eqn:Ht; [|done]. cbn [mbind option_bind].
  destruct (decide (0 ≤ t)%Z) as [Hpos|]; [|done]. assert (t = Z.of_nat (Z.to_nat t)) as Ez by lia. rewrite Ez in Ht.
  destruct (other_cell _ _ Hq Ht) as [_ Hno]. apply (pl_marks_out _ _ _ _ _ _ Hp). exact Hno.
Qed.
End finish.

(** *** find_slot *)

Section find_slot_ok.
Context {A : Type} (zero : A).

(** the cells after the ids were checked, as the start of the loop *)
Lemma virt_init (data : nat → A) n cells used : 0 < n → cells_wf n cells used → empties (λ s, src_val zero data s = zero) cells →
  virt zero data n (λ q, mark_val zero data <$> cell_of cells q) (Z.of_nat n - 1) 0 [] (tails cells) (seqs cells) (seqs cells) (marks cells).
Proof.
  intros Hn [Hl Hmax Ht Hk Hu] He. split; try done.
  - by rewrite length_seqs.
  - by rewrite length_marks.
  - intros i s sv -> [= ->]. by left.
  - set_solver.
  - intros i k Hi. destruct (lookup_lt_is_Some_2 (seqs cells) i) as [s Hs]; [apply lookup_lt_Some in Hi; by rewrite length_seqs, <- length_marks|].
    destruct (Hk _ _ _ Hi Hs) as ([E|E] & _); [lia|]. apply lookup_lt_Some in Hi. rewrite length_marks in Hi. lia.
  - intros i k Hi Hs. split; [by apply (He i)|]. destruct (Hk _ _ _ Hi Hs) as (_ & E & _). by apply E.
  - set_solver.
  - intros q k _. unfold seq_mark. destruct (tails cells !! q) as [t|] eqn:Et; [|done]. cbn [mbind option_bind]. destruct (decide (0 ≤ t)%Z) as [Hpos|]; [|done].
    destruct (tails_ok_tail _ _ _ _ _ Ht Et Hpos) as (s & Hs & Hin & _). intros Hi. destruct (Hk _ _ _ Hi Hs) as (_ & _ & E). apply E. set_solver.
Qed.

(** the cells after the sources were staged *)
Lemma staged_parts z (cells cells' : list mem_cell) lo k : length cells' = length cells →
  (∀ i c, cells !! i = Some c → cells' !! i = Some (if decide (lo ≤ i < lo + k) then staged z i c else c)) →
  tails cells' = tails cells ∧ seqs cells' = seqs cells ∧
  ∀ i x, marks cells !! i = Some x → marks cells' !! i = Some (x.1, if decide (lo ≤ i < lo + k) then Z.of_nat i else x.2).
Proof.
  intros Hl H. assert (∀ i c, cells !! i = Some c → ∃ c', cells' !! i = Some c' ∧ m_tail c' = m_tail c ∧ m_seqs c' = m_seqs c ∧ m_pos c' = m_pos c ∧
    m_src c' = if decide (lo ≤ i < lo + k) then Z.of_nat i else m_src c) as H'.
  { intros i c Hc. rewrite (H _ _ Hc). eexists. split; [done|]. by destruct (decide (lo ≤ i < lo + k)). }
  assert (∀ B (f : mem_cell → B), (∀ i c c', cells !! i = Some c → cells' !! i = Some c' → f c' = f c) → f <$> cells' = f <$> cells) as Hmap.
  { intros B f Hf. apply list_eq. intros i. rewrite !list_lookup_fmap. destruct (cells !! i) as [c|] eqn:Ec.
    - destruct (H' _ _ Ec) as (c' & Hc' & _). rewrite Hc'. cbn. f_equal. by eapply Hf.
    - rewrite (lookup_ge_None_2 cells'); [done|]. rewrite Hl. by apply lookup_ge_None_1. }
  split; [|split].
  - apply Hmap. intros i c c' Hc Hc'. destruct (H' _ _ Hc) as (c2 & Hc2 & ? & _). by simplify_eq.
  - apply Hmap. intros i c c' Hc Hc'. destruct (H' _ _ Hc) as (c2 & Hc2 & _ & ? & _). by simplify_eq.
  - intros i x. unfold marks. rewrite !list_lookup_fmap. destruct (cells !! i) as [c|] eqn:Ec; [|done]. intros [= <-].
    destruct (H' _ _ Ec) as (c' & -> & _ & _ & E1 & E2). cbn. by rewrite E1, E2.
Qed.

(** what the graph makes of the states *)
Lemma build_rs_staged (data : nat → A) h used k z (cells cells' : list mem_cell) i c : (∀ i c, cells !! i = Some c → cells' !! i = Some (if decide (h ≤ i < h + k) then staged z i c else c)) →
  cells !! i = Some c → (∀ c, c ∈ cells → z = (-1)%Z ∨ m_src c ≠ z) → (z = -1 ∨ 0 ≤ z)%Z → (h ≤ i < h + k → (m_src c < 0)%Z → (0 ≤ z)%Z) →
  build_rs zero (RecMem h used (Z.of_nat k) z cells') data i = if decide (h ≤ i < h + k) then src_val zero data (m_src c) else data i.
Proof.
  intros H Hc Hz Hz0 Hneg. unfold build_rs. cbn [r_head r_n rs_z]. destruct (decide (h ≤ i < h + k)) as [Hi|Hi].
  - rewrite decide_True by lia. unfold s_copy. cbn [r_head r_cells]. replace (i - h + h) with i by lia.
    rewrite (vget_ok cells' i (staged z i c)), bind_Ok by (by rewrite (H _ _ Hc), decide_True). cbn [m_src0 staged set_src]. unfold src_val.
    destruct (decide (m_src c < 0)%Z) as [Hs|Hs].
    + unfold clear_row. rewrite decide_True; [done|]. lia.
    + unfold clear_row. rewrite decide_False; [done|]. rewrite Z2Nat.id by lia. apply list_elem_of_lookup_2 in Hc. destruct (Hz c Hc); lia.
  - by rewrite decide_False by lia.
Qed.

(** the memory after find_slot [m'], and the states [data'] before the new ones are computed *)
Definition slot_found (m : rec_mem) (data : nat → A) (L : list (list nat)) (ps : list Z) (m' : rec_mem) : Prop :=
  let data' := build_rs zero m' data in
  rec_wf m' ∧ r_size m' = r_size m ∧ r_head m' + length L ≤ r_size m ∧ (Z.of_nat (length L) ≤ r_n m')%Z ∧
  (∀ s ids, L !! s = Some ids → data' (r_head m' + s) = start_val zero (rec_view zero m data (hd 0 ids))) ∧
  ∀ data2, (∀ i, (∀ s, s < length L → i ≠ r_head m' + s) → data2 i = data' i) →
    rec_clean zero m' data2 ∧
    (∀ s ids q last, L !! s = Some ids → q ∈ ids → ps !! s = Some last → rec_view zero m' data2 q = Some (last, data2 (r_head m' + s))) ∧
    (∀ q, q ∉ concat L → rec_view zero m' data2 q = rec_view zero m data q).

Section parts.
Context (m : rec_mem) (data : nat → A) (W : nat → option (Z * A)) (u : llama_ubatch) (L : list (list nat)) (ps : list Z).
Context (Hm : rec_wf m) (Hu : rec_fits u L ps) (Hlt : ∀ q, q ∈ concat L → q < r_size m).
Abbreviation P := ((λ ids, hd 0 ids) <$> L).
Context (HWsec : ∀ q, q ∈ concat L → q ∉ P → W q = None) (HW : ∀ q, q ∈ P ∨ q ∉ concat L → W q = rec_view zero m data q).
Context (lo hi : nat) (cells cells1 cells2 : mem_cells) (z : Z).
Context (Hg : gathered zero data (r_size m) W lo (Z.of_nat hi) P (length L) cells) (Hp : placed lo L ps cells (length L) cells1).
Context (Hhi : lo + length L ≤ S hi ∧ hi < r_size m).
Context (Hl2 : length cells2 = length cells1)
  (Hst : ∀ i c, cells1 !! i = Some c → cells2 !! i = Some (if decide (lo ≤ i < lo + (S hi - lo)) then staged z i c else c)).
Context (Hz : ∀ c, c ∈ cells1 → z = (-1)%Z ∨ m_src c ≠ z) (Hz0 : (z = -1 ∨ 0 ≤ z)%Z)
  (Hneg : ∀ i c, lo ≤ i < lo + (S hi - lo) → cells1 !! i = Some c → (m_src c < 0)%Z → (0 ≤ z)%Z).

Lemma staged_wf h used : h < r_size m → used = Z.of_nat (count_used cells2) → rec_wf (RecMem h used (Z.of_nat (S hi - lo)) z cells2).
Proof.
  intros Hh ->. destruct (staged_parts z cells1 cells2 lo (S hi - lo) Hl2 Hst) as (P1 & P2 & P3).
  pose proof (fin_tails zero data (r_size m) W lo _ u L ps Hu Hlt HWsec cells cells1 Hg Hp) as Ht.
  assert (length cells2 = r_size m) as Hl. { rewrite <- (to_T _ _ _ Ht), length_tails. done. }
  apply (rec_wf_intro m); [done|done|done|by rewrite P1, P2| |by rewrite count_used_ok].
  intros i k s Hk Hs. rewrite P2 in Hs. destruct (lookup_lt_is_Some_2 (marks cells1) i) as [x Hx].
  { rewrite length_marks, <- Hl2, <- length_marks. by apply lookup_lt_Some in Hk. }
  rewrite (P3 _ _ Hx) in Hk. injection Hk as <-. cbn [fst snd mark_ok]. destruct (fin_src zero data (r_size m) W lo _ u L ps Hu cells cells1 Hg Hp i x Hx) as [Hr Hsrc].
  split; [|split].
  - destruct (decide (lo ≤ i < lo + (S hi - lo))); [by right|]. cbn. lia.
  - cbn. intros ->. by destruct (fin_empty zero data (r_size m) W lo _ u L ps Hu Hlt HWsec cells cells1 Hg Hp i x Hx Hs).
  - cbn. intros Hne. by eapply (fin_pos zero data (r_size m) W lo _ u L ps Hu Hlt HWsec cells cells1 Hg Hp).
Qed.

Abbreviation m' h used := (RecMem h used (Z.of_nat (S hi - lo)) z cells2).

Lemma built i c used : cells1 !! i = Some c →
  build_rs zero (m' lo used) data i = if decide (lo ≤ i < lo + (S hi - lo)) then src_val zero data (m_src c) else data i.
Proof. intros Hc. eapply build_rs_staged; [exact Hst|done|exact Hz|done|]. intros Hi Hs. by eapply Hneg. Qed.

(** a cell that is not written to has the state it had *)
Lemma built_src i x y used data2 : marks cells1 !! i = Some x → marks cells2 !! i = Some y → data2 i = build_rs zero (m' lo used) data i →
  src_val zero data2 y.2 = src_val zero data x.2 ∧ y.1 = x.1.
Proof.
  intros Hx Hy H2. destruct (staged_parts z cells1 cells2 lo (S hi - lo) Hl2 Hst) as (P1 & P2 & P3). rewrite (P3 _ _ Hx) in Hy. injection Hy as <-. cbn [fst snd].
  split; [|done]. unfold marks in Hx. rewrite list_lookup_fmap in Hx. destruct (cells1 !! i) as [c|] eqn:Hc; [|done].
  assert (marks cells1 !! i = Some (m_pos c, m_src c)) as Hx' by by apply lookup_marks. injection Hx as <-. cbn [fst snd].
  rewrite (built _ _ _ Hc) in H2. destruct (fin_src zero data (r_size m) W lo _ u L ps Hu cells cells1 Hg Hp i _ Hx') as [Hr Hsrc]. cbn [snd] in *.
  destruct (decide (lo ≤ i < lo + (S hi - lo))) as [Hi|Hi].
  - unfold src_val at 1. rewrite decide_False by lia. by rewrite Nat2Z.id.
  - assert (m_src c = (-1)%Z ∨ m_src c = Z.of_nat i) as [-> | ->] by lia; unfold src_val; [by rewrite !decide_True by lia|]. rewrite !decide_False by lia. by rewrite Nat2Z.id.
Qed.

Lemma slot_found_intro used : used = Z.of_nat (count_used cells2) → slot_found m data L ps (m' lo used).
Proof.
  intros Hus. destruct (staged_parts z cells1 cells2 lo (S hi - lo) Hl2 Hst) as (P1 & P2 & P3).
  pose proof (rf_some _ _ _ Hu) as Hne. assert (0 < length L) as Hlen by (destruct L; [done|cbn; lia]).
  pose proof (fin_tails zero data (r_size m) W lo _ u L ps Hu Hlt HWsec cells cells1 Hg Hp) as Ht.
  assert (length cells1 = r_size m) as Hl1 by (rewrite <- (to_T _ _ _ Ht), length_tails; done).
  split; [apply staged_wf; [lia|done]|]. split; [unfold r_size; cbn; by rewrite Hl2|]. split; [cbn; lia|]. split; [cbn; lia|].
  assert (∀ i, i < r_size m → ∃ x y, marks cells1 !! i = Some x ∧ marks cells2 !! i = Some y) as Hmk.
  { intros i Hi. destruct (lookup_lt_is_Some_2 (marks cells1) i) as [x Hx]; [by rewrite length_marks, Hl1|].
    destruct (lookup_lt_is_Some_2 (marks cells2) i) as [y Hy]; [by rewrite length_marks, Hl2, Hl1|]. by exists x, y. }
  split; [|intros data2 H2; split; [|split]].
  - cbn [r_head]. intros s ids Hs. destruct (P_lookup u L ps Hu _ _ Hs) as (p & ids' & -> & HP & _). destruct (lookup_lt_is_Some_2 ps s) as [last Hlast].
    { rewrite (rf_len _ _ _ Hu). by apply lookup_lt_Some in Hs. }
    destruct (fin_set zero data (r_size m) W lo _ L ps cells cells1 Hg Hp s _ p last Hs HP Hlast) as (k & Hk & _ & E).
    unfold marks in Hk. rewrite list_lookup_fmap in Hk. destruct (cells1 !! (lo + s)) as [c|] eqn:Hc; [|done]. injection Hk as <-.
    rewrite (built _ _ _ Hc). apply lookup_lt_Some in Hs. rewrite decide_True by lia. cbn [snd] in E. rewrite E. cbn [hd].
    rewrite HW; [done|]. left. by eapply list_elem_of_lookup_2.
  - intros i c Hc Hempty. cbn [r_cells] in Hc. pose proof (lookup_lt_Some _ _ _ Hc) as Hi. rewrite Hl2, Hl1 in Hi. destruct (Hmk i Hi) as (x & y & Hx & Hy).
    pose proof (lookup_seqs _ _ _ Hc) as Hs. rewrite Hempty, P2 in Hs. rewrite (lookup_marks _ _ _ Hc) in Hy. injection Hy as <-.
    destruct (fin_empty zero data (r_size m) W lo _ u L ps Hu Hlt HWsec cells cells1 Hg Hp i x Hx Hs) as [E _].
    destruct (built_src i x (m_pos c, m_src c) used data2 Hx) as [E' _]; [by apply lookup_marks| |cbn [snd] in E'; by rewrite E'].
    apply H2. intros s Hsl ->. destruct (lookup_lt_is_Some_2 _ _ Hsl) as [ids Hids]. cbn [r_head] in Hs.
    rewrite (pl_seqs_in _ _ _ _ _ _ Hp _ _ Hsl Hids) in Hs. destruct (P_lookup u L ps Hu _ _ Hids) as (p & ids' & -> & _). apply (inj Some) in Hs. cbn in Hs. set_solver.
  - cbn [r_head]. intros s ids q last Hs Hq Hlast. unfold rec_view, seq_cell. cbn [r_cells]. rewrite P1.
    pose proof (lookup_lt_Some _ _ _ Hs) as Hsl. rewrite (seq_mark_Some _ _ _ (lo + s)) by (by eapply (pl_tail_in _ _ _ _ _ _ Hp)).
    destruct (P_lookup u L ps Hu _ _ Hs) as (p & ids' & -> & HP & _).
    destruct (fin_set zero data (r_size m) W lo _ L ps cells cells1 Hg Hp s _ p last Hs HP Hlast) as (k & Hk & <- & _).
    rewrite (P3 _ _ Hk), decide_True by lia. cbn [fmap option_fmap option_map mark_val fst snd]. unfold mark_val, src_val. cbn [fst snd].
    rewrite decide_False by lia. by rewrite Nat2Z.id.
  - intros q Hq. rewrite <- HW by by right. destruct (fin_other zero data (r_size m) W lo _ u L ps Hu cells cells1 Hg Hp q Hq) as [<- Hno].
    unfold rec_view, seq_cell, seq_mark. cbn [r_cells]. rewrite P1. destruct (tails cells1 !! q) as [t|] eqn:Et; [|done]. cbn [mbind option_bind].
    destruct (decide (0 ≤ t)%Z) as [Hpos|]; [|done]. assert (t = Z.of_nat (Z.to_nat t)) as Ez by lia. specialize (Hno (Z.to_nat t) (f_equal Some Ez)).
    destruct (to_range _ _ _ Ht _ _ Et) as [?|Hr]; [lia|]. destruct (Hmk (Z.to_nat t)) as (x & y & Hx & Hy); [lia|]. rewrite Hx, Hy. cbn [fmap option_fmap option_map].
    destruct (built_src _ x y used data2 Hx Hy) as [E1 E2]; [by apply H2|]. unfold mark_val. by rewrite E1, E2.
Qed.
End parts.
End find_slot_ok.

Section find_slot_correct.
Context {A : Type} (zero : A).

Lemma view_after_check (data : nat → A) m L cells used : rec_wf m → (∀ s ids, L !! s = Some ids → ids ≠ []) → NoDup (concat L) →
  dropped (r_size m) (λ s, src_val zero data s = zero) (r_cells m) (concat (tail <$> L)) cells used →
  (∀ q, q ∈ concat L → q ∉ ((λ ids, hd 0 ids) <$> L) → mark_val zero data <$> cell_of cells q = None) ∧
  (∀ q, q ∈ ((λ ids, hd 0 ids) <$> L) ∨ q ∉ concat L → mark_val zero data <$> cell_of cells q = rec_view zero m data q).
Proof.
  intros Hm Hne Hnd [Hw _ Hgone Hsame]. split.
  - intros q (ids & Hids & Hq)%elem_of_concat HP. assert (q ∈ concat (tail <$> L)) as Hd.
    { apply elem_of_concat. exists (tail ids). split; [by apply list_elem_of_fmap_2|]. destruct ids as [|p ids]; [set_solver|]. cbn.
      apply elem_of_cons in Hq as [->|]; [|done]. destruct HP. apply list_elem_of_fmap. by exists (p :: ids). }
    unfold cell_of. by rewrite (seq_mark_None _ _ _ (Hgone q Hd)).
  - intros q Hq. rewrite Hsame; [done|]. intros (l & (ids & -> & Hids)%list_elem_of_fmap & Hqt)%elem_of_concat.
    destruct Hq as [(ids' & -> & Hids')%list_elem_of_fmap|Hq].
    + apply list_elem_of_lookup in Hids as (i & Hi), Hids' as (j & Hj). destruct ids as [|p ids]; [set_solver|]. cbn in Hqt.
      destruct ids' as [|p' ids']; [by destruct (Hne j [])|]. cbn [hd] in Hqt. assert (i = j) as ->.
      { eapply concat_nodup_index; [exact Hnd|exact Hi|exact Hj|by right|by left]. }
      rewrite Hi in Hj. injection Hj as -> ->. apply list_elem_of_split_length in Hi as (l1 & l2 & -> & _).
      rewrite concat_app in Hnd. cbn in Hnd. apply NoDup_app in Hnd as (_ & _ & Hnd). apply NoDup_cons in Hnd as [Hp _]. apply Hp. set_solver.
    + apply Hq, elem_of_concat. exists ids. split; [done|]. destruct ids; [done|by right].
Qed.

Lemma stage_ok (data : nat → A) n W lo hi u L ps cells cells1 : rec_fits u L ps →
  gathered zero data n W lo (Z.of_nat hi) ((λ ids, hd 0 ids) <$> L) (length L) cells → placed lo L ps cells (length L) cells1 →
  lo ≤ hi < n → length cells1 = n →
  okP (refcounts cells1) (λ rc, let z := zeroed_cell rc (min_to_max (Z.of_nat lo) (Z.of_nat hi)) in
    (∀ c, c ∈ cells1 → z = (-1)%Z ∨ m_src c ≠ z) ∧ (z = -1 ∨ 0 ≤ z)%Z ∧
    (∀ i c, lo ≤ i < lo + (S hi - lo) → cells1 !! i = Some c → (m_src c < 0)%Z → (0 ≤ z)%Z)).
Proof.
  intros Hu Hg Hp Hh Hl. assert (∀ i c, cells1 !! i = Some c → (m_src c = -1 ∨ 0 ≤ m_src c < Z.of_nat n)%Z ∧ (Z.of_nat lo ≤ Z.of_nat i ≤ Z.of_nat hi ∨ m_src c = -1 ∨ m_src c = Z.of_nat i)%Z) as Hsrc.
  { intros i c Hc. exact (fin_src zero data n W lo _ u L ps Hu cells cells1 Hg Hp i _ (lookup_marks _ _ _ Hc)). }
  eapply okP_mono; [apply refcounts_ok|].
  { intros c (i & Hc)%list_elem_of_lookup. rewrite Hl. by apply (Hsrc i). }
  intros rc [Hlen Hrc]. assert (min_to_max (Z.of_nat lo) (Z.of_nat hi) = seq lo (S hi - lo)) as Hr by (unfold min_to_max; f_equal; lia).
  rewrite Hr. cbv zeta. destruct (zeroed_cell_ok rc (seq lo (S hi - lo)) _ eq_refl) as [[-> Hno]|(z & Hz & -> & Hz0)].
  - split; [by left|]. split; [by left|]. intros i c Hi Hc Hneg. destruct (unreferenced cells1 lo (S hi - lo) i c) as (z & Hz & Hzn); [lia| |done|done|done|].
    + intros j d Hd. destruct (Hsrc j d Hd) as [_ H]. lia.
    + destruct (Hno z); [apply elem_of_seq; lia|]. apply Hrc. split; [lia|done].
  - apply Hrc in Hz0 as [_ Hz0]. split; [intros c Hc; right; by apply Hz0|]. split; [right; lia|lia].
Qed.

(** with one set there is one cell from the smallest to the largest *)
Lemma assign_one u st : resP (λ _, True) (foldM (assign_set u) st (seq 0 1)) (λ st', ∃ t, ss_min st' = Z.min (ss_min st) t ∧ ss_max st' = Z.max (ss_max st) t).
Proof.
  cbn [seq foldM]. eapply resP_bind; [|intros a Ha; exact Ha]. unfold assign_set.
  do 4 (eapply (resP_bind _ _ _ (λ _, True)); [by match goal with |- resP _ ?m _ => destruct m end|]; intros ? _).
  eapply (resP_bind _ _ _ (λ _, True)); [by match goal with |- resP _ ?m _ => destruct m end|]. intros r _.
  eapply (resP_bind _ _ _ (λ _, True)); [by match goal with |- resP _ ?m _ => destruct m end|]. intros c _. cbn. by exists (m_tail c).
Qed.

Lemma assign_some_one u (L : list (list nat)) st : resP (λ _, True) (foldM (assign_set u) st (seq 0 (length L)))
  (λ st', length L = 1 → ∃ t, ss_min st' = Z.min (ss_min st) t ∧ ss_max st' = Z.max (ss_max st) t).
Proof.
  destruct (decide (length L = 1)) as [E|E]; [rewrite E; eapply resP_mono; [apply assign_one|done|by intros st' H _]|].
  destruct (foldM (assign_set u) st (seq 0 (length L))); [|done]. cbn. lia.
Qed.

Lemma okP_and_res {B} E (r : res B) (P Q : B → Prop) : okP r P → resP E r Q → okP r (λ a, P a ∧ Q a).
Proof. by destruct r. Qed.

Lemma rec_find_slot_full (data : nat → A) m u L ps : rec_wf m → rec_clean zero m data → rec_fits u L ps → (∀ q, q ∈ concat L → q < r_size m) →
  okP (rec_find_slot m u) (λ r, r.2 = true ∧ slot_found zero m data L ps r.1 ∧ (length L = 1 → r_n r.1 = 1%Z)).
Proof.
  intros Hm Hclean Hu Hlt. pose proof (rw_size _ Hm) as [Hs0 Hsmax]. pose proof (rw_head _ Hm) as Hhead.
  unfold rec_find_slot. set (head := if decide _ then 0 else r_head m). assert (head < r_size m) as Hh by (unfold head; case_decide; lia).
  rewrite ggml_assert_ok by apply (rf_equal _ _ _ Hu). rewrite bind_Ok.
  assert (∀ s ids, L !! s = Some ids → ids ≠ []) as Hne by (intros s ids Hs; destruct (rf_primary _ _ _ Hu _ _ Hs) as (? & ? & -> & _); done).
  assert (empties (λ s, src_val zero data s = zero) (r_cells m)) as Hemp.
  { intros i k Hk (c & Hc & Hcs)%lookup_seqs_inv. rewrite (lookup_marks _ _ _ Hc) in Hk. injection Hk as <-. by apply (Hclean i). }
  eapply okP_bind; [by eapply (check_sets_ok m (λ s, src_val zero data s = zero))|]. intros [[cells0 used0] ok] [Hok Hd]. cbn [fst snd] in *. subst ok. cbn [negb].
  destruct (view_after_check data m L cells0 used0 Hm Hne (rf_nodup _ _ _ Hu) Hd) as [HWsec HW]. set (W := λ q, mark_val zero data <$> cell_of cells0 q).
  pose proof (dr_wf _ _ _ _ _ _ Hd) as Hw0. pose proof (cw_length _ _ _ Hw0) as Hl0.
  eapply okP_bind; [by apply (ring_first (r_size m) head Hh cells0)|]. intros next Hring.
  eapply okP_bind.
  { apply (okP_and_res (λ _, True)); [|rewrite (rf_n _ _ _ Hu); apply (assign_some_one u L)]. apply (assign_sets_ok zero data (r_size m) W head Hh u L); [apply (rf_n _ _ _ Hu)|apply (rf_primary _ _ _ Hu)|done|apply (rf_nodup _ _ _ Hu)|].
    exists (seqs cells0). cbn [ss_min ss_max ss_cells ss_next]. split; [|split; [done|lia]].
    eapply (virt_init zero data); [done|exact Hw0|apply (dr_empties _ _ _ _ _ _ Hd)]. }
  intros st [(Qv & Hv & _ & Hr) Hone]. set (P := (λ ids, hd 0 ids) <$> L) in *.
  assert (∃ p, P !! 0 = Some p) as [p0 Hp0] by (unfold P; destruct L as [|ids L'] eqn:E; [by destruct (rf_some _ _ _ Hu)|by eexists]).
  destruct (vi_own _ _ _ _ _ _ _ _ _ _ _ Hv p0) as (i0 & _ & _ & Hi0); [by eapply list_elem_of_lookup_2|].
  destruct st as [cells nx mn mx]. cbn [ss_min ss_max ss_cells] in *.
  assert (∃ lo hi : nat, mn = Z.of_nat lo ∧ mx = Z.of_nat hi ∧ lo ≤ hi < r_size m) as (lo & hi & -> & -> & Hlh) by (exists (Z.to_nat mn), (Z.to_nat mx); lia).
  pose proof (virt_length _ _ _ _ _ _ _ _ _ Hv) as Hl.
  (* gather *)
  eapply okP_bind.
  { rewrite (rf_n _ _ _ Hu). apply (okP_for _ (gathered zero data (r_size m) W lo (Z.of_nat hi) P)).
    - split; [by exists Qv|]. intros; lia.
    - intros s c Hs Hg. destruct (lookup_lt_is_Some_2 _ _ Hs) as [ids Hids]. destruct (rf_primary _ _ _ Hu _ _ Hids) as (p & ids' & -> & Hprim).
      destruct (P_lookup u L ps Hu _ _ Hids) as (p' & ids2 & [= <- <-] & HP & Hin). eapply gather_set_ok; [exact Hprim|by apply Hlt|exact HP| |exact Hg].
      by apply (P_NoDup u L ps). }
  intros cells1 Hg. assert (lo + length L ≤ S hi) as Hfit.
  { assert (0 < length L) as HL by (pose proof (rf_some _ _ _ Hu); destruct L; [done|cbn; lia]).
    destruct (lookup_lt_is_Some_2 L (length L - 1)) as [ids Hids]; [lia|]. destruct (P_lookup u L ps Hu _ _ Hids) as (p & ids' & -> & HP & _).
    destruct (own_cell zero data (r_size m) W lo _ L cells1 Hg _ _ HP) as (_ & _ & H & _). lia. }
  destruct Hg as [[Qv1 Hv1] Hgt] eqn:EHg. pose proof (virt_length _ _ _ _ _ _ _ _ _ Hv1) as Hl1. clear Qv1 Hv1 Hgt EHg.
  eapply okP_bind; [apply (place_sets_ok lo u L ps Hu cells1); [by rewrite Hl1|lia]|]. intros cells2 Hpl.
  assert (length cells2 = r_size m) as Hl2 by (rewrite (pl_length _ _ _ _ _ _ Hpl); done).
  eapply okP_bind; [by eapply (stage_ok data (r_size m) W lo hi u L ps cells1 cells2 Hu Hg Hpl)|]. cbv zeta.
  intros rc. set (z := zeroed_cell _ _). intros (Hz & Hz0 & Hneg).
  assert (min_to_max (Z.of_nat lo) (Z.of_nat hi) = seq lo (S hi - lo)) as -> by (unfold min_to_max; f_equal; lia).
  eapply okP_bind; [apply (stage_range_ok z cells2 lo (S hi - lo)); [lia|exact Hneg]|]. intros cells3 [Hl3 Hst].
  rewrite idx_ok by lia. rewrite bind_Ok, Nat2Z.id. cbn [okP fst snd].
  assert (u32 (Z.of_nat hi - Z.of_nat lo + 1) = Z.of_nat (S hi - lo)) as ->.
  { unfold u32, INT32_MAX in *. rewrite Z.mod_small; lia. }
  split; [rewrite (rf_n _ _ _ Hu); apply bool_decide_eq_true_2; lia|]. split.
  2: { intros HL. destruct (Hone HL) as (t & E1 & E2). cbn [ss_min ss_max] in *. cbn [r_n]. lia. }
  apply (slot_found_intro zero m data W u L ps Hm Hu Hlt HWsec HW lo hi cells1 cells2 cells3 z Hg Hpl); try done. lia.
Qed.

Lemma rec_find_slot_ok (data : nat → A) m u L ps : rec_wf m → rec_clean zero m data → rec_fits u L ps → (∀ q, q ∈ concat L → q < r_size m) →
  okP (rec_find_slot m u) (λ r, r.2 = true ∧ slot_found zero m data L ps r.1).
Proof. intros. eapply okP_mono; [by apply (rec_find_slot_full data m u L ps)|]. by intros r (R1 & R2 & _). Qed.
End find_slot_correct.

(** ** Micro-batches *)

(** *** Sequence ids that are too large *)

Lemma check_id_wf n cells used ok j q : cells_wf n cells used →
  okP (check_id (cells, used, ok) (j, Z.of_nat q)) (λ st, cells_wf n st.1.1 st.1.2 ∧ (st.2 = true → ok = true ∧ q < n)).
Proof.
  intros Hw. pose proof (cw_length _ _ _ Hw) as Hl. destruct ok; [|by cbn]. destruct (decide (q < n)) as [Hq|Hq].
  - eapply okP_mono; [apply (check_id_ok n (λ _, True) cells [] cells used j q); [done|done|]|].
    + split; [done|done|set_solver|done].
    + intros st [_ [H _ _ _]]. done.
  - unfold check_id. cbn [negb]. rewrite decide_True by lia. cbn. done.
Qed.

Lemma check_set_wf n cells used ok u s ids : cells_wf n cells used → set_ids u s = Ok (Z.of_nat <$> ids) →
  okP (check_set u (cells, used, ok) s) (λ st, cells_wf n st.1.1 st.1.2 ∧ (st.2 = true → ok = true ∧ ∀ q, q ∈ ids → q < n)).
Proof.
  intros Hw Hids. unfold check_set. destruct ok; [|by cbn]. cbn [negb snd]. rewrite Hids, bind_Ok.
  eapply okP_mono; [apply (okP_foldM _ (λ pre st, cells_wf n st.1.1 st.1.2 ∧ (st.2 = true → ∀ j q, j < length pre → ids !! j = Some q → q < n)))|].
  - split; [done|]. intros _ j q Hj. cbn in Hj. lia.
  - intros pre [j z] post [[cells1 used1] ok] Hl [Hw1 Hok]. cbn [fst snd] in *.
    assert (zip (seq 0 (length (Z.of_nat <$> ids))) (Z.of_nat <$> ids) !! length pre = Some (j, z)) as Hlk by (rewrite Hl; by apply list_lookup_middle).
    apply lookup_zip_Some in Hlk as [Hj Hz]. apply lookup_seq in Hj as [Hj _]. cbn in Hj. subst j. rewrite list_lookup_fmap in Hz.
    destruct (ids !! length pre) as [q|] eqn:Eq; [|done]. injection Hz as <-. rewrite length_app, Nat.add_1_r.
    eapply okP_mono; [by apply check_id_wf|]. intros st [H1 H2]. split; [done|]. intros Hst j q' Hj Hq'. destruct (H2 Hst) as [H3 H4].
    destruct (decide (j = length pre)) as [->|]; [by simplify_eq|]. eapply Hok; [done| |done]. lia.
  - intros st [H1 H2]. split; [done|]. intros Hst. split; [done|]. intros q (j & Hj)%list_elem_of_lookup. eapply H2; [done| |exact Hj].
    rewrite length_zip_with, length_seq, length_fmap, Nat.min_id. by apply lookup_lt_Some in Hj.
Qed.

Lemma rec_find_slot_refuses m u L ps : rec_wf m → rec_fits u L ps → (∃ q, q ∈ concat L ∧ r_size m ≤ q) →
  okP (rec_find_slot m u) (λ r, r.2 = false ∧ rec_wf r.1 ∧ r_size r.1 = r_size m).
Proof.
  intros Hm Hu (q & Hq & Hge). unfold rec_find_slot. set (head := if decide _ then 0 else r_head m).
  assert (head < r_size m) as Hh by (unfold head; case_decide; pose proof (rw_head _ Hm); lia).
  rewrite ggml_assert_ok by apply (rf_equal _ _ _ Hu). rewrite bind_Ok.
  eapply (okP_bind _ _ (λ st, cells_wf (r_size m) st.1.1 st.1.2 ∧ st.2 = false)).
  - rewrite (rf_n _ _ _ Hu). eapply okP_mono; [apply (okP_for _ (λ s st, cells_wf (r_size m) st.1.1 st.1.2 ∧
      (st.2 = true → ∀ j ids q, j < s → L !! j = Some ids → q ∈ ids → q < r_size m)))|].
    + split; [by apply rec_cells_wf|]. intros; lia.
    + intros s [[cells used] ok] Hs [Hw Hok]. cbn [fst snd] in *. destruct (lookup_lt_is_Some_2 _ _ Hs) as [ids Hids].
      eapply okP_mono; [eapply check_set_wf; [done|by apply (rf_ids _ _ _ Hu)]|]. intros st [H1 H2]. split; [done|].
      intros Hst j ids' q' Hj Hids' Hq'. destruct (H2 Hst) as [H3 H4]. destruct (decide (j = s)) as [->|]; [simplify_eq; auto|].
      eapply (Hok H3 j); [lia|done..].
    + intros st [H1 H2]. split; [done|]. destruct st.2; [|done]. apply elem_of_concat in Hq as (ids & (j & Hj)%list_elem_of_lookup & Hq).
      pose proof (H2 eq_refl j ids q (lookup_lt_Some _ _ _ Hj) Hj Hq). lia.
  - intros [[cells used] ok] [Hw Hok]. cbn [fst snd] in *. subst ok. cbn [negb okP fst snd]. split; [done|]. split; [by apply (cells_rec_wf m)|].
    apply (cw_length _ _ _ Hw).
Qed.

(** *** The decoding loop *)

(** The micro-batches of a batch: the sequence sets and their last positions. *)
Definition batch_fits (us : list llama_ubatch) (Ls : list (list (list nat) * list Z)) : Prop := Forall2 (λ u L, rec_fits u L.1 L.2) us Ls.
Definition batch_small (n : nat) (Ls : list (list (list nat) * list Z)) : Prop := ∀ L q, L ∈ Ls → q ∈ concat L.1 → q < n.

Section decode.
Context {A : Type} (zero : A).
(** what the model computes: from a micro-batch and the states that its sets start with, the new states *)
Context (compute : llama_ubatch → list A → list A) (Hcompute : ∀ u l, length (compute u l) = length l).

Definition write_states (data : nat → A) (h : nat) (l : list A) (i : nat) : A :=
  if decide (h ≤ i) then default (data i) (l !! (i - h)) else data i.

(** the loop over the micro-batches of a context (in llama_context::decode): apply, compute, next *)
Fixpoint rec_decode (k : nat) (m : rec_mem) (data : nat → A) (cx : rec_context) : res (rec_mem * (nat → A)) :=
  match k with
  | 0 => Err OutOfFuel
  | S k =>
      r ← rec_apply m cx;
      let m := (r : rec_mem * bool).1 in
      u ← vget (rx_ubatches cx) (rx_i_next cx);
      let data := build_rs zero m data in
      let data := write_states data (r_head m) (compute u ((λ s, data (r_head m + s)) <$> seq 0 (n_seqs u))) in
      r ← rec_next cx;
      if (r : rec_context * bool).2 then rec_decode k m data r.1 else Ok (m, data)
  end.

(** One micro-batch, as a change of the map from sequences to positions and states. *)
Definition abs_step (V : nat → option (Z * A)) (u : llama_ubatch) (L : list (list nat)) (ps : list Z) (q : nat) : option (Z * A) :=
  let outs := compute u ((λ ids, start_val zero (V (hd 0 ids))) <$> L) in
  match list_find (λ ids, q ∈ ids) L with
  | Some (s, _) => p ← ps !! s; o ← outs !! s; Some (p, o)
  | None => V q
  end.

Fixpoint abs_run (V : nat → option (Z * A)) (us : list llama_ubatch) (Ls : list (list (list nat) * list Z)) : nat → option (Z * A) :=
  match us, Ls with u :: us, L :: Ls => abs_run (abs_step V u L.1 L.2) us Ls | _, _ => V end.

Lemma abs_step_ext V V' u L ps : (∀ q, V q = V' q) → ∀ q, abs_step V u L ps q = abs_step V' u L ps q.
Proof.
  intros H q. unfold abs_step. cbv zeta. assert ((λ ids, start_val zero (V (hd 0 ids))) <$> L = (λ ids, start_val zero (V' (hd 0 ids))) <$> L) as ->.
  { apply list_fmap_ext. intros i ids _. by rewrite H. }
  by destruct (list_find _ L) as [[s ?]|].
Qed.

Lemma abs_run_ext us Ls V V' : (∀ q, V q = V' q) → ∀ q, abs_run V us Ls q = abs_run V' us Ls q.
Proof.
  revert Ls V V'. induction us as [|u us IH]; intros [|L Ls] V V' H q; cbn [abs_run]; try apply H. apply IH. intros q'. by apply abs_step_ext.
Qed.

(** one micro-batch refines the abstract step *)
Lemma slot_step (data : nat → A) m u L ps m' : rec_fits u L ps → slot_found zero m data L ps m' →
  let data1 := build_rs zero m' data in
  let data2 := write_states data1 (r_head m') (compute u ((λ s, data1 (r_head m' + s)) <$> seq 0 (n_seqs u))) in
  rec_wf m' ∧ r_size m' = r_size m ∧ rec_clean zero m' data2 ∧ ∀ q, rec_view zero m' data2 q = abs_step (rec_view zero m data) u L ps q.
Proof.
  intros Hu (Hw & Hsz & Hfit & Hn & Hin & Hout). cbv zeta. set (data1 := build_rs zero m' data) in *.
  set (ins := (λ s, data1 (r_head m' + s)) <$> seq 0 (n_seqs u)). set (data2 := write_states data1 (r_head m') (compute u ins)).
  assert (length (compute u ins) = length L) as Hlen by (by rewrite Hcompute; unfold ins; rewrite length_fmap, length_seq, (rf_n _ _ _ Hu)).
  destruct (Hout data2) as (Hclean & Hset & Hother).
  { intros i Hi. unfold data2, write_states. case_decide; [|done]. rewrite lookup_ge_None_2; [done|]. rewrite Hlen.
    destruct (decide (i - r_head m' < length L)) as [Hs|]; [|lia]. destruct (Hi _ Hs). lia. }
  split; [done|]. split; [done|]. split; [done|]. intros q. unfold abs_step. cbv zeta.
  assert (ins = (λ ids, start_val zero (rec_view zero m data (hd 0 ids))) <$> L) as Eins.
  { apply list_eq. intros s. unfold ins. rewrite !list_lookup_fmap. destruct (L !! s) as [ids|] eqn:Es.
    - rewrite lookup_seq_lt by (rewrite (rf_n _ _ _ Hu); by apply lookup_lt_Some in Es). cbn. f_equal. by apply Hin.
    - rewrite lookup_seq_ge by (rewrite (rf_n _ _ _ Hu); by apply lookup_ge_None_1). done. }
  rewrite <- Eins. destruct (list_find (λ ids, q ∈ ids) L) as [[s ids]|] eqn:Ef.
  - apply list_find_Some in Ef as (Hs & Hq & _). destruct (lookup_lt_is_Some_2 ps s) as [p Hp]; [rewrite (rf_len _ _ _ Hu); by apply lookup_lt_Some in Hs|].
    destruct (lookup_lt_is_Some_2 (compute u ins) s) as [o Ho]; [rewrite Hlen; by apply lookup_lt_Some in Hs|].
    rewrite Hp, Ho. cbn [mbind option_bind]. rewrite (Hset _ _ _ _ Hs Hq Hp). f_equal. f_equal. unfold data2, write_states. rewrite decide_True by lia.
    replace (r_head m' + s - r_head m') with s by lia. by rewrite Ho.
  - apply Hother. intros (ids & Hids & Hq)%elem_of_concat. apply list_find_None in Ef. rewrite Forall_forall in Ef. by apply (Ef ids).
Qed.

Lemma rec_decode_ok us Ls : batch_fits us Ls → ∀ k i pre m (data : nat → A), rec_wf m → rec_clean zero m data → batch_small (r_size m) Ls → us ≠ [] →
  i = length pre → length us ≤ k →
  okP (rec_decode k m data (RecContext STATUS_SUCCESS i (pre ++ us) false)) (λ r,
    rec_wf r.1 ∧ rec_clean zero r.1 r.2 ∧ ∀ q, rec_view zero r.1 r.2 q = abs_run (rec_view zero m data) us Ls q).
Proof.
  intros H. induction H as [|u [L ps] us Ls Hu H IH]; intros k i pre m data Hm Hc Hs Hne -> Hk; [done|]. destruct k as [|k]; [cbn in Hk; lia|].
  cbn [rec_decode]. unfold rec_apply. cbn [rx_status rx_ubatches rx_i_next]. rewrite (assert_ok (negb (status_is_fail STATUS_SUCCESS))) by done. rewrite bind_Ok.
  rewrite decide_False by (by destruct pre). assert ((pre ++ u :: us) !! length pre = Some u) as Hlk by by apply list_lookup_middle.
  rewrite (vget_ok _ _ _ Hlk), bind_Ok. cbn [fst snd] in Hu.
  pose proof (rec_find_slot_ok zero data m u L ps Hm Hc Hu) as Hfs. destruct (rec_find_slot m u) as [[m' b]|]; cbn [okP] in Hfs.
  2: { destruct Hfs. intros q Hq. eapply (Hs (L, ps)); [by left|done]. }
  destruct Hfs as [_ Hslot]; [intros q Hq; eapply (Hs (L, ps)); [by left|done]|]. cbn [fst] in Hslot. rewrite !bind_Ok. cbn [fst]. cbv zeta.
  destruct (slot_step data m u L ps m' Hu Hslot) as (Hw' & Hsz & Hc' & Hv'). set (data2 := write_states _ _ _) in *.
  unfold rec_next. cbn [rx_status rx_ubatches rx_i_next rx_is_full]. rewrite (assert_ok (bool_decide (STATUS_SUCCESS = STATUS_SUCCESS))) by done. rewrite !bind_Ok. cbn [fst snd].
  destruct us as [|u2 us2].
  - rewrite bool_decide_false by (rewrite length_app; cbn; lia). cbn [okP fst snd]. split; [done|]. split; [done|]. intros q.
    inversion H; subst. cbn [abs_run fst snd]. apply Hv'.
  - rewrite bool_decide_true by (rewrite length_app; cbn; lia). rewrite cons_middle, app_assoc.
    eapply okP_mono; [apply (IH k (S (length pre)) (pre ++ [u])); [done|done| |done|by rewrite length_app, Nat.add_1_r|cbn in Hk |- *; lia]|].
    + rewrite Hsz. intros L' q HL'. apply Hs. by right.
    + intros r (R1 & R2 & R3). split; [done|]. split; [done|]. intros q. rewrite R3. exact (abs_run_ext (u2 :: us2) Ls _ _ Hv' q).
Qed.

(** prepare *)
Lemma rec_prepare_ok us Ls m (data : nat → A) : batch_fits us Ls → rec_wf m → rec_clean zero m data → batch_small (r_size m) Ls →
  okP (rec_prepare m us) (λ r, r.2 = true ∧ r_cells r.1 = r_cells m ∧ r_used r.1 = r_used m ∧ r_head r.1 = r_head m).
Proof.
  intros H Hm Hc Hs. unfold rec_prepare. eapply (okP_bind _ _ (λ r, r.2 = true)); [|intros r Hr; done].
  revert m data Hm Hc Hs. induction H as [|u [L ps] us Ls Hu H IH]; intros m data Hm Hc Hs; cbn [foldM]; [done|]. cbn [snd fst] in *.
  eapply okP_bind; [apply (rec_find_slot_ok zero data m u L ps Hm Hc Hu); intros q Hq; eapply (Hs (L, ps)); [by left|done]|].
  intros [m' b] [Hb Hslot]. cbn [fst snd] in *. subst b. destruct (slot_step data m u L ps m' Hu Hslot) as (Hw' & Hsz & Hc' & _).
  eapply IH; [done|exact Hc'|]. rewrite Hsz. intros L' q HL'. apply Hs. by right.
Qed.
End decode.

(** ** Removing all sequences *)

Definition rm_all_cell (c : mem_cell) : mem_cell := if decide (0 ≤ m_pos c < INT32_MAX)%Z then set_content (-1) (-1) ∅ c else c.

Lemma rm_all_ok m : r_size m = length (r_cells m) →
  okP (rec_seq_rm m (-1) (-1) (-1)) (λ r, r.2 = true ∧ r_cells r.1 = rm_all_cell <$> r_cells m ∧ r_head r.1 ≤ r_head m).
Proof.
  intros _. unfold rec_seq_rm. cbv zeta. change (norm_p0 (-1)) with 0%Z. change (norm_p1 (-1)) with INT32_MAX.
  rewrite decide_False by lia. rewrite (decide_False (P := (0 ≤ -1)%Z)) by lia. rewrite decide_False by (intros [_ [?|?]]; done).
  unfold rec_rm_loop. eapply (okP_bind _ _ (λ st, st.1.1 = rm_all_cell <$> r_cells m)); [|intros [[c u] h] E; cbn in E |- *; split; [done|]; split; [done|]; unfold rec_lower_head; case_decide; lia].
  eapply okP_mono; [apply (okP_for _ (λ i st, st.1.1 = (rm_all_cell <$> take i (r_cells m)) ++ drop i (r_cells m)))|].
  - done.
  - intros i [[cells used] nh] Hi Hc. cbn [fst] in Hc. subst cells. destruct (lookup_lt_is_Some_2 _ _ Hi) as [c Hci].
    assert (((rm_all_cell <$> take i (r_cells m)) ++ drop i (r_cells m)) !! i = Some c) as Hlk.
    { rewrite lookup_app_r by (rewrite length_fmap, length_take; lia). rewrite length_fmap, length_take, lookup_drop, <- Hci. f_equal. lia. }
    assert (∀ d, <[i := d]> ((rm_all_cell <$> take i (r_cells m)) ++ drop i (r_cells m)) = (rm_all_cell <$> take i (r_cells m)) ++ d :: drop (S i) (r_cells m)) as Hins.
    { intros d. rewrite (drop_S _ _ _ Hci). rewrite insert_app_r_alt by (rewrite length_fmap, length_take; lia).
      rewrite length_fmap, length_take. replace (i - i `min` length (r_cells m)) with 0 by lia. done. }
    rewrite (take_S_r _ _ _ Hci), fmap_app, <- app_assoc. change ((rm_all_cell <$> [c]) ++ drop (S i) (r_cells m)) with (rm_all_cell c :: drop (S i) (r_cells m)).
    cbn [rec_rm_cell]. rewrite (vget_ok _ _ _ Hlk), bind_Ok. destruct (decide (0 ≤ m_pos c < INT32_MAX)%Z) as [Hp|Hp].
    + assert (rm_all_cell c = set_content (-1) (-1) ∅ c) as -> by (unfold rm_all_cell; by rewrite decide_True).
      rewrite decide_True by (left; lia). rewrite !(decide_True (P := (-1 < 0)%Z)) by lia. rewrite decide_True by done.
      rewrite vset_ok by (by apply lookup_lt_Some in Hlk). rewrite bind_Ok. cbn [okP fst]. apply Hins.
    + assert (rm_all_cell c = c) as -> by (unfold rm_all_cell; by rewrite decide_False). cbn [okP fst]. rewrite <- Hins. symmetry. by apply list_insert_id.
  - intros st ->. rewrite take_ge, drop_ge, app_nil_r by done. done.
Qed.

(** Removing all sequences at once, [seq_rm(-1, -1, -1)], empties the cells but leaves their tails: the next
    micro-batch of a sequence that had a cell fails the assertion that its cell contains it. *)
Theorem rec_rm_all_breaks m q k u p : rec_wf m → (∀ i c, r_cells m !! i = Some c → (m_pos c < INT32_MAX)%Z) → seq_cell m q = Some k →
  rec_fits u [[q]] [p] →
  ∃ m', rec_seq_rm m (-1) (-1) (-1) = Ok (m', true) ∧ Forall (λ c, m_seqs c = ∅) (r_cells m') ∧ rec_find_slot m' u = Err Abort.
Proof.
  intros Hm Hmax Hk Hu. pose proof (rm_all_ok m eq_refl) as H. apply okP_ok in H as ([m' b] & E & Hb & Hc & Hhead). cbn [fst snd] in *. subst b.
  exists m'. split; [done|]. pose proof (rec_cells_wf _ Hm) as Hw.
  assert (∀ i c, r_cells m' !! i = Some c → m_seqs c = ∅ ∧ ∃ d, r_cells m !! i = Some d ∧ m_tail c = m_tail d) as Hall.
  { intros i c. rewrite Hc, list_lookup_fmap. destruct (r_cells m !! i) as [d|] eqn:Ed; [|done]. intros [= <-]. unfold rm_all_cell.
    destruct (cw_marks _ _ _ Hw _ _ _ (lookup_marks _ _ _ Ed) (lookup_seqs _ _ _ Ed)) as (_ & M1 & M2). cbn in M1, M2. specialize (Hmax _ _ Ed).
    case_decide as Hp; cbn; (split; [|by exists d]); [done|]. destruct (decide (m_seqs d = ∅)) as [|Hne]; [done|]. specialize (M2 Hne). lia. }
  split; [apply Forall_lookup; intros i c Hi; by apply (Hall i)|].
  assert (length (r_cells m') = r_size m) as Hl by (rewrite Hc; apply length_fmap). pose proof (rw_size _ Hm) as [Hs0 _].
  assert (q < r_size m) as Hq. { unfold seq_cell, seq_mark in Hk. destruct (tails (r_cells m) !! q) eqn:Et; [|done]. apply lookup_lt_Some in Et. by rewrite length_tails in Et. }
  assert (check_set u (r_cells m', r_used m', true) 0 = Ok (r_cells m', r_used m', true)) as Hcheck.
  { unfold check_set. cbn [snd negb]. rewrite (rf_ids _ _ _ Hu 0 [q] eq_refl), bind_Ok.
    change (foldM check_id (r_cells m', r_used m', true) [(0, Z.of_nat q)] = Ok (r_cells m', r_used m', true)). cbn [foldM].
    unfold check_id. cbn [negb]. rewrite decide_False by (rewrite Hl; lia). by rewrite decide_False by lia. }
  destruct (rf_primary _ _ _ Hu 0 [q] eq_refl) as (q' & ids' & [= <- <-] & Hprim).
  destruct (lookup_lt_is_Some_2 (r_cells m') q) as [c Hcq]; [lia|]. destruct (Hall _ _ Hcq) as (_ & d & Hd & Etail).
  destruct (cells_tail _ _ _ q Hw Hq) as (d' & Hd' & Ht). rewrite Hd in Hd'. injection Hd' as <-. fold (seq_cell m q) in Ht.
  destruct Ht as [[_ Hn]|(t & e & Ht & Hti & _)]; [unfold cell_of in Hn; fold (seq_cell m q) in Hn; congruence|].
  destruct (lookup_lt_is_Some_2 (r_cells m') t) as [e' He']; [lia|]. destruct (Hall _ _ He') as (Hes & _).
  unfold rec_find_slot. rewrite ggml_assert_ok by apply (rf_equal _ _ _ Hu). rewrite bind_Ok, (rf_n _ _ _ Hu). cbn [length seq foldM].
  rewrite Hcheck, !bind_Ok. cbn [negb].
  assert (okP (next_empty (r_size m') (r_cells m') (if decide (u32 (r_used m' + 2 * Z.of_nat 1) < Z.of_nat (r_head m'))%Z then 0 else r_head m')) (λ _, True)) as Hnext.
  { apply next_empty_total; [lia|]. pose proof (rw_head _ Hm). case_decide; lia. }
  destruct (next_empty _ _ _) as [next|]; [|done]. rewrite bind_Ok. unfold assign_set at 1. cbn [ss_cells ss_next ss_min ss_max].
  rewrite Hprim, bind_Ok, idx_ok by lia. rewrite bind_Ok, Nat2Z.id, (vget_ok _ _ _ Hcq), bind_Ok. unfold owns_cell at 1.
  rewrite decide_True by lia. rewrite Etail, Hti, Nat2Z.id, (vget_ok _ _ _ He'), bind_Ok. unfold m_has. rewrite Hes. by rewrite bool_decide_false by set_solver.
Qed.

(** one token for the sequence 2, which shares its cell with 0, and one for 1 *)
Definition ex_ubatch : llama_ubatch := rec_ubatch 1 6 [[2]; [1]]%Z.

Lemma ex_set_fits : rec_fits ex_ubatch [[2]; [1]] [6; 6]%Z.
Proof.
  split; try done.
  - intros [|[|s]] ids; intros [= <-]; reflexivity.
  - intros [|[|s]] ids; intros [= <-]; by eexists _, _.
  - intros [|[|s]] p; intros [= <-]; reflexivity.
  - intros p Hp. assert (p = 6%Z) as -> by set_solver. unfold INT32_MAX. lia.
  - cbn. apply NoDup_cons. split; [set_solver|apply NoDup_singleton].
Qed.

Lemma ex_ids_small q : q ∈ concat [[2]; [1]] → q < r_size ex_shared.
Proof. unfold r_size. cbn. rewrite !elem_of_cons, elem_of_nil. lia. Qed.

(** the states of the three cells; the third one is empty *)
Definition ex_data (i : nat) : Z := match i with 0 => 100%Z | 1 => 200%Z | _ => 300%Z end.

Lemma ex_states_clean : rec_clean 0%Z ex_shared ex_data.
Proof.
  intros [|[|[|i]]] c; cbn; intros [= <-]; cbn; intros E; done.
Qed.

Lemma ex_single_fits : rec_fits (rec_ubatch 1 6 [[2]]%Z) [[2]] [6]%Z.
Proof.
  split; try done.
  - intros [|s] ids; intros [= <-]; reflexivity.
  - intros [|s] ids; intros [= <-]; by eexists _, _.
  - intros [|s] p; intros [= <-]; reflexivity.
  - intros p Hp. assert (p = 6%Z) as -> by set_solver. unfold INT32_MAX. lia.
  - cbn. apply NoDup_singleton.
Qed.

Lemma rec_rm_all_breaks_witness : ∃ m', rec_seq_rm ex_shared (-1) (-1) (-1) = Ok (m', true) ∧ Forall (λ c, m_seqs c = ∅) (r_cells m') ∧
  rec_find_slot m' (rec_ubatch 1 6 [[2]]%Z) = Err Abort.
Proof.
  apply (rec_rm_all_breaks ex_shared 2 (5, 0)%Z _ 6%Z); [exact ex_shared_wf| |reflexivity|exact ex_single_fits].
  intros [|[|[|i]]] c; cbn; intros [= <-]; unfold INT32_MAX; cbn; lia.
Defined.

(** C2. find_slot places a micro-batch whose sequence ids are smaller than the number of cells: the invariant
    is kept, the sets get neighbouring cells from [head] on with their last positions, the graph finds in them
    the states of the first sequences of the sets (the empty state for a new sequence), and whatever is computed
    into these cells, every other sequence keeps its position and its state, through all moves of cells.  With a
    sequence id that is too large it returns false. *)
Theorem rec_find_slot_correct {A} (zero : A) (data : nat → A) m u L ps : rec_wf m → rec_fits u L ps →
  ((∀ q, q ∈ concat L → q < r_size m) → rec_clean zero m data → okP (rec_find_slot m u) (λ r, r.2 = true ∧ let m' := r.1 in
    rec_wf m' ∧ r_size m' = r_size m ∧ r_head m' + length L ≤ r_size m ∧ (Z.of_nat (length L) ≤ r_n m')%Z ∧
    (∀ s ids, L !! s = Some ids → build_rs zero m' data (r_head m' + s) = start_val zero (rec_view zero m data (hd 0 ids))) ∧
    ∀ data2, (∀ i, (∀ s, s < length L → i ≠ r_head m' + s) → data2 i = build_rs zero m' data i) →
      rec_clean zero m' data2 ∧
      (∀ s ids q last, L !! s = Some ids → q ∈ ids → ps !! s = Some last → rec_view zero m' data2 q = Some (last, data2 (r_head m' + s))) ∧
      (∀ q, q ∉ concat L → rec_view zero m' data2 q = rec_view zero m data q))) ∧
  ((∃ q, q ∈ concat L ∧ r_size m ≤ q) → okP (rec_find_slot m u) (λ r, r.2 = false ∧ rec_wf r.1)).
Proof.
  intros Hm Hu. split.
  - intros Hlt Hc. by apply rec_find_slot_ok.
  - intros Hq. eapply okP_mono; [by apply (rec_find_slot_refuses m u L ps)|]. by intros r (H1 & H2 & _).
Qed.

Lemma rec_find_slot_correct_witness : okP (rec_find_slot ex_shared ex_ubatch) (λ r, r.2 = true ∧ rec_wf r.1 ∧
  build_rs 0%Z r.1 ex_data (r_head r.1 + 0) = 100%Z ∧ build_rs 0%Z r.1 ex_data (r_head r.1 + 1) = 200%Z).
Proof.
  destruct (rec_find_slot_correct 0%Z ex_data ex_shared ex_ubatch _ _ ex_shared_wf ex_set_fits) as [H _].
  eapply okP_mono; [exact (H ex_ids_small ex_states_clean)|]. cbv zeta. intros r (H1 & H2 & _ & _ & _ & H3 & _). split; [done|]. split; [done|]. split.
  - exact (H3 0 [2] eq_refl).
  - exact (H3 1 [1] eq_refl).
Defined.

(** C7. A batch that fits runs to its end: [prepare] succeeds and leaves the cells as they were, and decoding its
    micro-batches one after the other changes the map from sequences to positions and states step by step as the
    model computes it, every set of a micro-batch from the state of its first sequence. *)
Theorem rec_batch_refines {A} (zero : A) (compute : llama_ubatch → list A → list A) (data : nat → A) m us Ls :
  (∀ u l, length (compute u l) = length l) → rec_wf m → rec_clean zero m data → batch_fits us Ls → batch_small (r_size m) Ls → us ≠ [] →
  okP (r ← rec_prepare m us; ggml_assert r.2;; rec_decode zero compute (length us) r.1 data (RecContext STATUS_SUCCESS 0 us false)) (λ r,
    rec_wf r.1 ∧ rec_clean zero r.1 r.2 ∧ ∀ q, rec_view zero r.1 r.2 q = abs_run zero compute (rec_view zero m data) us Ls q).
Proof.
  intros Hlen Hm Hc Hf Hs Hne. eapply okP_bind; [by eapply (rec_prepare_ok zero compute Hlen us Ls m data)|]. intros [m' b] (E & E1 & E2 & E3). cbn [fst snd] in *.
  subst b. rewrite ggml_assert_ok by done. rewrite bind_Ok. destruct m' as [h us' n' z' cells']. cbn [r_cells r_used r_head] in *. subst.
  assert (rec_wf (RecMem (r_head m) (r_used m) n' z' (r_cells m))) as Hm' by (destruct Hm; by split).
  apply (rec_decode_ok zero compute Hlen us Ls Hf (length us) 0 [] _ data Hm'); done.
Qed.

Definition ex_compute (u : llama_ubatch) (l : list Z) : list Z := (λ x, x + 1)%Z <$> l.

Lemma rec_batch_refines_witness :
  okP (r ← rec_prepare ex_shared [ex_ubatch]; ggml_assert r.2;; rec_decode 0%Z ex_compute 1 r.1 ex_data (RecContext STATUS_SUCCESS 0 [ex_ubatch] false)) (λ r,
    rec_wf r.1 ∧ rec_view 0%Z r.1 r.2 0 = Some (5, 100)%Z ∧ rec_view 0%Z r.1 r.2 1 = Some (6, 201)%Z ∧ rec_view 0%Z r.1 r.2 2 = Some (6, 101)%Z).
Proof.
  eapply okP_mono; [apply (rec_batch_refines 0%Z ex_compute ex_data ex_shared [ex_ubatch] [([[2]; [1]], [6; 6]%Z)])|].
  - intros u l. apply length_fmap.
  - exact ex_shared_wf.
  - exact ex_states_clean.
  - constructor; [exact ex_set_fits|constructor].
  - intros L q HL Hq. apply list_elem_of_singleton in HL as ->. by apply ex_ids_small.
  - done.
  - intros r (H1 & _ & H3). split; [done|]. rewrite !H3. split; [reflexivity|]. split; reflexivity.
Defined.
