(* ===== verification/RecState.v ===== *)
(** Saving and restoring the recurrent memory: [state_write], [state_read] and their parts in
    src/llama-memory-recurrent.cpp.  The saved state is a list of bytes; a tensor is its bytes with the size of the
    row of a cell; a layer that is a null pointer is None. *)
From S2P Require Import Prelude KvCells Batch KvSlot KvState Recurrent.
From stdpp Require Import sorting.

Record rs_tensor := RsTensor { rt_type : Z; rt_row : nat; rt_bytes : list Z }.

(** [rst_pos] is hparams.n_pos_per_embd(); r_l and s_l have n_layer entries *)
Record rec_state := RecState { rst_mem : rec_mem; rst_pos : nat; rst_r : list (option rs_tensor); rst_s : list (option rs_tensor) }.

Definition with_mem (st : rec_state) (m : rec_mem) : rec_state := RecState m (rst_pos st) (rst_r st) (rst_s st).

(** ** Writing *)

(** (seq_id == -1 && !cell.is_empty()) || cell.has_seq_id(seq_id) *)
Definition rec_wanted (seq_id : Z) (c : mem_cell) : bool := (bool_decide (seq_id = -1)%Z && negb (m_empty c)) || m_has c seq_id.

Definition rec_cell_ranges (cells : mem_cells) (seq_id : Z) : res (list (nat * nat) * nat) :=
  st ← foldM (λ st i, c ← vget cells i; Ok (range_push (length cells) (rec_wanted seq_id c) st i))
         (RangeState [] (length cells) 0) (seq 0 (length cells));
  range_close (length cells) st.

(** the ids of a std::set, in order *)
Definition set_order (s : gset Z) : list Z := merge_sort Z.le (elements s).

Definition rec_write_cell (seq_id : Z) (c : mem_cell) : list Z :=
  let ids := if decide (seq_id = -1)%Z then set_order (m_seqs c) else [] in
  put_i32 (m_pos c) ++ put_u32 (Z.of_nat (length ids)) ++ concat (put_i32 <$> ids).

Definition rec_write_meta (cells : mem_cells) (cr : list (nat * nat)) (seq_id : Z) : res (list Z) :=
  foldM (λ io r, foldM (λ io i, c ← vget cells i; Ok (io ++ rec_write_cell seq_id c)) io (range_cells r)) [] cr.

(** one R or S tensor *)
Definition rec_write_tensor (cr : list (nat * nat)) (io : list Z) (o : option rs_tensor) : res (list Z) :=
  match o with
  | None => Ok io
  | Some t => write_rows (rt_bytes t) (λ i, i * rt_row t) (rt_row t) cr (io ++ put_i32 (rt_type t) ++ put_u64 (Z.of_nat (rt_row t)))
  end.

(** s_trans is 0, so the branch for transposed S tensors is never taken *)
Definition rec_write_data (st : rec_state) (cr : list (nat * nat)) : res (list Z) :=
  io ← foldM (rec_write_tensor cr) (put_u32 0 ++ put_u32 (Z.of_nat (length (rst_r st)))) (rst_r st);
  foldM (rec_write_tensor cr) io (rst_s st).

Definition rec_state_write (st : rec_state) (seq_id : Z) : res (list Z) :=
  let cells := r_cells (rst_mem st) in
  r ← rec_cell_ranges cells seq_id;
  m ← rec_write_meta cells r.1 seq_id;
  d ← rec_write_data st r.1;
  Ok (put_u32 (Z.of_nat r.2) ++ m ++ d).

(** ** Reading *)

(** one token of a saved sequence *)
Definition rec_read_pos (st : outcome (list Z * list Z)) (i : nat) : res (outcome (list Z * list Z)) :=
  match st with
  | Failed => Ok Failed
  | Going (ps, io) =>
      p ← get_i32 io;
      k ← get_u32 p.2;
      if decide (k.1 ≠ 0)%Z then Ok Failed else
      ps ← vset ps i p.1;
      Ok (Going (ps, k.2))
  end.

(** cells[cell_id].src = cell_id *)
Definition own_src (head : nat) (cells : mem_cells) (i : nat) : res mem_cells :=
  upd cells (head + i) (λ c, set_content (m_pos c) (Z.of_nat (head + i)) (m_seqs c) c).

Definition with_cells (m : rec_mem) (cells : mem_cells) : rec_mem := RecMem (r_head m) (r_used m) (r_n m) (rs_z m) cells.

(** the checks after find_slot *)
Definition rec_check_restored (m : rec_mem) (ps : list Z) (n : nat) (dest : Z) : res unit :=
  let h := r_head m in
  ggml_assert (bool_decide (u32 (Z.of_nat h + Z.of_nat n) ≤ Z.of_nat (r_size m))%Z);;
  a ← vget (r_cells m) h;
  p ← vget ps 0;
  ggml_assert (bool_decide (m_pos a = p));;
  b ← vget (r_cells m) (h + n - 1);
  q ← vget ps (n - 1);
  ggml_assert (bool_decide (m_pos b = q));;
  ggml_assert (m_has a dest);;
  ggml_assert (m_has b dest).

(** single sequence *)
Definition rec_read_seq (npos : nat) (m : rec_mem) (n : nat) (dest : Z) (io : list Z) : res (rec_mem * outcome (list Z)) :=
  r ← rec_seq_rm m dest (-1) (-1);
  let m := r.1 in
  if decide (n = 0) then Ok (m, Going io) else
  b ← ubatch_reserve (allocr_new npos) n 1;
  let u := b.2 in
  o ← foldM rec_read_pos (Going (u_pos u, io)) (seq 0 n);
  match o with
  | Failed => Ok (m, Failed)
  | Going (ps, io) =>
      ns ← vset (u_n_seq_id u) 0 1%Z;
      ids ← vset (u_seq_id u) 0 [dest];
      f ← rec_find_slot m (UBatch (equal_seqs u) (n_tokens u) (n_seq_tokens u) (n_seqs u) (n_seqs_unq u) (n_pos u) (u_token u)
                             (u_embd u) ps ns ids (u_seq_id_unq u) (u_seq_idx u) (u_output u));
      if negb f.2 then Ok (f.1, Failed) else
      rec_check_restored f.1 ps n dest;;
      cells ← foldM (own_src (r_head f.1)) (r_cells f.1) (seq 0 n);
      Ok (with_cells f.1 cells, Going io)
  end.

(** one sequence id of the i-th cell *)
Definition rec_read_id (i : nat) (st : mem_cells * outcome (list Z)) (_j : nat) : res (mem_cells * outcome (list Z)) :=
  match st with
  | (cells, Failed) => Ok (cells, Failed)
  | (cells, Going io) =>
      q ← get_i32 io;
      if decide (q.1 < 0)%Z then Ok (cells, Failed) else
      cells ← upd cells i (λ c, set_mseqs (m_seqs c ∪ {[q.1]}) c);
      t ← vget cells (Z.to_nat q.1);
      if decide (m_tail t ≠ -1)%Z then Ok (cells, Failed) else
      cells ← vset cells (Z.to_nat q.1) (set_tail (Z.of_nat i) t);
      Ok (cells, Going q.2)
  end.

Definition rec_read_cell (st : mem_cells * outcome (list Z)) (i : nat) : res (mem_cells * outcome (list Z)) :=
  match st with
  | (cells, Failed) => Ok (cells, Failed)
  | (cells, Going io) =>
      p ← get_i32 io;
      k ← get_u32 p.2;
      cells ← upd cells i (set_mpos p.1);
      foldM (rec_read_id i) (cells, Going k.2) (seq 0 (Z.to_nat k.1))
  end.

(** the buffers of clear(true) *)
Definition rec_zeroed (l : list (option rs_tensor)) : list (option rs_tensor) :=
  fmap (M := option) (λ t, RsTensor (rt_type t) (rt_row t) (replicate (length (rt_bytes t)) 0%Z)) <$> l.
Definition rec_clear_all (st : rec_state) : rec_state :=
  RecState (rec_clear (rst_mem st)) (rst_pos st) (rec_zeroed (rst_r st)) (rec_zeroed (rst_s st)).

Definition rec_read_meta (st : rec_state) (n : nat) (dest : Z) (io : list Z) : res (rec_state * outcome (list Z)) :=
  if decide (dest ≠ -1)%Z then
    r ← rec_read_seq (rst_pos st) (rst_mem st) n dest io; Ok (with_mem st r.1, r.2)
  else if decide (r_size (rst_mem st) < n) then Ok (st, Failed)
  else
    let st := rec_clear_all st in
    r ← foldM rec_read_cell (r_cells (rst_mem st), Going io) (seq 0 n);
    match r.2 with
    | Failed => Ok (with_mem st (with_cells (rst_mem st) r.1), Failed)
    | Going io =>
        cells ← foldM (own_src 0) r.1 (seq 0 n);
        Ok (with_mem st (RecMem 0 (Z.of_nat n) (r_n (rst_mem st)) (rs_z (rst_mem st)) cells), Going io)
    end.

(** one R or S tensor *)
Definition rec_read_tensor (head n : nat) (st : list (option rs_tensor) * outcome (list Z)) (il : nat) :
    res (list (option rs_tensor) * outcome (list Z)) :=
  match st with
  | (l, Failed) => Ok (l, Failed)
  | (l, Going io) =>
      o ← vget l il;
      match o with
      | None => Ok (l, Going io)
      | Some t =>
          ty ← get_i32 io;
          if decide (rt_type t ≠ ty.1) then Ok (l, Failed) else
          z ← get_u64 ty.2;
          if decide (Z.of_nat (rt_row t) ≠ z.1) then Ok (l, Failed) else
          if decide (n = 0) then Ok (l, Going z.2) else
          b ← io_read (n * rt_row t) z.2;
          bytes ← tensor_set (rt_bytes t) b.1 (head * rt_row t);
          l ← vset l il (Some (RsTensor (rt_type t) (rt_row t) bytes));
          Ok (l, Going b.2)
      end
  end.

Definition rec_read_data (st : rec_state) (n : nat) (io : list Z) : res (rec_state * outcome (list Z)) :=
  tr ← get_u32 io;
  nl ← get_u32 tr.2;
  let m := rst_mem st in
  if decide (nl.1 ≠ Z.of_nat (length (rst_r st))) then Ok (st, Failed) else
  if decide (r_size m < n) then Ok (st, Failed) else
  if decide (tr.1 ≠ 0)%Z then Ok (st, Failed) else
  r ← foldM (rec_read_tensor (r_head m) n) (rst_r st, Going nl.2) (seq 0 (length (rst_r st)));
  s ← foldM (rec_read_tensor (r_head m) n) (rst_s st, r.2) (seq 0 (length (rst_r st)));
  Ok (RecState m (rst_pos st) r.1 s.1, s.2).

Definition rec_forget (st : rec_state) (seq_id : Z) : res rec_state :=
  if decide (seq_id = -1)%Z then Ok (rec_clear_all st)
  else r ← rec_seq_rm (rst_mem st) seq_id (-1) (-1); Ok (with_mem st r.1).

Definition rec_state_read (st : rec_state) (seq_id : Z) (io : list Z) : res (rec_state * read_end) :=
  k ← get_u32 io;
  let n := Z.to_nat k.1 in
  m ← rec_read_meta st n seq_id k.2;
  match m.2 with
  | Failed => st ← rec_forget m.1 seq_id; Ok (st, RestoreFailed)
  | Going io =>
      d ← rec_read_data m.1 n io;
      match d.2 with
      | Failed => st ← rec_forget d.1 seq_id; Ok (st, RestoreFailed)
      | Going io => Ok (d.1, ReadDone io)
      end
  end.

(** * Lemmas *)

(** ** What is written *)

Definition rec_chosen (cells : mem_cells) (q : Z) (i : nat) : bool :=
  match cells !! i with Some c => rec_wanted q c | None => false end.

(** the cells to save, in order *)
Definition rec_saved (cells : mem_cells) (q : Z) : list nat := chosen (rec_chosen cells q) (length cells).

Lemma rec_cell_ranges_ok cells q : okP (rec_cell_ranges cells q) (λ r, ranges_cells r.1 = rec_saved cells q ∧
  r.2 = length (rec_saved cells q) ∧ Forall (λ r, r.1 < r.2 ∧ r.2 ≤ length cells) r.1).
Proof.
  unfold rec_cell_ranges. eapply okP_bind; [apply (okP_for _ (range_inv (rec_chosen cells q) (length cells)))|].
  - apply range_start.
  - intros i st Hi Hst. destruct (lookup_lt_is_Some_2 cells i Hi) as [c Hc]. rewrite (vget_ok _ _ _ Hc), bind_Ok. cbn [okP].
    replace (rec_wanted q c) with (rec_chosen cells q i) by (unfold rec_chosen; by rewrite Hc). by apply range_push_ok.
  - intros st. apply range_close_ok.
Qed.

Lemma elem_of_saved cells q i : i ∈ rec_saved cells q ↔ ∃ c, cells !! i = Some c ∧ rec_wanted q c = true.
Proof.
  unfold rec_saved, chosen, rec_chosen. rewrite list_elem_of_filter, elem_of_seq. split.
  - intros [H [_ Hi]]. destruct (lookup_lt_is_Some_2 cells i Hi) as [c Hc]. rewrite Hc in H. by exists c.
  - intros (c & Hc & H). rewrite Hc. split; [done|]. split; [lia|]. apply lookup_lt_Some in Hc. lia.
Qed.

Lemma saved_nodup cells q : NoDup (rec_saved cells q).
Proof. apply NoDup_filter, NoDup_seq. Qed.

Definition cells_meta (q : Z) (cells : mem_cells) (l : list nat) : list Z :=
  concat ((λ i, match cells !! i with Some c => rec_write_cell q c | None => [] end) <$> l).

Lemma cells_meta_app q cells l l' : cells_meta q cells (l ++ l') = cells_meta q cells l ++ cells_meta q cells l'.
Proof. unfold cells_meta. by rewrite fmap_app, concat_app. Qed.

Lemma write_meta_list cells q l io : (∀ i, i ∈ l → i < length cells) →
  foldM (λ io i, c ← vget cells i; Ok (io ++ rec_write_cell q c)) io l = Ok (io ++ cells_meta q cells l).
Proof.
  revert io. induction l as [|i l IH]; intros io Hl; [cbn; by rewrite app_nil_r|]. cbn [foldM].
  destruct (lookup_lt_is_Some_2 cells i ltac:(apply Hl; left)) as [c Hc]. rewrite (vget_ok _ _ _ Hc), !bind_Ok, IH by (intros; apply Hl; by right).
  unfold cells_meta. cbn. by rewrite Hc, <- app_assoc.
Qed.

Lemma rec_write_meta_ok cells q cr : Forall (λ r, r.1 < r.2 ∧ r.2 ≤ length cells) cr →
  rec_write_meta cells cr q = Ok (cells_meta q cells (ranges_cells cr)).
Proof.
  intros Hcr. unfold rec_write_meta. change (cells_meta q cells (ranges_cells cr)) with ([] ++ cells_meta q cells (ranges_cells cr)).
  generalize (@nil Z). induction Hcr as [|r cr [H1 H2] _ IH]; intros io; [cbn; by rewrite app_nil_r|]. cbn [foldM].
  rewrite write_meta_list, bind_Ok, IH.
  - unfold ranges_cells. cbn [fmap list_fmap concat]. by rewrite cells_meta_app, app_assoc.
  - intros i Hi. apply elem_of_seq in Hi. lia.
Qed.

(** ** Tensors *)

Abbreviation rows_off n := (λ i, i * n)%nat.

Lemma rows_affine n : affine (rows_off n) n.
Proof. intros i. cbn. lia. Qed.

(** the row of a cell *)
Definition rt_at (t : rs_tensor) (i : nat) : list Z := row_bytes (rt_bytes t) (rows_off (rt_row t)) (rt_row t) i.

(** the tensors of a memory of [n] cells *)
Definition tensor_ok (n : nat) (t : rs_tensor) : Prop :=
  length (rt_bytes t) = n * rt_row t ∧ (INT32_MIN ≤ rt_type t ≤ INT32_MAX)%Z ∧ (Z.of_nat (rt_row t) < 18446744073709551616)%Z.
Definition layer_ok (n : nat) (o : option rs_tensor) : Prop := match o with Some t => tensor_ok n t | None => True end.

Definition tensor_saved (l : list nat) (o : option rs_tensor) : list Z :=
  match o with
  | None => []
  | Some t => put_i32 (rt_type t) ++ put_u64 (Z.of_nat (rt_row t)) ++ rows_bytes (rt_bytes t) (rows_off (rt_row t)) (rt_row t) l
  end.

Lemma rec_write_tensor_ok n cr io o : layer_ok n o → Forall (λ r, r.1 < r.2 ∧ r.2 ≤ n) cr →
  rec_write_tensor cr io o = Ok (io ++ tensor_saved (ranges_cells cr) o).
Proof.
  intros Ho Hcr. destruct o as [t|]; cbn; [|by rewrite app_nil_r]. destruct Ho as (Hl & _).
  rewrite write_rows_ok; [by rewrite <- !app_assoc|apply rows_affine|].
  eapply Forall_impl; [exact Hcr|]. intros r [H1 H2]. split; [done|]. rewrite Hl. nia.
Qed.

Lemma rec_write_tensors_ok n cr io os : Forall (layer_ok n) os → Forall (λ r, r.1 < r.2 ∧ r.2 ≤ n) cr →
  foldM (rec_write_tensor cr) io os = Ok (io ++ concat (tensor_saved (ranges_cells cr) <$> os)).
Proof.
  intros Hos Hcr. revert io. induction Hos as [|o os Ho Hos IH]; intros io; [cbn; by rewrite app_nil_r|]. cbn [foldM].
  rewrite (rec_write_tensor_ok n) by done. rewrite bind_Ok, IH. cbn. by rewrite app_assoc.
Qed.

(** ** Memories that can be saved *)

(** a memory between two batches: the states of the cells are their own *)
Record rec_state_ok (st : rec_state) : Prop := {
  rso_wf : rec_wf (rst_mem st);
  rso_src : ∀ i c, r_cells (rst_mem st) !! i = Some c → m_seqs c ≠ ∅ → m_src c = Z.of_nat i;
  rso_r : Forall (layer_ok (r_size (rst_mem st))) (rst_r st);
  rso_s : Forall (layer_ok (r_size (rst_mem st))) (rst_s st);
  rso_n : length (rst_s st) = length (rst_r st) ∧ (Z.of_nat (length (rst_r st)) < 4294967296)%Z }.

Definition data_saved (st : rec_state) (l : list nat) : list Z :=
  put_u32 0 ++ put_u32 (Z.of_nat (length (rst_r st))) ++ concat (tensor_saved l <$> rst_r st) ++ concat (tensor_saved l <$> rst_s st).

Lemma rec_state_write_ok st q : rec_state_ok st → let cells := r_cells (rst_mem st) in let l := rec_saved cells q in
  rec_state_write st q = Ok (put_u32 (Z.of_nat (length l)) ++ cells_meta q cells l ++ data_saved st l).
Proof.
  intros [H1 H2 H3 H4 H5] cells l. unfold rec_state_write. fold cells. pose proof (rec_cell_ranges_ok cells q) as Hr.
  destruct (rec_cell_ranges cells q) as [[cr k]|e]; [|done]. destruct Hr as (E1 & E2 & E3). cbn [fst snd] in *. rewrite bind_Ok. cbn [fst snd].
  rewrite rec_write_meta_ok, bind_Ok by done. unfold rec_write_data.
  rewrite (rec_write_tensors_ok (r_size (rst_mem st))), bind_Ok, (rec_write_tensors_ok (r_size (rst_mem st))), bind_Ok by done.
  fold l in E1, E2. rewrite E1, E2. unfold data_saved. by rewrite <- !app_assoc.
Qed.

(** ** Reading the tensors *)

Definition same_shape (o o' : option rs_tensor) : Prop :=
  match o, o' with
  | Some t, Some t' => rt_type t = rt_type t' ∧ rt_row t = rt_row t'
  | None, None => True
  | _, _ => False
  end.

(** [o'] is [o2] with the rows [l] of [o1] in its rows from [h] on *)
Definition layer_placed (h : nat) (l : list nat) (o1 o2 o' : option rs_tensor) : Prop :=
  match o1, o2, o' with
  | Some t1, Some t2, Some t' => rt_type t' = rt_type t2 ∧ rt_row t' = rt_row t2 ∧ length (rt_bytes t') = length (rt_bytes t2) ∧
      (∀ k i, l !! k = Some i → rt_at t' (h + k) = rt_at t1 i) ∧
      (∀ i, (∀ k, k < length l → i ≠ h + k) → rt_at t' i = rt_at t2 i)
  | None, None, None => True
  | _, _, _ => False
  end.

Lemma take_ext {A} n (l l' : list A) : (∀ d, d < n → l !! d = l' !! d) → take n l = take n l'.
Proof.
  intros H. apply list_eq. intros d. destruct (decide (d < n)) as [Hd|Hd]; [by rewrite !lookup_take_lt by done; apply H|].
  by rewrite !lookup_take_ge by lia.
Qed.

Lemma rec_read_tensor_ok n1 n2 h l l2 il o1 o2 io : l2 !! il = Some o2 → same_shape o1 o2 → layer_ok n1 o1 → layer_ok n2 o2 →
  (∀ i, i ∈ l → i < n1) → h + length l ≤ n2 →
  okP (rec_read_tensor h (length l) (l2, Going (tensor_saved l o1 ++ io)) il) (λ r, ∃ o', r = (<[il := o']> l2, Going io) ∧ layer_placed h l o1 o2 o').
Proof.
  intros Hil Hsh Ho1 Ho2 Hl Hh. unfold rec_read_tensor. rewrite (vget_ok _ _ _ Hil), bind_Ok.
  destruct o1 as [t1|], o2 as [t2|]; try done.
  2: { cbn. exists None. by rewrite list_insert_id. }
  destruct Ho1 as (L1 & T1 & W1), Ho2 as (L2 & T2 & W2), Hsh as [E1 E2]. unfold tensor_saved. rewrite <- !app_assoc.
  rewrite get_i32_put, bind_Ok by done. cbn [fst snd]. rewrite decide_False by congruence.
  rewrite get_u64_put, bind_Ok by lia. cbn [fst snd]. rewrite (decide_False (P := (Z.of_nat (rt_row t2) ≠ _)%Z)) by (rewrite E2; tauto).
  assert (Hin : ∀ i, i ∈ l → i * rt_row t1 + rt_row t1 ≤ length (rt_bytes t1)) by (intros i Hi; specialize (Hl i Hi); rewrite L1; nia).
  pose proof (rows_bytes_length (rt_bytes t1) (rows_off (rt_row t1)) (rt_row t1) l Hin) as Hb.
  case_decide as Hn0.
  { destruct l as [|i l]; [|done]. cbn. exists (Some t2). rewrite list_insert_id by done. split; [done|]. split_and!; try done. }
  rewrite io_read_app, bind_Ok by (by rewrite Hb, E2). cbn [fst snd].
  eapply okP_bind; [apply (block_placed _ _ _ _ h (length l) (rows_affine (rt_row t2))); [lia|by rewrite Hb, E2|cbn; rewrite L2; nia]|].
  intros t' (P1 & P2 & P3). rewrite vset_ok, bind_Ok by (by eapply lookup_lt_Some). cbn [okP]. exists (Some (RsTensor (rt_type t2) (rt_row t2) t')).
  split; [done|]. cbn. split_and!; [done|done|done| |].
  - intros k i Hk. unfold rt_at, row_bytes. cbn. rewrite <- E2. apply take_ext. intros d Hd. rewrite !lookup_drop.
    rewrite <- E2 in P2. pose proof (lookup_lt_Some _ _ _ Hk) as Hkl. cbn beta in P2.
    rewrite (P2 k (h + k) d) by (done || by apply lookup_seq). by rewrite (rows_bytes_lookup _ _ _ l k i d Hin Hk Hd).
  - intros i Hi. unfold rt_at, row_bytes. cbn. apply take_ext. intros d Hd. rewrite !lookup_drop. apply P3.
    intros x e Hx He E. apply elem_of_seq in Hx. apply (Hi (x - h)); [lia|]. destruct (decide (i = x)) as [->|Hne]; [lia|].
    destruct (affine_disjoint _ _ i x d e (rows_affine (rt_row t2)) Hd He Hne E).
Qed.

Lemma layer_placed_ok n h l o1 o2 o' : layer_placed h l o1 o2 o' → layer_ok n o2 → layer_ok n o' ∧ same_shape o2 o'.
Proof. destruct o1, o2, o'; try done. intros (H1 & H2 & H3 & _) (L & T & W). cbn. unfold tensor_ok. by rewrite H1, H2, H3. Qed.

(** all layers *)
Lemma rec_read_tensors_ok n1 n2 h l os1 os2 io : Forall2 same_shape os1 os2 → Forall (layer_ok n1) os1 → Forall (layer_ok n2) os2 →
  (∀ i, i ∈ l → i < n1) → h + length l ≤ n2 →
  okP (foldM (rec_read_tensor h (length l)) (os2, Going (concat (tensor_saved l <$> os1) ++ io)) (seq 0 (length os2))) (λ r,
    r.2 = Going io ∧ length r.1 = length os2 ∧
    ∀ j o1 o2, os1 !! j = Some o1 → os2 !! j = Some o2 → ∃ o', r.1 !! j = Some o' ∧ layer_placed h l o1 o2 o').
Proof.
  intros Hsh Hok1 Hok2 Hl Hh. pose proof (Forall2_length _ _ _ Hsh) as Hlen. rewrite <- Hlen at 1.
  eapply okP_mono; [apply (okP_for _ (λ j r, r.2 = Going (concat (tensor_saved l <$> drop j os1) ++ io) ∧ length r.1 = length os2 ∧
    (∀ k, j ≤ k → r.1 !! k = os2 !! k) ∧
    ∀ k o1 o2, k < j → os1 !! k = Some o1 → os2 !! k = Some o2 → ∃ o', r.1 !! k = Some o' ∧ layer_placed h l o1 o2 o'))|].
  - split_and!; [done|done|done|]. intros. lia.
  - intros j [cur o] Hj (E & Hlc & Hrest & Hdone). cbn [fst snd] in *. subst o.
    destruct (lookup_lt_is_Some_2 os1 j Hj) as [o1 Ho1]. destruct (lookup_lt_is_Some_2 os2 j) as [o2 Ho2]; [by rewrite <- Hlen|].
    rewrite (drop_S _ _ _ Ho1). cbn [fmap list_fmap concat]. rewrite <- app_assoc.
    eapply okP_mono; [apply (rec_read_tensor_ok n1 n2 h l cur j o1 o2); [by rewrite Hrest| | | |done|done]|].
    + by eapply Forall2_lookup_lr.
    + by eapply Forall_lookup_1.
    + by eapply Forall_lookup_1.
    + intros r (o' & -> & Hp). cbn [fst snd]. split_and!; [done|by rewrite length_insert| |].
      * intros k Hk. rewrite list_lookup_insert_ne by lia. apply Hrest. lia.
      * intros k p1 p2 Hk Hp1 Hp2. destruct (decide (k = j)) as [->|Hne].
        -- simplify_eq. exists o'. split; [|done]. rewrite list_lookup_insert_eq; [done|]. rewrite Hlc. by eapply lookup_lt_Some.
        -- rewrite list_lookup_insert_ne by done. apply (Hdone k); [lia|done|done].
  - intros r (H1 & H2 & _ & H4). rewrite drop_ge in H1 by lia. split_and!; [done|done|]. intros j o1 o2 Ho1 Ho2.
    apply (H4 j); [by eapply lookup_lt_Some|done|done].
Qed.

(** ** Reading the cells of the whole memory *)

(** the sequences that are read join the cell [i] *)
Lemma rec_read_ids_ok N i (l : list nat) ids cells s io : length l = length ids → (Z.of_nat N ≤ INT32_MAX)%Z →
  tails_ok N (tails cells) (seqs cells) → seqs cells !! i = Some s → NoDup ids →
  (∀ x, x ∈ ids → 0 ≤ x < Z.of_nat N ∧ tails cells !! Z.to_nat x = Some (-1))%Z →
  okP (foldM (rec_read_id i) (cells, Going (concat (put_i32 <$> ids) ++ io)) l) (λ r, r.2 = Going io ∧
    tails_ok N (tails r.1) (seqs r.1) ∧ seqs r.1 = <[i := s ∪ list_to_set ids]> (seqs cells) ∧ marks r.1 = marks cells).
Proof.
  revert l cells s. induction ids as [|x ids IH]; intros [|y l] cells s Hl HN Ht Hs Hnd Hids; try done.
  { cbn. split_and!; [done|done| |done]. rewrite list_insert_id; [done|]. rewrite Hs. f_equal. set_solver. }
  destruct (Hids x ltac:(left)) as [Hx Hxt]. apply NoDup_cons in Hnd as [Hxi Hnd].
  destruct (lookup_seqs_inv _ _ _ Hs) as (c & Hc & Hcs). destruct (lookup_tails_inv _ _ _ Hxt) as (d & Hd & Hdt).
  cbn [foldM]. unfold rec_read_id at 2. cbn [fmap list_fmap concat]. rewrite <- app_assoc.
  rewrite get_i32_put, bind_Ok by (unfold INT32_MIN, INT32_MAX in *; lia). cbn [fst snd]. rewrite decide_False by lia.
  rewrite (upd_ok _ _ _ _ Hc), bind_Ok. set (cells1 := <[i := _]> cells).
  destruct (lookup_lt_is_Some_2 cells1 (Z.to_nat x)) as [e He]; [unfold cells1; rewrite length_insert; by eapply lookup_lt_Some|].
  assert (m_tail e = -1)%Z as Het.
  { pose proof (lookup_tails _ _ _ He) as H. unfold cells1 in H. rewrite tails_insert in H. cbn in H.
    rewrite list_insert_id in H by by apply lookup_tails. rewrite Hxt in H. by injection H. }
  rewrite (vget_ok _ _ _ He), bind_Ok. rewrite (decide_False (P := m_tail e ≠ _)) by tauto.
  rewrite vset_ok, bind_Ok by by eapply lookup_lt_Some. set (cells2 := <[Z.to_nat x := _]> cells1). rewrite bind_Ok.
  assert (has_parts cells2 (<[Z.to_nat x := Z.of_nat i]> (tails cells)) (<[i := s ∪ {[x]}]> (seqs cells)) (marks cells)) as (P1 & P2 & P3).
  { unfold has_parts, cells2. rewrite tails_insert, seqs_insert, marks_insert. cbn [set_tail m_tail m_seqs m_pos m_src].
    rewrite (list_insert_id (seqs cells1)) by by apply lookup_seqs. rewrite (list_insert_id (marks cells1)) by by apply lookup_marks.
    unfold cells1. rewrite tails_insert, seqs_insert, marks_insert. cbn. rewrite Hcs.
    rewrite (list_insert_id (tails cells)) by by apply lookup_tails. by rewrite (list_insert_id (marks cells)) by by apply lookup_marks. }
  pose proof (lookup_lt_Some _ _ _ Hs) as Hi.
  eapply okP_mono; [apply (IH l cells2 (s ∪ {[x]})); [by injection Hl|done| | |done|]|].
  - rewrite P1, P2. replace x with (Z.of_nat (Z.to_nat x)) at 2 by lia. by apply tails_ok_join.
  - rewrite P2. by apply list_lookup_insert_eq.
  - intros z Hz. destruct (Hids z ltac:(by right)) as [Hz1 Hz2]. split; [done|]. rewrite P1, list_lookup_insert_ne; [done|].
    intros E. apply Hxi. assert (x = z) as -> by lia. done.
  - intros r (R1 & R2 & R3 & R4). split_and!; [done|done| |by rewrite R4, P3]. rewrite R3, P2, list_insert_insert_eq. f_equal. set_solver.
Qed.

(** [src] of the cells [h .. h + n) is their own index *)
Lemma own_srcs_ok h n cells : h + n ≤ length cells →
  okP (foldM (own_src h) cells (seq 0 n)) (λ c', tails c' = tails cells ∧ seqs c' = seqs cells ∧
    ∀ j k, marks cells !! j = Some k → marks c' !! j = Some (k.1, if decide (h ≤ j < h + n) then Z.of_nat j else k.2)).
Proof.
  intros Hn. eapply okP_mono; [apply (okP_for _ (λ t c', tails c' = tails cells ∧ seqs c' = seqs cells ∧
    ∀ j k, marks cells !! j = Some k → marks c' !! j = Some (k.1, if decide (h ≤ j < h + t) then Z.of_nat j else k.2)))|].
  - split_and!; [done|done|]. intros j [p s] Hj. rewrite decide_False by lia. done.
  - intros t c' Ht (P1 & P2 & P3). assert (length c' = length cells) as Hl by by rewrite <- length_tails, P1, length_tails.
    destruct (lookup_lt_is_Some_2 c' (h + t)) as [c Hc]; [lia|]. unfold own_src. rewrite (upd_ok _ _ _ _ Hc). cbn [okP].
    rewrite tails_insert, seqs_insert, marks_insert. cbn [set_content m_tail m_seqs m_pos m_src].
    rewrite !list_insert_id by (by apply lookup_tails || by apply lookup_seqs). split_and!; [done|done|]. intros j k Hj.
    destruct (decide (j = h + t)) as [->|Hne].
    + rewrite list_lookup_insert_eq by (rewrite length_marks; by eapply lookup_lt_Some). rewrite decide_True by lia.
      pose proof (lookup_marks _ _ _ Hc) as E. rewrite (P3 _ _ Hj) in E. by injection E as <- _.
    + rewrite list_lookup_insert_ne by done. rewrite (P3 _ _ Hj). do 2 f_equal.
      destruct (decide (h ≤ j < h + t)); [by rewrite decide_True by lia|by rewrite decide_False by lia].
  - done.
Qed.

Lemma elem_of_set_order s x : x ∈ set_order s ↔ x ∈ s.
Proof. unfold set_order. by rewrite merge_sort_Permutation, elem_of_elements. Qed.
Lemma set_order_nodup s : NoDup (set_order s).
Proof. unfold set_order. rewrite merge_sort_Permutation. apply NoDup_elements. Qed.
Lemma set_order_set s : list_to_set (set_order s) = s.
Proof. apply set_eq. intros x. by rewrite elem_of_list_to_set, elem_of_set_order. Qed.

(** the cells with the indices [l] of [cells1] were read into the first ones, all others are empty *)
Record cells_read (N : nat) (cells1 : mem_cells) (l : list nat) (k : nat) (cells : mem_cells) : Prop := {
  cr_tails : tails_ok N (tails cells) (seqs cells);
  cr_done : ∀ j i c, j < k → l !! j = Some i → cells1 !! i = Some c → seqs cells !! j = Some (m_seqs c) ∧ marks cells !! j = Some (m_pos c, -1)%Z;
  cr_rest : ∀ j, k ≤ j → j < N → seqs cells !! j = Some ∅ ∧ marks cells !! j = Some (-1, -1)%Z }.

Lemma cells_read_free N cells1 l k cells i c x : cells_read N cells1 l k cells → tails_ok (length cells1) (tails cells1) (seqs cells1) → NoDup l →
  l !! k = Some i → (∀ j, j ∈ l → j < length cells1) → cells1 !! i = Some c → x ∈ m_seqs c → (0 ≤ x < Z.of_nat N)%Z →
  tails cells !! Z.to_nat x = Some (-1)%Z.
Proof.
  intros [H1 H2 H3] Ht1 Hnd Hk Hl Hc Hx Hr. destruct (lookup_lt_is_Some_2 (tails cells) (Z.to_nat x)) as [t Et]; [rewrite (to_T _ _ _ H1); lia|].
  destruct (to_range _ _ _ H1 _ _ Et) as [->|Hpos]; [done|]. exfalso.
  destruct (tails_ok_tail _ _ _ _ _ H1 Et) as (s & Hs & Hin & Hlt); [lia|]. rewrite Z2Nat.id in Hin by lia. set (j := Z.to_nat t) in *.
  destruct (decide (j < k)) as [Hj|Hj].
  - destruct (lookup_lt_is_Some_2 l j) as [i' Hi']; [apply lookup_lt_Some in Hk; lia|].
    destruct (lookup_lt_is_Some_2 cells1 i') as [c' Hc']; [apply Hl; by eapply list_elem_of_lookup_2|].
    destruct (H2 j i' c' Hj Hi' Hc') as [E _]. rewrite Hs in E. injection E as ->.
    destruct (tails_ok_in _ _ _ _ _ _ Ht1 (lookup_seqs _ _ _ Hc) Hx) as [E1 _]. destruct (tails_ok_in _ _ _ _ _ _ Ht1 (lookup_seqs _ _ _ Hc') Hin) as [E2 _].
    rewrite E1 in E2. injection E2 as E2. apply Nat2Z.inj in E2 as ->. pose proof (NoDup_lookup _ _ _ _ Hnd Hk Hi'). lia.
  - destruct (H3 j) as [E _]; [lia|lia|]. rewrite Hs in E. injection E as ->. set_solver.
Qed.

(** the ids of the sequences of a memory fit into an unsigned int *)
Lemma set_order_small n i cells c : tails_ok n (tails cells) (seqs cells) → cells !! i = Some c → length (set_order (m_seqs c)) ≤ n.
Proof.
  intros Ht Hc. transitivity (length (Z.of_nat <$> seq 0 n)); [|by rewrite length_fmap, length_seq].
  apply submseteq_length, NoDup_submseteq; [apply set_order_nodup|]. intros x Hx%elem_of_set_order.
  pose proof (to_dom _ _ _ Ht _ _ _ (lookup_seqs _ _ _ Hc) Hx). apply list_elem_of_fmap. exists (Z.to_nat x). split; [lia|apply elem_of_seq; lia].
Qed.

Lemma rec_read_cells_ok N cells1 l cells io : (Z.of_nat N ≤ INT32_MAX)%Z → (Z.of_nat (length cells1) ≤ INT32_MAX)%Z →
  tails_ok (length cells1) (tails cells1) (seqs cells1) → NoDup l → length l ≤ N →
  (∀ j, j ∈ l → j < length cells1) → (∀ i c x, i ∈ l → cells1 !! i = Some c → x ∈ m_seqs c → x < Z.of_nat N)%Z →
  (∀ i c, i ∈ l → cells1 !! i = Some c → INT32_MIN ≤ m_pos c ≤ INT32_MAX)%Z → cells_read N cells1 l 0 cells →
  okP (foldM rec_read_cell (cells, Going (cells_meta (-1) cells1 l ++ io)) (seq 0 (length l))) (λ r, r.2 = Going io ∧ cells_read N cells1 l (length l) r.1).
Proof.
  intros HN HN1 Ht1 Hnd HlN Hl Hids Hpos Hc0.
  eapply okP_mono; [apply (okP_for _ (λ k r, r.2 = Going (cells_meta (-1) cells1 (drop k l) ++ io) ∧ cells_read N cells1 l k r.1))|].
  - done.
  - intros k [cur o] Hk [Eo Hcr]. cbn [fst snd] in *. subst o. destruct (lookup_lt_is_Some_2 l k Hk) as [i Hi].
    assert (i ∈ l) as Hil by by eapply list_elem_of_lookup_2. destruct (lookup_lt_is_Some_2 cells1 i (Hl _ Hil)) as [c Hc].
    rewrite (drop_S _ _ _ Hi). unfold cells_meta. cbn [fmap list_fmap concat]. rewrite Hc. unfold rec_write_cell. rewrite decide_True by done.
    rewrite <- !app_assoc. unfold rec_read_cell. rewrite get_i32_put, bind_Ok by by eapply Hpos. cbn [fst snd].
    pose proof (set_order_small _ _ _ _ Ht1 Hc) as Hsm. rewrite get_u32_put, bind_Ok by (unfold INT32_MAX in *; lia). cbn [fst snd].
    destruct (cr_rest _ _ _ _ _ Hcr k) as [Hs Hm]; [done|lia|]. destruct (lookup_seqs_inv _ _ _ Hs) as (d & Hd & Hds).
    rewrite (upd_ok _ _ _ _ Hd), bind_Ok, Nat2Z.id. set (cells' := <[k := _]> cur).
    assert (has_parts cells' (tails cur) (seqs cur) (<[k := (m_pos c, -1)%Z]> (marks cur))) as (P1 & P2 & P3).
    { unfold has_parts, cells'. rewrite tails_insert, seqs_insert, marks_insert. cbn. rewrite !list_insert_id by (by apply lookup_tails || by apply lookup_seqs).
      pose proof (lookup_marks _ _ _ Hd) as E. rewrite Hm in E. injection E as _ <-. done. }
    eapply okP_mono; [apply (rec_read_ids_ok N k _ _ cells' ∅); [by rewrite length_seq|done|rewrite P1, P2; apply (cr_tails _ _ _ _ _ Hcr)|by rewrite P2|apply set_order_nodup|]|].
    { intros x Hx%elem_of_set_order. pose proof (to_dom _ _ _ Ht1 _ _ _ (lookup_seqs _ _ _ Hc) Hx). pose proof (Hids _ _ _ Hil Hc Hx).
      split; [lia|]. rewrite P1. eapply cells_read_free; try done. lia. }
    intros r (R1 & R2 & R3 & R4). split; [done|]. rewrite set_order_set, union_empty_l_L, P2 in R3. rewrite P3 in R4. split; [done| |].
    + intros j i' c' Hj Hi' Hc'. rewrite R3, R4. destruct (decide (j = k)) as [->|Hne].
      * simplify_eq. rewrite !list_lookup_insert_eq by (rewrite ?length_marks, ?length_seqs; by eapply lookup_lt_Some). done.
      * rewrite !list_lookup_insert_ne by done. apply (cr_done _ _ _ _ _ Hcr j i'); [lia|done|done].
    + intros j Hj HjN. rewrite R3, R4, !list_lookup_insert_ne by lia. apply (cr_rest _ _ _ _ _ Hcr); lia.
  - intros r. by rewrite drop_ge by done.
Qed.

(** ** Reading the states of the cells *)

(** the bytes of all layers that belong to a cell *)
Definition layer_at (i : nat) (o : option rs_tensor) : option (list Z) := match o with Some t => Some (rt_at t i) | None => None end.
Definition rec_data (st : rec_state) (i : nat) : list (option (list Z)) := layer_at i <$> rst_r st ++ rst_s st.

Lemma layer_placed_at h l o1 o2 o' : layer_placed h l o1 o2 o' →
  (∀ k i, l !! k = Some i → layer_at (h + k) o' = layer_at i o1) ∧
  (∀ i, (∀ k, k < length l → i ≠ h + k) → layer_at i o' = layer_at i o2).
Proof.
  destruct o1, o2, o'; try done. intros (_ & _ & _ & H1 & H2). cbn. split; intros; f_equal; eauto.
Qed.

(** the layers [os'] after the rows [l] of the layers [os1] were written over the layers [os2] *)
Definition layers_placed (h : nat) (l : list nat) (os1 os2 os' : list (option rs_tensor)) : Prop :=
  length os' = length os2 ∧ ∀ j o1 o2, os1 !! j = Some o1 → os2 !! j = Some o2 → ∃ o', os' !! j = Some o' ∧ layer_placed h l o1 o2 o'.

Lemma layers_placed_ok n h l os1 os2 os' : layers_placed h l os1 os2 os' → length os1 = length os2 → Forall (layer_ok n) os2 →
  Forall (layer_ok n) os' ∧
  (∀ k i, l !! k = Some i → layer_at (h + k) <$> os' = layer_at i <$> os1) ∧
  (∀ i, (∀ k, k < length l → i ≠ h + k) → layer_at i <$> os' = layer_at i <$> os2).
Proof.
  intros [Hl H] Hl1 Hok. assert (∀ j o', os' !! j = Some o' → ∃ o1 o2, os1 !! j = Some o1 ∧ os2 !! j = Some o2 ∧ layer_placed h l o1 o2 o') as H'.
  { intros j o' Ho'. pose proof (lookup_lt_Some _ _ _ Ho'). destruct (lookup_lt_is_Some_2 os1 j) as [o1 Ho1]; [lia|].
    destruct (lookup_lt_is_Some_2 os2 j) as [o2 Ho2]; [lia|]. exists o1, o2. destruct (H j o1 o2 Ho1 Ho2) as (o & Ho & Hp). by simplify_eq. }
  assert (∀ (os : list (option rs_tensor)) i i', length os = length os2 →
    (∀ j o', os' !! j = Some o' → ∃ o, os !! j = Some o ∧ layer_at i o' = layer_at i' o) → layer_at i <$> os' = layer_at i' <$> os) as Hfm.
  { intros os i i' Hlo Hos. apply list_eq. intros j. rewrite !list_lookup_fmap. destruct (os' !! j) as [o'|] eqn:E.
    - destruct (Hos j o' E) as (o & -> & Eo). cbn. by rewrite Eo.
    - rewrite (lookup_ge_None_2 os); [done|]. apply lookup_ge_None_1 in E. lia. }
  split_and!.
  - apply Forall_lookup_2. intros j o' Ho'. destruct (H' j o' Ho') as (o1 & o2 & _ & Ho2 & Hp). eapply layer_placed_ok; [exact Hp|]. by eapply Forall_lookup_1.
  - intros k i Hk. apply Hfm; [done|]. intros j o' Ho'. destruct (H' j o' Ho') as (o1 & o2 & Ho1 & _ & Hp). exists o1. split; [done|]. by eapply layer_placed_at.
  - intros i Hi. apply Hfm; [done|]. intros j o' Ho'. destruct (H' j o' Ho') as (o1 & o2 & _ & Ho2 & Hp). exists o2. split; [done|]. by eapply layer_placed_at.
Qed.

Lemma rec_read_layers_ok n1 n2 h l os1 os2 io : Forall2 same_shape os1 os2 → Forall (layer_ok n1) os1 → Forall (layer_ok n2) os2 →
  (∀ i, i ∈ l → i < n1) → h + length l ≤ n2 →
  okP (foldM (rec_read_tensor h (length l)) (os2, Going (concat (tensor_saved l <$> os1) ++ io)) (seq 0 (length os2)))
    (λ r, r.2 = Going io ∧ layers_placed h l os1 os2 r.1).
Proof. intros. eapply okP_mono; [by eapply rec_read_tensors_ok|]. unfold layers_placed. tauto. Qed.

(** the tensors of the two memories have the same types and row sizes *)
Definition same_shapes (st1 st2 : rec_state) : Prop := Forall2 same_shape (rst_r st1) (rst_r st2) ∧ Forall2 same_shape (rst_s st1) (rst_s st2).

Definition layers_ok (st : rec_state) : Prop :=
  Forall (layer_ok (r_size (rst_mem st))) (rst_r st) ∧ Forall (layer_ok (r_size (rst_mem st))) (rst_s st) ∧
  length (rst_s st) = length (rst_r st) ∧ (Z.of_nat (length (rst_r st)) < 4294967296)%Z.

Lemma rec_read_data_ok st1 st l io : same_shapes st1 st → layers_ok st1 → layers_ok st →
  (∀ i, i ∈ l → i < r_size (rst_mem st1)) → r_head (rst_mem st) + length l ≤ r_size (rst_mem st) →
  okP (rec_read_data st (length l) (data_saved st1 l ++ io)) (λ r, r.2 = Going io ∧ rst_mem r.1 = rst_mem st ∧ rst_pos r.1 = rst_pos st ∧ layers_ok r.1 ∧
    (∀ k i, l !! k = Some i → rec_data r.1 (r_head (rst_mem st) + k) = rec_data st1 i) ∧
    (∀ i, (∀ k, k < length l → i ≠ r_head (rst_mem st) + k) → rec_data r.1 i = rec_data st i)).
Proof.
  intros [Hr Hs] (A1 & A2 & A3 & A4) (B1 & B2 & B3 & B4) Hl Hh. pose proof (Forall2_length _ _ _ Hr) as Lr. pose proof (Forall2_length _ _ _ Hs) as Ls.
  unfold rec_read_data, data_saved. rewrite <- !app_assoc. rewrite get_u32_put, bind_Ok by lia. cbn [fst snd]. rewrite get_u32_put, bind_Ok by lia. cbn [fst snd].
  rewrite decide_False by (rewrite Lr; lia). rewrite decide_False by lia. rewrite decide_False by lia.
  eapply okP_bind; [by eapply (rec_read_layers_ok _ _ _ l (rst_r st1) (rst_r st))|]. intros r [E1 P1]. rewrite E1.
  eapply okP_bind; [rewrite <- B3; by eapply (rec_read_layers_ok _ _ _ l (rst_s st1) (rst_s st))|]. intros s [E2 P2]. cbn [okP fst snd].
  destruct (layers_placed_ok _ _ _ _ _ _ P1 Lr B1) as (C1 & C2 & C3). destruct (layers_placed_ok _ _ _ _ _ _ P2 Ls B2) as (D1 & D2 & D3).
  split_and!; [done|done|done|..].
  - unfold layers_ok. cbn. destruct P1 as [-> _], P2 as [-> _]. done.
  - intros k i Hk. unfold rec_data. cbn. by rewrite !fmap_app, (C2 k i Hk), (D2 k i Hk).
  - intros i Hi. unfold rec_data. cbn. by rewrite !fmap_app, (C3 i Hi), (D3 i Hi).
Qed.

Lemma rec_state_layers st : rec_state_ok st → layers_ok st.
Proof. intros []. done. Qed.

Lemma zeroed_shape os1 os2 : Forall2 same_shape os1 os2 → Forall2 same_shape os1 (rec_zeroed os2).
Proof. unfold rec_zeroed. intros H. apply Forall2_fmap_r. eapply Forall2_impl; [exact H|]. intros [t1|] [t2|]; done. Qed.
Lemma zeroed_ok n os : Forall (layer_ok n) os → Forall (layer_ok n) (rec_zeroed os).
Proof.
  unfold rec_zeroed. intros H. apply Forall_fmap. eapply Forall_impl; [exact H|]. intros [t|]; [|done]. intros (H1 & H2). cbn. unfold tensor_ok. cbn.
  by rewrite length_replicate.
Qed.

Lemma clear_all_layers st : layers_ok st → layers_ok (rec_clear_all st).
Proof.
  intros (H1 & H2 & H3 & H4). unfold layers_ok. cbn. unfold r_size. cbn. rewrite length_fmap. split_and!; [by apply zeroed_ok..| |]; unfold rec_zeroed; by rewrite !length_fmap.
Qed.

(** ** The whole memory *)

Lemma saved_in cells q i : i ∈ rec_saved cells q → i < length cells.
Proof. intros (c & Hc & _)%elem_of_saved. by eapply lookup_lt_Some. Qed.

Lemma saved_small cells q : length (rec_saved cells q) ≤ length cells.
Proof. unfold rec_saved, chosen. etransitivity; [apply length_filter|]. by rewrite length_seq. Qed.

(** with the id -1 the cells that are not empty are saved *)
Lemma wanted_all m i c : rec_wf m → r_cells m !! i = Some c → rec_wanted (-1) c = true ↔ m_seqs c ≠ ∅.
Proof.
  intros Hm Hc. unfold rec_wanted, m_has, m_empty. rewrite bool_decide_true by done. cbn [andb].
  rewrite (bool_decide_false (-1 ∈ _)%Z), orb_false_r, negb_true_iff, bool_decide_eq_false; [done|].
  intros H. pose proof (to_dom _ _ _ (rw_tails _ Hm) _ _ _ (lookup_seqs _ _ _ Hc) H). lia.
Qed.

Lemma cell_pos m i c : rec_wf m → r_cells m !! i = Some c → (-1 ≤ m_pos c ≤ INT32_MAX)%Z.
Proof.
  intros Hm Hc. destruct (rw_marks _ Hm _ _ _ (lookup_marks _ _ _ Hc) (lookup_seqs _ _ _ Hc)) as (_ & H1 & H2). cbn [fst] in *.
  destruct (decide (m_seqs c = ∅)) as [E|E]; [rewrite H1 by done; unfold INT32_MAX; lia|]. specialize (H2 E). lia.
Qed.

(** the cell that has a sequence *)
Lemma seq_cell_in m i c q : rec_wf m → r_cells m !! i = Some c → Z.of_nat q ∈ m_seqs c → seq_cell m q = Some (m_pos c, m_src c).
Proof.
  intros Hm Hc Hq. destruct (tails_ok_in _ _ _ _ _ _ (rw_tails _ Hm) (lookup_seqs _ _ _ Hc) Hq) as [Ht _]. rewrite Nat2Z.id in Ht.
  unfold seq_cell. rewrite (seq_mark_Some _ _ _ _ Ht). by apply lookup_marks.
Qed.

Lemma seq_cell_inv m q k : rec_wf m → seq_cell m q = Some k → ∃ i c, r_cells m !! i = Some c ∧ Z.of_nat q ∈ m_seqs c ∧ k = (m_pos c, m_src c).
Proof.
  intros Hm Hk. assert (q < r_size m) as Hq.
  { unfold seq_cell, seq_mark in Hk. destruct (tails (r_cells m) !! q) eqn:E; [|done]. apply lookup_lt_Some in E. by rewrite length_tails in E. }
  destruct (cells_tail _ _ _ q (rec_cells_wf _ Hm) Hq) as (c & Hc & [[_ E]|(i & d & Hi & Hti & Hd & Hin & E)]); unfold cell_of in E; fold (seq_cell m q) in E;
    rewrite E in Hk; [done|]. injection Hk as <-. by exists i, d.
Qed.

Lemma seq_cell_none m q : rec_wf m → (∀ i c, r_cells m !! i = Some c → Z.of_nat q ∉ m_seqs c) → seq_cell m q = None.
Proof.
  intros Hm H. destruct (seq_cell m q) as [k|] eqn:E; [|done]. destruct (seq_cell_inv _ _ _ Hm E) as (i & c & Hc & Hin & _). by destruct (H i c Hc).
Qed.

Lemma n_nonempty_first k Q : (∀ j s, Q !! j = Some s → j < k ↔ s ≠ ∅) → k ≤ length Q → n_nonempty Q = k.
Proof.
  unfold n_nonempty. revert k. induction Q as [|s Q IH]; intros k H Hk; [cbn in *; lia|]. rewrite filter_cons. destruct k as [|k].
  - destruct (decide (s ≠ ∅)) as [E|E]; [apply (H 0 s) in E; [lia|done]|]. apply IH; [|lia]. intros j s' Hj. pose proof (H (S j) s' Hj). split; [lia|]. intros E'. tauto || (apply H0 in E'; lia).
  - rewrite decide_True by (apply (H 0 s); [done|lia]). cbn [length]. f_equal. apply IH; [|cbn in Hk; lia]. intros j s' Hj. rewrite <- (H (S j) s' Hj). lia.
Qed.

(** the cells after the whole memory [m1] was read into a memory of [N] cells *)
Section whole.
Context (m1 : rec_mem) (Hm1 : rec_wf m1).
Context (Hsrc : ∀ i c, r_cells m1 !! i = Some c → m_seqs c ≠ ∅ → m_src c = Z.of_nat i).
Abbreviation l := (rec_saved (r_cells m1) (-1)).
Context (N : nat) (HN : 0 < N ∧ (Z.of_nat N ≤ INT32_MAX)%Z) (Hfit : length l ≤ N) (cells cells' : mem_cells).
Context (Hread : cells_read N (r_cells m1) l (length l) cells).
Context (Ht : tails cells' = tails cells) (Hq : seqs cells' = seqs cells)
  (Hk : ∀ j k, marks cells !! j = Some k → marks cells' !! j = Some (k.1, if decide (0 ≤ j < 0 + length l) then Z.of_nat j else k.2)).

Lemma whole_cell j i : l !! j = Some i → ∃ c d, r_cells m1 !! i = Some c ∧ m_seqs c ≠ ∅ ∧ cells' !! j = Some d ∧ m_seqs d = m_seqs c ∧ m_pos d = m_pos c ∧ m_src d = Z.of_nat j.
Proof.
  intros Hj. assert (i ∈ l) as (c & Hc & Hw)%elem_of_saved by by eapply list_elem_of_lookup_2. exists c.
  apply (wanted_all m1 i c Hm1 Hc) in Hw. pose proof (lookup_lt_Some _ _ _ Hj) as Hlt. destruct (cr_done _ _ _ _ _ Hread j i c Hlt Hj Hc) as [Hs Hmk].
  rewrite <- Hq in Hs. destruct (lookup_seqs_inv _ _ _ Hs) as (d & Hd & Hds). exists d. apply Hk in Hmk. rewrite decide_True in Hmk by lia.
  rewrite (lookup_marks _ _ _ Hd) in Hmk. injection Hmk as E1 E2. done.
Qed.

Lemma whole_rest j d : length l ≤ j → cells' !! j = Some d → m_seqs d = ∅ ∧ m_pos d = (-1)%Z ∧ m_src d = (-1)%Z.
Proof.
  intros Hj Hd. assert (j < N) as HjN.
  { apply lookup_lt_Some in Hd. rewrite <- length_tails, Ht, (to_T _ _ _ (cr_tails _ _ _ _ _ Hread)) in Hd. done. }
  destruct (cr_rest _ _ _ _ _ Hread j Hj HjN) as [Hs Hmk]. rewrite <- Hq, (lookup_seqs _ _ _ Hd) in Hs. apply Hk in Hmk.
  rewrite decide_False, (lookup_marks _ _ _ Hd) in Hmk by lia. injection Hs as ->. injection Hmk as -> ->. done.
Qed.

Lemma whole_wf n z : rec_wf (RecMem 0 (Z.of_nat (length l)) n z cells') ∧ r_size (RecMem 0 (Z.of_nat (length l)) n z cells') = N ∧
  (∀ i c, cells' !! i = Some c → m_seqs c ≠ ∅ → m_src c = Z.of_nat i).
Proof.
  pose proof (cr_tails _ _ _ _ _ Hread) as Htl. assert (length cells' = N) as Hl by by rewrite <- length_tails, Ht, (to_T _ _ _ Htl).
  assert (∀ j d, cells' !! j = Some d → (j < length l ↔ m_seqs d ≠ ∅) ∧ (m_seqs d ≠ ∅ → m_src d = Z.of_nat j ∧ 0 ≤ m_pos d ≤ INT32_MAX)%Z) as Hcell.
  { intros j d Hd. destruct (decide (j < length l)) as [Hj|Hj].
    - destruct (lookup_lt_is_Some_2 _ _ Hj) as [i Hi]. destruct (whole_cell j i Hi) as (c & d' & Hc & Hne & Hd' & E1 & E2 & E3). simplify_eq.
      rewrite E1, E2. split; [done|]. intros _. split; [done|].
      destruct (rw_marks _ Hm1 _ _ _ (lookup_marks _ _ _ Hc) (lookup_seqs _ _ _ Hc)) as (_ & _ & H). by apply H.
    - destruct (whole_rest j d) as (E & _); [lia|done|]. rewrite E. split; [split; [lia|done]|done]. }
  split; [split|split]; unfold r_size; cbn [r_cells r_head r_used]; rewrite ?Hl; try done; try lia.
  - by rewrite Ht, Hq.
  - intros j k s Hjk Hjs. destruct (lookup_seqs_inv _ _ _ Hjs) as (d & Hd & <-). rewrite (lookup_marks _ _ _ Hd) in Hjk. injection Hjk as <-.
    destruct (Hcell j d Hd) as [E1 E2]. unfold mark_ok. cbn [fst snd]. destruct (decide (m_seqs d = ∅)) as [E|E].
    + destruct (whole_rest j d) as (_ & -> & ->); [|done|split_and!; [by left|done|done]]. apply Nat.le_ngt. intros H. by apply E1 in H.
    + destruct (E2 E) as [-> ?]. split; [by right|]. done.
  - f_equal. symmetry. apply n_nonempty_first; [|rewrite length_seqs; lia]. intros j s (d & Hd & <-)%lookup_seqs_inv. by apply Hcell.
  - intros j d Hd Hne. by apply (Hcell j d Hd).
Qed.

(** a sequence has the cell of the saved one, and its state the index of that cell *)
Lemma whole_seq n z q : match seq_cell m1 q with
  | Some k => ∃ j i, l !! j = Some i ∧ k.2 = Z.of_nat i ∧ seq_cell (RecMem 0 (Z.of_nat (length l)) n z cells') q = Some (k.1, Z.of_nat j)
  | None => seq_cell (RecMem 0 (Z.of_nat (length l)) n z cells') q = None end.
Proof.
  destruct (whole_wf n z) as (Hw & Hsz & Hown). destruct (seq_cell m1 q) as [k|] eqn:E.
  - destruct (seq_cell_inv _ _ _ Hm1 E) as (i & c & Hc & Hin & ->). assert (m_seqs c ≠ ∅) as Hne by set_solver.
    assert (i ∈ l) as Hil by (apply elem_of_saved; exists c; split; [done|]; by apply (wanted_all m1 i c)). apply list_elem_of_lookup in Hil as [j Hj].
    exists j, i. split; [done|]. split; [by apply Hsrc|]. destruct (whole_cell j i Hj) as (c' & d & Hc' & _ & Hd & E1 & E2 & E3). simplify_eq.
    rewrite (seq_cell_in _ j d q Hw Hd) by by rewrite E1. cbn. by rewrite E2, E3.
  - apply (seq_cell_none _ _ Hw). intros j d Hd Hin. destruct (decide (j < length l)) as [Hj|Hj].
    + destruct (lookup_lt_is_Some_2 _ _ Hj) as [i Hi]. destruct (whole_cell j i Hi) as (c & d' & Hc & _ & Hd' & E1 & _). cbn in Hd. simplify_eq.
      rewrite E1 in Hin. by rewrite (seq_cell_in m1 i c q Hm1 Hc Hin) in E.
    + destruct (whole_rest j d) as (E1 & _); [lia|done|]. set_solver.
Qed.
End whole.

(** ** A single sequence *)

(** removing a sequence leaves empty cells only that have the empty state *)
Lemma rm_cell_clean (R : Z → Prop) q a b cells used nh i : R (-1)%Z → (∀ c, c ∈ cells → m_seqs c = ∅ → R (m_src c)) →
  resP (λ _, True) (rec_rm_cell q a b (cells, used, nh) i) (λ st, ∀ c, c ∈ st.1.1 → m_seqs c = ∅ → R (m_src c)).
Proof.
  intros HR H. unfold rec_rm_cell. destruct (vget cells i) as [c|] eqn:Ec; [|done]. cbn [mbind res_bind].
  assert (∀ c', (m_seqs c' = ∅ → R (m_src c')) → resP (λ _, True) (vset cells i c') (λ cells', ∀ c, c ∈ cells' → m_seqs c = ∅ → R (m_src c))) as Hset.
  { intros c' Hc'. unfold vset. destruct (decide (i < length cells)); [|done]. cbn.
    intros d (j & [[_ [-> _]]|[_ Hd]]%list_lookup_insert_Some)%list_elem_of_lookup; [done|]. apply H. by eapply list_elem_of_lookup_2. }
  destruct (decide (a ≤ m_pos c < b)%Z); [|done]. destruct (decide ((q < 0)%Z ∨ m_has c q = true)); [|done].
  destruct (decide ((if decide (q < 0)%Z then ∅ else m_seqs c ∖ {[q]}) = ∅)) as [E|E].
  - eapply resP_bind; [by apply Hset|]. done.
  - eapply resP_bind; [by apply Hset|]. done.
Qed.

Lemma rec_seq_rm_clean {A} (zero : A) m data q a b : rec_clean zero m data →
  resP (λ _, True) (rec_seq_rm m q a b) (λ r, rec_clean zero r.1 data).
Proof.
  intros Hc. assert (∀ m' : rec_mem, (∀ c, c ∈ r_cells m' → m_seqs c = ∅ → src_val zero data (m_src c) = zero) → rec_clean zero m' data) as Hin.
  { intros m' H i c Hic. apply H. by eapply list_elem_of_lookup_2. }
  assert (∀ cells p1 p2, (∀ c, c ∈ cells → m_seqs c = ∅ → src_val zero data (m_src c) = zero) →
    resP (λ _, True) (rec_rm_loop m cells q p1 p2) (λ r, rec_clean zero r.1 data)) as Hloop.
  { intros cells p1 p2 H. unfold rec_rm_loop.
    eapply resP_bind; [apply (resP_foldM _ _ (λ _ st, ∀ c, c ∈ st.1.1 → m_seqs c = ∅ → src_val zero data (m_src c) = zero)); [exact H|]|].
    - intros pre x post [[cs us] nh] _ Hst. by apply (rm_cell_clean (λ s, src_val zero data s = zero)).
    - intros [[cs us] nh] Hst. by apply Hin. }
  assert (∀ c, c ∈ r_cells m → m_seqs c = ∅ → src_val zero data (m_src c) = zero) as Hm by (intros c (i & Hi)%list_elem_of_lookup; by apply (Hc i)).
  unfold rec_seq_rm. cbv zeta. case_decide; [done|]. case_decide.
  - destruct (vget (r_cells m) (Z.to_nat q)) as [c|] eqn:Ec; [|done]. cbn [mbind res_bind]. case_decide; [|by apply Hloop].
    destruct (vget (r_cells m) (Z.to_nat (m_tail c))) as [d|]; [|done]. cbn [mbind res_bind]. case_decide; [done|].
    destruct (decide _); [|by apply Hloop]. unfold vset. destruct (decide _); [|done]. cbn [mbind res_bind]. apply Hloop.
    unfold vget in Ec. destruct (r_cells m !! Z.to_nat q) as [c'|] eqn:El; [|done]. injection Ec as ->.
    intros e (j & [[_ [<- _]]|[_ He]]%list_lookup_insert_Some)%list_elem_of_lookup; [|apply Hm; by eapply list_elem_of_lookup_2].
    cbn. apply Hm. by eapply list_elem_of_lookup_2.
  - case_decide; [done|by apply Hloop].
Qed.

(** the cell of a single sequence after find_slot *)
Definition cell_names (m : rec_mem) (i : nat) : option nat :=
  match r_cells m !! i with Some c => if m_empty c then None else Some i | None => None end.

Lemma cell_names_clean m : rec_wf m → rec_clean None m (cell_names m).
Proof.
  intros Hm i c Hc Hs. destruct (rw_marks _ Hm _ _ _ (lookup_marks _ _ _ Hc) (lookup_seqs _ _ _ Hc)) as ([E|E] & _); cbn [snd] in E; rewrite E; unfold src_val.
  - by rewrite decide_True by lia.
  - rewrite decide_False, Nat2Z.id by lia. unfold cell_names, m_empty. rewrite Hc, Hs. by rewrite bool_decide_true.
Qed.

Lemma slot_one m u dest p : rec_wf m → rec_fits u [[dest]] [p] → dest < r_size m →
  okP (rec_find_slot m u) (λ r, ∃ c, r_cells r.1 !! r_head r.1 = Some c ∧ Z.of_nat dest ∈ m_seqs c ∧ m_pos c = p ∧ m_src c = Z.of_nat (r_head r.1)).
Proof.
  intros Hm Hu Hd. eapply okP_mono; [apply (rec_find_slot_full None (cell_names m) m u [[dest]] [p] Hm (cell_names_clean _ Hm) Hu)|].
  { intros q Hq. cbn in Hq. apply list_elem_of_singleton in Hq as ->. done. }
  intros [m' b] (_ & (Hw & Hsz & _ & _ & _ & Hout) & Hone). cbn [fst snd] in *. specialize (Hone eq_refl).
  destruct (Hout (λ i, if decide (i = r_head m') then Some (r_size m) else build_rs None m' (cell_names m) i)) as (_ & Hview & _).
  { intros i Hi. rewrite decide_False; [done|]. specialize (Hi 0 ltac:(cbn; lia)). lia. }
  specialize (Hview 0 [dest] dest p eq_refl ltac:(left) eq_refl). rewrite Nat.add_0_r, (decide_True (P := r_head m' = r_head m')) in Hview by done.
  unfold rec_view in Hview. destruct (seq_cell m' dest) as [k|] eqn:Ek; [|done]. destruct (seq_cell_inv _ _ _ Hw Ek) as (i & c & Hc & Hin & ->).
  injection Hview as Hp Hsv. cbn [fst snd] in *.
  destruct (rw_marks _ Hw _ _ _ (lookup_marks _ _ _ Hc) (lookup_seqs _ _ _ Hc)) as ([E|E] & _); cbn [snd] in E; rewrite E in Hsv; unfold src_val in Hsv.
  { by rewrite decide_True in Hsv by lia. }
  rewrite decide_False, Nat2Z.id in Hsv by lia. destruct (decide (i = r_head m')) as [->|Hne]; [by exists c|]. exfalso.
  unfold build_rs in Hsv. rewrite decide_False in Hsv by (rewrite Hone; lia). unfold cell_names in Hsv.
  destruct (r_cells m !! i) eqn:Ei; [|done]. apply lookup_lt_Some in Ei. unfold r_size in Hsv. destruct (m_empty m0); simplify_eq. lia.
Qed.

(** the micro-batch of one token *)
Lemma one_fits npos dest p : (0 ≤ p ≤ INT32_MAX)%Z → 
  rec_fits (UBatch true 1 1 1 1 npos (Some [0%Z]) None (p :: replicate (npos - 1) 0%Z) [1%Z] [[Z.of_nat dest]] [0%Z] (<[0 := 0%Z]> (replicate MAX_SEQ (-1)%Z)) [0%Z]) [[dest]] [p].
Proof.
  intros Hp. split; cbn; try done.
  - intros [|s] ids [= <-]. done.
  - intros [|s] ids [= <-]. by exists dest, [].
  - intros [|s] p' [= <-]. done.
  - intros p' ->%list_elem_of_singleton. done.
  - apply NoDup_singleton.
Qed.

Lemma check_restored_one m ps c p dest : r_cells m !! r_head m = Some c → ps !! 0 = Some p → r_head m < r_size m → (Z.of_nat (r_size m) ≤ INT32_MAX)%Z →
  m_pos c = p → m_has c dest = true → rec_check_restored m ps 1 dest = Ok tt.
Proof.
  intros Hc Hp Hh Hs E1 E2. unfold rec_check_restored. rewrite Nat.add_sub. change (1 - 1) with 0. rewrite (vget_ok _ _ _ Hc), (vget_ok _ _ _ Hp).
  rewrite ggml_assert_ok by (apply bool_decide_eq_true_2; unfold u32, INT32_MAX in *; rewrite Z.mod_small; lia).
  unfold ggml_assert, check. cbn. by rewrite bool_decide_true, E2 by done.
Qed.

Section read_seq.
Context {A : Type} (zero : A) (data : nat → A).

(** the sequence is removed *)
Lemma read_rm_ok m dest : rec_wf m → rec_clean zero m data → dest < r_size m → (∀ k, seq_cell m dest = Some k → k.1 ≠ INT32_MAX) →
  okP (rec_seq_rm m (Z.of_nat dest) (-1) (-1)) (λ r, rec_wf r.1 ∧ r_size r.1 = r_size m ∧ rec_clean zero r.1 data ∧
    ∀ q, rec_view zero r.1 data q = if decide (q = dest) then None else rec_view zero m data q).
Proof.
  intros Hm Hc Hd Hmax. eapply okP_mono; [apply (okP_and_res (λ _, True) _ _ _ (rec_seq_rm_ok m Hm dest (-1) (-1)) (rec_seq_rm_clean zero m data (Z.of_nat dest) (-1) (-1) Hc))|].
  intros [m' b] [(H1 & H2 & H3 & H4) H5]. cbn [fst snd] in *. split_and!; [done|done|done|]. intros q. unfold rec_view. rewrite H4.
  rewrite bool_decide_false in H3 by (intros [?|[_ H]]; [lia|]; unfold norm_p0 in H; rewrite decide_True in H by lia; lia). cbn in H3. subst b.
  destruct (decide (q = dest)) as [->|Hne]; [|by rewrite decide_False by tauto].
  destruct (decide (true = true ∧ dest = dest ∧ hit (-1) (-1) (seq_cell m dest) = true)) as [|Hn]; [done|].
  destruct (seq_cell m dest) as [k|] eqn:Ek; [|done]. destruct Hn. split_and!; [done|done|]. pose proof (seq_cell_range _ _ _ Hm Ek). specialize (Hmax k eq_refl).
  cbn. unfold norm_p0, norm_p1. rewrite !decide_True by lia. apply bool_decide_eq_true_2. lia.
Qed.

Lemma rec_read_seq_ok npos m dest p io : 0 < npos → rec_wf m → rec_clean zero m data → dest < r_size m → (∀ k, seq_cell m dest = Some k → k.1 ≠ INT32_MAX) →
  (0 ≤ p ≤ INT32_MAX)%Z →
  okP (rec_read_seq npos m 1 (Z.of_nat dest) (put_i32 p ++ put_u32 0 ++ io)) (λ r, r.2 = Going io ∧ rec_wf r.1 ∧ r_size r.1 = r_size m ∧
    ∀ data2, (∀ i, i ≠ r_head r.1 → data2 i = data i) → rec_clean zero r.1 data2 ∧
      ∀ q, rec_view zero r.1 data2 q = if decide (q = dest) then Some (p, data2 (r_head r.1)) else rec_view zero m data q).
Proof.
  intros Hnp Hm Hc Hd Hmax Hp. unfold rec_read_seq. eapply okP_bind; [by apply read_rm_ok|]. intros [m0 b0] (Hm0 & Hsz0 & Hc0 & Hv0). cbn [fst snd] in *.
  rewrite decide_False by lia. unfold ubatch_reserve. cbn [seq foldM]. rewrite vset_ok by (rewrite length_replicate; pose proof MAX_SEQ_eq; unfold LLAMA_MAX_SEQ in *; lia). rewrite !bind_Ok.
  cbn [snd u_pos n_pos n_tokens n_seq_tokens n_seqs n_seqs_unq u_token u_embd u_seq_id_unq u_seq_idx u_output u_n_seq_id u_seq_id equal_seqs].
  replace (replicate (1 * 1 * n_pos_per_embd (split_reset (clear (allocr_new npos)))) 0%Z) with (0%Z :: replicate (npos - 1) 0%Z)
    by (cbn; rewrite Nat.add_0_r; destruct npos; [lia|]; cbn; by rewrite Nat.sub_0_r).
  unfold rec_read_pos. rewrite get_i32_put, bind_Ok by (unfold INT32_MIN; lia). cbn [fst snd]. rewrite get_u32_put, bind_Ok by lia. cbn [fst snd].
  rewrite decide_False by tauto. rewrite !vset_ok by (cbn; lia). rewrite !bind_Ok. cbv beta iota. cbn [Nat.mul replicate Nat.add].
  set (u := UBatch _ _ _ _ _ _ _ _ _ _ _ _ _ _). assert (rec_fits u [[dest]] [p]) as Hu by exact (one_fits npos dest p Hp).
  rewrite <- Hsz0 in Hd. eapply okP_bind; [apply okP_and; [apply (rec_find_slot_full zero data m0 u [[dest]] [p] Hm0 Hc0 Hu)|by apply (slot_one m0 u dest p)]|].
  { intros q Hq. cbn in Hq. apply list_elem_of_singleton in Hq as ->. done. }
  intros [m' b] [(Hb & (Hw & Hsz & Hfit & _ & _ & Hout) & Hone) (c & Hcell & Hin & Hpos & Hsrc)]. cbn [fst snd] in *. subst b. cbn [negb]. specialize (Hone eq_refl). cbn [length] in Hfit.
  rewrite (check_restored_one m' _ c p) by first [done | by apply bool_decide_eq_true_2 | (destruct (rw_size _ Hw); lia) | (apply list_lookup_insert_eq; cbn; lia)].
  rewrite bind_Ok.
  unfold own_src. rewrite Nat.add_0_r, (upd_ok _ _ _ _ Hcell), !bind_Ok. cbn [okP fst snd].
  replace (set_content (m_pos c) (Z.of_nat (r_head m')) (m_seqs c) c) with c by (rewrite <- Hsrc; by destruct c). rewrite list_insert_id by done.
  replace (with_cells m' (r_cells m')) with m' by by destruct m'. split_and!; [done|done|by rewrite Hsz|]. intros data2 Hdata.
  destruct (Hout data2) as (R1 & R2 & R3).
  { intros i Hi. specialize (Hi 0 ltac:(cbn; lia)). rewrite Nat.add_0_r in Hi. rewrite Hdata by done. unfold build_rs. rewrite decide_False; [done|]. rewrite Hone. lia. }
  split; [done|]. intros q. destruct (decide (q = dest)) as [->|Hne].
  - rewrite (R2 0 [dest] dest p) by (done || left). by rewrite Nat.add_0_r.
  - rewrite R3 by (cbn; intros ->%list_elem_of_singleton; done). by rewrite Hv0, decide_False.
Qed.
End read_seq.

(** a sequence has one cell, or none *)
Lemma saved_one m q : rec_wf m → match seq_cell m q with
  | Some k => ∃ i c, rec_saved (r_cells m) (Z.of_nat q) = [i] ∧ r_cells m !! i = Some c ∧ k = (m_pos c, m_src c) ∧ m_seqs c ≠ ∅
  | None => rec_saved (r_cells m) (Z.of_nat q) = [] end.
Proof.
  intros Hm. assert (∀ i, i ∈ rec_saved (r_cells m) (Z.of_nat q) ↔ ∃ c, r_cells m !! i = Some c ∧ Z.of_nat q ∈ m_seqs c) as Hin.
  { intros i. rewrite elem_of_saved. f_equiv. intros c. f_equiv. unfold rec_wanted, m_has. rewrite (bool_decide_false (Z.of_nat q = _)) by lia. apply bool_decide_eq_true. }
  destruct (seq_cell m q) as [k|] eqn:E.
  - destruct (seq_cell_inv _ _ _ Hm E) as (i & c & Hc & Hq & ->). exists i, c. split; [|split; [done|split; [done|set_solver]]].
    apply Permutation_singleton_r. apply NoDup_Permutation; [apply saved_nodup|apply NoDup_singleton|]. intros j. rewrite Hin, list_elem_of_singleton. split; [|intros ->; by exists c].
    intros (d & Hd & Hqd). destruct (tails_ok_in _ _ _ _ _ _ (rw_tails _ Hm) (lookup_seqs _ _ _ Hc) Hq) as [E1 _].
    destruct (tails_ok_in _ _ _ _ _ _ (rw_tails _ Hm) (lookup_seqs _ _ _ Hd) Hqd) as [E2 _]. rewrite E1 in E2. injection E2. lia.
  - apply elem_of_nil_inv. intros i (c & Hc & Hq)%Hin. by rewrite (seq_cell_in _ _ _ _ Hm Hc Hq) in E.
Qed.

(** ** The round trips *)

(** the position and the state of a sequence *)
Definition state_view (zero : list (option (list Z))) (st : rec_state) (q : nat) : option (Z * list (option (list Z))) :=
  rec_view zero (rst_mem st) (rec_data st) q.

Lemma cleared_read m cells1 l : 0 < r_size m → (Z.of_nat (r_size m) ≤ INT32_MAX)%Z → cells_read (r_size m) cells1 l 0 (r_cells (rec_clear m)).
Proof.
  intros H0 Hmax. destruct (rec_clear_ok m H0 Hmax) as ([_ _ Ht _ _] & Hsz & _). rewrite Hsz in Ht. split; [done|lia|]. intros j _ Hj.
  destruct (lookup_lt_is_Some_2 (r_cells m) j Hj) as [c Hc]. unfold seqs, marks, rec_clear. cbn. by rewrite !list_lookup_fmap, Hc.
Qed.

Lemma rec_read_whole_ok st1 st io (l := rec_saved (r_cells (rst_mem st1)) (-1)) : rec_state_ok st1 → 0 < r_size (rst_mem st) →
  (Z.of_nat (r_size (rst_mem st)) ≤ INT32_MAX)%Z → length l ≤ r_size (rst_mem st) →
  (∀ q k, seq_cell (rst_mem st1) q = Some k → q < r_size (rst_mem st)) →
  okP (rec_read_meta st (length l) (-1) (cells_meta (-1) (r_cells (rst_mem st1)) l ++ io)) (λ r, r.2 = Going io ∧
    rst_r r.1 = rec_zeroed (rst_r st) ∧ rst_s r.1 = rec_zeroed (rst_s st) ∧ let m := rst_mem r.1 in
    rec_wf m ∧ r_size m = r_size (rst_mem st) ∧ r_head m = 0 ∧ (∀ i c, r_cells m !! i = Some c → m_seqs c ≠ ∅ → m_src c = Z.of_nat i) ∧
    ∀ q, match seq_cell (rst_mem st1) q with
      | Some k => ∃ j i, l !! j = Some i ∧ k.2 = Z.of_nat i ∧ seq_cell m q = Some (k.1, Z.of_nat j)
      | None => seq_cell m q = None end).
Proof.
  intros [Hm1 Hsrc _ _ _] H0 Hmax Hfit Hids. pose proof (rw_size _ Hm1) as [_ Hmax1]. unfold rec_read_meta. rewrite decide_False by tauto. rewrite decide_False by lia. cbv zeta.
  cbn [rec_clear_all rst_mem]. eapply okP_bind; [apply (rec_read_cells_ok (r_size (rst_mem st)) (r_cells (rst_mem st1)) l)|].
  - done.
  - done.
  - apply (rw_tails _ Hm1).
  - apply saved_nodup.
  - done.
  - intros j. apply saved_in.
  - intros i c x Hi Hc Hx. pose proof (to_dom _ _ _ (rw_tails _ Hm1) _ _ _ (lookup_seqs _ _ _ Hc) Hx).
    assert (Z.to_nat x < r_size (rst_mem st)); [|lia]. eapply Hids. apply (seq_cell_in _ i c _ Hm1 Hc). by rewrite Z2Nat.id by lia.
  - intros i c Hi Hc. pose proof (cell_pos _ _ _ Hm1 Hc). unfold INT32_MIN. lia.
  - by apply cleared_read.
  - intros [cells o] [Ho Hread]. cbn [fst snd] in *. subst o.
    eapply okP_bind; [apply (own_srcs_ok 0 (length l) cells)|]; [by rewrite <- length_tails, (to_T _ _ _ (cr_tails _ _ _ _ _ Hread))|].
    intros cells' (Ht & Hq & Hk). cbn [okP fst snd with_mem rst_r rst_s rst_mem].
    destruct (whole_wf (rst_mem st1) Hm1 (r_size (rst_mem st)) (conj H0 Hmax) Hfit cells cells' Hread Ht Hq Hk (r_n (rec_clear (rst_mem st))) (rs_z (rec_clear (rst_mem st)))) as (W1 & W2 & W3).
    split_and!; try done. intros q. by apply (whole_seq (rst_mem st1) Hm1 Hsrc (r_size (rst_mem st)) (conj H0 Hmax) Hfit cells cells' Hread Ht Hq Hk).
Qed.

Lemma src_val_nat {A} (zero : A) data i : src_val zero data (Z.of_nat i) = data i.
Proof. unfold src_val. by rewrite decide_False, Nat2Z.id by lia. Qed.

(** where every state is in its own cell, two sequences share a cell if they have the same position and source *)
Lemma same_cell_iff m q q' k : rec_wf m → (∀ i c, r_cells m !! i = Some c → m_seqs c ≠ ∅ → m_src c = Z.of_nat i) →
  seq_cell m q = Some k → same_cell m q q' ↔ seq_cell m q' = Some k.
Proof.
  intros Hm Hsrc.
  assert (Ht : ∀ q, seq_cell m q = Some k → tails (r_cells m) !! q = Some k.2).
  { intros q0 (i & c & Hc & Hin & ->)%(seq_cell_inv _ _ _ Hm). cbn [snd].
    destruct (tails_ok_in _ _ _ _ _ _ (rw_tails _ Hm) (lookup_seqs _ _ _ Hc) Hin) as [E _]. rewrite Nat2Z.id in E.
    rewrite (Hsrc i c Hc); [done|set_solver]. }
  intros Hq. split.
  - unfold same_cell. intros E. rewrite <- Hq. unfold seq_cell, seq_mark. by rewrite E.
  - intros Hq'. unfold same_cell. by rewrite (Ht q Hq), (Ht q' Hq').
Qed.

(** C15. Saving the whole recurrent memory and restoring it into another one with the same layers, enough cells
    and large enough ids succeeds and leaves the rest of the input; every sequence then has the position and the
    state (the bytes of all layers) it had when it was saved, two sequences share a cell exactly if they shared one,
    and what the other memory held before is gone. *)
Theorem rec_state_roundtrip zero st1 st2 rest : rec_state_ok st1 → layers_ok st2 → same_shapes st1 st2 →
  0 < r_size (rst_mem st2) → (Z.of_nat (r_size (rst_mem st2)) ≤ INT32_MAX)%Z →
  length (rec_saved (r_cells (rst_mem st1)) (-1)) ≤ r_size (rst_mem st2) →
  (∀ q k, seq_cell (rst_mem st1) q = Some k → q < r_size (rst_mem st2)) →
  okP (io ← rec_state_write st1 (-1); rec_state_read st2 (-1) (io ++ rest)) (λ r, r.2 = ReadDone rest ∧ rec_state_ok r.1 ∧
    (∀ q, state_view zero r.1 q = state_view zero st1 q) ∧
    ∀ q q', seq_cell (rst_mem st1) q ≠ None → same_cell (rst_mem r.1) q q' ↔ same_cell (rst_mem st1) q q').
Proof.
  intros H1 H2 Hsh H0 Hmax Hfit Hids. rewrite (rec_state_write_ok st1 (-1) H1), bind_Ok. pose proof (rw_size _ (rso_wf _ H1)) as [_ Hmax1].
  pose proof (saved_small (r_cells (rst_mem st1)) (-1)) as Hsm. set (l := rec_saved (r_cells (rst_mem st1)) (-1)) in *.
  unfold rec_state_read. rewrite <- !app_assoc. rewrite get_u32_put, bind_Ok by (unfold r_size, INT32_MAX in *; lia). cbn [fst snd]. rewrite Nat2Z.id.
  eapply okP_bind; [by apply (rec_read_whole_ok st1 st2)|]. fold l. intros [st o] (Ho & Er & Es & Hw & Hsz & Hh & Hsrc & Hseq). cbn [fst snd] in *. subst o.
  assert (layers_ok st) as Hl.
  { destruct H2 as (A1 & A2 & A3 & A4). unfold layers_ok. rewrite Er, Es, Hsz. unfold rec_zeroed. rewrite !length_fmap. split_and!; [by apply zeroed_ok..|done|done]. }
  eapply okP_bind; [apply (rec_read_data_ok st1 st l)|].
  - destruct Hsh. unfold same_shapes. rewrite Er, Es. by split; apply zeroed_shape.
  - by apply rec_state_layers.
  - done.
  - intros i. apply saved_in.
  - rewrite Hh, Hsz. done.
  - intros [st' o] (Ho & Em & _ & Hl' & Hd & _). cbn [fst snd okP] in *. subst o. rewrite Hh in Hd. split; [done|]. split.
    { destruct Hl' as (L1 & L2 & L3 & L4). rewrite Em in L1, L2. cbn [fst]. split; rewrite ?Em; [exact Hw|exact Hsrc|exact L1|exact L2|by split]. }
    split.
    + intros q. unfold state_view, rec_view. cbn [fst]. rewrite Em. specialize (Hseq q). destruct (seq_cell (rst_mem st1) q) as [k|]; [|by rewrite Hseq].
      destruct Hseq as (j & i & Hj & Hki & ->). cbn. unfold mark_val. cbn [fst snd]. by rewrite Hki, !src_val_nat, <- (Hd j i Hj).
    + intros q q' Hq. cbn [fst]. rewrite Em. destruct (seq_cell (rst_mem st1) q) as [k|] eqn:Ek; [clear Hq|done].
      pose proof (Hseq q) as Hsq. rewrite Ek in Hsq. destruct Hsq as (j & i & Hj & Hki & Eq).
      rewrite (same_cell_iff _ q q' _ Hw Hsrc Eq), (same_cell_iff _ q q' _ (rso_wf _ H1) (rso_src _ H1) Ek).
      pose proof (Hseq q') as Hsq. destruct (seq_cell (rst_mem st1) q') as [k'|]; [|by rewrite Hsq].
      destruct Hsq as (j' & i' & Hj' & Hki' & ->). destruct k as [p s], k' as [p' s']. cbn [fst snd] in *. split; intros [= ->].
      * assert (j' = j) as -> by lia. rewrite Hj in Hj'. injection Hj' as ->. by rewrite Hki, Hki'.
      * assert (i' = i) as -> by lia. by rewrite (NoDup_lookup _ _ _ _ (saved_nodup _ _) Hj Hj').
Qed.

Section single.
Context (zero : list (option (list Z))) (st1 st2 : rec_state) (q dest : nat).
Context (H1 : rec_state_ok st1) (Hm2 : rec_wf (rst_mem st2)) (Hnp : 0 < rst_pos st2) (Hd : dest < r_size (rst_mem st2)).
Context (Hc : rec_clean zero (rst_mem st2) (rec_data st2)) (Hmax : ∀ k, seq_cell (rst_mem st2) dest = Some k → k.1 ≠ INT32_MAX).
Abbreviation cells1 := (r_cells (rst_mem st1)).
Abbreviation l := (rec_saved (r_cells (rst_mem st1)) (Z.of_nat q)).

(** the memory in which [dest] was given a cell for the states that follow *)
Definition dest_placed (st : rec_state) : Prop := ∃ m, st = with_mem st2 m ∧ rec_wf m ∧ r_size m = r_size (rst_mem st2) ∧ r_head m + length l ≤ r_size m ∧
  ∀ data2, (∀ i, (∀ k, k < length l → i ≠ r_head m + k) → data2 i = rec_data st2 i) → rec_clean zero m data2 ∧
    ∀ q', rec_view zero m data2 q' =
      if decide (q' = dest) then (λ k, (k.1, data2 (r_head m))) <$> seq_cell (rst_mem st1) q else rec_view zero (rst_mem st2) (rec_data st2) q'.

Lemma view_ext (m : rec_mem) (d d' : nat → list (option (list Z))) : (∀ i, d' i = d i) →
  (rec_clean zero m d → rec_clean zero m d') ∧ ∀ q, rec_view zero m d' q = rec_view zero m d q.
Proof.
  intros H. assert (∀ s, src_val zero d' s = src_val zero d s) as Hs by (intros s; unfold src_val; by rewrite H). split.
  - intros Hcl i c Hi He. rewrite Hs. by eapply Hcl.
  - intros q'. unfold rec_view, mark_val. destruct (seq_cell m q'); [|done]. cbn. by rewrite Hs.
Qed.

Lemma rec_read_single_ok io :
  okP (rec_read_meta st2 (length l) (Z.of_nat dest) (cells_meta (Z.of_nat q) cells1 l ++ io)) (λ r, r.2 = Going io ∧ dest_placed r.1).
Proof.
  pose proof (saved_one (rst_mem st1) q (rso_wf _ H1)) as Hone. unfold rec_read_meta, dest_placed. rewrite decide_True by lia.
  destruct (seq_cell (rst_mem st1) q) as [k|] eqn:Ek.
  - destruct Hone as (i & c & El & Hci & -> & Hne). rewrite El. cbn [length]. unfold cells_meta. cbn [fmap list_fmap concat]. rewrite Hci, app_nil_r. unfold rec_write_cell.
    rewrite decide_False by lia. cbn [length fmap list_fmap concat]. rewrite app_nil_r, <- app_assoc.
    assert (0 ≤ m_pos c ≤ INT32_MAX)%Z as Hp.
    { destruct (rw_marks _ (rso_wf _ H1) _ _ _ (lookup_marks _ _ _ Hci) (lookup_seqs _ _ _ Hci)) as (_ & _ & H). by apply H. }
    eapply okP_bind; [by apply (rec_read_seq_ok zero (rec_data st2))|].
    intros [m o] (Ho & Hw & Hsz & Hout). cbn [fst snd okP] in *. subst o. split; [done|]. exists m.
    split_and!; [done..|pose proof (rw_head _ Hw); lia|]. intros data2 Hdata.
    destruct (Hout data2) as [O1 O2]; [intros j Hj; apply Hdata; intros [|k] Hk; lia|]. done.
  - rewrite Hone. cbn [length]. change (cells_meta (Z.of_nat q) cells1 [] ++ io) with io. unfold rec_read_seq.
    pose proof (read_rm_ok zero (rec_data st2) _ dest Hm2 Hc Hd Hmax) as Hrm. destruct (rec_seq_rm _ _ _ _) as [[m b]|]; [|done]. cbn [okP fst snd] in Hrm.
    destruct Hrm as (Hw & Hsz & Hcl & Hv). rewrite bind_Ok. cbn [fst snd]. rewrite decide_True, bind_Ok by done. cbn [okP fst snd]. split; [done|]. exists m.
    split_and!; [done..|pose proof (rw_head _ Hw); lia|]. intros data2 Hdata. destruct (view_ext m (rec_data st2) data2) as [E1 E2]; [intros i; apply Hdata; intros; lia|].
    split; [auto|]. intros q'. rewrite E2, Hv. done.
Qed.
End single.

(** C16. Saving one sequence of a recurrent memory and restoring it as the sequence [dest] of another memory with
    the same layers succeeds: [dest] has the position and the state the saved sequence had (none if that had
    none), whatever it was before, and every other sequence of the memory keeps its position and its state. *)
Theorem rec_seq_roundtrip zero st1 st2 q dest rest : rec_state_ok st1 → rec_wf (rst_mem st2) → layers_ok st2 → same_shapes st1 st2 →
  0 < rst_pos st2 → dest < r_size (rst_mem st2) → rec_clean zero (rst_mem st2) (rec_data st2) →
  (∀ k, seq_cell (rst_mem st2) dest = Some k → k.1 ≠ INT32_MAX) →
  okP (io ← rec_state_write st1 (Z.of_nat q); rec_state_read st2 (Z.of_nat dest) (io ++ rest)) (λ r, r.2 = ReadDone rest ∧
    rec_wf (rst_mem r.1) ∧ layers_ok r.1 ∧ rec_clean zero (rst_mem r.1) (rec_data r.1) ∧
    ∀ q', state_view zero r.1 q' = if decide (q' = dest) then state_view zero st1 q else state_view zero st2 q').
Proof.
  intros H1 Hm2 H2 Hsh Hnp Hd Hc Hmax. rewrite (rec_state_write_ok st1 _ H1), bind_Ok. pose proof (saved_one (rst_mem st1) q (rso_wf _ H1)) as Hone.
  set (l := rec_saved (r_cells (rst_mem st1)) (Z.of_nat q)) in *.
  assert (length l ≤ 1) as Hl1 by (destruct (seq_cell (rst_mem st1) q); [destruct Hone as (? & ? & -> & _)|rewrite Hone]; cbn; lia).
  unfold rec_state_read. rewrite <- !app_assoc. rewrite get_u32_put, bind_Ok by lia. cbn [fst snd]. rewrite Nat2Z.id.
  eapply okP_bind; [by apply (rec_read_single_ok zero st1 st2 q dest)|]. intros [st o] (Ho & m & -> & Hw & Hsz & Hfit & Hout). cbn [fst snd] in *. subst o. fold l in Hfit, Hout.
  eapply okP_bind; [apply (rec_read_data_ok st1 (with_mem st2 m) l)|].
  - done.
  - by apply rec_state_layers.
  - unfold layers_ok in *. cbn. by rewrite Hsz.
  - intros i. apply saved_in.
  - done.
  - intros [st' o] (Ho & Em & _ & Hl' & Hdata & Hrest). cbn [fst snd okP with_mem rst_mem] in *. subst o. destruct (Hout (rec_data st')) as [O1 O2]; [exact Hrest|].
    cbn [okP fst snd]. split_and!; [done|by rewrite Em|done|by rewrite Em|]. intros q'. unfold state_view. cbn [fst]. rewrite Em, O2. destruct (decide (q' = dest)); [|done].
    unfold rec_view. destruct (seq_cell (rst_mem st1) q) as [k|]; [|done]. destruct Hone as (i & c & El & Hci & -> & Hne). cbn. unfold mark_val. cbn [fst snd].
    rewrite (rso_src _ H1 _ _ Hci Hne), src_val_nat. specialize (Hdata 0 i). rewrite Nat.add_0_r in Hdata. rewrite Hdata; [done|]. by rewrite El.
Qed.

(** two layers, one of them without a recurrent state *)
Definition ex_rec : rec_state :=
  RecState ex_shared 1 [Some (RsTensor 1 2 [10; 11; 20; 21; 0; 0]%Z); None] [None; Some (RsTensor 0 1 [1; 2; 0]%Z)].
Definition ex_rec_free : rec_state :=
  RecState (rec_clear (rec_fresh 4)) 1 [Some (RsTensor 1 2 (replicate 8 9%Z)); None] [None; Some (RsTensor 0 1 (replicate 4 9%Z))].

Lemma ex_rec_ok : rec_state_ok ex_rec.
Proof.
  split.
  - exact ex_shared_wf.
  - intros [|[|[|i]]] c; cbn; intros [= <-]; cbn; done.
  - repeat constructor; unfold INT32_MIN, INT32_MAX; cbn; lia.
  - repeat constructor; unfold INT32_MIN, INT32_MAX; cbn; lia.
  - cbn. lia.
Qed.

Lemma ex_rec_shapes : same_shapes ex_rec ex_rec_free.
Proof. split; repeat constructor. Qed.

Lemma rec_state_roundtrip_witness : okP (io ← rec_state_write ex_rec (-1); rec_state_read ex_rec_free (-1) (io ++ [7%Z])) (λ r,
  r.2 = ReadDone [7%Z] ∧ state_view [] r.1 2 = Some (5%Z, [Some [10; 11]%Z; None; None; Some [1%Z]]) ∧ same_cell (rst_mem r.1) 0 2).
Proof.
  eapply okP_mono; [apply (rec_state_roundtrip [] ex_rec ex_rec_free [7%Z] ex_rec_ok)|].
  - unfold layers_ok. cbn. split_and!; try lia; repeat constructor; unfold INT32_MIN, INT32_MAX; cbn; lia.
  - exact ex_rec_shapes.
  - cbn. lia.
  - unfold INT32_MAX. cbn. lia.
  - vm_compute. lia.
  - intros q k. unfold seq_cell, seq_mark. destruct (tails _ !! q) as [t|] eqn:E; [|done]. intros _. apply lookup_lt_Some in E. cbn in *. lia.
  - intros r (H1 & _ & H2 & H3). split; [done|]. split; [by rewrite H2|]. apply H3; [done|]. by vm_compute.
Defined.

Lemma rec_seq_roundtrip_witness : okP (io ← rec_state_write ex_rec 1; rec_state_read ex_rec 0 (io ++ [])) (λ r,
  r.2 = ReadDone [] ∧ state_view [] r.1 0 = Some (3%Z, [Some [20; 21]%Z; None; None; Some [2%Z]]) ∧ state_view [] r.1 2 = Some (5%Z, [Some [10; 11]%Z; None; None; Some [1%Z]])).
Proof.
  eapply okP_mono; [apply (rec_seq_roundtrip [] ex_rec ex_rec 1 0 [] ex_rec_ok ex_shared_wf)|].
  - by apply rec_state_layers, ex_rec_ok.
  - split; repeat constructor.
  - cbn. lia.
  - unfold r_size. cbn. lia.
  - intros [|[|[|i]]] c; cbn; intros [= <-]; cbn; done.
  - intros k [= <-]. done.
  - intros r (H1 & _ & _ & _ & H2). split; [done|]. rewrite !H2. split; reflexivity.
Defined.
