(* ===== verification/Hybrid.v ===== *)
(** Memories that consist of two others: [llama_kv_cache_iswa] of src/src/llama-kv-cache-iswa.h and .cpp, a cache of the
    whole context and one of a sliding window; [llama_memory_hybrid] and [llama_memory_hybrid_iswa] of
    src/src/llama-memory-hybrid.h and .cpp and src/src/llama-memory-hybrid-iswa.h and .cpp, a cache for the layers with
    attention and a recurrent memory.  The two hybrid memories are one definition over the class of memories: their
    sources differ in the type of the first part only.  Choosing the layers and adding up the buffer sizes are left out. *)
From S2P Require Import Prelude KvCells Batch KvCache KvSlot Recurrent KvState RecState.

(** ** The interface of memories (src/src/llama-memory.h) *)

Class llama_memory_i (M : Type) := {
  mi_can_shift : M → res bool;
  mi_clear : M → res M;
  mi_seq_rm : M → Z → Z → Z → res (M * bool);
  mi_seq_cp : M → Z → Z → Z → Z → res M;
  mi_seq_keep : M → Z → res M;
  mi_seq_add : M → Z → Z → Z → Z → res M;
  mi_seq_div : M → Z → Z → Z → Z → res M;
  mi_pos_min : M → Z → res Z;
  mi_pos_max : M → Z → res Z }.

(** batch contexts; a context is made for micro-batches if they were found to fit.  [update_env] stands for what
    llama_kv_cache::update asks of the graph and the model *)
Class llama_memory_context_i (M C : Type) := {
  ci_prepare : M → list llama_ubatch → res (M * option C);
  ci_init_full : M → res C;
  ci_init_update : M → res (M * C);
  ci_next : C → res (C * bool);
  ci_apply : update_env → M → C → res (M * C * bool);
  ci_status : C → llama_memory_status }.

(** saving and restoring, with the flags *)
Class llama_memory_state (S : Type) := {
  si_write : S → Z → Z → res (list Z);
  si_read : S → Z → Z → list Z → res (S * read_end) }.

#[export] Instance kv_memory : llama_memory_i kv_cache := {|
  mi_can_shift := λ kv, Ok (get_can_shift kv);
  mi_clear := KvCache.clear; mi_seq_rm := KvCache.seq_rm; mi_seq_cp := KvCache.seq_cp; mi_seq_keep := KvCache.seq_keep;
  mi_seq_add := KvCache.seq_add; mi_seq_div := KvCache.seq_div; mi_pos_min := KvCache.seq_pos_min; mi_pos_max := KvCache.seq_pos_max |}.

#[export] Instance rec_memory : llama_memory_i rec_mem := {|
  mi_can_shift := λ _, Ok true;
  mi_clear := λ m, Ok (rec_clear m); mi_seq_rm := rec_seq_rm; mi_seq_cp := rec_seq_cp; mi_seq_keep := rec_seq_keep;
  mi_seq_add := rec_seq_add; mi_seq_div := rec_seq_div; mi_pos_min := λ m q, Ok (rec_pos_min m q); mi_pos_max := λ m q, Ok (rec_pos_max m q) |}.

#[export] Instance kv_memory_context : llama_memory_context_i kv_cache kv_context := {|
  ci_prepare := λ kv us, p ← prepare kv us; Ok (p.1, if decide (p.2 = []) then None else Some (KvContext STATUS_SUCCESS p.2 us 0 0 false []));
  ci_init_full := KvSlot.init_full; ci_init_update := KvSlot.init_update;
  ci_next := context_next;
  ci_apply := λ env kv cx, r ← context_apply env kv cx; Ok (r.1, r.2, true);
  ci_status := cx_status |}.

#[export] Instance rec_memory_context : llama_memory_context_i rec_mem rec_context := {|
  ci_prepare := λ m us, p ← rec_prepare m us; Ok (p.1, if p.2 : bool then Some (RecContext STATUS_SUCCESS 0 us false) else None);
  ci_init_full := λ _, Ok rec_init_full; ci_init_update := λ m, Ok (m, rec_init_update);
  ci_next := rec_next;
  ci_apply := λ _ m cx, r ← rec_apply m cx; Ok (r.1, cx, r.2);
  ci_status := rx_status |}.

#[export] Instance kv_memory_state : llama_memory_state kv_state := {| si_write := λ st q _, state_write st q; si_read := λ st q _ io, state_read st q io |}.
#[export] Instance rec_memory_state : llama_memory_state rec_state := {| si_write := λ st q _, rec_state_write st q; si_read := λ st q _ io, rec_state_read st q io |}.

(** ** llama_kv_cache_iswa *)

Record kv_cache_iswa := KvCacheIswa { kv_base : kv_cache; kv_swa : kv_cache; unified : bool }.
Definition with_caches (m : kv_cache_iswa) (b s : kv_cache) : kv_cache_iswa := KvCacheIswa b s (unified m).

Definition iswa_size (size_base n_swa n_seq_max n_ubatch : Z) (unified swa_full : bool) : Z :=
  if swa_full then size_base
  else GGML_PAD (Z.min size_base (u32 (n_swa * (if unified then n_seq_max else 1) + n_ubatch))) 256.

(** the constructor; the two caches differ in their size and in the window.  [p] holds the parameters of the one with the window *)
Definition iswa_params (p : kv_params) (unified swa : bool) : kv_params :=
  Params (if unified then 1 else kv_n_seq_max p) (kv_n_seq_max p) (n_pad p) (if swa then n_swa p else 0%Z) (if swa then swa_type p else SWA_NONE)
    (v_trans p) (kv_n_pos p) (n_embd_v_gqa p) (arch_step35 p).
Definition iswa_new (p : kv_params) (size_base n_ubatch : Z) (unified swa_full : bool) : res kv_cache_iswa :=
  let size_swa := iswa_size size_base (n_swa p) (Z.of_nat (kv_n_seq_max p)) n_ubatch unified swa_full in
  b ← kv_new (iswa_params p unified false) (Z.to_nat size_base);
  s ← kv_new (iswa_params p unified true) (Z.to_nat size_swa);
  Ok (KvCacheIswa b s unified).

Definition iswa_clear (m : kv_cache_iswa) : res kv_cache_iswa :=
  b ← KvCache.clear (kv_base m); s ← KvCache.clear (kv_swa m); Ok (with_caches m b s).
Definition iswa_seq_rm (m : kv_cache_iswa) (q p0 p1 : Z) : res (kv_cache_iswa * bool) :=
  b ← KvCache.seq_rm (kv_base m) q p0 p1; s ← KvCache.seq_rm (kv_swa m) q p0 p1; Ok (with_caches m b.1 s.1, b.2 && s.2).
Definition iswa_seq_cp (m : kv_cache_iswa) (src dst p0 p1 : Z) : res kv_cache_iswa :=
  b ← KvCache.seq_cp (kv_base m) src dst p0 p1; s ← KvCache.seq_cp (kv_swa m) src dst p0 p1; Ok (with_caches m b s).
Definition iswa_seq_keep (m : kv_cache_iswa) (q : Z) : res kv_cache_iswa :=
  b ← KvCache.seq_keep (kv_base m) q; s ← KvCache.seq_keep (kv_swa m) q; Ok (with_caches m b s).
Definition iswa_seq_add (m : kv_cache_iswa) (q p0 p1 shift : Z) : res kv_cache_iswa :=
  b ← KvCache.seq_add (kv_base m) q p0 p1 shift; s ← KvCache.seq_add (kv_swa m) q p0 p1 shift; Ok (with_caches m b s).
Definition iswa_seq_div (m : kv_cache_iswa) (q p0 p1 d : Z) : res kv_cache_iswa :=
  b ← KvCache.seq_div (kv_base m) q p0 p1 d; s ← KvCache.seq_div (kv_swa m) q p0 p1 d; Ok (with_caches m b s).

(** the base cache is a superset of the SWA cache, so we can just check the SWA cache *)
Definition iswa_pos_min (m : kv_cache_iswa) (q : Z) : res Z := KvCache.seq_pos_min (kv_swa m) q.
Definition iswa_pos_max (m : kv_cache_iswa) (q : Z) : res Z := KvCache.seq_pos_max (kv_swa m) q.

Definition iswa_can_shift (m : kv_cache_iswa) : res bool :=
  if get_can_shift (kv_base m) && get_can_shift (kv_swa m) then
    nb ← get_size (kv_base m); ns ← get_size (kv_swa m); Ok (bool_decide (nb = ns))
  else Ok false.

#[export] Instance iswa_memory : llama_memory_i kv_cache_iswa := {|
  mi_can_shift := iswa_can_shift; mi_clear := iswa_clear; mi_seq_rm := iswa_seq_rm; mi_seq_cp := iswa_seq_cp; mi_seq_keep := iswa_seq_keep;
  mi_seq_add := iswa_seq_add; mi_seq_div := iswa_seq_div; mi_pos_min := iswa_pos_min; mi_pos_max := iswa_pos_max |}.

(** *** Batch contexts; in a failed one the parts are missing *)
Record pair_context (C1 C2 : Type) := PairContext {
  pc_status : llama_memory_status; pc_i_next : nat; pc_ubatches : list llama_ubatch; pc_parts : option (C1 * C2) }.
#[global] Arguments PairContext {C1 C2}.
#[global] Arguments pc_status {C1 C2}.
#[global] Arguments pc_i_next {C1 C2}.
#[global] Arguments pc_ubatches {C1 C2}.
#[global] Arguments pc_parts {C1 C2}.

Section pair.
  Context {M1 C1 M2 C2 : Type} `{!llama_memory_context_i M1 C1, !llama_memory_context_i M2 C2}.

Definition pair_failed : pair_context C1 C2 := PairContext STATUS_FAILED_PREPARE 0 [] None.
Definition pair_make (us : list llama_ubatch) (c1 : C1) (c2 : C2) : pair_context C1 C2 :=
  PairContext (status_combine (ci_status c1) (ci_status c2)) 0 us (Some (c1, c2)).
Definition pair_init_full (m : M1 * M2) : res (pair_context C1 C2) :=
  c1 ← ci_init_full m.1; c2 ← ci_init_full m.2; Ok (pair_make [] c1 c2).
Definition pair_init_update (m : M1 * M2) : res (M1 * M2 * pair_context C1 C2) :=
  r1 ← ci_init_update m.1; r2 ← ci_init_update m.2; Ok (r1.1, r2.1, pair_make [] r1.2 r2.2).

Definition pair_next (cx : pair_context C1 C2) : res (pair_context C1 C2 * bool) :=
  assert_ (bool_decide (pc_status cx = STATUS_SUCCESS));;
  match pc_parts cx with
  | Some (c1, c2) =>
      r1 ← ci_next (M := M1) c1; r2 ← ci_next (M := M2) c2;
      let i := S (pc_i_next cx) in
      Ok (PairContext (pc_status cx) i (pc_ubatches cx) (Some (r1.1, r2.1)), bool_decide (i < length (pc_ubatches cx)))
  | None => Err OutOfRange
  end.

Definition pair_apply (env : update_env) (m : M1 * M2) (cx : pair_context C1 C2) : res (M1 * M2 * pair_context C1 C2 * bool) :=
  assert_ (negb (status_is_fail (pc_status cx)));;
  match pc_parts cx with
  | Some (c1, c2) =>
      '(m1, c1, b1) ← ci_apply env m.1 c1; '(m2, c2, b2) ← ci_apply env m.2 c2;
      Ok (m1, m2, PairContext (pc_status cx) (pc_i_next cx) (pc_ubatches cx) (Some (c1, c2)), b1 && b2)
  | None => Err OutOfRange
  end.

(** *** Saving and restoring: an exception leaves the function *)
Definition pair_write {S1 S2} `{!llama_memory_state S1, !llama_memory_state S2} (first : bool) (st : S1 * S2) (q flags : Z) : res (list Z) :=
  b1 ← (if first then si_write st.1 q flags else Ok []); b2 ← si_write st.2 q flags; Ok (b1 ++ b2).
Definition pair_read {S1 S2} `{!llama_memory_state S1, !llama_memory_state S2} (first : bool) (st : S1 * S2) (q flags : Z) (io : list Z) : res (S1 * S2 * read_end) :=
  '(s1, e1) ← (if first then si_read st.1 q flags io else Ok (st.1, ReadDone io));
  match e1 with
  | ReadDone io => '(s2, e2) ← si_read st.2 q flags io; Ok (s1, s2, e2)
  | _ => Ok (s1, st.2, e1)
  end.
End pair.

(** (flags & LLAMA_STATE_SEQ_FLAGS_PARTIAL_ONLY) == 0 *)
Definition LLAMA_STATE_SEQ_FLAGS_PARTIAL_ONLY : Z := 1.
Definition not_partial (flags : Z) : bool := bool_decide (Z.land flags LLAMA_STATE_SEQ_FLAGS_PARTIAL_ONLY = 0)%Z.

Definition iswa_context : Type := pair_context kv_context kv_context.

(** prepare both caches; None if one of them has no room *)
Definition iswa_prepare (m : kv_cache_iswa) (us : list llama_ubatch) : res (kv_cache_iswa * option iswa_context) :=
  b ← prepare (kv_base m) us;
  if decide (b.2 = []) then Ok (with_caches m b.1 (kv_swa m), None) else
  s ← prepare (kv_swa m) us;
  if decide (s.2 = []) then Ok (with_caches m b.1 s.1, None) else
  Ok (with_caches m b.1 s.1, Some (pair_make us (KvContext STATUS_SUCCESS b.2 us 0 0 false []) (KvContext STATUS_SUCCESS s.2 us 0 0 false []))).

(** one attempt with a way of splitting *)
Definition iswa_attempt (m : kv_cache_iswa) (balloc : llama_batch_allocr) (split : llama_batch_allocr → res (llama_batch_allocr * llama_ubatch)) :
    res (kv_cache_iswa * llama_batch_allocr * option iswa_context) :=
  let balloc := split_reset balloc in
  r ← split_all (S (get_n_tokens balloc)) split balloc [];
  let '(balloc, us) := r in
  if decide (n_used balloc < get_n_tokens balloc) then Ok (m, balloc, None) else
  p ← iswa_prepare m us;
  match (p : kv_cache_iswa * option iswa_context).2 with
  | Some (PairContext _ _ _ (Some (cb, cs))) => assert_ (bool_decide (length (cx_sinfos cb) = length (cx_sinfos cs)))
  | _ => Ok tt
  end;;
  Ok (p.1, balloc, p.2).

Definition iswa_init_batch (m : kv_cache_iswa) (balloc : llama_batch_allocr) (n_ubatch : nat) : res (kv_cache_iswa * llama_batch_allocr * iswa_context) :=
  r ← (if unified m then iswa_attempt m balloc (λ a, split_simple a n_ubatch) else Ok (m, balloc, None));
  let '(m, balloc, o) := r in
  match o with
  | Some cx => Ok (m, balloc, cx)
  | None =>
      r ← iswa_attempt m balloc (λ a, split_equal a n_ubatch (negb (unified m)));
      let '(m, balloc, o) := (r : kv_cache_iswa * llama_batch_allocr * option iswa_context) in
      Ok (m, balloc, default (pair_failed (C1 := kv_context) (C2 := kv_context)) o)
  end.

#[export] Instance iswa_memory_context : llama_memory_context_i kv_cache_iswa iswa_context := {|
  ci_prepare := iswa_prepare;
  ci_init_full := λ m, pair_init_full (kv_base m, kv_swa m);
  ci_init_update := λ m, r ← pair_init_update (kv_base m, kv_swa m); Ok (with_caches m r.1.1 r.1.2, r.2);
  ci_next := pair_next (M1 := kv_cache) (M2 := kv_cache);
  ci_apply := λ env m cx, '(b, s, cx, ok) ← pair_apply env (kv_base m, kv_swa m) cx; Ok (with_caches m b s, cx, ok);
  ci_status := pc_status |}.

Record kv_state_iswa := KvStateIswa { kvs_base : kv_state; kvs_swa : kv_state }.
Definition iswa_state_write (st : kv_state_iswa) (q flags : Z) : res (list Z) := pair_write (not_partial flags) (kvs_base st, kvs_swa st) q flags.
Definition iswa_state_read (st : kv_state_iswa) (q flags : Z) (io : list Z) : res (kv_state_iswa * read_end) :=
  r ← pair_read (not_partial flags) (kvs_base st, kvs_swa st) q flags io; Ok (KvStateIswa r.1.1 r.1.2, r.2).
#[export] Instance iswa_memory_state : llama_memory_state kv_state_iswa := {| si_write := iswa_state_write; si_read := iswa_state_read |}.

(** ** llama_memory_hybrid and llama_memory_hybrid_iswa *)

Section hybrid.
  Context {A CA : Type} `{!llama_memory_i A, !llama_memory_context_i A CA}.

Record hybrid := Hybrid { mem_attn : A; mem_recr : rec_mem }.
Definition hybrid_context : Type := pair_context CA rec_context.

Definition hybrid_can_shift (m : hybrid) : res bool := mi_can_shift (mem_attn m).
Definition hybrid_clear (m : hybrid) : res hybrid := a ← mi_clear (mem_attn m); r ← mi_clear (mem_recr m); Ok (Hybrid a r).

(** the recurrent memory first since it may refuse *)
Definition hybrid_seq_rm (m : hybrid) (q p0 p1 : Z) : res (hybrid * bool) :=
  r ← mi_seq_rm (mem_recr m) q p0 p1;
  if negb (r : rec_mem * bool).2 then Ok (Hybrid (mem_attn m) r.1, false) else
  a ← mi_seq_rm (mem_attn m) q p0 p1; Ok (Hybrid a.1 r.1, a.2).
Definition hybrid_seq_cp (m : hybrid) (src dst p0 p1 : Z) : res hybrid :=
  a ← mi_seq_cp (mem_attn m) src dst p0 p1; r ← mi_seq_cp (mem_recr m) src dst p0 p1; Ok (Hybrid a r).
Definition hybrid_seq_keep (m : hybrid) (q : Z) : res hybrid := a ← mi_seq_keep (mem_attn m) q; r ← mi_seq_keep (mem_recr m) q; Ok (Hybrid a r).
Definition hybrid_seq_add (m : hybrid) (q p0 p1 shift : Z) : res hybrid :=
  a ← mi_seq_add (mem_attn m) q p0 p1 shift; r ← mi_seq_add (mem_recr m) q p0 p1 shift; Ok (Hybrid a r).
Definition hybrid_seq_div (m : hybrid) (q p0 p1 d : Z) : res hybrid :=
  a ← mi_seq_div (mem_attn m) q p0 p1 d; r ← mi_seq_div (mem_recr m) q p0 p1 d; Ok (Hybrid a r).

(** the min of the total cache is the max of the two caches' min values, and conversely *)
Definition hybrid_pos_min (m : hybrid) (q : Z) : res Z := a ← mi_pos_min (mem_attn m) q; r ← mi_pos_min (mem_recr m) q; Ok (Z.max a r).
Definition hybrid_pos_max (m : hybrid) (q : Z) : res Z := a ← mi_pos_max (mem_attn m) q; r ← mi_pos_max (mem_recr m) q; Ok (Z.min a r).

(** prepare the recurrent batches first *)
Definition hybrid_prepare (m : hybrid) (us : list llama_ubatch) : res (hybrid * option hybrid_context) :=
  r ← ci_prepare (mem_recr m) us;
  match (r : rec_mem * option rec_context).2 with
  | None => Ok (Hybrid (mem_attn m) r.1, None)
  | Some cr =>
      a ← ci_prepare (mem_attn m) us;
      match (a : A * option CA).2 with
      | None => Ok (Hybrid a.1 r.1, None)
      | Some ca => Ok (Hybrid a.1 r.1, Some (pair_make us ca cr))
      end
  end.

Definition hybrid_init_batch (m : hybrid) (balloc : llama_batch_allocr) (n_ubatch : nat) (embd_all : bool) : res (hybrid * llama_batch_allocr * hybrid_context) :=
  let balloc := split_reset balloc in
  r ← split_all (S (get_n_tokens balloc)) (λ a, if embd_all then split_seq a n_ubatch else split_equal a n_ubatch true) balloc [];
  let '(balloc, us) := r in
  if decide (n_used balloc < get_n_tokens balloc) then Ok (m, balloc, pair_failed) else
  p ← hybrid_prepare m us; Ok (p.1, balloc, default pair_failed p.2).

Definition hybrid_init_full (m : hybrid) : res hybrid_context := pair_init_full (mem_attn m, mem_recr m).
Definition hybrid_init_update (m : hybrid) : res (hybrid * hybrid_context) :=
  r ← pair_init_update (mem_attn m, mem_recr m); Ok (Hybrid r.1.1 r.1.2, r.2).
Definition hybrid_next (cx : hybrid_context) : res (hybrid_context * bool) := pair_next (M1 := A) (M2 := rec_mem) cx.
Definition hybrid_apply (env : update_env) (m : hybrid) (cx : hybrid_context) : res (hybrid * hybrid_context * bool) :=
  '(a, r, cx, ok) ← pair_apply env (mem_attn m, mem_recr m) cx; Ok (Hybrid a r, cx, ok).

#[export] Instance hybrid_memory : llama_memory_i hybrid := {|
  mi_can_shift := hybrid_can_shift; mi_clear := hybrid_clear; mi_seq_rm := hybrid_seq_rm; mi_seq_cp := hybrid_seq_cp; mi_seq_keep := hybrid_seq_keep;
  mi_seq_add := hybrid_seq_add; mi_seq_div := hybrid_seq_div; mi_pos_min := hybrid_pos_min; mi_pos_max := hybrid_pos_max |}.
#[export] Instance hybrid_memory_context : llama_memory_context_i hybrid hybrid_context := {|
  ci_prepare := hybrid_prepare; ci_init_full := hybrid_init_full; ci_init_update := hybrid_init_update;
  ci_next := hybrid_next; ci_apply := hybrid_apply; ci_status := pc_status |}.
End hybrid.
#[global] Arguments hybrid : clear implicits.
#[global] Arguments Hybrid {A}.

(** saving and restoring: the hybrid memory with a plain cache looks at the flags, the other one leaves them to its cache *)
Definition hybrid_state_write {S} `{!llama_memory_state S} (st : S * rec_state) (q flags : Z) : res (list Z) := pair_write (not_partial flags) st q flags.
Definition hybrid_state_read {S} `{!llama_memory_state S} (st : S * rec_state) (q flags : Z) (io : list Z) : res (S * rec_state * read_end) :=
  pair_read (not_partial flags) st q flags io.
Definition hybrid_iswa_state_write (st : kv_state_iswa * rec_state) (q flags : Z) : res (list Z) := pair_write true st q flags.
Definition hybrid_iswa_state_read (st : kv_state_iswa * rec_state) (q flags : Z) (io : list Z) : res (kv_state_iswa * rec_state * read_end) :=
  pair_read true st q flags io.

(** llama_memory_hybrid, llama_memory_hybrid_iswa *)
Definition llama_memory_hybrid : Type := hybrid kv_cache.
Definition llama_memory_hybrid_iswa : Type := hybrid kv_cache_iswa.

(** * Lemmas *)

(** ** The positions of the sequences of a cache *)

(** sequence [q] has position [p] *)
Definition has_pos (k : cell) (q p : Z) : Prop := q ∈ c_seq k ∧ c_pos k = p.
Definition seq_at (kv : kv_cache) (q p : Z) : Prop := ∃ v k, views kv !! stream_idx kv q = Some v ∧ k ∈ v ∧ has_pos k q p.

(** [kv'] has the positions of [kv] that [R] leads to *)
Definition moved (kv kv' : kv_cache) (R : Z → Z → Z → Z → Prop) : Prop :=
  ∀ q p, valid_seq kv q → seq_at kv' q p ↔ ∃ q0 p0, valid_seq kv q0 ∧ seq_at kv q0 p0 ∧ R q0 p0 q p.

(** what a function on cells does to the positions *)
Definition cells_move (f : cell → cell) (R : Z → Z → Z → Z → Prop) (v : list cell) : Prop :=
  ∀ k, k ∈ v → ∀ q p, has_pos (f k) q p ↔ ∃ q0 p0, has_pos k q0 p0 ∧ R q0 p0 q p.

Lemma seq_at_from kv kv' f R v t q p : seq_to_stream kv' = seq_to_stream kv → views kv' !! stream_idx kv q = Some (f <$> v) → views kv !! t = Some v →
  (∀ k, k ∈ v → has_pos (f k) q p ↔ ∃ q0 p0, has_pos k q0 p0 ∧ R q0 p0 q p) →
  (∀ q0 p0, R q0 p0 q p → valid_seq kv q0 ∧ stream_idx kv q0 = t) →
  seq_at kv' q p ↔ ∃ q0 p0, valid_seq kv q0 ∧ seq_at kv q0 p0 ∧ R q0 p0 q p.
Proof.
  intros Hmap Hv' Hv Hf Hst. assert (Hidx : stream_idx kv' q = stream_idx kv q) by (unfold stream_idx; by rewrite Hmap). split.
  - intros (w & k' & Hw & Hk' & Hp). rewrite Hidx, Hv' in Hw. injection Hw as <-. apply list_elem_of_fmap in Hk' as (k & -> & Hk). apply (Hf k Hk) in Hp as (q0 & p0 & Hp & HR).
    destruct (Hst q0 p0 HR) as [Hq0 Et]. exists q0, p0. split_and!; [done| |done]. exists v, k. by rewrite Et.
  - intros (q0 & p0 & _ & (w & k & Hw & Hk & Hp) & HR). destruct (Hst q0 p0 HR) as [_ Et]. rewrite Et, Hv in Hw. injection Hw as <-.
    exists (f <$> v), (f k). rewrite Hidx. split_and!; [done|by apply list_elem_of_fmap_2|]. apply (Hf k Hk). by exists q0, p0.
Qed.

(** a sequence of another stream *)
Lemma seq_at_other kv kv' R q p : seq_to_stream kv' = seq_to_stream kv → views kv' !! stream_idx kv q = views kv !! stream_idx kv q → valid_seq kv q →
  (∀ q0 p0, R q0 p0 q p ↔ q0 = q ∧ p0 = p) → seq_at kv' q p ↔ ∃ q0 p0, valid_seq kv q0 ∧ seq_at kv q0 p0 ∧ R q0 p0 q p.
Proof.
  intros Hmap Hv Hq HR. assert (seq_at kv' q p ↔ seq_at kv q p) as -> by (unfold seq_at, stream_idx in *; by rewrite Hmap, Hv). split.
  - intros H. exists q, p. split_and!; [done|done|]. by apply HR.
  - intros (q0 & p0 & _ & H & [-> ->]%HR). done.
Qed.

(** ** The effect of the operations on the positions *)

Definition inside (p0 p1 p : Z) : Prop := (clip_p0 p0 ≤ p < clip_p1 p1)%Z.
#[export] Instance inside_dec p0 p1 p : Decision (inside p0 p1 p).
Proof. unfold inside. apply _. Defined.

Definition rm_rel (s a b : Z) : Z → Z → Z → Z → Prop := λ q0 p0 q p, q0 = q ∧ p0 = p ∧ ¬ ((s = -1 ∨ q = s)%Z ∧ inside a b p).
Definition cp_rel (src dst a b : Z) : Z → Z → Z → Z → Prop := λ q0 p0 q p, p0 = p ∧ (q0 = q ∨ q0 = src ∧ q = dst ∧ inside a b p).
(** the sequences of the stream [s1] are replaced by those of [src] *)
Definition cross_rel (kv : kv_cache) (src dst : Z) : Z → Z → Z → Z → Prop := λ q0 p0 q p,
  p0 = p ∧ if decide (stream_idx kv q = stream_idx kv dst) then q0 = src ∧ q = dst else q0 = q.
Definition keep_rel (kv : kv_cache) (s : Z) : Z → Z → Z → Z → Prop := λ q0 p0 q p, q0 = q ∧ p0 = p ∧ (q = s ∨ stream_idx kv q ≠ stream_idx kv s).
Definition add_rel (s a b d : Z) : Z → Z → Z → Z → Prop := λ q0 p0 q p, q0 = q ∧ if decide (q = s ∧ inside a b p0) then p = (p0 + d)%Z ∧ (0 ≤ p)%Z else p = p0.
Definition div_rel (s a b d : Z) : Z → Z → Z → Z → Prop := λ q0 p0 q p, q0 = q ∧ if decide (q = s ∧ inside a b p0) then p = Z.quot p0 d else p = p0.

(** the cells that are selected hold this sequence only *)
Definition alone (s a b : Z) (k : cell) : Prop := sel s a b k = true → c_seq k = {[s]}.

Lemma in_range_inside a b k : in_range a b k = true ↔ inside a b (c_pos k).
Proof. unfold in_range, inside. by rewrite andb_true_iff, !bool_decide_eq_true. Qed.

Lemma sel_inside s a b k : sel s a b k = true ↔ inside a b (c_pos k) ∧ s ∈ c_seq k.
Proof. by rewrite sel_spec, in_range_inside. Qed.

Lemma cell_seq_rm_has s k q p : has_pos (cell_seq_rm s k) q p ↔ has_pos k q p ∧ q ≠ s.
Proof. unfold cell_seq_rm, has_pos. case_decide as H; cbn; [|set_solver]. split; [set_solver|]. intros [[Hq _] Hne]. set_solver. Qed.

Lemma rm_cell_moves s a b v : s ≠ (-1)%Z → cells_move (rm_cell s a b) (rm_rel s a b) v.
Proof.
  intros Hs k _ q p. unfold rm_cell, rm_rel. destruct (sel s a b k) eqn:E.
  - apply sel_inside in E as [Hi Hin]. rewrite cell_seq_rm_has. split.
    + intros [H Hne]. exists q, p. split_and!; [done|done|done|]. intros [[?|?] _]; done.
    + intros (q0 & p0 & [H1 H2] & -> & -> & Hno). split; [done|]. intros ->. apply Hno. split; [by right|]. by rewrite <- H2.
  - split.
    + intros [H1 H2]. exists q, p. split_and!; [done|done|done|]. intros [[?| ->] Hi]; [done|]. apply not_true_iff_false in E. apply E, sel_inside. by rewrite H2.
    + by intros (q0 & p0 & H & -> & -> & _).
Qed.

Lemma rm_all_cell_moves a b v : cells_move (KvCache.rm_all_cell a b) (rm_rel (-1) a b) v.
Proof.
  intros k _ q p. unfold KvCache.rm_all_cell, rm_rel. destruct (in_range a b k) eqn:E.
  - apply in_range_inside in E. split; [intros [H _]; set_solver|]. intros (q0 & p0 & [H1 H2] & -> & -> & Hno). destruct Hno. split; [by left|]. by rewrite <- H2.
  - split; [|by intros (q0 & p0 & H & -> & -> & _)]. intros [H1 H2]. exists q, p. split_and!; [done|done|done|]. intros [_ Hi]. apply not_true_iff_false in E. apply E, in_range_inside. by rewrite H2.
Qed.

Lemma copy_cell_moves src dst a b v : cells_move (copy_cell src dst a b) (cp_rel src dst a b) v.
Proof.
  intros k _ q p. unfold copy_cell, cp_rel, has_pos. destruct (sel src a b k) eqn:E.
  - apply sel_inside in E as [Hi Hin]. cbn. split.
    + intros [[->%elem_of_singleton|Hq]%elem_of_union H2].
      * exists src, p. split_and!; [done|done|done|]. right. by rewrite <- H2.
      * exists q, p. split_and!; [done|done|done|by left].
    + intros (q0 & p0 & [H1 H2] & -> & [->|(-> & -> & _)]); (split; [set_solver|done]).
  - split.
    + intros [H1 H2]. exists q, p. split_and!; [done|done|done|by left].
    + intros (q0 & p0 & [H1 H2] & -> & [->|(-> & -> & Hi)]); [done|]. apply not_true_iff_false in E. destruct E. apply sel_inside. by rewrite H2.
Qed.

Lemma cross_cell_moves kv src dst (v : list cell) q p : stream_idx kv q = stream_idx kv dst → ∀ k, k ∈ v →
  has_pos (cross_cell src dst k) q p ↔ ∃ q0 p0, has_pos k q0 p0 ∧ cross_rel kv src dst q0 p0 q p.
Proof.
  intros Hq k _. unfold cross_cell, cross_rel, has_pos. case_decide as Hin; cbn.
  - split.
    + intros [->%elem_of_singleton <-]. exists src, (c_pos k). split_and!; [done|done|done|]. by rewrite decide_True.
    + intros (q0 & p0 & [H1 H2] & <- & H). rewrite decide_True in H by done. destruct H as [-> ->]. split; [set_solver|done].
  - split; [set_solver|]. intros (q0 & p0 & [H1 H2] & <- & H). rewrite decide_True in H by done. by destruct H as [-> ->].
Qed.

Lemma keep_cell_moves kv s (v : list cell) q p : stream_idx kv q = stream_idx kv s → ∀ k, k ∈ v →
  has_pos (cell_seq_keep s k) q p ↔ ∃ q0 p0, has_pos k q0 p0 ∧ keep_rel kv s q0 p0 q p.
Proof.
  intros Hst k Hk. unfold cell_seq_keep, keep_rel, has_pos. case_decide as H1; [|case_decide as H2]; cbn.
  - split; [intros [->%elem_of_singleton <-]; exists s, (c_pos k); by split_and!; [| | | |left]|]. intros (q0 & p0 & [A1 A2] & -> & -> & [->|Hne]); [split; [set_solver|done]|]. by rewrite Hst in Hne.
  - split; [set_solver|]. intros (q0 & p0 & [A1 A2] & -> & -> & [->|Hne]); [done|]. by rewrite Hst in Hne.
  - split; [set_solver|]. intros (q0 & p0 & [A1 A2] & _). set_solver.
Qed.

Lemma add_cell_moves s a b d v : (∀ k, k ∈ v → alone s a b k) → cells_move (add_cell s a b d) (add_rel s a b d) v.
Proof.
  intros Hal k Hk q p. unfold add_cell, add_rel, has_pos. destruct (sel s a b k) eqn:E.
  - pose proof (Hal k Hk E) as Hs. apply sel_inside in E as [Hi _]. unfold cell_pos_add. rewrite Hs. case_decide as Hneg; cbn.
    + split; [set_solver|]. intros (q0 & p0 & [->%elem_of_singleton H2] & -> & H). rewrite decide_True in H by (split; [done|by rewrite <- H2]). lia.
    + split.
      * intros [->%elem_of_singleton <-]. exists s, (c_pos k). split; [split; [set_solver|done]|]. split; [done|]. rewrite decide_True by done. lia.
      * intros (q0 & p0 & [->%elem_of_singleton H2] & -> & H). rewrite decide_True in H by (split; [done|by rewrite <- H2]). split; [set_solver|lia].
  - split.
    + intros [H1 H2]. exists q, p. split_and!; [done|done|done|]. rewrite decide_False; [done|]. intros [-> Hi]. apply not_true_iff_false in E. apply E, sel_inside. by rewrite H2.
    + intros (q0 & p0 & [H1 H2] & -> & H). rewrite decide_False in H; [by rewrite H|]. intros [-> Hi]. apply not_true_iff_false in E. apply E, sel_inside. by rewrite H2.
Qed.

Lemma div_cell_moves s a b d v : (∀ k, k ∈ v → alone s a b k) → cells_move (div_cell s a b d) (div_rel s a b d) v.
Proof.
  intros Hal k Hk q p. unfold div_cell, div_rel, has_pos. destruct (sel s a b k) eqn:E.
  - pose proof (Hal k Hk E) as Hs. apply sel_inside in E as [Hi _]. cbn. rewrite Hs. split.
    + intros [->%elem_of_singleton <-]. exists s, (c_pos k). split; [split; [set_solver|done]|]. split; [done|]. by rewrite decide_True by done.
    + intros (q0 & p0 & [->%elem_of_singleton H2] & -> & H). rewrite decide_True in H by (split; [done|by rewrite <- H2]). split; [set_solver|congruence].
  - split.
    + intros [H1 H2]. exists q, p. split_and!; [done|done|done|]. rewrite decide_False; [done|]. intros [-> Hi]. apply not_true_iff_false in E. apply E, sel_inside. by rewrite H2.
    + intros (q0 & p0 & [H1 H2] & -> & H). rewrite decide_False in H; [by rewrite H|]. intros [-> Hi]. apply not_true_iff_false in E. apply E, sel_inside. by rewrite H2.
Qed.

(** *** On a whole cache *)

Definition same_map (kv kv' : kv_cache) : Prop := par kv' = par kv ∧ seq_to_stream kv' = seq_to_stream kv.

Lemma same_map_valid kv kv' q : same_map kv kv' → valid_seq kv' q ↔ valid_seq kv q.
Proof. intros [_ E]. unfold valid_seq. by rewrite E. Qed.

Section moves.
  Variable n : nat.
  Variable kv : kv_cache.
  Hypothesis Hk : kv_ok n kv.

Lemma view_of s : valid_seq kv s → ∃ v, views kv !! stream_idx kv s = Some v.
Proof.
  intros Hs. destruct (stream_of_ok n kv s Hk Hs) as (_ & Hlt & _). apply lookup_lt_is_Some. unfold views. rewrite length_fmap, (ko_cells _ _ Hk). lia.
Qed.

(** the cells of one stream were mapped *)
Lemma stream_moved s f g kv' R : valid_seq kv s → stream_upd kv (stream_idx kv s) (fmap f) g kv' →
  (∀ v q p, views kv !! stream_idx kv s = Some v → stream_idx kv q = stream_idx kv s → ∀ k, k ∈ v → has_pos (f k) q p ↔ ∃ q0 p0, has_pos k q0 p0 ∧ R q0 p0 q p) →
  (∀ q0 p0 q p, valid_seq kv q → stream_idx kv q = stream_idx kv s → R q0 p0 q p → valid_seq kv q0 ∧ stream_idx kv q0 = stream_idx kv s) →
  (∀ q0 p0 q p, stream_idx kv q ≠ stream_idx kv s → R q0 p0 q p ↔ q0 = q ∧ p0 = p) → same_map kv kv' ∧ moved kv kv' R.
Proof.
  intros Hs ((E1 & E2 & _) & Hv & _) Hf Hst Hother. split; [done|]. intros q p Hq. destruct (view_of s Hs) as [v Hvs].
  destruct (decide (stream_idx kv q = stream_idx kv s)) as [Heq|Hne].
  - apply (seq_at_from kv kv' f R v (stream_idx kv s)); [done| |done|by apply Hf|intros; by eapply Hst]. rewrite Hv, Heq, list_lookup_alter_eq, Hvs. done.
  - apply seq_at_other; [done| |done|intros; by apply Hother]. by rewrite Hv, list_lookup_alter_ne by done.
Qed.

Lemma rm_moves s a b : s = (-1)%Z ∨ valid_seq kv s →
  okP (KvCache.seq_rm kv s a b) (λ r, r.2 = true ∧ kv_ok n r.1 ∧ same_map kv r.1 ∧ moved kv r.1 (rm_rel s a b)).
Proof.
  intros Hs. eapply okP_mono; [by apply seq_rm_kv_ok|]. intros [kv' b'] (H1 & H2 & H3). cbn [fst snd] in *. split; [done|split; [done|]]. destruct (decide (0 ≤ s)%Z) as [H0|H0].
  - destruct Hs as [->|Hs]; [lia|]. eapply stream_moved; [done|exact H3|..].
    + intros v q p _ _ k Hk'. apply (rm_cell_moves s a b v); [lia|done].
    + intros q0 p0 q p Hq Hst (-> & _). done.
    + intros q0 p0 q p Hne. unfold rm_rel. split; [tauto|]. intros [-> ->]. split_and!; [done|done|]. intros [[?| ->] _]; [lia|done].
  - destruct Hs as [->|Hs]; [|unfold valid_seq in Hs; lia]. destruct H3 as ((E1 & E2 & _) & Hv & _). split; [done|]. intros q p Hq. destruct (view_of q Hq) as [v Hvq].
    apply (seq_at_from kv kv' (KvCache.rm_all_cell a b) _ v (stream_idx kv q)); [done| |done|intros k Hk'; by apply (rm_all_cell_moves a b v)|].
    + by rewrite Hv, list_lookup_fmap, Hvq.
    + intros q0 p0 (-> & _). done.
Qed.

Lemma keep_moves s : valid_seq kv s → okP (KvCache.seq_keep kv s) (λ kv', kv_ok n kv' ∧ same_map kv kv' ∧ moved kv kv' (keep_rel kv s)).
Proof.
  intros Hs. eapply okP_mono; [by apply seq_keep_kv_ok|]. intros kv' (H2 & H3). split; [done|]. eapply stream_moved; [done|exact H3|..].
  - intros v q p _ Hst k Hk'. by apply (keep_cell_moves kv s v).
  - intros q0 p0 q p Hq Hst (-> & _). done.
  - intros q0 p0 q p Hne. unfold keep_rel. tauto.
Qed.

Lemma add_moves s a b d : valid_seq kv s → kv_n_pos (par kv) = 1 →
  (∀ k, k ∈ default [] (views kv !! stream_idx kv s) → shift_fits s a b d k ∧ alone s a b k) → d ≠ 0%Z → clip_p0 a ≠ clip_p1 b →
  okP (KvCache.seq_add kv s a b d) (λ kv', kv_ok n kv' ∧ same_map kv kv' ∧ moved kv kv' (add_rel s a b d)).
Proof.
  intros Hs Hnp Hfit Hd Hab. eapply okP_mono; [apply (seq_add_kv_ok n kv s a b d); [done|done|done|intros k Hk'; by apply Hfit]|]. intros kv' (H2 & H3).
  split; [done|]. rewrite decide_False in H3 by tauto. eapply stream_moved; [done|exact H3|..].
  - intros v q p Hv _ k Hk'. apply (add_cell_moves s a b d v); [|done]. intros k' Hk2. apply Hfit. by rewrite Hv.
  - intros q0 p0 q p Hq Hst (-> & _). done.
  - intros q0 p0 q p Hne. unfold add_rel. split; [|intros [-> ->]; by rewrite decide_False by (intros [-> _]; done)]. intros (-> & H). by rewrite decide_False in H by (intros [-> _]; done).
Qed.

Lemma div_moves s a b d : valid_seq kv s → kv_n_pos (par kv) = 1 → (0 < d)%Z →
  (∀ k, k ∈ default [] (views kv !! stream_idx kv s) → div_fits s a b d k ∧ alone s a b k) → d ≠ 1%Z → clip_p0 a ≠ clip_p1 b →
  okP (KvCache.seq_div kv s a b d) (λ kv', kv_ok n kv' ∧ same_map kv kv' ∧ moved kv kv' (div_rel s a b d)).
Proof.
  intros Hs Hnp Hd0 Hfit Hd Hab. eapply okP_mono; [apply (seq_div_kv_ok n kv s a b d); [done|done|done|done|intros k Hk'; by apply Hfit]|]. intros kv' (H2 & H3).
  split; [done|]. rewrite decide_False in H3 by tauto. eapply stream_moved; [done|exact H3|..].
  - intros v q p Hv _ k Hk'. apply (div_cell_moves s a b d v); [|done]. intros k' Hk2. apply Hfit. by rewrite Hv.
  - intros q0 p0 q p Hq Hst (-> & _). done.
  - intros q0 p0 q p Hne. unfold div_rel. split; [|intros [-> ->]; by rewrite decide_False by (intros [-> _]; done)]. intros (-> & H). by rewrite decide_False in H by (intros [-> _]; done).
Qed.

Lemma cp_moves src dst a b : valid_seq kv src → valid_seq kv dst → stream_idx kv src = stream_idx kv dst → src ≠ dst →
  (∀ k, k ∈ default [] (views kv !! stream_idx kv src) → no_dst src dst a b k) →
  okP (KvCache.seq_cp kv src dst a b) (λ kv', kv_ok n kv' ∧ same_map kv kv' ∧ moved kv kv' (cp_rel src dst a b)).
Proof.
  intros Hs Hd Heq Hne Hno. eapply okP_mono; [apply (seq_cp_same_ok n kv src dst a b); [done|done|done|done|intros; by apply Hno]|]. intros kv' (H2 & H3).
  split; [done|]. rewrite decide_False in H3 by done. eapply stream_moved; [exact Hs|exact H3|..].
  - intros v q p _ _ k Hk'. by apply (copy_cell_moves src dst a b v).
  - intros q0 p0 q p Hq Hst (_ & [->|(-> & _)]); done.
  - intros q0 p0 q p Hst. unfold cp_rel. split; [|intros [-> ->]; tauto]. intros (-> & [->|(-> & -> & _)]); [done|]. by rewrite Heq in Hst.
Qed.

Lemma cross_moves src dst a b v0 h0 : valid_seq kv src → valid_seq kv dst → stream_idx kv src ≠ stream_idx kv dst → full_bound n a → full_bound n b →
  views kv !! stream_idx kv src = Some v0 → v_heads kv !! stream_idx kv src = Some h0 → (∀ k, k ∈ v0 → crossable src k) →
  okP (KvCache.seq_cp kv src dst a b) (λ kv', kv_ok n kv' ∧ same_map kv kv' ∧ moved kv kv' (cross_rel kv src dst)).
Proof.
  intros Hs Hd Hne Ha Hb Hv0 Hh0 Hcr. eapply okP_mono; [by apply (seq_cp_cross_ok n kv src dst a b v0 h0)|]. intros kv' (H1 & H2 & H3 & H4 & _). split; [done|]. split; [done|].
  intros q p Hq. destruct (view_of dst Hd) as [vd Hvd]. destruct (decide (stream_idx kv q = stream_idx kv dst)) as [Heq|Hqd].
  - apply (seq_at_from kv kv' (cross_cell src dst) _ v0 (stream_idx kv src)); [done| |done|by apply cross_cell_moves|].
    + rewrite H4, Heq, list_lookup_insert_eq; [done|]. by eapply lookup_lt_Some.
    + intros q0 p0 (_ & H). rewrite decide_True in H by done. destruct H as [-> _]. done.
  - apply seq_at_other; [done| |done|].
    + by rewrite H4, list_lookup_insert_ne by done.
    + intros q0 p0. unfold cross_rel. rewrite decide_False by done. tauto.
Qed.

Lemma clear_moves : okP (KvCache.clear kv) (λ kv', kv_ok n kv' ∧ same_map kv kv' ∧ moved kv kv' (λ _ _ _ _, False)).
Proof.
  eapply okP_mono; [by apply clear_kv_ok|]. intros kv' (H1 & (E1 & E2 & _) & Hv & _). split; [done|]. split; [done|]. intros q p Hq. split; [|by intros (? & ? & _ & _ & [])].
  intros (v & k & Hvq & Hk' & [Hin _]). rewrite Hv, list_lookup_fmap in Hvq. destruct (views kv !! _) as [w|]; [|done]. cbn in Hvq. injection Hvq as <-.
  apply elem_of_replicate in Hk' as [-> _]. set_solver.
Qed.
End moves.

(** *** Placing a micro-batch *)

Definition token_at (u : llama_ubatch) (q p : Z) : Prop := ∃ i ids, i < n_tokens u ∧ u_pos u !! i = Some p ∧ u_seq_id u !! i = Some ids ∧ q ∈ ids.

Lemma token_cell_has kv u i k q p : ubatch_fits kv u → i < n_tokens u → has_pos (token_cell u i k) q p ↔ ∃ ids, u_pos u !! i = Some p ∧ u_seq_id u !! i = Some ids ∧ q ∈ ids.
Proof.
  intros Hu Hi. destruct (uf_pos _ _ Hu i Hi) as (p' & Hp & _). destruct (uf_ids _ _ Hu i Hi) as (c & ids & _ & Hids & _). unfold has_pos, token_cell. cbn. rewrite Hp, Hids. cbn.
  rewrite elem_of_list_to_set. split; [intros [H <-]; by exists ids|]. intros (ids' & [= ->] & [= <-] & H). done.
Qed.

Lemma purged_has kv ks t m k q p : has_pos (purged kv ks t m k) q p → has_pos k q p.
Proof.
  unfold purged. generalize (seq 0 m). intros l. revert k. induction l as [|s l IH]; intros k; [done|]. cbn. intros H%IH. revert H. unfold purge_on. case_decide as Hd; [|done].
  intros H. apply (rm_cell_moves (Z.of_nat s) 0 (overwritten ks s + 1) [k]) in H as (q0 & p0 & H & -> & -> & _); [done|lia|left].
Qed.

Lemma slot_stream_in kv u si t : slot_fits kv u si → (∃ s, s < slots kv u ∧ t = slot_stream si s) ∨ (∀ s, s < slots kv u → t ≠ slot_stream si s).
Proof.
  intros Hsf. destruct (decide (t ∈ slot_stream si <$> seq 0 (slots kv u))) as [Hin|Hno].
  - left. apply list_elem_of_fmap in Hin as (s & -> & Hs%elem_of_seq). exists s. split; [lia|done].
  - right. intros s Hs ->. apply Hno, list_elem_of_fmap_2, elem_of_seq. lia.
Qed.

Section apply.
  Variable n : nat.
  Variable kv : kv_cache.
  Variable u : llama_ubatch.
  Variable si : slot_info.
  Hypothesis Hk : kv_ok n kv.
  Hypothesis Hsmall : kv_small kv.
  Hypothesis Hseqs : seqs_valid kv.
  Hypothesis Hu : ubatch_fits kv u.

(** nothing else gets a position *)
Lemma apply_from : slot_fits kv u si → okP (apply_ubatch kv si u) (λ kv', kv_ok n kv' ∧ same_map kv kv' ∧ ∀ q p, seq_at kv' q p → seq_at kv q p ∨ token_at u q p).
Proof.
  intros Hsf. eapply okP_mono; [by apply apply_ubatch_ok|]. intros kv' (H1 & [[E1 [E2 _]] A1 A2 _ _ _]). split; [done|]. split; [done|]. intros q p (v & k & Hv & Hk' & Hp).
  assert (Hidx : stream_idx kv' q = stream_idx kv q) by (unfold stream_idx; by rewrite E2). rewrite Hidx in Hv.
  destruct (slot_stream_in kv u si (stream_idx kv q) Hsf) as [(s & Hs & E)|Hno].
  - rewrite E, A1 in Hv by done. injection Hv as <-. apply list_elem_of_fmap in Hk' as (k1 & -> & Hk1). apply purged_has in Hp. apply list_elem_of_lookup in Hk1 as [j Hj].
    destruct (written_cell kv u si s j k1 Hu Hsf Hs Hj) as [[_ Hold]|[_ (i & k0 & Hi & ->)]].
    + left. destruct (slot_rows _ _ _ _ Hsf Hs) as (_ & _ & Hvs & _). exists (slot_view kv si s), k1. rewrite E. split_and!; [done|by eapply list_elem_of_lookup_2|done].
    + right. apply (token_cell_has kv u i k0 q p Hu Hi) in Hp as (ids & ? & ? & ?). by exists i, ids.
  - rewrite A2 in Hv by done. destruct (views kv !! stream_idx kv q) as [w|] eqn:Hw; [|done]. cbn in Hv. injection Hv as <-. apply list_elem_of_fmap in Hk' as (k1 & -> & Hk1).
    left. exists w, k1. split_and!; [done|done|]. by eapply purged_has.
Qed.

  Hypothesis Hswa : swa_type (par kv) = SWA_NONE.
  Hypothesis Hsl : slot_ok kv u false si (slots kv u).

Lemma token_slot i ids q : i < n_tokens u → u_seq_id u !! i = Some ids → q ∈ ids → ∃ s ii, s < slots kv u ∧ ii < per_slot kv u ∧ i = s * per_slot kv u + ii ∧ slot_stream si s = stream_idx kv q.
Proof.
  intros Hi Hids Hq. pose proof (uf_n _ _ Hu) as Hper. pose proof (uf_split _ _ Hu) as Hn. set (c := per_slot kv u) in *. set (s := i `div` c). set (ii := i `mod` c).
  assert (Hs : s < slots kv u) by (apply Nat.Div0.div_lt_upper_bound; lia). assert (Hii : ii < c) by (apply Nat.mod_upper_bound; lia).
  assert (Ei : i = s * c + ii) by (unfold s, ii; pose proof (Nat.div_mod_eq i c); lia). exists s, ii. split_and!; [done|done|done|].
  destruct (sl_rows _ _ _ _ _ Hsl s Hs) as (q' & l & v & R1 & R2 & _). unfold slot_stream. rewrite R2. cbn. destruct (uf_ids _ _ Hu i Hi) as (m & ids' & _ & Hids' & _ & _ & _ & Hval).
  assert (ids' = ids) as -> by congruence. destruct (decide (1 < n_stream (par kv))) as [Hmany|Hone].
  - destruct (uf_multi _ _ Hu Hmany s ii q' Hs Hii R1) as [H _]. fold c in H. rewrite <- Ei, Hids in H. injection H as ->. apply list_elem_of_singleton in Hq as ->. done.
  - destruct (uf_unq _ _ Hu s Hs) as (q2 & R1' & Hv2). assert (q2 = q') as -> by congruence.
    destruct (stream_of_ok n kv q Hk (Hval q Hq)) as (_ & L1 & _). destruct (stream_of_ok n kv q' Hk Hv2) as (_ & L2 & _). lia.
Qed.

Lemma written_token s ii : s < slots kv u → ii < per_slot kv u → ∃ k, token_cell u (s * per_slot kv u + ii) k ∈ written kv u si s.
Proof.
  intros Hs Hii. pose proof (slot_ok_fits _ _ _ _ Hu Hsl) as Hsf. destruct (slot_rows _ _ _ _ Hsf Hs) as (_ & _ & _ & Hl & Hnd & Hin).
  destruct (lookup_lt_is_Some_2 (slot_row si s) ii) as [j Hj]; [lia|]. destruct (Hin j) as [k0 Hk0]; [by eapply list_elem_of_lookup_2|].
  destruct (write_cells_in (slot_view kv si s) (writes u (s * per_slot kv u) (slot_view kv si s) (slot_row si s)) j) as (k' & Hw & E).
  - rewrite writes_fst. by eapply list_elem_of_lookup_2.
  - by eapply lookup_lt_Some.
  - apply writes_in in Hw as (ii' & Hii' & ->). assert (ii' = ii) as -> by by eapply NoDup_lookup. eexists. unfold written. by eapply list_elem_of_lookup_2.
Qed.

(** nothing is lost, and the tokens get their positions *)
Lemma apply_to : okP (apply_ubatch kv si u) (λ kv', kv_ok n kv' ∧ same_map kv kv' ∧ ∀ q p, valid_seq kv q → seq_at kv q p ∨ token_at u q p → seq_at kv' q p).
Proof.
  pose proof (slot_ok_fits _ _ _ _ Hu Hsl) as Hsf. pose proof (slot_ok_empty _ _ _ _ Hswa Hsl) as Hse.
  eapply okP_mono; [by apply apply_ubatch_ok|]. intros kv' (H1 & Hap). pose proof (applied_empty _ _ _ _ Hsf Hse Hap) as [[E1 [E2 _]] W1 W2 _ _]. split; [done|]. split; [done|].
  intros q p Hq. assert (Hidx : stream_idx kv' q = stream_idx kv q) by (unfold stream_idx; by rewrite E2). intros [(v & k & Hv & Hk' & Hp)|(i & ids & Hi & Hpos & Hids & Hin)].
  - destruct (slot_stream_in kv u si (stream_idx kv q) Hsf) as [(s & Hs & E)|Hno]; [|exists v, k; rewrite Hidx, W2 by done; done].
    exists (written kv u si s), k. rewrite Hidx, E, W1 by done. split_and!; [done| |done]. apply list_elem_of_lookup in Hk' as [j Hj].
    destruct (slot_rows _ _ _ _ Hsf Hs) as (_ & _ & Hvs & _). rewrite E, Hvs in Hv. injection Hv as <-. apply (list_elem_of_lookup_2 _ j). unfold written. rewrite write_cells_other; [done|].
    rewrite writes_fst. intros Hjr. pose proof (Hse s j k Hs Hjr Hj) as Hneg. destruct (stream_of_ok n kv q Hk Hq) as (_ & Hlt & _).
    destruct (stream_lookup _ _ _ Hk Hlt) as (c & h & Hc & _ & Hso & Hvc & _). rewrite E, Hvs in Hvc. injection Hvc as Hvc. rewrite Hvc in Hj.
    destruct Hp as [Hin _]. destruct (cell_ok_pos k q (wf_cell _ (so_wf _ _ _ Hso) _ _ Hj) Hin). lia.
  - destruct (token_slot i ids q Hi Hids Hin) as (s & ii & Hs & Hii & Ei & Est). destruct (written_token s ii Hs Hii) as [k Hw]. rewrite <- Ei in Hw.
    exists (written kv u si s), (token_cell u i k). rewrite Hidx, <- Est, W1 by done. split_and!; [done|done|]. apply (token_cell_has kv u i k q p Hu Hi). by exists ids.
Qed.
End apply.

(** ** The cache of the window holds nothing that the other one does not *)

Record iswa_ok (nb ns : nat) (m : kv_cache_iswa) : Prop := {
  io_base : kv_ok nb (kv_base m);
  io_swa : kv_ok ns (kv_swa m);
  io_map : seq_to_stream (kv_swa m) = seq_to_stream (kv_base m);
  io_sup : ∀ q p, valid_seq (kv_base m) q → seq_at (kv_swa m) q p → seq_at (kv_base m) q p }.

(** the constructor makes such a pair *)
Lemma iswa_new_ok p size_base n_ubatch unified swa_full : let size_swa := iswa_size size_base (n_swa p) (Z.of_nat (kv_n_seq_max p)) n_ubatch unified swa_full in
  1 ≤ kv_n_seq_max p ≤ MAX_SEQ → Z.to_nat size_base mod n_pad p = 0 → Z.to_nat size_swa mod n_pad p = 0 →
  okP (iswa_new p size_base n_ubatch unified swa_full) (iswa_ok (Z.to_nat size_base) (Z.to_nat size_swa)).
Proof.
  cbv zeta. intros Hn Hb Hs. unfold iswa_new.
  assert (∀ swa, 1 ≤ n_stream (iswa_params p unified swa) ∧ (n_stream (iswa_params p unified swa) = 1 ∨ n_stream (iswa_params p unified swa) = kv_n_seq_max p) ∧
    n_stream (iswa_params p unified swa) ≤ MAX_SEQ) as Hst by (intros swa; cbn; destruct unified; lia).
  destruct (Hst false) as (B1 & B2 & B3). destruct (Hst true) as (S1 & S2 & S3). pose proof (kv_new_ok (iswa_params p unified false) _ B1 B2 B3 Hb) as Hkb. pose proof (kv_new_ok (iswa_params p unified true) _ S1 S2 S3 Hs) as Hks.
  destruct (kv_new (iswa_params p unified false) _) as [kb|] eqn:Eb; [|done]. destruct (kv_new (iswa_params p unified true) _) as [ks|] eqn:Es; [|done].
  cbn in *. destruct Hkb as [Hkb _]. destruct Hks as [Hks Hv]. split; cbn; [done|done| |].
  - unfold kv_new in Eb, Es. apply bind_Ok_inv in Eb as (_ & _ & Eb). apply bind_Ok_inv in Eb as (_ & _ & Eb). injection Eb as <-.
    apply bind_Ok_inv in Es as (_ & _ & Es). apply bind_Ok_inv in Es as (_ & _ & Es). by injection Es as <-.
  - intros q pos _ (v & k & Hlk & Hk & Hp). rewrite Hv in Hlk. apply lookup_replicate in Hlk as [-> _]. apply elem_of_replicate in Hk as [-> _]. by destruct Hp.
Qed.

Lemma keep_rel_map a b s : seq_to_stream a = seq_to_stream b → keep_rel a s = keep_rel b s.
Proof. intros E. unfold keep_rel, stream_idx. by rewrite E. Qed.
Lemma cross_rel_map a b src dst : seq_to_stream a = seq_to_stream b → cross_rel a src dst = cross_rel b src dst.
Proof. intros E. unfold cross_rel, stream_idx. by rewrite E. Qed.

(** the micro-batch and the slot that a batch context is at *)
Definition current (cx : kv_context) (u : llama_ubatch) (si : slot_info) : Prop :=
  cx_status cx = STATUS_SUCCESS ∧ cx_sinfos cx !! cx_i_cur cx = Some si ∧ cx_ubatches cx !! cx_i_cur cx = Some u.

Lemma context_apply_at n env kv cx u si (P : kv_cache → Prop) : kv_ok n kv → current cx u si → slot_fits kv u si →
  (Z.of_nat n + Z.of_nat (n_pad (par kv) `max` 256) ≤ 4294967296)%Z →
  okP (apply_ubatch kv si u) (λ kv', kv_ok n kv' ∧ same_map kv kv' ∧ P kv') →
  okP (context_apply env kv cx) (λ r, kv_ok n r.1 ∧ same_map kv r.1 ∧ P r.1).
Proof.
  intros Hk (H1 & H2 & H3) Hsf Hpad Hap. unfold context_apply. rewrite H1. cbn [status_is_fail negb]. rewrite assert_ok, bind_Ok by done.
  rewrite decide_False by (intros E; rewrite E in H3; done). rewrite (vget_ok _ _ _ H2), bind_Ok, (vget_ok _ _ _ H3), bind_Ok.
  eapply okP_bind; [exact Hap|]. intros kv' (Hk' & Hm & HP). eapply okP_bind; [apply (get_n_kv_ok n); [done| |by rewrite (proj1 Hm)]|intros; done].
  intros s t E. rewrite (proj1 Hm). pose proof (lookup_lt_Some _ _ _ E) as Hl. rewrite (sf_strm _ _ _ Hsf) in Hl. destruct (slot_rows _ _ _ _ Hsf Hl) as (E' & _ & Hv & _).
  rewrite E in E'. injection E' as ->. by destruct (view_stream _ _ _ _ Hk Hv).
Qed.

Section iswa.
  Variable nb ns : nat.
  Variable m : kv_cache_iswa.
  Hypothesis Hm : iswa_ok nb ns m.
  Abbreviation kb := (kv_base m).
  Abbreviation ks := (kv_swa m).

Lemma valid_swa q : valid_seq ks q ↔ valid_seq kb q.
Proof. unfold valid_seq. by rewrite (io_map _ _ _ Hm). Qed.
Lemma stream_swa q : stream_idx ks q = stream_idx kb q.
Proof. unfold stream_idx. by rewrite (io_map _ _ _ Hm). Qed.

Lemma iswa_ok_moved b s R : kv_ok nb b → same_map kb b → moved kb b R → kv_ok ns s → same_map ks s → moved ks s R → iswa_ok nb ns (with_caches m b s).
Proof.
  intros H1 [E1 E2] H3 H4 [E3 E4] H6. pose proof (io_map _ _ _ Hm) as Em. split; cbn; [done|done|congruence|]. intros q p Hq Hs. assert (Hqb : valid_seq kb q) by (unfold valid_seq in *; by rewrite <- E2).
  apply H6 in Hs as (q0 & p0 & Hq0 & Hs & HR); [|by apply valid_swa]. apply H3; [done|]. exists q0, p0. apply valid_swa in Hq0. split_and!; [done| |done]. by apply (io_sup _ _ _ Hm).
Qed.

(** an operation on both caches *)
Lemma both_moved (f : kv_cache → res kv_cache) R Rs : R = Rs →
  okP (f kb) (λ b, kv_ok nb b ∧ same_map kb b ∧ moved kb b R) → okP (f ks) (λ s, kv_ok ns s ∧ same_map ks s ∧ moved ks s Rs) →
  okP (b ← f kb; s ← f ks; Ok (with_caches m b s)) (iswa_ok nb ns).
Proof.
  intros <- Hb Hs. eapply okP_bind; [exact Hb|]. intros b (B1 & B2 & B3). eapply okP_bind; [exact Hs|]. intros s (S1 & S2 & S3). cbn. by apply (iswa_ok_moved b s R).
Qed.

Lemma iswa_rm_ok q a b : q = (-1)%Z ∨ valid_seq kb q → okP (iswa_seq_rm m q a b) (λ r, r.2 = true ∧ iswa_ok nb ns r.1).
Proof.
  intros Hq. pose proof Hm as [Hkb Hks _ _]. unfold iswa_seq_rm. eapply okP_bind; [by apply (rm_moves nb kb Hkb)|]. intros rb (B0 & B1 & B2 & B3).
  eapply okP_bind; [apply (rm_moves ns ks Hks); by rewrite valid_swa|]. intros rs (S0 & S1 & S2 & S3). cbn. rewrite B0, S0. split; [done|]. by apply (iswa_ok_moved rb.1 rs.1 (rm_rel q a b)).
Qed.

Lemma iswa_apply_ok env cx cb cs u sb ss : pc_status cx = STATUS_SUCCESS → pc_parts cx = Some (cb, cs) → current cb u sb → current cs u ss →
  swa_type (par kb) = SWA_NONE → kv_small kb → kv_small ks → seqs_valid kb → seqs_valid ks → ubatch_fits kb u → ubatch_fits ks u →
  slot_ok kb u false sb (slots kb u) → slot_fits ks u ss →
  (Z.of_nat nb + Z.of_nat (n_pad (par kb) `max` 256) ≤ 4294967296)%Z → (Z.of_nat ns + Z.of_nat (n_pad (par ks) `max` 256) ≤ 4294967296)%Z →
  okP (ci_apply env m cx) (λ r, r.2 = true ∧ iswa_ok nb ns r.1.1).
Proof.
  intros Hst Hparts Hcb Hcs Hnone Hb1 Hs1 Hb2 Hs2 Hub Hus Hsb Hss Hpb Hps. pose proof Hm as [Hkb Hks Em Hsup]. cbn. unfold pair_apply. rewrite Hst. cbn [status_is_fail negb]. rewrite assert_ok, bind_Ok by done.
  rewrite Hparts. cbn [ci_apply kv_memory_context fst snd].
  pose proof (context_apply_at nb env kb cb u sb _ Hkb Hcb (slot_ok_fits _ _ _ _ Hub Hsb) Hpb (apply_to nb kb u sb Hkb Hb1 Hb2 Hub Hnone Hsb)) as Hb.
  pose proof (context_apply_at ns env ks cs u ss _ Hks Hcs Hss Hps (apply_from ns ks u ss Hks Hs1 Hs2 Hus Hss)) as Hs.
  destruct (context_apply env kb cb) as [[b cb']|]; [|done]. destruct (context_apply env ks cs) as [[s cs']|]; [|done]. rewrite !bind_Ok. cbn [okP fst snd] in *.
  split; [done|]. destruct Hb as (B1 & [B2 B2'] & B3). destruct Hs as (S1 & [S2 S2'] & S3). split; cbn; [done|done|congruence|]. intros q p Hq Hsq.
  assert (Hqb : valid_seq kb q) by (unfold valid_seq in *; by rewrite <- B2'). apply B3; [done|]. destruct (S3 q p Hsq) as [H|H]; [left; by apply Hsup|by right].
Qed.

(** the smallest and the largest position of a sequence in the window *)
Lemma iswa_edge q : valid_seq kb q → okP (iswa_pos_min m q) (λ p, p ≠ (-1)%Z → seq_at ks q p ∧ seq_at kb q p) ∧ okP (iswa_pos_max m q) (λ p, p ≠ (-1)%Z → seq_at ks q p ∧ seq_at kb q p).
Proof.
  intros Hq. pose proof Hm as [Hkb Hks Em Hsup]. assert (Hqs : valid_seq ks q) by by apply valid_swa. destruct (view_of ns ks Hks q Hqs) as [v Hv].
  assert (Hedge : ∀ le p, is_edge le v q p → p ≠ (-1)%Z → seq_at ks q p ∧ seq_at kb q p).
  { intros le p [[? _]|[(k & Hk & Hin & Hpk) _]] Hne; [done|]. assert (seq_at ks q p) as H by (exists v, k; done). split; [done|]. by apply Hsup. }
  destruct (seq_pos_kv_ok ns ks q v Hks Hqs Hv) as [H1 H2]. split; (eapply okP_mono; [first [exact H1|exact H2]|]); intros p He; by eapply Hedge.
Qed.
End iswa.

(** A cache with a sliding window next to one without: whatever position a sequence has in the window, it has it in
    the other cache as well.  The operations keep this and succeed, each under the condition under which neither cache
    runs into an assertion or an overflow: [seq_rm] and [clear] always, [seq_keep] for every valid sequence; [seq_cp]
    inside a stream if no cell in the range has the destination already, and between two streams for the whole range
    (a part of it aborts) if the cells are not shared; [seq_add] and [seq_div] with one position per token (more abort),
    for cells that are not shared and positions that stay in range; and placing a micro-batch that fits, in the slots
    found for it, which evicts and purges cells of the window only.  So the smallest and the largest position that are
    reported, those of the window, are positions of both caches. *)
Theorem iswa_superset nb ns m : iswa_ok nb ns m →
  (∀ q a b, q = (-1)%Z ∨ valid_seq (kv_base m) q → okP (iswa_seq_rm m q a b) (λ r, r.2 = true ∧ iswa_ok nb ns r.1)) ∧
  (∀ src dst a b, valid_seq (kv_base m) src → valid_seq (kv_base m) dst → src ≠ dst → stream_idx (kv_base m) src = stream_idx (kv_base m) dst →
    (∀ kv k, kv = kv_base m ∨ kv = kv_swa m → k ∈ default [] (views kv !! stream_idx kv src) → no_dst src dst a b k) → okP (iswa_seq_cp m src dst a b) (iswa_ok nb ns)) ∧
  (∀ src dst a b, valid_seq (kv_base m) src → valid_seq (kv_base m) dst → stream_idx (kv_base m) src ≠ stream_idx (kv_base m) dst →
    full_bound nb a → full_bound nb b → full_bound ns a → full_bound ns b →
    (∀ kv k, kv = kv_base m ∨ kv = kv_swa m → k ∈ default [] (views kv !! stream_idx kv src) → crossable src k) → okP (iswa_seq_cp m src dst a b) (iswa_ok nb ns)) ∧
  (∀ q, valid_seq (kv_base m) q → okP (iswa_seq_keep m q) (iswa_ok nb ns)) ∧
  (∀ q a b d, valid_seq (kv_base m) q → d ≠ 0%Z → clip_p0 a ≠ clip_p1 b → (∀ kv, kv = kv_base m ∨ kv = kv_swa m → kv_n_pos (par kv) = 1 ∧
      ∀ k, k ∈ default [] (views kv !! stream_idx kv q) → shift_fits q a b d k ∧ alone q a b k) → okP (iswa_seq_add m q a b d) (iswa_ok nb ns)) ∧
  (∀ q a b d, valid_seq (kv_base m) q → (0 < d)%Z → d ≠ 1%Z → clip_p0 a ≠ clip_p1 b → (∀ kv, kv = kv_base m ∨ kv = kv_swa m → kv_n_pos (par kv) = 1 ∧
      ∀ k, k ∈ default [] (views kv !! stream_idx kv q) → div_fits q a b d k ∧ alone q a b k) → okP (iswa_seq_div m q a b d) (iswa_ok nb ns)) ∧
  okP (iswa_clear m) (iswa_ok nb ns) ∧
  (∀ env cx cb cs u sb ss, pc_status cx = STATUS_SUCCESS → pc_parts cx = Some (cb, cs) → current cb u sb → current cs u ss →
    swa_type (par (kv_base m)) = SWA_NONE →
    (∀ kv, kv = kv_base m ∨ kv = kv_swa m → kv_small kv ∧ seqs_valid kv ∧ ubatch_fits kv u) →
    slot_ok (kv_base m) u false sb (slots (kv_base m) u) → slot_fits (kv_swa m) u ss →
    (Z.of_nat nb + Z.of_nat (n_pad (par (kv_base m)) `max` 256) ≤ 4294967296)%Z → (Z.of_nat ns + Z.of_nat (n_pad (par (kv_swa m)) `max` 256) ≤ 4294967296)%Z →
    okP (ci_apply env m cx) (λ r, r.2 = true ∧ iswa_ok nb ns r.1.1)) ∧
  (∀ q, valid_seq (kv_base m) q → okP (iswa_pos_min m q) (λ p, p ≠ (-1)%Z → seq_at (kv_swa m) q p ∧ seq_at (kv_base m) q p) ∧
    okP (iswa_pos_max m q) (λ p, p ≠ (-1)%Z → seq_at (kv_swa m) q p ∧ seq_at (kv_base m) q p)).
Proof.
  intros Hm. pose proof Hm as [Hkb Hks Em _]. pose proof (valid_swa nb ns m Hm) as Hval. pose proof (stream_swa nb ns m Hm) as Hstr.
  split; [intros; by apply iswa_rm_ok|]. split; [|split; [|split; [|split; [|split; [|split; [|split]]]]]].
  - intros src dst a b Hs Hd Hne Heq Hno. apply (both_moved nb ns m Hm (λ kv, KvCache.seq_cp kv src dst a b) (cp_rel src dst a b) _ eq_refl).
    + apply cp_moves; [done..|]. intros k. by apply Hno; left.
    + apply cp_moves; [done|by apply Hval|by apply Hval|by rewrite !Hstr|done|]. intros k. by apply Hno; right.
  - intros src dst a b Hs Hd Hne F1 F2 F3 F4 Hcr. apply (both_moved nb ns m Hm (λ kv, KvCache.seq_cp kv src dst a b) (cross_rel (kv_base m) src dst) (cross_rel (kv_swa m) src dst)); [by apply cross_rel_map| |].
    + destruct (stream_of_ok _ _ _ Hkb Hs) as (_ & Hlt & _). destruct (stream_lookup _ _ _ Hkb Hlt) as (c & h & _ & Hh & _ & Hv & _).
      apply (cross_moves nb (kv_base m) Hkb src dst a b (view c) h); [done..|]. intros k Hk. apply (Hcr (kv_base m)); [by left|]. by rewrite Hv.
    + destruct (stream_of_ok _ _ _ Hks (proj2 (Hval src) Hs)) as (_ & Hlt & _). destruct (stream_lookup _ _ _ Hks Hlt) as (c & h & _ & Hh & _ & Hv & _).
      apply (cross_moves ns (kv_swa m) Hks src dst a b (view c) h); [by apply Hval|by apply Hval|by rewrite !Hstr|done|done|done|done|]. intros k Hk. apply (Hcr (kv_swa m)); [by right|]. by rewrite Hv.
  - intros q Hq. apply (both_moved nb ns m Hm (λ kv, KvCache.seq_keep kv q) (keep_rel (kv_base m) q) (keep_rel (kv_swa m) q)); [by apply keep_rel_map|by apply keep_moves|].
    apply keep_moves; [done|by apply Hval].
  - intros q a b d Hq Hd Hab H. apply (both_moved nb ns m Hm (λ kv, KvCache.seq_add kv q a b d) (add_rel q a b d) _ eq_refl).
    + destruct (H (kv_base m) (or_introl eq_refl)) as [H1 H2]. by apply add_moves.
    + destruct (H (kv_swa m) (or_intror eq_refl)) as [H1 H2]. apply add_moves; [done|by apply Hval|done..].
  - intros q a b d Hq Hd0 Hd Hab H. apply (both_moved nb ns m Hm (λ kv, KvCache.seq_div kv q a b d) (div_rel q a b d) _ eq_refl).
    + destruct (H (kv_base m) (or_introl eq_refl)) as [H1 H2]. by apply div_moves.
    + destruct (H (kv_swa m) (or_intror eq_refl)) as [H1 H2]. apply div_moves; [done|by apply Hval|done..].
  - apply (both_moved nb ns m Hm KvCache.clear (λ _ _ _ _, False) _ eq_refl); by apply clear_moves.
  - intros env cx cb cs u sb ss H1 H2 H3 H4 H5 H6 H7 H8 H9 H10.
    destruct (H6 (kv_base m) (or_introl eq_refl)) as (B1 & B2 & B3). destruct (H6 (kv_swa m) (or_intror eq_refl)) as (S1 & S2 & S3). by apply (iswa_apply_ok nb ns m Hm env cx cb cs u sb ss).
  - intros q Hq. by apply (iswa_edge nb ns m Hm).
Qed.

Definition ex_iswa : kv_cache_iswa := KvCacheIswa ex_kv ex_kv true.

Lemma ex_iswa_ok : iswa_ok 4 4 ex_iswa.
Proof. split; [exact ex_kv_ok|exact ex_kv_ok|done|done]. Qed.

Definition ex_context : kv_context := KvContext STATUS_SUCCESS [KvSlot.ex_slot] [KvSlot.ex_ubatch 0 8] 0 0 false [].
Definition ex_iswa_context : iswa_context := pair_make [KvSlot.ex_ubatch 0 8] ex_context ex_context.

Lemma iswa_superset_witness : okP (iswa_seq_rm ex_iswa 0 2 5) (λ r, r.2 = true ∧ iswa_ok 4 4 r.1) ∧ okP (iswa_seq_keep ex_iswa 0) (iswa_ok 4 4) ∧
  okP (ci_apply (UpdateEnv true true) ex_iswa ex_iswa_context) (λ r, r.2 = true ∧ iswa_ok 4 4 r.1.1).
Proof.
  destruct (iswa_superset 4 4 ex_iswa ex_iswa_ok) as (H1 & _ & _ & H2 & _ & _ & _ & H3 & _). pose proof ex_ready as [_ R2 R3 _ R5 _].
  split; [|split].
  - apply H1. right. by apply ex_valid.
  - apply H2. by apply ex_valid.
  - apply (H3 (UpdateEnv true true) ex_iswa_context ex_context ex_context (KvSlot.ex_ubatch 0 8) KvSlot.ex_slot KvSlot.ex_slot); [done|done|done|done|done| | | |by vm_compute|by vm_compute].
    + intros kv [->| ->]; (split; [exact R2|split; [exact R3|by apply ex_fits_ubatch]]).
    + exact KvSlot.ex_slot_ok.
    + apply (slot_ok_fits _ _ false); [by apply ex_fits_ubatch|exact KvSlot.ex_slot_ok].
Defined.

(** ** The hybrid memories *)

(** what an attention memory promises about removing; [al_at] are the positions that it holds *)
Class RemoveLaw (A : Type) `{!llama_memory_i A} := {
  al_ok : A → Prop;
  al_valid : A → Z → Prop;
  al_at : A → Z → Z → Prop;
  al_rm : ∀ m q a b, al_ok m → al_valid m q → (0 ≤ q)%Z → okP (mi_seq_rm m q a b) (λ r, r.2 = true ∧ al_ok r.1 ∧
    ∀ q' p, al_valid m q' → al_at r.1 q' p ↔ al_at m q' p ∧ ¬ (q' = q ∧ inside a b p)) }.

Lemma moved_rm kv kv' s a b : (0 ≤ s)%Z → moved kv kv' (rm_rel s a b) → ∀ q p, valid_seq kv q → seq_at kv' q p ↔ seq_at kv q p ∧ ¬ (q = s ∧ inside a b p).
Proof.
  intros H0 Hm q p Hq. rewrite (Hm q p Hq). unfold rm_rel. split.
  - intros (q0 & p0 & _ & H & -> & -> & Hno). split; [done|]. intros [-> Hi]. apply Hno. split; [by right|done].
  - intros [H Hno]. exists q, p. split_and!; [done|done|done|done|]. intros [[?|?] ?]; [lia|]. by apply Hno.
Qed.

#[export] Program Instance kv_remove : RemoveLaw kv_cache := {| al_ok := λ kv, ∃ n, kv_ok n kv; al_valid := valid_seq; al_at := seq_at |}.
Next Obligation.
  intros kv q a b [n Hk] Hq H0. eapply okP_mono; [apply (rm_moves n kv Hk q a b); by right|]. intros r (H1 & H2 & _ & H4). split; [done|split; [by exists n|]]. by apply moved_rm.
Qed.

#[export] Program Instance iswa_remove : RemoveLaw kv_cache_iswa := {| al_ok := λ m, ∃ nb ns, iswa_ok nb ns m; al_valid := λ m, valid_seq (kv_base m); al_at := λ m, seq_at (kv_base m) |}.
Next Obligation.
  intros m q a b (nb & ns & Hm) Hq H0. pose proof (iswa_rm_ok nb ns m Hm q a b (or_intror Hq)) as Hok. destruct Hm as [Hkb _ _ _].
  pose proof (rm_moves nb (kv_base m) Hkb q a b (or_intror Hq)) as Hb. cbn [mi_seq_rm iswa_memory]. unfold iswa_seq_rm in *. destruct (KvCache.seq_rm (kv_base m) q a b) as [rb|]; [|done].
  rewrite bind_Ok in Hok |- *. destruct (KvCache.seq_rm (kv_swa m) q a b) as [rs|]; [|done]. rewrite bind_Ok in Hok |- *. cbn in *.
  destruct Hok as [H1 H2]. split; [done|split; [by exists nb, ns|]]. apply moved_rm; [done|apply Hb].
Qed.

Section remove.
  Context {A : Type} `{!llama_memory_i A, !RemoveLaw A}.

(** Removing positions of a sequence from a hybrid memory, with either kind of cache: if the recurrent memory refuses,
    because the removed range ends inside the history of the sequence, nothing has changed in either part; otherwise
    exactly these positions are gone from the cache, and the sequence is gone from the recurrent memory if its last
    position was one of them. *)
Theorem hybrid_seq_rm_correct (m : hybrid A) q a b : al_ok (mem_attn m) → rec_wf (mem_recr m) → al_valid (mem_attn m) (Z.of_nat q) →
  okP (hybrid_seq_rm m (Z.of_nat q) a b) (λ r, al_ok (mem_attn r.1) ∧ rec_wf (mem_recr r.1) ∧
    r.2 = negb (bool_decide (r_size (mem_recr m) ≤ q ∨ hit a b (seq_cell (mem_recr m) q) = true ∧ (0 < norm_p0 a)%Z)) ∧
    if r.2 then
      (∀ q' p, al_valid (mem_attn m) q' → al_at (mem_attn r.1) q' p ↔ al_at (mem_attn m) q' p ∧ ¬ (q' = Z.of_nat q ∧ inside a b p)) ∧
      (∀ q', seq_cell (mem_recr r.1) q' = if decide (q' = q ∧ hit a b (seq_cell (mem_recr m) q) = true) then None else seq_cell (mem_recr m) q')
    else mem_attn r.1 = mem_attn m ∧ ∀ q', seq_cell (mem_recr r.1) q' = seq_cell (mem_recr m) q').
Proof.
  intros Ha Hr Hv. unfold hybrid_seq_rm. cbn [mi_seq_rm rec_memory]. eapply okP_bind; [by apply rec_seq_rm_ok|]. intros [r [|]] (H1 & _ & H2 & H3); cbn [fst snd negb] in *.
  - eapply okP_bind; [apply al_rm; [done|done|lia]|]. intros [a' b'] (A1 & A2 & A3). cbn [fst snd okP] in *. subst b'. cbn. split_and!; [done|done|done|done|].
    intros q'. rewrite H3. by apply decide_ext; naive_solver.
  - cbn. split_and!; [done|done|done|done|]. intros q'. rewrite H3. by rewrite decide_False by naive_solver.
Qed.
End remove.

(** *** Running a batch *)

Section run.
  Context {S : Type} (zero : S) (compute : llama_ubatch → list S → list S).

(** the loop over the micro-batches of a hybrid context: apply, compute (the states of the recurrent layers), next *)
Fixpoint hybrid_decode (k : nat) (env : update_env) (m : hybrid kv_cache) (data : nat → S) (cx : pair_context kv_context rec_context) : res (hybrid kv_cache * (nat → S)) :=
  match k with
  | 0 => Err OutOfFuel
  | Datatypes.S k =>
      r ← hybrid_apply env m cx;
      let '(m, cx, ok) := (r : hybrid kv_cache * pair_context kv_context rec_context * bool) in
      u ← vget (pc_ubatches cx) (pc_i_next cx);
      let h := r_head (mem_recr m) in
      let data := build_rs zero (mem_recr m) data in
      let data := write_states data h (compute u ((λ s, data (h + s)) <$> seq 0 (n_seqs u))) in
      r ← hybrid_next (A := kv_cache) cx;
      if (r : pair_context kv_context rec_context * bool).2 then hybrid_decode k env m data r.1 else Ok (m, data)
  end.

Lemma res_bind_assoc {A B C} (x : res A) (f : A → res B) (g : B → res C) : (x ≫= f) ≫= g = x ≫= (λ a, f a ≫= g).
Proof. by destruct x. Qed.

Lemma context_apply_kept env kv cx r : context_apply env kv cx = Ok r → cx_status r.2 = cx_status cx ∧ cx_ubatches r.2 = cx_ubatches cx ∧ cx_i_cur r.2 = cx_i_cur cx.
Proof.
  unfold context_apply. intros H. apply bind_Ok_inv in H as ([] & _ & H). case_decide as Hu.
  - apply bind_Ok_inv in H as (x & _ & H). by injection H as <-.
  - apply bind_Ok_inv in H as (si & _ & H). apply bind_Ok_inv in H as (u & _ & H). apply bind_Ok_inv in H as (kv' & _ & H). apply bind_Ok_inv in H as (n & _ & H). by injection H as <-.
Qed.

(** both parts run in step *)
Lemma decode_in_step env us : us ≠ [] → ∀ k i attn recr data ca cr ra rr, cx_status ca = STATUS_SUCCESS → cx_ubatches ca = us → cx_i_cur ca = i → rx_status cr = STATUS_SUCCESS → rx_ubatches cr = us → rx_i_next cr = i →
  run_context k env attn ca = Ok ra → rec_decode zero compute k recr data cr = Ok rr →
  hybrid_decode k env (Hybrid attn recr) data (PairContext STATUS_SUCCESS i us (Some (ca, cr))) = Ok (Hybrid ra.1 rr.1, rr.2).
Proof.
  intros Hne. induction k as [|k IH]; intros i attn recr data ca cr ra rr A1 A2 A3 R1 R2 R3 Ha Hr; [done|]. cbn [run_context] in Ha. cbn [rec_decode] in Hr. cbn [hybrid_decode].
  apply bind_Ok_inv in Ha as ([attn' ca'] & Hap & Ha). apply bind_Ok_inv in Hr as ([recr' rb] & Hrp & Hr). apply bind_Ok_inv in Hr as (u & Hu & Hr). cbv zeta in Hr. cbn [fst snd] in *.
  destruct (context_apply_kept _ _ _ _ Hap) as (K1 & K2 & K3). cbn [snd] in *. rewrite A1 in K1. rewrite A2 in K2. rewrite A3 in K3.
  unfold hybrid_apply, pair_apply. cbn [pc_status pc_parts status_is_fail negb mem_attn mem_recr fst snd]. rewrite (assert_ok true), bind_Ok by done.
  cbn [ci_apply kv_memory_context rec_memory_context]. rewrite Hap, !bind_Ok, Hrp, !bind_Ok. cbn [fst snd pc_ubatches pc_i_next mem_recr]. rewrite R2, R3 in Hu. rewrite Hu, bind_Ok. cbv zeta.
  unfold hybrid_next, pair_next. cbn [pc_status pc_parts pc_i_next pc_ubatches ci_next kv_memory_context rec_memory_context].
  unfold context_next in Ha |- *. unfold rec_next in Hr |- *. rewrite K1, K2, K3 in Ha |- *. rewrite R1, R2, R3 in Hr |- *. rewrite (assert_ok (bool_decide (STATUS_SUCCESS = STATUS_SUCCESS))) in Ha, Hr |- * by done.
  cbn in Ha, Hr |- *. destruct (bool_decide (Datatypes.S i < length us)) eqn:Hmore.
  - by apply (IH (Datatypes.S i)).
  - injection Ha as <-. injection Hr as <-. done.
Qed.

  Hypothesis Hcompute : ∀ u l, length (compute u l) = length l.

(** Preparing a hybrid memory for a batch either finds that the cache has no room for it, or the loop over the prepared
    context succeeds: in the end the cache holds every micro-batch in the slot found for it, the recurrent memory is the
    map from sequences to positions and states that computing them one after the other gives. *)
Theorem hybrid_batch_runs n env (m : hybrid kv_cache) data us Ls :
  ready n (mem_attn m) → rec_wf (mem_recr m) → rec_clean zero (mem_recr m) data → us ≠ [] → Forall (ubatch_fits (mem_attn m)) us → batch_fits us Ls → batch_small (r_size (mem_recr m)) Ls →
  (Z.of_nat n + Z.of_nat (n_pad (par (mem_attn m)) `max` 256) ≤ 4294967296)%Z →
  okP (hybrid_prepare m us) (λ p,
    undone n (mem_attn m) (mem_attn p.1) ∧ r_cells (mem_recr p.1) = r_cells (mem_recr m) ∧ r_used (mem_recr p.1) = r_used (mem_recr m) ∧ r_head (mem_recr p.1) = r_head (mem_recr m) ∧
    match p.2 with
    | None => unplaceable (mem_attn m) us
    | Some cx => okP (hybrid_decode (length us) env p.1 data cx) (λ r,
        kv_ok n (mem_attn r.1) ∧ (∃ sis kv', KvSlot.placed (mem_attn m) us sis kv' ∧ same_rest kv' (mem_attn r.1) ∧ v_cells (mem_attn r.1) = v_cells kv') ∧
        rec_wf (mem_recr r.1) ∧ rec_clean zero (mem_recr r.1) r.2 ∧
        ∀ q, rec_view zero (mem_recr r.1) r.2 q = abs_run zero compute (rec_view zero (mem_recr m) data) us Ls q)
    end).
Proof.
  intros Hr Hm Hc Hne Hus Hf Hs Hpad. unfold hybrid_prepare. cbn [ci_prepare rec_memory_context kv_memory_context].
  pose proof (rec_prepare_ok zero compute Hcompute us Ls (mem_recr m) data Hf Hm Hc Hs) as Hrp. destruct (rec_prepare (mem_recr m) us) as [[recr b]|]; [|done]. cbn [okP fst snd] in Hrp.
  destruct Hrp as (-> & E1 & E2 & E3). rewrite !bind_Ok. cbn [fst snd]. rewrite !res_bind_assoc.
  eapply okP_bind; [by apply (prepare_ok n)|]. intros [attn sis] [Hun Hcase]. cbn [fst snd] in *. destruct Hcase as [[-> Hno]|[Hlen (kv' & Hpl & _)]].
  - rewrite decide_True by done. rewrite bind_Ok. cbn. done.
  - rewrite decide_False by (intros ->; destruct us; done). rewrite bind_Ok. cbn [okP fst snd mem_attn mem_recr]. split_and!; [done|done|done|done|].
    destruct Hun as (Hkw & Hsw & Hcw & _). destruct (placed_runs n _ us sis kv' Hr Hus Hpl) as (Hrun & _ & _).
    pose proof (run_context_ok n env _ us sis kv' Hrun Hne Hpad [] [] attn 0 false [] eq_refl Hkw Hsw Hcw) as Ha. cbn [app length] in Ha.
    assert (rec_wf recr) as Hwr by (destruct recr as [h ud nn z cells]; cbn in E1, E2, E3; subst; destruct Hm; by split).
    assert (rec_clean zero recr data ∧ rec_view zero recr data = rec_view zero (mem_recr m) data ∧ r_size recr = r_size (mem_recr m)) as (Hcr & Hvr & Hsr).
    { destruct recr as [h ud nn z cells]. cbn in E1, E2, E3. subst. done. }
    pose proof (rec_decode_ok zero compute Hcompute us Ls Hf (length us) 0 [] recr data Hwr Hcr ltac:(by rewrite Hsr) Hne eq_refl (le_n _)) as Hd. cbn [app] in Hd. rewrite Hvr in Hd.
    destruct (run_context (length us) env attn _) as [ra|] eqn:Ea; [|done]. destruct (rec_decode zero compute (length us) recr data _) as [rr|] eqn:Er; [|done].
    unfold pair_make. cbn [ci_status kv_memory_context rec_memory_context cx_status rx_status status_combine]. rewrite decide_True by (by left).
    rewrite (decode_in_step env us Hne (length us) 0 attn recr data _ _ ra rr); try done. cbn [okP fst snd mem_attn mem_recr] in *.
    destruct Ha as (Ha1 & Ha2 & Ha3). destruct Hd as (Hd1 & Hd2 & Hd3). split_and!; [done|by exists sis, kv'|done|done|done].
Qed.
End run.

(** ** Witnesses *)

(** the cache and the recurrent memory of the examples of both parts *)
Definition ex_hybrid : hybrid kv_cache := Hybrid ex_kv ex_shared.

Lemma hybrid_seq_rm_correct_witness : okP (hybrid_seq_rm ex_hybrid 0 4 (-1)) (λ r,
  r.2 = false ∧ mem_attn r.1 = ex_kv ∧ seq_cell (mem_recr r.1) 0 = seq_cell ex_shared 0).
Proof.
  eapply okP_mono; [apply (hybrid_seq_rm_correct ex_hybrid 0 4 (-1))|].
  - exists 4. exact ex_kv_ok.
  - exact ex_shared_wf.
  - by apply ex_valid.
  - intros [m b] (_ & _ & H1 & H2). cbn [fst snd] in *. assert (b = false) as -> by (rewrite H1; reflexivity). destruct H2 as [H2 H3]. done.
Defined.

Lemma ex_token_fits : rec_fits (KvSlot.ex_ubatch 0 8) [[0]] [8]%Z.
Proof.
  split; try done.
  - intros [|s] ids; intros [= <-]; reflexivity.
  - intros [|s] ids; intros [= <-]; by eexists _, _.
  - intros [|s] p; intros [= <-]; reflexivity.
  - intros p Hp. apply list_elem_of_singleton in Hp as ->. unfold INT32_MAX. lia.
  - cbn. apply NoDup_singleton.
Qed.

Lemma hybrid_batch_runs_witness : okP (hybrid_prepare ex_hybrid [KvSlot.ex_ubatch 0 8]) (λ p,
  match p.2 with
  | None => unplaceable ex_kv [KvSlot.ex_ubatch 0 8]
  | Some cx => okP (hybrid_decode 0%Z ex_compute 1 (UpdateEnv true true) p.1 ex_data cx) (λ r,
      kv_ok 4 (mem_attn r.1) ∧ rec_view 0%Z (mem_recr r.1) r.2 0 = Some (8, 101)%Z ∧ rec_view 0%Z (mem_recr r.1) r.2 2 = Some (5, 100)%Z)
  end).
Proof.
  eapply okP_mono; [apply (hybrid_batch_runs 0%Z ex_compute (λ u l, length_fmap _ l) 4 (UpdateEnv true true) ex_hybrid ex_data [KvSlot.ex_ubatch 0 8] [([[0]], [8]%Z)])|].
  - exact ex_ready.
  - exact ex_shared_wf.
  - exact ex_states_clean.
  - done.
  - apply Forall_singleton. by apply ex_fits_ubatch.
  - constructor; [exact ex_token_fits|constructor].
  - intros L q HL Hq. apply list_elem_of_singleton in HL as ->. apply list_elem_of_singleton in Hq as ->. unfold r_size. cbn. lia.
  - by vm_compute.
  - intros [m cx] (_ & _ & _ & _ & H). cbn [fst snd] in *. destruct cx as [cx|]; [|done]. eapply okP_mono; [exact H|].
    intros r (H1 & _ & _ & _ & H2). split; [done|]. rewrite !H2. split; reflexivity.
Defined.

(** the prepared batch is really run: the cache has room for the token *)
Example hybrid_batch_runs_example :
  (p ← hybrid_prepare ex_hybrid [KvSlot.ex_ubatch 0 8]; match p.2 with None => Ok None | Some cx =>
    r ← hybrid_decode 0%Z ex_compute 1 (UpdateEnv true true) p.1 ex_data cx; Ok (Some (rec_view 0%Z (mem_recr r.1) r.2 0)) end) = Ok (Some (Some (8, 101)%Z)).
Proof. vm_compute. reflexivity. Qed.
