(* ===== verification/Alloc.v ===== *)
(** The allocators of src/ggml/src/ggml-alloc.c that hand out memory: the linear allocator [ggml_tallocr] and
    the dynamic allocator [ggml_dyn_tallocr], which plans the memory of a graph in chunks with lists of free
    blocks.  Sizes and offsets are [size_t] values, with their wrap-around; an array of free blocks with its
    counter is a list that must not outgrow [MAX_FREE_BLOCKS]. *)
From S2P Require Import Prelude.
From Stdlib Require Import Sorting.Sorted.

Definition u64 (z : Z) : Z := (z mod 18446744073709551616)%Z.
Definition i64_of_u64 (z : Z) : Z := if decide (z < 9223372036854775808)%Z then z else (z - 18446744073709551616)%Z.
Definition SIZE_MAX : Z := 18446744073709551615.
Definition INT64_MIN : Z := -9223372036854775808.
Definition MAX_FREE_BLOCKS : nat := 256.
Definition GGML_VBUFFER_MAX_CHUNKS : nat := 16.

(** ** Alignment *)

Definition is_power_of_2 (a : Z) : bool := bool_decide (a ≠ 0 ∧ Z.land a (a - 1) = 0)%Z.

Definition aligned_offset (buffer offset alignment : Z) : res Z :=
  assert_ (is_power_of_2 alignment);;
  let align := (u64 (alignment - u64 (buffer + offset) mod alignment) mod alignment)%Z in
  Ok (u64 (offset + align)).

(** GGML_PAD(x, n) *)
Definition pad_to (x n : Z) : Z := Z.land (u64 (x + n - 1)) (SIZE_MAX - (n - 1)).

(** ** The linear allocator.  [tl_base] and [tl_size] are base address and size of the backend buffer. *)

Record ggml_tallocr := GgmlTallocr { tl_base : Z; tl_size : Z; tl_alignment : Z; tl_offset : Z }.

Definition ggml_tallocr_new (base size align : Z) : res ggml_tallocr :=
  assert_ (is_power_of_2 align);;
  off ← aligned_offset base 0 align;
  Ok (GgmlTallocr base size align off).

(** the address that ggml_backend_tensor_alloc is given, for a tensor of [alloc_size] bytes *)
Definition ggml_tallocr_alloc (t : ggml_tallocr) (alloc_size : Z) : res (ggml_tallocr * Z) :=
  let size := pad_to alloc_size (tl_alignment t) in
  ggml_assert (negb (bool_decide (tl_size t < u64 (tl_offset t + size))%Z));;
  let addr := u64 (tl_base t + tl_offset t) in
  assert_ (bool_decide (addr mod tl_alignment t = 0)%Z);;
  Ok (GgmlTallocr (tl_base t) (tl_size t) (tl_alignment t) (u64 (tl_offset t + size)), addr).

(** ** The dynamic allocator *)

Record buffer_address := BufferAddress { ba_chunk : nat; ba_offset : Z }.
Record free_block := FreeBlock { fb_offset : Z; fb_size : Z }.
Record tallocr_chunk := TallocrChunk { free_blocks : list free_block; max_size : Z }.
Record ggml_dyn_tallocr := DynTallocr { ta_alignment : Z; ta_max_chunk_size : Z; ta_chunks : list tallocr_chunk }.

#[export] Instance buffer_address_eq_dec : EqDecision buffer_address.
Proof. solve_decision. Defined.
#[export] Instance free_block_eq_dec : EqDecision free_block.
Proof. solve_decision. Defined.

Definition fb_end (b : free_block) : Z := u64 (fb_offset b + fb_size b).

Fixpoint insert_pos (blocks : list free_block) (offset : Z) : nat :=
  match blocks with
  | [] => 0
  | b :: blocks => if decide (fb_offset b < offset)%Z then S (insert_pos blocks offset) else 0
  end.

Definition insert_block (blocks : list free_block) (offset size : Z) : res (list free_block) :=
  ggml_assert (bool_decide (length blocks < MAX_FREE_BLOCKS));;
  let i := insert_pos blocks offset in
  Ok (take i blocks ++ FreeBlock offset size :: drop i blocks).

(** the last turn of the loop reads the block after the last one, also if the array is full *)
Definition remove_block (blocks : list free_block) (idx : nat) : res (list free_block) :=
  if decide (idx < length blocks ∧ MAX_FREE_BLOCKS ≤ length blocks) then Err OutOfRange
  else Ok (take idx blocks ++ drop (S idx) blocks).

(** the index of the new chunk is the last one; None is -1 *)
Definition new_chunk (a : ggml_dyn_tallocr) (min_size : Z) : option ggml_dyn_tallocr :=
  let n_chunks := length (ta_chunks a) in
  if decide (GGML_VBUFFER_MAX_CHUNKS ≤ n_chunks) then None else
  let size := if decide (n_chunks = GGML_VBUFFER_MAX_CHUNKS - 1) then (SIZE_MAX / 2)%Z else Z.max min_size (ta_max_chunk_size a) in
  Some (DynTallocr (ta_alignment a) (ta_max_chunk_size a) (ta_chunks a ++ [TallocrChunk [FreeBlock 0 size] 0])).

(** find the best fitting free block besides the last block, within any chunk:
    one block (the result so far and best_fit_size), one chunk, all chunks *)
Definition fit_block (size : Z) (c : nat) (st : option (nat * nat) * Z) (ib : nat * free_block) : option (nat * nat) * Z :=
  if decide (size ≤ fb_size ib.2 ∧ fb_size ib.2 ≤ st.2)%Z then (Some (c, ib.1), fb_size ib.2) else st.

Definition fit_chunk (size : Z) (best : option (nat * nat)) (cc : nat * tallocr_chunk) : option (nat * nat) :=
  let blocks := free_blocks cc.2 in
  (foldl (fit_block size cc.1) (best, SIZE_MAX) (zip (seq 0 (length blocks - 1)) blocks)).1.

Definition fit_holes (a : ggml_dyn_tallocr) (size : Z) : option (nat * nat) :=
  foldl (fit_chunk size) None (zip (seq 0 (length (ta_chunks a))) (ta_chunks a)).

(** no suitable block found, try the last block (this may grow a chunks size) *)
Definition fit_last (size : Z) (st : option (nat * nat) * Z) (cc : nat * tallocr_chunk) : option (nat * nat) * Z :=
  let blocks := free_blocks cc.2 in
  match last blocks with
  | None => st
  | Some block =>
      let reuse_factor := i64_of_u64 (u64 (max_size cc.2 - fb_offset block - size)) in
      let better_reuse := bool_decide (st.2 < 0 ∧ st.2 < reuse_factor)%Z in
      let better_fit := bool_decide (0 ≤ reuse_factor ∧ reuse_factor < st.2)%Z in
      if decide (size ≤ fb_size block)%Z then
        if better_reuse || better_fit then (Some (cc.1, length blocks - 1), reuse_factor) else st
      else st
  end.

Definition fit_ends (a : ggml_dyn_tallocr) (size : Z) : option (nat * nat) :=
  (foldl (fit_last size) (None, INT64_MIN) (zip (seq 0 (length (ta_chunks a))) (ta_chunks a))).1.

(** take [size] bytes from the front of a block *)
Definition carve (a : ggml_dyn_tallocr) (size : Z) (c i : nat) : res (ggml_dyn_tallocr * buffer_address) :=
  ck ← vget (ta_chunks a) c;
  block ← vget (free_blocks ck) i;
  let offset := fb_offset block in
  let block := FreeBlock (u64 (offset + size)) (u64 (fb_size block - size)) in
  blocks ← vset (free_blocks ck) i block;
  blocks ← (if decide (fb_size block = 0)%Z then remove_block blocks i else Ok blocks);
  chunks ← vset (ta_chunks a) c (TallocrChunk blocks (Z.max (max_size ck) (u64 (offset + size))));
  Ok (DynTallocr (ta_alignment a) (ta_max_chunk_size a) chunks, BufferAddress c offset).

Definition ggml_dyn_tallocr_alloc (a : ggml_dyn_tallocr) (size : Z) : res (ggml_dyn_tallocr * buffer_address) :=
  size ← aligned_offset 0 size (ta_alignment a);
  match (match fit_holes a size with None => fit_ends a size | best => best end) with
  | Some (c, i) => carve a size c i
  | None =>
      match new_chunk a size with
      | Some a => carve a size (length (ta_chunks a) - 1) 0
      | None => Err Abort
      end
  end.

(** the blocks after a range was freed *)
Definition free_range (blocks : list free_block) (offset size : Z) : res (list free_block) :=
  match list_find (λ b, fb_end b = offset ∨ u64 (offset + size) = fb_offset b) blocks with
  | None => insert_block blocks offset size
  | Some (i, block) =>
      if decide (fb_end block = offset) then
        let block := FreeBlock (fb_offset block) (u64 (fb_size block + size)) in
        blocks ← vset blocks i block;
        if decide (i + 1 < length blocks) then
          next ← vget blocks (i + 1);
          if decide (fb_end block = fb_offset next) then
            blocks ← vset blocks i (FreeBlock (fb_offset block) (u64 (fb_size block + fb_size next)));
            remove_block blocks (i + 1)
          else Ok blocks
        else Ok blocks
      else
        let block := FreeBlock offset (u64 (fb_size block + size)) in
        blocks ← vset blocks i block;
        if decide (0 < i) then
          prev ← vget blocks (i - 1);
          if decide (fb_end prev = fb_offset block) then
            blocks ← vset blocks (i - 1) (FreeBlock (fb_offset prev) (u64 (fb_size prev + fb_size block)));
            remove_block blocks i
          else Ok blocks
        else Ok blocks
  end.

Definition ggml_dyn_tallocr_free_bytes (a : ggml_dyn_tallocr) (addr : buffer_address) (size : Z) : res ggml_dyn_tallocr :=
  size ← aligned_offset 0 size (ta_alignment a);
  ck ← vget (ta_chunks a) (ba_chunk addr);
  blocks ← free_range (free_blocks ck) (ba_offset addr) size;
  chunks ← vset (ta_chunks a) (ba_chunk addr) (TallocrChunk blocks (max_size ck));
  Ok (DynTallocr (ta_alignment a) (ta_max_chunk_size a) chunks).

Definition ggml_dyn_tallocr_reset (a : ggml_dyn_tallocr) : ggml_dyn_tallocr := DynTallocr (ta_alignment a) (ta_max_chunk_size a) [].

Definition ggml_dyn_tallocr_new (alignment max_buffer_size : Z) : ggml_dyn_tallocr :=
  ggml_dyn_tallocr_reset (DynTallocr alignment (Z.min max_buffer_size (SIZE_MAX / 2)) []).

Definition ggml_dyn_tallocr_max_size (a : ggml_dyn_tallocr) (chunk : nat) : Z :=
  match ta_chunks a !! chunk with Some ck => max_size ck | None => 0%Z end.

(** ** Examples: three blocks, the middle one is freed and used again; the fifth tensor needs a second chunk *)

Definition ex_alloc_run : res (ggml_dyn_tallocr * list buffer_address) :=
  let a := ggml_dyn_tallocr_new 32 1024 in
  '(a, x) ← ggml_dyn_tallocr_alloc a 100;
  '(a, y) ← ggml_dyn_tallocr_alloc a 200;
  '(a, z) ← ggml_dyn_tallocr_alloc a 50;
  a ← ggml_dyn_tallocr_free_bytes a y 200;
  '(a, w) ← ggml_dyn_tallocr_alloc a 64;
  a ← ggml_dyn_tallocr_free_bytes a x 100;
  '(a, v) ← ggml_dyn_tallocr_alloc a 1000;
  Ok (a, [x; y; z; w; v]).

Example ex_alloc_run_ok : ex_alloc_run = Ok
  (DynTallocr 32 1024 [TallocrChunk [FreeBlock 0 128; FreeBlock 192 160; FreeBlock 416 608] 416; TallocrChunk [] 1024],
   [BufferAddress 0 0; BufferAddress 0 128; BufferAddress 0 352; BufferAddress 0 128; BufferAddress 1 0]).
Proof. vm_compute. reflexivity. Qed.

(** ** Machine arithmetic *)

Lemma u64_id z : (0 ≤ z ≤ SIZE_MAX)%Z → u64 z = z.
Proof. unfold u64, SIZE_MAX. intros. apply Z.mod_small. lia. Qed.

Lemma half_le : (SIZE_MAX / 2 ≤ SIZE_MAX)%Z.
Proof. vm_compute. discriminate. Qed.

Lemma i64_of_u64_exact z : (INT64_MIN ≤ z < 9223372036854775808)%Z → i64_of_u64 (u64 z) = z.
Proof.
  unfold i64_of_u64, u64, INT64_MIN. intros Hz. destruct (decide (0 ≤ z)%Z).
  - rewrite Z.mod_small by lia. case_decide; lia.
  - replace (z mod 18446744073709551616)%Z with (z + 18446744073709551616)%Z; [case_decide; lia|].
    apply (Z.mod_unique _ _ (-1)); lia.
Qed.

(** the least multiple of [al] that is not below [n] *)
Definition pad (al n : Z) : Z := (n + (al - n mod al) mod al)%Z.

Lemma pad_spec al n : (0 < al)%Z → (al | pad al n)%Z ∧ (n ≤ pad al n < n + al)%Z.
Proof.
  intros Hal. unfold pad. pose proof (Z.mod_pos_bound n al Hal) as Hn.
  pose proof (Z.mod_pos_bound (al - n mod al) al Hal) as Hm. split; [|lia].
  apply Z.mod_divide; [lia|]. rewrite Z.add_mod_idemp_r, Z.add_sub_assoc, Zminus_mod_idemp_r by lia.
  replace (n + al - n)%Z with al by lia. apply Z_mod_same_full.
Qed.

Lemma pad_id al n : (0 < al)%Z → (al | n)%Z → pad al n = n.
Proof. intros Hal Hn. unfold pad. rewrite (proj2 (Z.mod_divide n al ltac:(lia)) Hn), Z.sub_0_r, Z_mod_same_full. lia. Qed.

Lemma pad_nonneg al n : (0 < al)%Z → (0 ≤ n)%Z → (0 ≤ pad al n)%Z.
Proof. intros Hal Hn. destruct (pad_spec al n Hal). lia. Qed.

Lemma is_power_of_2_pos al : is_power_of_2 al = true → (0 ≤ al)%Z → (0 < al)%Z.
Proof. unfold is_power_of_2. intros H%bool_decide_eq_true_1 ?. lia. Qed.

Lemma aligned_offset_ok buf n al : is_power_of_2 al = true → (0 < al)%Z → (0 ≤ buf)%Z → (0 ≤ n)%Z → (buf + n + al ≤ SIZE_MAX)%Z →
  aligned_offset buf n al = Ok (pad al (buf + n) - buf)%Z.
Proof.
  intros Hp Hal Hb Hn Hmax. unfold aligned_offset. rewrite assert_ok, bind_Ok by done. f_equal.
  pose proof (Z.mod_pos_bound (buf + n) al Hal). unfold SIZE_MAX in Hmax.
  rewrite (u64_id (buf + n)), (u64_id (al - (buf + n) mod al)) by (unfold SIZE_MAX; lia).
  pose proof (Z.mod_pos_bound (al - (buf + n) mod al) al Hal).
  rewrite u64_id by (unfold SIZE_MAX; lia). unfold pad. lia.
Qed.

(** the size of a request, as the dynamic allocator rounds it *)
Lemma aligned_size_ok n al : is_power_of_2 al = true → (0 < al)%Z → (0 ≤ n)%Z → (n + al ≤ SIZE_MAX)%Z → aligned_offset 0 n al = Ok (pad al n).
Proof. intros. rewrite aligned_offset_ok by done. f_equal. rewrite Z.add_0_l. lia. Qed.

(** ** Loops with an index *)

Lemma foldl_enum {S A} (f : S → nat * A → S) (I : nat → S → Prop) (l : list A) (k : nat) (s : S) :
  k ≤ length l → I 0 s → (∀ i x s, i < k → l !! i = Some x → I i s → I (Datatypes.S i) (f s (i, x))) →
  I k (foldl f s (zip (seq 0 k) l)).
Proof.
  intros Hk H0 Hstep.
  enough (∀ m j s, j + m = k → I j s → I k (foldl f s (zip (seq j m) (drop j l)))) as H.
  { specialize (H k 0 s eq_refl H0). by rewrite drop_0 in H. }
  clear s H0. induction m as [|m IH]; intros j s Hj HI; [cbn; by replace k with j by lia|].
  destruct (lookup_lt_is_Some_2 l j ltac:(lia)) as [x Hx]. rewrite (drop_S _ _ _ Hx). cbn.
  apply IH; [lia|]. apply Hstep; [lia|done|done].
Qed.

(** ** What the operations do to a list of free blocks *)

(** [n] bytes at [o], seen from byte [x] *)
Definition ind (o n x : Z) : nat := if decide (o ≤ x < o + n)%Z then 1 else 0.

Lemma ind_split o n m x : (0 ≤ n)%Z → (0 ≤ m)%Z → ind o (n + m) x = ind o n x + ind (o + n) m x.
Proof. intros. unfold ind. repeat case_decide; lia. Qed.

Lemma ind_empty o x : ind o 0 x = 0.
Proof. unfold ind. case_decide; lia. Qed.

(** the number of free blocks that hold byte [x] *)
Definition free_count (bs : list free_block) (x : Z) : nat := sum_list ((λ b, ind (fb_offset b) (fb_size b) x) <$> bs).

Lemma free_count_app bs bs' x : free_count (bs ++ bs') x = free_count bs x + free_count bs' x.
Proof. unfold free_count. rewrite fmap_app. induction bs; csimpl; lia. Qed.

Lemma free_count_cons b bs x : free_count (b :: bs) x = ind (fb_offset b) (fb_size b) x + free_count bs x.
Proof. done. Qed.

(** a block of a chunk of [cap] bytes, and the offsets of blocks are aligned *)
Definition block_in (al cap : Z) (b : free_block) : Prop :=
  (0 ≤ fb_offset b)%Z ∧ (0 ≤ fb_size b)%Z ∧ (fb_offset b + fb_size b ≤ cap)%Z ∧ (al | fb_offset b)%Z.

Lemma fb_end_ok al cap b : (cap ≤ SIZE_MAX)%Z → block_in al cap b → fb_end b = (fb_offset b + fb_size b)%Z.
Proof. intros ? (?&?&?&?). unfold fb_end. apply u64_id. lia. Qed.

(** [n] bytes at [o] become free: appended to a block, perhaps closing the gap to the next one, put in front of
    a block, or a block of their own *)
Inductive freed (o n : Z) : list free_block → list free_block → Prop :=
  | freed_append pre b post :
      (fb_offset b + fb_size b = o)%Z → (∀ b', head post = Some b' → fb_offset b' ≠ o + n)%Z →
      freed o n (pre ++ b :: post) (pre ++ FreeBlock (fb_offset b) (fb_size b + n) :: post)
  | freed_join pre b b' post :
      (fb_offset b + fb_size b = o)%Z → (fb_offset b' = o + n)%Z →
      freed o n (pre ++ b :: b' :: post) (pre ++ FreeBlock (fb_offset b) (fb_size b + n + fb_size b') :: post)
  | freed_prepend pre b post :
      (fb_offset b = o + n)%Z → (∀ b', b' ∈ pre → fb_offset b' + fb_size b' ≠ o)%Z →
      freed o n (pre ++ b :: post) (pre ++ FreeBlock o (fb_size b + n) :: post)
  | freed_insert pre post :
      (∀ b, b ∈ pre ++ post → fb_offset b + fb_size b ≠ o ∧ fb_offset b ≠ o + n)%Z →
      (∀ b, b ∈ pre → fb_offset b < o)%Z → (∀ b, head post = Some b → o ≤ fb_offset b)%Z →
      freed o n (pre ++ post) (pre ++ FreeBlock o n :: post).

Lemma insert_pos_split bs o : ∃ pre post, bs = pre ++ post ∧ insert_pos bs o = length pre ∧
  (∀ b, b ∈ pre → fb_offset b < o)%Z ∧ (∀ b, head post = Some b → o ≤ fb_offset b)%Z.
Proof.
  induction bs as [|b bs (pre & post & -> & Hi & Hpre & Hpost)]; [exists [], []; repeat split; set_solver|].
  cbn [insert_pos]. destruct (decide (fb_offset b < o)%Z).
  - exists (b :: pre), post. repeat split; [cbn; lia| |done]. intros b' [->|Hb]%elem_of_cons; auto.
  - exists [], (b :: pre ++ post). repeat split; [set_solver|]. intros ? [= <-]. lia.
Qed.

Lemma remove_block_ok pre b post : length (pre ++ b :: post) < MAX_FREE_BLOCKS →
  remove_block (pre ++ b :: post) (length pre) = Ok (pre ++ post).
Proof.
  intros Hl. unfold remove_block. rewrite decide_False by lia. f_equal.
  rewrite take_app_length. f_equal. rewrite (cons_middle b pre post), app_assoc, drop_app_length'; [done|]. rewrite length_app. cbn. lia.
Qed.

Lemma vset_middle {A} (pre : list A) x y post : vset (pre ++ x :: post) (length pre) y = Ok (pre ++ y :: post).
Proof. rewrite vset_ok by (rewrite length_app; cbn; lia). f_equal. rewrite <- (Nat.add_0_r (length pre)). by rewrite insert_app_r. Qed.

Lemma vget_middle {A} (pre : list A) x post : vget (pre ++ x :: post) (length pre) = Ok x.
Proof. apply vget_ok. rewrite lookup_app_r by lia. by rewrite Nat.sub_diag. Qed.

Lemma list_find_split {A} (P : A → Prop) `{∀ x, Decision (P x)} l i x :
  list_find P l = Some (i, x) → ∃ pre post, l = pre ++ x :: post ∧ i = length pre ∧ P x ∧ ∀ y, y ∈ pre → ¬ P y.
Proof.
  intros (Hl & HP & Hb)%list_find_Some. exists (take i l), (drop (S i) l).
  split; [by rewrite take_drop_middle|]. split; [rewrite length_take_le; [done|]; apply lookup_lt_Some in Hl; lia|]. split; [done|].
  intros y [j [Hy Hj]%lookup_take_Some]%list_elem_of_lookup. eauto.
Qed.

Lemma free_range_freed al cap bs o n : (cap ≤ SIZE_MAX)%Z → Forall (block_in al cap) bs → (0 ≤ o)%Z → (0 ≤ n)%Z → (o + n ≤ cap)%Z →
  (∀ b, b ∈ bs → fb_offset b = (o + n)%Z → fb_size b + n ≤ cap)%Z →
  (∀ b b', b ∈ bs → b' ∈ bs → (fb_offset b + fb_size b)%Z = o → fb_offset b' = (o + n)%Z → fb_size b + n + fb_size b' ≤ cap)%Z →
  resP (λ e, (e = Abort ∨ e = OutOfRange) ∧ ¬ length bs < MAX_FREE_BLOCKS) (free_range bs o n) (freed o n bs).
Proof.
  intros Hcap Hin Ho Hn Hon Hfit Hfit2. unfold free_range.
  rewrite (u64_id (o + n)) by lia.
  destruct (list_find _ bs) as [[i b]|] eqn:Hf.
  - apply list_find_split in Hf as (pre & post & -> & -> & HP & Hpre).
    assert (Hb : block_in al cap b) by (rewrite Forall_forall in Hin; apply Hin; set_solver).
    assert (Hend : ∀ b', b' ∈ pre → fb_end b' = (fb_offset b' + fb_size b')%Z).
    { intros b' Hb'. apply (fb_end_ok al cap); [done|]. rewrite Forall_forall in Hin. apply Hin. set_solver. }
    pose proof (fb_end_ok _ _ _ Hcap Hb) as He0. rewrite He0 in HP |- *. clear He0. destruct Hb as (?&?&?&?).
    destruct (decide (fb_offset b + fb_size b = o)%Z) as [He|He].
    + rewrite (u64_id (fb_size b + n)) by lia. rewrite vset_middle, bind_Ok.
      destruct post as [|b' post].
      { rewrite decide_False by (rewrite length_app; cbn; lia). cbn. by apply freed_append. }
      rewrite decide_True by (rewrite length_app; cbn; lia).
      assert (Hb' : block_in al cap b') by (rewrite Forall_forall in Hin; apply Hin; set_solver).
      destruct Hb' as (?&?&?&?).
      rewrite Nat.add_1_r. rewrite (cons_middle (FreeBlock _ _)), app_assoc.
      replace (S (length pre)) with (length (pre ++ [FreeBlock (fb_offset b) (fb_size b + n)])) by (rewrite length_app; cbn; lia).
      rewrite vget_middle, bind_Ok. rewrite (fb_end_ok al cap (FreeBlock _ _)) by (try done; repeat split; cbn; lia || done).
      cbn [fb_offset fb_size].
      destruct (decide (fb_offset b + (fb_size b + n) = fb_offset b')%Z) as [Hj|Hj].
      * rewrite <- app_assoc. cbn [app]. rewrite vset_middle, bind_Ok.
        rewrite (cons_middle (FreeBlock _ _)), app_assoc.
        replace (length (pre ++ [FreeBlock (fb_offset b) (fb_size b + n)])) with
          (length (pre ++ [FreeBlock (fb_offset b) (u64 (fb_size b + n + fb_size b'))])) by (rewrite !length_app; done).
        destruct (decide (length (pre ++ b :: b' :: post) < MAX_FREE_BLOCKS)) as [Hlen|Hlen].
        2: { unfold remove_block. rewrite decide_True by (rewrite !length_app in *; cbn in *; lia). cbn. auto. }
        rewrite remove_block_ok by (rewrite !length_app in *; cbn in *; lia). cbn.
        rewrite u64_id; [|split; [lia|]]; [|specialize (Hfit2 b b' ltac:(set_solver) ltac:(set_solver) He ltac:(lia)); lia].
        rewrite <- app_assoc. apply freed_join; lia.
      * cbn. rewrite <- app_assoc. apply freed_append; [done|]. intros ? [= <-]. lia.
    + destruct HP as [HP|HP]; [done|]. rewrite (u64_id (fb_size b + n)) by (specialize (Hfit b ltac:(set_solver) ltac:(lia)); lia).
      rewrite vset_middle, bind_Ok. cbn [fb_offset fb_size].
      assert (Hpre' : ∀ b', b' ∈ pre → (fb_offset b' + fb_size b' ≠ o)%Z).
      { intros b' Hb'. rewrite <- Hend by done. intros ?. apply (Hpre b' Hb'). by left. }
      destruct (decide (0 < length pre)) as [Hp|Hp]; [|cbn; by apply freed_prepend].
      destruct (exists_last (l := pre) ltac:(intros ->; cbn in Hp; lia)) as (pre' & p & ->).
      rewrite (length_app pre' [p]), Nat.add_sub. rewrite <- (app_assoc pre' [p] (FreeBlock _ _ :: post)). cbn [app]. rewrite vget_middle, bind_Ok.
      rewrite decide_False by (rewrite Hend by set_solver; apply Hpre'; set_solver).
      cbn. rewrite (cons_middle p pre' (FreeBlock _ _ :: post)), (app_assoc pre' [p]). by apply freed_prepend.
  - unfold insert_block. destruct (decide (length bs < MAX_FREE_BLOCKS)) as [Hlen|Hlen]; [|rewrite bool_decide_false by done; cbn; auto].
    rewrite ggml_assert_ok, bind_Ok by (by apply bool_decide_eq_true_2). cbn.
    destruct (insert_pos_split bs o) as (pre & post & -> & -> & Hpre & Hpost).
    rewrite take_app_length, drop_app_length. apply freed_insert; [|done|done].
    intros b Hb. rewrite list_find_None, Forall_forall in Hf. specialize (Hf b Hb). rewrite Forall_forall in Hin.
    rewrite (fb_end_ok _ _ _ Hcap (Hin b Hb)) in Hf. naive_solver.
Qed.

(** ** The effect on the free bytes *)

Lemma freed_count o n bs bs' x : (0 ≤ n)%Z → (∀ b, b ∈ bs → (0 ≤ fb_size b)%Z) → freed o n bs bs' →
  free_count bs' x = free_count bs x + ind o n x.
Proof.
  intros Hn Hs H. destruct H as [pre b post He _|pre b b' post He Hb'|pre b post He _|pre post _ _ _];
    rewrite !free_count_app, !free_count_cons; cbn [fb_offset fb_size]; [| | |lia].
  - specialize (Hs b ltac:(set_solver)). rewrite ind_split, He by lia. lia.
  - pose proof (Hs b ltac:(set_solver)). pose proof (Hs b' ltac:(set_solver)).
    rewrite ind_split, ind_split, Z.add_assoc, He, <- Hb' by lia. lia.
  - specialize (Hs b ltac:(set_solver)). rewrite Z.add_comm, ind_split, <- He by lia. lia.
Qed.

Lemma freed_in al cap o n bs bs' : Forall (block_in al cap) bs → (0 ≤ o)%Z → (0 ≤ n)%Z → (o + n ≤ cap)%Z → (al | o)%Z →
  freed o n bs bs' → Forall (block_in al cap) bs'.
Proof.
  intros Hin Ho Hn Hon Hal H.
  destruct H as [pre b post He _|pre b b' post He Hb'|pre b post He _|pre post _ _ _];
    rewrite ?Forall_app, ?Forall_cons in *; unfold block_in in *; cbn [fb_offset fb_size];
    repeat match goal with H : _ ∧ _ |- _ => destruct H end; repeat (split; try done; try lia).
Qed.

Lemma freed_length o n bs bs' : freed o n bs bs' → length bs' ≤ S (length bs).
Proof. intros []; rewrite !length_app; cbn; lia. Qed.

(** ** The invariant of an allocator that handed out the regions [live] *)

Record region := Region { rg_chunk : nat; rg_off : Z; rg_size : Z }.

#[export] Instance region_eq_dec : EqDecision region.
Proof. solve_decision. Defined.

Definition region_at (r : region) (c : nat) (x : Z) : Prop := rg_chunk r = c ∧ (rg_off r ≤ x < rg_off r + rg_size r)%Z.
Definition overlap (r r' : region) : Prop := ∃ c x, region_at r c x ∧ region_at r' c x.
Definition region_count (c : nat) (x : Z) (r : region) : nat := if decide (rg_chunk r = c) then ind (rg_off r) (rg_size r) x else 0.
Definition live_count (live : list region) (c : nat) (x : Z) : nat := sum_list (region_count c x <$> live).

(** a region in chunk [c], of which [max] bytes are in use at most *)
Definition region_in (al max : Z) (r : region) : Prop :=
  (0 ≤ rg_off r)%Z ∧ (0 ≤ rg_size r)%Z ∧ (rg_off r + rg_size r ≤ max)%Z ∧ (al | rg_off r)%Z ∧ (al | rg_size r)%Z.

(** every byte of a chunk is in one free block or in one live region; the last chunk that can be opened is endless *)
Record chunk_ok (al : Z) (live : list region) (c : nat) (cap : Z) (ck : tallocr_chunk) : Prop := {
  ck_cap : (0 ≤ max_size ck ≤ cap)%Z ∧ (cap ≤ SIZE_MAX / 2)%Z ∧ (S c = GGML_VBUFFER_MAX_CHUNKS → cap = (SIZE_MAX / 2)%Z);
  ck_blocks : Forall (block_in al cap) (free_blocks ck);
  ck_live : ∀ r, r ∈ live → rg_chunk r = c → region_in al (max_size ck) r;
  ck_part : ∀ x, free_count (free_blocks ck) x + live_count live c x = ind 0 cap x }.

Record dyn_ok (a : ggml_dyn_tallocr) (live : list region) : Prop := {
  dyn_align : is_power_of_2 (ta_alignment a) = true ∧ (0 < ta_alignment a ≤ SIZE_MAX / 2)%Z;
  dyn_max : (0 ≤ ta_max_chunk_size a ≤ SIZE_MAX / 2)%Z;
  dyn_n : length (ta_chunks a) ≤ GGML_VBUFFER_MAX_CHUNKS;
  dyn_chunks : ∀ c ck, ta_chunks a !! c = Some ck → ∃ cap, chunk_ok (ta_alignment a) live c cap ck;
  dyn_live : ∀ r, r ∈ live → rg_chunk r < length (ta_chunks a) }.

#[export] Instance live_count_proper : Proper ((≡ₚ) ==> eq ==> eq ==> eq) live_count.
Proof.
  intros l l' H c ? <- x ? <-. unfold live_count. induction H as [|r l l' _ IH|r r' l|l l' l'' _ IH _ IH']; csimpl; lia.
Qed.

#[export] Instance chunk_ok_proper al : Proper ((≡ₚ) ==> eq ==> eq ==> eq ==> iff) (chunk_ok al).
Proof.
  assert (Himp : ∀ l l' c cap ck, l ≡ₚ l' → chunk_ok al l c cap ck → chunk_ok al l' c cap ck).
  { intros l l' c cap ck Hl [H1 H2 H3 H4]. split; [done|done| |].
    - intros r Hr. apply H3. by rewrite Hl.
    - intros x. rewrite <- (H4 x). by rewrite Hl. }
  intros l l' H c ? <- cap ? <- ck ? <-. split; apply Himp; done.
Qed.

(** the order of the live regions does not matter *)
#[export] Instance dyn_ok_proper : Proper (eq ==> (≡ₚ) ==> iff) dyn_ok.
Proof.
  assert (Himp : ∀ a l l', l ≡ₚ l' → dyn_ok a l → dyn_ok a l').
  { intros a l l' Hl [H1 H2 H3 H4 H5]. split; [done|done|done| |].
    - intros c ck Hc. destruct (H4 c ck Hc) as [cap Hok]. exists cap. by rewrite <- Hl.
    - intros r Hr. apply H5. by rewrite Hl. }
  intros a ? <- l l' H. split; apply Himp; done.
Qed.

Lemma region_count_at r c x : region_at r c x ↔ region_count c x r = 1.
Proof. unfold region_at, region_count, ind. repeat case_decide; naive_solver. Qed.

Lemma live_count_cons r live c x : live_count (r :: live) c x = region_count c x r + live_count live c x.
Proof. done. Qed.

Lemma live_count_app l l' c x : live_count (l ++ l') c x = live_count l c x + live_count l' c x.
Proof. unfold live_count. rewrite fmap_app. induction l; csimpl; lia. Qed.

Lemma live_count_at r live c x : r ∈ live → region_at r c x → 1 ≤ live_count live c x.
Proof.
  intros (l1 & l2 & ->)%list_elem_of_split Hr%region_count_at. rewrite live_count_app, live_count_cons. lia.
Qed.

Lemma ind_le o n x : ind o n x ≤ 1.
Proof. unfold ind. case_decide; lia. Qed.

(** two live regions share no byte *)
Lemma dyn_ok_disjoint a r live : dyn_ok a (r :: live) → ∀ r', r' ∈ live → ¬ overlap r r'.
Proof.
  intros Hok r' Hr' (c & x & H1 & H2). pose proof (dyn_live _ _ Hok r ltac:(left)) as Hc.
  destruct (lookup_lt_is_Some_2 _ _ Hc) as [ck Hck]. rewrite (proj1 H1) in Hck.
  destruct (dyn_chunks _ _ Hok _ _ Hck) as [cap [_ _ _ Hpart]]. specialize (Hpart x).
  rewrite live_count_cons in Hpart. apply region_count_at in H1. pose proof (live_count_at _ _ _ _ Hr' H2).
  pose proof (ind_le 0 cap x). lia.
Qed.

(** ** One chunk changes *)

Definition with_chunks (a : ggml_dyn_tallocr) (chunks : list tallocr_chunk) : ggml_dyn_tallocr :=
  DynTallocr (ta_alignment a) (ta_max_chunk_size a) chunks.

Lemma live_count_other rs c c' x : c' ≠ c → (∀ r, r ∈ rs → rg_chunk r = c) → live_count rs c' x = 0.
Proof.
  intros Hne Hrs. apply sum_list_zero. intros r Hr. unfold region_count. rewrite (Hrs r Hr). by rewrite decide_False.
Qed.

Lemma chunk_ok_other al rs rs' l c c' cap ck : c' ≠ c → (∀ r, r ∈ rs → rg_chunk r = c) → (∀ r, r ∈ rs' → rg_chunk r = c) →
  chunk_ok al (rs ++ l) c' cap ck → chunk_ok al (rs' ++ l) c' cap ck.
Proof.
  intros Hne Hrs Hrs' [H1 H2 H3 H4]. split; [done|done| |].
  - intros r [Hr|Hr]%elem_of_app Hc; [rewrite (Hrs' r Hr) in Hc; congruence|]. apply H3; [apply elem_of_app; by right|done].
  - intros x. rewrite <- (H4 x), !live_count_app. rewrite (live_count_other rs c c' x), (live_count_other rs' c c' x) by done. done.
Qed.

Lemma dyn_ok_update a rs rs' l c ck ck' : dyn_ok a (rs ++ l) → ta_chunks a !! c = Some ck →
  (∀ r, r ∈ rs → rg_chunk r = c) → (∀ r, r ∈ rs' → rg_chunk r = c) →
  (∀ cap, chunk_ok (ta_alignment a) (rs ++ l) c cap ck → chunk_ok (ta_alignment a) (rs' ++ l) c cap ck') →
  dyn_ok (with_chunks a (<[c := ck']> (ta_chunks a))) (rs' ++ l).
Proof.
  intros [H1 H2 H3 H4 H5] Hc Hrs Hrs' Hck. split; cbn [with_chunks ta_alignment ta_max_chunk_size ta_chunks];
    [done|done|by rewrite length_insert| |].
  - intros c' ck0 Hc'. destruct (decide (c' = c)) as [->|Hne].
    + rewrite list_lookup_insert_eq in Hc' by (by eapply lookup_lt_Some). injection Hc' as <-.
      destruct (H4 _ _ Hc) as [cap Hcap]. exists cap. by apply Hck.
    + rewrite list_lookup_insert_ne in Hc' by done. destruct (H4 _ _ Hc') as [cap Hcap]. exists cap.
      by eapply (chunk_ok_other _ rs rs' l c c').
  - intros r [Hr|Hr]%elem_of_app; rewrite length_insert.
    + rewrite (Hrs' r Hr). by eapply lookup_lt_Some.
    + apply H5, elem_of_app. by right.
Qed.

(** ** Which block is chosen *)

Definition fits (a : ggml_dyn_tallocr) (n : Z) (c i : nat) : Prop :=
  ∃ ck b, ta_chunks a !! c = Some ck ∧ free_blocks ck !! i = Some b ∧ (n ≤ fb_size b)%Z.

(** a block that is not the last one of its chunk *)
Definition hole (a : ggml_dyn_tallocr) (c i : nat) : Prop :=
  ∃ ck, ta_chunks a !! c = Some ck ∧ i + 1 < length (free_blocks ck).

Definition end_of (a : ggml_dyn_tallocr) (c i : nat) : Prop :=
  ∃ ck, ta_chunks a !! c = Some ck ∧ i + 1 = length (free_blocks ck).

(** the best fit among the first [j] blocks of one chunk, where [best] is what was found before *)
Definition best_in (n : Z) (c : nat) (best : option (nat * nat)) (blocks : list free_block) (j : nat) (st : option (nat * nat) * Z) : Prop :=
  (st = (best, SIZE_MAX) ∧ ∀ i b, i < j → blocks !! i = Some b → ¬ (n ≤ fb_size b)%Z) ∨
  (∃ i b, st = (Some (c, i), fb_size b) ∧ i < j ∧ blocks !! i = Some b ∧ (n ≤ fb_size b)%Z ∧
     ∀ i' b', i' < j → blocks !! i' = Some b' → (n ≤ fb_size b')%Z → (fb_size b ≤ fb_size b')%Z).

Lemma fit_chunk_spec n c best ck : (∀ b, b ∈ free_blocks ck → (fb_size b ≤ SIZE_MAX)%Z) →
  ∃ st, fit_chunk n best (c, ck) = st.1 ∧ best_in n c best (free_blocks ck) (length (free_blocks ck) - 1) st.
Proof.
  intros Hs. unfold fit_chunk. cbn [fst snd]. eexists. split; [reflexivity|].
  apply (foldl_enum _ (best_in n c best (free_blocks ck))); [lia|left; split; [done|lia]|].
  intros i b st Hi Hb Hbest. unfold fit_block. cbn [fst snd].
  pose proof (Hs b ltac:(by eapply list_elem_of_lookup_2)) as Hsb. destruct Hbest as [[-> Hno]|(i0 & b0 & -> & Hi0 & Hb0 & Hn0 & Hmin)]; cbn [fst snd].
  - destruct (decide (n ≤ fb_size b ∧ fb_size b ≤ SIZE_MAX)%Z) as [[Hn _]|Hn].
    + right. exists i, b. repeat split; [lia|done|done|]. intros i' b' Hi' Hb' Hn'.
      destruct (decide (i' = i)) as [->|]; [simplify_eq; lia|]. destruct (Hno i' b' ltac:(lia) Hb' Hn').
    + left. split; [done|]. intros i' b' Hi' Hb'. destruct (decide (i' = i)) as [->|]; [simplify_eq; lia|]. apply (Hno i'); [lia|done].
  - right. destruct (decide (n ≤ fb_size b ∧ fb_size b ≤ fb_size b0)%Z) as [[Hn Hle]|Hn].
    + exists i, b. repeat split; [lia|done|done|]. intros i' b' Hi' Hb' Hn'.
      destruct (decide (i' = i)) as [->|]; [simplify_eq; lia|]. specialize (Hmin i' b' ltac:(lia) Hb' Hn'). lia.
    + exists i0, b0. repeat split; [lia|done|done|]. intros i' b' Hi' Hb' Hn'.
      destruct (decide (i' = i)) as [->|]; [simplify_eq; lia|]. apply (Hmin i'); [lia|done|done].
Qed.

(** the blocks have the sizes of blocks in memory *)
Definition sizes_ok (a : ggml_dyn_tallocr) : Prop :=
  ∀ ck b, ck ∈ ta_chunks a → b ∈ free_blocks ck → (0 ≤ fb_size b ≤ SIZE_MAX)%Z.

Lemma fit_holes_spec a n : sizes_ok a →
  match fit_holes a n with
  | None => ∀ c i, hole a c i → ¬ fits a n c i
  | Some (c, i) => hole a c i ∧ fits a n c i ∧
      ∀ ck b b', ta_chunks a !! c = Some ck → free_blocks ck !! i = Some b → b' ∈ removelast (free_blocks ck) →
        (n ≤ fb_size b')%Z → (fb_size b ≤ fb_size b')%Z
  end.
Proof.
  intros Hs. unfold fit_holes.
  pose (I := λ (k : nat) (r : option (nat * nat)), match r with
    | None => ∀ c i, c < k → hole a c i → ¬ fits a n c i
    | Some (c, i) => hole a c i ∧ fits a n c i ∧
        ∀ ck b b', ta_chunks a !! c = Some ck → free_blocks ck !! i = Some b → b' ∈ removelast (free_blocks ck) →
          (n ≤ fb_size b')%Z → (fb_size b ≤ fb_size b')%Z end).
  assert (H : I (length (ta_chunks a)) (foldl (fit_chunk n) None (zip (seq 0 (length (ta_chunks a))) (ta_chunks a)))).
  { apply (foldl_enum _ I); [lia|intros c i; lia|]. intros c ck best Hc Hck HI.
    destruct (fit_chunk_spec n c best ck) as (st & -> & Hb).
    { intros b Hb. apply (Hs ck); [by eapply list_elem_of_lookup_2|done]. }
    destruct Hb as [[-> Hno]|(i & b & -> & Hi & Hb & Hn & Hmin)]; cbn [fst].
    - destruct best as [[c0 i0]|]; [exact HI|]. intros c' i' Hc' Hh. destruct (decide (c' = c)) as [->|]; [|apply (HI c' i'); [lia|done]].
      intros (ck' & b' & Hck' & Hb' & Hn'). destruct Hh as (ck'' & Hck'' & Hi''). simplify_eq. apply (Hno i' b'); [lia|done|done].
    - split; [exists ck; split; [done|lia]|]. split; [by exists ck, b|].
      intros ck' b1 b2 Hck' Hb1 Hb2 Hn2. simplify_eq. apply list_elem_of_lookup in Hb2 as [i2 Hb2].
      rewrite removelast_firstn_len in Hb2. change (firstn ?x ?y) with (take x y) in Hb2. apply lookup_take_Some in Hb2 as [Hb2 Hi2].
      apply (Hmin i2); [lia|done|done]. }
  unfold I in H. destruct (foldl _ _ _) as [[c i]|]; [done|]. intros c i Hh. apply (H c i); [|done].
  destruct Hh as (ck & Hck & _). by eapply lookup_lt_Some.
Qed.

(** by how much the chunk grows if the request is put into its last block *)
Definition growth (n : Z) (ck : tallocr_chunk) (b : free_block) : Z := Z.max 0 (fb_offset b + n - max_size ck).

Lemma last_lookup' {A} (l : list A) x : last l = Some x → l !! (length l - 1) = Some x.
Proof. rewrite last_lookup. by replace (pred (length l)) with (length l - 1) by lia. Qed.

(** the numbers of all chunks are far from the limits of [size_t] and [int64_t] *)
Definition bounds_ok (a : ggml_dyn_tallocr) : Prop := ∀ ck, ck ∈ ta_chunks a → (0 ≤ max_size ck ≤ SIZE_MAX / 2)%Z ∧
  ∀ b, b ∈ free_blocks ck → (0 ≤ fb_offset b ∧ 0 ≤ fb_size b ∧ fb_offset b + fb_size b ≤ SIZE_MAX / 2)%Z.

Lemma fit_ends_spec a n : bounds_ok a → (0 ≤ n)%Z →
  match fit_ends a n with
  | None => ∀ c i, end_of a c i → ¬ fits a n c i
  | Some (c, i) => end_of a c i ∧ fits a n c i ∧
      ∀ ck b c' ck' b', ta_chunks a !! c = Some ck → last (free_blocks ck) = Some b →
        ta_chunks a !! c' = Some ck' → last (free_blocks ck') = Some b' → (n ≤ fb_size b')%Z → (growth n ck b ≤ growth n ck' b')%Z
  end.
Proof.
  intros Hs Hn. unfold fit_ends.
  pose (I := λ (k : nat) (st : option (nat * nat) * Z), match st with
    | (None, z) => z = INT64_MIN ∧ ∀ c i, c < k → end_of a c i → ¬ fits a n c i
    | (Some (c, i), z) => ∃ ck b, ta_chunks a !! c = Some ck ∧ last (free_blocks ck) = Some b ∧ i + 1 = length (free_blocks ck) ∧
        (n ≤ fb_size b)%Z ∧ z = (max_size ck - fb_offset b - n)%Z ∧
        ∀ c' ck' b', c' < k → ta_chunks a !! c' = Some ck' → last (free_blocks ck') = Some b' → (n ≤ fb_size b')%Z →
          (growth n ck b ≤ growth n ck' b')%Z end).
  assert (H : I (length (ta_chunks a)) (foldl (fit_last n) (None, INT64_MIN) (zip (seq 0 (length (ta_chunks a))) (ta_chunks a)))).
  { apply (foldl_enum _ I); [lia|split; [done|lia]|]. intros c ck [best z] Hc Hck HI.
    pose proof (Hs ck ltac:(by eapply list_elem_of_lookup_2)) as [Hmx Hbs].
    unfold fit_last. cbn [fst snd]. destruct (last (free_blocks ck)) as [b|] eqn:Hl.
    2: { apply last_None in Hl. destruct best as [[c0 i0]|].
         - destruct HI as (ck0 & b0 & ?&?&?&?&?&Hmin). exists ck0, b0. split_and!; [done..|].
           intros c' ck' b' Hc' Hck' Hl'. destruct (decide (c' = c)) as [->|]; [simplify_eq; rewrite Hl in Hl'; done|]. apply (Hmin c'); [lia|done|done].
         - destruct HI as [-> HI]. split; [done|]. intros c' i' Hc' He. destruct (decide (c' = c)) as [->|]; [|apply (HI c'); [lia|done]].
           destruct He as (ck' & Hck' & Hi'). simplify_eq. rewrite Hl in Hi'. cbn in Hi'. lia. }
    pose proof (last_lookup' _ _ Hl) as Hlb. pose proof (lookup_lt_Some _ _ _ Hlb) as Hlen.
    pose proof (Hbs b ltac:(by eapply list_elem_of_lookup_2)) as (Hb1 & Hb2 & Hb3).
    destruct (decide (n ≤ fb_size b)%Z) as [Hfit|Hfit].
    2: { destruct best as [[c0 i0]|].
         - destruct HI as (ck0 & b0 & ?&?&?&?&?&Hmin). exists ck0, b0. split_and!; [done..|].
           intros c' ck' b' Hc' Hck' Hl' Hn'. destruct (decide (c' = c)) as [->|]; [by simplify_eq|]. apply (Hmin c'); [lia|done|done|done].
         - destruct HI as [-> HI]. split; [done|]. intros c' i' Hc' He. destruct (decide (c' = c)) as [->|]; [|apply (HI c'); [lia|done]].
           intros (ck' & b' & Hck' & Hb' & Hn'). destruct He as (ck'' & Hck'' & Hi'). simplify_eq.
           replace i' with (length (free_blocks ck) - 1) in Hb' by lia. by simplify_eq. }
    assert (HSM : (SIZE_MAX / 2 = 9223372036854775807)%Z) by reflexivity. rewrite HSM in *.
    assert (Hw : i64_of_u64 (u64 (max_size ck - fb_offset b - n)) = (max_size ck - fb_offset b - n)%Z).
    { apply i64_of_u64_exact. unfold INT64_MIN. lia. }
    rewrite Hw. unfold INT64_MIN in *. set (rf := (max_size ck - fb_offset b - n)%Z) in *.
    destruct (bool_decide (z < 0 ∧ z < rf)%Z || bool_decide (0 ≤ rf ∧ rf < z)%Z) eqn:Hdec.
    + apply orb_true_iff in Hdec. rewrite !bool_decide_eq_true in Hdec.
      exists ck, b. split_and!; [done|done|lia|done|done|]. intros c' ck' b' Hc' Hck' Hl' Hn'.
      destruct (decide (c' = c)) as [->|]; [simplify_eq; lia|].
      destruct best as [[c0 i0]|].
      * destruct HI as (ck0 & b0 & ?&?&?&?&Hz&Hmin). specialize (Hmin c' ck' b' ltac:(lia) Hck' Hl' Hn').
        unfold growth in *. lia.
      * destruct HI as [-> HI]. exfalso. apply (HI c' (length (free_blocks ck') - 1)); [lia| |].
        -- exists ck'. split; [done|]. apply last_lookup', lookup_lt_Some in Hl'. lia.
        -- exists ck', b'. split_and!; [done|by apply last_lookup'|done].
    + apply orb_false_iff in Hdec. rewrite !bool_decide_eq_false in Hdec. destruct best as [[c0 i0]|].
      * destruct HI as (ck0 & b0 & ?&?&?&?&Hz&Hmin). exists ck0, b0. split_and!; [done..|].
        intros c' ck' b' Hc' Hck' Hl' Hn'. destruct (decide (c' = c)) as [->|]; [|apply (Hmin c'); [lia|done|done|done]].
        simplify_eq. unfold growth. lia.
      * destruct HI as [-> HI]. lia. }
  unfold I in H. destruct (foldl _ _ _) as [[[c i]|] z]; cbn [fst].
  - destruct H as (ck & b & Hck & Hl & Hi & Hfit & -> & Hmin). split_and!.
    + by exists ck.
    + exists ck, b. split_and!; [done| |done]. replace i with (length (free_blocks ck) - 1) by lia. by apply last_lookup'.
    + intros ck1 b1 c' ck' b' Hck1 Hb1 Hck' Hl' Hn'. simplify_eq. apply (Hmin c'); [by eapply lookup_lt_Some|done|done|done].
  - destruct H as [_ H]. intros c i He. apply (H c i); [|done]. destruct He as (ck & Hck & _). by eapply lookup_lt_Some.
Qed.

(** ** Allocation *)

(** [n] bytes are taken from the front of block [b] *)
Definition carved (n : Z) (pre : list free_block) (b : free_block) (post : list free_block) : list free_block :=
  pre ++ (if decide (fb_size b = n) then post else FreeBlock (fb_offset b + n) (fb_size b - n) :: post).

Lemma carved_length n pre b post : length (carved n pre b post) ≤ length (pre ++ b :: post).
Proof. unfold carved. rewrite !length_app. case_decide; cbn; lia. Qed.

Definition few_blocks (a : ggml_dyn_tallocr) : Prop := ∀ ck, ck ∈ ta_chunks a → length (free_blocks ck) < MAX_FREE_BLOCKS.

Lemma carve_eq a n c i ck pre b post cap al : ta_chunks a !! c = Some ck → free_blocks ck = pre ++ b :: post → i = length pre →
  block_in al cap b → (cap ≤ SIZE_MAX)%Z → (0 ≤ n ≤ fb_size b)%Z →
  carve a n c i = if decide (length (free_blocks ck) < MAX_FREE_BLOCKS ∨ fb_size b ≠ n) then Ok (with_chunks a (<[c := TallocrChunk (carved n pre b post) (Z.max (max_size ck) (fb_offset b + n))]> (ta_chunks a)),
                      BufferAddress c (fb_offset b)) else Err OutOfRange.
Proof.
  intros Hck Hbl -> (?&?&?&?) Hcap Hn. unfold carve. rewrite (vget_ok _ _ _ Hck), bind_Ok, Hbl, vget_middle, bind_Ok.
  cbn [fb_size fb_offset]. rewrite !u64_id by lia. rewrite vset_middle, bind_Ok.
  unfold carved. destruct (decide (fb_size b = n)) as [He|He].
  - rewrite (decide_True (P := (fb_size b - n = 0)%Z)) by lia. destruct (decide (length (pre ++ b :: post) < MAX_FREE_BLOCKS)) as [Hlen|Hlen].
    + rewrite (decide_True (P := _ ∨ _)) by (by left). rewrite remove_block_ok by (rewrite length_app in *; cbn in *; lia).
      rewrite bind_Ok, vset_ok by (by eapply lookup_lt_Some). done.
    + rewrite (decide_False (P := _ ∨ _)) by tauto. unfold remove_block. rewrite decide_True; [done|]. rewrite length_app in *. cbn in *. lia.
  - rewrite (decide_True (P := _ ∨ _)) by (by right). rewrite (decide_False (P := (fb_size b - n = 0)%Z)) by lia. rewrite bind_Ok, vset_ok by (by eapply lookup_lt_Some). done.
Qed.

Lemma carved_count n pre b post x : (0 ≤ n ≤ fb_size b)%Z →
  free_count (pre ++ b :: post) x = free_count (carved n pre b post) x + ind (fb_offset b) n x.
Proof.
  intros Hn. unfold carved. rewrite !free_count_app, free_count_cons. case_decide as He.
  - rewrite He. lia.
  - rewrite free_count_cons. cbn [fb_offset fb_size]. replace (fb_size b) with (n + (fb_size b - n))%Z at 1 by lia.
    rewrite ind_split by lia. lia.
Qed.

Lemma carved_chunk_ok al live c cap ck pre b post n :
  chunk_ok al live c cap ck → free_blocks ck = pre ++ b :: post → (0 ≤ n ≤ fb_size b)%Z → (al | n)%Z →
  chunk_ok al (Region c (fb_offset b) n :: live) c cap
    (TallocrChunk (carved n pre b post) (Z.max (max_size ck) (fb_offset b + n))).
Proof.
  intros [H1 H2 H3 H4] Hbl Hn Hal. rewrite Hbl in H2. pose proof H2 as H2'. apply Forall_app in H2' as [Hpre [Hb Hpost]%Forall_cons].
  destruct Hb as (?&?&?&?). split; cbn [free_blocks max_size].
  - lia.
  - unfold carved. apply Forall_app. split; [done|]. case_decide; [done|]. apply Forall_cons. split; [|done].
    unfold block_in. cbn [fb_offset fb_size]. split_and!; [lia|lia|lia|]. by apply Z.divide_add_r.
  - intros r [->|Hr]%elem_of_cons Hc.
    + unfold region_in. cbn [rg_off rg_size]. split_and!; [lia|lia|lia|done|done].
    + destruct (H3 r Hr Hc) as (?&?&?&?&?). unfold region_in. split_and!; [lia|lia|lia|done|done].
  - intros x. rewrite <- (H4 x), Hbl, live_count_cons, (carved_count n) by lia. unfold region_count. cbn [rg_chunk rg_off rg_size].
    rewrite (decide_True (P := c = c)) by done. lia.
Qed.

Lemma chunk_ok_bounds al live c cap ck : chunk_ok al live c cap ck →
  (0 ≤ max_size ck ≤ SIZE_MAX / 2)%Z ∧ ∀ b, b ∈ free_blocks ck → (0 ≤ fb_offset b ∧ 0 ≤ fb_size b ∧ fb_offset b + fb_size b ≤ SIZE_MAX / 2)%Z.
Proof.
  intros [H1 H2 _ _]. split; [lia|]. intros b Hb. rewrite Forall_forall in H2. destruct (H2 b Hb) as (?&?&?&?). lia.
Qed.

Lemma dyn_ok_bounds a live : dyn_ok a live → bounds_ok a.
Proof.
  intros Hok ck Hck. apply list_elem_of_lookup in Hck as [c Hc]. destruct (dyn_chunks _ _ Hok _ _ Hc) as [cap Hcap].
  by eapply chunk_ok_bounds.
Qed.

Lemma dyn_ok_sizes a live : dyn_ok a live → sizes_ok a.
Proof.
  intros Hok ck b Hck Hb. destruct (dyn_ok_bounds _ _ Hok ck Hck) as [_ H]. specialize (H b Hb).
  pose proof half_le. lia.
Qed.

(** a block of a chunk is large enough: it is cut; when the array is full, removing an empty block reads behind it *)
Lemma carve_ok a live n c i : dyn_ok a live → fits a n c i → (0 ≤ n)%Z → (ta_alignment a | n)%Z →
  ∃ ck pre b post,
    ta_chunks a !! c = Some ck ∧ free_blocks ck = pre ++ b :: post ∧ i = length pre ∧ (n ≤ fb_size b)%Z ∧
    resP (λ e, e = OutOfRange ∧ ¬ few_blocks a) (carve a n c i) (λ r,
      r = (with_chunks a (<[c := TallocrChunk (carved n pre b post) (Z.max (max_size ck) (fb_offset b + n))]> (ta_chunks a)),
                        BufferAddress c (fb_offset b))) ∧
    dyn_ok (with_chunks a (<[c := TallocrChunk (carved n pre b post) (Z.max (max_size ck) (fb_offset b + n))]> (ta_chunks a)))
      (Region c (fb_offset b) n :: live).
Proof.
  intros Hok (ck & b & Hck & Hb & Hn) H0 Hal. pose proof (dyn_chunks _ _ Hok _ _ Hck) as [cap Hcap].
  exists ck, (take i (free_blocks ck)), b, (drop (S i) (free_blocks ck)).
  assert (Hsplit : free_blocks ck = take i (free_blocks ck) ++ b :: drop (S i) (free_blocks ck)) by (by rewrite take_drop_middle).
  assert (Hi : i = length (take i (free_blocks ck))) by (rewrite length_take_le; [done|]; apply lookup_lt_Some in Hb; lia).
  split_and!; [done|done|done|done| |].
  - destruct Hcap as [H1 H2 _ _]. pose proof half_le.
    erewrite (carve_eq a n c i ck _ b _ cap); [|done|done|done| |lia|lia].
    + case_decide as Hlen; cbn; [done|]. split; [done|]. intros Hfew. apply Hlen. left. apply Hfew. by eapply list_elem_of_lookup_2.
    + rewrite Forall_forall in H2. apply H2. by eapply list_elem_of_lookup_2.
  - apply (dyn_ok_update a [] [Region c (fb_offset b) n] live c ck _ Hok Hck); [set_solver| |].
    + intros r ->%list_elem_of_singleton. done.
    + intros cap' Hcap'. eapply carved_chunk_ok; [exact Hcap'|done|lia|done].
Qed.

(** a new chunk with enough space *)
Lemma new_chunk_ok a live n : dyn_ok a live → length (ta_chunks a) < GGML_VBUFFER_MAX_CHUNKS → (0 ≤ n ≤ SIZE_MAX / 2)%Z →
  ∃ size, (n ≤ size ≤ SIZE_MAX / 2)%Z ∧ (ta_max_chunk_size a ≤ size)%Z ∧
    new_chunk a n = Some (with_chunks a (ta_chunks a ++ [TallocrChunk [FreeBlock 0 size] 0])) ∧
    dyn_ok (with_chunks a (ta_chunks a ++ [TallocrChunk [FreeBlock 0 size] 0])) live.
Proof.
  intros Hok Hlen Hn. unfold new_chunk. rewrite decide_False by lia.
  set (size := if decide _ then _ else _). exists size.
  assert (Hsize : (n ≤ size ≤ SIZE_MAX / 2)%Z ∧ (ta_max_chunk_size a ≤ size)%Z) by (pose proof (dyn_max _ _ Hok); unfold size; case_decide; lia).
  split_and!; [lia|lia|lia|done|]. destruct Hok as [H1 H2 H3 H4 H5]. split; cbn [with_chunks ta_alignment ta_max_chunk_size ta_chunks].
  - done.
  - done.
  - rewrite length_app. cbn. lia.
  - intros c ck [Hc|[Hc Hck]]%lookup_app_Some; [by apply H4|]. apply list_lookup_singleton_Some in Hck as [Hc0 <-].
    exists size. split; cbn [free_blocks max_size].
    + split_and!; [lia|lia|lia|]. intros Hc'. unfold size. rewrite decide_True by (cbn in Hc0; lia). done.
    + apply Forall_singleton. unfold block_in. cbn. split_and!; [lia|lia|lia|apply Z.divide_0_r].
    + intros r Hr Hrc. specialize (H5 r Hr). lia.
    + intros x. replace (live_count live c x) with 0; [unfold free_count; csimpl; lia|]. symmetry. apply sum_list_zero.
      intros r Hr. unfold region_count. rewrite decide_False; [done|]. specialize (H5 r Hr). lia.
  - intros r Hr. rewrite length_app. specialize (H5 r Hr). lia.
Qed.

(** the ways to hand out [p] bytes: a block is cut, or a new chunk *)
Inductive handed_out (a : ggml_dyn_tallocr) (p : Z) : ggml_dyn_tallocr → buffer_address → Prop :=
  | handed_cut c ck pre b post :
      ta_chunks a !! c = Some ck → free_blocks ck = pre ++ b :: post → (p ≤ fb_size b)%Z →
      (post = [] → ∀ c' i', hole a c' i' → ¬ fits a p c' i') →
      handed_out a p
        (with_chunks a (<[c := TallocrChunk (carved p pre b post) (Z.max (max_size ck) (fb_offset b + p))]> (ta_chunks a)))
        (BufferAddress c (fb_offset b))
  | handed_new size :
      (p ≤ size ≤ SIZE_MAX / 2)%Z → (∀ c i, ¬ fits a p c i) → length (ta_chunks a) < GGML_VBUFFER_MAX_CHUNKS → (ta_max_chunk_size a ≤ size)%Z →
      handed_out a p
        (with_chunks a (ta_chunks a ++ [TallocrChunk (carved p [] (FreeBlock 0 size) []) p]))
        (BufferAddress (length (ta_chunks a)) 0).

Definition fresh (p : Z) (addr : buffer_address) : region := Region (ba_chunk addr) (ba_offset addr) p.

Lemma no_fit a p : (∀ c i, hole a c i → ¬ fits a p c i) → (∀ c i, end_of a c i → ¬ fits a p c i) → ∀ c i, ¬ fits a p c i.
Proof.
  intros H1 H2 c i Hf. destruct Hf as (ck & b & Hck & Hb & Hn) eqn:Hf'. pose proof (lookup_lt_Some _ _ _ Hb).
  destruct (decide (i + 1 < length (free_blocks ck))); [apply (H1 c i); [by exists ck|done]|].
  apply (H2 c i); [exists ck; split; [done|lia]|done].
Qed.

(** why a request can fail: an array of free blocks is full, or there is no room *)
Definition alloc_fails (a : ggml_dyn_tallocr) (p : Z) (e : err) : Prop :=
  (e = OutOfRange ∧ ¬ few_blocks a) ∨
  (e = Abort ∧ length (ta_chunks a) = GGML_VBUFFER_MAX_CHUNKS ∧ ∀ c i, ¬ fits a p c i).

Lemma cut_ok a live p c i : dyn_ok a live → (0 ≤ p)%Z → (ta_alignment a | p)%Z → fits a p c i →
  (end_of a c i → ∀ c' i', hole a c' i' → ¬ fits a p c' i') →
  resP (alloc_fails a p) (carve a p c i) (λ '(a', addr), handed_out a p a' addr ∧ dyn_ok a' (fresh p addr :: live)).
Proof.
  intros Hok Hp Hal Hfit Hend. destruct (carve_ok a live p c i Hok Hfit Hp Hal) as (ck & pre & b & post & Hck & Hbl & -> & Hn & Hc & Hok').
  eapply resP_mono; [exact Hc|by left|]. intros r ->.
  split; [|exact Hok']. apply handed_cut; [done..|]. intros ->. apply Hend. exists ck. split; [done|]. rewrite Hbl, length_app. cbn. lia.
Qed.

Lemma new_ok a live p : dyn_ok a live → (0 ≤ p ≤ SIZE_MAX / 2)%Z → (ta_alignment a | p)%Z → (∀ c i, ¬ fits a p c i) →
  length (ta_chunks a) < GGML_VBUFFER_MAX_CHUNKS →
  ∃ a1, new_chunk a p = Some a1 ∧
    resP (alloc_fails a p) (carve a1 p (length (ta_chunks a1) - 1) 0) (λ '(a', addr), handed_out a p a' addr ∧ dyn_ok a' (fresh p addr :: live)).
Proof.
  intros Hok Hp Hal Hno Hlen. destruct (new_chunk_ok a live p Hok Hlen Hp) as (size & Hsize & Hmax & Hnew & Hok1).
  set (a1 := with_chunks _ _) in *. exists a1. split; [done|].
  assert (Hc : length (ta_chunks a1) - 1 = length (ta_chunks a)) by (cbn; rewrite length_app; cbn; lia). rewrite Hc.
  assert (Hck : ta_chunks a1 !! length (ta_chunks a) = Some (TallocrChunk [FreeBlock 0 size] 0)).
  { cbn. rewrite lookup_app_r, Nat.sub_diag by lia. done. }
  destruct (carve_ok a1 live p (length (ta_chunks a)) 0 Hok1) as (ck & pre & b & post & Hck' & Hbl & Hi & Hn & Hcv & Hok'); [|lia|done|].
  - exists (TallocrChunk [FreeBlock 0 size] 0), (FreeBlock 0 size). split_and!; [done|done|cbn; lia].
  - eapply resP_mono; [exact Hcv| |].
    + intros e [-> Hfew]. left. split; [done|]. intros Hf. apply Hfew.
      intros ck' [Hck2| ->%list_elem_of_singleton]%elem_of_app; [by apply Hf|]. cbn. unfold MAX_FREE_BLOCKS. lia.
    + intros r ->. rewrite Hck in Hck'. injection Hck' as <-. cbn in Hbl. destruct pre as [|? [|]]; [|by cbn in Hi..]. injection Hbl as <- <-.
      cbn [fb_offset max_size] in *. split; [|exact Hok']. replace (Z.max 0 (0 + p)) with p by lia. cbn [ta_chunks a1 with_chunks].
      rewrite insert_app_r_alt by lia. rewrite Nat.sub_diag. cbn. by apply (handed_new a p size).
Qed.

Lemma dyn_alloc_any a live n : dyn_ok a live → (0 ≤ n ∧ n + ta_alignment a ≤ SIZE_MAX / 2)%Z →
  let p := pad (ta_alignment a) n in
  resP (alloc_fails a p) (ggml_dyn_tallocr_alloc a n) (λ '(a', addr), handed_out a p a' addr ∧ dyn_ok a' (fresh p addr :: live)).
Proof.
  intros Hok Hn p. destruct (dyn_align _ _ Hok) as [Hp2 Hal]. pose proof half_le as Hh.
  pose proof (pad_spec (ta_alignment a) n ltac:(lia)) as [Hdiv Hpad]. fold p in Hdiv, Hpad.
  unfold ggml_dyn_tallocr_alloc. rewrite aligned_size_ok, bind_Ok by (done || lia). fold p.
  pose proof (fit_holes_spec a p (dyn_ok_sizes _ _ Hok)) as Hholes.
  pose proof (fit_ends_spec a p (dyn_ok_bounds _ _ Hok) ltac:(lia)) as Hends.
  destruct (fit_holes a p) as [[c i]|].
  - destruct Hholes as (Hh1 & Hfit & _). apply cut_ok; [done|lia|done|done|].
    intros (ck & Hck & Hi). destruct Hh1 as (ck' & Hck' & Hi'). simplify_eq. lia.
  - destruct (fit_ends a p) as [[c i]|].
    + destruct Hends as (_ & Hfit & _). apply cut_ok; [done|lia|done|done|]. intros _. exact Hholes.
    + pose proof (no_fit a p Hholes Hends) as Hno. pose proof (dyn_n _ _ Hok).
      destruct (decide (length (ta_chunks a) < GGML_VBUFFER_MAX_CHUNKS)) as [Hlen|Hlen].
      * destruct (new_ok a live p Hok ltac:(lia) Hdiv Hno Hlen) as (a1 & -> & Hc). exact Hc.
      * unfold new_chunk. rewrite decide_True by lia. cbn. right. split_and!; [done|lia|done].
Qed.

Lemma dyn_alloc_ok a live n : dyn_ok a live → few_blocks a → (0 ≤ n ∧ n + ta_alignment a ≤ SIZE_MAX / 2)%Z →
  let p := pad (ta_alignment a) n in
  length (ta_chunks a) < GGML_VBUFFER_MAX_CHUNKS ∨ (∃ c i, fits a p c i) →
  okP (ggml_dyn_tallocr_alloc a n) (λ '(a', addr), handed_out a p a' addr ∧ dyn_ok a' (fresh p addr :: live)).
Proof.
  intros Hok Hfew Hn p Hroom. eapply okP_resP; [by apply dyn_alloc_any|].
  intros e [[_ H]|(_ & Hlen & Hno)]; [done|]. destruct Hroom as [?|(c & i & Hf)]; [lia|by apply (Hno c i)].
Qed.

(** without a block and without a chunk to open, allocation aborts *)
Lemma dyn_alloc_abort a live n : dyn_ok a live → (0 ≤ n ∧ n + ta_alignment a ≤ SIZE_MAX / 2)%Z →
  length (ta_chunks a) = GGML_VBUFFER_MAX_CHUNKS → (∀ c i, ¬ fits a (pad (ta_alignment a) n) c i) →
  ggml_dyn_tallocr_alloc a n = Err Abort.
Proof.
  intros Hok Hn Hlen Hno. destruct (dyn_align _ _ Hok) as [Hp2 Hal]. pose proof half_le as Hh.
  unfold ggml_dyn_tallocr_alloc. rewrite aligned_size_ok, bind_Ok by (done || lia). set (p := pad _ _) in *.
  pose proof (pad_spec (ta_alignment a) n ltac:(lia)) as [Hdiv Hpad]. fold p in Hdiv, Hpad.
  pose proof (fit_holes_spec a p (dyn_ok_sizes _ _ Hok)) as Hholes.
  pose proof (fit_ends_spec a p (dyn_ok_bounds _ _ Hok) ltac:(lia)) as Hends.
  destruct (fit_holes a p) as [[c i]|]; [destruct Hholes as (_ & Hf & _); by destruct (Hno c i)|].
  destruct (fit_ends a p) as [[c i]|]; [destruct Hends as (_ & Hf & _); by destruct (Hno c i)|].
  unfold new_chunk. by rewrite decide_True by lia.
Qed.

(** ** The blocks stay sorted, and adjacent blocks are merged *)

Definition before (b b' : free_block) : Prop := (fb_offset b + fb_size b < fb_offset b')%Z.
Definition tidy_blocks (bs : list free_block) : Prop := StronglySorted before bs ∧ Forall (λ b, 0 < fb_size b)%Z bs.
Definition tidy (a : ggml_dyn_tallocr) : Prop := ∀ ck, ck ∈ ta_chunks a → tidy_blocks (free_blocks ck).

Lemma StronglySorted_app_iff {A} (R : A → A → Prop) (l k : list A) :
  StronglySorted R (l ++ k) ↔ StronglySorted R l ∧ StronglySorted R k ∧ ∀ x y, x ∈ l → y ∈ k → R x y.
Proof.
  induction l as [|x l IH]; cbn; [split; [intros; split_and!; [constructor|done|set_solver]|naive_solver]|]. split.
  - intros [Hs Hx]%StronglySorted_inv. apply IH in Hs as (H1 & H2 & H3). apply Forall_app in Hx as [Hx1 Hx2].
    rewrite Forall_forall in Hx2. split_and!; [by constructor|done|]. intros x' y [->|Hx']%elem_of_cons Hy; [by apply Hx2|by apply H3].
  - intros ([Hs Hx]%StronglySorted_inv & H2 & H3). constructor.
    + apply IH. split_and!; [done|done|]. intros x' y Hx' Hy. apply H3; [by right|done].
    + apply Forall_app. split; [done|]. apply Forall_forall. intros y Hy. apply H3; [left|done].
Qed.

Lemma StronglySorted_cons_iff {A} (R : A → A → Prop) x (l : list A) :
  StronglySorted R (x :: l) ↔ StronglySorted R l ∧ ∀ y, y ∈ l → R x y.
Proof.
  split; [intros [Hs Hx]%StronglySorted_inv; rewrite Forall_forall in Hx; done|].
  intros [Hs Hx]. constructor; [done|by apply Forall_forall].
Qed.

Lemma carved_tidy p pre b post : (0 < p ≤ fb_size b)%Z → tidy_blocks (pre ++ b :: post) → tidy_blocks (carved p pre b post).
Proof.
  intros Hp [Hs Hpos]. unfold tidy_blocks, carved. rewrite StronglySorted_app_iff, StronglySorted_cons_iff in Hs.
  rewrite Forall_app, Forall_cons in Hpos. destruct Hs as (Hpre & [Hpost Hb] & Hx), Hpos as (Hp1 & Hp2 & Hp3).
  rewrite StronglySorted_app_iff, Forall_app. case_decide as He.
  - split_and!; [done|done| |done|done]. intros x y Hx' Hy. apply Hx; [done|by right].
  - rewrite StronglySorted_cons_iff, Forall_cons. unfold before in *. cbn [fb_offset fb_size].
    split_and!; [done|done| | |done|lia|done].
    + intros y Hy. specialize (Hb y Hy). lia.
    + intros x y Hx' [->|Hy]%elem_of_cons; cbn; [specialize (Hx x b Hx' ltac:(left)); lia|]. apply Hx; [done|by right].
Qed.

(** the blocks of a chunk do not meet a range of bytes *)
Definition apart (o n : Z) (b : free_block) : Prop := (fb_offset b + fb_size b ≤ o ∨ o + n ≤ fb_offset b)%Z.

Lemma head_elem {A} (l : list A) x : head l = Some x → x ∈ l.
Proof. destruct l; intros [= ->]. left. Qed.

Lemma freed_tidy o n bs bs' : (0 < n)%Z → (∀ b, b ∈ bs → apart o n b) → tidy_blocks bs → freed o n bs bs' → tidy_blocks bs'.
Proof.
  intros Hn Hap [Hs Hpos] H. unfold tidy_blocks.
  destruct H as [pre b post He Hh|pre b b' post He Hb'|pre b post He Hne|pre post Hne H1 H2];
    rewrite ?StronglySorted_app_iff, ?StronglySorted_cons_iff in *;
    rewrite ?Forall_app, ?Forall_cons in *; unfold before, apart in *; cbn [fb_offset fb_size].
  - destruct Hs as (Hpre & [Hpost Hb] & Hx), Hpos as (Hp1 & Hp2 & Hp3). split_and!; [done|done| | |done|lia|done].
    + intros y Hy. pose proof (Hap y ltac:(set_solver)) as Hya. pose proof (Hb y Hy) as Hby. rewrite Forall_forall in Hp3. pose proof (Hp3 y Hy) as Hyp. cbn in Hyp.
      destruct post as [|z post]; [by apply not_elem_of_nil in Hy|]. specialize (Hh z eq_refl).
      apply elem_of_cons in Hy as [->|Hy]; [lia|]. apply StronglySorted_cons_iff in Hpost as [_ Hz]. specialize (Hz y Hy).
      pose proof (Hap z ltac:(set_solver)). pose proof (Hb z ltac:(left)). pose proof (Hp3 z ltac:(left)) as Hzp. cbn in Hzp. lia.
    + intros x y Hx' [->|Hy]%elem_of_cons; cbn; [|apply Hx; [done|by right]]. specialize (Hx x b Hx' ltac:(left)). lia.
  - destruct Hs as (Hpre & [[Hpost Hb2] Hb] & Hx), Hpos as (Hp1 & Hp2 & Hp3 & Hp4). split_and!; [done|done| | |done|lia|done].
    + intros y Hy. specialize (Hb2 y Hy). lia.
    + intros x y Hx' [->|Hy]%elem_of_cons; cbn; [|apply Hx; [done|by do 2 right]]. specialize (Hx x b Hx' ltac:(left)). lia.
  - destruct Hs as (Hpre & [Hpost Hb] & Hx), Hpos as (Hp1 & Hp2 & Hp3). split_and!; [done|done| | |done|lia|done].
    + intros y Hy. specialize (Hb y Hy). lia.
    + intros x y Hx' [->|Hy]%elem_of_cons; cbn; [|apply Hx; [done|by right]].
      rewrite Forall_forall in Hp1. pose proof (Hp1 x Hx') as Hpx. cbn in Hpx.
      pose proof (Hx x b Hx' ltac:(left)). pose proof (Hne x Hx'). pose proof (Hap x ltac:(set_solver)). lia.
  - destruct Hs as (Hpre & Hpost & Hx), Hpos as (Hp1 & Hp2). rewrite Forall_forall in Hp1, Hp2. split_and!; [done|done| | |by apply Forall_forall|lia|by apply Forall_forall].
    + intros y Hy. destruct post as [|z post]; [by apply not_elem_of_nil in Hy|]. specialize (H2 z eq_refl).
      pose proof (Hap z ltac:(set_solver)). pose proof (Hne z ltac:(set_solver)). pose proof (Hp2 z ltac:(left)) as Hz; cbn in Hz.
      apply elem_of_cons in Hy as [->|Hy]; [lia|]. apply StronglySorted_cons_iff in Hpost as [_ Hz']. specialize (Hz' y Hy). lia.
    + intros x y Hx' [->|Hy]%elem_of_cons; cbn; [|by apply Hx].
      pose proof (Hap x ltac:(set_solver)). pose proof (Hne x ltac:(set_solver)). pose proof (H1 x Hx'). lia.
Qed.

Lemma tidy_insert a c ck : tidy a → tidy_blocks (free_blocks ck) → tidy (with_chunks a (<[c := ck]> (ta_chunks a))).
Proof.
  intros Ht Hck ck' Hck'. apply list_elem_of_lookup in Hck' as [c' Hc']. cbn in Hc'. apply list_lookup_insert_Some in Hc' as [(-> & <- & _)|[_ Hc']]; [done|].
  apply Ht. by eapply list_elem_of_lookup_2.
Qed.

Lemma handed_tidy a p a' addr : (0 < p)%Z → tidy a → handed_out a p a' addr → tidy a'.
Proof.
  intros Hp Ht H. destruct H as [c ck pre b post Hck Hbl Hn _|size Hsize _ _].
  - apply tidy_insert; [done|]. apply carved_tidy; [lia|]. rewrite <- Hbl. apply Ht. by eapply list_elem_of_lookup_2.
  - intros ck [Hck| ->%list_elem_of_singleton]%elem_of_app; [by apply Ht|]. apply carved_tidy; [cbn; lia|]. cbn. split; [by do 2 constructor|].
    apply Forall_singleton. cbn. lia.
Qed.

(** *** How many blocks there are *)

Definition in_chunk (c : nat) (r : region) : bool := bool_decide (rg_chunk r = c).

Lemma live_count_pos live c x : 1 ≤ live_count live c x → ∃ j r, live !! j = Some r ∧ region_at r c x.
Proof.
  induction live as [|r live IH]; rewrite ?live_count_cons; [cbn; lia|]. intros H.
  destruct (decide (region_count c x r = 1)) as [Hr|Hr]; [exists 0, r; split; [done|by apply region_count_at]|].
  destruct IH as (j & r' & Hj & Hr'); [|by exists (S j), r'].
  assert (region_count c x r ≤ 1) by (unfold region_count, ind; repeat case_decide; lia). lia.
Qed.

Lemma free_count_at bs b x : b ∈ bs → (fb_offset b ≤ x < fb_offset b + fb_size b)%Z → 1 ≤ free_count bs x.
Proof.
  intros (l1 & l2 & ->)%list_elem_of_split Hx. rewrite free_count_app, free_count_cons. unfold ind. rewrite decide_True by done. lia.
Qed.

Lemma free_count_none bs x : (∀ b, b ∈ bs → ¬ (fb_offset b ≤ x < fb_offset b + fb_size b)%Z) → free_count bs x = 0.
Proof. intros H. apply sum_list_zero. intros b Hb. unfold ind. rewrite decide_False; [done|by apply H]. Qed.

(** every gap between two blocks is held by regions, and different gaps by different regions *)
Lemma gap_owners al live c cap ck : chunk_ok al live c cap ck → tidy_blocks (free_blocks ck) →
  ∀ pre bs, free_blocks ck = pre ++ bs →
  ∃ js, length js = length bs - 1 ∧ NoDup js ∧
    ∀ j, j ∈ js → ∃ r b b', live !! j = Some r ∧ b ∈ bs ∧ b' ∈ bs ∧ before b b' ∧ region_at r c (fb_offset b + fb_size b).
Proof.
  intros Hok [Hs Hpos] pre bs. revert pre. induction bs as [|b bs IH]; intros pre Hbl; [by exists []; split_and!; [done|constructor|set_solver]|].
  destruct bs as [|b2 bs]; [by exists []; split_and!; [done|constructor|set_solver]|].
  destruct (IH (pre ++ [b])) as (js & Hlen & Hnd & Hjs); [by rewrite <- app_assoc|].
  rewrite Hbl in Hs. apply StronglySorted_app_iff in Hs as (_ & [Hs Hb]%StronglySorted_cons_iff & Hx).
  assert (Hb2 : before b b2) by (apply Hb; left). unfold before in Hb2.
  rewrite Hbl, Forall_forall in Hpos. assert (H0 : (0 < fb_size b)%Z) by (apply Hpos; set_solver).
  assert (H20 : (0 < fb_size b2)%Z) by (apply Hpos; set_solver).
  pose proof Hok as [Hcap Hblocks Hlive Hpart]. rewrite Forall_forall in Hblocks.
  assert (Hpart1 : live_count live c (fb_offset b + fb_size b) = 1).
  { pose proof (Hpart (fb_offset b + fb_size b))%Z as Hp. rewrite free_count_none in Hp.
    - cbn in Hp. rewrite Hp. unfold ind. rewrite decide_True; [done|].
      destruct (Hblocks b) as (?&?&?&_); [rewrite Hbl; set_solver|]. destruct (Hblocks b2) as (?&?&?&_); [rewrite Hbl; set_solver|]. lia.
    - rewrite Hbl. intros b' [Hb'|[->|Hb']%elem_of_cons]%elem_of_app; [|lia|].
      + specialize (Hx b' b Hb' ltac:(left)). unfold before in Hx. lia.
      + specialize (Hb b' Hb'). unfold before in Hb. lia. }
  destruct (live_count_pos live c (fb_offset b + fb_size b)) as (j & r & Hj & Hr); [lia|].
  exists (j :: js). split_and!; [cbn in *; lia| |].
  - apply NoDup_cons. split; [|done]. intros Hin. destruct (Hjs j Hin) as (r' & b1 & b1' & Hj' & Hb1 & Hb1' & Hbb & Hr').
    rewrite Hj in Hj'. injection Hj' as <-.
    (* the region holds the start of b2, which is free *)
    assert (Hat : region_at r c (fb_offset b2)).
    { destruct Hr as [Hc Hr], Hr' as [_ Hr']. split; [done|]. apply elem_of_cons in Hb1 as [->|Hb1]; [lia|].
      apply StronglySorted_cons_iff in Hs as [_ Hs]. specialize (Hs b1 Hb1). unfold before in Hs.
      assert (0 < fb_size b1)%Z by (apply Hpos; set_solver). lia. }
    specialize (Hpart (fb_offset b2)).
    pose proof (live_count_at r live c (fb_offset b2) ltac:(by eapply list_elem_of_lookup_2) Hat).
    pose proof (free_count_at (free_blocks ck) b2 (fb_offset b2) ltac:(rewrite Hbl; set_solver) ltac:(lia)).
    pose proof (ind_le 0 cap (fb_offset b2)). lia.
  - intros j' [->|Hj']%elem_of_cons.
    + exists r, b, b2. split_and!; [done|left|right; left|done|done].
    + destruct (Hjs j' Hj') as (r' & b1 & b1' & ?&?&?&?&?). exists r', b1, b1'. split_and!; [done|by right|by right|done|done].
Qed.

Lemma blocks_le_live al live c cap ck : chunk_ok al live c cap ck → tidy_blocks (free_blocks ck) → length (free_blocks ck) ≤ S (length live).
Proof.
  intros Hok Ht. destruct (gap_owners al live c cap ck Hok Ht [] _ eq_refl) as (js & Hlen & Hnd & Hjs).
  assert (H : js ⊆+ seq 0 (length live)).
  { apply NoDup_submseteq; [done|]. intros j Hj. destruct (Hjs j Hj) as (r & _ & _ & Hr & _). apply lookup_lt_Some in Hr.
    apply elem_of_seq. lia. }
  apply submseteq_length in H. rewrite length_seq in H. lia.
Qed.

Lemma dyn_few_blocks a live : dyn_ok a live → tidy a → length live < 255 → few_blocks a.
Proof.
  intros Hok Ht Hlen ck Hck. apply list_elem_of_lookup in Hck as [c Hc]. destruct (dyn_chunks _ _ Hok _ _ Hc) as [cap Hcap].
  pose proof (blocks_le_live _ _ _ _ _ Hcap (Ht ck ltac:(by eapply list_elem_of_lookup_2))). unfold MAX_FREE_BLOCKS. lia.
Qed.

(** ** Giving back memory *)

(** the end of a live region is free again *)
Definition given_back (a : ggml_dyn_tallocr) (c : nat) (o n : Z) (a' : ggml_dyn_tallocr) : Prop :=
  ∃ ck bs, ta_chunks a !! c = Some ck ∧ freed o n (free_blocks ck) bs ∧
    a' = with_chunks a (<[c := TallocrChunk bs (max_size ck)]> (ta_chunks a)).

Lemma freed_chunk_ok al live c cap ck o t n bs : chunk_ok al (Region c o t :: live) c cap ck → (0 ≤ n ≤ t)%Z → (al | n)%Z →
  freed (o + (t - n)) n (free_blocks ck) bs →
  chunk_ok al (Region c o (t - n) :: live) c cap (TallocrChunk bs (max_size ck)).
Proof.
  intros [H1 H2 H3 H4] Hn Hal Hf. destruct (H3 (Region c o t) ltac:(left) eq_refl) as (Ho & Ht & Hmax & Hdo & Hdt).
  cbn [rg_off rg_size] in *. assert (Hd : (al | t - n)%Z) by (by apply Z.divide_sub_r).
  split; cbn [free_blocks max_size]; [done| | |].
  - eapply freed_in; [done|..|exact Hf]; try lia. by apply Z.divide_add_r.
  - intros r [->|Hr]%elem_of_cons Hc; [|apply H3; [by right|done]]. unfold region_in. cbn [rg_off rg_size]. split_and!; [lia|lia|lia|done|done].
  - intros x. rewrite <- (H4 x), !live_count_cons, (freed_count (o + (t - n)) n (free_blocks ck)); [| lia | |done].
    + unfold region_count. cbn [rg_chunk rg_off rg_size]. rewrite !decide_True by done.
      replace t with ((t - n) + n)%Z at 3 by lia. rewrite ind_split by lia. lia.
    + intros b Hb. rewrite Forall_forall in H2. by destruct (H2 b Hb) as (?&?&?&?).
Qed.

Lemma live_apart al live c cap ck r o n : chunk_ok al live c cap ck → r ∈ live → rg_chunk r = c →
  (rg_off r ≤ o)%Z → (o + n ≤ rg_off r + rg_size r)%Z → (0 < n)%Z →
  (∀ b, b ∈ free_blocks ck → (0 < fb_size b)%Z → apart o n b).
Proof.
  intros [_ _ _ Hpart] Hr Hc Ho Hn H0 b Hb Hpos. unfold apart. pose (x := Z.max o (fb_offset b)).
  destruct (decide (x < o + n ∧ x < fb_offset b + fb_size b)%Z) as [Hx|Hx]; [|lia]. exfalso.
  pose proof (free_count_at _ b x Hb ltac:(lia)). pose proof (live_count_at r live c x Hr ltac:(split; [done|lia])).
  specialize (Hpart x). pose proof (ind_le 0 cap x). lia.
Qed.

Lemma dyn_free_any a live c o t s : dyn_ok a (Region c o t :: live) →
  let n := pad (ta_alignment a) s in (0 ≤ s)%Z → (n ≤ t)%Z →
  resP (λ e, (e = Abort ∨ e = OutOfRange) ∧ ¬ few_blocks a) (ggml_dyn_tallocr_free_bytes a (BufferAddress c (o + (t - n))) s)
    (λ a', given_back a c (o + (t - n)) n a' ∧ dyn_ok a' (Region c o (t - n) :: live)).
Proof.
  intros Hok n Hs Hn. destruct (dyn_align _ _ Hok) as [Hp2 Hal]. pose proof half_le as Hh.
  pose proof (pad_spec (ta_alignment a) s ltac:(lia)) as [Hdiv Hpad]. fold n in Hdiv, Hpad.
  pose proof (dyn_live _ _ Hok (Region c o t) ltac:(left)) as Hc. cbn in Hc.
  destruct (lookup_lt_is_Some_2 _ _ Hc) as [ck Hck]. destruct (dyn_chunks _ _ Hok _ _ Hck) as [cap Hcap].
  destruct (ck_live _ _ _ _ _ Hcap (Region c o t) ltac:(left) eq_refl) as (Ho & Ht & Hmax & Hdo & Hdt). cbn [rg_off rg_size] in *.
  pose proof (ck_cap _ _ _ _ _ Hcap) as (Hcm & Hch & _).
  assert (HS : (SIZE_MAX / 2 + SIZE_MAX / 2 < SIZE_MAX)%Z) by reflexivity.
  unfold ggml_dyn_tallocr_free_bytes. cbn [ba_chunk ba_offset].
  rewrite aligned_size_ok, bind_Ok by (done || lia). fold n. rewrite (vget_ok _ _ _ Hck), bind_Ok.
  pose proof (ck_blocks _ _ _ _ _ Hcap) as Hblocks. pose proof Hblocks as Hb'. rewrite Forall_forall in Hb'.
  eapply resP_bind.
  - eapply resP_mono; [apply (free_range_freed (ta_alignment a) cap); [lia|done|lia|lia|lia| |]| |intros bs Hbs; exact Hbs].
    + intros b Hb He. destruct (Hb' b Hb) as (?&?&?&?). lia.
    + intros b b' Hb Hbb He He'. destruct (Hb' b Hb) as (?&?&?&?). destruct (Hb' b' Hbb) as (?&?&?&?). lia.
    + intros e [He Hlen]. split; [done|]. intros Hfew. apply Hlen, Hfew. by eapply list_elem_of_lookup_2.
  - intros bs Hbs. rewrite vset_ok, bind_Ok by done. split; [by exists ck, bs|].
    apply (dyn_ok_update a [Region c o t] [Region c o (t - n)] live c ck _ Hok Hck).
    + intros r ->%list_elem_of_singleton. done.
    + intros r ->%list_elem_of_singleton. done.
    + intros cap' Hcap'. apply freed_chunk_ok; [exact Hcap'|lia|done|exact Hbs].
Qed.

Lemma dyn_free_ok a live c o t s : dyn_ok a (Region c o t :: live) → few_blocks a →
  let n := pad (ta_alignment a) s in (0 ≤ s)%Z → (n ≤ t)%Z →
  okP (ggml_dyn_tallocr_free_bytes a (BufferAddress c (o + (t - n))) s)
    (λ a', given_back a c (o + (t - n)) n a' ∧ dyn_ok a' (Region c o (t - n) :: live)).
Proof. intros Hok Hfew n Hs Hn. eapply okP_resP; [by apply dyn_free_any|]. by intros e [_ H]. Qed.

Lemma given_back_tidy a live c o t n a' : dyn_ok a (Region c o t :: live) → (0 < n ≤ t)%Z → tidy a → given_back a c (o + (t - n)) n a' → tidy a'.
Proof.
  intros Hok Hn Ht (ck & bs & Hck & Hf & ->). destruct (dyn_chunks _ _ Hok _ _ Hck) as [cap Hcap].
  pose proof (Ht ck ltac:(by eapply list_elem_of_lookup_2)) as Hbl.
  apply tidy_insert; [done|]. eapply freed_tidy; [| |exact Hbl|exact Hf]; [lia|].
  intros b Hb. eapply (live_apart _ _ _ _ _ (Region c o t)); [exact Hcap|left|done|cbn; lia|cbn; lia|lia|done|].
  destruct Hbl as [_ Hpos]. rewrite Forall_forall in Hpos. by apply Hpos.
Qed.

Lemma dyn_ok_drop a c o live : dyn_ok a (Region c o 0 :: live) → dyn_ok a live.
Proof.
  intros [H1 H2 H3 H4 H5]. split; [done|done|done| |].
  - intros c' ck Hck. destruct (H4 c' ck Hck) as [cap [K1 K2 K3 K4]]. exists cap. split; [done|done| |].
    + intros r Hr. apply K3. by right.
    + intros x. rewrite <- (K4 x), live_count_cons. unfold region_count. cbn. rewrite ind_empty. case_decide; lia.
  - intros r Hr. apply H5. by right.
Qed.

Lemma dyn_new_ok al mx : is_power_of_2 al = true → (0 < al ≤ SIZE_MAX / 2)%Z → (0 ≤ mx)%Z → dyn_ok (ggml_dyn_tallocr_new al mx) [] ∧ tidy (ggml_dyn_tallocr_new al mx).
Proof.
  intros. split; [|intros ck Hck; by apply not_elem_of_nil in Hck]. split; cbn.
  - done.
  - assert (0 ≤ SIZE_MAX / 2)%Z by done. lia.
  - unfold GGML_VBUFFER_MAX_CHUNKS. lia.
  - intros c ck H'. done.
  - intros r Hr. by apply not_elem_of_nil in Hr.
Qed.

Lemma dyn_reset_ok a live : dyn_ok a live → dyn_ok (ggml_dyn_tallocr_reset a) [] ∧ tidy (ggml_dyn_tallocr_reset a).
Proof.
  intros [H1 H2 H3 H4 H5]. split; [|intros ck Hck; by apply not_elem_of_nil in Hck]. split; cbn; [done|done|lia| |].
  - intros c ck H'. done.
  - intros r Hr. by apply not_elem_of_nil in Hr.
Qed.

(** ** How much memory is used *)

(** no chunk needs more than [T] bytes *)
Definition within (a : ggml_dyn_tallocr) (T : Z) : Prop := ∀ ck, ck ∈ ta_chunks a → (max_size ck ≤ T)%Z.

Lemma high_free al live c cap ck x : chunk_ok al live c cap ck → (max_size ck ≤ x < cap)%Z →
  ∃ b, b ∈ free_blocks ck ∧ (fb_offset b ≤ x < fb_offset b + fb_size b)%Z.
Proof.
  intros [H1 H2 H3 H4] Hx. specialize (H4 x).
  assert (Hl : live_count live c x = 0).
  { apply sum_list_zero. intros r Hr. unfold region_count, ind. case_decide as Hc; [|done].
    destruct (H3 r Hr Hc) as (?&?&?&_). rewrite decide_False; [done|]. lia. }
  assert (Hi : ind 0 cap x = 1) by (unfold ind; rewrite decide_True; [done|lia]). rewrite Hl, Hi in H4.
  destruct (decide (Exists (λ b, fb_offset b ≤ x < fb_offset b + fb_size b)%Z (free_blocks ck))) as [He|He]; [by apply Exists_exists in He|].
  rewrite free_count_none in H4; [lia|]. intros b Hb Hbx. apply He, Exists_exists. by exists b.
Qed.

(** everything above [max_size] is in the last block *)
Lemma last_block al live c cap ck : chunk_ok al live c cap ck → tidy_blocks (free_blocks ck) → (max_size ck < cap)%Z →
  ∃ pre b, free_blocks ck = pre ++ [b] ∧ (fb_offset b ≤ max_size ck)%Z ∧ (fb_offset b + fb_size b = cap)%Z.
Proof.
  intros Hok [Hs Hpos] Hlt. destruct (high_free _ _ _ _ _ (cap - 1) Hok ltac:(lia)) as (b & Hb & Hbx).
  pose proof (ck_blocks _ _ _ _ _ Hok) as Hin. rewrite Forall_forall in Hin, Hpos.
  apply list_elem_of_split in Hb as (pre & post & Hbl). rewrite Hbl in Hs. apply StronglySorted_app_iff in Hs as (_ & [_ Hpost]%StronglySorted_cons_iff & Hpre).
  destruct post as [|b' post].
  2: { specialize (Hpost b' ltac:(left)). unfold before in Hpost. destruct (Hin b') as (?&?&?&_); [rewrite Hbl; set_solver|].
       specialize (Hpos b' ltac:(rewrite Hbl; set_solver)). cbn in Hpos. lia. }
  destruct (Hin b) as (?&?&?&_); [rewrite Hbl; set_solver|]. pose proof (ck_cap _ _ _ _ _ Hok) as (Hcap & _).
  exists pre, b. split_and!; [done| |lia]. destruct (decide (fb_offset b ≤ max_size ck)%Z) as [|Hgt]; [done|]. exfalso.
  destruct (high_free _ _ _ _ _ (fb_offset b - 1) Hok ltac:(lia)) as (b1 & Hb1 & Hb1x).
  rewrite Hbl in Hb1. apply elem_of_app in Hb1 as [Hb1| ->%list_elem_of_singleton]; [|lia].
  specialize (Hpre b1 b Hb1 ltac:(left)). unfold before in Hpre. lia.
Qed.

(** a block that is not the last one lies below [max_size] *)
Lemma hole_below al live c cap ck pre b b' post : chunk_ok al live c cap ck → tidy_blocks (free_blocks ck) →
  free_blocks ck = pre ++ b :: b' :: post → (fb_offset b + fb_size b ≤ max_size ck)%Z.
Proof.
  intros Hok Ht Hbl. destruct (decide (max_size ck < cap)%Z) as [Hlt|Hge].
  - destruct (last_block _ _ _ _ _ Hok Ht Hlt) as (pre' & bl & Hbl' & Hoff & _). destruct Ht as [Hs Hpos].
    rewrite Hbl in Hbl', Hs. apply StronglySorted_app_iff in Hs as (_ & [_ Hs]%StronglySorted_cons_iff & _).
    assert (Hin : bl ∈ b' :: post).
    { destruct (exists_last (l := b' :: post) ltac:(done)) as (l & z & Hl). rewrite Hl in Hbl'.
      change (b :: l ++ [z]) with ((b :: l) ++ [z]) in Hbl'. rewrite app_assoc in Hbl'. apply app_inj_tail in Hbl' as [_ <-].
      rewrite Hl. apply elem_of_app. right. left. }
    specialize (Hs bl Hin). unfold before in Hs. lia.
  - pose proof (ck_blocks _ _ _ _ _ Hok) as Hin. rewrite Forall_forall in Hin.
    destruct (Hin b) as (?&?&?&_); [rewrite Hbl; set_solver|]. pose proof (ck_cap _ _ _ _ _ Hok) as (Hcap & _). lia.
Qed.

(** the last block starts below [max_size] *)
Lemma last_below al live c cap ck pre b : chunk_ok al live c cap ck → tidy_blocks (free_blocks ck) →
  free_blocks ck = pre ++ [b] → (fb_offset b ≤ max_size ck)%Z.
Proof.
  intros Hok Ht Hbl. destruct (decide (max_size ck < cap)%Z) as [Hlt|Hge].
  - destruct (last_block _ _ _ _ _ Hok Ht Hlt) as (pre' & bl & Hbl' & Hoff & _). rewrite Hbl in Hbl'.
    by apply app_inj_tail in Hbl' as [_ <-].
  - pose proof (ck_blocks _ _ _ _ _ Hok) as Hin. rewrite Forall_forall in Hin.
    destruct (Hin b) as (?&?&?&_); [rewrite Hbl; set_solver|]. pose proof (ck_cap _ _ _ _ _ Hok) as (Hcap & _). lia.
Qed.

Lemma handed_within a live p a' addr T : dyn_ok a live → tidy a → within a T → (0 ≤ T)%Z → (0 ≤ p)%Z → handed_out a p a' addr → within a' (T + p).
Proof.
  intros Hok Ht Hw HT Hp H. destruct H as [c ck pre b post Hck Hbl Hn _|size Hsize _ _].
  - intros ck' Hck'. apply list_elem_of_lookup in Hck' as [c' Hc']. cbn in Hc'. apply list_lookup_insert_Some in Hc' as [(-> & <- & _)|[_ Hc']].
    2: { specialize (Hw ck' ltac:(by eapply list_elem_of_lookup_2)). lia. }
    cbn [max_size]. destruct (dyn_chunks _ _ Hok _ _ Hck) as [cap Hcap].
    pose proof (Hw ck ltac:(by eapply list_elem_of_lookup_2)). pose proof (Ht ck ltac:(by eapply list_elem_of_lookup_2)) as Htb.
    destruct post as [|b' post]; [pose proof (last_below _ _ _ _ _ _ _ Hcap Htb Hbl)|pose proof (hole_below _ _ _ _ _ _ _ _ _ Hcap Htb Hbl)]; lia.
  - intros ck [Hck| ->%list_elem_of_singleton]%elem_of_app; [specialize (Hw ck Hck)|cbn]; lia.
Qed.

(** a hole that fits is used before memory grows *)
Lemma handed_hole a live p a' addr : dyn_ok a live → tidy a → handed_out a p a' addr → (∃ c i, hole a c i ∧ fits a p c i) →
  max_size <$> ta_chunks a' = max_size <$> ta_chunks a.
Proof.
  intros Hok Ht H (c0 & i0 & Hh & Hf). destruct H as [c ck pre b post Hck Hbl Hn Hlast|size Hsize Hno _]; [|by destruct (Hno c0 i0)].
  destruct post as [|b' post]; [by destruct (Hlast eq_refl c0 i0)|].
  destruct (dyn_chunks _ _ Hok _ _ Hck) as [cap Hcap].
  pose proof (hole_below _ _ _ _ _ _ _ _ _ Hcap (Ht ck ltac:(by eapply list_elem_of_lookup_2)) Hbl).
  cbn [ta_chunks with_chunks]. rewrite list_fmap_insert. cbn [max_size]. apply list_insert_id. rewrite list_lookup_fmap, Hck. cbn. f_equal. lia.
Qed.

(** as long as half of the address space is enough, there is room *)
Lemma dyn_room a live p T : dyn_ok a live → tidy a → within a T → (0 < p)%Z → (T + p ≤ SIZE_MAX / 2)%Z →
  length (ta_chunks a) < GGML_VBUFFER_MAX_CHUNKS ∨ (∃ c i, fits a p c i).
Proof.
  intros Hok Ht Hw Hp HT. pose proof (dyn_n _ _ Hok). destruct (decide (length (ta_chunks a) < GGML_VBUFFER_MAX_CHUNKS)) as [|Hfull]; [by left|].
  right. destruct (lookup_lt_is_Some_2 (ta_chunks a) 15) as [ck Hck]; [unfold GGML_VBUFFER_MAX_CHUNKS in *; lia|].
  destruct (dyn_chunks _ _ Hok _ _ Hck) as [cap Hcap]. pose proof (ck_cap _ _ _ _ _ Hcap) as (_ & _ & Hlast). specialize (Hlast eq_refl).
  pose proof (Hw ck ltac:(by eapply list_elem_of_lookup_2)).
  destruct (last_block _ _ _ _ _ Hcap (Ht ck ltac:(by eapply list_elem_of_lookup_2)) ltac:(lia)) as (pre & b & Hbl & Hoff & Hend).
  exists 15, (length pre), ck, b. split_and!; [done| |lia]. rewrite Hbl, lookup_app_r, Nat.sub_diag by lia. done.
Qed.

Lemma given_back_within a c o n a' T : within a T → given_back a c o n a' → within a' T.
Proof.
  intros Hw (ck & bs & Hck & _ & ->) ck' Hck'. apply list_elem_of_lookup in Hck' as [c' Hc']. cbn in Hc'.
  apply list_lookup_insert_Some in Hc' as [(-> & <- & _)|[_ Hc']]; cbn; apply Hw; by eapply list_elem_of_lookup_2.
Qed.

(** ** Runs of the dynamic allocator *)

Inductive alloc_op := AllocOp (n : Z) | FreeOp (i : nat).

(** allocate, or give back the [i]-th live region *)
Definition alloc_step (st : ggml_dyn_tallocr * list region) (op : alloc_op) : res (ggml_dyn_tallocr * list region) :=
  match op with
  | AllocOp n =>
      '(a, addr) ← ggml_dyn_tallocr_alloc st.1 n;
      Ok (a, fresh (pad (ta_alignment st.1) n) addr :: st.2)
  | FreeOp i =>
      r ← vget st.2 i;
      a ← ggml_dyn_tallocr_free_bytes st.1 (BufferAddress (rg_chunk r) (rg_off r)) (rg_size r);
      Ok (a, delete i st.2)
  end.

(** what an allocator should do: the sizes that are live *)
Fixpoint sizes_after (al : Z) (ops : list alloc_op) (sizes : list Z) : list Z :=
  match ops with
  | [] => sizes
  | AllocOp n :: ops => sizes_after al ops (pad al n :: sizes)
  | FreeOp i :: ops => sizes_after al ops (delete i sizes)
  end.

(** a run that frees only what is live, never has more than 254 regions and asks for half of the address space at most *)
Fixpoint ops_ok (al : Z) (k : nat) (T : Z) (ops : list alloc_op) : Prop :=
  match ops with
  | [] => True
  | AllocOp n :: ops => (0 < n)%Z ∧ (T + n + al ≤ SIZE_MAX / 2)%Z ∧ k < 254 ∧ ops_ok al (S k) (T + pad al n) ops
  | FreeOp i :: ops => i < k ∧ ops_ok al (k - 1) T ops
  end.

(** every byte of the chunks, up to the size with which they are opened, is in one free block or in one live region *)
Definition full (a : ggml_dyn_tallocr) (live : list region) : Prop := ∀ c ck x, ta_chunks a !! c = Some ck →
  (0 ≤ x < ta_max_chunk_size a)%Z → free_count (free_blocks ck) x + live_count live c x = 1.

Lemma handed_full a live p a' addr : dyn_ok a live → (0 ≤ p)%Z → handed_out a p a' addr → full a live → full a' (fresh p addr :: live).
Proof.
  intros Hok Hp H Hf c' ck' x Hc' Hx. rewrite live_count_cons. unfold region_count, fresh. cbn [rg_chunk rg_off rg_size].
  destruct H as [c ck pre b post Hck Hbl Hn _|size Hsize _ _ Hmax]; cbn [ta_chunks with_chunks ta_max_chunk_size ba_chunk ba_offset] in Hc', Hx |- *.
  - apply list_lookup_insert_Some in Hc' as [(-> & <- & _)|[Hne Hc']]; cbn [free_blocks].
    + rewrite decide_True, <- (Hf _ _ _ Hck Hx), Hbl, (carved_count p) by done || lia. lia.
    + rewrite decide_False by done. by apply Hf.
  - apply lookup_app_Some in Hc' as [Hc'|[Hge Hc']].
    + pose proof (lookup_lt_Some _ _ _ Hc'). rewrite (decide_False (P := length (ta_chunks a) = c')) by lia. by apply Hf.
    + apply list_lookup_singleton_Some in Hc' as [Hc0 <-]. rewrite (decide_True (P := length (ta_chunks a) = c')) by lia. cbn [free_blocks].
      replace (live_count live c' x) with 0.
      * pose proof (carved_count p [] (FreeBlock 0 size) [] x (conj Hp (proj1 Hsize))) as H. cbn [app fb_offset] in H.
        rewrite Nat.add_0_r, <- H. clear H. unfold free_count, ind. csimpl. rewrite decide_True by lia. done.
      * symmetry. apply sum_list_zero. intros r Hr. unfold region_count. rewrite decide_False; [done|].
        pose proof (dyn_live _ _ Hok r Hr). lia.
Qed.

Lemma given_back_full a live c o n a' : dyn_ok a (Region c o n :: live) → (0 ≤ n)%Z → given_back a c o n a' →
  full a (Region c o n :: live) → full a' live.
Proof.
  intros Hok Hn (ck & bs & Hck & Hfr & ->) Hf c' ck' x Hc' Hx. cbn in Hc', Hx.
  apply list_lookup_insert_Some in Hc' as [(-> & <- & _)|[Hne Hc']]; cbn [free_blocks].
  - rewrite <- (Hf _ _ _ Hck Hx), live_count_cons, (freed_count o n (free_blocks ck)); [|done| |done].
    + unfold region_count. cbn [rg_chunk rg_off rg_size]. rewrite decide_True by done. lia.
    + intros b Hb. destruct (dyn_ok_bounds _ _ Hok ck) as [_ H]; [by eapply list_elem_of_lookup_2|]. apply (H b Hb).
  - rewrite <- (Hf _ _ _ Hc' Hx), live_count_cons. unfold region_count. cbn [rg_chunk]. by rewrite decide_False.
Qed.

Lemma full_perm a live live' : live ≡ₚ live' → full a live → full a live'.
Proof. intros Hp Hf c ck x Hck Hx. rewrite <- Hp. by apply Hf. Qed.

Record run_ok (al mx T : Z) (a : ggml_dyn_tallocr) (live : list region) : Prop := {
  run_dyn : dyn_ok a live;
  run_tidy : tidy a;
  run_within : within a T;
  run_pos : ∀ r, r ∈ live → (0 < rg_size r)%Z;
  run_al : ta_alignment a = al;
  run_few : length live < 255;
  run_max : ta_max_chunk_size a = Z.min mx (SIZE_MAX / 2);
  run_full : full a live }.

Lemma delete_perm {A} (l : list A) i x : l !! i = Some x → l ≡ₚ x :: delete i l.
Proof. apply delete_Permutation. Qed.

Lemma list_fmap_delete {A B} (f : A → B) (l : list A) i : f <$> delete i l = delete i (f <$> l).
Proof. revert i. induction l as [|x l IH]; intros [|i]; csimpl; [done..|]. f_equal. apply IH. Qed.

Lemma handed_align a p a' addr : handed_out a p a' addr → ta_alignment a' = ta_alignment a.
Proof. by intros []. Qed.

Lemma alloc_step_ok al mx T a live n : run_ok al mx T a live → (0 ≤ T)%Z → (0 < n)%Z → (T + n + al ≤ SIZE_MAX / 2)%Z → length live < 254 →
  okP (alloc_step (a, live) (AllocOp n)) (λ st, run_ok al mx (T + pad al n) st.1 st.2 ∧ ∃ addr, st.2 = fresh (pad al n) addr :: live).
Proof.
  intros [H1 H2 H3 H4 H5 H6 H7 H8] HT Hn Hmax Hlen. cbn [alloc_step fst snd]. subst al. destruct (dyn_align _ _ H1) as [Hp2 Hal].
  pose proof (pad_spec (ta_alignment a) n ltac:(lia)) as [Hdiv Hpad]. set (p := pad _ n) in *.
  eapply okP_bind.
  - apply (dyn_alloc_ok a live n H1); [by eapply dyn_few_blocks|lia|].
    apply (dyn_room a live p T); [done|done|done|lia|lia].
  - intros [a' addr] [Ha Hok]. cbn [okP fst snd]. split; [|by exists addr]. fold p in Ha, Hok. fold p. split.
    + done.
    + by eapply handed_tidy; [|exact H2|exact Ha]; lia.
    + eapply handed_within; [exact H1|done|done|lia|lia|exact Ha].
    + intros r [->|Hr]%elem_of_cons; [cbn; lia|by apply H4].
    + by eapply handed_align.
    + cbn. lia.
    + rewrite <- H7. by destruct Ha.
    + eapply handed_full; [exact H1|lia|exact Ha|done].
Qed.

Lemma free_step_ok al mx T a live i : run_ok al mx T a live → i < length live →
  okP (alloc_step (a, live) (FreeOp i)) (λ st, run_ok al mx T st.1 st.2 ∧ st.2 = delete i live).
Proof.
  intros [H1 H2 H3 H4 H5 H6 H7 H8] Hi. destruct (lookup_lt_is_Some_2 _ _ Hi) as [[c o t] Hr]. cbn [alloc_step fst snd].
  rewrite (vget_ok _ _ _ Hr), bind_Ok. cbn [rg_chunk rg_off rg_size].
  pose proof (H4 _ ltac:(by eapply list_elem_of_lookup_2)) as Hpos. cbn in Hpos.
  rewrite (delete_perm _ _ _ Hr) in H1. destruct (dyn_align _ _ H1) as [Hp2 Hal].
  assert (Hdt : pad (ta_alignment a) t = t).
  { pose proof (dyn_live _ _ H1 _ ltac:(left)) as Hc. cbn in Hc. destruct (lookup_lt_is_Some_2 _ _ Hc) as [ck Hck].
    destruct (dyn_chunks _ _ H1 _ _ Hck) as [cap Hcap]. destruct (ck_live _ _ _ _ _ Hcap (Region c o t) ltac:(left) eq_refl) as (_&_&_&_&Hd).
    apply pad_id; [lia|done]. }
  pose proof (dyn_free_ok a (delete i live) c o t t H1) as Hfree. cbv zeta in Hfree. rewrite Hdt in Hfree.
  replace (o + (t - t))%Z with o in Hfree by lia. replace (t - t)%Z with 0%Z in Hfree by lia.
  eapply okP_bind; [apply Hfree; [|lia|lia]|].
  - eapply dyn_few_blocks; [exact H1|done|]. rewrite length_cons, length_delete by done. lia.
  - intros a' [Hg Hok]. cbn [okP fst snd]. split; [|done]. split.
    + by eapply dyn_ok_drop.
    + eapply (given_back_tidy a (delete i live) c o t t); [exact H1|lia|done|]. by replace (o + (t - t))%Z with o by lia.
    + by eapply given_back_within.
    + intros r Hr'. apply H4. rewrite (delete_perm _ _ _ Hr). by right.
    + destruct Hg as (? & ? & _ & _ & ->). done.
    + rewrite length_delete by done. lia.
    + destruct Hg as (? & ? & _ & _ & ->). done.
    + eapply given_back_full; [exact H1|lia|exact Hg|]. eapply full_perm; [by apply (delete_perm _ _ _ Hr)|done].
Qed.

Fixpoint total_asked (al : Z) (ops : list alloc_op) : Z :=
  match ops with [] => 0%Z | AllocOp n :: ops => (pad al n + total_asked al ops)%Z | FreeOp _ :: ops => total_asked al ops end.

Lemma run_steps_ok al mx ops : ∀ T a live, (0 < al)%Z → (0 ≤ T)%Z → run_ok al mx T a live → ops_ok al (length live) T ops →
  okP (foldM alloc_step (a, live) ops) (λ st, run_ok al mx (T + total_asked al ops) st.1 st.2 ∧ rg_size <$> st.2 = sizes_after al ops (rg_size <$> live)).
Proof.
  induction ops as [|op ops IH]; intros T a live Hal HT Hrun Hops; [cbn; by rewrite Z.add_0_r|]. cbn [foldM].
  destruct op as [n|i]; cbn [ops_ok] in Hops.
  - destruct Hops as (Hn & Hmax & Hk & Hops). eapply okP_bind; [apply alloc_step_ok; [exact Hrun|done|done|done|lia]|].
    intros [a' live'] [Hrun' [addr Hl]]. cbn [fst snd] in *. subst live'. pose proof (pad_nonneg al n Hal ltac:(lia)).
    eapply okP_mono; [apply (IH (T + pad al n)%Z); [done|lia|done|exact Hops]|]. intros st [H1 H2]. cbn [total_asked sizes_after].
    by rewrite Z.add_assoc.
  - destruct Hops as (Hi & Hops). eapply okP_bind; [apply free_step_ok; [exact Hrun|done]|].
    intros [a' live'] [Hrun' Hl]. cbn [fst snd] in *. subst live'.
    eapply okP_mono; [apply (IH T); [done|lia|done|rewrite length_delete by (by apply lookup_lt_is_Some_2); exact Hops]|]. intros st [H1 H2]. cbn [total_asked sizes_after].
    by rewrite <- list_fmap_delete.
Qed.

(** ** The linear allocator *)

Lemma is_power_of_2_pow a : is_power_of_2 a = true → (0 < a)%Z → a = (2 ^ Z.log2 a)%Z.
Proof.
  unfold is_power_of_2. intros [_ H]%bool_decide_eq_true_1 Ha. pose proof (Z.log2_spec a Ha) as [H1 H2].
  destruct (decide (2 ^ Z.log2 a = a)%Z) as [|Hne]; [done|]. exfalso.
  assert (Hl : Z.log2 (a - 1) = Z.log2 a) by (apply Z.log2_unique; [apply Z.log2_nonneg|lia]).
  assert (Hb : Z.testbit (Z.land a (a - 1)) (Z.log2 a) = true).
  { rewrite Z.land_spec, Z.bit_log2 by done. rewrite <- Hl at 1. apply Z.bit_log2.
    pose proof (Z.pow_pos_nonneg 2 (Z.log2 a) ltac:(lia) (Z.log2_nonneg a)). lia. }
  rewrite H, Z.bits_0 in Hb. done.
Qed.

(** GGML_PAD rounds up *)
Lemma pad_to_pad al n : is_power_of_2 al = true → (0 < al)%Z → (0 ≤ n)%Z → (n + al ≤ SIZE_MAX)%Z → pad_to n al = pad al n.
Proof.
  intros Hp Hal Hn Hmax. unfold pad_to. rewrite u64_id by lia. pose proof (is_power_of_2_pow al Hp Hal) as Hk.
  set (k := Z.log2 al) in *. assert (Hk0 : (0 ≤ k)%Z) by apply Z.log2_nonneg.
  assert (Hk64 : (k < 64)%Z).
  { apply (Z.pow_lt_mono_r_iff 2); [lia|lia|]. rewrite <- Hk. unfold SIZE_MAX in Hmax. lia. }
  set (y := (n + al - 1)%Z).
  assert (Hm : Z.land y (SIZE_MAX - (al - 1)) = Z.ldiff y (Z.ones k)).
  { apply Z.bits_inj'. intros i Hi. rewrite Z.land_spec, Z.ldiff_spec.
    replace (SIZE_MAX - (al - 1))%Z with (Z.shiftl (Z.ones (64 - k)) k).
    - rewrite Z.shiftl_spec by done. destruct (decide (i < k)%Z).
      + rewrite (Z.testbit_neg_r (Z.ones (64 - k)) (i - k)), Z.ones_spec_low by lia. by destruct (Z.testbit y i).
      + rewrite (Z.ones_spec_high k i) by lia. destruct (decide (i < 64)%Z).
        * rewrite Z.ones_spec_low by lia. done.
        * rewrite Z.ones_spec_high by lia. destruct (decide (y = 0)%Z) as [->|Hy]; [by rewrite Z.bits_0|].
          rewrite (Z.bits_above_log2 y i); [done|lia|]. apply Z.lt_le_trans with 64%Z; [|lia].
          apply Z.log2_lt_pow2; [lia|]. unfold SIZE_MAX in Hmax. lia.
    - rewrite Z.shiftl_mul_pow2, Z.ones_equiv by done. rewrite Hk. unfold SIZE_MAX.
      replace (Z.pred (2 ^ (64 - k)) * 2 ^ k)%Z with (2 ^ (64 - k) * 2 ^ k - 2 ^ k)%Z by lia.
      rewrite <- Z.pow_add_r by lia. replace (64 - k + k)%Z with 64%Z by lia. change (2 ^ 64)%Z with 18446744073709551616%Z. lia. }
  rewrite Hm, Z.ldiff_ones_r by done. rewrite Z.shiftl_mul_pow2, Z.shiftr_div_pow2, <- Hk by done.
  destruct (pad_spec al n Hal) as [[q Hq] Hr]. rewrite Hq. f_equal. symmetry. apply (Z.div_unique _ _ _ (y - q * al)); lia.
Qed.

(** the addresses of a run *)
Definition tallocr_step (st : ggml_tallocr * list Z) (n : Z) : res (ggml_tallocr * list Z) :=
  '(t, addr) ← ggml_tallocr_alloc st.1 n; Ok (t, st.2 ++ [addr]).

Fixpoint total_pad (al : Z) (sizes : list Z) : Z := match sizes with [] => 0%Z | n :: sizes => (pad al n + total_pad al sizes)%Z end.

(** where the tensors should be: one after the other *)
Fixpoint layout (al addr : Z) (sizes : list Z) : list Z :=
  match sizes with [] => [] | n :: sizes => addr :: layout al (addr + pad al n) sizes end.

Lemma total_pad_nonneg al sizes : (0 < al)%Z → Forall (λ n, 0 ≤ n)%Z sizes → (0 ≤ total_pad al sizes)%Z.
Proof. intros Hal H. induction H as [|n sizes Hn _ IH]; cbn; [lia|]. pose proof (pad_nonneg al n Hal Hn). lia. Qed.

Lemma tallocr_step_eq base size al off addrs n : is_power_of_2 al = true → (0 < al)%Z → (0 ≤ base)%Z → (base + off ≤ SIZE_MAX)%Z →
  (0 ≤ off)%Z → (0 ≤ n ∧ n + al ≤ SIZE_MAX ∧ off + pad al n ≤ SIZE_MAX)%Z → (al | base + off)%Z →
  tallocr_step (GgmlTallocr base size al off, addrs) n =
    if decide (size < off + pad al n)%Z then Err Abort
    else Ok (GgmlTallocr base size al (off + pad al n), addrs ++ [(base + off)%Z]).
Proof.
  intros Hp Hal Hb Hbo Ho Hn Hdiv. pose proof (pad_nonneg al n Hal ltac:(lia)).
  unfold tallocr_step, ggml_tallocr_alloc. cbn [fst snd tl_alignment tl_size tl_offset tl_base].
  rewrite pad_to_pad by (done || lia). rewrite (u64_id (off + pad al n)), (u64_id (base + off)) by lia.
  destruct (decide (size < off + pad al n)%Z) as [Hover|Hover].
  - rewrite (bool_decide_true (size < _)%Z) by exact Hover. done.
  - rewrite (bool_decide_false (size < _)%Z) by exact Hover. cbn [negb]. rewrite ggml_assert_ok, bind_Ok by done.
    rewrite assert_ok, bind_Ok by (apply bool_decide_eq_true_2; apply Z.mod_divide; [lia|done]). done.
Qed.

Lemma tallocr_steps_ok base size al : is_power_of_2 al = true → (0 < al)%Z → (0 ≤ base)%Z → (0 ≤ size)%Z → (base + size ≤ SIZE_MAX)%Z →
  ∀ sizes off addrs, Forall (λ n, 0 ≤ n ∧ size + n + 2 * al ≤ SIZE_MAX)%Z sizes → (0 ≤ off)%Z → (off ≤ size ∨ off < al)%Z → (base + off ≤ SIZE_MAX)%Z → (al | base + off)%Z →
  match foldM tallocr_step (GgmlTallocr base size al off, addrs) sizes with
  | Ok (t, addrs') => addrs' = addrs ++ layout al (base + off) sizes ∧ (sizes = [] ∨ off + total_pad al sizes ≤ size)%Z
  | Err err => err = Abort ∧ (size < off + total_pad al sizes)%Z
  end.
Proof.
  intros Hp Hal Hb Hs Hbs. induction sizes as [|n sizes IH]; intros off addrs Hsizes Ho Hos Hbo Hdiv.
  - cbn. rewrite app_nil_r. split; [done|by left].
  - apply Forall_cons in Hsizes as [[Hn Hmax] Hsizes]. cbn [foldM total_pad layout].
    destruct (pad_spec al n Hal) as [Hdn Hpn]. rewrite tallocr_step_eq by (done || lia).
    assert (H0 : (0 ≤ total_pad al sizes)%Z).
    { apply total_pad_nonneg; [done|]. eapply Forall_impl; [exact Hsizes|]. cbn. lia. }
    destruct (decide (size < off + pad al n)%Z) as [Hover|Hfit].
    + cbn. split; [done|]. lia.
    + rewrite bind_Ok.
      specialize (IH (off + pad al n)%Z (addrs ++ [(base + off)%Z]) Hsizes ltac:(lia) ltac:(lia) ltac:(lia) ltac:(rewrite Z.add_assoc; by apply Z.divide_add_r)).
      destruct (foldM _ _ _) as [[t addrs']|err].
      * destruct IH as [-> H1]. rewrite <- app_assoc, Z.add_assoc. split; [done|]. right. destruct H1 as [->|H1]; [cbn|]; lia.
      * destruct IH as [-> H1]. split; [done|lia].
Qed.

(** the places of [layout] are aligned and follow each other *)
Lemma layout_spec al sizes : ∀ addr, (0 < al)%Z → (al | addr)%Z → Forall (λ n, 0 ≤ n)%Z sizes →
  length (layout al addr sizes) = length sizes ∧
  ∀ i x n, layout al addr sizes !! i = Some x → sizes !! i = Some n →
    (al | x)%Z ∧ (addr ≤ x)%Z ∧ (x + n ≤ addr + total_pad al sizes)%Z ∧
    ∀ j y, i < j → layout al addr sizes !! j = Some y → (x + n ≤ y)%Z.
Proof.
  induction sizes as [|m sizes IH]; intros addr Hal Hdiv Hs; [split; [done|]; intros; done|].
  apply Forall_cons in Hs as [Hm Hs]. destruct (pad_spec al m Hal) as [Hdm Hpm].
  destruct (IH (addr + pad al m)%Z Hal ltac:(by apply Z.divide_add_r) Hs) as [Hl IH']. cbn [layout length total_pad]. split; [by rewrite Hl|].
  intros [|i] x n Hx Hn; cbn in Hx, Hn.
  - injection Hx as <-. injection Hn as <-. pose proof (total_pad_nonneg al sizes Hal Hs). split_and!; [done|lia|lia|].
    intros [|j] y Hj Hy; [lia|]. cbn in Hy. pose proof (lookup_lt_Some _ _ _ Hy) as Hjl. rewrite Hl in Hjl.
    destruct (lookup_lt_is_Some_2 _ _ Hjl) as [k Hk]. destruct (IH' j y k Hy Hk) as (_ & Hle & _). lia.
  - destruct (IH' i x n Hx Hn) as (H1 & H2 & H3 & H4). split_and!; [done|lia|lia|].
    intros [|j] y Hj Hy; [lia|]. apply (H4 j y); [lia|done].
Qed.

(** ** Properties *)

(** One request of the dynamic allocator: in a state that agrees with the live regions, in which no list of free
    blocks is full and a chunk can be opened or a block is large enough, the request succeeds, the new region is
    aligned, lies within the memory that the chunk is going to need, shares no byte with a live region, and the new
    state agrees with the live regions and the new one.  If no block is large enough and all sixteen chunks are in use
    the request aborts. *)
Theorem dyn_alloc_correct (a : ggml_dyn_tallocr) (live : list region) (n : Z) :
  dyn_ok a live → few_blocks a → (0 ≤ n ∧ n + ta_alignment a ≤ SIZE_MAX / 2)%Z →
  if decide (length (ta_chunks a) < GGML_VBUFFER_MAX_CHUNKS)
  then okP (ggml_dyn_tallocr_alloc a n) (λ '(a', addr), let r := fresh (pad (ta_alignment a) n) addr in
         dyn_ok a' (r :: live) ∧ (∀ r', r' ∈ live → ¬ overlap r r') ∧ (n ≤ rg_size r)%Z ∧
         region_in (ta_alignment a) (ggml_dyn_tallocr_max_size a' (ba_chunk addr)) r)
  else (∀ c i, ¬ fits a (pad (ta_alignment a) n) c i) → ggml_dyn_tallocr_alloc a n = Err Abort.
Proof.
  intros Hok Hfew Hn. case_decide as Hlen.
  - eapply okP_mono; [apply (dyn_alloc_ok a live n Hok Hfew Hn); by left|]. intros [a' addr] [Ha Hok']. cbv zeta.
    destruct (dyn_align _ _ Hok) as [_ Hal]. destruct (pad_spec (ta_alignment a) n ltac:(lia)) as [_ Hpad].
    split_and!; [done|by apply (dyn_ok_disjoint a')|cbn; lia|].
    pose proof (dyn_live _ _ Hok' _ ltac:(left)) as Hc. cbn in Hc. destruct (lookup_lt_is_Some_2 _ _ Hc) as [ck Hck].
    destruct (dyn_chunks _ _ Hok' _ _ Hck) as [cap Hcap]. pose proof (ck_live _ _ _ _ _ Hcap _ ltac:(left) eq_refl) as Hr.
    unfold ggml_dyn_tallocr_max_size. rewrite Hck. by rewrite (handed_align _ _ _ _ Ha) in Hr.
  - intros Hno. pose proof (dyn_n _ _ Hok). apply (dyn_alloc_abort a live n Hok Hn); [lia|done].
Qed.

Definition ex_alloc_state : ggml_dyn_tallocr := DynTallocr 32 1024 [TallocrChunk [FreeBlock 0 64; FreeBlock 128 896] 128].
Definition ex_alloc_live : list region := [Region 0 64 64].

Lemma ex_alloc_dyn_ok : dyn_ok ex_alloc_state ex_alloc_live.
Proof.
  split; cbn; [done|done|unfold GGML_VBUFFER_MAX_CHUNKS; lia| |].
  - intros [|c] ck Hck; cbn in Hck; [|done]. injection Hck as <-. exists 1024%Z. split; cbn.
    + split_and!; done.
    + repeat apply Forall_cons_2; [..|by apply Forall_nil_2]; unfold block_in; cbn; split_and!; try done; [by exists 0%Z|by exists 4%Z].
    + intros r ->%list_elem_of_singleton _. unfold region_in. cbn. split_and!; try done; by exists 2%Z.
    + intros x. unfold free_count, live_count, region_count, ind. csimpl. repeat case_decide; lia.
  - intros r ->%list_elem_of_singleton. cbn. lia.
Qed.

Lemma dyn_alloc_correct_witness : okP (ggml_dyn_tallocr_alloc ex_alloc_state 40) (λ '(a', addr), let r := fresh 64 addr in
  dyn_ok a' (r :: ex_alloc_live) ∧ (∀ r', r' ∈ ex_alloc_live → ¬ overlap r r') ∧ (40 ≤ rg_size r)%Z ∧
  region_in 32 (ggml_dyn_tallocr_max_size a' (ba_chunk addr)) r).
Proof.
  refine (dyn_alloc_correct ex_alloc_state ex_alloc_live 40 ex_alloc_dyn_ok _ _).
  - intros ck ->%list_elem_of_singleton. cbn. unfold MAX_FREE_BLOCKS. lia.
  - split; vm_compute; discriminate.
Defined.

(** Giving back the end of a live region (all of it, or what a smaller tensor does not need) succeeds if no list of
    free blocks is full, and the new state agrees with the live regions, of which the one has become shorter: exactly
    the bytes that were given back are free, however they were merged with their neighbours. *)
Theorem dyn_free_correct (a : ggml_dyn_tallocr) (live : list region) (c : nat) (o t s : Z) :
  dyn_ok a (Region c o t :: live) → few_blocks a → (0 ≤ s)%Z → (pad (ta_alignment a) s ≤ t)%Z →
  okP (ggml_dyn_tallocr_free_bytes a (BufferAddress c (o + (t - pad (ta_alignment a) s))) s)
    (λ a', dyn_ok a' (Region c o (t - pad (ta_alignment a) s) :: live) ∧
       (tidy a → (0 < s)%Z → tidy a') ∧ max_size <$> ta_chunks a' = max_size <$> ta_chunks a).
Proof.
  intros Hok Hfew Hs Hn. eapply okP_mono; [by apply dyn_free_ok|]. intros a' [Hg Hok']. split; [done|]. split.
  - intros Ht H0. destruct (dyn_align _ _ Hok) as [_ Hal]. destruct (pad_spec (ta_alignment a) s ltac:(lia)) as [_ Hpad].
    eapply given_back_tidy; [exact Hok| |done|exact Hg]. lia.
  - destruct Hg as (ck & bs & Hck & _ & ->). cbn [ta_chunks with_chunks]. rewrite list_fmap_insert. cbn [max_size].
    apply list_insert_id. by rewrite list_lookup_fmap, Hck.
Qed.

Lemma dyn_free_correct_witness : okP (ggml_dyn_tallocr_free_bytes ex_alloc_state (BufferAddress 0 96) 20)
  (λ a', dyn_ok a' [Region 0 64 32] ∧ (tidy ex_alloc_state → (0 < 20)%Z → tidy a') ∧ max_size <$> ta_chunks a' = [128%Z]).
Proof.
  refine (dyn_free_correct ex_alloc_state [] 0 64 64 20 ex_alloc_dyn_ok _ _ _).
  - intros ck ->%list_elem_of_singleton. cbn. unfold MAX_FREE_BLOCKS. lia.
  - lia.
  - vm_compute. discriminate.
Defined.

(** C12. Runs of the dynamic allocator: starting with an empty allocator, every sequence of requests and frees of live
    regions with at most 254 live regions at a time, asking for half of the address space at most, runs to its end;
    no two live regions share a byte, each lies within the memory its chunk is going to need, their sizes are the ones
    asked for, rounded up, and no chunk needs more memory than was asked for in all.  The free blocks and the live
    regions make up every chunk: from its first byte to its last one, at least the size that was configured, every
    byte is in exactly one of them, and the free blocks are sorted and merged.  In particular the chunk of last
    resort never runs out and the arrays of free blocks never overflow. *)
Theorem dyn_run_correct (al mx : Z) (ops : list alloc_op) :
  is_power_of_2 al = true → (0 < al ≤ SIZE_MAX / 2)%Z → (0 ≤ mx)%Z → ops_ok al 0 0 ops →
  okP (foldM alloc_step (ggml_dyn_tallocr_new al mx, []) ops) (λ '(a, live),
    rg_size <$> live = sizes_after al ops [] ∧
    (∀ l1 r l2, live = l1 ++ r :: l2 → (∀ r', r' ∈ l1 ++ l2 → ¬ overlap r r') ∧
       region_in al (ggml_dyn_tallocr_max_size a (rg_chunk r)) r) ∧
    (∀ c, ggml_dyn_tallocr_max_size a c ≤ total_asked al ops)%Z ∧
    (∀ c ck, ta_chunks a !! c = Some ck → ∃ cap, (max_size ck ≤ cap ∧ Z.min mx (SIZE_MAX / 2) ≤ cap)%Z ∧
       ∀ x, free_count (free_blocks ck) x + live_count live c x = if decide (0 ≤ x < cap)%Z then 1 else 0) ∧
    tidy a).
Proof.
  intros Hp Hal Hmx Hops. destruct (dyn_new_ok al mx Hp Hal Hmx) as [Hok Ht].
  assert (Hrun : run_ok al mx 0 (ggml_dyn_tallocr_new al mx) []).
  { split; [done|done| | |done|cbn; lia|done|intros ? ? ? Hck; by apply lookup_nil_Some in Hck || done]; [intros ck Hck|intros r Hr]; by apply not_elem_of_nil in Hck || by apply not_elem_of_nil in Hr. }
  eapply okP_mono; [apply (run_steps_ok al mx ops 0 _ []); [lia|lia|exact Hrun|exact Hops]|].
  intros [a live] [[H1 H2 H3 H4 H5 H6 H7 H8] Hsizes]. cbn [fst snd] in *. split_and!; [exact Hsizes| | | |done].
  - intros l1 r l2 Hl. assert (Hperm : live ≡ₚ r :: (l1 ++ l2)) by (rewrite Hl; by rewrite Permutation_middle).
    rewrite Hperm in H1. split; [by apply (dyn_ok_disjoint a)|].
    pose proof (dyn_live _ _ H1 _ ltac:(left)) as Hc. destruct (lookup_lt_is_Some_2 _ _ Hc) as [ck Hck].
    destruct (dyn_chunks _ _ H1 _ _ Hck) as [cap Hcap]. pose proof (ck_live _ _ _ _ _ Hcap _ ltac:(left) eq_refl) as Hr.
    unfold ggml_dyn_tallocr_max_size. rewrite Hck. by rewrite H5 in Hr.
  - intros c. unfold ggml_dyn_tallocr_max_size. destruct (ta_chunks a !! c) as [ck|] eqn:Hck.
    + specialize (H3 ck ltac:(by eapply list_elem_of_lookup_2)). lia.
    + clear -Hops Hal. enough (∀ k T, ops_ok al k T ops → (0 ≤ total_asked al ops)%Z) as H by (by apply (H 0 0%Z)). clear Hops.
      induction ops as [|[n|i] ops IH]; intros k T Hops; cbn [ops_ok total_asked] in *; [lia| |].
      * destruct Hops as (Hn & _ & _ & Hops). pose proof (pad_nonneg al n ltac:(lia) ltac:(lia)). specialize (IH _ _ Hops). lia.
      * destruct Hops as (_ & Hops). by eapply IH.
  - intros c ck Hck. destruct (dyn_chunks _ _ H1 _ _ Hck) as [cap Hcap]. exists cap. pose proof (ck_cap _ _ _ _ _ Hcap) as (Hm & _).
    split; [split; [lia|]|exact (ck_part _ _ _ _ _ Hcap)].
    destruct (decide (Z.min mx (SIZE_MAX / 2) ≤ cap)%Z) as [|Hlt]; [done|exfalso].
    pose proof (H8 c ck cap Hck ltac:(lia)) as Hone. rewrite (ck_part _ _ _ _ _ Hcap) in Hone. unfold ind in Hone.
    rewrite decide_False in Hone by lia. done.
Qed.

Lemma dyn_run_correct_witness : okP (foldM alloc_step (ggml_dyn_tallocr_new 32 256, []) [AllocOp 100; AllocOp 50; FreeOp 1; AllocOp 60; AllocOp 200]) (λ '(a, live),
    rg_size <$> live = [224; 64; 64]%Z ∧
    (∀ l1 r l2, live = l1 ++ r :: l2 → (∀ r', r' ∈ l1 ++ l2 → ¬ overlap r r') ∧
       region_in 32 (ggml_dyn_tallocr_max_size a (rg_chunk r)) r) ∧
    (∀ c, ggml_dyn_tallocr_max_size a c ≤ 480)%Z ∧
    (∀ c ck, ta_chunks a !! c = Some ck → ∃ cap, (max_size ck ≤ cap ∧ 256 ≤ cap)%Z ∧
       ∀ x, free_count (free_blocks ck) x + live_count live c x = if decide (0 ≤ x < cap)%Z then 1 else 0) ∧ tidy a).
Proof.
  refine (dyn_run_correct 32 256 [AllocOp 100; AllocOp 50; FreeOp 1; AllocOp 60; AllocOp 200] eq_refl _ _ _); [split; [lia|vm_compute; discriminate]|lia|].
  cbn [ops_ok]. assert (H : (1000000 < SIZE_MAX / 2)%Z) by (vm_compute; reflexivity).
  assert (Hp : pad 32 100 = 128%Z ∧ pad 32 50 = 64%Z ∧ pad 32 60 = 64%Z) by (split_and!; reflexivity).
  destruct Hp as (-> & -> & ->). repeat split; lia.
Defined.

(** The linear allocator: the tensors of a run are placed one after the other from the first aligned address of the
    buffer, each at an aligned address, without overlap and inside the buffer; the run aborts exactly if the rounded
    sizes do not fit. *)
Theorem tallocr_run_correct (base size al : Z) (sizes : list Z) :
  is_power_of_2 al = true → (0 < al)%Z → (0 ≤ base)%Z → (0 ≤ size)%Z → (base + size ≤ SIZE_MAX)%Z → (base + al ≤ SIZE_MAX)%Z →
  Forall (λ n, 0 ≤ n ∧ size + n + 2 * al ≤ SIZE_MAX)%Z sizes →
  match t ← ggml_tallocr_new base size al; foldM tallocr_step (t, []) sizes with
  | Ok (t, addrs) => length addrs = length sizes ∧ ∀ i x n, addrs !! i = Some x → sizes !! i = Some n →
      (al | x)%Z ∧ (base ≤ x)%Z ∧ (x + n ≤ base + size)%Z ∧ ∀ j y, i < j → addrs !! j = Some y → (x + n ≤ y)%Z
  | Err err => err = Abort ∧ (base + size < pad al base + total_pad al sizes)%Z
  end.
Proof.
  intros Hp Hal Hb Hs Hbs Hba Hsizes. unfold ggml_tallocr_new. rewrite assert_ok, bind_Ok by done.
  rewrite aligned_offset_ok by (done || lia). rewrite Z.add_0_r, !bind_Ok. destruct (pad_spec al base Hal) as [Hd Hpad].
  pose proof (tallocr_steps_ok base size al Hp Hal Hb Hs Hbs sizes (pad al base - base) [] Hsizes ltac:(lia) ltac:(lia) ltac:(lia)) as H.
  replace (base + (pad al base - base))%Z with (pad al base) in H by lia. specialize (H Hd).
  destruct (foldM _ _ _) as [[t addrs]|err].
  - destruct H as [-> Hfit]. cbn [app].
    destruct (layout_spec al sizes (pad al base) Hal Hd) as [Hl H]; [eapply Forall_impl; [exact Hsizes|]; cbn; lia|].
    split; [done|]. intros i x n Hx Hn. destruct (H i x n Hx Hn) as (H1 & H2 & H3 & H4).
    destruct Hfit as [->|Hfit]; [done|]. split_and!; [exact H1|lia|lia|exact H4].
  - destruct H as [-> H]. split; [done|lia].
Qed.

Definition ex_sizes_fit : list Z := [100; 50; 70]%Z.
Definition ex_sizes_over : list Z := [100; 50; 170]%Z.
Definition ex_tallocr_run (sizes : list Z) : res (ggml_tallocr * list Z) := t ← ggml_tallocr_new 1000 400 32; foldM tallocr_step (t, []) sizes.

Example ex_tallocr_run_ok : ex_tallocr_run ex_sizes_fit = Ok (GgmlTallocr 1000 400 32 312, [1024; 1152; 1216]%Z).
Proof. vm_compute. reflexivity. Qed.

Lemma tallocr_run_correct_witness :
  (∃ t addrs, ex_tallocr_run ex_sizes_fit = Ok (t, addrs) ∧ ∀ i x n, addrs !! i = Some x → ex_sizes_fit !! i = Some n →
      (32 | x)%Z ∧ (1000 ≤ x)%Z ∧ (x + n ≤ 1000 + 400)%Z ∧ ∀ j y, i < j → addrs !! j = Some y → (x + n ≤ y)%Z) ∧
  ex_tallocr_run ex_sizes_over = Err Abort.
Proof.
  assert (Hs : ∀ l, Forall (λ n, 0 ≤ n ≤ 1000)%Z l → Forall (λ n, 0 ≤ n ∧ 400 + n + 2 * 32 ≤ SIZE_MAX)%Z l).
  { intros l H. eapply Forall_impl; [exact H|]. cbn. unfold SIZE_MAX. lia. }
  pose proof (λ l H, tallocr_run_correct 1000 400 32 l eq_refl ltac:(lia) ltac:(lia) ltac:(lia) ltac:(unfold SIZE_MAX; lia) ltac:(unfold SIZE_MAX; lia) (Hs l H)) as H.
  split.
  - specialize (H ex_sizes_fit ltac:(repeat constructor; lia)). fold (ex_tallocr_run ex_sizes_fit) in H.
    rewrite ex_tallocr_run_ok in *. eexists _, _. split; [reflexivity|]. exact (proj2 H).
  - specialize (H ex_sizes_over ltac:(repeat constructor; lia)). fold (ex_tallocr_run ex_sizes_over) in H.
    destruct (ex_tallocr_run ex_sizes_over) as [[t addrs]|err] eqn:He; [vm_compute in He; done|]. by destruct H as [-> _].
Defined.
