(* ===== verification/HashSet.v ===== *)
(** The hash set of tensors of src/ggml/src/ggml-impl.h (ggml_bitset_t, ggml_hash_set) and ggml_hash_size of
    src/ggml/src/ggml.c, and the interface [TensorTable] that the graph allocator needs of it.  A tensor is its
    address; the bits of a bitset are in words of 32 bits. *)
From S2P Require Import Prelude.
From Stdlib Require Import Sorting.Sorted.

(** ** Bit sets *)

Definition bit_mask (i : nat) : Z := Z.shiftl 1 (Z.of_nat (Nat.land i 31)).

Definition ggml_bitset_size (n : nat) : nat := Nat.shiftr (n + 31) 5.

Definition ggml_bitset_get (bitset : list Z) (i : nat) : res bool :=
  w ← vget bitset (Nat.shiftr i 5);
  Ok (bool_decide (Z.land w (bit_mask i) ≠ 0)%Z).

Definition ggml_bitset_set (bitset : list Z) (i : nat) : res (list Z) :=
  w ← vget bitset (Nat.shiftr i 5);
  vset bitset (Nat.shiftr i 5) (Z.lor w (bit_mask i)).

Definition ggml_bitset_clear (bitset : list Z) (i : nat) : res (list Z) :=
  w ← vget bitset (Nat.shiftr i 5);
  vset bitset (Nat.shiftr i 5) (Z.land w (4294967295 - bit_mask i)).

(** ** The hash set *)

Record ggml_hash_set := HashSet { hs_size : nat; hs_used : list Z; hs_keys : list Z }.

Definition ggml_hash (p : Z) : Z := Z.shiftr p 4.

(** ggml_hash(key) % hash_set->size *)
Definition home (hs : ggml_hash_set) (key : Z) : res nat :=
  if decide (hs_size hs = 0) then Err DivByZero else Ok (Z.to_nat (ggml_hash key mod Z.of_nat (hs_size hs))).

Definition next_slot (hs : ggml_hash_set) (i : nat) : nat := (i + 1) mod hs_size hs.

(** the loops stop when they are back at [h]; None is GGML_HASHSET_FULL *)
Fixpoint hash_find_loop (fuel : nat) (hs : ggml_hash_set) (key : Z) (h i : nat) : res (option nat) :=
  match fuel with
  | 0 => Err OutOfFuel
  | S fuel =>
      used ← ggml_bitset_get (hs_used hs) i;
      if (used : bool) then
        k ← vget (hs_keys hs) i;
        if decide (k = key) then Ok (Some i)
        else
          let i := next_slot hs i in
          if decide (i = h) then Ok None else hash_find_loop fuel hs key h i
      else Ok (Some i)
  end.

Definition ggml_hash_find (hs : ggml_hash_set) (key : Z) : res (option nat) :=
  h ← home hs key; hash_find_loop (hs_size hs) hs key h h.

Definition ggml_hash_contains (hs : ggml_hash_set) (key : Z) : res bool :=
  r ← ggml_hash_find hs key;
  match r with None => Ok false | Some i => ggml_bitset_get (hs_used hs) i end.

(** The common loop of ggml_hash_insert and ggml_hash_find_or_insert: the slot of the key, and whether it was there.
    When every slot was visited the program aborts. *)
Fixpoint hash_insert_loop (fuel : nat) (hs : ggml_hash_set) (key : Z) (h i : nat) : res (ggml_hash_set * nat * bool) :=
  match fuel with
  | 0 => Err OutOfFuel
  | S fuel =>
      used ← ggml_bitset_get (hs_used hs) i;
      if (used : bool) then
        k ← vget (hs_keys hs) i;
        if decide (k = key) then Ok (hs, i, true)
        else
          let i := next_slot hs i in
          if decide (i = h) then Err Abort else hash_insert_loop fuel hs key h i
      else
        used ← ggml_bitset_set (hs_used hs) i;
        keys ← vset (hs_keys hs) i key;
        Ok (HashSet (hs_size hs) used keys, i, false)
  end.

(** None is GGML_HASHSET_ALREADY_EXISTS *)
Definition ggml_hash_insert (hs : ggml_hash_set) (key : Z) : res (ggml_hash_set * option nat) :=
  h ← home hs key;
  '(hs, i, found) ← hash_insert_loop (hs_size hs) hs key h h;
  Ok (hs, if (found : bool) then None else Some i).

Definition ggml_hash_find_or_insert (hs : ggml_hash_set) (key : Z) : res (ggml_hash_set * nat) :=
  h ← home hs key;
  '(hs, i, _) ← hash_insert_loop (hs_size hs) hs key h h;
  Ok (hs, i).

Definition ggml_hash_set_reset (hs : ggml_hash_set) : ggml_hash_set :=
  HashSet (hs_size hs) (replicate (ggml_bitset_size (hs_size hs)) 0%Z) (hs_keys hs).

(** ** Sizes *)

Definition primes : list Z := [2; 3; 5; 11; 17; 37; 67; 131; 257; 521; 1031;
  2053; 4099; 8209; 16411; 32771; 65537; 131101;
  262147; 524309; 1048583; 2097169; 4194319; 8388617;
  16777259; 33554467; 67108879; 134217757; 268435459;
  536870923; 1073741827; 2147483659]%Z.

(** while (l < r): the smallest prime that is not below [min_sz] *)
Fixpoint prime_search (fuel : nat) (min_sz : Z) (l r : nat) : res nat :=
  match fuel with
  | 0 => Err OutOfFuel
  | S fuel =>
      if decide (l < r) then
        let m := (l + r) / 2 in
        p ← vget primes m;
        if decide (p < min_sz)%Z then prime_search fuel min_sz (m + 1) r else prime_search fuel min_sz l m
      else Ok l
  end.

Definition ggml_hash_size (min_sz : Z) : res Z :=
  l ← prime_search (length primes + 1) min_sz 0 (length primes);
  Ok (match primes !! l with Some p => p | None => Z.lor min_sz 1 end).

(** [keys] is what malloc returned *)
Definition ggml_hash_set_new (size : Z) (keys : nat → list Z) : res ggml_hash_set :=
  size ← ggml_hash_size size;
  let n := Z.to_nat size in
  Ok (HashSet n (replicate (ggml_bitset_size n) 0%Z) (keys n)).

(** ** What a table of tensors promises *)

Class TensorTable (T : Type) := {
  find_or_insert : T → Z → res (T * nat);
  table_reset : T → T;
  table_size : T → nat;
  (* the keys of the table and where they are *)
  table_keys : T → gset Z;
  index_of : T → Z → option nat;
  table_ok : T → Prop }.

Class TensorTableLaws (T : Type) `{TensorTable T} := {
  index_keys (t : T) (k : Z) : table_ok t → is_Some (index_of t k) ↔ k ∈ table_keys t;
  index_inj (t : T) (k k' : Z) (i : nat) : table_ok t → index_of t k = Some i → index_of t k' = Some i → k = k';
  index_lt (t : T) (k : Z) (i : nat) : table_ok t → index_of t k = Some i → i < table_size t;
  find_present (t : T) (k : Z) (i : nat) : table_ok t → index_of t k = Some i → find_or_insert t k = Ok (t, i);
  find_absent (t : T) (k : Z) : table_ok t → k ∉ table_keys t → size (table_keys t) < table_size t →
    okP (find_or_insert t k) (λ '(t', i), table_ok t' ∧ table_size t' = table_size t ∧ table_keys t' = {[k]} ∪ table_keys t ∧
      ∀ k', index_of t' k' = if decide (k' = k) then Some i else index_of t k');
  find_full (t : T) (k : Z) : table_ok t → 0 < table_size t → k ∉ table_keys t → table_size t ≤ size (table_keys t) →
    find_or_insert t k = Err Abort;
  reset_ok (t : T) : table_ok t → table_ok (table_reset t) ∧ table_size (table_reset t) = table_size t ∧
    table_keys (table_reset t) = ∅ }.

(** ** Bits *)

Definition bit_at (bitset : list Z) (i : nat) : bool :=
  match bitset !! (Nat.shiftr i 5) with Some w => Z.testbit w (Z.of_nat (Nat.land i 31)) | None => false end.

Lemma land_31 i : Nat.land i 31 = i mod 32.
Proof. change 31 with (Nat.ones 5). by rewrite Nat.land_ones. Qed.

Lemma bit_mask_spec i j : (0 ≤ j)%Z → Z.testbit (bit_mask i) j = bool_decide (j = Z.of_nat (Nat.land i 31)).
Proof.
  intros Hj. unfold bit_mask. rewrite Z.shiftl_spec by done. destruct (decide (j = Z.of_nat (Nat.land i 31))) as [->|Hne].
  - rewrite Z.sub_diag. by rewrite bool_decide_true.
  - rewrite bool_decide_false by done. destruct (decide (j < Z.of_nat (Nat.land i 31))%Z).
    + by rewrite Z.testbit_neg_r by lia.
    + change 1%Z with (2 ^ 0)%Z. rewrite Z.pow2_bits_false; [done|]. lia.
Qed.

Lemma bitset_get_ok bitset i : Nat.shiftr i 5 < length bitset → ggml_bitset_get bitset i = Ok (bit_at bitset i).
Proof.
  intros Hi. unfold ggml_bitset_get, bit_at. destruct (lookup_lt_is_Some_2 _ _ Hi) as [w Hw].
  rewrite (vget_ok _ _ _ Hw), bind_Ok, Hw. f_equal. apply eq_bool_prop_intro. rewrite bool_decide_spec. split.
  - intros Hne. destruct (Z.testbit w _) eqn:Hb; [done|]. destruct Hne. apply Z.bits_inj'. intros j Hj.
    rewrite Z.land_spec, bit_mask_spec, Z.bits_0 by done. case_bool_decide as He; [by rewrite He, Hb|apply andb_false_r].
  - intros Hb Hz. assert (H : Z.testbit (Z.land w (bit_mask i)) (Z.of_nat (Nat.land i 31)) = false) by (by rewrite Hz, Z.bits_0).
    rewrite Z.land_spec, bit_mask_spec, bool_decide_true in H by (done || lia). rewrite andb_true_r in H. by rewrite H in Hb.
Qed.

Lemma bitset_set_ok bitset i : Nat.shiftr i 5 < length bitset →
  okP (ggml_bitset_set bitset i) (λ b', length b' = length bitset ∧ ∀ j, bit_at b' j = bool_decide (j = i) || bit_at bitset j).
Proof.
  intros Hi. unfold ggml_bitset_set. destruct (lookup_lt_is_Some_2 _ _ Hi) as [w Hw].
  rewrite (vget_ok _ _ _ Hw), bind_Ok, vset_ok by done. cbn. split; [apply length_insert|]. intros j. unfold bit_at.
  destruct (decide (Nat.shiftr j 5 = Nat.shiftr i 5)) as [He|Hne].
  - rewrite He, list_lookup_insert_eq, Hw by done. rewrite Z.lor_spec, bit_mask_spec, orb_comm by lia. f_equal.
    apply bool_decide_ext. split; [|intros ->; done]. intros Hm%Nat2Z.inj. rewrite !land_31 in Hm. rewrite !Nat.shiftr_div_pow2 in He.
    change (2 ^ 5) with 32 in He. rewrite (Nat.div_mod_eq j 32), (Nat.div_mod_eq i 32). lia.
  - rewrite list_lookup_insert_ne by done. rewrite bool_decide_false; [done|]. by intros ->.
Qed.

Lemma bitset_size_enough n i : i < n → Nat.shiftr i 5 < ggml_bitset_size n.
Proof.
  intros Hi. unfold ggml_bitset_size. rewrite !Nat.shiftr_div_pow2. change (2 ^ 5) with 32.
  pose proof (Nat.div_mod_eq i 32). pose proof (Nat.div_mod_eq (n + 31) 32). pose proof (Nat.mod_upper_bound i 32 ltac:(lia)).
  pose proof (Nat.mod_upper_bound (n + 31) 32 ltac:(lia)). lia.
Qed.

Lemma bit_at_replicate n i : bit_at (replicate n 0%Z) i = false.
Proof.
  unfold bit_at. destruct (replicate n 0%Z !! _) as [w|] eqn:H; [|done]. apply lookup_replicate in H as [-> _]. apply Z.bits_0.
Qed.

(** clearing a bit, as the code does it on a word of 32 bits *)
Lemma bitset_clear_ok bitset i : Nat.shiftr i 5 < length bitset → Forall (λ w, 0 ≤ w < 2 ^ 32)%Z bitset →
  okP (ggml_bitset_clear bitset i) (λ b', length b' = length bitset ∧ ∀ j, bit_at b' j = negb (bool_decide (j = i)) && bit_at bitset j).
Proof.
  intros Hi Hw32. unfold ggml_bitset_clear. destruct (lookup_lt_is_Some_2 _ _ Hi) as [w Hw].
  rewrite (vget_ok _ _ _ Hw), bind_Ok, vset_ok by done. cbn. split; [apply length_insert|]. intros j. unfold bit_at.
  rewrite Forall_lookup in Hw32. specialize (Hw32 _ _ Hw). cbn in Hw32.
  assert (Hm : (4294967295 - bit_mask i)%Z = Z.ldiff (Z.ones 32) (bit_mask i)).
  { change 4294967295%Z with (Z.ones 32). apply Z.sub_nocarry_ldiff. apply Z.bits_inj'. intros k Hk.
    rewrite Z.ldiff_spec, bit_mask_spec, Z.bits_0 by done. case_bool_decide as He; [|done]. rewrite land_31 in He.
    rewrite Z.ones_spec_low; [done|]. pose proof (Nat.mod_upper_bound i 32 ltac:(lia)). lia. }
  rewrite Hm. destruct (decide (Nat.shiftr j 5 = Nat.shiftr i 5)) as [He|Hne].
  - rewrite He, list_lookup_insert_eq, Hw by done. rewrite Z.land_spec, Z.ldiff_spec, bit_mask_spec by lia.
    rewrite Z.ones_spec_low by (rewrite land_31; pose proof (Nat.mod_upper_bound j 32 ltac:(lia)); lia).
    rewrite andb_true_l, andb_comm. f_equal. f_equal. apply bool_decide_ext. split; [|intros ->; done].
    intros Hmm%Nat2Z.inj. rewrite !land_31 in Hmm. rewrite !Nat.shiftr_div_pow2 in He. change (2 ^ 5) with 32 in He.
    rewrite (Nat.div_mod_eq j 32), (Nat.div_mod_eq i 32). lia.
  - rewrite list_lookup_insert_ne by done. rewrite bool_decide_false; [done|]. by intros ->.
Qed.

(** ** Slots *)

Definition slot (hs : ggml_hash_set) (i : nat) : option Z := if bit_at (hs_used hs) i then hs_keys hs !! i else None.

Definition home_of (hs : ggml_hash_set) (key : Z) : nat := Z.to_nat (ggml_hash key mod Z.of_nat (hs_size hs)).

(** the [d]-th slot that is visited for a key *)
Definition visit (hs : ggml_hash_set) (key : Z) (d : nat) : nat := (home_of hs key + d) mod hs_size hs.

Record hs_ok (hs : ggml_hash_set) : Prop := {
  hs_pos : 0 < hs_size hs;
  hs_used_len : length (hs_used hs) = ggml_bitset_size (hs_size hs);
  hs_keys_len : length (hs_keys hs) = hs_size hs;
  hs_once : ∀ i i' k, slot hs i = Some k → slot hs i' = Some k → i = i';
  (* a key is found before any free slot *)
  hs_reach : ∀ i k, slot hs i = Some k → ∃ d, d < hs_size hs ∧ i = visit hs k d ∧ ∀ d', d' < d → is_Some (slot hs (visit hs k d')) }.

Lemma home_lt hs key : 0 < hs_size hs → home_of hs key < hs_size hs.
Proof. intros H. unfold home_of. pose proof (Z.mod_pos_bound (ggml_hash key) (Z.of_nat (hs_size hs)) ltac:(lia)). lia. Qed.

Lemma visit_lt hs key d : 0 < hs_size hs → visit hs key d < hs_size hs.
Proof. intros H. apply Nat.mod_upper_bound. lia. Qed.

Lemma visit_0 hs key : 0 < hs_size hs → visit hs key 0 = home_of hs key.
Proof. intros H. unfold visit. rewrite Nat.add_0_r. apply Nat.mod_small. by apply home_lt. Qed.

Lemma next_visit hs key d : 0 < hs_size hs → next_slot hs (visit hs key d) = visit hs key (S d).
Proof. intros H. unfold next_slot, visit. rewrite Nat.Div0.add_mod_idemp_l. f_equal. lia. Qed.

Lemma visit_back hs key d : 0 < hs_size hs → 0 < d ≤ hs_size hs → visit hs key d = home_of hs key ↔ d = hs_size hs.
Proof.
  intros H Hd. pose proof (home_lt hs key H) as Hh. unfold visit. split.
  - intros He. destruct (decide (home_of hs key + d < hs_size hs)) as [Hs|Hs].
    + rewrite Nat.mod_small in He by done. lia.
    + destruct (decide (d = hs_size hs)); [done|]. replace (home_of hs key + d) with ((home_of hs key + d - hs_size hs) + 1 * hs_size hs) in He by lia.
      rewrite Nat.Div0.mod_add, Nat.mod_small in He by lia. lia.
  - intros ->. replace (home_of hs key + hs_size hs) with (home_of hs key + 1 * hs_size hs) by lia.
    rewrite Nat.Div0.mod_add. by apply Nat.mod_small.
Qed.

(** every slot is visited *)
Lemma visit_all hs key i : i < hs_size hs → ∃ d, d < hs_size hs ∧ i = visit hs key d.
Proof.
  intros Hi. pose proof (home_lt hs key ltac:(lia)) as Hh. unfold visit. destruct (decide (home_of hs key ≤ i)).
  - exists (i - home_of hs key). split; [lia|]. rewrite Nat.mod_small; lia.
  - exists (i + hs_size hs - home_of hs key). split; [lia|].
    replace (home_of hs key + (i + hs_size hs - home_of hs key)) with (i + 1 * hs_size hs) by lia.
    rewrite Nat.Div0.mod_add. symmetry. by apply Nat.mod_small.
Qed.

Lemma get_slot hs i : hs_ok hs → i < hs_size hs → ggml_bitset_get (hs_used hs) i = Ok (bool_decide (is_Some (slot hs i))).
Proof.
  intros Hok Hi. rewrite bitset_get_ok by (rewrite hs_used_len by done; by apply bitset_size_enough). f_equal.
  unfold slot. destruct (bit_at _ _); [|done]. rewrite bool_decide_true; [done|]. apply lookup_lt_is_Some_2. by rewrite hs_keys_len.
Qed.

Lemma slot_key hs i k : slot hs i = Some k → hs_keys hs !! i = Some k.
Proof. unfold slot. by destruct (bit_at _ _). Qed.

Lemma slot_lt hs i k : hs_ok hs → slot hs i = Some k → i < hs_size hs.
Proof. intros Hok H%slot_key%lookup_lt_Some. by rewrite hs_keys_len in H. Qed.

Lemma home_ok hs key : hs_ok hs → home hs key = Ok (home_of hs key).
Proof. intros Hok. unfold home. rewrite decide_False; [done|]. pose proof (hs_pos _ Hok). lia. Qed.

(** ** Probing *)

(** the first [d] slots that are visited for [key] hold other keys *)
Definition passed (hs : ggml_hash_set) (key : Z) (d : nat) : Prop := ∀ d', d' < d → ∃ k, slot hs (visit hs key d') = Some k ∧ k ≠ key.

Lemma passed_S hs key d k : passed hs key d → slot hs (visit hs key d) = Some k → k ≠ key → passed hs key (S d).
Proof. intros Hp Hk Hne d' Hd. destruct (decide (d' = d)) as [->|]; [by exists k|]. apply Hp. lia. Qed.

Lemma insert_loop_spec hs key : hs_ok hs → ∀ fuel d, d + fuel = hs_size hs → 0 < fuel → passed hs key d →
  match hash_insert_loop fuel hs key (home_of hs key) (visit hs key d) with
  | Ok (hs', i, true) => hs' = hs ∧ slot hs i = Some key
  | Ok (hs', i, false) => ∃ d', d' < hs_size hs ∧ i = visit hs key d' ∧ passed hs key d' ∧ slot hs i = None ∧
      hs_size hs' = hs_size hs ∧ length (hs_used hs') = length (hs_used hs) ∧ length (hs_keys hs') = length (hs_keys hs) ∧
      ∀ j, slot hs' j = if decide (j = i) then Some key else slot hs j
  | Err e => e = Abort ∧ passed hs key (hs_size hs)
  end.
Proof.
  intros Hok. pose proof (hs_pos _ Hok) as Hpos. induction fuel as [|fuel IH]; intros d Hd Hf Hp; [lia|]. cbn [hash_insert_loop].
  pose proof (visit_lt hs key d Hpos) as Hv. rewrite (get_slot _ _ Hok Hv), bind_Ok.
  destruct (slot hs (visit hs key d)) as [k|] eqn:Hs.
  - rewrite bool_decide_true by done. rewrite (vget_ok _ _ k) by (by apply slot_key). rewrite bind_Ok.
    destruct (decide (k = key)) as [->|Hne]; [done|]. pose proof (passed_S _ _ _ _ Hp Hs Hne) as Hp'.
    cbv zeta. rewrite next_visit by done. pose proof (visit_back hs key (S d) Hpos ltac:(lia)) as Hback.
    destruct (decide (visit hs key (S d) = home_of hs key)) as [He|He].
    + split; [done|]. apply Hback in He. by rewrite <- He.
    + apply IH; [lia| |done]. destruct fuel; [|lia]. destruct He. apply Hback. lia.
  - rewrite bool_decide_false by (by intros [? ?]). 
    destruct (proj1 (okP_ok _ _) (bitset_set_ok (hs_used hs) (visit hs key d) ltac:(rewrite hs_used_len by done; by apply bitset_size_enough))) as (used & -> & Hul & Hbits).
    rewrite bind_Ok, vset_ok, bind_Ok by (by rewrite hs_keys_len). exists d. cbn [hs_size hs_used hs_keys].
    split_and!; [lia|done|done|done|done|done|by rewrite length_insert|]. intros j. unfold slot at 1. cbn [hs_used hs_keys]. rewrite Hbits.
    case_decide as Hj.
    + subst j. rewrite bool_decide_true by done. cbn. rewrite list_lookup_insert_eq; [done|]. by rewrite hs_keys_len.
    + rewrite bool_decide_false by done. cbn [orb]. by rewrite list_lookup_insert_ne.
Qed.

Lemma find_loop_spec hs key : hs_ok hs → ∀ fuel d, d + fuel = hs_size hs → 0 < fuel → passed hs key d →
  okP (hash_find_loop fuel hs key (home_of hs key) (visit hs key d)) (λ r, match r with
    | Some i => slot hs i = Some key ∨ (∃ d', d' < hs_size hs ∧ i = visit hs key d' ∧ passed hs key d' ∧ slot hs i = None)
    | None => passed hs key (hs_size hs) end).
Proof.
  intros Hok. pose proof (hs_pos _ Hok) as Hpos. induction fuel as [|fuel IH]; intros d Hd Hf Hp; [lia|]. cbn [hash_find_loop].
  pose proof (visit_lt hs key d Hpos) as Hv. rewrite (get_slot _ _ Hok Hv), bind_Ok.
  destruct (slot hs (visit hs key d)) as [k|] eqn:Hs.
  - rewrite bool_decide_true by done. rewrite (vget_ok _ _ k) by (by apply slot_key). rewrite bind_Ok.
    destruct (decide (k = key)) as [->|Hne]; [by left|]. pose proof (passed_S _ _ _ _ Hp Hs Hne) as Hp'.
    cbv zeta. rewrite next_visit by done. pose proof (visit_back hs key (S d) Hpos ltac:(lia)) as Hback.
    destruct (decide (visit hs key (S d) = home_of hs key)) as [He|He].
    + apply Hback in He. cbn. by rewrite <- He.
    + apply IH; [lia| |done]. destruct fuel; [|lia]. destruct He. apply Hback. lia.
  - rewrite bool_decide_false by (by intros [? ?]). cbn. right. exists d. split_and!; [lia|done|done|done].
Qed.

(** a key that is in a slot is met before a free slot, and on every tour *)
Lemma reach_not_passed hs key i d : hs_ok hs → slot hs i = Some key → passed hs key d → (d = hs_size hs ∨ slot hs (visit hs key d) = None) → False.
Proof.
  intros Hok Hi Hp Hend. destruct (hs_reach _ Hok _ _ Hi) as (d0 & Hd0 & -> & Hr).
  destruct (decide (d0 < d)) as [Hlt|Hge]; [destruct (Hp d0 Hlt) as (k & Hk & Hne); congruence|].
  destruct Hend as [->|Hn]; [lia|]. destruct (decide (d = d0)) as [->|]; [congruence|].
  destruct (Hr d ltac:(lia)) as [k Hk]. congruence.
Qed.

(** ** The keys of a set *)

Definition key_list (hs : ggml_hash_set) : list Z := omap (slot hs) (seq 0 (hs_size hs)).
Definition keys_of (hs : ggml_hash_set) : gset Z := list_to_set (key_list hs).
Definition slot_of (hs : ggml_hash_set) (k : Z) : option nat := fst <$> list_find (λ i, slot hs i = Some k) (seq 0 (hs_size hs)).

Lemma slot_of_Some hs k i : hs_ok hs → slot_of hs k = Some i ↔ slot hs i = Some k.
Proof.
  intros Hok. unfold slot_of. split.
  - destruct (list_find _ _) as [[j x]|] eqn:Hf; [|done]. intros [= <-]. apply list_find_Some in Hf as (Hl & Hs & _).
    apply lookup_seq in Hl as [-> _]. done.
  - intros Hs. pose proof (slot_lt _ _ _ Hok Hs) as Hi.
    destruct (list_find (λ i, slot hs i = Some k) (seq 0 (hs_size hs))) as [[j x]|] eqn:Hf.
    + apply list_find_Some in Hf as (Hl & Hs' & _). apply lookup_seq in Hl as [-> _]. cbn in *. f_equal. by eapply hs_once.
    + rewrite list_find_None, Forall_forall in Hf. destruct (Hf i); [apply elem_of_seq; lia|done].
Qed.

Lemma elem_of_keys hs k : hs_ok hs → k ∈ keys_of hs ↔ ∃ i, slot hs i = Some k.
Proof.
  intros Hok. unfold keys_of, key_list. rewrite elem_of_list_to_set, list_elem_of_omap. split.
  - intros (i & _ & Hi). by exists i.
  - intros [i Hi]. exists i. split; [|done]. apply elem_of_seq. pose proof (slot_lt _ _ _ Hok Hi). lia.
Qed.

Lemma key_list_nodup hs : hs_ok hs → NoDup (key_list hs).
Proof.
  intros Hok. unfold key_list. assert (Hn : NoDup (seq 0 (hs_size hs))) by apply NoDup_seq. revert Hn.
  induction (seq 0 (hs_size hs)) as [|i l IH]; intros [Hi Hl]%NoDup_cons || intros _; cbn; [constructor|].
  destruct (slot hs i) as [k|] eqn:Hk; [|by apply IH]. apply NoDup_cons. split; [|by apply IH].
  intros (j & Hj & Hjk)%list_elem_of_omap. by rewrite (hs_once _ Hok _ _ _ Hk Hjk) in Hi.
Qed.

Lemma keys_size hs : hs_ok hs → size (keys_of hs) = length (key_list hs).
Proof. intros Hok. unfold keys_of. apply size_list_to_set. by apply key_list_nodup. Qed.

Lemma omap_length {A B} (f : A → option B) (l : list A) : length (omap f l) ≤ length l ∧ (length (omap f l) = length l ↔ ∀ x, x ∈ l → is_Some (f x)).
Proof.
  induction l as [|x l [IH1 IH2]]; csimpl; [split; [done|]; split; [set_solver|done]|].
  destruct (f x) as [y|] eqn:Hf; csimpl; split; [lia| |lia|].
  - split; [intros [= He] z [->|Hz]%elem_of_cons; [done|]; by apply IH2|]. intros H. f_equal. apply IH2. intros z Hz. apply H. by right.
  - split; [lia|]. intros H. specialize (H x ltac:(left)). rewrite Hf in H. by destruct H.
Qed.

Lemma keys_size_le hs : hs_ok hs → size (keys_of hs) ≤ hs_size hs ∧ (size (keys_of hs) = hs_size hs ↔ ∀ i, i < hs_size hs → is_Some (slot hs i)).
Proof.
  intros Hok. rewrite keys_size by done. destruct (omap_length (slot hs) (seq 0 (hs_size hs))) as [H1 H2]. rewrite length_seq in *.
  split; [done|]. rewrite H2. split; intros H i Hi; [apply H, elem_of_seq; lia|apply elem_of_seq in Hi; apply H; lia].
Qed.

Lemma passed_full hs key : hs_ok hs → passed hs key (hs_size hs) → size (keys_of hs) = hs_size hs ∧ key ∉ keys_of hs.
Proof.
  intros Hok Hp. split.
  - apply keys_size_le; [done|]. intros i Hi. destruct (visit_all hs key i Hi) as (d & Hd & ->). destruct (Hp d Hd) as (k & -> & _). done.
  - intros [i Hi]%elem_of_keys; [|done]. apply (reach_not_passed hs key i (hs_size hs)); [done|done|done|by left].
Qed.

(** ** Insertion *)

Lemma home_of_size hs hs' key : hs_size hs' = hs_size hs → home_of hs' key = home_of hs key.
Proof. unfold home_of. by intros ->. Qed.

Lemma visit_size hs hs' key d : hs_size hs' = hs_size hs → visit hs' key d = visit hs key d.
Proof. unfold visit, home_of. by intros ->. Qed.

Lemma inserted_ok hs hs' key d : hs_ok hs → key ∉ keys_of hs → d < hs_size hs → passed hs key d → slot hs (visit hs key d) = None →
  hs_size hs' = hs_size hs → length (hs_used hs') = length (hs_used hs) → length (hs_keys hs') = length (hs_keys hs) →
  (∀ j, slot hs' j = if decide (j = visit hs key d) then Some key else slot hs j) → hs_ok hs'.
Proof.
  intros Hok Hnew Hd Hp Hfree Hsz Hul Hkl Hslot. split.
  - rewrite Hsz. by apply hs_pos.
  - rewrite Hul, Hsz. by apply hs_used_len.
  - rewrite Hkl, Hsz. by apply hs_keys_len.
  - intros i i' k. rewrite !Hslot. repeat case_decide; try congruence.
    + intros [= <-] Hk. destruct Hnew. apply elem_of_keys; [done|by exists i'].
    + intros Hk [= <-]. destruct Hnew. apply elem_of_keys; [done|by exists i].
    + by apply hs_once.
  - intros i k. rewrite Hslot, Hsz. case_decide as Hi.
    + intros [= <-]. exists d. split_and!; [done|by rewrite (visit_size hs hs')|]. intros d' Hd'. rewrite (visit_size hs hs'), Hslot by done.
      case_decide; [done|]. destruct (Hp d' Hd') as (k & -> & _). done.
    + intros Hk. destruct (hs_reach _ Hok _ _ Hk) as (d0 & Hd0 & He & Hr). exists d0. split_and!; [done|by rewrite (visit_size hs hs')|].
      intros d' Hd'. rewrite (visit_size hs hs'), Hslot by done. case_decide; [done|by apply Hr].
Qed.

Lemma inserted_keys hs hs' key i : hs_ok hs → hs_ok hs' → i < hs_size hs →
  (∀ j, slot hs' j = if decide (j = i) then Some key else slot hs j) → slot hs i = None → keys_of hs' = {[key]} ∪ keys_of hs.
Proof.
  intros Hok Hok' Hi Hslot Hn. apply set_eq. intros k. rewrite elem_of_union, elem_of_singleton, !elem_of_keys by done. split.
  - intros [j Hj]. rewrite Hslot in Hj. case_decide; [left; congruence|right; by exists j].
  - intros [->|[j Hj]]; [exists i; rewrite Hslot; by rewrite decide_True|]. exists j. rewrite Hslot. rewrite decide_False; [done|]. intros ->. congruence.
Qed.

Lemma find_or_insert_ok hs key : hs_ok hs →
  match ggml_hash_find_or_insert hs key with
  | Ok (hs', i) => hs_ok hs' ∧ hs_size hs' = hs_size hs ∧ keys_of hs' = {[key]} ∪ keys_of hs ∧
      (key ∈ keys_of hs → hs' = hs) ∧ ∀ k, slot_of hs' k = if decide (k = key) then Some i else slot_of hs k
  | Err err => err = Abort ∧ size (keys_of hs) = hs_size hs ∧ key ∉ keys_of hs
  end.
Proof.
  intros Hok. pose proof (hs_pos _ Hok) as Hpos. unfold ggml_hash_find_or_insert. rewrite home_ok, bind_Ok by done.
  pose proof (insert_loop_spec hs key Hok (hs_size hs) 0 ltac:(lia) Hpos ltac:(intros d'; lia)) as H.
  rewrite visit_0 in H by done. destruct (hash_insert_loop _ _ _ _ _) as [[[hs' i] found]|err]; cbn [mbind res_bind].
  - destruct found.
    + destruct H as [-> Hi]. assert (Hin : key ∈ keys_of hs) by (apply elem_of_keys; [done|by exists i]). split_and!; [done|done|set_solver|done|].
      intros k. case_decide as Hk; [subst; by apply slot_of_Some|done].
    + destruct H as (d & Hd & -> & Hp & Hn & Hsz & Hul & Hkl & Hslot).
      assert (Hnew : key ∉ keys_of hs).
      { intros [i Hi]%elem_of_keys; [|done]. apply (reach_not_passed hs key i d); [done|done|done|by right]. }
      assert (Hok' : hs_ok hs') by (by eapply (inserted_ok hs hs' key d)).
      split_and!; [done|done|apply (inserted_keys hs hs' key (visit hs key d)); [done|done|by apply visit_lt|done|done]|done|].
      intros k. case_decide as Hk; [subst k; apply slot_of_Some; [done|]; rewrite Hslot; by rewrite decide_True|].
      apply option_eq. intros j. rewrite !slot_of_Some, Hslot by done. case_decide as Hj; [|done]. subst j. split; [congruence|]. intros Hc. congruence.
  - destruct H as [-> Hp]. split; [done|]. by apply passed_full.
Qed.

Lemma hash_insert_ok hs key : hs_ok hs →
  match ggml_hash_insert hs key with
  | Ok (hs', r) => hs_ok hs' ∧ keys_of hs' = {[key]} ∪ keys_of hs ∧ (r = None ↔ key ∈ keys_of hs) ∧ ∀ i, r = Some i → slot_of hs' key = Some i
  | Err err => err = Abort ∧ size (keys_of hs) = hs_size hs ∧ key ∉ keys_of hs
  end.
Proof.
  intros Hok. pose proof (hs_pos _ Hok) as Hpos. unfold ggml_hash_insert. rewrite home_ok, bind_Ok by done.
  pose proof (insert_loop_spec hs key Hok (hs_size hs) 0 ltac:(lia) Hpos ltac:(intros d'; lia)) as H.
  rewrite visit_0 in H by done. destruct (hash_insert_loop _ _ _ _ _) as [[[hs' i] found]|err]; cbn [mbind res_bind].
  - destruct found.
    + destruct H as [-> Hi]. assert (Hin : key ∈ keys_of hs) by (apply elem_of_keys; [done|by exists i]). split_and!; [done|set_solver|done|done].
    + destruct H as (d & Hd & -> & Hp & Hn & Hsz & Hul & Hkl & Hslot).
      assert (Hnew : key ∉ keys_of hs).
      { intros [i Hi]%elem_of_keys; [|done]. apply (reach_not_passed hs key i d); [done|done|done|by right]. }
      assert (Hok' : hs_ok hs') by (by eapply (inserted_ok hs hs' key d)).
      split_and!; [done|apply (inserted_keys hs hs' key (visit hs key d)); [done|done|by apply visit_lt|done|done]|done|].
      intros i [= <-]. apply slot_of_Some; [done|]. rewrite Hslot. by rewrite decide_True.
  - destruct H as [-> Hp]. split; [done|]. by apply passed_full.
Qed.

Lemma hash_contains_ok hs key : hs_ok hs → ggml_hash_contains hs key = Ok (bool_decide (key ∈ keys_of hs)).
Proof.
  intros Hok. pose proof (hs_pos _ Hok) as Hpos. unfold ggml_hash_contains, ggml_hash_find. rewrite home_ok, bind_Ok by done.
  pose proof (find_loop_spec hs key Hok (hs_size hs) 0 ltac:(lia) Hpos ltac:(intros d'; lia)) as H.
  rewrite visit_0 in H by done. destruct (hash_find_loop _ _ _ _ _) as [[i|]|err]; cbn [mbind res_bind okP] in *; [|by f_equal; symmetry; apply bool_decide_false, passed_full|done].
  destruct H as [Hi|(d & Hd & -> & Hp & Hn)].
  - rewrite get_slot by (try done; by eapply slot_lt). f_equal. rewrite Hi. rewrite !bool_decide_true; [done| |done]. apply elem_of_keys; [done|by exists i].
  - rewrite get_slot by (try done; by apply visit_lt). f_equal. rewrite Hn. rewrite !bool_decide_false; [done| |by intros [? ?]].
    intros [i Hi]%elem_of_keys; [|done]. apply (reach_not_passed hs key i d); [done|done|done|by right].
Qed.

Lemma slot_reset hs i : slot (ggml_hash_set_reset hs) i = None.
Proof. unfold slot. cbn. by rewrite bit_at_replicate. Qed.

Lemma empty_ok n keys : 0 < n → length keys = n → hs_ok (HashSet n (replicate (ggml_bitset_size n) 0%Z) keys) ∧ keys_of (HashSet n (replicate (ggml_bitset_size n) 0%Z) keys) = ∅.
Proof.
  intros Hn Hk. set (hs := HashSet _ _ _). assert (Hs : ∀ i, slot hs i = None) by (intros i; unfold slot, hs; cbn; by rewrite bit_at_replicate).
  assert (Hok : hs_ok hs) by (split; [done|apply length_replicate|done|intros; congruence|intros; congruence]).
  split; [done|]. apply set_eq. intros k. rewrite elem_of_keys by done. split; [intros [i Hi]; congruence|set_solver].
Qed.

(** the hash set keeps the promises of a table *)
#[export] Instance hash_set_table : TensorTable ggml_hash_set := {
  find_or_insert := ggml_hash_find_or_insert;
  table_reset := ggml_hash_set_reset;
  table_size := hs_size;
  table_keys := keys_of;
  index_of := slot_of;
  table_ok := hs_ok }.

#[export] Instance hash_set_laws : TensorTableLaws ggml_hash_set.
Proof.
  split; cbn [find_or_insert table_reset table_size table_keys index_of table_ok hash_set_table].
  - intros t k Hok. rewrite elem_of_keys by done. split; intros [i Hi]; exists i; by apply slot_of_Some.
  - intros t k k' i Hok Hk Hk'. rewrite slot_of_Some in * by done. congruence.
  - intros t k i Hok Hk. rewrite slot_of_Some in * by done. by eapply slot_lt.
  - intros t k i Hok Hk. pose proof (find_or_insert_ok t k Hok) as H. rewrite slot_of_Some in Hk by done.
    assert (Hin : k ∈ keys_of t) by (apply elem_of_keys; [done|by exists i]).
    destruct (ggml_hash_find_or_insert t k) as [[t' j]|err].
    + destruct H as (_ & _ & _ & H1 & H2). specialize (H1 Hin) as ->. specialize (H2 k). rewrite decide_True in H2 by done.
      apply slot_of_Some in H2; [|done]. by rewrite (hs_once _ Hok _ _ _ Hk H2).
    + by destruct H as (_ & _ & []).
  - intros t k Hok Hk Hsz. pose proof (find_or_insert_ok t k Hok) as H.
    destruct (ggml_hash_find_or_insert t k) as [[t' j]|err]; [destruct H as (H1 & H2 & H3 & _ & H4); done|]. destruct H as (_ & He & _). lia.
  - intros t k Hok Hpos Hk Hsz. pose proof (find_or_insert_ok t k Hok) as H.
    destruct (ggml_hash_find_or_insert t k) as [[t' j]|err]; [|by destruct H as (-> & _)]. exfalso.
    destruct H as (H1 & H2 & H3 & _ & _). pose proof (proj1 (keys_size_le _ H1)) as Hle. rewrite H3, size_union, size_singleton, H2 in Hle by set_solver. lia.
  - intros t Hok. destruct (empty_ok (hs_size t) (hs_keys t) (hs_pos _ Hok) (hs_keys_len _ Hok)) as [H1 H2]. done.
Qed.

(** ** The size of a table *)

Lemma primes_sorted i j p q : i ≤ j → primes !! i = Some p → primes !! j = Some q → (p ≤ q)%Z.
Proof.
  assert (H : StronglySorted Z.le primes) by (apply Sorted_StronglySorted; [intros x y z; lia|]; repeat (constructor; try (vm_compute; discriminate))).
  revert i j. induction H as [|x l Hl IH Hx]; intros i j Hij Hi Hj; [done|]. rewrite Forall_forall in Hx.
  destruct i as [|i], j as [|j]; cbn in Hi, Hj; [simplify_eq; lia| |lia|apply (IH i j); [lia|done|done]].
  injection Hi as <-. apply Hx. by eapply list_elem_of_lookup_2.
Qed.

Lemma prime_search_ok fuel m : ∀ l r, r - l < fuel → l ≤ r → r ≤ length primes →
  (∀ i p, i < l → primes !! i = Some p → (p < m)%Z) → (∀ i p, r ≤ i → primes !! i = Some p → (m ≤ p)%Z) →
  okP (prime_search fuel m l r) (λ k, (∀ i p, i < k → primes !! i = Some p → (p < m)%Z) ∧ (∀ i p, k ≤ i → primes !! i = Some p → (m ≤ p)%Z)).
Proof.
  induction fuel as [|fuel IH]; intros l r Hf Hlr Hr Hlow Hhigh; [lia|]. cbn [prime_search].
  destruct (decide (l < r)) as [Hlt|Hge].
  - cbv zeta. pose proof (Nat.div_mod_eq (l + r) 2) as Hm. pose proof (Nat.mod_upper_bound (l + r) 2 ltac:(lia)). set (k := (l + r) / 2) in *.
    destruct (lookup_lt_is_Some_2 primes k ltac:(lia)) as [p Hp]. rewrite (vget_ok _ _ _ Hp), bind_Ok. destruct (decide (p < m)%Z) as [Hpm|Hpm].
    + apply IH; [lia|lia|lia| |done]. intros i q Hi Hq. pose proof (primes_sorted i k q p ltac:(lia) Hq Hp). lia.
    + apply IH; [lia|lia|lia|done|]. intros i q Hi Hq. pose proof (primes_sorted k i p q ltac:(lia) Hp Hq). lia.
  - cbn. replace r with l in * by lia. done.
Qed.

Lemma hash_size_ok m : (0 ≤ m)%Z → okP (ggml_hash_size m) (λ s, (m ≤ s)%Z ∧ (0 < s)%Z ∧
  ((m ≤ 2147483659)%Z → s ∈ primes ∧ ∀ p, p ∈ primes → (p < s)%Z → (p < m)%Z)).
Proof.
  intros Hm. unfold ggml_hash_size. eapply okP_bind; [apply prime_search_ok; try lia; intros i p Hi Hp; apply lookup_lt_Some in Hp; lia|].
  intros k [Hlow Hhigh]. cbn. destruct (primes !! k) as [p|] eqn:Hp.
  - split_and!; [by apply (Hhigh k)| |].
    + assert (H : Forall (λ p, 0 < p)%Z primes) by (repeat constructor; lia). rewrite Forall_lookup in H. by apply (H k).
    + intros _. split; [by eapply list_elem_of_lookup_2|]. intros q Hq Hlt. apply list_elem_of_lookup in Hq as [j Hj].
      destruct (decide (j < k)); [by apply (Hlow j)|]. pose proof (primes_sorted k j p q ltac:(lia) Hp Hj). lia.
  - assert (Hl : (m ≤ Z.lor m 1)%Z).
    { assert (He : Z.lor m 1 = (m + Z.ldiff 1 m)%Z).
      { rewrite Z.add_nocarry_lxor.
        - apply Z.bits_inj'. intros i Hi. rewrite Z.lor_spec, Z.lxor_spec, Z.ldiff_spec. by destruct (Z.testbit m i), (Z.testbit 1 i).
        - apply Z.bits_inj'. intros i Hi. rewrite Z.land_spec, Z.ldiff_spec, Z.bits_0. by destruct (Z.testbit m i), (Z.testbit 1 i). }
      assert (0 ≤ Z.ldiff 1 m)%Z by (apply Z.ldiff_nonneg; by left). lia. }
    assert (H1 : (0 < Z.lor m 1)%Z).
    { assert (Z.lor m 1 ≠ 0)%Z by (intros [_ H1]%Z.lor_eq_0_iff; done). assert (0 ≤ Z.lor m 1)%Z by (apply Z.lor_nonneg; lia). lia. }
    split_and!; [done|done|]. intros Hmax. assert (Hk : length primes ≤ k) by (by apply lookup_ge_None).
    specialize (Hlow 31 2147483659%Z ltac:(cbn in Hk; lia) eq_refl). lia.
Qed.

Lemma hash_set_new_ok m mem : (0 ≤ m)%Z → (∀ n, length (mem n) = n) →
  okP (ggml_hash_set_new m mem) (λ hs, hs_ok hs ∧ keys_of hs = ∅ ∧ (m ≤ Z.of_nat (hs_size hs))%Z).
Proof.
  intros Hm Hmem. unfold ggml_hash_set_new. eapply okP_bind; [by apply hash_size_ok|]. intros s (Hs & H0 & _). cbv zeta. cbn [okP].
  destruct (empty_ok (Z.to_nat s) (mem (Z.to_nat s)) ltac:(lia) (Hmem _)) as [H1 H2]. split_and!; [done|done|cbn; lia].
Qed.

(** ** Properties *)

Definition insert_step (st : ggml_hash_set * list nat) (key : Z) : res (ggml_hash_set * list nat) :=
  '(hs, i) ← ggml_hash_find_or_insert st.1 key; Ok (hs, st.2 ++ [i]).

Lemma insert_steps_ok keys : ∀ hs idxs done, hs_ok hs → keys_of hs = list_to_set done → map (slot_of hs) done = map Some idxs →
  match foldM insert_step (hs, idxs) keys with
  | Ok (hs', idxs') => hs_ok hs' ∧ keys_of hs' = list_to_set (done ++ keys) ∧ hs_size hs' = hs_size hs ∧ map (slot_of hs') (done ++ keys) = map Some idxs'
  | Err err => err = Abort ∧ hs_size hs < size (list_to_set (done ++ keys) : gset Z)
  end.
Proof.
  induction keys as [|k keys IH]; intros hs idxs done Hok Hks His; [cbn; by rewrite app_nil_r|]. cbn [foldM].
  change (insert_step (hs, idxs) k) with ('(hs, i) ← ggml_hash_find_or_insert hs k; Ok (hs, idxs ++ [i])).
  pose proof (find_or_insert_ok hs k Hok) as H. destruct (ggml_hash_find_or_insert hs k) as [[hs' i]|err]; cbn [mbind res_bind].
  - destruct H as (Hok' & Hsz & Hks' & Hsame & Hidx). specialize (IH hs' (idxs ++ [i]) (done ++ [k]) Hok').
    rewrite <- app_assoc in IH. cbn [app] in IH. rewrite Hsz in IH. apply IH.
    + rewrite Hks', Hks, list_to_set_app_L. cbn. set_solver.
    + rewrite !map_app. cbn [map]. f_equal; [|rewrite Hidx; by rewrite decide_True].
      rewrite <- His. apply map_ext_in. intros x Hx. rewrite Hidx. case_decide as He; [|done]. subst x.
      (* the key was there before *)
      assert (Hin : k ∈ keys_of hs) by (rewrite Hks; apply elem_of_list_to_set; by apply list_elem_of_In).
      rewrite (Hsame Hin) in Hidx. rewrite (Hidx k). by rewrite decide_True.
  - destruct H as (-> & Hfull & Hnew). split; [done|]. assert (H : size ({[k]} ∪ keys_of hs) ≤ size (list_to_set (done ++ k :: keys) : gset Z)).
    { apply subseteq_size. rewrite Hks, list_to_set_app_L. cbn. set_solver. }
    rewrite size_union, size_singleton in H by set_solver. lia.
Qed.

(** C27. A hash set made for [m] tensors has room for as many; entering any sequence of tensors gives every tensor one
    slot that is its own, the same each time it is looked up, and aborts exactly when there are more different tensors
    than slots; afterwards the set contains the tensors that were entered and no others, and entering one of them again
    reports that it exists. *)
Theorem hash_set_correct (m : Z) (mem : nat → list Z) (keys : list Z) :
  (0 ≤ m)%Z → (∀ n, length (mem n) = n) →
  okP (ggml_hash_set_new m mem) (λ hs, (m ≤ Z.of_nat (hs_size hs))%Z ∧
    match foldM insert_step (hs, []) keys with
    | Ok (hs', idxs) => length idxs = length keys ∧ hs_size hs' = hs_size hs ∧
        (∀ a b k k' i j, keys !! a = Some k → keys !! b = Some k' → idxs !! a = Some i → idxs !! b = Some j → i < hs_size hs ∧ (i = j ↔ k = k')) ∧
        (∀ k, ggml_hash_contains hs' k = Ok (bool_decide (k ∈ keys))) ∧
        (∀ k, k ∈ keys → okP (ggml_hash_insert hs' k) (λ r, r.2 = None)) ∧
        (∀ k, ggml_hash_contains (ggml_hash_set_reset hs') k = Ok false)
    | Err err => err = Abort ∧ hs_size hs < size (list_to_set keys : gset Z)
    end).
Proof.
  intros Hm Hmem. eapply okP_mono; [by apply hash_set_new_ok|]. intros hs (Hok & Hks & Hsz). split; [done|].
  pose proof (insert_steps_ok keys hs [] [] Hok Hks eq_refl) as H. cbn [app] in H.
  destruct (foldM insert_step (hs, []) keys) as [[hs' idxs]|err]; [|done]. destruct H as (Hok' & Hks' & Hsz' & Hmap).
  assert (Hl : length idxs = length keys) by (apply (f_equal length) in Hmap; rewrite !length_map in Hmap; done).
  assert (Hslot : ∀ a k i, keys !! a = Some k → idxs !! a = Some i → slot_of hs' k = Some i).
  { intros a k i Hk Hi. apply (f_equal (λ l, l !! a)) in Hmap. change (map ?f ?l) with (f <$> l) in Hmap.
    rewrite !list_lookup_fmap, Hk, Hi in Hmap. cbn in Hmap. by injection Hmap. }
  split_and!; [done|done| | | |].
  - intros a b k k' i j Hk Hk' Hi Hj. pose proof (Hslot _ _ _ Hk Hi) as H1. pose proof (Hslot _ _ _ Hk' Hj) as H2. split.
    + rewrite <- Hsz'. apply slot_of_Some in H1; [|done]. by eapply slot_lt.
    + split; [intros ->; rewrite slot_of_Some in H1, H2 by done; congruence|intros ->; congruence].
  - intros k. rewrite hash_contains_ok by done. f_equal. apply bool_decide_ext. by rewrite Hks', elem_of_list_to_set.
  - intros k Hk. pose proof (hash_insert_ok hs' k Hok') as H. assert (Hin : k ∈ keys_of hs') by (by rewrite Hks', elem_of_list_to_set).
    destruct (ggml_hash_insert hs' k) as [[hs2 r]|err]; [|by destruct H as (_ & _ & [])]. destruct H as (_ & _ & H & _). cbn. by apply H.
  - intros k. pose proof (reset_ok hs' Hok') as (H1 & _ & H2). change (hs_ok (ggml_hash_set_reset hs')) in H1. change (keys_of (ggml_hash_set_reset hs') = ∅) in H2. rewrite hash_contains_ok, H2 by done. done.
Qed.

Lemma hash_set_correct_witness : okP (ggml_hash_set_new 4 (λ n, replicate n 7%Z)) (λ hs, (4 ≤ Z.of_nat (hs_size hs))%Z ∧
    match foldM insert_step (hs, []) [32; 112; 32; 192; 48]%Z with
    | Ok (hs', idxs) => (∀ i j, idxs !! 0 = Some i → idxs !! 2 = Some j → i = j) ∧ ggml_hash_contains hs' 48 = Ok true
    | Err err => False end).
Proof.
  eapply okP_mono; [exact (hash_set_correct 4 (λ n, replicate n 7%Z) [32; 112; 32; 192; 48]%Z ltac:(lia) (λ n, length_replicate n 7%Z))|].
  intros hs [H1 H2]. split; [done|]. destruct (foldM _ _ _) as [[hs' idxs]|err].
  - destruct H2 as (_ & _ & H2 & H3 & _). split; [|by rewrite H3]. intros i j Hi Hj. by destruct (H2 0 2 32%Z 32%Z i j eq_refl eq_refl Hi Hj) as [_ ->].
  - destruct H2 as [_ H2]. change (size _) with 4 in H2. lia.
Defined.

(** The size of a hash set is the smallest entry of the table of primes that is large enough, or the next odd number
    beyond the table, and the binary search ends. *)
Theorem hash_size_correct (m : Z) : (0 ≤ m)%Z →
  okP (ggml_hash_size m) (λ s, (m ≤ s)%Z ∧ (0 < s)%Z ∧ ((m ≤ 2147483659)%Z → s ∈ primes ∧ ∀ p, p ∈ primes → (p < s)%Z → (p < m)%Z)).
Proof. apply hash_size_ok. Qed.
