(* ===== verification/Galloc.v ===== *)
(** The graph allocator of src/ggml/src/ggml-alloc.c: the planner [ggml_gallocr_alloc_graph_impl], which gives every
    tensor of a computation graph its place in memory, reusing the place of a tensor that is not needed any more.  A
    tensor is its address; [ts] says what is there.  The table of tensors is any one that keeps the promises of
    [TensorTable]; the sizes come from the back ends. *)
From S2P Require Import Prelude Alloc HashSet.

(** ** Tensors and graphs (src/ggml/include/ggml.h) *)

Inductive ggml_op :=
  | GGML_OP_NONE | GGML_OP_DUP | GGML_OP_ADD | GGML_OP_ADD_ID | GGML_OP_ADD1 | GGML_OP_ACC | GGML_OP_SUB
  | GGML_OP_MUL | GGML_OP_DIV | GGML_OP_SQR | GGML_OP_SQRT | GGML_OP_LOG | GGML_OP_SIN | GGML_OP_COS | GGML_OP_SUM
  | GGML_OP_SUM_ROWS | GGML_OP_CUMSUM | GGML_OP_MEAN | GGML_OP_ARGMAX | GGML_OP_COUNT_EQUAL | GGML_OP_REPEAT
  | GGML_OP_REPEAT_BACK | GGML_OP_CONCAT | GGML_OP_SILU_BACK | GGML_OP_NORM | GGML_OP_RMS_NORM
  | GGML_OP_RMS_NORM_BACK | GGML_OP_GROUP_NORM | GGML_OP_L2_NORM | GGML_OP_MUL_MAT | GGML_OP_MUL_MAT_ID
  | GGML_OP_OUT_PROD | GGML_OP_SCALE | GGML_OP_SET | GGML_OP_CPY | GGML_OP_CONT | GGML_OP_RESHAPE | GGML_OP_VIEW
  | GGML_OP_PERMUTE | GGML_OP_TRANSPOSE | GGML_OP_GET_ROWS | GGML_OP_GET_ROWS_BACK | GGML_OP_SET_ROWS | GGML_OP_DIAG
  | GGML_OP_DIAG_MASK_INF | GGML_OP_DIAG_MASK_ZERO | GGML_OP_SOFT_MAX | GGML_OP_SOFT_MAX_BACK | GGML_OP_ROPE
  | GGML_OP_ROPE_BACK | GGML_OP_CLAMP | GGML_OP_CONV_TRANSPOSE_1D | GGML_OP_IM2COL | GGML_OP_IM2COL_BACK
  | GGML_OP_IM2COL_3D | GGML_OP_CONV_2D | GGML_OP_CONV_3D | GGML_OP_CONV_2D_DW | GGML_OP_CONV_TRANSPOSE_2D
  | GGML_OP_POOL_1D | GGML_OP_POOL_2D | GGML_OP_POOL_2D_BACK | GGML_OP_UPSCALE | GGML_OP_PAD | GGML_OP_PAD_REFLECT_1D
  | GGML_OP_ROLL | GGML_OP_ARANGE | GGML_OP_TIMESTEP_EMBEDDING | GGML_OP_ARGSORT | GGML_OP_TOP_K | GGML_OP_LEAKY_RELU
  | GGML_OP_TRI | GGML_OP_FILL | GGML_OP_FLASH_ATTN_EXT | GGML_OP_FLASH_ATTN_BACK | GGML_OP_SSM_CONV
  | GGML_OP_SSM_SCAN | GGML_OP_WIN_PART | GGML_OP_WIN_UNPART | GGML_OP_GET_REL_POS | GGML_OP_ADD_REL_POS
  | GGML_OP_RWKV_WKV6 | GGML_OP_GATED_LINEAR_ATTN | GGML_OP_RWKV_WKV7 | GGML_OP_SOLVE_TRI | GGML_OP_GATED_DELTA_NET
  | GGML_OP_UNARY | GGML_OP_MAP_CUSTOM1 | GGML_OP_MAP_CUSTOM2 | GGML_OP_MAP_CUSTOM3 | GGML_OP_CUSTOM
  | GGML_OP_CROSS_ENTROPY_LOSS | GGML_OP_CROSS_ENTROPY_LOSS_BACK | GGML_OP_OPT_STEP_ADAMW | GGML_OP_OPT_STEP_SGD
  | GGML_OP_GLU | GGML_OP_COUNT.

#[export] Instance ggml_op_eq_dec : EqDecision ggml_op.
Proof. solve_decision. Defined.

(** the flags GGML_TENSOR_FLAG_INPUT and GGML_TENSOR_FLAG_OUTPUT *)
Definition FLAG_INPUT : Z := 1.
Definition FLAG_OUTPUT : Z := 2.

(** NULL is 0 as data or buffer, None as source *)
Record ggml_tensor := Tensor {
  t_type : Z; t_buffer : Z; t_ne : list Z; t_nb : list Z; t_op : ggml_op; t_flags : Z;
  t_src : list (option Z); t_view_src : option Z; t_view_offs : Z; t_data : Z }.

Record ggml_cgraph := Graph { g_nodes : list Z; g_leafs : list Z }.

Definition has_flag (t : ggml_tensor) (flag : Z) : bool := bool_decide (Z.land (t_flags t) flag ≠ 0)%Z.
Definition is_view (t : ggml_tensor) : bool := bool_decide (t_view_src t ≠ None).

Definition same_layout (a b : ggml_tensor) : bool :=
  bool_decide (t_type a = t_type b) && bool_decide (t_ne a = t_ne b) && bool_decide (t_nb a = t_nb b).

Definition ggml_op_can_inplace (op : ggml_op) : bool :=
  match op with
  | GGML_OP_FILL | GGML_OP_SCALE | GGML_OP_DIAG_MASK_ZERO | GGML_OP_DIAG_MASK_INF | GGML_OP_ADD | GGML_OP_ADD_ID |
    GGML_OP_ADD1 | GGML_OP_SUB | GGML_OP_MUL | GGML_OP_DIV | GGML_OP_SQR | GGML_OP_SQRT | GGML_OP_LOG |
    GGML_OP_UNARY | GGML_OP_ROPE | GGML_OP_ROPE_BACK | GGML_OP_SILU_BACK | GGML_OP_RMS_NORM | GGML_OP_RMS_NORM_BACK |
    GGML_OP_SOFT_MAX | GGML_OP_SOFT_MAX_BACK => true
  | _ => false
  end.

(** ** The state of the planner *)

Record hash_node := HashNode { n_children : Z; n_views : Z; buffer_id : Z; hn_addr : buffer_address; allocated : bool }.

(** memset(..., 0, ...) *)
Definition zero_node : hash_node := HashNode 0 0 0 (BufferAddress 0 0) false.

Definition add_children (d : Z) (h : hash_node) := HashNode (n_children h + d) (n_views h) (buffer_id h) (hn_addr h) (allocated h).
Definition add_views (d : Z) (h : hash_node) := HashNode (n_children h) (n_views h + d) (buffer_id h) (hn_addr h) (allocated h).
Definition set_allocated (b : bool) (h : hash_node) := HashNode (n_children h) (n_views h) (buffer_id h) (hn_addr h) b.
Definition set_place (id : Z) (a : buffer_address) (h : hash_node) := HashNode (n_children h) (n_views h) id a (allocated h).

(** [buf_tallocs] holds pointers: the index of the allocator in [tallocs], which buffers of one type share *)
Record ggml_gallocr {T : Type} := Gallocr {
  bufts : list Z; buf_tallocs : list nat; tallocs : list ggml_dyn_tallocr; hash_set : T; hash_values : list hash_node }.
Arguments ggml_gallocr : clear implicits.

Section planner.
  Context {T : Type} `{!TensorTable T}.
  Variable ts : Z → ggml_tensor.
  (* ggml_backend_buft_get_alloc_size *)
  Variable alloc_size : Z → ggml_tensor → Z.

  Abbreviation galloc := (ggml_gallocr T).

Definition set_tallocs (g : galloc) (l : list ggml_dyn_tallocr) : galloc := Gallocr T (bufts g) (buf_tallocs g) l (hash_set g) (hash_values g).
Definition set_hash (g : galloc) (h : T) : galloc := Gallocr T (bufts g) (buf_tallocs g) (tallocs g) h (hash_values g).
Definition set_values (g : galloc) (l : list hash_node) : galloc := Gallocr T (bufts g) (buf_tallocs g) (tallocs g) (hash_set g) l.

(** the result is a pointer into [hash_values] *)
Definition ggml_gallocr_hash_get (g : galloc) (t : Z) : res (galloc * nat) :=
  '(h, i) ← find_or_insert (hash_set g) t;
  Ok (set_hash g h, i).

Definition hn_get (g : galloc) (i : nat) : res hash_node := vget (hash_values g) i.
Definition hn_set (g : galloc) (i : nat) (f : hash_node → hash_node) : res galloc :=
  h ← vget (hash_values g) i;
  l ← vset (hash_values g) i (f h);
  Ok (set_values g l).

(** galloc->bufts[id] and galloc->buf_tallocs[id] *)
Definition buft (g : galloc) (id : Z) : res Z := i ← idx id; vget (bufts g) i.
Definition talloc_idx (g : galloc) (id : Z) : res nat := i ← idx id; vget (buf_tallocs g) i.
Definition talloc (g : galloc) (k : nat) : res ggml_dyn_tallocr := vget (tallocs g) k.

Definition free_bytes (g : galloc) (k : nat) (addr : buffer_address) (size : Z) : res galloc :=
  a ← talloc g k;
  a ← ggml_dyn_tallocr_free_bytes a addr size;
  l ← vset (tallocs g) k a;
  Ok (set_tallocs g l).

Definition ggml_gallocr_is_own (g : galloc) (t : Z) : res (galloc * bool) :=
  '(g, i) ← ggml_gallocr_hash_get g t;
  h ← hn_get g i;
  Ok (g, allocated h).

Definition ggml_gallocr_is_allocated (g : galloc) (t : Z) : res (galloc * bool) :=
  if decide (t_data (ts t) ≠ 0 ∨ t_buffer (ts t) ≠ 0)%Z then Ok (g, true) else ggml_gallocr_is_own g t.

Definition ggml_gallocr_free_extra_space (g : galloc) (node parent : Z) : res galloc :=
  '(g, hn) ← ggml_gallocr_hash_get g node;
  '(g, p_hn) ← ggml_gallocr_hash_get g parent;
  h ← hn_get g hn; p ← hn_get g p_hn;
  p_buft ← buft g (buffer_id p); n_buft ← buft g (buffer_id h);
  let parent_size := alloc_size p_buft (ts parent) in
  let node_size := alloc_size n_buft (ts node) in
  ggml_assert (bool_decide (node_size ≤ parent_size)%Z);;
  k ← talloc_idx g (buffer_id p);
  p_alloc ← talloc g k;
  parent_size ← aligned_offset 0 parent_size (ta_alignment p_alloc);
  node_size ← aligned_offset 0 node_size (ta_alignment p_alloc);
  if decide (node_size < parent_size)%Z then
    let p_addr := BufferAddress (ba_chunk (hn_addr p)) (u64 (ba_offset (hn_addr p) + node_size)) in
    free_bytes g k p_addr (parent_size - node_size)
  else Ok g.

(** parent->flags & OUTPUT, or those of its view source *)
Definition is_output (parent : ggml_tensor) : bool :=
  has_flag parent FLAG_OUTPUT || match t_view_src parent with Some v => has_flag (ts v) FLAG_OUTPUT | None => false end.

(** one source of the node: its place may be taken; the second component says that it was *)
Definition reuse_parent (g : galloc) (node : Z) (hn : nat) (parent : Z) : res (galloc * bool) :=
  '(g, own) ← ggml_gallocr_is_own g parent;
  if negb own then Ok (g, false) else
  if is_output (ts parent) then Ok (g, false) else
  if negb (same_layout (ts node) (ts parent)) then Ok (g, false) else
  '(g, p_hn) ← ggml_gallocr_hash_get g parent;
  p ← hn_get g p_hn;
  if decide (n_children p = 1 ∧ n_views p = 0)%Z then
    match t_view_src (ts parent) with
    | Some view_src =>
        '(g, v_hn) ← ggml_gallocr_hash_get g view_src;
        v ← hn_get g v_hn;
        if decide (n_views v = 1 ∧ n_children v = 0 ∧ t_data (ts view_src) = t_data (ts parent))%Z then
          assert_ (bool_decide (hn_addr v = hn_addr p));;
          g ← hn_set g hn (set_place (buffer_id p) (hn_addr p));
          g ← hn_set g p_hn (set_allocated false);
          g ← hn_set g v_hn (set_allocated false);
          g ← ggml_gallocr_free_extra_space g node view_src;
          Ok (g, true)
        else Ok (g, false)
    | None =>
        g ← hn_set g hn (set_place (buffer_id p) (hn_addr p));
        g ← hn_set g p_hn (set_allocated false);
        g ← ggml_gallocr_free_extra_space g node parent;
        Ok (g, true)
    end
  else Ok (g, false).

(** try to reuse a parent's buffer (inplace) *)
Fixpoint reuse_loop (g : galloc) (node : Z) (hn : nat) (src : list (option Z)) : res (galloc * bool) :=
  match src with
  | [] => Ok (g, false)
  | None :: src => reuse_loop g node hn src
  | Some parent :: src =>
      '(g, reused) ← reuse_parent g node hn parent;
      if (reused : bool) then Ok (g, true) else reuse_loop g node hn src
  end.

Definition ggml_gallocr_allocate_node (g : galloc) (node : Z) (id : Z) : res galloc :=
  ggml_assert (bool_decide (0 ≤ id)%Z);;
  '(g, hn) ← ggml_gallocr_hash_get g node;
  '(g, done) ← ggml_gallocr_is_allocated g node;
  if negb done && negb (is_view (ts node)) then
    g ← hn_set g hn (set_allocated true);
    h ← hn_get g hn;
    assert_ (bool_decide (ba_offset (hn_addr h) = 0)%Z);;
    '(g, reused) ← (if ggml_op_can_inplace (t_op (ts node)) then reuse_loop g node hn (t_src (ts node)) else Ok (g, false));
    if (reused : bool) then Ok g else
    k ← talloc_idx g id;
    a ← talloc g k;
    b ← buft g id;
    '(a, addr) ← ggml_dyn_tallocr_alloc a (alloc_size b (ts node));
    g ← hn_set g hn (set_place id addr);
    l ← vset (tallocs g) k a;
    Ok (set_tallocs g l)
  else Ok g.

Definition ggml_gallocr_free_node (g : galloc) (node : Z) : res galloc :=
  if has_flag (ts node) FLAG_OUTPUT then Ok g else
  '(g, hn) ← ggml_gallocr_hash_get g node;
  h ← hn_get g hn;
  k ← talloc_idx g (buffer_id h);
  b ← buft g (buffer_id h);
  g ← free_bytes g k (hn_addr h) (alloc_size b (ts node));
  hn_set g hn (set_allocated false).

Definition get_node_buffer_id (ids : option (list Z)) (i : nat) : res Z :=
  match ids with Some ids => vget ids i | None => Ok 0%Z end.

(** the sources of a tensor that are there *)
Definition sources (t : Z) : list Z := omap id (t_src (ts t)).

(** one source of a node, when children are counted *)
Definition count_src (node_ids : option (list Z)) (i : nat) (g : galloc) (src : Z) : res galloc :=
  '(g, hn) ← ggml_gallocr_hash_get g src;
  g ← hn_set g hn (add_children 1);
  if has_flag (ts src) FLAG_INPUT then id ← get_node_buffer_id node_ids i; ggml_gallocr_allocate_node g src id else Ok g.

(** count number of children and views, allocate inputs: one node *)
Definition count_node (node_ids : option (list Z)) (g : galloc) (in_ : nat * Z) : res galloc :=
  let node := in_.2 in
  g ← (match t_view_src (ts node) with
       | Some v => if decide (t_op (ts node) ≠ GGML_OP_NONE) then '(g, i) ← ggml_gallocr_hash_get g v; hn_set g i (add_views 1) else Ok g
       | None => Ok g end);
  g ← (if has_flag (ts node) FLAG_INPUT then id ← get_node_buffer_id node_ids in_.1; ggml_gallocr_allocate_node g node id else Ok g);
  foldM (count_src node_ids in_.1) g (sources node).

(** update parents: one parent of a node that was executed *)
Definition update_parent (g : galloc) (parent : Z) : res galloc :=
  '(g, p_hn) ← ggml_gallocr_hash_get g parent;
  g ← hn_set g p_hn (add_children (-1));
  p ← hn_get g p_hn;
  if decide (n_children p = 0 ∧ n_views p = 0)%Z then
    match t_view_src (ts parent) with
    | Some view_src =>
        '(g, v_hn) ← ggml_gallocr_hash_get g view_src;
        g ← hn_set g v_hn (add_views (-1));
        v ← hn_get g v_hn;
        if decide (n_views v = 0 ∧ n_children v = 0)%Z then
          if allocated v then ggml_gallocr_free_node g view_src else Ok g
        else Ok g
    | None => if allocated p then ggml_gallocr_free_node g parent else Ok g
    end
  else Ok g.

(** allocate tensors: one node *)
Definition alloc_step_node (node_ids : option (list Z)) (g : galloc) (in_ : nat * Z) : res galloc :=
  let node := in_.2 in
  id ← get_node_buffer_id node_ids in_.1;
  g ← foldM (λ g parent, ggml_gallocr_allocate_node g parent id) g (sources node);
  g ← ggml_gallocr_allocate_node g node id;
  foldM update_parent g (sources node).

Definition alloc_leaf (leaf_ids : option (list Z)) (g : galloc) (il : nat * Z) : res galloc :=
  id ← get_node_buffer_id leaf_ids il.1;
  ggml_gallocr_allocate_node g il.2 id.

(** for (int i = 0; i < n; i++) with the i-th element *)
Definition enum (l : list Z) : list (nat * Z) := zip (seq 0 (length l)) l.

Definition ggml_gallocr_alloc_graph_impl (g : galloc) (graph : ggml_cgraph) (node_ids leaf_ids : option (list Z)) : res galloc :=
  let g := set_values (set_hash g (table_reset (hash_set g))) (replicate (table_size (hash_set g)) zero_node) in
  g ← foldM (alloc_leaf leaf_ids) g (enum (g_leafs graph));
  g ← foldM (count_node node_ids) g (enum (g_nodes graph));
  foldM (alloc_step_node node_ids) g (enum (g_nodes graph)).

End planner.

Section proofs.
  Context {T : Type} `{!TensorTable T, !TensorTableLaws T}.
  Variable ts : Z → ggml_tensor.
  Variable alloc_size : Z → ggml_tensor → Z.
  (* the tensors of the graph *)
  Variable U : list Z.

  Abbreviation galloc := (ggml_gallocr T).
  Implicit Types (g : galloc) (t : Z).

(** ** The table of nodes as a function of the tensor *)

Definition nd g t : hash_node :=
  match index_of (hash_set g) t with Some i => default zero_node (hash_values g !! i) | None => zero_node end.

Record table_wf g : Prop := {
  tw_ok : table_ok (hash_set g);
  tw_len : length (hash_values g) = table_size (hash_set g);
  tw_keys : table_keys (hash_set g) ⊆ list_to_set U;
  tw_size : length U ≤ table_size (hash_set g);
  tw_zero : ∀ i h, hash_values g !! i = Some h → (∀ t, index_of (hash_set g) t ≠ Some i) → h = zero_node }.

(** a step that at most enters tensors into the table *)
Record same_nodes g g' : Prop := {
  sn_wf : table_wf g';
  sn_bufts : bufts g' = bufts g;
  sn_ids : buf_tallocs g' = buf_tallocs g;
  sn_tallocs : tallocs g' = tallocs g;
  sn_nd : ∀ t, nd g' t = nd g t;
  sn_index : ∀ t i, index_of (hash_set g) t = Some i → index_of (hash_set g') t = Some i }.

Lemma same_nodes_refl g : table_wf g → same_nodes g g.
Proof. by split. Qed.

Lemma same_nodes_trans g g' g'' : same_nodes g g' → same_nodes g' g'' → same_nodes g g''.
Proof. intros [] []. split; [done|congruence|congruence|congruence|congruence|auto]. Qed.

Lemma keys_lt g t : NoDup U → table_wf g → t ∈ U → t ∉ table_keys (hash_set g) → size (table_keys (hash_set g)) < table_size (hash_set g).
Proof.
  intros Hnd [H1 H2 H3 H4 H5] Ht Hk. eapply Nat.lt_le_trans; [|exact H4].
  assert (H : size ({[t]} ∪ table_keys (hash_set g)) ≤ size (list_to_set U : gset Z)).
  { apply subseteq_size. set_solver. }
  rewrite size_union, size_singleton, size_list_to_set in H by (done || set_solver). lia.
Qed.

Lemma hash_get_ok g t : NoDup U → table_wf g → t ∈ U →
  okP (ggml_gallocr_hash_get g t) (λ '(g', i), same_nodes g g' ∧ index_of (hash_set g') t = Some i).
Proof.
  intros Hnd Hwf Ht. pose proof Hwf as [H1 H2 H3 H4 H5]. unfold ggml_gallocr_hash_get.
  destruct (index_of (hash_set g) t) as [i|] eqn:Hi.
  - rewrite (find_present _ _ _ H1 Hi), bind_Ok. cbn [okP]. destruct g. split; [by apply same_nodes_refl|done].
  - assert (Hk : t ∉ table_keys (hash_set g)).
    { intros Hin. apply index_keys in Hin as [j Hj]; [congruence|done]. }
    pose proof (find_absent _ _ H1 Hk (keys_lt g t Hnd Hwf Ht Hk)) as Hf. eapply okP_bind; [exact Hf|].
    intros [h i] (Hok & Hsz & Hkeys & Hidx). cbn [okP]. cbn [hash_set set_hash].
    assert (Hnew : ∀ t', index_of (hash_set g) t' ≠ Some i).
    { intros t' Ht'. assert (t' = t).
      { apply (index_inj h t' t i Hok); rewrite Hidx; [|by rewrite decide_True]. case_decide; [congruence|done]. }
      congruence. }
    split; [|rewrite Hidx; by rewrite decide_True]. split; cbn [set_hash bufts buf_tallocs tallocs hash_set hash_values]; [|done|done|done| |].
    + split; cbn [set_hash hash_set hash_values]; [done|by rewrite Hsz|rewrite Hkeys; set_solver|by rewrite Hsz|].
      intros j hv Hj Hno. apply (H5 j); [done|]. intros t' Ht'. destruct (decide (t' = t)) as [->|]; [congruence|].
      apply (Hno t'). rewrite Hidx. by rewrite decide_False.
    + intros t'. unfold nd. cbn [set_hash hash_set hash_values]. rewrite Hidx. case_decide as He; [|done]. subst t'. rewrite Hi.
      destruct (hash_values g !! i) as [hv|] eqn:Hv; [|done]. cbn. by apply (H5 i).
    + intros t' j Hj. rewrite Hidx. case_decide; [congruence|done].
Qed.

Lemma hn_get_ok g t i : table_wf g → index_of (hash_set g) t = Some i → hn_get g i = Ok (nd g t).
Proof.
  intros Hwf Hi. unfold hn_get, nd. rewrite Hi. pose proof (index_lt _ _ _ (tw_ok _ Hwf) Hi) as Hlt. rewrite <- tw_len in Hlt by done.
  destruct (lookup_lt_is_Some_2 _ _ Hlt) as [h Hh]. rewrite Hh. by apply vget_ok.
Qed.

(** a step that changes the node of one tensor *)
Record node_set t (f : hash_node → hash_node) g g' : Prop := {
  ns_wf : table_wf g';
  ns_bufts : bufts g' = bufts g;
  ns_ids : buf_tallocs g' = buf_tallocs g;
  ns_tallocs : tallocs g' = tallocs g;
  ns_nd : ∀ t', nd g' t' = if decide (t' = t) then f (nd g t) else nd g t';
  ns_index : hash_set g' = hash_set g }.

Lemma hn_set_ok g t i f : table_wf g → index_of (hash_set g) t = Some i → okP (hn_set g i f) (node_set t f g).
Proof.
  intros Hwf Hi. unfold hn_set. change (vget (hash_values g) i) with (hn_get g i). rewrite (hn_get_ok g t i Hwf Hi), bind_Ok.
  pose proof (index_lt _ _ _ (tw_ok _ Hwf) Hi) as Hlt. rewrite <- tw_len in Hlt by done. rewrite vset_ok, bind_Ok by done. cbn.
  pose proof Hwf as [H1 H2 H3 H4 H5]. split; cbn [set_values bufts buf_tallocs tallocs hash_set hash_values]; [|done|done|done| |done].
  - split; cbn [set_values hash_set hash_values]; [done|by rewrite length_insert|done|done|].
    intros j h Hj Hno. apply (H5 j); [|done]. rewrite list_lookup_insert_ne in Hj; [done|]. intros ->. by destruct (Hno t).
  - intros t'. unfold nd at 1. cbn [set_values hash_set hash_values]. case_decide as He.
    + subst t'. rewrite Hi. by rewrite list_lookup_insert_eq.
    + unfold nd. destruct (index_of (hash_set g) t') as [j|] eqn:Hj; [|done]. rewrite list_lookup_insert_ne; [done|].
      intros ->. apply He. symmetry. by eapply index_inj.
Qed.

(** ** The allocators *)

  (* the buffer types, the allocator of each, and what is fixed of the allocators *)
  Variable BF : list Z.
  Variable BT : list nat.
  Variable AL : nat → Z.
  Variable NT : nat.
  (* whether there is enough room, so that nothing can fail *)
  Variable strict : bool.

Definition plan_fails (e : err) : Prop := strict = false ∧ (e = Abort ∨ e = OutOfRange).

Definition max_of (l : list ggml_dyn_tallocr) (k c : nat) : Z :=
  match l !! k with Some a => ggml_dyn_tallocr_max_size a c | None => 0%Z end.
Definition grows (l l' : list ggml_dyn_tallocr) : Prop := ∀ k c, (max_of l k c ≤ max_of l' k c)%Z.

(** the allocators agree with the regions [Lv k]; [B] bytes were asked for so far *)
Record tallocs_ok (B : Z) (Lv : nat → list region) (l : list ggml_dyn_tallocr) : Prop := {
  ts_len : length l = NT;
  ts_al : ∀ k a, l !! k = Some a → ta_alignment a = AL k;
  ts_dyn : ∀ k a, l !! k = Some a → dyn_ok a (Lv k);
  ts_budget : strict = true → (0 ≤ B)%Z ∧ ∀ k a, l !! k = Some a → tidy a ∧ within a B }.

Definition upd_live (k : nat) (f : list region → list region) (Lv : nat → list region) (j : nat) : list region :=
  if decide (j = k) then f (Lv j) else Lv j.

Lemma tallocs_ok_ext B Lv Lv' l : (∀ k, Lv k ≡ₚ Lv' k) → tallocs_ok B Lv l → tallocs_ok B Lv' l.
Proof. intros H [H1 H2 H3 H4]. split; [done|done| |done]. intros k a Hk. rewrite <- H. by apply H3. Qed.

Lemma tallocs_refl l : grows l l.
Proof. by intros k c. Qed.
Lemma tallocs_trans l l' l'' : grows l l' → grows l' l'' → grows l l''.
Proof. intros H H' k c. specialize (H k c). specialize (H' k c). lia. Qed.

Lemma max_of_insert l k a c j : k < length l → max_of (<[k := a]> l) j c = if decide (j = k) then ggml_dyn_tallocr_max_size a c else max_of l j c.
Proof.
  intros Hk. unfold max_of. case_decide as Hj.
  - subst j. by rewrite list_lookup_insert_eq.
  - by rewrite list_lookup_insert_ne.
Qed.

Lemma max_size_chunks a a' : (∀ c ck, ta_chunks a !! c = Some ck → ∃ ck', ta_chunks a' !! c = Some ck' ∧ (max_size ck ≤ max_size ck')%Z) →
  (∀ ck, ck ∈ ta_chunks a' → (0 ≤ max_size ck)%Z) → ∀ c, (ggml_dyn_tallocr_max_size a c ≤ ggml_dyn_tallocr_max_size a' c)%Z.
Proof.
  intros H H0 c. unfold ggml_dyn_tallocr_max_size. destruct (ta_chunks a !! c) as [ck|] eqn:Hck.
  - destruct (H c ck Hck) as (ck' & -> & Hle). done.
  - destruct (ta_chunks a' !! c) as [ck'|] eqn:Hck'; [|done]. apply H0. by eapply list_elem_of_lookup_2.
Qed.

Lemma handed_grows a p a' addr live : handed_out a p a' addr → dyn_ok a' live → ∀ c, (ggml_dyn_tallocr_max_size a c ≤ ggml_dyn_tallocr_max_size a' c)%Z.
Proof.
  intros Ha Hok. apply max_size_chunks.
  - intros c ck Hck. destruct Ha as [c0 ck0 pre b post Hck0 _ _ _|size _ _ _]; cbn [ta_chunks with_chunks].
    + destruct (decide (c = c0)) as [->|Hne].
      * rewrite list_lookup_insert_eq by (by eapply lookup_lt_Some). eexists. split; [reflexivity|]. simplify_eq. cbn. lia.
      * rewrite list_lookup_insert_ne by done. by exists ck.
    + rewrite lookup_app_l by (by eapply lookup_lt_Some). by exists ck.
  - intros ck Hck. destruct (dyn_ok_bounds _ _ Hok ck Hck) as [H _]. lia.
Qed.

Lemma given_back_max a c o n a' : given_back a c o n a' → ∀ j, ggml_dyn_tallocr_max_size a' j = ggml_dyn_tallocr_max_size a j.
Proof.
  intros (ck & bs & Hck & _ & ->) j. unfold ggml_dyn_tallocr_max_size. cbn [ta_chunks with_chunks]. destruct (decide (j = c)) as [->|Hne].
  - rewrite list_lookup_insert_eq by (by eapply lookup_lt_Some). by rewrite Hck.
  - by rewrite list_lookup_insert_ne.
Qed.

Lemma dyn_region_in a r live : dyn_ok a (r :: live) → region_in (ta_alignment a) (ggml_dyn_tallocr_max_size a (rg_chunk r)) r.
Proof.
  intros Hok. pose proof (dyn_live _ _ Hok r ltac:(left)) as Hc. destruct (lookup_lt_is_Some_2 _ _ Hc) as [ck Hck].
  destruct (dyn_chunks _ _ Hok _ _ Hck) as [cap Hcap]. unfold ggml_dyn_tallocr_max_size. rewrite Hck.
  by apply (ck_live _ _ _ _ _ Hcap); [left|].
Qed.

Lemma dyn_region_bounds a r live : dyn_ok a (r :: live) →
  (0 ≤ rg_off r)%Z ∧ (0 ≤ rg_size r)%Z ∧ (rg_off r + rg_size r ≤ SIZE_MAX / 2)%Z ∧ (ta_alignment a | rg_off r)%Z ∧ (ta_alignment a | rg_size r)%Z.
Proof.
  intros Hok. destruct (dyn_region_in _ _ _ Hok) as (?&?&?&?&?). split_and!; [done|done| |done|done].
  unfold ggml_dyn_tallocr_max_size in *. destruct (ta_chunks a !! rg_chunk r) as [ck|] eqn:Hck.
  - destruct (dyn_ok_bounds _ _ Hok ck ltac:(by eapply list_elem_of_lookup_2)) as [Hm _]. lia.
  - assert (0 ≤ SIZE_MAX / 2)%Z by done. lia.
Qed.

Lemma tallocs_alloc B Lv l k a n : tallocs_ok B Lv l → l !! k = Some a → (0 ≤ n ∧ n + AL k ≤ SIZE_MAX / 2)%Z →
  (strict = true → 0 < n ∧ B + pad (AL k) n ≤ SIZE_MAX / 2)%Z → (strict = true → length (Lv k) < 255) →
  resP plan_fails (ggml_dyn_tallocr_alloc a n) (λ '(a', addr),
    tallocs_ok (B + pad (AL k) n) (upd_live k (cons (fresh (pad (AL k) n) addr)) Lv) (<[k := a']> l) ∧ grows l (<[k := a']> l)).
Proof.
  intros [H1 H2 H3 H4] Hk Hn Hs Hfew. pose proof (H3 _ _ Hk) as Hok. pose proof (H2 _ _ Hk) as Hal. rewrite <- Hal in *.
  destruct (dyn_align _ _ Hok) as [_ Hal0]. pose proof (pad_spec (ta_alignment a) n ltac:(lia)) as [_ Hpad].
  eapply resP_mono; [by apply (dyn_alloc_any a (Lv k) n Hok)| |].
  - intros e He. unfold plan_fails. destruct strict; [exfalso|split; [done|]; destruct He as [[-> _]|[-> _]]; auto].
    destruct (Hs eq_refl) as [Hn0 Hb], (H4 eq_refl) as [HB Htw]. destruct (Htw _ _ Hk) as [Ht Hw]. specialize (Hfew eq_refl).
    destruct He as [[_ Hf]|(_ & Hlen & Hno)]; [apply Hf; by eapply dyn_few_blocks|].
    destruct (dyn_room a (Lv k) (pad (ta_alignment a) n) B Hok Ht Hw ltac:(lia) Hb) as [?|(c & i & Hfit)]; [lia|by apply (Hno c i)].
  - intros [a' addr] [Ha Hok']. pose proof (lookup_lt_Some _ _ _ Hk) as Hlt. split; [split|].
    + by rewrite length_insert.
    + intros j b Hj. apply list_lookup_insert_Some in Hj as [(-> & -> & _)|[_ Hj]]; [|by apply H2]. by rewrite (handed_align _ _ _ _ Ha).
    + intros j b Hj. unfold upd_live. apply list_lookup_insert_Some in Hj as [(-> & -> & _)|[Hne Hj]].
      * by rewrite decide_True.
      * rewrite decide_False by done. by apply H3.
    + intros Hst. destruct (Hs Hst) as [Hn0 Hb], (H4 Hst) as [HB Htw]. destruct (Htw _ _ Hk) as [Ht Hw]. split; [lia|].
      intros j b Hj. apply list_lookup_insert_Some in Hj as [(-> & -> & _)|[Hne Hj]].
      * split; [by eapply handed_tidy; [|exact Ht|exact Ha]; lia|]. eapply handed_within; [exact Hok|done|done|lia|lia|exact Ha].
      * destruct (Htw _ _ Hj) as [Ht' Hw']. split; [done|]. intros ck Hck. specialize (Hw' ck Hck). lia.
    + intros j c. rewrite max_of_insert by done. case_decide as Hj; [|done]. subst j. unfold max_of. rewrite Hk. by eapply handed_grows.
Qed.

(** the end of a region is given back; [s] is the size that is passed *)
Lemma tallocs_free B Lv rest l k c o t s (a : ggml_dyn_tallocr) : tallocs_ok B Lv l → l !! k = Some a → Lv k ≡ₚ Region c o t :: rest →
  (0 ≤ s)%Z → (pad (AL k) s ≤ t)%Z → (strict = true → 0 < s)%Z → (strict = true → length (Lv k) < 255) →
  resP plan_fails (ggml_dyn_tallocr_free_bytes a (BufferAddress c (o + (t - pad (AL k) s))) s) (λ a',
    tallocs_ok B (upd_live k (λ _, Region c o (t - pad (AL k) s) :: rest) Lv) (<[k := a']> l) ∧ grows l (<[k := a']> l)).
Proof.
  intros [H1 H2 H3 H4] Hk Hperm Hs Ht Hpos Hfew. pose proof (H3 _ _ Hk) as Hok. pose proof (H2 _ _ Hk) as Hal. rewrite <- Hal in *.
  rewrite Hperm in Hok. destruct (dyn_align _ _ Hok) as [_ Hal0]. pose proof (pad_spec (ta_alignment a) s ltac:(lia)) as [_ Hpad].
  eapply resP_mono; [by apply (dyn_free_any a rest c o t s Hok)| |].
  - intros e [He Hf]. unfold plan_fails. destruct strict; [exfalso|done]. destruct (H4 eq_refl) as [HB Htw]. destruct (Htw _ _ Hk) as [Htd Hw].
    apply Hf. eapply dyn_few_blocks; [exact Hok|done|]. rewrite <- Hperm. by apply Hfew.
  - intros a' [Hg Hok']. pose proof (lookup_lt_Some _ _ _ Hk) as Hlt. split; [split|].
    + by rewrite length_insert.
    + intros j b Hj. apply list_lookup_insert_Some in Hj as [(-> & -> & _)|[_ Hj]]; [|by apply H2]. by destruct Hg as (? & ? & _ & _ & ->).
    + intros j b Hj. unfold upd_live. apply list_lookup_insert_Some in Hj as [(-> & -> & _)|[Hne Hj]].
      * by rewrite decide_True.
      * rewrite decide_False by done. by apply H3.
    + intros Hst. destruct (H4 Hst) as [HB Htw]. destruct (Htw _ _ Hk) as [Htd Hw]. split; [lia|]. specialize (Hpos Hst).
      intros j b Hj. apply list_lookup_insert_Some in Hj as [(-> & -> & _)|[Hne Hj]]; [|by apply (Htw j)].
      split; [eapply (given_back_tidy a rest c o t); [exact Hok| |done|exact Hg]; lia|eapply given_back_within; [exact Hw|exact Hg]].
    + intros j d. rewrite max_of_insert by done. case_decide as Hj; [|done]. subst j. unfold max_of. rewrite Hk. by rewrite (given_back_max _ _ _ _ _ Hg).
Qed.

(** ** The regions of the tensors that are allocated *)

Definition talloc_of (id : Z) : nat := default 0 (BT !! Z.to_nat id).
Definition buft_of (id : Z) : Z := default 0%Z (BF !! Z.to_nat id).
Definition good_id (id : Z) : Prop := (0 ≤ id)%Z ∧ Z.to_nat id < length BF.

(** the padded size of a tensor in a buffer *)
Definition psize (id : Z) t : Z := pad (AL (talloc_of id)) (alloc_size (buft_of id) (ts t)).
Definition region_of t (h : hash_node) : region := Region (ba_chunk (hn_addr h)) (ba_offset (hn_addr h)) (psize (buffer_id h) t).

Definition in_talloc (f : Z → hash_node) (k : nat) t : Prop := allocated (f t) = true ∧ talloc_of (buffer_id (f t)) = k.
#[local] Instance in_talloc_dec f k t : Decision (in_talloc f k t).
Proof. unfold in_talloc. apply _. Defined.

Definition live (f : Z → hash_node) (k : nat) : list region := (λ t, region_of t (f t)) <$> filter (in_talloc f k) U.
Definition held (f : Z → hash_node) : list Z := filter (λ t, allocated (f t) = true) U.

Lemma filter_add (P Q : Z → Prop) `{∀ t, Decision (P t), ∀ t, Decision (Q t)} (l : list Z) t :
  NoDup l → t ∈ l → ¬ P t → Q t → (∀ t', t' ≠ t → Q t' ↔ P t') → filter Q l ≡ₚ t :: filter P l.
Proof.
  intros Hnd Ht HP HQ Hext. induction Hnd as [|x l Hx Hnd IH]; [by apply not_elem_of_nil in Ht|].
  rewrite !filter_cons. destruct (decide (x = t)) as [->|Hne].
  - rewrite decide_True, decide_False by done. f_equiv. erewrite (filter_ext_in Q P); [done|]. intros y Hy. apply Hext. by intros ->.
  - assert (Ht' : t ∈ l) by set_solver. specialize (IH Ht'). pose proof (Hext x Hne) as Hx'.
    destruct (decide (P x)) as [HPx|HPx].
    + rewrite decide_True by tauto. rewrite IH. apply perm_swap.
    + rewrite decide_False by tauto. done.
Qed.

Lemma live_ext f f' k : (∀ t, t ∈ U → allocated (f t) = allocated (f' t) ∧ (allocated (f t) = true → buffer_id (f t) = buffer_id (f' t) ∧ hn_addr (f t) = hn_addr (f' t))) →
  live f k = live f' k.
Proof.
  intros H. unfold live. rewrite (filter_ext_in (in_talloc f k) (in_talloc f' k)).
  - apply list_fmap_ext. intros i t Ht. apply list_elem_of_lookup_2 in Ht. apply list_elem_of_filter in Ht as [[Ha _] Ht].
    destruct (H t Ht) as [He Hb]. rewrite <- He in Ha. destruct (Hb Ha) as [Hi Hd]. unfold region_of. by rewrite Hi, Hd.
  - intros t Ht. destruct (H t Ht) as [He Hb]. unfold in_talloc. rewrite <- He. split; intros [Ha Hk]; destruct (Hb Ha) as [Hi _]; (split; congruence).
Qed.

Lemma live_add f f' k t : NoDup U → t ∈ U → allocated (f t) = false → allocated (f' t) = true → (∀ t', t' ≠ t → f' t' = f t') →
  live f' k ≡ₚ (if decide (k = talloc_of (buffer_id (f' t))) then cons (region_of t (f' t)) else id) (live f k).
Proof.
  intros Hnd Ht Ha Ha' Hext. unfold live.
  assert (Hf : (λ t, region_of t (f' t)) <$> filter (in_talloc f k) U = (λ t, region_of t (f t)) <$> filter (in_talloc f k) U).
  { apply list_fmap_ext. intros i t' Ht'. apply list_elem_of_lookup_2, list_elem_of_filter in Ht' as [[Hb _] _].
    rewrite Hext; [done|]. intros ->. congruence. }
  case_decide as Hk.
  - rewrite (filter_add (in_talloc f k) (in_talloc f' k) U t Hnd Ht).
    + cbn. by rewrite Hf.
    + intros [Hb _]. congruence.
    + by split.
    + intros t' Hne. unfold in_talloc. by rewrite Hext.
  - cbn. rewrite <- Hf. erewrite (filter_ext_in (in_talloc f' k) (in_talloc f k)); [done|]. intros t' _. unfold in_talloc.
    destruct (decide (t' = t)) as [->|Hne]; [|by rewrite Hext]. split; intros [Hb Hc]; (split; congruence).
Qed.

Lemma live_le_held f k : length (live f k) ≤ length (held f).
Proof.
  unfold live, held. rewrite length_fmap. induction U as [|t l IH]; [done|]. rewrite !filter_cons. unfold in_talloc at 1.
  repeat case_decide; cbn; try lia. tauto.
Qed.

Lemma live_elem f t : t ∈ U → allocated (f t) = true → ∃ rest, live f (talloc_of (buffer_id (f t))) ≡ₚ region_of t (f t) :: rest ∧
  ∀ t', t' ∈ U → allocated (f t') = true → t' ≠ t → talloc_of (buffer_id (f t')) = talloc_of (buffer_id (f t)) → region_of t' (f t') ∈ rest.
Proof.
  intros Ht Ha. unfold live. set (k := talloc_of _). assert (Hin : t ∈ filter (in_talloc f k) U) by (by apply list_elem_of_filter).
  destruct (list_elem_of_split _ _ Hin) as (l1 & l2 & Hl). exists ((λ t, region_of t (f t)) <$> (l1 ++ l2)). rewrite Hl.
  split; [by rewrite !fmap_app, fmap_cons, Permutation_middle|]. intros t' Ht' Ha' Hne Hk.
  apply (list_elem_of_fmap_2 (λ t, region_of t (f t))). assert (H : t' ∈ filter (in_talloc f k) U) by (by apply list_elem_of_filter). rewrite Hl in H. set_solver.
Qed.

(** the state of the planner, where [f] says which tensors are allocated *)
Record plan_ok (B : Z) (f : Z → hash_node) g : Prop := {
  pk_wf : table_wf g;
  pk_bufts : bufts g = BF;
  pk_ids : buf_tallocs g = BT;
  pk_tallocs : tallocs_ok B (live f) (tallocs g);
  pk_good : ∀ t, allocated (f t) = true → t ∈ U ∧ good_id (buffer_id (f t)) }.

  Hypothesis HU : NoDup U.
  Hypothesis HBT : length BT = length BF ∧ ∀ i k, BT !! i = Some k → k < NT.
  Hypothesis Hsize : ∀ b t k, t ∈ U → k < NT → (0 ≤ alloc_size b (ts t) ∧ alloc_size b (ts t) + AL k ≤ SIZE_MAX / 2)%Z.
  Hypothesis Hpos : strict = true → ∀ b t, t ∈ U → (0 < alloc_size b (ts t))%Z.

Lemma good_talloc id : good_id id → BT !! Z.to_nat id = Some (talloc_of id) ∧ talloc_of id < NT.
Proof.
  intros [Hi Hlt]. destruct HBT as [Hl Hk]. rewrite <- Hl in Hlt. destruct (lookup_lt_is_Some_2 _ _ Hlt) as [k Hkk].
  unfold talloc_of. rewrite Hkk. split; [done|]. by eapply Hk.
Qed.

Lemma good_buft id : good_id id → BF !! Z.to_nat id = Some (buft_of id).
Proof. intros [Hi Hlt]. destruct (lookup_lt_is_Some_2 _ _ Hlt) as [k Hkk]. unfold buft_of. by rewrite Hkk. Qed.

Lemma buft_ok g id : bufts g = BF → good_id id → buft g id = Ok (buft_of id).
Proof. intros Hb Hg. unfold buft. rewrite idx_ok, bind_Ok, Hb by apply Hg. apply vget_ok. by apply good_buft. Qed.

Lemma talloc_idx_ok g id : buf_tallocs g = BT → good_id id → talloc_idx g id = Ok (talloc_of id).
Proof. intros Hb Hg. unfold talloc_idx. rewrite idx_ok, bind_Ok, Hb by apply Hg. apply vget_ok. by apply good_talloc. Qed.

Lemma talloc_ok B f g id : plan_ok B f g → good_id id → ∃ a, tallocs g !! talloc_of id = Some a ∧ talloc g (talloc_of id) = Ok a ∧ ta_alignment a = AL (talloc_of id) ∧
  is_power_of_2 (AL (talloc_of id)) = true ∧ (0 < AL (talloc_of id))%Z.
Proof.
  intros Hok Hg. destruct (pk_tallocs _ _ _ Hok) as [H1 H2 H3 _]. destruct (lookup_lt_is_Some_2 (tallocs g) (talloc_of id)) as [a Ha].
  { rewrite H1. by apply good_talloc. }
  exists a. pose proof (H2 _ _ Ha) as Hal. destruct (dyn_align _ _ (H3 _ _ Ha)) as [Hp Hl]. rewrite Hal in *. split_and!; [done|by apply vget_ok|done|done|lia].
Qed.

Lemma pad_mono al n m : (0 < al)%Z → (n ≤ m)%Z → (pad al n ≤ pad al m)%Z.
Proof.
  intros Hal Hnm. destruct (pad_spec al n Hal) as [[q Hq] Hn], (pad_spec al m Hal) as [[r Hr] Hm].
  destruct (decide (pad al n ≤ pad al m)%Z) as [|Hgt]; [done|]. exfalso. assert (r + 1 ≤ q)%Z by nia. nia.
Qed.

Lemma plan_ok_same B f g g' : plan_ok B f g → same_nodes g g' → plan_ok B f g'.
Proof. intros [H1 H2 H3 H4 H5] [S1 S2 S3 S4 S5 S6]. split; [done|congruence|congruence|by rewrite S4|done]. Qed.

Lemma plan_ok_set B f g g' t h : plan_ok B f g → node_set t h g g' → plan_ok B f g'.
Proof. intros [H1 H2 H3 H4 H5] [S1 S2 S3 S4 S5 S6]. split; [done|congruence|congruence|by rewrite S4|done]. Qed.

Lemma plan_ok_ext B f f' g : plan_ok B f g →
  (∀ t, allocated (f t) = allocated (f' t) ∧ (allocated (f t) = true → buffer_id (f t) = buffer_id (f' t) ∧ hn_addr (f t) = hn_addr (f' t))) → plan_ok B f' g.
Proof.
  intros [H1 H2 H3 H4 H5] H. split; [done|done|done| |].
  - eapply tallocs_ok_ext; [|exact H4]. intros k. rewrite (live_ext f f' k); [done|]. intros t _. apply H.
  - intros t Ht. destruct (H t) as [He Hb]. rewrite <- He in Ht. destruct (Hb Ht) as [Hi _]. rewrite <- Hi. by apply H5.
Qed.

(** ** Freeing and reusing *)

  Abbreviation few f := (strict = true → length (held f) < 255).

Lemma free_bytes_ok B Lv g k rest c o t s n : tallocs_ok B Lv (tallocs g) → k < NT → Lv k ≡ₚ Region c o t :: rest →
  n = pad (AL k) s → (0 ≤ s)%Z → (n ≤ t)%Z → (strict = true → 0 < s)%Z → (strict = true → length (Lv k) < 255) →
  resP plan_fails (free_bytes g k (BufferAddress c (o + (t - n))) s) (λ g', ∃ l, g' = set_tallocs g l ∧
    tallocs_ok B (upd_live k (λ _, Region c o (t - n) :: rest) Lv) l ∧ grows (tallocs g) l).
Proof.
  intros Hok Hk Hperm -> Hs Ht Hps Hfew. rewrite <- (ts_len _ _ _ Hok) in Hk. destruct (lookup_lt_is_Some_2 _ _ Hk) as [a Ha].
  unfold free_bytes, talloc. rewrite (vget_ok _ _ _ Ha), bind_Ok.
  eapply resP_bind; [by eapply (tallocs_free B Lv rest (tallocs g) k c o t s a)|].
  intros a' [Hok' Hgr]. rewrite vset_ok, bind_Ok by done. by eexists.
Qed.

Lemma tallocs_drop B Lv l k c o rest : tallocs_ok B (upd_live k (λ _, Region c o 0 :: rest) Lv) l → tallocs_ok B (upd_live k (λ _, rest) Lv) l.
Proof.
  intros [H1 H2 H3 H4]. split; [done|done| |done]. intros j b Hj. specialize (H3 j b Hj). unfold upd_live in *. case_decide; [|done].
  by eapply dyn_ok_drop.
Qed.

Lemma nd_tallocs g l t : nd (set_tallocs g l) t = nd g t.
Proof. done. Qed.

Lemma wf_tallocs g l : table_wf g → table_wf (set_tallocs g l).
Proof. intros [T1 T2 T3 T4 T5]. by split. Qed.

(** the whole place of a tensor is given back *)
Lemma free_node_ok B g t : plan_ok B (nd g) g → t ∈ U → allocated (nd g t) = true → has_flag (ts t) FLAG_OUTPUT = false → few (nd g) →
  resP plan_fails (ggml_gallocr_free_node ts alloc_size g t) (λ g', plan_ok B (nd g') g' ∧ grows (tallocs g) (tallocs g') ∧
    ∀ t', nd g' t' = if decide (t' = t) then set_allocated false (nd g t) else nd g t').
Proof.
  intros Hok Ht Ha Hout Hfew. unfold ggml_gallocr_free_node. rewrite Hout.
  eapply resP_bind; [apply resP_okP, hash_get_ok; [done|by apply (pk_wf _ _ _ Hok)|done]|]. intros [g1 hn] [Hs Hi].
  pose proof (plan_ok_same _ _ _ _ Hok Hs) as Hok1. pose proof Hs as [S1 S2 S3 S4 S5 S6].
  rewrite (hn_get_ok g1 t hn S1 Hi), bind_Ok, S5. destruct (pk_good _ _ _ Hok t Ha) as [_ Hg]. set (id := buffer_id (nd g t)) in *.
  rewrite (talloc_idx_ok g1 id), (buft_ok g1 id), !bind_Ok by (done || apply Hok1).
  destruct (good_talloc id Hg) as [_ Hlt]. destruct (Hsize (buft_of id) t (talloc_of id) Ht Hlt) as [Hs0 Hs1].
  destruct (live_elem (nd g) t Ht Ha) as (rest & Hperm & _). fold id in Hperm.
  pose proof (free_bytes_ok B (live (nd g)) g1 (talloc_of id) rest (ba_chunk (hn_addr (nd g t))) (ba_offset (hn_addr (nd g t))) (psize id t)
    (alloc_size (buft_of id) (ts t)) (psize id t) (pk_tallocs _ _ _ Hok1) Hlt Hperm eq_refl Hs0 ltac:(lia)) as Hfree.
  replace (ba_offset (hn_addr (nd g t)) + (psize id t - psize id t))%Z with (ba_offset (hn_addr (nd g t))) in Hfree by lia.
  replace (BufferAddress (ba_chunk (hn_addr (nd g t))) (ba_offset (hn_addr (nd g t)))) with (hn_addr (nd g t)) in Hfree by (by destruct (hn_addr (nd g t))).
  eapply resP_bind; [apply Hfree|].
  { intros Hst. by apply Hpos. }
  { intros Hst. pose proof (live_le_held (nd g) (talloc_of id)). specialize (Hfew Hst). lia. }
  intros g2 (l & -> & Hl & Hgr). rewrite Z.sub_diag in Hl. apply tallocs_drop in Hl.
  eapply resP_mono; [apply resP_okP, hn_set_ok; [by apply wf_tallocs|exact Hi]|done|].
  intros g3 [N1 N2 N3 N4 N5 N6]. cbn [set_tallocs bufts buf_tallocs tallocs hash_set] in *.
  assert (Hnd : ∀ t', nd g3 t' = if decide (t' = t) then set_allocated false (nd g t) else nd g t').
  { intros t'. rewrite N5, !nd_tallocs. by rewrite !S5. }
  split; [|split; [by rewrite N4, <- S4|done]]. split; [done|by rewrite N2; apply Hok1|by rewrite N3; apply Hok1| |].
  - rewrite N4. eapply tallocs_ok_ext; [|exact Hl]. intros k. unfold upd_live.
    pose proof (live_add (nd g3) (nd g) k t HU Ht ltac:(rewrite Hnd; by rewrite decide_True) Ha ltac:(intros t' Hne; rewrite Hnd; by rewrite decide_False)) as Hadd.
    fold id in Hadd. destruct (decide (k = talloc_of id)) as [->|Hne]; [|exact Hadd]. rewrite Hperm in Hadd. by apply (inj (cons _)) in Hadd.
  - intros t' Ht'. rewrite Hnd in *. case_decide; [done|]. by apply Hok.
Qed.

  (* a tensor of the same layout needs no more memory *)
  Hypothesis Hlayout : strict = true → ∀ b t t', t ∈ U → t' ∈ U → same_layout (ts t) (ts t') = true →
    (alloc_size b (ts t) ≤ alloc_size b (ts t'))%Z.

(** [node] is marked as allocated but has no place yet *)
Definition mask (node : Z) (f : Z → hash_node) t : hash_node := if decide (t = node) then set_allocated false (f t) else f t.

Lemma free_extra_ok B g node parent id rest : table_wf g → bufts g = BF → buf_tallocs g = BT → node ∈ U → parent ∈ U →
  good_id id → buffer_id (nd g node) = id → buffer_id (nd g parent) = id → hn_addr (nd g node) = hn_addr (nd g parent) →
  same_layout (ts node) (ts parent) = true →
  tallocs_ok B (upd_live (talloc_of id) (cons (region_of parent (nd g parent))) rest) (tallocs g) →
  (strict = true → length (rest (talloc_of id)) < 254) →
  resP plan_fails (ggml_gallocr_free_extra_space ts alloc_size g node parent) (λ g', ∃ g1 l, same_nodes g g1 ∧ g' = set_tallocs g1 l ∧
    tallocs_ok B (upd_live (talloc_of id) (cons (region_of node (nd g node))) rest) l ∧ grows (tallocs g) l ∧
    (psize id node ≤ psize id parent)%Z).
Proof.
  intros Hwf Hbf Hbt Hn Hp Hg Hidn Hidp Haddr Hlay Hok Hfew. unfold ggml_gallocr_free_extra_space.
  eapply resP_bind; [apply resP_okP, hash_get_ok; done|]. intros [g1 hn] [S Hi]. pose proof S as [S1 S2 S3 S4 S5 S6].
  eapply resP_bind; [apply resP_okP, hash_get_ok; done|]. intros [g2 phn] [S' Hi2]. pose proof (same_nodes_trans _ _ _ S S') as [R1 R2 R3 R4 R5 R6].
  apply (sn_index _ _ S') in Hi. rewrite (hn_get_ok g2 node hn R1 Hi), bind_Ok, (hn_get_ok g2 parent phn R1 Hi2), bind_Ok, !R5, Hidn, Hidp.
  rewrite (buft_ok g2 id), !bind_Ok by (done || congruence). cbv zeta.
  set (ps := alloc_size _ (ts parent)). set (nsz := alloc_size _ (ts node)).
  destruct (decide (nsz ≤ ps)%Z) as [Hle|Hgt].
  2: { rewrite bool_decide_false by done. cbn. unfold plan_fails. destruct strict eqn:Hst; [|by auto]. destruct Hgt. by apply Hlayout. }
  rewrite ggml_assert_ok, bind_Ok by (by apply bool_decide_eq_true_2).
  rewrite (talloc_idx_ok g2 id), bind_Ok by (done || congruence). destruct (good_talloc id Hg) as [_ Hlt].
  set (k := talloc_of id) in *. rewrite <- R4 in Hok.
  destruct (lookup_lt_is_Some_2 (tallocs g2) k) as [a Ha]; [by rewrite (ts_len _ _ _ Hok)|].
  pose proof (ts_al _ _ _ Hok _ _ Ha) as Hal. pose proof (ts_dyn _ _ _ Hok _ _ Ha) as Hdyn. destruct (dyn_align _ _ Hdyn) as [Hp2 Hal0]. rewrite Hal in *.
  unfold talloc at 1. rewrite (vget_ok _ _ _ Ha), bind_Ok, Hal.
  destruct (Hsize (buft_of id) parent k Hp Hlt) as [Hps0 Hps1], (Hsize (buft_of id) node k Hn Hlt) as [Hns0 Hns1]. pose proof half_le.
  rewrite !aligned_size_ok, !bind_Ok by (done || unfold ps, nsz; lia).
  assert (Hdyn' : dyn_ok a (region_of parent (nd g parent) :: rest k)) by (unfold upd_live in Hdyn; by rewrite decide_True in Hdyn).
  destruct (dyn_region_bounds _ _ _ Hdyn') as (Ho0 & Hr0 & Hmax & _ & Hdp). rewrite Hal in Hdp.
  cbn [region_of rg_off rg_size] in Ho0, Hr0, Hmax, Hdp. rewrite Hidp in Hr0, Hmax, Hdp.
  change (psize id parent) with (pad (AL k) ps) in *. change (psize id node) with (pad (AL k) nsz) in *.
  pose proof (pad_mono (AL k) nsz ps ltac:(lia) Hle) as Hmono. destruct (pad_spec (AL k) nsz ltac:(lia)) as [Hdn Hpn].
  destruct (decide (pad (AL k) nsz < pad (AL k) ps)%Z) as [Hless|Hsame].
  - set (n := (pad (AL k) ps - pad (AL k) nsz)%Z).
    assert (Hpad : pad (AL k) n = n) by (apply pad_id; [lia|by apply Z.divide_sub_r]).
    rewrite u64_id by (unfold SIZE_MAX in *; lia).
    replace (ba_offset (hn_addr (nd g parent)) + pad (AL k) nsz)%Z with (ba_offset (hn_addr (nd g parent)) + (pad (AL k) ps - n))%Z by (unfold n; lia).
    eapply resP_mono; [eapply (free_bytes_ok B _ g2 k (rest k) _ _ (pad (AL k) ps) n n); [exact Hok|done| |done|unfold n; lia|unfold n; lia|unfold n; lia|]|done|].
    + unfold upd_live. rewrite decide_True by done. unfold region_of. rewrite Hidp. done.
    + intros Hst. unfold upd_live. rewrite decide_True by done. specialize (Hfew Hst). cbn. lia.
    + intros g3 (l & -> & Hl & Hgr). exists g2, l. split_and!; [by eapply same_nodes_trans|done| |by rewrite <- R4|done].
      eapply tallocs_ok_ext; [|exact Hl]. intros j. unfold upd_live. destruct (decide (j = k)) as [->|]; [|done].
      unfold region_of. rewrite Hidn, Haddr. unfold psize. fold k nsz. replace (pad (AL k) ps - n)%Z with (pad (AL k) nsz) by (unfold n; lia). done.
  - assert (He : pad (AL k) nsz = pad (AL k) ps) by lia. cbn. exists g2, (tallocs g2).
    split_and!; [by eapply same_nodes_trans|by destruct g2| |rewrite R4; apply tallocs_refl|done].
    eapply tallocs_ok_ext; [|exact Hok]. intros j. unfold upd_live. destruct (decide (j = k)) as [->|]; [|done].
    unfold region_of. rewrite Hidn, Hidp, Haddr. unfold psize. fold k nsz ps. by rewrite He.
Qed.

(** what taking the place of [parent] does to the nodes *)
Definition taken_nd g (node parent : Z) t : hash_node :=
  if decide (t = node) then set_place (buffer_id (nd g parent)) (hn_addr (nd g parent)) (nd g node)
  else if decide (t = parent) then set_allocated false (nd g parent) else nd g t.

(** when a place may be taken *)
Definition takes g (node parent : Z) : Prop :=
  allocated (nd g parent) = true ∧ t_view_src (ts parent) = None ∧ has_flag (ts parent) FLAG_OUTPUT = false ∧
  same_layout (ts node) (ts parent) = true ∧ n_children (nd g parent) = 1%Z ∧ n_views (nd g parent) = 0%Z.

Lemma mask_ne node f t : t ≠ node → mask node f t = f t.
Proof. intros H. unfold mask. by rewrite decide_False. Qed.
Lemma mask_eq node f : mask node f node = set_allocated false (f node).
Proof. unfold mask. by rewrite decide_True. Qed.

Lemma mask_ext node f f' t : (∀ t, f t = f' t) → mask node f t = mask node f' t.
Proof. intros H. unfold mask. by rewrite !H. Qed.

Lemma plan_ok_nd B f f' g : plan_ok B f g → (∀ t, f t = f' t) → plan_ok B f' g.
Proof. intros H He. eapply plan_ok_ext; [exact H|]. intros t. by rewrite He. Qed.

Lemma taken_ok B g g4 node parent : plan_ok B (mask node (nd g)) g → node ∈ U → parent ∈ U → parent ≠ node →
  allocated (nd g node) = true → takes g node parent → (strict = true → length (held (mask node (nd g))) < 255) →
  table_wf g4 → bufts g4 = BF → buf_tallocs g4 = BT → tallocs g4 = tallocs g → (∀ t, nd g4 t = taken_nd g node parent t) →
  resP plan_fails (ggml_gallocr_free_extra_space ts alloc_size g4 node parent) (λ g',
    plan_ok B (nd g') g' ∧ grows (tallocs g) (tallocs g') ∧ (∀ t, nd g' t = taken_nd g node parent t) ∧
    (psize (buffer_id (nd g parent)) node ≤ psize (buffer_id (nd g parent)) parent)%Z).
Proof.
  intros Hok Hn Hp Hne Han (Hap & Hv & Hout & Hlay & Hc & Hnv) Hfew Hwf Hbf Hbt Hta Hnd.
  assert (Hapm : allocated (mask node (nd g) parent) = true) by (by rewrite mask_ne).
  destruct (pk_good _ _ _ Hok parent Hapm) as [_ Hg]. rewrite mask_ne in Hg by done. set (id := buffer_id (nd g parent)) in *.
  set (f0 := mask parent (mask node (nd g))).
  assert (Hbefore : ∀ k, live (mask node (nd g)) k ≡ₚ upd_live (talloc_of id) (cons (region_of parent (nd g4 parent))) (live f0) k).
  { intros k. unfold upd_live. rewrite (live_add f0 (mask node (nd g)) k parent HU Hp); [|unfold f0; by rewrite mask_eq|done|intros t' Hne'; unfold f0; by rewrite (mask_ne parent)].
    rewrite mask_ne by done. fold id. assert (Hr : region_of parent (nd g4 parent) = region_of parent (nd g parent)).
    { rewrite Hnd. unfold taken_nd. by rewrite decide_False, decide_True by done. }
    rewrite Hr. by case_decide. }
  assert (Hnode : nd g4 node = set_place id (hn_addr (nd g parent)) (nd g node)) by (rewrite Hnd; unfold taken_nd; by rewrite decide_True).
  assert (Hpar : nd g4 parent = set_allocated false (nd g parent)) by (rewrite Hnd; unfold taken_nd; by rewrite decide_False, decide_True).
  eapply resP_mono; [eapply (free_extra_ok B g4 node parent id (live f0)); try done|done|].
  - by rewrite Hnode.
  - by rewrite Hpar.
  - by rewrite Hnode, Hpar.
  - rewrite Hta. eapply tallocs_ok_ext; [exact Hbefore|]. by apply Hok.
  - intros Hst. specialize (Hfew Hst). pose proof (live_le_held (mask node (nd g)) (talloc_of id)) as Hl. rewrite (Hbefore (talloc_of id)) in Hl.
    unfold upd_live in Hl. rewrite decide_True in Hl by done. cbn in Hl. lia.
  - intros g' (g5 & l & [S1 S2 S3 S4 S5 S6] & -> & Hl & Hgr & Hps).
    assert (Hnd' : ∀ t, nd (set_tallocs g5 l) t = taken_nd g node parent t) by (intros t; by rewrite nd_tallocs, S5, Hnd).
    split; [|split; [by rewrite Hta in Hgr|by split]]. split; cbn [set_tallocs bufts buf_tallocs tallocs].
    + by apply wf_tallocs.
    + congruence.
    + congruence.
    + eapply tallocs_ok_ext; [|exact Hl]. intros k. symmetry. rewrite (live_add (mask node (nd g4)) (nd (set_tallocs g5 l)) k node HU Hn); [|by rewrite mask_eq| | ].
      * rewrite Hnd', <- Hnd, Hnode. cbn [buffer_id set_place]. unfold upd_live.
        rewrite (live_ext (mask node (nd g4)) f0); [by case_decide|]. intros t _. unfold f0.
        destruct (decide (t = node)) as [->|Hne1]; [rewrite mask_eq, (mask_ne parent), mask_eq by done; done|]. rewrite !(mask_ne node) by done.
        destruct (decide (t = parent)) as [->|Hne2]; [by rewrite Hpar, mask_eq, mask_ne|]. rewrite !mask_ne by done.
        rewrite Hnd. unfold taken_nd. by rewrite !decide_False.
      * by rewrite Hnd', <- Hnd, Hnode.
      * intros t' Hne'. by rewrite mask_ne, nd_tallocs, S5.
    + intros t Ht. rewrite Hnd' in *. unfold taken_nd in *. destruct (decide (t = node)) as [->|Hne1]; [done|].
      destruct (decide (t = parent)) as [->|Hne2]; [done|]. pose proof (pk_good _ _ _ Hok t) as Hgt. rewrite mask_ne in Hgt by done. by apply Hgt.
Qed.

Lemma is_own_ok g t : table_wf g → t ∈ U → okP (ggml_gallocr_is_own g t) (λ '(g', b), same_nodes g g' ∧ b = allocated (nd g t)).
Proof.
  intros Hwf Ht. unfold ggml_gallocr_is_own. eapply okP_bind; [by apply hash_get_ok|]. intros [g1 i] [S Hi].
  rewrite (hn_get_ok g1 t i (sn_wf _ _ S) Hi), bind_Ok. cbn. split; [done|]. by rewrite (sn_nd _ _ S).
Qed.

Lemma is_allocated_ok g t : table_wf g → t ∈ U → okP (ggml_gallocr_is_allocated ts g t) (λ '(g', b), same_nodes g g' ∧
  b = bool_decide (t_data (ts t) ≠ 0 ∨ t_buffer (ts t) ≠ 0)%Z || allocated (nd g t)).
Proof.
  intros Hwf Ht. unfold ggml_gallocr_is_allocated. case_decide as He.
  - cbn. split; [by apply same_nodes_refl|]. by rewrite bool_decide_true.
  - rewrite bool_decide_false by done. by apply is_own_ok.
Qed.

(** views are never allocated by the planner *)
Definition views_free g : Prop := ∀ t, t_view_src (ts t) ≠ None → allocated (nd g t) = false.

Lemma reuse_parent_ok B g node hn parent : plan_ok B (mask node (nd g)) g → node ∈ U → parent ∈ U → parent ≠ node →
  allocated (nd g node) = true → index_of (hash_set g) node = Some hn → views_free g →
  (strict = true → length (held (mask node (nd g))) < 255) →
  resP plan_fails (reuse_parent ts alloc_size g node hn parent) (λ '(g', b), if (b : bool)
    then takes g node parent ∧ plan_ok B (nd g') g' ∧ grows (tallocs g) (tallocs g') ∧ (∀ t, nd g' t = taken_nd g node parent t) ∧
      (psize (buffer_id (nd g parent)) node ≤ psize (buffer_id (nd g parent)) parent)%Z
    else same_nodes g g').
Proof.
  intros Hok Hn Hp Hne Han Hi Hviews Hfew. unfold reuse_parent.
  eapply resP_bind; [apply resP_okP, is_own_ok; [by apply Hok|done]|]. intros [g1 own] [S ->].
  destruct (allocated (nd g parent)) eqn:Hap; [|done]. cbn [negb].
  assert (Hv : t_view_src (ts parent) = None).
  { destruct (t_view_src (ts parent)) as [v|] eqn:Hv; [|done]. rewrite (Hviews parent) in Hap by congruence. done. }
  unfold is_output. rewrite Hv, orb_false_r. destruct (has_flag (ts parent) FLAG_OUTPUT) eqn:Hout; [done|].
  destruct (same_layout (ts node) (ts parent)) eqn:Hlay; [|done]. cbn [negb].
  eapply resP_bind; [apply resP_okP, hash_get_ok; [done|by apply S|done]|]. intros [g2 p_hn] [S' Hpi].
  pose proof (same_nodes_trans _ _ _ S S') as S2. pose proof S2 as [R1 R2 R3 R4 R5 R6].
  rewrite (hn_get_ok g2 parent p_hn R1 Hpi), bind_Ok, !R5.
  destruct (decide (n_children (nd g parent) = 1 ∧ n_views (nd g parent) = 0)%Z) as [[Hc Hnv]|_]; [|done].
  eapply resP_bind; [apply resP_okP, (hn_set_ok g2 node); [done|by apply R6]|]. intros g3 [M1 M2 M3 M4 M5 M6].
  eapply resP_bind; [apply resP_okP, (hn_set_ok g3 parent); [done|by rewrite M6]|]. intros g4 [N1 N2 N3 N4 N5 N6].
  assert (Htk : takes g node parent) by done.
  eapply resP_bind; [apply (taken_ok B g g4 node parent Hok); try done|].
  - rewrite N2, M2, R2. apply Hok.
  - rewrite N3, M3, R3. apply Hok.
  - congruence.
  - intros t. rewrite N5. unfold taken_nd. destruct (decide (t = parent)) as [->|Hnp].
    + rewrite M5, !decide_False by done. by rewrite R5.
    + rewrite M5. case_decide; [by rewrite R5|]. by rewrite R5.
  - intros g5 H. cbn. split; [done|exact H].
Qed.

Lemma reuse_loop_ok B g node hn src : plan_ok B (mask node (nd g)) g → node ∈ U → (∀ p, p ∈ omap id src → p ∈ U ∧ p ≠ node) →
  allocated (nd g node) = true → index_of (hash_set g) node = Some hn → views_free g →
  (strict = true → length (held (mask node (nd g))) < 255) →
  resP plan_fails (reuse_loop ts alloc_size g node hn src) (λ '(g', b), if (b : bool)
    then ∃ parent, parent ∈ omap id src ∧ takes g node parent ∧ plan_ok B (nd g') g' ∧ grows (tallocs g) (tallocs g') ∧ (∀ t, nd g' t = taken_nd g node parent t) ∧
      (psize (buffer_id (nd g parent)) node ≤ psize (buffer_id (nd g parent)) parent)%Z
    else same_nodes g g').
Proof.
  intros Hok Hn Hsrc Han Hi Hviews Hfew. revert g Hok Han Hi Hviews Hfew.
  induction src as [|[parent|] src IH]; intros g Hok Han Hi Hviews Hfew; cbn [reuse_loop].
  - cbn. apply same_nodes_refl. apply Hok.
  - destruct (Hsrc parent) as [Hp Hne]; [cbn; left|].
    eapply resP_bind; [by apply (reuse_parent_ok B)|]. intros [g1 b]. destruct b.
    + intros H. cbn. exists parent. split; [left|exact H].
    + intros S. assert (He : ∀ t, mask node (nd g) t = mask node (nd g1) t) by (intros t; apply mask_ext; intros t'; by rewrite (sn_nd _ _ S)).
      eapply resP_mono; [apply IH| done|].
      * intros p Hp'. apply Hsrc. cbn. by right.
      * eapply plan_ok_nd; [|exact He]. by eapply plan_ok_same.
      * by rewrite (sn_nd _ _ S).
      * by apply S.
      * intros t Ht. rewrite (sn_nd _ _ S). by apply Hviews.
      * intros Hst. specialize (Hfew Hst). unfold held in *. erewrite (filter_ext_in _ (λ t, allocated (mask node (nd g) t) = true)); [exact Hfew|]. intros t _. by rewrite He.
      * intros [g2 b2]. destruct b2.
        -- intros (p & Hp' & Htk & H1 & H2 & H3 & H4). exists p. split; [cbn; by right|]. unfold takes, taken_nd in *. rewrite !(sn_nd _ _ S) in *. split; [done|].
           split; [done|]. split; [by rewrite <- (sn_tallocs _ _ S)|]. split; [|done]. intros t. rewrite H3. repeat case_decide; by rewrite ?(sn_nd _ _ S).
        -- intros S2. by eapply same_nodes_trans.
  - apply IH; done.
Qed.

(** ** Placing a tensor *)

(** a tensor that the planner has to place *)
Definition managed t : Prop := t_data (ts t) = 0%Z ∧ t_buffer (ts t) = 0%Z ∧ t_view_src (ts t) = None.

Lemma managed_dec' t : bool_decide (t_data (ts t) ≠ 0 ∨ t_buffer (ts t) ≠ 0)%Z = false → is_view (ts t) = false → managed t.
Proof.
  intros H1%bool_decide_eq_false_1 H2%bool_decide_eq_false_1. unfold managed. split_and!; [lia|lia|].
  destruct (t_view_src (ts t)); [by destruct H2|done].
Qed.

(** [node] got a place; the one of [o] if there is such a tensor *)
Record placed (id : Z) g (node : Z) (o : option Z) g' : Prop := {
  pl_nd : ∀ t, nd g' t = if decide (t = node) then HashNode (n_children (nd g node)) (n_views (nd g node)) (buffer_id (nd g' node)) (hn_addr (nd g' node)) true
    else if decide (o = Some t) then set_allocated false (nd g t) else nd g t;
  pl_good : good_id (buffer_id (nd g' node));
  pl_o : match o with
    | None => buffer_id (nd g' node) = id
    | Some p => p ∈ sources ts node ∧ ggml_op_can_inplace (t_op (ts node)) = true ∧ takes g node p ∧ p ≠ node ∧
        buffer_id (nd g' node) = buffer_id (nd g p) ∧ hn_addr (nd g' node) = hn_addr (nd g p) ∧
        (psize (buffer_id (nd g p)) node ≤ psize (buffer_id (nd g p)) p)%Z end }.

Lemma tallocs_more B B' Lv l : tallocs_ok B Lv l → (strict = true → B ≤ B')%Z → tallocs_ok B' Lv l.
Proof.
  intros [H1 H2 H3 H4] Hle. split; [done|done|done|]. intros Hst. specialize (Hle Hst). destruct (H4 Hst) as [H0 H5]. split; [lia|]. intros k a Hk.
  destruct (H5 k a Hk) as [Ht Hw]. split; [done|]. intros ck Hck. specialize (Hw ck Hck). lia.
Qed.

Lemma plan_ok_more B B' f g : plan_ok B f g → (strict = true → B ≤ B')%Z → plan_ok B' f g.
Proof. intros [H1 H2 H3 H4 H5] Hle. split; [done|done|done| |done]. by eapply tallocs_more. Qed.

Lemma psize_nonneg id t : good_id id → t ∈ U → (∃ B f g, plan_ok B f g) → (0 ≤ psize id t)%Z.
Proof.
  intros Hg Ht (B & f & g & Hok). destruct (talloc_ok _ _ g id Hok Hg) as (a & _ & _ & _ & _ & Hal). unfold psize.
  apply pad_nonneg; [done|]. by apply (Hsize _ t (talloc_of id)); [|apply good_talloc].
Qed.

(** a place of its own for a tensor that is marked and found no parent *)
Lemma fresh_ok B g node hn id : plan_ok B (mask node (nd g)) g → node ∈ U → good_id id → allocated (nd g node) = true →
  index_of (hash_set g) node = Some hn → (strict = true → length (held (mask node (nd g))) < 255) →
  (strict = true → (B + psize id node ≤ SIZE_MAX / 2)%Z) →
  resP plan_fails (k ← talloc_idx g id; a ← talloc g k; b ← buft g id;
    '(a, addr) ← ggml_dyn_tallocr_alloc a (alloc_size b (ts node));
    g ← hn_set g hn (set_place id addr);
    l ← vset (tallocs g) k a;
    Ok (set_tallocs g l)) (λ g', plan_ok (B + psize id node) (nd g') g' ∧ grows (tallocs g) (tallocs g') ∧
      ∃ addr, ∀ t, nd g' t = if decide (t = node) then set_place id addr (nd g node) else nd g t).
Proof.
  intros Hok Hn Hg Han Hi Hfew Hbud. rewrite (talloc_idx_ok g id), bind_Ok by (done || apply Hok).
  destruct (talloc_ok _ _ g id Hok Hg) as (a & Hka & Hta & Hal & Hp2 & Hal0). rewrite Hta, bind_Ok, (buft_ok g id), bind_Ok by (done || apply Hok).
  destruct (good_talloc id Hg) as [_ Hlt]. destruct (Hsize (buft_of id) node (talloc_of id) Hn Hlt) as [Hs0 Hs1]. set (k := talloc_of id) in *.
  eapply resP_bind.
  { eapply (tallocs_alloc B (live (mask node (nd g))) (tallocs g) k a); [apply Hok|done|lia| |].
    - intros Hst. split; [by apply Hpos|]. by apply Hbud.
    - intros Hst. pose proof (live_le_held (mask node (nd g)) k). specialize (Hfew Hst). lia. }
  intros [a' addr] [Hl Hgr]. eapply resP_bind; [apply resP_okP, (hn_set_ok g node); [by apply Hok|done]|].
  intros g1 [N1 N2 N3 N4 N5 N6]. rewrite vset_ok, bind_Ok by (rewrite N4; by eapply lookup_lt_Some). cbn [resP].
  assert (Hnd : ∀ l t, nd (set_tallocs g1 l) t = if decide (t = node) then set_place id addr (nd g node) else nd g t) by (intros l t; by rewrite nd_tallocs).
  split; [|split; [cbn; by rewrite N4|by exists addr]]. split; cbn [set_tallocs bufts buf_tallocs tallocs].
  - by apply wf_tallocs.
  - rewrite N2. apply Hok.
  - rewrite N3. apply Hok.
  - rewrite N4. eapply tallocs_ok_ext; [|exact Hl]. intros j. symmetry.
    rewrite (live_add (mask node (nd g)) _ j node HU Hn); [|by rewrite mask_eq|by rewrite Hnd, decide_True|intros t' Hne; rewrite mask_ne, Hnd by done; by rewrite decide_False].
    rewrite Hnd, (decide_True (P := node = node)) by done. cbn [buffer_id set_place]. fold k. unfold upd_live. case_decide; [|done]. done.
  - intros t Ht. rewrite Hnd in *. case_decide as He; [subst t; split; [done|exact Hg]|].
    pose proof (pk_good _ _ _ Hok t) as Hgt. rewrite mask_ne in Hgt by done. by apply Hgt.
Qed.

Lemma allocate_node_ok B g node id : plan_ok B (nd g) g → node ∈ U → good_id id → (ggml_op_can_inplace (t_op (ts node)) = true → ∀ p, p ∈ sources ts node → p ∈ U ∧ p ≠ node) → views_free g →
  (managed node → allocated (nd g node) = false → ba_offset (hn_addr (nd g node)) = 0%Z) →
  (strict = true → length (held (nd g)) < 255) → (strict = true → managed node → allocated (nd g node) = false → (B + psize id node ≤ SIZE_MAX / 2)%Z) →
  resP plan_fails (ggml_gallocr_allocate_node ts alloc_size g node id) (λ g',
    grows (tallocs g) (tallocs g') ∧
    ((same_nodes g g' ∧ (managed node → allocated (nd g node) = true)) ∨
     (managed node ∧ allocated (nd g node) = false ∧ plan_ok (B + psize id node) (nd g') g' ∧ ∃ o, placed id g node o g'))).
Proof.
  intros Hok Hn Hg Hsrc Hviews Hfresh Hfew Hbud. unfold ggml_gallocr_allocate_node.
  rewrite ggml_assert_ok, bind_Ok by (apply bool_decide_eq_true_2, Hg).
  eapply resP_bind; [apply resP_okP, hash_get_ok; [done|by apply Hok|done]|]. intros [g1 hn] [S1 Hi].
  eapply resP_bind; [apply resP_okP, is_allocated_ok; [by apply S1|done]|]. intros [g2 b] [S2 ->].
  pose proof (same_nodes_trans _ _ _ S1 S2) as S. apply (sn_index _ _ S2) in Hi. rewrite (sn_nd _ _ S1).
  destruct (bool_decide (t_data (ts node) ≠ 0 ∨ t_buffer (ts node) ≠ 0)%Z) eqn:Hext.
  { cbn. split; [rewrite (sn_tallocs _ _ S); apply tallocs_refl|]. left. split; [done|]. intros (H1 & H2 & _). apply bool_decide_eq_true_1 in Hext. lia. }
  destruct (allocated (nd g node)) eqn:Ha; [cbn; split; [rewrite (sn_tallocs _ _ S); apply tallocs_refl|]; by left|].
  destruct (is_view (ts node)) eqn:Hview.
  { cbn. split; [rewrite (sn_tallocs _ _ S); apply tallocs_refl|]. left. split; [done|]. intros (_ & _ & H3). unfold is_view in Hview. by rewrite H3 in Hview. }
  pose proof (managed_dec' node Hext Hview) as Hm. cbn [negb andb orb].
  eapply resP_bind; [apply resP_okP, (hn_set_ok g2 node); [by apply S|done]|]. intros g3 N. pose proof N as [N1 N2 N3 N4 N5 N6].
  assert (Hi3 : index_of (hash_set g3) node = Some hn) by (by rewrite N6).
  assert (Hnd3 : ∀ t, nd g3 t = if decide (t = node) then set_allocated true (nd g node) else nd g t) by (intros t; rewrite N5; by rewrite !(sn_nd _ _ S)).
  assert (Hnode3 : nd g3 node = set_allocated true (nd g node)) by (rewrite Hnd3; by rewrite decide_True).
  rewrite (hn_get_ok g3 node hn N1 Hi3), bind_Ok, Hnode3.
  rewrite assert_ok, bind_Ok by (apply bool_decide_eq_true_2; cbn; by apply Hfresh).
  assert (Hmask : ∀ t, allocated (nd g t) = allocated (mask node (nd g3) t) ∧ (allocated (nd g t) = true → buffer_id (nd g t) = buffer_id (mask node (nd g3) t) ∧ hn_addr (nd g t) = hn_addr (mask node (nd g3) t))).
  { intros t. unfold mask. rewrite Hnd3. destruct (decide (t = node)) as [->|]; [by rewrite Ha|done]. }
  assert (Hok3 : plan_ok B (mask node (nd g3)) g3).
  { eapply plan_ok_ext; [|exact Hmask]. eapply plan_ok_set; [|exact N]. by eapply plan_ok_same. }
  assert (Hfew3 : strict = true → length (held (mask node (nd g3))) < 255).
  { intros Hst. specialize (Hfew Hst). unfold held in *. erewrite (filter_ext_in _ (λ t, allocated (nd g t) = true)); [exact Hfew|].
    intros t _. by rewrite (proj1 (Hmask t)). }
  assert (Hviews3 : views_free g3).
  { intros t Ht. rewrite Hnd3. destruct (decide (t = node)) as [->|]; [by destruct Hm as (_ & _ & ?)|]. by apply Hviews. }
  assert (Hta : tallocs g3 = tallocs g) by (rewrite N4; apply S).
  assert (Hps : (0 ≤ psize id node)%Z) by (apply psize_nonneg; [done|done|by exists B, (nd g), g]).
  eapply resP_bind.
  - instantiate (1 := λ '(g', r), if (r : bool)
      then grows (tallocs g) (tallocs g') ∧ plan_ok (B + psize id node) (nd g') g' ∧ ∃ o, placed id g node o g'
      else same_nodes g3 g').
    destruct (ggml_op_can_inplace (t_op (ts node))) eqn:Hop; [|cbn; by apply same_nodes_refl].
    eapply resP_mono; [eapply (reuse_loop_ok B g3 node hn (t_src (ts node))); try done|done|]; [by apply Hsrc|by rewrite Hnode3|].
    intros [g4 r]. destruct r; [|done]. intros (p & Hp & Htk & Hok4 & Hgr & Hnd4 & Hps4). destruct (Hsrc eq_refl p Hp) as [HpU Hpn].
    assert (Hp3 : nd g3 p = nd g p) by (rewrite Hnd3; by rewrite decide_False).
    split; [by rewrite <- Hta|]. split; [eapply plan_ok_more; [exact Hok4|lia]|]. exists (Some p).
    assert (Hnode4 : nd g4 node = set_place (buffer_id (nd g p)) (hn_addr (nd g p)) (set_allocated true (nd g node))).
    { rewrite Hnd4. unfold taken_nd. rewrite decide_True by done. by rewrite Hp3, Hnode3. }
    assert (Htk0 : takes g node p) by (unfold takes in *; by rewrite Hp3 in Htk).
    split.
    + intros t. destruct (decide (t = node)) as [->|Hne]; [by rewrite Hnode4|]. rewrite Hnd4. unfold taken_nd. rewrite decide_False by done. rewrite !Hp3, Hnd3.
      destruct (decide (t = p)) as [->|Hnp]; [by rewrite decide_True|]. rewrite !decide_False by (done || congruence). done.
    + rewrite Hnode4. cbn. apply (pk_good _ _ _ Hok). apply Htk0.
    + rewrite Hnode4. cbn. rewrite Hp3 in Hps4. done.
  - intros [g4 r]. destruct r; [intros (H1 & H2 & H3); cbn; split; [done|]; by right|]. intros S4. pose proof S4 as [R1 R2 R3 R4 R5 R6].
    assert (He : ∀ t, mask node (nd g3) t = mask node (nd g4) t) by (intros t; apply mask_ext; intros t'; by rewrite R5).
    eapply resP_mono; [eapply (fresh_ok B g4 node hn id)| done|].
    + eapply plan_ok_nd; [|exact He]. by eapply plan_ok_same.
    + done.
    + done.
    + by rewrite R5, Hnode3.
    + by apply R6.
    + intros Hst. specialize (Hfew3 Hst). unfold held in *. erewrite (filter_ext_in _ (λ t, allocated (mask node (nd g3) t) = true)); [exact Hfew3|]. intros t _. by rewrite He.
    + intros Hst. by apply Hbud.
    + intros g5 (Hok5 & Hgr & addr & Hnd5). split; [by rewrite <- Hta, <- R4|]. right. split_and!; [done|done|done|]. exists None.
      assert (Hnode5 : nd g5 node = set_place id addr (set_allocated true (nd g node))) by (rewrite Hnd5, decide_True by done; by rewrite R5, Hnode3).
      split; [|by rewrite Hnode5|by rewrite Hnode5].
      intros t. destruct (decide (t = node)) as [->|Hne]; [by rewrite Hnode5|]. rewrite Hnd5. rewrite !decide_False by done. rewrite R5, Hnd3. by rewrite decide_False.
Qed.

(** ** When a tensor is needed *)

  Variable nodes : list Z.
  Variable leafs : list Z.

Definition cnt t (L : list Z) : nat := length (filter (λ x, x = t) L).
Definition uses (l : list Z) : list Z := flat_map (sources ts) l.

(** the views of [r] that are computed *)
Definition views_of (l : list Z) r : list Z := filter (λ v, t_op (ts v) ≠ GGML_OP_NONE ∧ t_view_src (ts v) = Some r) l.

(** [L] lists the uses that are still to come, one by one.  A view is finished when it was used and is not used any
    more; a tensor is released when neither it nor one of its views is needed any more and it is no output.  A tensor
    that nobody ever uses is not released. *)
Definition finished (L : list Z) v : Prop := cnt v L = 0 ∧ 0 < cnt v (uses nodes).
Definition released (L : list Z) t : Prop :=
  has_flag (ts t) FLAG_OUTPUT = false ∧ cnt t L = 0 ∧ Forall (finished L) (views_of nodes t) ∧
  (0 < cnt t (uses nodes) ∨ views_of nodes t ≠ []).

#[local] Instance managed_dec t : Decision (managed t).
Proof. unfold managed. apply _. Defined.
#[local] Instance finished_dec L v : Decision (finished L v).
Proof. unfold finished. apply _. Defined.
#[local] Instance released_dec L t : Decision (released L t).
Proof. unfold released. apply _. Defined.

(** placed before the first node is computed *)
Definition early t : Prop := t ∈ leafs ∨ has_flag (ts t) FLAG_INPUT = true.
#[local] Instance early_dec t : Decision (early t).
Proof. unfold early. apply _. Defined.

(** what has a place when the nodes [pre] were computed and [L] are the uses to come *)
Definition resident (pre L : list Z) t : Prop := managed t ∧ (early t ∨ t ∈ pre) ∧ ¬ released L t.
#[local] Instance resident_dec pre L t : Decision (resident pre L t).
Proof. unfold resident. apply _. Defined.

(** when [t'] gets its place, [t] has one and is needed by [t'] or later *)
Definition keeps t t' : Prop :=
  (early t ∧ early t') ∨
  (¬ early t' ∧ ∃ pre post, nodes = pre ++ t' :: post ∧ (early t ∨ t ∈ pre) ∧ ¬ released (uses (t' :: post)) t).

(** [t'] is computed in the place of its source [t], which nobody needs later *)
Definition in_place g t t' : Prop :=
  t ∈ sources ts t' ∧ ggml_op_can_inplace (t_op (ts t')) = true ∧ same_layout (ts t') (ts t) = true ∧
  buffer_id (nd g t') = buffer_id (nd g t) ∧ hn_addr (nd g t') = hn_addr (nd g t) ∧
  (rg_size (region_of t' (nd g t')) ≤ rg_size (region_of t (nd g t)))%Z ∧
  ∃ pre post, nodes = pre ++ t' :: post ∧ released (uses post) t.

Definition clash g t t' : Prop :=
  talloc_of (buffer_id (nd g t)) = talloc_of (buffer_id (nd g t')) ∧ overlap (region_of t (nd g t)) (region_of t' (nd g t')).

(** what the planner relies on *)
Record graph_ok : Prop := {
  go_U : U = leafs ++ nodes;
  (* a graph is in the order of computation *)
  go_srcs : ∀ pre x post p, nodes = pre ++ x :: post → p ∈ sources ts x → p ∈ leafs ∨ p ∈ pre;
  go_view : ∀ t r, t ∈ U → t_view_src (ts t) = Some r → r ∈ U ∧ t_view_src (ts r) = None;
  go_view_order : ∀ pre v post r, nodes = pre ++ v :: post → t_view_src (ts v) = Some r → r ∈ leafs ∨ r ∈ pre;
  (* a view of a tensor that the planner places is computed if it is used *)
  go_view_used : ∀ v r, v ∈ uses nodes → t_view_src (ts v) = Some r → managed r → v ∈ nodes ∧ t_op (ts v) ≠ GGML_OP_NONE;
  (* leafs and inputs are not computed in place *)
  go_early : ∀ t, early t → ggml_op_can_inplace (t_op (ts t)) = false }.

Lemma cnt_cons t x L : cnt t (x :: L) = (if decide (x = t) then 1 else 0) + cnt t L.
Proof. unfold cnt. rewrite filter_cons. by case_decide. Qed.
Lemma cnt_app t L L' : cnt t (L ++ L') = cnt t L + cnt t L'.
Proof. unfold cnt. by rewrite filter_app, length_app. Qed.
Lemma cnt_pos t L : 0 < cnt t L ↔ t ∈ L.
Proof.
  unfold cnt. split.
  - destruct (filter (λ x, x = t) L) as [|x l] eqn:H; cbn; [lia|]. intros _.
    assert (Hx : x ∈ filter (λ x, x = t) L) by (rewrite H; left). apply list_elem_of_filter in Hx as [-> Hx]. done.
  - intros Ht. assert (Hx : t ∈ filter (λ x, x = t) L) by (by apply list_elem_of_filter). destruct (filter _ L); [by apply not_elem_of_nil in Hx|cbn; lia].
Qed.
Lemma cnt_zero t L : cnt t L = 0 ↔ t ∉ L.
Proof. rewrite <- cnt_pos. lia. Qed.

Lemma uses_app l l' : uses (l ++ l') = uses l ++ uses l'.
Proof. apply flat_map_app. Qed.
Lemma elem_of_uses t l : t ∈ uses l ↔ ∃ x, x ∈ l ∧ t ∈ sources ts x.
Proof. unfold uses. rewrite list_elem_of_In, in_flat_map. split; intros (x & H1 & H2); exists x; by rewrite ?list_elem_of_In, <- ?list_elem_of_In in *. Qed.

Lemma views_of_app l l' r : views_of (l ++ l') r = views_of l r ++ views_of l' r.
Proof. apply filter_app. Qed.
Lemma elem_of_views v l r : v ∈ views_of l r ↔ (t_op (ts v) ≠ GGML_OP_NONE ∧ t_view_src (ts v) = Some r) ∧ v ∈ l.
Proof. unfold views_of. by rewrite list_elem_of_filter. Qed.

(** nothing is released at the start *)
Lemma not_released_start t : ¬ released (uses nodes) t.
Proof.
  intros (_ & Hc & Hf & [Hu|Hv]); [lia|]. destruct (views_of nodes t) as [|v l]; [done|].
  apply Forall_cons in Hf as [[H1 H2] _]. lia.
Qed.

Lemma finished_mono L L' v : cnt v L' ≤ cnt v L → finished L v → finished L' v.
Proof. intros Hle [H1 H2]. split; [lia|done]. Qed.

Lemma released_mono L L' t : (∀ v, cnt v L' ≤ cnt v L) → released L t → released L' t.
Proof.
  intros Hle (H1 & H2 & H3 & H4). split_and!; [done|specialize (Hle t); lia| |done]. eapply Forall_impl; [exact H3|]. intros v. by apply finished_mono.
Qed.

(** a tensor of the order cannot be released before it is computed *)
Lemma not_released_before (Hgo : graph_ok) pre x post : nodes = pre ++ x :: post → NoDup nodes → x ∉ leafs → ¬ released (uses (x :: post)) x.
Proof.
  intros Hn Hnd Hxl (_ & Hc & Hf & Hor).
  assert (Hpre : x ∉ pre) by (rewrite Hn in Hnd; apply NoDup_app in Hnd as (_ & Hd & _); intros Hx; by destruct (Hd x Hx); left).
  assert (Hno : ∀ l1 y l2, pre = l1 ++ y :: l2 → ∀ p, p ∈ sources ts y → p ∈ leafs ∨ p ∈ l1).
  { intros l1 y l2 -> p Hp. eapply (go_srcs Hgo l1 y (l2 ++ x :: post)); [by rewrite Hn, <- app_assoc|done]. }
  assert (Hup : ∀ p, p ∈ uses pre → p ∈ leafs ∨ p ∈ pre).
  { intros p (y & Hy & Hp)%elem_of_uses. apply list_elem_of_split in Hy as (l1 & l2 & ->). destruct (Hno l1 y l2 eq_refl p Hp); [by left|right; set_solver]. }
  destruct Hor as [Hu|Hv].
  - rewrite Hn, uses_app, cnt_app, Hc, Nat.add_0_r in Hu. apply cnt_pos in Hu. by destruct (Hup x Hu).
  - destruct (views_of nodes x) as [|v l] eqn:Hviews; [done|]. apply Forall_cons in Hf as [[H1 H2] _].
    rewrite Hn, uses_app, cnt_app, H1, Nat.add_0_r in H2. apply cnt_pos in H2.
    assert (Hv' : v ∈ views_of nodes x) by (rewrite Hviews; left). apply elem_of_views in Hv' as [[_ Hvs] Hvn].
    assert (Hvpre : v ∈ leafs ∨ v ∈ pre) by (by apply Hup). destruct Hvpre as [Hvl|Hvpre].
    + assert (NoDup U) as HU' by done. rewrite (go_U Hgo) in HU'. apply NoDup_app in HU' as (_ & Hd & _). by apply (Hd v Hvl).
    + apply list_elem_of_split in Hvpre as (l1 & l2 & ->). destruct (go_view_order Hgo l1 v (l2 ++ x :: post) x) as [?|Hx]; [by rewrite Hn, <- app_assoc|done|done|].
      apply Hpre. set_solver.
Qed.

(** ** The invariant of the planner *)

  Variable sz : Z → Z.
  Hypothesis Hsz : strict = true → ∀ id t, good_id id → t ∈ U → (psize id t ≤ sz t)%Z.

Fixpoint total (l : list Z) : Z := match l with [] => 0%Z | t :: l => (sz t + total l)%Z end.

(** [born] have got their places, [gone] gave them up; [nc] and [nv] are the counters *)
Record st (born : list Z) (gone : Z → Prop) (nc nv : Z → Z) g : Prop := {
  st_plan : plan_ok (total born) (nd g) g;
  st_alloc : ∀ t, allocated (nd g t) = true ↔ managed t ∧ t ∈ born ∧ ¬ gone t;
  st_nc : ∀ t, n_children (nd g t) = nc t;
  st_nv : ∀ t, managed t ∨ t_view_src (ts t) ≠ None → n_views (nd g t) = nv t;
  st_fresh : ∀ t, t ∉ born → ba_offset (hn_addr (nd g t)) = 0%Z;
  st_born : NoDup born ∧ ∀ t, t ∈ born → t ∈ U;
  st_place : ∀ t, t ∈ born → managed t → good_id (buffer_id (nd g t)) ∧
    region_in (AL (talloc_of (buffer_id (nd g t)))) (max_of (tallocs g) (talloc_of (buffer_id (nd g t))) (ba_chunk (hn_addr (nd g t)))) (region_of t (nd g t));
  st_safe : ∀ t t', t ∈ born → t' ∈ born → managed t → managed t' → t ≠ t' → keeps t t' → ¬ clash g t t' ∨ in_place g t t' }.

Lemma st_ext born gone gone' nc nc' nv nv' g : st born gone nc nv g → (∀ t, managed t → t ∈ born → gone t ↔ gone' t) → (∀ t, nc t = nc' t) →
  (∀ t, managed t ∨ t_view_src (ts t) ≠ None → nv t = nv' t) → st born gone' nc' nv' g.
Proof.
  intros [H1 H2 H3 H4 H5 H6 H7 H8] Hg Hc Hv. split; [done| | | |done|done|done|done].
  - intros t. rewrite H2. split; intros (Hm & Hb & Hn); (split_and!; [done|done|]); by rewrite (Hg t Hm Hb) in *.
  - intros t. by rewrite H3.
  - intros t Ht. rewrite H4 by done. by apply Hv.
Qed.

Lemma clash_same g g' t t' : (∀ x, x = t ∨ x = t' → buffer_id (nd g' x) = buffer_id (nd g x) ∧ hn_addr (nd g' x) = hn_addr (nd g x)) →
  (clash g' t t' ↔ clash g t t') ∧ (in_place g t t' → in_place g' t t').
Proof.
  intros H. destruct (H t (or_introl eq_refl)) as [H1 H2], (H t' (or_intror eq_refl)) as [H3 H4].
  unfold clash, in_place, region_of. rewrite H1, H2, H3, H4. done.
Qed.

Lemma st_views born gone nc nv g : st born gone nc nv g → views_free g.
Proof.
  intros Hst t Ht. destruct (allocated (nd g t)) eqn:Ha; [|done]. apply (st_alloc _ _ _ _ _ Hst) in Ha as ((_ & _ & Hv) & _). congruence.
Qed.

(** a step that keeps all places *)
Lemma st_same born gone nc nv g g' : st born gone nc nv g → same_nodes g g' → st born gone nc nv g'.
Proof.
  intros [H1 H2 H3 H4 H5 H6 H7 H8] S. pose proof S as [S1 S2 S3 S4 S5 S6]. split.
  - eapply plan_ok_nd; [by eapply plan_ok_same|]. intros t. by rewrite S5.
  - intros t. by rewrite S5.
  - intros t. by rewrite S5.
  - intros t Ht. rewrite S5. by apply H4.
  - intros t Ht. rewrite S5. by apply H5.
  - done.
  - intros t Hb Hm. rewrite S5, S4. by apply H7.
  - intros t t' Hb Hb' Hm Hm' Hne Hk. destruct (clash_same g g' t t') as [Hc Hi]; [intros x _; by rewrite S5|].
    destruct (H8 t t' Hb Hb' Hm Hm' Hne Hk) as [Hs|Hs]; [left; by rewrite Hc|right; by apply Hi].
Qed.

(** a counter changes *)
Lemma st_count born gone nc nv g g' t f : st born gone nc nv g → node_set t f g g' →
  (allocated (f (nd g t)) = allocated (nd g t) ∧ buffer_id (f (nd g t)) = buffer_id (nd g t) ∧ hn_addr (f (nd g t)) = hn_addr (nd g t)) →
  st born gone (λ x, if decide (x = t) then n_children (f (nd g t)) else nc x) (λ x, if decide (x = t) then n_views (f (nd g t)) else nv x) g'.
Proof.
  intros [H1 H2 H3 H4 H5 H6 H7 H8] N (F1 & F2 & F3). pose proof N as [N1 N2 N3 N4 N5 N6].
  assert (Hsame : ∀ x, allocated (nd g x) = allocated (nd g' x) ∧ buffer_id (nd g x) = buffer_id (nd g' x) ∧ hn_addr (nd g x) = hn_addr (nd g' x)).
  { intros x. rewrite N5. destruct (decide (x = t)) as [->|]; done. }
  split.
  - eapply plan_ok_ext; [by eapply plan_ok_set|]. intros x. destruct (Hsame x) as (E1 & E2 & E3). done.
  - intros x. destruct (Hsame x) as (E1 & E2 & E3). rewrite <- E1. apply H2.
  - intros x. rewrite N5. by case_decide.
  - intros x Hx. rewrite N5. case_decide; [done|]. by apply H4.
  - intros x Hx. destruct (Hsame x) as (E1 & E2 & E3). rewrite <- E3. by apply H5.
  - done.
  - intros x Hb Hm. destruct (Hsame x) as (E1 & E2 & E3). unfold region_of. rewrite <- E2, <- E3, N4. by apply H7.
  - intros x x' Hb Hb' Hm Hm' Hne Hk. destruct (clash_same g g' x x') as [Hc Hi]; [intros y _; destruct (Hsame y) as (E1 & E2 & E3); done|].
    destruct (H8 x x' Hb Hb' Hm Hm' Hne Hk) as [Hs|Hs]; [left; by rewrite Hc|right; by apply Hi].
Qed.

(** two tensors that are allocated do not share a byte *)
Lemma no_clash B g t t' : plan_ok B (nd g) g → allocated (nd g t) = true → allocated (nd g t') = true → t ≠ t' → ¬ clash g t t'.
Proof.
  intros Hok Ha Ha' Hne [Hk Hov]. destruct (pk_good _ _ _ Hok t Ha) as [Ht Hg], (pk_good _ _ _ Hok t' Ha') as [Ht' Hg'].
  destruct (live_elem (nd g) t Ht Ha) as (rest & Hperm & Hrest). specialize (Hrest t' Ht' Ha' ltac:(done) ltac:(done)).
  destruct (talloc_ok _ _ g _ Hok Hg) as (a & Hka & _). pose proof (ts_dyn _ _ _ (pk_tallocs _ _ _ Hok) _ _ Hka) as Hdyn.
  rewrite Hperm in Hdyn. by apply (dyn_ok_disjoint _ _ _ Hdyn _ Hrest).
Qed.

Lemma clash_sym g t t' : clash g t t' → clash g t' t.
Proof. intros [Hk (c & x & H1 & H2)]. split; [done|]. by exists c, x. Qed.

Lemma region_in_more al m m' r : region_in al m r → (m ≤ m')%Z → region_in al m' r.
Proof. intros (?&?&?&?&?) Hm. unfold region_in. split_and!; [done|done|lia|done|done]. Qed.

Lemma placed_region B g t : plan_ok B (nd g) g → allocated (nd g t) = true → good_id (buffer_id (nd g t)) ∧
    region_in (AL (talloc_of (buffer_id (nd g t)))) (max_of (tallocs g) (talloc_of (buffer_id (nd g t))) (ba_chunk (hn_addr (nd g t)))) (region_of t (nd g t)).
Proof.
  intros Hok Ha. destruct (pk_good _ _ _ Hok t Ha) as [Ht Hg]. split; [done|].
  destruct (live_elem (nd g) t Ht Ha) as (rest & Hperm & _). destruct (talloc_ok _ _ g _ Hok Hg) as (a & Hka & _ & Hal & _).
  pose proof (ts_dyn _ _ _ (pk_tallocs _ _ _ Hok) _ _ Hka) as Hdyn. rewrite Hperm in Hdyn. apply dyn_region_in in Hdyn.
  unfold max_of. rewrite Hka. by rewrite <- Hal.
Qed.

Definition add_born node (born : list Z) : list Z := if decide (node ∈ born) then born else node :: born.

(** a tensor that is asked to be placed is new, or still in its place *)
Definition placeable (born : list Z) (gone : Z → Prop) (nc nv : Z → Z) node : Prop :=
  (managed node → ¬ gone node) ∧
  (managed node → node ∉ born →
    (∀ t, t ∈ born → managed t → keeps t node ∨ keeps node t → ¬ gone t) ∧
    (∀ p, p ∈ sources ts node → p ∈ born → ggml_op_can_inplace (t_op (ts node)) = true → nc p = 1%Z → nv p = 0%Z →
       has_flag (ts p) FLAG_OUTPUT = false → managed p →
       (∃ pre post, nodes = pre ++ node :: post ∧ released (uses post) p) ∧ ¬ keeps node p)).

Definition took (born : list Z) (nc nv : Z → Z) node (o : option Z) : Prop :=
  match o with
  | None => True
  | Some p => (node ∉ born) ∧ p ∈ sources ts node ∧ p ∈ born ∧ managed p ∧ p ≠ node ∧ nc p = 1%Z ∧ nv p = 0%Z ∧
      has_flag (ts p) FLAG_OUTPUT = false ∧ ggml_op_can_inplace (t_op (ts node)) = true end.

Lemma placed_st born gone nc nv g node id o g' : st born gone nc nv g → node ∈ U → managed node → node ∉ born → placeable born gone nc nv node →
  allocated (nd g node) = false → plan_ok (total born + psize id node) (nd g') g' → good_id id → grows (tallocs g) (tallocs g') → placed id g node o g' →
  st (node :: born) (λ t, gone t ∨ o = Some t) nc nv g' ∧ took born nc nv node o.
Proof.
  intros Hst Hn Hm Hnb [Hng Hpl] Ha Hok Hgi Hgr Hp. specialize (Hpl Hm Hnb) as [Hkeep Hpar]. pose proof Hst as [H1 H2 H3 H4 H5 H6 H7 H8]. pose proof Hp as [P1 P2 P3].
  assert (Hborn_ne : ∀ t, t ∈ born → t ≠ node) by (intros t Ht ->; done).
  assert (Htook : took born nc nv node o).
  { destruct o as [p|]; [|done]. destruct P3 as (Q1 & Q2 & (A1 & A2 & A3 & A4 & A5 & A6) & Q4 & _). apply H2 in A1 as (Hmp & Hpb & _).
    cbn. rewrite <- H3, <- H4 by (by left). done. }
  assert (Hsame : ∀ t, t ∈ born → buffer_id (nd g' t) = buffer_id (nd g t) ∧ hn_addr (nd g' t) = hn_addr (nd g t)).
  { intros t Ht. rewrite P1, (decide_False (P := t = node)) by auto. by case_decide. }
  assert (Halloc : ∀ t, allocated (nd g' t) = true ↔ managed t ∧ t ∈ node :: born ∧ ¬ (gone t ∨ o = Some t)).
  { intros t. rewrite P1. destruct (decide (t = node)) as [->|Hne].
    - cbn. split; [|done]. intros _. split_and!; [done|left|]. intros [Hg| ->]; [by apply Hng|by destruct P3 as (_ & _ & _ & ? & _)].
    - destruct (decide (o = Some t)) as [Ho|Ho]; [cbn; split; [done|]; intros (_ & _ & []); by right|].
      rewrite H2, elem_of_cons. naive_solver. }
  assert (Hon : o ≠ Some node) by (intros ->; by destruct P3 as (_ & _ & _ & ? & _)).
  assert (Hclash : ∀ t, t ∈ born → managed t → ¬ gone t → ¬ clash g' t node ∨ o = Some t).
  { intros t Htb Htm Htg. destruct (decide (o = Some t)) as [|Ho]; [by right|left].
    eapply no_clash; [exact Hok| | |by apply Hborn_ne]; apply Halloc; (split_and!; [done| |intros [?|?]; [|done]]).
    - by right.
    - done.
    - left.
    - by apply Hng. }
  split; [|done]. split.
  - eapply plan_ok_more; [exact Hok|]. intros Hstr. specialize (Hsz Hstr id node Hgi Hn). cbn. lia.
  - exact Halloc.
  - intros t. rewrite P1. destruct (decide (t = node)) as [->|]; [apply H3|]. case_decide; apply H3.
  - intros t Ht. rewrite P1. destruct (decide (t = node)) as [->|]; [by apply H4|]. case_decide; by apply H4.
  - intros t Ht. rewrite P1, (decide_False (P := t = node)) by set_solver. case_decide; apply H5; set_solver.
  - destruct H6 as [Hnd HbU]. split; [by constructor|]. intros t [->|Ht]%elem_of_cons; [exact Hn|by apply HbU].
  - intros t Ht Htm. destruct (decide (t = node)) as [->|Hne].
    + apply (placed_region _ _ _ Hok). apply Halloc. split_and!; [done|left|]. intros [Hg'|Ho]; [by apply Hng|]. subst o. by destruct P3 as (_ & _ & _ & ? & _).
    + assert (Htb : t ∈ born) by set_solver. destruct (Hsame t Htb) as [E1 E2]. destruct (H7 t Htb Htm) as [K1 K2].
      unfold region_of. rewrite E1, E2. split; [done|]. eapply region_in_more; [exact K2|]. apply Hgr.
  - intros t t' [->|Ht]%elem_of_cons [->|Ht']%elem_of_cons Htm Htm' Hne Hk; [done| | |].
    + (* node before t' *)
      destruct (Hclash t' Ht' Htm') as [Hc|Ho]; [apply (Hkeep t'); auto|left; by intros ?%clash_sym|].
      subst o. destruct Htook as (_ & Q1 & Q2 & Q3 & Q4 & Q5 & Q6 & Q7 & Q8). by destruct (Hpar t' Q1 Q2 Q8 Q5 Q6 Q7 Q3) as [_ ?].
    + destruct (Hclash t Ht Htm) as [Hc|Ho]; [apply (Hkeep t); auto|by left|]. right. subst o.
      destruct P3 as (Q1 & Q2 & (A1 & A2 & A3 & A4 & A5 & A6) & Q4 & Q5 & Q6 & Q7). destruct (Hsame t Ht) as [E1 E2].
      unfold in_place, region_of. cbn [rg_size]. rewrite E1, E2, Q5, Q6. split_and!; [done|done|done|done|done|done|].
      apply (Hpar t); [done|done|done|by rewrite <- H3|rewrite <- H4; [done|by left]|done|done].
    + destruct (clash_same g g' t t') as [Hc Hi].
      { intros x [->| ->]; by apply Hsame. }
      destruct (H8 t t' Ht Ht' Htm Htm' Hne Hk) as [Hs|Hs]; [left; by rewrite Hc|right; by apply Hi].
Qed.

Lemma alloc_st born gone nc nv g node id : st born gone nc nv g → node ∈ U → good_id id → (ggml_op_can_inplace (t_op (ts node)) = true → ∀ p, p ∈ sources ts node → p ∈ U ∧ p ≠ node) →
  placeable born gone nc nv node → (strict = true → length (held (nd g)) < 255) →
  (strict = true → node ∉ born → (total (node :: born) ≤ SIZE_MAX / 2)%Z) → (strict = true → ∀ t, t ∈ U → (0 ≤ sz t)%Z) →
  resP plan_fails (ggml_gallocr_allocate_node ts alloc_size g node id) (λ g', grows (tallocs g) (tallocs g') ∧
    ∃ o, st (add_born node born) (λ t, gone t ∨ o = Some t) nc nv g' ∧ took born nc nv node o).
Proof.
  intros Hst Hn Hgi Hsrc Hpl Hfew Hbud Hsz0. pose proof Hst as [H1 H2 H3 H4 H5 H6 H7 H8].
  assert (Hnone : ∀ t, gone t ↔ (gone t ∨ None = Some t)) by (intros t; naive_solver).
  assert (Hin : managed node → allocated (nd g node) = false → node ∉ born).
  { intros Hm Ha Hb. assert (allocated (nd g node) = true); [|congruence]. apply H2. split_and!; [done|done|]. by apply (proj1 Hpl). }
  eapply resP_mono; [apply (allocate_node_ok (total born) g node id H1 Hn Hgi Hsrc)|done|].
  - by eapply st_views.
  - intros Hm Ha. by apply H5, Hin.
  - done.
  - intros Hs Hm Ha. specialize (Hbud Hs (Hin Hm Ha)). specialize (Hsz Hs id node Hgi Hn). cbn in Hbud. lia.
  - intros g' [Hgr [[S Ha]|(Hm & Ha & Hok & o & Hp)]]; (split; [done|]).
    + exists None. split; [|done]. assert (Hst' : st born gone nc nv g') by (by eapply st_same). unfold add_born. case_decide as Hb.
      { eapply st_ext; [exact Hst'| |done|done]. intros t _ _. apply Hnone. }
      (* node is not placed by the planner *)
      assert (Hnm : ¬ managed node) by (intros Hm; apply Hb; by apply (H2 node), Ha).
      destruct Hst' as [K1 K2 K3 K4 K5 K6 K7 K8]. split.
      * eapply plan_ok_more; [exact K1|]. intros Hs. specialize (Hsz0 Hs node Hn). cbn. lia.
      * intros t. rewrite K2, elem_of_cons, <- Hnone. naive_solver.
      * done.
      * done.
      * intros t Ht. apply K5. set_solver.
      * destruct K6 as [Hnd HbU]. split; [by constructor|]. intros t [->|Ht]%elem_of_cons; [exact Hn|by apply HbU].
      * intros t [->|Ht]%elem_of_cons Htm; [by destruct Hnm|by apply K7].
      * intros t t' [->|Ht]%elem_of_cons [->|Ht']%elem_of_cons Htm Htm'; [by destruct Hnm..|by apply K8].
    + exists o. pose proof (Hin Hm Ha) as Hnb. unfold add_born. rewrite decide_False by done. by eapply placed_st.
Qed.

(** ** Updating the parents of a node *)

Definition nvs (L : list Z) r : Z := Z.of_nat (length (filter (λ v, ¬ finished L v) (views_of nodes r))).
Definition gone_at (L : list Z) (o : option Z) t : Prop := released L t ∨ o = Some t.
Definition main_st (born : list Z) (o : option Z) (L : list Z) g : Prop :=
  st born (gone_at L o) (λ t, Z.of_nat (cnt t L)) (nvs L) g.

Lemma nvs_zero L r : nvs L r = 0%Z ↔ Forall (finished L) (views_of nodes r).
Proof.
  unfold nvs. rewrite Forall_forall. split.
  - intros H v Hv. destruct (decide (finished L v)) as [|Hn]; [done|]. exfalso.
    assert (Hin : v ∈ filter (λ v, ¬ finished L v) (views_of nodes r)) by (by apply list_elem_of_filter).
    destruct (filter _ _); [by apply not_elem_of_nil in Hin|]. cbn in H. lia.
  - intros H. rewrite filter_none; [done|]. intros v Hv Hn. by apply Hn, H.
Qed.

Lemma held_le f f' : (∀ t, allocated (f' t) = true → allocated (f t) = true) → length (held f') ≤ length (held f).
Proof.
  intros H. unfold held. generalize U. intros l. induction l as [|t l IH]; [done|]. rewrite !filter_cons. pose proof (H t) as Ht.
  destruct (decide (allocated (f' t) = true)) as [Ha|Ha]; [rewrite (decide_True (P := allocated (f t) = true)) by auto; cbn; lia|].
  destruct (decide (allocated (f t) = true)); cbn; lia.
Qed.

Lemma st_free born gone nc nv g t : st born gone nc nv g → t ∈ U → allocated (nd g t) = true → has_flag (ts t) FLAG_OUTPUT = false → few (nd g) →
  resP plan_fails (ggml_gallocr_free_node ts alloc_size g t) (λ g', st born (λ x, gone x ∨ x = t) nc nv g' ∧ grows (tallocs g) (tallocs g') ∧
    length (held (nd g')) ≤ length (held (nd g))).
Proof.
  intros [H1 H2 H3 H4 H5 H6 H7 H8] Ht Ha Hout Hfew. eapply resP_mono; [by apply (free_node_ok (total born))|done|].
  intros g' (Hok & Hgr & Hnd).
  assert (Hsame : ∀ x, n_children (nd g' x) = n_children (nd g x) ∧ n_views (nd g' x) = n_views (nd g x) ∧ buffer_id (nd g' x) = buffer_id (nd g x) ∧ hn_addr (nd g' x) = hn_addr (nd g x)).
  { intros x. rewrite Hnd. by destruct (decide (x = t)) as [->|]. }
  split; [split|split; [done|]].
  - done.
  - intros x. rewrite Hnd. destruct (decide (x = t)) as [->|Hne].
    + cbn. split; [done|]. intros (_ & _ & Hn). destruct Hn. by right.
    + rewrite H2. naive_solver.
  - intros x. destruct (Hsame x) as (-> & _). apply H3.
  - intros x Hx. destruct (Hsame x) as (_ & -> & _). by apply H4.
  - intros x Hx. destruct (Hsame x) as (_ & _ & _ & ->). by apply H5.
  - done.
  - intros x Hb Hm. destruct (Hsame x) as (_ & _ & E1 & E2). unfold region_of. rewrite E1, E2. destruct (H7 x Hb Hm) as [K1 K2].
    split; [done|]. eapply region_in_more; [exact K2|apply Hgr].
  - intros x x' Hb Hb' Hm Hm' Hne Hk. destruct (clash_same g g' x x') as [Hc Hi]; [intros y _; by destruct (Hsame y) as (_ & _ & E1 & E2)|].
    destruct (H8 x x' Hb Hb' Hm Hm' Hne Hk) as [Hs|Hs]; [left; by rewrite Hc|right; by apply Hi].
  - apply held_le. intros x. rewrite Hnd. by case_decide.
Qed.

Lemma cnt_cons_ne v p L : v ≠ p → cnt v (p :: L) = cnt v L.
Proof. intros H. rewrite cnt_cons. by rewrite decide_False. Qed.
Lemma cnt_cons_eq p L : cnt p (p :: L) = S (cnt p L).
Proof. rewrite cnt_cons. by rewrite decide_True. Qed.

Lemma finished_ne v p L : v ≠ p → finished (p :: L) v ↔ finished L v.
Proof. intros H. unfold finished. by rewrite cnt_cons_ne. Qed.
Lemma unfinished_head p L : ¬ finished (p :: L) p.
Proof. intros [H _]. rewrite cnt_cons_eq in H. lia. Qed.

Lemma views_of_ne r p L : p ∉ views_of nodes r → Forall (finished (p :: L)) (views_of nodes r) ↔ Forall (finished L) (views_of nodes r).
Proof.
  intros Hp. rewrite !Forall_forall. split; intros H v Hv; specialize (H v Hv); apply (finished_ne v p L); try done; by intros ->.
Qed.

Lemma nvs_ne r p L : p ∉ views_of nodes r → nvs (p :: L) r = nvs L r.
Proof.
  intros Hp. unfold nvs. f_equal. f_equal. apply filter_ext_in. intros v Hv. rewrite finished_ne; [done|]. by intros ->.
Qed.

(** one use less does not change what is released, unless it was the last use of the tensor or of a view of it *)
Lemma released_step p L t : (t ≠ p ∨ 0 < cnt p L ) → (p ∉ views_of nodes t ∨ 0 < cnt p L) → released L t ↔ released (p :: L) t.
Proof.
  intros Ht Hv. unfold released.
  assert (Hc : cnt t L = 0 ↔ cnt t (p :: L) = 0).
  { destruct (decide (t = p)) as [->|Hne]; [|by rewrite cnt_cons_ne]. rewrite cnt_cons_eq. destruct Ht; [done|]. lia. }
  assert (Hf : Forall (finished L) (views_of nodes t) ↔ Forall (finished (p :: L)) (views_of nodes t)).
  { destruct Hv as [Hv|Hv]; [by rewrite views_of_ne|]. rewrite !Forall_forall. split; intros H v Hvv; specialize (H v Hvv).
    - destruct (decide (v = p)) as [->|]; [destruct H; lia|by apply finished_ne].
    - destruct (decide (v = p)) as [->|]; [by apply unfinished_head in H|by apply (finished_ne v p)]. }
  rewrite Hc, Hf. done.
Qed.

Lemma view_no_views (Hgo : graph_ok) v : t_view_src (ts v) ≠ None → views_of nodes v = [].
Proof.
  intros Hv. destruct (views_of nodes v) as [|w l] eqn:H; [done|]. assert (Hw : w ∈ views_of nodes v) by (rewrite H; left).
  apply elem_of_views in Hw as [[_ Hs] Hw]. assert (HwU : w ∈ U) by (rewrite (go_U Hgo); apply elem_of_app; by right).
  by destruct (go_view Hgo w v HwU Hs) as [_ ?].
Qed.

Lemma filter_remove_one (P Q : Z → Prop) `{∀ x, Decision (P x), ∀ x, Decision (Q x)} (l : list Z) p : NoDup l → p ∈ l → P p → ¬ Q p →
  (∀ x, x ≠ p → P x ↔ Q x) → length (filter P l) = S (length (filter Q l)).
Proof.
  intros Hnd Hp HP HQ Hext. rewrite (filter_add Q P l p); [done|done|done|done|done|]. intros x Hx. by apply Hext.
Qed.

Lemma nvs_last r p L : NoDup nodes → p ∈ views_of nodes r → cnt p L = 0 → 0 < cnt p (uses nodes) → nvs L r = (nvs (p :: L) r - 1)%Z.
Proof.
  intros Hnd Hp Hc Hu. unfold nvs. rewrite (filter_remove_one (λ v, ¬ finished (p :: L) v) (λ v, ¬ finished L v) (views_of nodes r) p); [lia| |done| | |].
  - by apply NoDup_filter.
  - apply unfinished_head.
  - intros Hn. by apply Hn.
  - intros x Hx. by rewrite finished_ne.
Qed.

(** a tensor that nobody needs any more gives its place up, unless it is an output *)
Lemma give_up_ok born o L nc nv g t : st born (gone_at L o) nc nv g → t ∈ U → (managed t → t ∈ born) → few (nd g) →
  resP plan_fails (if allocated (nd g t) then ggml_gallocr_free_node ts alloc_size g t else Ok g) (λ g',
    st born (λ x, gone_at L o x ∨ (x = t ∧ has_flag (ts t) FLAG_OUTPUT = false)) nc nv g' ∧ grows (tallocs g) (tallocs g') ∧
    length (held (nd g')) ≤ length (held (nd g))).
Proof.
  intros Hst Ht Hb Hfew. destruct (allocated (nd g t)) eqn:Ha.
  - destruct (has_flag (ts t) FLAG_OUTPUT) eqn:Hout.
    + unfold ggml_gallocr_free_node. rewrite Hout. cbn. split; [|split; [apply tallocs_refl|done]].
      eapply st_ext; [exact Hst| |done|done]. intros x _ _. naive_solver.
    + eapply resP_mono; [by apply st_free|done|]. intros g' (H1 & H2 & H3). split; [|done].
      eapply st_ext; [exact H1| |done|done]. intros x _ _. naive_solver.
  - cbn. split; [|split; [apply tallocs_refl|done]]. eapply st_ext; [exact Hst| |done|done].
    intros x Hm Hxb. split; [by left|]. intros [?|[-> _]]; [done|].
    destruct (decide (gone_at L o t)) as [|Hn]; [done|]. assert (Hal : allocated (nd g t) = true) by (by apply (st_alloc _ _ _ _ _ Hst)). congruence.
Qed.

Lemma nvs_more r p L : 0 < cnt p L → nvs (p :: L) r = nvs L r.
Proof.
  intros Hp. unfold nvs. f_equal. f_equal. apply filter_ext_in. intros v Hv. destruct (decide (v = p)) as [->|]; [|by rewrite finished_ne].
  unfold finished. rewrite cnt_cons_eq. intuition lia.
Qed.

Lemma views_of_view p r t : t_view_src (ts p) = Some r → t ≠ r → p ∉ views_of nodes t.
Proof. intros Hv Hne [[_ Hs] _]%elem_of_views. congruence. Qed.
Lemma views_of_nonview p t : t_view_src (ts p) = None → p ∉ views_of nodes t.
Proof. intros Hv [[_ Hs] _]%elem_of_views. congruence. Qed.

Lemma nvs_view (Hgo : graph_ok) L v : t_view_src (ts v) ≠ None → nvs L v = 0%Z.
Proof. intros Hv. unfold nvs. by rewrite (view_no_views Hgo v Hv). Qed.

(** one use of [p] is over *)
Lemma update_parent_st (Hgo : graph_ok) (Hnd : NoDup nodes) born o p L g : main_st born o (p :: L) g → p ∈ U → 0 < cnt p (uses nodes) →
  (managed p → p ∈ born) → (∀ r, t_view_src (ts p) = Some r → managed r → r ∈ born) → few (nd g) →
  resP plan_fails (update_parent ts alloc_size g p) (λ g', main_st born o L g' ∧ grows (tallocs g) (tallocs g') ∧
    length (held (nd g')) ≤ length (held (nd g))).
Proof.
  intros Hst Hp Hu Hpb Hrb Hfew. unfold update_parent, main_st in *.
  eapply resP_bind; [apply resP_okP, hash_get_ok; [done|apply Hst|done]|]. intros [g1 i] [S1 Hi].
  pose proof (st_same _ _ _ _ _ _ Hst S1) as Hst1.
  eapply resP_bind; [apply resP_okP, (hn_set_ok g1 p); [apply S1|done]|]. intros g2 N.
  pose proof (st_count _ _ _ _ _ _ _ _ Hst1 N ltac:(done)) as Hst2. cbn [n_children n_views add_children] in Hst2.
  rewrite (hn_get_ok g2 p i (ns_wf _ _ _ _ N)), bind_Ok by (by rewrite (ns_index _ _ _ _ N)).
  assert (Hst3 : st born (gone_at (p :: L) o) (λ t, Z.of_nat (cnt t L)) (nvs (p :: L)) g2).
  { eapply st_ext; [exact Hst2|done| |].
    - intros t. cbv beta. case_decide as He; [subst t|by rewrite cnt_cons_ne]. rewrite (st_nc _ _ _ _ _ Hst1), cnt_cons_eq. lia.
    - intros t Ht. cbv beta. case_decide as He; [subst t|done]. by apply (st_nv _ _ _ _ _ Hst1). }
  assert (Hh : ∀ t, allocated (nd g2 t) = allocated (nd g t)).
  { intros t. rewrite (ns_nd _ _ _ _ N). case_decide as He; [subst t; cbn|]; by rewrite (sn_nd _ _ S1). }
  assert (Hle : length (held (nd g2)) ≤ length (held (nd g))) by (apply held_le; intros t; by rewrite Hh).
  assert (Hta : tallocs g2 = tallocs g) by (rewrite (ns_tallocs _ _ _ _ N); apply S1). rewrite <- Hta.
  clear Hst Hst1 Hst2 S1 N Hh Hta Hi g1 i.
  assert (Hskip : ∀ g', (∀ t, managed t → t ∈ born → gone_at (p :: L) o t ↔ gone_at L o t) →
    (∀ t, managed t ∨ t_view_src (ts t) ≠ None → nvs (p :: L) t = nvs L t) → g' = g2 →
    st born (gone_at L o) (λ t, Z.of_nat (cnt t L)) (nvs L) g' ∧ grows (tallocs g2) (tallocs g') ∧ length (held (nd g')) ≤ length (held (nd g))).
  { intros g' H1 H2 ->. split; [by eapply st_ext|split; [apply tallocs_refl|done]]. }
  pose proof (st_nc _ _ _ _ _ Hst3 p) as Hnc. cbn in Hnc.
  assert (Hrel : ∀ t, t ≠ p → p ∉ views_of nodes t → gone_at (p :: L) o t ↔ gone_at L o t).
  { intros t H1 H2. unfold gone_at. rewrite <- (released_step p L t) by (by left). done. }
  destruct (decide (n_children (nd g2 p) = 0 ∧ n_views (nd g2 p) = 0)%Z) as [[Hc Hv]|Hno].
  2: { cbn. apply Hskip; [| |done].
    - intros t Hm Hb. destruct (decide (0 < cnt p L)) as [Hpos'|Hz].
      { unfold gone_at. by rewrite <- (released_step p L t) by (by right). }
      destruct (t_view_src (ts p)) as [r|] eqn:Hview.
      { destruct Hno. rewrite Hnc, (st_nv _ _ _ _ _ Hst3) by (right; congruence). rewrite (nvs_view Hgo) by congruence. lia. }
      destruct (decide (t = p)) as [->|Hne]; [|apply Hrel; [done|by apply views_of_nonview]].
      assert (Hnz : nvs (p :: L) p ≠ 0%Z) by (rewrite <- (st_nv _ _ _ _ _ Hst3) by (by left); lia).
      rewrite nvs_zero in Hnz. unfold gone_at, released. rewrite <- (views_of_ne p p L) by (by apply views_of_nonview). tauto.
    - intros t Ht. destruct (decide (0 < cnt p L)) as [Hpos'|Hz]; [by apply nvs_more|].
      destruct (t_view_src (ts p)) as [r|] eqn:Hview; [|apply nvs_ne; by apply views_of_nonview].
      destruct Hno. rewrite Hnc, (st_nv _ _ _ _ _ Hst3) by (right; congruence). rewrite (nvs_view Hgo) by congruence. lia. }
  assert (Hz : cnt p L = 0) by lia. destruct (t_view_src (ts p)) as [r|] eqn:Hview.
  - (* the last use of a view *)
    destruct (go_view Hgo p r Hp Hview) as [Hr Hrv].
    eapply resP_bind; [apply resP_okP, hash_get_ok; [done|apply Hst3|done]|]. intros [g4 j] [S4 Hj].
    pose proof (st_same _ _ _ _ _ _ Hst3 S4) as Hst4.
    eapply resP_bind; [apply resP_okP, (hn_set_ok g4 r); [apply S4|done]|]. intros g5 N.
    pose proof (st_count _ _ _ _ _ _ _ _ Hst4 N ltac:(done)) as Hst5. cbn [n_children n_views add_views] in Hst5.
    rewrite (hn_get_ok g5 r j (ns_wf _ _ _ _ N)), bind_Ok by (by rewrite (ns_index _ _ _ _ N)).
    assert (Hne : ∀ t, managed t → t ≠ p) by (intros t (_ & _ & ?) ->; congruence).
    assert (Hst6 : st born (gone_at (p :: L) o) (λ t, Z.of_nat (cnt t L)) (nvs L) g5).
    { eapply st_ext; [exact Hst5|done| |].
      - intros t. cbv beta. case_decide as He; [subst t|done]. apply (st_nc _ _ _ _ _ Hst4).
      - intros t Ht. cbv beta. case_decide as He; [subst t|by rewrite nvs_ne by (by eapply views_of_view)].
        destruct Ht as [Hm|Hn]; [|congruence]. rewrite (st_nv _ _ _ _ _ Hst4) by (by left).
        destruct (go_view_used Hgo p r) as [Hpn Hop]; [by apply cnt_pos|done|done|]. rewrite (nvs_last r p L); [lia|done| |done|done].
        by apply elem_of_views. }
    assert (Hh : ∀ t, allocated (nd g5 t) = allocated (nd g2 t)).
    { intros t. rewrite (ns_nd _ _ _ _ N). case_decide as He; [subst t; cbn|]; by rewrite (sn_nd _ _ S4). }
    assert (Hle5 : length (held (nd g5)) ≤ length (held (nd g))).
    { etransitivity; [|exact Hle]. apply held_le. intros t. by rewrite Hh. }
    assert (Hta : tallocs g5 = tallocs g2) by (rewrite (ns_tallocs _ _ _ _ N); apply S4). rewrite <- Hta.
    clear Hst4 Hst5 S4 N Hh Hta Hskip.
    assert (Hrelr : managed r → released L r ↔ has_flag (ts r) FLAG_OUTPUT = false ∧ cnt r L = 0 ∧ nvs L r = 0%Z).
    { intros Hm. unfold released. rewrite nvs_zero. destruct (go_view_used Hgo p r) as [Hpn Hop]; [by apply cnt_pos|done|done|].
      split; [tauto|]. intros (?&?&?). split_and!; [done|done|done|]. right.
      assert (Hin : p ∈ views_of nodes r) by (by apply elem_of_views). intros Hnil. rewrite Hnil in Hin. by apply not_elem_of_nil in Hin. }
    assert (Hunrel : managed r → ¬ released (p :: L) r).
    { intros Hm (_ & _ & Hf & _). destruct (go_view_used Hgo p r) as [Hpn Hop]; [by apply cnt_pos|done|done|].
      rewrite Forall_forall in Hf. apply (unfinished_head p L), Hf. by apply elem_of_views. }
    assert (Hstay : ∀ g', st born (gone_at (p :: L) o) (λ t, Z.of_nat (cnt t L)) (nvs L) g' → (managed r → ¬ released L r) →
      st born (gone_at L o) (λ t, Z.of_nat (cnt t L)) (nvs L) g').
    { intros g' H Hnr. eapply st_ext; [exact H| |done|done]. intros t Hm _. destruct (decide (t = r)) as [->|Hnr'].
      - unfold gone_at. specialize (Hnr Hm). specialize (Hunrel Hm). tauto.
      - apply Hrel; [by apply Hne|by eapply views_of_view]. }
    destruct (decide (n_views (nd g5 r) = 0 ∧ n_children (nd g5 r) = 0)%Z) as [[Hv0 Hc0]|Hno].
    2: { cbn. split; [|split; [apply tallocs_refl|done]]. apply Hstay; [done|]. intros Hm (_ & H1 & H2)%Hrelr; [|done]. apply Hno.
      rewrite (st_nc _ _ _ _ _ Hst6), (st_nv _ _ _ _ _ Hst6) by (by left). lia. }
    rewrite (st_nc _ _ _ _ _ Hst6) in Hc0.
    eapply resP_mono; [apply (give_up_ok born o (p :: L)); [done|done|by apply Hrb|]|done|].
    + intros Hs. specialize (Hfew Hs). lia.
    + intros g' (H1 & H2 & H3). split; [|split; [done|lia]]. eapply st_ext; [exact H1| |done|done]. intros t Hm Hb.
      destruct (decide (t = r)) as [->|Hnr].
      * rewrite (st_nv _ _ _ _ _ Hst6) in Hv0 by (by left). unfold gone_at. rewrite (Hrelr Hm). specialize (Hunrel Hm).
        split; [|intros [(?&_)|?]; [by right|by left; right]]. intros [[?|?]|[_ ?]]; [done|by right|]. left. split_and!; [done|lia|done].
      * rewrite <- Hrel by (by apply Hne || by eapply views_of_view). tauto.
  - (* the last use of a tensor *)
    pose proof (λ t, views_of_nonview p t Hview) as Hnv. 
    eapply resP_mono; [apply (give_up_ok born o (p :: L)); [|done|done|]|done|].
    + eapply st_ext; [exact Hst3|done|done|]. intros t _. by apply nvs_ne.
    + intros Hs. specialize (Hfew Hs). lia.
    + intros g' (H1 & H2 & H3). split; [|split; [done|lia]]. eapply st_ext; [exact H1| |done|done]. intros t Hm Hb.
      destruct (decide (t = p)) as [->|Hnp]; [|rewrite <- Hrel by done; tauto].
      rewrite (st_nv _ _ _ _ _ Hst3), nvs_ne, nvs_zero in Hv by (by left || done).
      assert (Hn : ¬ released (p :: L) p) by (intros (_ & H & _); rewrite cnt_cons_eq in H; lia).
      unfold gone_at, released in *. split; [|intros [(?&_)|?]; [by right|by left; right]]. intros [[?|?]|[_ ?]]; [done|by right|].
      left. split_and!; [done|done|done|by left].
Qed.

Lemma update_parents_st (Hgo : graph_ok) (Hnd : NoDup nodes) born o L0 L g : main_st born o (L0 ++ L) g →
  (∀ p, p ∈ L0 → p ∈ U ∧ p ∈ uses nodes ∧ (managed p → p ∈ born) ∧ ∀ r, t_view_src (ts p) = Some r → managed r → r ∈ born) → few (nd g) →
  resP plan_fails (foldM (update_parent ts alloc_size) g L0) (λ g', main_st born o L g' ∧ grows (tallocs g) (tallocs g') ∧
    length (held (nd g')) ≤ length (held (nd g))).
Proof.
  intros Hst Hps Hfew. revert g Hst Hfew. induction L0 as [|p L0 IH]; intros g Hst Hfew; cbn [foldM].
  - cbn. split; [done|]. split; [apply tallocs_refl|done].
  - destruct (Hps p) as (H1 & H2 & H3 & H4); [left|].
    eapply resP_bind; [apply (update_parent_st Hgo Hnd born o p (L0 ++ L) g); [done|done|by apply cnt_pos|done|done|done]|].
    intros g1 (Hst1 & Hgr & Hle). eapply resP_mono; [apply IH; [|done|]|done|].
    + intros q Hq. apply Hps. by right.
    + intros Hs. specialize (Hfew Hs). lia.
    + intros g2 (Hst2 & Hgr2 & Hle2). split; [done|]. split; [by eapply tallocs_trans|lia].
Qed.

(** ** Computing the nodes one by one *)

(** enough room: few tensors have a place at a time, and there are no more bytes than a size can count *)
Definition roomy : Prop :=
  (∀ pre post, nodes = pre ++ post → length (filter (resident pre (uses post)) U) ≤ 253) ∧ (∀ t, t ∈ U → (0 ≤ sz t)%Z) ∧ (total U ≤ SIZE_MAX / 2)%Z.

(** the numbers of the buffers that were passed *)
Definition ids_ok (ids : option (list Z)) (n : nat) : Prop :=
  match ids with Some l => n ≤ length l ∧ Forall good_id l | None => good_id 0 end.

Lemma get_id_ok ids n i : ids_ok ids n → i < n → okP (get_node_buffer_id ids i) good_id.
Proof.
  unfold ids_ok, get_node_buffer_id. destruct ids as [l|]; [|done]. intros [Hl Hg] Hi.
  destruct (lookup_lt_is_Some_2 l i ltac:(lia)) as [x Hx]. rewrite (vget_ok _ _ _ Hx). cbn. by eapply Forall_lookup_1.
Qed.

Lemma total_perm l l' : l ≡ₚ l' → total l = total l'.
Proof. induction 1; cbn; lia. Qed.

Lemma total_sub l l' : NoDup l → (∀ t, t ∈ l → t ∈ l') → (∀ t, t ∈ l' → (0 ≤ sz t)%Z) → (total l ≤ total l')%Z.
Proof.
  intros Hnd Hsub Hsz0. destruct (submseteq_Permutation _ _ (NoDup_submseteq l l' Hnd Hsub)) as [k Hk]. rewrite (total_perm _ _ Hk).
  assert (H0 : ∀ t, t ∈ k → (0 ≤ sz t)%Z) by (intros t Ht; apply Hsz0; rewrite Hk; apply elem_of_app; by right).
  clear - H0. assert (Hk0 : (0 ≤ total k)%Z).
  { induction k as [|x k IH]; cbn; [done|]. pose proof (H0 x ltac:(left)). assert (0 ≤ total k)%Z by (apply IH; intros; apply H0; by right). lia. }
  induction l as [|x l IH]; cbn; lia.
Qed.

Lemma filter_le (P Q : Z → Prop) `{∀ x, Decision (P x), ∀ x, Decision (Q x)} (l : list Z) : (∀ x, x ∈ l → P x → Q x) → length (filter P l) ≤ length (filter Q l).
Proof.
  induction l as [|x l IH]; intros HPQ; [done|]. rewrite !filter_cons. specialize (IH ltac:(intros; apply HPQ; [by right|done])).
  pose proof (HPQ x ltac:(left)). destruct (decide (P x)), (decide (Q x)); cbn; (tauto || lia).
Qed.

(** [born] is what has been placed when [pre] were computed *)
Definition born_at (born pre : list Z) : Prop := ∀ t, t ∈ born ↔ t ∈ U ∧ (early t ∨ t ∈ pre).

Lemma held_resident born pre L nc nv g : st born (gone_at L None) nc nv g → (∀ t, t ∈ born → early t ∨ t ∈ pre) →
  length (held (nd g)) ≤ length (filter (resident pre L) U).
Proof.
  intros Hst Hb. unfold held. apply filter_le. intros t Ht Ha. apply (st_alloc _ _ _ _ _ Hst) in Ha as (Hm & Htb & Hg).
  unfold resident. split; [done|]. split; [by apply Hb|]. intros Hr. apply Hg. by left.
Qed.

Lemma held_took born L o nc nv g x : st (x :: born) (λ t, gone_at L None t ∨ o = Some t) nc nv g → ∀ pre, (∀ t, t ∈ born → early t ∨ t ∈ pre) →
  length (held (nd g)) ≤ S (length (filter (resident pre L) U)).
Proof.
  intros Hst pre Hb. unfold held. transitivity (length (filter (λ t, t = x ∨ resident pre L t) U)).
  - apply filter_le. intros t Ht Ha. apply (st_alloc _ _ _ _ _ Hst) in Ha as (Hm & Htb & Hg). apply elem_of_cons in Htb as [->|Htb]; [by left|right].
    unfold resident. split; [done|]. split; [by apply Hb|]. intros Hr. apply Hg. left. by left.
  - generalize (resident_dec pre L). generalize (resident pre L). intros P HP. revert HU. generalize U. intros l Hl.
    induction Hl as [|y l Hy Hl IH]; [cbn; lia|]. rewrite !filter_cons. destruct (decide (y = x)) as [->|Hne].
    + rewrite decide_True by (by left). cbn. rewrite (filter_ext_in (λ t, t = x ∨ P t) P).
      * case_decide; cbn; lia.
      * intros t Ht. split; [|by right]. by intros [->|?].
    + destruct (decide (P y)) as [HPy|HPy]; [rewrite decide_True by (by right)|rewrite decide_False by tauto]; cbn; lia.
Qed.

(** a source has its place already *)
Lemma place_sources (Hgo : graph_ok) born L id l g : (strict = true → roomy) → st born (gone_at L None) (λ t, Z.of_nat (cnt t L)) (nvs L) g → good_id id →
  (∀ p, p ∈ l → p ∈ U ∧ p ∈ born ∧ 0 < cnt p L) → (∀ p q, p ∈ l → ggml_op_can_inplace (t_op (ts p)) = true → q ∈ sources ts p → q ∈ U ∧ q ≠ p) → few (nd g) →
  resP plan_fails (foldM (λ g parent, ggml_gallocr_allocate_node ts alloc_size g parent id) g l) (λ g',
    st born (gone_at L None) (λ t, Z.of_nat (cnt t L)) (nvs L) g' ∧ grows (tallocs g) (tallocs g')).
Proof.
  intros Hroom Hst Hid Hl Hsrc Hfew. revert g Hst Hfew. induction l as [|p l IH]; intros g Hst Hfew; cbn [foldM].
  - cbn. split; [done|apply tallocs_refl].
  - destruct (Hl p) as (H1 & H2 & H3); [left|].
    eapply resP_bind; [apply (alloc_st born (gone_at L None) (λ t, Z.of_nat (cnt t L)) (nvs L) g p id Hst H1 Hid)|].
    + intros Hop q. apply Hsrc; [left|done].
    + split; [|done]. intros _ [(_ & Hc & _)|]; [lia|done].
    + done.
    + done.
    + intros Hs. by apply Hroom.
    + intros g1 (Hgr & o & Hst1 & Ht). assert (o = None) as -> by (destruct o as [q|]; [by destruct Ht|done]).
      unfold add_born in Hst1. rewrite decide_True in Hst1 by done.
      assert (Hst2 : st born (gone_at L None) (λ t, Z.of_nat (cnt t L)) (nvs L) g1).
      { eapply st_ext; [exact Hst1| |done|done]. intros t _ _. naive_solver. }
      eapply resP_mono; [apply IH; [| |done|]|done|].
      * intros q Hq. apply Hl. by right.
      * intros q r Hq. apply Hsrc. by right.
      * intros Hs. specialize (Hfew Hs). eapply Nat.le_lt_trans; [|exact Hfew]. apply held_le. intros t Ha.
        apply (st_alloc _ _ _ _ _ Hst2) in Ha. by apply (st_alloc _ _ _ _ _ Hst).
      * intros g2 [H4 H5]. split; [done|by eapply tallocs_trans].
Qed.

Lemma split_unique (l1 l2 k1 k2 : list Z) x : NoDup (l1 ++ x :: l2) → l1 ++ x :: l2 = k1 ++ x :: k2 → l1 = k1 ∧ l2 = k2.
Proof.
  revert k1. induction l1 as [|y l1 IH]; intros [|z k1] Hnd He; cbn in *.
  - by injection He.
  - injection He as -> ->. apply NoDup_cons in Hnd as [Hn _]. destruct Hn. set_solver.
  - injection He as -> <-. apply NoDup_cons in Hnd as [Hn _]. destruct Hn. set_solver.
  - injection He as -> He. apply NoDup_cons in Hnd as [_ Hnd]. by destruct (IH k1 Hnd He) as [-> ->].
Qed.

Lemma nodes_U (Hgo : graph_ok) x : x ∈ nodes → x ∈ U.
Proof. intros Hx. rewrite (go_U Hgo). apply elem_of_app. by right. Qed.

Lemma nodes_nodup (Hgo : graph_ok) : NoDup nodes ∧ ∀ x, x ∈ nodes → x ∉ leafs.
Proof. pose proof HU as H. rewrite (go_U Hgo) in H. apply NoDup_app in H as (_ & Hd & H). split; [done|]. intros x Hx Hl. by apply (Hd x). Qed.

Lemma source_of (Hgo : graph_ok) pre x post p : nodes = pre ++ x :: post → p ∈ sources ts x → p ∈ U ∧ p ≠ x ∧ (early p ∨ p ∈ pre) ∧ p ∈ uses nodes.
Proof.
  intros Hn Hp. destruct (nodes_nodup Hgo) as [Hnd Hnl]. assert (Hx : x ∈ nodes) by (rewrite Hn; set_solver).
  assert (Huse : p ∈ uses nodes) by (apply elem_of_uses; by exists x). destruct (go_srcs Hgo _ _ _ _ Hn Hp) as [Hl|Hl].
  - split_and!; [rewrite (go_U Hgo); set_solver| |by left; left|done]. intros ->. by apply (Hnl x).
  - split_and!; [apply nodes_U; [done|rewrite Hn; set_solver]| |by right|done]. intros ->. rewrite Hn in Hnd. apply NoDup_app in Hnd as (_ & Hd & _).
    apply (Hd x Hl). left.
Qed.

Lemma inplace_sources (Hgo : graph_ok) t p : t ∈ U → ggml_op_can_inplace (t_op (ts t)) = true → p ∈ sources ts t → p ∈ U ∧ p ≠ t.
Proof.
  intros Ht Hop Hp. rewrite (go_U Hgo) in Ht. apply elem_of_app in Ht as [Hl|Ht].
  - rewrite (go_early Hgo t) in Hop by (by left). done.
  - apply list_elem_of_split in Ht as (pre & post & Hn). by destruct (source_of Hgo pre t post p Hn Hp) as (? & ? & _).
Qed.

(** what was placed before a node is not kept by it *)
Lemma keeps_not (Hgo : graph_ok) pre x post t : nodes = pre ++ x :: post → ¬ early x → early t ∨ t ∈ pre → ¬ keeps x t.
Proof.
  intros Hn Hx Ht [[He _]|(Hte & p' & q' & Hn' & [He|Hp'] & _)]; [done|done|].
  destruct Ht as [?|Ht]; [done|]. destruct (nodes_nodup Hgo) as [Hnd _].
  apply list_elem_of_split in Ht as (a & b & ->). rewrite Hn in Hnd.
  assert (He : a ++ t :: b ++ x :: post = p' ++ t :: q') by (by rewrite <- Hn', Hn, <- app_assoc). rewrite <- app_assoc in Hnd. cbn in Hnd.
  destruct (split_unique _ _ _ _ _ Hnd He) as [<- _]. apply NoDup_app in Hnd as (_ & Hd & _). apply (Hd x); [done|set_solver].
Qed.

Lemma keeps_before (Hgo : graph_ok) pre x post t : nodes = pre ++ x :: post → ¬ early x → keeps t x → ¬ released (uses (x :: post)) t.
Proof.
  intros Hn Hx [[_ He]|(_ & p' & q' & Hn' & _ & Hr)]; [done|]. destruct (nodes_nodup Hgo) as [Hnd _]. rewrite Hn in Hn', Hnd.
  by destruct (split_unique pre post p' q' x Hnd Hn') as [-> ->].
Qed.

(** the only use that is left is the one of the node, and nothing views it: it can be overwritten *)
Lemma last_use x post p : p ∈ sources ts x → p ∈ uses nodes → Z.of_nat (cnt p (uses (x :: post))) = 1%Z → nvs (uses (x :: post)) p = 0%Z →
  has_flag (ts p) FLAG_OUTPUT = false → released (uses post) p.
Proof.
  intros Hp Hu Hc Hv Hout. change (uses (x :: post)) with (sources ts x ++ uses post) in *. rewrite cnt_app in Hc.
  pose proof (proj2 (cnt_pos p (sources ts x)) Hp). apply nvs_zero in Hv. split_and!; [done|lia| |left; by apply cnt_pos].
  eapply Forall_impl; [exact Hv|]. intros v. apply finished_mono. rewrite cnt_app. lia.
Qed.

Lemma node_placeable (Hgo : graph_ok) born pre x post : nodes = pre ++ x :: post → born_at born pre →
  placeable born (gone_at (uses (x :: post)) None) (λ t, Z.of_nat (cnt t (uses (x :: post)))) (nvs (uses (x :: post))) x.
Proof.
  intros Hn Hb. destruct (nodes_nodup Hgo) as [Hnd Hnl]. assert (Hx : x ∈ nodes) by (rewrite Hn; set_solver). split.
  - intros _ [Hr|]; [|done]. by eapply (not_released_before Hgo pre x post); [| |apply Hnl|].
  - intros Hm Hxb. assert (Hne : ¬ early x) by (intros He; apply Hxb, Hb; split; [by apply nodes_U|by left]). split.
    + intros t Htb Htm Hk [Hr|]; [|done]. apply Hb in Htb as [_ Htb]. destruct Hk as [Hk|Hk].
      * by eapply keeps_before.
      * by eapply (keeps_not Hgo pre x post t).
    + intros p Hp Hpb _ Hc Hv Hout Hpm. apply Hb in Hpb as [_ Hpb]. split; [|by eapply keeps_not].
      exists pre, post. split; [done|]. eapply last_use; [done| |done|done|done]. by eapply (source_of Hgo pre x post).
Qed.

Lemma alloc_step_st (Hgo : graph_ok) born pre x post ids g : nodes = pre ++ x :: post → born_at born pre → main_st born None (uses (x :: post)) g →
  ids_ok ids (length nodes) → (strict = true → roomy) →
  resP plan_fails (alloc_step_node ts alloc_size ids g (length pre, x)) (λ g', main_st (add_born x born) None (uses post) g' ∧ grows (tallocs g) (tallocs g')).
Proof.
  intros Hn Hb Hst Hids Hroom. destruct (nodes_nodup Hgo) as [Hnd Hnl]. assert (Hx : x ∈ nodes) by (rewrite Hn; set_solver).
  pose proof (nodes_U Hgo x Hx) as HxU. unfold alloc_step_node. cbn [fst snd].
  eapply resP_bind; [apply resP_okP, (get_id_ok ids (length nodes)); [done|rewrite Hn, length_app; cbn; lia]|]. intros id Hid.
  assert (Hheld : ∀ g, main_st born None (uses (x :: post)) g → strict = true → length (held (nd g)) ≤ 253).
  { intros h Hh Hs. destruct (Hroom Hs) as (Hfew & _). rewrite <- (Hfew pre (x :: post) Hn). eapply held_resident; [exact Hh|].
    intros t Ht. by apply Hb in Ht as [_ ?]. }
  assert (Hsb : ∀ p, p ∈ sources ts x → p ∈ U ∧ p ∈ born ∧ p ∈ uses nodes).
  { intros p Hp. destruct (source_of Hgo _ _ _ _ Hn Hp) as (H1 & H2 & H3 & H4). split_and!; [done|by apply Hb|done]. }
  eapply resP_bind; [apply (place_sources Hgo born (uses (x :: post)) id (sources ts x) g Hroom Hst Hid)|].
  { intros p Hp. destruct (Hsb p Hp) as (H1 & H2 & H3). split_and!; [done|done|]. apply cnt_pos. cbn. apply elem_of_app. by left. }
  { intros p q Hp. apply inplace_sources; [done|by apply Hsb]. }
  { intros Hs. pose proof (Hheld g Hst Hs). lia. }
  intros g1 [Hst1 Hgr1]. eapply resP_bind.
  { apply (alloc_st born _ _ _ g1 x id Hst1 HxU Hid); [by intros Hop p; apply inplace_sources|by eapply node_placeable| | |].
    - intros Hs. pose proof (Hheld g1 Hst1 Hs). lia.
    - intros Hs Hxb. destruct (Hroom Hs) as (_ & Hsz0 & Htot). etransitivity; [|exact Htot]. destruct (st_born _ _ _ _ _ Hst1) as [Hbn HbU].
      apply total_sub; [by constructor| |done]. intros t [->|Ht]%elem_of_cons; [done|by apply HbU].
    - intros Hs. by apply Hroom. }
  intros g2 (Hgr2 & o & Hst2 & Htook).
  assert (Hrel : ∀ p, o = Some p → released (uses post) p).
  { intros p ->. destruct Htook as (_ & H1 & H2 & H3 & H4 & H5 & H6 & H7 & _). eapply last_use; [done|by apply Hsb|done|done|done]. }
  assert (Hst2' : main_st (add_born x born) o (sources ts x ++ uses post) g2).
  { eapply st_ext; [exact Hst2| |done|done]. intros t _ _. unfold gone_at. cbn. naive_solver. }
  eapply resP_mono; [apply (update_parents_st Hgo Hnd (add_born x born) o (sources ts x) (uses post) g2 Hst2')|done|].
  - assert (Hmore : ∀ t, t ∈ born → t ∈ add_born x born) by (intros t Ht; unfold add_born; case_decide; set_solver).
    intros p Hp. destruct (Hsb p Hp) as (H1 & H2 & H3). split_and!; [done|done|auto|]. intros r Hv Hm. apply Hmore, Hb.
    destruct (go_view Hgo p r H1 Hv) as [HrU _]. split; [done|]. destruct (go_view_used Hgo p r H3 Hv Hm) as [Hpn _].
    assert (Hpp : p ∈ pre).
    { destruct (go_srcs Hgo _ _ _ _ Hn Hp) as [Hl|?]; [by destruct (Hnl p Hpn)|done]. }
    apply list_elem_of_split in Hpp as (a & b & ->). destruct (go_view_order Hgo a p (b ++ x :: post) r) as [?|?]; [by rewrite Hn, <- app_assoc|done|by left; left|right; set_solver].
  - intros Hs. destruct (Hroom Hs) as (Hfew & _). specialize (Hfew pre (x :: post) Hn).
    assert (length (held (nd g2)) ≤ 254); [|lia]. unfold add_born in Hst2. case_decide as Hxb.
    + assert (o = None) as -> by (destruct o as [q|]; [by destruct Htook|done]).
      enough (length (held (nd g2)) ≤ length (filter (resident pre (uses (x :: post))) U)) by lia.
      eapply held_resident; [eapply st_ext; [exact Hst2| |done|done]|].
      * intros t _ _. unfold gone_at. naive_solver.
      * intros t Ht. by apply Hb in Ht as [_ ?].
    + enough (length (held (nd g2)) ≤ S (length (filter (resident pre (uses (x :: post))) U))) by lia.
      eapply held_took; [exact Hst2|]. intros t Ht. by apply Hb in Ht as [_ ?].
  - intros g3 (Hst3 & Hgr3 & _). split; [|by eapply tallocs_trans; [eapply tallocs_trans|]].
    eapply st_ext; [exact Hst3| |done|done]. intros t _ _. unfold gone_at. split; [|naive_solver]. intros [?|Ho]; [by left|left; by apply Hrel].
Qed.

Lemma born_add (Hgo : graph_ok) born pre x : x ∈ nodes → born_at born pre → born_at (add_born x born) (pre ++ [x]).
Proof.
  intros Hx Hb t. pose proof (nodes_U Hgo x Hx). unfold add_born. case_decide as Hxb.
  - rewrite (Hb t), elem_of_app, list_elem_of_singleton. split; [naive_solver|]. intros (H1 & [H2|[H2| ->]]); [by auto|by auto|by apply Hb in Hxb as [_ ?]].
  - rewrite elem_of_cons, (Hb t), elem_of_app, list_elem_of_singleton. naive_solver.
Qed.

(** ** Before the first node is computed *)

(** leafs and inputs are placed, nothing is given back *)
Definition early_st (born : list Z) (nc nv : Z → Z) g : Prop := st born (λ _, False) nc nv g ∧ ∀ t, t ∈ born → early t.

Lemma early_held born nc nv g : strict = true → roomy → early_st born nc nv g → length (held (nd g)) < 255.
Proof.
  intros _ (Hfew & _) [Hst Hb]. specialize (Hfew [] nodes eq_refl).
  enough (length (held (nd g)) ≤ length (filter (resident [] (uses nodes)) U)) by lia.
  apply (held_resident born [] (uses nodes) nc nv g); [|intros t Ht; left; by apply Hb].
  eapply st_ext; [exact Hst| |done|done]. intros t _ _. split; [done|]. intros [Hr|]; [by apply not_released_start in Hr|done].
Qed.

Lemma early_alloc (Hgo : graph_ok) born nc nv g t id : (strict = true → roomy) → early_st born nc nv g → t ∈ U → early t → good_id id →
  resP plan_fails (ggml_gallocr_allocate_node ts alloc_size g t id) (λ g', grows (tallocs g) (tallocs g') ∧ early_st (add_born t born) nc nv g').
Proof.
  intros Hroom He Ht Het Hid. pose proof He as [Hst Hb].
  eapply resP_mono; [apply (alloc_st born _ nc nv g t id Hst Ht Hid)|done|].
  - intros Hop p. by apply inplace_sources.
  - split; [tauto|]. intros _ _. split; [tauto|]. intros p _ _ Hop. by rewrite (go_early Hgo t Het) in Hop.
  - intros Hs. eapply early_held; [done|by apply Hroom|done].
  - intros Hs Htb. destruct (Hroom Hs) as (_ & Hsz0 & Htot). etransitivity; [|exact Htot]. destruct (st_born _ _ _ _ _ Hst) as [Hbn HbU].
    apply total_sub; [by constructor| |done]. intros x [->|Hx]%elem_of_cons; [done|by apply HbU].
  - intros Hs. by apply Hroom.
  - intros g' (Hgr & o & Hst' & Htook). split; [done|].
    assert (o = None) as ->.
    { destruct o as [p|]; [|done]. destruct Htook as (_ & _ & _ & _ & _ & _ & _ & _ & Hop). by rewrite (go_early Hgo t Het) in Hop. }
    split; [eapply st_ext; [exact Hst'| |done|done]; naive_solver|]. intros x Hx. unfold add_born in Hx. case_decide; [by apply Hb|].
    apply elem_of_cons in Hx as [->|Hx]; [done|by apply Hb].
Qed.

Lemma elem_add_born x t born : x ∈ add_born t born ↔ x = t ∨ x ∈ born.
Proof. unfold add_born. case_decide; rewrite ?elem_of_cons; naive_solver. Qed.

(** ** The leafs *)

Lemma enum_app l1 l2 : enum (l1 ++ l2) = enum l1 ++ zip (seq (length l1) (length l2)) l2.
Proof. unfold enum. rewrite length_app, seq_app, zip_with_app by (by rewrite length_seq). done. Qed.

Lemma length_enum l : length (enum l) = length l.
Proof. unfold enum. rewrite length_zip_with, length_seq. lia. Qed.

Lemma enum_split l pre i x post : enum l = pre ++ (i, x) :: post → ∃ l1 l2, l = l1 ++ x :: l2 ∧ i = length l1 ∧ pre = enum l1 ∧ i < length l.
Proof.
  intros H. assert (Hp : length pre < length l) by (rewrite <- length_enum, H, length_app; cbn; lia).
  assert (Hi : enum l !! length pre = Some (i, x)) by (rewrite H; by apply list_lookup_middle).
  unfold enum in Hi. apply lookup_zip_with_Some in Hi as (j & y & [= <- <-] & H1 & H2). apply lookup_seq in H1 as [-> _].
  assert (Hl1 : length (take (length pre) l) = length pre) by (rewrite length_take; lia).
  exists (take (length pre) l), (drop (S (length pre)) l). rewrite Hl1. split_and!; [by rewrite take_drop_middle|lia| |lia].
  rewrite <- (take_drop (length pre) l), enum_app in H. symmetry. by apply (app_inj_1 _ _ _ _ ltac:(by rewrite length_enum) H).
Qed.

Lemma leafs_st (Hgo : graph_ok) ids g : (strict = true → roomy) → ids_ok ids (length leafs) → early_st [] (λ _, 0%Z) (λ _, 0%Z) g →
  resP plan_fails (foldM (alloc_leaf ts alloc_size ids) g (enum leafs)) (λ g',
    ∃ born, early_st born (λ _, 0%Z) (λ _, 0%Z) g' ∧ ∀ t, t ∈ leafs → t ∈ born).
Proof.
  intros Hroom Hids Hst.
  eapply resP_mono; [apply (resP_foldM plan_fails _ (λ pre g', ∃ born, early_st born (λ _, 0%Z) (λ _, 0%Z) g' ∧ ∀ it, it ∈ pre → it.2 ∈ born))|done|].
  - exists []. split; [done|]. intros it Hit. by apply not_elem_of_nil in Hit.
  - intros pre [i x] post g1 Hsplit (born & He & Hb). destruct (enum_split _ _ _ _ _ Hsplit) as (l1 & l2 & Hl & -> & -> & Hlt).
    unfold alloc_leaf. cbn [fst snd]. eapply resP_bind; [by apply resP_okP, (get_id_ok ids (length leafs))|]. intros id Hid.
    assert (Hx : x ∈ leafs) by (rewrite Hl; set_solver).
    eapply resP_mono; [apply (early_alloc Hgo born _ _ g1 x id Hroom He)|done|].
    + rewrite (go_U Hgo). set_solver.
    + by left.
    + done.
    + intros g2 [_ He2]. exists (add_born x born). split; [done|]. intros it [Hit| ->%list_elem_of_singleton]%elem_of_app; apply elem_add_born; [right; by apply Hb|by left].
  - intros g' (born & He & Hb). exists born. split; [done|]. intros t Ht. apply list_elem_of_lookup in Ht as [i Hi].
    apply (Hb (i, t)). unfold enum. apply list_elem_of_lookup. exists i. apply lookup_zip_with_Some. exists i, t. split; [done|]. split; [|done].
    apply lookup_seq. split; [done|]. by eapply lookup_lt_Some.
Qed.

(** ** Counting children and views *)

Lemma early_count born nc nv g g' t f : early_st born nc nv g → node_set t f g g' →
  (allocated (f (nd g t)) = allocated (nd g t) ∧ buffer_id (f (nd g t)) = buffer_id (nd g t) ∧ hn_addr (f (nd g t)) = hn_addr (nd g t)) →
  early_st born (λ x, if decide (x = t) then n_children (f (nd g t)) else nc x) (λ x, if decide (x = t) then n_views (f (nd g t)) else nv x) g'.
Proof. intros [Hst Hb] N Hf. split; [|done]. by eapply st_count. Qed.

Lemma early_ext born nc nc' nv nv' g : early_st born nc nv g → (∀ t, nc t = nc' t) → (∀ t, managed t ∨ t_view_src (ts t) ≠ None → nv t = nv' t) →
  early_st born nc' nv' g.
Proof. intros [Hst Hb] H1 H2. split; [|done]. by eapply st_ext. Qed.

(** the counter of the node of [t] is changed through its pointer *)
Lemma early_counter born nc nv g t f : early_st born nc nv g → t ∈ U →
  (∀ h, allocated (f h) = allocated h ∧ buffer_id (f h) = buffer_id h ∧ hn_addr (f h) = hn_addr h) →
  okP ('(g, i) ← ggml_gallocr_hash_get g t; hn_set g i f) (λ g', ∃ h, n_children h = nc t ∧ (managed t ∨ t_view_src (ts t) ≠ None → n_views h = nv t) ∧
    early_st born (λ x, if decide (x = t) then n_children (f h) else nc x) (λ x, if decide (x = t) then n_views (f h) else nv x) g').
Proof.
  intros He Ht Hf. pose proof He as [Hst Hb]. eapply okP_bind; [apply hash_get_ok; [done|apply Hst|done]|]. intros [g1 i] [S Hi].
  eapply okP_mono; [apply (hn_set_ok g1 t); [apply S|done]|]. intros g2 N.
  assert (He1 : early_st born nc nv g1) by (split; [by eapply st_same|done]). exists (nd g1 t).
  split; [apply (st_nc _ _ _ _ _ (proj1 He1))|]. split; [apply (st_nv _ _ _ _ _ (proj1 He1))|]. eapply early_count; [done|done|apply Hf].
Qed.

(** an input is placed as soon as it is met *)
Lemma early_input (Hgo : graph_ok) born nc nv g t ids i : (strict = true → roomy) → early_st born nc nv g → t ∈ U → ids_ok ids (length nodes) → i < length nodes →
  resP plan_fails (if has_flag (ts t) FLAG_INPUT then id ← get_node_buffer_id ids i; ggml_gallocr_allocate_node ts alloc_size g t id else Ok g) (λ g',
    ∃ born', early_st born' nc nv g' ∧ (∀ x, x ∈ born → x ∈ born') ∧ (has_flag (ts t) FLAG_INPUT = true → t ∈ born')).
Proof.
  intros Hroom He Ht Hids Hi. destruct (has_flag (ts t) FLAG_INPUT) eqn:Hin; [|by exists born].
  eapply resP_bind; [by apply resP_okP, (get_id_ok ids (length nodes))|]. intros id Hid.
  eapply resP_mono; [apply (early_alloc Hgo born nc nv g t id Hroom He Ht); [by right|done]|done|].
  intros g' [_ He']. exists (add_born t born). split; [done|]. split; [intros x Hx|intros _]; apply elem_add_born; [by right|by left].
Qed.

Lemma count_src_st (Hgo : graph_ok) born L nv g t ids i : (strict = true → roomy) → early_st born (λ x, Z.of_nat (cnt x L)) nv g → t ∈ U →
  ids_ok ids (length nodes) → i < length nodes →
  resP plan_fails (count_src ts alloc_size ids i g t) (λ g', ∃ born', early_st born' (λ x, Z.of_nat (cnt x (L ++ [t]))) nv g' ∧ ∀ x, x ∈ born → x ∈ born').
Proof.
  intros Hroom He Ht Hids Hi. unfold count_src.
  pose proof (early_counter born _ nv g t (add_children 1) He Ht ltac:(done)) as Hc.
  destruct (ggml_gallocr_hash_get g t) as [[g0 j]|e]; [rewrite bind_Ok in Hc; rewrite bind_Ok|done].
  eapply resP_bind; [apply resP_okP, Hc|]. intros g1 (h & Hh & Hv & He1). clear Hc He g g0 j. cbn [n_children n_views add_children] in He1.
  assert (He2 : early_st born (λ x, Z.of_nat (cnt x (L ++ [t]))) nv g1).
  { eapply early_ext; [exact He1| |].
    - intros x. cbv beta. rewrite cnt_app, cnt_cons. replace (cnt x []) with 0 by done. destruct (decide (x = t)) as [->|Hne].
      + rewrite Hh, (decide_True (P := t = t)) by done. lia.
      + rewrite (decide_False (P := t = x)) by (by intros ->). lia.
    - intros x Hx. cbv beta. case_decide as Hxt; [subst x; by apply Hv|done]. }
  eapply resP_mono; [by eapply early_input|done|]. intros g2 (born' & H1 & H2 & _). by exists born'.
Qed.

(** the nodes [l] were counted *)
Definition counted (l : list Z) g : Prop :=
  ∃ born, early_st born (λ t, Z.of_nat (cnt t (uses l))) (λ r, Z.of_nat (length (views_of l r))) g ∧
    (∀ t, t ∈ leafs → t ∈ born) ∧ ∀ t, t ∈ l → has_flag (ts t) FLAG_INPUT = true → t ∈ born.

Lemma views_of_snoc l n r : views_of (l ++ [n]) r = views_of l r ++ (if decide (t_op (ts n) ≠ GGML_OP_NONE ∧ t_view_src (ts n) = Some r) then [n] else []).
Proof. by rewrite views_of_app. Qed.

Lemma count_view (Hgo : graph_ok) born nc g l n : early_st born nc (λ r, Z.of_nat (length (views_of l r))) g → n ∈ U →
  okP (match t_view_src (ts n) with
       | Some v => if decide (t_op (ts n) ≠ GGML_OP_NONE) then '(g, i) ← ggml_gallocr_hash_get g v; hn_set g i (add_views 1) else Ok g
       | None => Ok g end) (early_st born nc (λ r, Z.of_nat (length (views_of (l ++ [n]) r)))).
Proof.
  intros He Hn. destruct (t_view_src (ts n)) as [v|] eqn:Hv.
  2: { cbn. eapply early_ext; [exact He|done|]. intros t _. rewrite views_of_snoc, decide_False by (intros [_ ?]; congruence). by rewrite app_nil_r. }
  destruct (decide (t_op (ts n) ≠ GGML_OP_NONE)) as [Hop|Hop].
  2: { cbn. eapply early_ext; [exact He|done|]. intros t _. rewrite views_of_snoc, decide_False by (by intros [? _]). by rewrite app_nil_r. }
  destruct (go_view Hgo n v Hn Hv) as [HvU _].
  eapply okP_mono; [apply (early_counter born nc _ g v (add_views 1) He HvU); done|]. intros g1 (h & Hh & Hnv & He1). cbn [n_children n_views add_views] in He1.
  eapply early_ext; [exact He1| |].
  - intros t. cbv beta. case_decide as Ht; [by subst t|done].
  - intros t Ht. cbv beta. rewrite views_of_snoc, length_app. destruct (decide (t = v)) as [->|Hne].
    + rewrite Hnv, decide_True by done. cbn. lia.
    + rewrite decide_False by (intros [_ ?]; congruence). cbn. lia.
Qed.

Lemma count_node_st (Hgo : graph_ok) pre n post g ids : (strict = true → roomy) → nodes = pre ++ n :: post → ids_ok ids (length nodes) → counted pre g →
  resP plan_fails (count_node ts alloc_size ids g (length pre, n)) (counted (pre ++ [n])).
Proof.
  intros Hroom Hn Hids (born & He & Hleaf & Hin). unfold count_node. cbn [fst snd].
  assert (Hnn : n ∈ nodes) by (rewrite Hn; set_solver). pose proof (nodes_U Hgo n Hnn) as HnU.
  assert (Hlt : length pre < length nodes) by (rewrite Hn, length_app; cbn; lia).
  eapply resP_bind; [apply resP_okP, (count_view Hgo born _ g pre n He HnU)|]. intros g1 He1.
  eapply resP_bind; [apply (early_input Hgo born _ _ g1 n ids (length pre) Hroom He1 HnU Hids Hlt)|]. intros g2 (born2 & He2 & Hsub2 & Hn2).
  eapply resP_mono; [apply (resP_foldM plan_fails _ (λ L g', ∃ born', early_st born' (λ t, Z.of_nat (cnt t (uses pre ++ L))) (λ r, Z.of_nat (length (views_of (pre ++ [n]) r))) g' ∧
    ∀ t, t ∈ born2 → t ∈ born'))|done|].
  - exists born2. by rewrite app_nil_r.
  - intros L t L' g3 Hs (born3 & He3 & Hsub3).
    assert (Ht : t ∈ sources ts n) by (rewrite Hs; set_solver). destruct (source_of Hgo pre n post t Hn Ht) as [HtU _].
    eapply resP_mono; [by apply (count_src_st Hgo born3 _ _ g3 t ids (length pre) Hroom He3)|done|]. intros g4 (born4 & He4 & Hsub4).
    exists born4. rewrite <- (app_assoc (uses pre) L [t]) in He4. auto.
  - intros g5 (born5 & He5 & Hsub5). exists born5.
    assert (Hu : uses (pre ++ [n]) = uses pre ++ sources ts n) by (rewrite uses_app; cbn; by rewrite app_nil_r).
    rewrite Hu. split; [done|]. split; [auto|]. intros t [Ht| ->%list_elem_of_singleton]%elem_of_app Hf; auto.
Qed.

(** at the end of the count everything is ready for the first node *)
Lemma counted_start (Hgo : graph_ok) g : counted nodes g → ∃ born, born_at born [] ∧ main_st born None (uses nodes) g.
Proof.
  intros (born & [Hst Hb] & Hleaf & Hin). exists born. split.
  - intros t. split.
    + intros Ht. split; [by apply (st_born _ _ _ _ _ Hst)|left; by apply Hb].
    + intros [HtU [[Hl|Hf]|Hn]]; [by apply Hleaf| |by apply not_elem_of_nil in Hn]. rewrite (go_U Hgo) in HtU.
      apply elem_of_app in HtU as [?|?]; [by apply Hleaf|by apply Hin].
  - eapply st_ext; [exact Hst| |done|].
    + intros t _ _. split; [done|]. intros [Hr|]; [by apply not_released_start in Hr|done].
    + intros t _. unfold nvs. f_equal. f_equal. symmetry. apply filter_all. intros v Hv [H1 H2]. lia.
Qed.

(** ** The whole plan *)

(** an allocator that was reset, with room in the table for every tensor *)
Record ready g : Prop := {
  rd_table : table_ok (hash_set g);
  rd_size : length U ≤ table_size (hash_set g);
  rd_bufts : bufts g = BF;
  rd_ids : buf_tallocs g = BT;
  rd_tallocs : tallocs_ok 0 (λ _, []) (tallocs g) }.

Lemma index_none (h : T) t : table_ok h → t ∉ table_keys h → index_of h t = None.
Proof. intros Hok Ht. destruct (index_of h t) as [i|] eqn:Hi; [|done]. destruct Ht. apply index_keys; [done|]. by rewrite Hi. Qed.

Lemma ready_start g : ready g →
  early_st [] (λ _, 0%Z) (λ _, 0%Z) (set_values (set_hash g (table_reset (hash_set g))) (replicate (table_size (hash_set g)) zero_node)).
Proof.
  intros [H1 H2 H3 H4 H5]. destruct (reset_ok _ H1) as (R1 & R2 & R3). set (g0 := set_values _ _).
  assert (Hnd : ∀ t, nd g0 t = zero_node).
  { intros t. unfold nd, g0. cbn. rewrite (index_none _ t R1); [done|]. rewrite R3. set_solver. }
  assert (Hplan : plan_ok 0 (nd g0) g0).
  { split; cbn; [|done|done| |].
    - split; cbn; [done|by rewrite length_replicate|rewrite R3; set_solver|by rewrite R2|]. intros i h Hi _. by apply lookup_replicate in Hi as [-> _].
    - eapply tallocs_ok_ext; [|exact H5]. intros k. unfold live. rewrite filter_none; [done|]. intros t _ [Ha _]. by rewrite Hnd in Ha.
    - intros t Ha. by rewrite Hnd in Ha. }
  split; [|intros t Ht; by apply not_elem_of_nil in Ht]. split; [done| | | | | | |].
  - intros t. rewrite Hnd. split; [done|]. intros (_ & Ht & _). by apply not_elem_of_nil in Ht.
  - intros t. by rewrite Hnd.
  - intros t _. by rewrite Hnd.
  - intros t _. by rewrite Hnd.
  - split; [by apply NoDup_nil|]. intros t Ht. by apply not_elem_of_nil in Ht.
  - intros t Ht. by apply not_elem_of_nil in Ht.
  - intros t t' Ht. by apply not_elem_of_nil in Ht.
Qed.

Lemma alloc_graph_st (Hgo : graph_ok) g node_ids leaf_ids : (strict = true → roomy) → ready g → ids_ok node_ids (length nodes) → ids_ok leaf_ids (length leafs) →
  resP plan_fails (ggml_gallocr_alloc_graph_impl ts alloc_size g (Graph nodes leafs) node_ids leaf_ids) (λ g',
    ∃ born, (∀ t, t ∈ born ↔ t ∈ U) ∧ main_st born None [] g').
Proof.
  intros Hroom Hr Hnids Hlids. unfold ggml_gallocr_alloc_graph_impl. cbn [g_nodes g_leafs].
  eapply resP_bind; [apply (leafs_st Hgo leaf_ids _ Hroom Hlids), (ready_start g Hr)|]. intros g1 (born1 & He1 & Hl1).
  eapply resP_bind.
  { apply (resP_foldM plan_fails _ (λ pre g', ∃ l1 l2, nodes = l1 ++ l2 ∧ pre = enum l1 ∧ counted l1 g')).
    - exists [], nodes. split_and!; [done|done|]. exists born1. split; [|split; [done|]]; [|intros t Ht; by apply not_elem_of_nil in Ht].
      eapply early_ext; [exact He1|done|done].
    - intros pre [i x] post g2 Hs (l1 & l2 & Hl & Hpre & Hc). destruct (enum_split _ _ _ _ _ Hs) as (k1 & k2 & Hk & -> & Hpre' & Hlt).
      assert (l1 = k1) as ->.
      { apply (f_equal length) in Hpre' as Hlen. rewrite Hpre, !length_enum in Hlen. rewrite Hl in Hk. by apply (app_inj_1 _ _ _ _ Hlen) in Hk as [? _]. }
      eapply resP_mono; [by apply (count_node_st Hgo k1 x k2 g2 node_ids Hroom)|done|]. intros g3 Hc3. exists (k1 ++ [x]), k2.
      split_and!; [by rewrite Hk, <- app_assoc| |done]. rewrite Hpre', enum_app. done. }
  intros g2 (l1 & l2 & Hl & Hpre & Hc). assert (l1 = nodes) as ->.
  { apply (f_equal length) in Hpre. rewrite !length_enum in Hpre. rewrite Hl, length_app in Hpre. destruct l2; [by rewrite Hl, app_nil_r|cbn in Hpre; lia]. }
  destruct (counted_start Hgo g2 Hc) as (born2 & Hb2 & Hst2). clear Hl Hpre Hc He1 Hl1.
  eapply resP_mono; [apply (resP_foldM plan_fails _ (λ pre g', ∃ l1 l2 born, nodes = l1 ++ l2 ∧ pre = enum l1 ∧ born_at born l1 ∧ main_st born None (uses l2) g'))|done|].
  - by exists [], nodes, born2.
  - intros pre [i x] post g3 Hs (k1 & k2 & born & Hk & Hpre & Hb & Hst). destruct (enum_split _ _ _ _ _ Hs) as (j1 & j2 & Hj & -> & Hpre' & Hlt).
    assert (k1 = j1 ∧ k2 = x :: j2) as [-> ->].
    { apply (f_equal length) in Hpre' as Hlen. rewrite Hpre, !length_enum in Hlen. rewrite Hk in Hj. by apply (app_inj_1 _ _ _ _ Hlen) in Hj. }
    eapply resP_mono; [by apply (alloc_step_st Hgo born j1 x j2 node_ids g3)|done|]. intros g4 [Hst4 _].
    exists (j1 ++ [x]), j2, (add_born x born). split_and!; [by rewrite Hj, <- app_assoc| | |done].
    + rewrite Hpre', enum_app. done.
    + apply born_add; [done|rewrite Hj; set_solver|done].
  - intros g3 (k1 & k2 & born & Hk & Hpre & Hb & Hst). assert (k1 = nodes ∧ k2 = []) as [-> ->].
    { apply (f_equal length) in Hpre. rewrite !length_enum in Hpre. rewrite Hk, length_app in Hpre. destruct k2; [by rewrite Hk, app_nil_r|cbn in Hpre; lia]. }
    exists born. split; [|done]. intros t. rewrite (Hb t). split; [by intros [? _]|]. intros Ht. split; [done|]. rewrite (go_U Hgo) in Ht.
    apply elem_of_app in Ht as [?|?]; [left; by left|by right].
Qed.

(** ** Computing in the planned memory: for each byte of each buffer, the tensor that wrote it last *)

Definition memory : Type := nat → nat → Z → option Z.

Definition at_place g t (k c : nat) (x : Z) : Prop := talloc_of (buffer_id (nd g t)) = k ∧ region_at (region_of t (nd g t)) c x.
#[local] Instance at_place_dec g t k c x : Decision (at_place g t k c x).
Proof. unfold at_place, region_at. apply _. Defined.

(** a tensor with a place writes it when it is computed; a view computes nothing *)
Definition write g (m : memory) t : memory := λ k c x, if decide (managed t ∧ at_place g t k c x) then Some t else m k c x.
Definition run g (m : memory) (l : list Z) : memory := foldl (write g) m l.

(** leafs and inputs are written before the first node *)
Definition inputs : list Z := filter early U.
Definition before g (pre : list Z) : memory := run g (run g (λ _ _ _, None) inputs) pre.

Definition intact g (m : memory) t : Prop := ∀ k c x, at_place g t k c x → m k c x = Some t.

Lemma clash_at g t t' k c x : at_place g t k c x → at_place g t' k c x → clash g t t'.
Proof. intros [H1 H2] [H3 H4]. split; [congruence|]. by exists c, x. Qed.

Lemma write_intact g m t t' : intact g m t → (managed t' → t ≠ t' → ¬ clash g t t') → intact g (write g m t') t.
Proof.
  intros Hi Hc k c x Hx. unfold write. destruct (decide (managed t' ∧ at_place g t' k c x)) as [[Hm Hx']|_]; [|by apply Hi].
  destruct (decide (t = t')) as [->|Hne]; [done|]. destruct (Hc Hm Hne). by eapply clash_at.
Qed.

Lemma write_self g m t : managed t → intact g (write g m t) t.
Proof. intros Hm k c x Hx. unfold write. by rewrite decide_True. Qed.

(** what the plan promises *)
Definition plan_safe g : Prop := ∀ t t', t ∈ U → t' ∈ U → managed t → managed t' → t ≠ t' → keeps t t' → ¬ clash g t t' ∨ in_place g t t'.

Lemma released_suffix l post t : released (uses (l ++ post)) t → released (uses post) t.
Proof. apply released_mono. intros v. rewrite uses_app, cnt_app. lia. Qed.

(** the place of [t] is not written between its own computation and its last use *)
Lemma no_clobber (Hgo : graph_ok) g pre t' post t : plan_safe g → nodes = pre ++ t' :: post → t ∈ U → managed t → managed t' → t ≠ t' →
  early t ∨ t ∈ pre → ¬ released (uses post) t → ¬ clash g t t'.
Proof.
  intros Hs Hn Ht Hm Hm' Hne Hb Hr. assert (Ht'n : t' ∈ nodes) by (rewrite Hn; set_solver). pose proof (nodes_U Hgo t' Ht'n) as Ht'.
  destruct (nodes_nodup Hgo) as [Hnd Hnl].
  assert (Hr' : ¬ released (uses (t' :: post)) t).
  { intros H. apply Hr. by apply (released_suffix [t']). }
  assert (Hop : early t' → ggml_op_can_inplace (t_op (ts t')) = true → False) by (intros He Ho; by rewrite (go_early Hgo t' He) in Ho).
  destruct (decide (early t')) as [He'|He'].
  - destruct (decide (early t)) as [He|He].
    + destruct (Hs t t' Ht Ht' Hm Hm' Hne) as [?|(_ & Ho & _)]; [by left|done|by destruct Hop].
    + destruct Hb as [?|Hb]; [done|]. apply list_elem_of_split in Hb as (a & b & ->).
      assert (Hn' : nodes = a ++ t :: (b ++ t' :: post)) by (rewrite Hn, <- app_assoc; done).
      destruct (Hs t' t Ht' Ht Hm' Hm ltac:(done)) as [Hc|(Hsrc & _)].
      * right. split; [done|]. exists a, (b ++ t' :: post). split; [done|]. split; [by left|]. intros Hrel.
        apply (not_released_before Hgo _ _ _ Hn Hnd (Hnl t' Ht'n)). by apply (released_suffix (t :: b)).
      * intros ?. by apply Hc, clash_sym.
      * destruct (go_srcs Hgo _ _ _ _ Hn' Hsrc) as [Hl|Ha]; [by destruct (Hnl t')|]. rewrite Hn in Hnd. apply NoDup_app in Hnd as (_ & Hd & _).
        destruct (Hd t'); [set_solver|left].
  - destruct (Hs t t' Ht Ht' Hm Hm' Hne) as [?|(_ & _ & _ & _ & _ & _ & p' & q' & Hn' & Hrel)]; [|done|].
    + right. split; [done|]. by exists pre, post.
    + rewrite Hn in Hn', Hnd. by destruct (split_unique pre post p' q' t' Hnd Hn') as [_ <-].
Qed.

Lemma inputs_intact (Hgo : graph_ok) g t : plan_safe g → t ∈ U → managed t → early t → intact g (before g []) t.
Proof.
  intros Hs Ht Hm He. unfold before. cbn. assert (Hin : t ∈ inputs) by (by apply list_elem_of_filter).
  assert (Hall : ∀ x, x ∈ inputs → x ∈ U ∧ early x) by (intros x [? ?]%list_elem_of_filter; done). revert Hin Hall. generalize inputs. intros l.
  induction l as [|x l IH] using rev_ind; intros Hin Hall; [by apply not_elem_of_nil in Hin|].
  unfold run. rewrite foldl_app. cbn. destruct (decide (x = t)) as [->|Hne]; [by apply write_self|].
  apply write_intact; [apply IH; [set_solver|]; intros y Hy; apply Hall; set_solver|]. intros Hmx _.
  destruct (Hall x) as [Hx Hex]; [set_solver|].
  destruct (Hs t x Ht Hx Hm Hmx) as [?|(_ & Ho & _)]; [done|by left|done|]. by rewrite (go_early Hgo x Hex) in Ho.
Qed.

Lemma run_intact (Hgo : graph_ok) g pre post t : plan_safe g → nodes = pre ++ post → t ∈ U → managed t → early t ∨ t ∈ pre → ¬ released (uses post) t →
  intact g (before g pre) t.
Proof.
  intros Hs. revert post. induction pre as [|x pre IH] using rev_ind; intros post Hn Ht Hm Hb Hr.
  - destruct Hb as [He|Hb]; [by apply inputs_intact|by apply not_elem_of_nil in Hb].
  - unfold before, run. rewrite foldl_app. cbn. fold (run g (run g (λ _ _ _, None) inputs) pre). fold (before g pre).
    rewrite <- app_assoc in Hn. cbn in Hn. destruct (decide (x = t)) as [->|Hne]; [by apply write_self|].
    assert (Hb' : early t ∨ t ∈ pre) by (destruct Hb as [?|Hb]; [by left|right]; set_solver).
    apply write_intact.
    + apply (IH (x :: post) Hn Ht Hm Hb'). intros Hrel. apply Hr. by apply (released_suffix [x]).
    + intros Hmx _. by eapply no_clobber.
Qed.

(** the tensor whose memory a tensor uses *)
Definition root t : Z := default t (t_view_src (ts t)).

(** a source that is still to be read is not released *)
Lemma root_needed (Hgo : graph_ok) pre x post p : nodes = pre ++ x :: post → p ∈ sources ts x → managed (root p) →
  root p ∈ U ∧ (early (root p) ∨ root p ∈ pre) ∧ ¬ released (uses (x :: post)) (root p).
Proof.
  intros Hn Hp Hm. destruct (source_of Hgo _ _ _ _ Hn Hp) as (HpU & _ & Hb & Hu).
  assert (Hc : 0 < cnt p (uses (x :: post))) by (apply cnt_pos; cbn; apply elem_of_app; by left).
  unfold root in *. destruct (t_view_src (ts p)) as [r|] eqn:Hv; cbn [default] in *.
  - destruct (go_view Hgo p r HpU Hv) as [HrU _]. destruct (go_view_used Hgo p r Hu Hv Hm) as [Hpn Hop]. split; [done|]. split.
    + destruct (go_srcs Hgo _ _ _ _ Hn Hp) as [Hl|Hpp]; [by destruct (proj2 (nodes_nodup Hgo) p Hpn)|].
      apply list_elem_of_split in Hpp as (a & b & ->).
      destruct (go_view_order Hgo a p (b ++ x :: post) r) as [?|?]; [by rewrite Hn, <- app_assoc|done|by left; left|right; set_solver].
    + intros (_ & _ & Hf & _). rewrite Forall_forall in Hf. destruct (Hf p) as [H0 _]; [by apply elem_of_views|lia].
  - split; [done|]. split; [done|]. intros (_ & H0 & _). lia.
Qed.
End proofs.

#[export] Instance managed_decision ts t : Decision (managed ts t).
Proof. unfold managed. apply _. Defined.
#[export] Instance finished_decision ts nodes L v : Decision (finished ts nodes L v).
Proof. unfold finished. apply _. Defined.
#[export] Instance released_decision ts nodes L t : Decision (released ts nodes L t).
Proof. unfold released. apply _. Defined.
#[export] Instance early_decision ts leafs t : Decision (early ts leafs t).
Proof. unfold early. apply _. Defined.

(** ** The promises of the planner *)

Section promises.
  Context {T : Type} `{!TensorTable T, !TensorTableLaws T}.
  Variable ts : Z → ggml_tensor.
  Variable alloc_size : Z → ggml_tensor → Z.
  Variable BF : list Z.
  Variable BT : list nat.
  Variable AL : nat → Z.
  Variable NT : nat.
  Variable nodes : list Z.
  Variable leafs : list Z.
  Variable node_ids : option (list Z).
  Variable leaf_ids : option (list Z).

  Abbreviation U := (leafs ++ nodes).

(** a graph in the order of computation, with buffers and sizes for its tensors *)
Record plan_input : Prop := {
  pi_nodup : NoDup U;
  pi_graph : graph_ok ts U nodes leafs;
  pi_bufs : length BT = length BF ∧ ∀ i k, BT !! i = Some k → k < NT;
  pi_size : ∀ b t k, t ∈ U → k < NT → (0 ≤ alloc_size b (ts t) ∧ alloc_size b (ts t) + AL k ≤ SIZE_MAX / 2)%Z;
  pi_nodes : ids_ok BF node_ids (length nodes);
  pi_leafs : ids_ok BF leaf_ids (length leafs) }.

(** what is known of the plan: every place is inside the memory that will be asked for, aligned; when a node is
    computed, all its sources are intact, and at the end the outputs are; exactly the tensors that may still be needed
    hold their places *)
Definition plan_good (g : ggml_gallocr T) : Prop :=
  (∀ t, t ∈ U → managed ts t → good_id BF (buffer_id (nd g t)) ∧
     let k := talloc_of BT (buffer_id (nd g t)) in
     region_in (AL k) (max_of (tallocs g) k (ba_chunk (hn_addr (nd g t)))) (region_of ts alloc_size BF BT AL t (nd g t))) ∧
  (∀ pre x post p, nodes = pre ++ x :: post → p ∈ sources ts x → managed ts (root ts p) →
     intact ts alloc_size BF BT AL g (before ts alloc_size U BF BT AL leafs g pre) (root ts p)) ∧
  (∀ t, t ∈ U → managed ts t → ¬ released ts nodes [] t →
     intact ts alloc_size BF BT AL g (before ts alloc_size U BF BT AL leafs g nodes) t) ∧
  (∀ t, allocated (nd g t) = true ↔ managed ts t ∧ t ∈ U ∧ ¬ released ts nodes [] t).

Lemma plan_good_of strict sz born g : plan_input → (strict = true → ∀ b t, t ∈ U → (0 < alloc_size b (ts t))%Z) →
  (strict = true → ∀ b t t', t ∈ U → t' ∈ U → same_layout (ts t) (ts t') = true → (alloc_size b (ts t) ≤ alloc_size b (ts t'))%Z) →
  (strict = true → ∀ id t, good_id BF id → t ∈ U → (psize ts alloc_size BF BT AL id t ≤ sz t)%Z) →
  (∀ t, t ∈ born ↔ t ∈ U) → main_st ts alloc_size U BF BT AL NT strict nodes leafs sz born None [] g → plan_good g.
Proof.
  intros [H1 H2 H3 H4 H5 H6] H7 H8 H9 Hb Hst.
  assert (Hsafe : plan_safe ts alloc_size U BF BT AL nodes leafs g).
  { intros t t' Ht Ht'. apply (st_safe _ _ _ _ _ _ _ _ _ _ _ _ _ _ _ _ Hst); by apply Hb. }
  split_and!.
  - intros t Ht Hm. apply (st_place _ _ _ _ _ _ _ _ _ _ _ _ _ _ _ _ Hst); [by apply Hb|done].
  - intros pre x post p Hn Hp Hm. destruct (root_needed (T := T) ts alloc_size U BF BT AL NT strict H1 H3 H4 H7 H8 nodes leafs sz H9 H2 pre x post p Hn Hp Hm) as (R1 & R2 & R3).
    by apply (run_intact ts alloc_size U BF BT AL NT strict H1 H3 H4 H7 H8 nodes leafs sz H9 H2 g pre (x :: post)).
  - intros t Ht Hm Hr. apply (run_intact ts alloc_size U BF BT AL NT strict H1 H3 H4 H7 H8 nodes leafs sz H9 H2 g nodes []); try done.
    + by rewrite app_nil_r.
    + apply elem_of_app in Ht as [?|?]; [left; by left|by right].
  - intros t. rewrite (st_alloc _ _ _ _ _ _ _ _ _ _ _ _ _ _ _ _ Hst), Hb. unfold gone_at. naive_solver.
Qed.
End promises.

(** C8. For a graph in the order of computation the planner either fails (no memory left in any chunk, or an array of free
    blocks that is full) or gives every tensor a place that is aligned and inside the memory that will be asked for;
    running the nodes in this memory, where places are reused and written in place, every node finds all its sources
    (through views too) as they were computed, and at the end every output, and every tensor that was never used, is
    intact; a tensor holds its place at the end exactly if it is one of these. *)
Theorem gallocr_plan_correct {T : Type} `{!TensorTable T, !TensorTableLaws T} (ts : Z → ggml_tensor) (alloc_size : Z → ggml_tensor → Z)
    (BF : list Z) (BT : list nat) (AL : nat → Z) (NT : nat) (nodes leafs : list Z) (node_ids leaf_ids : option (list Z)) (g : ggml_gallocr T) :
  plan_input ts alloc_size BF BT AL NT nodes leafs node_ids leaf_ids → ready (leafs ++ nodes) BF BT AL NT false g →
  resP (λ e, e = Abort ∨ e = OutOfRange) (ggml_gallocr_alloc_graph_impl ts alloc_size g (Graph nodes leafs) node_ids leaf_ids)
    (plan_good ts alloc_size BF BT AL nodes leafs).
Proof.
  intros Hin Hr. pose proof Hin as [H1 H2 H3 H4 H5 H6].
  eapply resP_mono; [apply (alloc_graph_st ts alloc_size (leafs ++ nodes) BF BT AL NT false H1 H3 H4 ltac:(done) ltac:(done) nodes leafs (λ _, 0%Z) ltac:(done) H2 g node_ids leaf_ids ltac:(done) Hr H5 H6)| |].
  - by intros e [_ ?].
  - intros g' (born & Hb & Hst). by eapply (plan_good_of _ _ _ _ _ _ _ _ _ _ false (λ _, 0%Z) born).
Qed.

(** C9. With enough room the planner always succeeds: when every tensor has a positive size, tensors of one layout need
    the same memory, all sizes together can be counted, and never more than 253 tensors hold a place at a time, no
    assertion fails, no array overflows and the plan is good. *)
Theorem gallocr_plan_total {T : Type} `{!TensorTable T, !TensorTableLaws T} (ts : Z → ggml_tensor) (alloc_size : Z → ggml_tensor → Z)
    (BF : list Z) (BT : list nat) (AL : nat → Z) (NT : nat) (nodes leafs : list Z) (node_ids leaf_ids : option (list Z)) (g : ggml_gallocr T) (sz : Z → Z) :
  plan_input ts alloc_size BF BT AL NT nodes leafs node_ids leaf_ids → ready (leafs ++ nodes) BF BT AL NT true g →
  (∀ b t, t ∈ leafs ++ nodes → (0 < alloc_size b (ts t))%Z) →
  (∀ b t t', t ∈ leafs ++ nodes → t' ∈ leafs ++ nodes → same_layout (ts t) (ts t') = true → (alloc_size b (ts t) ≤ alloc_size b (ts t'))%Z) →
  (∀ id t, good_id BF id → t ∈ leafs ++ nodes → (psize ts alloc_size BF BT AL id t ≤ sz t)%Z) →
  roomy ts (leafs ++ nodes) nodes leafs sz →
  okP (ggml_gallocr_alloc_graph_impl ts alloc_size g (Graph nodes leafs) node_ids leaf_ids) (plan_good ts alloc_size BF BT AL nodes leafs).
Proof.
  intros Hin Hr Hpos Hlay Hsz Hroom. pose proof Hin as [H1 H2 H3 H4 H5 H6].
  eapply okP_resP; [eapply resP_mono; [apply (alloc_graph_st ts alloc_size (leafs ++ nodes) BF BT AL NT true H1 H3 H4 (λ _, Hpos) (λ _, Hlay) nodes leafs sz (λ _, Hsz) H2 g node_ids leaf_ids (λ _, Hroom) Hr H5 H6)|intros e He; exact He|]|].
  - intros g' (born & Hb & Hst). by eapply (plan_good_of _ _ _ _ _ _ _ _ _ _ true sz born).
  - by intros e [? _].
Qed.

(** ** An example: weights that are there, an input, a sum computed in place, a view, and an output *)

Definition ex_tensor (op : ggml_op) (flags : Z) (ne : list Z) (src : list (option Z)) (view : option Z) (data : Z) : ggml_tensor :=
  Tensor 0 0 ne [4; 16; 64; 64]%Z op flags src view 0 data.
Definition ex_ts (t : Z) : ggml_tensor :=
  match t with
  | 16 => ex_tensor GGML_OP_NONE 0 [4; 4; 1; 1] [] None 4096
  | 32 => ex_tensor GGML_OP_NONE FLAG_INPUT [4; 4; 1; 1] [] None 0
  | 48 => ex_tensor GGML_OP_MUL_MAT 0 [4; 4; 1; 1] [Some 16; Some 32] None 0
  | 64 => ex_tensor GGML_OP_ADD 0 [4; 4; 1; 1] [Some 48; Some 32] None 0
  | 80 => ex_tensor GGML_OP_RESHAPE 0 [16; 1; 1; 1] [Some 64] (Some 64) 0
  | 96 => ex_tensor GGML_OP_MUL_MAT 0 [4; 4; 1; 1] [Some 80; None; Some 16] None 0
  | 112 => ex_tensor GGML_OP_MUL_MAT FLAG_OUTPUT [4; 4; 1; 1] [Some 96; Some 96] None 0
  | _ => ex_tensor GGML_OP_NONE 0 [] [] None 0
  end%Z.
Definition ex_nodes : list Z := [48; 64; 80; 96; 112]%Z.
Definition ex_leafs : list Z := [16; 32]%Z.
Definition ex_size (b : Z) (t : ggml_tensor) : Z := 100.
Definition ex_table : ggml_hash_set := match ggml_hash_set_new 8 (λ n, replicate n 0%Z) with Ok h => h | Err _ => HashSet 0 [] [] end.
Definition ex_galloc : ggml_gallocr ggml_hash_set := Gallocr ggml_hash_set [7]%Z [0] [ggml_dyn_tallocr_new 32 4096] ex_table [].

(** the sum 64 is in the place of 48; 80 has no place of its own; 96 takes the place of the input *)
Example ex_plan : (g ← ggml_gallocr_alloc_graph_impl ex_ts ex_size ex_galloc (Graph ex_nodes ex_leafs) None None;
    Ok (map (λ t, (ba_offset (hn_addr (nd g t)), allocated (nd g t))) [32; 48; 64; 96; 112]%Z, max_of (tallocs g) 0 0)) =
  Ok ([(0, false); (128, false); (128, false); (0, false); (128, true)]%Z, 256%Z).
Proof. vm_compute. reflexivity. Qed.

Lemma ex_table_ok : hs_ok ex_table ∧ 7 ≤ hs_size ex_table.
Proof.
  assert (H : ggml_hash_set_new 8 (λ n, replicate n 0%Z) = Ok ex_table) by (vm_compute; reflexivity).
  destruct (okP_Ok _ _ _ (hash_set_new_ok 8 (λ n, replicate n 0%Z) ltac:(lia) (λ n, length_replicate n 0%Z)) H) as (H1 & _ & H3). split; [done|lia].
Qed.

Lemma ex_plan_ready strict : ready (ex_leafs ++ ex_nodes) [7]%Z [0] (λ _, 32%Z) 1 strict ex_galloc.
Proof.
  destruct ex_table_ok as [H1 H2]. split; [exact H1|exact H2|done|done|].
  destruct (dyn_new_ok 32 4096) as [Hd Ht]; [done|vm_compute; by split|lia|].
  assert (Hone : ∀ (k : nat) a, tallocs ex_galloc !! k = Some a → a = ggml_dyn_tallocr_new 32 4096) by (intros [|k] a Hk; [by injection Hk as <-|done]).
  split; [done| | |].
  - intros k a Hk. by rewrite (Hone k a Hk).
  - intros k a Hk. by rewrite (Hone k a Hk).
  - intros _. split; [done|]. intros k a Hk. rewrite (Hone k a Hk). split; [done|]. intros ck Hck. by apply not_elem_of_nil in Hck.
Qed.

Lemma ex_graph : graph_ok ex_ts (ex_leafs ++ ex_nodes) ex_nodes ex_leafs.
Proof.
  split.
  - done.
  - intros pre x post p Hn Hp. unfold ex_leafs, ex_nodes in *. destruct pre as [|? [|? [|? [|? [|? pre]]]]]; cbn in Hn; simplify_eq; try (by destruct pre);
      cbn in Hp; set_solver.
  - intros t r Ht Hv. cbn in Ht. set_unfold in Ht. repeat destruct Ht as [->|Ht]; try done; cbn in Hv; simplify_eq. split; [set_solver|done].
  - intros pre v post r Hn Hv. unfold ex_leafs, ex_nodes in *. destruct pre as [|? [|? [|? [|? [|? pre]]]]]; cbn in Hn; simplify_eq; try (by destruct pre); cbn in Hv; simplify_eq. right. set_solver.
  - intros v r Hu Hv _. cbn in Hu. set_unfold in Hu. repeat destruct Hu as [->|Hu]; try done; cbn in Hv; simplify_eq. split; [set_solver|done].
  - intros t [Ht|Ht].
    + cbn in Ht. set_unfold in Ht. by repeat destruct Ht as [->|Ht].
    + unfold ex_ts in *. repeat case_match; try done.
Qed.

Lemma ex_input : plan_input ex_ts ex_size [7]%Z [0] (λ _, 32%Z) 1 ex_nodes ex_leafs None None.
Proof.
  split.
  - by apply (bool_decide_unpack _).
  - exact ex_graph.
  - split; [done|]. intros [|i] k Hk; cbn in Hk; [injection Hk as <-; lia|done].
  - intros b t k _ _. by apply (bool_decide_unpack _).
  - split; [done|cbn; lia].
  - split; [done|cbn; lia].
Qed.

Lemma ex_roomy : roomy ex_ts (ex_leafs ++ ex_nodes) ex_nodes ex_leafs (λ _, 128%Z).
Proof.
  split; [|split; [done|by apply (bool_decide_unpack _)]]. intros pre post _.
  etransitivity; [apply length_filter|]. cbn. lia.
Qed.

Lemma gallocr_plan_correct_witness :
  resP (λ e, e = Abort ∨ e = OutOfRange) (ggml_gallocr_alloc_graph_impl ex_ts ex_size ex_galloc (Graph ex_nodes ex_leafs) None None)
    (λ g, intact ex_ts ex_size [7]%Z [0] (λ _, 32%Z) g (before ex_ts ex_size (ex_leafs ++ ex_nodes) [7]%Z [0] (λ _, 32%Z) ex_leafs g [48; 64; 80]%Z) 64%Z).
Proof.
  eapply resP_mono; [exact (gallocr_plan_correct ex_ts ex_size [7]%Z [0] (λ _, 32%Z) 1 ex_nodes ex_leafs None None ex_galloc ex_input (ex_plan_ready false))|done|].
  intros g (_ & H & _). apply (H [48; 64; 80]%Z 96%Z [112]%Z 80%Z); [done|cbn; left|done].
Defined.

Lemma gallocr_plan_total_witness :
  okP (ggml_gallocr_alloc_graph_impl ex_ts ex_size ex_galloc (Graph ex_nodes ex_leafs) None None) (plan_good ex_ts ex_size [7]%Z [0] (λ _, 32%Z) ex_nodes ex_leafs).
Proof.
  apply (gallocr_plan_total ex_ts ex_size [7]%Z [0] (λ _, 32%Z) 1 ex_nodes ex_leafs None None ex_galloc (λ _, 128%Z) ex_input (ex_plan_ready true)).
  - done.
  - done.
  - intros id t [H0 H1] _. unfold psize. by apply (bool_decide_unpack _).
  - exact ex_roomy.
Defined.
