(* ===== verification/GallocRun.v ===== *)
(** The graph allocator of src/ggml/src/ggml-alloc.c around its planner: making it, reserving the buffers for a graph,
    giving the tensors of a graph their addresses in these buffers, and freeing it.  A virtual buffer is a pointer into
    a heap, in which freed ones stay as None; what a back end returns when it is asked for a buffer is a parameter, and
    so are the sizes and the alignment it needs.  The back end's own initialisation of a tensor is left out. *)
From S2P Require Import Prelude Alloc HashSet Galloc.

Definition GGML_MAX_SRC : nat := 10.

(** ** The state *)

Record backend_buffer := BackendBuffer { bb_ptr : Z; bb_base : Z; bb_size : Z }.

(** an array of GGML_VBUFFER_MAX_CHUNKS buffers and the type they were made of *)
Record vbuffer := VBuffer { vb_buft : Z; vb_chunks : list (option backend_buffer) }.

Record tensor_alloc := TensorAlloc { al_buffer : Z; al_chunk : Z; al_offset : Z; al_size_max : Z }.
Definition invalid_alloc : tensor_alloc := TensorAlloc (-1) (-1) SIZE_MAX 0.

Record node_alloc := NodeAlloc { na_dst : tensor_alloc; na_src : list tensor_alloc }.

(** calloc *)
Definition zero_alloc : tensor_alloc := TensorAlloc 0 0 0 0.
Definition zero_node_alloc : node_alloc := NodeAlloc zero_alloc (replicate GGML_MAX_SRC zero_alloc).

(** [ga_buffers] is galloc->buffers; [ga_heap] is where its pointers lead; [ga_calls] counts the buffers that back ends
    were asked for *)
Record gallocr := GallocrRun {
  ga_plan : ggml_gallocr ggml_hash_set;
  ga_buffers : list (option nat);
  ga_heap : list (option vbuffer);
  ga_calls : nat;
  ga_node_allocs : list node_alloc;
  ga_n_nodes : nat;
  ga_leaf_allocs : list tensor_alloc;
  ga_n_leafs : nat }.

Definition with_plan (r : gallocr) (g : ggml_gallocr ggml_hash_set) : gallocr :=
  GallocrRun g (ga_buffers r) (ga_heap r) (ga_calls r) (ga_node_allocs r) (ga_n_nodes r) (ga_leaf_allocs r) (ga_n_leafs r).
Definition with_allocs (r : gallocr) (nl : list node_alloc) (nn : nat) (ll : list tensor_alloc) (ln : nat) : gallocr :=
  GallocrRun (ga_plan r) (ga_buffers r) (ga_heap r) (ga_calls r) nl nn ll ln.
Definition with_buffers (r : gallocr) (bs : list (option nat)) (h : list (option vbuffer)) (n : nat) : gallocr :=
  GallocrRun (ga_plan r) bs h n (ga_node_allocs r) (ga_n_nodes r) (ga_leaf_allocs r) (ga_n_leafs r).

Section run.
  (* ggml_backend_buft_get_alloc_size, _get_alignment, _get_max_size *)
  Variable alloc_size : Z → ggml_tensor → Z.
  Variable buft_alignment : Z → Z.
  Variable buft_max_size : Z → Z.
  (* ggml_backend_buft_alloc_buffer: the n-th call, for a type and a size *)
  Variable alloc_buffer : nat → Z → Z → option backend_buffer.
  (* the contents of the memory that malloc returned for the keys of the hash set *)
  Variable keys_mem : nat → list Z.

(** ** ggml_gallocr_new_n *)

(** check if the same buffer type is used multiple times and reuse the same allocator *)
Definition new_talloc (bufts : list Z) (st : list nat * list ggml_dyn_tallocr) (ib : nat * Z) : list nat * list ggml_dyn_tallocr :=
  match list_find (λ b, b = ib.2) (take ib.1 bufts) with
  | Some (j, _) => (st.1 ++ [default 0 (st.1 !! j)], st.2)
  | None => (st.1 ++ [length st.2], st.2 ++ [ggml_dyn_tallocr_new (buft_alignment ib.2) (buft_max_size ib.2)])
  end.

Definition ggml_gallocr_new_n (bufts : list Z) : gallocr :=
  let st := foldl (new_talloc bufts) ([], []) (enum bufts) in
  GallocrRun (Gallocr ggml_hash_set bufts st.1 st.2 (HashSet 0 [] []) []) (replicate (length bufts) None) [] 0 [] 0 [] 0.

(** ** Virtual buffers *)

Definition vb_get (heap : list (option vbuffer)) (p : nat) : res vbuffer :=
  match heap !! p with Some (Some vb) => Ok vb | _ => Err Dangling end.

Definition ggml_vbuffer_free (heap : list (option vbuffer)) (p : option nat) : res (list (option vbuffer)) :=
  match p with None => Ok heap | Some p => _ ← vb_get heap p; vset heap p None end.

Definition ggml_vbuffer_chunk_size (vb : vbuffer) (c : nat) : Z :=
  match vb_chunks vb !! c with Some (Some b) => bb_size b | _ => 0%Z end.

(** up to the first chunk that is NULL *)
Fixpoint chunks_size (l : list (option backend_buffer)) : Z :=
  match l with Some b :: l => u64 (bb_size b + chunks_size l) | _ => 0%Z end.
Definition ggml_vbuffer_size (vb : vbuffer) : Z := chunks_size (vb_chunks vb).

(** one chunk; None when the back end has failed *)
Definition alloc_chunk (buft : Z) (st : nat * option (list (option backend_buffer))) (ck : tallocr_chunk) : nat * option (list (option backend_buffer)) :=
  match st.2 with
  | None => st
  | Some l => (S st.1, match alloc_buffer st.1 buft (max_size ck) with Some b => Some (l ++ [Some b]) | None => None end)
  end.

(** the number of calls, and the buffer *)
Definition ggml_vbuffer_alloc (calls : nat) (buft : Z) (a : ggml_dyn_tallocr) : nat * option vbuffer :=
  let st := foldl (alloc_chunk buft) (calls, Some []) (ta_chunks a) in
  (st.1, l ← st.2; Some (VBuffer buft (l ++ replicate (GGML_VBUFFER_MAX_CHUNKS - length l) None))).

(** ** ggml_gallocr_reserve_n_impl *)

Section reserve.
  Variable ts : Z → ggml_tensor.

Definition margin (n : Z) : Z := (n + n / 4)%Z.

(** initialize hash table; hash_values is malloc'ed and set to 0 by the planner *)
Definition init_table (g : ggml_gallocr ggml_hash_set) (min_size : Z) : res (ggml_gallocr ggml_hash_set) :=
  if decide (Z.of_nat (hs_size (hash_set g)) < min_size)%Z then
    h ← ggml_hash_set_new min_size keys_mem;
    Ok (Gallocr ggml_hash_set (bufts g) (buf_tallocs g) (tallocs g) h (replicate (hs_size h) zero_node))
  else Ok g.

Definition reset_tallocs (g : ggml_gallocr ggml_hash_set) : res (ggml_gallocr ggml_hash_set) :=
  l ← foldM (λ l k, a ← vget l k; vset l k (ggml_dyn_tallocr_reset a)) (tallocs g) (buf_tallocs g);
  Ok (set_tallocs g l).

(** what is recorded of the place of a tensor whose node is [i] *)
Definition record_place (g : ggml_gallocr ggml_hash_set) (t : Z) (i : nat) : res tensor_alloc :=
  h ← hn_get g i;
  b ← buft g (buffer_id h);
  Ok (TensorAlloc (buffer_id h) (Z.of_nat (ba_chunk (hn_addr h))) (ba_offset (hn_addr h)) (alloc_size b (ts t))).

(** tensors that have data, and views *)
Definition is_given (t : Z) : bool := is_view (ts t) || bool_decide (t_data (ts t) ≠ 0%Z).

Definition record_tensor (g : ggml_gallocr ggml_hash_set) (t : Z) : res (ggml_gallocr ggml_hash_set * tensor_alloc) :=
  if is_given t then Ok (g, invalid_alloc) else
  '(g, i) ← ggml_gallocr_hash_get g t;
  d ← record_place g t i;
  Ok (g, d).

(** the array of sources with its NULL entries *)
Definition src_array (t : ggml_tensor) : list (option Z) := take GGML_MAX_SRC (t_src t ++ replicate GGML_MAX_SRC None).

Definition record_src (st : ggml_gallocr ggml_hash_set * list tensor_alloc) (src : option Z) : res (ggml_gallocr ggml_hash_set * list tensor_alloc) :=
  match src with
  | None => Ok (st.1, st.2 ++ [invalid_alloc])
  | Some t => r ← record_tensor st.1 t; Ok (r.1, st.2 ++ [r.2])
  end.

Definition record_node (st : ggml_gallocr ggml_hash_set * list node_alloc) (in_ : nat * Z) : res (ggml_gallocr ggml_hash_set * list node_alloc) :=
  d ← record_tensor st.1 in_.2;
  s ← foldM record_src (d.1, []) (src_array (ts in_.2));
  l ← vset st.2 in_.1 (NodeAlloc d.2 s.2);
  Ok (s.1, l).

Definition record_leaf (st : ggml_gallocr ggml_hash_set * list tensor_alloc) (il : nat * Z) : res (ggml_gallocr ggml_hash_set * list tensor_alloc) :=
  '(g, i) ← ggml_gallocr_hash_get st.1 il.2;
  d ← (if is_given il.2 then Ok invalid_alloc else record_place g il.2 i);
  l ← vset st.2 il.1 d;
  Ok (g, l).

(** if the buffer type is used multiple times, we reuse the same buffer *)
Definition shared_buffer (g : ggml_gallocr ggml_hash_set) (buffers : list (option nat)) (i : nat) : res (list (option nat)) :=
  k ← vget (buf_tallocs g) i;
  match list_find (λ k', k' = k) (take i (buf_tallocs g)) with
  | Some (j, _) => p ← vget buffers j; vset buffers i p
  | None => Ok buffers
  end.

(** the buffer is missing, or a chunk of it is too small *)
Definition buffer_small (heap : list (option vbuffer)) (p : option nat) (a : ggml_dyn_tallocr) : res bool :=
  match p with
  | None => Ok true
  | Some p => vb ← vb_get heap p; Ok (existsb (λ c, bool_decide (ggml_vbuffer_chunk_size vb c < ggml_dyn_tallocr_max_size a c)%Z) (seq 0 (length (ta_chunks a))))
  end.

(** one turn of the loop that reallocates buffers; the flag is false after a failure *)
Definition realloc_buffer (no_alloc : bool) (st : gallocr * bool) (i : nat) : res (gallocr * bool) :=
  let '(r, ok) := st in
  if negb ok then Ok st else
  let g := ga_plan r in
  buffers ← shared_buffer g (ga_buffers r) i;
  p ← vget buffers i;
  k ← vget (buf_tallocs g) i;
  a ← vget (tallocs g) k;
  small ← buffer_small (ga_heap r) p a;
  if (small : bool) then
    heap ← ggml_vbuffer_free (ga_heap r) p;
    b ← vget (bufts g) i;
    let '(calls, vb) := if no_alloc then (ga_calls r, None) else ggml_vbuffer_alloc (ga_calls r) b a in
    match vb with
    | Some vb => buffers ← vset buffers i (Some (length heap)); Ok (with_buffers r buffers (heap ++ [Some vb]) calls, true)
    | None => buffers ← vset buffers i None; Ok (with_buffers r buffers heap calls, no_alloc)
    end
  else Ok (with_buffers r buffers (ga_heap r) (ga_calls r), true).

(** free and calloc if the array is too short *)
Definition grown {A} (l : list A) (old n : nat) (zero : A) : list A := if decide (old < n) then replicate n zero else l.

Definition ggml_gallocr_reserve_n_impl (r : gallocr) (graph : ggml_cgraph) (node_ids leaf_ids : option (list Z)) (no_alloc : bool) : res (gallocr * bool) :=
  let n_nodes := length (g_nodes graph) in
  let n_leafs := length (g_leafs graph) in
  g ← init_table (ga_plan r) (margin (Z.of_nat (n_nodes + n_leafs)));
  g ← reset_tallocs g;
  g ← ggml_gallocr_alloc_graph_impl ts alloc_size g graph node_ids leaf_ids;
  n ← foldM record_node (g, grown (ga_node_allocs r) (ga_n_nodes r) n_nodes zero_node_alloc) (enum (g_nodes graph));
  l ← foldM record_leaf (n.1, grown (ga_leaf_allocs r) (ga_n_leafs r) n_leafs zero_alloc) (enum (g_leafs graph));
  let r := with_allocs (with_plan r l.1) n.2 n_nodes l.2 n_leafs in
  foldM (realloc_buffer no_alloc) (r, true) (seq 0 (length (ga_buffers r))).

Definition ggml_gallocr_reserve_n (r : gallocr) (graph : ggml_cgraph) (node_ids leaf_ids : option (list Z)) : res (gallocr * bool) :=
  ggml_gallocr_reserve_n_impl r graph node_ids leaf_ids false.

Definition ggml_gallocr_reserve (r : gallocr) (graph : ggml_cgraph) : res (gallocr * bool) := ggml_gallocr_reserve_n r graph None None.

(** the sizes that would be reserved *)
Definition ggml_gallocr_reserve_n_size (r : gallocr) (graph : ggml_cgraph) (node_ids leaf_ids : option (list Z)) : res (gallocr * list Z) :=
  st ← ggml_gallocr_reserve_n_impl r graph node_ids leaf_ids true;
  ggml_assert st.2;;
  sizes ← mapM_res (λ k, a ← vget (tallocs (ga_plan st.1)) k; Ok (foldl (λ s ck, u64 (s + max_size ck)) 0%Z (ta_chunks a))) (buf_tallocs (ga_plan st.1));
  Ok (st.1, sizes).

(** ** ggml_gallocr_needs_realloc *)

(** true if the tensor still fits *)
Definition node_fits (g : ggml_gallocr ggml_hash_set) (t : Z) (al : tensor_alloc) : res bool :=
  if negb (is_given t) then
    if decide (al_buffer al < 0)%Z then Ok false else
    b ← buft g (al_buffer al);
    Ok (bool_decide (alloc_size b (ts t) ≤ al_size_max al)%Z)
  else Ok (bool_decide (0 ≤ al_size_max al)%Z).

Definition src_fits (g : ggml_gallocr ggml_hash_set) (fits : bool) (sa : option Z * tensor_alloc) : res bool :=
  match sa.1 with Some t => if fits then node_fits g t sa.2 else Ok false | None => Ok fits end.

Definition graph_node_fits (r : gallocr) (fits : bool) (in_ : nat * Z) : res bool :=
  if negb fits then Ok false else
  na ← vget (ga_node_allocs r) in_.1;
  f ← node_fits (ga_plan r) in_.2 (na_dst na);
  foldM (src_fits (ga_plan r)) f (zip (src_array (ts in_.2)) (na_src na)).

Definition ggml_gallocr_needs_realloc (r : gallocr) (graph : ggml_cgraph) : res bool :=
  if decide (ga_n_nodes r ≠ length (g_nodes graph)) then Ok true else
  if decide (ga_n_leafs r ≠ length (g_leafs graph)) then Ok true else
  fits ← foldM (graph_node_fits r) true (enum (g_nodes graph));
  Ok (negb fits).

End reserve.

(** ** Giving tensors their addresses *)

Abbreviation tensors := (Z → ggml_tensor).

(** tensor->buffer = ...; tensor->data = ... *)
Definition with_memory (a : ggml_tensor) (buffer data : Z) : ggml_tensor :=
  Tensor (t_type a) buffer (t_ne a) (t_nb a) (t_op a) (t_flags a) (t_src a) (t_view_src a) (t_view_offs a) data.
Definition place_tensor (ts : tensors) (t buffer data : Z) : tensors := λ x, if decide (x = t) then with_memory (ts t) buffer data else ts x.

Definition ggml_backend_view_init (ts : tensors) (t v : Z) : res tensors :=
  ggml_assert (bool_decide (t_buffer (ts t) = 0%Z));;
  ggml_assert (bool_decide (t_buffer (ts v) ≠ 0%Z));;
  ggml_assert (bool_decide (t_data (ts v) ≠ 0%Z));;
  Ok (place_tensor ts t (t_buffer (ts v)) (u64 (t_data (ts v) + t_view_offs (ts t)))).

Definition ggml_backend_tensor_alloc (ts : tensors) (buft : Z) (b : backend_buffer) (t addr : Z) : res tensors :=
  ggml_assert (bool_decide (t_buffer (ts t) = 0%Z));;
  ggml_assert (bool_decide (t_data (ts t) = 0%Z));;
  ggml_assert (bool_decide (t_view_src (ts t) = None));;
  ggml_assert (bool_decide (bb_base b ≤ addr)%Z);;
  ggml_assert (bool_decide (u64 (addr + alloc_size buft (ts t)) ≤ u64 (bb_base b + bb_size b))%Z);;
  Ok (place_tensor ts t (bb_ptr b) addr).

(** a chunk that is NULL is read through a null pointer *)
Definition ggml_vbuffer_tensor_alloc (ts : tensors) (vb : vbuffer) (t : Z) (al : tensor_alloc) : res tensors :=
  c ← idx (al_chunk al);
  b ← vget (vb_chunks vb) c;
  match b with
  | Some b => ggml_backend_tensor_alloc ts (vb_buft vb) b t (u64 (bb_base b + al_offset al))
  | None => Err OutOfRange
  end.

Definition fits_max (r : gallocr) (ts : tensors) (t : Z) (al : tensor_alloc) : res unit :=
  b ← buft (ga_plan r) (al_buffer al);
  assert_ (bool_decide (alloc_size b (ts t) ≤ al_size_max al)%Z).

Definition ggml_gallocr_init_tensor (r : gallocr) (ts : tensors) (t : Z) (al : tensor_alloc) : res tensors :=
  (if is_given ts t then Ok tt else fits_max r ts t al);;
  match t_view_src (ts t) with
  | Some v =>
      if decide (t_buffer (ts t) = 0%Z) then
        assert_ (bool_decide (al_offset al = SIZE_MAX));;
        if decide (t_buffer (ts v) = 0%Z) then Ok ts else ggml_backend_view_init ts t v
      else Ok ts
  | None =>
      if decide (t_data (ts t) = 0%Z) then
        assert_ (bool_decide (al_offset al ≠ SIZE_MAX));;
        fits_max r ts t al;;
        i ← idx (al_buffer al);
        p ← vget (ga_buffers r) i;
        match p with
        | Some p => vb ← vb_get (ga_heap r) p; ggml_vbuffer_tensor_alloc ts vb t al
        | None => Err OutOfRange
        end
      else Ok ts
  end.

Definition init_leaf (r : gallocr) (ts : tensors) (il : nat * Z) : res tensors :=
  al ← vget (ga_leaf_allocs r) il.1; ggml_gallocr_init_tensor r ts il.2 al.

Definition init_src (r : gallocr) (ts : tensors) (sa : option Z * tensor_alloc) : res tensors :=
  match sa.1 with Some t => ggml_gallocr_init_tensor r ts t sa.2 | None => Ok ts end.

Definition init_node (r : gallocr) (ts : tensors) (in_ : nat * Z) : res tensors :=
  na ← vget (ga_node_allocs r) in_.1;
  ts ← foldM (init_src r) ts (zip (src_array (ts in_.2)) (na_src na));
  ggml_gallocr_init_tensor r ts in_.2 (na_dst na).

(** resetting a buffer does nothing here, but needs it *)
Definition ggml_vbuffer_reset (heap : list (option vbuffer)) (p : option nat) : res unit :=
  match p with Some p => _ ← vb_get heap p; Ok tt | None => Ok tt end.

Definition ggml_gallocr_alloc_graph (ts : tensors) (r : gallocr) (graph : ggml_cgraph) : res (tensors * gallocr * bool) :=
  need ← ggml_gallocr_needs_realloc ts r graph;
  st ← (if (need : bool) then
          if decide (length (ga_buffers r) = 1) then ggml_gallocr_reserve ts r graph else Ok (r, false)
        else Ok (r, true));
  let '(r, ok) := st in
  if negb ok then Ok (ts, r, false) else
  foldM (λ _ p, ggml_vbuffer_reset (ga_heap r) p) tt (ga_buffers r);;
  ts ← foldM (init_leaf r) ts (enum (g_leafs graph));
  ts ← foldM (init_node r) ts (enum (g_nodes graph));
  Ok (ts, r, true).

(** ** Sizes and freeing *)

Definition ggml_gallocr_get_buffer_size (r : gallocr) (id : Z) : res Z :=
  ggml_assert (bool_decide (0 ≤ id < Z.of_nat (length (ga_buffers r)))%Z);;
  p ← vget (ga_buffers r) (Z.to_nat id);
  match p with
  | None => Ok 0%Z
  | Some p =>
      if decide (Some p ∈ take (Z.to_nat id) (ga_buffers r)) then Ok 0%Z
      else vb ← vb_get (ga_heap r) p; Ok (ggml_vbuffer_size vb)
  end.

(** the buffers; skip if already freed *)
Definition free_buffer (buffers : list (option nat)) (heap : list (option vbuffer)) (i : nat) : res (list (option vbuffer)) :=
  p ← vget buffers i;
  if decide (p ∈ take i buffers) then Ok heap else ggml_vbuffer_free heap p.

Definition ggml_gallocr_free (r : gallocr) : res (list (option vbuffer)) :=
  foldM (free_buffer (ga_buffers r)) (ga_heap r) (seq 0 (length (ga_buffers r))).

End run.

(** ** Examples: a back end with memory for a few buffers of up to 2048 bytes *)

Definition ex_backend (limit : Z) (n : nat) (buft size : Z) : option backend_buffer :=
  if decide ((0 ≤ size ≤ limit)%Z ∧ n < 100) then Some (BackendBuffer (Z.of_nat n + 1) (65536 * (Z.of_nat n + 1)) size) else None.
Definition ex_align (b : Z) : Z := 32.
Definition ex_max (b : Z) : Z := 4096.
Definition ex_keys (n : nat) : list Z := replicate n 0%Z.

Definition ex_run_graph : res (list Z * Z) :=
  let r := ggml_gallocr_new_n ex_align ex_max [7]%Z in
  '(ts, r, ok) ← ggml_gallocr_alloc_graph ex_size (ex_backend 2048) ex_keys ex_ts r (Graph ex_nodes ex_leafs);
  s ← ggml_gallocr_get_buffer_size r 0;
  Ok ((λ t, t_data (ts t)) <$> (ex_leafs ++ ex_nodes), s).

Example ex_run_addresses : ex_run_graph = Ok ([4096; 65536; 65664; 65664; 65664; 65536; 65664]%Z, 256%Z).
Proof. vm_compute. reflexivity. Qed.

(** four steps from an input of 10 or 200 elements; in the second graph the last one also reads the first *)
Definition chain_ts (again : bool) (n : Z) (t : Z) : ggml_tensor :=
  match t with
  | 16 => Tensor 0 0 [n] [1]%Z GGML_OP_NONE FLAG_INPUT [] None 0 0
  | 32 => Tensor 0 0 [n] [1]%Z GGML_OP_MUL_MAT 0 [Some 16; Some 16] None 0 0
  | 48 => Tensor 0 0 [n] [1]%Z GGML_OP_MUL_MAT 0 [Some 32; Some 16] None 0 0
  | 64 => Tensor 0 0 [n] [1]%Z GGML_OP_MUL_MAT 0 [Some 48; Some 16] None 0 0
  | 80 => Tensor 0 0 [n] [1]%Z GGML_OP_MUL_MAT FLAG_OUTPUT [Some 64; if again then Some 32 else Some 16] None 0 0
  | _ => Tensor 0 0 [] [] GGML_OP_NONE 0 [] None 0 0
  end%Z.
Definition chain : ggml_cgraph := Graph [32; 48; 64; 80]%Z [16]%Z.
Definition chain_size (b : Z) (t : ggml_tensor) : Z := hd 0%Z (t_ne t).

Definition stale : res (bool * list Z) :=
  let r := ggml_gallocr_new_n ex_align ex_max [7]%Z in
  '(r, ok) ← ggml_gallocr_reserve chain_size (ex_backend 2048) ex_keys (chain_ts false 10) r chain;
  '(ts, r, ok') ← ggml_gallocr_alloc_graph chain_size (ex_backend 2048) ex_keys (chain_ts true 10) r chain;
  Ok (ok && ok', (λ t, t_data (ts t)) <$> [16; 32; 48; 64; 80]%Z).

Definition twice : res (bool * bool) :=
  let r := ggml_gallocr_new_n ex_align ex_max [7; 7]%Z in
  '(r, ok) ← ggml_gallocr_reserve chain_size (ex_backend 2048) ex_keys (chain_ts false 10) r chain;
  '(r, ok') ← ggml_gallocr_reserve chain_size (ex_backend 2048) ex_keys (chain_ts false 1000) r chain;
  _ ← ggml_gallocr_free r;
  Ok (ok, ok').

(** * Lemmas *)

(** a loop over the elements of a list with their indices *)
Lemma okP_enum {S} (f : S → nat * Z → res S) (I : nat → S → Prop) s l :
  I 0 s → (∀ i x s, l !! i = Some x → I i s → okP (f s (i, x)) (I (Datatypes.S i))) → okP (foldM f s (enum l)) (I (length l)).
Proof.
  intros H0 Hstep. eapply okP_mono; [apply (okP_foldM f (λ pre s, I (length pre) s)); [done|]|].
  - intros pre [i x] post s' Hs HI. assert (Hl : enum l !! length pre = Some (i, x)) by (rewrite Hs; by apply list_lookup_middle).
    apply lookup_zip_Some in Hl as [Hi Hx]. apply lookup_seq in Hi as [-> _]. rewrite length_app, Nat.add_1_r. by apply Hstep.
  - intros s'. cbv beta. unfold enum. by rewrite length_zip_with, length_seq, Nat.min_id.
Qed.

(** ** Recording the places *)

Section record.
  Variable alloc_size : Z → ggml_tensor → Z.
  Variable ts : Z → ggml_tensor.
  Variable BF : list Z.
  Variable U : list Z.
  Hypothesis HU : NoDup U.

Definition record_of (g : ggml_gallocr ggml_hash_set) (t : Z) : tensor_alloc :=
  if is_given ts t then invalid_alloc else
  let h := nd g t in TensorAlloc (buffer_id h) (Z.of_nat (ba_chunk (hn_addr h))) (ba_offset (hn_addr h)) (alloc_size (buft_of BF (buffer_id h)) (ts t)).
Definition src_record (g : ggml_gallocr ggml_hash_set) (o : option Z) : tensor_alloc := match o with Some t => record_of g t | None => invalid_alloc end.

Lemma record_of_same g g' t : same_nodes U g g' → record_of g' t = record_of g t.
Proof. intros S. unfold record_of. by rewrite (sn_nd _ _ _ S). Qed.

(** a plan whose places are in the buffers *)
Record placed_plan (g : ggml_gallocr ggml_hash_set) : Prop := {
  pp_wf : table_wf U g;
  pp_bufts : bufts g = BF;
  pp_good : ∀ t, t ∈ U → is_given ts t = false → good_id BF (buffer_id (nd g t)) }.

Lemma placed_same g g' : placed_plan g → same_nodes U g g' → placed_plan g'.
Proof.
  intros [H1 H2 H3] [S1 S2 _ _ S5 _]. split; [done|congruence|]. intros t Ht Hg. rewrite S5. by apply H3.
Qed.

Lemma record_place_ok g t i : placed_plan g → t ∈ U → is_given ts t = false → index_of (hash_set g) t = Some i →
  record_place alloc_size ts g t i = Ok (record_of g t).
Proof.
  intros [H1 H2 H3] Ht Hg Hi. unfold record_place, record_of. rewrite (hn_get_ok U g t i H1 Hi), bind_Ok.
  rewrite (buft_ok BF g _ H2) by by apply H3. rewrite bind_Ok. by rewrite Hg.
Qed.

Lemma record_tensor_ok g t : placed_plan g → t ∈ U → okP (record_tensor alloc_size ts g t) (λ r, same_nodes U g r.1 ∧ r.2 = record_of g t).
Proof.
  intros Hp Ht. unfold record_tensor. destruct (is_given ts t) eqn:Hg.
  { cbn. split; [apply same_nodes_refl, Hp|]. unfold record_of. by rewrite Hg. }
  eapply okP_bind; [apply (hash_get_ok (λ _, ts 0%Z) alloc_size U g t HU (pp_wf _ Hp) Ht)|]. intros [g' i] [S Hi].
  rewrite (record_place_ok g' t i) by (done || by eapply placed_same). rewrite bind_Ok. cbn. split; [done|by apply record_of_same].
Qed.

Lemma record_srcs_ok g g0 l acc : placed_plan g0 → same_nodes U g0 g → (∀ t, Some t ∈ l → t ∈ U) →
  okP (foldM (record_src alloc_size ts) (g, acc) l) (λ r, same_nodes U g0 r.1 ∧ r.2 = acc ++ (src_record g0 <$> l)).
Proof.
  revert g acc. induction l as [|o l IH]; intros g acc Hp Hs Hl; [cbn; by rewrite app_nil_r|]. cbn [foldM].
  assert (okP (record_src alloc_size ts (g, acc) o) (λ r, same_nodes U g0 r.1 ∧ r.2 = acc ++ [src_record g0 o])) as Ho.
  { destruct o as [t|]; [|done]. unfold record_src. cbn [fst snd].
    eapply okP_bind; [apply record_tensor_ok; [by eapply placed_same|apply Hl; left]|]. intros r [S ->]. cbn. split; [by eapply same_nodes_trans|].
    by rewrite (record_of_same _ _ _ Hs). }
  eapply okP_bind; [exact Ho|]. intros [g1 acc1] [S E]. cbn [fst snd] in *. subst acc1.
  eapply okP_mono; [apply (IH g1); [done|done|intros; apply Hl; by right]|]. intros r [S' ->]. split; [done|]. by rewrite <- app_assoc.
Qed.

Lemma elem_src_array a t : Some t ∈ src_array a → t ∈ omap id (t_src a).
Proof.
  unfold src_array. intros H. apply elem_of_take in H as (i & H & _). apply list_elem_of_lookup_2, elem_of_app in H as [H|H]; [|by apply elem_of_replicate in H as [? _]].
  apply list_elem_of_omap. by exists (Some t).
Qed.

Lemma record_nodes_ok g0 nodes l0 : placed_plan g0 → (∀ x, x ∈ nodes → x ∈ U) → (∀ x t, x ∈ nodes → t ∈ sources ts x → t ∈ U) → length nodes ≤ length l0 →
  okP (foldM (record_node alloc_size ts) (g0, l0) (enum nodes)) (λ r, same_nodes U g0 r.1 ∧ length r.2 = length l0 ∧
    ∀ i x, nodes !! i = Some x → r.2 !! i = Some (NodeAlloc (record_of g0 x) (src_record g0 <$> src_array (ts x)))).
Proof.
  intros Hp Hn Hs Hl. eapply okP_mono; [apply (okP_enum _ (λ n r, same_nodes U g0 r.1 ∧ length r.2 = length l0 ∧
    ∀ i x, i < n → nodes !! i = Some x → r.2 !! i = Some (NodeAlloc (record_of g0 x) (src_record g0 <$> src_array (ts x)))))|].
  - split_and!; [apply same_nodes_refl, Hp|done|intros; lia].
  - intros i x [g l] Hi (S & Hlen & Hdone). cbn [fst snd] in *. pose proof (list_elem_of_lookup_2 _ _ _ Hi) as Hx. unfold record_node. cbn [fst snd].
    eapply okP_bind; [apply record_tensor_ok; [by eapply placed_same|by apply Hn]|]. intros d [Sd Ed].
    eapply okP_bind; [apply (record_srcs_ok d.1 g0); [done|by eapply same_nodes_trans|]|].
    { intros t Ht. apply (Hs x); [done|]. by apply elem_src_array. }
    intros s [Ss Es]. cbn [app] in Es. pose proof (lookup_lt_Some _ _ _ Hi). rewrite vset_ok, bind_Ok by lia. cbn. split_and!; [done|by rewrite length_insert|].
    intros j y Hj Hy. destruct (decide (j = i)) as [->|Hne].
    + simplify_eq. rewrite list_lookup_insert_eq by lia. by rewrite Ed, Es, (record_of_same _ _ _ S).
    + rewrite list_lookup_insert_ne by done. apply Hdone; [lia|done].
  - intros r (S & Hlen & Hdone). split_and!; [done|done|]. intros i x Hi. apply Hdone; [by eapply lookup_lt_Some|done].
Qed.

Lemma record_leafs_ok g0 leafs l0 : placed_plan g0 → (∀ x, x ∈ leafs → x ∈ U) → length leafs ≤ length l0 →
  okP (foldM (record_leaf alloc_size ts) (g0, l0) (enum leafs)) (λ r, same_nodes U g0 r.1 ∧ length r.2 = length l0 ∧
    ∀ i x, leafs !! i = Some x → r.2 !! i = Some (record_of g0 x)).
Proof.
  intros Hp Hn Hl. eapply okP_mono; [apply (okP_enum _ (λ n r, same_nodes U g0 r.1 ∧ length r.2 = length l0 ∧
    ∀ i x, i < n → leafs !! i = Some x → r.2 !! i = Some (record_of g0 x)))|].
  - split_and!; [apply same_nodes_refl, Hp|done|intros; lia].
  - intros i x [g l] Hi (S & Hlen & Hdone). cbn [fst snd] in *. pose proof (list_elem_of_lookup_2 _ _ _ Hi) as Hx. unfold record_leaf. cbn [fst snd].
    eapply okP_bind; [apply (hash_get_ok (λ _, ts 0%Z) alloc_size U g x HU (sn_wf _ _ _ S) (Hn x Hx))|]. intros [g1 j] [S1 Hj].
    assert (S01 : same_nodes U g0 g1) by by eapply same_nodes_trans.
    eapply (okP_bind _ _ (λ d, d = record_of g0 x)).
    { destruct (is_given ts x) eqn:Hg; [cbn; unfold record_of; by rewrite Hg|].
      rewrite (record_place_ok g1 x j) by (eauto || by eapply placed_same). cbn. by apply record_of_same. }
    intros d ->. pose proof (lookup_lt_Some _ _ _ Hi). rewrite vset_ok, bind_Ok by lia. cbn. split_and!; [done|by rewrite length_insert|].
    intros k y Hk Hy. destruct (decide (k = i)) as [->|Hne].
    + simplify_eq. by rewrite list_lookup_insert_eq by lia.
    + rewrite list_lookup_insert_ne by done. apply Hdone; [lia|done].
  - intros r (S & Hlen & Hdone). split_and!; [done|done|]. intros i x Hi. apply Hdone; [by eapply lookup_lt_Some|done].
Qed.
End record.

Lemma grown_length {A} (l : list A) old n zero : old ≤ length l → n ≤ length (grown l old n zero).
Proof. intros H. unfold grown. case_decide; [by rewrite length_replicate|lia]. Qed.

(** ** Planning *)

Section plan.
  Variable alloc_size : Z → ggml_tensor → Z.
  Variable keys_mem : nat → list Z.
  Hypothesis Hkeys : ∀ n, length (keys_mem n) = n.
  Variable BF : list Z.
  Variable BT : list nat.
  Variable AL : nat → Z.
  Variable NT : nat.

(** the planner between two graphs *)
Record plan_base (g : ggml_gallocr ggml_hash_set) : Prop := {
  pb_bufts : bufts g = BF;
  pb_ids : buf_tallocs g = BT;
  pb_table : hs_size (hash_set g) = 0 ∨ hs_ok (hash_set g);
  pb_len : length (tallocs g) = NT;
  pb_tallocs : ∀ k a, tallocs g !! k = Some a → ta_alignment a = AL k ∧ ∃ live, dyn_ok a live }.

Lemma init_table_ok g n : plan_base g → (0 < n)%Z →
  okP (init_table keys_mem g n) (λ g', plan_base g' ∧ hs_ok (hash_set g') ∧ (n ≤ Z.of_nat (hs_size (hash_set g')))%Z).
Proof.
  intros [H1 H2 H3 H4 H5] Hn. unfold init_table. destruct (decide (Z.of_nat (hs_size (hash_set g)) < n)%Z) as [Hlt|Hge].
  - eapply okP_bind; [by apply (hash_set_new_ok n keys_mem); [lia|]|]. intros h (Hok & _ & Hsz). cbn. split; [|done]. split; cbn; try done. by right.
  - cbn. destruct H3 as [E|Hok]; [lia|]. split_and!; [by split; auto|done|lia].
Qed.

Lemma reset_tallocs_ok g : plan_base g → (∀ k, k ∈ BT ↔ k < NT) →
  okP (reset_tallocs g) (λ g', bufts g' = BF ∧ buf_tallocs g' = BT ∧ hash_set g' = hash_set g ∧ tallocs_ok AL NT true 0 (λ _, []) (tallocs g')).
Proof.
  intros [H1 H2 H3 H4 H5] HBT. unfold reset_tallocs. rewrite H2.
  eapply okP_bind; [apply (okP_foldM _ (λ pre l, length l = NT ∧ ∀ k a, tallocs g !! k = Some a → l !! k = Some (if decide (k ∈ pre) then ggml_dyn_tallocr_reset a else a)))|].
  - split; [done|]. intros k a Hk. by rewrite decide_False by apply not_elem_of_nil.
  - intros pre k post l Hs [Hl Hl']. assert (Hk : k < NT) by (apply HBT; rewrite Hs; apply elem_of_app; right; left).
    destruct (lookup_lt_is_Some_2 (tallocs g) k) as [a Ha]; [lia|]. rewrite (vget_ok _ _ _ (Hl' k a Ha)), bind_Ok, vset_ok by lia. cbn.
    split; [by rewrite length_insert|]. intros j b Hj. destruct (decide (j = k)) as [->|Hne].
    + simplify_eq. rewrite list_lookup_insert_eq by lia. rewrite (decide_True (P := k ∈ pre ++ [k])) by (apply elem_of_app; right; left). by case_decide.
    + rewrite list_lookup_insert_ne by done. rewrite (Hl' j b Hj). destruct (decide (j ∈ pre)); [by rewrite (decide_True (P := j ∈ pre ++ [k])) by (apply elem_of_app; by left)|].
      by rewrite (decide_False (P := j ∈ pre ++ [k])) by (rewrite elem_of_app, list_elem_of_singleton; tauto).
  - intros l [Hl Hl']. cbn. split_and!; [done|done|done|].
    assert (∀ k a, l !! k = Some a → ∃ b, tallocs g !! k = Some b ∧ a = ggml_dyn_tallocr_reset b) as Hr.
    { intros k a Hk. destruct (lookup_lt_is_Some_2 (tallocs g) k) as [b Hb]; [apply lookup_lt_Some in Hk; lia|]. exists b. split; [done|].
      rewrite (Hl' k b Hb), decide_True in Hk by (apply HBT; apply lookup_lt_Some in Hb; lia). by injection Hk. }
    split; [done|..].
    + intros k a Hk. destruct (Hr k a Hk) as (b & Hb & ->). by apply (H5 k b).
    + intros k a Hk. destruct (Hr k a Hk) as (b & Hb & ->). destruct (H5 k b Hb) as (_ & live & Hd). by apply (dyn_reset_ok b live).
    + intros _. split; [done|]. intros k a Hk. destruct (Hr k a Hk) as (b & Hb & ->). destruct (H5 k b Hb) as (_ & live & Hd).
      split; [by apply (dyn_reset_ok b live)|]. intros ck Hck. by apply not_elem_of_nil in Hck.
Qed.

(** a graph and sizes for which the planner succeeds *)
Record plan_room (ts : Z → ggml_tensor) (nodes leafs : list Z) (sz : Z → Z) : Prop := {
  pr_pos : ∀ b t, t ∈ leafs ++ nodes → (0 < alloc_size b (ts t))%Z;
  pr_layout : ∀ b t t', t ∈ leafs ++ nodes → t' ∈ leafs ++ nodes → same_layout (ts t) (ts t') = true → (alloc_size b (ts t) ≤ alloc_size b (ts t'))%Z;
  pr_sz : ∀ id t, good_id BF id → t ∈ leafs ++ nodes → (psize ts alloc_size BF BT AL id t ≤ sz t)%Z;
  pr_roomy : roomy ts (leafs ++ nodes) nodes leafs sz }.

(** tensors with a buffer have data *)
Definition no_pending (ts : Z → ggml_tensor) (U : list Z) : Prop := ∀ t, t ∈ U → t_view_src (ts t) = None → t_data (ts t) = 0%Z → t_buffer (ts t) = 0%Z.

Lemma given_managed ts U t : no_pending ts U → t ∈ U → is_given ts t = false ↔ managed ts t.
Proof.
  intros Hx Ht. unfold is_given, is_view, managed. rewrite orb_false_iff, !bool_decide_eq_false. split.
  - intros [H1 H2]. assert (t_view_src (ts t) = None) as Hv by (destruct (t_view_src (ts t)); [by destruct H1|done]). assert (t_data (ts t) = 0%Z) by lia. split_and!; [done|by apply Hx|done].
  - intros (H1 & H2 & H3). rewrite H1, H3. split; [by intros []|lia].
Qed.

Lemma plan_ok_room ts nodes leafs node_ids leaf_ids sz g : plan_base g → (∀ k, k ∈ BT ↔ k < NT) → leafs ++ nodes ≠ [] →
  plan_input ts alloc_size BF BT AL NT nodes leafs node_ids leaf_ids → plan_room ts nodes leafs sz → no_pending ts (leafs ++ nodes) →
  okP (g ← init_table keys_mem g (margin (Z.of_nat (length nodes + length leafs))); g ← reset_tallocs g; ggml_gallocr_alloc_graph_impl ts alloc_size g (Graph nodes leafs) node_ids leaf_ids)
    (λ g', plan_base g' ∧ plan_good ts alloc_size BF BT AL nodes leafs g' ∧ placed_plan ts BF (leafs ++ nodes) g').
Proof.
  intros Hb HBT Hne Hin [R1 R2 R3 R4] Hx. pose proof Hin as [H1 H2 H3 H4 H5 H6]. set (U := leafs ++ nodes) in *.
  assert (Hlen : (Z.of_nat (length nodes + length leafs) = Z.of_nat (length U))%Z) by (unfold U; rewrite length_app; lia).
  assert (HU : 0 < length U) by (destruct U; [done|cbn; lia]). rewrite Hlen.
  assert (Hm : (Z.of_nat (length U) ≤ margin (Z.of_nat (length U)))%Z) by (unfold margin; pose proof (Z.div_pos (Z.of_nat (length U)) 4); lia).
  eapply okP_bind; [apply init_table_ok; [done|lia]|]. intros g1 (Hb1 & Hok1 & Hsz1).
  eapply okP_bind; [by apply reset_tallocs_ok|]. intros g2 (E1 & E2 & E3 & Ht2).
  assert (ready U BF BT AL NT true g2) as Hr by (split; rewrite ?E3; [exact Hok1|cbn; lia|done|done|done]).
  eapply okP_resP; [eapply resP_mono; [apply (alloc_graph_st ts alloc_size U BF BT AL NT true H1 H3 H4 (λ _, R1) (λ _, R2) nodes leafs sz (λ _, R3) H2 g2 node_ids leaf_ids (λ _, R4) Hr H5 H6)|intros e He; exact He|]|].
  - intros g' (born & Hborn & Hst). pose proof (st_plan _ _ _ _ _ _ _ _ _ _ _ _ _ _ _ _ Hst) as [P1 P2 P3 P4 P5].
    pose proof (plan_good_of ts alloc_size BF BT AL NT nodes leafs node_ids leaf_ids true sz born g' Hin (λ _, R1) (λ _, R2) (λ _, R3) Hborn Hst) as Hg.
    split; [|split; [done|]].
    + split; [done|done|right; apply (tw_ok _ _ P1)|apply (ts_len _ _ _ _ _ _ P4)|]. intros k a Hk. split; [by apply (ts_al _ _ _ _ _ _ P4)|].
      eexists. by apply (ts_dyn _ _ _ _ _ _ P4).
    + split; [done|done|]. intros t Ht Hgv. apply (given_managed ts U t Hx Ht) in Hgv. by destruct (proj1 Hg t Ht Hgv).
  - by intros e [? _].
Qed.
End plan.

(** ** The buffers *)

Section buffers.
  Variable alloc_buffer : nat → Z → Z → option backend_buffer.
  Variable BF : list Z.
  Variable BT : list nat.
  Variable g : ggml_gallocr ggml_hash_set.
  Hypothesis Hbufts : bufts g = BF.
  Hypothesis Hids : buf_tallocs g = BT.
  Hypothesis HBT : length BT = length BF ∧ ∀ i k, BT !! i = Some k → k < length (tallocs g).
  Hypothesis Htypes : ∀ i j k, BT !! i = Some k → BT !! j = Some k → BF !! i = BF !! j.

Definition buffer_ok (b : backend_buffer) : Prop := (0 < bb_base b)%Z ∧ (0 ≤ bb_size b)%Z ∧ bb_ptr b ≠ 0%Z ∧ (bb_base b + bb_size b ≤ SIZE_MAX)%Z.
(** a back end returns a buffer of at least the size that it was asked for, or nothing *)
Definition backend_ok : Prop := ∀ n b s x, alloc_buffer n b s = Some x → (s ≤ bb_size x)%Z ∧ buffer_ok x.
(** after [n] calls the last of [n'] was refused, for a chunk of an allocator *)
Definition chunk_refused (n n' : nat) (buft : Z) (a : ggml_dyn_tallocr) : Prop :=
  ∃ m ck, n ≤ m ∧ n' = S m ∧ ck ∈ ta_chunks a ∧ alloc_buffer m buft (max_size ck) = None.
Definition backend_refused (n n' : nat) : Prop :=
  ∃ i k b a, BF !! i = Some b ∧ BT !! i = Some k ∧ tallocs g !! k = Some a ∧ chunk_refused n n' b a.
  Hypothesis Hback : backend_ok.

Definition vb_ok (vb : vbuffer) : Prop := ∀ c b, vb_chunks vb !! c = Some (Some b) → buffer_ok b.
Definition vb_fits (vb : vbuffer) (a : ggml_dyn_tallocr) : Prop := ∀ c, (ggml_dyn_tallocr_max_size a c ≤ ggml_vbuffer_chunk_size vb c)%Z.

(** the pointers at the positions [V] lead to buffers that were not freed, two of them to the same one exactly if they
    belong to the same allocator, and nothing else is left in the heap *)
Record handles (V : nat → Prop) (bs : list (option nat)) (heap : list (option vbuffer)) : Prop := {
  hd_live : ∀ i p, V i → bs !! i = Some (Some p) → ∃ vb, heap !! p = Some (Some vb) ∧ vb_ok vb ∧ BF !! i = Some (vb_buft vb);
  hd_ref : ∀ p vb, heap !! p = Some (Some vb) → ∃ i, V i ∧ bs !! i = Some (Some p);
  hd_share : ∀ i j, V i → V j → i < length BF → BT !! i = BT !! j → bs !! i = bs !! j;
  hd_apart : ∀ i j p, V i → V j → bs !! i = Some (Some p) → bs !! j = Some (Some p) → BT !! i = BT !! j }.

(** the positions that are in order before the [i]-th turn: those before, and those of allocators not met yet *)
Definition settled (i j : nat) : Prop := j < i ∨ ∀ j', j' < i → BT !! j' ≠ BT !! j.

Definition fitted (bs : list (option nat)) (heap : list (option vbuffer)) (j : nat) : Prop :=
  ∃ p vb k a, bs !! j = Some (Some p) ∧ heap !! p = Some (Some vb) ∧ BT !! j = Some k ∧ tallocs g !! k = Some a ∧ vb_fits vb a.

Record refitting (i : nat) (bs : list (option nat)) (heap : list (option vbuffer)) : Prop := {
  rf_length : length bs = length BF;
  rf_handles : handles (settled i) bs heap;
  rf_fitted : ∀ j, j < i → fitted bs heap j }.

Lemma alloc_chunks_ok buft cks n l : (∀ c ck, cks !! c = Some ck → (0 ≤ max_size ck)%Z) →
  let st := foldl (alloc_chunk alloc_buffer buft) (n, Some l) cks in n ≤ st.1 ∧
  match st.2 with
  | Some l' => ∃ new, l' = l ++ (Some <$> new) ∧ Forall2 (λ b ck, (max_size ck ≤ bb_size b)%Z ∧ buffer_ok b) new cks
  | None => ∃ m ck, n ≤ m ∧ st.1 = S m ∧ ck ∈ cks ∧ alloc_buffer m buft (max_size ck) = None
  end.
Proof.
  revert n l. induction cks as [|ck cks IH]; intros n l Hpos; [split; [done|]; exists []; cbn; by rewrite app_nil_r|]. cbv zeta. cbn [foldl].
  change (alloc_chunk alloc_buffer buft (n, Some l) ck) with (S n, match alloc_buffer n buft (max_size ck) with Some b => Some (l ++ [Some b]) | None => None end).
  assert (Hrest : ∀ c ck, cks !! c = Some ck → (0 ≤ max_size ck)%Z) by (intros c; apply (Hpos (S c))).
  destruct (alloc_buffer n buft (max_size ck)) as [b|] eqn:Hb.
  - specialize (IH (S n) (l ++ [Some b]) Hrest). cbv zeta in IH. destruct IH as [Hn IH]. split; [lia|]. destruct (foldl _ _ _) as [n' [l'|]]; cbn [fst snd] in *.
    + destruct IH as (new & -> & HF). exists (b :: new). split; [by rewrite <- app_assoc|]. constructor; [by apply (Hback _ _ _ _ Hb)|done].
    + destruct IH as (m & ck' & I1 & I2 & I3 & I4). exists m, ck'. split_and!; [lia|done|by right|done].
  - assert (foldl (alloc_chunk alloc_buffer buft) (S n, None) cks = (S n, None)) as ->.
    { clear. induction cks as [|ck cks IH]; [done|]. cbn [foldl]. unfold alloc_chunk at 2. cbn [snd]. apply IH. }
    cbn [fst snd]. split; [lia|]. exists n, ck. split_and!; [done|done|left|done].
Qed.

Lemma chunk_size_app (l : list backend_buffer) n c : (match ((Some <$> l) ++ replicate n None) !! c with Some (Some b) => bb_size b | _ => 0%Z end) =
  (match l !! c with Some b => bb_size b | None => 0%Z end).
Proof.
  destruct (decide (c < length l)) as [Hc|Hc].
  - rewrite lookup_app_l by (by rewrite length_fmap). rewrite list_lookup_fmap. by destruct (l !! c).
  - rewrite (lookup_ge_None_2 l) by lia. rewrite lookup_app_r by (rewrite length_fmap; lia). destruct (replicate n None !! _) eqn:E; [|done].
    by apply lookup_replicate in E as [-> _].
Qed.

Lemma vbuffer_alloc_ok n buft a : (∀ c ck, ta_chunks a !! c = Some ck → (0 ≤ max_size ck)%Z) →
  let st := ggml_vbuffer_alloc alloc_buffer n buft a in n ≤ st.1 ∧
  match st.2 with
  | Some vb => vb_ok vb ∧ vb_buft vb = buft ∧ vb_fits vb a
  | None => chunk_refused n st.1 buft a
  end.
Proof.
  intros Hpos. unfold ggml_vbuffer_alloc. pose proof (alloc_chunks_ok buft (ta_chunks a) n [] Hpos) as H. destruct (foldl _ _ _) as [m o]. cbv zeta in *. cbn [fst snd] in *.
  destruct H as [Hm H]. split; [done|]. destruct o as [l|]; [|exact H]. destruct H as (new & -> & HF). cbn [app mbind option_bind]. split_and!; [| done|].
  - intros c b Hb. cbn in Hb. apply lookup_app_Some in Hb as [Hb|[_ Hb]]; [|by apply lookup_replicate in Hb as [? _]].
    rewrite list_lookup_fmap in Hb. destruct (new !! c) as [b'|] eqn:E; [|done]. injection Hb as ->. by destruct (Forall2_lookup_l _ _ _ _ _ HF E) as (ck & _ & _ & ?).
  - intros c. unfold ggml_vbuffer_chunk_size. cbn [vb_chunks]. rewrite chunk_size_app. unfold ggml_dyn_tallocr_max_size.
    destruct (ta_chunks a !! c) as [ck|] eqn:E.
    + by destruct (Forall2_lookup_r _ _ _ _ _ HF E) as (b & -> & ? & _).
    + apply lookup_ge_None_1 in E. rewrite <- (Forall2_length _ _ _ HF) in E. by rewrite (lookup_ge_None_2 new).
Qed.

(** the pointer that the code takes over, or the old one *)
Lemma shared_buffer_ok i k bs heap : refitting i bs heap → BT !! i = Some k → okP (shared_buffer g bs i) (λ bs',
  (bs' = bs ∧ ∀ j, j < i → BT !! j ≠ Some k) ∨ (∃ j p, j < i ∧ BT !! j = Some k ∧ bs !! j = Some p ∧ bs' = <[i := p]> bs)).
Proof.
  intros [H1 H2 H3] Hk. unfold shared_buffer. rewrite Hids, (vget_ok _ _ _ Hk), bind_Ok. pose proof (lookup_lt_Some _ _ _ Hk).
  destruct (list_find (λ k', k' = k) (take i BT)) as [[j x]|] eqn:E.
  - apply list_find_Some in E as (Hj & -> & _). apply lookup_take_Some in Hj as [Hj Hji]. destruct (lookup_lt_is_Some_2 bs j) as [p Hp]; [lia|].
    rewrite (vget_ok _ _ _ Hp), bind_Ok, vset_ok by lia. cbn. right. by exists j, p.
  - cbn. left. split; [done|]. intros j Hj Hjk. apply list_find_None in E. rewrite Forall_forall in E. apply (E k); [|done].
    apply (list_elem_of_lookup_2 _ j). by rewrite lookup_take_lt.
Qed.
End buffers.

(** one turn of the loop over the buffers *)
Section realloc.
  Variable alloc_buffer : nat → Z → Z → option backend_buffer.
  Variable BF : list Z.
  Variable BT : list nat.
  Variable g : ggml_gallocr ggml_hash_set.
  Hypothesis Hbufts : bufts g = BF.
  Hypothesis Hids : buf_tallocs g = BT.
  Hypothesis HBT : length BT = length BF ∧ ∀ i k, BT !! i = Some k → k < length (tallocs g).
  Hypothesis Htypes : ∀ i j k, BT !! i = Some k → BT !! j = Some k → BF !! i = BF !! j.
  Hypothesis Hback : backend_ok alloc_buffer.
  Hypothesis Hmax : ∀ k a c ck, tallocs g !! k = Some a → ta_chunks a !! c = Some ck → (0 ≤ max_size ck)%Z.

Abbreviation settled := (settled BT).
Abbreviation fitted := (fitted BT g).
Abbreviation refitting := (refitting BF BT g).
Abbreviation handles := (handles BF BT).

Lemma max_size_pos k a c : tallocs g !! k = Some a → (0 ≤ ggml_dyn_tallocr_max_size a c)%Z.
Proof. intros Hk. unfold ggml_dyn_tallocr_max_size. destruct (ta_chunks a !! c) as [ck|] eqn:E; [by eapply Hmax|done]. Qed.

Lemma chunk_size_pos vb c : vb_ok vb → (0 ≤ ggml_vbuffer_chunk_size vb c)%Z.
Proof. intros H. unfold ggml_vbuffer_chunk_size. destruct (vb_chunks vb !! c) as [[b|]|] eqn:E; [|done..]. by destruct (H c b E) as (_ & ? & _). Qed.

Lemma buffer_small_ok heap p vb a : heap !! p = Some (Some vb) → vb_ok vb →
  ∃ b, buffer_small heap (Some p) a = Ok b ∧ (b = false ↔ vb_fits vb a).
Proof.
  intros Hp Hvb. unfold buffer_small, vb_get. rewrite Hp, bind_Ok. eexists. split; [done|]. rewrite <- not_true_iff_false, existsb_exists. split.
  - intros H c. destruct (decide (c < length (ta_chunks a))) as [Hc|Hc].
    + apply Z.nlt_ge. intros Hlt. apply H. exists c. split; [apply list_elem_of_In, elem_of_seq; lia|]. by apply bool_decide_eq_true_2.
    + unfold ggml_dyn_tallocr_max_size. rewrite (lookup_ge_None_2 (ta_chunks a)) by lia. by apply chunk_size_pos.
  - intros H (c & _ & Hlt%bool_decide_eq_true_1). specialize (H c). lia.
Qed.

(** the buffer of the allocator was found at an earlier position *)
Lemma refit_shared i j k q bs heap : refitting i bs heap → BT !! i = Some k → j < i → BT !! j = Some k → bs !! j = Some (Some q) →
  refitting (S i) (<[i := Some q]> bs) heap.
Proof.
  intros [H1 [L R S A] F] Hk Hj Hjk Hq. pose proof (lookup_lt_Some _ _ _ Hk) as Hi.
  assert (Hlook : ∀ x, (<[i := Some q]> bs) !! x = bs !! (if decide (x = i) then j else x)).
  { intros x. case_decide as E; [subst x; by rewrite list_lookup_insert_eq by lia|by rewrite list_lookup_insert_ne]. }
  assert (Hset : ∀ x, settled (Datatypes.S i) x → settled i (if decide (x = i) then j else x)).
  { intros x Hx. case_decide as E; [by left|]. destruct Hx as [Hx|Hx]; [left; lia|right; intros j' ?; apply Hx; lia]. }
  assert (Hbt : ∀ x, BT !! x = BT !! (if decide (x = i) then j else x)) by (intros x; case_decide as E; [subst x; congruence|done]).
  assert (Hbf : ∀ x, BF !! x = BF !! (if decide (x = i) then j else x)) by (intros x; case_decide as E; [subst x; by apply (Htypes i j k)|done]).
  split; [by rewrite length_insert|split|].
  - intros x p Hx. rewrite Hlook, Hbf. by apply L, Hset.
  - intros p vb Hp. destruct (R p vb Hp) as (x & Hx & Hxp). exists x. destruct (decide (x = i)) as [->|Hne].
    { destruct Hx as [Hx|Hx]; [lia|]. destruct (Hx j Hj). congruence. }
    split; [|by rewrite Hlook, decide_False]. destruct Hx as [Hx|Hx]; [left; lia|]. right. intros j' Hj'.
    destruct (decide (j' = i)) as [->|]; [|apply Hx; lia]. rewrite Hk, <- Hjk. by apply Hx.
  - intros x y Hx Hy Hxl. rewrite !Hlook, (Hbt x), (Hbt y). apply S; [by apply Hset..|]. case_decide; lia.
  - intros x y p Hx Hy. rewrite !Hlook, (Hbt x), (Hbt y). by apply A; apply Hset.
  - intros x Hx. unfold fitted. rewrite Hlook, (Hbt x). apply F. case_decide; lia.
Qed.

Section own.
  Variable i k : nat.
  Variable bs : list (option nat).
  Variable heap : list (option vbuffer).
  Hypothesis Hr : refitting i bs heap.
  Hypothesis Hk : BT !! i = Some k.
  Hypothesis Hnew : ∀ j, j < i → BT !! j ≠ Some k.

Lemma own_settled : settled i i.
Proof. right. intros j Hj. rewrite Hk. by apply Hnew. Qed.

Lemma later_settled x : settled (S i) x → x ≠ i → settled i x ∧ BT !! x ≠ BT !! i.
Proof.
  intros [Hx|Hx] Hne; rewrite Hk.
  - split; [left; lia|apply Hnew; lia].
  - split; [right; intros; apply Hx; lia|]. intros E. apply (Hx i); [lia|congruence].
Qed.

(** a buffer that is still referenced is so from a later settled position, or from [i] *)
Lemma still_referenced x : settled i x → x < length BF → x = i ∨ bs !! x = bs !! i ∨ settled (S i) x ∧ x ≠ i.
Proof.
  intros Hx Hlt. destruct (decide (x = i)) as [->|Hne]; [by left|right]. destruct (decide (BT !! x = BT !! i)) as [E|E].
  - left. apply (hd_share _ _ _ _ _ (rf_handles _ _ _ _ _ _ Hr)); [done|apply own_settled|done|done].
  - right. split; [|done]. destruct Hx as [Hx|Hx]; [left; lia|]. right. intros j Hj. destruct (decide (j = i)) as [->|]; [congruence|apply Hx; lia].
Qed.

(** the buffer is large enough *)
Lemma refit_kept q vb a : bs !! i = Some (Some q) → heap !! q = Some (Some vb) → tallocs g !! k = Some a → vb_fits vb a → refitting (S i) bs heap.
Proof.
  intros Hq Hvb Ha Hfit. pose proof Hr as [H1 [L R S A] F]. pose proof own_settled as Hown.
  assert (Hset : ∀ x, settled (Datatypes.S i) x → settled i x) by (intros x Hx; destruct (decide (x = i)) as [->|Hne]; [done|by apply later_settled]).
  split; [done|split|].
  - intros x p Hx. by apply L, Hset.
  - intros p vb' Hp. destruct (R p vb' Hp) as (x & Hx & Hxp). destruct (still_referenced x Hx) as [->|[E|[Hs _]]].
    + apply lookup_lt_Some in Hxp. lia.
    + exists i. split; [left; lia|done].
    + exists i. split; [left; lia|congruence].
    + by exists x.
  - intros x y Hx Hy. apply S; by apply Hset.
  - intros x y p Hx Hy. apply A; by apply Hset.
  - intros x Hx. destruct (decide (x = i)) as [->|Hne]; [by exists q, vb, k, a|apply F; lia].
Qed.

(** the buffer is replaced by a new one *)
Lemma refit_new heap1 vb a : (∀ p v, heap1 !! p = Some (Some v) ↔ heap !! p = Some (Some v) ∧ bs !! i ≠ Some (Some p)) → length heap1 = length heap →
  tallocs g !! k = Some a → vb_ok vb → vb_fits vb a → BF !! i = Some (vb_buft vb) →
  refitting (S i) (<[i := Some (length heap1)]> bs) (heap1 ++ [Some vb]).
Proof.
  intros Hheap Hlen Ha Hok Hfit Hbuft. pose proof Hr as [H1 [L R S A] F]. pose proof own_settled as Hown. pose proof (lookup_lt_Some _ _ _ Hbuft) as Hi.
  assert (Hnewp : (heap1 ++ [Some vb]) !! length heap1 = Some (Some vb)) by by apply list_lookup_middle.
  assert (Hold : ∀ x p, x ≠ i → settled i x → BT !! x ≠ BT !! i → bs !! x = Some (Some p) → ∃ v, heap !! p = Some (Some v) ∧ (heap1 ++ [Some vb]) !! p = Some (Some v) ∧ p < length heap1 ∧ vb_ok v ∧ BF !! x = Some (vb_buft v)).
  { intros x p Hne Hx Hb Hp. destruct (L x p Hx Hp) as (v & Hv & Hvok & Hvb). exists v. assert (heap1 !! p = Some (Some v)) as Hv1.
    { apply Hheap. split; [done|]. intros E. apply Hb. by apply (A x i p). }
    pose proof (lookup_lt_Some _ _ _ Hv1). split_and!; [done|by apply lookup_app_l_Some|done|done|done]. }
  split; [by rewrite length_insert|split|].
  - intros x p Hx. destruct (decide (x = i)) as [->|Hne].
    + rewrite list_lookup_insert_eq by lia. intros [= <-]. by exists vb.
    + rewrite list_lookup_insert_ne by done. intros Hp. destruct (later_settled x Hx Hne) as [Hx' Hb]. destruct (Hold x p Hne Hx' Hb Hp) as (v & _ & ? & _ & ?). by exists v.
  - intros p v Hv. destruct (decide (p = length heap1)) as [->|Hne].
    { exists i. split; [left; lia|]. by rewrite list_lookup_insert_eq by lia. }
    apply lookup_app_Some in Hv as [Hv|[Hge Hv]].
    2: { apply list_lookup_singleton_Some in Hv as [Hz _]. lia. }
    apply Hheap in Hv as [Hv Hnot]. destruct (R p v Hv) as (x & Hx & Hxp). destruct (still_referenced x Hx) as [->|[E|[Hs Hnx]]].
    + apply lookup_lt_Some in Hxp. lia.
    + done.
    + congruence.
    + exists x. split; [done|]. by rewrite list_lookup_insert_ne.
  - intros x y Hx Hy Hxl Hb. destruct (decide (x = i)) as [->|Hnx], (decide (y = i)) as [->|Hny]; [done|..].
    + by destruct (later_settled y Hy Hny).
    + by destruct (later_settled x Hx Hnx).
    + rewrite !list_lookup_insert_ne by done. apply S; [by apply later_settled..|done|done].
  - assert (Hfresh : ∀ x, x ≠ i → settled (Datatypes.S i) x → bs !! x ≠ Some (Some (length heap1))).
    { intros x Hne Hx E. destruct (later_settled x Hx Hne) as [Hx' Hb]. destruct (Hold x _ Hne Hx' Hb E) as (_ & _ & _ & ? & _). lia. }
    intros x y p Hx Hy. destruct (decide (x = i)) as [->|Hnx], (decide (y = i)) as [->|Hny]; [done|..].
    + rewrite list_lookup_insert_eq, list_lookup_insert_ne by (done || lia). intros [= <-] E. by destruct (Hfresh y Hny Hy).
    + rewrite list_lookup_insert_eq, list_lookup_insert_ne by (done || lia). intros E [= <-]. by destruct (Hfresh x Hnx Hx).
    + rewrite !list_lookup_insert_ne by done. by apply A; apply later_settled.
  - intros x Hx. destruct (decide (x = i)) as [->|Hne].
    + exists (length heap1), vb, k, a. by rewrite list_lookup_insert_eq by lia.
    + destruct (F x) as (p & v & k' & a' & F1 & F2 & F3 & F4 & F5); [lia|]. exists p, v, k', a'. rewrite list_lookup_insert_ne by done.
      split_and!; [done| |done|done|done]. assert (Hx' : settled i x) by (left; lia).
      destruct (Hold x p Hne Hx') as (v' & E1 & E2 & _); [rewrite Hk; apply Hnew; lia|done|]. congruence.
Qed.
End own.

Lemma vb_get_ok heap p vb : heap !! p = Some (Some vb) → vb_get heap p = Ok vb.
Proof. intros H. unfold vb_get. by rewrite H. Qed.

(** after a turn either everything up to [i] is in order or a back end has refused a buffer *)
Definition refitted (i : nat) (r : gallocr) (st : gallocr * bool) : Prop :=
  ga_plan st.1 = g ∧ ga_node_allocs st.1 = ga_node_allocs r ∧ ga_n_nodes st.1 = ga_n_nodes r ∧ ga_leaf_allocs st.1 = ga_leaf_allocs r ∧ ga_n_leafs st.1 = ga_n_leafs r ∧
  ga_calls r ≤ ga_calls st.1 ∧
  if st.2 then refitting i (ga_buffers st.1) (ga_heap st.1) else backend_refused alloc_buffer BF BT g (ga_calls r) (ga_calls st.1).

Lemma realloc_step i r0 r : refitted i r0 (r, true) → i < length BF → okP (realloc_buffer alloc_buffer false (r, true) i) (refitted (S i) r0).
Proof.
  intros (Hg & E1 & E2 & E3 & E4 & E5 & Hr) Hi. cbn [fst snd] in *. destruct (lookup_lt_is_Some_2 BT i) as [k Hk]; [lia|]. destruct (lookup_lt_is_Some_2 BF i Hi) as [b Hb].
  destruct (lookup_lt_is_Some_2 (tallocs g) k) as [a Ha]; [by apply (proj2 HBT i)|]. pose proof (rf_length _ _ _ _ _ _ Hr) as Hlen.
  unfold realloc_buffer. cbn [negb]. rewrite Hg. eapply okP_bind; [by apply (shared_buffer_ok BF BT g Hids HBT i k _ (ga_heap r))|]. intros bs' [[-> Hnew]|(j & p & Hj & Hjk & Hp & ->)].
  - destruct (lookup_lt_is_Some_2 (ga_buffers r) i) as [p Hp]; [lia|]. rewrite (vget_ok _ _ _ Hp), bind_Ok. rewrite Hids, (vget_ok _ _ _ Hk), bind_Ok, (vget_ok _ _ _ Ha), bind_Ok.
    assert (Hrealloc : ∀ heap1, (∀ p' v, heap1 !! p' = Some (Some v) ↔ ga_heap r !! p' = Some (Some v) ∧ ga_buffers r !! i ≠ Some (Some p')) → length heap1 = length (ga_heap r) →
      okP (b ← vget (bufts g) i; let '(calls, vb) := ggml_vbuffer_alloc alloc_buffer (ga_calls r) b a in
        match vb with
        | Some vb => buffers ← vset (ga_buffers r) i (Some (length heap1)); Ok (with_buffers r buffers (heap1 ++ [Some vb]) calls, true)
        | None => buffers ← vset (ga_buffers r) i None; Ok (with_buffers r buffers heap1 calls, false)
        end) (refitted (S i) r0)).
    { intros heap1 Hh Hhl. rewrite Hbufts, (vget_ok _ _ _ Hb), bind_Ok. pose proof (vbuffer_alloc_ok alloc_buffer BF BT g HBT Hback (ga_calls r) b a (λ c ck, Hmax k a c ck Ha)) as Hal.
      cbv zeta in Hal. destruct (ggml_vbuffer_alloc _ _ _ _) as [calls [vb|]]; cbn [fst snd] in Hal; destruct Hal as [Hcalls Hal]; rewrite vset_ok, bind_Ok by lia; cbn [okP].
      - destruct Hal as (V1 & V2 & V3). unfold refitted. cbn. split_and!; try done; [lia|]. apply (refit_new i k (ga_buffers r) (ga_heap r) Hr Hk Hnew heap1 vb a); try done. by rewrite V2.
      - unfold refitted. cbn. split_and!; try done; [lia|]. destruct Hal as (m & ck & A1 & A2 & A3 & A4). exists i, k, b, a. split_and!; [done|done|done|]. exists m, ck. split_and!; [lia|done|done|done]. }
    destruct p as [q|].
    + destruct (hd_live _ _ _ _ _ (rf_handles _ _ _ _ _ _ Hr) i q (own_settled i k Hk Hnew) Hp) as (vb & Hvb & Hok & Hbuft).
      destruct (buffer_small_ok (ga_heap r) q vb a Hvb Hok) as (small & -> & Hs). rewrite bind_Ok. destruct small.
      * unfold ggml_vbuffer_free. rewrite (vb_get_ok _ _ _ Hvb), bind_Ok, (vset_ok (ga_heap r)), bind_Ok by by eapply lookup_lt_Some. apply Hrealloc; [|by rewrite length_insert].
        intros p' v. rewrite Hp. split.
        -- intros [[_ [? _]]|[Hne H]]%list_lookup_insert_Some; [done|]. split; [done|]. congruence.
        -- intros [H Hne]. rewrite list_lookup_insert_ne; [done|congruence].
      * cbn. unfold refitted. cbn. split_and!; try done. apply (refit_kept i k (ga_buffers r) (ga_heap r) Hr Hk Hnew q vb a); try done. by apply Hs.
    + cbn [buffer_small]. rewrite bind_Ok. unfold ggml_vbuffer_free. rewrite bind_Ok. apply Hrealloc; [|done]. intros p' v. rewrite Hp. split; [done|]. by intros [? _].
  - destruct (rf_fitted _ _ _ _ _ _ Hr j Hj) as (q & vb & k' & a' & F1 & F2 & F3 & F4 & F5).
    assert (p = Some q) as -> by congruence. assert (k' = k) as -> by congruence. assert (a' = a) as -> by congruence.
    rewrite (vget_ok _ i (Some q)), bind_Ok by by rewrite list_lookup_insert_eq by lia. rewrite Hids, (vget_ok _ _ _ Hk), bind_Ok, (vget_ok _ _ _ Ha), bind_Ok.
    destruct (hd_live _ _ _ _ _ (rf_handles _ _ _ _ _ _ Hr) j q (or_introl Hj) F1) as (vb' & Hvb & Hok & _). assert (vb' = vb) as -> by congruence.
    destruct (buffer_small_ok (ga_heap r) q vb a F2 Hok) as (small & -> & Hs). rewrite bind_Ok. assert (small = false) as -> by by apply Hs.
    cbn. unfold refitted. cbn. split_and!; try done. by apply (refit_shared i j k).
Qed.

Lemma realloc_loop r : ga_plan r = g → length (ga_buffers r) = length BF → handles (λ _, True) (ga_buffers r) (ga_heap r) →
  okP (foldM (realloc_buffer alloc_buffer false) (r, true) (seq 0 (length (ga_buffers r)))) (refitted (length BF) r).
Proof.
  intros Hg Hlen Hh. rewrite Hlen. apply (okP_for _ (λ i st, refitted i r st) _ (length BF)).
  - unfold refitted. cbn. split_and!; try done. split; [done| |intros; lia]. destruct Hh as [L R S A].
    split; [by intros i p _; apply L| |by intros i j _ _; apply S|by intros i j p _ _; apply A]. intros p vb Hp. destruct (R p vb Hp) as (i & _ & Hi).
    exists i. split; [|done]. right. intros; lia.
  - intros i [r' ok] Hi Hst. destruct ok; [by apply realloc_step|]. unfold realloc_buffer. cbn. destruct Hst as (? & ? & ? & ? & ? & ? & ?). done.
Qed.
End realloc.

(** ** Reserving *)

(** entering tensors into the table does not change the promises of a plan *)
Section same.
  Variable ts : Z → ggml_tensor.
  Variable alloc_size : Z → ggml_tensor → Z.
  Variable U BF : list Z.
  Variable BT : list nat.
  Variable AL : nat → Z.
  Variable nodes leafs : list Z.
  Variable g g' : ggml_gallocr ggml_hash_set.
  Hypothesis Hs : same_nodes U g g'.

Lemma at_place_same t k c x : at_place ts alloc_size BF BT AL g' t k c x ↔ at_place ts alloc_size BF BT AL g t k c x.
Proof. unfold at_place. by rewrite !(sn_nd _ _ _ Hs). Qed.

Lemma run_same l m m' : (∀ k c x, m' k c x = m k c x) → ∀ k c x, run ts alloc_size BF BT AL g' m' l k c x = run ts alloc_size BF BT AL g m l k c x.
Proof.
  revert m m'. induction l as [|t l IH]; intros m m' Hm k c x; [apply Hm|]. unfold run. cbn. apply IH. intros k' c' x'. unfold write.
  erewrite decide_ext; [|by rewrite at_place_same]. by rewrite Hm.
Qed.

Lemma intact_same m m' t : (∀ k c x, m' k c x = m k c x) → intact ts alloc_size BF BT AL g m t → intact ts alloc_size BF BT AL g' m' t.
Proof. intros Hm H k c x Hx. rewrite Hm. apply H. by apply at_place_same. Qed.

Lemma before_same pre k c x : before ts alloc_size U BF BT AL leafs g' pre k c x = before ts alloc_size U BF BT AL leafs g pre k c x.
Proof. unfold before. apply run_same. by apply run_same. Qed.
End same.

Lemma plan_good_same ts alloc_size BF BT AL nodes leafs g g' : same_nodes (leafs ++ nodes) g g' →
  plan_good ts alloc_size BF BT AL nodes leafs g → plan_good ts alloc_size BF BT AL nodes leafs g'.
Proof.
  intros Hs (H1 & H2 & H3 & H4). split_and!.
  - intros t Ht Hm. rewrite (sn_nd _ _ _ Hs), (sn_tallocs _ _ _ Hs). by apply H1.
  - intros pre x post p Hn Hp Hm. eapply intact_same; [exact Hs|by apply before_same|by eapply H2].
  - intros t Ht Hm Hr. eapply intact_same; [exact Hs|by apply before_same|by apply H3].
  - intros t. by rewrite (sn_nd _ _ _ Hs).
Qed.

Section reserve.
  Variable alloc_size : Z → ggml_tensor → Z.
  Variable alloc_buffer : nat → Z → Z → option backend_buffer.
  Variable keys_mem : nat → list Z.
  Hypothesis Hkeys : ∀ n, length (keys_mem n) = n.
  Hypothesis Hback : backend_ok alloc_buffer.
  Variable BF : list Z.
  Variable BT : list nat.
  Variable AL : nat → Z.
  Variable NT : nat.

(** one allocator for each type of buffer *)
Record types_ok : Prop := {
  ty_len : length BT = length BF;
  ty_all : ∀ k, k ∈ BT ↔ k < NT;
  ty_same : ∀ i j k, BT !! i = Some k → BT !! j = Some k → BF !! i = BF !! j }.

(** a graph allocator between two graphs *)
Record gallocr_ok (r : gallocr) : Prop := {
  ok_plan : plan_base BF BT AL NT (ga_plan r);
  ok_len : length (ga_buffers r) = length BF;
  ok_handles : handles BF BT (λ _, True) (ga_buffers r) (ga_heap r);
  ok_nodes : ga_n_nodes r ≤ length (ga_node_allocs r);
  ok_leafs : ga_n_leafs r ≤ length (ga_leaf_allocs r) }.

(** a graph allocator in which there is memory for a graph *)
Record reserved (ts : Z → ggml_tensor) (nodes leafs : list Z) (r : gallocr) : Prop := {
  rv_good : plan_good ts alloc_size BF BT AL nodes leafs (ga_plan r);
  rv_plan : placed_plan ts BF (leafs ++ nodes) (ga_plan r);
  rv_n : ga_n_nodes r = length nodes ∧ ga_n_leafs r = length leafs;
  rv_nodes : ∀ i x, nodes !! i = Some x → ga_node_allocs r !! i =
    Some (NodeAlloc (record_of alloc_size ts BF (ga_plan r) x) (src_record alloc_size ts BF (ga_plan r) <$> src_array (ts x)));
  rv_leafs : ∀ i x, leafs !! i = Some x → ga_leaf_allocs r !! i = Some (record_of alloc_size ts BF (ga_plan r) x);
  rv_fitted : ∀ j, j < length BF → fitted BT (ga_plan r) (ga_buffers r) (ga_heap r) j }.

(** the last buffer that a back end was asked for was one that the plan needs, and it was refused *)
Definition refused (r r' : gallocr) : Prop := backend_refused alloc_buffer BF BT (ga_plan r') (ga_calls r) (ga_calls r').

Lemma plan_base_same U g g' : plan_base BF BT AL NT g → same_nodes U g g' → plan_base BF BT AL NT g'.
Proof.
  intros [H1 H2 H3 H4 H5] [S1 S2 S3 S4 S5 S6]. split; [congruence|congruence|right; apply (tw_ok _ _ S1)|congruence|by rewrite S4].
Qed.

Lemma base_max_size g k a c ck : plan_base BF BT AL NT g → tallocs g !! k = Some a → ta_chunks a !! c = Some ck → (0 ≤ max_size ck)%Z.
Proof.
  intros Hb Hk Hc. destruct (pb_tallocs _ _ _ _ _ Hb k a Hk) as (_ & live & Hd). destruct (dyn_ok_bounds _ _ Hd ck) as [? _]; [by eapply list_elem_of_lookup_2|lia].
Qed.

Lemma reserve_ok ts nodes leafs node_ids leaf_ids sz r : types_ok → gallocr_ok r → leafs ++ nodes ≠ [] →
  plan_input ts alloc_size BF BT AL NT nodes leafs node_ids leaf_ids → plan_room alloc_size BF BT AL ts nodes leafs sz → no_pending ts (leafs ++ nodes) →
  okP (ggml_gallocr_reserve_n alloc_size alloc_buffer keys_mem ts r (Graph nodes leafs) node_ids leaf_ids) (λ st,
    if st.2 then gallocr_ok st.1 ∧ reserved ts nodes leafs st.1 else refused r st.1).
Proof.
  intros [T1 T2 T3] [O1 O2 O3 O4 O5] Hne Hin Hroom Hx. pose proof Hin as [H1 H2 _ _ _ _]. set (U := leafs ++ nodes) in *.
  unfold ggml_gallocr_reserve_n, ggml_gallocr_reserve_n_impl. cbn [g_nodes g_leafs]. cbv zeta.
  pose proof (plan_ok_room alloc_size keys_mem Hkeys BF BT AL NT ts nodes leafs node_ids leaf_ids sz (ga_plan r) O1 T2 Hne Hin Hroom Hx) as Hplan.
  revert Hplan. destruct (init_table keys_mem (ga_plan r) (margin (Z.of_nat (length nodes + length leafs)))) as [g1|]; [rewrite !bind_Ok|done].
  destruct (reset_tallocs g1) as [g2|]; [rewrite !bind_Ok|done]. intros Hplan.
  eapply okP_bind; [exact Hplan|]. intros g (Hb & Hgood & Hpl).
  assert (HnU : ∀ x, x ∈ nodes → x ∈ U) by (intros; apply elem_of_app; by right). assert (HlU : ∀ x, x ∈ leafs → x ∈ U) by (intros; apply elem_of_app; by left).
  eapply okP_bind; [apply (record_nodes_ok alloc_size ts BF U H1 g nodes); [done|done| |by apply grown_length]|].
  { intros x t Hxn Ht. apply list_elem_of_split in Hxn as (pre & post & Hn). destruct (go_srcs _ _ _ _ H2 pre x post t Hn Ht) as [?|?]; [by apply HlU|]. apply HnU. rewrite Hn. apply elem_of_app. by left. }
  intros n (Sn & Ln & Dn). assert (Hpln : placed_plan ts BF U n.1) by by eapply placed_same.
  eapply okP_bind; [apply (record_leafs_ok alloc_size ts BF U H1 n.1 leafs); [done|done|by apply grown_length]|].
  intros lf (Sl & Ll & Dl). assert (Sg : same_nodes U g lf.1) by by eapply same_nodes_trans.
  pose proof (plan_base_same U g lf.1 Hb Sg) as Hb'. set (r1 := with_allocs _ _ _ _ _).
  assert (HBT : length BT = length BF ∧ ∀ i k, BT !! i = Some k → k < length (tallocs lf.1)).
  { split; [done|]. intros i k Hk. rewrite (pb_len _ _ _ _ _ Hb'). apply T2. by eapply list_elem_of_lookup_2. }
  change (ga_buffers r) with (ga_buffers r1).
  eapply okP_mono; [apply (realloc_loop alloc_buffer BF BT lf.1 (pb_bufts _ _ _ _ _ Hb') (pb_ids _ _ _ _ _ Hb') HBT T3 Hback); [|done|done|done]|].
  { intros k a c ck. by apply base_max_size. }
  intros [r2 ok] (Eg & E1 & E2 & E3 & E4 & _ & Hfin). cbn [fst snd] in *. destruct ok; [|unfold refused; by rewrite Eg]. destruct Hfin as [F1 F2 F3]. cbn in E1, E2, E3, E4. split.
  - split; rewrite ?Eg, ?E1, ?E2, ?E3, ?E4; [done|done| |rewrite Ln; by apply grown_length|rewrite Ll; by apply grown_length].
    destruct F2 as [L R S A].
    assert (Hset : ∀ i p, ga_buffers r2 !! i = Some p → settled BT (length BF) i) by (intros i p Hi; left; apply lookup_lt_Some in Hi; lia).
    split.
    + intros i p _ Hi. by eapply L; [eapply Hset|].
    + intros p vb Hp. destruct (R p vb Hp) as (i & _ & Hi). by exists i.
    + intros i j _ _ Hi Hij. destruct (decide (j < length BF)); [apply S; [by left|by left|done|done]|]. rewrite (lookup_ge_None_2 BT j) in Hij by lia.
      apply lookup_ge_None_1 in Hij. lia.
    + intros i j p _ _ Hi Hj. by eapply A; [eapply Hset|eapply Hset|..].
  - assert (Hrec : ∀ t, record_of alloc_size ts BF lf.1 t = record_of alloc_size ts BF g t) by (intros t; by eapply record_of_same).
    assert (Hrecn : ∀ t, record_of alloc_size ts BF n.1 t = record_of alloc_size ts BF g t) by (intros t; by eapply record_of_same).
    split; rewrite ?Eg, ?E1, ?E2, ?E3, ?E4.
    + by eapply plan_good_same.
    + by eapply placed_same.
    + done.
    + intros i x Hi. rewrite (Dn i x Hi). rewrite Hrec. do 2 f_equal. apply list_fmap_ext. intros j [t|] _; [|done]. cbn. by rewrite Hrec.
    + intros i x Hi. rewrite (Dl i x Hi). by rewrite Hrec, Hrecn.
    + done.
Qed.
End reserve.

(** ** Giving the tensors their addresses *)

Section alloc.
  Variable alloc_size : Z → ggml_tensor → Z.
  Variable BF : list Z.
  Variable BT : list nat.
  Variable AL : nat → Z.
  Variable NT : nat.
  Variable nodes leafs : list Z.
  (* the tensors for which memory was reserved, and those that are to be placed *)
  Variable ts1 ts2 : Z → ggml_tensor.
  Abbreviation U := (leafs ++ nodes).

(** the graph is the one memory was reserved for, or one of the same shape with smaller tensors *)
Record refits : Prop := {
  re_src : ∀ t, t ∈ U → t_src (ts2 t) = t_src (ts1 t) ∧ t_view_src (ts2 t) = t_view_src (ts1 t);
  re_data : ∀ t, t ∈ U → t_data (ts2 t) = 0%Z ↔ t_data (ts1 t) = 0%Z;
  re_size : ∀ b t, t ∈ U → (0 < alloc_size b (ts2 t) ≤ alloc_size b (ts1 t))%Z }.

  Hypothesis Hre : refits.
  Hypothesis Hx1 : no_pending ts1 U.
  Hypothesis Hx2 : no_pending ts2 U.
  Hypothesis Hty : types_ok BF BT NT.
  Variable r : gallocr.
  Hypothesis Hok : gallocr_ok BF BT AL NT r.
  Hypothesis Hrv : reserved alloc_size BF BT AL ts1 nodes leafs r.
  Abbreviation g := (ga_plan r).
  Abbreviation rec := (record_of alloc_size ts1 BF g).

Lemma given_same t : t ∈ U → is_given ts2 t = is_given ts1 t.
Proof.
  intros Ht. unfold is_given, is_view. destruct (re_src Hre t Ht) as [_ ->]. f_equal. apply bool_decide_ext. by rewrite (re_data Hre t Ht).
Qed.

Lemma managed_same t : t ∈ U → managed ts2 t ↔ managed ts1 t.
Proof. intros Ht. rewrite <- !given_managed, given_same by done. done. Qed.

(** the buffer that holds a chunk *)
Definition chunk_of (id : Z) (c : nat) : option backend_buffer :=
  p ← ga_buffers r !! Z.to_nat id; p ← p; vb ← ga_heap r !! p; vb ← vb; b ← vb_chunks vb !! c; b.

(** the place of a tensor in it *)
Record place_in (t : Z) (b : backend_buffer) : Prop := {
  pi_id : good_id BF (buffer_id (nd g t));
  pi_chunk : ∃ p vb, ga_buffers r !! Z.to_nat (buffer_id (nd g t)) = Some (Some p) ∧ ga_heap r !! p = Some (Some vb) ∧
    vb_chunks vb !! ba_chunk (hn_addr (nd g t)) = Some (Some b) ∧ vb_buft vb = buft_of BF (buffer_id (nd g t));
  pi_buffer : buffer_ok b;
  pi_region : region_in (AL (talloc_of BT (buffer_id (nd g t)))) (bb_size b) (region_of ts1 alloc_size BF BT AL t (nd g t)) }.

Lemma talloc_pos id : good_id BF id → ∃ k, BT !! Z.to_nat id = Some k ∧ k = talloc_of BT id ∧ k < NT ∧ (0 < AL k)%Z.
Proof.
  intros [H1 H2]. destruct Hty as [T1 T2 _]. destruct (lookup_lt_is_Some_2 BT (Z.to_nat id)) as [k Hk]; [lia|]. exists k. split; [done|].
  assert (k < NT) as Hlt by (apply T2; by eapply list_elem_of_lookup_2). split; [unfold talloc_of; by rewrite Hk|]. split; [done|].
  destruct (ok_plan _ _ _ _ _ Hok) as [_ _ _ B4 B5]. destruct (lookup_lt_is_Some_2 (tallocs g) k) as [a Ha]; [lia|]. destruct (B5 k a Ha) as [<- (live & Hd)].
  apply (dyn_align _ _ Hd).
Qed.

(** every tensor that was planned is placed *)
Lemma placed_in t : t ∈ U → managed ts1 t → ∃ b, chunk_of (buffer_id (nd g t)) (ba_chunk (hn_addr (nd g t))) = Some b ∧ place_in t b ∧
  (alloc_size (buft_of BF (buffer_id (nd g t))) (ts1 t) ≤ rg_size (region_of ts1 alloc_size BF BT AL t (nd g t)))%Z.
Proof.
  intros Ht Hm. destruct Hrv as [(Hg & _) _ _ _ _ Hfit]. destruct (Hg t Ht Hm) as [Hid Hreg]. set (id := buffer_id (nd g t)) in *. set (c := ba_chunk (hn_addr (nd g t))) in *.
  destruct (talloc_pos id Hid) as (k & Hk & Ek & Hlt & HAL). destruct (Hfit (Z.to_nat id)) as (p & vb & k' & a & F1 & F2 & F3 & F4 & F5); [apply Hid|].
  assert (k' = k) as -> by congruence. rewrite <- Ek in Hreg. destruct (ok_handles _ _ _ _ _ Hok) as [L _ _ _]. destruct (L (Z.to_nat id) p I F1) as (vb' & Hvb & Hvok & Hbuft).
  assert (vb' = vb) as -> by congruence.
  assert (Hsz : (alloc_size (buft_of BF id) (ts1 t) ≤ rg_size (region_of ts1 alloc_size BF BT AL t (nd g t)))%Z).
  { cbn. unfold psize. fold id. rewrite <- Ek. by apply (pad_spec (AL k)). }
  assert (Hpos : (0 < rg_size (region_of ts1 alloc_size BF BT AL t (nd g t)))%Z).
  { eapply Z.lt_le_trans; [|exact Hsz]. pose proof (re_size Hre (buft_of BF id) t Ht). lia. }
  assert (Hmax : max_of (tallocs g) k c = ggml_dyn_tallocr_max_size a c) by (unfold max_of; by rewrite F4).
  destruct Hreg as (R1 & R2 & R3 & R4 & R5). rewrite Hmax in R3. specialize (F5 c). unfold ggml_vbuffer_chunk_size in F5.
  destruct (vb_chunks vb !! c) as [[b|]|] eqn:Eb; [|lia..]. exists b. split; [|split; [|done]].
  - unfold chunk_of. rewrite F1. cbn. rewrite F2. cbn. by rewrite Eb.
  - split; fold id c; [done| |by apply (Hvok c)|].
    + exists p, vb. split_and!; [done|done|done|]. unfold buft_of. by rewrite Hbuft.
    + rewrite <- Ek. split_and!; [done|done|lia|done|done].
Qed.

(** a tensor after it got its address; a view, after the tensor it is a view of got one *)
Definition final_root (t : Z) : ggml_tensor :=
  if decide (managed ts2 t) then
    match chunk_of (buffer_id (nd g t)) (ba_chunk (hn_addr (nd g t))) with
    | Some b => with_memory (ts2 t) (bb_ptr b) (bb_base b + ba_offset (hn_addr (nd g t)))
    | None => ts2 t
    end
  else ts2 t.
Definition final (t : Z) : ggml_tensor :=
  match t_view_src (ts2 t) with
  | None => final_root t
  | Some v => if decide (t_buffer (ts2 t) = 0 ∧ t_buffer (final_root v) ≠ 0)%Z
      then with_memory (ts2 t) (t_buffer (final_root v)) (u64 (t_data (final_root v) + t_view_offs (ts2 t))) else ts2 t
  end.

Lemma final_shape t : t_src (final t) = t_src (ts2 t) ∧ t_view_src (final t) = t_view_src (ts2 t) ∧ t_view_offs (final t) = t_view_offs (ts2 t).
Proof. unfold final, final_root. repeat case_match; done. Qed.

Lemma final_managed t : t ∈ U → managed ts2 t → ∃ b, place_in t b ∧ final t = with_memory (ts2 t) (bb_ptr b) (bb_base b + ba_offset (hn_addr (nd g t))) ∧
  (0 < bb_base b + ba_offset (hn_addr (nd g t)))%Z ∧ bb_ptr b ≠ 0%Z.
Proof.
  intros Ht Hm. destruct (placed_in t Ht) as (b & Hb & Hp & _); [by apply managed_same|]. exists b. split; [done|]. split.
  - unfold final, final_root. rewrite (proj2 (proj2 Hm)), decide_True by done. by rewrite Hb.
  - destruct Hp as [_ _ (B1 & B2 & B3 & B4) (R1 & R2 & R3 & _)]. cbn in R1. split; [lia|done].
Qed.

(** in the middle of the loops: [D] are the tensors that have been placed *)
Record midway (D : list Z) (cur : Z → ggml_tensor) : Prop := {
  mw_any : ∀ t, cur t = ts2 t ∨ cur t = final t;
  mw_done : ∀ t, t ∈ D → cur t = final t }.

Lemma midway_shape D cur t : midway D cur → t_src (cur t) = t_src (ts2 t) ∧ t_view_src (cur t) = t_view_src (ts2 t) ∧ t_view_offs (cur t) = t_view_offs (ts2 t).
Proof. intros [H _]. destruct (H t) as [->| ->]; [done|apply final_shape]. Qed.

Lemma midway_place D cur t buffer data : midway D cur → with_memory (cur t) buffer data = final t → midway (t :: D) (place_tensor cur t buffer data).
Proof.
  intros [H1 H2] E. unfold place_tensor. split.
  - intros x. case_decide as Hx; [subst x; by right|apply H1].
  - intros x Hx. case_decide as Hxt; [by subst x|]. apply H2. by apply elem_of_cons in Hx as [?|?].
Qed.

Lemma midway_done D cur t : midway D cur → cur t = final t → midway (t :: D) cur.
Proof. intros [H1 H2] E. split; [done|]. intros x [->|Hx]%elem_of_cons; [done|by apply H2]. Qed.

Lemma midway_less D D' cur : midway D cur → (∀ t, t ∈ D' → t ∈ D) → midway D' cur.
Proof. intros [H1 H2] H. split; [done|]. auto. Qed.

(** the root of a view *)
Hypothesis Hroot : ∀ t v, t ∈ U → t_view_src (ts1 t) = Some v → v ∈ U ∧ t_view_src (ts1 v) = None.

Lemma final_of_root v : v ∈ U → t_view_src (ts1 v) = None → final v = final_root v.
Proof. intros Hv Hn. unfold final. by rewrite (proj2 (re_src Hre v Hv)), Hn. Qed.

Lemma root_data v : v ∈ U → t_view_src (ts1 v) = None → t_buffer (final_root v) ≠ 0%Z → t_data (final_root v) ≠ 0%Z.
Proof.
  intros Hv Hn. rewrite <- final_of_root by done. destruct (decide (managed ts2 v)) as [Hm|Hm].
  - destruct (final_managed v Hv Hm) as (b & _ & -> & H & _). cbn. lia.
  - rewrite final_of_root by done. unfold final_root. rewrite decide_False by done. intros Hb Hd. apply Hb. apply (Hx2 v); [done| |done]. by rewrite (proj2 (re_src Hre v Hv)).
Qed.

(** a root with a buffer is as it will be *)
Lemma root_current D cur v : midway D cur → v ∈ U → t_view_src (ts1 v) = None → t_buffer (cur v) ≠ 0%Z → cur v = final_root v.
Proof.
  intros [H _] Hv Hn Hb. destruct (H v) as [E|E]; [|by rewrite E, final_of_root]. rewrite E in Hb |- *. unfold final_root. rewrite decide_False; [done|].
  intros (_ & H0 & _). done.
Qed.

Lemma init_view_ok D cur t v : midway D cur → t ∈ U → t_view_src (ts1 t) = Some v → okP (ggml_gallocr_init_tensor alloc_size r cur t (rec t)) (λ cur',
  midway D cur' ∧ (v ∈ D ∨ final v = ts2 v → cur' t = final t)).
Proof.
  intros Hmid Ht Hv. destruct (Hroot t v Ht Hv) as [HvU Hvn]. destruct (midway_shape D cur t Hmid) as (_ & Ev & Eo). rewrite (proj2 (re_src Hre t Ht)), Hv in Ev.
  assert (Hgiven : is_given cur t = true) by (unfold is_given, is_view; by rewrite Ev).
  assert (Hrec : rec t = invalid_alloc) by (unfold record_of, is_given, is_view; by rewrite Hv).
  assert (Efin : final t = if decide (t_buffer (ts2 t) = 0 ∧ t_buffer (final_root v) ≠ 0)%Z
      then with_memory (ts2 t) (t_buffer (final_root v)) (u64 (t_data (final_root v) + t_view_offs (ts2 t))) else ts2 t).
  { unfold final. by rewrite (proj2 (re_src Hre t Ht)), Hv. }
  unfold ggml_gallocr_init_tensor. rewrite Hgiven, bind_Ok, Ev, Hrec. destruct (decide (t_buffer (cur t) = 0%Z)) as [Hb|Hb].
  - unfold assert_, check. rewrite bool_decide_true by done. rewrite bind_Ok.
    assert (Ecur : cur t = ts2 t).
    { destruct (mw_any _ _ Hmid t) as [?|E]; [done|]. rewrite E in Hb |- *. rewrite Efin in Hb |- *. case_decide as Hc; [|done]. cbn in Hb. tauto. }
    destruct (decide (t_buffer (cur v) = 0%Z)) as [Hvb|Hvb].
    + cbn. split; [done|]. intros Hcond. rewrite Ecur, Efin. rewrite decide_False; [done|]. intros [_ Hne]. apply Hne. rewrite <- final_of_root by done.
      destruct Hcond as [Hin|E]; [by rewrite <- (mw_done _ _ Hmid v Hin)|]. destruct (mw_any _ _ Hmid v) as [E'|E']; congruence.
    + pose proof (root_current D cur v Hmid HvU Hvn Hvb) as Erv. unfold ggml_backend_view_init. rewrite Erv in Hvb |- *. rewrite !ggml_assert_ok by (apply bool_decide_eq_true_2; first [done|by apply root_data]). rewrite !bind_Ok.
      cbn [okP]. assert (E : with_memory (cur t) (t_buffer (final_root v)) (u64 (t_data (final_root v) + t_view_offs (cur t))) = final t).
      { rewrite Efin, Ecur, decide_True; [done|]. split; [by rewrite <- Ecur|done]. }
      pose proof (midway_place D cur t _ _ Hmid E) as Hp. split; [eapply midway_less; [exact Hp|]; intros; by right|]. intros _. apply (mw_done _ _ Hp). left.
  - cbn. split; [done|]. intros _. destruct (mw_any _ _ Hmid t) as [E|?]; [|done]. rewrite E in Hb |- *. rewrite Efin, decide_False by tauto. done.
Qed.

Lemma init_root_ok D cur t : midway D cur → t ∈ U → t_view_src (ts1 t) = None → okP (ggml_gallocr_init_tensor alloc_size r cur t (rec t)) (midway (t :: D)).
Proof.
  intros Hmid Ht Hv. destruct (midway_shape D cur t Hmid) as (_ & Ev & _). rewrite (proj2 (re_src Hre t Ht)), Hv in Ev.
  unfold ggml_gallocr_init_tensor. rewrite Ev. destruct (decide (t_data (cur t) = 0%Z)) as [Hd|Hd].
  - assert (Hgiven : is_given cur t = false) by (unfold is_given, is_view; rewrite Ev, Hd; done). rewrite Hgiven.
    assert (cur t = ts2 t ∧ managed ts2 t) as [Ecur Hm].
    { destruct (decide (managed ts2 t)) as [Hm|Hm].
      - split; [|done]. destruct (mw_any _ _ Hmid t) as [?|E]; [done|]. destruct (final_managed t Ht Hm) as (b & _ & Ef & Hpos & _). rewrite E, Ef in Hd. cbn in Hd. lia.
      - destruct Hm. assert (Hv2 : t_view_src (ts2 t) = None) by by rewrite (proj2 (re_src Hre t Ht)).
        assert (Hd2 : t_data (ts2 t) = 0%Z).
        { destruct (mw_any _ _ Hmid t) as [E|E]; [by rewrite <- E|]. rewrite E in Hd. revert Hd. unfold final, final_root. rewrite Hv2. case_decide as Hm; [|done].
          by destruct Hm as (? & ? & ?). }
        split_and!; [done|by apply Hx2|done]. }
    destruct (final_managed t Ht Hm) as (b & [Hid (p & vb & C1 & C2 & C3 & C4) (B1 & B2 & B3 & B4) (R1 & R2 & R3 & R4 & R5)] & Ef & Hpos & _).
    assert (Hm1 : managed ts1 t) by by apply managed_same. destruct (placed_in t Ht Hm1) as (_ & _ & _ & Hsz).
    assert (Hrec : rec t = TensorAlloc (buffer_id (nd g t)) (Z.of_nat (ba_chunk (hn_addr (nd g t)))) (ba_offset (hn_addr (nd g t))) (alloc_size (buft_of BF (buffer_id (nd g t))) (ts1 t))).
    { unfold record_of. by rewrite (proj2 (given_managed ts1 U t Hx1 Ht) Hm1). }
    pose proof (re_size Hre (buft_of BF (buffer_id (nd g t))) t Ht) as Hle.
    assert (Hfm : fits_max alloc_size r cur t (rec t) = Ok tt).
    { unfold fits_max. rewrite Hrec. cbn [al_buffer al_size_max]. rewrite (buft_ok BF g _ (pb_bufts _ _ _ _ _ (ok_plan _ _ _ _ _ Hok))), bind_Ok by done.
      rewrite Ecur. unfold assert_. cbn. rewrite bool_decide_true by lia. done. }
    rewrite Hfm, !bind_Ok. rewrite Hrec. cbn [al_offset al_buffer]. cbn [rg_off rg_size region_of] in *.
    unfold assert_, check. rewrite bool_decide_true by lia. rewrite !bind_Ok. rewrite idx_ok by apply Hid. rewrite bind_Ok, (vget_ok _ _ _ C1), bind_Ok, (vb_get_ok _ _ _ C2), bind_Ok.
    unfold ggml_vbuffer_tensor_alloc. cbn [al_chunk al_offset]. rewrite idx_ok by lia. rewrite bind_Ok, Nat2Z.id, (vget_ok _ _ _ C3), bind_Ok.
    unfold ggml_backend_tensor_alloc. rewrite C4, Ecur.
    assert (E1 : u64 (bb_base b + ba_offset (hn_addr (nd g t))) = (bb_base b + ba_offset (hn_addr (nd g t)))%Z) by (unfold u64; apply Z.mod_small; unfold SIZE_MAX in *; lia).
    assert (E2 : u64 (bb_base b + bb_size b) = (bb_base b + bb_size b)%Z) by (unfold u64; apply Z.mod_small; unfold SIZE_MAX in *; lia).
    rewrite E1, E2.
    assert (E3 : u64 (bb_base b + ba_offset (hn_addr (nd g t)) + alloc_size (buft_of BF (buffer_id (nd g t))) (ts2 t)) = (bb_base b + ba_offset (hn_addr (nd g t)) + alloc_size (buft_of BF (buffer_id (nd g t))) (ts2 t))%Z)
      by (unfold u64; apply Z.mod_small; unfold SIZE_MAX in *; lia).
    rewrite E3. destruct Hm as (M1 & M2 & M3). unfold ggml_assert, check. rewrite !bool_decide_true by (done || lia). rewrite !bind_Ok. cbn [okP].
    apply midway_place; [done|]. by rewrite Ecur, Ef.
  - assert (Hgiven : is_given cur t = true) by (unfold is_given, is_view; rewrite Ev; cbn; by apply bool_decide_eq_true_2). rewrite Hgiven, bind_Ok. cbn [okP].
    apply midway_done; [done|]. destruct (mw_any _ _ Hmid t) as [E|?]; [|done]. rewrite E in Hd |- *. unfold final, final_root. rewrite (proj2 (re_src Hre t Ht)), Hv.
    rewrite decide_False; [done|]. by intros (? & _).
Qed.

Lemma init_any_ok D cur t : midway D cur → t ∈ U → okP (ggml_gallocr_init_tensor alloc_size r cur t (rec t)) (midway D).
Proof.
  intros Hmid Ht. destruct (t_view_src (ts1 t)) as [v|] eqn:Hv.
  - eapply okP_mono; [by apply (init_view_ok D cur t v)|]. by intros cur' [? _].
  - eapply okP_mono; [by apply init_root_ok|]. intros cur' H. eapply midway_less; [exact H|]. intros; by right.
Qed.

Lemma init_srcs_ok D cur (l : list (option Z)) : midway D cur → (∀ t, Some t ∈ l → t ∈ U) →
  okP (foldM (init_src alloc_size r) cur (zip l (src_record alloc_size ts1 BF g <$> l))) (midway D).
Proof.
  intros Hmid Hl. revert cur Hmid. induction l as [|o l IH]; intros cur Hmid; [done|]. cbn [fmap list_fmap zip_with foldM].
  eapply (okP_bind _ _ (midway D)); [|intros cur' Hmid'; apply IH; [intros; apply Hl; by right|done]].
  destruct o as [t|]; [|done]. apply init_any_ok; [done|]. apply Hl. left.
Qed.

(** leafs that are not views *)
Definition root_leafs (l : list Z) : list Z := filter (λ t, t_view_src (ts1 t) = None) l.

Lemma init_leafs_ok : okP (foldM (init_leaf alloc_size r) ts2 (enum leafs)) (midway (root_leafs leafs)).
Proof.
  eapply okP_mono; [apply (okP_enum _ (λ n cur, midway (root_leafs (take n leafs)) cur))|].
  - split; [by left|]. intros t Ht. by apply not_elem_of_nil in Ht.
  - intros i t cur Hi Hmid. unfold init_leaf. cbn [fst snd]. rewrite (vget_ok _ _ _ (rv_leafs _ _ _ _ _ _ _ _ Hrv i t Hi)), bind_Ok.
    assert (Ht : t ∈ U) by (apply elem_of_app; left; by eapply list_elem_of_lookup_2). rewrite (take_S_r _ _ _ Hi). unfold root_leafs. rewrite filter_app, filter_cons, filter_nil.
    destruct (decide (t_view_src (ts1 t) = None)) as [Hv|Hv].
    + eapply okP_mono; [by apply init_root_ok|]. intros cur' H. eapply midway_less; [exact H|]. intros x [Hx|Hx]%elem_of_app; [by right|]. apply list_elem_of_singleton in Hx as ->. left.
    + rewrite app_nil_r. by apply init_any_ok.
  - intros cur. cbv beta. by rewrite take_ge.
Qed.

Hypothesis Hord : ∀ pre v post w, nodes = pre ++ v :: post → t_view_src (ts1 v) = Some w → w ∈ leafs ∨ w ∈ pre.
Hypothesis Hsrcs : ∀ x t, x ∈ nodes → t ∈ sources ts1 x → t ∈ U.

Lemma init_nodes_ok cur : midway (root_leafs leafs) cur → okP (foldM (init_node alloc_size r) cur (enum nodes)) (midway (root_leafs leafs ++ nodes)).
Proof.
  intros H0. eapply okP_mono; [apply (okP_enum _ (λ n cur, midway (root_leafs leafs ++ take n nodes) cur))|].
  - by rewrite app_nil_r.
  - intros i t cur' Hi Hmid. set (D := root_leafs leafs ++ take i nodes) in *. pose proof (list_elem_of_lookup_2 _ _ _ Hi) as Hn. assert (Ht : t ∈ U) by (apply elem_of_app; by right).
    unfold init_node. cbn [fst snd]. rewrite (vget_ok _ _ _ (rv_nodes _ _ _ _ _ _ _ _ Hrv i t Hi)), bind_Ok. cbn [na_src na_dst].
    assert (src_array (cur' t) = src_array (ts1 t)) as ->.
    { unfold src_array. destruct (midway_shape _ _ t Hmid) as [-> _]. by rewrite (proj1 (re_src Hre t Ht)). }
    eapply okP_bind; [apply (init_srcs_ok D); [done|]|].
    { intros p Hp. apply (Hsrcs t); [done|]. by apply elem_src_array. }
    intros cur1 Hmid1. rewrite (take_S_r _ _ _ Hi), app_assoc. fold D. assert (Hmore : ∀ c, midway (t :: D) c → midway (D ++ [t]) c).
    { intros c Hc. eapply midway_less; [exact Hc|]. intros x [Hx|Hx]%elem_of_app; [by right|]. apply list_elem_of_singleton in Hx as ->. left. }
    destruct (t_view_src (ts1 t)) as [w|] eqn:Hv.
    + eapply okP_mono; [by apply (init_view_ok D cur1 t w)|]. intros c [Hc1 Hc2]. apply Hmore, midway_done; [done|]. apply Hc2. left.
      assert (Hs : nodes = take i nodes ++ t :: drop (S i) nodes) by by rewrite take_drop_middle.
      apply elem_of_app. destruct (Hord _ _ _ _ Hs Hv) as [Hw|Hw]; [left|by right]. apply list_elem_of_filter. split; [|done]. apply (Hroot t w Ht Hv).
    + eapply okP_mono; [by apply init_root_ok|]. apply Hmore.
  - intros c. cbv beta. by rewrite firstn_all.
Qed.

(** a graph for which there is memory needs no reallocation *)
Lemma fits_ok t : t ∈ U → node_fits alloc_size ts2 g t (rec t) = Ok true.
Proof.
  intros Ht. unfold node_fits. rewrite (given_same t Ht). unfold record_of. destruct (is_given ts1 t) eqn:Hg; cbn [negb al_buffer al_size_max invalid_alloc]; [done|].
  destruct Hrv as [_ Hpl _ _ _ _]. pose proof (pp_good _ _ _ _ Hpl t Ht Hg) as Hid. rewrite decide_False by (destruct Hid; lia).
  rewrite (buft_ok BF g _ (pp_bufts _ _ _ _ Hpl)), bind_Ok by done. f_equal. apply bool_decide_eq_true_2. by apply (re_size Hre).
Qed.

Lemma src_fits_ok (l : list (option Z)) : (∀ t, Some t ∈ l → t ∈ U) → foldM (src_fits alloc_size ts2 g) true (zip l (src_record alloc_size ts1 BF g <$> l)) = Ok true.
Proof.
  intros Hl. induction l as [|o l IH]; [done|]. cbn [fmap list_fmap zip_with foldM].
  assert (src_fits alloc_size ts2 g true (o, src_record alloc_size ts1 BF g o) = Ok true) as ->.
  { destruct o as [t|]; [|done]. cbn. apply fits_ok, Hl. left. }
  rewrite bind_Ok. apply IH. intros; apply Hl. by right.
Qed.

Lemma needs_realloc_ok : ggml_gallocr_needs_realloc alloc_size ts2 r (Graph nodes leafs) = Ok false.
Proof.
  unfold ggml_gallocr_needs_realloc. cbn [g_nodes g_leafs]. destruct (rv_n _ _ _ _ _ _ _ _ Hrv) as [-> ->]. rewrite !decide_False by tauto.
  assert (okP (foldM (graph_node_fits alloc_size ts2 r) true (enum nodes)) (λ b, b = true)) as H.
  { apply (okP_enum _ (λ _ b, b = true)); [done|]. intros i t b Hi ->. unfold graph_node_fits. cbn [negb fst snd].
    pose proof (list_elem_of_lookup_2 _ _ _ Hi) as Hn. assert (Ht : t ∈ U) by (apply elem_of_app; by right).
    rewrite (vget_ok _ _ _ (rv_nodes _ _ _ _ _ _ _ _ Hrv i t Hi)), bind_Ok. cbn [na_src na_dst]. rewrite fits_ok, bind_Ok by done.
    assert (src_array (ts2 t) = src_array (ts1 t)) as -> by (unfold src_array; by rewrite (proj1 (re_src Hre t Ht))).
    rewrite src_fits_ok; [done|]. intros p Hp. apply (Hsrcs t); [done|]. by apply elem_src_array. }
  destruct (foldM _ _ _) as [b|]; [|done]. cbn in H. by rewrite H.
Qed.

Lemma resets_ok : foldM (λ _ p, ggml_vbuffer_reset (ga_heap r) p) tt (ga_buffers r) = Ok tt.
Proof.
  assert (okP (foldM (λ _ p, ggml_vbuffer_reset (ga_heap r) p) tt (ga_buffers r)) (λ _, True)) as H.
  { apply (okP_foldM _ (λ _ _, True)); [done|]. intros pre p post [] Hs _. destruct p as [p|]; [|done]. cbn [ggml_vbuffer_reset].
    destruct (hd_live _ _ _ _ _ (ok_handles _ _ _ _ _ Hok) (length pre) p I) as (vb & Hvb & _); [rewrite Hs; by apply list_lookup_middle|].
    by rewrite (vb_get_ok _ _ _ Hvb). }
  destruct (foldM _ _ _) as [[]|]; [done|destruct H].
Qed.

Lemma place_all_ok : okP (foldM (λ _ p, ggml_vbuffer_reset (ga_heap r) p) tt (ga_buffers r);; cur ← foldM (init_leaf alloc_size r) ts2 (enum leafs); foldM (init_node alloc_size r) cur (enum nodes))
  (midway (root_leafs leafs ++ nodes)).
Proof. rewrite resets_ok, bind_Ok. eapply okP_bind; [exact init_leafs_ok|]. intros cur Hc. by apply init_nodes_ok. Qed.

(** *** The memory at the real addresses *)

(** the buffers that were not freed do not overlap *)
Definition buffers_apart (heap : list (option vbuffer)) : Prop := ∀ p p' vb vb' c c' b b',
  heap !! p = Some (Some vb) → heap !! p' = Some (Some vb') → vb_chunks vb !! c = Some (Some b) → vb_chunks vb' !! c' = Some (Some b') →
  p = p' ∧ c = c' ∨ (bb_base b + bb_size b ≤ bb_base b')%Z ∨ (bb_base b' + bb_size b' ≤ bb_base b)%Z.

(** the bytes of a tensor *)
Definition asize (t : Z) : Z := alloc_size (buft_of BF (buffer_id (nd g t))) (ts2 t).
Definition bytes_at (cur : Z → ggml_tensor) (t x : Z) : Prop := (t_data (cur t) ≤ x < t_data (cur t) + asize t)%Z.
#[local] Instance bytes_at_dec cur t x : Decision (bytes_at cur t x).
Proof. unfold bytes_at. apply _. Defined.

(** the last tensor that was written over a byte *)
Definition flat : Type := Z → option Z.
Definition store (cur : Z → ggml_tensor) (m : flat) (t : Z) : flat := λ x, if decide (managed ts2 t ∧ bytes_at cur t x) then Some t else m x.
Definition compute (cur : Z → ggml_tensor) (m : flat) (l : list Z) : flat := foldl (store cur) m l.
Definition computed (cur : Z → ggml_tensor) (pre : list Z) : flat := compute cur (compute cur (λ _, None) (inputs ts1 U leafs)) pre.
Definition preserved (cur : Z → ggml_tensor) (m : flat) (t : Z) : Prop := ∀ x, bytes_at cur t x → m x = Some t.

(** the bytes of a place that the plan knows to be intact are so in the memory *)
Definition agree (m : memory) (m' : flat) : Prop := ∀ t b x, t ∈ U → managed ts1 t → place_in t b →
  (ba_offset (hn_addr (nd g t)) ≤ x < ba_offset (hn_addr (nd g t)) + asize t)%Z →
  m (talloc_of BT (buffer_id (nd g t))) (ba_chunk (hn_addr (nd g t))) x = Some t → m' (bb_base b + x)%Z = Some t.

Hypothesis Hapart : buffers_apart (ga_heap r).

Lemma place_size t b : t ∈ U → place_in t b → (0 ≤ ba_offset (hn_addr (nd g t)))%Z ∧ (ba_offset (hn_addr (nd g t)) + asize t ≤ bb_size b)%Z ∧
  (asize t ≤ rg_size (region_of ts1 alloc_size BF BT AL t (nd g t)))%Z.
Proof.
  intros Ht [Hid _ _ (R1 & R2 & R3 & _)]. cbn in R1, R2, R3. unfold asize. pose proof (re_size Hre (buft_of BF (buffer_id (nd g t))) t Ht) as Hsz.
  destruct (talloc_pos _ Hid) as (k & Hk & Ek & _ & HAL). assert (alloc_size (buft_of BF (buffer_id (nd g t))) (ts1 t) ≤ psize ts1 alloc_size BF BT AL (buffer_id (nd g t)) t)%Z as Hpad.
  { unfold psize. rewrite <- Ek. by apply (pad_spec (AL k)). }
  cbn. lia.
Qed.

(** two places in the memory have a byte in common only if they have one in the plan *)
Lemma same_byte t t' b b' x x' : t ∈ U → t' ∈ U → place_in t b → place_in t' b' →
  (ba_offset (hn_addr (nd g t)) ≤ x < ba_offset (hn_addr (nd g t)) + asize t)%Z →
  (ba_offset (hn_addr (nd g t')) ≤ x' < ba_offset (hn_addr (nd g t')) + asize t')%Z →
  (bb_base b + x = bb_base b' + x')%Z → x' = x ∧ at_place ts1 alloc_size BF BT AL g t' (talloc_of BT (buffer_id (nd g t))) (ba_chunk (hn_addr (nd g t))) x.
Proof.
  intros Ht Ht' Hp Hp' Hx Hx' E. destruct (place_size t b Ht Hp) as (S1 & S2 & S3). destruct (place_size t' b' Ht' Hp') as (S1' & S2' & S3').
  pose proof Hp as [Hid (p & vb & C1 & C2 & C3 & _) _ _]. pose proof Hp' as [Hid' (p' & vb' & C1' & C2' & C3' & _) _ _].
  destruct (Hapart p p' vb vb' _ _ b b' C2 C2' C3 C3') as [[<- Ec]|[H|H]]; [|lia..].
  assert (vb' = vb) as -> by congruence. assert (b' = b) as -> by congruence. assert (x' = x) as -> by lia. split; [done|].
  pose proof (hd_apart _ _ _ _ _ (ok_handles _ _ _ _ _ Hok) _ _ p I I C1 C1') as Hk. split; [unfold talloc_of; by rewrite <- Hk|]. split; cbn in *; [done|lia].
Qed.

Lemma agree_write m m' t' : agree m m' → t' ∈ U → agree (write ts1 alloc_size BF BT AL g m t') (store final m' t').
Proof.
  intros Ha Ht' t b x Ht Hm Hp Hx. unfold write, store. destruct (decide (managed ts1 t' ∧ _)) as [[Hm' Hat]|Hno].
  - intros [= ->]. rewrite decide_True; [done|]. split; [by apply managed_same|]. unfold bytes_at. destruct (final_managed t Ht) as (b' & Hp' & -> & _); [by apply managed_same|]. cbn.
    destruct Hp as [_ (p & vb & C1 & C2 & C3 & _) _ _]. destruct Hp' as [_ (p' & vb' & C1' & C2' & C3' & _) _ _].
    assert (p' = p) as -> by congruence. assert (vb' = vb) as -> by congruence. assert (b' = b) as -> by congruence. lia.
  - intros Hold. rewrite decide_False; [by eapply Ha|]. intros [Hm' Hat]. unfold bytes_at in Hat. destruct (final_managed t' Ht' Hm') as (b' & Hp' & E & _). rewrite E in Hat. cbn in Hat.
    apply Hno. split; [by apply managed_same|]. by apply (same_byte t t' b b' x (bb_base b + x - bb_base b')%Z); try done; lia.
Qed.

Lemma agree_run m m' l : agree m m' → (∀ t, t ∈ l → t ∈ U) → agree (run ts1 alloc_size BF BT AL g m l) (compute final m' l).
Proof.
  revert m m'. induction l as [|t l IH]; intros m m' Ha Hl; [done|]. cbn. apply IH; [|intros; apply Hl; by right]. apply agree_write; [done|]. apply Hl. left.
Qed.

Lemma agree_before pre : (∀ t, t ∈ pre → t ∈ U) → agree (before ts1 alloc_size U BF BT AL leafs g pre) (computed final pre).
Proof.
  intros Hpre. apply agree_run; [|done]. apply agree_run; [by intros t b x|]. intros t Ht. by apply list_elem_of_filter in Ht as [_ ?].
Qed.

Lemma agree_intact m m' t : agree m m' → t ∈ U → managed ts1 t → intact ts1 alloc_size BF BT AL g m t → preserved final m' t.
Proof.
  intros Ha Ht Hm Hi x Hx. unfold bytes_at in Hx. destruct (final_managed t Ht) as (b & Hp & E & _); [by apply managed_same|]. rewrite E in Hx. cbn in Hx.
  destruct (place_size t b Ht Hp) as (S1 & S2 & S3). cbn in S3. replace x with (bb_base b + (x - bb_base b))%Z by lia. apply (Ha t b); [done|done|done|lia|]. apply Hi. split; [done|]. split; cbn; [done|lia].
Qed.

(** a run sees the addresses of the tensors with a place only *)
Lemma compute_ext cur m m' l : (∀ x, m x = m' x) → (∀ t, t ∈ l → managed ts2 t → cur t = final t) → ∀ x, compute cur m l x = compute final m' l x.
Proof.
  revert m m'. induction l as [|t l IH]; intros m m' Hm Hl; [done|]. apply (IH (store cur m t)); [|intros; apply Hl; [by right|done]]. intros x.
  unfold store. rewrite Hm. destruct (decide (managed ts2 t)) as [Hmt|Hmt].
  - apply decide_ext. unfold bytes_at. by rewrite (Hl t) by (left || done).
  - by rewrite !decide_False by tauto.
Qed.

(** the tensors of a graph after they got their addresses *)
Record laid_out (cur : Z → ggml_tensor) : Prop := {
  lo_place : ∀ t, t ∈ U → managed ts2 t → ∃ b, chunk_of (buffer_id (nd g t)) (ba_chunk (hn_addr (nd g t))) = Some b ∧
    t_buffer (cur t) = bb_ptr b ∧ t_data (cur t) = (bb_base b + ba_offset (hn_addr (nd g t)))%Z ∧
    (bb_base b ≤ t_data (cur t))%Z ∧ (t_data (cur t) + asize t ≤ bb_base b + bb_size b)%Z ∧
    (AL (talloc_of BT (buffer_id (nd g t))) | t_data (cur t) - bb_base b)%Z;
  lo_view : ∀ t v, t ∈ nodes → t_view_src (ts2 t) = Some v → t_buffer (ts2 t) = 0%Z → t_buffer (cur v) ≠ 0%Z →
    t_buffer (cur t) = t_buffer (cur v) ∧ t_data (cur t) = u64 (t_data (cur v) + t_view_offs (ts2 t));
  lo_given : ∀ t, t_view_src (ts2 t) = None → t_data (ts2 t) ≠ 0%Z → cur t = ts2 t }.

(** when a node is computed all its sources are as they were written, and at the end the outputs are *)
Record run_safe (cur : Z → ggml_tensor) : Prop := {
  lo_srcs : ∀ pre x post p, nodes = pre ++ x :: post → p ∈ sources ts1 x → managed ts2 (root ts1 p) → preserved cur (computed cur pre) (root ts1 p);
  lo_outputs : ∀ t, t ∈ U → managed ts2 t → ¬ released ts1 nodes [] t → preserved cur (computed cur nodes) t }.

Lemma midway_roots cur t : midway (root_leafs leafs ++ nodes) cur → t ∈ U → t_view_src (ts1 t) = None → cur t = final t.
Proof.
  intros [_ H] Ht Hv. apply H, elem_of_app. apply elem_of_app in Ht as [Ht|Ht]; [left|by right]. by apply list_elem_of_filter.
Qed.

Lemma managed_final cur t : midway (root_leafs leafs ++ nodes) cur → t ∈ U → managed ts2 t → cur t = final t.
Proof. intros Hmid Ht Hm. apply midway_roots; [done|done|]. by apply managed_same in Hm as (_ & _ & ?). Qed.

Lemma preserved_final cur pre t : midway (root_leafs leafs ++ nodes) cur → (∀ x, x ∈ pre → x ∈ U) → t ∈ U → managed ts2 t →
  intact ts1 alloc_size BF BT AL g (before ts1 alloc_size U BF BT AL leafs g pre) t → preserved cur (computed cur pre) t.
Proof.
  intros Hmid Hpre Ht Hm Hi x Hx. unfold computed. rewrite (compute_ext cur _ (compute final (λ _, None) (inputs ts1 U leafs))).
  - eapply (agree_intact _ _ t); [apply (agree_before pre Hpre)|done|by apply managed_same|done|]. unfold bytes_at in *. by rewrite <- (managed_final cur t).
  - apply compute_ext; [done|]. intros y Hy. apply managed_final; [done|]. by apply list_elem_of_filter in Hy as [_ ?].
  - intros y Hy. apply managed_final; [done|by apply Hpre].
Qed.

Lemma final_laid_out cur : midway (root_leafs leafs ++ nodes) cur → laid_out cur.
Proof.
  intros Hmid. split.
  - intros t Ht Hm. rewrite (managed_final cur t) by done. destruct (placed_in t Ht) as (b & Hb & Hp & _); [by apply managed_same|]. exists b. split; [done|].
    destruct (final_managed t Ht Hm) as (b' & Hp' & E & _). assert (b' = b) as ->.
    { destruct Hp as [_ (p & vb & C1 & C2 & C3 & _) _ _]. destruct Hp' as [_ (p' & vb' & C1' & C2' & C3' & _) _ _]. congruence. }
    destruct (place_size t b Ht Hp) as (S1 & S2 & _). destruct Hp as [_ _ _ (_ & _ & _ & D & _)]. cbn in D. rewrite E. cbn. split_and!; [done|done|lia|lia|].
    by replace (bb_base b + ba_offset (hn_addr (nd g t)) - bb_base b)%Z with (ba_offset (hn_addr (nd g t))) by lia.
  - intros t v Hn Hv Hb Hne. assert (Ht : t ∈ U) by (apply elem_of_app; by right). pose proof Hv as Hv1. rewrite (proj2 (re_src Hre t Ht)) in Hv1. destruct (Hroot t v Ht Hv1) as [HvU Hvn].
    rewrite (midway_roots cur v) in Hne |- * by done. rewrite (mw_done _ _ Hmid t) by (apply elem_of_app; by right). rewrite (final_of_root v) in Hne |- * by done.
    unfold final. rewrite Hv, decide_True by done. done.
  - intros t Hv Hd. destruct (mw_any _ _ Hmid t) as [?|E]; [done|]. rewrite E. unfold final, final_root. rewrite Hv, decide_False; [done|]. by intros (? & _).
Qed.

Lemma final_safe cur : (∀ pre x post p, nodes = pre ++ x :: post → p ∈ sources ts1 x → root ts1 p ∈ U) →
  midway (root_leafs leafs ++ nodes) cur → run_safe cur.
Proof.
  intros Hsr Hmid. destruct Hrv as [(_ & G2 & G3 & _) _ _ _ _ _]. split.
  - intros pre x post p Hn Hp Hm. pose proof (Hsr pre x post p Hn Hp) as Hr. apply preserved_final; [done| |done|done|].
    + intros y Hy. apply elem_of_app. right. rewrite Hn. apply elem_of_app. by left.
    + apply (G2 pre x post p Hn Hp). by apply managed_same.
  - intros t Ht Hm Hrel. apply preserved_final; [done|intros; apply elem_of_app; by right|done|done|]. apply G3; [done|by apply managed_same|done].
Qed.
End alloc.

(** ** Making a graph allocator *)

Section make.
  Variable buft_alignment : Z → Z.
  Variable buft_max_size : Z → Z.
  Variable bufts : list Z.
  Hypothesis Halign : ∀ b, b ∈ bufts → is_power_of_2 (buft_alignment b) = true ∧ (0 < buft_alignment b ≤ SIZE_MAX / 2)%Z ∧ (0 ≤ buft_max_size b)%Z.

(** the allocators of the first [n] types *)
Record made (n : nat) (st : list nat * list ggml_dyn_tallocr) : Prop := {
  md_len : length st.1 = n;
  md_range : ∀ k, k ∈ st.1 ↔ k < length st.2;
  md_same : ∀ i j k, st.1 !! i = Some k → st.1 !! j = Some k → bufts !! i = bufts !! j;
  md_new : ∀ k a, st.2 !! k = Some a → ∃ b, b ∈ bufts ∧ a = ggml_dyn_tallocr_new (buft_alignment b) (buft_max_size b) }.

Lemma new_talloc_ok n b st : bufts !! n = Some b → made n st → made (S n) (new_talloc buft_alignment buft_max_size bufts st (n, b)).
Proof.
  intros Hb [H1 H2 H3 H4]. unfold new_talloc. cbn [fst snd]. pose proof (lookup_lt_Some _ _ _ Hb) as Hn.
  destruct (list_find (λ b', b' = b) (take n bufts)) as [[j x]|] eqn:E.
  - apply list_find_Some in E as (Hj & -> & _). apply lookup_take_Some in Hj as [Hj Hjn]. destruct (lookup_lt_is_Some_2 st.1 j) as [k Hk]; [lia|]. rewrite Hk. change (default 0 (Some k)) with k.
    assert (Hsame : ∀ i, st.1 !! i = Some k → bufts !! i = Some b) by (intros i Hi; rewrite <- Hj; by apply (H3 i j k)).
    split; cbn [fst snd]; [rewrite length_app; cbn; lia| | |done].
    + intros k'. rewrite elem_of_app, list_elem_of_singleton, H2. split; [|by left]. intros [?| ->]; [done|]. apply H2. by eapply list_elem_of_lookup_2.
    + intros i i' k' Hi Hi'. apply lookup_snoc_Some in Hi as [[? Hi]|[-> E1]], Hi' as [[? Hi']|[-> E2]]; rewrite ?H1, ?Hb; [by apply (H3 i i' k')| | |done]; subst k'.
      * by apply Hsame.
      * symmetry. by apply Hsame.
  - assert (Hnot : ∀ i, i < n → bufts !! i ≠ Some b).
    { intros i Hi Hib. apply list_find_None in E. rewrite Forall_forall in E. apply (E b); [|done]. apply (list_elem_of_lookup_2 _ i). by rewrite lookup_take_lt. }
    split; cbn [fst snd]; [rewrite length_app; cbn; lia|..].
    + intros k'. rewrite elem_of_app, list_elem_of_singleton, H2, length_app. cbn. lia.
    + assert (Hfresh : ∀ i, st.1 !! i ≠ Some (length st.2)).
      { intros i Hi. assert (length st.2 < length st.2); [|lia]. apply H2. by eapply list_elem_of_lookup_2. }
      intros i i' k' Hi Hi'. apply lookup_snoc_Some in Hi as [[? Hi]|[-> E1]], Hi' as [[? Hi']|[-> E2]]; [by apply (H3 i i' k')| | |done]; subst k'.
      * by destruct (Hfresh i).
      * by destruct (Hfresh i').
    + intros k' a. intros [[? Hk']|[-> <-]]%lookup_snoc_Some; [by apply (H4 k')|]. exists b. split; [by eapply list_elem_of_lookup_2|done].
Qed.

Abbreviation r0 := (ggml_gallocr_new_n buft_alignment buft_max_size bufts).
Definition alignment_of (k : nat) : Z := default 0%Z (ta_alignment <$> tallocs (ga_plan r0) !! k).

Lemma new_n_made : made (length bufts) (buf_tallocs (ga_plan r0), tallocs (ga_plan r0)).
Proof.
  unfold ggml_gallocr_new_n. cbn. rewrite <- surjective_pairing.
  assert (∀ n, n ≤ length bufts → made n (foldl (new_talloc buft_alignment buft_max_size bufts) ([], []) (take n (enum bufts)))) as H.
  { induction n as [|n IH]; intros Hn; [rewrite take_0; split; cbn; [done|intros k; rewrite elem_of_nil; lia|done|done]|].
    destruct (lookup_lt_is_Some_2 bufts n) as [b Hb]; [lia|]. assert (Hl : enum bufts !! n = Some (n, b)).
    { unfold enum. apply lookup_zip_Some. split; [|done]. apply lookup_seq. lia. }
    rewrite (take_S_r _ _ _ Hl), foldl_snoc. apply new_talloc_ok; [done|]. apply IH. lia. }
  specialize (H (length bufts) (le_n _)). rewrite take_ge in H; [done|]. unfold enum. rewrite length_zip_with, length_seq. lia.
Qed.

Lemma new_n_ok : types_ok bufts (buf_tallocs (ga_plan r0)) (length (tallocs (ga_plan r0))) ∧
  gallocr_ok bufts (buf_tallocs (ga_plan r0)) alignment_of (length (tallocs (ga_plan r0))) r0.
Proof.
  destruct new_n_made as [H1 H2 H3 H4]. cbn [fst snd] in *. split; [by split|]. split.
  - split; [done|done|by left|done|]. intros k a Hk. split; [by unfold alignment_of; rewrite Hk|]. destruct (H4 k a Hk) as (b & Hb & ->). exists [].
    apply dyn_new_ok; by apply Halign.
  - cbn. by rewrite length_replicate.
  - assert (Hnone : ∀ i p, ga_buffers r0 !! i ≠ Some (Some p)) by (intros i p [? _]%lookup_replicate; done).
    split; [intros i p _ H; by destruct (Hnone i p)|done| |intros i j p _ _ H; by destruct (Hnone i p)].
    intros i j _ _ Hi Hij. assert (length (buf_tallocs (ga_plan r0)) = length bufts) as Hl by done.
    assert (j < length bufts). { rewrite <- Hl. apply lookup_lt_is_Some. rewrite <- Hij. apply lookup_lt_is_Some. lia. }
    cbn. by rewrite !lookup_replicate_2 by done.
  - done.
  - done.
Qed.
End make.

(** ** Freeing *)

Lemma free_ok BF BT AL NT r : gallocr_ok BF BT AL NT r → okP (ggml_gallocr_free r) (λ heap, ∀ p vb, heap !! p ≠ Some (Some vb)).
Proof.
  intros [_ _ [L R _ _] _ _]. unfold ggml_gallocr_free. set (bs := ga_buffers r) in *.
  eapply okP_mono; [apply (okP_for _ (λ i heap, ∀ p vb, heap !! p = Some (Some vb) ↔ ga_heap r !! p = Some (Some vb) ∧ Some p ∉ take i bs) _ (length bs))|].
  - intros p vb. cbn. rewrite elem_of_nil. tauto.
  - intros i heap Hi Hh. destruct (lookup_lt_is_Some_2 bs i Hi) as [p Hp]. unfold free_buffer. rewrite (vget_ok _ _ _ Hp), bind_Ok, (take_S_r _ _ _ Hp).
    destruct (decide (p ∈ take i bs)) as [Hin|Hin].
    { cbn. intros q vb. rewrite Hh, elem_of_app, list_elem_of_singleton. split; [|tauto]. intros [? Hq]. split; [done|]. intros [?|<-]; done. }
    destruct p as [q|]; cbn [ggml_vbuffer_free].
    2: { cbn. intros q vb. rewrite Hh, elem_of_app, list_elem_of_singleton. split; [|tauto]. intros [? Hq]. split; [done|]. by intros [?|?]. }
    destruct (L i q I Hp) as (vb & Hvb & _). assert (Hq : heap !! q = Some (Some vb)) by by apply Hh. rewrite (vb_get_ok _ _ _ Hq), bind_Ok, vset_ok by by eapply lookup_lt_Some.
    cbn. intros q' vb'. rewrite elem_of_app, list_elem_of_singleton. destruct (decide (q' = q)) as [->|Hne].
    + rewrite list_lookup_insert_eq by by eapply lookup_lt_Some. split; [done|]. intros [_ Hn]. destruct Hn. by right.
    + rewrite list_lookup_insert_ne, Hh by done. split; [|tauto]. intros [? ?]. split; [done|]. intros [?|[= ->]]; done.
  - intros heap Hh p vb Hp. apply Hh in Hp as [Hp Hn]. destruct (R p vb Hp) as (i & _ & Hi). apply Hn. rewrite firstn_all. by eapply list_elem_of_lookup_2.
Qed.

(** ** Reserving, placing, freeing *)

Section life.
  Variable alloc_size : Z → ggml_tensor → Z.
  Variable alloc_buffer : nat → Z → Z → option backend_buffer.
  Variable keys_mem : nat → list Z.
  Hypothesis Hkeys : ∀ n, length (keys_mem n) = n.
  Hypothesis Hback : backend_ok alloc_buffer.
  Variable BF : list Z.
  Variable BT : list nat.
  Variable AL : nat → Z.
  Variable NT : nat.
  Hypothesis Hty : types_ok BF BT NT.

(** a graph for which the planner succeeds *)
Record plannable (ts : Z → ggml_tensor) (nodes leafs : list Z) (node_ids leaf_ids : option (list Z)) : Prop := {
  pl_some : leafs ++ nodes ≠ [];
  pl_input : plan_input ts alloc_size BF BT AL NT nodes leafs node_ids leaf_ids;
  pl_room : ∃ sz, plan_room alloc_size BF BT AL ts nodes leafs sz;
  pl_pending : no_pending ts (leafs ++ nodes) }.

(** what a graph whose tensors were placed satisfies *)
Definition placed_well (ts1 ts2 : Z → ggml_tensor) (nodes leafs : list Z) (r : gallocr) (cur : Z → ggml_tensor) : Prop :=
  gallocr_ok BF BT AL NT r ∧ laid_out alloc_size BF BT AL nodes leafs ts2 r cur ∧
  (buffers_apart (ga_heap r) → run_safe alloc_size BF nodes leafs ts1 ts2 r cur).

Lemma reserve_plannable ts nodes leafs node_ids leaf_ids r : gallocr_ok BF BT AL NT r → plannable ts nodes leafs node_ids leaf_ids →
  okP (ggml_gallocr_reserve_n alloc_size alloc_buffer keys_mem ts r (Graph nodes leafs) node_ids leaf_ids) (λ st,
    if st.2 then gallocr_ok BF BT AL NT st.1 ∧ reserved alloc_size BF BT AL ts nodes leafs st.1 else refused alloc_buffer BF BT r st.1).
Proof. intros Hok [H1 H2 [sz H3] H4]. by apply (reserve_ok alloc_size alloc_buffer keys_mem Hkeys Hback BF BT AL NT ts nodes leafs node_ids leaf_ids sz). Qed.

Lemma refits_self ts nodes leafs node_ids leaf_ids : plannable ts nodes leafs node_ids leaf_ids → refits alloc_size nodes leafs ts ts.
Proof. intros [_ _ [sz [H _ _ _]] _]. split; [done|done|]. intros b t Ht. specialize (H b t Ht). lia. Qed.

Section graph.
  Variable ts1 ts2 : Z → ggml_tensor.
  Variable nodes leafs : list Z.
  Variable node_ids leaf_ids : option (list Z).
  Hypothesis Hpl : plannable ts1 nodes leafs node_ids leaf_ids.
  Hypothesis Hre : refits alloc_size nodes leafs ts1 ts2.
  Hypothesis Hx2 : no_pending ts2 (leafs ++ nodes).
  Variable r : gallocr.
  Hypothesis Hok : gallocr_ok BF BT AL NT r.
  Hypothesis Hrv : reserved alloc_size BF BT AL ts1 nodes leafs r.

Lemma graph_srcs pre x post p : nodes = pre ++ x :: post → p ∈ sources ts1 x → p ∈ leafs ++ nodes ∧ root ts1 p ∈ leafs ++ nodes.
Proof.
  intros Hn Hp. destruct (pl_input _ _ _ _ _ Hpl) as [_ Hgo _ _ _ _]. assert (p ∈ leafs ++ nodes) as HpU.
  { destruct (go_srcs _ _ _ _ Hgo pre x post p Hn Hp) as [?|Hpre]; apply elem_of_app; [by left|right]. rewrite Hn. apply elem_of_app. by left. }
  split; [done|]. unfold root. destruct (t_view_src (ts1 p)) as [w|] eqn:Hv; [|done]. by apply (go_view _ _ _ _ Hgo p w).
Qed.

Lemma node_srcs x t : x ∈ nodes → t ∈ sources ts1 x → t ∈ leafs ++ nodes.
Proof. intros Hx Ht. apply list_elem_of_split in Hx as (pre & post & Hn). by apply (graph_srcs pre x post). Qed.

Lemma no_realloc : ggml_gallocr_needs_realloc alloc_size ts2 r (Graph nodes leafs) = Ok false.
Proof. exact (needs_realloc_ok alloc_size BF BT AL nodes leafs ts1 ts2 Hre r Hrv node_srcs). Qed.

Lemma place_all_well : okP (foldM (λ _ p, ggml_vbuffer_reset (ga_heap r) p) tt (ga_buffers r);; cur ← foldM (init_leaf alloc_size r) ts2 (enum leafs); foldM (init_node alloc_size r) cur (enum nodes))
  (placed_well ts1 ts2 nodes leafs r).
Proof.
  destruct (pl_input _ _ _ _ _ Hpl) as [_ Hgo _ _ _ _]. pose proof (pl_pending _ _ _ _ _ Hpl) as Hx1.
  assert (Hroot : ∀ t v, t ∈ leafs ++ nodes → t_view_src (ts1 t) = Some v → v ∈ leafs ++ nodes ∧ t_view_src (ts1 v) = None) by apply (go_view _ _ _ _ Hgo).
  eapply okP_mono; [apply (place_all_ok alloc_size BF BT AL NT nodes leafs ts1 ts2 Hre Hx1 Hx2 Hty r Hok Hrv Hroot (go_view_order _ _ _ _ Hgo) node_srcs)|].
  intros cur Hmid. split_and!; [done| |].
  - by apply (final_laid_out alloc_size BF BT AL NT nodes leafs ts1 ts2 Hre Hx1 Hx2 Hty r Hok Hrv Hroot).
  - intros Hapart. apply (final_safe alloc_size BF BT AL NT nodes leafs ts1 ts2 Hre Hx1 Hx2 Hty r Hok Hrv Hapart); [|done]. intros pre x post p Hn Hp. by apply (graph_srcs pre x post).
Qed.
End graph.

(** C10. Memory is reserved for a graph and then given to the tensors of this graph, or of one of the same shape whose
    tensors are not larger.  Then no reallocation is found necessary and every tensor that needs memory lies, aligned,
    in a buffer of its type and inside it, views follow the tensor they are a view of, and tensors that had data keep
    it; if the buffers of the back end do not overlap and the nodes are computed in order, all sources of a node still
    hold what was written to them, and at the end so do the outputs.  Only a refusal of the back end prevents this. *)
Theorem gallocr_run_correct ts1 ts2 nodes leafs node_ids leaf_ids r :
  gallocr_ok BF BT AL NT r → plannable ts1 nodes leafs node_ids leaf_ids → refits alloc_size nodes leafs ts1 ts2 → no_pending ts2 (leafs ++ nodes) →
  okP (st ← ggml_gallocr_reserve_n alloc_size alloc_buffer keys_mem ts1 r (Graph nodes leafs) node_ids leaf_ids;
       if (st.2 : bool) then o ← ggml_gallocr_alloc_graph alloc_size alloc_buffer keys_mem ts2 st.1 (Graph nodes leafs); Ok (st.1, Some o) else Ok (st.1, None)) (λ o,
    match o with
    | (r1, Some (cur, r2, ok)) => ok = true ∧ r2 = r1 ∧ placed_well ts1 ts2 nodes leafs r2 cur
    | (r1, None) => refused alloc_buffer BF BT r r1
    end).
Proof.
  intros Hok Hpl Hre Hx2. eapply okP_bind; [by apply reserve_plannable|]. intros [r1 [|]] H1; cbn [fst snd] in *; [|done]. destruct H1 as [Hok1 Hrv1].
  pose proof (place_all_well ts1 ts2 nodes leafs node_ids leaf_ids Hpl Hre Hx2 r1 Hok1 Hrv1) as Hall.
  unfold ggml_gallocr_alloc_graph. rewrite (no_realloc ts1 ts2 nodes leafs node_ids leaf_ids Hpl Hre r1 Hrv1), !bind_Ok. cbn [negb g_nodes g_leafs].
  revert Hall. destruct (foldM _ tt _) as [[]|]; [rewrite !bind_Ok|done]. destruct (foldM _ ts2 _) as [c|]; [rewrite !bind_Ok|done].
  destruct (foldM _ c _) as [c'|]; [rewrite !bind_Ok|done]. by intros Hall.
Qed.

(** With one buffer, placing a graph for which the memory does not suffice first reserves it: the call returns true
    with the tensors placed just as well, or the back end has refused a buffer and it returns false. *)
Theorem gallocr_auto_correct ts nodes leafs r :
  length (ga_buffers r) = 1 → gallocr_ok BF BT AL NT r → plannable ts nodes leafs None None →
  ggml_gallocr_needs_realloc alloc_size ts r (Graph nodes leafs) = Ok true →
  okP (ggml_gallocr_alloc_graph alloc_size alloc_buffer keys_mem ts r (Graph nodes leafs)) (λ o,
    if o.2 then placed_well ts ts nodes leafs o.1.2 o.1.1 else refused alloc_buffer BF BT r o.1.2).
Proof.
  intros Hone Hok Hpl Hneed. unfold ggml_gallocr_alloc_graph. rewrite Hneed, bind_Ok, decide_True by done. unfold ggml_gallocr_reserve.
  eapply okP_bind; [by apply reserve_plannable|]. intros [r1 [|]] H1; cbn [fst snd negb g_nodes g_leafs] in *; [|done]. destruct H1 as [Hok1 Hrv1].
  pose proof (place_all_well ts ts nodes leafs None None Hpl (refits_self _ _ _ _ _ Hpl) (pl_pending _ _ _ _ _ Hpl) r1 Hok1 Hrv1) as Hall.
  revert Hall. destruct (foldM _ tt _) as [[]|]; [rewrite !bind_Ok|done]. destruct (foldM _ ts _) as [c|]; [rewrite !bind_Ok|done].
  destruct (foldM _ c _) as [c'|]; [rewrite !bind_Ok|done]. by intros Hall.
Qed.
End life.

(** a sequence of graphs for which memory is reserved, up to the first refusal *)
Record job := Job { jb_ts : Z → ggml_tensor; jb_nodes : list Z; jb_leafs : list Z; jb_node_ids : option (list Z); jb_leaf_ids : option (list Z) }.
Definition reserve_job alloc_size alloc_buffer keys_mem (st : gallocr * bool) (j : job) : res (gallocr * bool) :=
  if st.2 then ggml_gallocr_reserve_n alloc_size alloc_buffer keys_mem (jb_ts j) st.1 (Graph (jb_nodes j) (jb_leafs j)) (jb_node_ids j) (jb_leaf_ids j) else Ok st.

(** C11. A graph allocator is made for any list of buffer types, memory is reserved for any number of graphs, and it is
    freed: no buffer is used after it was freed or freed twice, and in the end none is left.  Only a refusal of the back
    end prevents this. *)
Theorem gallocr_free_all alloc_size buft_alignment buft_max_size alloc_buffer keys_mem bufts jobs :
  (∀ n, length (keys_mem n) = n) → backend_ok alloc_buffer →
  (∀ b, b ∈ bufts → is_power_of_2 (buft_alignment b) = true ∧ (0 < buft_alignment b ≤ SIZE_MAX / 2)%Z ∧ (0 ≤ buft_max_size b)%Z) →
  let r0 := ggml_gallocr_new_n buft_alignment buft_max_size bufts in
  (∀ j, j ∈ jobs → plannable alloc_size bufts (buf_tallocs (ga_plan r0)) (alignment_of buft_alignment buft_max_size bufts) (length (tallocs (ga_plan r0)))
    (jb_ts j) (jb_nodes j) (jb_leafs j) (jb_node_ids j) (jb_leaf_ids j)) →
  okP (st ← foldM (reserve_job alloc_size alloc_buffer keys_mem) (r0, true) jobs;
       if (st.2 : bool) then heap ← ggml_gallocr_free st.1; Ok (st.1, Some heap) else Ok (st.1, None)) (λ o,
    match o with (_, Some heap) => ∀ p vb, heap !! p ≠ Some (Some vb) | (r, None) => refused alloc_buffer bufts (buf_tallocs (ga_plan r0)) r0 r end).
Proof.
  intros Hkeys Hback Hal r0 Hjobs. destruct (new_n_ok buft_alignment buft_max_size bufts Hal) as [Hty Hok].
  eapply okP_bind; [apply (okP_foldM _ (λ _ (st : gallocr * bool), if st.2 then gallocr_ok bufts (buf_tallocs (ga_plan r0)) (alignment_of buft_alignment buft_max_size bufts) (length (tallocs (ga_plan r0))) st.1
    else refused alloc_buffer bufts (buf_tallocs (ga_plan r0)) r0 st.1)); [done|]|].
  - intros pre j post [r [|]] Hs H; [|done]. unfold reserve_job. cbn [snd fst] in *.
    eapply okP_mono; [eapply (reserve_plannable alloc_size alloc_buffer keys_mem Hkeys Hback); [exact Hty|exact H|apply Hjobs; rewrite Hs; apply elem_of_app; right; left]|].
    intros [r' [|]] H'; cbn [snd fst] in *; [apply H'|]. destruct H' as (i & k & b & a & F1 & F2 & F3 & m & ck & F4 & F5 & F6 & F7).
    exists i, k, b, a. split_and!; [done|done|done|]. exists m, ck. split_and!; [cbn; lia|done|done|done].
  - intros [r [|]] H; cbn [snd fst] in *; [|done]. eapply okP_bind; [by eapply free_ok|]. intros heap Hh. exact Hh.
Qed.

(** ** The theorems at the example *)

Abbreviation ex_new := (ggml_gallocr_new_n ex_align ex_max [7]%Z).
Abbreviation ex_al := (alignment_of ex_align ex_max [7]%Z).

Lemma ex_backend_ok : backend_ok (ex_backend 2048).
Proof.
  intros n b s x. unfold ex_backend. case_decide as H; [|done]. intros [= <-]. destruct H as [[H1 H2] H3]. split; [done|].
  split_and!; cbn [bb_base bb_size bb_ptr]; [lia|lia|lia|]. unfold SIZE_MAX. lia.
Qed.

Lemma ex_types b : b ∈ [7]%Z → is_power_of_2 (ex_align b) = true ∧ (0 < ex_align b ≤ SIZE_MAX / 2)%Z ∧ (0 ≤ ex_max b)%Z.
Proof. intros _. by apply (bool_decide_unpack _). Qed.

Lemma ex_plannable : plannable ex_size [7]%Z [0] ex_al 1 ex_ts ex_nodes ex_leafs None None.
Proof.
  destruct ex_input as [H1 H2 H3 H4 H5 H6]. split; [done|split|exists (λ _, 128%Z); split|]; try done.
  - intros b t [|k] Ht Hk; [|lia]. by apply (H4 b t 0).
  - intros id t [H0 H] _. assert (Z.to_nat id = 0) as E by (cbn in H; lia). unfold psize, talloc_of. rewrite E. by apply (bool_decide_unpack _).
  - exact ex_roomy.
  - intros t _ _ _. unfold ex_ts. repeat case_match; done.
Qed.

(** one buffer of one chunk *)
Lemma one_chunk_apart buft b n : buffers_apart [Some (VBuffer buft (Some b :: replicate n None))].
Proof.
  assert (Hc : ∀ c b', (Some b :: replicate n None) !! c = Some (Some b') → c = 0).
  { intros [|c] b' Hc; [done|]. by apply lookup_replicate in Hc as [? _]. }
  intros p p' vb vb' c c' b1 b2 Hp Hp' H H'. destruct p as [|p]; [|done]. destruct p' as [|p']; [|done]. cbn in Hp, Hp'. injection Hp as <-. injection Hp' as <-.
  left. split; [done|]. by rewrite (Hc c b1), (Hc c' b2).
Qed.

Definition ex_run : res (gallocr * option ((Z → ggml_tensor) * gallocr * bool)) :=
  st ← ggml_gallocr_reserve_n ex_size (ex_backend 2048) ex_keys ex_ts ex_new (Graph ex_nodes ex_leafs) None None;
  if (st.2 : bool) then o ← ggml_gallocr_alloc_graph ex_size (ex_backend 2048) ex_keys ex_ts st.1 (Graph ex_nodes ex_leafs); Ok (st.1, Some o) else Ok (st.1, None).

Lemma ex_run_heap : okP ex_run (λ o, ∃ b n, (r ← o.2; Some (ga_heap r.1.2)) = Some [Some (VBuffer 7 (Some b :: replicate n None))]).
Proof.
  assert (∃ c c' r1 r2, ex_run = Ok (r1, Some (c, r2, c')) ∧ ga_heap r2 = [Some (VBuffer 7 (Some (BackendBuffer 1 65536 256) :: replicate 15 None))]) as (c & c' & r1 & r2 & -> & H).
  { do 4 eexists. split; [vm_compute; reflexivity|reflexivity]. }
  exists (BackendBuffer 1 65536 256), 15. cbn. by rewrite H.
Qed.

Lemma gallocr_run_correct_witness : okP ex_run (λ o, match o with
  | (r1, Some (cur, r2, ok)) => ok = true ∧ preserved ex_size [7]%Z ex_ts r2 cur (computed ex_size [7]%Z ex_nodes ex_leafs ex_ts ex_ts r2 cur [48; 64; 80]%Z) 64
  | (r1, None) => refused (ex_backend 2048) [7]%Z [0] ex_new r1 end).
Proof.
  destruct (new_n_ok ex_align ex_max [7]%Z ex_types) as [Hty Hok]. pose proof ex_run_heap as Hheap.
  pose proof (gallocr_run_correct ex_size (ex_backend 2048) ex_keys (λ n, length_replicate n 0%Z) ex_backend_ok [7]%Z [0] ex_al 1 Hty ex_ts ex_ts ex_nodes ex_leafs None None
    ex_new Hok ex_plannable (refits_self _ _ _ _ _ _ _ _ _ _ ex_plannable) (pl_pending _ _ _ _ _ _ _ _ _ _ ex_plannable)) as H.
  change (okP ex_run (λ o, match o with
    | (r1, Some (cur, r2, ok)) => ok = true ∧ r2 = r1 ∧ placed_well ex_size [7]%Z [0] ex_al 1 ex_ts ex_ts ex_nodes ex_leafs r2 cur
    | (r1, None) => refused (ex_backend 2048) [7]%Z [0] ex_new r1 end)) in H.
  destruct ex_run as [[r1 [[[cur r2] ok]|]]|]; [|exact H|exact H]. cbn [okP] in *. destruct H as (H1 & _ & _ & _ & Hsafe). split; [exact H1|].
  destruct Hheap as (b & n & Hb). cbn in Hb. injection Hb as Hb.
  apply (lo_srcs _ _ _ _ _ _ _ _ (Hsafe ltac:(rewrite Hb; apply one_chunk_apart)) [48; 64; 80]%Z 96%Z [112]%Z 80%Z); [done|cbn; left|done].
Defined.

Lemma gallocr_auto_correct_witness : okP (ggml_gallocr_alloc_graph ex_size (ex_backend 2048) ex_keys ex_ts ex_new (Graph ex_nodes ex_leafs)) (λ o,
  if o.2 then placed_well ex_size [7]%Z [0] ex_al 1 ex_ts ex_ts ex_nodes ex_leafs o.1.2 o.1.1 else refused (ex_backend 2048) [7]%Z [0] ex_new o.1.2).
Proof.
  destruct (new_n_ok ex_align ex_max [7]%Z ex_types) as [Hty Hok].
  apply (gallocr_auto_correct ex_size (ex_backend 2048) ex_keys (λ n, length_replicate n 0%Z) ex_backend_ok [7]%Z [0] ex_al 1 Hty ex_ts ex_nodes ex_leafs ex_new); [done|exact Hok|exact ex_plannable|].
  vm_compute. reflexivity.
Defined.

Lemma gallocr_free_all_witness : okP (st ← foldM (reserve_job ex_size (ex_backend 2048) ex_keys) (ex_new, true) [Job ex_ts ex_nodes ex_leafs None None; Job ex_ts ex_nodes ex_leafs None None];
  if (st.2 : bool) then heap ← ggml_gallocr_free st.1; Ok (st.1, Some heap) else Ok (st.1, None)) (λ o,
  match o with (_, Some heap) => ∀ p vb, heap !! p ≠ Some (Some vb) | (r, None) => refused (ex_backend 2048) [7]%Z [0] ex_new r end).
Proof.
  apply (gallocr_free_all ex_size ex_align ex_max (ex_backend 2048) ex_keys [7]%Z [Job ex_ts ex_nodes ex_leafs None None; Job ex_ts ex_nodes ex_leafs None None]
    (λ n, length_replicate n 0%Z) ex_backend_ok ex_types).
  intros j Hj. apply elem_of_cons in Hj as [->|Hj]; [exact ex_plannable|]. apply list_elem_of_singleton in Hj as ->. exact ex_plannable.
Defined.

(** ** What goes wrong *)

(** Reserving again for a graph of the same counts and sizes is found unnecessary, whatever the tensors read: the fourth
    step of [chain_ts true] also reads the first one, 32, whose memory was reused for the third one, 64, by the plan of
    [chain_ts false], and [ggml_gallocr_alloc_graph] returns true with both at one address. *)
Theorem gallocr_stale_plan : stale = Ok (true, [65536; 65568; 65600; 65568; 65600]%Z).
Proof. vm_compute. reflexivity. Qed.

(** After a refused reallocation of a buffer that two ids share, the pointer of the second id is left to the freed
    buffer, and freeing the allocator uses it. *)
Theorem gallocr_refused_dangling : twice = Err Dangling.
Proof. vm_compute. reflexivity. Qed.
