(* ===== verification/Peg.v ===== *)
(** PEG parsers: common/peg-parser.h and .cpp, the parser of the replies of a model, and the UTF-8 reader of
    common/unicode.cpp that it uses.

    Texts are lists of bytes (0..255).  The output for debugging and the depth that indents it are left out, and so is the
    JSON schema of a schema parser, which is used to generate a grammar only.  A context is its text, the flag for
    lenient parsing and the arena of the syntax tree, which is passed from call to call. *)
From S2P Require Import Prelude.
From stdpp Require Import gmap.

(** ** common/unicode.cpp *)

Inductive utf8_status := UTF8_SUCCESS | UTF8_INCOMPLETE | UTF8_INVALID.
#[export] Instance utf8_status_eq_dec : EqDecision utf8_status.
Proof. solve_decision. Defined.

Record utf8_parse_result := Utf8Result { u_status : utf8_status; codepoint : Z; bytes_consumed : nat }.
Definition utf8_bad (st : utf8_status) : utf8_parse_result := Utf8Result st 0 0.

Definition common_utf8_sequence_length (first_byte : Z) : res nat :=
  vget [1; 1; 1; 1; 1; 1; 1; 1; 1; 1; 1; 1; 2; 2; 3; 4] (Z.to_nat (Z.shiftr first_byte 4)).

(** (b & 0xc0) != 0x80 *)
Definition not_cont (b : Z) : bool := bool_decide (Z.land b 192 ≠ 128)%Z.

Definition common_parse_utf8_codepoint (input : list Z) (offset : nat) : utf8_parse_result :=
  let size := length input in
  let byte k := default 0%Z (input !! (offset + k)) in
  let b0 := byte 0 in let b1 := byte 1 in let b2 := byte 2 in let b3 := byte 3 in
  if decide (size ≤ offset) then utf8_bad UTF8_INCOMPLETE
  else if decide (Z.land b0 128 = 0)%Z then Utf8Result UTF8_SUCCESS b0 1
  else if decide (Z.land b0 64 = 0)%Z then utf8_bad UTF8_INVALID
  else if decide (Z.land b0 32 = 0)%Z then
    if decide (size ≤ offset + 1) then utf8_bad UTF8_INCOMPLETE
    else if not_cont b1 then utf8_bad UTF8_INVALID
    else Utf8Result UTF8_SUCCESS (Z.lor (Z.shiftl (Z.land b0 31) 6) (Z.land b1 63)) 2
  else if decide (Z.land b0 16 = 0)%Z then
    if decide (size ≤ offset + 2) then utf8_bad UTF8_INCOMPLETE
    else if not_cont b1 || not_cont b2 then utf8_bad UTF8_INVALID
    else Utf8Result UTF8_SUCCESS (Z.lor (Z.lor (Z.shiftl (Z.land b0 15) 12) (Z.shiftl (Z.land b1 63) 6)) (Z.land b2 63)) 3
  else if decide (Z.land b0 8 = 0)%Z then
    if decide (size ≤ offset + 3) then utf8_bad UTF8_INCOMPLETE
    else if not_cont b1 || not_cont b2 || not_cont b3 then utf8_bad UTF8_INVALID
    else Utf8Result UTF8_SUCCESS (Z.lor (Z.lor (Z.lor (Z.shiftl (Z.land b0 7) 18) (Z.shiftl (Z.land b1 63) 12)) (Z.shiftl (Z.land b2 63) 6)) (Z.land b3 63)) 4
  else utf8_bad UTF8_INVALID.

Definition common_unicode_cpt_to_utf8 (cpt : Z) : res (list Z) :=
  if decide (cpt ≤ 127)%Z then Ok [cpt]
  else if decide (128 ≤ cpt ≤ 2047)%Z then Ok [Z.lor 192 (Z.land (Z.shiftr cpt 6) 31); Z.lor 128 (Z.land cpt 63)]
  else if decide (2048 ≤ cpt ≤ 65535)%Z then
    Ok [Z.lor 224 (Z.land (Z.shiftr cpt 12) 15); Z.lor 128 (Z.land (Z.shiftr cpt 6) 63); Z.lor 128 (Z.land cpt 63)]
  else if decide (65536 ≤ cpt ≤ 1114111)%Z then
    Ok [Z.lor 240 (Z.land (Z.shiftr cpt 18) 7); Z.lor 128 (Z.land (Z.shiftr cpt 12) 63); Z.lor 128 (Z.land (Z.shiftr cpt 6) 63); Z.lor 128 (Z.land cpt 63)]
  else Err Throw.

Definition common_unicode_cpts_to_utf8 (cps : list Z) : res (list Z) :=
  foldM (λ result cpt, c ← common_unicode_cpt_to_utf8 cpt; Ok (result ++ c)) [] cps.

(** ** The trie of the delimiters *)

Record trie_node := TrieNode { children : gmap Z nat; is_word : bool }.
Inductive match_result := NO_MATCH | PARTIAL_MATCH | COMPLETE_MATCH.
#[export] Instance match_result_eq_dec : EqDecision match_result.
Proof. solve_decision. Defined.

Definition create_node (nodes : list trie_node) : list trie_node := nodes ++ [TrieNode ∅ false].

(** insert(word), from the node and the position reached *)
Fixpoint trie_walk (fuel : nat) (nodes : list trie_node) (word : list Z) (current pos : nat) : res (list trie_node * nat) :=
  match fuel with
  | 0 => Err OutOfFuel
  | S fuel =>
      if decide (pos < length word) then
        let result := common_parse_utf8_codepoint word pos in
        if decide (u_status result ≠ UTF8_SUCCESS) then Ok (nodes, current)
        else
          let ch := codepoint result in
          let pos := pos + bytes_consumed result in
          node ← vget nodes current;
          match children node !! ch with
          | Some child => trie_walk fuel nodes word child pos
          | None =>
              let child := length nodes in
              let nodes := create_node nodes in
              nodes ← vset nodes current (TrieNode (<[ch := child]> (children node)) (is_word node));
              trie_walk fuel nodes word child pos
          end
      else Ok (nodes, current)
  end.
Definition trie_insert (nodes : list trie_node) (word : list Z) : res (list trie_node) :=
  r ← trie_walk (S (length word)) nodes word 0 0;
  node ← vget r.1 r.2; vset r.1 r.2 (TrieNode (children node) true).
Definition trie (words : list (list Z)) : res (list trie_node) := foldM trie_insert (create_node []) words.

(** check_at(sv, start_pos), from the node and the position reached *)
Fixpoint check_walk (fuel : nat) (nodes : list trie_node) (sv : list Z) (current pos : nat) : res match_result :=
  match fuel with
  | 0 => Err OutOfFuel
  | S fuel =>
      let stop := Ok (if decide (current ≠ 0) then PARTIAL_MATCH else NO_MATCH) in
      if decide (pos < length sv) then
        let result := common_parse_utf8_codepoint sv pos in
        if decide (u_status result ≠ UTF8_SUCCESS) then stop
        else
          node ← vget nodes current;
          match children node !! codepoint result with
          | None => Ok NO_MATCH
          | Some current =>
              node ← vget nodes current;
              if is_word node then Ok COMPLETE_MATCH else check_walk fuel nodes sv current (pos + bytes_consumed result)
          end
      else stop
  end.
Definition check_at (nodes : list trie_node) (sv : list Z) (start_pos : nat) : res match_result :=
  check_walk (S (length sv)) nodes sv 0 start_pos.

(** ** Parsers, the arena, the syntax tree *)

Abbreviation common_peg_parser_id := nat (only parsing).
Abbreviation common_peg_ast_id := nat (only parsing).

Inductive common_peg_parser_variant :=
  | epsilon_parser
  | start_parser
  | end_parser
  | literal_parser (literal : list Z)
  | sequence_parser (children : list common_peg_parser_id)
  | choice_parser (children : list common_peg_parser_id)
  | repetition_parser (child : common_peg_parser_id) (min_count max_count : Z)
  | and_parser (child : common_peg_parser_id)
  | not_parser (child : common_peg_parser_id)
  | any_parser
  | space_parser
  | chars_parser (pattern : list Z) (ranges : list (Z * Z)) (negated : bool) (min_count max_count : Z)
  | string_parser (delimiter : Z)
  | until_parser (delimiters : list (list Z))
  | schema_parser (child : common_peg_parser_id) (name : list Z) (raw : bool)
  | rule_parser (name : list Z) (child : common_peg_parser_id) (trigger : bool)
  | ref_parser (name : list Z)
  | atomic_parser (child : common_peg_parser_id)
  | tag_parser (child : common_peg_parser_id) (tag : list Z).

Record common_peg_arena := PegArena {
  parsers_ : list common_peg_parser_variant;
  rules_ : gmap (list Z) common_peg_parser_id;
  root_ : option common_peg_parser_id      (* None: COMMON_PEG_INVALID_PARSER_ID *)
}.

Record common_peg_ast_node := AstNode {
  n_rule : list Z; n_tag : list Z; n_start : nat; n_end : nat; n_text : list Z; n_children : list common_peg_ast_id; n_partial : bool }.
Abbreviation ast_arena := (list common_peg_ast_node).

(** the id of a node is its index *)
Definition add_node (ast : ast_arena) (n : common_peg_ast_node) : common_peg_ast_id * ast_arena := (length ast, ast ++ [n]).

Inductive common_peg_parse_result_type := PEG_FAIL | PEG_SUCCESS | PEG_NEED_MORE_INPUT.
#[export] Instance peg_type_eq_dec : EqDecision common_peg_parse_result_type.
Proof. solve_decision. Defined.

Record common_peg_parse_result := PegResult {
  r_type : common_peg_parse_result_type; r_start : nat; r_end : nat; r_nodes : list common_peg_ast_id }.

(** the two constructors without nodes *)
Definition result_at (t : common_peg_parse_result_type) (start : nat) : common_peg_parse_result := PegResult t start start [].
Definition result_to (t : common_peg_parse_result_type) (start stop : nat) : common_peg_parse_result := PegResult t start stop [].

Definition get_rule (arena : common_peg_arena) (name : list Z) : res common_peg_parser_id := of_option Throw (rules_ arena !! name).

(** ** parser_executor *)

Section executor.
  Context (arena : common_peg_arena) (input : list Z) (lenient : bool).

(** at the end of the text: more of it is needed if the text is a part of a stream *)
Definition at_end (start pos : nat) : common_peg_parse_result :=
  if lenient then result_to PEG_NEED_MORE_INPUT start pos else result_at PEG_FAIL start.

Fixpoint literal_loop (literal : list Z) (start pos : nat) : common_peg_parse_result :=
  match literal with
  | [] => result_to PEG_SUCCESS start pos
  | c :: literal =>
      match input !! pos with
      | None => at_end start pos
      | Some b => if decide (b ≠ c) then result_at PEG_FAIL start else literal_loop literal start (S pos)
      end
  end.

Definition exec_any (start : nat) : common_peg_parse_result :=
  let result := common_parse_utf8_codepoint input start in
  match u_status result with
  | UTF8_INCOMPLETE => if lenient then result_at PEG_NEED_MORE_INPUT start else result_at PEG_FAIL start
  | UTF8_INVALID => result_at PEG_FAIL start
  | UTF8_SUCCESS => result_to PEG_SUCCESS start (start + bytes_consumed result)
  end.

(** std::isspace in the C locale *)
Definition isspace (c : Z) : bool := bool_decide (c = 32 ∨ 9 ≤ c ≤ 13)%Z.
Fixpoint space_loop (rest : list Z) (pos : nat) : nat :=
  match rest with
  | c :: rest => if isspace c then space_loop rest (S pos) else pos
  | [] => pos
  end.

Definition range_contains (cp : Z) (range : Z * Z) : bool := bool_decide (range.1 ≤ cp ≤ range.2)%Z.

Fixpoint chars_loop (fuel : nat) (ranges : list (Z * Z)) (negated : bool) (min_count max_count : Z) (start pos : nat) (match_count : Z) : res common_peg_parse_result :=
  match fuel with
  | 0 => Err OutOfFuel
  | S fuel =>
      let stop := Ok (if decide (match_count < min_count)%Z then
          if decide (length input ≤ pos) then (if lenient then result_to PEG_NEED_MORE_INPUT start pos else result_to PEG_FAIL start pos)
          else result_to PEG_FAIL start pos
        else result_to PEG_SUCCESS start pos) in
      if decide (max_count = -1 ∨ match_count < max_count)%Z then
        let result := common_parse_utf8_codepoint input pos in
        match u_status result with
        | UTF8_INCOMPLETE => Ok (if decide (min_count ≤ match_count)%Z then result_to PEG_SUCCESS start pos else at_end start pos)
        | UTF8_INVALID => Ok (if decide (min_count ≤ match_count)%Z then result_to PEG_SUCCESS start pos else result_at PEG_FAIL start)
        | UTF8_SUCCESS =>
            let matches := existsb (range_contains (codepoint result)) ranges in
            let matches := if negated then negb matches else matches in
            if matches : bool then chars_loop fuel ranges negated min_count max_count start (pos + bytes_consumed result) (match_count + 1)
            else stop
        end
      else stop
  end.

Definition is_hex_digit (c : Z) : bool := bool_decide ((48 ≤ c ≤ 57) ∨ (97 ≤ c ≤ 102) ∨ (65 ≤ c ≤ 70))%Z.

(** the n hex digits that are left of a \u; with a success the position behind them *)
Fixpoint unicode_loop (n : nat) (start pos : nat) : common_peg_parse_result :=
  match n with
  | 0 => result_to PEG_SUCCESS start pos
  | S n =>
      match input !! pos with
      | None => at_end start pos
      | Some c => if is_hex_digit c then unicode_loop n start (S pos) else result_at PEG_FAIL start
      end
  end.
Definition handle_unicode_escape (start pos : nat) : common_peg_parse_result := unicode_loop 4 start (S pos).

(** b f n r t *)
Definition escape_char (delimiter c : Z) : bool :=
  bool_decide (c = delimiter ∨ c = 92 ∨ c = 47 ∨ c = 98 ∨ c = 102 ∨ c = 110 ∨ c = 114 ∨ c = 116)%Z.
Definition handle_escape_sequence (start pos : nat) (delimiter : Z) : common_peg_parse_result :=
  let pos := S pos in
  match input !! pos with
  | None => at_end start pos
  | Some c =>
      if escape_char delimiter c then result_to PEG_SUCCESS start (S pos)
      else if decide (c = 117)%Z then handle_unicode_escape start pos
      else result_at PEG_FAIL start
  end.

Fixpoint string_loop (fuel : nat) (delimiter : Z) (start pos : nat) : res common_peg_parse_result :=
  match fuel with
  | 0 => Err OutOfFuel
  | S fuel =>
      match input !! pos with
      | None => Ok (if lenient then result_to PEG_NEED_MORE_INPUT start pos else result_to PEG_FAIL start pos)
      | Some c =>
          if decide (c = delimiter) then Ok (result_to PEG_SUCCESS start pos)
          else if decide (c = 92)%Z then
            let result := handle_escape_sequence start pos delimiter in
            if decide (r_type result ≠ PEG_SUCCESS) then Ok result else string_loop fuel delimiter start (r_end result)
          else
            let utf8_result := common_parse_utf8_codepoint input pos in
            match u_status utf8_result with
            | UTF8_INCOMPLETE => Ok (at_end start pos)
            | UTF8_INVALID => Ok (result_at PEG_FAIL start)
            | UTF8_SUCCESS => string_loop fuel delimiter start (pos + bytes_consumed utf8_result)
            end
      end
  end.

(** last_valid_pos and pos are always the same *)
Fixpoint until_loop (fuel : nat) (matcher : list trie_node) (start pos : nat) : res common_peg_parse_result :=
  match fuel with
  | 0 => Err OutOfFuel
  | S fuel =>
      if decide (pos < length input) then
        let utf8_result := common_parse_utf8_codepoint input pos in
        match u_status utf8_result with
        | UTF8_INCOMPLETE => Ok (at_end start pos)
        | UTF8_INVALID => Ok (result_at PEG_FAIL start)
        | UTF8_SUCCESS =>
            m ← check_at matcher input pos;
            match m with
            | COMPLETE_MATCH | PARTIAL_MATCH => Ok (result_to PEG_SUCCESS start pos)
            | NO_MATCH => until_loop fuel matcher start (pos + bytes_consumed utf8_result)
            end
        end
      else Ok (if decide (pos = length input) then if lenient then result_to PEG_NEED_MORE_INPUT start pos else result_to PEG_SUCCESS start pos
               else result_to PEG_SUCCESS start pos)
  end.

(** the parsers without children *)
Definition exec_leaf (p : common_peg_parser_variant) (start : nat) : res common_peg_parse_result :=
  let fuel := S (S (length input)) in
  match p with
  | epsilon_parser => Ok (result_at PEG_SUCCESS start)
  | start_parser => Ok (result_at (if decide (start = 0) then PEG_SUCCESS else PEG_FAIL) start)
  | end_parser => Ok (result_at (if decide (length input ≤ start) then PEG_SUCCESS else PEG_FAIL) start)
  | literal_parser literal => Ok (literal_loop literal start start)
  | any_parser => Ok (exec_any start)
  | space_parser => Ok (result_to PEG_SUCCESS start (space_loop (drop start input) start))
  | chars_parser _ ranges negated min_count max_count => chars_loop fuel ranges negated min_count max_count start start 0
  | string_parser delimiter => string_loop fuel delimiter start start
  | until_parser delimiters => matcher ← trie delimiters; until_loop fuel matcher start start
  | _ => Err Throw
  end.

(** std::string_view(input).substr(start, end - start) *)
Definition node_text (start stop : nat) : list Z := if decide (start < length input) then take (stop - start) (drop start input) else [].

(** the node that a rule or a tag adds for its child's result *)
Definition add_result (rule tag : list Z) (ast : ast_arena) (result : common_peg_parse_result) : ast_arena * common_peg_parse_result :=
  if decide (r_type result = PEG_FAIL) then (ast, result)
  else
    let '(id, ast) := add_node ast (AstNode rule tag (r_start result) (r_end result) (node_text (r_start result) (r_end result)) (r_nodes result)
                                     (bool_decide (r_type result = PEG_NEED_MORE_INPUT))) in
    (ast, PegResult (r_type result) (r_start result) (r_end result) [id]).

(** check if we got enough matches *)
Definition repetition_stop (min_count : Z) (start pos : nat) (match_count : Z) (nodes : list common_peg_ast_id) : common_peg_parse_result :=
  if decide (0 < min_count ∧ match_count < min_count)%Z then
    if decide (length input ≤ pos) then (if lenient then PegResult PEG_NEED_MORE_INPUT start pos nodes else result_to PEG_FAIL start pos)
    else result_to PEG_FAIL start pos
  else PegResult PEG_SUCCESS start pos nodes.

Section recursion.
  Variable rec : common_peg_parser_id → ast_arena → nat → res (ast_arena * common_peg_parse_result).

Fixpoint sequence_loop (cs : list common_peg_parser_id) (start : nat) (ast : ast_arena) (pos : nat) (nodes : list common_peg_ast_id) : res (ast_arena * common_peg_parse_result) :=
  match cs with
  | [] => Ok (ast, PegResult PEG_SUCCESS start pos nodes)
  | c :: cs =>
      '(ast, result) ← rec c ast pos;
      match r_type result with
      | PEG_FAIL => Ok (ast, result_to PEG_FAIL start (r_end result))
      | PEG_NEED_MORE_INPUT => Ok (ast, PegResult PEG_NEED_MORE_INPUT start (r_end result) (nodes ++ r_nodes result))
      | PEG_SUCCESS => sequence_loop cs start ast (r_end result) (nodes ++ r_nodes result)
      end
  end.

Fixpoint choice_loop (cs : list common_peg_parser_id) (ast : ast_arena) (pos : nat) : res (ast_arena * common_peg_parse_result) :=
  match cs with
  | [] => Ok (ast, result_at PEG_FAIL pos)
  | c :: cs =>
      '(ast, result) ← rec c ast pos;
      if decide (r_type result = PEG_FAIL) then choice_loop cs ast pos else Ok (ast, result)
  end.

Fixpoint repetition_loop (fuel : nat) (child : common_peg_parser_id) (min_count max_count : Z) (start : nat) (ast : ast_arena) (pos : nat) (match_count : Z)
    (nodes : list common_peg_ast_id) : res (ast_arena * common_peg_parse_result) :=
  match fuel with
  | 0 => Err OutOfFuel
  | S fuel =>
      let stop ast := Ok (ast, repetition_stop min_count start pos match_count nodes) in
      if decide (max_count = -1 ∨ match_count < max_count)%Z then
        if decide (length input ≤ pos) then stop ast
        else
          '(ast, result) ← rec child ast pos;
          match r_type result with
          | PEG_SUCCESS =>
              if decide (r_end result = pos) then stop ast
              else repetition_loop fuel child min_count max_count start ast (r_end result) (match_count + 1) (nodes ++ r_nodes result)
          | PEG_NEED_MORE_INPUT => Ok (ast, PegResult PEG_NEED_MORE_INPUT start (r_end result) (nodes ++ r_nodes result))
          | PEG_FAIL => stop ast
          end
      else stop ast
  end.

Definition exec (p : common_peg_parser_variant) (ast : ast_arena) (start : nat) : res (ast_arena * common_peg_parse_result) :=
  match p with
  | sequence_parser cs => sequence_loop cs start ast start []
  | choice_parser cs => choice_loop cs ast start
  | repetition_parser child min_count max_count => repetition_loop (S (S (length input))) child min_count max_count start ast start 0 []
  | and_parser child => '(ast, result) ← rec child ast start; Ok (ast, result_at (r_type result) start)
  | not_parser child =>
      '(ast, result) ← rec child ast start;
      Ok (ast, result_at (match r_type result with PEG_SUCCESS => PEG_FAIL | PEG_NEED_MORE_INPUT => PEG_NEED_MORE_INPUT | PEG_FAIL => PEG_SUCCESS end) start)
  | schema_parser child _ _ => rec child ast start
  | rule_parser name child _ => '(ast, result) ← rec child ast start; Ok (add_result name [] ast result)
  | tag_parser child tag => '(ast, result) ← rec child ast start; Ok (add_result [] tag ast result)
  | ref_parser name => id ← get_rule arena name; rec id ast start
  | atomic_parser child =>
      '(ast, result) ← rec child ast start;
      Ok (ast, if decide (r_type result = PEG_NEED_MORE_INPUT) then PegResult (r_type result) (r_start result) (r_end result) [] else result)
  | leaf => result ← exec_leaf leaf start; Ok (ast, result)
  end.
End recursion.

(** parsers_.at(id), then the visitor; the fuel bounds the depth of the calls *)
Fixpoint parse_id (fuel : nat) (id : common_peg_parser_id) (ast : ast_arena) (start : nat) : res (ast_arena * common_peg_parse_result) :=
  match fuel with
  | 0 => Err OutOfFuel
  | S fuel => p ← of_option Throw (parsers_ arena !! id); exec (parse_id fuel) p ast start
  end.

Definition arena_parse (fuel : nat) (ast : ast_arena) (start : nat) : res (ast_arena * common_peg_parse_result) :=
  root ← of_option Throw (root_ arena); parse_id fuel root ast start.
End executor.

(** ** resolve_refs *)

Definition resolve_ref (arena : common_peg_arena) (id : common_peg_parser_id) : res common_peg_parser_id :=
  p ← of_option Throw (parsers_ arena !! id);
  match p with ref_parser name => get_rule arena name | _ => Ok id end.

Definition resolve_one (arena : common_peg_arena) (p : common_peg_parser_variant) : res common_peg_parser_variant :=
  match p with
  | sequence_parser cs => cs ← mapM_res (resolve_ref arena) cs; Ok (sequence_parser cs)
  | choice_parser cs => cs ← mapM_res (resolve_ref arena) cs; Ok (choice_parser cs)
  | repetition_parser c mn mx => c ← resolve_ref arena c; Ok (repetition_parser c mn mx)
  | and_parser c => c ← resolve_ref arena c; Ok (and_parser c)
  | not_parser c => c ← resolve_ref arena c; Ok (not_parser c)
  | tag_parser c tag => c ← resolve_ref arena c; Ok (tag_parser c tag)
  | atomic_parser c => c ← resolve_ref arena c; Ok (atomic_parser c)
  | rule_parser name c trigger => c ← resolve_ref arena c; Ok (rule_parser name c trigger)
  | schema_parser c name raw => c ← resolve_ref arena c; Ok (schema_parser c name raw)
  | p => Ok p
  end.

(** the loop changes the arena in place; which parsers are references does not change *)
Definition resolve_step (arena : common_peg_arena) (i : nat) : res common_peg_arena :=
  p ← vget (parsers_ arena) i; p ← resolve_one arena p;
  ps ← vset (parsers_ arena) i p; Ok (PegArena ps (rules_ arena) (root_ arena)).
Definition resolve_refs (arena : common_peg_arena) : res common_peg_arena :=
  arena ← foldM resolve_step arena (seq 0 (length (parsers_ arena)));
  match root_ arena with
  | Some root => root ← resolve_ref arena root; Ok (PegArena (parsers_ arena) (rules_ arena) (Some root))
  | None => Ok arena
  end.

(** ** The reference: results as trees, parsing as a relation *)

Inductive peg_tree := PegNode (rule tag : list Z) (start stop : nat) (text : list Z) (children : list peg_tree) (partial : bool).

Inductive peg_outcome := OFail | OSuccess (stop : nat) (ts : list peg_tree) | ONeed (stop : nat) (ts : list peg_tree).

Definition leaf_outcome (r : common_peg_parse_result) : peg_outcome :=
  match r_type r with PEG_FAIL => OFail | PEG_SUCCESS => OSuccess (r_end r) [] | PEG_NEED_MORE_INPUT => ONeed (r_end r) [] end.
(** what is found before an outcome *)
Definition prepend (ts : list peg_tree) (o : peg_outcome) : peg_outcome :=
  match o with OFail => OFail | OSuccess e us => OSuccess e (ts ++ us) | ONeed e us => ONeed e (ts ++ us) end.

(** what one can parse with: a parser, a sequence of them, the first of them that does not fail, or one of them over and over
    (at least, at most, and how often it has been) *)
Inductive task := One (id : nat) | All (cs : list nat) | First (cs : list nat) | Many (c : nat) (min_count max_count count : Z).

Definition is_leaf (p : common_peg_parser_variant) : bool :=
  match p with
  | epsilon_parser | start_parser | end_parser | literal_parser _ | any_parser | space_parser | chars_parser _ _ _ _ _ | string_parser _ | until_parser _ => true
  | _ => false
  end.

Section reference.
  Context (arena : common_peg_arena) (input : list Z) (lenient : bool).

Definition look (o : peg_outcome) (pos : nat) : peg_outcome :=
  match o with OFail => OFail | OSuccess _ _ => OSuccess pos [] | ONeed _ _ => ONeed pos [] end.
Definition negated_look (o : peg_outcome) (pos : nat) : peg_outcome :=
  match o with OFail => OSuccess pos [] | OSuccess _ _ => OFail | ONeed _ _ => ONeed pos [] end.
Definition node_of (rule tag : list Z) (o : peg_outcome) (pos : nat) : peg_outcome :=
  match o with
  | OFail => OFail
  | OSuccess e ts => OSuccess e [PegNode rule tag pos e (node_text input pos e) ts false]
  | ONeed e ts => ONeed e [PegNode rule tag pos e (node_text input pos e) ts true]
  end.
Definition atomic_of (o : peg_outcome) : peg_outcome := match o with ONeed e _ => ONeed e [] | _ => o end.

(** the end of a repetition *)
Definition enough (min_count count : Z) (pos : nat) : peg_outcome :=
  if decide (0 < min_count ∧ count < min_count)%Z then
    if decide (length input ≤ pos) then (if lenient then ONeed pos [] else OFail) else OFail
  else OSuccess pos [].

Inductive peg : task → nat → peg_outcome → Prop :=
  | peg_leaf id p pos r : parsers_ arena !! id = Some p → is_leaf p = true → exec_leaf input lenient p pos = Ok r → peg (One id) pos (leaf_outcome r)
  | peg_sequence id cs pos o : parsers_ arena !! id = Some (sequence_parser cs) → peg (All cs) pos o → peg (One id) pos o
  | peg_choice id cs pos o : parsers_ arena !! id = Some (choice_parser cs) → peg (First cs) pos o → peg (One id) pos o
  | peg_repetition id c mn mx pos o : parsers_ arena !! id = Some (repetition_parser c mn mx) → peg (Many c mn mx 0) pos o → peg (One id) pos o
  | peg_and id c pos o : parsers_ arena !! id = Some (and_parser c) → peg (One c) pos o → peg (One id) pos (look o pos)
  | peg_not id c pos o : parsers_ arena !! id = Some (not_parser c) → peg (One c) pos o → peg (One id) pos (negated_look o pos)
  | peg_schema id c name raw pos o : parsers_ arena !! id = Some (schema_parser c name raw) → peg (One c) pos o → peg (One id) pos o
  | peg_rule id name c trigger pos o : parsers_ arena !! id = Some (rule_parser name c trigger) → peg (One c) pos o → peg (One id) pos (node_of name [] o pos)
  | peg_tag id c tag pos o : parsers_ arena !! id = Some (tag_parser c tag) → peg (One c) pos o → peg (One id) pos (node_of [] tag o pos)
  | peg_ref id name c pos o : parsers_ arena !! id = Some (ref_parser name) → rules_ arena !! name = Some c → peg (One c) pos o → peg (One id) pos o
  | peg_atomic id c pos o : parsers_ arena !! id = Some (atomic_parser c) → peg (One c) pos o → peg (One id) pos (atomic_of o)
  | peg_all_nil pos : peg (All []) pos (OSuccess pos [])
  | peg_all_fail c cs pos : peg (One c) pos OFail → peg (All (c :: cs)) pos OFail
  | peg_all_need c cs pos e ts : peg (One c) pos (ONeed e ts) → peg (All (c :: cs)) pos (ONeed e ts)
  | peg_all_cons c cs pos e ts o : peg (One c) pos (OSuccess e ts) → peg (All cs) e o → peg (All (c :: cs)) pos (prepend ts o)
  | peg_first_nil pos : peg (First []) pos OFail
  | peg_first_here c cs pos o : peg (One c) pos o → o ≠ OFail → peg (First (c :: cs)) pos o
  | peg_first_next c cs pos o : peg (One c) pos OFail → peg (First cs) pos o → peg (First (c :: cs)) pos o
  | peg_many_max c mn mx k pos : ¬ (mx = -1 ∨ k < mx)%Z → peg (Many c mn mx k) pos (enough mn k pos)
  | peg_many_end c mn mx k pos : (mx = -1 ∨ k < mx)%Z → length input ≤ pos → peg (Many c mn mx k) pos (enough mn k pos)
  | peg_many_fail c mn mx k pos : (mx = -1 ∨ k < mx)%Z → pos < length input → peg (One c) pos OFail → peg (Many c mn mx k) pos (enough mn k pos)
  | peg_many_empty c mn mx k pos ts : (mx = -1 ∨ k < mx)%Z → pos < length input → peg (One c) pos (OSuccess pos ts) → peg (Many c mn mx k) pos (enough mn k pos)
  | peg_many_need c mn mx k pos e ts : (mx = -1 ∨ k < mx)%Z → pos < length input → peg (One c) pos (ONeed e ts) → peg (Many c mn mx k) pos (ONeed e ts)
  | peg_many_more c mn mx k pos e ts o : (mx = -1 ∨ k < mx)%Z → pos < length input → peg (One c) pos (OSuccess e ts) → e ≠ pos →
      peg (Many c mn mx (k + 1)) e o → peg (Many c mn mx k) pos (prepend ts o).

(** The relation is a function: peg [task] [pos] has at most one outcome. *)
Lemma peg_functional t pos o o' : peg t pos o → peg t pos o' → o = o'.
Proof.
  intros H. revert o'. induction H; intros o' H'; inversion H'; subst; try congruence; try lia;
    repeat match goal with
    | H1 : parsers_ arena !! ?i = Some _, H2 : parsers_ arena !! ?i = Some _ |- _ => rewrite H1 in H2; simplify_eq
    | H1 : rules_ arena !! ?i = Some _, H2 : rules_ arena !! ?i = Some _ |- _ => rewrite H1 in H2; simplify_eq
    | IH : ∀ o', peg ?t ?p o' → ?o = o', H : peg ?t ?p ?o2 |- _ => tryif constr_eq o o2 then fail else (apply IH in H; clear IH; simplify_eq)
    end; try congruence; try done.
Qed.
End reference.

(** ** Positions stay inside of the text *)

Lemma utf8_consumed s pos : u_status (common_parse_utf8_codepoint s pos) = UTF8_SUCCESS →
  1 ≤ bytes_consumed (common_parse_utf8_codepoint s pos) ∧ pos + bytes_consumed (common_parse_utf8_codepoint s pos) ≤ length s.
Proof. unfold common_parse_utf8_codepoint. cbv zeta. repeat case_match; cbn; intros; try discriminate; lia. Qed.

Lemma utf8_at_end s pos : length s ≤ pos → u_status (common_parse_utf8_codepoint s pos) = UTF8_INCOMPLETE.
Proof. intros H. unfold common_parse_utf8_codepoint. cbv zeta. by rewrite decide_True. Qed.

Section spans.
  Context (input : list Z) (lenient : bool).

(** the result of a parser that was started at [start] and has come to [pos] *)
Definition spans (start pos : nat) (r : common_peg_parse_result) : Prop :=
  r_start r = start ∧ r_nodes r = [] ∧ (r_type r ≠ PEG_FAIL → start ≤ r_end r ≤ pos `max` length input).

Lemma spans_to t start pos : start ≤ pos → spans start pos (result_to t start pos).
Proof. intros. split_and!; [done|done|]. cbn. lia. Qed.
Lemma spans_at t start pos : start ≤ pos → spans start pos (result_at t start).
Proof. intros. split_and!; [done|done|]. cbn. lia. Qed.
Lemma spans_at_end start pos : start ≤ pos → spans start pos (at_end lenient start pos).
Proof. unfold at_end. case_match; eauto using spans_to, spans_at. Qed.
Lemma spans_mono start p p' r : p ≤ p' `max` length input → spans start p r → spans start p' r.
Proof. intros Hp (H1 & H2 & H3). split_and!; [done|done|]. intros H. specialize (H3 H). lia. Qed.
Hint Resolve spans_to spans_at spans_at_end : core.

Lemma lookup_inside (pos : nat) (b : Z) : input !! pos = Some b → pos < length input.
Proof. apply lookup_lt_Some. Qed.

Lemma literal_spans l start pos : start ≤ pos → spans start pos (literal_loop input lenient l start pos).
Proof.
  revert pos. induction l as [|c l IH]; intros pos H; cbn [literal_loop]; [auto|]. destruct (input !! pos) as [b|] eqn:E; [|auto].
  apply lookup_inside in E. case_decide; [auto|]. eapply spans_mono; [|apply IH]; lia.
Qed.

Lemma any_spans start : spans start start (exec_any input lenient start).
Proof.
  unfold exec_any. cbv zeta. destruct (u_status _) eqn:E; [|repeat case_match; auto|auto].
  apply utf8_consumed in E. split_and!; [done|done|]. cbn. lia.
Qed.

Lemma space_spans s pos : pos ≤ space_loop s pos ≤ pos + length s.
Proof. revert pos. induction s as [|c s IH]; intros pos; cbn; [lia|]. case_match; [|lia]. specialize (IH (S pos)). lia. Qed.

Lemma chars_spans fuel rs ng mn mx start : ∀ pos k r, start ≤ pos → chars_loop input lenient fuel rs ng mn mx start pos k = Ok r → spans start pos r.
Proof.
  induction fuel as [|fuel IH]; intros pos k r H Hr; [done|]. cbn [chars_loop] in Hr. cbv zeta in Hr.
  destruct (decide (mx = -1 ∨ k < mx)%Z); [|repeat case_match; injection Hr as <-; auto].
  destruct (u_status _) eqn:E; [|repeat case_match; injection Hr as <-; auto..].
  apply utf8_consumed in E. destruct (if ng then _ else _).
  - apply IH in Hr; [|lia]. eapply spans_mono; [|done]. lia.
  - repeat case_match; injection Hr as <-; auto.
Qed.

Lemma unicode_spans n start : ∀ pos, start ≤ pos → spans start pos (unicode_loop input lenient n start pos).
Proof.
  induction n as [|n IH]; intros pos H; cbn [unicode_loop]; [auto|]. destruct (input !! pos) as [c|] eqn:E; [|auto]. apply lookup_inside in E.
  case_match; [|auto]. eapply spans_mono; [|apply IH]; lia.
Qed.

Lemma escape_spans start pos d : start ≤ pos → pos < length input → spans start pos (handle_escape_sequence input lenient start pos d).
Proof.
  intros H Hp. unfold handle_escape_sequence. cbv zeta. destruct (input !! S pos) as [c|] eqn:E; [apply lookup_inside in E|].
  - case_match; [eapply spans_mono; [|apply spans_to]; lia|]. case_decide; [|auto]. unfold handle_unicode_escape. eapply spans_mono; [|apply unicode_spans]; lia.
  - eapply spans_mono; [|apply spans_at_end]; lia.
Qed.

(** an escape sequence has at least two characters *)
Lemma unicode_end n start : ∀ p, r_type (unicode_loop input lenient n start p) = PEG_SUCCESS → r_end (unicode_loop input lenient n start p) = p + n.
Proof.
  induction n as [|n IH]; intros p; cbn [unicode_loop]; [cbn; lia|]. destruct (input !! p); [|unfold at_end; by destruct lenient].
  case_match; [|done]. intros E. rewrite IH by done. lia.
Qed.
Lemma escape_moves start pos d : r_type (handle_escape_sequence input lenient start pos d) = PEG_SUCCESS → pos < r_end (handle_escape_sequence input lenient start pos d).
Proof.
  unfold handle_escape_sequence. cbv zeta. destruct (input !! S pos) as [c|]; [|unfold at_end; by destruct lenient]. case_match; [cbn; lia|]. case_decide; [|done].
  unfold handle_unicode_escape. intros E. rewrite unicode_end by done. lia.
Qed.

Lemma string_spans fuel d start : ∀ pos r, start ≤ pos → string_loop input lenient fuel d start pos = Ok r → spans start pos r.
Proof.
  induction fuel as [|fuel IH]; intros pos r H Hr; [done|]. cbn [string_loop] in Hr. destruct (input !! pos) as [c|] eqn:Ec; [|repeat case_match; injection Hr as <-; auto].
  apply lookup_inside in Ec. case_decide; [injection Hr as <-; auto|]. case_decide.
  - pose proof (escape_spans start pos d H Ec) as He. case_decide as Hs; [by injection Hr as <-|]. destruct He as (_ & _ & He). specialize (He ltac:(by rewrite Hs)).
    apply IH in Hr; [|lia]. eapply spans_mono; [|done]. lia.
  - cbv zeta in Hr. destruct (u_status _) eqn:E; [|injection Hr as <-; auto..]. apply utf8_consumed in E. apply IH in Hr; [|lia]. eapply spans_mono; [|done]. lia.
Qed.

Lemma until_spans fuel m start : ∀ pos r, start ≤ pos → until_loop input lenient fuel m start pos = Ok r → spans start pos r.
Proof.
  induction fuel as [|fuel IH]; intros pos r H Hr; [done|]. cbn [until_loop] in Hr. case_decide; [|repeat case_match; injection Hr as <-; auto].
  destruct (u_status _) eqn:E; [|injection Hr as <-; auto..]. apply utf8_consumed in E. apply bind_Ok_inv in Hr as (mr & _ & Hr).
  destruct mr; [|injection Hr as <-; auto..]. apply IH in Hr; [|lia]. eapply spans_mono; [|done]. lia.
Qed.

Lemma leaf_spans p start r : is_leaf p = true → exec_leaf input lenient p start = Ok r → spans start start r.
Proof.
  intros Hl. destruct p; try discriminate Hl; cbn [exec_leaf]; intros Hr; try (injection Hr as <-; auto).
  - by apply literal_spans.
  - apply any_spans.
  - split_and!; [done|done|]. cbn. pose proof (space_spans (drop start input) start). rewrite length_drop in *. lia.
  - by eapply chars_spans.
  - by eapply string_spans.
  - apply bind_Ok_inv in Hr as (m & _ & Hr). by eapply until_spans.
Qed.
End spans.

Lemma enough_cases input lenient mn k pos : enough input lenient mn k pos = OSuccess pos [] ∨ enough input lenient mn k pos = ONeed pos [] ∨ enough input lenient mn k pos = OFail.
Proof. unfold enough. repeat case_decide; repeat case_match; auto. Qed.

(** [o] ends between [pos] and the end of the text *)
Definition ends_in (size pos : nat) (o : peg_outcome) : Prop :=
  match o with OFail => True | OSuccess e _ | ONeed e _ => pos ≤ e ≤ pos `max` size end.

Lemma ends_in_enough size input lenient mn k pos : ends_in size pos (enough input lenient mn k pos).
Proof. destruct (enough_cases input lenient mn k pos) as [->|[->| ->]]; cbn; lia. Qed.

Lemma peg_ends_in arena input lenient t pos o : peg arena input lenient t pos o → ends_in (length input) pos o.
Proof.
  induction 1; try apply ends_in_enough; try done.
  - destruct (leaf_spans input lenient p pos r) as (H2 & _ & H3); [done..|]. unfold leaf_outcome. destruct (r_type r); cbn; [done|apply H3; done..].
  - destruct o; cbn in *; lia.
  - destruct o; cbn in *; lia.
  - by destruct o.
  - by destruct o.
  - by destruct o.
  - cbn. lia.
  - destruct o; cbn in *; lia.
  - destruct o; cbn in *; lia.
Qed.

(** ** The executor computes the relation *)

(** node [id] of the arena is the tree [t] *)
Fixpoint is_tree (ast : ast_arena) (t : peg_tree) (id : nat) : Prop :=
  match t with
  | PegNode rule tag start stop text ts partial =>
      ∃ ids, ast !! id = Some (AstNode rule tag start stop text ids partial) ∧
        (fix go ts ids := match ts, ids with [], [] => True | t :: ts, i :: ids => is_tree ast t i ∧ go ts ids | _, _ => False end) ts ids
  end.
Definition are_trees (ast : ast_arena) (ts : list peg_tree) (ids : list nat) : Prop := Forall2 (is_tree ast) ts ids.

Lemma is_tree_node ast rule tag start stop text ts partial id : is_tree ast (PegNode rule tag start stop text ts partial) id ↔
  ∃ ids, ast !! id = Some (AstNode rule tag start stop text ids partial) ∧ are_trees ast ts ids.
Proof.
  cbn [is_tree]. apply exist_proper. intros ids. f_equiv. revert ids. unfold are_trees. induction ts as [|t ts IH]; intros [|i ids]; split; intros H; try done; try (by inversion H).
  - destruct H as [H1 H2]. constructor; [done|by apply IH].
  - inversion H; subst. split; [done|by apply IH].
Qed.

Lemma peg_tree_nested (P : peg_tree → Prop) : (∀ rule tag start stop text ts partial, Forall P ts → P (PegNode rule tag start stop text ts partial)) → ∀ t, P t.
Proof.
  intros H. fix IH 1. intros [rule tag start stop text ts partial]. apply H. induction ts as [|t ts IHts]; constructor; [apply IH|exact IHts].
Qed.

(** nodes that are added do not change what is there *)
Lemma is_tree_mono ast ast' t id : ast `prefix_of` ast' → is_tree ast t id → is_tree ast' t id.
Proof.
  intros Hp. revert id. induction t as [rule tag start stop text ts partial IH] using peg_tree_nested. intros id. rewrite !is_tree_node. intros (ids & Hn & Hts). exists ids. split; [by eapply prefix_lookup_Some|].
  clear Hn. induction Hts as [|t i ts ids Ht Hts IH2]; constructor; apply Forall_cons in IH as [IHt IHts]; [by apply IHt|by apply IH2].
Qed.
Lemma are_trees_mono ast ast' ts ids : ast `prefix_of` ast' → are_trees ast ts ids → are_trees ast' ts ids.
Proof. intros Hp H. eapply Forall2_impl; [exact H|]. intros t i. by apply is_tree_mono. Qed.

(** the result of the code with the arena shows the outcome *)
Definition shows (start : nat) (ast : ast_arena) (r : common_peg_parse_result) (o : peg_outcome) : Prop :=
  r_start r = start ∧
  match o with
  | OFail => r_type r = PEG_FAIL
  | OSuccess e ts => r_type r = PEG_SUCCESS ∧ r_end r = e ∧ are_trees ast ts (r_nodes r)
  | ONeed e ts => r_type r = PEG_NEED_MORE_INPUT ∧ r_end r = e ∧ are_trees ast ts (r_nodes r)
  end.

Lemma shows_leaf start pos input ast r : spans input start pos r → shows start ast r (leaf_outcome r).
Proof. intros (H1 & H2 & _). split; [done|]. unfold leaf_outcome. destruct (r_type r) eqn:E; cbn; [done|..]; (split_and!; [done|done|rewrite H2; constructor]). Qed.

Lemma shows_type_fail start ast r o : shows start ast r o → r_type r = PEG_FAIL ↔ o = OFail.
Proof. intros [_ H]. destruct o; [done|destruct H as (H & _); split; [congruence|done]..]. Qed.

Lemma shows_enough input lenient mn k start pos ast nodes ts : are_trees ast ts nodes →
  shows start ast (repetition_stop input lenient mn start pos k nodes) (prepend ts (enough input lenient mn k pos)).
Proof. intros H. unfold repetition_stop, enough. repeat case_decide; repeat case_match; (split; [done|]); cbn; rewrite ?app_nil_r; done. Qed.

Lemma shows_node input rule tag start ast r o ast' r' : shows start ast r o → add_result input rule tag ast r = (ast', r') →
  ast `prefix_of` ast' ∧ shows start ast' r' (node_of input rule tag o start).
Proof.
  intros [Hs Ho] Hadd. unfold add_result in Hadd. destruct (decide (r_type r = PEG_FAIL)) as [Hf|Hf].
  - injection Hadd as <- <-. split; [done|]. destruct o; [done|destruct Ho as (H & _); congruence..].
  - unfold add_node in Hadd. injection Hadd as <- <-. split; [by apply prefix_app_r|]. destruct o as [|e ts|e ts]; [done|..]; destruct Ho as (H1 & H2 & H3); cbn; rewrite ?Hs, ?H1, ?H2;
      (split; [done|]); (split; [done|]); (split; [done|]); (apply Forall2_cons_2; [|by apply Forall2_nil_2]);
      rewrite is_tree_node; exists (r_nodes r); (split; [|eapply are_trees_mono; [by apply prefix_app_r|done]]);
      by rewrite lookup_app_r, Nat.sub_diag by done.
Qed.

Section refinement.
  Context (arena : common_peg_arena) (input : list Z) (lenient : bool).
  Abbreviation peg := (peg arena input lenient).

Section sound.
  Variable rec : common_peg_parser_id → ast_arena → nat → res (ast_arena * common_peg_parse_result).
  Hypothesis Hrec : ∀ c ast pos ast' r, rec c ast pos = Ok (ast', r) → ∃ o, peg (One c) pos o ∧ ast `prefix_of` ast' ∧ shows pos ast' r o.

Lemma sequence_sound cs start : ∀ ast pos nodes ts ast' r, are_trees ast ts nodes → sequence_loop rec cs start ast pos nodes = Ok (ast', r) →
  ∃ o, peg (All cs) pos o ∧ ast `prefix_of` ast' ∧ shows start ast' r (prepend ts o).
Proof.
  induction cs as [|c cs IH]; intros ast pos nodes ts ast' r Hn H; cbn [sequence_loop] in H.
  - injection H as <- <-. exists (OSuccess pos []). split_and!; [apply peg_all_nil|done|]. split; [done|]. cbn. by rewrite app_nil_r.
  - apply bind_Ok_inv in H as ([ast1 r1] & H1 & H). apply Hrec in H1 as (o1 & Hp & Hpre & [Hs Ho]). destruct o1 as [|e us|e us]; [|destruct Ho as (Ht & He & Hus)..]; rewrite ?Ho, ?Ht in H.
    + injection H as <- <-. exists OFail. split_and!; [by apply peg_all_fail|done|done].
    + apply (IH _ _ _ (ts ++ us)) in H as (o & Hq & Hpre' & Hsh); [|apply Forall2_app; [by eapply are_trees_mono|done]]. exists (prepend us o). rewrite He in Hq.
      split_and!; [by eapply peg_all_cons|by etrans|]. destruct o; cbn in *; by rewrite ?app_assoc.
    + injection H as <- <-. exists (ONeed e us). split; [by apply peg_all_need|split; [done|split; [done|]]]. cbn. split; [done|split; [done|]]. apply Forall2_app; [by eapply are_trees_mono|done].
Qed.

Lemma choice_sound cs : ∀ ast pos ast' r, choice_loop rec cs ast pos = Ok (ast', r) → ∃ o, peg (First cs) pos o ∧ ast `prefix_of` ast' ∧ shows pos ast' r o.
Proof.
  induction cs as [|c cs IH]; intros ast pos ast' r H; cbn [choice_loop] in H.
  - injection H as <- <-. exists OFail. split_and!; [apply peg_first_nil|done|done].
  - apply bind_Ok_inv in H as ([ast1 r1] & H1 & H). apply Hrec in H1 as (o1 & Hp & Hpre & Hsh). case_decide as Hf.
    + apply (shows_type_fail _ _ _ _ Hsh) in Hf as ->. apply IH in H as (o & Hq & Hpre' & Hsh'). exists o. split_and!; [by eapply peg_first_next|by etrans|done].
    + injection H as <- <-. exists o1. split_and!; [|done|done]. apply peg_first_here; [done|]. intros ->. by destruct Hsh.
Qed.

Lemma repetition_sound c mn mx start fuel : ∀ ast pos k nodes ts ast' r, are_trees ast ts nodes → repetition_loop input lenient rec fuel c mn mx start ast pos k nodes = Ok (ast', r) →
  ∃ o, peg (Many c mn mx k) pos o ∧ ast `prefix_of` ast' ∧ shows start ast' r (prepend ts o).
Proof.
  induction fuel as [|fuel IH]; intros ast pos k nodes ts ast' r Hn H; [done|]. cbn [repetition_loop] in H. cbv zeta in H. destruct (decide (mx = -1 ∨ k < mx)%Z) as [Hm|Hm].
  2: { injection H as <- <-. exists (enough input lenient mn k pos). split_and!; [by apply peg_many_max|done|by apply shows_enough]. }
  destruct (decide (length input ≤ pos)) as [Hl|Hl].
  { injection H as <- <-. exists (enough input lenient mn k pos). split_and!; [by apply peg_many_end|done|by apply shows_enough]. }
  apply bind_Ok_inv in H as ([ast1 r1] & H1 & H). apply Hrec in H1 as (o1 & Hp & Hpre & [Hs Ho]). assert (Hn1 : are_trees ast1 ts nodes) by by eapply are_trees_mono.
  destruct o1 as [|e us|e us]; [|destruct Ho as (Ht & He & Hus)..]; rewrite ?Ho, ?Ht in H.
  - injection H as <- <-. exists (enough input lenient mn k pos). split_and!; [apply peg_many_fail; [done|lia|done]|done|by apply shows_enough].
  - destruct (decide (r_end r1 = pos)) as [Hem|Hem].
    + injection H as <- <-. exists (enough input lenient mn k pos). split_and!; [|done|by apply shows_enough]. rewrite <- He, Hem in Hp. eapply peg_many_empty; [done|lia|done].
    + apply (IH _ _ _ _ (ts ++ us)) in H as (o & Hq & Hpre' & Hsh); [|by apply Forall2_app]. exists (prepend us o). rewrite He in Hq, Hem.
      split_and!; [eapply peg_many_more; [done|lia|done|done|done]|by etrans|]. destruct o; cbn in *; by rewrite ?app_assoc.
  - injection H as <- <-. exists (ONeed e us). split; [apply peg_many_need; [done|lia|done]|split; [done|split; [done|]]]. cbn. split; [done|split; [done|]]. by apply Forall2_app.
Qed.

Lemma exec_sound id p ast pos ast' r : parsers_ arena !! id = Some p → exec arena input lenient rec p ast pos = Ok (ast', r) →
  ∃ o, peg (One id) pos o ∧ ast `prefix_of` ast' ∧ shows pos ast' r o.
Proof.
  intros Hp H. destruct (is_leaf p) eqn:El.
  { assert (exists r', exec_leaf input lenient p pos = Ok r' ∧ ast' = ast ∧ r = r') as (r' & E & -> & ->).
    { destruct p; try discriminate El; cbn [exec] in H; apply bind_Ok_inv in H as (r' & E & H); injection H as <- <-; by exists r'. }
    exists (leaf_outcome r'). split_and!; [by eapply peg_leaf|done|]. eapply shows_leaf, leaf_spans; done. }
  destruct p; try discriminate El; cbn [exec] in H.
  - apply (sequence_sound _ _ _ _ _ []) in H as (o & H1 & H2 & H3); [|constructor]. exists o. split_and!; [by eapply peg_sequence|done|by destruct o].
  - apply choice_sound in H as (o & H1 & H2 & H3). exists o. split_and!; [by eapply peg_choice|done|done].
  - apply (repetition_sound _ _ _ _ _ _ _ _ _ []) in H as (o & H1 & H2 & H3); [|constructor]. exists o. split_and!; [by eapply peg_repetition|done|by destruct o].
  - apply bind_Ok_inv in H as ([ast1 r1] & H1 & H). apply Hrec in H1 as (o & Ho & Hpre & [Hs Hsh]). injection H as <- <-. exists (look o pos). split; [by eapply peg_and|split; [done|split; [done|]]].
    destruct o; [done|destruct Hsh as (Ht & _)..]; cbn; rewrite ?Ht; (split_and!; [done|done|constructor]).
  - apply bind_Ok_inv in H as ([ast1 r1] & H1 & H). apply Hrec in H1 as (o & Ho & Hpre & [Hs Hsh]). injection H as <- <-. exists (negated_look o pos). split; [by eapply peg_not|split; [done|split; [done|]]].
    destruct o; [|destruct Hsh as (Ht & _)..]; cbn; rewrite ?Ht, ?Hsh; [split_and!; [done|done|constructor]|done|split_and!; [done|done|constructor]].
  - apply Hrec in H as (o & Ho & Hpre & Hsh). exists o. split_and!; [by eapply peg_schema|done|done].
  - apply bind_Ok_inv in H as ([ast1 r1] & H1 & H). apply Hrec in H1 as (o & Ho & Hpre & Hsh). injection H as H. destruct (shows_node _ _ _ _ _ _ _ _ _ Hsh H) as [Hpre' Hsh'].
    exists (node_of input name [] o pos). split_and!; [by eapply peg_rule|by etrans|done].
  - apply bind_Ok_inv in H as (c & Hc & H). apply Hrec in H as (o & Ho & Hpre & Hsh). unfold get_rule in Hc. destruct (rules_ arena !! name) eqn:En; [|done]. injection Hc as ->.
    exists o. split_and!; [by eapply peg_ref|done|done].
  - apply bind_Ok_inv in H as ([ast1 r1] & H1 & H). apply Hrec in H1 as (o & Ho & Hpre & [Hs Hsh]). injection H as <- <-. exists (atomic_of o). split; [by eapply peg_atomic|split; [done|]].
    destruct o; [|destruct Hsh as (Ht & He & Htr)..]; cbn; [rewrite decide_False by congruence; done|rewrite decide_False by congruence; done|rewrite decide_True by done; split_and!; [done|done|done|constructor]].
  - apply bind_Ok_inv in H as ([ast1 r1] & H1 & H). apply Hrec in H1 as (o & Ho & Hpre & Hsh). injection H as H. destruct (shows_node _ _ _ _ _ _ _ _ _ Hsh H) as [Hpre' Hsh'].
    exists (node_of input [] tag o pos). split_and!; [by eapply peg_tag|by etrans|done].
Qed.
End sound.

Lemma parse_sound n : ∀ id ast pos ast' r, parse_id arena input lenient n id ast pos = Ok (ast', r) → ∃ o, peg (One id) pos o ∧ ast `prefix_of` ast' ∧ shows pos ast' r o.
Proof.
  induction n as [|n IH]; intros id ast pos ast' r H; [done|]. cbn [parse_id] in H. apply bind_Ok_inv in H as (p & Hp & H).
  destruct (parsers_ arena !! id) eqn:E; [|done]. injection Hp as ->. by eapply exec_sound.
Qed.
End refinement.

Section complete.
  Context (arena : common_peg_arena) (input : list Z) (lenient : bool).
  Abbreviation peg := (peg arena input lenient).
  Abbreviation run n := (parse_id arena input lenient n).

(** a computation that ends with the arena extended and a result that shows the outcome *)
Definition peg_finds (start : nat) (ast : ast_arena) (o : peg_outcome) (m : nat → res (ast_arena * common_peg_parse_result)) : Prop :=
  ends m (λ x, ast `prefix_of` x.1 ∧ shows start x.1 x.2 o).

Definition computes (t : task) (pos : nat) (o : peg_outcome) : Prop :=
  match t with
  | One id => ∀ ast, peg_finds pos ast o (λ n, run n id ast pos)
  | All cs => ∀ start ast nodes ts, are_trees ast ts nodes → peg_finds start ast (prepend ts o) (λ n, sequence_loop (run n) cs start ast pos nodes)
  | First cs => ∀ ast, peg_finds pos ast o (λ n, choice_loop (run n) cs ast pos)
  | Many c mn mx k => ∀ f start ast nodes ts, length input - pos < f → are_trees ast ts nodes →
      peg_finds start ast (prepend ts o) (λ n, repetition_loop input lenient (run n) f c mn mx start ast pos k nodes)
  end.

Lemma finds_ok start ast o ast' r : ast `prefix_of` ast' → shows start ast' r o → peg_finds start ast o (λ _, Ok (ast', r)).
Proof. intros H1 H2. by apply ends_okP. Qed.

Lemma finds_bind start ast o c pos oc f : computes (One c) pos oc →
  (∀ ast' r, ast `prefix_of` ast' → shows pos ast' r oc → peg_finds start ast' o (λ n, f n (ast', r))) → peg_finds start ast o (λ n, run n c ast pos ≫= f n).
Proof.
  intros Hc Hf. eapply ends_bind; [exact (Hc ast)|]. intros [ast' r] [Hp Hs]. cbn [fst snd] in *. eapply ends_mono; [by apply Hf|]. intros x [H1 H2]. split; [by etrans|done].
Qed.

Lemma finds_exec id p pos ast o : parsers_ arena !! id = Some p → peg_finds pos ast o (λ n, exec arena input lenient (run n) p ast pos) → peg_finds pos ast o (λ n, run n id ast pos).
Proof. intros Hp H. eapply ends_step; [|exact H]. intros n. cbn [parse_id]. by rewrite Hp. Qed.

Lemma finds_more start ast ast' o m : ast `prefix_of` ast' → peg_finds start ast' o m → peg_finds start ast o m.
Proof. intros Hp H. eapply ends_mono; [exact H|]. intros x [H1 H2]. split; [by etrans|done]. Qed.

Lemma finds_stop mn k pos f start ast nodes ts rec c mx : are_trees ast ts nodes → ¬ (mx = -1 ∨ k < mx)%Z ∨ length input ≤ pos →
  peg_finds start ast (prepend ts (enough input lenient mn k pos)) (λ n, repetition_loop input lenient (rec n) (S f) c mn mx start ast pos k nodes).
Proof.
  intros Ht H. apply ends_ext with (m := λ _, Ok (ast, repetition_stop input lenient mn start pos k nodes)); [|apply finds_ok; [done|by apply shows_enough]].
  intros n. cbn [repetition_loop]. cbv zeta. case_decide; [|done]. rewrite decide_True; [done|]. destruct H; [done|lia].
Qed.

(** one more round of a repetition *)
Definition after_round f c mn mx start pos k nodes (n : nat) (x : ast_arena * common_peg_parse_result) : res (ast_arena * common_peg_parse_result) :=
  let '(ast, r) := x in
  match r_type r with
  | PEG_SUCCESS => if decide (r_end r = pos) then Ok (ast, repetition_stop input lenient mn start pos k nodes)
      else repetition_loop input lenient (run n) f c mn mx start ast (r_end r) (k + 1) (nodes ++ r_nodes r)
  | PEG_NEED_MORE_INPUT => Ok (ast, PegResult PEG_NEED_MORE_INPUT start (r_end r) (nodes ++ r_nodes r))
  | PEG_FAIL => Ok (ast, repetition_stop input lenient mn start pos k nodes)
  end.

Lemma finds_round mn mx k pos f start ast nodes c oc o : (mx = -1 ∨ k < mx)%Z → pos < length input → computes (One c) pos oc →
  (∀ ast' r, ast `prefix_of` ast' → shows pos ast' r oc → peg_finds start ast' o (λ n, after_round f c mn mx start pos k nodes n (ast', r))) →
  peg_finds start ast o (λ n, repetition_loop input lenient (run n) (S f) c mn mx start ast pos k nodes).
Proof.
  intros Hm Hp Hc Hf. eapply ends_ext; [|exact (finds_bind start ast o c pos oc _ Hc Hf)].
  intros n. cbn [repetition_loop]. cbv zeta. by rewrite decide_True, decide_False by lia.
Qed.

Lemma exec_leaf_eq rec p ast pos : is_leaf p = true → exec arena input lenient rec p ast pos = (r ← exec_leaf input lenient p pos; Ok (ast, r)).
Proof. by destruct p. Qed.

Lemma parse_complete t pos o : peg t pos o → computes t pos o.
Proof.
  induction 1 as [id p pos r Hp Hl Hr|id cs pos o Hp _ IH|id cs pos o Hp _ IH|id c mn mx pos o Hp _ IH|id c pos o Hp _ IH|id c pos o Hp _ IH|id c name raw pos o Hp _ IH|
    id name c trigger pos o Hp _ IH|id c tag pos o Hp _ IH|id name c pos o Hp Hn _ IH|id c pos o Hp _ IH|pos|c cs pos _ IH|c cs pos e us _ IH|c cs pos e us o _ IH1 _ IH2|pos|
    c cs pos o _ IH Ho|c cs pos o _ IH1 _ IH2|c mn mx k pos Hm|c mn mx k pos Hm Hl|c mn mx k pos Hm Hl _ IH|c mn mx k pos us Hm Hl _ IH|c mn mx k pos e us Hm Hl _ IH|
    c mn mx k pos e us o Hm Hl Hpc IH1 He _ IH2]; cbn [computes]; intros; try (eapply finds_exec; [exact Hp|]; cbn [exec]).
  - eapply ends_ext with (m := λ _, Ok (ast, r)); [intros n; by rewrite exec_leaf_eq, Hr by done|]. apply finds_ok; [done|]. eapply shows_leaf, leaf_spans; done.
  - pose proof (IH pos ast [] [] ltac:(constructor)) as H. by destruct o.
  - apply IH.
  - pose proof (IH (S (S (length input))) pos ast [] [] ltac:(lia) ltac:(constructor)) as H. by destruct o.
  - eapply finds_bind; [exact IH|]. intros ast' r Hpre [Hs Hsh]. apply finds_ok; [done|]. split; [done|]. destruct o; [done|destruct Hsh as (Ht & _)..]; cbn; rewrite Ht; by repeat constructor.
  - eapply finds_bind; [exact IH|]. intros ast' r Hpre [Hs Hsh]. apply finds_ok; [done|]. split; [done|].
    destruct o; [|destruct Hsh as (Ht & _)..]; cbn; rewrite ?Ht, ?Hsh; by repeat constructor.
  - apply IH.
  - eapply finds_bind; [exact IH|]. intros ast' r Hpre Hsh. destruct (add_result input name [] ast' r) as [ast'' r'] eqn:E. destruct (shows_node _ _ _ _ _ _ _ _ _ Hsh E). by apply finds_ok.
  - eapply finds_bind; [exact IH|]. intros ast' r Hpre Hsh. destruct (add_result input [] tag ast' r) as [ast'' r'] eqn:E. destruct (shows_node _ _ _ _ _ _ _ _ _ Hsh E). by apply finds_ok.
  - unfold get_rule. rewrite Hn. cbn. apply IH.
  - eapply finds_bind; [exact IH|]. intros ast' r Hpre [Hs Hsh]. apply finds_ok; [done|]. destruct o; [|destruct Hsh as (Ht & He & Htr)..]; cbn;
      [rewrite decide_False by congruence; done|rewrite decide_False by congruence; done|rewrite decide_True by done]. split; [done|]. cbn. by repeat constructor.
  - apply finds_ok; [done|]. split; [done|]. cbn. by rewrite app_nil_r.
  - eapply finds_bind; [exact IH|]. intros ast' r Hpre [Hs Hsh]. cbn [r_type] in *. rewrite Hsh. by apply finds_ok.
  - eapply finds_bind; [exact IH|]. intros ast' r Hpre [Hs (Ht & He & Htr)]. rewrite Ht. apply finds_ok; [done|]. split; [done|]. cbn. split; [done|split; [done|]].
    apply Forall2_app; [by eapply are_trees_mono|done].
  - eapply finds_bind; [exact IH1|]. intros ast' r Hpre [Hs (Ht & He & Htr)]. rewrite Ht, He. pose proof (IH2 start ast' (nodes ++ r_nodes r) (ts ++ us)) as H2.
    destruct o; cbn in *; rewrite ?app_assoc in *; apply H2, Forall2_app; try done; by eapply are_trees_mono.
  - by apply finds_ok.
  - eapply finds_bind; [exact IH|]. intros ast' r Hpre Hsh. destruct (decide (r_type r = PEG_FAIL)) as [Hf|_]; [by apply (shows_type_fail _ _ _ _ Hsh) in Hf|]. by apply finds_ok.
  - eapply finds_bind; [exact IH1|]. intros ast' r Hpre Hsh. destruct (decide (r_type r = PEG_FAIL)) as [_|Hf]; [apply IH2|]. destruct Hf. by apply (shows_type_fail _ _ _ _ Hsh).
  - destruct f as [|f]; [lia|]. apply finds_stop; [done|by left].
  - destruct f as [|f]; [lia|]. apply finds_stop; [done|by right].
  - destruct f as [|f]; [lia|]. eapply finds_round; [done|done|exact IH|]. intros ast' r Hpre [Hs Hsh]. cbn [after_round]. rewrite Hsh. apply finds_ok; [done|]. apply shows_enough. by eapply are_trees_mono.
  - destruct f as [|f]; [lia|]. eapply finds_round; [done|done|exact IH|]. intros ast' r Hpre [Hs (Ht & He & Htr)]. cbn [after_round]. rewrite Ht. destruct (decide (r_end r = pos)); [|congruence]. apply finds_ok; [done|]. apply shows_enough. by eapply are_trees_mono.
  - destruct f as [|f]; [lia|]. eapply finds_round; [done|done|exact IH|]. intros ast' r Hpre [Hs (Ht & He & Htr)]. cbn [after_round]. rewrite Ht. apply finds_ok; [done|]. split; [done|]. cbn. split; [done|split; [done|]].
    apply Forall2_app; [by eapply are_trees_mono|done].
  - destruct f as [|f]; [lia|]. eapply finds_round; [done|done|exact IH1|]. intros ast' r Hpre [Hs (Ht & He' & Htr)]. cbn [after_round]. rewrite Ht. destruct (decide (r_end r = pos)); [congruence|]. rewrite He'.
    apply peg_ends_in in Hpc. cbn in Hpc. pose proof (IH2 f start ast' (nodes ++ r_nodes r) (ts ++ us) ltac:(lia)) as H2. destruct o; cbn in *; rewrite ?app_assoc in *; apply H2, Forall2_app; try done; by eapply are_trees_mono.
Qed.
End complete.

(** ** The syntax tree *)

Definition t_start (t : peg_tree) : nat := match t with PegNode _ _ s _ _ _ _ => s end.
Definition t_stop (t : peg_tree) : nat := match t with PegNode _ _ _ e _ _ _ => e end.

(** trees that lie one after the other between [a] and [b]; [ok] is asked of each *)
Fixpoint in_order (ok : peg_tree → Prop) (a b : nat) (ts : list peg_tree) : Prop :=
  match ts with [] => a ≤ b | t :: ts => a ≤ t_start t ∧ ok t ∧ in_order ok (t_stop t) b ts end.

(** a node spans a part of the text, holds it, and its children lie in it in order; it is marked as partial
    only if [partial] is allowed, and so are its children *)
Fixpoint tree_ok (input : list Z) (t : peg_tree) : Prop :=
  match t with
  | PegNode _ _ s e text ts _ => s ≤ e ≤ length input ∧ text = take (e - s) (drop s input) ∧ in_order (tree_ok input) s e ts
  end.
(** no node in it is partial *)
Fixpoint whole (t : peg_tree) : bool := match t with PegNode _ _ _ _ _ ts partial => negb partial && forallb whole ts end.

Lemma in_order_app input a b c ts us : in_order (tree_ok input) a b ts → in_order (tree_ok input) b c us → in_order (tree_ok input) a c (ts ++ us).
Proof.
  revert a. induction ts as [|t ts IH]; intros a; cbn.
  - intros H. destruct us as [|u us]; cbn; [lia|]. intros (H1 & H2). split; [lia|done].
  - intros (H1 & H2 & H3) Hu. split; [done|]. split; [done|]. by apply IH.
Qed.

Lemma node_text_eq input s e : node_text input s e = take (e - s) (drop s input).
Proof. unfold node_text. case_decide; [done|]. rewrite drop_ge by lia. by rewrite take_nil. Qed.

Definition outcome_ok (input : list Z) (pos : nat) (o : peg_outcome) : Prop :=
  match o with
  | OFail => True
  | OSuccess e ts => e ≤ length input ∧ in_order (tree_ok input) pos e ts ∧ forallb whole ts = true
  | ONeed e ts => e ≤ length input ∧ in_order (tree_ok input) pos e ts
  end.

Lemma outcome_ok_node input pos o rule tag : ends_in (length input) pos o → pos ≤ length input → outcome_ok input pos o → outcome_ok input pos (node_of input rule tag o pos).
Proof.
  intros Hs Hp. destruct o; cbn in *; [done|intros (H1 & H2 & H3)|intros (H1 & H2)]; rewrite node_text_eq; [rewrite H3|]; (split_and!; [done|lia|lia|lia|done|done|lia|..]); done.
Qed.

Lemma outcome_ok_empty input pos : pos ≤ length input → outcome_ok input pos (OSuccess pos []) ∧ outcome_ok input pos (ONeed pos []).
Proof. cbn. lia. Qed.

Lemma outcome_ok_prepend input pos e ts o : outcome_ok input pos (OSuccess e ts) → outcome_ok input e o → outcome_ok input pos (prepend ts o).
Proof.
  intros (H1 & H2 & H3) Ho. destruct o as [|e' us|e' us]; [done|..]; cbn in *; rewrite ?forallb_app, ?H3.
  - destruct Ho as (I1 & I2 & I3). split_and!; [done|by eapply in_order_app|done].
  - destruct Ho as (I1 & I2). split; [done|by eapply in_order_app].
Qed.

Lemma peg_outcome_ok arena input lenient t pos o : peg arena input lenient t pos o → pos ≤ length input → outcome_ok input pos o.
Proof.
  intros H. assert (Henough : ∀ mn k pos, pos ≤ length input → outcome_ok input pos (enough input lenient mn k pos)).
  { intros mn k p Hp. destruct (enough_cases input lenient mn k p) as [->|[->| ->]]; [by apply outcome_ok_empty..|done]. }
  induction H as [id p pos r Hp Hl Hr|id cs pos o Hp _ IH|id cs pos o Hp _ IH|id c mn mx pos o Hp _ IH|id c pos o Hp _ IH|id c pos o Hp _ IH|id c name raw pos o Hp _ IH|
    id name c trigger pos o Hp Hc IH|id c tag pos o Hp Hc IH|id name c pos o Hp Hn _ IH|id c pos o Hp _ IH|pos|c cs pos _ IH|c cs pos e us _ IH|c cs pos e us o Hc IH1 _ IH2|pos|
    c cs pos o _ IH Ho|c cs pos o _ IH1 _ IH2|c mn mx k pos Hm|c mn mx k pos Hm Hl|c mn mx k pos Hm Hl _ IH|c mn mx k pos us Hm Hl _ IH|c mn mx k pos e us Hm Hl _ IH|
    c mn mx k pos e us o Hm Hl Hpc IH1 He _ IH2]; intros Hle; eauto.
  - destruct (leaf_spans input lenient p pos r) as (_ & _ & H3); [done..|]. unfold leaf_outcome. destruct (r_type r); cbn; [done|specialize (H3 ltac:(done)); lia..].
  - by destruct o; [|apply outcome_ok_empty..].
  - by destruct o; [apply outcome_ok_empty| |apply outcome_ok_empty].
  - apply outcome_ok_node; [by eapply peg_ends_in|done|by apply IH].
  - apply outcome_ok_node; [by eapply peg_ends_in|done|by apply IH].
  - specialize (IH Hle). destruct o as [|e ts|e ts]; [done|done|]. destruct IH as [H1 H2]. cbn. split; [done|]. assert (∀ a ts, in_order (tree_ok input) a e ts → a ≤ e) as Hao; [|by eapply Hao].
    intros a us. revert a. induction us as [|[] us IHu]; intros a; cbn; [done|]. intros (Ha & (Hb & _) & Hc). apply IHu in Hc. lia.
  - cbn. lia.
  - specialize (IH1 Hle). eapply outcome_ok_prepend; [done|]. apply IH2, IH1.
  - done.
  - specialize (IH1 Hle). eapply outcome_ok_prepend; [done|]. apply IH2, IH1.
Qed.

(** ** Theorems *)

(** C21. What the executor does, read as trees: whatever it returns with any amount of fuel is the outcome of the relation, and
    for every outcome of the relation it ends with it.  The nodes are added to the arena behind those that are there. *)
Theorem peg_parse_refines arena input lenient id pos :
  (∀ n ast ast' r, parse_id arena input lenient n id ast pos = Ok (ast', r) → ∃ o, peg arena input lenient (One id) pos o ∧ ast `prefix_of` ast' ∧ shows pos ast' r o) ∧
  (∀ o ast, peg arena input lenient (One id) pos o → ends (λ n, parse_id arena input lenient n id ast pos) (λ x, ast `prefix_of` x.1 ∧ shows pos x.1 x.2 o)) ∧
  (∀ o o', peg arena input lenient (One id) pos o → peg arena input lenient (One id) pos o' → o = o').
Proof.
  split; [|split].
  - intros n ast ast' r. apply parse_sound.
  - intros o ast H. exact (parse_complete _ _ _ _ _ _ H ast).
  - intros o o'. apply peg_functional.
Qed.

(** C23. The syntax tree of a parse: the nodes of the result lie in order between the start and the end of the match, each one
    spans the text that it holds, its children lie in it in order, and a successful parse has no partial node. *)
Theorem peg_trees_nested arena input lenient n id ast pos ast' r :
  parse_id arena input lenient n id ast pos = Ok (ast', r) → pos ≤ length input → r_type r ≠ PEG_FAIL →
  r_start r = pos ∧ r_end r ≤ length input ∧ ∃ ts, are_trees ast' ts (r_nodes r) ∧ in_order (tree_ok input) pos (r_end r) ts ∧ (r_type r = PEG_SUCCESS → forallb whole ts = true).
Proof.
  intros H Hp Hf. apply parse_sound in H as (o & Ho & _ & [Hs Hsh]). apply peg_outcome_ok in Ho; [|done]. split; [done|]. destruct o as [|e ts|e ts]; [done|..]; destruct Hsh as (Ht & -> & Htr).
  - destruct Ho as (H1 & H2 & H3). split; [done|]. by exists ts.
  - destruct Ho as (H1 & H2). split; [done|]. exists ts. split; [done|]. split; [done|]. congruence.
Qed.

(** ** An example: (tag("t", until("ab")) "ab")*, as a rule *)

Definition ex_peg_arena : common_peg_arena :=
  PegArena [until_parser [[97; 98]%Z]; tag_parser 0 [116]%Z; literal_parser [97; 98]%Z; sequence_parser [1; 2]; repetition_parser 3 0 (-1); rule_parser [114]%Z 4 false]
    {[ [114]%Z := 5 ]} (Some 5).
(** "xabyab" *)
Definition ex_peg_text : list Z := [120; 97; 98; 121; 97; 98]%Z.

Lemma peg_trees_nested_witness : ∃ ast r, parse_id ex_peg_arena ex_peg_text false 5 5 [] 0 = Ok (ast, r) ∧ ∃ ts, are_trees ast ts (r_nodes r) ∧ in_order (tree_ok ex_peg_text) 0 6 ts.
Proof.
  eexists _, _. split; [vm_compute; reflexivity|]. edestruct (peg_trees_nested ex_peg_arena ex_peg_text false 5 5 [] 0) as (_ & _ & ts & H1 & H2 & _); [vm_compute; reflexivity|cbn; lia|discriminate|].
  exists ts. split; [exact H1|exact H2].
Defined.

Lemma peg_parse_refines_witness : ∃ o, peg ex_peg_arena ex_peg_text false (One 5) 0 o ∧ o ≠ OFail.
Proof.
  destruct (peg_parse_refines ex_peg_arena ex_peg_text false 5 0) as (H & _ & _). edestruct (H 5 []) as (o & H1 & _ & H2); [vm_compute; reflexivity|]. exists o. split; [exact H1|].
  intros ->. destruct H2 as [_ H2]. discriminate H2.
Defined.

