(* ===== verification/PegTotal.v ===== *)
(** PEG parsers end: the trie of the delimiters is what its words say, every parser without children returns, and an arena
    without left recursion, which [terminating] decides, parses every text.  What a parser can do without moving on is
    computed by iteration and then checked, so that only the check has to be right. *)
From S2P Require Import Prelude Peg.
From stdpp Require Import gmap.

(** ** Left recursion *)

Section check.
  Context (arena : common_peg_arena) (nul : list bool) (rank : list nat).

Definition is_nul (id : nat) : bool := default true (nul !! id).
Definition rank_of (id : nat) : nat := default 0 (rank !! id).

(** all children of a parser; [None] if it refers to a rule that is missing *)
Definition children_of (p : common_peg_parser_variant) : option (list nat) :=
  match p with
  | sequence_parser cs | choice_parser cs => Some cs
  | repetition_parser c _ _ | and_parser c | not_parser c | schema_parser c _ _ | rule_parser _ c _ | atomic_parser c | tag_parser c _ => Some [c]
  | ref_parser name => (λ c, [c]) <$> rules_ arena !! name
  | _ => Some []
  end.

(** those that may be called at the position of the parser itself *)
Fixpoint front (cs : list nat) : list nat := match cs with [] => [] | c :: cs => c :: if is_nul c then front cs else [] end.
Definition calls (p : common_peg_parser_variant) : list nat :=
  match p with sequence_parser cs => front cs | _ => default [] (children_of p) end.

(** may the parser succeed without moving on? *)
Definition may_be_empty (p : common_peg_parser_variant) : bool :=
  match p with
  | literal_parser l => bool_decide (l = [])
  | sequence_parser cs => forallb is_nul cs
  | choice_parser cs => existsb is_nul cs
  | repetition_parser _ mn _ | chars_parser _ _ _ mn _ => bool_decide (mn ≤ 0)%Z
  | any_parser => false
  | schema_parser c _ _ | rule_parser _ c _ | atomic_parser c | tag_parser c _ => is_nul c
  | ref_parser name => default true (is_nul <$> rules_ arena !! name)
  | _ => true
  end.

Definition check_parser (id : nat) (p : common_peg_parser_variant) : bool :=
  match children_of p with
  | None => false
  | Some cs => forallb (λ c, bool_decide (c < length (parsers_ arena))) cs && forallb (λ c, bool_decide (rank_of c < rank_of id)) (calls p) && implb (may_be_empty p) (is_nul id)
  end.
Definition check_arena : bool := forallb (λ ip, check_parser ip.1 ip.2) (imap pair (parsers_ arena)).
End check.

(** the iterations *)
Fixpoint iterate {A} (n : nat) (f : A → A) (x : A) : A := match n with 0 => x | S n => iterate n f (f x) end.
Definition nul_table (arena : common_peg_arena) : list bool :=
  iterate (length (parsers_ arena)) (λ nul, may_be_empty arena nul <$> parsers_ arena) (replicate (length (parsers_ arena)) false).
Definition rank_table (arena : common_peg_arena) (nul : list bool) : list nat :=
  iterate (length (parsers_ arena)) (λ rank, (λ p, S (foldr max 0 (rank_of rank <$> calls arena nul p))) <$> parsers_ arena) (replicate (length (parsers_ arena)) 0).
Definition terminating (arena : common_peg_arena) : bool :=
  let nul := nul_table arena in check_arena arena nul (rank_table arena nul).

(** ** Reading code points *)

Inductive reads_to (s : list Z) : nat → list Z → nat → Prop :=
  | reads_nil pos : reads_to s pos [] pos
  | reads_cons pos l p : u_status (common_parse_utf8_codepoint s pos) = UTF8_SUCCESS →
      reads_to s (pos + bytes_consumed (common_parse_utf8_codepoint s pos)) l p → reads_to s pos (codepoint (common_parse_utf8_codepoint s pos) :: l) p.
Definition stuck (s : list Z) (pos : nat) : Prop := u_status (common_parse_utf8_codepoint s pos) ≠ UTF8_SUCCESS.

(** all the code points that can be read from a position on *)
Definition reads_all (s : list Z) (pos : nat) (l : list Z) (p : nat) : Prop := reads_to s pos l p ∧ stuck s p.
Definition spells (w : list Z) (l : list Z) : Prop := ∃ p, reads_all w 0 l p.

Lemma reads_all_exists s pos : ∃ l p, reads_all s pos l p.
Proof.
  remember (length s - pos) as d eqn:Hd. revert pos Hd. induction (lt_wf d) as [d _ IH]. intros pos ->.
  destruct (decide (u_status (common_parse_utf8_codepoint s pos) = UTF8_SUCCESS)) as [E|E]; [|exists [], pos; split; [constructor|done]].
  pose proof (utf8_consumed _ _ E). destruct (IH (length s - (pos + bytes_consumed (common_parse_utf8_codepoint s pos))) ltac:(lia) _ eq_refl) as (l & p & H1 & H2).
  eexists _, p. split; [by apply reads_cons|done].
Qed.
Lemma reads_all_functional s pos l p l' p' : reads_all s pos l p → reads_all s pos l' p' → l = l' ∧ p = p'.
Proof.
  unfold reads_all, stuck. intros [H1 H2] [H1' H2']. revert l' H1'. induction H1 as [pos|pos l p E H1 IH]; intros l' H1'; inversion H1'; subst; [done|done|done|].
  destruct (IH H2 _ ltac:(done)) as [-> ->]. done.
Qed.
Lemma spells_functional w l l' : spells w l → spells w l' → l = l'.
Proof. intros [p H] [p' H']. by eapply reads_all_functional. Qed.
Lemma spells_exists w : ∃ l, spells w l.
Proof. destruct (reads_all_exists w 0) as (l & p & H). by exists l, p. Qed.

(** ** The trie *)

Definition trie_step (nodes : list trie_node) (n : nat) (c : Z) : option nat := nodes !! n ≫= λ nd, children nd !! c.
Fixpoint reach (nodes : list trie_node) (n : nat) (l : list Z) : option nat :=
  match l with [] => Some n | c :: l => trie_step nodes n c ≫= λ m, reach nodes m l end.

Lemma reach_app nodes n l1 l2 : reach nodes n (l1 ++ l2) = reach nodes n l1 ≫= λ m, reach nodes m l2.
Proof. revert n. induction l1 as [|c l1 IH]; intros n; [done|]. cbn. destruct (trie_step nodes n c) as [m|]; [|done]. cbn. apply IH. Qed.

(** the paths of the trie are [P], the words [W] among them *)
Record trie_inv (nodes : list trie_node) (P W : list Z → Prop) : Prop := {
  ti_root : 0 < length nodes;
  ti_child : ∀ n c m, trie_step nodes n c = Some m → m < length nodes;
  ti_uniq : ∀ l l' m, reach nodes 0 l = Some m → reach nodes 0 l' = Some m → l = l';
  ti_path : ∀ l, is_Some (reach nodes 0 l) ↔ P l;
  ti_word : ∀ l m nd, reach nodes 0 l = Some m → nodes !! m = Some nd → is_word nd = true ↔ W l;
  ti_words : ∀ l, W l → P l
}.

Lemma trie_inv_ext nodes P W P' W' : (∀ l, P l ↔ P' l) → (∀ l, W l ↔ W' l) → trie_inv nodes P W → trie_inv nodes P' W'.
Proof. intros HP HW [H1 H2 H3 H4 H5 H6]. split; try done; [intros l; by rewrite H4|intros l m nd Hr Hn; rewrite <- HW; by eapply H5|intros l Hl; by apply HP, H6, HW]. Qed.

Lemma reach_lt nodes P W l m : trie_inv nodes P W → reach nodes 0 l = Some m → m < length nodes.
Proof.
  intros Hi. destruct l as [|c l _] using rev_ind; [intros [= <-]; apply Hi|]. rewrite reach_app. destruct (reach nodes 0 l) as [n|]; [|done]. cbn.
  destruct (trie_step nodes n c) eqn:E; [|done]. cbn. intros [= <-]. by eapply ti_child.
Qed.

Lemma trie_inv_empty : trie_inv (create_node []) (λ l, l = []) (λ _, False).
Proof.
  assert (Hs : ∀ n c, trie_step (create_node []) n c = None) by (intros [|n] c; [done|done]).
  assert (Hr : ∀ l m, reach (create_node []) 0 l = Some m → l = [] ∧ m = 0) by (intros [|c l] m; cbn [reach]; [by intros [= <-]|by rewrite Hs]).
  split; [cbn; lia|intros n c m; by rewrite Hs|..|done].
  - intros l l' m [-> _]%Hr [-> _]%Hr. done.
  - intros l. split; [intros [m [-> _]%Hr]; done|intros ->; by eexists].
  - intros l m nd [-> ->]%Hr [= <-]. done.
Qed.

(** a new child *)
Section child.
  Context (nodes : list trie_node) (P W : list Z → Prop) (cur : nat) (nd : trie_node) (l0 : list Z) (c : Z).
  Hypothesis Hi : trie_inv nodes P W.
  Hypothesis Hcur : nodes !! cur = Some nd.
  Hypothesis Hl0 : reach nodes 0 l0 = Some cur.
  Hypothesis Hnew : children nd !! c = None.
Let nodes1 := <[cur := TrieNode (<[c := length nodes]> (children nd)) (is_word nd)]> (create_node nodes).

Lemma child_lookup n : nodes1 !! n = if decide (n = cur) then Some (TrieNode (<[c := length nodes]> (children nd)) (is_word nd))
  else if decide (n = length nodes) then Some (TrieNode ∅ false) else nodes !! n.
Proof.
  pose proof (lookup_lt_Some _ _ _ Hcur). unfold nodes1, create_node. case_decide as E; [subst; by rewrite list_lookup_insert_eq by (rewrite length_app; cbn; lia)|].
  rewrite list_lookup_insert_ne by done. case_decide as E2; [subst; by rewrite lookup_app_r, Nat.sub_diag by done|].
  destruct (decide (n < length nodes)); [by rewrite lookup_app_l|]. rewrite !lookup_ge_None_2; [done|lia|rewrite length_app; cbn; lia].
Qed.

Lemma child_step n a : trie_step nodes1 n a = if decide (n = cur ∧ a = c) then Some (length nodes) else trie_step nodes n a.
Proof.
  unfold trie_step. rewrite child_lookup. destruct (decide (n = cur)) as [->|Hn].
  - rewrite Hcur. cbn. destruct (decide (a = c)) as [->|Ha]; [rewrite decide_True by done; by rewrite lookup_insert_eq|]. rewrite decide_False by naive_solver. by rewrite lookup_insert_ne.
  - rewrite (decide_False (P := n = cur ∧ a = c)) by naive_solver. case_decide as E; [|done]. subst. rewrite lookup_ge_None_2 by done. done.
Qed.

Lemma child_reach_old l : ∀ n m, reach nodes n l = Some m → reach nodes1 n l = Some m.
Proof.
  induction l as [|a l IH]; intros n m; [done|]. cbn. rewrite child_step. destruct (trie_step nodes n a) as [k|] eqn:E; [|done]. cbn. intros H.
  rewrite decide_False; [cbn; by apply IH|]. intros [-> ->]. unfold trie_step in E. rewrite Hcur in E. cbn in E. congruence.
Qed.

Lemma child_reach_inv l : ∀ n m, n < length nodes → reach nodes1 n l = Some m → reach nodes n l = Some m ∨ m = length nodes ∧ ∃ l1, l = l1 ++ [c] ∧ reach nodes n l1 = Some cur.
Proof.
  induction l as [|a l IH]; intros n m Hn; [by left|]. cbn. rewrite child_step. destruct (decide (n = cur ∧ a = c)) as [[-> ->]|Ha].
  - cbn. destruct l as [|b l]; [intros [= <-]; right; split; [done|by exists []]|]. cbn. rewrite child_step. pose proof (lookup_lt_Some _ _ _ Hcur).
    rewrite decide_False by lia. unfold trie_step. rewrite (lookup_ge_None_2 nodes (length nodes)) by done. done.
  - destruct (trie_step nodes n a) as [k|] eqn:E; [|done]. cbn. intros H. pose proof (ti_child _ _ _ Hi _ _ _ E). destruct (IH k m ltac:(done) H) as [H'|(-> & l1 & -> & H')]; [by left|].
    right. split; [done|]. exists (a :: l1). split; [done|]. cbn. by rewrite E.
Qed.

Lemma child_inv : trie_inv nodes1 (λ l, P l ∨ l = l0 ++ [c]) W ∧ reach nodes1 0 (l0 ++ [c]) = Some (length nodes).
Proof.
  pose proof (ti_root _ _ _ Hi) as H0. assert (Hlen : length nodes1 = S (length nodes)) by (unfold nodes1, create_node; rewrite length_insert, length_app; cbn; lia).
  assert (Hr : reach nodes1 0 (l0 ++ [c]) = Some (length nodes)).
  { rewrite reach_app, (child_reach_old _ _ _ Hl0). cbn. rewrite child_step, decide_True by done. done. }
  assert (Hcase : ∀ l m, reach nodes1 0 l = Some m → reach nodes 0 l = Some m ∨ m = length nodes ∧ l = l0 ++ [c]).
  { intros l m H. destruct (child_reach_inv l 0 m H0 H) as [H'|(-> & l1 & -> & H')]; [by left|]. right. split; [done|]. f_equal. by eapply (ti_uniq _ _ _ Hi). }
  split; [|done]. split.
  - lia.
  - intros n a m. rewrite child_step. destruct (decide (n = cur ∧ a = c)); [intros [= <-]; lia|]. intros Hs. pose proof (ti_child _ _ _ Hi _ _ _ Hs). lia.
  - intros l l' m H H'. destruct (Hcase _ _ H) as [E|[-> ->]], (Hcase _ _ H') as [E'|[E' ->]]; [by eapply (ti_uniq _ _ _ Hi)| | |done].
    + subst. apply (reach_lt _ _ _ _ _ Hi) in E. lia.
    + apply (reach_lt _ _ _ _ _ Hi) in E'. lia.
  - intros l. rewrite <- (ti_path _ _ _ Hi). split.
    + intros [m H]. destruct (Hcase _ _ H) as [E|[_ E]]; [by left; exists m|by right].
    + intros [[m H]| ->]; [exists m; by apply child_reach_old|by exists (length nodes)].
  - intros l m nd' H Hn. destruct (Hcase _ _ H) as [E|[-> ->]].
    + pose proof (reach_lt _ _ _ _ _ Hi E). rewrite child_lookup in Hn. destruct (decide (m = cur)) as [->|Hm].
      * injection Hn as <-. cbn. by eapply (ti_word _ _ _ Hi).
      * rewrite decide_False in Hn by lia. by eapply (ti_word _ _ _ Hi).
    + pose proof (lookup_lt_Some _ _ _ Hcur). rewrite child_lookup, decide_False, decide_True in Hn by lia. injection Hn as <-. cbn. split; [done|]. intros Hw.
      apply (ti_words _ _ _ Hi), (ti_path _ _ _ Hi) in Hw as [k Hk]. rewrite reach_app, Hl0 in Hk. cbn in Hk. unfold trie_step in Hk. rewrite Hcur in Hk. cbn in Hk. by rewrite Hnew in Hk.
  - intros l Hw. left. by apply (ti_words _ _ _ Hi).
Qed.
End child.

(** inserting a word: its prefixes become paths *)
Lemma reads_stop s pos : stuck s pos → ∀ l p, reads_to s pos l p → l = [] ∧ p = pos.
Proof. intros Hs l p H. inversion H; subst; [done|]. by destruct Hs. Qed.

Lemma reads_all_step s pos l p : reads_all s pos l p → (l = [] ∧ p = pos ∧ stuck s pos) ∨
  u_status (common_parse_utf8_codepoint s pos) = UTF8_SUCCESS ∧ ∃ l', l = codepoint (common_parse_utf8_codepoint s pos) :: l' ∧ reads_all s (pos + bytes_consumed (common_parse_utf8_codepoint s pos)) l' p.
Proof. intros [H Hs]. inversion H; subst; [by left|]. right. split; [done|]. eexists. done. Qed.

Lemma trie_walk_ok word W fuel : ∀ nodes P l0 cur pos l p, trie_inv nodes P W → reach nodes 0 l0 = Some cur → reads_all word pos l p → length word - pos < fuel →
  okP (trie_walk fuel nodes word cur pos) (λ r, trie_inv r.1 (λ q, P q ∨ ∃ k, q = l0 ++ take k l) W ∧ reach r.1 0 (l0 ++ l) = Some r.2).
Proof.
  induction fuel as [|fuel IH]; intros nodes P l0 cur pos l p Hi Hc Hl Hf; [lia|]. cbn [trie_walk].
  assert (Hdone : ∀ q, P q ↔ P q ∨ ∃ k : nat, q = l0 ++ take k []).
  { intros q. split; [by left|]. intros [H|[k ->]]; [done|]. rewrite take_nil, app_nil_r. apply (ti_path _ _ _ Hi). by exists cur. }
  apply reads_all_step in Hl as [(-> & -> & Hs)|(Hs & l' & -> & Hl)].
  { assert (Hstop : okP (Ok (nodes, cur)) (λ r, trie_inv r.1 (λ q, P q ∨ ∃ k, q = l0 ++ take k []) W ∧ reach r.1 0 (l0 ++ []) = Some r.2)).
    { cbn. rewrite app_nil_r. split; [|done]. by eapply trie_inv_ext; [exact Hdone|done|]. }
    case_decide; [|exact Hstop]. cbv zeta. rewrite decide_True by exact Hs. exact Hstop. }
  pose proof (utf8_consumed _ _ Hs) as [Hb1 Hb2]. rewrite decide_True by lia. cbv zeta. rewrite decide_False by (by intros []). set (c := codepoint _) in *. set (b := bytes_consumed _) in *.
  pose proof (reach_lt _ _ _ _ _ Hi Hc) as Hlt. destruct (lookup_lt_is_Some_2 _ _ Hlt) as [nd Hnd]. rewrite (vget_ok _ _ _ Hnd), bind_Ok.
  destruct (children nd !! c) as [child|] eqn:Ech.
  - assert (Hc' : reach nodes 0 (l0 ++ [c]) = Some child) by (rewrite reach_app, Hc; cbn; unfold trie_step; rewrite Hnd; cbn; by rewrite Ech).
    eapply okP_mono; [apply (IH nodes P (l0 ++ [c]) child (pos + b) l' p Hi Hc' Hl); lia|]. intros [nodes' cur']. rewrite <- !app_assoc. cbn. intros [Hi' Hr]. split; [|done].
    eapply trie_inv_ext; [|done|exact Hi']. intros q. cbn beta. split; (intros [H|[k ->]]; [by left|]).
    + right. exists (S k). by rewrite <- app_assoc.
    + destruct k as [|k]; [left; rewrite take_0, app_nil_r; apply (ti_path _ _ _ Hi); by exists cur|]. right. exists k. by rewrite <- app_assoc.
  - destruct (child_inv nodes P W cur nd l0 c Hi Hnd Hc Ech) as [Hi1 Hr1]. rewrite (vset_ok (create_node nodes)), bind_Ok by (unfold create_node; rewrite length_app; cbn; lia).
    eapply okP_mono; [apply (IH _ _ (l0 ++ [c]) (length nodes) (pos + b) l' p Hi1 Hr1 Hl); lia|]. intros [nodes' cur']. rewrite <- !app_assoc. cbn. intros [Hi' Hr]. split; [|done].
    eapply trie_inv_ext; [|done|exact Hi']. intros q. cbn beta. split.
    + intros [[H| ->]|[k ->]]; [by left|right; by exists 1|right; exists (S k); by rewrite <- app_assoc].
    + intros [H|[k ->]]; [by left; left|]. destruct k as [|k]; [left; left; rewrite take_0, app_nil_r; apply (ti_path _ _ _ Hi); by exists cur|]. right. exists k. by rewrite <- app_assoc.
Qed.

Lemma mark_inv nodes P W l n nd : trie_inv nodes P W → reach nodes 0 l = Some n → nodes !! n = Some nd →
  trie_inv (<[n := TrieNode (children nd) true]> nodes) P (λ q, W q ∨ q = l).
Proof.
  intros Hi Hr Hn. pose proof (reach_lt _ _ _ _ _ Hi Hr) as Hlt. set (nodes' := <[n := _]> nodes).
  assert (Hs : ∀ m c, trie_step nodes' m c = trie_step nodes m c).
  { intros m c. unfold trie_step, nodes'. destruct (decide (m = n)) as [->|Hm]; [by rewrite list_lookup_insert_eq, Hn by done|by rewrite list_lookup_insert_ne]. }
  assert (Hre : ∀ q m, reach nodes' m q = reach nodes m q).
  { induction q as [|c q IH]; intros m; [done|]. cbn. rewrite Hs. destruct (trie_step nodes m c); [|done]. cbn. apply IH. }
  destruct Hi as [H1 H2 H3 H4 H5 H6]. split; unfold nodes'; rewrite ?length_insert; fold nodes'; try done.
  - intros m c k. rewrite Hs. apply H2.
  - intros q q' m. rewrite !Hre. apply H3.
  - intros q. by rewrite Hre.
  - intros q m nd' Hq Hm. rewrite Hre in Hq. unfold nodes' in Hm. destruct (decide (m = n)) as [->|Hne].
    + rewrite list_lookup_insert_eq in Hm by done. injection Hm as <-. cbn. split; [|done]. intros _. right. by eapply H3.
    + rewrite list_lookup_insert_ne in Hm by done. rewrite (H5 _ _ _ Hq Hm). split; [by left|]. intros [H| ->]; [done|]. rewrite Hr in Hq. congruence.
  - intros q [H| ->]; [by apply H6|]. apply H4. by exists n.
Qed.

Definition is_word_of (words : list (list Z)) (l : list Z) : Prop := ∃ w, w ∈ words ∧ spells w l.
Definition is_path_of (words : list (list Z)) (l : list Z) : Prop := l = [] ∨ ∃ w k q, w ∈ words ∧ spells w q ∧ l = take k q.

(** the trie of a list of words *)
Lemma trie_ok words : okP (trie words) (λ nodes, trie_inv nodes (is_path_of words) (is_word_of words)).
Proof.
  unfold trie. apply (okP_foldM _ (λ ws nodes, trie_inv nodes (is_path_of ws) (is_word_of ws))).
  { eapply trie_inv_ext; [| |exact trie_inv_empty]; intros l; unfold is_path_of, is_word_of; [|set_solver]. split; [by left|]. intros [H|(w & k & q & H & _)]; [done|]. by apply elem_of_nil in H. }
  intros pre w post nodes _ Hi. unfold trie_insert. destruct (spells_exists w) as [l Hl]. destruct Hl as [p Hp].
  eapply okP_bind; [apply (trie_walk_ok w _ _ nodes _ [] 0 0 l p Hi eq_refl Hp); lia|]. intros [nodes' n] [Hi' Hr]. cbn [fst snd app] in *.
  pose proof (reach_lt _ _ _ _ _ Hi' Hr) as Hlt. destruct (lookup_lt_is_Some_2 _ _ Hlt) as [nd Hnd]. rewrite (vget_ok _ _ _ Hnd), bind_Ok. rewrite (vset_ok nodes' _ _ Hlt). cbn [okP].
  eapply trie_inv_ext; [| |by eapply mark_inv]; intros q; cbn beta; unfold is_path_of, is_word_of.
  - split.
    + intros [[->|(w' & k & q' & H1 & H2 & ->)]|[k ->]]; [by left|right; exists w', k, q'; set_solver|right]. exists w, k, l. split_and!; [set_solver|by exists p|done].
    + intros [->|(w' & k & q' & H1 & H2 & ->)]; [by left; left|]. apply elem_of_app in H1 as [H1|H1]; [left; right; by exists w', k, q'|].
      apply list_elem_of_singleton in H1 as ->. right. exists k. f_equal. apply (spells_functional w); [done|by exists p].
  - split.
    + intros [(w' & H1 & H2)| ->]; [exists w'; set_solver|exists w]. split; [set_solver|by exists p].
    + intros (w' & H1 & H2). apply elem_of_app in H1 as [H1|H1]; [left; by exists w'|]. apply list_elem_of_singleton in H1 as ->. right. apply (spells_functional w); [done|by exists p].
Qed.

(** what [check_at] answers, given what can be read from the position on *)
Definition match_spec (words : list (list Z)) (l : list Z) (m : match_result) : Prop :=
  match m with
  | COMPLETE_MATCH => ∃ k, 0 < k ≤ length l ∧ is_word_of words (take k l)
  | PARTIAL_MATCH => l ≠ [] ∧ is_path_of words l ∧ ∀ k, 0 < k ≤ length l → ¬ is_word_of words (take k l)
  | NO_MATCH => (l = [] ∨ ¬ is_path_of words l) ∧ ∀ k, 0 < k ≤ length l → ¬ is_word_of words (take k l)
  end.

Lemma is_path_take words l k : is_path_of words l → is_path_of words (take k l).
Proof. intros [->|(w & j & q & H1 & H2 & ->)]; [left; by rewrite take_nil|]. right. exists w, (k `min` j), q. by rewrite take_take. Qed.

Lemma check_walk_ok words nodes sv : trie_inv nodes (is_path_of words) (is_word_of words) → ∀ fuel l0 cur pos l p, reach nodes 0 l0 = Some cur → reads_all sv pos l p → length sv - pos < fuel →
  (∀ k, 0 < k ≤ length l0 → ¬ is_word_of words (take k l0)) → okP (check_walk fuel nodes sv cur pos) (match_spec words (l0 ++ l)).
Proof.
  intros Hi fuel. induction fuel as [|fuel IH]; intros l0 cur pos l p Hc Hl Hf Hno; [lia|]. cbn [check_walk]. cbv zeta.
  assert (Hroot : cur = 0 ↔ l0 = []).
  { split; [intros ->|intros ->]; [by apply (ti_uniq _ _ _ Hi l0 [] 0)|by injection Hc as <-]. }
  assert (Hpath : is_path_of words l0) by (apply (ti_path _ _ _ Hi); by exists cur).
  apply reads_all_step in Hl as [(-> & -> & Hs)|(Hs & l' & -> & Hl)].
  { rewrite app_nil_r. assert (Hstop : okP (Ok (if decide (cur ≠ 0) then PARTIAL_MATCH else NO_MATCH)) (match_spec words l0)).
    { cbn. case_decide as H; cbn; (split; [|done || (split; done)]); [by rewrite <- Hroot|left; apply Hroot; lia]. }
    destruct (decide (pos < length sv)); [|exact Hstop]. destruct (decide (u_status (common_parse_utf8_codepoint sv pos) ≠ UTF8_SUCCESS)); [exact Hstop|done]. }
  pose proof (utf8_consumed _ _ Hs) as [Hb1 Hb2]. rewrite decide_True by lia. rewrite decide_False by (by intros []). set (c := codepoint _) in *. set (b := bytes_consumed _) in *.
  pose proof (reach_lt _ _ _ _ _ Hi Hc) as Hlt. destruct (lookup_lt_is_Some_2 _ _ Hlt) as [nd Hnd]. rewrite (vget_ok _ _ _ Hnd), bind_Ok.
  assert (Hst : reach nodes 0 (l0 ++ [c]) = children nd !! c) by (rewrite reach_app, Hc; cbn; unfold trie_step; rewrite Hnd; cbn; by destruct (children nd !! c)).
  assert (Hnext : ∀ k, take k (l0 ++ c :: l') = if decide (k ≤ length l0) then take k l0 else l0 ++ c :: take (k - S (length l0)) l').
  { intros k. case_decide as Hk; [by rewrite take_app_le|]. rewrite take_app_ge by lia. f_equal. replace (k - length l0) with (S (k - S (length l0))) by lia. done. }
  destruct (children nd !! c) as [child|] eqn:Ech.
  - pose proof (reach_lt _ _ _ _ _ Hi Hst) as Hlt'. destruct (lookup_lt_is_Some_2 _ _ Hlt') as [nd' Hnd']. rewrite (vget_ok _ _ _ Hnd'), bind_Ok.
    destruct (is_word nd') eqn:Ew.
    + cbn. exists (S (length l0)). split; [rewrite length_app; cbn; lia|]. rewrite Hnext, decide_False, Nat.sub_diag, take_0 by lia. by apply (ti_word _ _ _ Hi (l0 ++ [c]) child nd').
    + replace (l0 ++ c :: l') with ((l0 ++ [c]) ++ l') by (by rewrite <- app_assoc). apply (IH (l0 ++ [c]) child (pos + b) l' p Hst Hl); [lia|].
      intros k [Hk0 Hk]. rewrite length_app in Hk. cbn in Hk. destruct (decide (k ≤ length l0)); [rewrite take_app_le by done; by apply Hno|].
      rewrite take_ge by (rewrite length_app; cbn; lia). intros Hw. apply (ti_word _ _ _ Hi (l0 ++ [c]) child nd' Hst Hnd') in Hw. congruence.
  - assert (Hnp : ∀ q, ¬ is_path_of words (l0 ++ c :: q)).
    { intros q Hp. apply (is_path_take _ _ (S (length l0))) in Hp. rewrite take_app_ge in Hp by lia. replace (S (length l0) - length l0) with 1 in Hp by lia. cbn in Hp. rewrite take_0 in Hp.
      apply (ti_path _ _ _ Hi) in Hp as [m Hm]. congruence. }
    cbn. split; [right; apply Hnp|]. intros k [Hk0 Hk]. rewrite Hnext. case_decide; [by apply Hno|]. intros Hw. apply (ti_words _ _ _ Hi) in Hw. by eapply Hnp.
Qed.

Lemma check_at_ok words nodes sv pos l p : trie_inv nodes (is_path_of words) (is_word_of words) → reads_all sv pos l p → okP (check_at nodes sv pos) (match_spec words l).
Proof. intros Hi Hl. apply (check_walk_ok words nodes sv Hi _ [] 0 pos l p); [done|done|lia|]. cbn. lia. Qed.

(** ** Parsers without children return *)

Section leaves.
  Context (input : list Z) (lenient : bool).

Lemma chars_total fuel rs ng mn mx start : ∀ pos k, length input - pos < fuel →
  okP (chars_loop input lenient fuel rs ng mn mx start pos k) (λ r, r_type r = PEG_SUCCESS → pos ≤ r_end r ∧ (r_end r = pos → (mn ≤ k)%Z)).
Proof.
  induction fuel as [|fuel IH]; intros pos k Hf; [lia|]. cbn [chars_loop]. cbv zeta.
  assert (Hstop : okP (Ok (if decide (k < mn)%Z then if decide (length input ≤ pos) then (if lenient then result_to PEG_NEED_MORE_INPUT start pos else result_to PEG_FAIL start pos)
          else result_to PEG_FAIL start pos else result_to PEG_SUCCESS start pos)) (λ r, r_type r = PEG_SUCCESS → pos ≤ r_end r ∧ (r_end r = pos → (mn ≤ k)%Z))).
  { cbn. case_decide; [repeat case_match; done|]. cbn. intros _. lia. }
  destruct (decide (mx = -1 ∨ k < mx)%Z); [|exact Hstop]. destruct (u_status _) eqn:E.
  - apply utf8_consumed in E as [H1 H2]. destruct (if ng then _ else _); [|exact Hstop]. eapply okP_mono; [apply IH; lia|]. cbn beta. intros r Hr Ht. specialize (Hr Ht). lia.
  - cbn. destruct (decide (mn ≤ k)%Z); [cbn; intros _; lia|]. unfold at_end. by destruct lenient.
  - cbn. destruct (decide (mn ≤ k)%Z); [cbn; intros _; lia|done].
Qed.

Lemma string_total fuel d start : ∀ pos, length input - pos < fuel → okP (string_loop input lenient fuel d start pos) (λ _, True).
Proof.
  induction fuel as [|fuel IH]; intros pos Hf; [lia|]. cbn [string_loop]. destruct (input !! pos) as [c|] eqn:Ec; [|done]. apply lookup_lt_Some in Ec.
  case_decide; [done|]. case_decide; cbv zeta.
  - case_decide as Ht; [done|]. apply escape_moves in Ht. apply IH. lia.
  - destruct (u_status _) eqn:E; [|done..]. apply utf8_consumed in E. apply IH. lia.
Qed.

Lemma until_total words m fuel start : trie_inv m (is_path_of words) (is_word_of words) → ∀ pos, length input - pos < fuel → okP (until_loop input lenient fuel m start pos) (λ _, True).
Proof.
  intros Hi. induction fuel as [|fuel IH]; intros pos Hf; [lia|]. cbn [until_loop]. case_decide; [|done]. cbv zeta. destruct (u_status _) eqn:E; [|done..]. apply utf8_consumed in E.
  destruct (reads_all_exists input pos) as (l & p & Hl). eapply okP_bind; [by eapply check_at_ok|]. intros [] _; [apply IH; lia|done..].
Qed.

Lemma literal_end l start : ∀ pos, r_type (literal_loop input lenient l start pos) = PEG_SUCCESS → r_end (literal_loop input lenient l start pos) = pos + length l.
Proof.
  induction l as [|c l IH]; intros pos; cbn [literal_loop]; [cbn; lia|]. destruct (input !! pos); [|unfold at_end; by destruct lenient]. case_decide; [done|]. intros Ht. rewrite IH by done. cbn. lia.
Qed.

Lemma leaf_total arena nul p pos : is_leaf p = true → okP (exec_leaf input lenient p pos) (λ r, r_type r = PEG_SUCCESS → r_end r = pos → may_be_empty arena nul p = true).
Proof.
  intros Hl. destruct p; try discriminate Hl; cbn [exec_leaf may_be_empty]; try done.
  - intros H He. rewrite literal_end in He by done. apply bool_decide_eq_true_2, length_zero_iff_nil. lia.
  - unfold exec_any. cbv zeta. destruct (u_status _) eqn:E; [|repeat case_match; done..]. apply utf8_consumed in E. cbn. lia.
  - eapply okP_mono; [apply chars_total; lia|]. intros r H Ht He. apply bool_decide_eq_true_2. by apply H.
  - eapply okP_mono; [apply string_total; lia|done].
  - eapply okP_bind; [apply trie_ok|]. intros m Hi. eapply okP_mono; [eapply until_total; [exact Hi|lia]|done].
Qed.
End leaves.

(** ** Arenas that pass the check end *)

Section peg_total.
  Context (arena : common_peg_arena) (input : list Z) (lenient : bool) (nul : list bool) (rank : list nat).
  Hypothesis Hcheck : check_arena arena nul rank = true.
  Abbreviation peg := (peg arena input lenient).
  Abbreviation size := (length input).

Lemma check_one id p : parsers_ arena !! id = Some p → ∃ cs, children_of arena p = Some cs ∧ (∀ c, c ∈ cs → c < length (parsers_ arena)) ∧
  (∀ c, c ∈ calls arena nul p → rank_of rank c < rank_of rank id) ∧ (may_be_empty arena nul p = true → is_nul nul id = true).
Proof.
  intros Hp. assert (Hc : check_parser arena nul rank id p = true).
  { unfold check_arena in Hcheck. rewrite forallb_forall in Hcheck. apply (Hcheck (id, p)), list_elem_of_In, list_elem_of_lookup. exists id. by rewrite list_lookup_imap, Hp. }
  unfold check_parser in Hc. destruct (children_of arena p) as [cs|]; [|done]. apply andb_prop in Hc as [[H1 H2]%andb_prop H3]. exists cs. split; [done|].
  rewrite forallb_forall in H1, H2. split; [|split].
  - intros c Hi. by apply (bool_decide_eq_true_1 _ (H1 c (proj1 (list_elem_of_In _ _) Hi))).
  - intros c Hi. by apply (bool_decide_eq_true_1 _ (H2 c (proj1 (list_elem_of_In _ _) Hi))).
  - intros Hm. rewrite Hm in H3. done.
Qed.

(** the parser has an outcome at the position, which is there only if it may be empty *)
Definition peg_total (id pos : nat) : Prop := ∃ o, peg (One id) pos o ∧ ∀ ts, o = OSuccess pos ts → is_nul nul id = true.
Definition later (pos : nat) : Prop := ∀ c p, c < length (parsers_ arena) → pos < p ≤ size → peg_total c p.

Lemma front_in cs c : c ∈ front nul cs → c ∈ cs.
Proof. induction cs as [|a cs IH]; cbn; [done|]. case_match; set_solver. Qed.

Lemma all_total cs : ∀ pos, pos ≤ size → later pos → (∀ c, c ∈ cs → c < length (parsers_ arena)) → (∀ c, c ∈ front nul cs → peg_total c pos) →
  ∃ o, peg (All cs) pos o ∧ ∀ ts, o = OSuccess pos ts → forallb (is_nul nul) cs = true.
Proof.
  induction cs as [|c cs IH]; intros pos Hp Hl Hcs Hf; [exists (OSuccess pos []); split; [constructor|done]|].
  destruct (Hf c ltac:(cbn; set_solver)) as ([|e ts|e ts] & Ho & Hn).
  - exists OFail. split; [by apply peg_all_fail|done].
  - assert (Hc : ∃ o, peg (All cs) e o ∧ ∀ us, e = pos → o = OSuccess pos us → forallb (is_nul nul) cs = true).
    { pose proof (peg_ends_in _ _ _ _ _ _ Ho) as He. cbn in He. destruct (decide (e = pos)) as [->|Hne].
      - destruct (IH pos Hp Hl ltac:(set_solver)) as (o & H1 & H2); [|exists o; split; [done|intros us _; apply H2]].
        intros c' Hc'. apply Hf. cbn. rewrite (Hn ts eq_refl). set_solver.
      - destruct (IH e ltac:(lia)) as (o & H1 & _); [|set_solver| |exists o; split; [done|intros us ?; lia]].
        + intros c' p Hc' Hp'. apply Hl; [done|lia].
        + intros c' Hc'. apply Hl; [|lia]. apply Hcs. apply front_in in Hc'. set_solver. }
    destruct Hc as (o & H1 & H2). exists (prepend ts o). split; [by eapply peg_all_cons|]. intros us E. destruct o as [|e' vs|]; [done| |done]. cbn in E. injection E as -> E.
    pose proof (peg_ends_in _ _ _ _ _ _ Ho) as He. pose proof (peg_ends_in _ _ _ _ _ _ H1) as He'. cbn in He, He'. assert (e = pos) as -> by lia.
    cbn. by rewrite (Hn ts eq_refl), (H2 vs).
  - exists (ONeed e ts). split; [by apply peg_all_need|done].
Qed.

Lemma first_total cs pos : (∀ c, c ∈ cs → peg_total c pos) → ∃ o, peg (First cs) pos o ∧ ∀ ts, o = OSuccess pos ts → existsb (is_nul nul) cs = true.
Proof.
  induction cs as [|c cs IH]; intros Hc; [exists OFail; split; [constructor|done]|]. destruct (Hc c ltac:(set_solver)) as (o & Ho & Hn). assert (o = OFail ∨ o ≠ OFail) as [->|Hne] by (destruct o; auto).
  - destruct IH as (o & H1 & H2); [set_solver|]. exists o. split; [by eapply peg_first_next|]. intros ts E. cbn. by rewrite (H2 ts E), orb_true_r.
  - exists o. split; [by apply peg_first_here|]. intros ts E. cbn. by rewrite (Hn ts E).
Qed.

Lemma many_total c mn mx : c < length (parsers_ arena) → ∀ pos k, pos ≤ size → later pos → peg_total c pos →
  ∃ o, peg (Many c mn mx k) pos o ∧ ∀ ts, o = OSuccess pos ts → (mn ≤ 0 ∨ mn ≤ k)%Z.
Proof.
  intros Hc pos. remember (size - pos) as d eqn:Hd. revert pos Hd. induction (lt_wf d) as [d _ IH]. intros pos -> k Hp Hl Ht.
  assert (Henough : ∀ ts, enough input lenient mn k pos = OSuccess pos ts → (mn ≤ 0 ∨ mn ≤ k)%Z).
  { intros ts. unfold enough. case_decide; [repeat case_match; done|]. lia. }
  destruct (decide (mx = -1 ∨ k < mx)%Z) as [Hm|Hm]; [|exists (enough input lenient mn k pos); split; [by apply peg_many_max|done]].
  destruct (decide (size ≤ pos)) as [He|He]; [exists (enough input lenient mn k pos); split; [by apply peg_many_end|done]|].
  destruct Ht as ([|e ts|e ts] & Ho & _).
  - exists (enough input lenient mn k pos). split; [apply peg_many_fail; [done|lia|done]|done].
  - pose proof (peg_ends_in _ _ _ _ _ _ Ho) as Hin. cbn in Hin. destruct (decide (e = pos)) as [->|Hne].
    + exists (enough input lenient mn k pos). split; [eapply peg_many_empty; [done|lia|done]|done].
    + destruct (IH (size - e) ltac:(lia) e eq_refl (k + 1)%Z ltac:(lia)) as (o & H1 & _); [intros c' p Hc' Hp'; apply Hl; [done|lia]|apply Hl; [done|lia]|].
      exists (prepend ts o). split; [eapply peg_many_more; [done|lia|done|done|done]|]. apply peg_ends_in in H1. intros us E. destruct o as [|e' vs|]; [done| |done]. cbn in *. injection E as -> _. lia.
  - exists (ONeed e ts). split; [apply peg_many_need; [done|lia|done]|done].
Qed.

Lemma parser_total d : ∀ r i pos, pos ≤ size → size - pos = d → rank_of rank i = r → i < length (parsers_ arena) → peg_total i pos.
Proof.
  induction (lt_wf d) as [d _ IHd]. intros r. induction (lt_wf r) as [r _ IHr]. intros i pos Hp Hd Hr Hid. destruct (lookup_lt_is_Some_2 _ _ Hid) as [p Hlk].
  destruct (check_one _ _ Hlk) as (cs & Hcs & Hin & Hcalls & Hnul).
  assert (Hl : later pos) by (intros c q Hc Hq; eapply (IHd (size - q)); [lia|lia|done|done|done]).
  assert (Hcall : ∀ c, c ∈ calls arena nul p → c ∈ cs → peg_total c pos) by (intros c H1 H2; eapply (IHr (rank_of rank c)); [rewrite <- Hr; by apply Hcalls|done|done|done|by apply Hin]).
  destruct (is_leaf p) eqn:El.
  { destruct (proj1 (okP_ok _ _) (leaf_total input lenient arena nul p pos El)) as (o & Ho & Hm). exists (leaf_outcome o). split; [by eapply peg_leaf|]. intros ts E. apply Hnul.
    unfold leaf_outcome in E. destruct (r_type o) eqn:Et; [done| |done]. injection E as E _. by apply Hm. }
  assert (Hone : ∀ c f, calls arena nul p = [c] → cs = [c] → (∀ o, peg (One c) pos o → peg (One i) pos (f o)) → (∀ o ts, f o = OSuccess pos ts → may_be_empty arena nul p = true ∨ ∃ us, o = OSuccess pos us) →
    (may_be_empty arena nul p = is_nul nul c ∨ may_be_empty arena nul p = true) → peg_total i pos).
  { intros c f E1 E2 Hf Hfs Hme. destruct (Hcall c) as (o & Ho & Hn); [rewrite E1; set_solver|rewrite E2; set_solver|]. exists (f o). split; [by apply Hf|]. intros ts E.
    apply Hnul. destruct (Hfs o ts E) as [H|[us ->]]; [done|]. destruct Hme as [->| ->]; [|done]. by apply (Hn us). }
  assert (Hnode : ∀ rule tag o ts, node_of input rule tag o pos = OSuccess pos ts → ∃ us, o = OSuccess pos us) by (intros rule tag [|e us|e us] ts [= -> _]; by exists us).
  destruct p; try discriminate El; cbn [children_of calls may_be_empty from_option] in *; unfold id in *; try (injection Hcs as <-).
  - destruct (all_total children pos Hp Hl Hin) as (o & H1 & H2); [|exists o; split; [by eapply peg_sequence|intros ts E; by apply Hnul, (H2 ts)]].
    intros c Hc. apply Hcall; [done|]. by eapply front_in.
  - destruct (first_total children pos) as (o & H1 & H2); [intros c Hc; by apply Hcall|]. exists o. split; [by eapply peg_choice|]. intros ts E. by apply Hnul, (H2 ts).
  - destruct (many_total child min_count max_count (Hin child ltac:(set_solver)) pos 0%Z Hp Hl) as (o & H1 & H2); [apply Hcall; set_solver|]. exists o. split; [by eapply peg_repetition|].
    intros ts E. apply Hnul, bool_decide_eq_true_2. specialize (H2 ts E). lia.
  - apply (Hone child (λ o, look o pos)); [done|done|intros o; by eapply peg_and|by left|by right].
  - apply (Hone child (λ o, negated_look o pos)); [done|done|intros o; by eapply peg_not|by left|by right].
  - apply (Hone child (λ o, o)); [done|done|intros o; by eapply peg_schema|intros o ts ->; right; by exists ts|by left].
  - apply (Hone child (λ o, node_of input name [] o pos)); [done|done|intros o; by eapply peg_rule|intros o ts E; right; by eapply Hnode|by left].
  - destruct (rules_ arena !! name) as [c|] eqn:En; [|done]. cbn in *. injection Hcs as <-. apply (Hone c (λ o, o)); [done|done|intros o; by eapply peg_ref|intros o ts ->; right; by exists ts|by left].
  - apply (Hone child atomic_of); [done|done|intros o; by eapply peg_atomic| |by left]. intros [|e us|e us] ts E; [done| |done]. injection E as -> _. right. by exists us.
  - apply (Hone child (λ o, node_of input [] tag o pos)); [done|done|intros o; by eapply peg_tag|intros o ts E; right; by eapply Hnode|by left].
Qed.
End peg_total.

(** ** Theorems *)

(** C22. A parser ends on every text and never throws, if its arena passes the check: there is no rule that is missing and none that calls itself
    without having moved on.  The nodes are added to the arena, and the match lies between the start and the end of the text. *)
Theorem peg_parse_total arena input lenient id pos : terminating arena = true → id < length (parsers_ arena) → pos ≤ length input →
  ∀ ast, ends (λ n, parse_id arena input lenient n id ast pos) (λ x, ast `prefix_of` x.1 ∧ r_start x.2 = pos ∧ (r_type x.2 ≠ PEG_FAIL → pos ≤ r_end x.2 ≤ length input)).
Proof.
  intros Hc Hid Hp ast. destruct (parser_total arena input lenient _ _ Hc _ _ id pos Hp eq_refl eq_refl Hid) as (o & Ho & _).
  eapply ends_mono; [exact (parse_complete _ _ _ _ _ _ Ho ast)|]. intros x [H1 [H2 H3]]. split_and!; [done|done|]. apply peg_ends_in in Ho.
  destruct o as [|e ts|e ts]; [done|..]; destruct H3 as (_ & -> & _); cbn in Ho; intros _; lia.
Qed.




(** ** Examples *)

Example ex_arena_terminates : terminating ex_peg_arena = true.
Proof. vm_compute. reflexivity. Qed.

Lemma peg_parse_total_witness : ends (λ n, parse_id ex_peg_arena ex_peg_text false n 5 [] 0) (λ x, r_type x.2 ≠ PEG_FAIL → 0 ≤ r_end x.2 ≤ 6).
Proof. eapply ends_mono; [apply (peg_parse_total ex_peg_arena ex_peg_text false 5 0); [exact ex_arena_terminates|cbn; lia|cbn; lia]|]. intros x (_ & _ & H). exact H. Defined.


(** in a complete text, too, the first part of a delimiter at the end stops an until parser: "xa" *)
Example until_partial_at_end : exec_leaf [120; 97]%Z false (until_parser [[97; 98]%Z]) 0 = Ok (result_to PEG_SUCCESS 0 1).
Proof. vm_compute. reflexivity. Qed.
(** one or more of what matches the empty text fails in front of more text, although zero or more succeeds *)
Example one_or_more_empty : (λ x, r_type x.2) <$> parse_id (PegArena [epsilon_parser; repetition_parser 0 1 (-1)] ∅ (Some 1)) [120]%Z false 2 1 [] 0 = Ok PEG_FAIL.
Proof. vm_compute. reflexivity. Qed.
(** a parser that calls itself at the same place is found out *)
Example left_recursion_refused : terminating (PegArena [ref_parser [114]%Z; sequence_parser [0]; rule_parser [114]%Z 1 false] {[ [114]%Z := 2 ]} (Some 2)) = false.
Proof. vm_compute. reflexivity. Qed.
